(* ===== verification/_CoqProject ===== *)
-Q . S2P
Prelude.v
KadKey.v
KBucket.v
KTable.v
RecordStore.v
BTree.v
KadProto.v
KadQuery.v
PeerStore.v
KadCore.v
StdText.v
Varint.v
Multiaddr.v
Registry.v
Dial.v
Swarm.v
Framing.v
Multistream.v
Mplex.v
GossipCache.v
Float64.v
PeerScore.v
Identity.v
GossipRpc.v
GossipConfig.v
Gossipsub.v
GossipsubInv.v
GossipsubProps.v
Floodsub.v
Session.v
Plaintext.v
Secio.v
Noise.v
Pnet.v
Metrics.v
Services.v
Upgrade.v
Transports.v
Mdns.v
Stack.v
