(* ===== verification/Prelude.v ===== *)
(** * libp2p-rs: a verification development

    A model of the Rust network stack libp2p-rs, with the theorems that make its
    parts correct.  The code is translated into functions and step relations on
    explicit states; the theorems are about those definitions.

    ** The program

    A node is a [Swarm] ([swarm/src/lib.rs]): a main loop that owns the tables of
    the connections and serves the commands of its users and the events of its
    tasks.  To connect to a peer it asks the dialer ([swarm/src/dial.rs]) for the
    addresses that the peer store ([core/src/peerstore.rs]) or a routing protocol
    knows, as multiaddresses ([multiaddr/]).  On a connection the two sides agree
    on protocols by multistream-select ([core/src/multistream/]) and share it
    between streams by mplex ([protocols/mplex/]), after a security protocol has
    told them their keys: noise, secio or plaintext ([protocols/noise/],
    [protocols/secio/], [protocols/plaintext/]).  On the streams run the protocols: Kademlia
    ([protocols/kad/]), a distributed hash table whose node answers requests of
    remote peers and runs iterative queries, and the publish-subscribe routers
    gossipsub ([protocols/gossipsub/]) and floodsub ([protocols/floodsub/]).  Peers are named by their
    public keys ([core/src/identity.rs], [core/src/peer_id.rs]).

    ** Conventions

    - A Rust function is a Rocq function of the same name where the name is free; a
      prefix tells the type apart otherwise ([bucket_insert], [mc_put]).
    - A type is an [Inductive] with the constructors of the enum, or a [Record]
      with the fields of the struct.  A hash map is a [gmap], a hash set a [gset];
      where code iterates over one, the order is the class [HashOrder], of which
      only [HashOrderLaws] (an iteration visits every element once) is known.  A
      vector is a list.
    - Integers are [Z] or [nat], with the wrap-around, saturation or panic of the
      code written out where an operation can leave the width.  [f64] is
      [spec_float] with binary64 rounding ([Float64.v]).
    - [Result] is [result], with [let?] for the operator [?].  A function that can
      panic answers in [option], where [None] is the panic.
    - State is passed explicitly.  What a handler sends, answers or spawns is a list
      of effects or an output log.  Tasks that run concurrently are interleaved at
      their accesses to shared state, as a step relation.
    - [Instant::now()] and random numbers are arguments or come from a class.
    - Other crates (prost, sha2, multihash, unsigned-varint, rand, regex, bs58, the
      signature schemes) are classes: their operations are parameters and their
      documented behaviour is a class of laws.  The traits of the repository that
      one component uses of another (record stores, peer ids, multiaddresses,
      identities, data transforms) are classes too, whose instances are the
      implementations.

    ** The files

    Shared: [Prelude.v] (results, lists, bytes, stable sorting, loops that can
    panic), [BTree.v] (ordered maps), [StdText.v] (texts of the standard library),
    [Varint.v] (varints and byte streams), [Float64.v].

    Kademlia.  [KadKey.v]: keys and the XOR metric ([kbucket/key.rs]).
    [KBucket.v]: buckets and the entry API ([kbucket/bucket.rs],
    [kbucket/entry.rs]).  [KTable.v]: the routing table ([kbucket.rs]); it refines a
    partial map, and the lookup of the closest keys terminates and yields all keys
    sorted by distance.  [RecordStore.v]: records and the store ([record.rs],
    [record/store.rs], [record/store/memory.rs]).  [KadProto.v]: messages and their
    protobuf form ([protocol.rs]), with round trips.  [KadQuery.v]: iterative and
    fixed queries ([query.rs]) with their concurrent jobs; a query makes progress,
    contacts a peer at most once, ends within a bound and returns the closest
    peers.  [KadCore.v]: the node ([kad.rs]); its loop never panics, and what a
    remote peer can change is limited.

    Core and swarm.  [PeerStore.v], [Multiaddr.v] (binary and textual forms, round
    trips, refinement of lists of protocols), [Identity.v].  [Framing.v]: messages
    with a length prefix ([core/src/util/mod.rs],
    [core/src/multistream/length_delimited.rs]).  [Multistream.v]: the negotiation
    of protocols; dialer and listener agree and end.  [Mplex.v]: the multiplexer;
    what a stream delivers is a prefix of what was sent on it.  [Registry.v]:
    external addresses.  [Dial.v]: the dialer with its concurrent jobs; a dial ends
    with the peer asked for or an error.  [Swarm.v]: the main loop beside the
    dialer; every request is answered exactly once and always has a next step, and
    the tables of the connections agree.

    Gossipsub.  [GossipCache.v]: message cache, time caches, backoffs, promises and
    subscription filters.  [PeerScore.v]: the score.  [GossipRpc.v]: messages on the
    wire, signing, validation, fragmentation.  [GossipConfig.v]: the configuration
    and its builder.  [Gossipsub.v]: the router ([gossipsub.rs]) with every handler,
    command and the heartbeat.  [GossipsubInv.v]: its invariant, kept by every
    operation.  [GossipsubProps.v]: no input panics, sizes are bounded, the
    heartbeat maintains the mesh and tells the peers concerned, a message is
    delivered at most once within the time it is remembered, and a published
    message reaches the application of a remote subscriber.

    Floodsub.  [Floodsub.v]: the router with its packets, and networks of it; when
    no packet is left, a published message has reached every subscriber that a
    route of subscribers leads to.

    Secure channels.  [Session.v]: programs that write to and read from a socket,
    alone or against each other; the outcome of two such programs does not depend
    on the order of their steps.  [Plaintext.v], [Secio.v],
    [Noise.v]: the handshakes as such programs, and the encrypted streams of secio
    and noise, the latter as the state machines that are polled.  Two nodes complete
    a handshake in every order; a handshake that succeeds has authenticated the
    remote key; the streams deliver a prefix of what was written, and all of it in
    the end.

    ** Fuel and bounds

    Loops that are not structural are bounded by a number that the theorems show to
    be enough: the iteration over the buckets by their number ([KTable.v]), the
    parsers by the length of their input ([StdText.v], [Multiaddr.v], [Framing.v],
    [Secio.v], [Noise.v]), the runs of concurrent systems by explicit measures ([KadQuery.v], [Dial.v],
    [Multistream.v]).  The theorems about the gossipsub router assume that the
    clock stays below a horizon for which the configured durations can be added to
    an [Instant], that a configuration passed [build], and that at most [2^32 - 1]
    messages are asked for; [setting_ok] collects these conditions.

    ** Not modelled

    Sockets and their adapters (the TCP, DNS and WebSocket transports, the runtime
    crates), the mDNS service, the command lines, metrics and exporters are input
    and output.  The private network protector, yamux and the signature
    schemes are wrappers of cryptographic or third-party crates.  The in-memory
    transport and the upgrade combinators are not modelled either.  Of the swarm the bodies of the ping and identify tasks are left out: the main
    loop sees their results as events.  Of the peer store the file format and the
    latency averages are left out, of Kademlia the statistics and the bootstrap
    timer, and of multistream-select the adapters that hold a negotiated stream.
    [protocols/gossipsub/src/handler.rs] and the second half of [protocol.rs] there
    are not part of the build. *)

From Stdlib Require Import ZArith Lia.
From Stdlib Require String.
From stdpp Require Export base tactics option list list_numbers numbers gmap sorting.
From coqutil Require Export Byte.
From coqutil Require Import Word.LittleEndianList.

Declare Scope libp2p_scope.
Delimit Scope libp2p_scope with lp2p.
Create HintDb lp2p.

(** ** Results

    Rust's [Result<A, E>], with the [?] operator as a notation. *)

Inductive result (E A : Type) : Type :=
  | Ok (a : A)
  | Err (e : E).
Arguments Ok {E A} a.
Arguments Err {E A} e.

Definition result_bind {E A B} (r : result E A) (k : A → result E B) : result E B :=
  match r with
  | Ok a => k a
  | Err e => Err e
  end.

Definition result_ok {E A} (r : result E A) : option A :=
  match r with
  | Ok a => Some a
  | Err _ => None
  end.

Definition map_err {E F A} (f : E → F) (r : result E A) : result F A :=
  match r with
  | Ok a => Ok a
  | Err e => Err (f e)
  end.

Definition ok_or {E A} (e : E) (o : option A) : result E A :=
  match o with
  | Some a => Ok a
  | None => Err e
  end.

Notation "'let?' x := r 'in' k" := (result_bind r (fun x => k))
  (at level 10, x pattern, k at level 200) : libp2p_scope.
#[global] Open Scope libp2p_scope.

Lemma result_bind_ok {E A B} (r : result E A) (k : A → result E B) b :
  result_bind r k = Ok b ↔ ∃ a, r = Ok a ∧ k a = Ok b.
Proof. destruct r; naive_solver. Qed.

Lemma result_bind_err {E A B} (r : result E A) (k : A → result E B) e :
  result_bind r k = Err e ↔ r = Err e ∨ ∃ a, r = Ok a ∧ k a = Err e.
Proof. destruct r; naive_solver. Qed.

(** Closes a decidable closed goal by evaluation. *)
Ltac by_eval := refine (bool_decide_unpack _ _); vm_compute; exact I.

Lemma default_is_Some {A} (d : A) (o : option A) : is_Some o → o = Some (default d o).
Proof. by intros [x ->]. Qed.

(** ** Bytes and big-endian integers

    A [u8] is Rocq's [byte]; [byte.unsigned] is its value.  [be_combine] reads
    a byte string as a big-endian integer (Rust's [U256::from(&[u8])],
    [BigEndian::read_u16], ...) and [be_split n z] writes the [n] low bytes of
    [z], most significant first. *)

#[global] Instance byte_eq_decision : EqDecision Init.Byte.byte := Byte.byte_eq_dec.

#[global] Instance byte_inhabited : Inhabited Init.Byte.byte := populate Byte.x00.

#[global] Program Instance byte_countable : Countable Init.Byte.byte :=
  inj_countable Byte.to_N Byte.of_N _.
Next Obligation. intros b. apply Byte.of_to_N. Qed.

Abbreviation u8 := Init.Byte.byte.
Abbreviation bytes := (list Init.Byte.byte).

(** The bytes of an ASCII string. *)
Definition b_str (s : String.string) : bytes := String.list_byte_of_string s.

(** A type with a byte string view: [AsRef<[u8]>], [Borrow<[u8]>], [PeerId::to_bytes]. *)
Class ToBytes (T : Type) := to_bytes : T → bytes.
#[global] Hint Mode ToBytes ! : typeclass_instances.

Definition be_combine (bs : bytes) : Z := le_combine (reverse bs).

Definition be_split (n : nat) (z : Z) : bytes := reverse (le_split n z).

Lemma length_be_split n z : length (be_split n z) = n.
Proof. unfold be_split. by rewrite length_reverse, length_le_split. Qed.

Lemma be_combine_split n z : be_combine (be_split n z) = (z mod 2 ^ (Z.of_nat n * 8))%Z.
Proof. unfold be_combine, be_split. by rewrite reverse_involutive, le_combine_split. Qed.

Lemma be_combine_split_small n z :
  (0 ≤ z < 2 ^ (Z.of_nat n * 8))%Z → be_combine (be_split n z) = z.
Proof. intros. by rewrite be_combine_split, Z.mod_small. Qed.

Lemma be_split_combine bs : be_split (length bs) (be_combine bs) = bs.
Proof.
  unfold be_combine, be_split.
  rewrite <- (length_reverse bs), split_le_combine. apply reverse_involutive.
Qed.

Lemma be_combine_bound bs : (0 ≤ be_combine bs < 2 ^ (8 * Z.of_nat (length bs)))%Z.
Proof. unfold be_combine. rewrite <- (length_reverse bs). apply le_combine_bound. Qed.

Lemma lor_shiftl_add a b n :
  (0 ≤ n → 0 ≤ a < 2 ^ n → Z.lor a (Z.shiftl b n) = a + b * 2 ^ n)%Z.
Proof.
  intros Hn [Ha Hlt]. rewrite <-Z.shiftl_mul_pow2 by done.
  rewrite <-(Z.add_lor_land a). enough (Z.land a (Z.shiftl b n) = 0)%Z by lia.
  apply Z.bits_inj'. intros i Hi. rewrite Z.land_spec, Z.bits_0, Z.shiftl_spec by done.
  destruct (Z.lt_ge_cases i n).
  - rewrite (Z.testbit_neg_r b) by lia. apply andb_false_r.
  - rewrite <-(Z.mod_small a (2 ^ n)) by done. by rewrite Z.mod_pow2_bits_high by lia.
Qed.

Lemma be_combine_app l1 l2 :
  (be_combine (l1 ++ l2) = be_combine l1 * 2 ^ (8 * Z.of_nat (length l2)) + be_combine l2)%Z.
Proof.
  unfold be_combine. rewrite reverse_app, le_combine_app, length_reverse.
  pose proof (le_combine_bound (reverse l2)) as Hb. rewrite length_reverse in Hb.
  rewrite (Z.mul_comm (Z.of_nat _) 8), lor_shiftl_add by lia. lia.
Qed.

Lemma be_combine_singleton b : be_combine [b] = byte.unsigned b.
Proof. apply le_combine_1. Qed.

Lemma be_combine_zeros n : be_combine (replicate n Byte.x00) = 0%Z.
Proof.
  unfold be_combine. rewrite reverse_replicate.
  replace (replicate n Byte.x00) with (List.repeat Byte.x00 n); [apply le_combine_0|].
  induction n; simpl; congruence.
Qed.

Lemma be_combine_inj bs bs' :
  length bs = length bs' → be_combine bs = be_combine bs' → bs = bs'.
Proof.
  unfold be_combine. intros Hl Hc. apply (inj reverse).
  apply le_combine_inj; [by rewrite !length_reverse | done].
Qed.

#[global] Opaque be_combine be_split.

(** ** Vectors

    The [Vec] operations of the source that Rocq's lists lack: the index of the
    first element satisfying a test ([iter().position]), insertion at an index
    ([Vec::insert]), and the stable sort ([sort_by]). *)

Section vec.
Context {A : Type}.
Implicit Types (f : A → bool) (lt : A → A → bool) (l : list A) (x y : A).

Fixpoint position f l : option nat :=
  match l with
  | [] => None
  | x :: l => if f x then Some 0 else S <$> position f l
  end.

Definition insert_at (i : nat) x l : list A := take i l ++ x :: drop i l.

(** Rust's [Iterator::min_by]: the first minimal element. *)
Definition min_by (lt : A → A → bool) l : option A :=
  match l with
  | [] => None
  | x :: l => Some (foldl (λ m y, if lt y m then y else m) x l)
  end.

Lemma position_None f l : position f l = None ↔ Forall (λ x, f x = false) l.
Proof.
  induction l as [|x l IH]; simpl; [by split|].
  rewrite Forall_cons, <- IH. destruct (f x), (position f l); naive_solver.
Qed.

Lemma position_Some f l i :
  position f l = Some i →
  ∃ x, l !! i = Some x ∧ f x = true ∧ Forall (λ y, f y = false) (take i l).
Proof.
  revert i. induction l as [|x l IH]; intros i; simpl; [done|].
  destruct (f x) eqn:Hx; [intros [= <-]; exists x; simpl; auto|].
  destruct (position f l) as [j|]; [|done]. intros [= <-].
  destruct (IH j) as (y&?&?&?); [done|]. exists y; simpl. auto.
Qed.

Lemma position_lt f l i : position f l = Some i → i < length l.
Proof. intros (x&Hx&_)%position_Some. by apply lookup_lt_Some in Hx. Qed.

Lemma insert_at_perm i x l : insert_at i x l ≡ₚ x :: l.
Proof. unfold insert_at. by rewrite <- Permutation_middle, take_drop. Qed.

Lemma length_insert_at i x l : length (insert_at i x l) = S (length l).
Proof. by rewrite insert_at_perm. Qed.

Lemma delete_perm (i : nat) x l : l !! i = Some x → l ≡ₚ x :: delete i l.
Proof. apply delete_Permutation. Qed.

Lemma insert_delete_perm (i : nat) x l : i < length l → <[i:=x]> l ≡ₚ x :: delete i l.
Proof.
  intros Hi. rewrite insert_take_drop, delete_take_drop by done.
  symmetry. apply Permutation_middle.
Qed.

Lemma Forall_delete (P : A → Prop) (i : nat) l : Forall P l → Forall P (delete i l).
Proof. rewrite delete_take_drop, Forall_app. eauto using Forall_take, Forall_drop. Qed.

Lemma foldl_min_elem lt x l :
  foldl (λ m y, if lt y m then y else m) x l ∈ x :: l.
Proof.
  revert x. induction l as [|y l IH]; intros x; simpl; [set_solver|].
  specialize (IH (if lt y x then y else x)). destruct (lt y x); set_solver.
Qed.

Lemma min_by_elem lt l m : min_by lt l = Some m → m ∈ l.
Proof. destruct l; [done|]. intros [= <-]. apply foldl_min_elem. Qed.

Lemma min_by_None lt l : min_by lt l = None ↔ l = [].
Proof. by destruct l. Qed.
End vec.

(** The stable sort, by a boolean order [leb]. *)
Section sort_by.
Context {A : Type} (leb : A → A → bool).

Fixpoint sort_insert (x : A) (l : list A) : list A :=
  match l with
  | [] => [x]
  | y :: t => if leb x y then x :: y :: t else y :: sort_insert x t
  end.

Fixpoint sort_by (l : list A) : list A :=
  match l with
  | [] => []
  | x :: t => sort_insert x (sort_by t)
  end.

Lemma sort_insert_perm x l : sort_insert x l ≡ₚ x :: l.
Proof.
  induction l as [|y t IH]; simpl; [done|]. destruct (leb x y); [done|].
  etrans; [by apply perm_skip|constructor].
Qed.

Lemma sort_by_perm l : sort_by l ≡ₚ l.
Proof. induction l as [|x t IH]; simpl; [done|]. etrans; [apply sort_insert_perm|by apply perm_skip]. Qed.

Lemma length_sort_by l : length (sort_by l) = length l.
Proof. by rewrite sort_by_perm. Qed.

Lemma elem_of_sort_by x l : x ∈ sort_by l ↔ x ∈ l.
Proof. by rewrite sort_by_perm. Qed.

Hypothesis leb_total : ∀ x y, leb x y = true ∨ leb y x = true.
Hypothesis leb_trans : ∀ x y z, leb x y = true → leb y z = true → leb x z = true.

Lemma sort_insert_sorted x l :
  StronglySorted (λ a b, leb a b = true) l →
  StronglySorted (λ a b, leb a b = true) (sort_insert x l).
Proof.
  induction 1 as [|y t Ht IH Hy]; simpl; [repeat constructor|].
  destruct (leb x y) eqn:Hxy.
  - repeat (constructor; auto). eapply Forall_impl; [exact Hy|]. eauto.
  - constructor; [done|]. rewrite sort_insert_perm. constructor; [|done].
    by destruct (leb_total x y) as [?|?]; [congruence|].
Qed.

Lemma sort_by_sorted l : StronglySorted (λ a b, leb a b = true) (sort_by l).
Proof. induction l; simpl; [constructor|]. by apply sort_insert_sorted. Qed.
End sort_by.

Lemma sort_by_key_sorted {A} (key : A → Z) l :
  StronglySorted (λ a b, key a ≤ key b)%Z (sort_by (λ a b, (key a <=? key b)%Z) l).
Proof.
  pose proof (sort_by_sorted (λ a b, (key a <=? key b)%Z)) as H.
  specialize (H ltac:(intros; rewrite !Z.leb_le; lia)
                ltac:(intros ???; rewrite !Z.leb_le; lia) l).
  induction H as [|x t Ht IH Hx]; constructor; [done|].
  eapply Forall_impl; [exact Hx|]. intros y Hy. by apply Z.leb_le.
Qed.

Lemma filter_none {A} (P : A → Prop) `{∀ x, Decision (P x)} (l : list A) :
  (∀ x, x ∈ l → ¬ P x) → filter P l = [].
Proof.
  induction l as [|x l IH]; intros Hl; [done|]. rewrite filter_cons, decide_False by set_solver.
  set_solver.
Qed.

(** [Iterator::take_while]. *)
Fixpoint take_while {A} (f : A → bool) (l : list A) : list A :=
  match l with
  | [] => []
  | x :: l => if f x then x :: take_while f l else []
  end.

Lemma take_while_app {A} (f : A → bool) l1 x l2 :
  Forall (λ y, f y = true) l1 → f x = false → take_while f (l1 ++ x :: l2) = l1.
Proof.
  intros Hall Hx. induction Hall as [|y l1 Hy Hall IH]; simpl; [by rewrite Hx|].
  by rewrite Hy, IH.
Qed.

Lemma sum_list_fmap {A} (g : A → nat) l : sum_list (g <$> l) = sum_list_with g l.
Proof. induction l as [|x l IH]; [done|]. simpl. by rewrite <-IH. Qed.

Lemma length_filter_bind {A B} (P : B → Prop) `{∀ x, Decision (P x)} (f : A → list B) l :
  length (filter P (l ≫= f)) = sum_list_with (λ x, length (filter P (f x))) l.
Proof.
  induction l as [|x l IH]; [done|]. rewrite bind_cons, filter_app, length_app, IH. done.
Qed.

Lemma sum_list_filter {A} (P : A → Prop) `{∀ x, Decision (P x)} (g : A → nat) l :
  (∀ x, x ∈ l → ¬ P x → g x = 0) → sum_list_with g (filter P l) = sum_list_with g l.
Proof.
  induction l as [|x l IH]; intros Hg; [done|]. rewrite filter_cons. simpl.
  rewrite <-IH by set_solver. case_decide as HP; [done|].
  rewrite (Hg x); [done|set_solver|done].
Qed.

Lemma sum_list_with_ext {A} (f g : A → nat) l :
  (∀ x, x ∈ l → f x = g x) → sum_list_with f l = sum_list_with g l.
Proof.
  induction l as [|x l IH]; intros Hfg; [done|]. simpl. rewrite (Hfg x) by set_solver.
  rewrite IH by set_solver. done.
Qed.

Lemma filter_length_ext {A} (P Q : A → Prop)
    `{∀ x, Decision (P x)} `{∀ x, Decision (Q x)} l :
  (∀ x, x ∈ l → P x ↔ Q x) → length (filter P l) = length (filter Q l).
Proof.
  induction l as [|x l IH]; intros HPQ; [done|]. rewrite !filter_cons.
  rewrite (decide_ext (P x) (Q x)) by set_solver.
  case_decide; simpl; rewrite IH by set_solver; done.
Qed.

Lemma filter_all {A} (P : A → Prop) `{∀ x, Decision (P x)} (l : list A) :
  (∀ x, x ∈ l → P x) → filter P l = l.
Proof.
  induction l as [|x l IH]; intros Hl; [done|]. rewrite filter_cons, decide_True by set_solver.
  rewrite IH by set_solver. done.
Qed.

(** ** Stable insertion

    [insert_after] puts an element behind those that are not greater, which is
    how a vector is kept sorted by insertion; starting from an empty vector it
    computes the stable sort. *)

Section insert_after.
Context {A : Type} (key : A → Z).

Fixpoint insert_after (x : A) (l : list A) : list A :=
  match l with
  | [] => [x]
  | y :: l => if (key x <? key y)%Z then x :: y :: l else y :: insert_after x l
  end.

Local Abbreviation key_sort := (sort_by (λ a b, key a <=? key b)%Z).

Lemma insert_after_position x l :
  insert_after x l =
    match position (λ y, key x <? key y)%Z l with
    | Some i => insert_at i x l
    | None => l ++ [x]
    end.
Proof.
  induction l as [|y l IH]; [done|]. simpl. destruct (key x <? key y)%Z; [done|].
  rewrite IH. by destruct (position _ l).
Qed.

Lemma insert_after_perm x l : insert_after x l ≡ₚ x :: l.
Proof.
  induction l as [|y l IH]; simpl; [done|]. destruct (_ <? _)%Z; [done|].
  etrans; [by apply perm_skip|apply perm_swap].
Qed.

Lemma insert_after_comm x y l :
  insert_after x (sort_insert (λ a b, key a <=? key b)%Z y l) =
  sort_insert (λ a b, key a <=? key b)%Z y (insert_after x l).
Proof.
  induction l as [|z l IH]; simpl.
  - destruct (Z.ltb_spec (key x) (key y)), (Z.leb_spec (key y) (key x)); simpl; try done; lia.
  - destruct (Z.leb_spec (key y) (key z)), (Z.ltb_spec (key x) (key z)); simpl;
      destruct (Z.ltb_spec (key x) (key y)), (Z.leb_spec (key y) (key x)); simpl; try lia;
      repeat match goal with
        | |- context [(?a <? ?b)%Z] => destruct (Z.ltb_spec a b); try lia
        | |- context [(?a <=? ?b)%Z] => destruct (Z.leb_spec a b); try lia
        end; by rewrite ?IH.
Qed.

Lemma sort_by_snoc x l : key_sort (l ++ [x]) = insert_after x (key_sort l).
Proof. induction l as [|y l IH]; [done|]. simpl. by rewrite IH, insert_after_comm. Qed.

Lemma foldl_insert_after l : foldl (λ acc x, insert_after x acc) [] l = key_sort l.
Proof.
  induction l as [|x l IH] using rev_ind; [done|]. by rewrite foldl_app, sort_by_snoc, IH.
Qed.

Lemma take_insert_after n x l :
  take n (insert_after x (take n l)) = take n (insert_after x l).
Proof.
  revert n. induction l as [|y l IH]; intros [|n]; simpl; [done..|].
  destruct (_ <? _)%Z; simpl.
  - destruct n; [done|]. simpl. by rewrite take_take, Nat.min_l by lia.
  - by rewrite IH.
Qed.
End insert_after.

(** Removing the first element with a given image, where images are distinct. *)
Lemma delete_position_filter {A B} `{EqDecision B} (f : A → B) (b : B) l :
  NoDup (f <$> l) →
  match position (λ x, bool_decide (f x = b)) l with
  | Some i => delete i l
  | None => l
  end = filter (λ x, f x ≠ b) l.
Proof.
  induction l as [|x l IH]; intros Hnd; [done|]. rewrite fmap_cons in Hnd.
  apply NoDup_cons in Hnd as [Hx Hnd]. simpl. rewrite filter_cons.
  destruct (decide (f x = b)) as [<-|Hne].
  - rewrite bool_decide_true, decide_False by tauto. simpl. symmetry. apply filter_all.
    intros y Hy Heq. apply Hx. rewrite <-Heq. by apply list_elem_of_fmap_2.
  - rewrite bool_decide_false, decide_True by done. rewrite <-IH by done.
    by destruct (position _ l).
Qed.

Lemma Forall_filter {A} (P Q : A → Prop) `{∀ x, Decision (Q x)} l :
  Forall P l → Forall P (filter Q l).
Proof. rewrite !Forall_forall. intros HP x [_ ?]%list_elem_of_filter. auto. Qed.

Lemma filter_elem_ext {A} (P Q : A → Prop)
    `{∀ x, Decision (P x)} `{∀ x, Decision (Q x)} (l : list A) :
  (∀ x, x ∈ l → P x ↔ Q x) → filter P l = filter Q l.
Proof.
  induction l as [|x l IH]; intros HPQ; [done|]. rewrite !filter_cons.
  rewrite (decide_ext (P x) (Q x)), IH by set_solver. done.
Qed.

Lemma NoDup_fmap_inj {A B} (f : A → B) (l : list A) x y :
  NoDup (f <$> l) → x ∈ l → y ∈ l → f x = f y → x = y.
Proof.
  intros Hnd [i Hi]%list_elem_of_lookup [j Hj]%list_elem_of_lookup Hf.
  assert (i = j) as ->; [|congruence].
  eapply NoDup_lookup; [exact Hnd|..]; rewrite list_lookup_fmap; [by rewrite Hi|].
  rewrite Hj. simpl. by rewrite Hf.
Qed.

(** The prefix of a sorted list holds its least elements. *)
Lemma StronglySorted_take_or {A} (R : A → A → Prop) n (l : list A) x :
  StronglySorted R l → x ∈ l →
  x ∈ take n l ∨ (length (take n l) = n ∧ ∀ y, y ∈ take n l → R y x).
Proof.
  intros Hs Hx. rewrite <-(take_drop n l) in Hx. apply elem_of_app in Hx as [Hx|Hx]; [by left|].
  right. split.
  - rewrite length_take. destruct (Nat.le_gt_cases n (length l)); [lia|].
    rewrite drop_ge in Hx by lia. by apply not_elem_of_nil in Hx.
  - intros y Hy. rewrite <-(take_drop n l) in Hs. by eapply StronglySorted_app_1_elem_of.
Qed.

Lemma elem_of_take_elem {A} (x : A) n l : x ∈ take n l → x ∈ l.
Proof. intros Hx. rewrite <-(take_drop n l). apply elem_of_app. by left. Qed.

(** What a prefix of a sorted list leaves out. *)
Lemma sorted_take_rest {A} (R : A → A → Prop) n l (x : A) :
  StronglySorted R l → x ∈ l → x ∉ take n l →
  length (take n l) = n ∧ ∀ y, y ∈ take n l → R y x.
Proof.
  intros Hs Hx Hout. assert (Hx' : x ∈ drop n l).
  { rewrite <-(take_drop n l), elem_of_app in Hx. by destruct Hx. }
  split.
  - rewrite length_take. destruct (decide (n ≤ length l)); [lia|].
    rewrite drop_ge in Hx' by lia. by apply not_elem_of_nil in Hx'.
  - rewrite <-(take_drop n l) in Hs. intros y Hy. clear Hx Hout.
    induction (take n l) as [|z zs IH]; [by apply not_elem_of_nil in Hy|].
    simpl in Hs. apply StronglySorted_inv in Hs as [Hs Hall]. rewrite Forall_forall in Hall.
    apply elem_of_cons in Hy as [->|Hy]; [|by apply IH]. apply Hall, elem_of_app. by right.
Qed.

Lemma StronglySorted_filter {A} (R : A → A → Prop) (P : A → Prop) `{∀ x, Decision (P x)} l :
  StronglySorted R l → StronglySorted R (filter P l).
Proof.
  induction 1 as [|x l Hl IH Hx]; [constructor|]. rewrite filter_cons.
  case_decide; [|done]. constructor; [done|]. by apply Forall_filter.
Qed.

Lemma StronglySorted_fmap {A B} (R : B → B → Prop) (f : A → B) (l : list A) :
  StronglySorted (λ x y, R (f x) (f y)) l ↔ StronglySorted R (f <$> l).
Proof.
  induction l as [|x l IH]; [split; constructor|]. rewrite fmap_cons. split.
  - intros [? Hx]%StronglySorted_inv. constructor; [by apply IH|]. rewrite Forall_fmap. exact Hx.
  - intros [? Hx]%StronglySorted_inv. constructor; [by apply IH|]. rewrite Forall_fmap in Hx. exact Hx.
Qed.

Lemma StronglySorted_take {A} (R : A → A → Prop) n (l : list A) :
  StronglySorted R l → StronglySorted R (take n l).
Proof.
  intros Hs. rewrite <-(take_drop n l) in Hs. by apply StronglySorted_app_1_l in Hs.
Qed.

Lemma StronglySorted_impl_elem {A} (R S : A → A → Prop) (l : list A) :
  StronglySorted R l → (∀ x y, x ∈ l → y ∈ l → R x y → S x y) → StronglySorted S l.
Proof.
  induction 1 as [|x l Hl IH Hx]; intros Himpl; constructor.
  - apply IH. intros. apply Himpl; [by right|by right|done].
  - rewrite Forall_forall in Hx |- *. intros y Hy. apply Himpl; [by left|by right|auto].
Qed.

(** [Iterator::skip_while]. *)
Fixpoint drop_while {A} (f : A → bool) (l : list A) : list A :=
  match l with
  | [] => []
  | x :: l' => if f x then drop_while f l' else l
  end.

(** ** Counting in maps *)

Section mcount.
Context `{Countable K} {A : Type}.
Implicit Types (P : A → Prop) (m : gmap K A).

(** The number of values of a map with a property. *)
Definition mcount P `{∀ x, Decision (P x)} m : nat := size (filter (λ kv, P kv.2) m).

Lemma mcount_empty P `{∀ x, Decision (P x)} : mcount P (∅ : gmap K A) = 0.
Proof. unfold mcount. by rewrite map_filter_empty, map_size_empty. Qed.

Lemma mcount_insert_new P `{∀ x, Decision (P x)} m k v :
  m !! k = None → mcount P (<[k := v]> m) = mcount P m + if decide (P v) then 1 else 0.
Proof.
  intros Hk. unfold mcount. case_decide as HP.
  - rewrite map_filter_insert_True by done. rewrite map_size_insert_None; [lia|].
    apply map_lookup_filter_None. by left.
  - rewrite map_filter_insert_False, delete_id by done. lia.
Qed.

Lemma mcount_delete P `{∀ x, Decision (P x)} m k v :
  m !! k = Some v → mcount P (delete k m) + (if decide (P v) then 1 else 0) = mcount P m.
Proof.
  intros Hk. rewrite <-(insert_delete_id m k v Hk) at 2.
  by rewrite mcount_insert_new by (by rewrite lookup_delete_eq).
Qed.

Lemma mcount_insert P `{∀ x, Decision (P x)} m k v v0 :
  m !! k = Some v0 →
  mcount P (<[k := v]> m) + (if decide (P v0) then 1 else 0) =
  mcount P m + (if decide (P v) then 1 else 0).
Proof.
  intros Hk. rewrite <-(mcount_delete P m k v0 Hk), <-insert_delete_eq.
  rewrite mcount_insert_new by (by rewrite lookup_delete_eq). lia.
Qed.

Lemma mcount_pos P `{∀ x, Decision (P x)} m :
  0 < mcount P m → ∃ k v, m !! k = Some v ∧ P v.
Proof.
  unfold mcount. intros Hs. destruct (map_choose (filter (λ kv, P kv.2) m)) as (k&v&Hk).
  - intros He. rewrite He, map_size_empty in Hs. lia.
  - apply map_lookup_filter_Some in Hk as [? ?]. eauto.
Qed.

Lemma mcount_zero P `{∀ x, Decision (P x)} m : (∀ k v, m !! k = Some v → ¬ P v) → mcount P m = 0.
Proof.
  intros Hn. destruct (mcount P m) eqn:Hc; [done|]. exfalso.
  destruct (mcount_pos P m) as (k&v&Hk&HP); [lia|]. by eapply Hn.
Qed.

Lemma mcount_ext P Q `{∀ x, Decision (P x)} `{∀ x, Decision (Q x)} m :
  (∀ k v, m !! k = Some v → P v ↔ Q v) → mcount P m = mcount Q m.
Proof.
  intros HPQ. unfold mcount. f_equal. apply map_filter_ext. intros k v Hk. simpl. by apply (HPQ k).
Qed.
End mcount.

(** ** Sorting by a small number of keys

    The stable sort by a key that ranges over [ks] is the concatenation of the
    elements with each key. *)

Section buckets.
Context {A : Type} (key : A → Z).

Definition buckets (ks : list Z) (l : list A) : list A := ks ≫= λ k, filter (λ a, key a = k) l.

Lemma buckets_skip ks x l : key x ∉ ks → buckets ks (x :: l) = buckets ks l.
Proof.
  intros Hx. unfold buckets. induction ks as [|k ks IH]; [done|]. rewrite !bind_cons.
  rewrite IH by set_solver. f_equal. rewrite filter_cons, decide_False; [done|set_solver].
Qed.

Lemma sort_insert_skip x l1 l2 :
  Forall (λ y, key y < key x)%Z l1 →
  sort_insert (λ a b, key a <=? key b)%Z x (l1 ++ l2) =
    l1 ++ sort_insert (λ a b, key a <=? key b)%Z x l2.
Proof.
  induction 1 as [|y l1 Hy Hl IH]; [done|]. simpl.
  destruct (Z.leb_spec (key x) (key y)); [lia|]. by rewrite IH.
Qed.

Lemma sort_insert_buckets ks x l :
  StronglySorted Z.lt ks → key x ∈ ks →
  sort_insert (λ a b, key a <=? key b)%Z x (buckets ks l) = buckets ks (x :: l).
Proof.
  induction 1 as [|k ks Hks IH Hk]; [set_solver|]. intros Hx. rewrite Forall_forall in Hk.
  assert (Hb : ∀ ks' : list Z, buckets (k :: ks') l = filter (λ a, key a = k) l ++ buckets ks' l) by done.
  destruct (decide (key x = k)) as [Hxk|Hne].
  - assert (Hle : Forall (λ y, key x ≤ key y)%Z (buckets (k :: ks) l)).
    { apply Forall_forall. intros y. unfold buckets. rewrite list_elem_of_bind.
      intros (k'&[Hy _]%list_elem_of_filter&[->|Hin]%elem_of_cons); [lia|].
      specialize (Hk k' Hin). lia. }
    unfold buckets at 2. rewrite bind_cons, filter_cons, decide_True by done.
    change (ks ≫= _) with (buckets ks (x :: l)). rewrite buckets_skip.
    + cbn [app]. rewrite <-Hb. destruct (buckets (k :: ks) l) as [|y t]; [done|]. simpl.
      apply Forall_cons in Hle as [Hle _]. by destruct (Z.leb_spec (key x) (key y)); [|lia].
    + intros Hin. specialize (Hk _ Hin). lia.
  - assert (Hin : key x ∈ ks) by set_solver. specialize (Hk _ Hin).
    rewrite Hb, sort_insert_skip.
    + rewrite IH by done. unfold buckets at 2. rewrite bind_cons, filter_cons, decide_False by done. done.
    + apply Forall_forall. intros y [-> _]%list_elem_of_filter. lia.
Qed.

Lemma sort_by_buckets ks l :
  StronglySorted Z.lt ks → Forall (λ a, key a ∈ ks) l →
  sort_by (λ a b, key a <=? key b)%Z l = buckets ks l.
Proof.
  intros Hks. induction 1 as [|x l Hx Hl IH]; simpl.
  - unfold buckets. clear. induction ks as [|k ks IH]; [done|]. by rewrite bind_cons, <-IH.
  - by rewrite IH, sort_insert_buckets.
Qed.
End buckets.

(** The largest [usize] of a 64-bit target. *)
Definition usize_max : Z := (2 ^ 64 - 1)%Z.

(** The iteration order of a hash map or hash set: some permutation of its
    elements. *)
Class HashOrder := hash_iter : ∀ {A : Type}, list A → list A.

Class HashOrderLaws `{!HashOrder} : Prop :=
  hash_iter_perm : ∀ (A : Type) (l : list A), hash_iter l ≡ₚ l.

(** ** Loops that can panic *)

Section foldlM.
Context {St A : Type}.
Implicit Types (f : St → A → option St) (s : St) (l : list A).

Fixpoint foldlM f s l : option St :=
  match l with [] => Some s | x :: l => s ← f s x; foldlM f s l end.

Lemma foldlM_app f s l1 l2 : foldlM f s (l1 ++ l2) = (s ← foldlM f s l1; foldlM f s l2).
Proof. revert s. induction l1 as [|x l1 IH]; intros s; [done|]. simpl. destruct (f s x); simpl; auto. Qed.

(** A loop whose body never panics from the states of an invariant. *)
Lemma foldlM_total (P : St → Prop) f s l :
  P s → (∀ s x, x ∈ l → P s → ∃ s', f s x = Some s' ∧ P s') → ∃ s', foldlM f s l = Some s' ∧ P s'.
Proof.
  intros HP Hf. revert s HP. induction l as [|x l IH]; intros s HP; simpl; [by eauto|].
  destruct (Hf s x) as (s1&->&HP1); [by left|done|]. simpl. apply IH; [|done].
  intros s' y Hy. apply Hf. by right.
Qed.

Lemma foldlM_inv (P : St → Prop) f s l s' :
  P s → (∀ s x s', x ∈ l → P s → f s x = Some s' → P s') → foldlM f s l = Some s' → P s'.
Proof.
  intros HP Hf. revert s HP. induction l as [|x l IH]; intros s HP; simpl; [by intros [= <-]|].
  destruct (f s x) as [s1|] eqn:Hs1; [|done]. simpl. apply IH.
  - intros s0 y s2 Hy. apply Hf. by right.
  - eapply Hf; [by left|done|done].
Qed.
End foldlM.

(** ** Numbers as bytes

    The bits of a number, a byte each: an encoding for anything countable. *)

Fixpoint bits_of (p : positive) : list Init.Byte.byte :=
  match p with xH => [] | xO p => Byte.x00 :: bits_of p | xI p => Byte.x01 :: bits_of p end.
Fixpoint of_bits (b : list Init.Byte.byte) : positive :=
  match b with [] => xH | Byte.x00 :: b => xO (of_bits b) | _ :: b => xI (of_bits b) end.

Lemma of_bits_of p : of_bits (bits_of p) = p.
Proof. by induction p; simpl; f_equal. Qed.
