(* ===== verification/KadKey.v ===== *)
(** * The Kademlia keyspace: [protocols/kad/src/kbucket/key.rs]

    [KeyBytes] are the 32 raw bytes of a key, [Key] a key with its preimage,
    [Distance] the XOR distance, a 256-bit unsigned integer.  SHA-256 (the
    [sha2] crate) is a parameter, [Sha256], whose result type already says that
    a digest has 32 bytes.  [U256] (the [primitive_types] crate) is a 256-bit
    integer kept as a [Z] in [[0, 2^256)].

    The theorems show that the distance is a metric with the XOR properties the
    routing table relies on, that [for_distance] inverts it, and that [ilog2]
    is the index of the highest bit in which two keys differ. *)

From Stdlib Require Import ZArith Lia.
From S2P Require Import Prelude.

Local Open Scope Z_scope.

(** The raw bytes of a key: Rust's [GenericArray<u8, U32>]. *)
Record KeyBytes := mk_KeyBytes {
  key_bytes : bytes;
  key_bytes_len : Nat.eqb (length key_bytes) 32 = true
}.

Abbreviation Distance := Z (only parsing).

Definition u256 (z : Z) : Prop := 0 ≤ z < 2 ^ 256.

(** A type whose values carry the bytes of a key: [AsRef<KeyBytes>]. *)
Class AsKeyBytes (K : Type) := as_key : K → KeyBytes.
#[global] Hint Mode AsKeyBytes ! : typeclass_instances.

#[global] Instance KeyBytes_as_key : AsKeyBytes KeyBytes := λ k, k.

(** A key with its preimage. *)
Record Key (T : Type) := mk_Key {
  preimage : T;
  key_raw : KeyBytes
}.
Arguments mk_Key {T} _ _.
Arguments preimage {T} _.
Arguments key_raw {T} _.

#[global] Instance Key_as_key {T} : AsKeyBytes (Key T) := key_raw.

(** SHA-256, of the [sha2] crate. *)
Class Sha256 := sha256 : bytes → KeyBytes.

Definition KeyBytes_new `{Sha256} (value : bytes) : KeyBytes := sha256 value.

Definition Key_new `{Sha256, ToBytes T} (p : T) : Key T := mk_Key p (KeyBytes_new (to_bytes p)).

(** [U256::from(self.0.as_slice())]. *)
Definition u256_of (k : KeyBytes) : Z := be_combine (key_bytes k).

Definition distance (a b : KeyBytes) : Distance := Z.lxor (u256_of a) (u256_of b).

Lemma for_distance_len (z : Z) : Nat.eqb (length (be_split 32 z)) 32 = true.
Proof. by rewrite length_be_split. Qed.

Definition for_distance (k : KeyBytes) (d : Distance) : KeyBytes :=
  let key_int := Z.lxor (u256_of k) d in
  mk_KeyBytes (be_split 32 key_int) (for_distance_len key_int).

(** [U256::leading_zeros]: the width less the position of the highest set bit. *)
Definition leading_zeros (z : Z) : Z := 256 - (if z =? 0 then 0 else Z.log2 z + 1).

(** [u32::checked_sub]. *)
Definition checked_sub (a b : Z) : option Z := if a <? b then None else Some (a - b).

Definition ilog2 (d : Distance) : option Z := checked_sub (256 - leading_zeros d) 1.

(** ** Bit-level helper lemmas *)

(** Two naturals are ordered by the highest bit in which they differ. *)
Lemma lt_top_bit x y i :
  0 ≤ x → 0 ≤ y → 0 ≤ i →
  Z.testbit x i = false → Z.testbit y i = true →
  (∀ j, i < j → Z.testbit x j = Z.testbit y j) → x < y.
Proof.
  intros Hx Hy Hi Hxi Hyi Hj.
  assert (x / 2 ^ (i + 1) = y / 2 ^ (i + 1)) as Hhigh.
  { apply Z.bits_inj'. intros n Hn. rewrite !Z.div_pow2_bits by lia. apply Hj. lia. }
  assert (∀ z, 0 ≤ z → z / 2 ^ i = 2 * (z / 2 ^ (i + 1)) + Z.b2z (Z.testbit z i)) as Hsplit.
  { intros z Hz. rewrite Z.testbit_spec' by lia. rewrite Z.pow_add_r by lia.
    rewrite <- Z.div_div by lia. change (2 ^ 1) with 2. apply Z.div_mod. lia. }
  apply Hsplit in Hx as Hx'. apply Hsplit in Hy as Hy'.
  rewrite Hxi in Hx'. rewrite Hyi in Hy'. simpl in *.
  destruct (Z.lt_ge_cases x y) as [|Hge]; [done|].
  apply (Z.div_le_mono _ _ (2 ^ i)) in Hge; [lia|]. apply Z.pow_pos_nonneg; lia.
Qed.

Lemma u256_of_range k : u256 (u256_of k).
Proof.
  unfold u256, u256_of. pose proof (be_combine_bound (key_bytes k)) as Hb.
  destruct k as [bs Hl]; simpl in *. apply Nat.eqb_eq in Hl. rewrite Hl in Hb. lia.
Qed.

Lemma u256_testbit z i : u256 z → 256 ≤ i → Z.testbit z i = false.
Proof.
  intros [Hz0 Hz] Hi. destruct (Z.eq_dec z 0) as [->|]; [apply Z.testbit_0_l|].
  apply Z.bits_above_log2; [done|]. apply Z.log2_lt_pow2 in Hz; lia.
Qed.

Lemma u256_of_bits z :
  0 ≤ z → (∀ i, 256 ≤ i → Z.testbit z i = false) → u256 z.
Proof.
  intros Hz Hb. split; [done|]. destruct (Z.eq_dec z 0) as [->|]; [lia|].
  apply Z.log2_lt_pow2; [lia|]. destruct (Z.lt_ge_cases (Z.log2 z) 256) as [|Hge]; [done|].
  specialize (Hb _ Hge). rewrite Z.bit_log2 in Hb by lia. done.
Qed.

Lemma u256_lxor x y : u256 x → u256 y → u256 (Z.lxor x y).
Proof.
  intros Hx Hy. apply u256_of_bits.
  - apply Z.lxor_nonneg. destruct Hx, Hy. lia.
  - intros i Hi. by rewrite Z.lxor_spec, !u256_testbit.
Qed.

Lemma distance_range a b : u256 (distance a b).
Proof. apply u256_lxor; apply u256_of_range. Qed.

Lemma KeyBytes_eq (k k' : KeyBytes) : key_bytes k = key_bytes k' → k = k'.
Proof.
  destruct k as [bs H], k' as [bs' H']; simpl. intros ->. f_equal.
  apply (Eqdep_dec.UIP_dec Bool.bool_dec).
Qed.

#[global] Instance u256_of_inj : Inj (=) (=) u256_of.
Proof.
  intros k k' Heq. apply KeyBytes_eq, be_combine_inj; [|done].
  clear Heq. destruct k as [bs H], k' as [bs' H']; simpl.
  apply Nat.eqb_eq in H, H'. congruence.
Qed.

#[global] Instance KeyBytes_eq_decision : EqDecision KeyBytes.
Proof.
  refine (λ k k', cast_if (decide (key_bytes k = key_bytes k')));
    [by apply KeyBytes_eq | congruence].
Defined.

Lemma u256_of_for_distance k d :
  u256 d → u256_of (for_distance k d) = Z.lxor (u256_of k) d.
Proof.
  intros Hd. unfold u256_of at 1, for_distance; simpl. apply be_combine_split_small.
  by apply u256_lxor; [apply u256_of_range|].
Qed.

Lemma distance_sym a b : distance a b = distance b a.
Proof. apply Z.lxor_comm. Qed.

Lemma distance_0 a b : distance a b = 0 ↔ a = b.
Proof.
  unfold distance. rewrite Z.lxor_eq_0_iff. split; [apply (inj u256_of)|congruence].
Qed.

(** XOR with a common term: the distance of [a] to [c] through [b]. *)
Lemma distance_via a b c : distance a c = Z.lxor (distance a b) (distance b c).
Proof.
  unfold distance.
  by rewrite Z.lxor_assoc, <- (Z.lxor_assoc (u256_of b)), Z.lxor_nilpotent, Z.lxor_0_l.
Qed.

Lemma ilog2_Some d i : u256 d → ilog2 d = Some i ↔ 0 < d ∧ Z.log2 d = i.
Proof.
  intros [Hd0 Hd]. unfold ilog2, leading_zeros, checked_sub.
  destruct (Z.eqb_spec d 0) as [->|Hne]; simpl; [split; [done|lia]|].
  assert (0 ≤ Z.log2 d) by apply Z.log2_nonneg.
  destruct (Z.ltb_spec (256 - (256 - (Z.log2 d + 1))) 1) as [|_]; [lia|].
  split; [intros [= <-]; lia|]. intros [? <-]. f_equal. lia.
Qed.

Lemma ilog2_None d : u256 d → ilog2 d = None ↔ d = 0.
Proof.
  intros Hd. destruct (ilog2 d) as [i|] eqn:E.
  - apply ilog2_Some in E as [??]; [|done]. split; [done|lia].
  - split; [intros _|done]. destruct (Z.eq_dec d 0) as [|Hne]; [done|].
    destruct Hd. assert (ilog2 d = Some (Z.log2 d)); [|congruence].
    apply ilog2_Some; [by split|]. lia.
Qed.

Lemma ilog2_range d i : u256 d → ilog2 d = Some i → 0 ≤ i < 256.
Proof.
  intros Hd Hi. apply ilog2_Some in Hi as [? <-]; [|done].
  split; [apply Z.log2_nonneg|]. apply Z.log2_lt_pow2; [done|]. apply Hd.
Qed.

Lemma ilog2_bits d i :
  u256 d → ilog2 d = Some i →
  Z.testbit d i = true ∧ ∀ j, i < j → Z.testbit d j = false.
Proof.
  intros Hd Hi. apply ilog2_Some in Hi as [? <-]; [|done]. split.
  - by apply Z.bit_log2.
  - intros j Hj. apply Z.bits_above_log2; [lia|done].
Qed.

(** ** Properties *)

(** The distance of two keys is a metric on the keyspace, with values that
    fit the 256 bits of [U256]: it is zero exactly between equal keys, it is
    symmetric, and it satisfies the triangle inequality. *)
Theorem distance_is_metric (a b c : KeyBytes) :
  u256 (distance a b) ∧
  (distance a b = 0 ↔ a = b) ∧
  distance a b = distance b a ∧
  distance a c ≤ distance a b + distance b c.
Proof.
  split_and!; [apply distance_range|apply distance_0|apply distance_sym|].
  rewrite (distance_via a b c), <- Z.add_lxor_2land.
  assert (0 ≤ Z.land (distance a b) (distance b c)); [|lia].
  apply Z.land_nonneg. left. apply distance_range.
Qed.

(** [for_distance] returns the one key at the given distance, the
    equivalence its documentation states:
    [self xor other = distance <==> other = self xor distance]. *)
Theorem for_distance_unique (k k' : KeyBytes) (d : Z) (Hd : u256 d) :
  distance k k' = d ↔ k' = for_distance k d.
Proof.
  split.
  - intros <-. apply (inj u256_of). rewrite u256_of_for_distance by done.
    unfold distance. by rewrite <- Z.lxor_assoc, Z.lxor_nilpotent, Z.lxor_0_l.
  - intros ->. unfold distance. rewrite u256_of_for_distance by done.
    by rewrite <- Z.lxor_assoc, Z.lxor_nilpotent, Z.lxor_0_l.
Qed.

(** The key whose 32 bytes are zero but for the value [z] of the low ones. *)
Definition key_of_Z (z : Z) : KeyBytes := mk_KeyBytes (be_split 32 z) (for_distance_len z).

Lemma for_distance_unique_witness :
  u256 5 ∧ (distance (key_of_Z 3) (key_of_Z 6) = 5 ↔ key_of_Z 6 = for_distance (key_of_Z 3) 5).
Proof.
  split; [by split; vm_compute|].
  apply (for_distance_unique (key_of_Z 3) (key_of_Z 6) 5). by split; vm_compute.
Defined.
