(* ===== verification/KBucket.v ===== *)
(** * K-buckets and their entries: [kbucket/bucket.rs] and [kbucket/entry.rs]

    A [KBucket] is a list of at most [K_VALUE] nodes; its invariant
    [bucket_wf] says that the keys are distinct and that all of them are at a
    distance of the local key whose logarithm is the bucket's index.  The
    module documentation of [bucket.rs] leaves that invariant to the public
    [Entry] API: an [EntryRef] borrows one bucket of the table together with a
    key, and is modelled with the index of the borrowed bucket. *)

From Stdlib Require Import ZArith Lia.
From S2P Require Import Prelude KadKey.

(** [K_VALUE], [protocols/kad/src/lib.rs]. *)
Definition K_VALUE : nat := 20.

Record Node (TKey TVal : Type) := mk_Node {
  node_key : TKey;
  node_value : TVal
}.
Arguments mk_Node {TKey TVal} _ _.
Arguments node_key {TKey TVal} _.
Arguments node_value {TKey TVal} _.

(** [ArrayVec<[Node; K_VALUE]>]: a vector of bounded capacity. *)
Record KBucket (TKey TVal : Type) := mk_KBucket {
  nodes : list (Node TKey TVal)
}.
Arguments mk_KBucket {TKey TVal} _.
Arguments nodes {TKey TVal} _.

Section bucket.
Context {TKey TVal : Type} `{AsKeyBytes TKey}.
Implicit Types (b : KBucket TKey TVal) (n : Node TKey TVal) (key : TKey).

Definition bucket_default : KBucket TKey TVal := mk_KBucket [].

Definition same_key (key : TKey) (n : Node TKey TVal) : bool :=
  bool_decide (as_key (node_key n) = as_key key).

Definition bucket_position b key : option nat := position (same_key key) (nodes b).

Definition bucket_get b key : option (Node TKey TVal) :=
  p ← bucket_position b key; nodes b !! p.

Definition bucket_insert b n : KBucket TKey TVal * bool :=
  if decide (length (nodes b) = K_VALUE) then (b, false)
  else (mk_KBucket (nodes b ++ [n]), true).

Definition bucket_remove b key : KBucket TKey TVal * option (Node TKey TVal * nat) :=
  match bucket_position b key with
  | Some pos => (mk_KBucket (delete pos (nodes b)), (λ n, (n, pos)) <$> nodes b !! pos)
  | None => (b, None)
  end.

Definition bucket_num_entries b : nat := length (nodes b).

(** [get_mut]: the node, and the bucket after a write through the reference. *)
Definition bucket_get_mut b key
    : option (Node TKey TVal * (Node TKey TVal → KBucket TKey TVal)) :=
  p ← bucket_position b key;
  n ← nodes b !! p;
  Some (n, λ n', mk_KBucket (<[p:=n']> (nodes b))).

(** ** The entry API *)

(** [EntryRef]: a mutable borrow of the bucket at [er_index], with a key. *)
Record EntryRef := mk_EntryRef {
  er_index : nat;
  er_bucket : KBucket TKey TVal;
  er_key : TKey
}.

Inductive Entry :=
  | Present (e : EntryRef)
  | Absent (e : EntryRef)
  | SelfEntry.

Definition entry_new (i : nat) b key : Entry :=
  match bucket_position b key with
  | Some _ => Present (mk_EntryRef i b key)
  | None => Absent (mk_EntryRef i b key)
  end.

(** [PresentEntry::value]; [None] is the panic of [expect]. *)
Definition present_value (e : EntryRef) : option TVal :=
  node_value ∘ fst <$> bucket_get_mut (er_bucket e) (er_key e).

(** A write through the reference [PresentEntry::value] returns. *)
Definition present_set_value (e : EntryRef) (v : TVal) : option EntryRef :=
  '(n, put) ← bucket_get_mut (er_bucket e) (er_key e);
  Some (mk_EntryRef (er_index e) (put (mk_Node (node_key n) v)) (er_key e)).

(** [PresentEntry::remove]; [None] is the panic of [expect]. *)
Definition present_remove (e : EntryRef) : option (EntryRef * Node TKey TVal) :=
  match bucket_remove (er_bucket e) (er_key e) with
  | (b, Some (n, _)) => Some (mk_EntryRef (er_index e) b (er_key e), n)
  | (_, None) => None
  end.

Definition absent_insert (e : EntryRef) (v : TVal) : EntryRef * bool :=
  let '(b, ok) := bucket_insert (er_bucket e) (mk_Node (er_key e) v) in
  (mk_EntryRef (er_index e) b (er_key e), ok).

Definition entry_view (e : Entry) : option (TKey * TVal) :=
  match e with
  | Present er => pair (er_key er) <$> present_value er
  | _ => None
  end.

Definition entry_key (e : Entry) : option TKey :=
  match e with
  | Present er => Some (er_key er)
  | Absent er => Some (er_key er)
  | SelfEntry => None
  end.

Definition entry_value (e : Entry) : option TVal :=
  match e with
  | Present er => present_value er
  | Absent _ => None
  | SelfEntry => None
  end.
End bucket.
Arguments EntryRef : clear implicits.
Arguments Entry : clear implicits.

(** ** Lemmas on buckets *)

Section bucket_lemmas.
Context {TKey TVal : Type} `{AsKeyBytes TKey}.
Implicit Types (b : KBucket TKey TVal) (n : Node TKey TVal) (key : TKey).

Definition node_bytes n : KeyBytes := as_key (node_key n).

Definition bucket_keys b : list KeyBytes := node_bytes <$> nodes b.

(** The invariant of the bucket at index [i] of the table of [local]. *)
Definition bucket_wf (local : KeyBytes) (i : nat) b : Prop :=
  length (nodes b) ≤ K_VALUE ∧
  NoDup (bucket_keys b) ∧
  Forall (λ n, ilog2 (distance local (node_bytes n)) = Some (Z.of_nat i)) (nodes b).

Lemma same_key_true key n : same_key key n = true ↔ node_bytes n = as_key key.
Proof. apply bool_decide_eq_true. Qed.

Lemma same_key_false key n : same_key key n = false ↔ node_bytes n ≠ as_key key.
Proof. apply bool_decide_eq_false. Qed.

Lemma bucket_position_None b key :
  bucket_position b key = None ↔ as_key key ∉ bucket_keys b.
Proof.
  unfold bucket_position. rewrite position_None, Forall_forall.
  unfold bucket_keys. rewrite list_elem_of_fmap. split.
  - intros Hall (n&Hn&Hin). apply Hall, same_key_false in Hin. congruence.
  - intros Hno n Hin. apply same_key_false. intros Hn. apply Hno. by exists n.
Qed.

Lemma bucket_position_Some b key p :
  bucket_position b key = Some p →
  ∃ n, nodes b !! p = Some n ∧ node_bytes n = as_key key.
Proof. intros (n&Hn&Hk%same_key_true&_)%position_Some. by exists n. Qed.

Lemma bucket_get_elem b key n :
  bucket_get b key = Some n → n ∈ nodes b ∧ node_bytes n = as_key key.
Proof.
  unfold bucket_get. intros (p&Hp&Hn)%bind_Some.
  apply bucket_position_Some in Hp as (n'&Hn'&?).
  replace n' with n in * by congruence. eauto using list_elem_of_lookup_2.
Qed.

Lemma bucket_default_wf local i : bucket_wf local i bucket_default.
Proof. split_and!; [simpl; unfold K_VALUE; lia|constructor|constructor]. Qed.

Lemma bucket_insert_wf local i b n :
  bucket_wf local i b → node_bytes n ∉ bucket_keys b →
  ilog2 (distance local (node_bytes n)) = Some (Z.of_nat i) →
  bucket_wf local i (bucket_insert b n).1.
Proof.
  intros (Hlen&Hnd&Hall) Hn Hi. unfold bucket_insert. case_decide; [by split_and!|]; simpl.
  unfold bucket_wf, bucket_keys; simpl. rewrite length_app, fmap_app. simpl. split_and!.
  - lia.
  - apply NoDup_app; split_and!; [done| |apply NoDup_singleton].
    intros k Hk ->%list_elem_of_singleton. done.
  - apply Forall_app. by repeat constructor.
Qed.

Lemma bucket_keys_delete b p n :
  nodes b !! p = Some n → bucket_keys b ≡ₚ node_bytes n :: bucket_keys (mk_KBucket (delete p (nodes b))).
Proof. intros Hp. unfold bucket_keys; simpl. by rewrite (delete_perm p n (nodes b)) at 1. Qed.

Lemma bucket_delete_wf local i b p :
  bucket_wf local i b → bucket_wf local i (mk_KBucket (delete p (nodes b))).
Proof.
  intros (Hlen&Hnd&Hall). destruct (nodes b !! p) as [n|] eqn:Hp.
  - split_and!; simpl.
    + pose proof (length_delete (nodes b) p ltac:(by eexists)). lia.
    + rewrite (bucket_keys_delete _ _ _ Hp) in Hnd. by apply NoDup_cons in Hnd as [??].
    + by apply Forall_delete.
  - unfold bucket_wf, bucket_keys; simpl. rewrite delete_take_drop.
    rewrite take_ge, drop_ge by (apply lookup_ge_None in Hp; lia).
    by rewrite app_nil_r.
Qed.

Lemma bucket_remove_wf local i b key :
  bucket_wf local i b → bucket_wf local i (bucket_remove b key).1.
Proof.
  unfold bucket_remove. destruct (bucket_position b key); simpl; [apply bucket_delete_wf|done].
Qed.

(** Removing a key that is present returns its node and leaves the others. *)
Lemma bucket_remove_present b key p :
  bucket_position b key = Some p →
  ∃ n b', bucket_remove b key = (b', Some (n, p)) ∧ node_bytes n = as_key key ∧
    nodes b ≡ₚ n :: nodes b'.
Proof.
  intros Hp. unfold bucket_remove. rewrite Hp.
  apply bucket_position_Some in Hp as (n&Hn&Hk). rewrite Hn.
  eexists n, _. split_and!; [done|done|]. by apply delete_perm.
Qed.

Lemma bucket_insert_room b n :
  length (nodes b) ≠ K_VALUE → bucket_insert b n = (mk_KBucket (nodes b ++ [n]), true).
Proof. unfold bucket_insert. by intros; rewrite decide_False. Qed.

Lemma bucket_set_wf local i b p n n' :
  bucket_wf local i b → nodes b !! p = Some n → node_bytes n' = node_bytes n →
  bucket_wf local i (mk_KBucket (<[p:=n']> (nodes b))).
Proof.
  intros (Hlen&Hnd&Hall) Hp Hk. unfold bucket_wf, bucket_keys; simpl.
  rewrite length_insert, list_fmap_insert, Hk. split_and!; [done| |].
  - rewrite list_insert_id; [done|]. by rewrite list_lookup_fmap, Hp.
  - apply Forall_insert; [done|]. rewrite Hk. by apply (Forall_lookup_1 _ _ _ _ Hall Hp).
Qed.

Lemma bucket_get_mut_Some b key :
  is_Some (bucket_position b key) →
  ∃ p n, nodes b !! p = Some n ∧ node_bytes n = as_key key ∧
    bucket_get_mut b key = Some (n, λ n', mk_KBucket (<[p:=n']> (nodes b))).
Proof.
  intros [p Hp]. unfold bucket_get_mut. rewrite Hp.
  apply bucket_position_Some in Hp as (n&Hn&Hk). exists p, n. simpl. by rewrite Hn.
Qed.

Lemma bucket_get_iff b key n :
  NoDup (bucket_keys b) →
  bucket_get b key = Some n ↔ n ∈ nodes b ∧ node_bytes n = as_key key.
Proof.
  intros Hnd. split; [apply bucket_get_elem|]. intros [Hn Hk].
  destruct (bucket_get b key) as [n'|] eqn:Hget.
  - apply bucket_get_elem in Hget as [Hn' Hk']. f_equal.
    apply list_elem_of_lookup in Hn as [p Hp], Hn' as [p' Hp'].
    assert (p = p') as ->; [|congruence].
    eapply NoDup_lookup; [exact Hnd|..]; unfold bucket_keys; rewrite list_lookup_fmap.
    + by rewrite Hp.
    + rewrite Hp'. simpl. congruence.
  - unfold bucket_get in Hget. destruct (bucket_position b key) as [p|] eqn:Hpos.
    + apply bucket_position_Some in Hpos as (n'&Hn'&_). simpl in Hget. congruence.
    + apply bucket_position_None in Hpos as []. rewrite <-Hk. by apply list_elem_of_fmap_2.
Qed.

(** What is read of a bucket that holds [n] and the nodes of another. *)
Lemma bucket_get_perm b b' n key :
  NoDup (bucket_keys b) → nodes b ≡ₚ n :: nodes b' →
  bucket_get b key =
    if decide (node_bytes n = as_key key) then Some n else bucket_get b' key.
Proof.
  intros Hnd Hperm.
  assert (Hnd' : NoDup (node_bytes n :: bucket_keys b')).
  { unfold bucket_keys in *. by rewrite Hperm in Hnd. }
  apply NoDup_cons in Hnd' as [_ Hnd'].
  case_decide as Hk.
  - apply bucket_get_iff; [done|]. rewrite Hperm. split; [by left|done].
  - apply option_eq. intros n'. rewrite !bucket_get_iff by done. rewrite Hperm, elem_of_cons.
    split; [|tauto]. intros [[->|?] ?]; [done|auto].
Qed.
End bucket_lemmas.

#[export] Hint Resolve bucket_default_wf bucket_delete_wf bucket_remove_wf : lp2p.
