(* ===== verification/KTable.v ===== *)
(** * The Kademlia routing table: [protocols/kad/src/kbucket.rs]

    The table keeps 256 buckets, one for each possible logarithm of the distance
    to the local key.  [ClosestBucketsIter] is the state machine that yields the
    bucket indices in the order of the distance of their nodes to a target, and
    [ClosestIter] the iterator over the nodes built on it.  An out-of-range
    index, which makes the source panic, is [None]; [table_wf], the invariant of
    the table, excludes it.

    The theorems show that the invariant is kept by every operation of the entry
    API, that every distance falls in exactly one bucket, and that the lookup of
    the closest nodes terminates and returns all the nodes of the table sorted
    by their distance to the target. *)

From Stdlib Require Import ZArith Lia.
From S2P Require Import Prelude KadKey KBucket.

Definition NUM_BUCKETS : nat := 256.

(** ** Bucket indices *)

Abbreviation BucketIndex := nat (only parsing).

Definition BucketIndex_new (d : Distance) : option BucketIndex := Z.to_nat <$> ilog2 d.

Definition BucketIndex_range (i : BucketIndex) : Distance * Distance :=
  let min := (2 ^ Z.of_nat i)%Z in
  if decide (i = 255) then (min, 2 ^ 256 - 1)%Z
  else (min, 2 ^ Z.of_nat (i + 1) - 1)%Z.

(** [rand_distance]: [gen i] is the [i]-th byte drawn by [rng.gen()], and [top]
    the value drawn by [rng.gen_range(2^rem, 2^(rem+1))]. *)
Definition rand_distance (i : BucketIndex) (gen : nat → u8) (top : Z) : Distance :=
  let quot := i / 8 in
  let bs := foldl (λ bs j, <[31 - j := gen j]> bs) (replicate 32 Byte.x00) (seq 0 quot) in
  be_combine (<[31 - quot := byte.of_Z top]> bs).

(** ** The table *)

Record KBucketsTable (TKey TVal : Type) := mk_KBucketsTable {
  local_key : TKey;
  buckets : list (KBucket TKey TVal)
}.
Arguments mk_KBucketsTable {TKey TVal} _ _.
Arguments local_key {TKey TVal} _.
Arguments buckets {TKey TVal} _.

Section table.
Context {TKey TVal : Type} `{AsKeyBytes TKey}.
Implicit Types (t : KBucketsTable TKey TVal) (key : TKey).

Definition table_new (local : TKey) : KBucketsTable TKey TVal :=
  mk_KBucketsTable local (replicate NUM_BUCKETS bucket_default).

Definition self_key t : TKey := local_key t.

Definition num_entries t : nat :=
  foldl (λ acc b, acc + bucket_num_entries b) 0 (buckets t).

Definition table_distance t (k : KeyBytes) : Distance := distance (as_key (local_key t)) k.

(** [entry]; [None] is an index out of the range of [buckets]. *)
Definition table_entry t key : option (Entry TKey TVal) :=
  match BucketIndex_new (table_distance t (as_key key)) with
  | Some i => (λ b, entry_new i b key) <$> buckets t !! i
  | None => Some SelfEntry
  end.

(** The table after the borrow of an entry ends. *)
Definition table_commit t (e : EntryRef TKey TVal) : KBucketsTable TKey TVal :=
  mk_KBucketsTable (local_key t) (<[er_index e := er_bucket e]> (buckets t)).

Definition bucket_index t (k : KeyBytes) : option Z := ilog2 (table_distance t k).

Definition table_bucket t (k : KeyBytes) : option (BucketIndex * KBucket TKey TVal) :=
  i ← BucketIndex_new (table_distance t k);
  b ← buckets t !! i;
  Some (i, b).

(** [KBucketRef::contains]. *)
Definition bucket_contains (i : BucketIndex) (d : Distance) : bool :=
  match BucketIndex_new d with
  | Some j => bool_decide (j = i)
  | None => false
  end.
End table.

(** ** The iterator over the bucket indices *)

Inductive ClosestBucketsIterState :=
  | Start (i : BucketIndex)
  | ZoomIn (i : BucketIndex)
  | ZoomOut (i : BucketIndex)
  | Done.

Record ClosestBucketsIter := mk_ClosestBucketsIter {
  cbi_distance : Distance;
  cbi_state : ClosestBucketsIterState
}.

Definition cbi_new (d : Distance) : ClosestBucketsIter :=
  mk_ClosestBucketsIter d
    match BucketIndex_new d with
    | Some i => Start i
    | None => Start 0
    end.

(** [U256::bit]. *)
Definition dbit (d : Distance) (i : nat) : bool := Z.testbit d (Z.of_nat i).

Definition next_in (d : Distance) (i : BucketIndex) : option BucketIndex :=
  List.find (dbit d) (reverse (seq 0 i)).

Definition next_out (d : Distance) (i : BucketIndex) : option BucketIndex :=
  List.find (λ j, negb (dbit d j)) (seq (i + 1) (NUM_BUCKETS - (i + 1))).

Definition cbi_next (it : ClosestBucketsIter) : option BucketIndex * ClosestBucketsIter :=
  let d := cbi_distance it in
  match cbi_state it with
  | Start i => (Some i, mk_ClosestBucketsIter d (ZoomIn i))
  | ZoomIn i =>
      match next_in d i with
      | Some i => (Some i, mk_ClosestBucketsIter d (ZoomIn i))
      | None => (Some 0, mk_ClosestBucketsIter d (ZoomOut 0))
      end
  | ZoomOut i =>
      match next_out d i with
      | Some i => (Some i, mk_ClosestBucketsIter d (ZoomOut i))
      | None => (None, mk_ClosestBucketsIter d Done)
      end
  | Done => (None, it)
  end.

(** ** The iterator over the closest nodes *)

Section closest.
Context {TKey TVal TOut : Type} `{AsKeyBytes TKey} `{AsKeyBytes TOut}.

Record ClosestIter := mk_ClosestIter {
  ci_iter : option (list TOut);
  ci_buckets : ClosestBucketsIter
}.

Variable t : KBucketsTable TKey TVal.
Variable target : KeyBytes.
Variable fmap_bucket : KBucket TKey TVal → list TOut.

Definition by_distance (a b : TOut) : bool :=
  (distance target (as_key a) <=? distance target (as_key b))%Z.

(** The loop of [ClosestIter::next].  Each turn consumes one unit of [fuel];
    [None] is a lack of fuel or an index out of range, both excluded by
    [ci_next_spec]. *)
Fixpoint ci_next (fuel : nat) (st : ClosestIter) : option (option TOut * ClosestIter) :=
  match fuel with
  | 0 => None
  | S fuel =>
      match ci_iter st with
      | Some (k :: rest) => Some (Some k, mk_ClosestIter (Some rest) (ci_buckets st))
      | Some [] => ci_next fuel (mk_ClosestIter None (ci_buckets st))
      | None =>
          match cbi_next (ci_buckets st) with
          | (Some i, bi) =>
              b ← buckets t !! i;
              ci_next fuel (mk_ClosestIter (Some (sort_by by_distance (fmap_bucket b))) bi)
          | (None, bi) => Some (None, mk_ClosestIter None bi)
          end
      end
  end.

(** Draining the iterator, as [collect] does. *)
Fixpoint ci_collect (fuel : nat) (st : ClosestIter) : option (list TOut) :=
  match fuel with
  | 0 => None
  | S fuel' =>
      '(o, st') ← ci_next 1000 st;
      match o with
      | Some k => cons k <$> ci_collect fuel' st'
      | None => Some []
      end
  end.
End closest.
Arguments ClosestIter : clear implicits.

Section lookup.
Context {TKey TVal : Type} `{AsKeyBytes TKey}.
Implicit Types (t : KBucketsTable TKey TVal).

Record EntryView := mk_EntryView { ev_node : Node TKey TVal }.

#[global] Instance EntryView_as_key : AsKeyBytes EntryView := λ v, as_key (node_key (ev_node v)).

Definition ci_new {TOut} t (target : KeyBytes) : ClosestIter TOut :=
  mk_ClosestIter None (cbi_new (table_distance t target)).

(** At most [K_VALUE] nodes in each of at most [NUM_BUCKETS + 1] visits. *)
Definition collect_fuel : nat := 20 * 300.

Definition closest_keys t (target : KeyBytes) : option (list TKey) :=
  ci_collect t target (λ b, node_key <$> nodes b) collect_fuel (ci_new t target).

Definition closest t (target : KeyBytes) : option (list EntryView) :=
  ci_collect t target (λ b, mk_EntryView <$> nodes b) collect_fuel (ci_new t target).

(** [ClosestBucketsIter::new(d).take_while(|i| i.get() != 0)], drained. *)
Fixpoint cbi_until_0 (fuel : nat) (it : ClosestBucketsIter) : list BucketIndex :=
  match fuel with
  | 0 => []
  | S fuel =>
      match cbi_next it with
      | (Some (S i), it') => S i :: cbi_until_0 fuel it'
      | _ => []
      end
  end.

(** [None] is an index out of the range of [buckets]. *)
Definition count_nodes_between t (target : KeyBytes) : option nat :=
  let d := distance target (as_key (local_key t)) in
  match cbi_until_0 300 (cbi_new d) with
  | i :: rest =>
      b ← buckets t !! i;
      let num_first := length
        (filter (λ n, distance (as_key (node_key n)) (as_key (local_key t)) ≤ d)%Z (nodes b)) in
      counts ← mapM (λ j, bucket_num_entries <$> buckets t !! j) rest;
      Some (num_first + sum_list counts)
  | [] => Some 0
  end.
End lookup.
Arguments EntryView : clear implicits.

(** ** The order in which the buckets are visited *)

Lemma NUM_BUCKETS_eq : NUM_BUCKETS = 256.
Proof. done. Qed.

Lemma seq_NUM_BUCKETS : seq 0 NUM_BUCKETS = 0 :: seq 1 (NUM_BUCKETS - 1).
Proof. done. Qed.

#[local] Opaque NUM_BUCKETS.

(** The indices below [i] whose bit of [d] is set, downwards. *)
Definition bits_in (d : Distance) (i : nat) : list nat := filter (dbit d) (reverse (seq 0 i)).

(** The indices above [i] whose bit of [d] is clear, upwards. *)
Definition bits_out (d : Distance) (i : nat) : list nat :=
  filter (λ j, ¬ dbit d j) (seq (S i) (NUM_BUCKETS - S i)).

(** The indices an iterator has still to yield. *)
Definition cbi_remaining (it : ClosestBucketsIter) : list nat :=
  let d := cbi_distance it in
  match cbi_state it with
  | Start i => i :: bits_in d i ++ 0 :: bits_out d 0
  | ZoomIn i => bits_in d i ++ 0 :: bits_out d 0
  | ZoomOut i => bits_out d i
  | Done => []
  end.

Definition cbi_visits (d : Distance) : list nat := cbi_remaining (cbi_new d).

Lemma next_in_spec d i :
  match next_in d i with
  | Some j => bits_in d i = j :: bits_in d j
  | None => bits_in d i = []
  end.
Proof.
  unfold next_in, bits_in. induction i as [|i IH]; [done|].
  rewrite seq_S, reverse_snoc. simpl. rewrite filter_cons.
  destruct (dbit d i); simpl; [done|]. exact IH.
Qed.

Lemma next_out_spec d i :
  match next_out d i with
  | Some j => bits_out d i = j :: bits_out d j
  | None => bits_out d i = []
  end.
Proof.
  unfold next_out, bits_out. rewrite Nat.add_1_r.
  remember (NUM_BUCKETS - S i) as n eqn:Hn.
  revert i Hn. induction n as [|n IH]; intros i Hn; [done|].
  simpl. rewrite filter_cons. destruct (dbit d (S i)); simpl.
  - apply (IH (S i)). lia.
  - f_equal. by replace n with (NUM_BUCKETS - S (S i)) by lia.
Qed.

Lemma cbi_next_spec it :
  cbi_next it =
    (head (cbi_remaining it), (cbi_next it).2) ∧
  cbi_remaining (cbi_next it).2 = tail (cbi_remaining it).
Proof.
  destruct it as [d [i|i|i|]]; unfold cbi_next, cbi_remaining; simpl; [done| | |done].
  - pose proof (next_in_spec d i) as Hin. destruct (next_in d i); rewrite Hin; done.
  - pose proof (next_out_spec d i) as Hout. destruct (next_out d i); rewrite Hout; done.
Qed.

(** The visits in closed form: the set bits of the distance downwards, bucket 0,
    and the clear bits above it upwards. *)
Lemma cbi_visits_eq d :
  u256 d →
  cbi_visits d =
    (if decide (d = 0%Z) then [0] else []) ++
    filter (dbit d) (reverse (seq 0 NUM_BUCKETS)) ++ 0 :: bits_out d 0.
Proof.
  intros Hd. unfold cbi_visits, cbi_new, BucketIndex_new.
  destruct (ilog2 d) as [i|] eqn:Hi; simpl.
  - pose proof (ilog2_range _ _ Hd Hi). pose proof (ilog2_bits _ _ Hd Hi) as [Hbit Habove].
    apply ilog2_Some in Hi as [Hpos _]; [|done]. rewrite decide_False by lia. simpl.
    replace NUM_BUCKETS with (S (Z.to_nat i) + (NUM_BUCKETS - S (Z.to_nat i)))
      by (rewrite NUM_BUCKETS_eq; lia).
    rewrite seq_app, reverse_app, filter_app.
    replace (filter (dbit d) (reverse (seq (0 + _) _))) with (@nil nat).
    + rewrite seq_S, reverse_snoc. simpl. rewrite filter_cons_True; [done|].
      unfold dbit. rewrite Z2Nat.id by lia. by rewrite Hbit.
    + symmetry. apply filter_none. intros j Hj.
      apply elem_of_reverse, elem_of_seq in Hj. unfold dbit. rewrite Habove by lia. auto.
  - apply ilog2_None in Hi as ->; [|done]. rewrite decide_True by done. simpl.
    replace (filter _ (reverse _)) with (@nil nat); [done|].
    symmetry. apply filter_none. intros j _. unfold dbit.
    rewrite Z.bits_0. auto.
Qed.

(** [closer d i j]: the nodes of bucket [i] are no further from a target at
    distance [d] of the local key than those of bucket [j]. *)
Definition closer (d : Distance) (i j : nat) : Prop :=
  (j < i ∧ dbit d i) ∨ (i < j ∧ ¬ dbit d j) ∨ (i = 0 ∧ j = 0).

Lemma StronglySorted_seq n k : StronglySorted lt (seq k n).
Proof.
  revert k. induction n as [|n IH]; intros k; simpl; constructor; [done|].
  apply Forall_forall. intros x ?%elem_of_seq. lia.
Qed.

Lemma cbi_visits_closer d : u256 d → StronglySorted (closer d) (cbi_visits d).
Proof.
  intros Hd. rewrite cbi_visits_eq by done.
  assert (Hin : StronglySorted (closer d) (filter (dbit d) (reverse (seq 0 NUM_BUCKETS)))).
  { induction NUM_BUCKETS as [|n IH]; [constructor|].
    rewrite seq_S, reverse_snoc. simpl. rewrite filter_cons. case_decide; [|done].
    constructor; [done|]. apply Forall_forall.
    intros j [? ?%elem_of_reverse%elem_of_seq]%list_elem_of_filter. left. split; [lia|done]. }
  assert (Hout : StronglySorted (closer d) (0 :: bits_out d 0)).
  { constructor.
    - unfold bits_out. generalize (NUM_BUCKETS - 1) as n. generalize 1 as k. intros k n. revert k.
      induction n as [|n IH]; intros k; simpl; [constructor|].
      rewrite filter_cons. case_decide; [|done]. constructor; [done|].
      apply Forall_forall. intros j [? ?%elem_of_seq]%list_elem_of_filter.
      right; left. split; [lia|done].
    - apply Forall_forall. intros j [? ?%elem_of_seq]%list_elem_of_filter.
      right; left. split; [lia|done]. }
  assert (Hcross : ∀ i j, dbit d i → j ∈ 0 :: bits_out d 0 → closer d i j).
  { intros i j Hi [->|[Hj ?]%list_elem_of_filter]%elem_of_cons.
    - destruct i; [by right; right|]. left. split; [lia|done].
    - destruct (Nat.lt_trichotomy i j) as [?|[->|?]]; [|done|]; unfold closer; auto. }
  case_decide as Hz.
  - simpl. replace (filter _ (reverse _)) with (@nil nat).
    + simpl. constructor; [done|]. apply Forall_cons. split; [by right; right|].
      by apply StronglySorted_inv in Hout as [_ ?].
    + symmetry. apply filter_none. intros j _. rewrite Hz. unfold dbit.
      rewrite Z.bits_0. auto.
  - simpl. apply StronglySorted_app_2; [|done|done].
    intros i j [? _]%list_elem_of_filter ?. auto.
Qed.

(** Every bucket is visited, and bucket 0 twice exactly when the distance is
    zero or odd. *)
Lemma cbi_visits_perm d :
  u256 d →
  cbi_visits d ≡ₚ
    seq 0 NUM_BUCKETS ++ (if decide (d = 0%Z ∨ dbit d 0) then [0] else []).
Proof.
  intros Hd. rewrite cbi_visits_eq, (reverse_Permutation (seq 0 _)) by done.
  assert (Hsplit : ∀ l, filter (dbit d) l ++ filter (λ j, ¬ dbit d j) l ≡ₚ l).
  { induction l as [|x l IH]; [done|]. rewrite !filter_cons.
    destruct (dbit d x); simpl; [by rewrite IH|]. by rewrite <-Permutation_middle, IH. }
  specialize (Hsplit (seq 0 NUM_BUCKETS)). rewrite seq_NUM_BUCKETS in Hsplit at 2.
  rewrite (filter_cons (λ j, ¬ dbit d j)) in Hsplit. fold (bits_out d 0) in Hsplit.
  case_decide as H0.
  - rewrite Hsplit. destruct (decide (d = 0%Z)).
    + rewrite decide_True by auto. simpl. apply Permutation_cons_append.
    + rewrite decide_False by tauto. by rewrite app_nil_r.
  - rewrite decide_False, decide_True; [|tauto|].
    + rewrite <-Permutation_middle, Hsplit. apply Permutation_cons_append.
    + intros ->. unfold dbit in H0. by rewrite Z.bits_0 in H0.
Qed.

(** ** What the iterator over the nodes returns *)

Section closest_lemmas.
Context {TKey TVal TOut : Type} `{AsKeyBytes TKey} `{AsKeyBytes TOut}.
Variable t : KBucketsTable TKey TVal.
Variable target : KeyBytes.
Variable fmap_bucket : KBucket TKey TVal → list TOut.

Definition bucket_at (i : nat) : KBucket TKey TVal := default bucket_default (buckets t !! i).

Definition ci_visit (i : nat) : list TOut :=
  sort_by (by_distance target) (fmap_bucket (bucket_at i)).

(** The outputs a state of the iterator has still to yield. *)
Definition ci_remaining (st : ClosestIter TOut) : list TOut :=
  default [] (ci_iter st) ++ (cbi_remaining (ci_buckets st) ≫= ci_visit).

Lemma ci_visit_Some i b :
  buckets t !! i = Some b → ci_visit i = sort_by (by_distance target) (fmap_bucket b).
Proof. intros Hb. unfold ci_visit, bucket_at. by rewrite Hb. Qed.

Lemma ci_next_spec fuel st :
  Forall (λ i, i < length (buckets t)) (cbi_remaining (ci_buckets st)) →
  2 * length (cbi_remaining (ci_buckets st)) + (if ci_iter st is Some _ then 2 else 1) ≤ fuel →
  ∃ st', ci_next t target fmap_bucket fuel st = Some (head (ci_remaining st), st') ∧
    ci_remaining st' = tail (ci_remaining st) ∧
    cbi_remaining (ci_buckets st') `suffix_of` cbi_remaining (ci_buckets st).
Proof.
  revert st. induction fuel as [|fuel IH]; intros [iter bi] Hin Hfuel; simpl in *.
  { destruct iter; lia. }
  destruct iter as [[|k rest]|].
  - destruct (IH (mk_ClosestIter None bi)) as (st'&Hn&Hr&Hs); [done|simpl; lia|].
    exists st'. auto.
  - eexists. split_and!; [done|done|done].
  - pose proof (cbi_next_spec bi) as [Hn Hr]. destruct (cbi_next bi) as [o bi']; simpl in *.
    simplify_eq. unfold ci_remaining; simpl.
    destruct (cbi_remaining bi) as [|i js] eqn:Hbi; simpl in *.
    + eexists. split_and!; [done|simpl; by rewrite Hr|simpl; by rewrite Hr].
    + apply Forall_cons in Hin as [Hi Hin].
      destruct (lookup_lt_is_Some_2 _ _ Hi) as [b Hb]. rewrite Hb. simpl.
      destruct (IH (mk_ClosestIter (Some (sort_by (by_distance target) (fmap_bucket b))) bi'))
        as (st'&Hn'&Hr'&Hs'); simpl; [by rewrite Hr|rewrite Hr; lia|].
      exists st'. unfold ci_remaining in *; simpl in *.
      rewrite (ci_visit_Some _ _ Hb), <-Hr. split_and!; [done|done|]. by apply suffix_cons_r.
Qed.

Lemma ci_collect_spec fuel st :
  Forall (λ i, i < length (buckets t)) (cbi_remaining (ci_buckets st)) →
  2 * length (cbi_remaining (ci_buckets st)) + 2 ≤ 1000 →
  length (ci_remaining st) < fuel →
  ci_collect t target fmap_bucket fuel st = Some (ci_remaining st).
Proof.
  revert st. induction fuel as [|fuel IH]; intros st Hin Hlen Hfuel; [lia|].
  destruct (ci_next_spec 1000 st Hin) as (st'&Hn&Hr&Hs); [destruct (ci_iter st); lia|].
  cbn [ci_collect]. rewrite Hn. simpl.
  destruct (ci_remaining st) as [|k rest]; simpl in *; [done|].
  rewrite IH; [by rewrite Hr| | |rewrite Hr; lia].
  - destruct Hs as [pre Hpre]. rewrite Hpre in Hin. by apply Forall_app in Hin as [_ ?].
  - apply suffix_length in Hs. lia.
Qed.
End closest_lemmas.

(** ** The invariant of the table *)

Section table_lemmas.
Context {TKey TVal : Type} `{AsKeyBytes TKey}.
Implicit Types (t : KBucketsTable TKey TVal) (b : KBucket TKey TVal) (e : EntryRef TKey TVal).
Implicit Types (key : TKey) (v : TVal).

Definition table_wf t : Prop :=
  length (buckets t) = NUM_BUCKETS ∧
  ∀ i b, buckets t !! i = Some b → bucket_wf (as_key (local_key t)) i b.

Definition all_nodes t : list (Node TKey TVal) := buckets t ≫= nodes.

(** What a caller reads through [entry(key)] and [Entry::value]. *)
Definition table_get t key : option TVal := e ← table_entry t key; entry_value e.

Lemma table_new_wf local : table_wf (table_new local).
Proof.
  split; [apply length_replicate|].
  intros i b [-> _]%lookup_replicate. apply bucket_default_wf.
Qed.

Lemma table_index t k i :
  BucketIndex_new (table_distance t k) = Some i ↔
  ilog2 (table_distance t k) = Some (Z.of_nat i).
Proof.
  unfold BucketIndex_new. split.
  - intros (z&Hz&->)%fmap_Some. pose proof (ilog2_range _ _ (distance_range _ _) Hz).
    by rewrite Z2Nat.id by lia.
  - intros ->. simpl. by rewrite Nat2Z.id.
Qed.

Lemma table_index_None t k :
  BucketIndex_new (table_distance t k) = None ↔ as_key (local_key t) = k.
Proof.
  unfold BucketIndex_new. rewrite fmap_None, ilog2_None by apply distance_range.
  apply distance_0.
Qed.

Lemma table_index_bucket t k i :
  table_wf t → BucketIndex_new (table_distance t k) = Some i →
  ∃ b, buckets t !! i = Some b ∧ bucket_wf (as_key (local_key t)) i b.
Proof.
  intros [Hlen Hwf] Hi%table_index. pose proof (ilog2_range _ _ (distance_range _ _) Hi).
  destruct (lookup_lt_is_Some_2 (buckets t) i) as [b Hb]; [rewrite Hlen, NUM_BUCKETS_eq; lia|].
  exists b. auto.
Qed.

(** [entry] never panics, and its three results. *)
Lemma table_entry_spec t key :
  table_wf t →
  (as_key (local_key t) = as_key key ∧ table_entry t key = Some SelfEntry) ∨
  (∃ i b, BucketIndex_new (table_distance t (as_key key)) = Some i ∧
    buckets t !! i = Some b ∧ bucket_wf (as_key (local_key t)) i b ∧
    table_entry t key = Some (entry_new i b key)).
Proof.
  intros Hwf. unfold table_entry.
  destruct (BucketIndex_new _) as [i|] eqn:Hi.
  - right. destruct (table_index_bucket _ _ _ Hwf Hi) as (b&Hb&Hbwf).
    exists i, b. by rewrite Hb.
  - left. by apply table_index_None in Hi.
Qed.

Lemma table_commit_wf t e :
  table_wf t → bucket_wf (as_key (local_key t)) (er_index e) (er_bucket e) →
  table_wf (table_commit t e).
Proof.
  intros [Hlen Hwf] He. split; simpl; [by rewrite length_insert|].
  intros i b [(?&?&_)|[_ ?]]%list_lookup_insert_Some; subst; auto.
Qed.

Lemma table_commit_lookup t e b :
  buckets t !! er_index e = Some b →
  buckets (table_commit t e) !! er_index e = Some (er_bucket e).
Proof. intros Hb%lookup_lt_Some. by apply list_lookup_insert_eq. Qed.

Lemma table_commit_id t e :
  buckets t !! er_index e = Some (er_bucket e) → table_commit t e = t.
Proof. intros He. unfold table_commit. rewrite list_insert_id by done. by destruct t. Qed.

Lemma bucket_value_perm i b key :
  entry_value (entry_new i b key) = node_value <$> bucket_get b key.
Proof.
  unfold entry_new, bucket_get. destruct (bucket_position b key) as [p|] eqn:Hp; [|done].
  simpl. unfold present_value, bucket_get_mut. simpl. rewrite Hp. simpl.
  by destruct (nodes b !! p).
Qed.

(** Writing back one bucket changes what is read at its keys only. *)
Lemma table_get_commit t e b key :
  table_wf t → buckets t !! er_index e = Some b →
  table_get (table_commit t e) key =
    if decide (BucketIndex_new (table_distance t (as_key key)) = Some (er_index e))
    then node_value <$> bucket_get (er_bucket e) key
    else table_get t key.
Proof.
  intros Hwf Hb. unfold table_get, table_entry.
  change (table_distance (table_commit t e)) with (table_distance t).
  destruct (BucketIndex_new _) as [i|] eqn:Hi; [|done]. case_decide; simplify_eq.
  - erewrite table_commit_lookup by done. simpl. apply bucket_value_perm.
  - unfold table_commit; simpl. by rewrite list_lookup_insert_ne by congruence.
Qed.

(** ** The operations a client performs through the entry API *)

Inductive TableOp :=
  | TInsert (key : TKey) (v : TVal)
  | TUpdate (key : TKey) (v : TVal)
  | TRemove (key : TKey).

(** [entry(key)], a match on the entry, and the end of its borrow.  [None] is
    a panic. *)
Definition table_exec t (op : TableOp) : option (KBucketsTable TKey TVal) :=
  match op with
  | TInsert key v =>
      en ← table_entry t key;
      match en with
      | Absent e => Some (table_commit t (absent_insert e v).1)
      | _ => Some t
      end
  | TUpdate key v =>
      en ← table_entry t key;
      match en with
      | Present e => table_commit t <$> present_set_value e v
      | _ => Some t
      end
  | TRemove key =>
      en ← table_entry t key;
      match en with
      | Present e => (λ r, table_commit t r.1) <$> present_remove e
      | _ => Some t
      end
  end.

(** The abstract table: a partial map on keys. *)
Definition absent_or_full t key : bool :=
  match table_bucket t (as_key key) with
  | Some (_, b) => bool_decide (length (nodes b) = K_VALUE)
  | None => true
  end.

Definition table_spec t (op : TableOp) (key' : TKey) : option TVal :=
  match op with
  | TInsert key v =>
      if decide (as_key key = as_key key' ∧ table_get t key = None ∧ ¬ absent_or_full t key)
      then Some v else table_get t key'
  | TUpdate key v =>
      if decide (as_key key = as_key key' ∧ is_Some (table_get t key))
      then Some v else table_get t key'
  | TRemove key => if decide (as_key key = as_key key') then None else table_get t key'
  end.

Lemma table_get_bucket t key i b :
  BucketIndex_new (table_distance t (as_key key)) = Some i → buckets t !! i = Some b →
  table_get t key = node_value <$> bucket_get b key.
Proof.
  intros Hi Hb. unfold table_get, table_entry. rewrite Hi, Hb. simpl. apply bucket_value_perm.
Qed.

Lemma table_get_self t key : as_key (local_key t) = as_key key → table_get t key = None.
Proof.
  intros Hi%table_index_None. unfold table_get, table_entry. by rewrite Hi.
Qed.

Lemma bucket_get_None b key : bucket_get b key = None ↔ bucket_position b key = None.
Proof.
  unfold bucket_get. destruct (bucket_position b key) as [p|] eqn:Hp; [|done].
  apply bucket_position_Some in Hp as (n&Hn&_). simpl. by rewrite Hn.
Qed.

Lemma table_get_same t key key' : as_key key = as_key key' → table_get t key = table_get t key'.
Proof.
  intros Heq. unfold table_get, table_entry. rewrite Heq.
  destruct (BucketIndex_new _) as [i|]; [|done]. destruct (buckets t !! i); [|done].
  simpl. rewrite !bucket_value_perm. unfold bucket_get, bucket_position, same_key.
  by rewrite Heq.
Qed.

(** The table after the bucket of [key] has been replaced by one that holds
    the same nodes and possibly one more node, under [key]. *)
Lemma table_get_replaced t key i b b0 b' o :
  table_wf t → BucketIndex_new (table_distance t (as_key key)) = Some i →
  buckets t !! i = Some b →
  (∀ k, as_key k ≠ as_key key → bucket_get b k = bucket_get b0 k) →
  bucket_wf (as_key (local_key t)) i b' →
  (∀ k, bucket_get b' k = if decide (as_key key = as_key k) then o else bucket_get b0 k) →
  let t' := table_commit t (mk_EntryRef i b' key) in
  table_wf t' ∧
  ∀ k, table_get t' k =
    if decide (as_key key = as_key k) then node_value <$> o else table_get t k.
Proof.
  intros Hwf Hi Hb Hb0 Hwf' Hget t'. split; [by apply table_commit_wf|].
  intros k. unfold t'. erewrite table_get_commit by done. simpl.
  destruct (decide (as_key key = as_key k)) as [Heq|Hne].
  - rewrite <-Heq, decide_True by done. rewrite Hget. by rewrite decide_True.
  - case_decide as Hk; [|done]. rewrite Hget, decide_False by done.
    rewrite (table_get_bucket t k i b) by done. by rewrite Hb0.
Qed.

Lemma table_insert_spec t key v :
  table_wf t → ∃ t', table_exec t (TInsert key v) = Some t' ∧ table_wf t' ∧
    ∀ k, table_get t' k = table_spec t (TInsert key v) k.
Proof.
  intros Hwf. simpl. unfold absent_or_full, table_bucket.
  destruct (table_entry_spec t key Hwf) as [[Hself ->]|(i&b&Hi&Hb&Hbwf&->)]; simpl.
  { exists t. split_and!; [done..|]. intros k. apply table_index_None in Hself.
    rewrite Hself. simpl. by rewrite decide_False by naive_solver. }
  rewrite Hi. simpl. rewrite Hb. simpl. rewrite (table_get_bucket _ _ _ _ Hi Hb).
  unfold entry_new. destruct (bucket_position b key) as [p|] eqn:Hp.
  { exists t. split_and!; [done..|]. intros k. rewrite decide_False; [done|].
    rewrite fmap_None, bucket_get_None. naive_solver. }
  eexists. split; [done|]. unfold absent_insert, bucket_insert; simpl.
  assert (Hg : bucket_get b key = None) by by apply bucket_get_None.
  case_decide as Hfull; simpl.
  - rewrite table_commit_id by done. split; [done|]. intros k.
    rewrite bool_decide_true, (decide_False (P := _ ∧ _ ∧ ¬ True)) by tauto. done.
  - pose proof (bucket_insert_wf _ i b (mk_Node key v) Hbwf) as Hins.
    unfold bucket_insert in Hins. rewrite decide_False in Hins by done. simpl in Hins.
    specialize (Hins ltac:(by apply bucket_position_None) ltac:(by apply table_index)).
    destruct (table_get_replaced t key i b b
      (mk_KBucket (nodes b ++ [mk_Node key v])) (Some (mk_Node key v))) as [? Hget];
      [done..| |].
    + intros k. rewrite (bucket_get_perm _ b (mk_Node key v)); [done|apply Hins|].
      simpl. by rewrite <-Permutation_cons_append.
    + split; [done|]. intros k. rewrite Hget, bool_decide_false by done. rewrite Hg. simpl.
      apply decide_ext. naive_solver.
Qed.

Lemma table_update_spec t key v :
  table_wf t → ∃ t', table_exec t (TUpdate key v) = Some t' ∧ table_wf t' ∧
    ∀ k, table_get t' k = table_spec t (TUpdate key v) k.
Proof.
  intros Hwf. simpl.
  destruct (table_entry_spec t key Hwf) as [[Hself ->]|(i&b&Hi&Hb&Hbwf&->)]; simpl.
  { exists t. split_and!; [done..|]. intros k. rewrite (table_get_self t key) by done.
    rewrite decide_False; [done|]. intros [_ []%is_Some_None]. }
  rewrite (table_get_bucket _ _ _ _ Hi Hb). unfold entry_new.
  destruct (bucket_position b key) as [p|] eqn:Hp.
  - destruct (bucket_get_mut_Some b key) as (q&n&Hq&Hk&Hmut); [by eexists|].
    unfold present_set_value; simpl. rewrite Hmut. simpl. eexists. split; [done|].
    assert (Hperm : nodes b ≡ₚ n :: delete q (nodes b)) by by apply delete_perm.
    assert (Hperm' : <[q:=mk_Node (node_key n) v]> (nodes b) ≡ₚ
      mk_Node (node_key n) v :: delete q (nodes b)).
    { by eapply insert_delete_perm, lookup_lt_Some. }
    destruct (table_get_replaced t key i b (mk_KBucket (delete q (nodes b)))
      (mk_KBucket (<[q:=mk_Node (node_key n) v]> (nodes b)))
      (Some (mk_Node (node_key n) v))) as [? Hget]; [done..| | | |].
    + intros k Hne. rewrite (bucket_get_perm b (mk_KBucket (delete q (nodes b))) n);
        [|apply Hbwf|done]. rewrite decide_False; [done|congruence].
    + by apply (bucket_set_wf _ _ _ _ n).
    + intros k. rewrite <-Hk.
      apply (bucket_get_perm _ (mk_KBucket _) (mk_Node (node_key n) v)); [|done].
      by apply (bucket_set_wf (as_key (local_key t)) i b q n).
    + split; [done|]. intros k. rewrite Hget. simpl. apply decide_ext.
      assert (is_Some (bucket_get b key)); [|rewrite fmap_is_Some; tauto].
      apply not_eq_None_Some. rewrite bucket_get_None. congruence.
  - exists t. split_and!; [done..|]. intros k. rewrite decide_False; [done|].
    apply bucket_get_None in Hp. rewrite Hp. intros [_ []%is_Some_None].
Qed.

Lemma table_remove_spec t key :
  table_wf t → ∃ t', table_exec t (TRemove key) = Some t' ∧ table_wf t' ∧
    ∀ k, table_get t' k = table_spec t (TRemove key) k.
Proof.
  intros Hwf. simpl.
  destruct (table_entry_spec t key Hwf) as [[Hself ->]|(i&b&Hi&Hb&Hbwf&->)]; simpl.
  { exists t. split_and!; [done..|]. intros k. case_decide as Hk; [|done].
    rewrite <-(table_get_same _ _ _ Hk). by apply table_get_self. }
  unfold entry_new. destruct (bucket_position b key) as [p|] eqn:Hp.
  - unfold present_remove; simpl.
    pose proof (bucket_remove_wf _ _ _ key Hbwf) as Hrwf.
    destruct (bucket_remove_present b key p Hp) as (n&b'&Hrem&Hk&Hperm).
    rewrite Hrem in *. simpl in *. eexists. split; [done|].
    destruct (table_get_replaced t key i b b' b' None) as [? Hget]; [done..| |done| |].
    + intros k Hne. rewrite (bucket_get_perm b b' n); [|apply Hbwf|done].
      rewrite decide_False; [done|congruence].
    + intros k. case_decide as Heq; [|done].
      destruct (bucket_get b' k) as [n'|] eqn:Hg; [|done].
      apply bucket_get_elem in Hg as [Hin Hk']. destruct Hbwf as (_&Hnd&_).
      unfold bucket_keys in Hnd. rewrite Hperm in Hnd. apply NoDup_cons in Hnd as [[] _].
      rewrite Hk, Heq, <-Hk'. by apply list_elem_of_fmap_2.
    + split; [done|]. intros k. by rewrite Hget.
  - exists t. split_and!; [done..|]. intros k. case_decide as Hk; [|done].
    rewrite <-(table_get_same _ _ _ Hk), (table_get_bucket _ _ _ _ Hi Hb).
    apply bucket_get_None in Hp. by rewrite Hp.
Qed.
End table_lemmas.

(** ** Buckets and distances *)

Lemma lxor_closer d dn dm i j :
  u256 d → u256 dn → u256 dm → closer d i j →
  ilog2 dn = Some (Z.of_nat i) → ilog2 dm = Some (Z.of_nat j) →
  (Z.lxor d dn ≤ Z.lxor d dm)%Z.
Proof.
  intros Hd Hdn Hdm Hc Hi Hj.
  pose proof (ilog2_bits _ _ Hdn Hi) as [Hbi Hai]. pose proof (ilog2_bits _ _ Hdm Hj) as [Hbj Haj].
  assert (0 ≤ Z.lxor d dn ∧ 0 ≤ Z.lxor d dm)%Z as [??]
    by (split; apply u256_lxor; done).
  destruct Hc as [[Hlt Hbit]|[[Hlt Hbit]|[-> ->]]]; unfold dbit in *.
  - apply Z.lt_le_incl, (lt_top_bit _ _ (Z.of_nat i)); [done|done|lia|..];
      [| |intros k ?]; rewrite !Z.lxor_spec.
    + rewrite Hbi. by apply Is_true_true in Hbit as ->.
    + rewrite Haj by lia. by apply Is_true_true in Hbit as ->.
    + rewrite Hai, Haj by lia. done.
  - apply Z.lt_le_incl, (lt_top_bit _ _ (Z.of_nat j)); [done|done|lia|..];
      [| |intros k ?]; rewrite !Z.lxor_spec.
    + rewrite Hai by lia. apply Is_true_false in Hbit as ->. done.
    + rewrite Hbj. apply Is_true_false in Hbit as ->. done.
    + rewrite Hai, Haj by lia. done.
  - apply ilog2_Some in Hi as [? Hi], Hj as [? Hj]; [|done..].
    assert (∀ x, 0 < x → Z.log2 x = 0 → x = 1)%Z as Hone.
    { intros x Hx Hl. apply Z.log2_null in Hl. lia. }
    rewrite (Hone dn), (Hone dm) by done. done.
Qed.

(** A node is closer to the target than the local node exactly when the bit of
    its bucket is set in the distance of the target. *)
Lemma lxor_lt_iff d dn i :
  u256 d → u256 dn → ilog2 dn = Some (Z.of_nat i) → (Z.lxor d dn < d)%Z ↔ dbit d i.
Proof.
  intros Hd Hdn Hi. pose proof (ilog2_bits _ _ Hdn Hi) as [Hbi Hai].
  assert (Hx : u256 (Z.lxor d dn)) by by apply u256_lxor. unfold dbit.
  assert (Habove : ∀ k, (Z.of_nat i < k)%Z → Z.testbit (Z.lxor d dn) k = Z.testbit d k).
  { intros k Hk. rewrite Z.lxor_spec, Hai by lia. apply xorb_false_r. }
  destruct (Z.testbit d (Z.of_nat i)) eqn:Hbit; split; [done| |intros Hlt|done].
  - intros _. apply (lt_top_bit _ _ (Z.of_nat i)); [apply Hx|apply Hd|lia| |done|done].
    by rewrite Z.lxor_spec, Hbi, Hbit.
  - assert (d < Z.lxor d dn)%Z; [|lia].
    apply (lt_top_bit _ _ (Z.of_nat i)); [apply Hd|apply Hx|lia|done| |].
    + by rewrite Z.lxor_spec, Hbi, Hbit.
    + intros. by rewrite Habove.
Qed.

Lemma StronglySorted_bind {A B} (R : A → A → Prop) (S : B → B → Prop) (f : A → list B) l :
  StronglySorted R l →
  (∀ a, a ∈ l → StronglySorted S (f a)) →
  (∀ a a' b b', a ∈ l → a' ∈ l → R a a' → b ∈ f a → b' ∈ f a' → S b b') →
  StronglySorted S (l ≫= f).
Proof.
  induction 1 as [|a l Hl IH Ha]; intros Hf HR; simpl; [constructor|].
  apply StronglySorted_app_2.
  - intros b b' Hb (a'&Hb'&Ha')%list_elem_of_bind. rewrite Forall_forall in Ha.
    apply (HR a a'); [by left|by right|by apply Ha|done|done].
  - apply Hf. by left.
  - apply IH; [set_solver|]. intros. eapply (HR a0 a'); [by right|by right|done..].
Qed.

Lemma seq_lookup {A} (dflt : A) (l : list A) :
  (λ i, default dflt (l !! i)) <$> seq 0 (length l) = l.
Proof.
  apply list_eq. intros i. rewrite list_lookup_fmap.
  destruct (l !! i) as [x|] eqn:Hx.
  - rewrite lookup_seq_lt by by eapply lookup_lt_Some. simpl. by rewrite Hx.
  - by rewrite lookup_seq_ge by by apply lookup_ge_None.
Qed.

Section lookup_lemmas.
Context {TKey TVal TOut : Type} `{AsKeyBytes TKey} `{AsKeyBytes TOut}.
Variable t : KBucketsTable TKey TVal.
Variable target : KeyBytes.
Hypothesis Hwf : table_wf t.

Local Abbreviation d := (table_distance t target).

Lemma bucket_at_seq : bucket_at t <$> seq 0 NUM_BUCKETS = buckets t.
Proof. destruct Hwf as [<- _]. apply seq_lookup. Qed.

Lemma bucket_at_wf i : bucket_wf (as_key (local_key t)) i (bucket_at t i).
Proof.
  unfold bucket_at. destruct (buckets t !! i) eqn:Hi; [by apply Hwf|apply bucket_default_wf].
Qed.

Lemma bucket_at_ilog2 i n :
  n ∈ nodes (bucket_at t i) →
  ilog2 (table_distance t (node_bytes n)) = Some (Z.of_nat i).
Proof.
  intros Hn. destruct (bucket_at_wf i) as (_&_&Hall). rewrite Forall_forall in Hall. by apply Hall.
Qed.

Lemma distance_target k : distance target k = Z.lxor d (table_distance t k).
Proof.
  rewrite (distance_via _ (as_key (local_key t))). by rewrite distance_sym.
Qed.

Lemma cbi_visits_lt : Forall (λ i, i < length (buckets t)) (cbi_visits d).
Proof.
  destruct Hwf as [-> _]. apply Forall_forall. intros i.
  rewrite cbi_visits_perm by apply distance_range. rewrite elem_of_app, elem_of_seq.
  rewrite NUM_BUCKETS_eq. case_decide; set_solver by lia.
Qed.

Lemma cbi_visits_length : length (cbi_visits d) ≤ 257.
Proof.
  rewrite cbi_visits_perm by apply distance_range. rewrite length_app, length_seq.
  rewrite NUM_BUCKETS_eq. case_decide; simpl; lia.
Qed.

Section outputs.
Variable f : Node TKey TVal → TOut.
Hypothesis Hf : ∀ n, as_key (f n) = node_bytes n.

Local Abbreviation fb := (λ b, f <$> nodes b).

Lemma visits_length l : length (l ≫= ci_visit t target fb) ≤ 20 * length l.
Proof.
  induction l as [|i l IH]; [done|]. rewrite bind_cons, length_app. unfold ci_visit at 1.
  rewrite length_sort_by, length_fmap. destruct (bucket_at_wf i) as [Hle _].
  unfold K_VALUE in Hle. cbn [length]. lia.
Qed.

Lemma collect_visits :
  ci_collect t target fb collect_fuel (ci_new t target) =
  Some (cbi_visits d ≫= ci_visit t target fb).
Proof.
  rewrite ci_collect_spec; [done|exact cbi_visits_lt|..].
  - pose proof cbi_visits_length. simpl. unfold cbi_visits in *. lia.
  - unfold ci_remaining; simpl. pose proof cbi_visits_length as Hlen.
    pose proof (visits_length (cbi_visits d)). unfold cbi_visits in *.
    unfold collect_fuel. lia.
Qed.

Lemma visits_sorted :
  StronglySorted (λ a b, distance target (as_key a) ≤ distance target (as_key b))%Z
    (cbi_visits d ≫= ci_visit t target fb).
Proof.
  eapply StronglySorted_bind; [apply cbi_visits_closer, distance_range|..].
  - intros i _. unfold ci_visit, by_distance. apply sort_by_key_sorted.
  - intros i j a b _ _ Hc. unfold ci_visit. rewrite !elem_of_sort_by.
    intros (n&->&Hn)%list_elem_of_fmap (m&->&Hm)%list_elem_of_fmap.
    rewrite !Hf, !distance_target.
    eapply lxor_closer; try apply distance_range; [done|by apply bucket_at_ilog2..].
Qed.

Lemma visits_perm :
  cbi_visits d ≫= ci_visit t target fb ≡ₚ
  (f <$> all_nodes t) ++
  (if decide (d = 0%Z ∨ dbit d 0) then f <$> nodes (bucket_at t 0) else []).
Proof.
  assert (Hp : ∀ l, l ≫= ci_visit t target fb ≡ₚ f <$> ((bucket_at t <$> l) ≫= nodes)).
  { induction l as [|i l IH]; simpl; [done|]. rewrite fmap_app, IH.
    unfold ci_visit. by rewrite sort_by_perm. }
  rewrite Hp, cbi_visits_perm by apply distance_range.
  rewrite fmap_app, bucket_at_seq, bind_app, fmap_app. apply Permutation_app; [done|].
  case_decide; [|done]. simpl. by rewrite app_nil_r.
Qed.
End outputs.

(** *** Counting the nodes between the local node and the target *)

Lemma cbi_until_0_spec fuel it :
  length (cbi_remaining it) < fuel →
  cbi_until_0 fuel it = take_while (λ i, negb (Nat.eqb i 0)) (cbi_remaining it).
Proof.
  revert it. induction fuel as [|fuel IH]; intros it Hfuel; [lia|]. simpl.
  pose proof (cbi_next_spec it) as [Hn Hr]. destruct (cbi_next it) as [o it']; simpl in *.
  simplify_eq. destruct (cbi_remaining it) as [|[|i] l]; simpl in *; [done|done|].
  f_equal. rewrite IH, Hr; [done|]. rewrite Hr. lia.
Qed.

(** The buckets that are counted: the set bits of the distance but bit 0. *)
Definition bits_above_0 : list nat := filter (dbit d) (reverse (seq 1 (NUM_BUCKETS - 1))).

Lemma cbi_until_0_new : cbi_until_0 300 (cbi_new d) = bits_above_0.
Proof.
  pose proof cbi_visits_length as Hlen. rewrite cbi_until_0_spec by (unfold cbi_visits in Hlen; lia).
  fold (cbi_visits d). rewrite cbi_visits_eq by apply distance_range. unfold bits_above_0.
  assert (Hnz : Forall (λ y, negb (Nat.eqb y 0) = true)
    (filter (dbit d) (reverse (seq 1 (NUM_BUCKETS - 1))))).
  { apply Forall_forall. intros i [_ Hi%elem_of_reverse%elem_of_seq]%list_elem_of_filter.
    by destruct i; [lia|]. }
  rewrite seq_NUM_BUCKETS, reverse_cons, filter_app.
  case_decide as Hz.
  - simpl. rewrite filter_none; [done|]. intros i _. rewrite Hz. unfold dbit.
    rewrite Z.bits_0. auto.
  - rewrite <-app_assoc. rewrite filter_singleton by exact [].
    simpl. case_decide; simpl; by apply take_while_app.
Qed.

(** The nodes counted: no further from the local node than the target,
    strictly closer to the target than the local node, outside bucket 0. *)
Definition is_between (n : Node TKey TVal) : Prop :=
  (table_distance t (node_bytes n) ≤ d)%Z ∧
  (distance target (node_bytes n) < d)%Z ∧
  table_distance t (node_bytes n) ≠ 1%Z.

#[global] Instance is_between_dec n : Decision (is_between n).
Proof. unfold is_between. apply _. Defined.

Lemma log2_0 x : (0 < x)%Z → Z.log2 x = 0%Z → x = 1%Z.
Proof. intros Hx Hl%Z.log2_null. lia. Qed.

Lemma is_between_bucket i n :
  n ∈ nodes (bucket_at t i) →
  is_between n ↔ i ∈ bits_above_0 ∧ (table_distance t (node_bytes n) ≤ d)%Z.
Proof.
  intros Hn. pose proof (bucket_at_ilog2 i n Hn) as Hi.
  pose proof (ilog2_range _ _ (distance_range _ _) Hi) as Hr.
  unfold is_between, bits_above_0. rewrite distance_target.
  rewrite (lxor_lt_iff _ _ i), list_elem_of_filter, elem_of_reverse, elem_of_seq, NUM_BUCKETS_eq
    by first [apply distance_range|done].
  assert (i = 0 ↔ table_distance t (node_bytes n) = 1%Z); [|split; intros; split_and!; try tauto; lia].
  split.
  - intros ->. apply ilog2_Some in Hi as [? Hl]; [|apply distance_range]. by apply log2_0.
  - intros Hd. rewrite Hd in Hi. change (ilog2 1) with (Some 0%Z) in Hi. simplify_eq. lia.
Qed.

Lemma bits_above_0_sorted : StronglySorted (λ i j, j < i) bits_above_0.
Proof.
  unfold bits_above_0. generalize (NUM_BUCKETS - 1). intros n.
  induction n as [|n IH]; [constructor|].
  rewrite seq_S, reverse_snoc, filter_cons. case_decide; [|done]. constructor; [done|].
  apply Forall_forall. intros j [_ ?%elem_of_reverse%elem_of_seq]%list_elem_of_filter. lia.
Qed.

Lemma bits_above_0_elem i : i ∈ bits_above_0 → dbit d i ∧ 0 < i < NUM_BUCKETS.
Proof.
  intros [? ?%elem_of_reverse%elem_of_seq]%list_elem_of_filter. split; [done|lia].
Qed.

Lemma between_total :
  length (filter is_between (all_nodes t)) =
  sum_list_with (λ i, length (filter is_between (nodes (bucket_at t i)))) bits_above_0.
Proof.
  unfold all_nodes. rewrite <-bucket_at_seq, list_fmap_bind, length_filter_bind.
  unfold bits_above_0. rewrite seq_NUM_BUCKETS at 1. simpl.
  assert (Hzero : ∀ i, i ∉ bits_above_0 → length (filter is_between (nodes (bucket_at t i))) = 0).
  { intros i Hi. rewrite filter_none; [done|]. intros n Hn. rewrite (is_between_bucket i) by done.
    tauto. }
  rewrite Hzero by (intros [_ Hlt]%bits_above_0_elem; lia). simpl.
  rewrite sum_list_filter, (reverse_Permutation (seq 1 _)); [done|].
  intros i Hi Hbit. apply Hzero. intros [? _]%bits_above_0_elem. done.
Qed.

(** Nodes of a lower bucket are closer to the local node than the target. *)
Lemma lower_bucket_closer i j n :
  dbit d i → j < i → n ∈ nodes (bucket_at t j) → (table_distance t (node_bytes n) ≤ d)%Z.
Proof.
  intros Hbit Hji Hn. pose proof (bucket_at_ilog2 j n Hn) as Hj.
  apply ilog2_Some in Hj as [Hpos Hlog]; [|apply distance_range].
  pose proof (distance_range (as_key (local_key t)) target) as [Hd0 _].
  apply Z.lt_le_incl, Z.log2_lt_cancel. rewrite Hlog.
  assert (Z.of_nat i ≤ Z.log2 d)%Z; [|lia].
  destruct (Z.le_gt_cases (Z.of_nat i) (Z.log2 d)) as [|Hgt]; [done|].
  unfold dbit in Hbit. rewrite Z.bits_above_log2 in Hbit; [done|done|lia].
Qed.

Lemma mapM_bucket_counts l :
  (∀ j, j ∈ l → j < NUM_BUCKETS) →
  mapM (λ j, bucket_num_entries <$> buckets t !! j) l =
    Some ((λ j, length (nodes (bucket_at t j))) <$> l).
Proof.
  intros Hl. apply mapM_Some. apply Forall2_fmap_r, Forall_Forall2_diag, Forall_forall.
  intros j Hj. destruct Hwf as [Hlen _]. unfold bucket_at.
  destruct (lookup_lt_is_Some_2 (buckets t) j) as [b Hb]; [rewrite Hlen; auto|].
  simpl. by rewrite Hb.
Qed.

Lemma count_nodes_between_eq :
  count_nodes_between t target = Some (length (filter is_between (all_nodes t))).
Proof.
  unfold count_nodes_between. rewrite (distance_sym target). fold d.
  rewrite cbi_until_0_new, between_total.
  pose proof bits_above_0_sorted as Hs. pose proof bits_above_0_elem as Hel.
  pose proof is_between_bucket as Hbt.
  destruct bits_above_0 as [|i rest]; [done|].
  apply StronglySorted_inv in Hs as [_ Hlt]. rewrite Forall_forall in Hlt.
  destruct (Hel i) as [Hbit Hi]; [by left|].
  assert (Hb : buckets t !! i = Some (bucket_at t i)).
  { destruct Hwf as [Hlen _]. unfold bucket_at.
    destruct (lookup_lt_is_Some_2 (buckets t) i) as [b Hb]; [rewrite Hlen; lia|]. by rewrite Hb. }
  rewrite Hb. simpl. rewrite mapM_bucket_counts.
  - simpl. do 2 f_equal.
    + apply filter_length_ext. intros n Hn. rewrite distance_sym.
      rewrite (Hbt i n Hn). split; [|tauto]. split; [by left|done].
    + rewrite sum_list_fmap. apply sum_list_with_ext. intros j Hj.
      rewrite filter_all; [done|]. intros n Hn. rewrite (Hbt j n Hn).
      split; [by right|]. apply (lower_bucket_closer i j); auto.
  - intros j Hj. destruct (Hel j); [by right|lia].
Qed.
End lookup_lemmas.

(** ** Theorems on bucket ranges *)

Lemma rand_distance_bytes i gen top :
  i < NUM_BUCKETS →
  ∃ rest, length rest = i / 8 ∧
    rand_distance i gen top = be_combine (replicate (31 - i / 8) Byte.x00 ++ byte.of_Z top :: rest).
Proof.
  rewrite NUM_BUCKETS_eq. intros Hi. unfold rand_distance. set (q := i / 8).
  assert (Hq : q ≤ 31).
  { pose proof (Nat.Div0.div_le_mono i 255 8). change (255 / 8) with 31 in *. lia. }
  assert (Hbs : ∀ n, n ≤ q → ∃ rest, length rest = n ∧
    foldl (λ bs j, <[31 - j := gen j]> bs) (replicate 32 Byte.x00) (seq 0 n) =
      replicate (32 - n) Byte.x00 ++ rest).
  { induction n as [|n IH]; intros Hn; [by exists []|].
    destruct IH as (rest&Hlen&Heq); [lia|]. exists (gen n :: rest).
    split; [simpl; lia|]. rewrite seq_S, foldl_app, Heq. simpl.
    replace (32 - n) with ((31 - n) + 1) by lia. rewrite replicate_add, <-app_assoc. simpl.
    rewrite insert_app_r_alt by (rewrite length_replicate; lia).
    rewrite length_replicate. replace (31 - n - (31 - n)) with 0 by lia.
    by replace (31 - n) with (32 - S n) by lia. }
  destruct (Hbs q) as (rest&Hlen&->); [lia|]. exists rest. split; [done|].
  f_equal. replace (32 - q) with ((31 - q) + 1) by lia. rewrite replicate_add, <-app_assoc.
  rewrite insert_app_r_alt by (rewrite length_replicate; lia).
  rewrite length_replicate. by replace (31 - q - (31 - q)) with 0 by lia.
Qed.

Lemma BucketIndex_new_pow d i :
  u256 d → BucketIndex_new d = Some i ↔ (2 ^ Z.of_nat i ≤ d < 2 ^ (Z.of_nat i + 1))%Z.
Proof.
  intros Hd. unfold BucketIndex_new. rewrite fmap_Some. split.
  - intros (z&Hz&->). pose proof (ilog2_range _ _ Hd Hz). rewrite Z2Nat.id by lia.
    apply ilog2_Some in Hz as [Hpos <-]; [|done]. pose proof (Z.log2_spec d Hpos). lia.
  - intros Hb. exists (Z.of_nat i). split; [|by rewrite Nat2Z.id].
    apply ilog2_Some; [done|]. split; [|apply Z.log2_unique; lia].
    pose proof (Z.pow_pos_nonneg 2 (Z.of_nat i)). lia.
Qed.

Lemma rand_range_index d i :
  i < NUM_BUCKETS → (2 ^ Z.of_nat i ≤ d < 2 ^ (Z.of_nat i + 1))%Z → BucketIndex_new d = Some i.
Proof.
  rewrite NUM_BUCKETS_eq. intros Hi Hd. apply BucketIndex_new_pow; [|done]. unfold u256.
  pose proof (Z.pow_pos_nonneg 2 (Z.of_nat i)). 
  pose proof (Z.pow_le_mono_r 2 (Z.of_nat i + 1) 256). lia.
Qed.

Lemma BucketIndex_new_range d i :
  u256 d → i < NUM_BUCKETS →
  BucketIndex_new d = Some i ↔
  ((BucketIndex_range i).1 ≤ d ≤ (BucketIndex_range i).2)%Z.
Proof.
  rewrite NUM_BUCKETS_eq. intros Hd Hi. rewrite BucketIndex_new_pow by done.
  unfold BucketIndex_range, u256 in *. case_decide as H255; simpl fst; simpl snd.
  - subst i. change (Z.of_nat 255 + 1)%Z with 256%Z. lia.
  - rewrite Nat2Z.inj_add. change (Z.of_nat 1) with 1%Z. lia.
Qed.

(** ** Properties *)

(** Running a sequence of operations of the entry API on a table. *)
Definition table_run {TKey TVal} `{AsKeyBytes TKey}
    (t : KBucketsTable TKey TVal) (ops : list TableOp) : option (KBucketsTable TKey TVal) :=
  foldl (λ r op, t ← r; table_exec t op) (Some t) ops.

Lemma table_exec_spec {TKey TVal} `{AsKeyBytes TKey} (t : KBucketsTable TKey TVal) op :
  table_wf t → ∃ t', table_exec t op = Some t' ∧ table_wf t' ∧
    ∀ k, table_get t' k = table_spec t op k.
Proof.
  destruct op; [apply table_insert_spec|apply table_update_spec|apply table_remove_spec].
Qed.

Lemma table_exec_get {TKey TVal} `{AsKeyBytes TKey} (t t' : KBucketsTable TKey TVal) op :
  table_wf t → table_exec t op = Some t' → ∀ k, table_get t' k = table_spec t op k.
Proof. intros Hwf Hex. destruct (table_exec_spec t op Hwf) as (t1&?&_&?). by simplify_eq. Qed.

Lemma table_run_wf {TKey TVal} `{AsKeyBytes TKey} (t : KBucketsTable TKey TVal) ops :
  table_wf t → ∃ t', table_run t ops = Some t' ∧ table_wf t'.
Proof.
  unfold table_run. induction ops as [|op ops IH] using rev_ind; intros Hwf; [by exists t|].
  destruct (IH Hwf) as (t1&Ht1&Hwf1). destruct (table_exec_spec t1 op Hwf1) as (t2&Ht2&Hwf2&_).
  exists t2. rewrite foldl_app, Ht1. simpl. by rewrite Ht2.
Qed.

Lemma table_run_new_wf {TKey TVal} `{AsKeyBytes TKey} (local : TKey) ops
    (t : KBucketsTable TKey TVal) :
  table_run (table_new local) ops = Some t → table_wf t.
Proof.
  destruct (table_run_wf (table_new local) ops (table_new_wf local)) as (t'&Ht'&?).
  rewrite Ht'. by intros [= ->].
Qed.

Lemma num_entries_eq {TKey TVal} (t : KBucketsTable TKey TVal) :
  num_entries t = length (all_nodes t).
Proof.
  unfold num_entries, all_nodes.
  assert (Hf : ∀ (l : list (KBucket TKey TVal)) n, foldl (λ acc b, acc + bucket_num_entries b) n l = n + length (l ≫= nodes)).
  { induction l as [|b l IH]; intros n; [simpl; lia|].
    rewrite bind_cons, length_app. cbn [foldl]. rewrite IH. unfold bucket_num_entries. lia. }
  apply Hf.
Qed.

(** [C2] The routing table refines a partial map on keys.  From a table that
    satisfies the invariant, each operation a client performs through [entry]
    runs without a panic, gives a table that satisfies the invariant, and
    changes what [entry] reads at the operation's key only: an insertion of an
    absent key takes effect unless its bucket is full or the key is the local
    one, an update and a removal exactly where the key is present. *)
Theorem table_exec_refines {TKey TVal} `{AsKeyBytes TKey} (t : KBucketsTable TKey TVal) op
    (Hwf : table_wf t) :
  ∃ t', table_exec t op = Some t' ∧ table_wf t' ∧ ∀ k, table_get t' k = table_spec t op k.
Proof. by apply table_exec_spec. Qed.

Lemma table_exec_refines_witness :
  ∃ t', table_exec (table_new (key_of_Z 0)) (TInsert (key_of_Z 5) true) = Some t' ∧
    table_get t' (key_of_Z 5) = Some true.
Proof.
  destruct (table_exec_refines (table_new (key_of_Z 0)) (TInsert (key_of_Z 5) true)
    (table_new_wf _)) as (t'&Ht'&_&Hget).
  exists t'. split; [exact Ht'|]. rewrite Hget. vm_compute. reflexivity.
Defined.

(** No sequence of operations on a new table panics, and in every table
    they reach each bucket holds at most 20 nodes, with distinct keys, all of
    them at a distance of the local key whose logarithm is the index of the
    bucket; the local key itself is in no bucket. *)
Theorem table_reachable_wf {TKey TVal} `{AsKeyBytes TKey} (local : TKey) (ops : list TableOp) :
  ∃ t : KBucketsTable TKey TVal,
    table_run (table_new local) ops = Some t ∧ table_wf t ∧
    num_entries t ≤ NUM_BUCKETS * K_VALUE ∧ table_get t (local_key t) = None.
Proof.
  destruct (table_run_wf (TVal := TVal) (table_new local) ops (table_new_wf local))
    as (t&Ht&Hwf).
  exists t. split_and!; [done|done| |by apply table_get_self].
  rewrite num_entries_eq. unfold all_nodes. destruct Hwf as [<- Hb].
  assert (Hl : Forall (λ b, length (nodes b) ≤ K_VALUE) (buckets t)).
  { apply Forall_lookup. intros i b Hi. by apply Hb in Hi as [? _]. }
  clear Hb. revert Hl. induction (buckets t) as [|b l IH]; intros Hl; [simpl; lia|].
  apply Forall_cons in Hl as [? Hl]. rewrite bind_cons, length_app.
  specialize (IH Hl). cbn [length]. lia.
Qed.

(** [C1] [closest_keys] terminates within its fuel, never indexes out of the
    table, and yields the keys in the order of their distance to the target.
    They are the keys of all the nodes of the table, the key of bucket 0 once
    more when the distance of the target to the local key is zero or odd. *)
Theorem closest_keys_sorted {TKey TVal} `{AsKeyBytes TKey} (t : KBucketsTable TKey TVal)
    (target : KeyBytes) (Hwf : table_wf t) :
  ∃ l, closest_keys t target = Some l ∧
    StronglySorted (λ a b, distance target (as_key a) ≤ distance target (as_key b))%Z l ∧
    l ≡ₚ (node_key <$> all_nodes t) ++
      (if decide (table_distance t target = 0%Z ∨ dbit (table_distance t target) 0)
       then node_key <$> nodes (bucket_at t 0) else []).
Proof.
  eexists. split_and!; [by apply collect_visits|by apply visits_sorted|by apply visits_perm].
Qed.

(** The table of the key 0 that holds the keys 1, 6 and 9. *)
Definition sample_table : KBucketsTable KeyBytes nat :=
  default (table_new (key_of_Z 0))
    (table_run (table_new (key_of_Z 0))
      [TInsert (key_of_Z 6) 10; TInsert (key_of_Z 1) 20; TInsert (key_of_Z 9) 30]).

Lemma sample_table_wf : table_wf sample_table.
Proof.
  unfold sample_table.
  destruct (table_run_wf (TVal := nat) (table_new (key_of_Z 0))
    [TInsert (key_of_Z 6) 10; TInsert (key_of_Z 1) 20; TInsert (key_of_Z 9) 30]
    (table_new_wf _)) as (t&->&Hwf). exact Hwf.
Qed.

Lemma closest_keys_sorted_witness :
  ∃ l, closest_keys sample_table (key_of_Z 4) = Some l ∧ (u256_of <$> l) = [6; 1; 9]%Z.
Proof.
  destruct (closest_keys_sorted sample_table (key_of_Z 4) sample_table_wf) as (l&Hl&_).
  exists l. split; [exact Hl|].
  assert (Hv : fmap u256_of <$> closest_keys sample_table (key_of_Z 4) = Some [6; 1; 9]%Z)
    by by_eval.
  rewrite Hl in Hv. by injection Hv.
Defined.

(** A lookup of a key at an odd distance of the local key yields the node
    of bucket 0 twice: the iterator returns index 0 when bit 0 of the distance is
    set, and once more when it turns from the set bits to the clear ones. *)
Theorem closest_keys_repeats_bucket_0 :
  option_map (map u256_of) (closest_keys sample_table (key_of_Z 1)) = Some [1; 1; 6; 9]%Z.
Proof. by_eval. Qed.

(** [closest] yields the views of the nodes in the same order: sorted by
    the distance of their key to the target, the node of bucket 0 once more when
    the distance of the target to the local key is zero or odd. *)
Theorem closest_sorted {TKey TVal} `{AsKeyBytes TKey} (t : KBucketsTable TKey TVal)
    (target : KeyBytes) (Hwf : table_wf t) :
  ∃ l, closest t target = Some l ∧
    StronglySorted (λ a b, distance target (as_key a) ≤ distance target (as_key b))%Z l ∧
    l ≡ₚ (mk_EntryView <$> all_nodes t) ++
      (if decide (table_distance t target = 0%Z ∨ dbit (table_distance t target) 0)
       then mk_EntryView <$> nodes (bucket_at t 0) else []).
Proof.
  eexists. split_and!; [by apply collect_visits|by apply visits_sorted|by apply visits_perm].
Qed.

Lemma closest_sorted_witness :
  ∃ l, closest sample_table (key_of_Z 4) = Some l ∧
    (node_value ∘ ev_node <$> l) = [10; 20; 30].
Proof.
  destruct (closest_sorted sample_table (key_of_Z 4) sample_table_wf) as (l&Hl&_).
  exists l. split; [exact Hl|].
  assert (Hv : fmap (node_value ∘ ev_node) <$> closest sample_table (key_of_Z 4) =
    Some [10; 20; 30]) by by_eval.
  rewrite Hl in Hv. by injection Hv.
Defined.

(** [count_nodes_between] counts exactly the nodes that are no further from
    the local node than the target, strictly closer to the target than the
    local node, and not at distance 1 of the local node. *)
Theorem count_nodes_between_exact {TKey TVal} `{AsKeyBytes TKey} (t : KBucketsTable TKey TVal)
    (target : KeyBytes) (Hwf : table_wf t) :
  count_nodes_between t target = Some (length (filter (λ n,
    table_distance t (node_bytes n) ≤ table_distance t target ∧
    distance target (node_bytes n) < table_distance t target ∧
    table_distance t (node_bytes n) ≠ 1)%Z (all_nodes t))).
Proof. by apply count_nodes_between_eq. Qed.

Lemma count_nodes_between_exact_witness :
  count_nodes_between sample_table (key_of_Z 13) = Some 2.
Proof.
  rewrite (count_nodes_between_exact sample_table (key_of_Z 13) sample_table_wf).
  vm_compute. reflexivity.
Defined.

(** The bucket ranges partition the non-zero distances: a distance belongs to
    the bucket of its logarithm ([KBucketRef::contains]) exactly when it is within
    the inclusive bounds that [range] gives for it. *)
Theorem bucket_range_exact (d : Distance) (i : BucketIndex)
    (Hd : u256 d) (Hi : i < NUM_BUCKETS) :
  bucket_contains i d = true ↔
  ((BucketIndex_range i).1 ≤ d ≤ (BucketIndex_range i).2)%Z.
Proof.
  rewrite <-BucketIndex_new_range by done. unfold bucket_contains.
  destruct (BucketIndex_new d); [rewrite bool_decide_eq_true|]; split; congruence.
Qed.

Lemma bucket_range_exact_witness :
  bucket_contains 255 (2 ^ 256 - 1) = true ↔
  ((BucketIndex_range 255).1 ≤ 2 ^ 256 - 1 ≤ (BucketIndex_range 255).2)%Z.
Proof.
  apply (bucket_range_exact (2 ^ 256 - 1) 255); [by split; vm_compute|].
  rewrite NUM_BUCKETS_eq. lia.
Defined.

(** A distance drawn by [rand_distance] falls into its bucket, whatever the
    random bytes and whatever value [gen_range] draws within its bounds. *)
Theorem rand_distance_in_bucket (i : BucketIndex) (gen : nat → u8) (top : Z)
    (Hi : i < NUM_BUCKETS) (Htop : (2 ^ Z.of_nat (i mod 8) ≤ top < 2 ^ Z.of_nat (i mod 8 + 1))%Z) :
  BucketIndex_new (rand_distance i gen top) = Some i.
Proof.
  destruct (rand_distance_bytes i gen top Hi) as (rest&Hlen&Heq).
  pose proof (be_combine_bound rest) as Hrest. rewrite Hlen in Hrest.
  assert (Hmod : i mod 8 < 8) by (apply Nat.mod_upper_bound; lia).
  assert (Htop8 : (0 ≤ top < 2 ^ 8)%Z).
  { pose proof (Z.pow_pos_nonneg 2 (Z.of_nat (i mod 8))).
    pose proof (Z.pow_le_mono_r 2 (Z.of_nat (i mod 8 + 1)) 8). lia. }
  assert (Hval : rand_distance i gen top =
    (top * 2 ^ (8 * Z.of_nat (i / 8)) + be_combine rest)%Z).
  { rewrite Heq, be_combine_app, be_combine_zeros.
    change (byte.of_Z top :: rest) with ([byte.of_Z top] ++ rest).
    rewrite be_combine_app, be_combine_singleton, byte.unsigned_of_Z, Hlen.
    unfold byte.wrap. rewrite Z.mod_small by done. lia. }
  assert (Hi' : Z.of_nat i = (8 * Z.of_nat (i / 8) + Z.of_nat (i mod 8))%Z).
  { pose proof (Nat.div_mod_eq i 8). lia. }
  apply rand_range_index; [done|]. rewrite Hval, Hi', <-Z.add_assoc, !Z.pow_add_r by lia.
  rewrite Nat2Z.inj_add, Z.pow_add_r in Htop by lia. change (2 ^ Z.of_nat 1)%Z with 2%Z in *. nia.
Qed.

Lemma rand_distance_in_bucket_witness :
  BucketIndex_new (rand_distance 11 (λ _, Byte.xff) 15) = Some 11.
Proof.
  apply (rand_distance_in_bucket 11 (λ _, Byte.xff) 15); [rewrite NUM_BUCKETS_eq; lia|].
  vm_compute. split; [discriminate|reflexivity].
Defined.
