(* ===== verification/RecordStore.v ===== *)
(** * Records and the record store of the DHT

    [protocols/kad/src/record.rs], [record/store.rs] and
    [record/store/memory.rs].  [RecordStore] is the trait the behaviour of
    [kad.rs] is generic over, [RecordStoreLaws] what that code relies on, and
    [MemoryStore] the implementation with its hash maps as finite maps.
    [Instant] and [Duration] are integers; [Instant::now()] is an argument.

    The theorems show that the limits of the configuration and the order of the
    providers are invariants, that garbage collection removes exactly the
    outdated records, and that the provider list of a key is the stable sort
    of the records by distance, cut at the configured length. *)

From Stdlib Require Import ZArith Lia.
From S2P Require Import Prelude KadKey KBucket.

Abbreviation Instant := Z (only parsing).
Abbreviation Duration := Z (only parsing).

(** [record::Key]: an opaque byte string. *)
Abbreviation RKey := bytes.

#[global] Instance RKey_to_bytes : ToBytes RKey := λ k, k.

Inductive StoreError := MaxRecords | ValueTooLarge.

Record KRecord (PeerId : Type) := mk_KRecord {
  rec_key : RKey;
  rec_value : bytes;
  rec_time_received : option Instant;
  rec_publisher : option PeerId
}.
Arguments mk_KRecord {PeerId} _ _ _ _.
Arguments rec_key {PeerId} _.
Arguments rec_value {PeerId} _.
Arguments rec_time_received {PeerId} _.
Arguments rec_publisher {PeerId} _.

Definition KRecord_new {PeerId} (now : Instant) (key : RKey) (value : bytes) (is_local : bool)
    (publisher : option PeerId) : KRecord PeerId :=
  mk_KRecord key value (if is_local then None else Some now) publisher.

Record ProviderRecord (PeerId : Type) := mk_ProviderRecord {
  prov_key : RKey;
  prov_provider : PeerId;
  prov_time_received : option Instant
}.
Arguments mk_ProviderRecord {PeerId} _ _ _.
Arguments prov_key {PeerId} _.
Arguments prov_provider {PeerId} _.
Arguments prov_time_received {PeerId} _.

Definition ProviderRecord_new {PeerId} (now : Instant) (key : RKey) (provider : PeerId)
    (is_local : bool) : ProviderRecord PeerId :=
  mk_ProviderRecord key provider (if is_local then None else Some now).

(** [time_received.map_or(false, |t| now.checked_duration_since(t + ttl).is_some())]. *)
Definition outdated (now : Instant) (ttl : Duration) (received : option Instant) : bool :=
  match received with
  | Some t => (t + ttl <=? now)%Z
  | None => false
  end.

(** ** The trait *)

Class RecordStore (PeerId S : Type) := {
  rs_get : S → RKey → option (KRecord PeerId);
  rs_put : S → KRecord PeerId → S * result StoreError unit;
  rs_remove : S → RKey → S;
  rs_all_records : S → list (KRecord PeerId);
  rs_records_count : S → nat;
  rs_gc_records : Instant → S → Duration → S;
  rs_providers : S → RKey → list (ProviderRecord PeerId);
  rs_add_provider : S → ProviderRecord PeerId → S * result StoreError unit;
  rs_remove_provider : S → RKey → PeerId → S;
  rs_all_providers : S → list (ProviderRecord PeerId);
  rs_providers_count : S → nat;
  rs_gc_providers : Instant → S → Duration → S
}.

(** ** The memory store *)

Record MemoryStoreConfig := mk_MemoryStoreConfig {
  max_records : nat;
  max_value_bytes : nat;
  max_providers_per_key : nat
}.

Definition MemoryStoreConfig_default : MemoryStoreConfig :=
  mk_MemoryStoreConfig 1024 (65 * 1024) K_VALUE.

Section memory.
Context {PeerId : Type} `{EqDecision PeerId, ToBytes PeerId, Sha256}.

Record MemoryStore := mk_MemoryStore {
  ms_local_key : Key PeerId;
  ms_config : MemoryStoreConfig;
  ms_records : gmap RKey (KRecord PeerId);
  ms_providers : gmap RKey (list (ProviderRecord PeerId))
}.
Implicit Types (s : MemoryStore) (k : RKey) (r : KRecord PeerId) (p : ProviderRecord PeerId).

Definition with_records s (m : gmap RKey (KRecord PeerId)) : MemoryStore :=
  mk_MemoryStore (ms_local_key s) (ms_config s) m (ms_providers s).

Definition with_providers s (m : gmap RKey (list (ProviderRecord PeerId))) : MemoryStore :=
  mk_MemoryStore (ms_local_key s) (ms_config s) (ms_records s) m.

Definition with_config (local_id : PeerId) (config : MemoryStoreConfig) : MemoryStore :=
  mk_MemoryStore (Key_new local_id) config ∅ ∅.

Definition MemoryStore_new (local_id : PeerId) : MemoryStore :=
  with_config local_id MemoryStoreConfig_default.

(** [retain]: the predicate may also update the record it is given. *)
Definition retain s (f : RKey → KRecord PeerId → bool * KRecord PeerId) : MemoryStore :=
  with_records s (map_imap (λ k r, let '(keep, r') := f k r in if keep then Some r' else None)
    (ms_records s)).

Definition ms_get s k : option (KRecord PeerId) := ms_records s !! k.

Definition ms_put s r : MemoryStore * result StoreError unit :=
  if Nat.leb (max_value_bytes (ms_config s)) (length (rec_value r)) then (s, Err ValueTooLarge)
  else
    let num_records := size (ms_records s) in
    match ms_records s !! rec_key r with
    | Some _ => (with_records s (<[rec_key r := r]> (ms_records s)), Ok ())
    | None =>
        if Nat.leb (max_records (ms_config s)) num_records then (s, Err MaxRecords)
        else (with_records s (<[rec_key r := r]> (ms_records s)), Ok ())
    end.

Definition ms_remove s k : MemoryStore := with_records s (delete k (ms_records s)).

Definition ms_all_records s : list (KRecord PeerId) := (map_to_list (ms_records s)).*2.

Definition ms_gc_records (now : Instant) s (ttl : Duration) : MemoryStore :=
  let records := filter (λ r, outdated now ttl (rec_time_received r)) (ms_all_records s) in
  foldl (λ s r, ms_remove s (rec_key r)) s records.

(** [Vec::insert] at the first position that is further, or [push]. *)
Definition provider_distance (p : ProviderRecord PeerId) : Distance :=
  distance (key_raw (Key_new (prov_provider p))) (key_raw (Key_new (prov_key p))).

Definition insert_provider (ps : list (ProviderRecord PeerId)) p : list (ProviderRecord PeerId) :=
  let key := key_raw (Key_new (prov_key p)) in
  let provider := key_raw (Key_new (prov_provider p)) in
  match position (λ q, distance provider key <?
      distance (key_raw (Key_new (prov_provider q))) key)%Z ps with
  | Some i => insert_at i p ps
  | None => ps ++ [p]
  end.

Definition ms_add_provider s p : MemoryStore * result StoreError unit :=
  let ps := default [] (ms_providers s !! prov_key p) in
  let ps' :=
    match position (λ q, bool_decide (prov_provider q = prov_provider p)) ps with
    | Some i => <[i := p]> ps
    | None => take (max_providers_per_key (ms_config s)) (insert_provider ps p)
    end in
  (with_providers s (<[prov_key p := ps']> (ms_providers s)), Ok ()).

Definition ms_get_providers s k : list (ProviderRecord PeerId) :=
  default [] (ms_providers s !! k).

Definition ms_all_providers s : list (ProviderRecord PeerId) :=
  mjoin (map_to_list (ms_providers s)).*2.

Definition ms_remove_provider s k (provider : PeerId) : MemoryStore :=
  match ms_providers s !! k with
  | Some ps =>
      let ps' :=
        match position (λ q, bool_decide (prov_provider q = provider)) ps with
        | Some i => delete i ps
        | None => ps
        end in
      with_providers s (if decide (ps' = []) then delete k (ms_providers s)
                        else <[k := ps']> (ms_providers s))
  | None => s
  end.

Definition ms_gc_providers (now : Instant) s (ttl : Duration) : MemoryStore :=
  let provider_records :=
    filter (λ p, outdated now ttl (prov_time_received p)) (ms_all_providers s) in
  foldl (λ s p, ms_remove_provider s (prov_key p) (prov_provider p)) s provider_records.

Definition ms_providers_count s : nat := size (ms_providers s).

Definition ms_records_count s : nat := size (ms_records s).

#[global] Instance MemoryStore_store : RecordStore PeerId MemoryStore := {|
  rs_get := ms_get;
  rs_put := ms_put;
  rs_remove := ms_remove;
  rs_all_records := ms_all_records;
  rs_records_count := ms_records_count;
  rs_gc_records := ms_gc_records;
  rs_providers := ms_get_providers;
  rs_add_provider := ms_add_provider;
  rs_remove_provider := ms_remove_provider;
  rs_all_providers := ms_all_providers;
  rs_providers_count := ms_providers_count;
  rs_gc_providers := ms_gc_providers
|}.
End memory.
Arguments MemoryStore : clear implicits.

(** ** The invariant of the memory store *)

Section memory_lemmas.
Context {PeerId : Type} `{EqDecision PeerId, ToBytes PeerId, Sha256}.
Implicit Types (s : MemoryStore PeerId) (k : RKey).
Implicit Types (r : KRecord PeerId) (p q : ProviderRecord PeerId).

(** The provider list of the key [k]. *)
Definition provs_wf (max : nat) k (ps : list (ProviderRecord PeerId)) : Prop :=
  Forall (λ q, prov_key q = k) ps ∧
  NoDup (prov_provider <$> ps) ∧
  length ps ≤ max ∧
  StronglySorted (λ a b, provider_distance a ≤ provider_distance b)%Z ps.

Record store_wf s : Prop := mk_store_wf {
  wf_records : ∀ k r, ms_records s !! k = Some r →
    rec_key r = k ∧ length (rec_value r) < max_value_bytes (ms_config s);
  wf_size : size (ms_records s) ≤ max_records (ms_config s);
  wf_providers : ∀ k ps, ms_providers s !! k = Some ps →
    provs_wf (max_providers_per_key (ms_config s)) k ps ∧
    (0 < max_providers_per_key (ms_config s) → ps ≠ [])
}.

Lemma provs_wf_nil max k : provs_wf max k [].
Proof. split_and!; [constructor|constructor|simpl; lia|constructor]. Qed.

Lemma get_providers_wf s k :
  store_wf s → provs_wf (max_providers_per_key (ms_config s)) k (ms_get_providers s k).
Proof.
  intros Hwf. unfold ms_get_providers. destruct (ms_providers s !! k) eqn:Hk; simpl.
  - by apply (wf_providers s Hwf).
  - apply provs_wf_nil.
Qed.

Lemma with_config_wf (local : PeerId) config : store_wf (with_config local config).
Proof.
  split; simpl; [|rewrite map_size_empty; lia|]; intros ??; rewrite lookup_empty; done.
Qed.

Lemma ms_put_wf s r : store_wf s → store_wf (ms_put s r).1.
Proof.
  intros [Hr Hs Hp]. unfold ms_put. destruct (Nat.leb_spec (max_value_bytes (ms_config s))
    (length (rec_value r))) as [|Hv]; [by split|].
  assert (Hins : ∀ k r', <[rec_key r:=r]> (ms_records s) !! k = Some r' →
    rec_key r' = k ∧ length (rec_value r') < max_value_bytes (ms_config s)).
  { intros k r' [[<- <-]|[_ ?]]%lookup_insert_Some; auto. }
  destruct (ms_records s !! rec_key r) eqn:Hk.
  - split; simpl; [done| |done]. by rewrite map_size_insert_Some.
  - destruct (Nat.leb_spec (max_records (ms_config s)) (size (ms_records s))); [by split|].
    split; simpl; [done| |done]. rewrite map_size_insert_None by done. lia.
Qed.

Lemma ms_remove_wf s k : store_wf s → store_wf (ms_remove s k).
Proof.
  intros [Hr Hs Hp]. split; simpl; [| |done].
  - intros k' r [_ ?]%lookup_delete_Some. auto.
  - rewrite map_size_delete. destruct (ms_records s !! k); simpl; unfold id; lia.
Qed.

Lemma foldl_remove_wf rs s : store_wf s → store_wf (foldl (λ s r, ms_remove s (rec_key r)) s rs).
Proof. revert s. induction rs as [|r rs IH]; intros s Hwf; [done|]. by apply IH, ms_remove_wf. Qed.

Lemma insert_provider_eq ps p :
  Forall (λ q, prov_key q = prov_key p) ps →
  insert_provider ps p = insert_after provider_distance p ps.
Proof.
  intros Hk. rewrite insert_after_position. unfold insert_provider.
  replace (position (λ q, _ <? distance _ (key_raw (Key_new (prov_key p))))%Z ps)
    with (position (λ y, provider_distance p <? provider_distance y)%Z ps); [done|].
  induction Hk as [|q ps Hq Hk IH]; [done|]. simpl. rewrite IH.
  unfold provider_distance at 2. by rewrite Hq.
Qed.

Lemma insert_after_sorted {A} (key : A → Z) x l :
  StronglySorted (λ a b, key a ≤ key b)%Z l →
  StronglySorted (λ a b, key a ≤ key b)%Z (insert_after key x l).
Proof.
  induction 1 as [|y l Hl IH Hy]; simpl; [by repeat constructor|].
  rewrite Forall_forall in Hy. destruct (Z.ltb_spec (key x) (key y)).
  - constructor; [by constructor; [|by apply Forall_forall]|].
    apply Forall_cons. split; [lia|]. apply Forall_forall. intros z Hz. specialize (Hy z Hz). lia.
  - constructor; [done|]. apply Forall_forall. intros z. rewrite insert_after_perm.
    intros [->|Hz]%elem_of_cons; [done|auto].
Qed.

(** A new provider: the list stays sorted, with the furthest one dropped. *)
Lemma provs_wf_insert max k ps p :
  provs_wf max k ps → prov_key p = k → prov_provider p ∉ prov_provider <$> ps →
  provs_wf max k (take max (insert_after provider_distance p ps)).
Proof.
  intros (Hk&Hnd&_&Hs) Hp Hnew. split_and!.
  - apply Forall_take. rewrite insert_after_perm. by constructor.
  - rewrite fmap_take. eapply sublist_NoDup; [|apply sublist_take].
    rewrite insert_after_perm, fmap_cons. by constructor.
  - rewrite length_take. lia.
  - by apply StronglySorted_take, insert_after_sorted.
Qed.

Lemma sorted_insert_same {A} (key : A → Z) i x y l :
  l !! i = Some y → key x = key y →
  StronglySorted (λ a b, key a ≤ key b)%Z l →
  StronglySorted (λ a b, key a ≤ key b)%Z (<[i:=x]> l).
Proof.
  intros Hi Hxy Hs. revert i Hi. induction Hs as [|z l Hl IH Hz]; intros [|i] Hi; simplify_eq/=.
  - constructor; [done|]. rewrite Hxy. done.
  - constructor; [by apply IH|]. apply Forall_insert; [done|]. rewrite Hxy.
    by apply (Forall_lookup_1 _ _ _ _ Hz Hi).
Qed.

(** A known provider is updated in place. *)
Lemma provs_wf_update max k ps p i q :
  provs_wf max k ps → prov_key p = k → ps !! i = Some q → prov_provider q = prov_provider p →
  provs_wf max k (<[i:=p]> ps).
Proof.
  intros (Hk&Hnd&Hl&Hs) Hp Hi Hpq.
  assert (Hqk : prov_key q = k) by apply (Forall_lookup_1 _ _ _ _ Hk Hi).
  split_and!.
  - by apply Forall_insert.
  - rewrite list_fmap_insert, <-Hpq, list_insert_id; [done|]. by rewrite list_lookup_fmap, Hi.
  - by rewrite length_insert.
  - apply (sorted_insert_same _ i p q); [done| |done]. unfold provider_distance. congruence.
Qed.

(** The provider list after [add_provider]. *)
Definition added max (ps : list (ProviderRecord PeerId)) p : list (ProviderRecord PeerId) :=
  match position (λ q, bool_decide (prov_provider q = prov_provider p)) ps with
  | Some i => <[i := p]> ps
  | None => take max (insert_after provider_distance p ps)
  end.

Lemma ms_add_provider_get s p k :
  store_wf s →
  ms_get_providers (ms_add_provider s p).1 k =
    if decide (prov_key p = k)
    then added (max_providers_per_key (ms_config s)) (ms_get_providers s k) p
    else ms_get_providers s k.
Proof.
  intros Hwf. unfold ms_add_provider, added; simpl. fold (ms_get_providers s (prov_key p)).
  rewrite insert_provider_eq by apply (get_providers_wf s (prov_key p) Hwf).
  unfold ms_get_providers at 1. simpl. case_decide as Hk.
  - subst k. by rewrite lookup_insert_eq.
  - by rewrite lookup_insert_ne.
Qed.

Lemma added_wf max k ps p : provs_wf max k ps → prov_key p = k → provs_wf max k (added max ps p).
Proof.
  intros Hps Hp. unfold added. destruct (position _ ps) as [i|] eqn:Hpos.
  - apply position_Some in Hpos as (q&Hq&Heq%bool_decide_eq_true&_).
    by apply (provs_wf_update max k ps p i q).
  - apply provs_wf_insert; [done..|]. rewrite list_elem_of_fmap. intros (q&Heq&Hq).
    apply position_None in Hpos. rewrite Forall_forall in Hpos.
    apply Hpos in Hq. by rewrite bool_decide_eq_false in Hq.
Qed.

Lemma added_elem max ps p q : q ∈ added max ps p → q ∈ ps ∨ q = p.
Proof.
  unfold added. destruct (position _ ps) as [i|].
  - intros [j [(?&?&_)|[_ Hj]]%list_lookup_insert_Some]%list_elem_of_lookup; [auto|].
    left. by eapply list_elem_of_lookup_2.
  - intros (j&Hj%list_elem_of_lookup_2&_)%elem_of_take. rewrite insert_after_perm in Hj.
    apply elem_of_cons in Hj as [?|?]; auto.
Qed.

Lemma added_nonempty max ps p : 0 < max → added max ps p ≠ [].
Proof.
  intros Hmax Hnil. assert (Hlen : length (added max ps p) = 0) by by rewrite Hnil.
  revert Hlen. unfold added. destruct (position _ ps) as [i|] eqn:Hpos.
  - apply position_lt in Hpos. rewrite length_insert. lia.
  - rewrite length_take, (Permutation_length (insert_after_perm _ _ _)). simpl. lia.
Qed.

Lemma ms_add_provider_wf s p : store_wf s → store_wf (ms_add_provider s p).1.
Proof.
  intros Hwf. pose proof Hwf as [Hr Hs Hp]. split; [done|done|].
  intros k ps Hk. assert (Hget : ms_get_providers (ms_add_provider s p).1 k = ps)
    by (unfold ms_get_providers; by rewrite Hk).
  rewrite ms_add_provider_get in Hget by done. simpl in Hk |- *.
  case_decide as Hkp; subst ps.
  - split; [apply added_wf; [by apply get_providers_wf|done]|by apply added_nonempty].
  - rewrite lookup_insert_ne in Hk by done. by apply Hp.
Qed.

Lemma ms_remove_provider_get s k k' provider :
  store_wf s →
  ms_get_providers (ms_remove_provider s k provider) k' =
    if decide (k = k') then filter (λ q, prov_provider q ≠ provider) (ms_get_providers s k')
    else ms_get_providers s k'.
Proof.
  intros Hwf. unfold ms_remove_provider, ms_get_providers.
  destruct (ms_providers s !! k) as [ps|] eqn:Hk.
  - rewrite delete_position_filter by (apply (wf_providers s Hwf k ps Hk)). simpl.
    destruct (decide (k = k')) as [<-|Hkk].
    + rewrite Hk. simpl. case_decide as Hnil; [by rewrite Hnil, lookup_delete_eq|].
      by rewrite lookup_insert_eq.
    + case_decide; [by rewrite lookup_delete_ne|by rewrite lookup_insert_ne].
  - case_decide; [subst k'|done]. by rewrite Hk.
Qed.

Lemma provs_wf_filter max k ps (P : ProviderRecord PeerId → Prop) `{∀ q, Decision (P q)} :
  provs_wf max k ps → provs_wf max k (filter P ps).
Proof.
  intros (Hk&Hnd&Hl&Hs).
  assert (Hsub : filter P ps `sublist_of` ps) by apply sublist_filter.
  split_and!.
  - by apply Forall_filter.
  - eapply sublist_NoDup; [exact Hnd|]. by apply fmap_sublist.
  - apply sublist_length in Hsub. lia.
  - by apply StronglySorted_filter.
Qed.

Lemma ms_remove_provider_wf s k provider : store_wf s → store_wf (ms_remove_provider s k provider).
Proof.
  intros Hwf. pose proof Hwf as [Hr Hs Hp]. unfold ms_remove_provider.
  destruct (ms_providers s !! k) as [ps|] eqn:Hk; [|done]. split; [done|done|]. simpl.
  destruct (Hp k ps Hk) as [Hps _].
  rewrite delete_position_filter by apply Hps. intros k' ps'. case_decide as Hnil.
  - intros [_ ?]%lookup_delete_Some. auto.
  - intros [[<- <-]|[_ ?]]%lookup_insert_Some; [|auto]. split; [by apply provs_wf_filter|done].
Qed.

(** ** Garbage collection *)

Lemma foldl_remove_lookup rs s k :
  ms_records (foldl (λ s r, ms_remove s (rec_key r)) s rs) !! k =
    if decide (k ∈ rec_key <$> rs) then None else ms_records s !! k.
Proof.
  revert s. induction rs as [|r rs IH]; intros s; [done|].
  simpl. rewrite IH. simpl. destruct (decide (k = rec_key r)) as [->|Hne].
  - rewrite lookup_delete_eq. destruct (decide (_ ∈ _ :: _)) as [_|[]]; [|by left].
    by case_decide.
  - rewrite lookup_delete_ne by done. apply decide_ext. rewrite elem_of_cons. tauto.
Qed.

Lemma ms_gc_records_lookup now s ttl k :
  store_wf s →
  ms_records (ms_gc_records now s ttl) !! k =
    match ms_records s !! k with
    | Some r => if outdated now ttl (rec_time_received r) then None else Some r
    | None => None
    end.
Proof.
  intros Hwf. unfold ms_gc_records. rewrite foldl_remove_lookup.
  set (rs := filter _ _).
  assert (Hin : ∀ r, r ∈ rs ↔ outdated now ttl (rec_time_received r) = true ∧
    ∃ k, ms_records s !! k = Some r).
  { intros r. unfold rs, ms_all_records.
    rewrite list_elem_of_filter, list_elem_of_fmap, Is_true_true. split.
    - intros [? ([k' r']&->&?%elem_of_map_to_list)]. eauto.
    - intros [? [k' ?%elem_of_map_to_list]]. split; [done|]. by exists (k', r). }
  assert (Hk : k ∈ rec_key <$> rs ↔
    ∃ r, ms_records s !! k = Some r ∧ outdated now ttl (rec_time_received r) = true).
  { rewrite list_elem_of_fmap. split.
    - intros (r&->&[? [k' Hk']]%Hin). exists r. split; [|done].
      by destruct (wf_records s Hwf k' r Hk') as [-> _].
    - intros (r&Hr&?). exists r. destruct (wf_records s Hwf k r Hr) as [<- _].
      split; [done|]. apply Hin. eauto. }
  destruct (ms_records s !! k) as [r|] eqn:Hr.
  - destruct (outdated _ _ _) eqn:Ho.
    + rewrite decide_True; [done|]. apply Hk. eauto.
    + rewrite decide_False; [done|]. intros (r'&[= <-]&?)%Hk. congruence.
  - by case_decide.
Qed.

Lemma foldl_remove_provider_get ps s k :
  store_wf s →
  let s' := foldl (λ s p, ms_remove_provider s (prov_key p) (prov_provider p)) s ps in
  store_wf s' ∧
  ms_get_providers s' k =
    filter (λ q, (k, prov_provider q) ∉ (λ p, (prov_key p, prov_provider p)) <$> ps)
      (ms_get_providers s k).
Proof.
  revert s. induction ps as [|p ps IH]; intros s Hwf s'.
  { split; [done|]. symmetry. apply filter_all. intros q _ []%not_elem_of_nil. }
  destruct (IH _ (ms_remove_provider_wf s (prov_key p) (prov_provider p) Hwf)) as [Hwf' Hget].
  split; [exact Hwf'|]. unfold s'. cbn [foldl]. rewrite Hget, fmap_cons.
  rewrite ms_remove_provider_get by done. case_decide as Hk.
  - subst k. rewrite list_filter_filter. apply list_filter_iff. intros q.
    rewrite not_elem_of_cons. split; intros [??]; split; congruence.
  - apply list_filter_iff. intros q. rewrite not_elem_of_cons.
    split; [intros ?; split; congruence|by intros [_ ?]].
Qed.

Lemma elem_of_all_providers s p :
  store_wf s → p ∈ ms_all_providers s ↔ p ∈ ms_get_providers s (prov_key p).
Proof.
  intros Hwf. unfold ms_all_providers, ms_get_providers. rewrite list_elem_of_join. split.
  - intros (ps&Hp&Hps). apply list_elem_of_fmap in Hps as ([k ps']&->&Hk%elem_of_map_to_list).
    simpl in *. destruct (wf_providers s Hwf k ps' Hk) as [(Hkey&_) _].
    rewrite Forall_forall in Hkey. rewrite (Hkey p Hp), Hk. done.
  - destruct (ms_providers s !! prov_key p) as [ps|] eqn:Hk; simpl; [|by intros ?%not_elem_of_nil].
    intros Hp. exists ps. split; [done|]. apply list_elem_of_fmap. exists (prov_key p, ps).
    by rewrite elem_of_map_to_list.
Qed.

Lemma ms_gc_providers_get now s ttl k :
  store_wf s →
  store_wf (ms_gc_providers now s ttl) ∧
  ms_get_providers (ms_gc_providers now s ttl) k =
    filter (λ q, ¬ outdated now ttl (prov_time_received q)) (ms_get_providers s k).
Proof.
  intros Hwf. unfold ms_gc_providers.
  destruct (foldl_remove_provider_get (filter (λ p, outdated now ttl (prov_time_received p))
    (ms_all_providers s)) s k Hwf) as [Hwf' ->]. split; [done|].
  destruct (get_providers_wf s k Hwf) as (Hkey&Hnd&_). rewrite Forall_forall in Hkey.
  apply filter_elem_ext. intros q Hq. rewrite list_elem_of_fmap. split.
  - intros Hno Ho. apply Hno. exists q. split; [by rewrite (Hkey q Hq)|].
    rewrite list_elem_of_filter, elem_of_all_providers by done. by rewrite (Hkey q Hq).
  - intros Ho (p&[= -> Hpp]&[Hop Hp]%list_elem_of_filter).
    rewrite elem_of_all_providers in Hp by done.
    assert (p = q) as ->; [|done]. by eapply NoDup_fmap_inj.
Qed.
End memory_lemmas.

(** ** What the users of a store rely on *)

(** The laws of a [RecordStore] on the stores that satisfy [rs_wf]: a put that
    succeeds is read back and leaves the other keys alone, one that fails
    changes nothing, a removed key is absent, the provider records of a key carry
    that key, and collecting garbage only removes records. *)
Class RecordStoreLaws (PeerId S : Type) `{RecordStore PeerId S} := {
  rs_wf : S → Prop;
  rs_put_wf s r : rs_wf s → rs_wf (rs_put s r).1;
  rs_remove_wf s k : rs_wf s → rs_wf (rs_remove s k);
  rs_add_provider_wf s p : rs_wf s → rs_wf (rs_add_provider s p).1;
  rs_remove_provider_wf s k p : rs_wf s → rs_wf (rs_remove_provider s k p);
  rs_gc_records_wf now s ttl : rs_wf s → rs_wf (rs_gc_records now s ttl);
  rs_gc_providers_wf now s ttl : rs_wf s → rs_wf (rs_gc_providers now s ttl);
  rs_put_ok s r k : (rs_put s r).2 = Ok () →
    rs_get (rs_put s r).1 k = if decide (rec_key r = k) then Some r else rs_get s k;
  rs_put_err s r e : (rs_put s r).2 = Err e → (rs_put s r).1 = s;
  rs_get_remove s k k' :
    rs_get (rs_remove s k) k' = if decide (k = k') then None else rs_get s k';
  rs_get_key s k r : rs_wf s → rs_get s k = Some r → rec_key r = k;
  rs_providers_key s k p : rs_wf s → p ∈ rs_providers s k → prov_key p = k;
  rs_gc_records_get now s ttl k r : rs_wf s →
    rs_get (rs_gc_records now s ttl) k = Some r → rs_get s k = Some r;
  rs_put_providers s r k : rs_providers (rs_put s r).1 k = rs_providers s k;
  rs_add_provider_get s p k : rs_get (rs_add_provider s p).1 k = rs_get s k;
  rs_add_provider_elem s p q k : rs_wf s →
    q ∈ rs_providers (rs_add_provider s p).1 k → q ∈ rs_providers s k ∨ q = p ∧ prov_key p = k
}.

Section memory_laws.
Context {PeerId : Type} `{EqDecision PeerId, ToBytes PeerId, Sha256}.
Implicit Types (s : MemoryStore PeerId) (k : RKey) (r : KRecord PeerId).

(** The outcome of [put], branch by branch. *)
Lemma ms_put_cases s r :
  (max_value_bytes (ms_config s) ≤ length (rec_value r) ∧ ms_put s r = (s, Err ValueTooLarge)) ∨
  (length (rec_value r) < max_value_bytes (ms_config s) ∧ ms_get s (rec_key r) = None ∧
    max_records (ms_config s) ≤ ms_records_count s ∧ ms_put s r = (s, Err MaxRecords)) ∨
  (length (rec_value r) < max_value_bytes (ms_config s) ∧
    (is_Some (ms_get s (rec_key r)) ∨ ms_records_count s < max_records (ms_config s)) ∧
    ms_put s r = (with_records s (<[rec_key r := r]> (ms_records s)), Ok ())).
Proof.
  unfold ms_put, ms_get, ms_records_count.
  destruct (Nat.leb_spec (max_value_bytes (ms_config s)) (length (rec_value r))); [by left|right].
  destruct (ms_records s !! rec_key r) eqn:Hk; [right; eauto|].
  destruct (Nat.leb_spec (max_records (ms_config s)) (size (ms_records s))); [by left|].
  right. eauto.
Qed.

Lemma ms_gc_records_wf now s ttl : store_wf s → store_wf (ms_gc_records now s ttl).
Proof. apply foldl_remove_wf. Qed.

#[global] Program Instance MemoryStore_laws : RecordStoreLaws PeerId (MemoryStore PeerId) := {|
  rs_wf := store_wf;
  rs_put_wf := ms_put_wf;
  rs_remove_wf := ms_remove_wf;
  rs_add_provider_wf := ms_add_provider_wf;
  rs_remove_provider_wf := ms_remove_provider_wf;
  rs_gc_records_wf := ms_gc_records_wf
|}.
Next Obligation. intros now s ttl Hwf. by apply (ms_gc_providers_get now s ttl []). Qed.
Next Obligation.
  intros s r k. simpl.
  destruct (ms_put_cases s r) as [(_&->)|[(_&_&_&->)|(_&_&->)]]; simpl; [done..|].
  intros _. unfold ms_get; simpl. case_decide; subst; [by rewrite lookup_insert_eq|].
  by rewrite lookup_insert_ne.
Qed.
Next Obligation.
  intros s r e. simpl. by destruct (ms_put_cases s r) as [(_&->)|[(_&_&_&->)|(_&_&->)]].
Qed.
Next Obligation.
  intros s k k'. simpl. unfold ms_get, ms_remove; simpl.
  case_decide; subst; [by rewrite lookup_delete_eq|by rewrite lookup_delete_ne].
Qed.
Next Obligation. intros s k r Hwf Hr. by apply (wf_records s Hwf k r Hr). Qed.
Next Obligation.
  intros s k p Hwf Hp. destruct (get_providers_wf s k Hwf) as (Hk&_).
  rewrite Forall_forall in Hk. by apply Hk.
Qed.
Next Obligation.
  intros now s ttl k r Hwf. simpl. unfold ms_get. rewrite ms_gc_records_lookup by done.
  destruct (ms_records s !! k); [|done]. by destruct (outdated _ _ _).
Qed.
Next Obligation.
  intros s r k. simpl. by destruct (ms_put_cases s r) as [(_&->)|[(_&_&_&->)|(_&_&->)]].
Qed.
Next Obligation. done. Qed.
Next Obligation.
  intros s p q k Hwf. cbn [rs_providers rs_add_provider MemoryStore_store].
  rewrite ms_add_provider_get by done. case_decide as Hk; [|auto].
  intros [?| ->]%added_elem; auto.
Qed.

(** ** Runs of the store *)

Inductive StoreOp :=
  | SPut (r : KRecord PeerId)
  | SRemove (k : RKey)
  | SGcRecords (now : Instant) (ttl : Duration)
  | SAddProvider (p : ProviderRecord PeerId)
  | SRemoveProvider (k : RKey) (provider : PeerId)
  | SGcProviders (now : Instant) (ttl : Duration).

Definition store_exec s (op : StoreOp) : MemoryStore PeerId :=
  match op with
  | SPut r => (ms_put s r).1
  | SRemove k => ms_remove s k
  | SGcRecords now ttl => ms_gc_records now s ttl
  | SAddProvider p => (ms_add_provider s p).1
  | SRemoveProvider k provider => ms_remove_provider s k provider
  | SGcProviders now ttl => ms_gc_providers now s ttl
  end.

Lemma store_exec_wf s op : store_wf s → store_wf (store_exec s op).
Proof.
  destruct op; simpl; intros Hwf.
  - by apply ms_put_wf.
  - by apply ms_remove_wf.
  - by apply ms_gc_records_wf.
  - by apply ms_add_provider_wf.
  - by apply ms_remove_provider_wf.
  - by apply (ms_gc_providers_get now s ttl []).
Qed.

Lemma store_run_wf s ops : store_wf s → store_wf (foldl store_exec s ops).
Proof.
  revert s. induction ops as [|op ops IH]; intros s Hwf; [done|]. by apply IH, store_exec_wf.
Qed.
End memory_laws.

(** ** Properties *)

Section store_theorems.
Context {PeerId : Type} `{EqDecision PeerId, ToBytes PeerId, Sha256}.
Implicit Types (s : MemoryStore PeerId) (k : RKey) (r : KRecord PeerId).

(** Whatever sequence of puts, removals, additions of providers and garbage
    collections a new store goes through, it holds at most [max_records] records,
    each under its own key and with a value below [max_value_bytes]; and for every
    key at most [max_providers_per_key] provider records, of distinct
    providers, sorted by the distance of the provider to the key. *)
Theorem memory_store_invariant (local : PeerId) (config : MemoryStoreConfig) (ops : list StoreOp) :
  store_wf (foldl store_exec (with_config local config) ops).
Proof. apply store_run_wf, with_config_wf. Qed.

(** [put] refuses a value that is too large, and a new key when the store is
    full; in both cases the store is unchanged.  In every other case it
    succeeds, the record is read back under its key and the other keys read as
    before. *)
Theorem put_outcome s r :
  match (ms_put s r).2 with
  | Err ValueTooLarge =>
      max_value_bytes (ms_config s) ≤ length (rec_value r) ∧ (ms_put s r).1 = s
  | Err MaxRecords =>
      length (rec_value r) < max_value_bytes (ms_config s) ∧ ms_get s (rec_key r) = None ∧
      max_records (ms_config s) ≤ ms_records_count s ∧ (ms_put s r).1 = s
  | Ok _ =>
      length (rec_value r) < max_value_bytes (ms_config s) ∧
      (is_Some (ms_get s (rec_key r)) ∨ ms_records_count s < max_records (ms_config s)) ∧
      ∀ k, ms_get (ms_put s r).1 k = if decide (rec_key r = k) then Some r else ms_get s k
  end.
Proof.
  pose proof (rs_put_ok s r) as Hok. simpl in Hok.
  destruct (ms_put_cases s r) as [(?&Heq)|[(?&?&?&Heq)|(?&?&Heq)]]; rewrite Heq in *;
    simpl in *; auto.
Qed.

(** Garbage collection at time [now] removes exactly the records and the
    provider records received from the network more than [ttl] ago.  The others
    stay in their order, those created locally in particular. *)
Theorem gc_removes_outdated s (now : Instant) (ttl : Duration) k (Hwf : store_wf s) :
  ms_get (ms_gc_records now s ttl) k =
    match ms_get s k with
    | Some r => if outdated now ttl (rec_time_received r) then None else Some r
    | None => None
    end ∧
  ms_get_providers (ms_gc_providers now s ttl) k =
    filter (λ q, ¬ outdated now ttl (prov_time_received q)) (ms_get_providers s k).
Proof.
  split; [by apply ms_gc_records_lookup|by apply (ms_gc_providers_get now s ttl k)].
Qed.

Lemma foldl_added_sorted max k (rs : list (ProviderRecord PeerId)) :
  Forall (λ q, prov_key q = k) rs → NoDup (prov_provider <$> rs) →
  foldl (added max) [] rs = take max (sort_by (λ a b, provider_distance a <=? provider_distance b)%Z rs).
Proof.
  induction rs as [|p rs IH] using rev_ind; intros Hk Hnd; [by destruct max|].
  rewrite fmap_app in Hnd. apply NoDup_app in Hnd as (Hnd&Hp&_).
  apply Forall_app in Hk as [Hk _]. rewrite foldl_app. simpl. rewrite IH by done.
  unfold added. replace (position _ _) with (@None nat).
  - by rewrite sort_by_snoc, take_insert_after.
  - symmetry. apply position_None, Forall_forall. intros q Hq. apply bool_decide_eq_false.
    intros Heq. apply (Hp (prov_provider q)); [|rewrite Heq; by left].
    apply list_elem_of_fmap_2. apply elem_of_take in Hq as (i&Hq%list_elem_of_lookup_2&_).
    by rewrite elem_of_sort_by in Hq.
Qed.

Lemma foldl_add_provider_get s k rs :
  store_wf s → Forall (λ q, prov_key q = k) rs →
  ms_get_providers (foldl (λ s p, (ms_add_provider s p).1) s rs) k =
    foldl (added (max_providers_per_key (ms_config s))) (ms_get_providers s k) rs.
Proof.
  revert s. induction rs as [|p rs IH]; intros s Hwf Hk; [done|].
  apply Forall_cons in Hk as [Hp Hk]. cbn [foldl]. rewrite IH; [|by apply ms_add_provider_wf|done].
  rewrite ms_add_provider_get, decide_True by done. done.
Qed.

(** Adding the records of distinct providers of a key to a new store, one
    by one, leaves the stable sort of the records by the distance of the provider
    to the key, cut at [max_providers_per_key]: the closest providers are kept. *)
Theorem providers_closest_kept (local : PeerId) (config : MemoryStoreConfig) k rs
    (Hk : Forall (λ q, prov_key q = k) rs) (Hnd : NoDup (prov_provider <$> rs)) :
  ms_get_providers (foldl (λ s p, (ms_add_provider s p).1) (with_config local config) rs) k =
  take (max_providers_per_key config)
    (sort_by (λ a b, provider_distance a <=? provider_distance b)%Z rs).
Proof.
  rewrite foldl_add_provider_get by first [apply with_config_wf|done].
  by apply foldl_added_sorted with (k := k).
Qed.
End store_theorems.

(** A hash for examples: the low bytes of the input. *)
Definition toy_sha256 : Sha256 := λ bs, key_of_Z (be_combine bs).

Lemma gc_removes_outdated_witness :
  let H := toy_sha256 in
  let s := (ms_put (MemoryStore_new (PeerId := RKey) [Byte.x01])
    (mk_KRecord [Byte.x02] [] (Some 5%Z) None)).1 in
  ms_get s [Byte.x02] = Some (mk_KRecord [Byte.x02] [] (Some 5%Z) None) ∧
  ms_get (ms_gc_records 10%Z s 5%Z) [Byte.x02] = None.
Proof.
  intros H s. split; [vm_compute; reflexivity|].
  assert (Hwf : store_wf s) by apply ms_put_wf, with_config_wf.
  destruct (gc_removes_outdated s 10%Z 5%Z [Byte.x02] Hwf) as [Hr _].
  etrans; [exact Hr|]. vm_compute. reflexivity.
Defined.

Lemma providers_closest_kept_witness :
  let H := toy_sha256 in
  let p b := mk_ProviderRecord (PeerId := RKey) [Byte.x01] [b] None in
  ms_get_providers (foldl (λ s p, (ms_add_provider s p).1)
    (with_config [Byte.x00] (mk_MemoryStoreConfig 1 1 2)) [p Byte.x08; p Byte.x03; p Byte.x02])
    [Byte.x01] = [p Byte.x03; p Byte.x02].
Proof.
  intros H p.
  etrans; [apply (providers_closest_kept [Byte.x00] (mk_MemoryStoreConfig 1 1 2) [Byte.x01])|].
  - repeat constructor.
  - by_eval.
  - vm_compute. reflexivity.
Defined.
