(* ===== verification/BTree.v ===== *)
(** * Ordered maps

    [BTreeMap] with integer keys, as an association list with increasing keys:
    [values] iterates in the order of the keys, which is what its users rely on.
    [bt_wf] is the order of the keys. *)

From Stdlib Require Import ZArith Lia.
From S2P Require Import Prelude.

Section btree.
Context {V : Type}.
Implicit Types (m : list (Z * V)) (k : Z) (v : V).

Fixpoint bt_get k m : option V :=
  match m with
  | [] => None
  | (k', v) :: m => if (k =? k')%Z then Some v else bt_get k m
  end.

(** [entry(k).or_insert(v)]. *)
Fixpoint bt_or_insert k v m : list (Z * V) :=
  match m with
  | [] => [(k, v)]
  | (k', v') :: m' =>
      if (k <? k')%Z then (k, v) :: m
      else if (k =? k')%Z then m
      else (k', v') :: bt_or_insert k v m'
  end.

(** A write through [get_mut(k)]. *)
Fixpoint bt_alter (f : V → V) k m : list (Z * V) :=
  match m with
  | [] => []
  | (k', v) :: m => if (k =? k')%Z then (k', f v) :: m else (k', v) :: bt_alter f k m
  end.

Definition bt_values m : list V := m.*2.

Definition bt_wf m : Prop := StronglySorted Z.lt m.*1.

Lemma bt_wf_nil : bt_wf [].
Proof. constructor. Qed.

Lemma bt_wf_cons k v m : bt_wf ((k, v) :: m) ↔ bt_wf m ∧ Forall (Z.lt k) m.*1.
Proof.
  unfold bt_wf. rewrite fmap_cons. simpl. split; [by apply StronglySorted_inv|].
  intros [??]. by constructor.
Qed.

Lemma bt_or_insert_keys k v m x : x ∈ (bt_or_insert k v m).*1 ↔ x = k ∨ x ∈ m.*1.
Proof.
  induction m as [|[k' v'] m IH]; [set_solver|]. simpl.
  destruct (Z.ltb_spec k k'); [set_solver|]. destruct (Z.eqb_spec k k'); [set_solver|].
  rewrite !fmap_cons, !elem_of_cons, IH. simpl. tauto.
Qed.

Lemma bt_or_insert_wf k v m : bt_wf m → bt_wf (bt_or_insert k v m).
Proof.
  induction m as [|[k' v'] m IH]; intros Hwf; simpl; [by repeat constructor|].
  apply bt_wf_cons in Hwf as Hwf'. destruct Hwf' as [Hm Hk'].
  destruct (Z.ltb_spec k k'); [|destruct (Z.eqb_spec k k')]; [|done|].
  - apply bt_wf_cons. split; [done|]. rewrite fmap_cons. apply Forall_cons. split; [done|].
    eapply Forall_impl; [exact Hk'|]. simpl. lia.
  - apply bt_wf_cons. split; [by apply IH|]. apply Forall_forall. intros x.
    rewrite bt_or_insert_keys. rewrite Forall_forall in Hk'. intros [->|?]; [lia|auto].
Qed.

Lemma bt_alter_keys f k m : (bt_alter f k m).*1 = m.*1.
Proof.
  induction m as [|[k' v] m IH]; [done|]. simpl. destruct (k =? k')%Z; [done|].
  rewrite !fmap_cons. by f_equal.
Qed.

Lemma bt_alter_wf f k m : bt_wf m → bt_wf (bt_alter f k m).
Proof. unfold bt_wf. by rewrite bt_alter_keys. Qed.

Lemma bt_get_elem k m v : bt_get k m = Some v → (k, v) ∈ m.
Proof.
  induction m as [|[k' v'] m IH]; [done|]. simpl. destruct (Z.eqb_spec k k') as [->|].
  - intros [= ->]. by left.
  - intros ?. right. auto.
Qed.

Lemma bt_get_elem_iff k m v : bt_wf m → bt_get k m = Some v ↔ (k, v) ∈ m.
Proof.
  intros Hwf. split; [apply bt_get_elem|]. induction m as [|[k' v'] m IH]; [by intros ?%not_elem_of_nil|].
  apply bt_wf_cons in Hwf as [Hm Hk']. simpl. intros [[= -> ->]|Hin]%elem_of_cons.
  - by rewrite Z.eqb_refl.
  - destruct (Z.eqb_spec k k') as [->|]; [|by apply IH]. rewrite Forall_forall in Hk'.
    assert (k' < k')%Z; [|lia]. apply Hk'. by apply (list_elem_of_fmap_2 fst _ (k', v)).
Qed.

Lemma bt_get_or_insert k k' v m :
  bt_wf m →
  bt_get k' (bt_or_insert k v m) =
    if decide (k = k') then Some (default v (bt_get k m)) else bt_get k' m.
Proof.
  induction m as [|[k1 v1] m IH]; intros Hwf; simpl.
  - destruct (Z.eqb_spec k' k); case_decide; simplify_eq; done.
  - apply bt_wf_cons in Hwf as [Hm Hk1]. destruct (Z.ltb_spec k k1).
    + simpl. destruct (Z.eqb_spec k k1); [lia|].
      assert (Hnone : bt_get k m = None).
      { destruct (bt_get k m) as [v0|] eqn:Hg; [|done]. apply bt_get_elem in Hg.
        rewrite Forall_forall in Hk1. assert (k1 < k)%Z; [|lia]. apply Hk1.
        by apply (list_elem_of_fmap_2 fst _ (k, v0)). }
      rewrite Hnone. destruct (Z.eqb_spec k' k); case_decide; simplify_eq; done.
    + destruct (Z.eqb_spec k k1) as [->|].
      * simpl. destruct (Z.eqb_spec k' k1); case_decide; simplify_eq; done.
      * simpl. rewrite IH by done. destruct (Z.eqb_spec k' k1); case_decide; simplify_eq; done.
Qed.

Lemma bt_get_alter f k k' m :
  bt_get k' (bt_alter f k m) = if decide (k = k') then f <$> bt_get k' m else bt_get k' m.
Proof.
  induction m as [|[k1 v1] m IH]; simpl; [by case_decide|].
  destruct (Z.eqb_spec k k1); simpl; destruct (Z.eqb_spec k' k1); case_decide; simplify_eq;
    rewrite ?IH; try done; by case_decide.
Qed.

Lemma bt_or_insert_elem k v m x :
  x ∈ bt_or_insert k v m → x ∈ m ∨ x = (k, v).
Proof.
  induction m as [|[k' v'] m IH]; simpl; [set_solver|].
  destruct (k <? k')%Z; [set_solver|]. destruct (k =? k')%Z; set_solver.
Qed.

Lemma bt_or_insert_keeps k v m x : x ∈ m → x ∈ bt_or_insert k v m.
Proof.
  induction m as [|[k' v'] m IH]; simpl; [set_solver|].
  destruct (k <? k')%Z; [set_solver|]. destruct (k =? k')%Z; set_solver.
Qed.

Lemma bt_alter_elem f k m k' v :
  (k', v) ∈ bt_alter f k m → ∃ v0, (k', v0) ∈ m ∧ (v = v0 ∨ (k = k' ∧ v = f v0)).
Proof.
  induction m as [|[k1 v1] m IH]; simpl; [by intros ?%not_elem_of_nil|].
  destruct (Z.eqb_spec k k1) as [<-|]; intros [[= -> ->]|Hin]%elem_of_cons.
  - exists v1. split; [by left|auto].
  - exists v. split; [by right|auto].
  - exists v1. split; [by left|auto].
  - destruct (IH Hin) as (v0&?&?). exists v0. split; [by right|done].
Qed.

Lemma bt_alter_keeps f k m k' v :
  (k', v) ∈ m → (k', v) ∈ bt_alter f k m ∨ (k', f v) ∈ bt_alter f k m.
Proof.
  induction m as [|[k1 v1] m IH]; simpl; [by intros ?%not_elem_of_nil|].
  destruct (Z.eqb_spec k k1) as [<-|]; intros [[= -> ->]|Hin]%elem_of_cons.
  - right. by left.
  - left. by right.
  - left. by left.
  - destruct (IH Hin); [left|right]; by right.
Qed.

Lemma bt_values_elem m v : v ∈ bt_values m ↔ ∃ k, (k, v) ∈ m.
Proof.
  unfold bt_values. rewrite list_elem_of_fmap. split.
  - intros ([k v']&->&?). by exists k.
  - intros [k ?]. by exists (k, v).
Qed.
End btree.
