(* ===== verification/KadProto.v ===== *)
(** * The messages of the Kademlia protocol

    [protocols/kad/src/protocol.rs] and [protocols/kad/src/dht.proto]: the peers,
    requests and responses, their protobuf counterparts, and the conversions in
    both directions.  The byte encoding of the protobuf messages is prost's;
    [PeerIdType] and [MultiaddrType] are the interfaces of the peer ids and the
    addresses of the core crates.

    The theorems show that a message survives the conversion to protobuf and
    back, what malformed messages give, and that the messenger accepts only the
    response that matches its request. *)

From Stdlib Require Import ZArith Lia.
From S2P Require Import Prelude KadKey RecordStore.

(** ** Interfaces of the core crates *)

(** [PeerId]: comparable, hashable, with a byte encoding. *)
Class PeerIdType (PeerId : Type) := {
  pid_eq_dec :: EqDecision PeerId;
  pid_countable :: Countable PeerId;
  pid_to_bytes :: ToBytes PeerId;
  pid_from_bytes : bytes → option PeerId
}.

(** What the conversions rely on: [from_bytes] inverts [to_bytes], and the encoding
    of a peer id, a multihash, is never empty. *)
Class PeerIdLaws (PeerId : Type) `{PeerIdType PeerId} := {
  pid_from_to (p : PeerId) : pid_from_bytes (to_bytes p) = Some p;
  pid_to_bytes_nonempty (p : PeerId) : to_bytes p ≠ []
}.

(** [Multiaddr]: [to_vec] and [TryFrom<Vec<u8>>]. *)
Class MultiaddrType (Multiaddr : Type) := {
  ma_eq_dec :: EqDecision Multiaddr;
  ma_to_vec : Multiaddr → bytes;
  ma_try_from : bytes → option Multiaddr
}.

Class MultiaddrLaws (Multiaddr : Type) `{MultiaddrType Multiaddr} := {
  ma_try_from_to_vec a : ma_try_from (ma_to_vec a) = Some a
}.

(** ** The protobuf messages of [dht.proto] *)

Inductive ProtoMessageType :=
  | PUT_VALUE | GET_VALUE | ADD_PROVIDER | GET_PROVIDERS | FIND_NODE | PING.

Inductive ProtoConnectionType :=
  | NOT_CONNECTED | CONNECTED | CAN_CONNECT | CANNOT_CONNECT.

Definition message_type_as_i32 (t : ProtoMessageType) : Z :=
  match t with
  | PUT_VALUE => 0 | GET_VALUE => 1 | ADD_PROVIDER => 2
  | GET_PROVIDERS => 3 | FIND_NODE => 4 | PING => 5
  end.

Definition message_type_from_i32 (z : Z) : option ProtoMessageType :=
  match z with
  | 0 => Some PUT_VALUE | 1 => Some GET_VALUE | 2 => Some ADD_PROVIDER
  | 3 => Some GET_PROVIDERS | 4 => Some FIND_NODE | 5 => Some PING
  | _ => None
  end%Z.

Definition connection_type_as_i32 (t : ProtoConnectionType) : Z :=
  match t with
  | NOT_CONNECTED => 0 | CONNECTED => 1 | CAN_CONNECT => 2 | CANNOT_CONNECT => 3
  end.

Definition connection_type_from_i32 (z : Z) : option ProtoConnectionType :=
  match z with
  | 0 => Some NOT_CONNECTED | 1 => Some CONNECTED | 2 => Some CAN_CONNECT
  | 3 => Some CANNOT_CONNECT
  | _ => None
  end%Z.

Record ProtoPeer := mk_ProtoPeer {
  pp_id : bytes;
  pp_addrs : list bytes;
  pp_connection : Z
}.

(** [timeReceived] is a string the code writes as empty and never reads. *)
Record ProtoRecord := mk_ProtoRecord {
  pr_key : bytes;
  pr_value : bytes;
  pr_publisher : bytes;
  pr_time_received : bytes
}.

Definition ProtoRecord_default : ProtoRecord := mk_ProtoRecord [] [] [] [].

Record ProtoMessage := mk_ProtoMessage {
  pm_type : Z;
  pm_cluster_level_raw : Z;
  pm_key : bytes;
  pm_record : option ProtoRecord;
  pm_closer_peers : list ProtoPeer;
  pm_provider_peers : list ProtoPeer
}.

(** ** The messages of the protocol *)

Inductive KadConnectionType :=
  | NotConnected | Connected | CanConnect | CannotConnect.

Definition KadConnectionType_from (raw : ProtoConnectionType) : KadConnectionType :=
  match raw with
  | NOT_CONNECTED => NotConnected
  | CONNECTED => Connected
  | CAN_CONNECT => CanConnect
  | CANNOT_CONNECT => CannotConnect
  end.

Definition KadConnectionType_into (t : KadConnectionType) : ProtoConnectionType :=
  match t with
  | NotConnected => NOT_CONNECTED
  | Connected => CONNECTED
  | CanConnect => CAN_CONNECT
  | CannotConnect => CANNOT_CONNECT
  end.

Inductive KadProtoError :=
  | InvalidPeerId
  | InvalidMultiaddr
  | UnknownConnectionType
  | UnknownMessageType (raw : Z)
  | AddProviderNoValidPeer
  | PutValueNoRecord
  | UnexpectedAddProvider
  | InvalidPublisher.

Section messages.
Context {PeerId Multiaddr : Type} `{PeerIdType PeerId} `{MultiaddrType Multiaddr}.

Record KadPeer := mk_KadPeer {
  node_id : PeerId;
  multiaddrs : list Multiaddr;
  connection_ty : KadConnectionType
}.

Inductive KadRequestMsg :=
  | ReqPing
  | ReqFindNode (key : RKey)
  | ReqGetProviders (key : RKey)
  | ReqAddProvider (key : RKey) (provider : KadPeer)
  | ReqGetValue (key : RKey)
  | ReqPutValue (record : KRecord PeerId).

Inductive KadResponseMsg :=
  | RspPong
  | RspFindNode (closer_peers : list KadPeer)
  | RspGetProviders (closer_peers provider_peers : list KadPeer)
  | RspGetValue (record : option (KRecord PeerId)) (closer_peers : list KadPeer)
  | RspPutValue (key : RKey) (value : bytes).

(** The loop over the addresses, which stops at the first invalid one. *)
Fixpoint parse_addrs (addrs : list bytes) : result KadProtoError (list Multiaddr) :=
  match addrs with
  | [] => Ok []
  | addr :: rest =>
      let? as_ma := ok_or InvalidMultiaddr (ma_try_from addr) in
      let? addrs := parse_addrs rest in
      Ok (as_ma :: addrs)
  end.

Definition KadPeer_try_from (peer : ProtoPeer) : result KadProtoError KadPeer :=
  let? id := ok_or InvalidPeerId (pid_from_bytes (pp_id peer)) in
  let? addrs := parse_addrs (pp_addrs peer) in
  let? ct := ok_or UnknownConnectionType (connection_type_from_i32 (pp_connection peer)) in
  Ok (mk_KadPeer id addrs (KadConnectionType_from ct)).

Definition KadPeer_into (p : KadPeer) : ProtoPeer :=
  mk_ProtoPeer (to_bytes (node_id p)) (ma_to_vec <$> multiaddrs p)
    (connection_type_as_i32 (KadConnectionType_into (connection_ty p))).

(** [try_from(peer).ok()]. *)
Definition KadPeer_ok (peer : ProtoPeer) : option KadPeer :=
  match KadPeer_try_from peer with
  | Ok p => Some p
  | Err _ => None
  end.

Definition record_to_proto (r : KRecord PeerId) : ProtoRecord :=
  mk_ProtoRecord (rec_key r) (rec_value r) (default [] (to_bytes <$> rec_publisher r)) [].

Definition record_from_proto (now : Instant) (r : ProtoRecord)
    : result KadProtoError (KRecord PeerId) :=
  let? publisher :=
    match pr_publisher r with
    | [] => Ok None
    | bs => let? p := ok_or InvalidPublisher (pid_from_bytes bs) in Ok (Some p)
    end in
  Ok (KRecord_new now (pr_key r) (pr_value r) false publisher).

Definition req_msg_to_proto (m : KadRequestMsg) : ProtoMessage :=
  match m with
  | ReqPing => mk_ProtoMessage (message_type_as_i32 PING) 0 [] None [] []
  | ReqFindNode key => mk_ProtoMessage (message_type_as_i32 FIND_NODE) 10 key None [] []
  | ReqGetProviders key => mk_ProtoMessage (message_type_as_i32 GET_PROVIDERS) 10 key None [] []
  | ReqAddProvider key provider =>
      mk_ProtoMessage (message_type_as_i32 ADD_PROVIDER) 10 key None [] [KadPeer_into provider]
  | ReqGetValue key => mk_ProtoMessage (message_type_as_i32 GET_VALUE) 10 key None [] []
  | ReqPutValue record =>
      mk_ProtoMessage (message_type_as_i32 PUT_VALUE) 0 [] (Some (record_to_proto record)) [] []
  end.

Definition resp_msg_to_proto (m : KadResponseMsg) : ProtoMessage :=
  match m with
  | RspPong => mk_ProtoMessage (message_type_as_i32 PING) 0 [] None [] []
  | RspFindNode closer =>
      mk_ProtoMessage (message_type_as_i32 FIND_NODE) 9 [] None (KadPeer_into <$> closer) []
  | RspGetProviders closer providers =>
      mk_ProtoMessage (message_type_as_i32 GET_PROVIDERS) 9 [] None
        (KadPeer_into <$> closer) (KadPeer_into <$> providers)
  | RspGetValue record closer =>
      mk_ProtoMessage (message_type_as_i32 GET_VALUE) 9 [] (record_to_proto <$> record)
        (KadPeer_into <$> closer) []
  | RspPutValue key value =>
      mk_ProtoMessage (message_type_as_i32 PUT_VALUE) 0 key
        (Some (mk_ProtoRecord key value [] [])) [] []
  end.

Definition proto_to_req_msg (now : Instant) (m : ProtoMessage)
    : result KadProtoError KadRequestMsg :=
  let? msg_type := ok_or (UnknownMessageType (pm_type m)) (message_type_from_i32 (pm_type m)) in
  match msg_type with
  | PING => Ok ReqPing
  | PUT_VALUE =>
      let? record := record_from_proto now (default ProtoRecord_default (pm_record m)) in
      Ok (ReqPutValue record)
  | GET_VALUE => Ok (ReqGetValue (pm_key m))
  | FIND_NODE => Ok (ReqFindNode (pm_key m))
  | GET_PROVIDERS => Ok (ReqGetProviders (pm_key m))
  | ADD_PROVIDER =>
      match head (omap KadPeer_ok (pm_provider_peers m)) with
      | Some provider => Ok (ReqAddProvider (pm_key m) provider)
      | None => Err AddProviderNoValidPeer
      end
  end.

Definition proto_to_resp_msg (now : Instant) (m : ProtoMessage)
    : result KadProtoError KadResponseMsg :=
  let? msg_type := ok_or (UnknownMessageType (pm_type m)) (message_type_from_i32 (pm_type m)) in
  match msg_type with
  | PING => Ok RspPong
  | GET_VALUE =>
      let? record :=
        match pm_record m with
        | Some r => let? rec := record_from_proto now r in Ok (Some rec)
        | None => Ok None
        end in
      Ok (RspGetValue record (omap KadPeer_ok (pm_closer_peers m)))
  | FIND_NODE => Ok (RspFindNode (omap KadPeer_ok (pm_closer_peers m)))
  | GET_PROVIDERS =>
      Ok (RspGetProviders (omap KadPeer_ok (pm_closer_peers m))
        (omap KadPeer_ok (pm_provider_peers m)))
  | PUT_VALUE =>
      let? rec := ok_or PutValueNoRecord (pm_record m) in
      Ok (RspPutValue (pm_key m) (pr_value rec))
  | ADD_PROVIDER => Err UnexpectedAddProvider
  end.

(** ** The messenger *)

Inductive KadMsgError :=
  | NetworkError
  | ProtoError (e : KadProtoError)
  | UnexpectedMessage (r : ProtoMessageType).

(** The part of [KadMessenger] that is not the substream. *)
Record KadMessenger := mk_KadMessenger {
  msgr_peer : PeerId;
  msgr_reuse : nat;
  msgr_max_reuse_count : nat
}.

Definition messenger_reuse (ms : KadMessenger) : bool * KadMessenger :=
  let reuse := S (msgr_reuse ms) in
  (Nat.ltb reuse (msgr_max_reuse_count ms),
   mk_KadMessenger (msgr_peer ms) reuse (msgr_max_reuse_count ms)).

(** Writing a message to the substream of the peer, and reading its answer. *)
Variable exchange : ProtoMessage → result KadMsgError ProtoMessage.
Variable now : Instant.

Definition send_request (request : KadRequestMsg) : result KadMsgError KadResponseMsg :=
  let? response := exchange (req_msg_to_proto request) in
  map_err ProtoError (proto_to_resp_msg now response).

Definition send_find_node (key : RKey) : result KadMsgError (list KadPeer) :=
  let? rsp := send_request (ReqFindNode key) in
  match rsp with
  | RspFindNode closer_peers => Ok closer_peers
  | _ => Err (UnexpectedMessage FIND_NODE)
  end.

Definition send_get_providers (key : RKey)
    : result KadMsgError (list KadPeer * list KadPeer) :=
  let? rsp := send_request (ReqGetProviders key) in
  match rsp with
  | RspGetProviders closer_peers provider_peers => Ok (closer_peers, provider_peers)
  | _ => Err (UnexpectedMessage GET_PROVIDERS)
  end.

Definition send_get_value (key : RKey)
    : result KadMsgError (list KadPeer * option (KRecord PeerId)) :=
  let? rsp := send_request (ReqGetValue key) in
  match rsp with
  | RspGetValue record closer_peers => Ok (closer_peers, record)
  | _ => Err (UnexpectedMessage GET_VALUE)
  end.

Definition send_put_value (record : KRecord PeerId) : result KadMsgError (RKey * bytes) :=
  let? rsp := send_request (ReqPutValue record) in
  match rsp with
  | RspPutValue key value => Ok (key, value)
  | _ => Err (UnexpectedMessage PUT_VALUE)
  end.

(** The request of [send_add_provider], which waits for no answer. *)
Definition add_provider_request (record : ProviderRecord PeerId) (addresses : list Multiaddr)
    : KadRequestMsg :=
  ReqAddProvider (prov_key record) (mk_KadPeer (prov_provider record) addresses Connected).
End messages.
Arguments KadPeer : clear implicits.
Arguments KadRequestMsg : clear implicits.
Arguments KadResponseMsg : clear implicits.
Arguments KadMessenger : clear implicits.

(** ** Round trips *)

(** A record as its receiver sees it: the time of reception is the receiver's. *)
Definition received {PeerId} (now : Instant) (r : KRecord PeerId) : KRecord PeerId :=
  mk_KRecord (rec_key r) (rec_value r) (Some now) (rec_publisher r).

Definition received_req {PeerId Multiaddr} (now : Instant) (m : KadRequestMsg PeerId Multiaddr)
    : KadRequestMsg PeerId Multiaddr :=
  match m with
  | ReqPutValue record => ReqPutValue (received now record)
  | m => m
  end.

Definition received_resp {PeerId Multiaddr} (now : Instant) (m : KadResponseMsg PeerId Multiaddr)
    : KadResponseMsg PeerId Multiaddr :=
  match m with
  | RspGetValue record closer => RspGetValue (received now <$> record) closer
  | m => m
  end.

Section roundtrip.
Context {PeerId Multiaddr : Type} `{PeerIdLaws PeerId} `{MultiaddrLaws Multiaddr}.
Implicit Types (p : KadPeer PeerId Multiaddr).

Lemma parse_addrs_to_vec (addrs : list Multiaddr) : parse_addrs (ma_to_vec <$> addrs) = Ok addrs.
Proof.
  induction addrs as [|a addrs IH]; [done|]. cbn. rewrite ma_try_from_to_vec. cbn.
  by rewrite IH.
Qed.

Lemma KadPeer_roundtrip p : KadPeer_try_from (KadPeer_into p) = Ok p.
Proof.
  destruct p as [id addrs ct]. unfold KadPeer_try_from, KadPeer_into. simpl.
  rewrite pid_from_to. cbn. rewrite parse_addrs_to_vec. cbn.
  by destruct ct.
Qed.

Lemma KadPeer_ok_into p : KadPeer_ok (KadPeer_into p) = Some p.
Proof. unfold KadPeer_ok. by rewrite KadPeer_roundtrip. Qed.

Lemma omap_KadPeer_into (ps : list (KadPeer PeerId Multiaddr)) : omap KadPeer_ok (KadPeer_into <$> ps) = ps.
Proof. induction ps as [|p ps IH]; [done|]. cbn. rewrite KadPeer_ok_into. by f_equal. Qed.

Lemma record_roundtrip now (r : KRecord PeerId) :
  record_from_proto now (record_to_proto r) = Ok (received now r).
Proof.
  destruct r as [k v t [p|]]; [|done]. unfold record_from_proto, record_to_proto. simpl.
  destruct (to_bytes p) as [|b bs] eqn:Hp; [by apply pid_to_bytes_nonempty in Hp|].
  rewrite <-Hp, pid_from_to. done.
Qed.

Lemma request_roundtrip_eq now (m : KadRequestMsg PeerId Multiaddr) :
  proto_to_req_msg now (req_msg_to_proto m) = Ok (received_req now m).
Proof.
  destruct m as [| | |key p| |r]; unfold proto_to_req_msg; cbn; [done..| |done|].
  - by rewrite KadPeer_ok_into.
  - change (record_to_proto r) with (default ProtoRecord_default (Some (record_to_proto r))).
    simpl. by rewrite record_roundtrip.
Qed.

Lemma response_roundtrip_eq now (m : KadResponseMsg PeerId Multiaddr) :
  proto_to_resp_msg now (resp_msg_to_proto m) = Ok (received_resp now m).
Proof.
  destruct m as [|closer|closer providers|[r|] closer|key value]; unfold proto_to_resp_msg; simpl;
    rewrite ?omap_KadPeer_into; [done..| |done|done].
  by rewrite record_roundtrip.
Qed.

(** A request survives its conversion to protobuf and back, at the receiver's
    time: only the time of reception of a record that is put differs. *)
Theorem request_roundtrip (now : Instant) (m : KadRequestMsg PeerId Multiaddr) :
  proto_to_req_msg now (req_msg_to_proto m) = Ok (received_req now m).
Proof. apply request_roundtrip_eq. Qed.

(** A response survives its conversion to protobuf and back. *)
Theorem response_roundtrip (now : Instant) (m : KadResponseMsg PeerId Multiaddr) :
  proto_to_resp_msg now (resp_msg_to_proto m) = Ok (received_resp now m).
Proof. apply response_roundtrip_eq. Qed.

Lemma send_request_eq exchange now req (rsp : KadResponseMsg PeerId Multiaddr) :
  exchange (req_msg_to_proto req) = Ok (resp_msg_to_proto rsp) →
  send_request exchange now req = Ok (received_resp now rsp).
Proof. intros Hx. unfold send_request. rewrite Hx. simpl. by rewrite response_roundtrip_eq. Qed.

(** When the remote answers every request with the response [rsp], each
    operation of the messenger returns the payload of [rsp] if it is of the kind
    it asked for, and an error otherwise. *)
Theorem messenger_matches (exchange : ProtoMessage → result KadMsgError ProtoMessage)
    (now : Instant) (rsp : KadResponseMsg PeerId Multiaddr) (key : RKey) (record : KRecord PeerId)
    (Hx : ∀ req, exchange req = Ok (resp_msg_to_proto rsp)) :
  send_find_node exchange now key =
    match rsp with
    | RspFindNode closer => Ok closer
    | _ => Err (UnexpectedMessage FIND_NODE)
    end ∧
  send_get_providers exchange now key =
    match rsp with
    | RspGetProviders closer providers => Ok (closer, providers)
    | _ => Err (UnexpectedMessage GET_PROVIDERS)
    end ∧
  send_get_value exchange now key =
    match rsp with
    | RspGetValue r closer => Ok (closer, received now <$> r)
    | _ => Err (UnexpectedMessage GET_VALUE)
    end ∧
  send_put_value (Multiaddr := Multiaddr) exchange now record =
    match rsp with
    | RspPutValue k value => Ok (k, value)
    | _ => Err (UnexpectedMessage PUT_VALUE)
    end.
Proof.
  unfold send_find_node, send_get_providers, send_get_value, send_put_value.
  rewrite !(send_request_eq exchange now _ rsp) by apply Hx. by destruct rsp.
Qed.
End roundtrip.

(** ** A concrete instance of the interfaces, for examples

    Peer ids are single bytes and addresses are byte strings. *)

#[local] Instance byte_PeerIdType : PeerIdType u8 := {|
  pid_to_bytes := λ b, [b];
  pid_from_bytes := λ bs, match bs with [b] => Some b | _ => None end
|}.

#[local] Instance byte_PeerIdLaws : PeerIdLaws u8.
Proof.
  split; [done|]. intros b. discriminate.
Qed.

#[local] Instance bytes_MultiaddrType : MultiaddrType bytes := {|
  ma_to_vec := λ a, a;
  ma_try_from := Some
|}.

#[local] Instance bytes_MultiaddrLaws : MultiaddrLaws bytes.
Proof. by split. Qed.

Lemma request_roundtrip_witness :
  let p := mk_KadPeer Byte.x07 [[Byte.x04]] CanConnect in
  proto_to_req_msg 3%Z (req_msg_to_proto (ReqAddProvider [Byte.x01] p)) =
    Ok (ReqAddProvider [Byte.x01] p).
Proof. intros p. apply (request_roundtrip 3%Z (ReqAddProvider [Byte.x01] p)). Defined.

Lemma response_roundtrip_witness :
  let p := mk_KadPeer Byte.x07 [[Byte.x04]] CanConnect in
  let r := mk_KRecord [Byte.x01] [] None (Some Byte.x05) in
  proto_to_resp_msg 3%Z (resp_msg_to_proto (RspGetValue (Some r) [p])) =
    Ok (RspGetValue (Some (received 3%Z r)) [p]).
Proof. intros p r. apply (response_roundtrip 3%Z (RspGetValue (Some r) [p])). Defined.

Lemma messenger_matches_witness :
  let p := mk_KadPeer Byte.x07 [[Byte.x04]] CanConnect in
  let exchange := λ _ : ProtoMessage, Ok (resp_msg_to_proto (RspFindNode [p])) in
  send_find_node exchange 0%Z [Byte.x01] = Ok [p] ∧
  send_get_value (PeerId := u8) (Multiaddr := bytes) exchange 0%Z [Byte.x01] =
    Err (UnexpectedMessage GET_VALUE).
Proof.
  intros p exchange.
  destruct (messenger_matches exchange 0%Z (RspFindNode [p]) [Byte.x01]
    (mk_KRecord [] [] None None) (λ _, eq_refl)) as (Hf&_&Hg&_).
  split; [exact Hf|exact Hg].
Defined.
