(* ===== verification/KadQuery.v ===== *)
(** * Iterative and fixed queries: [protocols/kad/src/query.rs]

    [ClosestPeers] is the ordered map from distances to the peers a query knows,
    each in one of four states.  [handle_update] is the handler of the result of
    one job, and [query_loop] the body of the loop of [IterativeQuery::run].
    The jobs run concurrently: [query_step] lets any pending job deliver its
    update, with any answer of the remote peer.  Messages to the swarm and to
    the main loop are effects, and a panic is [None].

    The theorems show that no panic is reachable, that a query never waits
    without a pending job, that no peer is queried twice and at most [alpha] at
    once, that the number of steps is bounded by the number of peers reported,
    and what the loop has established when it stops. *)

From Stdlib Require Import ZArith Lia.
From S2P Require Import Prelude BTree KadKey KBucket RecordStore KadProto.

Definition ALPHA_VALUE : nat := 3.
Definition BETA_VALUE : nat := 3.

(** [core/src/peerstore.rs], in seconds. *)
Definition TEMP_ADDR_TTL : Duration := (2 * 60)%Z.
Definition PROVIDER_ADDR_TTL : Duration := (10 * 60)%Z.

Record QueryConfig := mk_QueryConfig {
  q_timeout : Duration;
  q_k_value : nat;
  q_alpha_value : nat;
  q_beta_value : nat
}.

Definition QueryConfig_default : QueryConfig :=
  mk_QueryConfig 180 K_VALUE ALPHA_VALUE BETA_VALUE.

Inductive PeerState := PNotContacted | PWaiting | PUnreachable | PSucceeded.

#[global] Instance PeerState_eq_dec : EqDecision PeerState.
Proof. solve_decision. Defined.

(** The order of peer ids. *)
Class PeerIdOrd (PeerId : Type) := pid_leb : PeerId → PeerId → bool.

Section query.
Context {PeerId Multiaddr : Type} `{PeerIdType PeerId} `{MultiaddrType Multiaddr}.
Context `{PeerIdOrd PeerId} `{Sha256}.

Local Abbreviation KPeer := (KadPeer PeerId Multiaddr).

Record PeerWithState := mk_PeerWithState {
  pws_peer : KPeer;
  pws_state : PeerState
}.

Definition PeerWithState_new (peer : KPeer) : PeerWithState :=
  mk_PeerWithState peer PNotContacted.

Definition pws_set (st : PeerState) (p : PeerWithState) : PeerWithState :=
  mk_PeerWithState (pws_peer p) st.

Definition in_state (st : PeerState) (p : PeerWithState) : bool := bool_decide (pws_state p = st).

(** ** The closest peers *)

Record ClosestPeers := mk_ClosestPeers {
  cp_target : KeyBytes;
  cp_peers : list (Distance * PeerWithState)
}.
Implicit Types (cp : ClosestPeers).

Definition cp_new (key : RKey) : ClosestPeers := mk_ClosestPeers (key_raw (Key_new key)) [].

Definition cp_distance cp (peer_id : PeerId) : Distance :=
  distance (key_raw (Key_new (to_bytes peer_id))) (cp_target cp).

Definition cp_with cp (m : list (Distance * PeerWithState)) : ClosestPeers :=
  mk_ClosestPeers (cp_target cp) m.

Definition add_peers cp (peers : list KPeer) : ClosestPeers :=
  foldl (λ cp peer, cp_with cp (bt_or_insert (cp_distance cp (node_id peer))
    (PeerWithState_new peer) (cp_peers cp))) cp peers.

Definition has_target cp : option KPeer :=
  pws_peer <$> bt_get (distance (cp_target cp) (cp_target cp)) (cp_peers cp).

Definition peers_filter cp (num : nat) (p : PeerWithState → bool) : list PeerWithState :=
  take num (filter p (bt_values (cp_peers cp))).

Definition peers_in_states cp (states : list PeerState) (num : nat) : list PeerWithState :=
  take num (filter (λ p, pws_state p ∈ states) (bt_values (cp_peers cp))).

Definition get_peer_state cp (peer_id : PeerId) : option PeerState :=
  pws_state <$> bt_get (cp_distance cp peer_id) (cp_peers cp).

Definition set_peer_state cp (peer_id : PeerId) (st : PeerState) : ClosestPeers :=
  cp_with cp (bt_alter (pws_set st) (cp_distance cp peer_id) (cp_peers cp)).

Definition num_of_state cp (st : PeerState) : nat :=
  length (filter (in_state st) (bt_values (cp_peers cp))).

Definition num_of_states cp (states : list PeerState) : nat :=
  length (filter (λ p, pws_state p ∈ states) (bt_values (cp_peers cp))).

Definition is_starved cp : bool := Nat.eqb (num_of_states cp [PNotContacted; PWaiting]) 0.

Definition can_terminate cp (beta_value : nat) : bool :=
  let closest := take beta_value (filter
    (λ p, in_state PNotContacted p || in_state PWaiting p || in_state PSucceeded p)
    (bt_values (cp_peers cp))) in
  forallb (in_state PSucceeded) closest.

(** [peers_in_state_mut(NotContacted, num)], each of which is set to [Waiting]:
    the peers that are started, and the map. *)
Fixpoint start_peers (num : nat) (m : list (Distance * PeerWithState))
    : list PeerId * list (Distance * PeerWithState) :=
  match num, m with
  | S num', (d, p) :: m' =>
      if in_state PNotContacted p then
        let '(ids, m'') := start_peers num' m' in
        (node_id (pws_peer p) :: ids, (d, pws_set PWaiting p) :: m'')
      else
        let '(ids, m'') := start_peers num m' in
        (ids, (d, p) :: m'')
  | _, m => ([], m)
  end.

(** ** Queries *)

Record PeerRecord := mk_PeerRecord {
  prec_peer : option PeerId;
  prec_record : KRecord PeerId
}.

Inductive QueryType :=
  | FindPeer
  | GetClosestPeers
  | GetProviders (count : nat) (local : option (list KPeer))
  | GetRecord (quorum : nat) (local : option (list PeerRecord))
  | AddProvider (provider : ProviderRecord PeerId) (addresses : list Multiaddr)
  | PutRecord (record : KRecord PeerId).

Inductive QueryUpdate :=
  | Queried (source : PeerId) (closer : list KPeer) (provider : option (list KPeer))
      (record : option (KRecord PeerId))
  | Unreachable (peer : PeerId).

Record QueryResult := mk_QueryResult {
  res_closest_peers : option (list KPeer);
  res_found_peer : option KPeer;
  res_providers : option (list KPeer);
  res_records : option (list PeerRecord);
  res_cache_peers : option (list PeerId)
}.

Definition QueryResult_empty : QueryResult := mk_QueryResult None None None None None.

Inductive QueryEffect :=
  | AddAddrs (peer : PeerId) (addrs : list Multiaddr) (ttl : Duration)
  | PostPeerFound (peer : PeerId) (is_query : bool)
  | PostPeerStopped (peer : PeerId).

Record IterativeQuery := mk_IterativeQuery {
  iq_key : RKey;
  iq_query_type : QueryType;
  iq_local_id : PeerId;
  iq_config : QueryConfig;
  iq_seeds : list PeerId
}.
Implicit Types (q : IterativeQuery).

(** [dedup_by] on adjacent elements. *)
Fixpoint dedup_peers (l : list KPeer) : list KPeer :=
  match l with
  | [] => []
  | p :: l' =>
      match l' with
      | [] => [p]
      | p' :: _ => if decide (node_id p = node_id p') then
          match dedup_peers l' with
          | [] => []
          | _ :: rest => p :: rest
          end
        else p :: dedup_peers l'
      end
  end.

(** [old.extend(provider)], sorted by peer id, without duplicates. *)
Definition merge_providers (old provider : list KPeer) : list KPeer :=
  dedup_peers (sort_by (λ a b, pid_leb (node_id a) (node_id b)) (old ++ provider)).

(** The branch of [handle_update] that depends on the type of the query. *)
Definition handle_result q (source : PeerId) (provider : option (list KPeer))
    (record : option (KRecord PeerId)) (res : QueryResult) cp
    : option (bool * QueryResult * list QueryEffect) :=
  match iq_query_type q with
  | GetClosestPeers => Some (false, res, [])
  | FindPeer =>
      match has_target cp with
      | Some peer =>
          Some (true, mk_QueryResult (res_closest_peers res) (Some peer) (res_providers res)
            (res_records res) (res_cache_peers res), [])
      | None => Some (false, res, [])
      end
  | GetProviders count _ =>
      match provider with
      | Some provider =>
          let effects := (λ p, AddAddrs (node_id p) (multiaddrs p) PROVIDER_ADDR_TTL) <$> provider in
          match provider with
          | [] => Some (false, res, effects)
          | _ =>
              let providers :=
                match res_providers res with
                | Some old => merge_providers old provider
                | None => provider
                end in
              let res' := mk_QueryResult (res_closest_peers res) (res_found_peer res)
                (Some providers) (res_records res) (res_cache_peers res) in
              Some (negb (Nat.eqb count 0) && Nat.leb count (length providers), res', effects)
          end
      | None => Some (false, res, [])
      end
  | GetRecord quorum _ =>
      match record with
      | Some record =>
          let records := default [] (res_records res) ++ [mk_PeerRecord (Some source) record] in
          let res' := mk_QueryResult (res_closest_peers res) (res_found_peer res)
            (res_providers res) (Some records) (res_cache_peers res) in
          if Nat.ltb quorum (length records) then
            let peers_have_value := omap prec_peer records in
            let peers := (λ p, node_id (pws_peer p)) <$>
              peers_filter cp (q_k_value (iq_config q))
                (λ p, negb (in_state PUnreachable p) &&
                  negb (bool_decide (node_id (pws_peer p) ∈ peers_have_value))) in
            Some (true, mk_QueryResult (res_closest_peers res') (res_found_peer res')
              (res_providers res') (res_records res') (Some peers), [])
          else Some (false, res', [])
      | None => Some (false, res, [])
      end
  | AddProvider _ _ | PutRecord _ => None
  end.

Definition handle_update q (update : QueryUpdate) (res : QueryResult) cp
    : option (bool * QueryResult * ClosestPeers * list QueryEffect) :=
  match update with
  | Queried source closer provider record =>
      let closer := filter (λ p, node_id p ≠ iq_local_id q) closer in
      let effects := (λ p, AddAddrs (node_id p) (multiaddrs p) TEMP_ADDR_TTL) <$> closer in
      let cp := add_peers cp closer in
      let cp := set_peer_state cp source PSucceeded in
      '(completed, res', effects') ← handle_result q source provider record res cp;
      Some (completed, res', cp, effects ++ [PostPeerFound source true] ++ effects')
  | Unreachable peer =>
      Some (false, res, set_peer_state cp peer PUnreachable, [PostPeerStopped peer])
  end.

(** ** The loop of [run] *)

Inductive LoopEnd := ValueFound | Starvation | NoCloserPeer.

Inductive LoopOutcome :=
  | Break (why : LoopEnd) (res : QueryResult) (cp : ClosestPeers) (effects : list QueryEffect)
  | Continue (started : list PeerId) (res : QueryResult) (cp : ClosestPeers)
      (effects : list QueryEffect).

(** [usize::checked_sub]. *)
Definition usize_checked_sub (a b : nat) : option nat := if Nat.ltb a b then None else Some (a - b).

(** One turn of the loop; [None] is a panic. *)
Definition query_loop q (update : QueryUpdate) (res : QueryResult) cp : option LoopOutcome :=
  '(is_completed, res, cp, effects) ← handle_update q update res cp;
  if is_completed : bool then Some (Break ValueFound res cp effects)
  else if is_starved cp then Some (Break Starvation res cp effects)
  else if can_terminate cp (q_beta_value (iq_config q)) then
    Some (Break NoCloserPeer res cp effects)
  else
    num_jobs ← usize_checked_sub (q_alpha_value (iq_config q)) (num_of_state cp PWaiting);
    let '(started, m) := start_peers num_jobs (cp_peers cp) in
    Some (Continue started res (cp_with cp m) effects).

(** The initial result: the local items of the query. *)
Definition initial_results q : QueryResult :=
  match iq_query_type q with
  | GetProviders _ local => mk_QueryResult None None local None None
  | GetRecord _ local => mk_QueryResult None None None local None
  | _ => QueryResult_empty
  end.

(** The update that delivers the seeds; [get_addrs] is the peer store. *)
Definition seeds_update q (get_addrs : PeerId → option (list Multiaddr)) : QueryUpdate :=
  Queried (iq_local_id q)
    ((λ id, mk_KadPeer id (default [] (get_addrs id)) CanConnect) <$> iq_seeds q) None None.

(** The result after the loop. *)
Definition collect_results q (res : QueryResult) cp : QueryResult :=
  let peers := pws_peer <$> peers_in_states cp [PNotContacted; PWaiting; PSucceeded]
    (q_k_value (iq_config q)) in
  match peers with
  | [] => res
  | _ => mk_QueryResult (Some peers) (res_found_peer res) (res_providers res) (res_records res)
           (res_cache_peers res)
  end.

(** ** Jobs *)

(** [QueryJob::execute]; a query type without a job is a panic. *)
Definition job_execute (qt : QueryType) (key : RKey) (peer : PeerId) (now : Instant)
    (exchange : ProtoMessage → result KadMsgError ProtoMessage)
    : option (result KadMsgError QueryUpdate) :=
  match qt with
  | GetClosestPeers | FindPeer =>
      Some (let? closer := send_find_node exchange now key in
            Ok (Queried peer closer None None))
  | GetProviders _ _ =>
      Some (let? r := send_get_providers exchange now key in
            Ok (Queried peer r.1 (Some r.2) None))
  | GetRecord _ _ =>
      Some (let? r := send_get_value exchange now key in
            Ok (Queried peer r.1 None r.2))
  | _ => None
  end.

(** The task spawned for a job: it sends one update. *)
Definition job_update (qt : QueryType) (key : RKey) (peer : PeerId) (now : Instant)
    (exchange : ProtoMessage → result KadMsgError ProtoMessage) : option QueryUpdate :=
  r ← job_execute qt key peer now exchange;
  Some match r with
       | Ok u => u
       | Err _ => Unreachable peer
       end.
End query.
Arguments PeerWithState : clear implicits.
Arguments ClosestPeers : clear implicits.
Arguments PeerRecord : clear implicits.
Arguments QueryType : clear implicits.
Arguments QueryUpdate : clear implicits.
Arguments QueryResult : clear implicits.
Arguments QueryEffect : clear implicits.
Arguments IterativeQuery : clear implicits.
Arguments LoopOutcome : clear implicits.

(** ** Runs of a query *)

Section run.
Context {PeerId Multiaddr : Type} `{PeerIdType PeerId} `{MultiaddrType Multiaddr}.
Context `{PeerIdOrd PeerId} `{Sha256}.

Local Abbreviation KPeer := (KadPeer PeerId Multiaddr).
Local Abbreviation PMap := (list (Distance * PeerWithState PeerId Multiaddr)).
Implicit Types (q : IterativeQuery PeerId Multiaddr) (m : PMap).
Implicit Types (cp : ClosestPeers PeerId Multiaddr).

(** The state of a running query: the peers and results of the loop, the jobs that
    have not delivered their update, all the jobs started so far, and how the
    loop has ended, if it has. *)
Record QueryRun := mk_QueryRun {
  qr_cp : ClosestPeers PeerId Multiaddr;
  qr_res : QueryResult PeerId Multiaddr;
  qr_pending : list PeerId;
  qr_started : list PeerId;
  qr_end : option LoopEnd
}.
Implicit Types (st : QueryRun).

Definition run_outcome (pending started : list PeerId) (out : LoopOutcome PeerId Multiaddr)
    : QueryRun :=
  match out with
  | Break why res cp _ => mk_QueryRun cp res pending started (Some why)
  | Continue ids res cp _ => mk_QueryRun cp res (pending ++ ids) (started ++ ids) None
  end.

(** The query up to the seeds, for a query that has some. *)
Definition query_start q (get_addrs : PeerId → option (list Multiaddr)) : option QueryRun :=
  run_outcome [] [] <$>
    query_loop q (seeds_update q get_addrs) (initial_results q) (cp_new (iq_key q)).

(** The [i]-th pending job delivers its update. *)
Definition query_deliver q st (i : nat) (now : Instant)
    (exchange : ProtoMessage → result KadMsgError ProtoMessage) : option QueryRun :=
  peer ← qr_pending st !! i;
  u ← job_update (iq_query_type q) (iq_key q) peer now exchange;
  run_outcome (delete i (qr_pending st)) (qr_started st) <$>
    query_loop q u (qr_res st) (qr_cp st).

Inductive query_reachable q : nat → QueryRun → Prop :=
  | reach_start get_addrs st :
      query_start q get_addrs = Some st → query_reachable q 0 st
  | reach_deliver n st i now exchange st' :
      query_reachable q n st → qr_end st = None →
      query_deliver q st i now exchange = Some st' → query_reachable q (S n) st'.

(** ** Invariants of the map of peers *)

Definition waiting_ids m : list PeerId :=
  (λ p, node_id (pws_peer p)) <$> filter (in_state PWaiting) (bt_values m).

Lemma in_state_true s (p : PeerWithState PeerId Multiaddr) : in_state s p ↔ pws_state p = s.
Proof. unfold in_state. apply bool_decide_spec. Qed.

Lemma waiting_ids_cons d p m :
  waiting_ids ((d, p) :: m) =
    (if decide (pws_state p = PWaiting) then [node_id (pws_peer p)] else []) ++ waiting_ids m.
Proof.
  unfold waiting_ids, bt_values. rewrite fmap_cons, filter_cons. simpl.
  rewrite (decide_ext (in_state PWaiting p) (pws_state p = PWaiting)) by apply in_state_true.
  by case_decide.
Qed.

Lemma waiting_ids_length cp : length (waiting_ids (cp_peers cp)) = num_of_state cp PWaiting.
Proof. unfold waiting_ids. by rewrite length_fmap. Qed.

Lemma waiting_ids_elem m id :
  id ∈ waiting_ids m ↔ ∃ d p, (d, p) ∈ m ∧ pws_state p = PWaiting ∧ node_id (pws_peer p) = id.
Proof.
  unfold waiting_ids. rewrite list_elem_of_fmap. split.
  - intros (p&->&[? [d ?]%bt_values_elem]%list_elem_of_filter). exists d, p.
    by rewrite <-in_state_true.
  - intros (d&p&?&?&<-). exists p. split; [done|]. apply list_elem_of_filter.
    rewrite in_state_true, bt_values_elem. eauto.
Qed.

Lemma waiting_ids_or_insert k p m :
  pws_state p ≠ PWaiting → waiting_ids (bt_or_insert k p m) = waiting_ids m.
Proof.
  intros Hp. induction m as [|[k' p'] m IH]; simpl.
  - by rewrite waiting_ids_cons, decide_False.
  - destruct (k <? k')%Z; [by rewrite waiting_ids_cons, decide_False|].
    destruct (k =? k')%Z; [done|]. by rewrite !waiting_ids_cons, IH.
Qed.

(** A peer that leaves the waiting state. *)
Lemma waiting_ids_alter s k m :
  s ≠ PWaiting → bt_wf m →
  match bt_get k m with
  | Some p => if decide (pws_state p = PWaiting)
      then waiting_ids m ≡ₚ node_id (pws_peer p) :: waiting_ids (bt_alter (pws_set s) k m)
      else waiting_ids (bt_alter (pws_set s) k m) = waiting_ids m
  | None => waiting_ids (bt_alter (pws_set s) k m) = waiting_ids m
  end.
Proof.
  intros Hs Hwf. induction m as [|[k' p'] m IH]; [done|].
  apply bt_wf_cons in Hwf as [Hm _]. specialize (IH Hm). simpl.
  destruct (k =? k')%Z.
  - case_decide as Hp; rewrite !waiting_ids_cons; simpl; rewrite (decide_False (P := s = _)) by done.
    + by rewrite decide_True.
    + by rewrite decide_False.
  - destruct (bt_get k m) as [p|]; [case_decide|]; rewrite !waiting_ids_cons.
    + rewrite IH. by rewrite Permutation_middle.
    + by rewrite IH.
    + by rewrite IH.
Qed.

(** Starting jobs. *)
Lemma start_peers_keys n m : (start_peers n m).2.*1 = m.*1.
Proof.
  revert n. induction m as [|[d p] m IH]; intros [|n]; [done..|]. simpl.
  destruct (in_state PNotContacted p).
  - specialize (IH n). destruct (start_peers n m). simpl in *. by f_equal.
  - specialize (IH (S n)). destruct (start_peers (S n) m). simpl in *. by f_equal.
Qed.

Lemma start_peers_waiting n m :
  waiting_ids (start_peers n m).2 ≡ₚ (start_peers n m).1 ++ waiting_ids m.
Proof.
  revert n. induction m as [|[d p] m IH]; intros [|n]; [done..|]. simpl.
  destruct (in_state PNotContacted p) eqn:Hp.
  - specialize (IH n). destruct (start_peers n m) as [ids m']. simpl in *.
    apply bool_decide_eq_true in Hp.
    rewrite !waiting_ids_cons. simpl. rewrite (decide_False (P := pws_state p = _)) by congruence.
    simpl. by apply perm_skip.
  - specialize (IH (S n)). destruct (start_peers (S n) m) as [ids m']. simpl in *.
    rewrite !waiting_ids_cons. rewrite IH, !app_assoc. apply Permutation_app_tail, Permutation_app_comm.
Qed.

Lemma start_peers_elem n m d p :
  (d, p) ∈ (start_peers n m).2 →
  (d, p) ∈ m ∨
  ∃ p0, (d, p0) ∈ m ∧ pws_state p0 = PNotContacted ∧ p = pws_set PWaiting p0 ∧
    node_id (pws_peer p0) ∈ (start_peers n m).1.
Proof.
  revert n. induction m as [|[d0 p0] m IH]; intros [|n]; simpl; [by left..|].
  destruct (in_state PNotContacted p0) eqn:Hp.
  - specialize (IH n). destruct (start_peers n m) as [ids m']. simpl in *.
    intros [[= -> ->]|Hin]%elem_of_cons.
    + right. exists p0. apply bool_decide_eq_true in Hp. set_solver.
    + destruct (IH Hin) as [?|(p1&?&?&?&?)]; [left; by right|right]. exists p1. set_solver.
  - specialize (IH (S n)). destruct (start_peers (S n) m) as [ids m']. simpl in *.
    intros [[= -> ->]|Hin]%elem_of_cons; [left; by left|].
    destruct (IH Hin) as [?|(p1&?&?&?&?)]; [left; by right|right]. exists p1. set_solver.
Qed.

(** Nothing disappears, and the peers started are in the map. *)
Lemma start_peers_keeps n m d p :
  (d, p) ∈ m → pws_state p ≠ PNotContacted → (d, p) ∈ (start_peers n m).2.
Proof.
  revert n. induction m as [|[d0 p0] m IH]; intros [|n]; simpl; [done..|].
  destruct (in_state PNotContacted p0) eqn:Hp.
  - specialize (IH n). destruct (start_peers n m) as [ids m']. simpl in *.
    apply bool_decide_eq_true in Hp. set_solver.
  - specialize (IH (S n)). destruct (start_peers (S n) m) as [ids m']. simpl in *. set_solver.
Qed.

Lemma start_peers_ids n m id :
  id ∈ (start_peers n m).1 →
  ∃ d p, (d, p) ∈ m ∧ pws_state p = PNotContacted ∧ node_id (pws_peer p) = id ∧
    (d, pws_set PWaiting p) ∈ (start_peers n m).2.
Proof.
  revert n. induction m as [|[d0 p0] m IH]; intros [|n]; simpl; [by intros ?%not_elem_of_nil..|].
  destruct (in_state PNotContacted p0) eqn:Hp.
  - specialize (IH n). destruct (start_peers n m) as [ids m']. simpl in *.
    apply bool_decide_eq_true in Hp. intros [->|Hin]%elem_of_cons; [set_solver|].
    destruct (IH Hin) as (d&p&?&?&?&?). exists d, p. set_solver.
  - specialize (IH (S n)). destruct (start_peers (S n) m) as [ids m']. simpl in *.
    intros Hin. destruct (IH Hin) as (d&p&?&?&?&?). exists d, p. set_solver.
Qed.

Lemma start_peers_length n m :
  length (start_peers n m).1 = Nat.min n (length (filter (in_state PNotContacted) (bt_values m))).
Proof.
  revert n. induction m as [|[d p] m IH]; intros [|n]; [done..|].
  unfold bt_values. rewrite fmap_cons, filter_cons. simpl.
  destruct (in_state PNotContacted p) eqn:Hp; simpl.
  - specialize (IH n). destruct (start_peers n m). simpl in *. by f_equal.
  - specialize (IH (S n)). destruct (start_peers (S n) m). simpl in *. done.
Qed.

(** The map holds peers under their distance, without the local peer. *)
Definition map_inv (local : PeerId) cp : Prop :=
  bt_wf (cp_peers cp) ∧
  ∀ d p, (d, p) ∈ cp_peers cp →
    d = cp_distance cp (node_id (pws_peer p)) ∧ node_id (pws_peer p) ≠ local.

(** A peer whose job has been started. *)
Definition contacted cp (id : PeerId) : Prop :=
  ∃ d p, (d, p) ∈ cp_peers cp ∧ pws_state p ≠ PNotContacted ∧ node_id (pws_peer p) = id.

Lemma map_inv_new local key : map_inv local (cp_new key).
Proof. split; [apply bt_wf_nil|]. by intros ?? ?%not_elem_of_nil. Qed.

Lemma map_inv_unique local cp d p d' p' :
  map_inv local cp → (d, p) ∈ cp_peers cp → (d', p') ∈ cp_peers cp →
  node_id (pws_peer p) = node_id (pws_peer p') → d = d' ∧ p = p'.
Proof.
  intros [Hwf Hd] Hp Hp' Heq. destruct (Hd _ _ Hp) as [-> _], (Hd _ _ Hp') as [-> _].
  split; [by rewrite Heq|]. rewrite Heq in Hp.
  apply bt_get_elem_iff in Hp, Hp'; [|done..]. congruence.
Qed.

(** [cp'] extends [cp] with peers that have not been contacted. *)
Definition extends cp cp' : Prop :=
  cp_target cp' = cp_target cp ∧
  (∀ x, x ∈ cp_peers cp → x ∈ cp_peers cp') ∧
  (∀ d p, (d, p) ∈ cp_peers cp' → (d, p) ∈ cp_peers cp ∨ pws_state p = PNotContacted) ∧
  waiting_ids (cp_peers cp') = waiting_ids (cp_peers cp).

Lemma add_peers_spec local cp peers :
  map_inv local cp → Forall (λ p, node_id p ≠ local) peers →
  map_inv local (add_peers cp peers) ∧ extends cp (add_peers cp peers).
Proof.
  unfold add_peers. revert cp. induction peers as [|p peers IH]; intros cp Hinv Hloc.
  { split; [done|]. split_and!; auto. }
  apply Forall_cons in Hloc as [Hp Hloc]. cbn [foldl].
  set (cp1 := cp_with cp _). assert (Hinv1 : map_inv local cp1).
  { destruct Hinv as [Hwf Hd]. split; [by apply bt_or_insert_wf|].
    intros d p' [Hin|[= -> ->]]%bt_or_insert_elem; [by apply Hd|done]. }
  destruct (IH cp1 Hinv1 Hloc) as [? (Ht&Hk&Hn&Hw)]. split; [done|]. split_and!.
  - done.
  - intros x Hx. apply Hk. by apply bt_or_insert_keeps.
  - intros d p' Hin. destruct (Hn d p' Hin) as [Hin'|]; [|by right].
    apply bt_or_insert_elem in Hin' as [?|[= -> ->]]; [by left|by right].
  - rewrite Hw. by apply waiting_ids_or_insert.
Qed.

Lemma contacted_extends cp cp' id : extends cp cp' → contacted cp id → contacted cp' id.
Proof. intros (_&Hk&_) (d&p&?&?&?). exists d, p. auto. Qed.

Lemma set_peer_state_inv local cp id s : map_inv local cp → map_inv local (set_peer_state cp id s).
Proof.
  intros [Hwf Hd]. split; [by apply bt_alter_wf|].
  intros d p (p0&Hin&[->|[_ ->]])%bt_alter_elem; by apply (Hd d p0).
Qed.

Lemma set_peer_state_contacted cp id s id' :
  s ≠ PNotContacted → contacted cp id' → contacted (set_peer_state cp id s) id'.
Proof.
  intros Hs (d&p&Hin&Hp&<-). destruct (bt_alter_keeps (pws_set s) (cp_distance cp id) _ _ _ Hin).
  - exists d, p. auto.
  - exists d, (pws_set s p). auto.
Qed.

(** The update of a pending job removes its peer from the waiting ones. *)
Lemma set_peer_state_waiting local cp id s :
  map_inv local cp → s ≠ PWaiting → id ∈ waiting_ids (cp_peers cp) →
  waiting_ids (cp_peers cp) ≡ₚ id :: waiting_ids (cp_peers (set_peer_state cp id s)).
Proof.
  intros [Hwf Hd] Hs (d&p&Hin&Hw&<-)%waiting_ids_elem.
  pose proof (waiting_ids_alter s (cp_distance cp (node_id (pws_peer p))) (cp_peers cp) Hs Hwf) as Ha.
  destruct (Hd _ _ Hin) as [-> _]. apply bt_get_elem_iff in Hin; [|done].
  rewrite Hin, decide_True in Ha by done. done.
Qed.

(** The update of a peer that is not waited for leaves the waiting ones. *)
Lemma set_peer_state_not_waiting local cp id s :
  map_inv local cp → s ≠ PWaiting → waiting_ids (cp_peers cp) = [] →
  waiting_ids (cp_peers (set_peer_state cp id s)) = [].
Proof.
  intros [Hwf _] Hs Hnil.
  pose proof (waiting_ids_alter s (cp_distance cp id) (cp_peers cp) Hs Hwf) as Ha.
  destruct (bt_get _ (cp_peers cp)) as [p|]; [case_decide|]; rewrite Hnil in Ha; [|done..].
  by apply Permutation_nil_cons in Ha.
Qed.

Lemma start_peers_inv local cp n :
  map_inv local cp → map_inv local (cp_with cp (start_peers n (cp_peers cp)).2).
Proof.
  intros [Hwf Hd]. split; [unfold bt_wf; simpl; by rewrite start_peers_keys|].
  intros d p [Hin|(p0&Hin&_&->&_)]%start_peers_elem; [by apply Hd|by apply (Hd d p0)].
Qed.

(** ** The loop *)

(** The query types that [run] is used with. *)
Definition is_iterative (qt : QueryType PeerId Multiaddr) : bool :=
  match qt with
  | AddProvider _ _ | PutRecord _ => false
  | _ => true
  end.

(** The map after an update. *)
Definition updated q cp (u : QueryUpdate PeerId Multiaddr) : ClosestPeers PeerId Multiaddr :=
  match u with
  | Queried source closer _ _ =>
      set_peer_state (add_peers cp (filter (λ p, node_id p ≠ iq_local_id q) closer))
        source PSucceeded
  | Unreachable peer => set_peer_state cp peer PUnreachable
  end.

Definition update_source (u : QueryUpdate PeerId Multiaddr) : PeerId :=
  match u with
  | Queried source _ _ _ => source
  | Unreachable peer => peer
  end.

Lemma handle_update_cp q u res cp :
  is_iterative (iq_query_type q) →
  ∃ c res' eff, handle_update q u res cp = Some (c, res', updated q cp u, eff).
Proof.
  intros Hit. destruct u as [source closer provider record|peer]; simpl; [|eauto].
  set (cp' := set_peer_state _ _ _).
  assert (∃ c res' eff, handle_result q source provider record res cp' = Some (c, res', eff))
    as (c&res'&eff&->); [|simpl; eauto].
  unfold handle_result. destruct (iq_query_type q) as [| |count local|quorum local| |]; try done.
  - destruct (has_target cp'); eauto.
  - eauto.
  - destruct provider as [[|]|]; eauto.
  - destruct record; [case_match|]; eauto.
Qed.

(** The two ways a turn of the loop goes on from the updated map. *)
Lemma query_loop_cases q u res cp :
  is_iterative (iq_query_type q) →
  num_of_state (updated q cp u) PWaiting ≤ q_alpha_value (iq_config q) →
  let cp' := updated q cp u in
  let n := q_alpha_value (iq_config q) - num_of_state cp' PWaiting in
  (∃ why res' eff, query_loop q u res cp = Some (Break why res' cp' eff) ∧
    (why = Starvation → is_starved cp' = true) ∧
    (why = NoCloserPeer → can_terminate cp' (q_beta_value (iq_config q)) = true)) ∨
  (∃ res' eff, query_loop q u res cp =
      Some (Continue (start_peers n (cp_peers cp')).1 res'
        (cp_with cp' (start_peers n (cp_peers cp')).2) eff) ∧
    is_starved cp' = false).
Proof.
  intros Hit Hw cp' n. fold cp' in Hw. unfold query_loop.
  destruct (handle_update_cp q u res cp Hit) as (c&res'&eff&->). simpl. fold cp'.
  destruct c; [left; by eexists _, _, _|].
  destruct (is_starved cp') eqn:Hst; [left; by eexists _, _, _|].
  destruct (can_terminate cp' _) eqn:Hct; [left; by eexists _, _, _|].
  right. unfold usize_checked_sub. destruct (Nat.ltb_spec (q_alpha_value (iq_config q))
    (num_of_state cp' PWaiting)); [lia|]. simpl. fold n.
  destruct (start_peers n (cp_peers cp')) as [ids m]. simpl. eauto.
Qed.

Lemma updated_inv q cp u :
  map_inv (iq_local_id q) cp → map_inv (iq_local_id q) (updated q cp u).
Proof.
  intros Hinv. destruct u; simpl; apply set_peer_state_inv; [|done].
  apply add_peers_spec; [done|]. apply Forall_forall. by intros p [? _]%list_elem_of_filter.
Qed.

Lemma updated_contacted q cp u id :
  map_inv (iq_local_id q) cp → contacted cp id → contacted (updated q cp u) id.
Proof.
  intros Hinv Hc. destruct u; simpl; apply set_peer_state_contacted; [done| |done|done].
  eapply contacted_extends; [|exact Hc]. eapply add_peers_spec; [exact Hinv|].
  apply Forall_forall. by intros p [? _]%list_elem_of_filter.
Qed.

(** The peers that are waited for after an update, from those before. *)
Lemma updated_waiting q cp u :
  map_inv (iq_local_id q) cp →
  (update_source u ∈ waiting_ids (cp_peers cp) →
    waiting_ids (cp_peers cp) ≡ₚ update_source u :: waiting_ids (cp_peers (updated q cp u))) ∧
  (waiting_ids (cp_peers cp) = [] → waiting_ids (cp_peers (updated q cp u)) = []).
Proof.
  intros Hinv. destruct u as [source closer provider record|peer]; simpl.
  - destruct (add_peers_spec (iq_local_id q) cp
      (filter (λ p, node_id p ≠ iq_local_id q) closer)) as [Hinv' (_&_&_&<-)]; [done| |].
    { apply Forall_forall. by intros p [? _]%list_elem_of_filter. }
    split; [by apply (set_peer_state_waiting (iq_local_id q))|].
    by apply (set_peer_state_not_waiting (iq_local_id q)).
  - split; [by apply (set_peer_state_waiting (iq_local_id q))|].
    by apply (set_peer_state_not_waiting (iq_local_id q)).
Qed.

(** ** The invariant of a run *)

Record query_inv q (n : nat) st : Prop := mk_query_inv {
  qi_map : map_inv (iq_local_id q) (qr_cp st);
  qi_target : cp_target (qr_cp st) = key_raw (Key_new (iq_key q));
  qi_pending : qr_pending st ≡ₚ waiting_ids (cp_peers (qr_cp st));
  qi_alpha : length (qr_pending st) ≤ q_alpha_value (iq_config q);
  qi_nodup : NoDup (qr_started st);
  qi_contacted : Forall (contacted (qr_cp st)) (qr_started st);
  qi_count : length (qr_started st) = n + length (qr_pending st);
  qi_live : qr_end st = None → qr_pending st ≠ []
}.

Lemma updated_target q cp u : cp_target (updated q cp u) = cp_target cp.
Proof.
  destruct u; simpl; [|done]. unfold add_peers.
  set (l := filter _ _). clearbody l. revert cp. induction l as [|p l IH]; intros cp; [done|].
  simpl. by rewrite IH.
Qed.

Lemma start_peers_NoDup local cp n :
  map_inv local cp → NoDup (start_peers n (cp_peers cp)).1.
Proof.
  intros [Hwf Hd]. revert n Hwf Hd. generalize (cp_peers cp). intros m.
  induction m as [|[d p] m IH]; intros [|n] Hwf Hd; [by constructor..|]. simpl.
  apply bt_wf_cons in Hwf as [Hwf Hlt].
  assert (Hd' : ∀ d p, (d, p) ∈ m → d = cp_distance cp (node_id (pws_peer p)) ∧
    node_id (pws_peer p) ≠ local) by (intros; apply Hd; by right).
  destruct (in_state PNotContacted p).
  - specialize (IH n Hwf Hd'). pose proof (start_peers_ids n m (node_id (pws_peer p))) as Hids.
    destruct (start_peers n m) as [ids m']. simpl in *. constructor; [|done].
    intros Hin. destruct (Hids Hin) as (d'&p'&Hin'&_&Heq&_).
    destruct (Hd' _ _ Hin') as [-> _]. destruct (Hd d p) as [-> _]; [by left|].
    rewrite Forall_forall in Hlt.
    assert (cp_distance cp (node_id (pws_peer p)) < cp_distance cp (node_id (pws_peer p')))%Z.
    { apply Hlt. by apply (list_elem_of_fmap_2 fst _ (cp_distance cp (node_id (pws_peer p')), p')). }
    rewrite Heq in *. lia.
  - specialize (IH (S n) Hwf Hd'). by destruct (start_peers (S n) m).
Qed.

Lemma not_starved cp :
  is_starved cp = false →
  num_of_state cp PWaiting = 0 →
  0 < length (filter (in_state PNotContacted) (bt_values (cp_peers cp))).
Proof.
  unfold is_starved, num_of_states, num_of_state. intros Hst Hw.
  apply Nat.eqb_neq in Hst.
  assert (Hne : ∃ p, p ∈ filter (λ p, pws_state p ∈ [PNotContacted; PWaiting])
    (bt_values (cp_peers cp))).
  { destruct (filter _ _) as [|p l]; [done|]. exists p. by left. }
  destruct Hne as (p&[Hp Hin]%list_elem_of_filter).
  assert (Hnw : p ∉ filter (in_state PWaiting) (bt_values (cp_peers cp))).
  { apply nil_length_inv in Hw. rewrite Hw. apply not_elem_of_nil. }
  rewrite list_elem_of_filter, in_state_true in Hnw.
  destruct (filter (in_state PNotContacted) _) as [|p' l] eqn:Hf; [|simpl; lia].
  exfalso. assert (Hnil : p ∈ []); [|by apply not_elem_of_nil in Hnil].
  rewrite <-Hf. apply list_elem_of_filter. rewrite in_state_true. set_solver.
Qed.

Lemma contacted_start cp n id :
  contacted cp id → contacted (cp_with cp (start_peers n (cp_peers cp)).2) id.
Proof. intros (d&p&?&?&?). exists d, p. split; [|done]. by apply start_peers_keeps. Qed.

(** The jobs started are new, and with those pending at most [alpha]. *)
Lemma start_peers_new local cp n started :
  map_inv local cp → Forall (contacted cp) started → NoDup started →
  let '(ids, m) := start_peers n (cp_peers cp) in
  NoDup (started ++ ids) ∧ Forall (contacted (cp_with cp m)) (started ++ ids).
Proof.
  intros Hinv Hc Hnd. pose proof (start_peers_NoDup local cp n Hinv) as Hndi.
  pose proof (start_peers_ids n (cp_peers cp)) as Hids.
  pose proof (λ id, contacted_start cp n id) as Hcs.
  destruct (start_peers n (cp_peers cp)) as [ids m]. simpl in *. split.
  - apply NoDup_app. split_and!; [done| |done]. intros id Hin Hin'.
    rewrite Forall_forall in Hc. destruct (Hc id Hin) as (d&p&Hp&Hs&Heq).
    destruct (Hids id Hin') as (d'&p'&Hp'&Hs'&Heq'&_).
    destruct (map_inv_unique local cp d p d' p') as [_ ->]; [done|done|done|congruence|done].
  - apply Forall_app. split; [by eapply Forall_impl|]. apply Forall_forall. intros id Hin.
    destruct (Hids id Hin) as (d&p&_&_&Heq&Hp). by exists d, (pws_set PWaiting p).
Qed.

(** One turn of the loop, from a state in which [pending] is what remains to be
    waited for after the update. *)
Lemma query_loop_inv q n cp u res pending started :
  is_iterative (iq_query_type q) → 0 < q_alpha_value (iq_config q) →
  map_inv (iq_local_id q) cp → cp_target cp = key_raw (Key_new (iq_key q)) →
  pending ≡ₚ waiting_ids (cp_peers (updated q cp u)) →
  length pending ≤ q_alpha_value (iq_config q) →
  NoDup started → Forall (contacted cp) started →
  length started = n + length pending →
  ∃ out, query_loop q u res cp = Some out ∧ query_inv q n (run_outcome pending started out).
Proof.
  intros Hit Halpha Hinv Htgt Hpend Hle Hnd Hc Hcount.
  pose proof (updated_inv q cp u Hinv) as Hinv'.
  assert (Hc' : Forall (contacted (updated q cp u)) started).
  { eapply Forall_impl; [exact Hc|]. intros id. by apply updated_contacted. }
  assert (Hw : num_of_state (updated q cp u) PWaiting = length pending).
  { rewrite <-waiting_ids_length. by rewrite Hpend. }
  assert (Htgt' : cp_target (updated q cp u) = key_raw (Key_new (iq_key q)))
    by by rewrite updated_target.
  destruct (query_loop_cases q u res cp Hit) as [(why&res'&eff&Heq&_)|(res'&eff&Heq&Hst)]; [lia| |].
  - eexists. split; [exact Heq|]. by split.
  - eexists. split; [exact Heq|]. rewrite Hw. set (k := q_alpha_value (iq_config q) - length pending).
    pose proof (start_peers_new _ _ k started Hinv' Hc' Hnd) as Hnew.
    pose proof (start_peers_waiting k (cp_peers (updated q cp u))) as Hwait.
    pose proof (start_peers_length k (cp_peers (updated q cp u))) as Hlen.
    pose proof (start_peers_inv _ _ k Hinv') as Hinv''.
    pose proof (not_starved _ Hst) as Hns.
    destruct (start_peers k (cp_peers (updated q cp u))) as [ids m]. simpl in *.
    destruct Hnew as [Hnd' Hc'']. split; simpl; [done|done| | |done|done| |].
    + rewrite Hwait, Hpend. apply Permutation_app_comm.
    + rewrite length_app. lia.
    + rewrite !length_app. lia.
    + intros _ [-> ->]%app_nil. simpl in *. lia.
Qed.

Lemma job_update_source (qt : QueryType PeerId Multiaddr) key peer now exchange u :
  job_update qt key peer now exchange = Some u → update_source u = peer.
Proof.
  unfold job_update, job_execute. intros Hu. destruct qt; simplify_eq/=.
  - by destruct (send_find_node _ _ _).
  - by destruct (send_find_node _ _ _).
  - by destruct (send_get_providers _ _ _).
  - by destruct (send_get_value _ _ _).
Qed.

Lemma job_update_Some (qt : QueryType PeerId Multiaddr) key peer now exchange :
  is_iterative qt → is_Some (job_update qt key peer now exchange).
Proof. by destruct qt. Qed.

(** A pending job can always deliver its update. *)
Lemma query_deliver_Some q n st i now exchange :
  is_iterative (iq_query_type q) → 0 < q_alpha_value (iq_config q) →
  query_inv q n st → i < length (qr_pending st) →
  ∃ st', query_deliver q st i now exchange = Some st' ∧ query_inv q (S n) st'.
Proof.
  intros Hit Halpha [Hmap Htgt Hpend Hle Hnd Hc Hcount _] Hi.
  destruct (lookup_lt_is_Some_2 _ _ Hi) as [peer Hpeer].
  destruct (job_update_Some _ (iq_key q) peer now exchange Hit) as [u Hu].
  pose proof (job_update_source _ _ _ _ _ _ Hu) as Hsrc.
  pose proof (delete_perm i peer _ Hpeer) as Hdel.
  destruct (updated_waiting q (qr_cp st) u Hmap) as [Hwait _].
  assert (Hin : update_source u ∈ waiting_ids (cp_peers (qr_cp st))).
  { rewrite <-Hpend, Hsrc. by eapply list_elem_of_lookup_2. }
  specialize (Hwait Hin).
  destruct (query_loop_inv q (S n) (qr_cp st) u (qr_res st) (delete i (qr_pending st))
    (qr_started st)) as (out&Hout&Hinv); try done.
  - apply (Permutation_cons_inv (a := peer)). rewrite <-Hdel, Hpend, Hwait. by rewrite Hsrc.
  - apply Permutation_length in Hdel. simpl in Hdel. lia.
  - apply Permutation_length in Hdel. simpl in Hdel. lia.
  - eexists. split; [|exact Hinv]. unfold query_deliver. rewrite Hpeer. simpl. rewrite Hu. simpl.
    by rewrite Hout.
Qed.

Lemma query_start_Some q get_addrs :
  is_iterative (iq_query_type q) → 0 < q_alpha_value (iq_config q) →
  ∃ st, query_start q get_addrs = Some st ∧ query_inv q 0 st.
Proof.
  intros Hit Halpha.
  destruct (query_loop_inv q 0 (cp_new (iq_key q)) (seeds_update q get_addrs)
    (initial_results q) [] []) as (out&Hout&Hinv); try done.
  - apply map_inv_new.
  - by rewrite (proj2 (updated_waiting q (cp_new (iq_key q)) _ (map_inv_new _ _))).
  - simpl; lia.
  - constructor.
  - exists (run_outcome [] [] out). unfold query_start. by rewrite Hout.
Qed.

Lemma query_reachable_inv q n st :
  is_iterative (iq_query_type q) → 0 < q_alpha_value (iq_config q) →
  query_reachable q n st → query_inv q n st.
Proof.
  intros Hit Halpha. induction 1 as [get_addrs st Hst|n st i now exchange st' _ IH Hend Hst].
  - destruct (query_start_Some q get_addrs Hit Halpha) as (st'&Hst'&?). congruence.
  - destruct (query_deliver_Some q n st i now exchange Hit Halpha IH) as (st''&Hst''&?).
    + unfold query_deliver in Hst. destruct (qr_pending st !! i) eqn:Hi; [|done].
      by eapply lookup_lt_Some.
    + congruence.
Qed.

(** What holds of the map when the loop has ended. *)
Lemma query_loop_end q u res cp out pending started :
  query_loop q u res cp = Some out →
  match qr_end (run_outcome pending started out) with
  | Some Starvation => is_starved (qr_cp (run_outcome pending started out)) = true
  | Some NoCloserPeer => can_terminate (qr_cp (run_outcome pending started out))
      (q_beta_value (iq_config q)) = true
  | _ => True
  end.
Proof.
  unfold query_loop. intros Hout. apply bind_Some in Hout as ([[[c res'] cp'] eff]&_&Hout).
  destruct c; simplify_eq/=; [done|].
  destruct (is_starved cp') eqn:Hst; simplify_eq/=; [done|].
  destruct (can_terminate cp' _) eqn:Hct; simplify_eq/=; [done|].
  apply bind_Some in Hout as (k&_&Hout). destruct (start_peers k _). by simplify_eq/=.
Qed.

Lemma query_reachable_end q n st :
  query_reachable q n st →
  match qr_end st with
  | Some Starvation => is_starved (qr_cp st) = true
  | Some NoCloserPeer => can_terminate (qr_cp st) (q_beta_value (iq_config q)) = true
  | _ => True
  end.
Proof.
  destruct 1 as [get_addrs st Hst|n st i now exchange st' _ _ Hst].
  - apply fmap_Some in Hst as (out&Hout&->). by eapply query_loop_end.
  - apply bind_Some in Hst as (peer&_&Hst). apply bind_Some in Hst as (u&_&Hst).
    apply fmap_Some in Hst as (out&Hout&->). by eapply query_loop_end.
Qed.

(** ** The peers in the order of their distance *)

Local Abbreviation peer_distance cp := (λ p, cp_distance cp (node_id (pws_peer p))).

Lemma cp_values_sorted local cp :
  map_inv local cp →
  StronglySorted (λ a b, peer_distance cp a < peer_distance cp b)%Z (bt_values (cp_peers cp)).
Proof.
  intros [Hwf Hd]. unfold bt_wf in Hwf.
  unfold bt_values. apply (StronglySorted_fmap _ snd). apply (StronglySorted_fmap _ fst) in Hwf.
  apply (StronglySorted_impl_elem _ _ _ Hwf). intros [d p] [d' p'] Hin Hin' Hlt. simpl in *.
  by destruct (Hd _ _ Hin) as [<- _], (Hd _ _ Hin') as [<- _].
Qed.

Lemma can_terminate_spec cp beta :
  can_terminate cp beta = true ↔
  Forall (λ p, pws_state p = PSucceeded)
    (take beta (filter (λ p, pws_state p ≠ PUnreachable) (bt_values (cp_peers cp)))).
Proof.
  unfold can_terminate. rewrite forallb_forall, Forall_forall.
  rewrite (filter_elem_ext (λ p, in_state PNotContacted p || in_state PWaiting p ||
    in_state PSucceeded p) (λ p, pws_state p ≠ PUnreachable)).
  - split; intros Hall p Hin; specialize (Hall p).
    + apply list_elem_of_In in Hin. by apply in_state_true, Is_true_true, Hall.
    + apply list_elem_of_In in Hin. by apply Is_true_true, in_state_true, Hall.
  - intros p _. unfold in_state. by destruct (pws_state p).
Qed.

Lemma starved_spec cp :
  is_starved cp = true ↔
  Forall (λ p, pws_state p = PSucceeded ∨ pws_state p = PUnreachable) (bt_values (cp_peers cp)).
Proof.
  unfold is_starved, num_of_states. rewrite Nat.eqb_eq, Forall_forall. split.
  - intros Hnil%nil_length_inv p Hp.
    assert (Hno : p ∉ filter (λ p, pws_state p ∈ [PNotContacted; PWaiting])
      (bt_values (cp_peers cp))) by (rewrite Hnil; apply not_elem_of_nil).
    rewrite list_elem_of_filter in Hno. destruct (pws_state p); set_solver.
  - intros Hall. rewrite filter_none; [done|]. intros p Hp Hin.
    destruct (Hall p Hp) as [Heq|Heq]; rewrite Heq in Hin; set_solver.
Qed.

(** ** Properties *)

Section properties.
Variable q : IterativeQuery PeerId Multiaddr.
Hypothesis Hit : is_iterative (iq_query_type q).
Hypothesis Halpha : 0 < q_alpha_value (iq_config q).


(** [C33] At any time at most [alpha] jobs are pending, they are those of the
    peers in the waiting state, no peer is queried twice, and the local peer is
    never queried. *)
Theorem query_at_most_once n st (Hr : query_reachable q n st) :
  length (qr_pending st) ≤ q_alpha_value (iq_config q) ∧
  qr_pending st ≡ₚ waiting_ids (cp_peers (qr_cp st)) ∧
  NoDup (qr_started st) ∧ iq_local_id q ∉ qr_started st.
Proof.
  destruct (query_reachable_inv q n st Hit Halpha Hr) as [[_ Hd] _ Hp Ha Hnd Hc _ _].
  split_and!; [done..|]. rewrite Forall_forall in Hc. intros Hin.
  destruct (Hc _ Hin) as (d&p&Hdp&_&Heq). by destruct (Hd _ _ Hdp) as [_ Hne].
Qed.

(** [C32] A query terminates on a finite network: if all the peers that have been
    reported are among [U], no more than [length U] updates have been delivered. *)
Theorem query_bounded n st (U : list PeerId) (Hr : query_reachable q n st)
    (HU : ∀ d p, (d, p) ∈ cp_peers (qr_cp st) → node_id (pws_peer p) ∈ U) :
  n ≤ length U.
Proof.
  destruct (query_reachable_inv q n st Hit Halpha Hr) as [_ _ _ _ Hnd Hc Hcount _].
  assert (Hsub : qr_started st ⊆+ U).
  { apply NoDup_submseteq; [done|]. intros id Hin. rewrite Forall_forall in Hc.
    destruct (Hc id Hin) as (d&p&Hdp&_&<-). by eapply HU. }
  apply submseteq_length in Hsub. lia.
Qed.

(** When the loop ends for lack of closer peers, the [beta] closest known
    peers that are not unreachable have all answered; when it ends by
    starvation, every known peer has answered or is unreachable. *)
Theorem query_end_condition n st (Hr : query_reachable q n st) :
  (qr_end st = Some NoCloserPeer →
    Forall (λ p, pws_state p = PSucceeded) (take (q_beta_value (iq_config q))
      (filter (λ p, pws_state p ≠ PUnreachable) (bt_values (cp_peers (qr_cp st)))))) ∧
  (qr_end st = Some Starvation →
    Forall (λ p, pws_state p = PSucceeded ∨ pws_state p = PUnreachable)
      (bt_values (cp_peers (qr_cp st)))).
Proof.
  pose proof (query_reachable_end q n st Hr) as Hend.
  split; intros Heq; rewrite Heq in Hend; [by apply can_terminate_spec|by apply starved_spec].
Qed.

Lemma collect_results_eq res cp ps :
  res_closest_peers res = None →
  res_closest_peers (collect_results q res cp) = Some ps →
  ps = pws_peer <$> take (q_k_value (iq_config q))
    (filter (λ p, pws_state p ≠ PUnreachable) (bt_values (cp_peers cp))).
Proof.
  intros Hnone. unfold collect_results, peers_in_states.
  rewrite (filter_elem_ext _ (λ p, pws_state p ≠ PUnreachable)).
  - destruct (_ <$> _) eqn:Hl; simpl; congruence.
  - intros p _. destruct (pws_state p); set_solver.
Qed.

Lemma query_loop_closest_None u res cp out pending started :
  res_closest_peers res = None → query_loop q u res cp = Some out →
  res_closest_peers (qr_res (run_outcome pending started out)) = None.
Proof.
  intros Hres. unfold query_loop. intros Hout.
  apply bind_Some in Hout as ([[[c res'] cp'] eff]&Hup&Hout).
  assert (Hres' : res_closest_peers res' = None).
  { destruct u as [source closer provider record|peer]; simplify_eq/=; [|done].
    apply bind_Some in Hup as ([[c' r] e]&Hr&?). simplify_eq/=.
    unfold handle_result in Hr. destruct (iq_query_type q); repeat case_match; by simplify_eq/=. }
  destruct c; simplify_eq/=; [done|]. repeat case_match; simplify_eq/=; [done..|].
  apply bind_Some in Hout as (k&_&Hout). destruct (start_peers k _). by simplify_eq/=.
Qed.

Lemma query_reachable_closest_None n st :
  query_reachable q n st → res_closest_peers (qr_res st) = None.
Proof.
  induction 1 as [get_addrs st Hst|n st i now exchange st' _ IH _ Hst].
  - apply fmap_Some in Hst as (out&Hout&->). eapply query_loop_closest_None; [|exact Hout].
    unfold initial_results. by destruct (iq_query_type q).
  - apply bind_Some in Hst as (peer&_&Hst). apply bind_Some in Hst as (u&_&Hst).
    apply fmap_Some in Hst as (out&Hout&->). by eapply query_loop_closest_None.
Qed.

(** The closest peers a query returns are the closest ones it knows that are
    not unreachable: at most [k_value], in the strict order of their distance to
    the key, and every such peer that is left out is further than all of
    them. *)
Theorem query_returns_closest n st ps (Hr : query_reachable q n st)
    (Hps : res_closest_peers (collect_results q (qr_res st) (qr_cp st)) = Some ps) :
  length ps ≤ q_k_value (iq_config q) ∧
  StronglySorted (λ a b, cp_distance (qr_cp st) (node_id a) <
    cp_distance (qr_cp st) (node_id b))%Z ps ∧
  ∀ p, p ∈ bt_values (cp_peers (qr_cp st)) → pws_state p ≠ PUnreachable →
    pws_peer p ∈ ps ∨
    (length ps = q_k_value (iq_config q) ∧ ∀ a, a ∈ ps →
      cp_distance (qr_cp st) (node_id a) < cp_distance (qr_cp st) (node_id (pws_peer p)))%Z.
Proof.
  pose proof (query_reachable_inv q n st Hit Halpha Hr) as Hinv.
  apply collect_results_eq in Hps as ->; [|by eapply query_reachable_closest_None].
  set (l := filter _ _).
  assert (Hs : StronglySorted (λ a b, peer_distance (qr_cp st) a < peer_distance (qr_cp st) b)%Z l)
    by by eapply StronglySorted_filter, cp_values_sorted, (qi_map q n st).
  split_and!.
  - rewrite length_fmap, length_take. lia.
  - apply (StronglySorted_fmap _ pws_peer). by apply StronglySorted_take.
  - intros p Hp Hne. destruct (StronglySorted_take_or _ (q_k_value (iq_config q)) l p Hs)
      as [Hin|[Hlen Hlt]]; [by apply list_elem_of_filter| |].
    + left. by apply list_elem_of_fmap_2.
    + right. rewrite length_fmap. split; [done|]. intros a (p'&->&Hp')%list_elem_of_fmap.
      by apply Hlt.
Qed.
End properties.

(** A record query completes with the update that brings the number of
    records above [quorum], that is with [quorum + 1] records.  The peers it then
    proposes for caching are reachable, have not returned the record, and are at
    most [k_value]. *)
Theorem get_record_quorum q source provider record res cp quorum local
    (Hqt : iq_query_type q = GetRecord quorum local) :
  ∃ res', handle_result q source provider (Some record) res cp =
      Some (Nat.ltb quorum (S (length (default [] (res_records res)))), res', []) ∧
    res_records res' = Some (default [] (res_records res) ++ [mk_PeerRecord (Some source) record]) ∧
    (quorum < S (length (default [] (res_records res))) → ∃ cache,
      res_cache_peers res' = Some cache ∧ length cache ≤ q_k_value (iq_config q) ∧
      ∀ id, id ∈ cache → id ≠ source ∧ ∃ p, p ∈ bt_values (cp_peers cp) ∧
        node_id (pws_peer p) = id ∧ pws_state p ≠ PUnreachable).
Proof.
  unfold handle_result. rewrite Hqt, length_app, Nat.add_1_r. cbn [length].
  destruct (Nat.ltb_spec quorum (S (length (default [] (res_records res))))) as [Hlt|Hge].
  - eexists. split_and!; [done|done|]. intros _. eexists. split_and!; [done| |].
    + unfold peers_filter. rewrite length_fmap, length_take. lia.
    + intros id (p&->&Hp)%list_elem_of_fmap. unfold peers_filter in Hp.
      apply elem_of_take in Hp as (j&Hp%list_elem_of_lookup_2&_).
      apply list_elem_of_filter in Hp as [[Hs Hv]%andb_prop_elim Hp].
      apply negb_prop_elim in Hs, Hv. split.
      * intros Heq. apply Hv, bool_decide_spec. rewrite Heq, omap_app. set_solver.
      * exists p. split_and!; [done|done|]. by rewrite in_state_true in Hs.
  - eexists. split_and!; [done|done|lia].
Qed.
End run.
Arguments QueryRun : clear implicits.

(** ** An example

    The peer 0 looks for the peers closest to the key 5, with the peer 1 as its
    seed; the peer 1 answers with the peers 2 and 3, which do not answer. *)

#[local] Existing Instance byte_PeerIdType.
#[local] Existing Instance bytes_MultiaddrType.
#[local] Existing Instance toy_sha256.
#[local] Instance byte_ord : PeerIdOrd u8 := λ a b, (byte.unsigned a <=? byte.unsigned b)%Z.

Definition sample_query : IterativeQuery u8 bytes :=
  mk_IterativeQuery [Byte.x05] GetClosestPeers Byte.x00 QueryConfig_default [Byte.x01].

Definition sample_exchange : ProtoMessage → result KadMsgError ProtoMessage := λ _,
  Ok (resp_msg_to_proto (RspFindNode
    [mk_KadPeer Byte.x02 [] Connected; mk_KadPeer Byte.x03 ([] : list bytes) Connected])).

Definition sample_dummy : QueryRun u8 bytes :=
  mk_QueryRun (cp_new []) QueryResult_empty ([] : list u8) [] None.

Definition sample_run0 : QueryRun u8 bytes :=
  default sample_dummy (query_start sample_query (λ _, None)).

Definition sample_run1 : QueryRun u8 bytes :=
  default sample_dummy (query_deliver sample_query sample_run0 0 0 sample_exchange).

Definition sample_run2 : QueryRun u8 bytes :=
  default sample_dummy (query_deliver sample_query sample_run1 0 0 (λ _, Err NetworkError)).

Definition sample_run3 : QueryRun u8 bytes :=
  default sample_dummy (query_deliver sample_query sample_run2 0 0 (λ _, Err NetworkError)).

Lemma sample_reach0 : query_reachable sample_query 0 sample_run0.
Proof. apply (reach_start _ (λ _, None)). apply default_is_Some. by_eval. Qed.

Lemma sample_reach1 : query_reachable sample_query 1 sample_run1.
Proof.
  eapply (reach_deliver _ _ sample_run0 0 0 sample_exchange); [exact sample_reach0|by_eval|].
  apply default_is_Some. by_eval.
Qed.

Lemma sample_reach3 : query_reachable sample_query 3 sample_run3.
Proof.
  eapply (reach_deliver _ 2 sample_run2 0 0 (λ _, Err NetworkError)).
  - eapply (reach_deliver _ 1 sample_run1 0 0 (λ _, Err NetworkError)); [exact sample_reach1|by_eval|].
    apply default_is_Some. by_eval.
  - by_eval.
  - apply default_is_Some. by_eval.
Qed.


Lemma query_at_most_once_witness : length (qr_pending sample_run1) ≤ 3 ∧ NoDup (qr_started sample_run1).
Proof.
  destruct (query_at_most_once sample_query I ltac:(by_eval) 1 sample_run1 sample_reach1)
    as (Ha&_&Hnd&_). split; [exact Ha|exact Hnd].
Defined.

Lemma query_bounded_witness : 1 ≤ length [Byte.x01; Byte.x02; Byte.x03].
Proof.
  apply (query_bounded sample_query I ltac:(by_eval) 1 sample_run1 [Byte.x01; Byte.x02; Byte.x03]
    sample_reach1).
  assert (Hall : Forall (λ dp, node_id (pws_peer dp.2) ∈ [Byte.x01; Byte.x02; Byte.x03])
    (cp_peers (qr_cp sample_run1))) by by_eval.
  intros d p Hin. rewrite Forall_forall in Hall. exact (Hall (d, p) Hin).
Defined.

Lemma query_end_condition_witness :
  qr_end sample_run3 = Some Starvation ∧
  Forall (λ p, pws_state p = PSucceeded ∨ pws_state p = PUnreachable)
    (bt_values (cp_peers (qr_cp sample_run3))).
Proof.
  assert (Hend : qr_end sample_run3 = Some Starvation) by (vm_compute; reflexivity).
  split; [exact Hend|].
  exact (proj2 (query_end_condition sample_query 3 sample_run3 sample_reach3) Hend).
Defined.

Lemma query_returns_closest_witness :
  ∃ ps, res_closest_peers (collect_results sample_query (qr_res sample_run1) (qr_cp sample_run1))
    = Some ps ∧ (node_id <$> ps) = [Byte.x01; Byte.x03; Byte.x02] ∧ length ps ≤ 20.
Proof.
  destruct (res_closest_peers (collect_results sample_query (qr_res sample_run1)
    (qr_cp sample_run1))) as [ps|] eqn:Hps.
  - exists ps. split_and!; [done| |].
    + assert (Hv : fmap node_id <$> res_closest_peers (collect_results sample_query
        (qr_res sample_run1) (qr_cp sample_run1)) = Some [Byte.x01; Byte.x03; Byte.x02]) by by_eval.
      rewrite Hps in Hv. by injection Hv.
    + exact (proj1 (query_returns_closest sample_query I ltac:(by_eval) 1 sample_run1 ps
        sample_reach1 Hps)).
  - assert (Hv : is_Some (res_closest_peers (collect_results sample_query (qr_res sample_run1)
      (qr_cp sample_run1)))) by by_eval. rewrite Hps in Hv. by destruct Hv.
Defined.

Lemma get_record_quorum_witness :
  let q := mk_IterativeQuery [Byte.x05] (GetRecord 1 None) Byte.x00 QueryConfig_default [Byte.x01] in
  let r := mk_KRecord [Byte.x05] [] None None in
  ∃ res', handle_result q Byte.x01 None (Some r) QueryResult_empty
      (cp_new (Multiaddr := bytes) [Byte.x05]) = Some (false, res', []).
Proof.
  intros q r.
  destruct (get_record_quorum q Byte.x01 None r QueryResult_empty (cp_new [Byte.x05]) 1 None
    eq_refl) as (res'&Hr&_).
  exists res'. exact Hr.
Defined.
