(* ===== verification/KadCore.v ===== *)
(** * The Kademlia behaviour: [protocols/kad/src/kad.rs]

    The state of a started [Kademlia] and the handlers of its main loop:
    protocol events, requests of remote peers and control commands.  The peer
    store it shares with the swarm is part of the state.  Queries and other
    spawned tasks are effects, as are the answers to callers; [None] is a panic.
    [Instant::now()] and the random peer ids are arguments.  The record store is
    any implementation of [RecordStore].

    The theorems show that no sequence of events and commands panics or breaks
    the invariants of the routing table and of the store, what [try_add_peer]
    may evict, what a remote peer can and cannot change, and that at most one
    refresh is in progress. *)

From Stdlib Require Import ZArith Lia.
From stdpp Require Import strings.
From S2P Require Import Prelude BTree KadKey KBucket KTable RecordStore KadProto KadQuery PeerStore.

(** [protocols/kad/src/addresses.rs] *)
Record PeerInfo := mk_PeerInfo {
  aliveness : option Instant;
  added_at : Instant;
  permanent : bool
}.

#[global] Instance PeerInfo_eq_dec : EqDecision PeerInfo.
Proof. solve_decision. Defined.

Definition PeerInfo_new (now : Instant) (alive perm : bool) : PeerInfo :=
  mk_PeerInfo (if alive then Some now else None) now perm.

Definition set_aliveness (a : option Instant) (i : PeerInfo) : PeerInfo :=
  mk_PeerInfo a (added_at i) (permanent i).

(** The order of [Option<Instant>]: [None] comes first. *)
Definition aliveness_ltb (a b : option Instant) : bool :=
  match a, b with
  | None, Some _ => true
  | Some x, Some y => (x <? y)%Z
  | _, _ => false
  end.

(** Not permanent, and not known to be alive within [timeout]. *)
Definition is_stale (now : Instant) (timeout : Duration) (i : PeerInfo) : bool :=
  negb (permanent i) &&
  match aliveness i with
  | Some a => (timeout <? now - a)%Z
  | None => true
  end.

Record MessageStats := mk_MessageStats {
  rx_ping : nat;
  rx_find_node : nat;
  rx_get_provider : nat;
  rx_add_provider : nat;
  rx_get_value : nat;
  rx_put_value : nat
}.

Section kad.
Context {PeerId Multiaddr PublicKey TStore : Type}.
Context `{PeerIdType PeerId} `{MultiaddrType Multiaddr} `{PeerIdOrd PeerId} `{Sha256}.
Context `{RecordStore PeerId TStore}.

Local Abbreviation KPeer := (KadPeer PeerId Multiaddr).
Local Abbreviation PKey := (Key PeerId).

Record Kademlia := mk_Kademlia {
  kad_table : KBucketsTable PKey PeerInfo;
  kad_protocol_name : string;
  kad_refreshing : bool;
  kad_query_config : QueryConfig;
  kad_total_refreshes : nat;
  kad_message_rx : MessageStats;
  kad_messengers : gmap PeerId (KadMessenger PeerId);
  kad_connected : gset PeerId;
  kad_record_ttl : Duration;
  kad_provider_ttl : Duration;
  kad_check_interval : Duration;
  kad_local_addrs : list Multiaddr;
  kad_store : TStore;
  kad_peers : PeerStore PeerId Multiaddr PublicKey
}.
Implicit Types (k : Kademlia) (peer : PeerId).

Definition with_table k t : Kademlia :=
  mk_Kademlia t (kad_protocol_name k) (kad_refreshing k) (kad_query_config k)
    (kad_total_refreshes k) (kad_message_rx k) (kad_messengers k) (kad_connected k)
    (kad_record_ttl k) (kad_provider_ttl k) (kad_check_interval k) (kad_local_addrs k)
    (kad_store k) (kad_peers k).

Definition with_store k s : Kademlia :=
  mk_Kademlia (kad_table k) (kad_protocol_name k) (kad_refreshing k) (kad_query_config k)
    (kad_total_refreshes k) (kad_message_rx k) (kad_messengers k) (kad_connected k)
    (kad_record_ttl k) (kad_provider_ttl k) (kad_check_interval k) (kad_local_addrs k)
    s (kad_peers k).

Definition with_peers k ps : Kademlia :=
  mk_Kademlia (kad_table k) (kad_protocol_name k) (kad_refreshing k) (kad_query_config k)
    (kad_total_refreshes k) (kad_message_rx k) (kad_messengers k) (kad_connected k)
    (kad_record_ttl k) (kad_provider_ttl k) (kad_check_interval k) (kad_local_addrs k)
    (kad_store k) ps.

Definition with_refreshing k (b : bool) (refreshes : nat) : Kademlia :=
  mk_Kademlia (kad_table k) (kad_protocol_name k) b (kad_query_config k)
    refreshes (kad_message_rx k) (kad_messengers k) (kad_connected k)
    (kad_record_ttl k) (kad_provider_ttl k) (kad_check_interval k) (kad_local_addrs k)
    (kad_store k) (kad_peers k).

Definition with_stats k (st : MessageStats) : Kademlia :=
  mk_Kademlia (kad_table k) (kad_protocol_name k) (kad_refreshing k) (kad_query_config k)
    (kad_total_refreshes k) st (kad_messengers k) (kad_connected k)
    (kad_record_ttl k) (kad_provider_ttl k) (kad_check_interval k) (kad_local_addrs k)
    (kad_store k) (kad_peers k).

Definition with_connected k (c : gset PeerId) (ms : gmap PeerId (KadMessenger PeerId))
    : Kademlia :=
  mk_Kademlia (kad_table k) (kad_protocol_name k) (kad_refreshing k) (kad_query_config k)
    (kad_total_refreshes k) (kad_message_rx k) ms c
    (kad_record_ttl k) (kad_provider_ttl k) (kad_check_interval k) (kad_local_addrs k)
    (kad_store k) (kad_peers k).

Definition with_local_addrs k (addrs : list Multiaddr) : Kademlia :=
  mk_Kademlia (kad_table k) (kad_protocol_name k) (kad_refreshing k) (kad_query_config k)
    (kad_total_refreshes k) (kad_message_rx k) (kad_messengers k) (kad_connected k)
    (kad_record_ttl k) (kad_provider_ttl k) (kad_check_interval k) addrs
    (kad_store k) (kad_peers k).

(** [with_config], with the default configuration of [KademliaConfig] (in seconds). *)
Definition Kademlia_new (id : PeerId) (store : TStore) : Kademlia :=
  mk_Kademlia (table_new (Key_new id)) "/ipfs/kad/1.0.0" false QueryConfig_default 0
    (mk_MessageStats 0 0 0 0 0 0) ∅ ∅ (36 * 60 * 60) (24 * 60 * 60) (10 * 60) [] store ∅.

Definition local_id k : PeerId := preimage (self_key (kad_table k)).

(** ** The routing table *)

(** A full bucket: the stale node that was seen alive the longest ago. *)
Definition eviction_candidate (now : Instant) (timeout : Duration)
    (b : KBucket PKey PeerInfo) : option (Node PKey PeerInfo) :=
  min_by (λ x y, aliveness_ltb (aliveness (node_value x)) (aliveness (node_value y)))
    (filter (λ n, is_stale now timeout (node_value n)) (nodes b)).

Definition try_add_peer (now : Instant) k peer (queried perm : bool) : option Kademlia :=
  let timeout := kad_check_interval k in
  entry ← table_entry (kad_table k) (Key_new peer);
  match entry with
  | Present e =>
      if queried then
        info ← present_value e;
        e' ← present_set_value e (set_aliveness (Some now) info);
        Some (with_table k (table_commit (kad_table k) e'))
      else Some k
  | Absent e =>
      let info := PeerInfo_new now queried perm in
      match absent_insert e info with
      | (e', true) =>
          Some (with_peers (with_table k (table_commit (kad_table k) e'))
            (ps_pin (kad_peers k) peer))
      | (e', false) =>
          match eviction_candidate now timeout (er_bucket e') with
          | Some candidate =>
              let key := node_key candidate in
              let '(bucket, _) := bucket_remove (er_bucket e') key in
              let peers := ps_unpin (kad_peers k) (preimage key) in
              let '(e'', _) := absent_insert (mk_EntryRef (er_index e') bucket (er_key e')) info in
              Some (with_peers (with_table k (table_commit (kad_table k) e''))
                (ps_pin peers peer))
          | None => Some k
          end
      end
  | SelfEntry => Some k
  end.

Definition try_remove_peer k peer (forced : bool) : option Kademlia :=
  entry ← table_entry (kad_table k) (Key_new peer);
  match entry with
  | Present e =>
      if forced then
        '(e', _) ← present_remove e;
        Some (with_peers (with_table k (table_commit (kad_table k) e'))
          (ps_unpin (kad_peers k) peer))
      else
        info ← present_value e;
        e' ← present_set_value e (set_aliveness None info);
        Some (with_table k (table_commit (kad_table k) e'))
  | _ => Some k
  end.

Definition try_deactivate_peer k peer : option Kademlia :=
  entry ← table_entry (kad_table k) (Key_new peer);
  match entry with
  | Present e =>
      info ← present_value e;
      e' ← present_set_value e (set_aliveness None info);
      Some (with_table k (table_commit (kad_table k) e'))
  | _ => Some k
  end.

(** ** Lookups in the local state *)

Definition connection_ty_of k (id : PeerId) : KadConnectionType :=
  if decide (id ∈ kad_connected k) then Connected else NotConnected.

Definition view_id (v : EntryView PKey PeerInfo) : PeerId := preimage (node_key (ev_node v)).

Definition find_closest k (target : KeyBytes) (source : PeerId) : option (list KPeer) :=
  if decide (target = key_raw (self_key (kad_table k))) then
    Some [mk_KadPeer (local_id k) [] Connected]
  else
    views ← closest (kad_table k) target;
    let ids := view_id <$> views in
    Some ((λ id, mk_KadPeer id (default [] (get_addrs (kad_peers k) id)) (connection_ty_of k id))
      <$> take (q_k_value (kad_query_config k)) (filter (λ id, id ≠ source) ids)).

Definition provider_peers k (key : RKey) (source : option PeerId) : list KPeer :=
  take (q_k_value (kad_query_config k))
    (omap (λ p : ProviderRecord PeerId,
      if bool_decide (source = Some (prov_provider p)) then None
      else
        let id := prov_provider p in
        let addrs :=
          if decide (id = local_id k) then kad_local_addrs k
          else default [] (get_addrs (kad_peers k) id) in
        Some (mk_KadPeer id addrs (connection_ty_of k id)))
    (rs_providers (kad_store k) key)).

(** ** Effects

    A [ReplyTo] is the sender of a one-shot channel. *)

Abbreviation ReplyTo := nat (only parsing).

Inductive KadError :=
  | EStore (e : StoreError)
  | ENoKnownPeers
  | ENotFound
  | EBootstrap
  | ETimeout
  | EInvalidSource (source : PeerId)
  | EClosing (n : nat).

(** What is done with the result of a query. *)
Inductive QueryCallback :=
  | CbLookup (reply : ReplyTo)
  | CbFindPeer (reply : ReplyTo)
  | CbProviders (reply : ReplyTo)
  | CbRecord (reply : ReplyTo)
  | CbPutRecord (record : KRecord PeerId) (reply : ReplyTo)
  | CbProvide (provider : ProviderRecord PeerId) (addrs : list Multiaddr) (reply : ReplyTo)
  | CbRefresh (reply : option ReplyTo).

Inductive KadReply :=
  | RpPeers (r : result KadError (list KPeer))
  | RpPeer (r : result KadError KPeer)
  | RpRecord (r : result KadError (PeerRecord PeerId))
  | RpUnit (r : result KadError unit)
  | RpIds (ids : list PeerId)
  | RpProviderRecords (ps : list (ProviderRecord PeerId)).

Inductive RefreshStage :=
  | RStart (reply : option ReplyTo)
  | RSelfQueryDone (reply : option ReplyTo)
  | RCompleted.

Inductive KadEffect :=
  | SpawnQuery (q : IterativeQuery PeerId Multiaddr) (cb : QueryCallback)
  | SpawnFixed (qt : QueryType PeerId Multiaddr) (peers : list PeerId) (reply : option ReplyTo)
  | SpawnHealthCheck (peers : list PeerId)
  | SpawnRandomWalk (peers : list PeerId) (reply : option ReplyTo)
  | PostRefresh (stage : RefreshStage)
  | SendReply (to : ReplyTo) (r : KadReply)
  | SendResponse (to : ReplyTo)
      (r : result KadError (option (KadResponseMsg PeerId Multiaddr))).

(** ** Queries *)

Definition prepare_iterative_query k (qt : QueryType PeerId Multiaddr) (key : RKey)
    : option (IterativeQuery PeerId Multiaddr) :=
  keys ← closest_keys (kad_table k) (key_raw (Key_new key));
  Some (mk_IterativeQuery key qt (local_id k) (kad_query_config k)
    (preimage <$> take (q_k_value (kad_query_config k)) keys)).

Definition get_closest_peers k (key : RKey) (cb : QueryCallback) : option (list KadEffect) :=
  q ← prepare_iterative_query k GetClosestPeers key;
  Some [SpawnQuery q cb].

Definition find_peer k (peer_id : PeerId) (reply : ReplyTo) : option (list KadEffect) :=
  match get_addrs (kad_peers k) peer_id with
  | Some addrs => Some [SendReply reply (RpPeer (Ok (mk_KadPeer peer_id addrs NotConnected)))]
  | None =>
      q ← prepare_iterative_query k FindPeer (to_bytes peer_id);
      Some [SpawnQuery q (CbFindPeer reply)]
  end.

Definition find_providers k (key : RKey) (count : nat) (reply : ReplyTo)
    : option (list KadEffect) :=
  let peers := provider_peers k key None in
  if negb (Nat.eqb count 0) && Nat.leb count (length peers) then
    Some [SendReply reply (RpPeers (Ok peers))]
  else
    let local := match peers with [] => None | _ => Some peers end in
    q ← prepare_iterative_query k (GetProviders count local) key;
    Some [SpawnQuery q (CbProviders reply)].

Definition get_record k (key : RKey) (reply : ReplyTo) : option (list KadEffect) :=
  let quorum := q_k_value (kad_query_config k) in
  let records :=
    match rs_get (kad_store k) key with
    | Some record => [mk_PeerRecord None record]
    | None => []
    end in
  if Nat.leb quorum (length records) then
    Some [SendReply reply (RpRecord match records with r :: _ => Ok r | [] => Err ENotFound end)]
  else
    let local := match records with [] => None | _ => Some records end in
    q ← prepare_iterative_query k (GetRecord quorum local) key;
    Some [SpawnQuery q (CbRecord reply)].

Definition put_record (now : Instant) k (key : RKey) (value : bytes) (reply : ReplyTo)
    : option (Kademlia * list KadEffect) :=
  let record := KRecord_new now key value true (Some (local_id k)) in
  match rs_put (kad_store k) record with
  | (s, Err e) => Some (with_store k s, [SendReply reply (RpUnit (Err (EStore e)))])
  | (s, Ok _) =>
      let k := with_store k s in
      effects ← get_closest_peers k key (CbPutRecord record reply);
      Some (k, effects)
  end.

Definition remove_record k (key : RKey) : Kademlia :=
  match rs_get (kad_store k) key with
  | Some r =>
      if decide (rec_publisher r = Some (local_id k)) then
        with_store k (rs_remove (kad_store k) key)
      else k
  | None => k
  end.

Definition start_providing (now : Instant) k (key : RKey) (reply : ReplyTo)
    : option (Kademlia * list KadEffect) :=
  let provider := ProviderRecord_new now key (local_id k) true in
  match rs_add_provider (kad_store k) provider with
  | (s, Err e) => Some (with_store k s, [SendReply reply (RpUnit (Err (EStore e)))])
  | (s, Ok _) =>
      let k := with_store k s in
      effects ← get_closest_peers k key (CbProvide provider (kad_local_addrs k) reply);
      Some (k, effects)
  end.

Definition stop_providing k (key : RKey) : Kademlia :=
  with_store k (rs_remove_provider (kad_store k) key (local_id k)).

(** The closures handed to [run]. *)
Definition query_callback (cb : QueryCallback) (r : result KadError (QueryResult PeerId Multiaddr))
    : list KadEffect :=
  let closest := let? res := r in ok_or ENotFound (res_closest_peers res) in
  match cb with
  | CbLookup reply => [SendReply reply (RpPeers closest)]
  | CbFindPeer reply =>
      [SendReply reply (RpPeer (let? res := r in ok_or ENotFound (res_found_peer res)))]
  | CbProviders reply =>
      [SendReply reply (RpPeers (let? res := r in ok_or ENotFound (res_providers res)))]
  | CbRecord reply =>
      match r with
      | Ok res =>
          let record := rs ← res_records res; head rs in
          let caching :=
            match record, res_cache_peers res with
            | Some record, Some peers => [SpawnFixed (PutRecord (prec_record record)) peers None]
            | _, _ => []
            end in
          caching ++ [SendReply reply (RpRecord (ok_or ENotFound record))]
      | Err e => [SendReply reply (RpRecord (Err e))]
      end
  | CbPutRecord record reply =>
      match closest with
      | Err e => [SendReply reply (RpUnit (Err e))]
      | Ok peers => [SpawnFixed (PutRecord record) (node_id <$> peers) (Some reply)]
      end
  | CbProvide provider addrs reply =>
      match closest with
      | Err e => [SendReply reply (RpUnit (Err e))]
      | Ok peers => [SpawnFixed (AddProvider provider addrs) (node_id <$> peers) (Some reply)]
      end
  | CbRefresh reply => [PostRefresh (RSelfQueryDone reply)]
  end.

(** ** Requests of remote peers *)

Definition handle_put_record k (record : KRecord PeerId)
    : Kademlia * result KadError (KadResponseMsg PeerId Multiaddr) :=
  if decide (rec_publisher record = Some (local_id k)) then
    (k, Ok (RspPutValue (rec_key record) (rec_value record)))
  else
    match rs_put (kad_store k) record with
    | (s, Ok _) => (with_store k s, Ok (RspPutValue (rec_key record) (rec_value record)))
    | (s, Err e) => (with_store k s, Err (EStore e))
    end.

Definition handle_add_provider (now : Instant) k (key : RKey) (provider : KPeer) : Kademlia :=
  if decide (node_id provider = local_id k) then k
  else
    let ps := add_addrs now (kad_peers k) (node_id provider) (multiaddrs provider)
      PROVIDER_ADDR_TTL in
    let record := ProviderRecord_new now key (node_id provider) false in
    with_store (with_peers k ps) (rs_add_provider (kad_store k) record).1.

Definition count_request (st : MessageStats) (request : KadRequestMsg PeerId Multiaddr)
    : MessageStats :=
  let '(mk_MessageStats ping find_node get_provider add_provider get_value put_value) := st in
  match request with
  | ReqPing => mk_MessageStats (S ping) find_node get_provider add_provider get_value put_value
  | ReqFindNode _ =>
      mk_MessageStats ping (S find_node) get_provider add_provider get_value put_value
  | ReqGetProviders _ =>
      mk_MessageStats ping find_node (S get_provider) add_provider get_value put_value
  | ReqAddProvider _ _ =>
      mk_MessageStats ping find_node get_provider (S add_provider) get_value put_value
  | ReqGetValue _ =>
      mk_MessageStats ping find_node get_provider add_provider (S get_value) put_value
  | ReqPutValue _ =>
      mk_MessageStats ping find_node get_provider add_provider get_value (S put_value)
  end.

(** The response; [AddProvider] has none. *)
Definition handle_kad_request (now : Instant) k (request : KadRequestMsg PeerId Multiaddr)
    (source : PeerId)
    : option (Kademlia * result KadError (option (KadResponseMsg PeerId Multiaddr))) :=
  let k := with_stats k (count_request (kad_message_rx k) request) in
  match request with
  | ReqPing => Some (k, Ok (Some RspPong))
  | ReqFindNode key =>
      closer ← find_closest k (key_raw (Key_new key)) source;
      Some (k, Ok (Some (RspFindNode closer)))
  | ReqAddProvider key provider =>
      if decide (node_id provider = source) then
        Some (handle_add_provider now k key provider, Ok None)
      else Some (k, Err (EInvalidSource source))
  | ReqGetProviders key =>
      let providers := provider_peers k key (Some source) in
      closer ← find_closest k (key_raw (Key_new key)) source;
      Some (k, Ok (Some (RspGetProviders closer providers)))
  | ReqGetValue key =>
      let record := rs_get (kad_store k) key in
      closer ← find_closest k (key_raw (Key_new key)) source;
      Some (k, Ok (Some (RspGetValue record closer)))
  | ReqPutValue record =>
      let '(k, r) := handle_put_record k record in
      Some (k, let? m := r in Ok (Some m))
  end.

(** ** The refresh of the routing table *)

Definition stale_ids (now : Instant) k (views : list (EntryView PKey PeerInfo)) : list PeerId :=
  view_id <$> filter (λ v, is_stale now (kad_check_interval k) (node_value (ev_node v))) views.

(** [peers_to_check] of [handle_refresh_timer]. *)
Definition peers_to_check (now : Instant) k : option (list PeerId) :=
  views ← closest (kad_table k) (key_raw (self_key (kad_table k)));
  Some (stale_ids now k views).

Definition handle_refresh_timer (now : Instant) k : option (Kademlia * list KadEffect) :=
  peers ← peers_to_check now k;
  Some (k, [SpawnHealthCheck peers]).

(** The health check task: the peers that cannot be connected are reported, and
    a refresh is started. *)
Definition health_check (new_connection : PeerId → bool) (peers : list PeerId)
    : list PeerId * RefreshStage :=
  (filter (λ p, negb (new_connection p)) peers, RStart None).

(** A random id for the bucket [i]: the first of 16 that falls into it, or the
    next one; [random] are the draws for this bucket. *)
Fixpoint random_id_loop (fuel : nat) (self_key : KeyBytes) (i : BucketIndex)
    (random : nat → PeerId) (n : nat) : PeerId :=
  match fuel with
  | 0 => random n
  | S fuel =>
      if bucket_contains i (distance self_key (key_raw (Key_new (random n)))) then random n
      else random_id_loop fuel self_key i random (S n)
  end.

Definition random_id (self_key : KeyBytes) (i : BucketIndex) (random : nat → PeerId) : PeerId :=
  random_id_loop 16 self_key i random 0.

(** The buckets to refresh: at most 16, beyond the first one that is not empty. *)
Definition buckets_to_refresh (t : KBucketsTable PKey PeerInfo) : list BucketIndex :=
  let non_empty i := negb (Nat.eqb (bucket_num_entries (bucket_at t i)) 0) in
  take 16 (drop 1 (drop_while (λ i, negb (non_empty i)) (seq 0 (length (buckets t))))).

Definition handle_refresh_stage k (random : BucketIndex → nat → PeerId) (stage : RefreshStage)
    : option (Kademlia * list KadEffect) :=
  match stage with
  | RStart reply =>
      let refuse := match reply with
                    | Some tx => [SendReply tx (RpUnit (Err EBootstrap))]
                    | None => []
                    end in
      if kad_refreshing k then Some (k, refuse)
      else if Nat.eqb (num_entries (kad_table k)) 0 then Some (k, refuse)
      else
        let k := with_refreshing k true (S (kad_total_refreshes k)) in
        effects ← get_closest_peers k (to_bytes (local_id k)) (CbRefresh reply);
        Some (k, effects)
  | RSelfQueryDone reply =>
      let self := key_raw (self_key (kad_table k)) in
      let peers := (λ i, random_id self i (random i)) <$> buckets_to_refresh (kad_table k) in
      Some (k, [SpawnRandomWalk peers reply])
  | RCompleted => Some (with_refreshing k false (kad_total_refreshes k), [])
  end.

(** ** Events *)

Inductive ProtocolEvent :=
  | EvRefresh (stage : RefreshStage)
  | EvPeerConnected (peer : PeerId)
  | EvPeerDisconnected (peer : PeerId)
  | EvPeerIdentified (peer : PeerId)
  | EvAddressChanged (addrs : list Multiaddr)
  | EvKadPeerFound (peer : PeerId) (queried : bool)
  | EvKadPeerStopped (peer : PeerId)
  | EvGCTimer
  | EvRefreshTimer
  | EvKadRequest (request : KadRequestMsg PeerId Multiaddr) (source : PeerId) (reply : ReplyTo).

Definition handle_peer_connected k peer : Kademlia :=
  with_connected k ({[peer]} ∪ kad_connected k) (kad_messengers k).

Definition handle_peer_disconnected k peer : Kademlia :=
  with_connected k (kad_connected k ∖ {[peer]}) (delete peer (kad_messengers k)).

Definition handle_peer_identified (now : Instant) k peer : option Kademlia :=
  match first_supported_protocol (kad_peers k) peer [kad_protocol_name k] with
  | Some _ => try_add_peer now k peer false false
  | None => Some k
  end.

Definition handle_gc_timer (now : Instant) k : Kademlia :=
  let s := rs_gc_records now (kad_store k) (kad_record_ttl k) in
  with_store k (rs_gc_providers now s (kad_provider_ttl k)).

Definition on_events (now : Instant) k (random : BucketIndex → nat → PeerId) (ev : ProtocolEvent)
    : option (Kademlia * list KadEffect) :=
  match ev with
  | EvPeerConnected peer => Some (handle_peer_connected k peer, [])
  | EvPeerDisconnected peer => Some (handle_peer_disconnected k peer, [])
  | EvPeerIdentified peer => k' ← handle_peer_identified now k peer; Some (k', [])
  | EvAddressChanged addrs =>
      handle_refresh_stage (with_local_addrs k addrs) random (RStart None)
  | EvKadPeerFound peer queried => k' ← try_add_peer now k peer queried false; Some (k', [])
  | EvKadPeerStopped peer => k' ← try_remove_peer k peer false; Some (k', [])
  | EvKadRequest request source reply =>
      '(k', r) ← handle_kad_request now k request source; Some (k', [SendResponse reply r])
  | EvGCTimer => Some (handle_gc_timer now k, [])
  | EvRefreshTimer => handle_refresh_timer now k
  | EvRefresh stage => handle_refresh_stage k random stage
  end.

(** ** Control commands *)

Inductive ControlCommand :=
  | CBootstrap (boot : list (PeerId * Multiaddr)) (reply : option ReplyTo)
  | CAddNode (peer : PeerId) (addrs : list Multiaddr)
  | CRemoveNode (peer : PeerId)
  | CLookup (key : RKey) (reply : ReplyTo)
  | CFindPeer (peer : PeerId) (reply : ReplyTo)
  | CFindProviders (key : RKey) (count : nat) (reply : ReplyTo)
  | CProviding (key : RKey) (reply : ReplyTo)
  | CUnprovide (key : RKey)
  | CPutValue (key : RKey) (value : bytes) (reply : ReplyTo)
  | CGetValue (key : RKey) (reply : ReplyTo)
  | CDumpProviders (key : RKey) (reply : ReplyTo)
  | CNotAddressPeer (reply : ReplyTo)
  | CClosestByBucket (key : RKey) (reply : ReplyTo).

Definition add_node (now : Instant) k peer (addrs : list Multiaddr) : option Kademlia :=
  try_add_peer now (with_peers k (add_addrs now (kad_peers k) peer addrs ADDRESS_TTL))
    peer false true.

Definition remove_node k peer : option Kademlia :=
  try_remove_peer (with_peers k (clear_addrs (kad_peers k) peer)) peer true.

Definition bootstrap (now : Instant) k (boot : list (PeerId * Multiaddr))
    (reply : option ReplyTo) : option (Kademlia * list KadEffect) :=
  k' ← foldl (λ r na, k ← r; add_node now k na.1 [na.2]) (Some k) boot;
  Some (k', [PostRefresh (RStart reply)]).

Definition get_peer_without_addr k : list PeerId :=
  filter (λ id, get_addrs (kad_peers k) id = None)
    ((λ n, preimage (node_key n)) <$> all_nodes (kad_table k)).

Definition on_control_command (now : Instant) k (cmd : ControlCommand)
    : option (Kademlia * list KadEffect) :=
  match cmd with
  | CBootstrap boot reply => bootstrap now k boot reply
  | CAddNode peer addrs => k' ← add_node now k peer addrs; Some (k', [])
  | CRemoveNode peer => k' ← remove_node k peer; Some (k', [])
  | CLookup key reply => effects ← get_closest_peers k key (CbLookup reply); Some (k, effects)
  | CFindPeer peer reply => effects ← find_peer k peer reply; Some (k, effects)
  | CFindProviders key count reply =>
      effects ← find_providers k key count reply; Some (k, effects)
  | CProviding key reply => start_providing now k key reply
  | CUnprovide key => Some (stop_providing k key, [])
  | CPutValue key value reply => put_record now k key value reply
  | CGetValue key reply => effects ← get_record k key reply; Some (k, effects)
  | CDumpProviders key reply =>
      Some (k, [SendReply reply (RpProviderRecords (rs_providers (kad_store k) key))])
  | CNotAddressPeer reply => Some (k, [SendReply reply (RpIds (get_peer_without_addr k))])
  | CClosestByBucket key reply =>
      views ← closest (kad_table k) (key_raw (Key_new key));
      Some (k, [SendReply reply (RpIds (view_id <$> views))])
  end.

(** ** The cache of messengers *)

(** [get_messenger]: the cached one, or a new one from [build]. *)
Definition get_messenger (cache : gmap PeerId (KadMessenger PeerId)) peer
    (build : result KadError (KadMessenger PeerId))
    : gmap PeerId (KadMessenger PeerId) * result KadError (KadMessenger PeerId) :=
  match cache !! peer with
  | Some sender => (delete peer cache, Ok sender)
  | None => (cache, build)
  end.

Definition put_messenger (cache : gmap PeerId (KadMessenger PeerId)) (ms : KadMessenger PeerId)
    : gmap PeerId (KadMessenger PeerId) :=
  let '(again, ms) := messenger_reuse ms in
  if again then
    match cache !! msgr_peer ms with
    | Some _ => cache
    | None => <[msgr_peer ms := ms]> cache
    end
  else cache.
End kad.
Arguments Kademlia _ _ _ _ {_}.

(** ** The nodes of the routing table *)

Section table_nodes.
Context {TKey TVal : Type} `{AsKeyBytes TKey}.
Implicit Types (t : KBucketsTable TKey TVal) (n : Node TKey TVal).

Lemma all_nodes_elem t n : n ∈ all_nodes t ↔ ∃ i b, buckets t !! i = Some b ∧ n ∈ nodes b.
Proof.
  unfold all_nodes. rewrite list_elem_of_bind. split.
  - intros (b&?&[i ?]%list_elem_of_lookup). eauto.
  - intros (i&b&?&?). exists b. split; [done|]. by eapply list_elem_of_lookup_2.
Qed.

Lemma commit_nodes t e b n :
  buckets t !! er_index e = Some b → n ∈ all_nodes (table_commit t e) →
  n ∈ all_nodes t ∨ n ∈ nodes (er_bucket e).
Proof.
  intros Hb (i&b'&Hb'&Hn)%all_nodes_elem. simpl in Hb'.
  apply list_lookup_insert_Some in Hb' as [(?&?&_)|[_ Hb']]; [subst; by right|].
  left. apply all_nodes_elem. eauto.
Qed.

(** Where the nodes of a table come from after an operation. *)
Lemma exec_nodes t op t' n :
  table_wf t → table_exec t op = Some t' → n ∈ all_nodes t' →
  n ∈ all_nodes t ∨
  (∃ key v, op = TInsert key v ∧ n = mk_Node key v) ∨
  (∃ key v n0, op = TUpdate key v ∧ n0 ∈ all_nodes t ∧ n = mk_Node (node_key n0) v).
Proof.
  intros Hwf Hex Hn. destruct op as [key v|key v|key]; simpl in Hex;
    (destruct (table_entry_spec t key Hwf) as [[_ Hen]|(i&b&Hi&Hb&Hbwf&Hen)]; rewrite Hen in Hex;
      simpl in Hex; [simplify_eq; by left|]);
    unfold entry_new in Hex; destruct (bucket_position b key) as [p|] eqn:Hp; simplify_eq;
    try by left.
  - apply (commit_nodes _ _ b) in Hn as [Hn|Hn]; [by left| |by unfold absent_insert, bucket_insert; simpl; case_decide].
    revert Hn. unfold absent_insert, bucket_insert; simpl. case_decide; simpl.
    + intros ?. left. apply all_nodes_elem. eauto.
    + intros [?|?%list_elem_of_singleton]%elem_of_app; [left; apply all_nodes_elem; eauto|].
      right; left. eauto.
  - destruct (bucket_get_mut_Some b key) as (q&n0&Hq&Hk&Hmut); [by eexists|].
    unfold present_set_value in Hex; simpl in Hex. rewrite Hmut in Hex. simplify_eq/=.
    apply (commit_nodes _ _ b) in Hn as [Hn|Hn]; [by left| |done]. simpl in Hn.
    apply list_elem_of_lookup in Hn as [j Hj].
    apply list_lookup_insert_Some in Hj as [(?&?&_)|[_ Hj]].
    + subst. right; right. exists key, v, n0. split_and!; [done| |done]. apply all_nodes_elem.
      exists i, b. split; [done|]. by eapply list_elem_of_lookup_2.
    + left. apply all_nodes_elem. exists i, b. split; [done|]. by eapply list_elem_of_lookup_2.
  - destruct (bucket_remove_present b key p Hp) as (n0&b'&Hrem&_&Hperm).
    unfold present_remove in Hex; simpl in Hex. rewrite Hrem in Hex. simplify_eq/=.
    apply (commit_nodes _ _ b) in Hn as [Hn|Hn]; [by left| |done]. simpl in Hn.
    left. apply all_nodes_elem. exists i, b. split; [done|]. rewrite Hperm. by right.
Qed.

Lemma exec_local_key t op t' : table_exec t op = Some t' → local_key t' = local_key t.
Proof.
  destruct op; simpl; intros (en&_&Hex)%bind_Some; destruct en; simplify_eq/=; try done.
  - by apply fmap_Some in Hex as (?&_&->).
  - by apply fmap_Some in Hex as (?&_&->).
Qed.

Lemma run_local_key t ops t' : table_run t ops = Some t' → local_key t' = local_key t.
Proof.
  unfold table_run. revert t'. induction ops as [|op ops IH] using rev_ind; intros t'.
  { by intros [= ->]. }
  rewrite foldl_app. simpl. intros (t1&Ht1&Hex)%bind_Some.
  apply exec_local_key in Hex as ->. auto.
Qed.

Lemma table_run_app t ops ops' :
  table_run t (ops ++ ops') = t1 ← table_run t ops; table_run t1 ops'.
Proof.
  unfold table_run. rewrite foldl_app. destruct (foldl _ (Some t) ops) as [t1|]; [done|].
  simpl. induction ops' as [|op ops' IH]; [done|]. exact IH.
Qed.

Lemma table_run_singleton t op : table_run t [op] = table_exec t op.
Proof. done. Qed.

(** Removing a node of a bucket. *)
Lemma remove_run t i b c :
  table_wf t → buckets t !! i = Some b → c ∈ nodes b →
  ∃ n p b', bucket_remove b (node_key c) = (b', Some (n, p)) ∧ nodes b ≡ₚ n :: nodes b' ∧
    table_exec t (TRemove (node_key c)) = Some (table_commit t (mk_EntryRef i b' (node_key c))).
Proof.
  intros Hwf Hb Hc. pose proof Hwf as [Hlen Hbwf]. specialize (Hbwf i b Hb).
  destruct (bucket_position b (node_key c)) as [p|] eqn:Hp.
  2: { apply bucket_position_None in Hp as [].
       by apply (list_elem_of_fmap_2 node_bytes _ c). }
  destruct (bucket_remove_present b (node_key c) p Hp) as (n0&b'&Hrem&Hk&Hperm).
  exists n0, p, b'. split; [done|]. split; [done|].
  assert (Hci : BucketIndex_new (table_distance t (as_key (node_key c))) = Some i).
  { apply table_index. destruct Hbwf as (_&_&Hall). rewrite Forall_forall in Hall. by apply Hall. }
  unfold table_exec, table_entry. rewrite Hci, Hb. simpl. unfold entry_new. rewrite Hp. simpl.
  unfold present_remove. simpl. by rewrite Hrem.
Qed.

(** Replacing a node of a full bucket, as two operations. *)
Lemma evict_run t key v i b c :
  table_wf t → BucketIndex_new (table_distance t (as_key key)) = Some i →
  buckets t !! i = Some b → bucket_position b key = None → c ∈ nodes b →
  table_run t [TRemove (node_key c); TInsert key v] =
    Some (table_commit t
      (absent_insert (mk_EntryRef i (bucket_remove b (node_key c)).1 key) v).1).
Proof.
  intros Hwf Hi Hb Hpos Hc. destruct (remove_run t i b c Hwf Hb Hc) as (n0&p0&b'&Hrem&Hperm&He).
  change [TRemove (node_key c); TInsert key v] with ([TRemove (node_key c)] ++ [TInsert key v]).
  rewrite table_run_app, table_run_singleton, He. cbn [mbind option_bind].
  rewrite table_run_singleton, Hrem. unfold table_exec, table_entry.
  change (table_distance (table_commit t _)) with (table_distance t). rewrite Hi. simpl.
  rewrite list_lookup_insert_eq by by eapply lookup_lt_Some. simpl. unfold entry_new.
  replace (bucket_position b' key) with (@None nat).
  - simpl. unfold table_commit, absent_insert; simpl. destruct (bucket_insert b' _); simpl.
    by rewrite list_insert_insert_eq.
  - symmetry. apply bucket_position_None. apply bucket_position_None in Hpos.
    intros Hin. apply Hpos. unfold bucket_keys in *. rewrite Hperm. by right.
Qed.

(** Replacing a node, seen through [table_get]. *)
Lemma evict_get t key v i b c t' :
  table_wf t → BucketIndex_new (table_distance t (as_key key)) = Some i →
  buckets t !! i = Some b → table_get t key = None → c ∈ nodes b →
  table_run t [TRemove (node_key c); TInsert key v] = Some t' →
  ∀ key', table_get t' key' =
    if decide (as_key key = as_key key') then Some v
    else if decide (node_bytes c = as_key key') then None else table_get t key'.
Proof.
  intros Hwf Hi Hb Hnone Hc Hrun key'.
  destruct (remove_run t i b c Hwf Hb Hc) as (n0&p0&b'&_&Hperm&He).
  destruct (table_exec_spec t (TRemove (node_key c)) Hwf) as (t1&Ht1&Hwf1&Hget1).
  change [TRemove (node_key c); TInsert key v] with ([TRemove (node_key c)] ++ [TInsert key v])
    in Hrun. rewrite table_run_app, table_run_singleton, Ht1 in Hrun. cbn [mbind option_bind] in Hrun.
  destruct (table_exec_spec t1 (TInsert key v) Hwf1) as (t2&Ht2&_&Hget2).
  rewrite table_run_singleton, Ht2 in Hrun. injection Hrun as <-.
  assert (Hfull : absent_or_full t1 key = false).
  { rewrite He in Ht1. injection Ht1 as <-. unfold absent_or_full, table_bucket.
    change (table_distance (table_commit t _)) with (table_distance t). rewrite Hi. simpl.
    rewrite list_lookup_insert_eq by by eapply lookup_lt_Some. simpl.
    apply bool_decide_eq_false. apply Permutation_length in Hperm. simpl in Hperm.
    destruct Hwf as [_ Hbwf]. destruct (Hbwf i b Hb) as [Hle _]. lia. }
  rewrite Hget2. cbn [table_spec]. rewrite Hfull, !Hget1. cbn [table_spec].
  unfold node_bytes. case_decide as Hd; [by rewrite decide_True by apply Hd|].
  rewrite (decide_False (P := as_key key = as_key key')); [done|]. intros Heq. apply Hd.
  split_and!; [done| |by intros ?]. by case_decide.
Qed.
End table_nodes.

Section kad_lemmas.
Context {PeerId Multiaddr PublicKey TStore : Type}.
Context `{PeerIdType PeerId} `{MultiaddrType Multiaddr} `{PeerIdOrd PeerId} `{Sha256}.
Context `{RecordStoreLaws PeerId TStore}.

Local Abbreviation Kad := (Kademlia PeerId Multiaddr PublicKey TStore).
Local Abbreviation PKey := (Key PeerId).
Implicit Types (k : Kad) (peer : PeerId) (t : KBucketsTable PKey PeerInfo).

(** Every key of the table is the key of the peer id it carries. *)
Definition keys_canonical t : Prop :=
  local_key t = Key_new (preimage (local_key t)) ∧
  ∀ n, n ∈ all_nodes t → node_key n = Key_new (preimage (node_key n)).

Record kad_inv k : Prop := mk_kad_inv {
  ki_table : table_wf (kad_table k);
  ki_keys : keys_canonical (kad_table k);
  ki_store : rs_wf (kad_store k)
}.

(** The operations on the table a handler performs: keys are those of peer ids. *)
Definition op_canonical (op : @TableOp PKey PeerInfo) : Prop :=
  match op with
  | TInsert key _ => key = Key_new (preimage key)
  | _ => True
  end.

Lemma table_run_canonical t ops t' :
  table_wf t → keys_canonical t → Forall op_canonical ops → table_run t ops = Some t' →
  table_wf t' ∧ keys_canonical t'.
Proof.
  intros Hwf Hc. revert t'. induction ops as [|op ops IH] using rev_ind; intros t' Hops Hrun.
  { injection Hrun as <-. done. }
  apply Forall_app in Hops as [Hops Hop]. rewrite Forall_singleton in Hop.
  rewrite table_run_app in Hrun. apply bind_Some in Hrun as (t1&Ht1&Hrun).
  rewrite table_run_singleton in Hrun. destruct (IH t1 Hops Ht1) as [Hwf1 [Hl Hn1]].
  split.
  - destruct (table_exec_spec t1 op Hwf1) as (t''&?&?&_). congruence.
  - split; [by rewrite (exec_local_key _ _ _ Hrun)|]. intros n Hn.
    destruct (exec_nodes t1 op t' n Hwf1 Hrun Hn) as [?|[(key&v&->&->)|(key&v&n0&->&?&->)]];
      simpl in *; auto.
Qed.

(** The table operations of [try_add_peer]. *)
Definition add_peer_ops (now : Instant) k peer (queried perm : bool) : list (@TableOp PKey PeerInfo) :=
  let key := Key_new peer in
  let t := kad_table k in
  match BucketIndex_new (table_distance t (as_key key)) with
  | None => []
  | Some i =>
      let b := bucket_at t i in
      match bucket_get b key with
      | Some n => if queried then [TUpdate key (set_aliveness (Some now) (node_value n))] else []
      | None =>
          let insert := TInsert key (PeerInfo_new now queried perm) in
          if decide (length (nodes b) = K_VALUE) then
            match eviction_candidate now (kad_check_interval k) b with
            | Some c => [TRemove (node_key c); insert]
            | None => []
            end
          else [insert]
      end
  end.

Lemma try_add_peer_run now k peer queried perm :
  table_wf (kad_table k) →
  ∃ k', try_add_peer now k peer queried perm = Some k' ∧
    table_run (kad_table k) (add_peer_ops now k peer queried perm) = Some (kad_table k') ∧
    kad_store k' = kad_store k ∧ kad_refreshing k' = kad_refreshing k.
Proof.
  intros Hwf. unfold try_add_peer, add_peer_ops.
  destruct (table_entry_spec (kad_table k) (Key_new peer) Hwf) as
    [[Hself ->]|(i&b&Hi&Hb&Hbwf&->)]; simpl.
  { apply table_index_None in Hself. rewrite Hself. by exists k. }
  rewrite Hi. replace (bucket_at (kad_table k) i) with b by (unfold bucket_at; by rewrite Hb).
  unfold entry_new. destruct (bucket_position b (Key_new peer)) as [p|] eqn:Hp.
  - destruct (bucket_get_mut_Some b (Key_new peer)) as (q&n&Hq&Hk&Hmut); [by eexists|].
    assert (Hget : bucket_get b (Key_new peer) = Some n).
    { apply bucket_get_iff; [apply Hbwf|]. split; [by eapply list_elem_of_lookup_2|done]. }
    rewrite Hget. destruct queried; [|by exists k].
    unfold present_value, present_set_value; simpl. rewrite Hmut. simpl. eexists.
    split; [done|]. split; [|done]. rewrite table_run_singleton. unfold table_exec, table_entry.
    rewrite Hi, Hb. simpl. unfold entry_new. rewrite Hp. simpl. unfold present_set_value. simpl.
    by rewrite Hmut.
  - pose proof (proj2 (bucket_get_None b (Key_new peer)) Hp) as Hget. rewrite Hget.
    unfold absent_insert at 1, bucket_insert; simpl. case_decide as Hfull; simpl.
    + destruct (eviction_candidate now (kad_check_interval k) b) as [c|] eqn:Hc; [|by exists k].
      apply min_by_elem, list_elem_of_filter in Hc as [_ Hc].
      pose proof (evict_run (kad_table k) (Key_new peer) (PeerInfo_new now queried perm) i b c
        Hwf Hi Hb Hp Hc) as Hrun.
      destruct (bucket_remove b (node_key c)) as [b' o]. simpl in *.
      destruct (absent_insert _ _) as [e'' ok] eqn:Hins. simpl in Hrun. eexists.
      split; [done|]. split; [exact Hrun|done].
    + eexists. split; [done|]. split; [|done]. rewrite table_run_singleton.
      unfold table_exec, table_entry. rewrite Hi, Hb. simpl. unfold entry_new. rewrite Hp. simpl.
      unfold absent_insert, bucket_insert; simpl. by rewrite decide_False.
Qed.

Lemma add_peer_ops_canonical now k peer queried perm :
  Forall op_canonical (add_peer_ops now k peer queried perm).
Proof. unfold add_peer_ops. repeat case_match; repeat constructor. Qed.

Lemma try_add_peer_inv now k peer queried perm :
  kad_inv k → ∃ k', try_add_peer now k peer queried perm = Some k' ∧ kad_inv k' ∧
    kad_refreshing k' = kad_refreshing k.
Proof.
  intros [Hwf Hkeys Hst].
  destruct (try_add_peer_run now k peer queried perm Hwf) as (k'&Hk'&Hrun&Hs&Href).
  exists k'. split; [done|]. split; [|done].
  destruct (table_run_canonical _ _ _ Hwf Hkeys (add_peer_ops_canonical _ _ _ _ _) Hrun).
  split; [done|done|by rewrite Hs].
Qed.

(** The table operations of [try_remove_peer]. *)
Lemma try_remove_peer_inv k peer forced :
  kad_inv k → ∃ k', try_remove_peer k peer forced = Some k' ∧ kad_inv k' ∧
    kad_refreshing k' = kad_refreshing k.
Proof.
  intros [Hwf Hkeys Hst]. unfold try_remove_peer.
  destruct (table_entry_spec (kad_table k) (Key_new peer) Hwf) as
    [[Hself ->]|(i&b&Hi&Hb&Hbwf&Hen)]; simpl; [by exists k|].
  rewrite Hen. simpl. unfold entry_new in *. destruct (bucket_position b (Key_new peer)) as [p|] eqn:Hp;
    [|by exists k].
  assert (Hop : ∀ op t', op_canonical op → table_exec (kad_table k) op = Some t' →
    table_wf t' ∧ keys_canonical t').
  { intros op t' Hop Hex. apply (table_run_canonical (kad_table k) [op]); [done|done|by constructor|done]. }
  destruct forced.
  - destruct (bucket_remove_present b (Key_new peer) p Hp) as (n&b'&Hrem&_&_).
    unfold present_remove; simpl. rewrite Hrem. simpl. eexists. split; [done|]. split; [|done].
    destruct (Hop (TRemove (Key_new peer)) (table_commit (kad_table k)
      (mk_EntryRef i b' (Key_new peer)))); [done| |by split].
    unfold table_exec. rewrite Hen. simpl. unfold present_remove; simpl. by rewrite Hrem.
  - destruct (bucket_get_mut_Some b (Key_new peer)) as (q&n&Hq&Hk&Hmut); [by eexists|].
    unfold present_value, present_set_value; simpl. rewrite Hmut. simpl. eexists.
    split; [done|]. split; [|done].
    edestruct (Hop (TUpdate (Key_new peer) (set_aliveness None (node_value n)))) as [Hw Hc];
      [exact I| |split; [exact Hw|exact Hc|done]].
    unfold table_exec. rewrite Hen. simpl. unfold present_set_value; simpl. by rewrite Hmut.
Qed.

(** ** The work of a refresh *)

Inductive RefreshWork :=
  | WQuery (reply : option nat)
  | WWalk (reply : option nat).

Definition refresh_work (eff : list (@KadEffect PeerId Multiaddr)) : list RefreshWork :=
  omap (λ e, match e with
             | SpawnQuery _ (CbRefresh reply) => Some (WQuery reply)
             | SpawnRandomWalk _ reply => Some (WWalk reply)
             | _ => None
             end) eff.

(** ** The handlers keep the invariant *)

Lemma closest_spec t (target : KeyBytes) :
  table_wf t →
  ∃ l, closest t target = Some l ∧
    StronglySorted (λ a b, distance target (as_key a) ≤ distance target (as_key b))%Z l ∧
    ∀ v, v ∈ l ↔ ev_node v ∈ all_nodes t.
Proof.
  intros Hwf. eexists. split_and!; [by apply collect_visits|by apply visits_sorted|].
  intros v. rewrite visits_perm by done. rewrite elem_of_app, !list_elem_of_fmap. split.
  - intros [(n&->&?)|Hin]; [done|]. case_decide; [|by apply not_elem_of_nil in Hin].
    apply list_elem_of_fmap in Hin as (n&->&Hn). simpl. apply all_nodes_elem.
    exists 0, (bucket_at t 0). split; [|done]. unfold bucket_at in *.
    destruct (buckets t !! 0); [done|]. by apply not_elem_of_nil in Hn.
  - intros Hv. left. exists (ev_node v). split; [|done]. by destruct v.
Qed.

Lemma closest_keys_Some t (target : KeyBytes) :
  table_wf t → is_Some (closest_keys t target).
Proof. intros Hwf. eexists. by apply collect_visits. Qed.

Lemma find_closest_Some k target source :
  table_wf (kad_table k) → is_Some (find_closest k target source).
Proof.
  intros Hwf. unfold find_closest. case_decide; [eauto|].
  destruct (closest_spec (kad_table k) target Hwf) as (l&->&_). simpl. eauto.
Qed.

Lemma prepare_query_Some k qt key :
  table_wf (kad_table k) → is_Some (prepare_iterative_query k qt key).
Proof.
  intros Hwf. unfold prepare_iterative_query.
  destruct (closest_keys_Some (kad_table k) (key_raw (Key_new key)) Hwf) as [l ->]. simpl. eauto.
Qed.

Lemma get_closest_peers_Some k key cb :
  table_wf (kad_table k) → ∃ q, get_closest_peers k key cb = Some [SpawnQuery q cb].
Proof.
  intros Hwf. unfold get_closest_peers.
  destruct (prepare_query_Some k GetClosestPeers key Hwf) as [q ->]. simpl. eauto.
Qed.

Lemma handle_put_record_store k record :
  (kad_inv k → kad_inv (handle_put_record k record).1) ∧
  kad_refreshing (handle_put_record k record).1 = kad_refreshing k.
Proof.
  unfold handle_put_record. case_decide; [done|].
  pose proof (rs_put_wf (kad_store k) record) as Hput.
  destruct (rs_put (kad_store k) record) as [s [[]|e]]; split; try done;
    intros [? ? Hs]; by split; [..|apply Hput].
Qed.

Lemma handle_kad_request_inv now k request source :
  kad_inv k →
  ∃ k' r, handle_kad_request now k request source = Some (k', r) ∧ kad_inv k' ∧
    kad_refreshing k' = kad_refreshing k.
Proof.
  intros Hinv. pose proof Hinv as [Hwf Hkeys Hst]. unfold handle_kad_request.
  set (k0 := with_stats k _). assert (Hinv0 : kad_inv k0) by by split.
  destruct request as [|key|key|key provider|key|record].
  - by eexists _, _.
  - destruct (find_closest_Some k0 (key_raw (Key_new key)) source Hwf) as [l ->].
    by eexists _, _.
  - destruct (find_closest_Some k0 (key_raw (Key_new key)) source Hwf) as [l ->].
    by eexists _, _.
  - case_decide; [|by eexists _, _]. eexists _, _. split; [done|]. unfold handle_add_provider.
    case_decide; [done|]. split; [|done]. split; [done|done|]. by apply rs_add_provider_wf.
  - destruct (find_closest_Some k0 (key_raw (Key_new key)) source Hwf) as [l ->].
    by eexists _, _.
  - pose proof (handle_put_record_store k0 record) as [Hp Hr].
    destruct (handle_put_record k0 record) as [k' r]. simpl in *. eexists _, _.
    split; [done|]. split; [auto|done].
Qed.

(** [handle_refresh_stage] is total; it starts a query exactly when it sets the
    refreshing flag. *)
Lemma handle_refresh_stage_inv k random stage :
  kad_inv k →
  ∃ k' eff, handle_refresh_stage k random stage = Some (k', eff) ∧ kad_inv k' ∧
    match stage with
    | RStart reply =>
        (k' = k ∧ (kad_refreshing k = true ∨ num_entries (kad_table k) = 0) ∧
          Forall (λ e, ∃ tx, e = SendReply tx (RpUnit (Err EBootstrap))) eff) ∨
        (kad_refreshing k = false ∧ kad_refreshing k' = true ∧
          ∃ q, eff = [SpawnQuery q (CbRefresh reply)])
    | RSelfQueryDone reply => k' = k ∧ ∃ peers, eff = [SpawnRandomWalk peers reply]
    | RCompleted => kad_refreshing k' = false ∧ eff = []
    end.
Proof.
  intros Hinv. pose proof Hinv as [Hwf Hkeys Hst]. destruct stage as [reply|reply|]; simpl.
  - destruct (kad_refreshing k) eqn:Href.
    { eexists _, _. split; [done|]. split; [done|]. left. split_and!; [done|by left|].
      destruct reply; repeat constructor; eauto. }
    destruct (Nat.eqb_spec (num_entries (kad_table k)) 0).
    { eexists _, _. split; [done|]. split; [done|]. left. split_and!; [done|by right|].
      destruct reply; repeat constructor; eauto. }
    set (k0 := with_refreshing k _ _).
    destruct (get_closest_peers_Some k0 (to_bytes (local_id k0)) (CbRefresh reply) Hwf) as [q Hq].
    exists k0, [SpawnQuery q (CbRefresh reply)]. split; [by rewrite Hq|]. split; [by split|].
    right. eauto.
  - eexists _, _. split; [done|]. split; [done|]. eauto.
  - eexists _, _. split; [done|]. split; [by split|done].
Qed.

(** How an event changes the refreshing flag, and the refresh work it starts. *)
Definition event_work k k' (ev : @ProtocolEvent PeerId Multiaddr) (work : list RefreshWork) : Prop :=
  match ev with
  | EvRefresh (RSelfQueryDone reply) =>
      kad_refreshing k' = kad_refreshing k ∧ work = [WWalk reply]
  | EvRefresh RCompleted => kad_refreshing k' = false ∧ work = []
  | _ =>
      (kad_refreshing k' = kad_refreshing k ∧ work = []) ∨
      (kad_refreshing k = false ∧ kad_refreshing k' = true ∧ ∃ reply, work = [WQuery reply])
  end.

Lemma refuse_no_work eff :
  Forall (λ e, ∃ tx, e = SendReply tx (RpUnit (Err EBootstrap))) eff → refresh_work eff = [].
Proof. induction 1 as [|e eff [tx ->] _ IH]; done. Qed.

Lemma on_events_inv now k random ev :
  kad_inv k → ∃ k' eff, on_events now k random ev = Some (k', eff) ∧ kad_inv k' ∧
    event_work k k' ev (refresh_work eff).
Proof.
  intros Hinv. pose proof Hinv as [Hwf Hkeys Hst].
  destruct ev as [stage|peer|peer|peer|addrs|peer queried|peer| | |request source reply];
    cbn [on_events].
  - destruct (handle_refresh_stage_inv k random stage Hinv) as (k'&eff&->&?&Hcase).
    eexists _, _. split; [done|]. split; [done|].
    destruct stage as [reply|reply|]; simpl in *.
    + destruct Hcase as [(->&_&Hr)|(?&?&q&->)]; [left|right; eauto].
      split; [done|by apply refuse_no_work].
    + destruct Hcase as [-> [peers ->]]. done.
    + by destruct Hcase as [? ->].
  - eexists _, _. split; [done|]. split; [by split|by left].
  - eexists _, _. split; [done|]. split; [by split|by left].
  - unfold handle_peer_identified. destruct (first_supported_protocol _ _ _).
    + destruct (try_add_peer_inv now k peer false false Hinv) as (k'&->&?&?).
      eexists _, _. split; [done|]. split; [done|by left].
    + eexists _, _. split; [done|]. split; [done|by left].
  - assert (Hinv' : kad_inv (with_local_addrs k addrs)) by by split.
    destruct (handle_refresh_stage_inv _ random (RStart None) Hinv') as (k'&eff&->&?&Hcase).
    eexists _, _. split; [done|]. split; [done|]. simpl in *.
    destruct Hcase as [(->&_&Hr)|(?&?&q&->)]; [left|right; eauto].
    split; [done|by apply refuse_no_work].
  - destruct (try_add_peer_inv now k peer queried false Hinv) as (k'&->&?&?).
    eexists _, _. split; [done|]. split; [done|by left].
  - destruct (try_remove_peer_inv k peer false Hinv) as (k'&->&?&?).
    eexists _, _. split; [done|]. split; [done|by left].
  - eexists _, _. split; [done|]. split; [|by left]. split; [done|done|].
    by apply rs_gc_providers_wf, rs_gc_records_wf.
  - unfold handle_refresh_timer, peers_to_check.
    destruct (closest_spec (kad_table k) (key_raw (self_key (kad_table k))) Hwf) as (l&->&_).
    eexists _, _. split; [done|]. split; [done|by left].
  - destruct (handle_kad_request_inv now k request source Hinv) as (k'&r&->&?&?).
    eexists _, _. split; [done|]. split; [done|by left].
Qed.

Lemma add_node_inv now k peer addrs :
  kad_inv k → ∃ k', add_node now k peer addrs = Some k' ∧ kad_inv k' ∧
    kad_refreshing k' = kad_refreshing k.
Proof.
  intros [Hwf Hkeys Hst].
  set (k0 := with_peers k (add_addrs now (kad_peers k) peer addrs ADDRESS_TTL)).
  apply (try_add_peer_inv now k0 peer false true). by split.
Qed.

Lemma bootstrap_inv now k boot reply :
  kad_inv k → ∃ k', bootstrap now k boot reply = Some (k', [PostRefresh (RStart reply)]) ∧
    kad_inv k' ∧ kad_refreshing k' = kad_refreshing k.
Proof.
  intros Hinv. unfold bootstrap.
  assert (∃ k', foldl (λ r na, k ← r; add_node now k na.1 [na.2]) (Some k) boot = Some k' ∧
    kad_inv k' ∧ kad_refreshing k' = kad_refreshing k) as (k'&->&?&?); [|simpl; eauto].
  revert k Hinv. induction boot as [|[p a] boot IH]; intros k Hinv; [simpl; eauto|].
  cbn [foldl fst snd mbind option_bind].
  destruct (add_node_inv now k p [a] Hinv) as (k1&->&Hinv1&Href1).
  destruct (IH k1 Hinv1) as (k'&?&?&?). exists k'. split_and!; [done|done|congruence].
Qed.

Lemma on_control_inv now k cmd :
  kad_inv k → ∃ k' eff, on_control_command now k cmd = Some (k', eff) ∧ kad_inv k' ∧
    kad_refreshing k' = kad_refreshing k ∧ refresh_work eff = [].
Proof.
  intros Hinv. pose proof Hinv as [Hwf Hkeys Hst].
  destruct cmd as [boot reply|peer addrs|peer|key reply|peer reply|key count reply|key reply|key|
    key value reply|key reply|key reply|reply|key reply]; cbn [on_control_command].
  - destruct (bootstrap_inv now k boot reply Hinv) as (k'&->&?&?). by eexists _, _.
  - destruct (add_node_inv now k peer addrs Hinv) as (k'&->&?&?). simpl; by eexists _, _.
  - unfold remove_node. set (k0 := with_peers k _).
    assert (Hinv0 : kad_inv k0) by by split.
    destruct (try_remove_peer_inv k0 peer true Hinv0) as (k'&->&?&?). simpl; by eexists _, _.
  - destruct (get_closest_peers_Some k key (CbLookup reply) Hwf) as [q ->]. simpl; by eexists _, _.
  - unfold find_peer. destruct (get_addrs _ peer); [simpl; by eexists _, _|].
    destruct (prepare_query_Some k FindPeer (to_bytes peer) Hwf) as [q ->]. simpl; by eexists _, _.
  - unfold find_providers. case_match; [simpl; by eexists _, _|].
    edestruct (prepare_query_Some k) as [q ->]; [done|]. simpl; by eexists _, _.
  - unfold start_providing. set (pr := ProviderRecord_new _ _ _ _).
    pose proof (rs_add_provider_wf (kad_store k) pr Hst) as Hs'.
    destruct (rs_add_provider (kad_store k) pr) as [s [[]|e]]; simpl in *.
    + set (k0 := with_store k s).
      destruct (get_closest_peers_Some k0 key (CbProvide pr (kad_local_addrs k) reply) Hwf)
        as [q ->]. simpl. eexists _, _. split; [done|]. split; [by split|done].
    + eexists _, _. split; [done|]. split; [by split|done].
  - eexists _, _. split; [done|]. split; [|done]. split; [done|done|].
    by apply rs_remove_provider_wf.
  - unfold put_record. set (r := KRecord_new _ _ _ _ _).
    pose proof (rs_put_wf (kad_store k) r Hst) as Hs'.
    destruct (rs_put (kad_store k) r) as [s [[]|e]]; simpl in *.
    + set (k0 := with_store k s).
      destruct (get_closest_peers_Some k0 key (CbPutRecord r reply) Hwf) as [q ->]. simpl.
      eexists _, _. split; [done|]. split; [by split|done].
    + eexists _, _. split; [done|]. split; [by split|done].
  - unfold get_record. case_match; [simpl; by eexists _, _|].
    edestruct (prepare_query_Some k) as [q ->]; [done|]. simpl; by eexists _, _.
  - by eexists _, _.
  - by eexists _, _.
  - destruct (closest_spec (kad_table k) (key_raw (Key_new key)) Hwf) as (l&->&_). simpl; by eexists _, _.
Qed.

(** ** Runs *)

Inductive KadInput :=
  | InEvent (now : Instant) (random : BucketIndex → nat → PeerId)
      (ev : @ProtocolEvent PeerId Multiaddr)
  | InCommand (now : Instant) (cmd : @ControlCommand PeerId Multiaddr)
  (** The swarm and the queries share the peer store and may write to it. *)
  | InPeerStore (ps : PeerStore PeerId Multiaddr PublicKey).

Definition kad_exec k (inp : KadInput) : option (Kad * list KadEffect) :=
  match inp with
  | InEvent now random ev => on_events now k random ev
  | InCommand now cmd => on_control_command now k cmd
  | InPeerStore ps => Some (with_peers k ps, [])
  end.

Definition kad_run k (inps : list KadInput) : option Kad :=
  foldl (λ r inp, k ← r; fst <$> kad_exec k inp) (Some k) inps.

Lemma kad_exec_inv k inp :
  kad_inv k → ∃ k' eff, kad_exec k inp = Some (k', eff) ∧ kad_inv k'.
Proof.
  intros Hinv. destruct inp as [now random ev|now cmd|ps]; cbn [kad_exec].
  - destruct (on_events_inv now k random ev Hinv) as (k'&eff&->&?&_). eauto.
  - destruct (on_control_inv now k cmd Hinv) as (k'&eff&->&?&_). eauto.
  - eexists _, _. split; [done|]. destruct Hinv. by split.
Qed.

Lemma kad_run_inv k inps : kad_inv k → ∃ k', kad_run k inps = Some k' ∧ kad_inv k'.
Proof.
  unfold kad_run. induction inps as [|inp inps IH] using rev_ind; intros Hinv; [by exists k|].
  destruct (IH Hinv) as (k1&Hk1&Hinv1). rewrite foldl_app, Hk1. simpl.
  destruct (kad_exec_inv k1 inp Hinv1) as (k2&eff&->&?). by exists k2.
Qed.

Lemma Kademlia_new_inv (id : PeerId) (store : TStore) :
  rs_wf store → kad_inv (Kademlia_new id store).
Proof.
  intros Hs. split; [apply table_new_wf| |done]. split; [done|].
  intros n (i&b&[-> _]%lookup_replicate&Hn)%all_nodes_elem. by apply not_elem_of_nil in Hn.
Qed.

(** ** The refreshes in progress *)

(** The events that a task of a refresh posts when it is done. *)
Definition finishes_work (inp : KadInput) : bool :=
  match inp with
  | InEvent _ _ (EvRefresh (RSelfQueryDone _)) | InEvent _ _ (EvRefresh RCompleted) => true
  | _ => false
  end.

Inductive refresh_step : Kad * list RefreshWork → Kad * list RefreshWork → Prop :=
  | rs_input k w inp k' eff :
      finishes_work inp = false → kad_exec k inp = Some (k', eff) →
      refresh_step (k, w) (k', w ++ refresh_work eff)
  | rs_query_done k w w' now random reply k' eff :
      w ≡ₚ WQuery reply :: w' →
      on_events now k random (EvRefresh (RSelfQueryDone reply)) = Some (k', eff) →
      refresh_step (k, w) (k', w' ++ refresh_work eff)
  | rs_walk_done k w w' now random reply k' eff :
      w ≡ₚ WWalk reply :: w' →
      on_events now k random (EvRefresh RCompleted) = Some (k', eff) →
      refresh_step (k, w) (k', w' ++ refresh_work eff).

Definition refresh_inv (s : Kad * list RefreshWork) : Prop :=
  length s.2 = if kad_refreshing s.1 then 1 else 0.

Lemma refresh_step_inv s s' :
  kad_inv s.1 → refresh_inv s → refresh_step s s' → kad_inv s'.1 ∧ refresh_inv s'.
Proof.
  intros Hinv Hr Hstep. unfold refresh_inv in *.
  destruct Hstep as [k w inp k' eff Hfin Hex|k w w' now random reply k' eff Hw Hex|
    k w w' now random reply k' eff Hw Hex]; cbn [fst snd] in *; rewrite length_app.
  - destruct inp as [now random ev|now cmd|ps]; cbn [kad_exec] in Hex.
    + destruct (on_events_inv now k random ev Hinv) as (k1&eff1&Hex1&Hinv1&Hwork).
      rewrite Hex in Hex1. simplify_eq. split; [done|].
      assert (Hcase : (kad_refreshing k1 = kad_refreshing k ∧ refresh_work eff1 = []) ∨
        (kad_refreshing k = false ∧ kad_refreshing k1 = true ∧
          ∃ reply, refresh_work eff1 = [WQuery reply])).
      { destruct ev as [[]| | | | | | | | |]; done. }
      destruct Hcase as [[-> ->]|(Hk&->&reply&->)]; simpl; [lia|]. rewrite Hk in Hr. lia.
    + destruct (on_control_inv now k cmd Hinv) as (k1&eff1&Hex1&Hinv1&Href&Hwork).
      rewrite Hex in Hex1. simplify_eq. split; [done|]. rewrite Hwork, Href. simpl. lia.
    + simplify_eq. split; [destruct Hinv; by split|]. simpl. lia.
  - apply Permutation_length in Hw. simpl in Hw.
    destruct (on_events_inv now k random (EvRefresh (RSelfQueryDone reply)) Hinv)
      as (k1&eff1&Hex1&Hinv1&Href&Hwork).
    rewrite Hex in Hex1. simplify_eq. split; [done|]. rewrite Hwork, Href. simpl. lia.
  - apply Permutation_length in Hw. simpl in Hw.
    destruct (on_events_inv now k random (EvRefresh RCompleted) Hinv)
      as (k1&eff1&Hex1&Hinv1&Href&Hwork).
    rewrite Hex in Hex1. simplify_eq. split; [done|]. rewrite Hwork, Href. simpl.
    destruct (kad_refreshing k); lia.
Qed.

Inductive refresh_reachable (k0 : Kad) : Kad * list RefreshWork → Prop :=
  | rr_start : refresh_reachable k0 (k0, [])
  | rr_step s s' : refresh_reachable k0 s → refresh_step s s' → refresh_reachable k0 s'.

(** ** Adding a peer *)

(** The nodes that share the bucket of [peer]. *)
Definition bucket_of t peer : list (Node PKey PeerInfo) :=
  match BucketIndex_new (table_distance t (as_key (Key_new peer))) with
  | Some i => nodes (bucket_at t i)
  | None => []
  end.

Definition is_fresh (now : Instant) k (n : Node PKey PeerInfo) : Prop :=
  permanent (node_value n) = true ∨
  is_Some (aliveness (node_value n)) ∧
    (now - default 0 (aliveness (node_value n)) ≤ kad_check_interval k)%Z.

#[local] Instance is_fresh_dec now k n : Decision (is_fresh now k n).
Proof. unfold is_fresh. apply _. Defined.

Lemma is_fresh_not_stale now k n :
  is_fresh now k n ↔ is_stale now (kad_check_interval k) (node_value n) = false.
Proof.
  unfold is_fresh, is_stale. destruct (permanent _); [by split; auto|].
  destruct (aliveness _) as [a|]; simpl.
  - rewrite Z.ltb_ge. split; [intros [?|[_ ?]]; done|eauto].
  - split; [by intros [?|[[] ?]]|done].
Qed.

(** What [try_add_peer] leaves at the key of the peer. *)
Definition add_peer_spec (now : Instant) k peer (queried perm : bool) : option PeerInfo :=
  match table_get (kad_table k) (Key_new peer) with
  | Some info => Some (if queried then set_aliveness (Some now) info else info)
  | None =>
      if decide (key_raw (self_key (kad_table k)) = key_raw (Key_new peer)) then None
      else if decide (length (bucket_of (kad_table k) peer) = K_VALUE ∧
                      Forall (is_fresh now k) (bucket_of (kad_table k) peer)) then None
      else Some (PeerInfo_new now queried perm)
  end.

Lemma eviction_candidate_None now k b :
  eviction_candidate now (kad_check_interval k) b = None ↔ Forall (is_fresh now k) (nodes b).
Proof.
  unfold eviction_candidate. rewrite min_by_None.
  setoid_rewrite Forall_forall. setoid_rewrite is_fresh_not_stale. split.
  - intros Hnil n Hn. destruct (is_stale _ _ _) eqn:Hst; [|done].
    assert (Hin : n ∈ @nil (Node PKey PeerInfo)); [|by apply not_elem_of_nil in Hin].
    rewrite <-Hnil. apply list_elem_of_filter. by rewrite Hst.
  - intros Hall. apply filter_none. intros n Hn. pose proof (Hall n Hn) as Hf; simpl in Hf; rewrite Hf; by intros ?.
Qed.

Lemma add_peer_ops_effect now k peer queried perm t' :
  table_wf (kad_table k) →
  table_run (kad_table k) (add_peer_ops now k peer queried perm) = Some t' →
  table_get t' (Key_new peer) = add_peer_spec now k peer queried perm ∧
    ∀ key, as_key key ≠ as_key (Key_new peer) →
      table_get t' key = table_get (kad_table k) key ∨
      (table_get t' key = None ∧
       length (bucket_of (kad_table k) peer) = K_VALUE ∧
       ∃ n, n ∈ bucket_of (kad_table k) peer ∧ node_bytes n = as_key key ∧ ¬ is_fresh now k n).
Proof.
  intros Hwf. unfold add_peer_ops, add_peer_spec, bucket_of.
  destruct (BucketIndex_new _) as [i|] eqn:Hi.
  2: { intros [= <-]. apply table_index_None in Hi. rewrite table_get_self by done.
       rewrite decide_True by done. split; [done|by left]. }
  rewrite (decide_False (P := key_raw (self_key _) = _)).
  2: { intros Heq. pose proof (proj2 (table_index_None _ _) Heq) as Hi'.
       change (BucketIndex_new (table_distance (kad_table k) (as_key (Key_new peer))) = None) in Hi'.
       congruence. }
  destruct (table_index_bucket _ _ _ Hwf Hi) as (b&Hb&_).
  rewrite (table_get_bucket _ _ _ _ Hi Hb).
  replace (bucket_at (kad_table k) i) with b by (unfold bucket_at; by rewrite Hb).
  pose proof (table_get_bucket _ _ _ _ Hi Hb) as Hget.
  destruct (bucket_get b (Key_new peer)) as [n|]; cbn [fmap option_fmap option_map] in *.
  - destruct queried; [|intros [= <-]; split; [done|by left]].
    rewrite table_run_singleton. intros Hex.
    pose proof (table_exec_get _ _ _ Hwf Hex) as Hspec. split; [|intros key Hne; left]; rewrite Hspec;
      cbn [table_spec]; rewrite Hget.
    + by rewrite decide_True by (split; [done|eauto]).
    + rewrite decide_False; [done|]. by intros [].
  - case_decide as Hfull.
    + destruct (eviction_candidate now _ b) as [c|] eqn:Hc.
      * assert (Hnf : ¬ Forall (is_fresh now k) (nodes b)).
        { rewrite <-eviction_candidate_None, Hc. done. }
        rewrite decide_False by (by intros []).
        apply min_by_elem, list_elem_of_filter in Hc as [Hst Hc]. intros Hrun.
        pose proof (evict_get _ _ _ _ _ _ _ Hwf Hi Hb Hget Hc Hrun) as Heff.
        split; [by rewrite Heff, decide_True|]. intros key Hne. rewrite Heff.
        rewrite decide_False by done. case_decide; [right|by left]. split; [done|]. split; [done|].
        exists c. split; [done|]. split; [done|]. rewrite is_fresh_not_stale. by destruct (is_stale _ _ _).
      * apply eviction_candidate_None in Hc. rewrite decide_True by done.
        intros [= <-]. split; [done|by left].
    + rewrite decide_False by (by intros []). rewrite table_run_singleton. intros Hex.
      pose proof (table_exec_get _ _ _ Hwf Hex) as Hspec.
      assert (Haf : absent_or_full (kad_table k) (Key_new peer) = false).
      { unfold absent_or_full, table_bucket. rewrite Hi. simpl. rewrite Hb. simpl.
        by apply bool_decide_eq_false. }
      split; [|intros key Hne; left]; rewrite Hspec; cbn [table_spec]; rewrite Hget, Haf.
      * rewrite decide_True; [done|]. split_and!; [done|done|by intros ?].
      * rewrite decide_False; [done|]. by intros [? _].
Qed.

(** ** Answers to remote peers *)

(** What a response says about a known peer. *)
Definition known_peer k (id : PeerId) : KadPeer PeerId Multiaddr :=
  mk_KadPeer id (default [] (get_addrs (kad_peers k) id)) (connection_ty_of k id).

Lemma find_closest_eq k target source :
  kad_inv k → target ≠ key_raw (self_key (kad_table k)) →
  ∃ ids, find_closest k target source =
      Some (known_peer k <$> take (q_k_value (kad_query_config k)) ids) ∧
    StronglySorted (λ a b : PeerId,
      distance target (key_raw (Key_new a)) ≤ distance target (key_raw (Key_new b)))%Z ids ∧
    ∀ id, id ∈ ids ↔ id ≠ source ∧ ∃ n, n ∈ all_nodes (kad_table k) ∧ preimage (node_key n) = id.
Proof.
  intros [Hwf [_ Hkeys] _] Hne. unfold find_closest. rewrite decide_False by done.
  destruct (closest_spec (kad_table k) target Hwf) as (l&->&Hs&Hel). cbn [mbind option_bind default].
  exists (filter (λ id, id ≠ source) (view_id <$> l)). split_and!.
  - done.
  - apply StronglySorted_filter, (StronglySorted_fmap _ view_id).
    eapply StronglySorted_impl_elem; [exact Hs|]. intros a b Ha Hb Hab.
    apply Hel, Hkeys in Ha. apply Hel, Hkeys in Hb.
    assert (Hk : ∀ v : EntryView PKey PeerInfo, node_key (ev_node v) = Key_new (preimage (node_key (ev_node v))) →
      key_raw (Key_new (view_id v)) = as_key v).
    { intros v Hv. unfold view_id. by rewrite <-Hv. }
    by rewrite !Hk.
  - intros id. rewrite list_elem_of_filter, list_elem_of_fmap. split.
    + intros [? (v&->&Hv)]. split; [done|]. exists (ev_node v). by rewrite <-Hel.
    + intros [? (n&Hn&<-)]. split; [done|]. exists (mk_EntryView n). by rewrite Hel.
Qed.

Lemma handle_kad_request_cases now k request source :
  kad_inv k →
  ∃ k' r, handle_kad_request now k request source = Some (k', r) ∧
    kad_table k' = kad_table k ∧ kad_refreshing k' = kad_refreshing k ∧
    (kad_store k' = kad_store k ∨
     (∃ record, request = ReqPutValue record ∧ rec_publisher record ≠ Some (local_id k) ∧
        kad_store k' = (rs_put (kad_store k) record).1) ∨
     (∃ key provider, request = ReqAddProvider key provider ∧ node_id provider = source ∧
        node_id provider ≠ local_id k ∧
        kad_store k' = (rs_add_provider (kad_store k)
          (ProviderRecord_new now key (node_id provider) false)).1)).
Proof.
  intros [Hwf _ _]. unfold handle_kad_request. set (k0 := with_stats k _).
  destruct request as [|key|key|key provider|key|record].
  - eexists _, _. split; [done|]. eauto.
  - destruct (find_closest_Some k0 (key_raw (Key_new key)) source Hwf) as [l ->].
    eexists _, _. split; [done|]. eauto.
  - destruct (find_closest_Some k0 (key_raw (Key_new key)) source Hwf) as [l ->].
    eexists _, _. split; [done|]. eauto.
  - case_decide as Hsrc; [|eexists _, _; split; [done|]; eauto].
    eexists _, _. split; [done|]. unfold handle_add_provider.
    case_decide; [by eauto|]. split; [done|]. split; [done|]. right; right.
    exists key, provider. done.
  - destruct (find_closest_Some k0 (key_raw (Key_new key)) source Hwf) as [l ->].
    eexists _, _. split; [done|]. eauto.
  - unfold handle_put_record. case_decide; [eexists _, _; split; [done|]; eauto|].
    change (kad_store k0) with (kad_store k).
    destruct (rs_put (kad_store k) record) as [s [[]|e]] eqn:Hput; eexists _, _; (split; [done|]);
      (split; [done|]); (split; [done|]); right; left; exists record; by rewrite Hput.
Qed.

(** ** Properties *)

(** [C3] The main loop never panics.  From a new [Kademlia] over a well-formed
    store, every sequence of protocol events, requests of remote peers, control
    commands and concurrent writes to the peer store is handled, and keeps the
    invariants: the routing table satisfies [table_wf], its keys are those of
    the peers they carry, and the store stays well-formed. *)
Theorem kad_loop_safe (id : PeerId) (store : TStore) (inps : list KadInput)
    (Hs : rs_wf store) :
  ∃ k, kad_run (Kademlia_new id store) inps = Some k ∧
    table_wf (kad_table k) ∧ keys_canonical (kad_table k) ∧ rs_wf (kad_store k).
Proof.
  destruct (kad_run_inv (Kademlia_new id store) inps (Kademlia_new_inv id store Hs))
    as (k&?&[]). eauto.
Qed.

(** [C15] Adding a peer to the routing table.  The call succeeds.  The entry of
    the peer afterwards is [add_peer_spec]: a known peer is only marked alive,
    and only when it answered a query; the local peer is never added; an unknown
    peer is added unless its bucket is full of fresh nodes, that is of nodes
    that are permanent or were seen within the check interval.  Every other entry
    is unchanged, except that one of the peer's full bucket that is not fresh may
    be gone. *)
Theorem try_add_peer_effect now k peer queried perm (Hinv : kad_inv k) :
  ∃ k', try_add_peer now k peer queried perm = Some k' ∧
    table_get (kad_table k') (Key_new peer) = add_peer_spec now k peer queried perm ∧
    ∀ key, as_key key ≠ as_key (Key_new peer) →
      table_get (kad_table k') key = table_get (kad_table k) key ∨
      (table_get (kad_table k') key = None ∧
       length (bucket_of (kad_table k) peer) = K_VALUE ∧
       ∃ n, n ∈ bucket_of (kad_table k) peer ∧ node_bytes n = as_key key ∧ ¬ is_fresh now k n).
Proof.
  pose proof Hinv as [Hwf _ _].
  destruct (try_add_peer_run now k peer queried perm Hwf) as (k'&Hk'&Hrun&_).
  exists k'. split; [done|]. by apply add_peer_ops_effect.
Qed.

(** [C31] The closest peers sent to a remote peer, for a target other than the
    local key: at most [k_value] entries in increasing distance to the target,
    none of them the source of the request, all of them in the routing table;
    and a peer of the table that is left out is at least as far from the target
    as all of the [k_value] that are sent. *)
Theorem find_closest_answers k target source (Hinv : kad_inv k)
    (Hne : target ≠ key_raw (self_key (kad_table k))) :
  ∃ ids, find_closest k target source = Some (known_peer k <$> ids) ∧
    length ids ≤ q_k_value (kad_query_config k) ∧
    StronglySorted (λ a b : PeerId,
      distance target (key_raw (Key_new a)) ≤ distance target (key_raw (Key_new b)))%Z ids ∧
    (∀ id, id ∈ ids → id ≠ source ∧
      ∃ n, n ∈ all_nodes (kad_table k) ∧ preimage (node_key n) = id) ∧
    (∀ n, n ∈ all_nodes (kad_table k) → preimage (node_key n) ≠ source →
      preimage (node_key n) ∉ ids →
      length ids = q_k_value (kad_query_config k) ∧
      ∀ id, id ∈ ids → (distance target (key_raw (Key_new id)) ≤
        distance target (key_raw (Key_new (preimage (node_key n)))))%Z).
Proof.
  destruct (find_closest_eq k target source Hinv Hne) as (ids&->&Hs&Hel).
  eexists. split; [done|]. split_and!.
  - rewrite length_take. lia.
  - by apply StronglySorted_take.
  - intros id Hid%elem_of_take_elem. by apply Hel.
  - intros n Hn Hsrc Hout. assert (Hin : preimage (node_key n) ∈ ids) by (apply Hel; eauto).
    by apply (sorted_take_rest _ _ _ _ Hs).
Qed.


(** At most one refresh of the routing table is in progress: in every run in
    which the stages of a refresh are posted by the tasks it started, there is
    exactly one such task while the flag is set and none while it is not. *)
Theorem refresh_exclusive (id : PeerId) (store : TStore) (k : Kad) (work : list RefreshWork)
    (Hs : rs_wf store) (Hr : refresh_reachable (Kademlia_new id store) (k, work)) :
  length work = if kad_refreshing k then 1 else 0.
Proof.
  assert (Hinv : kad_inv (k, work).1 ∧ refresh_inv (k, work)); [|apply Hinv].
  induction Hr as [|s s' Hr IH Hstep]; [split; [by apply Kademlia_new_inv|done]|].
  destruct IH. by eapply refresh_step_inv.
Qed.
End kad_lemmas.

(** ** Witnesses *)

#[local] Existing Instance byte_PeerIdType.
#[local] Existing Instance bytes_MultiaddrType.
#[local] Existing Instance toy_sha256.
#[local] Existing Instance byte_ord.

Abbreviation SampleKad := (Kademlia u8 bytes unit (MemoryStore u8)).

Definition sample_kad0 : SampleKad := Kademlia_new Byte.x00 (MemoryStore_new Byte.x00).

Lemma sample_store_wf : rs_wf (kad_store sample_kad0).
Proof. apply with_config_wf. Qed.

(** Three peers are added and a refresh is started. *)
Definition sample_inputs : list (@KadInput u8 bytes unit _) :=
  [InCommand 0 (CAddNode Byte.x02 [[Byte.x01]]);
   InEvent 1 (λ _ _, Byte.x00) (EvKadPeerFound Byte.x04 true);
   InEvent 1 (λ _ _, Byte.x00) (EvKadPeerFound Byte.x05 false)].

Definition sample_kad1 : SampleKad := default sample_kad0 (kad_run sample_kad0 sample_inputs).

Lemma sample_kad1_run : kad_run sample_kad0 sample_inputs = Some sample_kad1.
Proof. apply default_is_Some. by_eval. Qed.

Lemma sample_kad1_inv : kad_inv sample_kad1.
Proof.
  destruct (kad_run_inv sample_kad0 sample_inputs (Kademlia_new_inv _ _ sample_store_wf))
    as (k&Hk&Hinv). rewrite sample_kad1_run in Hk. by injection Hk as ->.
Qed.

Lemma kad_loop_safe_witness :
  table_wf (kad_table sample_kad1) ∧ num_entries (kad_table sample_kad1) = 3.
Proof.
  destruct (kad_loop_safe Byte.x00 (MemoryStore_new Byte.x00) sample_inputs sample_store_wf)
    as (k&Hk&Hwf&_).
  assert (Hk1 : Some k = Some sample_kad1) by (rewrite <-Hk; exact sample_kad1_run).
  injection Hk1 as ->. split; [exact Hwf|by_eval].
Defined.

Lemma try_add_peer_effect_witness :
  ∃ k', try_add_peer 700 sample_kad1 Byte.x05 true false = Some k' ∧
    table_get (kad_table k') (Key_new Byte.x05) = Some (mk_PeerInfo (Some 700%Z) 1 false).
Proof.
  destruct (try_add_peer_effect 700 sample_kad1 Byte.x05 true false sample_kad1_inv)
    as (k'&Hk'&Hget&_).
  exists k'. split; [exact Hk'|]. rewrite Hget. by_eval.
Defined.

Lemma find_closest_answers_witness :
  ∃ ids, find_closest sample_kad1 (key_of_Z 7) Byte.x02 = Some (known_peer sample_kad1 <$> ids) ∧
    length ids ≤ 20.
Proof.
  destruct (find_closest_answers sample_kad1 (key_of_Z 7) Byte.x02 sample_kad1_inv
    ltac:(by_eval)) as (ids&Hf&Hlen&_).
  exists ids. split; [exact Hf|exact Hlen].
Defined.


(** A refresh that was started: its query is the work in progress. *)
Definition sample_step (k : SampleKad) inp : SampleKad * list (@KadEffect u8 bytes) :=
  default (k, []) (kad_exec k inp).

Definition sample_kad2 : SampleKad := (sample_step sample_kad0 (InCommand 0 (CAddNode Byte.x02 []))).1.
Definition sample_kad3 : SampleKad * list (@KadEffect u8 bytes) :=
  sample_step sample_kad2 (InEvent 1 (λ _ _, Byte.x00) (EvRefresh (RStart None))).

Lemma sample_step_reachable k w inp :
  refresh_reachable sample_kad0 (k, w) → finishes_work inp = false → is_Some (kad_exec k inp) →
  refresh_reachable sample_kad0 ((sample_step k inp).1, w ++ refresh_work (sample_step k inp).2).
Proof.
  intros Hr Hf [[k' eff] Hex]. eapply rr_step; [exact Hr|]. unfold sample_step. rewrite Hex.
  by eapply rs_input.
Qed.

Lemma sample_refreshing : refresh_reachable sample_kad0 (sample_kad3.1, [WQuery None]).
Proof.
  change [WQuery None] with ([] ++ [WQuery None]).
  assert (Hw : refresh_work sample_kad3.2 = [WQuery None]) by (vm_compute; reflexivity).
  rewrite <-Hw. apply sample_step_reachable; [|done|by_eval].
  assert (Hw2 : [] ++ refresh_work (sample_step sample_kad0 (InCommand 0 (CAddNode Byte.x02 []))).2 = [])
    by (vm_compute; reflexivity).
  rewrite <-Hw2. apply sample_step_reachable; [constructor|done|by_eval].
Qed.

Lemma refresh_exclusive_witness : kad_refreshing sample_kad3.1 = true ∧
  length [WQuery None] = if kad_refreshing sample_kad3.1 then 1 else 0.
Proof.
  split; [vm_compute; reflexivity|].
  exact (refresh_exclusive Byte.x00 (MemoryStore_new Byte.x00) sample_kad3.1 [WQuery None]
    sample_store_wf sample_refreshing).
Defined.
