(* ===== verification/StdText.v ===== *)
(** * Text of the standard library

    What the parsers and printers of the repository use of Rust's standard
    library (version 1.68, as the tool chain file fixes): UTF-8 validation,
    splitting at a character, the decimal text of unsigned integers, and the
    text of IP addresses, [core::net::parser] with its back-tracking and the
    compressed notation of [Ipv6Addr].  A string is the list of its bytes. *)

From Stdlib Require Import ZArith Lia.
From S2P Require Import Prelude.

(** ** UTF-8: [core::str::from_utf8] *)

Definition in_range (lo hi : Z) (b : u8) : bool :=
  ((lo <=? byte.unsigned b) && (byte.unsigned b <=? hi))%Z.

Definition utf8_two (a b : u8) : bool := in_range 0xC2 0xDF a && in_range 0x80 0xBF b.

Definition utf8_three (a b c : u8) : bool :=
  ((in_range 0xE0 0xE0 a && in_range 0xA0 0xBF b) ||
   (in_range 0xE1 0xEC a && in_range 0x80 0xBF b) ||
   (in_range 0xED 0xED a && in_range 0x80 0x9F b) ||
   (in_range 0xEE 0xEF a && in_range 0x80 0xBF b)) && in_range 0x80 0xBF c.

Definition utf8_four (a b c d : u8) : bool :=
  ((in_range 0xF0 0xF0 a && in_range 0x90 0xBF b) ||
   (in_range 0xF1 0xF3 a && in_range 0x80 0xBF b) ||
   (in_range 0xF4 0xF4 a && in_range 0x80 0x8F b)) && in_range 0x80 0xBF c && in_range 0x80 0xBF d.

Fixpoint utf8_valid (s : bytes) : bool :=
  match s with
  | [] => true
  | a :: s1 =>
      if in_range 0 0x7F a then utf8_valid s1
      else
        match s1 with
        | b :: s2 =>
            if utf8_two a b then utf8_valid s2
            else
              match s2 with
              | c :: s3 =>
                  if utf8_three a b c then utf8_valid s3
                  else
                    match s3 with
                    | d :: s4 => utf8_four a b c d && utf8_valid s4
                    | [] => false
                    end
              | [] => false
              end
        | [] => false
        end
  end.

(** [str::split] at a character of one byte: always at least one piece. *)
Fixpoint split_char (c : u8) (s : bytes) : list bytes :=
  match s with
  | [] => [[]]
  | b :: s =>
      if decide (b = c) then [] :: split_char c s
      else
        match split_char c s with
        | p :: ps => (b :: p) :: ps
        | [] => [[b]]
        end
  end.

(** ** Integers *)

(** [char::to_digit], for a radix of at most 16. *)
Definition to_digit (radix : Z) (b : u8) : option Z :=
  let v := byte.unsigned b in
  let d :=
    if in_range 48 57 b then Some (v - 48)%Z
    else if in_range 97 102 b then Some (v - 87)%Z
    else if in_range 65 70 b then Some (v - 55)%Z
    else None in
  match d with
  | Some d => if (d <? radix)%Z then Some d else None
  | None => None
  end.

Definition from_digit (d : Z) : u8 := byte.of_Z (if (d <? 10)%Z then d + 48 else d + 87)%Z.

(** The text of [{}] and [{:x}]; 64 digits are enough for every integer of 64
    bits. *)
Fixpoint fmt_loop (radix : Z) (fuel : nat) (n : Z) : bytes :=
  match fuel with
  | 0 => []
  | S fuel =>
      if (n <? radix)%Z then [from_digit n]
      else fmt_loop radix fuel (n / radix) ++ [from_digit (n mod radix)]
  end.

Definition fmt_dec (n : Z) : bytes := fmt_loop 10 64 n.
Definition fmt_hex (n : Z) : bytes := fmt_loop 16 64 n.

(** [u16::from_str], [u64::from_str]: an optional plus sign and digits, with
    checked arithmetic. *)
Fixpoint parse_digits (max acc : Z) (s : bytes) : option Z :=
  match s with
  | [] => Some acc
  | b :: s =>
      d ← to_digit 10 b;
      if (max <? acc * 10 + d)%Z then None else parse_digits max (acc * 10 + d) s
  end.

Definition parse_uint (bits : Z) (s : bytes) : option Z :=
  let max := (2 ^ bits - 1)%Z in
  match s with
  | [] => None
  | b :: s' =>
      if decide (b = Byte.x2b) then match s' with [] => None | _ => parse_digits max 0 s' end
      else parse_digits max 0 s
  end.

(** ** IP addresses: [core::net::parser] *)

Record Ipv4Addr := Ipv4 { octet0 : u8; octet1 : u8; octet2 : u8; octet3 : u8 }.
Record Ipv6Addr := Ipv6 { segments : list Z }.

#[global] Instance ipv4_eq_decision : EqDecision Ipv4Addr.
Proof. solve_decision. Defined.
#[global] Instance ipv6_eq_decision : EqDecision Ipv6Addr.
Proof. solve_decision. Defined.

Definition octets (a : Ipv4Addr) : bytes := [octet0 a; octet1 a; octet2 a; octet3 a].

Definition ipv6_wf (a : Ipv6Addr) : Prop :=
  length (segments a) = 8 ∧ Forall (λ g, 0 ≤ g < 2 ^ 16)%Z (segments a).

(** A parser: what it read and the rest of the input; [read_atomically] resets
    the input of a parser that fails. *)
Definition Parser (A : Type) : Type := bytes → option (A * bytes).

Definition read_given_char (c : u8) : Parser unit := λ s,
  match s with
  | b :: s => if decide (b = c) then Some (tt, s) else None
  | [] => None
  end.

Fixpoint read_number_loop (radix : Z) (max_digits : nat) (max : Z) (result : Z) (digit_count : nat)
    (s : bytes) : option (Z * nat * bytes) :=
  match s with
  | b :: s' =>
      match to_digit radix b with
      | Some digit =>
          if (max <? result * radix)%Z then None
          else if (max <? result * radix + digit)%Z then None
          else if decide (max_digits < S digit_count) then None
          else read_number_loop radix max_digits max (result * radix + digit) (S digit_count) s'
      | None => Some (result, digit_count, s)
      end
  | [] => Some (result, digit_count, s)
  end.

Definition read_number (radix : Z) (max_digits : nat) (allow_zero_prefix : bool) (max : Z) :
    Parser Z := λ s,
  match read_number_loop radix max_digits max 0 0 s with
  | Some (result, digit_count, s') =>
      if decide (digit_count = 0) then None
      else if decide (allow_zero_prefix = false ∧ head s = Some Byte.x30 ∧ 1 < digit_count) then None
      else Some (result, s')
  | None => None
  end.

Definition read_separator {A} (sep : u8) (index : nat) (inner : Parser A) : Parser A := λ s,
  match index with
  | 0 => inner s
  | S _ => '(_, s) ← read_given_char sep s; inner s
  end.

Fixpoint read_octets (todo index : nat) : Parser (list Z) := λ s,
  match todo with
  | 0 => Some ([], s)
  | S todo =>
      '(o, s) ← read_separator Byte.x2e index (read_number 10 3 false 255) s;
      '(os, s) ← read_octets todo (S index) s;
      Some (o :: os, s)
  end.

Definition read_ipv4_addr : Parser Ipv4Addr := λ s,
  '(os, s) ← read_octets 4 0 s;
  match os with
  | [a; b; c; d] => Some (Ipv4 (byte.of_Z a) (byte.of_Z b) (byte.of_Z c) (byte.of_Z d), s)
  | _ => None
  end.

Definition hi_group (a : Ipv4Addr) : Z := be_combine [octet0 a; octet1 a].
Definition lo_group (a : Ipv4Addr) : Z := be_combine [octet2 a; octet3 a].

(** [read_groups]: the groups read into the slots left, and whether the last two
    are an embedded IPv4 address. *)
Fixpoint read_groups (todo index : nat) (s : bytes) : list Z * bool * bytes :=
  match todo with
  | 0 => ([], false, s)
  | S todo =>
      match (if decide (0 < todo) then read_separator Byte.x3a index read_ipv4_addr s else None) with
      | Some (v4, s) => ([hi_group v4; lo_group v4], true, s)
      | None =>
          match read_separator Byte.x3a index (read_number 16 4 true 0xffff) s with
          | Some (group, s) =>
              let '(groups, ipv4, s) := read_groups todo (S index) s in
              (group :: groups, ipv4, s)
          | None => ([], false, s)
          end
      end
  end.

Definition read_ipv6_addr : Parser Ipv6Addr := λ s,
  let '(front, head_ipv4, s) := read_groups 8 0 s in
  if decide (length front = 8) then Some (Ipv6 front, s)
  else if head_ipv4 then None
  else
    '(_, s) ← read_given_char Byte.x3a s;
    '(_, s) ← read_given_char Byte.x3a s;
    let '(back, _, s) := read_groups (8 - (length front + 1)) 0 s in
    Some (Ipv6 (front ++ replicate (8 - length front - length back) 0%Z ++ back), s).

Definition parse_with {A} (inner : Parser A) (s : bytes) : option A :=
  '(a, s) ← inner s;
  match s with [] => Some a | _ :: _ => None end.

Definition ipv4_from_str (s : bytes) : option Ipv4Addr :=
  if decide (15 < length s) then None else parse_with read_ipv4_addr s.

Definition ipv6_from_str (s : bytes) : option Ipv6Addr := parse_with read_ipv6_addr s.

(** ** The text of IP addresses *)

Definition fmt_octet (b : u8) : bytes := fmt_dec (byte.unsigned b).

Definition ipv4_to_string (a : Ipv4Addr) : bytes :=
  fmt_octet (octet0 a) ++ Byte.x2e :: fmt_octet (octet1 a) ++ Byte.x2e ::
  fmt_octet (octet2 a) ++ Byte.x2e :: fmt_octet (octet3 a).

(** [Ipv6Addr::to_ipv4]: the IPv4-compatible and the IPv4-mapped addresses. *)
Definition to_ipv4 (a : Ipv6Addr) : option Ipv4Addr :=
  match segments a with
  | [s0; s1; s2; s3; s4; s5; ab; cd] =>
      if decide (s0 = 0 ∧ s1 = 0 ∧ s2 = 0 ∧ s3 = 0 ∧ s4 = 0 ∧ (s5 = 0 ∨ s5 = 0xffff))%Z then
        match be_split 2 ab ++ be_split 2 cd with
        | [a; b; c; d] => Some (Ipv4 a b c d)
        | _ => None
        end
      else None
  | _ => None
  end.

(** The longest run of zero groups, the first one of its length. *)
Definition zero_span_step (acc : (nat * nat) * (nat * nat)) (x : nat * Z) :
    (nat * nat) * (nat * nat) :=
  let '((lstart, llen), (cstart, clen)) := acc in
  let '(i, segment) := x in
  if decide (segment = 0%Z) then
    let cstart := if decide (clen = 0) then i else cstart in
    let clen := S clen in
    if decide (llen < clen) then ((cstart, clen), (cstart, clen))
    else ((lstart, llen), (cstart, clen))
  else ((lstart, llen), (0, 0)).

Definition longest_zero_span (gs : list Z) : nat * nat :=
  (foldl zero_span_step ((0, 0), (0, 0)) (imap pair gs)).1.

Definition fmt_subslice (chunk : list Z) : bytes :=
  match chunk with
  | [] => []
  | first :: tail => fmt_hex first ++ (tail ≫= λ segment, Byte.x3a :: fmt_hex segment)
  end.

Definition ipv6_to_string (a : Ipv6Addr) : bytes :=
  let gs := segments a in
  if decide (gs = [0; 0; 0; 0; 0; 0; 0; 0]%Z) then [Byte.x3a; Byte.x3a]
  else if decide (gs = [0; 0; 0; 0; 0; 0; 0; 1]%Z) then [Byte.x3a; Byte.x3a; Byte.x31]
  else
    match to_ipv4 a with
    | Some v4 =>
        if decide (gs !! 5 = Some 0%Z) then [Byte.x3a; Byte.x3a] ++ ipv4_to_string v4
        else [Byte.x3a; Byte.x3a; Byte.x66; Byte.x66; Byte.x66; Byte.x66; Byte.x3a] ++
             ipv4_to_string v4
    | None =>
        let '(start, len) := longest_zero_span gs in
        if decide (1 < len) then
          fmt_subslice (take start gs) ++ [Byte.x3a; Byte.x3a] ++ fmt_subslice (drop (start + len) gs)
        else fmt_subslice gs
    end.

(** ** Lemmas on digits *)

Definition radix_ok (r : Z) : Prop := r = 10%Z ∨ r = 16%Z.

Definition digits_value (r : Z) (acc : Z) (ds : list Z) : Z := foldl (λ a d, a * r + d)%Z acc ds.

Lemma to_digit_from_digit r d : radix_ok r → (0 ≤ d < r)%Z → to_digit r (from_digit d) = Some d.
Proof.
  assert (Hb : ∀ r', r' ∈ [10; 16]%Z → Forall (λ d, d < r' → to_digit r' (from_digit d) = Some d)%Z
    (seqZ 0 16)).
  { apply Forall_forall. by_eval. }
  intros Hr Hd. assert (Hr' : r ∈ [10; 16]%Z) by (unfold radix_ok in Hr; set_solver).
  specialize (Hb r Hr'). rewrite Forall_forall in Hb. apply Hb; [|lia].
  apply elem_of_seqZ. unfold radix_ok in Hr. lia.
Qed.

Lemma digits_value_ge r acc ds :
  (0 < r)%Z → (0 ≤ acc)%Z → Forall (λ d, 0 ≤ d < r)%Z ds → (acc ≤ digits_value r acc ds)%Z.
Proof.
  intros Hr Hacc Hds. revert acc Hacc. induction Hds as [|d ds Hd _ IH]; intros acc Hacc; [done|].
  unfold digits_value in *. simpl. specialize (IH (acc * r + d)%Z). nia.
Qed.

Lemma fmt_loop_S r f n :
  fmt_loop r (S f) n =
    if (n <? r)%Z then [from_digit n] else fmt_loop r f (n / r) ++ [from_digit (n mod r)].
Proof. done. Qed.

Lemma fmt_loop_digits r f n :
  radix_ok r → (0 ≤ n < r ^ Z.of_nat (S f))%Z →
  ∃ d ds, fmt_loop r (S f) n = from_digit <$> d :: ds ∧ Forall (λ d, 0 ≤ d < r)%Z (d :: ds) ∧
    digits_value r 0 (d :: ds) = n ∧ (d = 0%Z → ds = []) ∧
    (∀ k : nat, 0 < k → (n < r ^ Z.of_nat k)%Z → length (d :: ds) ≤ k).
Proof.
  intros Hr. assert (10 ≤ r)%Z as Hr10 by (destruct Hr; lia).
  revert n. induction f as [|f IH]; intros n Hn.
  all: rewrite fmt_loop_S.
  all: destruct (Z.ltb_spec n r) as [Hlt|Hge];
    [exists n, []; split_and!; [done|repeat constructor; lia|cbn; lia|done|simpl; lia]|].
  { change (Z.of_nat 1) with 1%Z in Hn. rewrite Z.pow_1_r in Hn. lia. }
  assert (Hdiv : (0 < n / r)%Z) by (apply Z.div_str_pos; lia).
  destruct (IH (n / r)%Z) as (d&ds&He&Hds&Hv&H0&Hlen).
  { split; [lia|]. apply Z.div_lt_upper_bound; [lia|].
    rewrite (Nat2Z.inj_succ (S f)), Z.pow_succ_r in Hn by lia. lia. }
  rewrite He. exists d, (ds ++ [n mod r]%Z).
  pose proof (Z.mod_pos_bound n r ltac:(lia)). split_and!.
  - change (d :: ds ++ [n mod r]%Z) with ((d :: ds) ++ [n mod r]%Z). by rewrite fmap_app.
  - rewrite app_comm_cons. apply Forall_app. split; [done|]. repeat constructor; lia.
  - unfold digits_value in *. rewrite app_comm_cons, foldl_app, Hv. simpl.
    pose proof (Z.div_mod n r). lia.
  - intros ->. rewrite H0 in Hv by done. cbn in Hv. lia.
  - intros k Hk Hnk. rewrite app_comm_cons, length_app. simpl length at 2.
    destruct k as [|[|k]]; [lia|change (Z.of_nat 1) with 1%Z in Hnk; rewrite Z.pow_1_r in Hnk; lia|].
    specialize (Hlen (S k) ltac:(lia)). enough (length (d :: ds) ≤ S k) by lia.
    apply Hlen. apply Z.div_lt_upper_bound; [lia|].
    rewrite (Nat2Z.inj_succ (S k)), Z.pow_succ_r in Hnk by lia. lia.
Qed.

Lemma parse_digits_fmt max acc ds :
  (0 ≤ acc)%Z → Forall (λ d, 0 ≤ d < 10)%Z ds → (digits_value 10 acc ds ≤ max)%Z →
  parse_digits max acc (from_digit <$> ds) = Some (digits_value 10 acc ds).
Proof.
  intros Hacc Hds. revert acc Hacc. induction Hds as [|d ds Hd Hds IH]; intros acc Hacc Hm; [done|].
  cbn [fmap list_fmap parse_digits]. rewrite to_digit_from_digit by (by left || lia). simpl.
  unfold digits_value in *. simpl in Hm |- *.
  pose proof (digits_value_ge 10 (acc * 10 + d) ds ltac:(lia) ltac:(lia) Hds) as Hle.
  unfold digits_value in Hle. destruct (Z.ltb_spec max (acc * 10 + d)); [lia|]. apply IH; lia.
Qed.

Lemma read_number_loop_fmt r k max acc c ds rest :
  radix_ok r → (0 ≤ acc)%Z → Forall (λ d, 0 ≤ d < r)%Z ds →
  (digits_value r acc ds ≤ max)%Z → c + length ds ≤ k →
  (∀ b, head rest = Some b → to_digit r b = None) →
  read_number_loop r k max acc c ((from_digit <$> ds) ++ rest) =
    Some (digits_value r acc ds, c + length ds, rest).
Proof.
  intros Hr Hacc Hds. assert (10 ≤ r)%Z by (destruct Hr; lia). revert acc c Hacc.
  induction Hds as [|d ds Hd Hds IH]; intros acc c Hacc Hm Hk Hrest.
  - simpl. rewrite Nat.add_0_r. destruct rest as [|b rest]; [done|].
    simpl. by rewrite (Hrest b).
  - cbn [fmap list_fmap app read_number_loop]. rewrite to_digit_from_digit by (done || lia).
    unfold digits_value in *. simpl in Hm, Hk |- *.
    pose proof (digits_value_ge r (acc * r + d) ds ltac:(lia) ltac:(nia) Hds) as Hle.
    unfold digits_value in Hle. destruct (Z.ltb_spec max (acc * r)); [lia|].
    destruct (Z.ltb_spec max (acc * r + d)); [lia|]. rewrite decide_False by lia.
    rewrite IH by (nia || lia || done). do 3 f_equal. lia.
Qed.

Lemma read_number_fmt r k allow max n rest :
  radix_ok r → 0 < k → (0 ≤ n ≤ max)%Z → (n < r ^ Z.of_nat k)%Z → k ≤ 64 →
  (∀ b, head rest = Some b → to_digit r b = None) →
  read_number r k allow max (fmt_loop r 64 n ++ rest) = Some (n, rest).
Proof.
  intros Hr Hk Hn Hnk Hk64 Hrest. assert (10 ≤ r)%Z as Hr10 by (destruct Hr; lia).
  destruct (fmt_loop_digits r 63 n Hr) as (d&ds&->&Hds&Hv&H0&Hlen).
  { split; [lia|]. pose proof (Z.pow_le_mono_r r (Z.of_nat k) (Z.of_nat 64)). lia. }
  unfold read_number. rewrite read_number_loop_fmt, Hv by (done || lia || (specialize (Hlen k); lia)).
  rewrite decide_False by (simpl; lia). rewrite decide_False; [done|].
  intros (_&Hh&H1). simpl in Hh, H1. rewrite H0 in H1; [simpl in H1; lia|].
  apply Forall_cons in Hds as [Hd _]. injection Hh as Hh.
  assert (Hb : Forall (λ d, from_digit d = Byte.x30 → d = 0)%Z (seqZ 0 16)) by by_eval.
  rewrite Forall_forall in Hb. apply Hb; [|done]. apply elem_of_seqZ. destruct Hr; lia.
Qed.

Lemma fmt_loop_own_digits r n :
  radix_ok r → (0 ≤ n < 2 ^ 64)%Z → Forall (λ b, is_Some (to_digit r b)) (fmt_loop r 64 n).
Proof.
  intros Hr Hn. assert (10 ≤ r)%Z as Hr10 by (destruct Hr; lia).
  destruct (fmt_loop_digits r 63 n Hr) as (d&ds&->&Hds&_).
  { split; [lia|]. pose proof (Z.pow_le_mono_l 10 r (Z.of_nat 64) ltac:(lia)).
    assert (2 ^ 64 ≤ 10 ^ Z.of_nat 64)%Z by (vm_compute; discriminate). lia. }
  apply Forall_fmap. eapply Forall_impl; [exact Hds|]. intros x Hx. cbv beta in Hx.
  exists x. by apply to_digit_from_digit.
Qed.

Lemma to_digit_10_16 b : is_Some (to_digit 10 b) → is_Some (to_digit 16 b).
Proof. destruct b; vm_compute; intros [? [=]]; by eexists. Qed.

Lemma fmt_loop_hex_digits r n :
  radix_ok r → (0 ≤ n < 2 ^ 64)%Z → Forall (λ b, is_Some (to_digit 16 b)) (fmt_loop r 64 n).
Proof.
  intros Hr Hn. eapply Forall_impl; [by apply fmt_loop_own_digits|].
  destruct Hr as [-> | ->]; [|done]. intros b. apply to_digit_10_16.
Qed.

Lemma parse_uint_fmt bits n :
  (0 ≤ bits ≤ 64)%Z → (0 ≤ n < 2 ^ bits)%Z → parse_uint bits (fmt_dec n) = Some n.
Proof.
  intros Hbits Hn. assert (2 ^ bits ≤ 2 ^ 64)%Z by (apply Z.pow_le_mono_r; lia).
  destruct (fmt_loop_digits 10 63 n) as (d&ds&He&Hds&Hv&_).
  { by left. }
  { assert (2 ^ 64 ≤ 10 ^ Z.of_nat 64)%Z by (vm_compute; discriminate). lia. }
  unfold parse_uint, fmt_dec. rewrite He. cbn [fmap list_fmap].
  rewrite decide_False.
  - change (from_digit d :: (from_digit <$> ds)) with (from_digit <$> d :: ds).
    rewrite parse_digits_fmt; [by rewrite Hv|lia|done|lia].
  - assert (Hb : Forall (λ d, from_digit d ≠ Byte.x2b) (seqZ 0 10)) by by_eval.
    rewrite Forall_forall in Hb. apply Hb, elem_of_seqZ. by apply Forall_cons in Hds as [? _].
Qed.

(** ** Round trip of IPv4 addresses *)

Lemma read_octet b rest :
  (∀ c, head rest = Some c → to_digit 10 c = None) →
  read_number 10 3 false 255 (fmt_octet b ++ rest) = Some (byte.unsigned b, rest).
Proof.
  intros Hrest. pose proof (byte.unsigned_range b). unfold fmt_octet, fmt_dec.
  apply read_number_fmt; [by left|lia..|done].
Qed.

Lemma read_ipv4_to_string a rest :
  (∀ c, head rest = Some c → to_digit 10 c = None) →
  read_ipv4_addr (ipv4_to_string a ++ rest) = Some (a, rest).
Proof.
  intros Hrest. destruct a as [a b c d]. unfold read_ipv4_addr, ipv4_to_string.
  cbn [octet0 octet1 octet2 octet3 read_octets]. repeat (rewrite <-?app_assoc; cbn [app]).
  unfold read_separator. rewrite read_octet by (by intros ? [= <-]). cbn [mbind option_bind].
  do 2 (cbn [read_given_char]; rewrite decide_True by done; cbn [mbind option_bind];
    rewrite read_octet by (by intros ? [= <-]); cbn [mbind option_bind]).
  cbn [read_given_char]. rewrite decide_True by done. cbn [mbind option_bind].
  rewrite read_octet by done. cbn [mbind option_bind]. by rewrite !byte.of_Z_unsigned.
Qed.

Lemma length_fmt_octet b : length (fmt_octet b) ≤ 3.
Proof.
  unfold fmt_octet, fmt_dec. pose proof (byte.unsigned_range b).
  destruct (fmt_loop_digits 10 63 (byte.unsigned b)) as (d&ds&->&_&_&_&Hl).
  { by left. }
  { split; [lia|]. transitivity 256%Z; [lia|]. by vm_compute. }
  rewrite length_fmap. apply Hl; [lia|]. change (10 ^ Z.of_nat 3)%Z with 1000%Z. lia.
Qed.

Lemma ipv4_roundtrip a : ipv4_from_str (ipv4_to_string a) = Some a.
Proof.
  unfold ipv4_from_str. rewrite decide_False.
  - unfold parse_with. rewrite <-(app_nil_r (ipv4_to_string a)), read_ipv4_to_string; [done|].
    by intros c.
  - unfold ipv4_to_string. repeat (rewrite length_app; simpl length).
    pose proof (length_fmt_octet (octet0 a)). pose proof (length_fmt_octet (octet1 a)).
    pose proof (length_fmt_octet (octet2 a)). pose proof (length_fmt_octet (octet3 a)). lia.
Qed.

(** ** Round trip of IPv6 addresses *)

Lemma read_number_loop_consumes r k max acc c s n c' s' :
  read_number_loop r k max acc c s = Some (n, c', s') →
  ∃ p, s = p ++ s' ∧ Forall (λ b, is_Some (to_digit r b)) p.
Proof.
  revert acc c. induction s as [|b s IH]; intros acc c; simpl.
  - intros [= <- <- <-]. by exists [].
  - destruct (to_digit r b) as [d|] eqn:Hd; [|intros [= <- <- <-]; by exists []].
    destruct (_ <? _)%Z; [done|]. destruct (_ <? _)%Z; [done|]. case_decide; [done|].
    intros (p&->&Hp)%IH. exists (b :: p). split; [done|]. by constructor.
Qed.

Lemma read_number_consumes r k allow max s n s' :
  read_number r k allow max s = Some (n, s') →
  ∃ p, s = p ++ s' ∧ Forall (λ b, is_Some (to_digit r b)) p.
Proof.
  unfold read_number. destruct (read_number_loop r k max 0 0 s) as [[[m c] s1]|] eqn:Hl; [|done].
  case_decide; [done|]. case_decide; [done|]. intros [= <- <-].
  by apply read_number_loop_consumes in Hl.
Qed.

(** A group in hexadecimal is not the start of an IPv4 address. *)
Lemma read_ipv4_group h rest :
  Forall (λ b, is_Some (to_digit 16 b)) h →
  (∀ c, head rest = Some c → to_digit 16 c = None ∧ c ≠ Byte.x2e) →
  read_ipv4_addr (h ++ rest) = None.
Proof.
  intros Hh Hrest. unfold read_ipv4_addr.
  enough (read_octets 4 0 (h ++ rest) = None) as -> by done.
  cbn [read_octets]. unfold read_separator.
  destruct (read_number 10 3 false 255 (h ++ rest)) as [[n s']|] eqn:Hn; [|done].
  cbn [mbind option_bind]. apply read_number_consumes in Hn as (p&Hp&Hd).
  enough (read_given_char Byte.x2e s' = None) as -> by done.
  destruct s' as [|b s']; [done|]. simpl. apply decide_False. intros ->.
  assert (Hnone : to_digit 16 Byte.x2e = None) by (by vm_compute).
  apply app_eq_inv in Hp as [(k&Hhk&Hk)|(k&Hpk&Hrk)].
  - subst h. apply Forall_app in Hh as [_ Hk']. destruct k as [|c k].
    + simpl in Hk. destruct (Hrest Byte.x2e) as [_ ?]; [by rewrite <-Hk|done].
    + injection Hk as <- _. apply Forall_cons in Hk' as [Hk' _]. rewrite Hnone in Hk'. by destruct Hk'.
  - subst p. apply Forall_app in Hd as [_ Hk]. destruct k as [|c k].
    + destruct (Hrest Byte.x2e) as [_ ?]; [by rewrite Hrk|done].
    + apply Forall_cons in Hk as [Hk _]. destruct (Hrest c) as [Hc _]; [by rewrite Hrk|].
      apply to_digit_10_16 in Hk. rewrite Hc in Hk. by destruct Hk.
Qed.

(** The text of groups from the slot [index] on. *)
Definition groups_text (index : nat) (gs : list Z) : bytes :=
  match index with
  | 0 => fmt_subslice gs
  | S _ => gs ≫= λ g, Byte.x3a :: fmt_hex g
  end.

(** What ends a list of groups. *)
Definition groups_end (rest : bytes) : Prop := rest = [] ∨ ∃ t, rest = Byte.x3a :: Byte.x3a :: t.

Lemma groups_text_cons index g gs :
  groups_text index (g :: gs) =
    match index with 0 => [] | S _ => [Byte.x3a] end ++ fmt_hex g ++ groups_text (S index) gs.
Proof. by destruct index. Qed.

Lemma colon_head rest c :
  rest = [] ∨ head rest = Some Byte.x3a → head rest = Some c → to_digit 16 c = None ∧ c ≠ Byte.x2e.
Proof. intros [->|Hr] Hc; [done|]. rewrite Hr in Hc. injection Hc as <-. by vm_compute. Qed.

Lemma groups_text_head index gs rest :
  groups_end rest →
  groups_text (S index) gs ++ rest = [] ∨ head (groups_text (S index) gs ++ rest) = Some Byte.x3a.
Proof. destruct gs; simpl; [|by right]. intros [->|[t ->]]; auto. Qed.

Lemma read_number_none r k allow max s :
  (∀ c, head s = Some c → to_digit r c = None) → read_number r k allow max s = None.
Proof.
  intros Hs. unfold read_number. destruct s as [|b s]; [done|]. simpl. by rewrite (Hs b).
Qed.

Lemma read_separator_end {A} (inner : Parser A) index rest :
  groups_end rest → (∀ s, s = [] ∨ head s = Some Byte.x3a → inner s = None) →
  read_separator Byte.x3a index inner rest = None.
Proof.
  intros Hend Hin. destruct index; simpl.
  - apply Hin. destruct Hend as [->|[t ->]]; auto.
  - destruct Hend as [->|[t ->]]; [done|]. simpl. apply Hin. by right.
Qed.

Lemma read_separator_group {A} (inner : Parser A) index g gs rest :
  read_separator Byte.x3a index inner (groups_text index (g :: gs) ++ rest) =
    inner (fmt_hex g ++ groups_text (S index) gs ++ rest).
Proof. rewrite groups_text_cons. destruct index; simpl; by rewrite <-?app_assoc. Qed.

Lemma fmt_hex_digits g : (0 ≤ g < 2 ^ 16)%Z → Forall (λ b, is_Some (to_digit 16 b)) (fmt_hex g).
Proof. intros Hg. apply fmt_loop_hex_digits; [by right|lia]. Qed.

Lemma read_groups_text todo index gs rest :
  Forall (λ g, 0 ≤ g < 2 ^ 16)%Z gs → length gs ≤ todo → groups_end rest →
  read_groups todo index (groups_text index gs ++ rest) = (gs, false, rest).
Proof.
  intros Hgs. revert todo index. induction Hgs as [|g gs Hg Hgs IH]; intros todo index Hl Hend.
  - assert (groups_text index [] = []) as -> by by destruct index.
    destruct todo as [|todo]; [done|]. cbn [read_groups app].
    rewrite !(read_separator_end _ index) by (done || intros s Hs;
      first [apply read_number_none; intros c; apply (colon_head s c Hs)
            |apply (read_ipv4_group [] s); [constructor|]; intros c; by apply colon_head]).
    by case_decide.
  - destruct todo as [|todo]; [simpl in Hl; lia|]. cbn [read_groups]. rewrite !read_separator_group.
    rewrite read_ipv4_group.
    2: by apply fmt_hex_digits.
    2: intros c; by apply colon_head, groups_text_head.
    assert (read_number 16 4 true 65535 (fmt_hex g ++ groups_text (S index) gs ++ rest) =
      Some (g, groups_text (S index) gs ++ rest)) as ->.
    { apply read_number_fmt; [by right|lia..|]. intros c ?.
      by eapply colon_head; [apply groups_text_head|]. }
    rewrite IH by (done || simpl in Hl; lia). by case_decide.
Qed.

Definition zero_run (gs : list Z) (start len : nat) : Prop :=
  ∀ i, start ≤ i < start + len → gs !! i = Some 0%Z.

Lemma zero_span_run gs :
  let '((ls, ll), (cs, cl)) := foldl zero_span_step ((0, 0), (0, 0)) (imap pair gs) in
  zero_run gs ls ll ∧ zero_run gs cs cl ∧ (cl = 0 ∨ cs + cl = length gs).
Proof.
  induction gs as [|g gs IH] using rev_ind.
  { simpl. split_and!; [intros i ?; lia..|by left]. }
  rewrite imap_app, foldl_app. destruct (foldl _ _ _) as [[ls ll] [cs cl]].
  destruct IH as (Hl&Hc&Hend).
  assert (Hext : ∀ s n, zero_run gs s n → zero_run (gs ++ [g]) s n).
  { intros s n Hz i Hi. apply lookup_app_l_Some. auto. }
  cbn [imap foldl zero_span_step]. rewrite Nat.add_0_r. case_decide as Hg.
  - subst g. set (cs' := if decide (cl = 0) then length gs else cs).
    assert (Hcs : cs' + cl = length gs) by (unfold cs'; case_decide; lia).
    assert (Hrun : zero_run (gs ++ [0%Z]) cs' (S cl)).
    { intros i Hi. destruct (decide (i = length gs)) as [->|Hne].
      - by rewrite lookup_app_r, Nat.sub_diag by done.
      - apply lookup_app_l_Some, Hc. unfold cs' in *. case_decide; lia. }
    rewrite length_app. simpl length. case_decide; split_and!; auto; right; lia.
  - split_and!; [auto|intros i ?; lia|by left].
Qed.

Lemma longest_zero_span_run gs start len :
  longest_zero_span gs = (start, len) → 0 < len →
  gs = take start gs ++ replicate len 0%Z ++ drop (start + len) gs ∧ start + len ≤ length gs.
Proof.
  intros Hs Hlen. unfold longest_zero_span in Hs. pose proof (zero_span_run gs) as Hrun.
  destruct (foldl _ _ _) as [[ls ll] [cs cl]]. simpl in Hs. injection Hs as -> ->.
  destruct Hrun as (Hrun&_). assert (Hle : start + len ≤ length gs).
  { specialize (Hrun (start + len - 1) ltac:(lia)). apply lookup_lt_Some in Hrun. lia. }
  split; [|done]. rewrite <-(take_drop start gs) at 1. f_equal.
  rewrite <-(take_drop len (drop start gs)), drop_drop. f_equal.
  apply list_eq_same_length with len; [by rewrite length_replicate|rewrite length_take, length_drop; lia|].
  intros i x y Hi Hx Hy. apply lookup_replicate in Hy as [-> _].
  rewrite lookup_take, decide_True, lookup_drop in Hx by lia. rewrite Hrun in Hx by lia. congruence.
Qed.

Lemma ipv4_bytes_groups a :
  (0 ≤ hi_group a < 2 ^ 16)%Z ∧ (0 ≤ lo_group a < 2 ^ 16)%Z.
Proof. split; apply be_combine_bound. Qed.

Lemma to_ipv4_Some a v4 :
  ipv6_wf a → to_ipv4 a = Some v4 →
  segments a = [0; 0; 0; 0; 0; 0; hi_group v4; lo_group v4]%Z ∨
  segments a = [0; 0; 0; 0; 0; 0xffff; hi_group v4; lo_group v4]%Z.
Proof.
  destruct a as [gs]. intros [_ Hgs]. unfold to_ipv4. cbn [segments] in *.
  do 8 (destruct gs as [|? gs]; [done|]). destruct gs; [|done].
  case_decide as Hz; [|done]. destruct Hz as (->&->&->&->&->&Hz).
  repeat (apply Forall_cons in Hgs as [? Hgs]).
  pose proof (length_be_split 2 z5). pose proof (length_be_split 2 z6).
  pose proof (be_combine_split_small 2 z5 ltac:(done)) as Hhi.
  pose proof (be_combine_split_small 2 z6 ltac:(done)) as Hlo.
  destruct (be_split 2 z5) as [|? [|? [|]]]; try done.
  destruct (be_split 2 z6) as [|? [|? [|]]]; try done.
  intros [= <-]. unfold hi_group, lo_group. cbn [octet0 octet1 octet2 octet3]. rewrite Hhi, Hlo.
  destruct Hz as [-> | ->]; auto.
Qed.

Lemma read_groups_ipv4 todo a :
  0 < todo → read_groups (S todo) 0 (ipv4_to_string a) = ([hi_group a; lo_group a], true, []).
Proof.
  intros Ht. cbn [read_groups]. rewrite decide_True by done. cbn [read_separator].
  rewrite <-(app_nil_r (ipv4_to_string a)), read_ipv4_to_string; [done|by intros c].
Qed.

Lemma read_groups_mapped a :
  read_groups 7 0 ([Byte.x66; Byte.x66; Byte.x66; Byte.x66; Byte.x3a] ++ ipv4_to_string a) =
    ([0xffff; hi_group a; lo_group a]%Z, true, []).
Proof.
  change [Byte.x66; Byte.x66; Byte.x66; Byte.x66; Byte.x3a] with (fmt_hex 65535 ++ [Byte.x3a]).
  rewrite <-app_assoc. remember 6 as t eqn:Ht. cbn [read_groups]. rewrite decide_True by lia.
  cbn [read_separator app]. rewrite read_ipv4_group.
  2: by apply fmt_hex_digits.
  2: by intros c; apply colon_head; right.
  assert (read_number 16 4 true 65535 (fmt_hex 65535 ++ Byte.x3a :: ipv4_to_string a) =
    Some (65535%Z, Byte.x3a :: ipv4_to_string a)) as ->.
  { apply read_number_fmt; [by right|lia..|]. intros c Hc.
    injection Hc as <-. by vm_compute. }
  subst t. cbn [read_groups]. rewrite decide_True by lia. cbn [read_separator read_given_char].
  rewrite decide_True by done. cbn [mbind option_bind].
  rewrite <-(app_nil_r (ipv4_to_string a)), read_ipv4_to_string; [done|by intros c].
Qed.

Lemma read_ipv6_compressed front text back b :
  Forall (λ g, 0 ≤ g < 2 ^ 16)%Z front → length front < 8 →
  read_groups (8 - (length front + 1)) 0 text = (back, b, []) →
  parse_with read_ipv6_addr (fmt_subslice front ++ [Byte.x3a; Byte.x3a] ++ text) =
    Some (Ipv6 (front ++ replicate (8 - length front - length back) 0%Z ++ back)).
Proof.
  intros Hf Hl Hback. unfold parse_with, read_ipv6_addr.
  rewrite (read_groups_text 8 0 front) by (done || lia || (right; by eexists)).
  rewrite decide_False by lia. cbn [app read_given_char].
  rewrite decide_True by done. cbn [mbind option_bind read_given_char].
  rewrite decide_True by done. cbn [mbind option_bind]. by rewrite Hback.
Qed.

Lemma read_groups_all todo gs :
  Forall (λ g, 0 ≤ g < 2 ^ 16)%Z gs → length gs ≤ todo →
  read_groups todo 0 (fmt_subslice gs) = (gs, false, []).
Proof.
  intros. rewrite <-(app_nil_r (fmt_subslice gs)). by apply (read_groups_text todo 0); [..|left].
Qed.

(** The text of an IPv6 address in its compressed form parses to the address. *)
Lemma ipv6_roundtrip a : ipv6_wf a → ipv6_from_str (ipv6_to_string a) = Some a.
Proof.
  intros Hwf. pose proof Hwf as [Hl Hgs]. unfold ipv6_from_str, ipv6_to_string.
  assert (Ha : a = Ipv6 (segments a)) by by destruct a. case_decide as H0.
  { rewrite Ha, H0. by vm_compute. }
  case_decide as H1.
  { rewrite Ha, H1. by vm_compute. }
  destruct (to_ipv4 a) as [v4|] eqn:Hv4.
  - apply to_ipv4_Some in Hv4 as [Hs|Hs]; [| |done]; rewrite Hs; cbn [lookup list_lookup].
    + rewrite decide_True by done.
      etrans; [apply (read_ipv6_compressed [] (ipv4_to_string v4) [hi_group v4; lo_group v4] true);
        [constructor|simpl; lia|apply read_groups_ipv4; lia]|]. by rewrite Ha, Hs.
    + rewrite decide_False by done.
      etrans; [apply (read_ipv6_compressed [] _ _ _ ltac:(constructor) ltac:(simpl; lia)
        (read_groups_mapped v4))|]. by rewrite Ha, Hs.
  - destruct (longest_zero_span (segments a)) as [start len] eqn:Hspan. case_decide as Hlen.
    + apply longest_zero_span_run in Hspan as [Heq Hle]; [|lia].
      rewrite (read_ipv6_compressed (take start (segments a)) _ (drop (start + len) (segments a)) false).
      * rewrite length_take, length_drop, Hl, Nat.min_l by lia.
        replace (8 - start - (8 - (start + len))) with len by lia. rewrite <-Heq. by destruct a.
      * by apply Forall_take.
      * rewrite length_take. lia.
      * apply read_groups_all; [by apply Forall_drop|]. rewrite length_take, length_drop. lia.
    + unfold parse_with, read_ipv6_addr. rewrite read_groups_all by (done || lia).
      rewrite decide_True by done. cbn [mbind option_bind]. by destruct a.
Qed.

(** ** Characters and pieces *)

Lemma in_range_ascii c lo hi :
  in_range 0 0x7F c = true → (128 ≤ lo)%Z → in_range lo hi c = false.
Proof.
  unfold in_range. rewrite andb_true_iff, andb_false_iff, !Z.leb_le, !Z.leb_gt. lia.
Qed.

Lemma utf8_ascii_second a c : in_range 0 0x7F c = true →
  utf8_two a c = false ∧ (∀ d, utf8_three a c d = false) ∧ (∀ d e, utf8_four a c d e = false).
Proof.
  intros Hc. unfold utf8_two, utf8_three, utf8_four. rewrite !(in_range_ascii c) by (done || lia).
  by rewrite !andb_false_r.
Qed.

Lemma utf8_ascii_third a b c : in_range 0 0x7F c = true →
  utf8_three a b c = false ∧ (∀ d, utf8_four a b c d = false).
Proof.
  intros Hc. unfold utf8_three, utf8_four. rewrite !(in_range_ascii c) by (done || lia).
  by rewrite !andb_false_r.
Qed.

Lemma utf8_ascii_fourth a b d c : in_range 0 0x7F c = true → utf8_four a b d c = false.
Proof.
  intros Hc. unfold utf8_four. rewrite (in_range_ascii c) by (done || lia). apply andb_false_r.
Qed.

(** A string may be cut at a character of one byte. *)
Lemma utf8_valid_cut p c r :
  in_range 0 0x7F c = true → utf8_valid (p ++ c :: r) = true →
  utf8_valid p = true ∧ utf8_valid r = true.
Proof.
  intros Hc. remember (length p) as n eqn:Hn. revert p Hn.
  induction (lt_wf n) as [n _ IH]. intros p ->.
  assert (IH' : ∀ q, length q < length p → utf8_valid (q ++ c :: r) = true →
    utf8_valid q = true ∧ utf8_valid r = true) by eauto.
  clear IH. destruct p as [|a p]; cbn [app utf8_valid]; [by rewrite Hc|].
  destruct (in_range 0 127 a); [by apply IH'; simpl; lia|].
  destruct p as [|b p]; cbn [app utf8_valid].
  { destruct (utf8_ascii_second a c Hc) as (->&H3&H4). destruct r as [|d r]; [done|].
    rewrite H3. destruct r as [|e r]; [done|]. by rewrite H4. }
  destruct (utf8_two a b); [by apply IH'; simpl; lia|].
  destruct p as [|d p]; cbn [app utf8_valid].
  { destruct (utf8_ascii_third a b c Hc) as (->&H4). destruct r as [|d r]; [done|]. by rewrite H4. }
  destruct (utf8_three a b d); [by apply IH'; simpl; lia|].
  destruct p as [|e p]; cbn [app utf8_valid].
  { by rewrite utf8_ascii_fourth. }
  destruct (utf8_four a b d e); [|done]. apply IH'. simpl. lia.
Qed.

Lemma split_char_cons c a b : c ∉ a → split_char c (a ++ c :: b) = a :: split_char c b.
Proof.
  induction a as [|x a IH]; intros Ha; simpl; [by rewrite decide_True|].
  rewrite decide_False by set_solver. by rewrite IH by set_solver.
Qed.

Lemma split_char_single c a : c ∉ a → split_char c a = [a].
Proof.
  induction a as [|x a IH]; intros Ha; simpl; [done|].
  rewrite decide_False by set_solver. by rewrite IH by set_solver.
Qed.

Lemma split_char_cases c s :
  ((c ∉ s) ∧ split_char c s = [s]) ∨
  (∃ a b, s = a ++ c :: b ∧ (c ∉ a) ∧ split_char c s = a :: split_char c b).
Proof.
  induction s as [|x s IH]; [left; split; [apply not_elem_of_nil|done]|].
  destruct (decide (x = c)) as [->|Hx].
  { right. exists [], s. split_and!; [done|apply not_elem_of_nil|]. simpl. by rewrite decide_True. }
  destruct IH as [[Hs He]|(a&b&->&Ha&He)].
  - left. split; [set_solver|]. apply split_char_single. set_solver.
  - right. exists (x :: a), b. split_and!; [done|set_solver|].
    apply (split_char_cons c (x :: a)). set_solver.
Qed.

Lemma split_char_pieces c s : Forall (λ p, c ∉ p) (split_char c s).
Proof.
  remember (length s) as n eqn:Hn. revert s Hn. induction (lt_wf n) as [n _ IH]. intros s ->.
  destruct (split_char_cases c s) as [[Hs ->]|(a&b&->&Ha&->)]; constructor; auto.
  eapply IH; [|done]. rewrite length_app. simpl. lia.
Qed.

Lemma split_char_utf8 c s :
  in_range 0 0x7F c = true → utf8_valid s = true →
  Forall (λ p, utf8_valid p = true) (split_char c s).
Proof.
  intros Hc. remember (length s) as n eqn:Hn. revert s Hn.
  induction (lt_wf n) as [n _ IH]. intros s -> Hs.
  destruct (split_char_cases c s) as [[_ ->]|(a&b&->&_&->)]; [by repeat constructor|].
  apply utf8_valid_cut in Hs as [Ha Hb]; [|done]. constructor; [done|].
  eapply IH; [|done|done]. rewrite length_app. simpl. lia.
Qed.

Lemma length_split_char c s : Forall (λ p, length p ≤ length s) (split_char c s).
Proof.
  remember (length s) as n eqn:Hn. revert s Hn. induction (lt_wf n) as [n _ IH]. intros s ->.
  destruct (split_char_cases c s) as [[_ ->]|(a&b&->&_&->)]; [by repeat constructor|].
  rewrite length_app. simpl. constructor; [lia|].
  eapply Forall_impl; [eapply IH; [|done]; rewrite length_app; simpl; lia|]. simpl. lia.
Qed.

(** The characters of printed numbers and addresses. *)
Definition addr_char (b : u8) : Prop := is_Some (to_digit 16 b) ∨ b = Byte.x2e ∨ b = Byte.x3a.

#[global] Instance addr_char_dec b : Decision (addr_char b).
Proof. unfold addr_char. apply _. Defined.

Lemma fmt_dec_chars n : (0 ≤ n < 2 ^ 64)%Z → Forall addr_char (fmt_dec n).
Proof.
  intros Hn. eapply Forall_impl; [apply (fmt_loop_hex_digits 10 n); [by left|done]|].
  intros b Hb. by left.
Qed.

Lemma fmt_hex_chars g : (0 ≤ g < 2 ^ 16)%Z → Forall addr_char (fmt_hex g).
Proof. intros Hg. eapply Forall_impl; [by apply fmt_hex_digits|]. intros b Hb. by left. Qed.

Lemma ipv4_chars a : Forall addr_char (ipv4_to_string a).
Proof.
  assert (Ho : ∀ b, Forall addr_char (fmt_octet b)).
  { intros b. apply fmt_dec_chars. pose proof (byte.unsigned_range b). lia. }
  assert (Hd : addr_char Byte.x2e) by (right; by left). unfold ipv4_to_string.
  repeat first [apply Forall_app; split; [apply Ho|] | constructor; [apply Hd|]]. apply Ho.
Qed.

Lemma fmt_subslice_chars gs :
  Forall (λ g, 0 ≤ g < 2 ^ 16)%Z gs → Forall addr_char (fmt_subslice gs).
Proof.
  assert (Hd : addr_char Byte.x3a) by (right; by right).
  destruct 1 as [|g gs Hg Hgs]; [constructor|]. cbn [fmt_subslice]. apply Forall_app.
  split; [by apply fmt_hex_chars|]. induction Hgs as [|h gs Hh Hgs IH]; [constructor|].
  cbn. constructor; [done|]. apply Forall_app. split; [by apply fmt_hex_chars|done].
Qed.

Lemma ipv6_chars a : ipv6_wf a → Forall addr_char (ipv6_to_string a).
Proof.
  intros [_ Hgs]. assert (Hd : Forall addr_char [Byte.x3a; Byte.x3a]) by by_eval.
  unfold ipv6_to_string. case_decide; [done|]. case_decide; [by_eval|].
  destruct (to_ipv4 a).
  - case_decide; apply Forall_app; (split; [by_eval|apply ipv4_chars]).
  - destruct (longest_zero_span _) as [start len]. case_decide; [|by apply fmt_subslice_chars].
    repeat (apply Forall_app; split); try done;
      apply fmt_subslice_chars; auto using Forall_take, Forall_drop.
Qed.

Lemma addr_char_not_slash s : Forall addr_char s → Byte.x2f ∉ s.
Proof.
  intros Hs Hin. rewrite Forall_forall in Hs. destruct (Hs _ Hin) as [[d Hd]|[?|?]]; [|done..].
  by vm_compute in Hd.
Qed.

(** Text in ASCII is valid UTF-8. *)
Lemma utf8_valid_ascii s : Forall (λ b, in_range 0 0x7F b = true) s → utf8_valid s = true.
Proof. induction 1 as [|b s Hb Hs IH]; [done|]. simpl. by rewrite Hb. Qed.

(** ** The ranges of parsed values *)

Lemma to_digit_range r b d : to_digit r b = Some d → (0 ≤ d < r)%Z.
Proof.
  unfold to_digit. intros Hd.
  assert (Hr : ∀ lo hi, in_range lo hi b = true → (lo ≤ byte.unsigned b ≤ hi)%Z).
  { intros lo hi. unfold in_range. rewrite andb_true_iff, !Z.leb_le. lia. }
  destruct (in_range 48 57 b) eqn:H1; [|destruct (in_range 97 102 b) eqn:H2;
    [|destruct (in_range 65 70 b) eqn:H3; [|done]]];
  apply Hr in H1 || apply Hr in H2 || apply Hr in H3;
  destruct (Z.ltb_spec (byte.unsigned b - 48) r), (Z.ltb_spec (byte.unsigned b - 87) r),
    (Z.ltb_spec (byte.unsigned b - 55) r); simplify_eq; lia.
Qed.

Lemma parse_digits_range max acc s n :
  (0 ≤ acc ≤ max)%Z → parse_digits max acc s = Some n → (0 ≤ n ≤ max)%Z.
Proof.
  revert acc. induction s as [|b s IH]; intros acc Hacc; simpl; [by intros [= <-]|].
  destruct (to_digit 10 b) as [d|] eqn:Hd; [|done]. apply to_digit_range in Hd. simpl.
  destruct (Z.ltb_spec max (acc * 10 + d)); [done|]. apply IH. lia.
Qed.

Lemma parse_uint_range bits s n : (0 ≤ bits)%Z → parse_uint bits s = Some n → (0 ≤ n < 2 ^ bits)%Z.
Proof.
  intros Hb. pose proof (Z.pow_pos_nonneg 2 bits ltac:(lia) Hb). unfold parse_uint. intros Hp.
  enough (0 ≤ n ≤ 2 ^ bits - 1)%Z by lia. destruct s as [|b s]; [done|].
  case_decide; [destruct s; [done|]|]; (eapply parse_digits_range; [|exact Hp]; lia).
Qed.

Lemma read_number_loop_range r k max acc c s n c' s' :
  (0 ≤ acc ≤ max)%Z → (0 ≤ r)%Z → read_number_loop r k max acc c s = Some (n, c', s') → (0 ≤ n ≤ max)%Z.
Proof.
  intros Hacc Hr. revert acc c Hacc. induction s as [|b s IH]; intros acc c Hacc; simpl.
  - by intros [= <- <- <-].
  - destruct (to_digit r b) as [d|] eqn:Hd; [|by intros [= <- <- <-]]. apply to_digit_range in Hd.
    destruct (Z.ltb_spec max (acc * r)); [done|].
    destruct (Z.ltb_spec max (acc * r + d)); [done|]. case_decide; [done|]. apply IH. nia.
Qed.

Lemma read_number_range r k allow max s n s' :
  (0 ≤ max)%Z → (0 ≤ r)%Z → read_number r k allow max s = Some (n, s') → (0 ≤ n ≤ max)%Z.
Proof.
  intros Hm Hr. unfold read_number.
  destruct (read_number_loop r k max 0 0 s) as [[[m c] s1]|] eqn:Hl; [|done].
  case_decide; [done|]. case_decide; [done|]. intros [= <- <-].
  eapply read_number_loop_range in Hl; lia.
Qed.

Lemma read_groups_range todo index s gs b s' :
  read_groups todo index s = (gs, b, s') →
  length gs ≤ todo ∧ Forall (λ g, 0 ≤ g < 2 ^ 16)%Z gs.
Proof.
  revert index s gs b s'. induction todo as [|todo IH]; intros index s gs b s'; cbn [read_groups].
  { intros [= <- <- <-]. split; [simpl; lia|constructor]. }
  destruct (if decide (0 < todo) then _ else _) as [[v4 s1]|] eqn:Hv4.
  { intros [= <- <- <-]. case_decide; [|done]. split; [simpl; lia|].
    destruct (ipv4_bytes_groups v4). by repeat apply Forall_cons_2. }
  destruct (read_separator Byte.x3a index (read_number 16 4 true 65535) s) as [[g s1]|] eqn:Hg.
  - destruct (read_groups todo (S index) s1) as [[gs' b'] s2] eqn:Hr. intros [= <- <- <-].
    apply IH in Hr as [Hl Hgs]. split; [simpl; lia|]. constructor; [|done].
    enough (0 ≤ g ≤ 65535)%Z by lia. destruct index; simpl in Hg.
    + by eapply read_number_range in Hg.
    + destruct (read_given_char _ s) as [[]|]; [|done]. by eapply read_number_range in Hg.
  - intros [= <- <- <-]. split; [simpl; lia|constructor].
Qed.

Lemma ipv6_from_str_wf s a : ipv6_from_str s = Some a → ipv6_wf a.
Proof.
  unfold ipv6_from_str, parse_with, read_ipv6_addr.
  destruct (read_groups 8 0 s) as [[front b] s1] eqn:Hf. apply read_groups_range in Hf as [Hlf Hf].
  case_decide as Hl.
  { cbn [mbind option_bind]. destruct s1; [|done]. by intros [= <-]. }
  destruct b; [done|]. destruct (read_given_char _ s1) as [[u s2]|]; [|done].
  cbn [mbind option_bind]. destruct (read_given_char _ s2) as [[u' s3]|]; [|done].
  cbn [mbind option_bind]. destruct (read_groups _ 0 s3) as [[back b] s4] eqn:Hb.
  apply read_groups_range in Hb as [Hlb Hb]. cbn [mbind option_bind]. destruct s4; [|done].
  intros [= <-]. split; cbn [segments].
  - rewrite !length_app, length_replicate. lia.
  - apply Forall_app. split; [done|]. apply Forall_app. split; [|done]. by apply Forall_replicate.
Qed.
