(* ===== verification/Varint.v ===== *)
(** * Unsigned varints and byte streams

    The interface of the [unsigned-varint] crate, which the framing code of
    multistream-select, mplex, the message helpers of [core/src/util] and the
    binary format of multiaddresses use, with its documented behaviour as laws;
    and the outcome of a read on a byte stream. *)

From Stdlib Require Import ZArith Lia.
From S2P Require Import Prelude.

Inductive VarintError :=
  | Insufficient
  | Overflow.

(** The number of bytes of [encode::u16_buffer], [u32_buffer] and
    [usize_buffer]: 7 bits to a byte. *)
Definition uvi_buffer_len (w : nat) : nat := (w + 6) / 7.

(** [encode::u16], [u32] and [usize] write the same bytes; the decoders differ
    in the width [w] of their result. *)
Class Varint := {
  uvi_encode : Z → bytes;
  uvi_decode : nat → bytes → result VarintError (Z * bytes);
  uvi_is_last : u8 → bool
}.

Definition uvi_width (w : nat) : Prop := w = 16 ∨ w = 32 ∨ w = 64.

Lemma width_32 : uvi_width 32.
Proof. by right; left. Qed.
Lemma width_64 : uvi_width 64.
Proof. by right; right. Qed.

Lemma uvi_width_bounds w :
  uvi_width w → 0 < uvi_buffer_len w ≤ 10 ∧ (2 ^ Z.of_nat w ≤ 2 ^ 64)%Z ∧
    (2 ^ Z.of_nat w ≤ 2 ^ (7 * Z.of_nat (uvi_buffer_len w)))%Z.
Proof.
  assert (Hb : ∀ w', w' ∈ [16; 32; 64] → 0 < uvi_buffer_len w' ∧ uvi_buffer_len w' ≤ 10 ∧
    (2 ^ Z.of_nat w' ≤ 2 ^ 64)%Z ∧ (2 ^ Z.of_nat w' ≤ 2 ^ (7 * Z.of_nat (uvi_buffer_len w')))%Z).
  { apply Forall_forall. by_eval. }
  intros Hw. destruct (Hb w); [|tauto]. unfold uvi_width in Hw. set_solver.
Qed.

Class VarintLaws `{Varint} := {
  (** The format: groups of 7 bits, the least significant first, the top bit of
      a byte is set when more follow. *)
  uvi_is_last_spec b : uvi_is_last b = (byte.unsigned b <? 128)%Z;
  uvi_encode_small n : (0 ≤ n < 128)%Z → uvi_encode n = [byte.of_Z n];
  uvi_encode_large n : (128 ≤ n < 2 ^ 64)%Z →
    uvi_encode n = byte.of_Z (n mod 128 + 128) :: uvi_encode (n / 128);
  uvi_decode_encode w n rest : uvi_width w → (0 ≤ n < 2 ^ Z.of_nat w)%Z →
    uvi_decode w (uvi_encode n ++ rest) = Ok (n, rest);
  uvi_decode_sound w bs n rest : uvi_width w → uvi_decode w bs = Ok (n, rest) →
    (0 ≤ n < 2 ^ Z.of_nat w)%Z ∧ ∃ p b, bs = p ++ b :: rest ∧
      Forall (λ c, uvi_is_last c = false) p ∧ uvi_is_last b = true;
  uvi_decode_complete w p b rest : uvi_width w →
    Forall (λ c, uvi_is_last c = false) p → uvi_is_last b = true →
    (∃ n, uvi_decode w (p ++ b :: rest) = Ok (n, rest)) ∨
    uvi_decode w (p ++ b :: rest) = Err Overflow;
  (** The decoder reads no further than the last byte of the integer. *)
  uvi_decode_local w p n rest rest' : uvi_width w →
    uvi_decode w (p ++ rest) = Ok (n, rest) → uvi_decode w (p ++ rest') = Ok (n, rest');
  uvi_decode_short w bs : uvi_width w → length bs < uvi_buffer_len w →
    Forall (λ c, uvi_is_last c = false) bs → uvi_decode w bs = Err Insufficient;
  uvi_decode_long w bs : uvi_width w → uvi_buffer_len w ≤ length bs →
    Forall (λ c, uvi_is_last c = false) (take (uvi_buffer_len w) bs) →
    uvi_decode w bs = Err Overflow
}.

(** The part of the behaviour that does not depend on which malformed integers
    the decoder tells apart. *)
Class VarintCodecLaws `{Varint} := {
  codec_decode_encode w n rest : uvi_width w → (0 ≤ n < 2 ^ Z.of_nat w)%Z →
    uvi_decode w (uvi_encode n ++ rest) = Ok (n, rest);
  codec_decode_range w bs n rest : uvi_width w → uvi_decode w bs = Ok (n, rest) →
    (0 ≤ n < 2 ^ Z.of_nat w)%Z;
  codec_decode_consumes w bs n rest : uvi_width w → uvi_decode w bs = Ok (n, rest) →
    ∃ b p, bs = b :: p ++ rest;
  codec_decode_local w p n rest rest' : uvi_width w →
    uvi_decode w (p ++ rest) = Ok (n, rest) → uvi_decode w (p ++ rest') = Ok (n, rest')
}.

#[global] Instance varint_codec_laws `{VarintLaws} : VarintCodecLaws.
Proof.
  split.
  - apply uvi_decode_encode.
  - intros w bs n rest Hw Hd. by apply (uvi_decode_sound w bs n rest Hw Hd).
  - intros w bs n rest Hw Hd.
    destruct (uvi_decode_sound w bs n rest Hw Hd) as (_&[|c p]&b&->&_); [by exists b, []|].
    exists c, (p ++ [b]). by rewrite <-app_assoc.
  - apply uvi_decode_local.
Qed.

Section encode_lemmas.
Context `{VarintLaws}.

Lemma byte_of_Z_unsigned z : (0 ≤ z < 256)%Z → byte.unsigned (byte.of_Z z) = z.
Proof. intros. rewrite byte.unsigned_of_Z. unfold byte.wrap. by rewrite Z.mod_small. Qed.

(** All bytes of an encoding but the last one have the continuation bit. *)
Lemma uvi_encode_shape n m :
  (0 ≤ n < 2 ^ 64)%Z → (n < 2 ^ (7 * (Z.of_nat m + 1)))%Z →
  ∃ p b, uvi_encode n = p ++ [b] ∧ Forall (λ c, uvi_is_last c = false) p ∧
    uvi_is_last b = true ∧ length p ≤ m.
Proof.
  revert n. induction m as [|m IH]; intros n Hn Hm.
  all: destruct (Z.lt_ge_cases n 128) as [Hs|Hl].
  1, 3: exists [], (byte.of_Z n); rewrite uvi_encode_small by lia;
    (split_and!; [done|constructor| |simpl; lia]);
    rewrite uvi_is_last_spec, byte_of_Z_unsigned by lia; by apply Z.ltb_lt.
  { change (2 ^ (7 * (Z.of_nat 0 + 1)))%Z with 128%Z in Hm. lia. }
  destruct (IH (n / 128)%Z) as (p&b&He&Hp&Hb&Hlen).
  { split; [apply Z.div_pos; lia|]. apply Z.div_lt_upper_bound; lia. }
  { apply Z.div_lt_upper_bound; [lia|].
    replace (7 * (Z.of_nat (S m) + 1))%Z with (7 + 7 * (Z.of_nat m + 1))%Z in Hm by lia.
    rewrite Z.pow_add_r in Hm by lia. exact Hm. }
  exists (byte.of_Z (n mod 128 + 128) :: p), b. rewrite uvi_encode_large, He by lia.
  split_and!; [done| |done|simpl; lia]. constructor; [|done].
  pose proof (Z.mod_pos_bound n 128 ltac:(lia)).
  rewrite uvi_is_last_spec, byte_of_Z_unsigned by lia. apply Z.ltb_ge. lia.
Qed.

Lemma uvi_encode_width w n :
  uvi_width w → (0 ≤ n < 2 ^ Z.of_nat w)%Z →
  ∃ p b, uvi_encode n = p ++ [b] ∧ Forall (λ c, uvi_is_last c = false) p ∧
    uvi_is_last b = true ∧ length p < uvi_buffer_len w.
Proof.
  intros Hw Hn. pose proof (uvi_width_bounds w Hw).
  destruct (uvi_encode_shape n (uvi_buffer_len w - 1)) as (p&b&?&?&?&?); [lia| |].
  - replace (Z.of_nat (uvi_buffer_len w - 1) + 1)%Z with (Z.of_nat (uvi_buffer_len w)) by lia. lia.
  - exists p, b. split_and!; [done..|]. lia.
Qed.
End encode_lemmas.

(** ** A concrete codec

    An instance of the interface. *)

Fixpoint leb128_encode_loop (fuel : nat) (n : Z) : bytes :=
  match fuel with
  | 0 => []
  | S fuel =>
      if (n <? 128)%Z then [byte.of_Z n]
      else byte.of_Z (n mod 128 + 128) :: leb128_encode_loop fuel (n / 128)
  end.

Fixpoint leb128_decode_loop (fuel : nat) (bs : bytes) : result VarintError (Z * bytes) :=
  match fuel, bs with
  | 0, _ => Err Overflow
  | S _, [] => Err Insufficient
  | S fuel, b :: bs =>
      let v := byte.unsigned b in
      if (v <? 128)%Z then Ok (v, bs)
      else
        let? (n, rest) := leb128_decode_loop fuel bs in
        Ok (v - 128 + 128 * n, rest)%Z
  end.

Definition leb128_decode (w : nat) (bs : bytes) : result VarintError (Z * bytes) :=
  let? (n, rest) := leb128_decode_loop (uvi_buffer_len w) bs in
  if (n <? 2 ^ Z.of_nat w)%Z then Ok (n, rest) else Err Overflow.

Definition leb128 : Varint := {|
  uvi_encode := leb128_encode_loop 10;
  uvi_decode := leb128_decode;
  uvi_is_last b := (byte.unsigned b <? 128)%Z
|}.

Lemma div_128_bound n m :
  (0 ≤ n < 2 ^ (7 * Z.of_nat (S (S m))))%Z → (0 ≤ n / 128 < 2 ^ (7 * Z.of_nat (S m)))%Z.
Proof.
  rewrite (Nat2Z.inj_succ (S m)), Z.mul_succ_r, Z.pow_add_r by lia.
  change (2 ^ 7)%Z with 128%Z. intros. split; [apply Z.div_pos; lia|].
  apply Z.div_lt_upper_bound; lia.
Qed.

Lemma leb128_encode_fuel f g n :
  (0 ≤ n < 2 ^ (7 * Z.of_nat (S f)))%Z → (n < 2 ^ (7 * Z.of_nat (S g)))%Z →
  leb128_encode_loop (S f) n = leb128_encode_loop (S g) n.
Proof.
  revert g n. induction f as [|f IH]; intros g n Hf Hg; cbn [leb128_encode_loop];
    destruct (Z.ltb_spec n 128); try done.
  { change (2 ^ (7 * Z.of_nat 1))%Z with 128%Z in Hf. lia. }
  destruct g as [|g]; [change (2 ^ (7 * Z.of_nat 1))%Z with 128%Z in Hg; lia|].
  f_equal. apply IH; [by apply div_128_bound|]. apply (div_128_bound n g). lia.
Qed.

Lemma leb128_decode_encode_loop f n rest :
  (0 ≤ n < 2 ^ (7 * Z.of_nat (S f)))%Z →
  leb128_decode_loop (S f) (leb128_encode_loop (S f) n ++ rest) = Ok (n, rest).
Proof.
  revert n. induction f as [|f IH]; intros n Hn; cbn [leb128_encode_loop];
    (destruct (Z.ltb_spec n 128); [cbn [app leb128_decode_loop];
      rewrite byte_of_Z_unsigned by lia; by destruct (Z.ltb_spec n 128); [|lia]|]).
  { change (2 ^ (7 * Z.of_nat 1))%Z with 128%Z in Hn. lia. }
  cbn [app]. remember (S f) as f'. cbn [leb128_decode_loop].
  pose proof (Z.mod_pos_bound n 128 ltac:(lia)).
  rewrite byte_of_Z_unsigned by lia. destruct (Z.ltb_spec (n mod 128 + 128) 128); [lia|].
  subst f'. cbn [leb128_encode_loop] in IH. rewrite IH by by apply div_128_bound. simpl.
  do 2 f_equal. pose proof (Z.div_mod n 128). lia.
Qed.

Lemma leb128_decode_loop_sound f bs n rest :
  leb128_decode_loop f bs = Ok (n, rest) → (0 ≤ n)%Z ∧ ∃ p b, bs = p ++ b :: rest ∧
    Forall (λ c, (byte.unsigned c <? 128)%Z = false) p ∧ (byte.unsigned b <? 128)%Z = true.
Proof.
  revert bs n. induction f as [|f IH]; intros [|b bs] n; [done..|]. cbn [leb128_decode_loop].
  pose proof (byte.unsigned_range b). destruct (Z.ltb_spec (byte.unsigned b) 128) as [Hb|Hb].
  - intros [= <- <-]. split; [lia|]. exists [], b. split_and!; [done|constructor|].
    by apply Z.ltb_lt.
  - intros ([n' rest']&Hd&[= <- <-])%result_bind_ok.
    destruct (IH _ _ Hd) as (?&p&c&->&Hp&Hc). split; [lia|]. exists (b :: p), c.
    split_and!; [done| |done]. constructor; [|done]. by apply Z.ltb_ge.
Qed.

Lemma leb128_decode_loop_short f bs :
  length bs < f → Forall (λ c, (byte.unsigned c <? 128)%Z = false) bs →
  leb128_decode_loop f bs = Err Insufficient.
Proof.
  intros Hl Hbs. revert f Hl. induction Hbs as [|b bs Hb Hbs IH]; intros [|f] Hl; simpl in *;
    [lia|done|lia|]. rewrite Hb, IH by lia. done.
Qed.

Lemma leb128_decode_loop_long f bs :
  f ≤ length bs → Forall (λ c, (byte.unsigned c <? 128)%Z = false) (take f bs) →
  leb128_decode_loop f bs = Err Overflow.
Proof.
  revert bs. induction f as [|f IH]; intros [|b bs] Hl Hbs; simpl in *; [done|done|lia|].
  apply Forall_cons in Hbs as [Hb Hbs]. rewrite Hb, IH by (lia || done). done.
Qed.

Lemma leb128_decode_loop_complete f p b rest :
  Forall (λ c, (byte.unsigned c <? 128)%Z = false) p → (byte.unsigned b <? 128)%Z = true →
  (∃ n, leb128_decode_loop f (p ++ b :: rest) = Ok (n, rest)) ∨
  leb128_decode_loop f (p ++ b :: rest) = Err Overflow.
Proof.
  intros Hp Hb. revert f. induction Hp as [|c p Hc Hp IH]; intros [|f]; simpl; try by right.
  - rewrite Hb. eauto.
  - rewrite Hc. destruct (IH f) as [[n ->]| ->]; simpl; eauto.
Qed.

Lemma leb128_decode_loop_local f p n rest rest' :
  leb128_decode_loop f (p ++ rest) = Ok (n, rest) →
  leb128_decode_loop f (p ++ rest') = Ok (n, rest').
Proof.
  revert p n. induction f as [|f IH]; intros [|b p] n; try done; cbn [app].
  { intros (_&q&b&Hq&_)%leb128_decode_loop_sound. exfalso.
    apply (f_equal length) in Hq. rewrite length_app in Hq. simpl in Hq. lia. }
  cbn [leb128_decode_loop]. destruct (_ <? _)%Z.
  - intros [= <- He]. assert (p = []) as ->; [|done].
    apply length_zero_iff_nil. apply (f_equal length) in He. rewrite length_app in He. lia.
  - intros ([n' r]&Hd&[= <- ->])%result_bind_ok. by rewrite (IH _ _ Hd).
Qed.

#[global] Instance leb128_laws : @VarintLaws leb128.
Proof.
  split; unfold leb128; cbn [uvi_encode uvi_decode uvi_is_last].
  - done.
  - intros n Hn. cbn [leb128_encode_loop]. by destruct (Z.ltb_spec n 128); [|lia].
  - intros n Hn. assert (Hp : ∀ m, (64 ≤ 7 * m → n < 2 ^ (7 * m))%Z).
    { intros m Hm. pose proof (Z.pow_le_mono_r 2 64 (7 * m)). lia. }
    rewrite (leb128_encode_fuel 9 10) by (try split; try apply Hp; lia).
    remember 10 as m. cbn [leb128_encode_loop]. destruct (Z.ltb_spec n 128); [lia|done].
  - intros w n rest Hw Hn. unfold leb128_decode.
    assert (Hb : (n < 2 ^ (7 * Z.of_nat (uvi_buffer_len w)))%Z ∧ (n < 2 ^ (7 * Z.of_nat 10))%Z).
    { pose proof (uvi_width_bounds w Hw) as (?&?&?). split; [lia|].
      pose proof (Z.pow_le_mono_r 2 64 (7 * Z.of_nat 10)). lia. }
    pose proof (uvi_width_bounds w Hw) as (?&_). destruct (uvi_buffer_len w) as [|m]; [lia|].
    rewrite (leb128_encode_fuel 9 m), leb128_decode_encode_loop by lia. simpl.
    destruct (Z.ltb_spec n (2 ^ Z.of_nat w)); [done|lia].
  - intros w bs n rest Hw. unfold leb128_decode. intros ([n' rest']&Hd&Hif)%result_bind_ok.
    destruct (Z.ltb_spec n' (2 ^ Z.of_nat w)); [|done]. injection Hif as <- <-.
    apply leb128_decode_loop_sound in Hd as (?&p&b&->&?&?). split; [lia|eauto].
  - intros w p b rest _ Hp Hb. unfold leb128_decode.
    destruct (leb128_decode_loop_complete (uvi_buffer_len w) p b rest Hp Hb) as [[n ->]| ->];
      cbn [result_bind]; [|by right].
    destruct (n <? _)%Z; [left; by exists n|by right].
  - intros w p n rest rest' _. unfold leb128_decode. intros ([n' r]&Hd&Hif)%result_bind_ok.
    destruct (n' <? _)%Z eqn:Hlt; [|done]. injection Hif as <- ->.
    rewrite (leb128_decode_loop_local _ _ _ _ _ Hd). cbn [result_bind]. by rewrite Hlt.
  - intros w bs _ Hl Hbs. unfold leb128_decode. by rewrite leb128_decode_loop_short.
  - intros w bs _ Hl Hbs. unfold leb128_decode. by rewrite leb128_decode_loop_long.
Qed.
