(* ===== verification/Multiaddr.v ===== *)
(** * Multiaddresses

    The [multiaddr] crate: protocols with their binary and their textual form
    ([multiaddr/src/protocol.rs]), addresses as byte strings with the operations
    of [multiaddr/src/lib.rs], and the translation of observed addresses of
    [core/src/translation.rs].  A [Multiaddr] implements a list of protocols: the
    refinement theorem relates every operation to one on lists. *)

From Stdlib Require Import ZArith Lia String.
From S2P Require Import Prelude Varint StdText.

Local Open Scope nat_scope.

(** ** Crates the code calls

    [multihash], [bs58], [data-encoding]'s BASE32, [percent-encoding], and the
    case mapping of Unicode strings. *)

Class AddrCodecs := {
  Multihash : Type;
  multihash_eq_dec :: EqDecision Multihash;
  mh_to_bytes : Multihash → bytes;
  mh_from_bytes : bytes → option Multihash;
  bs58_encode : bytes → bytes;
  bs58_decode : bytes → option bytes;
  base32_encode : bytes → bytes;
  base32_decode_len : nat → option nat;
  base32_decode_mut : bytes → option bytes;
  percent_encode : (u8 → bool) → bytes → bytes;
  percent_decode : bytes → bytes;
  to_uppercase : bytes → bytes;
  to_lowercase : bytes → bytes
}.

Definition is_ascii (b : u8) : bool := in_range 0 0x7F b.

Definition ascii_upper (b : u8) : u8 :=
  if in_range 97 122 b then byte.of_Z (byte.unsigned b - 32) else b.
Definition ascii_lower (b : u8) : u8 :=
  if in_range 65 90 b then byte.of_Z (byte.unsigned b + 32) else b.

(** The alphabet of BASE32: [A-Z2-7]. *)
Definition base32_char (b : u8) : bool := in_range 65 90 b || in_range 50 55 b.

(** Letters and digits, the alphabet of base 58 among them. *)
Definition alphanumeric (b : u8) : bool := in_range 48 57 b || in_range 65 90 b || in_range 97 122 b.

Class AddrCodecsLaws `{AddrCodecs} := {
  mh_roundtrip h : mh_from_bytes (mh_to_bytes h) = Some h;
  mh_size h : (Z.of_nat (length (mh_to_bytes h)) < 2 ^ 64)%Z;
  bs58_roundtrip bs : bs58_decode (bs58_encode bs) = Some bs;
  bs58_chars bs : Forall (λ b, alphanumeric b = true) (bs58_encode bs);
  base32_roundtrip bs n : length bs = 5 * n → base32_decode_mut (base32_encode bs) = Some bs;
  base32_decoded_len s bs : base32_decode_mut s = Some bs →
    base32_decode_len (length s) = Some (length bs);
  base32_len bs n : length bs = 5 * n → length (base32_encode bs) = 8 * n;
  base32_chars bs n : length bs = 5 * n → Forall (λ b, base32_char b = true) (base32_encode bs);
  percent_roundtrip set s : set Byte.x25 = true → percent_decode (percent_encode set s) = s;
  percent_chars set s b : b ∈ percent_encode set s →
    is_ascii b = true ∧ (b = Byte.x25 ∨ alphanumeric b = true ∨ set b = false);
  percent_decode_len s : length (percent_decode s) ≤ length s;
  to_uppercase_ascii s : Forall (λ b, is_ascii b = true) s → to_uppercase s = ascii_upper <$> s;
  to_lowercase_ascii s : Forall (λ b, is_ascii b = true) s → to_lowercase s = ascii_lower <$> s
}.

(** ** Errors: [multiaddr/src/errors.rs] *)

Inductive ParsingCause :=
  | IoError
  | MultihashError
  | Bs58Error
  | AddrParseError
  | ParseIntError
  | Utf8Error.

Inductive AddrError :=
  | DataLessThanLen
  | InvalidMultiaddr
  | InvalidProtocolString
  | InvalidUvar (e : VarintError)
  | ParsingError (e : ParsingCause)
  | UnknownProtocolId (id : Z)
  | UnknownProtocolString (s : bytes).

(** ** Protocols: [multiaddr/src/protocol.rs] *)

Definition DCCP : Z := 33.
Definition DNS : Z := 53.
Definition DNS4 : Z := 54.
Definition DNS6 : Z := 55.
Definition DNSADDR : Z := 56.
Definition HTTP : Z := 480.
Definition HTTPS : Z := 443.
Definition IP4 : Z := 4.
Definition IP6 : Z := 41.
Definition P2P_WEBRTC_DIRECT : Z := 276.
Definition P2P_WEBRTC_STAR : Z := 275.
Definition P2P_WEBSOCKET_STAR : Z := 479.
Definition MEMORY : Z := 777.
Definition ONION : Z := 444.
Definition ONION3 : Z := 445.
Definition P2P : Z := 421.
Definition P2P_CIRCUIT : Z := 290.
Definition QUIC : Z := 460.
Definition SCTP : Z := 132.
Definition TCP : Z := 6.
Definition UDP : Z := 273.
Definition UDT : Z := 301.
Definition UNIX : Z := 400.
Definition UTP : Z := 302.
Definition WS : Z := 477.
Definition WS_WITH_PATH : Z := 4770.
Definition WSS : Z := 478.
Definition WSS_WITH_PATH : Z := 4780.

(** [PATH_SEGMENT_ENCODE_SET]: the control characters and what [add] adds. *)
Definition PATH_SEGMENT_ENCODE_SET (b : u8) : bool :=
  in_range 0 0x1F b || in_range 0x7F 0x7F b ||
  bool_decide (b ∈ [Byte.x25; Byte.x2f; Byte.x60; Byte.x3f; Byte.x7b; Byte.x7d; Byte.x20;
                    Byte.x22; Byte.x23; Byte.x3c; Byte.x3e]).

Section multiaddr.
Context `{Varint} `{AddrCodecs}.

Inductive Protocol :=
  | Dccp (port : Z)
  | Dns (s : bytes)
  | Dns4 (s : bytes)
  | Dns6 (s : bytes)
  | Dnsaddr (s : bytes)
  | Http
  | Https
  | Ip4 (a : Ipv4Addr)
  | Ip6 (a : Ipv6Addr)
  | P2pWebRtcDirect
  | P2pWebRtcStar
  | P2pWebSocketStar
  | Memory (port : Z)
  | Onion (addr : bytes) (port : Z)
  | Onion3 (addr : bytes) (port : Z)
  | P2p (h : Multihash)
  | P2pCircuit
  | Quic
  | Sctp (port : Z)
  | Tcp (port : Z)
  | Udp (port : Z)
  | Udt
  | Unix (s : bytes)
  | Utp
  | Ws (s : bytes)
  | Wss (s : bytes).

#[global] Instance protocol_eq_decision : EqDecision Protocol.
Proof. solve_decision. Defined.

Definition get_key (p : Protocol) : result AddrError Z :=
  match p with
  | Ip4 _ => Ok IP4
  | Ip6 _ => Ok IP6
  | Memory _ => Ok MEMORY
  | Onion _ _ => Ok ONION
  | Onion3 _ _ => Ok ONION3
  | Tcp _ => Ok TCP
  | Udp _ => Ok UDP
  | Sctp _ => Ok SCTP
  | Udt => Ok UDT
  | Utp => Ok UTP
  | Unix _ => Ok UNIX
  | Quic => Ok QUIC
  | Dccp _ => Ok DCCP
  | Dns _ => Ok DNS
  | Dns4 _ => Ok DNS4
  | Dns6 _ => Ok DNS6
  | Dnsaddr _ => Ok DNSADDR
  | Ws _ => Ok WS
  | Wss _ => Ok WSS
  | Http => Ok HTTP
  | Https => Ok HTTPS
  | P2pCircuit => Ok P2P_CIRCUIT
  | P2pWebRtcDirect => Ok P2P_WEBRTC_DIRECT
  | P2pWebRtcStar => Ok P2P_WEBRTC_STAR
  | P2pWebSocketStar => Ok P2P_WEBSOCKET_STAR
  | P2p _ => Err InvalidProtocolString
  end.

Definition get_enum (id : Z) : result AddrError Protocol :=
  if (id =? IP4)%Z then Ok (Ip4 (Ipv4 Byte.x7f Byte.x00 Byte.x00 Byte.x01))
  else if (id =? IP6)%Z then Ok (Ip6 (Ipv6 [0; 0; 0; 0; 0; 0xffff; 0xc00a; 0x2ff]%Z))
  else if (id =? MEMORY)%Z then Ok (Memory 0)
  else if (id =? ONION)%Z then Ok (Onion (replicate 10 Byte.x00) 0)
  else if (id =? ONION3)%Z then Ok (Onion3 (replicate 35 Byte.x00) 0)
  else if (id =? TCP)%Z then Ok (Tcp 0)
  else if (id =? UDP)%Z then Ok (Udp 0)
  else if (id =? SCTP)%Z then Ok (Sctp 0)
  else if (id =? UDT)%Z then Ok Udt
  else if (id =? UTP)%Z then Ok Utp
  else if (id =? UNIX)%Z then Ok (Unix [])
  else if (id =? QUIC)%Z then Ok Quic
  else if (id =? DCCP)%Z then Ok (Dccp 0)
  else if (id =? DNS)%Z then Ok (Dns [])
  else if (id =? DNS4)%Z then Ok (Dns4 [])
  else if (id =? DNS6)%Z then Ok (Dns6 [])
  else if (id =? DNSADDR)%Z then Ok (Dnsaddr [])
  else if (id =? WS)%Z then Ok (Ws (b_str "/"))
  else if (id =? WSS)%Z then Ok (Wss (b_str "/"))
  else if (id =? HTTP)%Z then Ok Http
  else if (id =? HTTPS)%Z then Ok Https
  else if (id =? P2P_CIRCUIT)%Z then Ok P2pCircuit
  else if (id =? P2P_WEBRTC_DIRECT)%Z then Ok P2pWebRtcDirect
  else if (id =? P2P_WEBRTC_STAR)%Z then Ok P2pWebRtcStar
  else if (id =? P2P_WEBSOCKET_STAR)%Z then Ok P2pWebSocketStar
  else Err (UnknownProtocolId id).

(** *** Binary form *)

Definition split_at (n : Z) (input : bytes) : result AddrError (bytes * bytes) :=
  if (Z.of_nat (length input) <? n)%Z then Err DataLessThanLen
  else Ok (take (Z.to_nat n) input, drop (Z.to_nat n) input).

(** [ReadBytesExt] on a cursor over a slice. *)
Definition read_be (n : nat) (rdr : bytes) : result AddrError (Z * bytes) :=
  if decide (length rdr < n) then Err (ParsingError IoError)
  else Ok (be_combine (take n rdr), drop n rdr).

Fixpoint read_segments (n : nat) (rdr : bytes) : result AddrError (list Z) :=
  match n with
  | 0 => Ok []
  | S n =>
      let? (x, rdr) := read_be 2 rdr in
      let? seg := read_segments n rdr in
      Ok (x :: seg)
  end.

Definition uvarint (w : nat) (input : bytes) : result AddrError (Z * bytes) :=
  map_err InvalidUvar (uvi_decode w input).

Definition from_utf8 (data : bytes) : result AddrError bytes :=
  if utf8_valid data then Ok data else Err (ParsingError Utf8Error).

(** The branches for a port and for a string prefixed with its length. *)
Definition port_from_bytes (mk : Z → Protocol) (input : bytes) : result AddrError (Protocol * bytes) :=
  let? (data, rest) := split_at 2 input in
  let? (num, _) := read_be 2 data in
  Ok (mk num, rest).

Definition str_from_bytes (mk : bytes → Protocol) (input : bytes) : result AddrError (Protocol * bytes) :=
  let? (n, input) := uvarint 64 input in
  let? (data, rest) := split_at n input in
  let? s := from_utf8 data in
  Ok (mk s, rest).

Definition from_bytes (input : bytes) : result AddrError (Protocol * bytes) :=
  let? (id, input) := uvarint 32 input in
  if (id =? DCCP)%Z then port_from_bytes Dccp input
  else if (id =? DNS)%Z then str_from_bytes Dns input
  else if (id =? DNS4)%Z then str_from_bytes Dns4 input
  else if (id =? DNS6)%Z then str_from_bytes Dns6 input
  else if (id =? DNSADDR)%Z then str_from_bytes Dnsaddr input
  else if (id =? HTTP)%Z then Ok (Http, input)
  else if (id =? HTTPS)%Z then Ok (Https, input)
  else if (id =? IP4)%Z then
    let? (data, rest) := split_at 4 input in
    Ok (Ip4 (Ipv4 (data !!! 0) (data !!! 1) (data !!! 2) (data !!! 3)), rest)
  else if (id =? IP6)%Z then
    let? (data, rest) := split_at 16 input in
    let? seg := read_segments 8 data in
    Ok (Ip6 (Ipv6 seg), rest)
  else if (id =? P2P_WEBRTC_DIRECT)%Z then Ok (P2pWebRtcDirect, input)
  else if (id =? P2P_WEBRTC_STAR)%Z then Ok (P2pWebRtcStar, input)
  else if (id =? P2P_WEBSOCKET_STAR)%Z then Ok (P2pWebSocketStar, input)
  else if (id =? MEMORY)%Z then
    let? (data, rest) := split_at 8 input in
    let? (num, _) := read_be 8 data in
    Ok (Memory num, rest)
  else if (id =? ONION)%Z then
    let? (data, rest) := split_at 12 input in
    let port := be_combine (take 2 (drop 10 data)) in
    Ok (Onion (take 10 data) port, rest)
  else if (id =? ONION3)%Z then
    let? (data, rest) := split_at 37 input in
    let port := be_combine (take 2 (drop 35 data)) in
    Ok (Onion3 (take 35 data) port, rest)
  else if (id =? P2P)%Z then
    let? (n, input) := uvarint 64 input in
    let? (data, rest) := split_at n input in
    let? h := ok_or (ParsingError MultihashError) (mh_from_bytes data) in
    Ok (P2p h, rest)
  else if (id =? P2P_CIRCUIT)%Z then Ok (P2pCircuit, input)
  else if (id =? QUIC)%Z then Ok (Quic, input)
  else if (id =? SCTP)%Z then port_from_bytes Sctp input
  else if (id =? TCP)%Z then port_from_bytes Tcp input
  else if (id =? UDP)%Z then port_from_bytes Udp input
  else if (id =? UDT)%Z then Ok (Udt, input)
  else if (id =? UNIX)%Z then str_from_bytes Unix input
  else if (id =? UTP)%Z then Ok (Utp, input)
  else if (id =? WS)%Z then Ok (Ws (b_str "/"), input)
  else if (id =? WS_WITH_PATH)%Z then str_from_bytes Ws input
  else if (id =? WSS)%Z then Ok (Wss (b_str "/"), input)
  else if (id =? WSS_WITH_PATH)%Z then str_from_bytes Wss input
  else Err (UnknownProtocolId id).

(** What [write_bytes] appends to its writer; writing to a vector does not fail. *)
Definition port_to_bytes (id port : Z) : bytes := uvi_encode id ++ be_split 2 port.

Definition str_to_bytes (id : Z) (s : bytes) : bytes :=
  uvi_encode id ++ uvi_encode (Z.of_nat (length s)) ++ s.

Definition write_bytes (p : Protocol) : bytes :=
  match p with
  | Ip4 addr => uvi_encode IP4 ++ octets addr
  | Ip6 addr => uvi_encode IP6 ++ (segments addr ≫= be_split 2)
  | Tcp port => port_to_bytes TCP port
  | Udp port => port_to_bytes UDP port
  | Dccp port => port_to_bytes DCCP port
  | Sctp port => port_to_bytes SCTP port
  | Dns s => str_to_bytes DNS s
  | Dns4 s => str_to_bytes DNS4 s
  | Dns6 s => str_to_bytes DNS6 s
  | Dnsaddr s => str_to_bytes DNSADDR s
  | Unix s => str_to_bytes UNIX s
  | P2p h => str_to_bytes P2P (mh_to_bytes h)
  | Onion addr port => uvi_encode ONION ++ addr ++ be_split 2 port
  | Onion3 addr port => uvi_encode ONION3 ++ addr ++ be_split 2 port
  | Quic => uvi_encode QUIC
  | Utp => uvi_encode UTP
  | Udt => uvi_encode UDT
  | Http => uvi_encode HTTP
  | Https => uvi_encode HTTPS
  | Ws s => if decide (s = b_str "/") then uvi_encode WS else str_to_bytes WS_WITH_PATH s
  | Wss s => if decide (s = b_str "/") then uvi_encode WSS else str_to_bytes WSS_WITH_PATH s
  | P2pWebSocketStar => uvi_encode P2P_WEBSOCKET_STAR
  | P2pWebRtcStar => uvi_encode P2P_WEBRTC_STAR
  | P2pWebRtcDirect => uvi_encode P2P_WEBRTC_DIRECT
  | P2pCircuit => uvi_encode P2P_CIRCUIT
  | Memory port => uvi_encode MEMORY ++ be_split 8 port
  end.

(** *** Textual form *)

(** [read_onion_impl!] at a length and an encoded length. *)
Definition read_onion_impl (len encoded_len : nat) (s : bytes) : result AddrError (bytes * Z) :=
  let parts := split_char Byte.x3a s in
  let? (b32, parts) := ok_or InvalidMultiaddr
    (match parts with p :: ps => Some (p, ps) | [] => None end) in
  if decide (length b32 ≠ encoded_len) then Err InvalidMultiaddr
  else
    let? (p, parts) := ok_or InvalidMultiaddr
      (match parts with p :: ps => Some (p, ps) | [] => None end) in
    let? port := ok_or (ParsingError ParseIntError) (parse_uint 16 p) in
    if decide (port = 0%Z) then Err InvalidMultiaddr
    else if decide (parts ≠ []) then Err InvalidMultiaddr
    else
      let? n := ok_or InvalidMultiaddr (base32_decode_len (length b32)) in
      if decide (len ≠ n) then Err InvalidMultiaddr
      else
        let? buf := ok_or InvalidMultiaddr (base32_decode_mut b32) in
        Ok (buf, port).

Definition read_onion : bytes → result AddrError (bytes * Z) := read_onion_impl 10 16.
Definition read_onion3 : bytes → result AddrError (bytes * Z) := read_onion_impl 35 56.

(** [iter.next().ok_or(Error::InvalidProtocolString)?]. *)
Definition next_part (iter : list bytes) : result AddrError (bytes * list bytes) :=
  match iter with
  | s :: iter => Ok (s, iter)
  | [] => Err InvalidProtocolString
  end.

Definition parse_port (bits : Z) (s : bytes) : result AddrError Z :=
  ok_or (ParsingError ParseIntError) (parse_uint bits s).

Definition from_str_parts (iter : list bytes) : result AddrError (Protocol * list bytes) :=
  let? (tag, iter) := next_part iter in
  if decide (tag = b_str "ip4") then
    let? (s, iter) := next_part iter in
    let? a := ok_or (ParsingError AddrParseError) (ipv4_from_str s) in Ok (Ip4 a, iter)
  else if decide (tag = b_str "tcp") then
    let? (s, iter) := next_part iter in
    let? port := parse_port 16 s in Ok (Tcp port, iter)
  else if decide (tag = b_str "udp") then
    let? (s, iter) := next_part iter in
    let? port := parse_port 16 s in Ok (Udp port, iter)
  else if decide (tag = b_str "dccp") then
    let? (s, iter) := next_part iter in
    let? port := parse_port 16 s in Ok (Dccp port, iter)
  else if decide (tag = b_str "ip6") then
    let? (s, iter) := next_part iter in
    let? a := ok_or (ParsingError AddrParseError) (ipv6_from_str s) in Ok (Ip6 a, iter)
  else if decide (tag = b_str "dns") then
    let? (s, iter) := next_part iter in Ok (Dns s, iter)
  else if decide (tag = b_str "dns4") then
    let? (s, iter) := next_part iter in Ok (Dns4 s, iter)
  else if decide (tag = b_str "dns6") then
    let? (s, iter) := next_part iter in Ok (Dns6 s, iter)
  else if decide (tag = b_str "dnsaddr") then
    let? (s, iter) := next_part iter in Ok (Dnsaddr s, iter)
  else if decide (tag = b_str "sctp") then
    let? (s, iter) := next_part iter in
    let? port := parse_port 16 s in Ok (Sctp port, iter)
  else if decide (tag = b_str "udt") then Ok (Udt, iter)
  else if decide (tag = b_str "utp") then Ok (Utp, iter)
  else if decide (tag = b_str "unix") then
    let? (s, iter) := next_part iter in Ok (Unix s, iter)
  else if decide (tag = b_str "p2p") then
    let? (s, iter) := next_part iter in
    let? decoded := ok_or (ParsingError Bs58Error) (bs58_decode s) in
    let? h := ok_or (ParsingError MultihashError) (mh_from_bytes decoded) in Ok (P2p h, iter)
  else if decide (tag = b_str "http") then Ok (Http, iter)
  else if decide (tag = b_str "https") then Ok (Https, iter)
  else if decide (tag = b_str "onion") then
    let? (s, iter) := next_part iter in
    let? (a, p) := read_onion (to_uppercase s) in Ok (Onion a p, iter)
  else if decide (tag = b_str "onion3") then
    let? (s, iter) := next_part iter in
    let? (a, p) := read_onion3 (to_uppercase s) in Ok (Onion3 a p, iter)
  else if decide (tag = b_str "quic") then Ok (Quic, iter)
  else if decide (tag = b_str "ws") then Ok (Ws (b_str "/"), iter)
  else if decide (tag = b_str "wss") then Ok (Wss (b_str "/"), iter)
  else if decide (tag = b_str "x-parity-ws") then
    let? (s, iter) := next_part iter in
    let? decoded := from_utf8 (percent_decode s) in Ok (Ws decoded, iter)
  else if decide (tag = b_str "x-parity-wss") then
    let? (s, iter) := next_part iter in
    let? decoded := from_utf8 (percent_decode s) in Ok (Wss decoded, iter)
  else if decide (tag = b_str "p2p-websocket-star") then Ok (P2pWebSocketStar, iter)
  else if decide (tag = b_str "p2p-webrtc-star") then Ok (P2pWebRtcStar, iter)
  else if decide (tag = b_str "p2p-webrtc-direct") then Ok (P2pWebRtcDirect, iter)
  else if decide (tag = b_str "p2p-circuit") then Ok (P2pCircuit, iter)
  else if decide (tag = b_str "memory") then
    let? (s, iter) := next_part iter in
    let? port := parse_port 64 s in Ok (Memory port, iter)
  else Err (UnknownProtocolString tag).

(** [Display for Protocol]. *)
Definition protocol_to_string (p : Protocol) : bytes :=
  match p with
  | Dccp port => b_str "/dccp/" ++ fmt_dec port
  | Dns s => b_str "/dns/" ++ s
  | Dns4 s => b_str "/dns4/" ++ s
  | Dns6 s => b_str "/dns6/" ++ s
  | Dnsaddr s => b_str "/dnsaddr/" ++ s
  | Http => b_str "/http"
  | Https => b_str "/https"
  | Ip4 addr => b_str "/ip4/" ++ ipv4_to_string addr
  | Ip6 addr => b_str "/ip6/" ++ ipv6_to_string addr
  | P2pWebRtcDirect => b_str "/p2p-webrtc-direct"
  | P2pWebRtcStar => b_str "/p2p-webrtc-star"
  | P2pWebSocketStar => b_str "/p2p-websocket-star"
  | Memory port => b_str "/memory/" ++ fmt_dec port
  | Onion addr port =>
      b_str "/onion/" ++ to_lowercase (base32_encode addr) ++ b_str ":" ++ fmt_dec port
  | Onion3 addr port =>
      b_str "/onion3/" ++ to_lowercase (base32_encode addr) ++ b_str ":" ++ fmt_dec port
  | P2p c => b_str "/p2p/" ++ bs58_encode (mh_to_bytes c)
  | P2pCircuit => b_str "/p2p-circuit"
  | Quic => b_str "/quic"
  | Sctp port => b_str "/sctp/" ++ fmt_dec port
  | Tcp port => b_str "/tcp/" ++ fmt_dec port
  | Udp port => b_str "/udp/" ++ fmt_dec port
  | Udt => b_str "/udt"
  | Unix s => b_str "/unix/" ++ s
  | Utp => b_str "/utp"
  | Ws s =>
      if decide (s = b_str "/") then b_str "/ws"
      else b_str "/x-parity-ws/" ++ percent_encode PATH_SEGMENT_ENCODE_SET s
  | Wss s =>
      if decide (s = b_str "/") then b_str "/wss"
      else b_str "/x-parity-wss/" ++ percent_encode PATH_SEGMENT_ENCODE_SET s
  end.

(** ** Addresses: [multiaddr/src/lib.rs]

    A [Multiaddr] is its byte string.  [None] is a panic of [expect] on a byte
    string that is not a sequence of protocols. *)

Definition Multiaddr : Type := bytes.

Definition maddr_empty : Multiaddr := [].

(** [push] and [with] write at the end of the vector. *)
Definition push (m : Multiaddr) (p : Protocol) : Multiaddr := m ++ write_bytes p.

Fixpoint pop_loop (fuel : nat) (slice : bytes) : option (Protocol * bytes) :=
  match fuel with
  | 0 => None
  | S fuel =>
      match from_bytes slice with
      | Err _ => None
      | Ok (p, s) => match s with [] => Some (p, slice) | _ :: _ => pop_loop fuel s end
      end
  end.

Definition pop (m : Multiaddr) : option (option Protocol * Multiaddr) :=
  match m with
  | [] => Some (None, m)
  | _ :: _ =>
      '(protocol, slice) ← pop_loop (length m) m;
      let remaining_len := length m - length slice in
      Some (Some protocol, take remaining_len m)
  end.

(** [Iter::next]. *)
Definition iter_next (it : bytes) : option (option (Protocol * bytes)) :=
  match it with
  | [] => Some None
  | _ :: _ => match from_bytes it with Ok (p, next) => Some (Some (p, next)) | Err _ => None end
  end.

Fixpoint iter_collect (fuel : nat) (it : bytes) : option (list Protocol) :=
  match fuel with
  | 0 => None
  | S fuel =>
      o ← iter_next it;
      match o with
      | None => Some []
      | Some (p, it) => ps ← iter_collect fuel it; Some (p :: ps)
      end
  end.

(** [self.iter().collect::<Vec<_>>()]. *)
Definition iter (m : Multiaddr) : option (list Protocol) := iter_collect (S (length m)) m.

Definition value_for_protocol (m : Multiaddr) (code : Z) : option (option bytes) :=
  components ← iter m;
  Some (protocol_to_string <$> List.find (λ comp,
    match get_key comp with Ok key => (key =? code)%Z | Err _ => false end) components).

Definition ipv4_is_loopback (a : Ipv4Addr) : bool := bool_decide (octet0 a = Byte.x7f).
Definition ipv4_is_private (a : Ipv4Addr) : bool :=
  bool_decide (octet0 a = Byte.x0a) ||
  (bool_decide (octet0 a = Byte.xac) && in_range 16 31 (octet1 a)) ||
  (bool_decide (octet0 a = Byte.xc0) && bool_decide (octet1 a = Byte.xa8)).
Definition ipv4_is_link_local (a : Ipv4Addr) : bool :=
  bool_decide (octet0 a = Byte.xa9) && bool_decide (octet1 a = Byte.xfe).
Definition ipv6_is_loopback (a : Ipv6Addr) : bool :=
  bool_decide (segments a = [0; 0; 0; 0; 0; 0; 0; 1]%Z).

Definition is_loopback_addr (m : Multiaddr) : option bool :=
  components ← iter m;
  Some (foldl (λ is_loopback comp,
    match comp with
    | Ip4 ipv4_addr => ipv4_is_loopback ipv4_addr
    | Ip6 ipv6_addr => ipv6_is_loopback ipv6_addr
    | _ => is_loopback
    end) false components).

Definition is_private_addr (m : Multiaddr) : option bool :=
  components ← iter m;
  Some (foldl (λ is_private comp,
    match comp with
    | Ip4 a => ipv4_is_private a || ipv4_is_loopback a || ipv4_is_link_local a
    | Ip6 a => ipv6_is_loopback a
    | _ => is_private
    end) false components).

Definition is_ipv6_addr (m : Multiaddr) : option bool :=
  components ← iter m;
  Some (foldl (λ is_ipv6 comp, match comp with Ip6 _ => true | _ => is_ipv6 end) false components).

Definition should_consume_fd (m : Multiaddr) : option bool :=
  components ← iter m;
  Some (foldl (λ find p,
    match get_key p with
    | Ok key => if decide (key = UNIX ∨ key = TCP) then true else find
    | Err _ => find
    end) false components).

(** The loop of [replace]: [None] when it returns early. *)
Fixpoint replace_loop (ps : list Protocol) (i at_ : nat) (by_ : Protocol → option Protocol)
    (address : Multiaddr) (replaced : bool) : option Multiaddr :=
  match ps with
  | [] => if replaced then Some address else None
  | p :: ps =>
      if decide (i = at_) then
        match by_ p with
        | Some q => replace_loop ps (S i) at_ by_ (push address q) true
        | None => None
        end
      else replace_loop ps (S i) at_ by_ (push address p) replaced
  end.

Definition replace (m : Multiaddr) (at_ : nat) (by_ : Protocol → option Protocol) :
    option (option Multiaddr) :=
  ps ← iter m; Some (replace_loop ps 0 at_ by_ maddr_empty false).

(** [Display for Multiaddr]. *)
Definition maddr_to_string (m : Multiaddr) : option bytes :=
  ps ← iter m; Some (ps ≫= protocol_to_string).

Definition from_iter (ps : list Protocol) : Multiaddr := ps ≫= write_bytes.

Fixpoint from_str_loop (fuel : nat) (parts : list bytes) (writer : bytes) : result AddrError Multiaddr :=
  match fuel, parts with
  | _, [] | 0, _ => Ok writer
  | S fuel, _ =>
      let? (p, parts) := from_str_parts parts in
      from_str_loop fuel parts (writer ++ write_bytes p)
  end.

Definition from_str (input : bytes) : result AddrError Multiaddr :=
  match split_char Byte.x2f input with
  | [] :: parts => from_str_loop (length parts) parts []
  | _ => Err InvalidMultiaddr
  end.

Fixpoint try_from_loop (fuel : nat) (slice : bytes) : result AddrError unit :=
  match fuel, slice with
  | _, [] | 0, _ => Ok tt
  | S fuel, _ => let? (_, s) := from_bytes slice in try_from_loop fuel s
  end.

(** [TryFrom<Vec<u8>>]. *)
Definition try_from (v : bytes) : result AddrError Multiaddr :=
  let? _ := try_from_loop (length v) v in Ok v.

(** ** Address translation: [core/src/translation.rs]

    The closure asks for the first protocol of [observed] only when the first
    one of [original] is an address. *)

Definition is_ip_or_dns (p : Protocol) : bool :=
  match p with
  | Ip4 _ | Ip6 _ | Dns _ | Dns4 _ | Dns6 _ => true
  | _ => false
  end.

Definition address_translation (original observed : Multiaddr) : option (option Multiaddr) :=
  ps ← iter original;
  first ← (if existsb is_ip_or_dns (take 1 ps) then iter_next observed else Some None);
  replace original 0 (λ proto,
    if is_ip_or_dns proto then
      match first with
      | Some (x, _) => if is_ip_or_dns x then Some x else None
      | None => None
      end
    else None).
End multiaddr.

(** ** Parsers of prefixes

    A parser that, when it succeeds, has read a prefix of its input, whatever
    follows, and returns a value with [Q]. *)

Definition parses {E A} (Q : A → Prop) (f : bytes → result E (A * bytes)) : Prop :=
  ∀ input a rest, f input = Ok (a, rest) →
    Q a ∧ ∃ pre, input = pre ++ rest ∧ ∀ rest', f (pre ++ rest') = Ok (a, rest').

Lemma parses_ret {E A} (Q : A → Prop) (a : A) : Q a → parses (E := E) Q (λ input, Ok (a, input)).
Proof. intros HQ input b rest [= <- <-]. split; [done|]. by exists []. Qed.

Lemma parses_err {E A} (Q : A → Prop) (e : E) : parses (A := A) Q (λ _, Err e).
Proof. by intros input b rest [=]. Qed.

Lemma parses_bind {E A B} (P : A → Prop) (Q : B → Prop) (f : bytes → result E (A * bytes))
    (g : A → bytes → result E (B * bytes)) :
  parses P f → (∀ a, P a → parses Q (g a)) →
  parses Q (λ input, let? (a, rest) := f input in g a rest).
Proof.
  intros Hf Hg input b rest ([a mid]&Ha&Hb)%result_bind_ok.
  destruct (Hf _ _ _ Ha) as (HP&pre1&->&H1). destruct (Hg a HP _ _ _ Hb) as (HQ&pre2&->&H2).
  split; [done|]. exists (pre1 ++ pre2). split; [by rewrite app_assoc|]. intros rest'.
  rewrite <-app_assoc, H1. apply H2.
Qed.

Lemma parses_pure {E A B} (Q : B → Prop) (r : result E A) (k : A → B) :
  (∀ a, r = Ok a → Q (k a)) → parses Q (λ input, let? a := r in Ok (k a, input)).
Proof.
  intros Hr input b rest (a&Ha&[= <- <-])%result_bind_ok. split; [by apply Hr|].
  exists []. split; [done|]. intros rest'. by rewrite Ha.
Qed.

Lemma parses_pure_fst {E A B C} (Q : B → Prop) (r : result E (A * C)) (k : A → B) :
  (∀ a c, r = Ok (a, c) → Q (k a)) → parses Q (λ input, let? (a, _) := r in Ok (k a, input)).
Proof.
  intros Hr input b rest ([a c]&Ha&[= <- <-])%result_bind_ok. split; [by eapply Hr|].
  exists []. split; [done|]. intros rest'. by rewrite Ha.
Qed.

Create HintDb parses.

Lemma parses_split n : (0 ≤ n)%Z → parses (λ d, Z.of_nat (length d) = n) (split_at n).
Proof.
  intros Hn input d rest. unfold split_at. destruct (Z.ltb_spec (Z.of_nat (length input)) n); [done|].
  intros [= <- <-]. assert (Hl : length (take (Z.to_nat n) input) = Z.to_nat n) by (rewrite length_take; lia).
  split; [rewrite Hl; lia|]. exists (take (Z.to_nat n) input). split; [by rewrite take_drop|].
  intros rest'. rewrite length_app, Hl. destruct (Z.ltb_spec (Z.of_nat (Z.to_nat n + length rest')) n); [lia|].
  by rewrite take_app_length', drop_app_length'.
Qed.

Lemma split_at_app d rest :
  split_at (Z.of_nat (length d)) (d ++ rest) = Ok (d, rest).
Proof.
  unfold split_at. rewrite length_app, Nat2Z.id.
  destruct (Z.ltb_spec (Z.of_nat (length d + length rest)) (Z.of_nat (length d))); [lia|].
  by rewrite take_app_length, drop_app_length.
Qed.

(** Evaluates the comparisons of protocol numbers in the goal. *)
Ltac eval_ids :=
  repeat match goal with
    | |- context [(?a =? ?b)%Z] => let v := eval vm_compute in (a =? b)%Z in change (a =? b)%Z with v
    end; cbv iota.

Section protocol_theory.
Context `{HV : Varint} `{HVL : !VarintCodecLaws} `{HC : AddrCodecs} `{HCL : !AddrCodecsLaws}.

Definition u16_ok (z : Z) : Prop := (0 ≤ z < 2 ^ 16)%Z.
Definition str_ok (s : bytes) : Prop := utf8_valid s = true ∧ (Z.of_nat (length s) < 2 ^ 64)%Z.

(** The values the Rust types allow. *)
Definition protocol_wf (p : Protocol) : Prop :=
  match p with
  | Dccp port | Sctp port | Tcp port | Udp port => u16_ok port
  | Dns s | Dns4 s | Dns6 s | Dnsaddr s | Unix s | Ws s | Wss s => str_ok s
  | Ip6 a => ipv6_wf a
  | Memory port => (0 ≤ port < 2 ^ 64)%Z
  | Onion addr port => length addr = 10 ∧ u16_ok port
  | Onion3 addr port => length addr = 35 ∧ u16_ok port
  | _ => True
  end.

Lemma parses_uvarint w : uvi_width w → parses (λ n, 0 ≤ n < 2 ^ Z.of_nat w)%Z (uvarint w).
Proof.
  intros Hw input n rest. unfold uvarint. destruct (uvi_decode w input) as [[m r]|] eqn:Hd; [|done].
  intros [= <- <-]. split; [by eapply codec_decode_range|].
  destruct (codec_decode_consumes w input m r Hw Hd) as (b&p&->). exists (b :: p).
  split; [done|]. intros rest'. by rewrite (codec_decode_local w (b :: p) m r).
Qed.

Lemma read_be_range n rdr x rest :
  read_be n rdr = Ok (x, rest) → (0 ≤ x < 2 ^ (8 * Z.of_nat n))%Z ∧ n ≤ length rdr.
Proof.
  unfold read_be. case_decide; [done|]. intros [= <- _]. split; [|lia].
  pose proof (be_combine_bound (take n rdr)) as Hb. rewrite length_take, Nat.min_l in Hb by lia. done.
Qed.

Lemma read_segments_wf n rdr seg :
  read_segments n rdr = Ok seg → length seg = n ∧ Forall u16_ok seg.
Proof.
  revert rdr seg. induction n as [|n IH]; intros rdr seg; cbn [read_segments]; [by intros [= <-]|].
  intros ([x r]&Hx&(s&Hs&[= <-])%result_bind_ok)%result_bind_ok. destruct (IH _ _ Hs) as [<- ?].
  apply read_be_range in Hx as [Hx _]. split; [done|]. by constructor.
Qed.

Lemma parses_port mk : (∀ z, u16_ok z → protocol_wf (mk z)) → parses protocol_wf (port_from_bytes mk).
Proof.
  intros Hmk. eapply parses_bind; [by apply parses_split|]. intros d _. simpl.
  apply parses_pure_fst. intros x r [Hx _]%read_be_range. by apply Hmk.
Qed.

Lemma parses_str mk : (∀ s, str_ok s → protocol_wf (mk s)) → parses protocol_wf (str_from_bytes mk).
Proof.
  intros Hmk. eapply parses_bind; [apply parses_uvarint, width_64|]. intros n Hn. simpl in Hn.
  eapply parses_bind; [apply parses_split; lia|]. intros d Hd. simpl in Hd.
  apply parses_pure. intros s. unfold from_utf8. destruct (utf8_valid d) eqn:Hu; [|done].
  intros [= <-]. apply Hmk. split; [done|lia].
Qed.

Lemma onion_data d n :
  length d = n + 2 →
  length (take n d) = n ∧ u16_ok (be_combine (take 2 (drop n d))).
Proof.
  intros Hd. split; [rewrite length_take; lia|].
  pose proof (be_combine_bound (take 2 (drop n d))) as Hb.
  rewrite length_take, length_drop in Hb. replace (2 `min` (length d - n)) with 2 in Hb by lia. done.
Qed.

(** A parsed protocol is well formed, and parsing reads a non-empty prefix. *)
Lemma parses_from_bytes : parses protocol_wf from_bytes.
Proof.
  eapply parses_bind; [apply parses_uvarint, width_32|]. intros id _.
  repeat match goal with
    | |- context [if (_ =? _)%Z then _ else _] => destruct (_ =? _)%Z
    end;
    try (by apply parses_ret); try (by apply parses_port); try (by apply parses_str);
    try (by apply parses_err).
  - eapply parses_bind; [by apply parses_split|]. intros d _. by apply parses_ret.
  - eapply parses_bind; [by apply parses_split|]. intros d _. cbv beta iota. apply parses_pure.
    intros seg Hs. by apply read_segments_wf in Hs.
  - eapply parses_bind; [by apply parses_split|]. intros d _. simpl. apply parses_pure_fst.
    by intros x r [Hx _]%read_be_range.
  - eapply parses_bind; [by apply parses_split|]. intros d Hd. simpl in Hd. apply parses_ret.
    apply onion_data; lia.
  - eapply parses_bind; [by apply parses_split|]. intros d Hd. simpl in Hd. apply parses_ret.
    apply onion_data; lia.
  - eapply parses_bind; [apply parses_uvarint, width_64|]. intros n Hn. simpl in Hn.
    eapply parses_bind; [apply parses_split; lia|]. intros d Hd. simpl. by apply parses_pure.
Qed.

Lemma from_bytes_shorter input p rest :
  from_bytes input = Ok (p, rest) → length rest < length input.
Proof.
  intros Hf. pose proof Hf as (_&pre&->&Hl)%parses_from_bytes.
  destruct pre as [|b pre]; [|rewrite length_app; simpl; lia]. specialize (Hl []).
  cbn [app] in Hl. unfold from_bytes in Hl. apply result_bind_ok in Hl as ([id mid]&Hd&_).
  unfold uvarint in Hd. destruct (uvi_decode 32 []) as [[m r]|] eqn:He; [|done].
  by destruct (codec_decode_consumes 32 [] m r width_32 He) as (b&q&[=]).
Qed.

Lemma uvarint_encode w n rest :
  uvi_width w → (0 ≤ n < 2 ^ Z.of_nat w)%Z → uvarint w (uvi_encode n ++ rest) = Ok (n, rest).
Proof. intros. unfold uvarint. by rewrite codec_decode_encode. Qed.

Lemma read_be_split n z rest :
  (0 ≤ z < 2 ^ (Z.of_nat n * 8))%Z → read_be n (be_split n z ++ rest) = Ok (z, rest).
Proof.
  intros Hz. unfold read_be. rewrite length_app, length_be_split, decide_False by lia.
  rewrite take_app_length', drop_app_length' by (by rewrite length_be_split).
  by rewrite be_combine_split_small.
Qed.

Lemma split_at_be n z rest : split_at (Z.of_nat n) (be_split n z ++ rest) = Ok (be_split n z, rest).
Proof. rewrite <-(length_be_split n z) at 1. apply split_at_app. Qed.

Lemma port_roundtrip mk port rest :
  u16_ok port → port_from_bytes mk (be_split 2 port ++ rest) = Ok (mk port, rest).
Proof.
  intros Hp. unfold port_from_bytes. rewrite (split_at_be 2). cbn [result_bind].
  rewrite <-(app_nil_r (be_split 2 port)), read_be_split by done. done.
Qed.

Lemma str_roundtrip mk s rest :
  str_ok s → str_from_bytes mk (uvi_encode (Z.of_nat (length s)) ++ s ++ rest) = Ok (mk s, rest).
Proof.
  intros [Hu Hl]. unfold str_from_bytes. rewrite uvarint_encode by (apply width_64 || lia).
  cbn [result_bind]. rewrite split_at_app. cbn [result_bind]. unfold from_utf8. by rewrite Hu.
Qed.

Lemma read_segments_split gs rest :
  Forall u16_ok gs → read_segments (length gs) ((gs ≫= be_split 2) ++ rest) = Ok gs.
Proof.
  induction 1 as [|g gs Hg Hgs IH]; [done|]. cbn [length read_segments].
  rewrite bind_cons, <-app_assoc, read_be_split by done. cbn [result_bind]. by rewrite IH.
Qed.

Lemma length_segments gs : length (gs ≫= be_split 2) = 2 * length gs.
Proof. induction gs as [|g gs IH]; [done|]. rewrite bind_cons, length_app, IH, length_be_split. simpl. lia. Qed.

Lemma onion_roundtrip (addr : bytes) n port rest :
  length addr = n → u16_ok port →
  split_at (Z.of_nat (n + 2)) (addr ++ be_split 2 port ++ rest) = Ok (addr ++ be_split 2 port, rest) ∧
  be_combine (take 2 (drop n (addr ++ be_split 2 port))) = port ∧
  take n (addr ++ be_split 2 port) = addr.
Proof.
  intros Hl Hp. split_and!.
  - rewrite app_assoc. replace (n + 2) with (length (addr ++ be_split 2 port)); [apply split_at_app|].
    rewrite length_app, length_be_split. lia.
  - rewrite drop_app_length' by done. rewrite take_ge by (by rewrite length_be_split).
    by rewrite be_combine_split_small.
  - by rewrite take_app_length'.
Qed.

Lemma from_bytes_write p rest :
  protocol_wf p → from_bytes (write_bytes p ++ rest) = Ok (p, rest).
Proof.
  intros Hwf. unfold from_bytes.
  destruct p; cbn [write_bytes protocol_wf] in *; unfold port_to_bytes, str_to_bytes; try case_decide;
    rewrite <-?app_assoc, uvarint_encode by (apply width_32 || by vm_compute); cbn [result_bind];
    eval_ids; try (by apply port_roundtrip); try (by apply str_roundtrip); try (by subst).
  - by rewrite (split_at_app (octets a)); destruct a.
  - destruct Hwf as [Hl Hgs]. destruct a as [gs]. cbn [segments] in *.
    replace 16%Z with (Z.of_nat (length (gs ≫= be_split 2))) by (by rewrite length_segments, Hl).
    pose proof (read_segments_split gs [] Hgs) as Hs. rewrite Hl, app_nil_r in Hs.
    rewrite split_at_app. cbn [result_bind]. by rewrite Hs.
  - rewrite (split_at_be 8). cbn [result_bind].
    rewrite <-(app_nil_r (be_split 8 port)), read_be_split by done. done.
  - destruct Hwf as [Hl Hp].
    destruct (onion_roundtrip addr 10 port rest Hl Hp) as (Hs&Hc&Ht). change (Z.of_nat (10 + 2)) with 12%Z in Hs.
    rewrite Hs. cbn [result_bind]. by rewrite Hc, Ht.
  - destruct Hwf as [Hl Hp].
    destruct (onion_roundtrip addr 35 port rest Hl Hp) as (Hs&Hc&Ht). change (Z.of_nat (35 + 2)) with 37%Z in Hs.
    rewrite Hs. cbn [result_bind]. by rewrite Hc, Ht.
  - rewrite uvarint_encode by (apply width_64 || (split; [lia|apply mh_size])). cbn [result_bind].
    rewrite split_at_app. cbn [result_bind]. by rewrite mh_roundtrip.
Qed.

(** ** Addresses as lists of protocols *)

Inductive denotes : Multiaddr → list Protocol → Prop :=
  | denotes_nil : denotes [] []
  | denotes_cons m p rest ps : from_bytes m = Ok (p, rest) → denotes rest ps → denotes m (p :: ps).

Lemma from_bytes_nonempty m p rest : from_bytes m = Ok (p, rest) → m ≠ [].
Proof. intros Hf%from_bytes_shorter ->. simpl in Hf. lia. Qed.

Lemma denotes_wf m ps : denotes m ps → Forall protocol_wf ps.
Proof. induction 1 as [|m p rest ps Hf _ IH]; constructor; [|done]. by apply (parses_from_bytes _ _ _ Hf). Qed.

Lemma denotes_app m1 ps1 m2 ps2 :
  denotes m1 ps1 → denotes m2 ps2 → denotes (m1 ++ m2) (ps1 ++ ps2).
Proof.
  intros H1 H2. induction H1 as [|m p rest ps Hf _ IH]; [done|].
  apply parses_from_bytes in Hf as (_&pre&->&Hl). simpl. rewrite <-app_assoc.
  eapply denotes_cons; [apply Hl|done].
Qed.

Lemma denotes_write p : protocol_wf p → denotes (write_bytes p) [p].
Proof.
  intros Hp. eapply denotes_cons; [|constructor].
  rewrite <-(app_nil_r (write_bytes p)). by apply from_bytes_write.
Qed.

Lemma denotes_push m ps p : denotes m ps → protocol_wf p → denotes (push m p) (ps ++ [p]).
Proof. intros. apply denotes_app; [done|]. by apply denotes_write. Qed.

Lemma denotes_from_iter ps : Forall protocol_wf ps → denotes (from_iter ps) ps.
Proof.
  induction 1 as [|p ps Hp _ IH]; [constructor|]. unfold from_iter. rewrite bind_cons.
  apply (denotes_app _ [p]); [by apply denotes_write|done].
Qed.

Lemma denotes_collect fuel m ps :
  length m < fuel → denotes m ps ↔ iter_collect fuel m = Some ps.
Proof.
  revert m ps. induction fuel as [|fuel IH]; intros m ps Hl; [lia|]. cbn [iter_collect]. split.
  - destruct 1 as [|m p rest ps Hf Hd]; [done|]. pose proof (from_bytes_nonempty _ _ _ Hf).
    unfold iter_next. destruct m; [done|]. rewrite Hf. cbn [mbind option_bind].
    apply from_bytes_shorter in Hf. by rewrite (proj1 (IH rest ps ltac:(lia)) Hd).
  - unfold iter_next. destruct m as [|b m]; [intros [= <-]; constructor|].
    destruct (from_bytes (b :: m)) as [[p rest]|] eqn:Hf; [|done]. cbn [mbind option_bind].
    pose proof (from_bytes_shorter _ _ _ Hf). destruct (iter_collect fuel rest) as [qs|] eqn:Hc; [|done].
    intros [= <-]. eapply denotes_cons; [done|]. apply IH; [lia|done].
Qed.

Lemma denotes_iter m ps : denotes m ps ↔ iter m = Some ps.
Proof. apply denotes_collect. lia. Qed.

Lemma denotes_snoc m ps p :
  denotes m (ps ++ [p]) → ∃ m1 m2, m = m1 ++ m2 ∧ denotes m1 ps ∧ from_bytes m2 = Ok (p, []).
Proof.
  revert m. induction ps as [|q ps IH]; intros m Hd; simpl in Hd; inversion Hd as [|? ? rest ? Hf Hr]; subst.
  - inversion Hr; subst. exists [], m. split_and!; [done|constructor|done].
  - destruct (IH _ Hr) as (m1&m2&->&H1&H2). apply parses_from_bytes in Hf as (_&pre&->&Hl).
    exists (pre ++ m1), m2. split_and!; [by rewrite app_assoc| |done].
    eapply denotes_cons; [apply Hl|done].
Qed.

Lemma pop_loop_last fuel m1 ps m2 p :
  denotes m1 ps → from_bytes m2 = Ok (p, []) → length (m1 ++ m2) ≤ fuel →
  pop_loop fuel (m1 ++ m2) = Some (p, m2).
Proof.
  intros H1 H2. pose proof (from_bytes_nonempty _ _ _ H2) as Hne. revert fuel.
  induction H1 as [|m q rest ps Hf _ IH]; intros fuel Hl.
  - destruct fuel as [|fuel]; [destruct m2; simpl in Hl; [done|lia]|]. simpl. by rewrite H2.
  - pose proof (from_bytes_shorter _ _ _ Hf). apply parses_from_bytes in Hf as (_&pre&->&Hloc).
    rewrite !length_app in *. destruct fuel as [|fuel]; [lia|].
    cbn [pop_loop]. rewrite <-app_assoc, Hloc.
    destruct (rest ++ m2) eqn:Happ; [by apply app_eq_nil in Happ as [_ ?]|].
    apply IH. lia.
Qed.

Lemma denotes_pop m ps p :
  denotes m (ps ++ [p]) → ∃ m', pop m = Some (Some p, m') ∧ denotes m' ps.
Proof.
  intros (m1&m2&->&H1&H2)%denotes_snoc. exists m1. split; [|done]. unfold pop.
  destruct (m1 ++ m2) eqn:Happ.
  { apply app_eq_nil in Happ as [_ ->]. by apply from_bytes_nonempty in H2. }
  rewrite <-Happ, (pop_loop_last _ m1 ps m2 p) by done. cbn [mbind option_bind].
  rewrite length_app, take_app_length' by lia. done.
Qed.

Lemma denotes_replace_loop ps i at_ by_ addr qs r :
  denotes addr qs → Forall protocol_wf ps →
  (∀ p q, by_ p = Some q → protocol_wf q) →
  match replace_loop ps i at_ by_ addr r with
  | Some m =>
      (i ≤ at_ ∧ (∃ p q, ps !! (at_ - i) = Some p ∧ by_ p = Some q ∧
        denotes m (qs ++ <[at_ - i := q]> ps))) ∨
      (r = true ∧ (at_ < i ∨ length ps ≤ at_ - i) ∧ denotes m (qs ++ ps))
  | None => (r = false ∧ (at_ < i ∨ length ps ≤ at_ - i)) ∨
      (i ≤ at_ ∧ ∃ p, ps !! (at_ - i) = Some p ∧ by_ p = None)
  end.
Proof.
  intros Ha Hps Hby. revert i addr qs r Ha. induction Hps as [|p ps Hp Hps IH]; intros i addr qs r Ha.
  - simpl. destruct r; [right|left]; rewrite ?app_nil_r; split_and!; done || lia.
  - cbn [replace_loop]. case_decide as Hi.
    + subst i. destruct (by_ p) as [q|] eqn:Hq; [|right; split; [done|]; rewrite Nat.sub_diag; by exists p].
      specialize (IH (S at_) (push addr q) (qs ++ [q]) true).
      specialize (IH ltac:(apply denotes_push; [done|by eapply Hby])).
      destruct (replace_loop ps (S at_) at_ by_ (push addr q) true); [|destruct IH as [[? _]|[? _]]; [done|lia]].
      destruct IH as [[? _]|(_&_&Hd)]; [lia|]. left. split; [done|]. exists p, q.
      rewrite Nat.sub_diag. simpl. split_and!; [done..|]. by rewrite <-app_assoc in Hd.
    + specialize (IH (S i) (push addr p) (qs ++ [p]) r). specialize (IH ltac:(by apply denotes_push)).
      destruct (replace_loop ps (S i) at_ by_ (push addr p) r) as [m|].
      * destruct IH as [(Hle&p'&q&Hl&Hq&Hd)|(?&Hor&Hd)].
        -- left. split; [lia|]. exists p', q. replace (at_ - i) with (S (at_ - S i)) by lia.
           simpl. by rewrite <-app_assoc in Hd.
        -- right. rewrite <-app_assoc in Hd. simpl. split_and!; [done|lia|done].
      * destruct IH as [[? ?]|(?&p'&?&?)]; [left; simpl; split; [done|lia]|right].
        split; [lia|]. exists p'. by replace (at_ - i) with (S (at_ - S i)) by lia.
Qed.

Lemma try_from_loop_ok fuel m :
  length m ≤ fuel → try_from_loop fuel m = Ok tt ↔ ∃ ps, denotes m ps.
Proof.
  revert m. induction fuel as [|fuel IH]; intros m Hl.
  { destruct m; [|simpl in Hl; lia]. split; [|done]. intros _. exists []. constructor. }
  destruct m as [|b m]; [split; [|done]; intros _; exists []; constructor|]. cbn [try_from_loop]. split.
  - intros ([p rest]&Hf&Hr)%result_bind_ok. pose proof (from_bytes_shorter _ _ _ Hf).
    apply IH in Hr as [ps Hd]; [|lia]. exists (p :: ps). by eapply denotes_cons.
  - intros [ps Hd]. inversion Hd as [|? p rest ps' Hf Hr]; subst. rewrite Hf. cbn [result_bind].
    apply from_bytes_shorter in Hf. apply IH; [lia|eauto].
Qed.

Lemma try_from_denotes v m : try_from v = Ok m ↔ m = v ∧ ∃ ps, denotes v ps.
Proof.
  unfold try_from. rewrite result_bind_ok, <-(try_from_loop_ok (length v)) by done. split.
  - intros ([]&?&[= <-]). done.
  - intros [-> ?]. by exists tt.
Qed.

(** ** Parsing text *)

Lemma next_part_ok it s rest : next_part it = Ok (s, rest) → it = s :: rest.
Proof. destruct it; [done|]. by intros [= -> ->]. Qed.

Lemma parse_port_ok bits s n : (0 ≤ bits)%Z → parse_port bits s = Ok n → (0 ≤ n < 2 ^ bits)%Z.
Proof.
  intros Hb. unfold parse_port. destruct (parse_uint bits s) as [m|] eqn:Hp; [|done].
  intros [= <-]. by eapply parse_uint_range.
Qed.

Lemma ok_or_ok {E A} (e : E) (o : option A) a : ok_or e o = Ok a → o = Some a.
Proof. destruct o; simpl; congruence. Qed.

Lemma read_onion_ok len enc s a port :
  read_onion_impl len enc s = Ok (a, port) → length a = len ∧ u16_ok port.
Proof.
  unfold read_onion_impl. intros ([b32 ps]&_&Hr)%result_bind_ok. case_decide; [done|].
  apply result_bind_ok in Hr as ([p ps']&_&Hr). apply result_bind_ok in Hr as (n&Hn%ok_or_ok&Hr).
  case_decide; [done|]. case_decide; [done|].
  apply result_bind_ok in Hr as (k&Hk%ok_or_ok&Hr). case_decide as Hlen; [done|].
  apply result_bind_ok in Hr as (buf&Hbuf%ok_or_ok&[= <- <-]).
  apply base32_decoded_len in Hbuf. rewrite Hbuf in Hk. injection Hk as <-.
  split; [done|]. by eapply parse_uint_range in Hn.
Qed.

Lemma from_utf8_ok d s : from_utf8 d = Ok s → s = d ∧ utf8_valid s = true.
Proof. unfold from_utf8. destruct (utf8_valid d) eqn:Hu; [|done]. by intros [= <-]. Qed.

Lemma percent_str_ok s d : str_ok s → from_utf8 (percent_decode s) = Ok d → str_ok d.
Proof.
  intros [_ Hl] [-> Hu]%from_utf8_ok. split; [done|]. pose proof (percent_decode_len s). lia.
Qed.

(** Takes apart the successful steps of a branch of [from_str_parts]. *)
Ltac inv_parts :=
  repeat match goal with
    | H : result_bind _ _ = Ok _ |- _ => apply result_bind_ok in H as ([? ?]&?&H)
    | H : result_bind _ _ = Ok _ |- _ => apply result_bind_ok in H as (?&?&H)
    | H : Ok (_, _) = Ok (_, _) |- _ => injection H as <- <-
    | H : next_part _ = Ok _ |- _ => apply next_part_ok in H; subst
    | H : Forall str_ok (_ :: _) |- _ => apply Forall_cons in H as [? H]
    end.

Lemma from_str_parts_ok parts p rest :
  Forall str_ok parts → from_str_parts parts = Ok (p, rest) →
  protocol_wf p ∧ Forall str_ok rest ∧ length rest < length parts.
Proof.
  intros Hs Hp. unfold from_str_parts in Hp.
  apply result_bind_ok in Hp as ([tag it]&->%next_part_ok&Hp). apply Forall_cons in Hs as [_ Hs].
  repeat (case_decide; [clear - HVL HCL Hs Hp; inv_parts; simpl; (split; [|split; [done|lia]]) |]);
    try done; try (by eapply parse_port_ok; [|eassumption]); try (by eapply read_onion_ok);
    try (by eapply percent_str_ok).
  by eapply ipv6_from_str_wf, ok_or_ok.
Qed.

Lemma from_str_loop_ok fuel parts w m ws :
  Forall str_ok parts → length parts ≤ fuel → denotes w ws →
  from_str_loop fuel parts w = Ok m → ∃ ps, Forall protocol_wf ps ∧ m = w ++ from_iter ps.
Proof.
  revert parts w ws. induction fuel as [|fuel IH]; intros parts w ws Hs Hl Hw.
  { destruct parts; [|simpl in Hl; lia]. intros [= <-]. exists []. split; [constructor|by rewrite app_nil_r]. }
  destruct parts as [|s parts]; cbn [from_str_loop].
  { intros [= <-]. exists []. split; [constructor|by rewrite app_nil_r]. }
  intros ([p rest]&Hp&Hr)%result_bind_ok.
  destruct (from_str_parts_ok _ _ _ Hs Hp) as (Hwf&Hs'&Hlen).
  destruct (IH rest _ (ws ++ [p]) Hs' ltac:(lia) (denotes_push _ _ _ Hw Hwf) Hr) as (ps&Hps&->).
  exists (p :: ps). split; [by constructor|]. unfold push, from_iter. by rewrite bind_cons, app_assoc.
Qed.

Lemma from_str_ok s m :
  str_ok s → from_str s = Ok m → ∃ ps, Forall protocol_wf ps ∧ m = from_iter ps.
Proof.
  intros [Hu Hl] Hm. unfold from_str in Hm.
  assert (Hs : Forall str_ok (split_char Byte.x2f s)).
  { apply Forall_forall. intros x Hx.
    pose proof (split_char_utf8 Byte.x2f s eq_refl Hu) as H1.
    pose proof (length_split_char Byte.x2f s) as H2. rewrite Forall_forall in H1, H2.
    split; [by apply H1|]. specialize (H2 x Hx). lia. }
  destruct (split_char Byte.x2f s) as [|[|b x] parts]; [done| |done].
  apply Forall_cons in Hs as [_ Hs].
  destruct (from_str_loop_ok _ _ _ _ [] Hs ltac:(done) denotes_nil Hm) as (ps&?&->). by exists ps.
Qed.

(** *** Printing and parsing back *)

(** The protocols whose text can be parsed: a name with a slash falls apart, and
    the parser refuses an onion address with port 0. *)
Definition printable (p : Protocol) : Prop :=
  match p with
  | Dns s | Dns4 s | Dns6 s | Dnsaddr s | Unix s => Byte.x2f ∉ s
  | Onion _ port | Onion3 _ port => port ≠ 0%Z
  | _ => True
  end.

Lemma base32_char_facts b :
  base32_char b = true →
  is_ascii b = true ∧ ascii_upper (ascii_lower b) = b ∧ is_ascii (ascii_lower b) = true ∧
  b ≠ Byte.x3a ∧ ascii_lower b ≠ Byte.x2f.
Proof. destruct b; vm_compute; intros [=]; by split_and!. Qed.

Lemma dec_char_facts b :
  is_Some (to_digit 10 b) →
  is_ascii b = true ∧ ascii_upper b = b ∧ b ≠ Byte.x3a ∧ b ≠ Byte.x2f.
Proof. destruct b; vm_compute; intros [? [=]]; by split_and!. Qed.

Lemma Forall_not_elem {A} (P : A → Prop) (l : list A) x : Forall P l → ¬ P x → x ∉ l.
Proof. rewrite Forall_forall. eauto. Qed.

Lemma fmt_dec_digits n : (0 ≤ n < 2 ^ 64)%Z → Forall (λ b, is_Some (to_digit 10 b)) (fmt_dec n).
Proof. apply fmt_loop_own_digits. by left. Qed.

(** The text of an onion address, and what the parser makes of it. *)
Lemma onion_text bs n port :
  length bs = 5 * n → (0 ≤ port < 2 ^ 16)%Z →
  let text := to_lowercase (base32_encode bs) ++ b_str ":" ++ fmt_dec port in
  (Byte.x2f ∉ text) ∧ to_uppercase text = base32_encode bs ++ Byte.x3a :: fmt_dec port ∧
  split_char Byte.x3a (base32_encode bs ++ Byte.x3a :: fmt_dec port) = [base32_encode bs; fmt_dec port].
Proof.
  intros Hbs Hp text. pose proof (base32_chars bs n Hbs) as Hb.
  assert (Hb' : Forall (λ b, is_ascii b = true ∧ ascii_upper (ascii_lower b) = b ∧
    is_ascii (ascii_lower b) = true ∧ b ≠ Byte.x3a ∧ ascii_lower b ≠ Byte.x2f) (base32_encode bs)).
  { eapply Forall_impl; [exact Hb|]. apply base32_char_facts. }
  assert (Hd : Forall (λ b, is_ascii b = true ∧ ascii_upper b = b ∧ b ≠ Byte.x3a ∧ b ≠ Byte.x2f)
    (fmt_dec port)).
  { eapply Forall_impl; [apply fmt_dec_digits; lia|]. apply dec_char_facts. }
  clear Hb. assert (Hlow : to_lowercase (base32_encode bs) = ascii_lower <$> base32_encode bs).
  { apply to_lowercase_ascii. eapply Forall_impl; [exact Hb'|]. naive_solver. }
  subst text. rewrite Hlow. split_and!.
  - rewrite !elem_of_app. intros [Hin|[Hin|Hin]].
    + apply list_elem_of_fmap in Hin as (b&Hbe&Hin). rewrite Forall_forall in Hb'.
      destruct (Hb' b Hin) as (_&_&_&_&Hne). by rewrite <-Hbe in Hne.
    + by apply list_elem_of_singleton in Hin.
    + rewrite Forall_forall in Hd. destruct (Hd _ Hin) as (_&_&_&Hne). done.
  - rewrite to_uppercase_ascii.
    + rewrite !fmap_app, <-list_fmap_compose. cbn [fmap list_fmap b_str app].
      f_equal; [|f_equal].
      * rewrite <-(list_fmap_id (base32_encode bs)) at 2. apply Forall_fmap_ext_1.
        eapply Forall_impl; [exact Hb'|]. simpl. naive_solver.
      * rewrite <-(list_fmap_id (fmt_dec port)) at 2. apply Forall_fmap_ext_1.
        eapply Forall_impl; [exact Hd|]. simpl. naive_solver.
    + rewrite !Forall_app. split_and!.
      * apply Forall_fmap. eapply Forall_impl; [exact Hb'|]. simpl. naive_solver.
      * by repeat constructor.
      * eapply Forall_impl; [exact Hd|]. naive_solver.
  - rewrite split_char_cons, split_char_single; [done| |].
    + eapply Forall_not_elem; [exact Hd|]. naive_solver.
    + eapply Forall_not_elem; [exact Hb'|]. naive_solver.
Qed.

Lemma read_onion_text len n bs port :
  length bs = 5 * n → len = 5 * n → (0 < port < 2 ^ 16)%Z →
  read_onion_impl len (8 * n) (to_uppercase (to_lowercase (base32_encode bs) ++ b_str ":" ++ fmt_dec port)) =
    Ok (bs, port).
Proof.
  intros Hbs -> Hp. destruct (onion_text bs n port Hbs ltac:(lia)) as (_&->&Hs).
  unfold read_onion_impl. rewrite Hs. cbn [ok_or result_bind].
  pose proof (base32_len bs n Hbs) as Hlen. rewrite decide_False by (intros Hne; by apply Hne).
  rewrite parse_uint_fmt by lia. cbn [ok_or result_bind].
  rewrite decide_False by lia. rewrite decide_False by (intros Hne; by apply Hne).
  rewrite (base32_decoded_len _ bs) by (by eapply base32_roundtrip). cbn [ok_or result_bind].
  rewrite decide_False by (intros Hne; by apply Hne). by erewrite base32_roundtrip.
Qed.

(** The pieces of the text of a protocol. *)
Definition text_of (parts : list bytes) : bytes := parts ≫= λ part, Byte.x2f :: part.

Definition parses_text (p : Protocol) (parts : list bytes) : Prop :=
  protocol_to_string p = text_of parts ∧ Forall (λ part, Byte.x2f ∉ part) parts ∧
  ∀ rest, from_str_parts (parts ++ rest) = Ok (p, rest).

Lemma parses_text_tag p tag :
  protocol_to_string p = Byte.x2f :: b_str tag → bool_decide (Byte.x2f ∉ b_str tag) = true →
  (∀ rest, from_str_parts (b_str tag :: rest) = Ok (p, rest)) → parses_text p [b_str tag].
Proof.
  intros Hs Ht%bool_decide_eq_true Hp. split_and!; [|by repeat constructor|done].
  unfold text_of. cbn. by rewrite app_nil_r.
Qed.

Lemma parses_text_arg p tag s :
  protocol_to_string p = Byte.x2f :: b_str tag ++ Byte.x2f :: s →
  bool_decide (Byte.x2f ∉ b_str tag) = true → Byte.x2f ∉ s →
  (∀ rest, from_str_parts (b_str tag :: s :: rest) = Ok (p, rest)) → parses_text p [b_str tag; s].
Proof.
  intros Hs Ht%bool_decide_eq_true Hns Hp. split_and!; [|by repeat constructor|done].
  unfold text_of. cbn. by rewrite app_nil_r, Hs.
Qed.

Lemma parses_text_port p tag bits port mk :
  p = mk port → (0 ≤ bits ≤ 64)%Z → (0 ≤ port < 2 ^ bits)%Z →
  protocol_to_string p = Byte.x2f :: b_str tag ++ Byte.x2f :: fmt_dec port →
  bool_decide (Byte.x2f ∉ b_str tag) = true →
  (∀ s rest, from_str_parts (b_str tag :: s :: rest) =
    let? port := parse_port bits s in Ok (mk port, rest)) → parses_text p [b_str tag; fmt_dec port].
Proof.
  intros -> Hb Hport Hs Ht Hp. assert (2 ^ bits ≤ 2 ^ 64)%Z by (apply Z.pow_le_mono_r; lia).
  apply parses_text_arg; [done|done|apply addr_char_not_slash, fmt_dec_chars; lia|].
  intros rest. rewrite Hp. unfold parse_port. by rewrite parse_uint_fmt.
Qed.

Lemma percent_text s :
  (Byte.x2f ∉ percent_encode PATH_SEGMENT_ENCODE_SET s) ∧
  (utf8_valid s = true →
   from_utf8 (percent_decode (percent_encode PATH_SEGMENT_ENCODE_SET s)) = Ok s).
Proof.
  split.
  - intros Hin. apply percent_chars in Hin as (_&[?|[?|?]]); [done| |]; by vm_compute in H.
  - intros Hu. rewrite percent_roundtrip by done. unfold from_utf8. by rewrite Hu.
Qed.

Lemma ws_text s : str_ok s → ∃ parts, parses_text (Ws s) parts.
Proof.
  intros [Hu _]. destruct (decide (s = b_str "/")) as [->|Hs].
  { eexists. by apply (parses_text_tag _ "ws"). }
  destruct (percent_text s) as [Hns Hd]. eexists.
  apply (parses_text_arg _ "x-parity-ws" (percent_encode PATH_SEGMENT_ENCODE_SET s)); [|done|done|].
  - cbn [protocol_to_string]. by rewrite decide_False.
  - intros rest. change (from_str_parts _) with (let? decoded := from_utf8 (percent_decode
      (percent_encode PATH_SEGMENT_ENCODE_SET s)) in Ok (Ws decoded, rest)). by rewrite Hd.
Qed.

Lemma wss_text s : str_ok s → ∃ parts, parses_text (Wss s) parts.
Proof.
  intros [Hu _]. destruct (decide (s = b_str "/")) as [->|Hs].
  { eexists. by apply (parses_text_tag _ "wss"). }
  destruct (percent_text s) as [Hns Hd]. eexists.
  apply (parses_text_arg _ "x-parity-wss" (percent_encode PATH_SEGMENT_ENCODE_SET s)); [|done|done|].
  - cbn [protocol_to_string]. by rewrite decide_False.
  - intros rest. change (from_str_parts _) with (let? decoded := from_utf8 (percent_decode
      (percent_encode PATH_SEGMENT_ENCODE_SET s)) in Ok (Wss decoded, rest)). by rewrite Hd.
Qed.

Lemma protocol_text p : protocol_wf p → printable p → ∃ parts, parses_text p parts.
Proof.
  intros Hwf Hpr. destruct p; cbn [protocol_wf printable] in *;
    try (eexists; by eapply parses_text_tag); try (by apply ws_text); try (by apply wss_text); eexists.
  - by apply (parses_text_port _ "dccp" 16 port Dccp).
  - by apply (parses_text_arg _ "dns" s).
  - by apply (parses_text_arg _ "dns4" s).
  - by apply (parses_text_arg _ "dns6" s).
  - by apply (parses_text_arg _ "dnsaddr" s).
  - apply (parses_text_arg _ "ip4" (ipv4_to_string a)); [done..|apply addr_char_not_slash, ipv4_chars|].
    intros rest. change (from_str_parts _) with (let? a' := ok_or (ParsingError AddrParseError)
      (ipv4_from_str (ipv4_to_string a)) in Ok (Ip4 a', rest)). by rewrite ipv4_roundtrip.
  - apply (parses_text_arg _ "ip6" (ipv6_to_string a));
      [done..|by apply addr_char_not_slash, ipv6_chars|].
    intros rest. change (from_str_parts _) with (let? a' := ok_or (ParsingError AddrParseError)
      (ipv6_from_str (ipv6_to_string a)) in Ok (Ip6 a', rest)). by rewrite ipv6_roundtrip.
  - by apply (parses_text_port _ "memory" 64 port Memory).
  - destruct Hwf as [Hl Hp]. destruct (onion_text addr 2 port Hl Hp) as (Hns&_).
    apply (parses_text_arg (Onion addr port) "onion" _ eq_refl eq_refl Hns). intros rest.
    change (from_str_parts _) with (let? (a, p) := read_onion (to_uppercase
      (to_lowercase (base32_encode addr) ++ b_str ":" ++ fmt_dec port)) in Ok (Onion a p, rest)).
    unfold read_onion. rewrite (read_onion_text 10 2); [done..|]. unfold u16_ok in Hp. lia.
  - destruct Hwf as [Hl Hp]. destruct (onion_text addr 7 port Hl Hp) as (Hns&_).
    apply (parses_text_arg (Onion3 addr port) "onion3" _ eq_refl eq_refl Hns). intros rest.
    change (from_str_parts _) with (let? (a, p) := read_onion3 (to_uppercase
      (to_lowercase (base32_encode addr) ++ b_str ":" ++ fmt_dec port)) in Ok (Onion3 a p, rest)).
    unfold read_onion3. rewrite (read_onion_text 35 7); [done..|]. unfold u16_ok in Hp. lia.
  - apply (parses_text_arg _ "p2p" (bs58_encode (mh_to_bytes h))); [done..| |].
    + eapply Forall_not_elem; [apply bs58_chars|]. by vm_compute.
    + intros rest. change (from_str_parts _) with
        (let? decoded := ok_or (ParsingError Bs58Error) (bs58_decode (bs58_encode (mh_to_bytes h))) in
         let? h' := ok_or (ParsingError MultihashError) (mh_from_bytes decoded) in Ok (P2p h', rest)).
      rewrite bs58_roundtrip. cbn [ok_or result_bind]. by rewrite mh_roundtrip.
  - by apply (parses_text_port _ "sctp" 16 port Sctp).
  - by apply (parses_text_port _ "tcp" 16 port Tcp).
  - by apply (parses_text_port _ "udp" 16 port Udp).
  - by apply (parses_text_arg _ "unix" s).
Qed.


Lemma split_text_of parts :
  Forall (λ part, Byte.x2f ∉ part) parts → split_char Byte.x2f (text_of parts) = [] :: parts.
Proof.
  assert (Hgen : ∀ (x : bytes) ps, Byte.x2f ∉ x → Forall (λ part, Byte.x2f ∉ part) ps →
    split_char Byte.x2f (x ++ text_of ps) = x :: ps).
  { intros x ps Hx Hps. revert x Hx. induction Hps as [|p ps Hp Hps IH]; intros x Hx.
    - unfold text_of. simpl. by rewrite app_nil_r, split_char_single.
    - unfold text_of. rewrite bind_cons, <-app_comm_cons, split_char_cons by done.
      f_equal. by apply IH. }
  intros Hps. apply (Hgen [] parts); [apply not_elem_of_nil|done].
Qed.

Lemma protocols_text ps :
  Forall protocol_wf ps → Forall printable ps →
  ∃ parts, ps ≫= protocol_to_string = text_of parts ∧ Forall (λ part, Byte.x2f ∉ part) parts ∧
    ∀ fuel w, length parts ≤ fuel → from_str_loop fuel parts w = Ok (w ++ from_iter ps).
Proof.
  intros Hwf Hpr. induction Hwf as [|p ps Hp Hwf IH].
  { exists []. split_and!; [done|constructor|]. intros [] w _; simpl; by rewrite app_nil_r. }
  apply Forall_cons in Hpr as [Hpp Hpr]. destruct (IH Hpr) as (parts&Ht&Hns&Hl).
  destruct (protocol_text p Hp Hpp) as (pt&Htp&Hnsp&Hlp). exists (pt ++ parts). split_and!.
  - rewrite bind_cons, Ht, Htp. unfold text_of. by rewrite bind_app.
  - by apply Forall_app.
  - intros fuel w Hf. destruct (pt ++ parts) as [|x xs] eqn:Happ.
    { specialize (Hlp parts). by rewrite Happ in Hlp. }
    destruct fuel as [|fuel]; [simpl in Hf; lia|]. cbn [from_str_loop].
    rewrite <-Happ, Hlp. cbn [result_bind]. rewrite Hl.
    + unfold from_iter. by rewrite bind_cons, app_assoc.
    + destruct pt as [|y pt]; [by specialize (Hlp [])|].
      apply (f_equal length) in Happ. rewrite length_app in Happ. simpl in Happ, Hf. lia.
Qed.


Lemma replace_refines m ps at_ by_ :
  iter m = Some ps → (∀ p q, by_ p = Some q → protocol_wf q) →
  ∃ r, replace m at_ by_ = Some r ∧
    match ps !! at_ ≫= by_, r with
    | Some q, Some m' => iter m' = Some (<[at_ := q]> ps)
    | None, None => True
    | _, _ => False
    end.
Proof.
  intros Hm Hby. unfold replace. rewrite Hm. eexists. split; [done|].
  apply denotes_iter, denotes_wf in Hm.
  pose proof (denotes_replace_loop ps 0 at_ by_ maddr_empty [] false denotes_nil Hm Hby) as Hr.
  rewrite Nat.sub_0_r in Hr. destruct (replace_loop _ _ _ _ _ _) as [m'|].
  - destruct Hr as [(_&p&q&Hp&Hq&Hd)|[? _]]; [|done]. rewrite Hp. simpl. rewrite Hq.
    by apply denotes_iter.
  - destruct Hr as [[_ [?|Hl]]|(_&p&Hp&Hq)]; [lia| |].
    + by rewrite lookup_ge_None_2.
    + rewrite Hp. simpl. by rewrite Hq.
Qed.

Lemma pop_refines m ps :
  iter m = Some ps → ∃ m', pop m = Some (last ps, m') ∧ iter m' = Some (take (length ps - 1) ps).
Proof.
  intros Hm. destruct ps as [|p ps _] using rev_ind.
  - apply denotes_iter in Hm. inversion Hm; subst. by exists [].
  - apply denotes_iter in Hm. destruct (denotes_pop _ _ _ Hm) as (m'&Hp&Hd). exists m'.
    rewrite last_snoc, length_app, take_app_length' by (simpl; lia). by rewrite <-denotes_iter.
Qed.

Lemma iter_next_refines m ps :
  iter m = Some ps →
  ∃ o, iter_next m = Some o ∧ match ps with [] => o = None | p :: _ => ∃ it, o = Some (p, it) end.
Proof.
  intros Hm%denotes_iter. destruct Hm as [|m p rest ps Hf _]; [by exists None|].
  exists (Some (p, rest)). split; [|by exists rest]. unfold iter_next.
  destruct m; [by apply from_bytes_nonempty in Hf|]. by rewrite Hf.
Qed.

Lemma translation_refines m ps observed qs :
  iter m = Some ps → iter observed = Some qs →
  ∃ r, address_translation m observed = Some r ∧
    match ps, qs with
    | p :: ps', q :: _ =>
        if is_ip_or_dns p && is_ip_or_dns q
        then ∃ m', r = Some m' ∧ iter m' = Some (q :: ps')
        else r = None
    | _, _ => r = None
    end.
Proof.
  intros Hm Ho. unfold address_translation. rewrite Hm. cbn [mbind option_bind].
  pose proof Ho as Hqs%denotes_iter%denotes_wf. apply iter_next_refines in Ho as (o&Ho&Hq).
  set (first := if existsb is_ip_or_dns (take 1 ps) then iter_next observed else Some None).
  destruct first as [f|] eqn:Hf; [|subst first; rewrite Ho in Hf; by destruct (existsb _ _)].
  cbn [mbind option_bind].
  destruct (replace_refines m ps 0 (λ proto, if is_ip_or_dns proto then
    match f with Some (x, _) => if is_ip_or_dns x then Some x else None | None => None end
    else None) Hm) as (r&Hr&Hres).
  { intros p q. destruct (is_ip_or_dns p); [|done]. destruct f as [[x it]|]; [|done].
    destruct (is_ip_or_dns x); [|done]. intros [= <-]. subst first.
    destruct (existsb _ _); [|done]. rewrite Ho in Hf. injection Hf as ->.
    destruct qs; [done|]. destruct Hq as (?&[= -> ->]). by apply Forall_cons in Hqs as [? _]. }
  exists r. split; [exact Hr|]. subst first. destruct ps as [|p ps]; simpl in Hres; [by destruct r|].
  simpl in Hf. rewrite orb_false_r, Ho in Hf. destruct (is_ip_or_dns p); [|destruct qs; by destruct r].
  injection Hf as ->. destruct qs as [|q qs]; [subst f; by destruct r|]. destruct Hq as (it&->).
  simpl. destruct (is_ip_or_dns q); [|by destruct r]. destruct r as [m'|]; [|done]. by exists m'.
Qed.

(** [C26] An address refines a list of protocols: appending, removing the last one,
    replacing one, validation and the translation of an observed address do to
    the protocols of the address what the operations on lists do, and none of
    them panics on a valid address. *)
Theorem multiaddr_refines m ps :
  iter m = Some ps →
  (∀ p, protocol_wf p → iter (push m p) = Some (ps ++ [p])) ∧
  (∃ m', pop m = Some (last ps, m') ∧ iter m' = Some (take (length ps - 1) ps)) ∧
  (∀ at_ by_, (∀ p q, by_ p = Some q → protocol_wf q) →
    ∃ r, replace m at_ by_ = Some r ∧
      match ps !! at_ ≫= by_, r with
      | Some q, Some m' => iter m' = Some (<[at_ := q]> ps)
      | None, None => True
      | _, _ => False
      end) ∧
  try_from m = Ok m ∧
  (∀ observed qs, iter observed = Some qs →
    ∃ r, address_translation m observed = Some r ∧
      match ps, qs with
      | p :: ps', q :: _ =>
          if is_ip_or_dns p && is_ip_or_dns q
          then ∃ m', r = Some m' ∧ iter m' = Some (q :: ps')
          else r = None
      | _, _ => r = None
      end).
Proof.
  intros Hm. split_and!.
  - intros p Hp. apply denotes_iter, denotes_push; [by apply denotes_iter|done].
  - by apply pop_refines.
  - intros. by apply replace_refines.
  - apply try_from_denotes. split; [done|]. exists ps. by apply denotes_iter.
  - intros. by apply translation_refines.
Qed.

(** The values of the type: what the public constructors and operations build. *)
Inductive maddr_value : Multiaddr → Prop :=
  | value_empty : maddr_value maddr_empty
  | value_push m p : maddr_value m → protocol_wf p → maddr_value (push m p)
  | value_pop m o m' : maddr_value m → pop m = Some (o, m') → maddr_value m'
  | value_replace m at_ by_ m' : maddr_value m → (∀ p q, by_ p = Some q → protocol_wf q) →
      replace m at_ by_ = Some (Some m') → maddr_value m'
  | value_from_iter ps : Forall protocol_wf ps → maddr_value (from_iter ps)
  | value_from_str s m : str_ok s → from_str s = Ok m → maddr_value m
  | value_try_from v m : try_from v = Ok m → maddr_value m
  | value_translate m obs m' : maddr_value m → maddr_value obs →
      address_translation m obs = Some (Some m') → maddr_value m'.

Lemma maddr_value_iter m : maddr_value m → ∃ ps, iter m = Some ps.
Proof.
  induction 1 as [|m p _ [ps IH] Hp|m o m' _ [ps IH] Hpop|m at_ by_ m' _ [ps IH] Hby Hr|ps Hps
    |s m Hs Hm|v m Hv|m obs m' _ [ps IH] _ [qs IHo] Ht].
  - by exists [].
  - exists (ps ++ [p]). apply denotes_iter, denotes_push; [by apply denotes_iter|done].
  - destruct (pop_refines m ps IH) as (m2&Hp&Hi). rewrite Hpop in Hp. injection Hp as _ ->. eauto.
  - destruct (replace_refines m ps at_ by_ IH Hby) as (r&Hr'&Hi). rewrite Hr in Hr'.
    injection Hr' as <-. destruct (ps !! at_ ≫= by_); [eauto|done].
  - exists ps. by apply denotes_iter, denotes_from_iter.
  - destruct (from_str_ok s m Hs Hm) as (ps&Hps&->). exists ps. by apply denotes_iter, denotes_from_iter.
  - apply try_from_denotes in Hv as [-> [ps Hd]]. exists ps. by apply denotes_iter.
  - destruct (translation_refines m ps obs qs IH IHo) as (r&Hr&Hi). rewrite Ht in Hr.
    injection Hr as <-. destruct ps as [|p ps], qs as [|q qs]; try done.
    destruct (_ && _); [|done]. destruct Hi as (?&[= <-]&?). eauto.
Qed.

(** [C37] Every value of type Multiaddr, however it was built with the public
    constructors and operations, is a sequence of well-formed protocols: the
    accessors never panic, and the bytes of the address are accepted again by the
    constructor from bytes. *)
Theorem multiaddr_type_invariant m :
  maddr_value m →
  ∃ ps, iter m = Some ps ∧ Forall protocol_wf ps ∧ try_from m = Ok m ∧
    is_Some (pop m) ∧ is_Some (maddr_to_string m) ∧ is_Some (is_private_addr m) ∧
    is_Some (is_loopback_addr m) ∧ is_Some (is_ipv6_addr m) ∧ is_Some (should_consume_fd m) ∧
    ∀ code, is_Some (value_for_protocol m code).
Proof.
  intros [ps Hm]%maddr_value_iter. exists ps. pose proof Hm as Hd%denotes_iter.
  destruct (pop_refines m ps Hm) as (m'&Hp&_).
  unfold maddr_to_string, is_private_addr, is_loopback_addr, is_ipv6_addr, should_consume_fd,
    value_for_protocol. rewrite Hm, Hp.
  split_and!; try done; [by eapply denotes_wf|apply try_from_denotes; eauto].
Qed.
End protocol_theory.

(** ** Concrete codecs

    An instance of the interfaces: hexadecimal in the place of base 58, and
    multihashes of one byte. *)

Definition hex_byte (b : u8) : bytes :=
  [from_digit (byte.unsigned b / 16); from_digit (byte.unsigned b mod 16)].

Fixpoint hex_decode (s : bytes) : option bytes :=
  match s with
  | [] => Some []
  | h :: l :: s =>
      hi ← to_digit 16 h; lo ← to_digit 16 l; bs ← hex_decode s;
      Some (byte.of_Z (hi * 16 + lo) :: bs)
  | _ => None
  end.

Definition base32_digit (d : Z) : u8 := byte.of_Z (if (d <? 26)%Z then d + 65 else d + 24).
Definition base32_value (b : u8) : option Z :=
  if in_range 65 90 b then Some (byte.unsigned b - 65)%Z
  else if in_range 50 55 b then Some (byte.unsigned b - 24)%Z else None.

Fixpoint base32_digits (k : nat) (z : Z) : bytes :=
  match k with
  | 0 => []
  | S k => base32_digits k (z / 32) ++ [base32_digit (z mod 32)]
  end.

Fixpoint base32_number (acc : Z) (s : bytes) : option Z :=
  match s with
  | [] => Some acc
  | b :: s => d ← base32_value b; base32_number (acc * 32 + d) s
  end.

Fixpoint percent_decode_sample (s : bytes) : bytes :=
  match s with
  | [] => []
  | b :: s1 =>
      if decide (b = Byte.x25) then
        match s1 with
        | h :: l :: s3 =>
            match to_digit 16 h, to_digit 16 l with
            | Some hi, Some lo => byte.of_Z (hi * 16 + lo) :: percent_decode_sample s3
            | _, _ => b :: percent_decode_sample s1
            end
        | _ => b :: percent_decode_sample s1
        end
      else b :: percent_decode_sample s1
  end.

Definition sample_codecs : AddrCodecs := {|
  Multihash := u8;
  multihash_eq_dec := _;
  mh_to_bytes b := [b];
  mh_from_bytes bs := match bs with [b] => Some b | _ => None end;
  bs58_encode bs := bs ≫= hex_byte;
  bs58_decode := hex_decode;
  base32_encode bs := base32_digits (8 * (length bs / 5)) (be_combine bs);
  base32_decode_len n := if decide (n mod 8 = 0) then Some (5 * (n / 8)) else None;
  base32_decode_mut s :=
    if decide (length s mod 8 = 0) then be_split (5 * (length s / 8)) <$> base32_number 0 s else None;
  percent_encode set s := s ≫= λ b, if set b || negb (is_ascii b) then Byte.x25 :: hex_byte b else [b];
  percent_decode := percent_decode_sample;
  to_uppercase s := ascii_upper <$> s;
  to_lowercase s := ascii_lower <$> s
|}.

Lemma hex_byte_facts b :
  ∃ h l hi lo, hex_byte b = [h; l] ∧ to_digit 16 h = Some hi ∧ to_digit 16 l = Some lo ∧
    byte.of_Z (hi * 16 + lo) = b ∧ alphanumeric h = true ∧ alphanumeric l = true ∧
    is_ascii h = true ∧ is_ascii l = true.
Proof.
  assert (Hb : Forall (λ d, alphanumeric (from_digit d) = true ∧ is_ascii (from_digit d) = true)
    (seqZ 0 16)) by by_eval.
  rewrite Forall_forall in Hb. pose proof (byte.unsigned_range b).
  pose proof (Z.mod_pos_bound (byte.unsigned b) 16 ltac:(lia)).
  assert (0 ≤ byte.unsigned b / 16 < 16)%Z.
  { split; [apply Z.div_pos; lia|apply Z.div_lt_upper_bound; lia]. }
  destruct (Hb (byte.unsigned b / 16)%Z); [apply elem_of_seqZ; lia|].
  destruct (Hb (byte.unsigned b mod 16)%Z); [apply elem_of_seqZ; lia|].
  do 4 eexists. split_and!; [done|by apply to_digit_from_digit; [right|]|by apply to_digit_from_digit; [right|]| |done..].
  rewrite <-(byte.of_Z_unsigned b) at 3. f_equal. pose proof (Z.div_mod (byte.unsigned b) 16). lia.
Qed.

Lemma base32_digit_facts d :
  (0 ≤ d < 32)%Z → base32_value (base32_digit d) = Some d ∧ base32_char (base32_digit d) = true.
Proof.
  assert (Hb : Forall (λ d, base32_value (base32_digit d) = Some d ∧ base32_char (base32_digit d) = true)
    (seqZ 0 32)) by by_eval.
  rewrite Forall_forall in Hb. intros Hd. apply Hb, elem_of_seqZ. lia.
Qed.

Lemma base32_digits_spec k z :
  (0 ≤ z)%Z →
  length (base32_digits k z) = k ∧ Forall (λ b, base32_char b = true) (base32_digits k z) ∧
  ∀ acc rest, base32_number acc (base32_digits k z ++ rest) =
    base32_number (acc * 32 ^ Z.of_nat k + z mod 32 ^ Z.of_nat k) rest.
Proof.
  revert z. induction k as [|k IH]; intros z Hz.
  { cbn. split_and!; [done|constructor|]. intros. f_equal. rewrite Z.mod_1_r. lia. }
  cbn [base32_digits]. destruct (IH (z / 32)%Z) as (Hl&Hf&Hn); [apply Z.div_pos; lia|].
  pose proof (Z.mod_pos_bound z 32 ltac:(lia)) as Hm. destruct (base32_digit_facts _ Hm) as [Hv Hc].
  split_and!.
  - rewrite length_app, Hl. simpl. lia.
  - apply Forall_app. by repeat constructor.
  - intros acc rest. rewrite <-app_assoc, Hn. cbn [app base32_number]. rewrite Hv. simpl. f_equal.
    rewrite Nat2Z.inj_succ, Z.pow_succ_r, Z.rem_mul_r by lia. lia.
Qed.

#[global] Instance sample_codecs_laws : @AddrCodecsLaws sample_codecs.
Proof.
  split; cbn [sample_codecs Multihash mh_to_bytes mh_from_bytes bs58_encode bs58_decode base32_encode
    base32_decode_len base32_decode_mut percent_encode percent_decode to_uppercase to_lowercase].
  - done.
  - done.
  - intros bs. induction bs as [|b bs IH]; [done|]. rewrite bind_cons.
    destruct (hex_byte_facts b) as (h&l&hi&lo&->&Hh&Hl&Hb&_).
    cbn [app hex_decode]. rewrite Hh, Hl. cbn [mbind option_bind]. rewrite IH. cbn [mbind option_bind].
    by rewrite Hb.
  - intros bs. induction bs as [|b bs IH]; [constructor|]. rewrite bind_cons.
    destruct (hex_byte_facts b) as (h&l&hi&lo&->&_&_&_&Hh&Hl&_). apply Forall_app. by repeat constructor.
  - intros bs n Hn. rewrite Hn, (Nat.mul_comm 5), Nat.div_mul by lia.
    pose proof (be_combine_bound bs) as Hb.
    destruct (base32_digits_spec (8 * n) (be_combine bs)) as (Hl&_&Hd); [lia|].
    rewrite Hl, (Nat.mul_comm 8), Nat.div_mul by lia. rewrite decide_True by (by apply Nat.Div0.mod_mul).
    specialize (Hd 0%Z []). rewrite app_nil_r in Hd. rewrite (Nat.mul_comm n 8), Hd. cbn [base32_number].
    rewrite Z.mod_small, Z.mul_0_l, Z.add_0_l;
      [cbn [fmap option_fmap option_map]; by rewrite <-Hn, be_split_combine|].
    split; [lia|]. change 32%Z with (2 ^ 5)%Z. rewrite <-Z.pow_mul_r by lia.
    replace (5 * Z.of_nat (8 * n))%Z with (8 * Z.of_nat (length bs))%Z by lia. lia.
  - intros s bs. case_decide; [|done]. destruct (base32_number 0 s); [|done].
    intros [= <-]. by rewrite length_be_split.
  - intros bs n Hn. pose proof (be_combine_bound bs). rewrite Hn, (Nat.mul_comm 5), Nat.div_mul by lia.
    apply base32_digits_spec. lia.
  - intros bs n Hn. pose proof (be_combine_bound bs). apply base32_digits_spec. lia.
  - intros set s Hset. induction s as [|b s IH]; [done|]. rewrite bind_cons.
    destruct (set b || negb (is_ascii b)) eqn:Hb.
    + destruct (hex_byte_facts b) as (h&l&hi&lo&->&Hh&Hl&Hv&_).
      cbn [app percent_decode_sample]. by rewrite decide_True, Hh, Hl, IH, Hv by done.
    + cbn [app percent_decode_sample]. rewrite decide_False by (intros ->; by rewrite Hset in Hb).
      by rewrite IH.
  - intros set s b. rewrite list_elem_of_bind. intros (c&Hin&_).
    destruct (set c || negb (is_ascii c)) eqn:Hc.
    + destruct (hex_byte_facts c) as (h&l&hi&lo&He&_&_&_&Hh&Hl&Hah&Hal). rewrite He in Hin.
      rewrite !elem_of_cons in Hin. destruct Hin as [->|[->|[->|Hn]]]; [| | |by apply not_elem_of_nil in Hn].
      all: split; auto.
    + apply list_elem_of_singleton in Hin as ->. apply orb_false_iff in Hc as [Hs Ha].
      apply negb_false_iff in Ha. auto.
  - intros s. remember (length s) as n eqn:Hn. revert s Hn. induction (lt_wf n) as [n _ IH].
    intros s ->. assert (IH' : ∀ t, length t < length s → length (percent_decode_sample t) ≤ length t) by eauto.
    destruct s as [|b s]; [done|]. cbn. pose proof (IH' s ltac:(simpl; lia)).
    case_decide; [|simpl; lia]. destruct s as [|h [|l s]]; [simpl in *; lia..|].
    destruct (to_digit 16 h), (to_digit 16 l); try (cbn [length] in *; lia).
    pose proof (IH' s ltac:(simpl; lia)). cbn [length] in *. lia.
  - done.
  - done.
Qed.

#[local] Existing Instance leb128.
#[local] Existing Instance sample_codecs.

Definition sample_protocols : list Protocol :=
  [Ip6 (Ipv6 [0x2001; 0xdb8; 0; 0; 0; 0; 0; 1]%Z); Tcp 4001; Ws (b_str "/a b"); P2p Byte.x2a;
   Onion (replicate 10 Byte.x05) 80; Dns4 (b_str "example.org")].
Definition sample_addr : Multiaddr := from_iter sample_protocols.


Lemma multiaddr_refines_witness :
  iter sample_addr = Some sample_protocols ∧ try_from sample_addr = Ok sample_addr ∧
  iter (push sample_addr Quic) = Some (sample_protocols ++ [Quic]).
Proof.
  assert (Hi : iter sample_addr = Some sample_protocols) by by_eval.
  destruct (multiaddr_refines sample_addr sample_protocols Hi) as (Hp&_&_&Ht&_).
  split; [exact Hi|]. split; [exact Ht|]. by apply Hp.
Defined.

Lemma multiaddr_type_invariant_witness :
  str_ok (b_str "/ip4/127.0.0.1/tcp/80") ∧
  ∃ m, from_str (b_str "/ip4/127.0.0.1/tcp/80") = Ok m ∧ try_from m = Ok m ∧ is_Some (pop m).
Proof.
  assert (Hs : str_ok (b_str "/ip4/127.0.0.1/tcp/80")) by (split; by_eval).
  split; [exact Hs|]. destruct (from_str (b_str "/ip4/127.0.0.1/tcp/80")) as [m|e] eqn:Hm.
  2: { exfalso. revert Hm. enough (is_Some (result_ok (from_str (b_str "/ip4/127.0.0.1/tcp/80")))) as [? Hok] by (intros Hm; by rewrite Hm in Hok). by_eval. }
  exists m. split; [done|].
  edestruct multiaddr_type_invariant as (ps&_&_&Ht&Hp&_); [|split; [exact Ht|exact Hp]].
  by eapply value_from_str; [exact Hs|].
Defined.

(** ** Text that does not parse

    A protocol with a path or with port 0 prints to a text its parser refuses. *)

Lemma unix_path_unparsable :
  protocol_wf (Unix (b_str "/tmp/x")) ∧
  maddr_to_string (from_iter [Unix (b_str "/tmp/x")]) = Some (b_str "/unix//tmp/x") ∧
  from_str (b_str "/unix//tmp/x") = Err (UnknownProtocolString (b_str "tmp")).
Proof. split_and!; by vm_compute. Qed.

(** No component is found under the number of [p2p]. *)
Lemma p2p_value_not_found (h : Multihash) : value_for_protocol (from_iter [P2p h]) P2P = Some None.
Proof. destruct h; by vm_compute. Qed.
