(* ===== verification/Registry.v ===== *)
(** * External addresses: [swarm/src/registry.rs]

    The ranked collection of the addresses other peers report for the local
    node: a window of the last reports, and one record for every address in it,
    scored by its number of reports.  The theorems show that the insertion sort
    of the code is the stable sort by descending score, and that the records are
    exactly the addresses of the window with their multiplicities, ranked. *)

From Stdlib Require Import ZArith Lia.
From S2P Require Import Prelude.

Section registry.
Context {Multiaddr : Type} `{!EqDecision Multiaddr}.

Record AddrRecord := mk_AddrRecord { rec_score : Z; rec_addr : Multiaddr }.

Record Addresses := mk_Addresses {
  registry : list AddrRecord;
  reg_limit : nat;
  reports : list Multiaddr
}.

Definition Addresses_new (limit : nat) : Addresses := mk_Addresses [] limit [].
Definition Addresses_default : Addresses := Addresses_new 200.

Definition saturating_sub_u32 (a b : Z) : Z := Z.max 0 (a - b).
Definition saturating_add_u32 (a b : Z) : Z := Z.min (2 ^ 32 - 1) (a + b).

(** The inner loop of [isort], from the index [j] down. *)
Fixpoint isort_inner (j : nat) (xs : list AddrRecord) : list AddrRecord :=
  match j with
  | 0 => xs
  | S j' =>
      match xs !! j, xs !! j' with
      | Some a, Some b =>
          if (rec_score a <=? rec_score b)%Z then xs
          else isort_inner j' (<[j' := a]> (<[j := b]> xs))
      | _, _ => xs
      end
  end.

Definition isort (xs : list AddrRecord) : list AddrRecord :=
  foldl (λ xs i, isort_inner i xs) xs (seq 1 (length xs - 1)).

(** The first record of an address, updated. *)
Fixpoint update_record (f : Z → Z) (a : Multiaddr) (xs : list AddrRecord) : option (list AddrRecord) :=
  match xs with
  | [] => None
  | r :: xs =>
      if decide (rec_addr r = a) then Some (mk_AddrRecord (f (rec_score r)) (rec_addr r) :: xs)
      else (r ::.) <$> update_record f a xs
  end.

(** [while registry.last().score == 0 { registry.pop() }], on the reversed
    vector. *)
Fixpoint drop_zeros (xs : list AddrRecord) : list AddrRecord :=
  match xs with
  | [] => []
  | r :: xs' => if (rec_score r =? 0)%Z then drop_zeros xs' else xs
  end.

Definition Addresses_add (s : Addresses) (a : Multiaddr) : Addresses :=
  let '(oldest, reports) :=
    if decide (length (reports s) = reg_limit s) then (head (reports s), tail (reports s))
    else (None, reports s) in
  let registry :=
    match oldest with
    | Some oldest =>
        match update_record (λ n, saturating_sub_u32 n 1) oldest (registry s) with
        | Some xs => isort xs
        | None => registry s
        end
    | None => registry s
    end in
  let registry := reverse (drop_zeros (reverse registry)) in
  let reports := reports ++ [a] in
  match update_record (λ n, saturating_add_u32 n 1) a registry with
  | Some xs => mk_Addresses (isort xs) (reg_limit s) reports
  | None => mk_Addresses (registry ++ [mk_AddrRecord 1 a]) (reg_limit s) reports
  end.

(** [Addresses::iter]. *)
Definition Addresses_iter (s : Addresses) : list Multiaddr := rec_addr <$> registry s.

(** ** The sort *)

Definition rank (r : AddrRecord) : Z := (- rec_score r)%Z.
Definition ranked (xs : list AddrRecord) : Prop :=
  StronglySorted (λ a b, rec_score b ≤ rec_score a)%Z xs.

Local Abbreviation rank_sort := (sort_by (λ a b, rank a <=? rank b)%Z).

Lemma insert_after_last x l y :
  (rec_score y < rec_score x)%Z →
  insert_after rank x (l ++ [y]) = insert_after rank x l ++ [y].
Proof.
  intros Hxy. induction l as [|z l IH]; simpl.
  - destruct (Z.ltb_spec (rank x) (rank y)); [done|unfold rank in *; lia].
  - destruct (rank x <? rank z)%Z; [done|]. by rewrite IH.
Qed.

Lemma insert_after_end x l :
  Forall (λ y, rec_score x ≤ rec_score y)%Z l → insert_after rank x l = l ++ [x].
Proof.
  induction 1 as [|y l Hy Hl IH]; [done|]. simpl.
  destruct (Z.ltb_spec (rank x) (rank y)); [unfold rank in *; lia|]. by rewrite IH.
Qed.

Lemma ranked_snoc_inv l y :
  ranked (l ++ [y]) → ranked l ∧ Forall (λ z, rec_score y ≤ rec_score z)%Z l.
Proof.
  unfold ranked. induction l as [|z l IH]; simpl; [repeat constructor|].
  intros [Hs Hz]%StronglySorted_inv. destruct (IH Hs) as [? ?].
  apply Forall_app in Hz as [Hz Hy]. apply Forall_cons in Hy as [Hy _].
  split; constructor; auto.
Qed.

Lemma isort_inner_insert l x r :
  ranked l → isort_inner (length l) (l ++ x :: r) = insert_after rank x l ++ r.
Proof.
  revert r. induction l as [|y l IH] using rev_ind; intros r Hl; [done|].
  apply ranked_snoc_inv in Hl as [Hl Hy]. rewrite length_app, Nat.add_1_r. cbn [isort_inner].
  assert (Hx : (l ++ [y]) ++ x :: r = l ++ y :: x :: r) by (by rewrite <-app_assoc).
  rewrite Hx. replace (S (length l)) with (length l + 1) by lia.
  rewrite lookup_app_r, Nat.add_comm, Nat.add_sub by lia. cbn [lookup list_lookup].
  rewrite lookup_app_r, Nat.sub_diag by lia. cbn [lookup list_lookup].
  destruct (Z.leb_spec (rec_score x) (rec_score y)) as [Hle|Hgt].
  - rewrite insert_after_end, <-!app_assoc; [done|]. apply Forall_app. split; [|by repeat constructor].
    eapply Forall_impl; [exact Hy|]. simpl. lia.
  - rewrite insert_after_last, <-app_assoc by done.
    rewrite insert_app_r_alt, insert_app_r_alt by lia.
    replace (1 + length l - length l) with 1 by lia. rewrite Nat.sub_diag.
    cbn [insert list_insert]. by rewrite IH.
Qed.

Lemma insert_after_ranked x l : ranked l → ranked (insert_after rank x l).
Proof.
  unfold ranked. induction 1 as [|y l Hl IH Hy]; simpl; [repeat constructor|].
  destruct (Z.ltb_spec (rank x) (rank y)); unfold rank in *.
  - constructor; [by constructor|]. constructor; [lia|]. eapply Forall_impl; [exact Hy|]. simpl. lia.
  - constructor; [done|]. rewrite insert_after_perm. constructor; [lia|done].
Qed.

Lemma isort_prefix l xs :
  ranked l →
  foldl (λ xs i, isort_inner i xs) (l ++ xs) (seq (length l) (length xs)) =
    foldl (λ acc x, insert_after rank x acc) l xs.
Proof.
  revert l. induction xs as [|x xs IH]; intros l Hl; [by rewrite app_nil_r|]. simpl.
  rewrite isort_inner_insert by done.
  replace (S (length l)) with (length (insert_after rank x l)) by by rewrite insert_after_perm.
  apply IH. by apply insert_after_ranked.
Qed.

Lemma isort_sort xs : isort xs = rank_sort xs.
Proof.
  unfold isort. destruct xs as [|x xs]; [done|]. replace (length (x :: xs) - 1) with (length xs) by (simpl; lia).
  rewrite <-foldl_insert_after. change (x :: xs) with ([x] ++ xs).
  rewrite foldl_app. apply (isort_prefix [x] xs). by repeat constructor.
Qed.

Lemma isort_perm xs : isort xs ≡ₚ xs.
Proof. rewrite isort_sort. apply sort_by_perm. Qed.

Lemma isort_ranked xs : ranked (isort xs).
Proof.
  rewrite isort_sort. pose proof (sort_by_key_sorted rank xs) as Hs. unfold ranked.
  induction Hs as [|x l Hl IH Hx]; constructor; [done|]. eapply Forall_impl; [exact Hx|].
  unfold rank. simpl. lia.
Qed.
(** ** The records *)

Definition count (a : Multiaddr) (l : list Multiaddr) : nat := length (filter (a =.) l).

Lemma count_snoc a l b : count a (l ++ [b]) = count a l + if decide (a = b) then 1 else 0.
Proof.
  unfold count. rewrite filter_app, length_app. f_equal. rewrite filter_cons. by case_decide.
Qed.

Lemma count_cons a b l : count a (b :: l) = (if decide (a = b) then 1 else 0) + count a l.
Proof. unfold count. rewrite filter_cons. by case_decide. Qed.

Lemma count_pos a l : 0 < count a l ↔ a ∈ l.
Proof.
  induction l as [|b l IH]; [split; [cbn; lia|by intros ?%elem_of_nil]|].
  rewrite count_cons, elem_of_cons, <-IH. case_decide; naive_solver lia.
Qed.

Lemma count_le a l : count a l ≤ length l.
Proof. apply length_filter. Qed.

(** Every record has the number of reports as its score, and every report a
    record. *)
Definition scored (xs : list AddrRecord) (reps : list Multiaddr) : Prop :=
  NoDup (rec_addr <$> xs) ∧
  (∀ r, r ∈ xs → rec_score r = Z.of_nat (count (rec_addr r) reps)) ∧
  (∀ a, a ∈ reps → a ∈ rec_addr <$> xs).

Lemma scored_perm xs ys reps : xs ≡ₚ ys → scored xs reps → scored ys reps.
Proof. intros Hp (H1&H2&H3). unfold scored. setoid_rewrite <-Hp. done. Qed.

Lemma update_record_None f a xs : update_record f a xs = None → a ∉ rec_addr <$> xs.
Proof.
  induction xs as [|r xs IH]; simpl; [set_solver|]. case_decide; [done|].
  destruct (update_record f a xs); [done|]. set_solver.
Qed.

Lemma update_record_Some f a xs ys :
  NoDup (rec_addr <$> xs) → update_record f a xs = Some ys →
  rec_addr <$> ys = rec_addr <$> xs ∧
  ∀ r, r ∈ ys → (r ∈ xs ∧ rec_addr r ≠ a) ∨
    ∃ r0, r0 ∈ xs ∧ rec_addr r0 = a ∧ r = mk_AddrRecord (f (rec_score r0)) a.
Proof.
  revert ys. induction xs as [|r xs IH]; intros ys Hnd; simpl; [done|].
  cbn in Hnd. apply NoDup_cons in Hnd as [Hr Hnd]. case_decide as Ha.
  - intros [= <-]. split; [done|]. intros r' [->|Hin]%elem_of_cons.
    + right. exists r. rewrite Ha. set_solver.
    + left. split; [set_solver|]. intros He. apply Hr. rewrite Ha, <-He. by apply list_elem_of_fmap_2.
  - destruct (update_record f a xs) as [zs|]; [|done]. intros [= <-].
    destruct (IH zs Hnd eq_refl) as [Hf Hz]. split; [cbn; by rewrite Hf|].
    intros r' [->|Hin]%elem_of_cons; [left; set_solver|].
    destruct (Hz r' Hin) as [[? ?]|(r0&?&?&?)]; [left|right; exists r0]; set_solver.
Qed.

Lemma scored_forget a reps xs ys :
  scored xs (a :: reps) → update_record (λ n, saturating_sub_u32 n 1) a xs = Some ys → scored ys reps.
Proof.
  intros (Hnd&Hs&Hr) Hu. destruct (update_record_Some _ _ _ _ Hnd Hu) as [Hf Hy].
  split_and!; [by rewrite Hf| |].
  - intros r Hin. destruct (Hy r Hin) as [[Hx Hne]|(r0&Hx&Ha&->)].
    + rewrite (Hs r Hx), count_cons, decide_False by done. done.
    + cbn [rec_score rec_addr]. rewrite (Hs r0 Hx), Ha, count_cons, decide_True by done.
      unfold saturating_sub_u32. lia.
  - intros b Hb. rewrite Hf. apply Hr. set_solver.
Qed.

Lemma scored_report a reps xs ys :
  scored xs reps → (Z.of_nat (length reps) < 2 ^ 32 - 1)%Z →
  update_record (λ n, saturating_add_u32 n 1) a xs = Some ys → scored ys (reps ++ [a]).
Proof.
  intros (Hnd&Hs&Hr) Hl Hu. destruct (update_record_Some _ _ _ _ Hnd Hu) as [Hf Hy].
  split_and!; [by rewrite Hf| |].
  - intros r Hin. destruct (Hy r Hin) as [[Hx Hne]|(r0&Hx&Ha&->)].
    + rewrite (Hs r Hx), count_snoc, decide_False by done. lia.
    + cbn [rec_score rec_addr]. rewrite (Hs r0 Hx), Ha, count_snoc, decide_True by done.
      pose proof (count_le a reps). unfold saturating_add_u32. lia.
  - intros b [Hb|Hb]%elem_of_app; rewrite Hf; [by apply Hr|].
    apply list_elem_of_singleton in Hb as ->. destruct (decide (a ∈ rec_addr <$> xs)) as [|Hn]; [done|].
    exfalso. clear - Hn Hu. revert ys Hu. induction xs as [|r xs IH]; intros ys; simpl; [done|].
    rewrite decide_False by set_solver. destruct (update_record _ a xs); [|done]. set_solver.
Qed.

Lemma scored_new a reps xs :
  scored xs reps → a ∉ rec_addr <$> xs → scored (xs ++ [mk_AddrRecord 1 a]) (reps ++ [a]).
Proof.
  intros (Hnd&Hs&Hr) Ha. split_and!.
  - rewrite fmap_app. apply NoDup_app. split_and!; [done| |apply NoDup_singleton].
    cbn. set_solver.
  - intros r [Hin|Hin]%elem_of_app.
    + rewrite (Hs r Hin), count_snoc, decide_False; [lia|]. intros <-. apply Ha.
      by apply list_elem_of_fmap_2.
    + apply list_elem_of_singleton in Hin as ->. cbn [rec_score rec_addr].
      rewrite count_snoc, decide_True by done.
      assert (count a reps = 0); [|lia]. apply Nat.le_0_r, Nat.nlt_ge. rewrite count_pos. auto.
  - intros b [Hb|Hb]%elem_of_app; rewrite fmap_app; apply elem_of_app; [left; by apply Hr|right]. done.
Qed.

Lemma drop_zeros_suffix xs : ∃ zs, xs = zs ++ drop_zeros xs ∧ Forall (λ r, rec_score r = 0%Z) zs.
Proof.
  induction xs as [|r xs IH]; [by exists []|]. simpl. destruct (Z.eqb_spec (rec_score r) 0).
  - destruct IH as (zs&Hx&Hz). exists (r :: zs). split; [simpl; by rewrite <-Hx|by constructor].
  - by exists [].
Qed.

Lemma drop_zeros_head xs : match drop_zeros xs with r :: _ => rec_score r ≠ 0%Z | [] => True end.
Proof. induction xs as [|r xs IH]; [done|]. simpl. by destruct (Z.eqb_spec (rec_score r) 0). Qed.

Lemma ranked_app_inv l1 l2 :
  ranked (l1 ++ l2) →
  ranked l1 ∧ ranked l2 ∧ Forall (λ a, Forall (λ b, rec_score b ≤ rec_score a)%Z l2) l1.
Proof.
  unfold ranked. induction l1 as [|x l1 IH]; simpl; [by repeat constructor|].
  intros [Hs Hx]%StronglySorted_inv. destruct (IH Hs) as (?&?&?).
  apply Forall_app in Hx as [? ?]. split_and!; [by constructor|done|by constructor].
Qed.

(** Removing the zeros at the end of a ranked registry removes all of them. *)
Lemma drop_zeros_scored xs reps :
  ranked xs → scored xs reps →
  let ys := reverse (drop_zeros (reverse xs)) in
  ranked ys ∧ scored ys reps ∧ Forall (λ r, 0 < rec_score r)%Z ys.
Proof.
  intros Hr Hs ys. destruct (drop_zeros_suffix (reverse xs)) as (zs&Hx&Hz).
  assert (Hsplit : xs = ys ++ reverse zs).
  { rewrite <-(reverse_involutive xs) at 1. rewrite Hx at 1. by rewrite reverse_app. }
  assert (Hpos : Forall (λ r, 0 < rec_score r)%Z ys).
  { unfold ys. pose proof (drop_zeros_head (reverse xs)) as Hh. destruct Hs as (_&Hsc&_).
    destruct (drop_zeros (reverse xs)) as [|x l] eqn:Hd; [by constructor|].
    subst ys. rewrite reverse_cons in Hsplit |- *. rewrite Hsplit in Hr.
    apply ranked_app_inv in Hr as (Hr&_). apply ranked_snoc_inv in Hr as [_ Hr].
    assert (Hx0 : (0 < rec_score x)%Z).
    { specialize (Hsc x). rewrite Hsplit in Hsc. specialize (Hsc ltac:(set_solver)). lia. }
    apply Forall_app. split; [|by repeat constructor]. eapply Forall_impl; [exact Hr|]. simpl. lia. }
  rewrite Hsplit in Hr, Hs. apply ranked_app_inv in Hr as (Hr&_&_). split_and!; [done| |done].
  destruct Hs as (Hnd&Hsc&Hrep). rewrite fmap_app in Hnd, Hrep.
  apply NoDup_app in Hnd as (Hnd&_&_). split_and!; [done|set_solver|].
  intros a Ha. specialize (Hrep a Ha). apply elem_of_app in Hrep as [|Hin]; [done|].
  exfalso. apply list_elem_of_fmap in Hin as (r&->&Hin). apply count_pos in Ha.
  specialize (Hsc r ltac:(set_solver)). rewrite elem_of_reverse in Hin.
  rewrite Forall_forall in Hz. specialize (Hz r Hin). lia.
Qed.

(** ** The collection *)

Inductive addresses_reach (limit : nat) : Addresses → Prop :=
  | addresses_init : addresses_reach limit (Addresses_new limit)
  | addresses_add s a : addresses_reach limit s → addresses_reach limit (Addresses_add s a).

Definition addresses_inv (limit : nat) (s : Addresses) : Prop :=
  reg_limit s = limit ∧ length (reports s) ≤ limit ∧ ranked (registry s) ∧
  scored (registry s) (reports s) ∧ Forall (λ r, 0 < rec_score r)%Z (registry s).

Lemma ranked_snoc_one l a :
  ranked l → Forall (λ r, 0 < rec_score r)%Z l → ranked (l ++ [mk_AddrRecord 1 a]).
Proof.
  unfold ranked. induction 1 as [|x l Hl IH Hx]; intros Hp; simpl; [repeat constructor|].
  apply Forall_cons in Hp as [Hx0 Hp]. constructor; [by apply IH|]. apply Forall_app.
  split; [done|]. repeat constructor. simpl. lia.
Qed.

Lemma scored_pos xs reps a :
  scored xs (reps ++ [a]) → Forall (λ r, 0 < rec_score r ∨ rec_addr r = a)%Z xs →
  Forall (λ r, 0 < rec_score r)%Z xs.
Proof.
  intros (_&Hs&_) Hp. apply Forall_forall. intros r Hr. rewrite Forall_forall in Hp.
  destruct (Hp r Hr) as [|Ha]; [done|]. rewrite (Hs r Hr), Ha, count_snoc, decide_True by done. lia.
Qed.

Lemma addresses_add_inv limit s a :
  0 < limit → (Z.of_nat limit < 2 ^ 32)%Z → addresses_inv limit s →
  addresses_inv limit (Addresses_add s a) ∧
  reports (Addresses_add s a) =
    (if decide (length (reports s) = limit) then tail (reports s) else reports s) ++ [a].
Proof.
  intros Hl0 Hl (Hlim&Hlen&Hr&Hs&Hp). unfold Addresses_add. rewrite Hlim.
  set (st := if decide (length (reports s) = limit) then (head (reports s), tail (reports s))
             else (None, reports s)).
  assert (Hst : ∃ o reps, st = (o, reps) ∧ length reps < limit ∧
    reps = (if decide (length (reports s) = limit) then tail (reports s) else reports s) ∧
    (let xs := match o with
      | Some oldest => match update_record (λ n, saturating_sub_u32 n 1) oldest (registry s) with
        | Some xs => isort xs | None => registry s end
      | None => registry s end in ranked xs ∧ scored xs reps)).
  { subst st. case_decide as Hf; [|eexists _, _; split; [done|]; split; [lia|done]].
    destruct (reports s) as [|b reps]; [simpl in Hf; lia|]. eexists _, _. split; [done|].
    simpl in *. split; [lia|]. split; [done|].
    destruct (update_record _ b (registry s)) as [xs|] eqn:Hu.
    - split; [apply isort_ranked|]. eapply scored_perm; [symmetry; apply isort_perm|].
      by eapply scored_forget.
    - exfalso. apply update_record_None in Hu. apply Hu. destruct Hs as (_&_&Hrep). set_solver. }
  destruct Hst as (o&reps&->&Hrl&Hreps&Hxs).
  set (xs := match o with Some _ => _ | None => _ end) in *. destruct Hxs as [Hxr Hxs].
  destruct (drop_zeros_scored xs reps Hxr Hxs) as (Hyr&Hys&Hyp).
  set (ys := reverse (drop_zeros (reverse xs))) in *. rewrite <-Hreps.
  destruct (update_record _ a ys) as [zs|] eqn:Hu; (split; [|done]); unfold addresses_inv;
    cbn [reg_limit reports registry]; rewrite length_app; simpl length.
  - assert (Hz : scored (isort zs) (reps ++ [a])).
    { eapply scored_perm; [symmetry; apply isort_perm|]. eapply scored_report; [done|lia|done]. }
    split_and!; [done|lia|apply isort_ranked|done|]. eapply scored_pos; [done|].
    rewrite isort_perm. destruct (update_record_Some _ _ _ _ (proj1 Hys) Hu) as [_ Hz'].
    apply Forall_forall. intros r Hr'. destruct (Hz' r Hr') as [[Hin _]|(r0&_&_&->)]; [left|by right].
    rewrite Forall_forall in Hyp. auto.
  - split_and!; [done|lia|by apply ranked_snoc_one| |].
    + apply scored_new; [done|]. by eapply update_record_None.
    + apply Forall_app. split; [done|]. by repeat constructor.
Qed.

Lemma addresses_reach_inv limit s :
  0 < limit → (Z.of_nat limit < 2 ^ 32)%Z → addresses_reach limit s → addresses_inv limit s.
Proof.
  intros Hl0 Hl. induction 1 as [|s a _ IH].
  - split_and!; [done|simpl; lia|constructor| |constructor].
    split_and!; [constructor|set_solver|set_solver].
  - by apply addresses_add_inv.
Qed.

(** The collection of external addresses: after any sequence of reports, the
    window holds the last reports up to the limit; the addresses are listed in
    descending order of their score, each once; an address is listed exactly
    when it is in the window, and its score is the number of its reports there. *)
Theorem addresses_ranked limit s a :
  0 < limit → (Z.of_nat limit < 2 ^ 32)%Z → addresses_reach limit s →
  ranked (registry s) ∧ NoDup (Addresses_iter s) ∧ length (reports s) ≤ limit ∧
  (a ∈ Addresses_iter s ↔ a ∈ reports s) ∧
  (∀ r, r ∈ registry s → rec_score r = Z.of_nat (count (rec_addr r) (reports s))) ∧
  (∀ b, reports (Addresses_add s b) =
    (if decide (length (reports s) = limit) then tail (reports s) else reports s) ++ [b]).
Proof.
  intros Hl0 Hl Hs%addresses_reach_inv; [|done..]. pose proof Hs as (_&Hlen&Hr&(Hnd&Hsc&Hrep)&Hp).
  split_and!; try done.
  - split; [|apply Hrep]. intros (r&->&Hin)%list_elem_of_fmap. apply count_pos.
    rewrite Forall_forall in Hp. specialize (Hp r Hin). rewrite (Hsc r Hin) in Hp. lia.
  - intros b. by apply addresses_add_inv.
Qed.

(** The insertion sort of the code equals the stable sort by descending
    score. *)
Theorem isort_is_stable_sort xs :
  isort xs = sort_by (λ a b, - rec_score a <=? - rec_score b)%Z xs.
Proof. apply isort_sort. Qed.
End registry.

Lemma addresses_ranked_witness :
  let s := foldl Addresses_add (Addresses_new 3) [1; 2; 2; 1; 2] in
  Addresses_iter s = [2; 1] ∧ ranked (registry s).
Proof.
  set (s := foldl Addresses_add (Addresses_new 3) [1; 2; 2; 1; 2]). split; [by vm_compute|].
  apply (addresses_ranked 3 s 1); [lia|done|]. subst s. simpl. repeat constructor.
Defined.
