(* ===== verification/Dial.v ===== *)
(** * The dialer: [swarm/src/dial.rs]

    Dialing a peer: the addresses are filtered, checked against the backoff list,
    ranked and dialed concurrently, one job per address, under a limit on the
    jobs in progress; the first connection to the right peer wins, and a dial may
    be attempted several times.  The tasks that run concurrently (one per dial,
    one per job, and the cleanup of the backoff list) are interleaved at their
    atomic accesses of the shared counter, the backoff list and the channels.
    Dialing a transport, routing, time and the environment variables are inputs.

    The theorems show that a dial ends with a connection to the peer asked for or
    an error, that it never waits in vain for its jobs, that the counter of the
    limiter is the number of the jobs in progress, what the backoff list answers,
    and that the ranking is a stable sort by class. *)

From Stdlib Require Import ZArith Lia.
From S2P Require Import Prelude Varint StdText Multiaddr.

Local Open Scope nat_scope.

Abbreviation Instant := Z (only parsing).
Abbreviation Duration := Z (only parsing).

(** In seconds. *)
Definition CONCURRENT_DIALS_LIMIT : Z := 1000.
Definition DIAL_TIMEOUT : Duration := 20%Z.
Definition DIAL_TIMEOUT_LOCAL : Duration := 2%Z.
Definition DIAL_ATTEMPTS : Z := 1.
Definition BACKOFF_BASE : Duration := 5%Z.
Definition BACKOFF_COEF : Duration := 1%Z.
Definition BACKOFF_MAX : Duration := 300%Z.

Record DialerStats := mk_DialerStats {
  total_attempts : nat;
  total_success : nat;
  no_address : nat;
  no_transport : nat;
  dialing_backoff : nat;
  total_jobs : nat;
  dialing_success : nat;
  dialing_limit : nat;
  dialing_timeout : nat;
  mismatch_peer_id : nat;
  transport_error : nat
}.

Definition DialerStats_default : DialerStats := mk_DialerStats 0 0 0 0 0 0 0 0 0 0 0.

Definition inc_total_attempts (s : DialerStats) : DialerStats :=
  mk_DialerStats (S (total_attempts s)) (total_success s) (no_address s) (no_transport s)
    (dialing_backoff s) (total_jobs s) (dialing_success s) (dialing_limit s) (dialing_timeout s)
    (mismatch_peer_id s) (transport_error s).
Definition inc_total_success (s : DialerStats) : DialerStats :=
  mk_DialerStats (total_attempts s) (S (total_success s)) (no_address s) (no_transport s)
    (dialing_backoff s) (total_jobs s) (dialing_success s) (dialing_limit s) (dialing_timeout s)
    (mismatch_peer_id s) (transport_error s).
Definition inc_no_address (s : DialerStats) : DialerStats :=
  mk_DialerStats (total_attempts s) (total_success s) (S (no_address s)) (no_transport s)
    (dialing_backoff s) (total_jobs s) (dialing_success s) (dialing_limit s) (dialing_timeout s)
    (mismatch_peer_id s) (transport_error s).
Definition inc_no_transport (s : DialerStats) : DialerStats :=
  mk_DialerStats (total_attempts s) (total_success s) (no_address s) (S (no_transport s))
    (dialing_backoff s) (total_jobs s) (dialing_success s) (dialing_limit s) (dialing_timeout s)
    (mismatch_peer_id s) (transport_error s).
Definition inc_dialing_backoff (s : DialerStats) : DialerStats :=
  mk_DialerStats (total_attempts s) (total_success s) (no_address s) (no_transport s)
    (S (dialing_backoff s)) (total_jobs s) (dialing_success s) (dialing_limit s) (dialing_timeout s)
    (mismatch_peer_id s) (transport_error s).
Definition add_total_jobs (n : nat) (s : DialerStats) : DialerStats :=
  mk_DialerStats (total_attempts s) (total_success s) (no_address s) (no_transport s)
    (dialing_backoff s) (total_jobs s + n) (dialing_success s) (dialing_limit s) (dialing_timeout s)
    (mismatch_peer_id s) (transport_error s).
Definition inc_dialing_success (s : DialerStats) : DialerStats :=
  mk_DialerStats (total_attempts s) (total_success s) (no_address s) (no_transport s)
    (dialing_backoff s) (total_jobs s) (S (dialing_success s)) (dialing_limit s) (dialing_timeout s)
    (mismatch_peer_id s) (transport_error s).
Definition inc_dialing_limit (s : DialerStats) : DialerStats :=
  mk_DialerStats (total_attempts s) (total_success s) (no_address s) (no_transport s)
    (dialing_backoff s) (total_jobs s) (dialing_success s) (S (dialing_limit s)) (dialing_timeout s)
    (mismatch_peer_id s) (transport_error s).
Definition inc_dialing_timeout (s : DialerStats) : DialerStats :=
  mk_DialerStats (total_attempts s) (total_success s) (no_address s) (no_transport s)
    (dialing_backoff s) (total_jobs s) (dialing_success s) (dialing_limit s) (S (dialing_timeout s))
    (mismatch_peer_id s) (transport_error s).
Definition inc_mismatch_peer_id (s : DialerStats) : DialerStats :=
  mk_DialerStats (total_attempts s) (total_success s) (no_address s) (no_transport s)
    (dialing_backoff s) (total_jobs s) (dialing_success s) (dialing_limit s) (dialing_timeout s)
    (S (mismatch_peer_id s)) (transport_error s).
Definition inc_transport_error (s : DialerStats) : DialerStats :=
  mk_DialerStats (total_attempts s) (total_success s) (no_address s) (no_transport s)
    (dialing_backoff s) (total_jobs s) (dialing_success s) (dialing_limit s) (dialing_timeout s)
    (mismatch_peer_id s) (S (transport_error s)).

Record BackoffAddr := mk_BackoffAddr { tries : Z; until : Instant }.

Section dial.
Context {PeerId : Type} `{!EqDecision PeerId} `{!Countable PeerId}.
Context {StreamMuxer Transport TransportError : Type} (remote_peer : StreamMuxer → PeerId).
Context `{Varint} `{AddrCodecs}.

(** [SwarmError] of [swarm/src/lib.rs]; [General] carries a text. *)
Inductive SwarmError :=
  | NoAddresses (peer : PeerId)
  | NoConnection (peer : PeerId)
  | InvalidPeerId (peer : PeerId)
  | Closing (source : Z)
  | General
  | TransportErr (e : TransportError)
  | Internal
  | CanNotListenOnAny
  | DialToSelf
  | InBackoff
  | DialNoTransport (peer : PeerId)
  | AllDialsFailed
  | DialTimeout (addr : Multiaddr) (secs : Z)
  | MaxDialAttempts (attempts : Z)
  | ConcurrentDialLimit (limit : Z).

(** ** Transports: [swarm/src/lib.rs] *)

Local Abbreviation Transports := (gmap Z Transport).

(** [None] is a panic: an address that is not a sequence of protocols. *)
Definition lookup_by_addr (ts : Transports) (addr : Multiaddr) : option (option Transport) :=
  '(d, _) ← pop addr;
  match d with
  | Some d =>
      match get_key d with
      | Ok id => Some (ts !! id)
      | Err _ => Some None
      end
  | None => Some None
  end.

(** ** The backoff list *)

Local Abbreviation DialBackoff := (gmap PeerId (gmap bytes BackoffAddr)).

Definition backoff_find_peer (now : Instant) (b : DialBackoff) (peer : PeerId) (ma : Multiaddr) :
    option bool :=
  match b !! peer with
  | Some peer_map =>
      key ← maddr_to_string ma;
      match peer_map !! key with
      | Some backoff => Some (now <? until backoff)%Z
      | None => Some false
      end
  | None => Some false
  end.

(** [BACKOFF_BASE + BACKOFF_COEF * (tries * tries)], at most [BACKOFF_MAX]; the
    square is computed in 32 bits. *)
Definition backoff_time (tries : Z) : option Duration :=
  if (tries * tries <? 2 ^ 32)%Z
  then Some (Z.min (BACKOFF_BASE + BACKOFF_COEF * (tries * tries)) BACKOFF_MAX)%Z
  else None.

Definition backoff_add_peer (now : Instant) (b : DialBackoff) (peer : PeerId) (ma : Multiaddr) :
    option DialBackoff :=
  let peer_map := default ∅ (b !! peer) in
  key ← maddr_to_string ma;
  match peer_map !! key with
  | Some backoff =>
      t ← backoff_time (tries backoff);
      Some (<[peer := <[key := mk_BackoffAddr (tries backoff + 1) (now + t)]> peer_map]> b)
  | None => Some (<[peer := <[key := mk_BackoffAddr 1 (now + BACKOFF_BASE)]> peer_map]> b)
  end.

(** The inner loop of [do_cleanup]: is there an entry to be kept? *)
Fixpoint cleanup_good (now : Instant) (entries : list BackoffAddr) : option bool :=
  match entries with
  | [] => Some false
  | backoff :: entries =>
      t ← backoff_time (tries backoff);
      if (now <? until backoff + t)%Z then Some true else cleanup_good now entries
  end.

Fixpoint cleanup_ids (now : Instant) (peers : list (PeerId * gmap bytes BackoffAddr)) :
    option (list PeerId) :=
  match peers with
  | [] => Some []
  | (p, e) :: peers =>
      good ← cleanup_good now (map_to_list e).*2;
      ids ← cleanup_ids now peers;
      Some (if good : bool then ids else p :: ids)
  end.

(** The two critical sections of [do_cleanup]. *)
Definition cleanup_scan (now : Instant) (b : DialBackoff) : option (list PeerId) :=
  cleanup_ids now (map_to_list b).
Definition cleanup_remove (b : DialBackoff) (ids : list PeerId) : DialBackoff :=
  foldl (λ b p, delete p b) b ids.

(** ** Ranking *)

Record Ranking := mk_Ranking {
  local_udp_addrs : list Multiaddr;
  relay_udp_addrs : list Multiaddr;
  others_udp : list Multiaddr;
  local_fd_addrs : list Multiaddr;
  relay_fd_addrs : list Multiaddr;
  others_fd : list Multiaddr
}.

Definition rank_push (r : Ranking) (addr : Multiaddr) : option Ranking :=
  relay ← value_for_protocol addr P2P_CIRCUIT;
  fd ← should_consume_fd addr;
  match relay with
  | Some _ =>
      if fd : bool
      then Some (mk_Ranking (local_udp_addrs r) (relay_udp_addrs r) (others_udp r) (local_fd_addrs r)
                   (relay_fd_addrs r ++ [addr]) (others_fd r))
      else Some (mk_Ranking (local_udp_addrs r) (relay_udp_addrs r ++ [addr]) (others_udp r)
                   (local_fd_addrs r) (relay_fd_addrs r) (others_fd r))
  | None =>
      private ← is_private_addr addr;
      if private : bool then
        if fd : bool
        then Some (mk_Ranking (local_udp_addrs r) (relay_udp_addrs r) (others_udp r)
                     (local_fd_addrs r ++ [addr]) (relay_fd_addrs r) (others_fd r))
        else Some (mk_Ranking (local_udp_addrs r ++ [addr]) (relay_udp_addrs r) (others_udp r)
                     (local_fd_addrs r) (relay_fd_addrs r) (others_fd r))
      else
        if fd : bool
        then Some (mk_Ranking (local_udp_addrs r) (relay_udp_addrs r) (others_udp r) (local_fd_addrs r)
                     (relay_fd_addrs r) (others_fd r ++ [addr]))
        else Some (mk_Ranking (local_udp_addrs r) (relay_udp_addrs r) (others_udp r ++ [addr])
                     (local_fd_addrs r) (relay_fd_addrs r) (others_fd r))
  end.

Fixpoint rank_loop (r : Ranking) (addrs : list Multiaddr) : option Ranking :=
  match addrs with
  | [] => Some r
  | addr :: addrs => r ← rank_push r addr; rank_loop r addrs
  end.

Definition rank_addrs (addrs : list Multiaddr) : option (list Multiaddr) :=
  r ← rank_loop (mk_Ranking [] [] [] [] [] []) addrs;
  let relays := relay_udp_addrs r ++ relay_fd_addrs r in
  let fds := local_fd_addrs r ++ others_fd r in
  Some (local_udp_addrs r ++ others_udp r ++ fds ++ relays).

(** ** Dials, jobs and the shared state *)

Inductive EitherDialAddr :=
  | Addresses (addrs : list Multiaddr)
  | DHT.

Record DialParam := mk_DialParam {
  transports : Transports;
  addrs : EitherDialAddr;
  peer_id : PeerId;
  tid : nat;
  attempts : Z;
  filter_private : bool;
  filter_loopback : bool
}.

(** Where a dial is: about to look its addresses up, checking them against the
    backoff list, waiting for the results of its jobs on a channel, sleeping
    before the next attempt, or at its end. *)
Inductive DialPhase :=
  | PLookup
  | PCheck (todo kept : list Multiaddr)
  | PCollect (chan remaining : nat)
  | PSleep
  | PDone (r : result SwarmError StreamMuxer)
  | PPanicked.

Record DialTask := mk_DialTask {
  dt_param : DialParam;
  dt_count : Z;
  dt_phase : DialPhase
}.

Record DialJob := mk_DialJob {
  dj_addr : Multiaddr;
  dj_peer : PeerId;
  dj_chan : nat
}.

(** Where a job is: before the load of the counter, between the load and the
    increment, dialing, and between the report and the decrement. *)
Inductive JobPhase := JCheck | JTake | JDial | JRelease.

Local Abbreviation JobResult := (result SwarmError StreamMuxer * Multiaddr)%type.

Record Dialer := mk_Dialer {
  dial_consuming : Z;
  dial_limit : Z;
  backoff : DialBackoff;
  stats : DialerStats;
  tasks : gmap nat DialTask;
  jobs : gmap nat (DialJob * JobPhase);
  chans : gmap nat (list JobResult);
  next_id : nat;
  cleanup : option (list PeerId)
}.

Definition Dialer_new (limit : Z) : Dialer :=
  mk_Dialer 0 limit ∅ DialerStats_default ∅ ∅ ∅ 0 None.

Definition with_task (d : Dialer) (t : nat) (task : DialTask) : Dialer :=
  mk_Dialer (dial_consuming d) (dial_limit d) (backoff d) (stats d) (<[t := task]> (tasks d))
    (jobs d) (chans d) (next_id d) (cleanup d).

Definition with_stats (f : DialerStats → DialerStats) (d : Dialer) : Dialer :=
  mk_Dialer (dial_consuming d) (dial_limit d) (backoff d) (f (stats d)) (tasks d)
    (jobs d) (chans d) (next_id d) (cleanup d).

Definition with_backoff (b : DialBackoff) (d : Dialer) : Dialer :=
  mk_Dialer (dial_consuming d) (dial_limit d) b (stats d) (tasks d)
    (jobs d) (chans d) (next_id d) (cleanup d).

(** A send on an unbounded channel; it is lost when the receiver is gone. *)
Definition send (d : Dialer) (c : nat) (m : JobResult) : Dialer :=
  mk_Dialer (dial_consuming d) (dial_limit d) (backoff d) (stats d) (tasks d) (jobs d)
    (alter (λ q, q ++ [m]) c (chans d)) (next_id d) (cleanup d).

Definition drop_chan (c : nat) (d : Dialer) : Dialer :=
  mk_Dialer (dial_consuming d) (dial_limit d) (backoff d) (stats d) (tasks d) (jobs d)
    (delete c (chans d)) (next_id d) (cleanup d).

(** [AsyncDialer::dial]. *)
Definition dial (d : Dialer) (param : DialParam) : Dialer :=
  with_stats inc_total_attempts (with_task d (tid param) (mk_DialTask param 0 PLookup)).

Definition set_phase (d : Dialer) (t : nat) (task : DialTask) (ph : DialPhase) : Dialer :=
  with_task d t (mk_DialTask (dt_param task) (dt_count task) ph).

(** The end of an attempt that fails, in [start_dialing]. *)
Definition attempt_failed (d : Dialer) (t : nat) (task : DialTask) (e : SwarmError) : Dialer :=
  let n := attempts (dt_param task) in
  set_phase d t task
    (if (dt_count task <? n)%Z then PSleep
     else if (1 <? n)%Z then PDone (Err (MaxDialAttempts n))
     else PDone (Err e)).

(** [start_dialing] and the spawned task of [dial] count the success. *)
Definition attempt_succeeded (d : Dialer) (t : nat) (task : DialTask) (m : StreamMuxer) : Dialer :=
  with_stats inc_total_success (set_phase d t task (PDone (Ok m))).

Fixpoint filter_not (f : Multiaddr → option bool) (l : list Multiaddr) : option (list Multiaddr) :=
  match l with
  | [] => Some []
  | a :: l => b ← f a; l ← filter_not f l; Some (if b : bool then l else a :: l)
  end.

Definition filter_addrs (param : DialParam) (l : list Multiaddr) : option (list Multiaddr) :=
  l ← (if filter_private param then filter_not is_private_addr l else Some l);
  if filter_loopback param then filter_not is_loopback_addr l else Some l.

(** The start of [dial_addrs]: [found] is the answer of the routing. *)
Definition lookup_step (d : Dialer) (t : nat) (task : DialTask) (found : option (list Multiaddr)) :
    Dialer :=
  let task := mk_DialTask (dt_param task) (dt_count task + 1) (dt_phase task) in
  let origin := match addrs (dt_param task) with Addresses l => Some l | DHT => found end in
  match origin with
  | None => attempt_failed (with_stats inc_no_address d) t task General
  | Some l =>
      match filter_addrs (dt_param task) l with
      | Some l => set_phase d t task (PCheck l [])
      | None => set_phase d t task PPanicked
      end
  end.

(** One address in the loop over the backoff list. *)
Definition check_step (now : Instant) (d : Dialer) (t : nat) (task : DialTask)
    (addr : Multiaddr) (todo kept : list Multiaddr) : Dialer :=
  match backoff_find_peer now (backoff d) (peer_id (dt_param task)) addr with
  | Some b => set_phase d t task (PCheck todo (if b : bool then kept else kept ++ [addr]))
  | None => set_phase d t task PPanicked
  end.

(** The addresses with a transport, for which jobs are spawned. *)
Fixpoint dialable (ts : Transports) (l : list Multiaddr) : option (list Multiaddr) :=
  match l with
  | [] => Some []
  | addr :: l =>
      r ← lookup_by_addr ts addr;
      l ← dialable ts l;
      Some (match r with Some _ => addr :: l | None => l end)
  end.

Fixpoint spawn_jobs (next : nat) (js : gmap nat (DialJob * JobPhase)) (peer : PeerId) (c : nat)
    (l : list Multiaddr) : nat * gmap nat (DialJob * JobPhase) :=
  match l with
  | [] => (next, js)
  | addr :: l => spawn_jobs (S next) (<[next := (mk_DialJob addr peer c, JCheck)]> js) peer c l
  end.

(** The rest of [dial_addrs], when all addresses have been checked. *)
Definition start_jobs (d : Dialer) (t : nat) (task : DialTask) (kept : list Multiaddr) : Dialer :=
  let param := dt_param task in
  match kept with
  | [] => attempt_failed (with_stats inc_dialing_backoff d) t task InBackoff
  | _ :: _ =>
      match (l ← rank_addrs kept; dialable (transports param) l) with
      | None => set_phase d t task PPanicked
      | Some [] =>
          attempt_failed (with_stats inc_no_transport d) t task (DialNoTransport (peer_id param))
      | Some l =>
          let c := next_id d in
          let '(next, js) := spawn_jobs (S c) (jobs d) (peer_id param) c l in
          let d := mk_Dialer (dial_consuming d) (dial_limit d) (backoff d)
            (add_total_jobs (length l) (stats d)) (tasks d) js (<[c := []]> (chans d)) next (cleanup d) in
          set_phase d t task (PCollect c (length l))
      end
  end.

(** One turn of [collect_dialing_result]; at the end of the loop and at a return
    the channel is dropped. *)
Definition collect_step (now : Instant) (d : Dialer) (t : nat) (task : DialTask) (c remaining : nat) :
    option Dialer :=
  let peer := peer_id (dt_param task) in
  match remaining with
  | 0 => Some (attempt_failed (drop_chan c d) t task AllDialsFailed)
  | S remaining =>
      match chans d !! c with
      | Some ((r, addr) :: q) =>
          let d := mk_Dialer (dial_consuming d) (dial_limit d) (backoff d) (stats d) (tasks d) (jobs d)
            (<[c := q]> (chans d)) (next_id d) (cleanup d) in
          match r with
          | Ok stream_muxer =>
              if decide (peer = remote_peer stream_muxer)
              then Some (attempt_succeeded (drop_chan c d) t task stream_muxer)
              else
                let d := with_stats inc_mismatch_peer_id d in
                match backoff_add_peer now (backoff d) peer addr with
                | Some b => Some (set_phase (with_backoff b d) t task (PCollect c remaining))
                | None => Some (set_phase (drop_chan c d) t task PPanicked)
                end
          | Err (TransportErr _) =>
              match backoff_add_peer now (backoff d) peer addr with
              | Some b => Some (set_phase (with_backoff b d) t task (PCollect c remaining))
              | None => Some (set_phase (drop_chan c d) t task PPanicked)
              end
          | Err _ => Some (set_phase d t task (PCollect c remaining))
          end
      | _ => None
      end
  end.

(** A step of a dial, [None] when it has to wait or has ended. *)
Definition task_step (now : Instant) (found : option (list Multiaddr)) (d : Dialer) (t : nat) :
    option Dialer :=
  task ← tasks d !! t;
  match dt_phase task with
  | PLookup | PSleep => Some (lookup_step d t task found)
  | PCheck (addr :: todo) kept => Some (check_step now d t task addr todo kept)
  | PCheck [] kept => Some (start_jobs d t task kept)
  | PCollect c remaining => collect_step now d t task c remaining
  | PDone _ | PPanicked => None
  end.

(** How the dial of a transport may end. *)
Inductive DialOutcome :=
  | Connected (m : StreamMuxer)
  | Refused (e : TransportError)
  | TimedOut.

(** [DialLimiter::dial_timeout]. *)
Definition dial_timeout (ma : Multiaddr) : option Duration :=
  private ← is_private_addr ma;
  Some (if private : bool then DIAL_TIMEOUT_LOCAL else DIAL_TIMEOUT).

Definition set_job (d : Dialer) (j : nat) (job : DialJob) (ph : JobPhase) : Dialer :=
  mk_Dialer (dial_consuming d) (dial_limit d) (backoff d) (stats d) (tasks d)
    (<[j := (job, ph)]> (jobs d)) (chans d) (next_id d) (cleanup d).

Definition end_job (d : Dialer) (j : nat) : Dialer :=
  mk_Dialer (dial_consuming d) (dial_limit d) (backoff d) (stats d) (tasks d)
    (delete j (jobs d)) (chans d) (next_id d) (cleanup d).

Definition with_consuming (n : Z) (d : Dialer) : Dialer :=
  mk_Dialer n (dial_limit d) (backoff d) (stats d) (tasks d) (jobs d) (chans d) (next_id d) (cleanup d).

(** [do_dial_job] and [execute_dial], one atomic access at a time. *)
Definition job_step (out : DialOutcome) (d : Dialer) (j : nat) : option Dialer :=
  '(job, ph) ← jobs d !! j;
  match ph with
  | JCheck =>
      if (dial_limit d <=? dial_consuming d)%Z then
        let d := with_stats inc_dialing_limit d in
        Some (end_job (send d (dj_chan job) (Err (ConcurrentDialLimit (dial_limit d)), dj_addr job)) j)
      else Some (set_job d j job JTake)
  | JTake => Some (set_job (with_consuming (dial_consuming d + 1)%Z d) j job JDial)
  | JDial =>
      timeout ← dial_timeout (dj_addr job);
      let '(count, r) :=
        match out with
        | Connected m => (inc_dialing_success, Ok m)
        | Refused e => (inc_transport_error, Err (TransportErr e))
        | TimedOut => (inc_dialing_timeout, Err (DialTimeout (dj_addr job) timeout))
        end in
      Some (set_job (send (with_stats count d) (dj_chan job) (r, dj_addr job)) j job JRelease)
  | JRelease => Some (end_job (with_consuming (dial_consuming d - 1)%Z d) j)
  end.

(** The cleanup task. *)
Definition cleanup_step (now : Instant) (d : Dialer) : option Dialer :=
  match cleanup d with
  | None =>
      ids ← cleanup_scan now (backoff d);
      Some (mk_Dialer (dial_consuming d) (dial_limit d) (backoff d) (stats d) (tasks d) (jobs d)
              (chans d) (next_id d) (Some ids))
  | Some ids =>
      Some (mk_Dialer (dial_consuming d) (dial_limit d) (cleanup_remove (backoff d) ids) (stats d)
              (tasks d) (jobs d) (chans d) (next_id d) None)
  end.

(** ** Reachable states

    The addresses of a dial are values of the type, and no address has failed
    65536 times in a row: the square of the number of tries would overflow. *)

Definition valid_addr (a : Multiaddr) : Prop := is_Some (iter a).

Definition valid_param (param : DialParam) : Prop :=
  match addrs param with Addresses l => Forall valid_addr l | DHT => True end.

Definition tries_small (b : DialBackoff) : Prop :=
  ∀ p pm k e, b !! p = Some pm → pm !! k = Some e → (0 ≤ tries e < 2 ^ 16)%Z.

(** The end of the task of a dial that has its result. *)
Definition reap (d : Dialer) (t : nat) : Dialer :=
  mk_Dialer (dial_consuming d) (dial_limit d) (backoff d) (stats d) (delete t (tasks d))
    (jobs d) (chans d) (next_id d) (cleanup d).

Inductive dialer_reach (limit : Z) : Dialer → Prop :=
  | reach_new : dialer_reach limit (Dialer_new limit)
  | reach_dial d param : dialer_reach limit d → tasks d !! tid param = None → valid_param param →
      dialer_reach limit (dial d param)
  | reach_task d now found t d' : dialer_reach limit d → tries_small (backoff d) →
      from_option (Forall valid_addr) True found →
      task_step now found d t = Some d' → dialer_reach limit d'
  | reach_job d out j d' : dialer_reach limit d → job_step out d j = Some d' → dialer_reach limit d'
  | reach_cleanup d now d' : dialer_reach limit d → cleanup_step now d = Some d' →
      dialer_reach limit d'
  | reach_reap d t : dialer_reach limit d → dialer_reach limit (reap d t).

(** A job that holds a token, and one that has yet to report on a channel. *)
Definition has_token (x : DialJob * JobPhase) : Prop :=
  match x.2 with JDial | JRelease => True | _ => False end.
#[global] Instance has_token_dec x : Decision (has_token x).
Proof. unfold has_token. destruct x.2; apply _. Defined.

Definition pending (c : nat) (x : DialJob * JobPhase) : Prop :=
  dj_chan x.1 = c ∧ match x.2 with JRelease => False | _ => True end.
#[global] Instance pending_dec c x : Decision (pending c x).
Proof. unfold pending. destruct x.2; apply _. Defined.

Definition phase_ok (d : Dialer) (task : DialTask) : Prop :=
  match dt_phase task with
  | PLookup => dt_count task = 0%Z
  | PSleep => (1 ≤ dt_count task < attempts (dt_param task))%Z
  | PCheck todo kept => Forall valid_addr todo ∧ Forall valid_addr kept
  | PCollect c n => c < next_id d ∧ ∃ q, chans d !! c = Some q ∧ n = length q + mcount (pending c) (jobs d)
  | PDone (Ok m) => remote_peer m = peer_id (dt_param task)
  | PDone (Err e) =>
      (1 < attempts (dt_param task))%Z →
      e = MaxDialAttempts (attempts (dt_param task)) ∧ dt_count task = attempts (dt_param task)
  | PPanicked => False
  end.

Definition count_ok (task : DialTask) : Prop :=
  (0 ≤ dt_count task ≤ Z.max 1 (attempts (dt_param task)))%Z ∧
  (dt_phase task ≠ PLookup → 1 ≤ dt_count task)%Z.

Record dialer_inv (limit : Z) (d : Dialer) : Prop := {
  inv_limit : dial_limit d = limit;
  inv_tokens : dial_consuming d = Z.of_nat (mcount has_token (jobs d));
  inv_tasks t task : tasks d !! t = Some task →
    tid (dt_param task) = t ∧ valid_param (dt_param task) ∧ count_ok task ∧ phase_ok d task;
  inv_chans t1 t2 task1 task2 c n1 n2 : tasks d !! t1 = Some task1 → tasks d !! t2 = Some task2 →
    dt_phase task1 = PCollect c n1 → dt_phase task2 = PCollect c n2 → t1 = t2;
  inv_jobs j job ph : jobs d !! j = Some (job, ph) →
    j < next_id d ∧ dj_chan job < next_id d ∧ valid_addr (dj_addr job);
  inv_queues c q : chans d !! c = Some q → Forall (λ m, valid_addr m.2) q
}.

(** *** Valid addresses do not panic *)

Context `{!VarintCodecLaws} `{!AddrCodecsLaws}.

Lemma valid_accessors a :
  valid_addr a →
  is_Some (pop a) ∧ is_Some (maddr_to_string a) ∧ is_Some (is_private_addr a) ∧
  is_Some (is_loopback_addr a) ∧ is_Some (should_consume_fd a) ∧
  ∀ code, is_Some (value_for_protocol a code).
Proof.
  intros [ps Hi]. destruct (pop_refines a ps Hi) as (m'&Hp&_).
  unfold maddr_to_string, is_private_addr, is_loopback_addr, should_consume_fd, value_for_protocol.
  rewrite Hi, Hp. by split_and!.
Qed.

Lemma filter_not_valid f l :
  (∀ a, valid_addr a → is_Some (f a)) → Forall valid_addr l →
  ∃ l', filter_not f l = Some l' ∧ Forall valid_addr l'.
Proof.
  intros Hf. induction 1 as [|a l Ha Hl (l'&Hl'&Hv)]; [by exists []|]. simpl.
  destruct (Hf a Ha) as [b ->]. rewrite Hl'. simpl. exists (if b then l' else a :: l').
  split; [done|]. destruct b; [done|by constructor].
Qed.

Lemma filter_addrs_valid param l :
  Forall valid_addr l → ∃ l', filter_addrs param l = Some l' ∧ Forall valid_addr l'.
Proof.
  intros Hl. unfold filter_addrs.
  destruct (filter_not_valid is_private_addr l) as (l1&Hf1&Hv1);
    [intros a Ha; apply (valid_accessors a Ha)|done|].
  assert (Hl1 : ∃ l1, (if filter_private param then filter_not is_private_addr l else Some l) = Some l1
    ∧ Forall valid_addr l1).
  { destruct (filter_private param); eauto. }
  destruct Hl1 as (l2&->&Hv2). simpl. destruct (filter_loopback param); [|eauto].
  apply filter_not_valid; [|done]. intros a Ha. apply (valid_accessors a Ha).
Qed.

(** *** Ranking *)

(** The classes in their order of preference: private and public addresses that
    take no file descriptor, private and public ones that take one, and relays. *)
Definition addr_class (a : Multiaddr) : Z :=
  let fd := default false (should_consume_fd a) in
  match value_for_protocol a P2P_CIRCUIT with
  | Some (Some _) => if fd then 5 else 4
  | _ =>
      if default false (is_private_addr a) then (if fd then 2 else 0) else (if fd then 3 else 1)
  end.

Definition in_class (k : Z) (l : list Multiaddr) : list Multiaddr := filter (λ a, addr_class a = k) l.

Definition ranking_of (l : list Multiaddr) : Ranking :=
  mk_Ranking (in_class 0 l) (in_class 4 l) (in_class 1 l) (in_class 2 l) (in_class 5 l) (in_class 3 l).

Lemma in_class_snoc k l a :
  in_class k (l ++ [a]) = if decide (addr_class a = k) then in_class k l ++ [a] else in_class k l.
Proof.
  unfold in_class. rewrite filter_app, filter_cons. case_decide; [done|]. by rewrite app_nil_r.
Qed.

Lemma rank_push_class l a :
  valid_addr a → rank_push (ranking_of l) a = Some (ranking_of (l ++ [a])).
Proof.
  intros Ha. unfold ranking_of. rewrite !in_class_snoc.
  destruct (valid_accessors a Ha) as (_&_&[b Hb]&_&[fd Hfd]&Hv). destruct (Hv P2P_CIRCUIT) as [o Ho].
  unfold rank_push, addr_class. rewrite Ho, Hfd, Hb. simpl. by destruct o, fd, b.
Qed.

Lemma rank_loop_class l l' :
  Forall valid_addr l' → rank_loop (ranking_of l) l' = Some (ranking_of (l ++ l')).
Proof.
  intros Hl. revert l. induction Hl as [|a l' Ha Hl IH]; intros l; [by rewrite app_nil_r|].
  cbn [rank_loop]. rewrite rank_push_class by done. cbn [mbind option_bind].
  by rewrite IH, <-app_assoc.
Qed.

Lemma addr_class_range a : addr_class a ∈ [0; 1; 2; 3; 4; 5]%Z.
Proof.
  unfold addr_class. destruct (value_for_protocol a P2P_CIRCUIT) as [[]|],
    (default false (should_consume_fd a)), (default false (is_private_addr a)); set_solver.
Qed.

Lemma rank_addrs_sort l :
  Forall valid_addr l → rank_addrs l = Some (sort_by (λ a b, addr_class a <=? addr_class b)%Z l).
Proof.
  intros Hl. unfold rank_addrs. change (mk_Ranking [] [] [] [] [] []) with (ranking_of []).
  rewrite rank_loop_class by done. cbn [mbind option_bind app].
  rewrite (sort_by_buckets addr_class [0; 1; 2; 3; 4; 5]%Z).
  - unfold buckets. cbn [mbind list_bind]. unfold ranking_of, in_class.
    cbn [local_udp_addrs others_udp local_fd_addrs others_fd relay_udp_addrs relay_fd_addrs].
    by rewrite app_nil_r, <-!app_assoc.
  - repeat (constructor; [|repeat constructor; lia]). constructor.
  - apply Forall_forall. intros a _. apply addr_class_range.
Qed.

Lemma rank_addrs_valid l :
  Forall valid_addr l → ∃ l', rank_addrs l = Some l' ∧ l' ≡ₚ l.
Proof. intros Hl. rewrite rank_addrs_sort by done. eexists. split; [done|]. apply sort_by_perm. Qed.

Lemma dialable_valid ts l :
  Forall valid_addr l → ∃ l', dialable ts l = Some l' ∧ Forall valid_addr l'.
Proof.
  induction 1 as [|a l Ha Hl (l'&Hl'&Hv)]; [by exists []|]. simpl.
  destruct (valid_accessors a Ha) as ([[o m] Hp]&_). unfold lookup_by_addr. rewrite Hp. simpl.
  set (r := match o with Some _ => _ | None => _ end).
  assert (Hr : is_Some r). { subst r. destruct o as [p|]; [|done]. by destruct (get_key p). }
  destruct Hr as [t ->]. simpl. rewrite Hl'. simpl. eexists. split; [done|].
  destruct t; [by constructor|done].
Qed.
(** *** The invariant is preserved *)

Lemma inv_update_task limit d d' t task' :
  dialer_inv limit d →
  dial_limit d' = dial_limit d → dial_consuming d' = dial_consuming d →
  jobs d' = jobs d → next_id d' = next_id d → tasks d' = <[t := task']> (tasks d) →
  (∀ t2 task2 c n, t2 ≠ t → tasks d !! t2 = Some task2 → dt_phase task2 = PCollect c n →
    chans d' !! c = chans d !! c ∧ ∀ n', dt_phase task' ≠ PCollect c n') →
  (∀ c q, chans d' !! c = Some q → Forall (λ m, valid_addr m.2) q) →
  tid (dt_param task') = t → valid_param (dt_param task') → count_ok task' → phase_ok d' task' →
  dialer_inv limit d'.
Proof.
  intros [H1' H2' H3' H4' H5' H6'] Hlim Hcon Hj Hn Ht Hch Hq Htid Hv Hc Hp. split.
  - congruence.
  - by rewrite Hcon, Hj.
  - intros t2 task2. rewrite Ht. destruct (decide (t = t2)) as [->|Hne].
    + rewrite lookup_insert_eq. by intros [= <-].
    + rewrite lookup_insert_ne by done. intros Ht2. destruct (H3' _ _ Ht2) as (?&?&?&Hp2).
      split_and!; [done..|]. unfold phase_ok in *. destruct (dt_phase task2) eqn:Hph; try done.
      rewrite Hn, Hj. destruct (Hch t2 task2 chan remaining) as [-> _]; done.
  - intros t1 t2 task1 task2 c n1 n2. rewrite Ht.
    destruct (decide (t = t1)) as [<-|H1n], (decide (t = t2)) as [<-|H2n];
      rewrite ?lookup_insert_eq, ?lookup_insert_ne by done; [done| | |by apply H4'].
    + intros [= <-] Ht2 Hp1 Hp2. exfalso. by eapply (proj2 (Hch t2 task2 c n2 ltac:(done) Ht2 Hp2)).
    + intros Ht1 [= <-] Hp1 Hp2. exfalso. by eapply (proj2 (Hch t1 task1 c n1 ltac:(done) Ht1 Hp1)).
  - rewrite Hj, Hn. apply H5'.
  - apply Hq.
Qed.

(** A step of a dial that leaves the channels alone. *)
Lemma inv_set_phase limit d d0 t task ph :
  dialer_inv limit d → tasks d !! t = Some task →
  dial_limit d0 = dial_limit d → dial_consuming d0 = dial_consuming d → jobs d0 = jobs d →
  next_id d0 = next_id d → tasks d0 = tasks d → chans d0 = chans d →
  ∀ n, let task' := mk_DialTask (dt_param task) n ph in
  count_ok task' → phase_ok d task' → (∀ c k, ph ≠ PCollect c k) →
  dialer_inv limit (with_task d0 t task').
Proof.
  intros Hi Ht Hl Hc Hj Hn Hts Hch n task' Hco Hp Hnc. pose proof (inv_tasks _ _ Hi _ _ Ht) as (?&?&_&_).
  eapply inv_update_task; [exact Hi|done..|simpl; by rewrite Hts| | |done|done|done|].
  - simpl. intros. split; [by rewrite Hch|]. intros n' He. by apply (Hnc c n').
  - simpl. rewrite Hch. apply (inv_queues _ _ Hi).
  - unfold phase_ok in *. cbn [dt_phase] in *. destruct ph; try done. by destruct (Hnc chan remaining).
Qed.

Lemma attempt_failed_phase d task e :
  (1 ≤ dt_count task ≤ Z.max 1 (attempts (dt_param task)))%Z →
  ∃ ph, (∀ d0 t, attempt_failed d0 t task e = set_phase d0 t task ph) ∧ (∀ c k, ph ≠ PCollect c k) ∧
    let task' := mk_DialTask (dt_param task) (dt_count task) ph in count_ok task' ∧ phase_ok d task'.
Proof.
  intros Hcount. eexists. split; [done|].
  unfold count_ok, phase_ok. cbn [dt_phase dt_param dt_count].
  destruct (Z.ltb_spec (dt_count task) (attempts (dt_param task))); [by split_and!; try lia|].
  destruct (Z.ltb_spec 1 (attempts (dt_param task))); split_and!; try done; try lia.
  intros _. split; [done|lia].
Qed.

Lemma attempt_failed_inv limit d d0 t task task' e :
  dialer_inv limit d → tasks d !! t = Some task →
  dial_limit d0 = dial_limit d → dial_consuming d0 = dial_consuming d → jobs d0 = jobs d →
  next_id d0 = next_id d → tasks d0 = tasks d → chans d0 = chans d →
  dt_param task' = dt_param task →
  (1 ≤ dt_count task' ≤ Z.max 1 (attempts (dt_param task)))%Z →
  dialer_inv limit (attempt_failed d0 t task' e).
Proof.
  intros Hi Ht Hl Hc Hj Hn Hts Hch Hpar Hcount. rewrite <-Hpar in Hcount.
  destruct (attempt_failed_phase d task' e Hcount) as (ph&->&Hnc&Hco&Hp).
  unfold set_phase. rewrite Hpar in *. by eapply inv_set_phase.
Qed.

Lemma spawn_jobs_spec next js peer c l next' js' :
  spawn_jobs next js peer c l = (next', js') → (∀ j, next ≤ j → js !! j = None) →
  Forall valid_addr l →
  next ≤ next' ∧
  (∀ j x, js' !! j = Some x → js !! j = Some x ∨
    (j < next' ∧ dj_chan x.1 = c ∧ valid_addr (dj_addr x.1))) ∧
  ∀ P `{∀ x, Decision (P x)} (b : bool), (∀ a, P (mk_DialJob a peer c, JCheck) ↔ b = true) →
    mcount P js' = mcount P js + if b then length l else 0.
Proof.
  intros Hs Hf Hl. revert next js Hs Hf. induction Hl as [|a l Ha Hl IH]; intros next js Hs Hf.
  { injection Hs as <- <-. split_and!; [done|auto|]. intros. destruct b; simpl; lia. }
  simpl in Hs. apply IH in Hs as (Hle&Hj&Hm).
  - split_and!; [lia| |].
    + intros j x Hx. destruct (Hj j x Hx) as [Hin|?]; [|auto].
      apply lookup_insert_Some in Hin as [[<- <-]|[_ ?]]; [right|by left]. split_and!; [lia|done|done].
    + intros P Hd b Hb. rewrite (Hm P Hd b Hb), mcount_insert_new by (apply Hf; lia).
      specialize (Hb a). destruct b; simpl; case_decide; try lia; naive_solver.
  - intros j Hj'. rewrite lookup_insert_ne by lia. apply Hf. lia.
Qed.

Lemma inv_spawn limit d l peer st next js :
  dialer_inv limit d → Forall valid_addr l →
  let c := next_id d in
  spawn_jobs (S c) (jobs d) peer c l = (next, js) →
  let d' := mk_Dialer (dial_consuming d) (dial_limit d) (backoff d) st (tasks d) js
              (<[c := []]> (chans d)) next (cleanup d) in
  dialer_inv limit d' ∧ length l = mcount (pending c) js ∧ c < next ∧
  (∀ t task n, tasks d !! t = Some task → dt_phase task ≠ PCollect c n).
Proof.
  intros Hi Hl c Hs d'. pose proof Hi as [H1' H2' H3' H4' H5' H6'].
  destruct (spawn_jobs_spec _ _ _ _ _ _ _ Hs) as (Hle&Hj&Hm); [|done|].
  { intros j Hj. destruct (jobs d !! j) as [[job ph]|] eqn:Hjj; [|done].
    apply H5' in Hjj as (?&_). subst c. lia. }
  assert (Hold : mcount (pending c) (jobs d) = 0).
  { apply mcount_zero. intros j [job ph] Hjj [Hc _]. simpl in Hc. apply H5' in Hjj as (_&?&_). lia. }
  assert (Hfresh : ∀ t task n, tasks d !! t = Some task → dt_phase task ≠ PCollect c n).
  { intros t task n Ht Hph. apply H3' in Ht as (_&_&_&Hp). unfold phase_ok in Hp. rewrite Hph in Hp.
    destruct Hp as [? _]. lia. }
  split_and!; [|rewrite (Hm (pending c) _ true); [lia|]|lia|done].
  2: { intros a. unfold pending. simpl. naive_solver. }
  split; subst d'; cbn [dial_limit dial_consuming tasks jobs chans next_id].
  - done.
  - rewrite H2', (Hm has_token _ false); [by rewrite Nat.add_0_r|]. intros a. unfold has_token. simpl. done.
  - intros t task Ht. destruct (H3' t task Ht) as (?&?&?&Hp). split_and!; [done..|].
    unfold phase_ok in *. cbn [chans jobs next_id]. destruct (dt_phase task) as [| |c2 n| | |] eqn:Hph; try done.
    assert (c2 ≠ c) by (intros ->; by eapply Hfresh). destruct Hp as (?&q&Hq&->).
    split; [lia|]. exists q. rewrite lookup_insert_ne by done. split; [done|].
    rewrite (Hm (pending c2) _ false); [lia|]. intros a. unfold pending. simpl. naive_solver.
  - done.
  - intros j job ph Hjj. destruct (Hj _ _ Hjj) as [Hin|(?&Hc&?)]; simpl in *.
    + apply H5' in Hin as (?&?&?). split_and!; [lia|lia|done].
    + split_and!; [done|lia|done].
  - intros c2 q [[<- <-]|[_ Hq]]%lookup_insert_Some; [constructor|by eapply H6'].
Qed.

Lemma start_jobs_inv limit d t task kept :
  dialer_inv limit d → tasks d !! t = Some task → (1 ≤ dt_count task)%Z → Forall valid_addr kept →
  dialer_inv limit (start_jobs d t task kept).
Proof.
  intros Hi Ht Hcnt Hk. pose proof (inv_tasks _ _ Hi _ _ Ht) as (Htid&Hvp&Hco&_).
  destruct task as [param n ph]. cbn [dt_param dt_count] in *.
  assert (Hrange : (1 ≤ n ≤ Z.max 1 (attempts param))%Z) by (destruct Hco as [? _]; simpl in *; lia).
  unfold start_jobs. cbn [dt_param]. destruct kept as [|a kept].
  { by eapply attempt_failed_inv. }
  destruct (rank_addrs_valid (a :: kept) Hk) as (l&Hr&Hperm). rewrite Hr. cbn [mbind option_bind].
  destruct (dialable_valid (transports param) l) as (l'&Hd&Hl'); [by rewrite Hperm|]. rewrite Hd.
  destruct l' as [|b l']; [by eapply attempt_failed_inv|].
  destruct (spawn_jobs _ _ _ _ _) as [next js] eqn:Hs.
  destruct (inv_spawn limit d (b :: l') _ (add_total_jobs (length (b :: l')) (stats d)) next js Hi Hl' Hs)
    as (Hi'&Hlen&Hlt&Hfresh).
  eapply inv_update_task; [exact Hi'|done..| | |done|done|split; cbn; lia|].
  - cbn [tasks]. intros t2 task2 c2 n2 _ Ht2 Hp2. split; [done|]. cbn [dt_phase].
    intros n' [= <- _]. by eapply Hfresh.
  - apply (inv_queues _ _ Hi').
  - unfold phase_ok. cbn [dt_phase set_phase with_task next_id chans jobs dt_param].
    split; [done|]. exists []. rewrite lookup_insert_eq. split; [done|]. simpl length at 2. lia.
Qed.

(** The backoff list of reachable states does not panic. *)
Lemma backoff_time_small n : (0 ≤ n < 2 ^ 16)%Z → is_Some (backoff_time n).
Proof. intros Hn. unfold backoff_time. destruct (Z.ltb_spec (n * n) (2 ^ 32)); [done|nia]. Qed.

Lemma backoff_add_peer_some now b peer a :
  tries_small b → valid_addr a → is_Some (backoff_add_peer now b peer a).
Proof.
  intros Hb Ha. destruct (valid_accessors a Ha) as (_&[key Hkey]&_). unfold backoff_add_peer.
  rewrite Hkey. cbn [mbind option_bind]. destruct (b !! peer) as [pm|] eqn:Hpm; cbn [default from_option id].
  2: { rewrite lookup_empty. by eexists. }
  destruct (pm !! key) as [e|] eqn:He; [|by eexists].
  destruct (backoff_time_small (tries e)) as [x ->]; [by eapply Hb|by eexists].
Qed.

Lemma collect_step_inv limit d now t task c n d' :
  dialer_inv limit d → tries_small (backoff d) → tasks d !! t = Some task →
  dt_phase task = PCollect c n → collect_step now d t task c n = Some d' → dialer_inv limit d'.
Proof.
  intros Hi Hb Ht Hph Hs. pose proof (inv_tasks _ _ Hi _ _ Ht) as (Htid&Hvp&Hco&Hp).
  unfold phase_ok in Hp. rewrite Hph in Hp. destruct Hp as (Hc&q&Hq&Hn).
  assert (Hcnt : (1 ≤ dt_count task)%Z) by (destruct Hco as [_ Hx]; apply Hx; by rewrite Hph).
  assert (Hothers : ∀ t2 task2 c2 n2, t2 ≠ t → tasks d !! t2 = Some task2 →
    dt_phase task2 = PCollect c2 n2 → c2 ≠ c).
  { intros t2 task2 c2 n2 Hne Ht2 Hp2 ->. by destruct Hne; eapply (inv_chans _ _ Hi). }
  assert (Hgen : ∀ d1 ph, dial_limit d1 = dial_limit d → dial_consuming d1 = dial_consuming d →
    jobs d1 = jobs d → next_id d1 = next_id d → tasks d1 = tasks d →
    (∀ c2, c2 ≠ c → chans d1 !! c2 = chans d !! c2) →
    (∀ q1, chans d1 !! c = Some q1 → Forall (λ m, valid_addr m.2) q1) →
    (∀ c2 n2, ph = PCollect c2 n2 → c2 = c) →
    count_ok (mk_DialTask (dt_param task) (dt_count task) ph) →
    phase_ok (set_phase d1 t task ph) (mk_DialTask (dt_param task) (dt_count task) ph) →
    dialer_inv limit (set_phase d1 t task ph)).
  { intros d1 ph Hl Hcn Hj Hnx Hts Hch Hqv Hphc Hco' Hph'.
    eapply inv_update_task; [exact Hi|done..|simpl; by rewrite Hts| | |done|done|done|done].
    - intros t2 task2 c2 n2 Hne Ht2 Hp2. specialize (Hothers t2 task2 c2 n2 Hne Ht2 Hp2).
      split; [by apply Hch|]. intros n' He. by apply Hothers, (Hphc c2 n').
    - intros c2 q2. cbn [set_phase with_task chans]. destruct (decide (c2 = c)) as [->|]; [apply Hqv|].
      rewrite Hch by done. apply (inv_queues _ _ Hi). }
  assert (Hcnt' : (1 ≤ dt_count task ≤ Z.max 1 (attempts (dt_param task)))%Z) by (destruct Hco; lia).
  destruct n as [|n]; cbn [collect_step] in Hs.
  { injection Hs as <-. destruct (attempt_failed_phase d task AllDialsFailed Hcnt') as (ph&->&Hnc&Hco'&Hp').
    apply Hgen; try done.
    - intros c2 ?. simpl. by rewrite lookup_delete_ne.
    - intros q1. simpl. by rewrite lookup_delete_eq.
    - intros c2 n2 ->. by destruct (Hnc c2 n2).
    - unfold phase_ok in *. cbn [dt_phase] in *. destruct ph; try done. by destruct (Hnc chan remaining). }
  rewrite Hq in Hs. destruct q as [|[r addr] q]; [done|].
  pose proof (inv_queues _ _ Hi _ _ Hq) as [Haddr Hqv]%Forall_cons. simpl in Haddr, Hn.
  assert (Hnext : ∀ st b, dialer_inv limit (set_phase (mk_Dialer (dial_consuming d) (dial_limit d) b st
    (tasks d) (jobs d) (<[c := q]> (chans d)) (next_id d) (cleanup d)) t task (PCollect c n))).
  { intros st b. apply Hgen; try done.
    - intros c2 ?. cbn [chans]. by rewrite lookup_insert_ne.
    - intros q1. cbn [chans]. rewrite lookup_insert_eq. by intros [= <-].
    - by intros c2 n2 [= <- _].
    - split; cbn; [lia|]. intros _. lia.
    - unfold phase_ok. cbn [dt_phase set_phase with_task chans next_id jobs]. split; [done|].
      exists q. rewrite lookup_insert_eq. split; [done|]. lia. }
  assert (Hback : ∀ st, match backoff_add_peer now (backoff d) (peer_id (dt_param task)) addr with
    | Some b => ∀ d2, Some (set_phase (mk_Dialer (dial_consuming d) (dial_limit d) b st (tasks d) (jobs d)
        (<[c := q]> (chans d)) (next_id d) (cleanup d)) t task (PCollect c n)) = Some d2 → dialer_inv limit d2
    | None => False end).
  { intros st. destruct (backoff_add_peer_some now (backoff d) (peer_id (dt_param task)) addr Hb Haddr)
      as [b ->]. intros d2 [= <-]. apply Hnext. }
  destruct r as [m|e].
  - case_decide as Hpeer.
    + injection Hs as <-. unfold attempt_succeeded.
      match goal with |- dialer_inv _ (with_stats ?f (set_phase ?d1 _ _ _)) =>
        apply (Hgen (with_stats f d1) (PDone (Ok m))) end; try done.
      * intros c2 ?. cbn. by rewrite lookup_delete_ne, lookup_insert_ne.
      * intros q1. cbn. by rewrite lookup_delete_eq.
      * split; cbn; lia.
    + specialize (Hback (inc_mismatch_peer_id (stats d))).
      unfold with_stats in Hs. cbn [backoff] in Hs.
      destruct (backoff_add_peer _ _ _ _) as [b|]; [|done]. by apply Hback.
  - destruct e; try (injection Hs as <-; apply (Hnext (stats d) (backoff d))).
    specialize (Hback (stats d)). cbn [backoff] in Hs.
    destruct (backoff_add_peer _ _ _ _) as [b|]; [|done]. by apply Hback.
Qed.
Lemma backoff_find_peer_some now b peer a : valid_addr a → is_Some (backoff_find_peer now b peer a).
Proof.
  intros Ha. destruct (valid_accessors a Ha) as (_&[key Hkey]&_). unfold backoff_find_peer.
  destruct (b !! peer) as [pm|]; [|by eexists]. rewrite Hkey. cbn [mbind option_bind].
  destruct (pm !! key); by eexists.
Qed.

Lemma lookup_step_inv limit d t task found :
  dialer_inv limit d → tasks d !! t = Some task →
  (dt_phase task = PLookup ∨ dt_phase task = PSleep) → from_option (Forall valid_addr) True found →
  dialer_inv limit (lookup_step d t task found).
Proof.
  intros Hi Ht Hph Hf. pose proof (inv_tasks _ _ Hi _ _ Ht) as (Htid&Hvp&Hco&Hp).
  assert (Hcnt : (1 ≤ dt_count task + 1 ≤ Z.max 1 (attempts (dt_param task)))%Z).
  { unfold phase_ok in Hp. destruct Hph as [Hph|Hph]; rewrite Hph in Hp; lia. }
  unfold lookup_step. cbn [dt_param].
  set (origin := match addrs (dt_param task) with Addresses l => Some l | DHT => found end).
  assert (Ho : from_option (Forall valid_addr) True origin).
  { subst origin. unfold valid_param in Hvp. by destruct (addrs (dt_param task)). }
  destruct origin as [l|]; [|by eapply attempt_failed_inv].
  destruct (filter_addrs_valid (dt_param task) l Ho) as (l'&->&Hl').
  apply (inv_set_phase limit d d t task (PCheck l' []) Hi Ht); try done; split; cbn; try lia; try done.
Qed.

Lemma task_step_inv limit d now found t d' :
  dialer_inv limit d → tries_small (backoff d) → from_option (Forall valid_addr) True found →
  task_step now found d t = Some d' → dialer_inv limit d'.
Proof.
  intros Hi Hb Hf Hs. unfold task_step in Hs. destruct (tasks d !! t) as [task|] eqn:Ht; [|done].
  cbn [mbind option_bind] in Hs. pose proof (inv_tasks _ _ Hi _ _ Ht) as (Htid&Hvp&Hco&Hp).
  destruct (dt_phase task) as [|todo kept|c n| |r|] eqn:Hph; try done.
  - injection Hs as <-. apply lookup_step_inv; auto.
  - unfold phase_ok in Hp. rewrite Hph in Hp. destruct Hp as [Htodo Hkept].
    assert (Hcnt : (1 ≤ dt_count task)%Z) by (destruct Hco as [_ Hx]; apply Hx; by rewrite Hph).
    destruct todo as [|a todo]; injection Hs as <-; [by apply start_jobs_inv|].
    apply Forall_cons in Htodo as [Ha Htodo]. unfold check_step.
    destruct (backoff_find_peer_some now (backoff d) (peer_id (dt_param task)) a Ha) as [b ->].
    apply (inv_set_phase limit d d t task (PCheck todo _) Hi Ht); try done.
    { destruct Hco. split; cbn; lia. }
    split; [done|]. destruct b; [done|]. apply Forall_app. by repeat constructor.
  - by eapply collect_step_inv.
  - injection Hs as <-. apply lookup_step_inv; auto.
Qed.

(** A job that changes its phase, and reports on its channel when it leaves the
    pending ones. *)
Lemma inv_update_job limit d d' j job ph (ph' : option JobPhase) :
  dialer_inv limit d → jobs d !! j = Some (job, ph) →
  dial_limit d' = dial_limit d → tasks d' = tasks d → next_id d' = next_id d →
  jobs d' = match ph' with Some ph' => <[j := (job, ph')]> (jobs d) | None => delete j (jobs d) end →
  dial_consuming d' = Z.of_nat (mcount has_token (jobs d')) →
  (∃ m, valid_addr m.2 ∧ pending (dj_chan job) (job, ph) ∧
     (∀ ph2, ph' = Some ph2 → ¬ pending (dj_chan job) (job, ph2)) ∧
     chans d' = alter (λ q, q ++ [m]) (dj_chan job) (chans d)) ∨
  (chans d' = chans d ∧
     match ph' with
     | Some ph2 => pending (dj_chan job) (job, ph) ↔ pending (dj_chan job) (job, ph2)
     | None => ¬ pending (dj_chan job) (job, ph)
     end) →
  dialer_inv limit d'.
Proof.
  intros Hi Hj Hl Ht Hn Hjobs Htok Hcase. pose proof Hi as [H1' H2' H3' H4' H5' H6'].
  assert (Hother : ∀ c, c ≠ dj_chan job → mcount (pending c) (jobs d') = mcount (pending c) (jobs d)).
  { intros c Hc. rewrite Hjobs.
    assert (Hnp : ∀ p, ¬ pending c (job, p)) by (intros p [? _]; simpl in *; congruence).
    destruct ph' as [p|].
    - pose proof (mcount_insert (pending c) (jobs d) j (job, p) (job, ph) Hj) as Hm.
      rewrite !decide_False in Hm by apply Hnp. lia.
    - pose proof (mcount_delete (pending c) (jobs d) j (job, ph) Hj) as Hm.
      rewrite decide_False in Hm by apply Hnp. lia. }
  assert (Hsame : ∀ c q, chans d !! c = Some q → ∃ q', chans d' !! c = Some q' ∧
    length q' + mcount (pending c) (jobs d') = length q + mcount (pending c) (jobs d)).
  { intros c q Hq. destruct (decide (c = dj_chan job)) as [->|Hne].
    - destruct Hcase as [(m&_&Hpd&Hnp&Hch)|(Hch&Heq)]; rewrite Hch, Hjobs.
      + rewrite lookup_alter_eq, Hq. eexists. split; [done|]. rewrite length_app. simpl length.
        destruct ph' as [p|].
        * pose proof (mcount_insert (pending (dj_chan job)) (jobs d) j (job, p) (job, ph) Hj) as Hm.
          rewrite decide_True, decide_False in Hm by auto. lia.
        * pose proof (mcount_delete (pending (dj_chan job)) (jobs d) j (job, ph) Hj) as Hm.
          rewrite decide_True in Hm by done. lia.
      + exists q. split; [done|]. f_equal. destruct ph' as [p|].
        * pose proof (mcount_insert (pending (dj_chan job)) (jobs d) j (job, p) (job, ph) Hj) as Hm.
          repeat case_decide; try lia; tauto.
        * pose proof (mcount_delete (pending (dj_chan job)) (jobs d) j (job, ph) Hj) as Hm.
          rewrite decide_False in Hm by done. lia.
    - rewrite Hother by done. exists q. split; [|done].
      destruct Hcase as [(m&_&_&_&->)|(->&_)]; [by rewrite lookup_alter_ne|done]. }
  split.
  - congruence.
  - done.
  - rewrite Ht. intros t task Htask. destruct (H3' t task Htask) as (?&?&?&Hp). split_and!; [done..|].
    unfold phase_ok in *. destruct (dt_phase task); try done. destruct Hp as (?&q&Hq&->).
    rewrite Hn. split; [done|]. destruct (Hsame _ _ Hq) as (q'&?&?). by exists q'.
  - rewrite Ht. apply H4'.
  - intros j2 job2 ph2. rewrite Hjobs, Hn. destruct ph' as [p|].
    + intros [[<- [= <- <-]]|[_ Hj2]]%lookup_insert_Some; [by eapply H5'|by eapply H5'].
    + intros [_ Hj2]%lookup_delete_Some. by eapply H5'.
  - intros c q. destruct Hcase as [(m&Hm&_&_&->)|(->&_)]; [|apply H6'].
    intros [(<-&q0&Hq0&->)|[_ Hq]]%lookup_alter_Some; [|by eapply H6'].
    apply Forall_app. split; [by eapply H6'|]. by repeat constructor.
Qed.

Lemma job_step_inv limit d out j d' :
  dialer_inv limit d → job_step out d j = Some d' → dialer_inv limit d'.
Proof.
  intros Hi Hs. unfold job_step in Hs. destruct (jobs d !! j) as [[job ph]|] eqn:Hj; [|done].
  cbn [mbind option_bind] in Hs. pose proof (inv_tokens _ _ Hi) as Htok.
  pose proof (inv_jobs _ _ Hi _ _ _ Hj) as (_&_&Ha).
  pose proof (λ v, mcount_insert has_token (jobs d) j v (job, ph) Hj) as Hins.
  pose proof (mcount_delete has_token (jobs d) j (job, ph) Hj) as Hdel.
  destruct ph.
  - destruct (Z.leb_spec (dial_limit d) (dial_consuming d)); injection Hs as <-.
    + eapply inv_update_job with (ph' := None); try done.
      * cbn. rewrite Htok. rewrite decide_False in Hdel by (cbv; tauto). by rewrite Nat.add_0_r in Hdel; rewrite Hdel.
      * left. eexists (_, _). split_and!; [exact Ha|done|done|done].
    + eapply inv_update_job with (ph' := Some JTake); try done.
      * cbn. rewrite Htok. specialize (Hins (job, JTake)). rewrite !decide_False in Hins by (cbv; tauto). lia.
      * right. by split.
  - injection Hs as <-. eapply inv_update_job with (ph' := Some JDial); try done.
    + cbn. rewrite Htok. specialize (Hins (job, JDial)).
      rewrite decide_False, decide_True in Hins by (cbv; tauto). lia.
    + right. by split.
  - destruct (dial_timeout (dj_addr job)) as [timeout|]; [|done]. cbn [mbind option_bind] in Hs.
    set (cr := match out with Connected m => _ | Refused e => _ | TimedOut => _ end) in Hs.
    destruct cr as [count r]. injection Hs as <-.
    eapply inv_update_job with (ph' := Some JRelease); try done.
    + cbn. rewrite Htok. specialize (Hins (job, JRelease)). rewrite !decide_True in Hins by (cbv; tauto). lia.
    + left. eexists (_, _). split_and!; [exact Ha|done| |done]. by intros ph2 [= <-] [_ ?].
  - injection Hs as <-. eapply inv_update_job with (ph' := None); try done.
    + cbn. rewrite Htok. rewrite decide_True in Hdel by (cbv; tauto). lia.
    + right. split; [done|]. by intros [_ ?].
Qed.

Lemma cleanup_step_inv limit d now d' :
  dialer_inv limit d → cleanup_step now d = Some d' → dialer_inv limit d'.
Proof.
  intros [H1' H2' H3' H4' H5' H6'] Hs. unfold cleanup_step in Hs. destruct (cleanup d).
  - injection Hs as <-. by split.
  - destruct (cleanup_scan now (backoff d)); [|done]. injection Hs as <-. by split.
Qed.

Lemma reap_inv limit d t : dialer_inv limit d → dialer_inv limit (reap d t).
Proof.
  intros [H1' H2' H3' H4' H5' H6']. split; cbn; try done.
  - intros t2 task [_ Ht]%lookup_delete_Some. by apply H3'.
  - intros t1 t2 task1 task2 c n1 n2 [_ Ht1]%lookup_delete_Some [_ Ht2]%lookup_delete_Some.
    by apply H4'.
Qed.

Lemma dialer_reach_inv limit d : dialer_reach limit d → dialer_inv limit d.
Proof.
  induction 1 as [|d param _ IH Ht Hv|d now found t d' _ IH Hb Hf Hs|d out j d' _ IH Hs|d now d' _ IH Hs
    |d t _ IH].
  - split; cbn; try done; by rewrite mcount_empty.
  - eapply inv_update_task; [exact IH|done..| | |done|done|split; [cbn; lia|done]|done].
    + intros t2 task2 c n _ Ht2 Hp2. split; [done|]. by intros n'.
    + apply (inv_queues _ _ IH).
  - by eapply task_step_inv.
  - by eapply job_step_inv.
  - by eapply cleanup_step_inv.
  - by apply reap_inv.
Qed.

Lemma dial_can_step limit d t task :
  dialer_reach limit d → tasks d !! t = Some task →
  (∃ r, dt_phase task = PDone r) ∨
  (∀ now found, is_Some (task_step now found d t)) ∨
  ∃ c n j job ph, dt_phase task = PCollect c n ∧ jobs d !! j = Some (job, ph) ∧
    dj_chan job = c ∧ ph ≠ JRelease ∧ ∀ out, is_Some (job_step out d j).
Proof.
  intros Hi%dialer_reach_inv Ht. destruct (inv_tasks _ _ Hi _ _ Ht) as (_&_&_&Hp).
  unfold task_step. rewrite Ht. cbn [mbind option_bind]. unfold phase_ok in Hp.
  destruct (dt_phase task) as [|[|a todo] kept|c n| |r|] eqn:Hph;
    [right; left; by eexists..| |right; left; by eexists|left; by eexists|done].
  destruct Hp as (_&q&Hq&Hn). destruct n as [|n]; [right; left; by eexists|].
  destruct q as [|[r addr] q].
  - right. right. destruct (mcount_pos (pending c) (jobs d)) as (j&[job ph]&Hj&Hc&Hpd); [simpl in Hn; lia|].
    simpl in Hc, Hpd. exists c, (S n), j, job, ph. split_and!; try done; [by intros ->|].
    intros out. unfold job_step. rewrite Hj. cbn [mbind option_bind].
    pose proof (inv_jobs _ _ Hi _ _ _ Hj) as (_&_&Ha).
    destruct ph; [case_match; by eexists|by eexists| |done].
    unfold dial_timeout. destruct (valid_accessors _ Ha) as (_&_&[b ->]&_). simpl.
    destruct out; by eexists.
  - right. left. intros now found. cbn [collect_step]. rewrite Hq.
    destruct r as [m|[]]; [case_decide|..]; try case_match; by eexists.
Qed.

(** ** Theorems *)


(** A dial never waits in vain: until it has ended it can take a step
    whatever the environment answers, or it waits for results and one of its jobs
    can take a step; when all results are in it goes on. *)
Theorem dial_progress limit d t task :
  dialer_reach limit d → tasks d !! t = Some task →
  (∃ r, dt_phase task = PDone r) ∨
  (∀ now found, is_Some (task_step now found d t)) ∨
  ∃ c n j job ph, dt_phase task = PCollect c n ∧ jobs d !! j = Some (job, ph) ∧
    dj_chan job = c ∧ ph ≠ JRelease ∧ ∀ out, is_Some (job_step out d j).
Proof. apply dial_can_step. Qed.

(** The counter of the dial limiter is the number of jobs that are dialing or
    about to give their token back: it is never negative, and it is zero when no
    job is left. *)
Theorem limiter_tokens limit d :
  dialer_reach limit d →
  dial_consuming d = Z.of_nat (mcount has_token (jobs d)) ∧ (0 ≤ dial_consuming d)%Z ∧
  (jobs d = ∅ → dial_consuming d = 0%Z).
Proof.
  intros Hi%dialer_reach_inv. pose proof (inv_tokens _ _ Hi) as Ht.
  split_and!; [done|lia|]. intros Hj. by rewrite Ht, Hj, mcount_empty.
Qed.

(** [C38] The classification of the addresses into six vectors and their
    concatenation is the stable sort by class: private before public, addresses
    without file descriptor before those with one, relays last. *)
Theorem ranking_is_stable_sort l :
  Forall valid_addr l →
  rank_addrs l = Some (sort_by (λ a b, addr_class a <=? addr_class b)%Z l).
Proof. apply rank_addrs_sort. Qed.

(** *** The backoff list *)

Lemma cleanup_good_false now l :
  cleanup_good now l = Some false → Forall (λ e, until e ≤ now)%Z l.
Proof.
  induction l as [|e l IH]; simpl; [constructor|]. unfold backoff_time.
  destruct (_ <? _)%Z eqn:Hs; [|done]. cbn [mbind option_bind].
  destruct (Z.ltb_spec now (until e + Z.min (BACKOFF_BASE + BACKOFF_COEF * (tries e * tries e)) BACKOFF_MAX));
    [done|]. intros Hg. constructor; [|auto]. unfold BACKOFF_BASE, BACKOFF_COEF, BACKOFF_MAX in *. nia.
Qed.

Lemma cleanup_ids_elem now l ids p :
  cleanup_ids now l = Some ids → p ∈ ids → ∃ e, (p, e) ∈ l ∧ Forall (λ b, until b ≤ now)%Z (map_to_list e).*2.
Proof.
  revert ids. induction l as [|[q e] l IH]; intros ids; simpl; [intros [= <-]; set_solver|].
  destruct (cleanup_good now _) as [[]|] eqn:Hg; cbn [mbind option_bind]; [| |done].
  - destruct (cleanup_ids now l) as [ids'|]; [|done]. intros [= <-] Hp.
    destruct (IH ids' eq_refl Hp) as (e'&?&?). exists e'. split; [by right|done].
  - destruct (cleanup_ids now l) as [ids'|]; [|done]. intros [= <-] [->|Hp]%elem_of_cons.
    + exists e. split; [by left|]. by apply cleanup_good_false.
    + destruct (IH ids' eq_refl Hp) as (e'&?&?). exists e'. split; [by right|done].
Qed.

Lemma cleanup_remove_lookup (b : DialBackoff) ids p :
  cleanup_remove b ids !! p = if decide (p ∈ ids) then None else b !! p.
Proof.
  unfold cleanup_remove. revert b. induction ids as [|q ids IH]; intros b; simpl.
  - done.
  - rewrite IH. destruct (decide (p ∈ ids)) as [Hin|Hn].
    + by rewrite decide_True by set_solver.
    + destruct (decide (p = q)) as [->|Hne].
      * rewrite decide_True by set_solver. apply lookup_delete_eq.
      * rewrite decide_False by set_solver. by apply lookup_delete_ne.
Qed.

(** What the backoff list answers: after a failure at the time [now] the
    address is in backoff until the delay has passed, which is the base delay the
    first time, then the base plus the square of the number of tries up to the
    maximum; other peers and other addresses are not affected; and a cleanup that
    is not interrupted never changes an answer. *)
Theorem backoff_answers now b peer ma b' key :
  backoff_add_peer now b peer ma = Some b' → maddr_to_string ma = Some key →
  let old := pm ← b !! peer; (pm : gmap bytes BackoffAddr) !! key in
  let delay := match old with
    | Some e => Z.min (BACKOFF_BASE + tries e * tries e) BACKOFF_MAX
    | None => BACKOFF_BASE
    end in
  (∀ t, backoff_find_peer t b' peer ma = Some (t <? now + delay)%Z) ∧
  (∀ t peer2 ma2 key2, maddr_to_string ma2 = Some key2 → (peer2, key2) ≠ (peer, key) →
    backoff_find_peer t b' peer2 ma2 = backoff_find_peer t b peer2 ma2) ∧
  (∀ t t' peer2 ma2 ids, valid_addr ma2 → cleanup_scan t b' = Some ids → (t ≤ t')%Z →
    backoff_find_peer t' (cleanup_remove b' ids) peer2 ma2 = backoff_find_peer t' b' peer2 ma2).
Proof.
  intros Ha Hkey old delay. unfold backoff_add_peer in Ha. rewrite Hkey in Ha. cbn [mbind option_bind] in Ha.
  assert (Hnew : ∃ n, b' = <[peer := <[key := mk_BackoffAddr n (now + delay)]> (default ∅ (b !! peer))]> b).
  { subst delay old. destruct (b !! peer) as [pm|] eqn:Hb; cbn [default from_option id mbind option_bind] in *.
    - destruct (pm !! key) as [e|]; [|injection Ha as <-; by eexists].
      unfold backoff_time in Ha. destruct (_ <? _)%Z; [|done]. cbn [mbind option_bind] in Ha.
      injection Ha as <-. exists (tries e + 1)%Z. do 4 f_equal. unfold BACKOFF_COEF. lia.
    - rewrite lookup_empty in Ha. injection Ha as <-. by eexists. }
  destruct Hnew as [n ->]. split_and!.
  - intros t. unfold backoff_find_peer. rewrite lookup_insert_eq, Hkey. cbn [mbind option_bind].
    by rewrite lookup_insert_eq.
  - intros t peer2 ma2 key2 Hkey2 Hne. unfold backoff_find_peer.
    destruct (decide (peer2 = peer)) as [->|]; [|by rewrite lookup_insert_ne].
    assert (key2 ≠ key) by congruence. rewrite lookup_insert_eq, Hkey2. cbn [mbind option_bind].
    rewrite lookup_insert_ne by done. destruct (b !! peer); [done|]. simpl. by rewrite lookup_empty.
  - intros t t' peer2 ma2 ids Hv Hs Hle. unfold backoff_find_peer. rewrite cleanup_remove_lookup.
    case_decide as Hin; [|done]. destruct (cleanup_ids_elem _ _ _ _ Hs Hin) as (e&He&Hu).
    apply elem_of_map_to_list in He. rewrite He.
    destruct (valid_accessors ma2 Hv) as (_&[k ->]&_). cbn [mbind option_bind].
    destruct (e !! k) as [x|] eqn:Hx; [|done]. f_equal. symmetry. apply Z.ltb_ge.
    rewrite Forall_forall in Hu. transitivity t; [|done]. apply Hu.
    apply list_elem_of_fmap. exists (k, x). split; [done|]. by apply elem_of_map_to_list.
Qed.
End dial.

(** ** A run

    Peers and connections are numbers, a connection is the number of its peer. *)

#[local] Existing Instance leb128.
#[local] Existing Instance sample_codecs.

Local Abbreviation SDialer := (@Dialer nat _ _ nat unit unit).
Local Abbreviation SParam := (@DialParam nat unit).

Inductive RunAction :=
  | ADial (param : SParam)
  | ATask (now : Z) (t : nat)
  | AJob (out : @DialOutcome nat unit) (j : nat).

Definition run_step (d : SDialer) (a : RunAction) : option SDialer :=
  match a with
  | ADial param => if decide (tasks d !! tid param = None) then Some (dial d param) else None
  | ATask now t => if decide (backoff d = ∅) then task_step id now None d t else None
  | AJob out j => job_step out d j
  end.

Definition run_ok (a : RunAction) : Prop :=
  match a with ADial param => valid_param param | _ => True end.

Lemma run_step_reach limit d a d' :
  dialer_reach id limit d → run_ok a → run_step d a = Some d' → dialer_reach id limit d'.
Proof.
  intros Hd Ha. destruct a; simpl.
  - case_decide; [|done]. intros [= <-]. by apply reach_dial.
  - case_decide as Hb; [|done]. intros Hs. eapply reach_task with (found := None); [done| |done|exact Hs].
    intros p pm k e Hp. rewrite Hb, lookup_empty in Hp. done.
  - intros Hs. by eapply reach_job.
Qed.

Definition run (d : SDialer) (l : list RunAction) : option SDialer :=
  foldl (λ o a, o ≫= λ d, run_step d a) (Some d) l.

Lemma run_reach limit d l d' :
  dialer_reach id limit d → Forall run_ok l → run d l = Some d' → dialer_reach id limit d'.
Proof.
  revert d. induction l as [|a l IH]; intros d Hd Hl; cbn; [by intros [= <-]|].
  apply Forall_cons in Hl as [Ha Hl]. destruct (run_step d a) as [d1|] eqn:Hs.
  - by apply IH; [eapply run_step_reach|].
  - clear. induction l as [|b l IH]; [done|]. exact IH.
Qed.

Definition sample_target : Multiaddr := from_iter [Ip4 (Ipv4 Byte.x01 Byte.x02 Byte.x03 Byte.x04); Tcp 80].
Definition sample_param : SParam :=
  mk_DialParam {[TCP := tt]} (Addresses [sample_target; sample_target]) 7 1 1 true true.

Definition sample_start : list RunAction :=
  [ADial sample_param; ATask 0 1; ATask 0 1; ATask 0 1; ATask 0 1].
Definition sample_over : list RunAction :=
  sample_start ++ [AJob TimedOut 1; AJob TimedOut 2; AJob TimedOut 1; AJob TimedOut 2].
Definition sample_end : list RunAction :=
  sample_over ++ [AJob (Connected 7) 1; ATask 1 1].

Lemma sample_ok : Forall run_ok sample_end.
Proof. repeat constructor; simpl; by_eval. Qed.

Definition sample_dialer (l : list RunAction) : SDialer :=
  default (Dialer_new 1) (run (Dialer_new 1) l).

Lemma sample_reach l :
  Forall run_ok l → bool_decide (is_Some (run (Dialer_new 1) l)) = true →
  dialer_reach id 1 (sample_dialer l).
Proof.
  intros Hl Hr%bool_decide_eq_true. eapply run_reach; [apply reach_new|exact Hl|].
  by apply default_is_Some.
Qed.

Lemma run_ok_prefix l1 l2 : Forall run_ok (l1 ++ l2) → Forall run_ok l1.
Proof. by intros [? _]%Forall_app. Qed.

Lemma sample_over_reach : dialer_reach id 1 (sample_dialer sample_over).
Proof. apply sample_reach; [|by vm_compute]. apply (run_ok_prefix _ _ sample_ok). Qed.

Lemma sample_end_reach : dialer_reach id 1 (sample_dialer sample_end).
Proof. apply sample_reach; [apply sample_ok|by vm_compute]. Qed.

Lemma sample_start_reach : dialer_reach id 1 (sample_dialer sample_start).
Proof. apply sample_reach; [|by vm_compute]. eapply run_ok_prefix, run_ok_prefix, sample_ok. Qed.

(** The load and the increment of the limiter are not one atomic step: two jobs
    that load the counter before either increments it exceed the limit of 1. *)
Lemma limiter_overshoot :
  dialer_reach id 1 (sample_dialer sample_over) ∧
  dial_limit (sample_dialer sample_over) = 1%Z ∧ dial_consuming (sample_dialer sample_over) = 2%Z.
Proof. split_and!; [apply sample_over_reach|by vm_compute..]. Qed.


Lemma dial_progress_witness :
  ∃ task, tasks (sample_dialer sample_start) !! 1 = Some task ∧
    ((∃ r, dt_phase task = PDone r) ∨
     (∀ now found, is_Some (task_step id now found (sample_dialer sample_start) 1)) ∨
     ∃ c n j job ph, dt_phase task = PCollect c n ∧
       jobs (sample_dialer sample_start) !! j = Some (job, ph) ∧ dj_chan job = c ∧ ph ≠ JRelease ∧
       ∀ out, is_Some (job_step out (sample_dialer sample_start) j)).
Proof.
  destruct (tasks (sample_dialer sample_start) !! 1) as [task|] eqn:Ht; [|by vm_compute in Ht].
  exists task. split; [done|]. apply (dial_progress id 1 (sample_dialer sample_start) 1 task);
    [apply sample_start_reach|exact Ht].
Defined.

Lemma limiter_tokens_witness :
  dial_consuming (sample_dialer sample_over) = Z.of_nat (mcount has_token (jobs (sample_dialer sample_over))).
Proof. apply (limiter_tokens id 1 (sample_dialer sample_over)), sample_over_reach. Defined.

Definition sample_relay : Multiaddr := from_iter [Ip4 (Ipv4 Byte.x08 Byte.x08 Byte.x08 Byte.x08); Udp 9; P2pCircuit].
Definition sample_quic : Multiaddr := from_iter [Ip4 (Ipv4 Byte.x0a Byte.x00 Byte.x00 Byte.x01); Udp 9; Quic].

Lemma ranking_is_stable_sort_witness :
  rank_addrs [sample_relay; sample_target; sample_quic] =
    Some (sort_by (λ a b, addr_class a <=? addr_class b)%Z [sample_relay; sample_target; sample_quic]) ∧
  rank_addrs [sample_relay; sample_target; sample_quic] = Some [sample_quic; sample_target; sample_relay].
Proof.
  split; [|by_eval]. apply ranking_is_stable_sort. repeat (constructor; [by_eval|]). constructor.
Defined.

Lemma backoff_answers_witness :
  ∃ b', backoff_add_peer 10 (∅ : gmap nat _) 7 sample_target = Some b' ∧
    ∀ t, backoff_find_peer t b' 7 sample_target = Some (t <? 15)%Z.
Proof.
  assert (Hb : is_Some (backoff_add_peer 10 (∅ : gmap nat _) 7 sample_target)) by by_eval.
  assert (Hk : is_Some (maddr_to_string sample_target)) by by_eval.
  destruct Hb as [b' Hb], Hk as [key Hk]. exists b'. split; [exact Hb|].
  apply (backoff_answers 10 ∅ 7 sample_target b' key Hb Hk).
Defined.

(** The cleanup scans the list and removes peers in two critical sections: a
    failure recorded between the two is forgotten. *)
Lemma cleanup_race :
  (b1 ← backoff_add_peer 0 (∅ : gmap nat _) 7 sample_target;
   ids ← cleanup_scan 20 b1;
   b2 ← backoff_add_peer 20 b1 7 sample_target;
   before ← backoff_find_peer 21 b2 7 sample_target;
   after ← backoff_find_peer 21 (cleanup_remove b2 ids) 7 sample_target;
   Some (before, after)) = Some (true, false).
Proof. by_eval. Qed.
