(* ===== verification/Swarm.v ===== *)
(** * The swarm: [swarm/src/lib.rs], [swarm/src/connection.rs]

    The main loop of the network manager: the tables of the connections, the
    dials in progress with what is to be done when they end, the addresses of the
    node, and the handlers of events and control commands.  A handler returns the
    new state and its effects (replies, spawned tasks, notifications of the
    protocol handlers); [None] is a panic.  The peer store, the registry of
    external addresses, the translation of observed addresses and the dialer are
    the components modelled in their own files, and the system at the end runs
    the main loop beside the tasks of the dialer, connected by the queue of
    events.

    The theorems show that the two tables of connections agree, that no handler
    panics, and that every request to connect or to open a stream is answered
    exactly once. *)

From Stdlib Require Import ZArith Lia.
From stdpp Require Import strings.
From S2P Require Import Prelude Varint StdText Multiaddr KadKey RecordStore KadProto PeerStore.
From S2P Require Import Registry Dial.

Local Open Scope nat_scope.

Inductive Direction := Outbound | Inbound.
#[global] Instance direction_eq_decision : EqDecision Direction.
Proof. solve_decision. Defined.

Record SwarmBaseStats := mk_SwarmBaseStats {
  connection_incoming_opened : nat;
  connection_outgoing_opened : nat;
  connection_closed : nat;
  incoming_connection_error : nat;
  outgoing_connection_error : nat;
  substream_inbound_opened : nat;
  substream_outbound_opened : nat;
  substream_closed : nat;
  substream_inbound_error : nat;
  substream_outbound_error : nat
}.

Definition SwarmBaseStats_default : SwarmBaseStats := mk_SwarmBaseStats 0 0 0 0 0 0 0 0 0 0.

Record SubstreamView := mk_SubstreamView {
  view_cid : nat;
  view_id : nat;
  view_protocol : string;
  view_dir : Direction
}.

(** The order of addresses is that of their bytes. *)
Fixpoint bytes_leb (a b : bytes) : bool :=
  match a, b with
  | [], _ => true
  | _ :: _, [] => false
  | x :: a, y :: b =>
      if (byte.unsigned x <? byte.unsigned y)%Z then true
      else if (byte.unsigned y <? byte.unsigned x)%Z then false
      else bytes_leb a b
  end.

(** [Vec::dedup]. *)
Fixpoint dedup_from {A} `{EqDecision A} (x : A) (l : list A) : list A :=
  match l with
  | [] => [x]
  | y :: l => if decide (x = y) then dedup_from x l else x :: dedup_from y l
  end.
Definition dedup {A} `{EqDecision A} (l : list A) : list A :=
  match l with [] => [] | x :: l => dedup_from x l end.

Definition sort_dedup (l : list Multiaddr) : list Multiaddr := dedup (sort_by bytes_leb l).

Section swarm.
Context {PeerId : Type} `{HP : PeerIdType PeerId}.
Context {StreamMuxer Transport TransportError PublicKey : Type}.
Context (remote_peer : StreamMuxer → PeerId) (remote_pub_key : StreamMuxer → PublicKey).
Context `{HV : Varint} `{HC : AddrCodecs}.

(** Addresses as the peer store sees them. *)
#[local] Instance maddr_type : MultiaddrType Multiaddr := {|
  ma_eq_dec := _;
  ma_to_vec := id;
  ma_try_from v := result_ok (try_from v)
|}.

Local Abbreviation SwarmError := (@SwarmError PeerId TransportError).
Local Abbreviation Dialer := (@Dialer PeerId _ _ StreamMuxer Transport TransportError).
Local Abbreviation DialParam := (@DialParam PeerId Transport).

(** ** Connections: [swarm/src/connection.rs] *)

Record Connection := mk_Connection {
  conn_id : nat;
  stream_muxer : StreamMuxer;
  substreams : list SubstreamView;
  conn_dir : Direction;
  closing : bool
}.

Definition Connection_new (id : nat) (m : StreamMuxer) (dir : Direction) : Connection :=
  mk_Connection id m [] dir false.

Definition conn_remote_peer (c : Connection) : PeerId := remote_peer (stream_muxer c).

Definition add_stream (c : Connection) (view : SubstreamView) : Connection :=
  mk_Connection (conn_id c) (stream_muxer c) (substreams c ++ [view]) (conn_dir c) (closing c).

Definition del_stream (c : Connection) (sid : nat) : Connection :=
  mk_Connection (conn_id c) (stream_muxer c) (filter (λ s, view_id s ≠ sid) (substreams c))
    (conn_dir c) (closing c).

Definition num_streams (c : Connection) : nat := length (substreams c).

(** [close] marks the connection and spawns the close of the stream muxer. *)
Definition conn_close (c : Connection) : Connection :=
  mk_Connection (conn_id c) (stream_muxer c) (substreams c) (conn_dir c) true.

(** ** State, events and effects *)

(** What the handlers read of the identify information. *)
Record IdentifyInfo := mk_IdentifyInfo { info_listen_addrs : list Multiaddr; info_protocols : list string }.

Inductive SwarmEvent :=
  | ConnectionEstablished (m : StreamMuxer) (dir : Direction) (tid : option nat)
  | ConnectionClosed (cid : nat)
  | StreamError (cid : nat) (dir : Direction)
  | StreamOpened (view : SubstreamView)
  | IncomingConnectionError
  | OutgoingConnectionError (peer : PeerId) (e : SwarmError) (tid : nat)
  | ListenAddressAdded (a : Multiaddr)
  | ListenAddressDeleted (a : Multiaddr)
  | ListenerClosed
  | PingResult (cid : nat) (r : result SwarmError Duration)
  | IdentifyResult (cid : nat) (r : result SwarmError (IdentifyInfo * Multiaddr)).

(** The commands that change the state or dial; [rid] names the reply channel. *)
Inductive SwarmControlCmd :=
  | Connect (peer : PeerId) (addrs : list Multiaddr) (rid : nat)
  | NewConnection (peer : PeerId) (use_routing : bool) (rid : nat)
  | CloseConnection (peer : PeerId) (rid : nat)
  | NewStream (peer : PeerId) (pids : list string) (use_routing : bool) (rid : nat)
  | CloseStream (cid sid : nat)
  | SelfAddresses (rid : nat)
  | GetNetworkInfo (rid : nat)
  | DumpStreams (peer : PeerId) (rid : nat).

Record NetworkInfo := mk_NetworkInfo {
  net_id : PeerId;
  num_peers : nat;
  num_connections : nat;
  num_connections_pending : nat;
  num_connections_established : nat;
  num_active_streams : nat
}.

(** What the closures of [on_connect], [on_new_connection] and [on_new_stream] do
    when the dial ends. *)
Inductive DialCallback :=
  | CbReply (rid : nat)
  | CbNewStream (pids : list string) (rid : nat).

Inductive SwarmEffect :=
  | ReplyUnit (rid : nat) (r : result SwarmError unit)
  | ReplyStream (rid : nat) (r : result SwarmError SubstreamView)
  | OpenStream (cid : nat) (pids : list string) (rid : nat)
  | ReplyAddresses (rid : nat) (addrs : list Multiaddr)
  | ReplyNetworkInfo (rid : nat) (info : NetworkInfo)
  | ReplyStreams (rid : nat) (r : result SwarmError (list SubstreamView))
  | CloseMuxer (cid : nat)
  | SpawnAccept (cid : nat)
  | NotifyConnected (cid : nat)
  | NotifyDisconnected (cid : nat)
  | NotifyIdentified (peer : PeerId)
  | NotifyAddressChanged (addrs : list Multiaddr).

Record Swarm := mk_Swarm {
  peer_store : gmap PeerId (@StoredPeer Multiaddr PublicKey);
  routing : bool;
  swarm_transports : gmap Z Transport;
  local_peer_id : PeerId;
  next_connection_id : nat;
  base_stats : SwarmBaseStats;
  listened_addrs : list Multiaddr;
  external_addrs : @Registry.Addresses Multiaddr;
  banned_peers : gset PeerId;
  connections_by_id : gmap nat Connection;
  connections_by_peer : gmap PeerId (list nat);
  dialer : Dialer;
  dial_attempts : Z;
  next_tid : nat;
  dial_transactions : gmap nat DialCallback;
  sw_filter_private : bool;
  sw_filter_loopback : bool
}.

(** [Swarm::new]; [loaded] is the peer store after [load_data], [limit] and
    [attempts] are what [AsyncDialer::new] reads from the environment. *)
Definition Swarm_new (loaded : gmap PeerId (@StoredPeer Multiaddr PublicKey)) (local : PeerId)
    (limit attempts : Z) : Swarm :=
  mk_Swarm loaded false ∅ local 0 SwarmBaseStats_default [] Addresses_default ∅ ∅ ∅
    (Dialer_new limit) attempts 0 ∅ false true.

Definition with_base_stats (f : SwarmBaseStats → SwarmBaseStats) (s : Swarm) : Swarm :=
  mk_Swarm (peer_store s) (routing s) (swarm_transports s) (local_peer_id s) (next_connection_id s)
    (f (base_stats s)) (listened_addrs s) (external_addrs s) (banned_peers s) (connections_by_id s)
    (connections_by_peer s) (dialer s) (dial_attempts s) (next_tid s) (dial_transactions s)
    (sw_filter_private s) (sw_filter_loopback s).

Definition with_connections (by_id : gmap nat Connection) (by_peer : gmap PeerId (list nat)) (s : Swarm) :
    Swarm :=
  mk_Swarm (peer_store s) (routing s) (swarm_transports s) (local_peer_id s) (next_connection_id s)
    (base_stats s) (listened_addrs s) (external_addrs s) (banned_peers s) by_id by_peer (dialer s)
    (dial_attempts s) (next_tid s) (dial_transactions s) (sw_filter_private s) (sw_filter_loopback s).

Definition with_transactions (ts : gmap nat DialCallback) (s : Swarm) : Swarm :=
  mk_Swarm (peer_store s) (routing s) (swarm_transports s) (local_peer_id s) (next_connection_id s)
    (base_stats s) (listened_addrs s) (external_addrs s) (banned_peers s) (connections_by_id s)
    (connections_by_peer s) (dialer s) (dial_attempts s) (next_tid s) ts
    (sw_filter_private s) (sw_filter_loopback s).

Definition with_addresses (listened : list Multiaddr) (external : @Registry.Addresses Multiaddr) (s : Swarm) : Swarm :=
  mk_Swarm (peer_store s) (routing s) (swarm_transports s) (local_peer_id s) (next_connection_id s)
    (base_stats s) listened external (banned_peers s) (connections_by_id s) (connections_by_peer s)
    (dialer s) (dial_attempts s) (next_tid s) (dial_transactions s)
    (sw_filter_private s) (sw_filter_loopback s).

Definition with_peer_store (ps : gmap PeerId (@StoredPeer Multiaddr PublicKey)) (s : Swarm) : Swarm :=
  mk_Swarm ps (routing s) (swarm_transports s) (local_peer_id s) (next_connection_id s)
    (base_stats s) (listened_addrs s) (external_addrs s) (banned_peers s) (connections_by_id s)
    (connections_by_peer s) (dialer s) (dial_attempts s) (next_tid s) (dial_transactions s)
    (sw_filter_private s) (sw_filter_loopback s).

Definition with_dialer (d : Dialer) (s : Swarm) : Swarm :=
  mk_Swarm (peer_store s) (routing s) (swarm_transports s) (local_peer_id s) (next_connection_id s)
    (base_stats s) (listened_addrs s) (external_addrs s) (banned_peers s) (connections_by_id s)
    (connections_by_peer s) d (dial_attempts s) (next_tid s) (dial_transactions s)
    (sw_filter_private s) (sw_filter_loopback s).

Definition with_banned (b : gset PeerId) (s : Swarm) : Swarm :=
  mk_Swarm (peer_store s) (routing s) (swarm_transports s) (local_peer_id s) (next_connection_id s)
    (base_stats s) (listened_addrs s) (external_addrs s) b (connections_by_id s)
    (connections_by_peer s) (dialer s) (dial_attempts s) (next_tid s) (dial_transactions s)
    (sw_filter_private s) (sw_filter_loopback s).

Definition ban_peer_id (s : Swarm) (peer : PeerId) : Swarm := with_banned ({[peer]} ∪ banned_peers s) s.
Definition unban_peer_id (s : Swarm) (peer : PeerId) : Swarm := with_banned (banned_peers s ∖ {[peer]}) s.

(** [assign_cid] and [assign_tid]: the new state holds the new number. *)
Definition assign_cid (s : Swarm) : Swarm :=
  mk_Swarm (peer_store s) (routing s) (swarm_transports s) (local_peer_id s) (S (next_connection_id s))
    (base_stats s) (listened_addrs s) (external_addrs s) (banned_peers s) (connections_by_id s)
    (connections_by_peer s) (dialer s) (dial_attempts s) (next_tid s) (dial_transactions s)
    (sw_filter_private s) (sw_filter_loopback s).

Definition assign_tid (s : Swarm) : Swarm :=
  mk_Swarm (peer_store s) (routing s) (swarm_transports s) (local_peer_id s) (next_connection_id s)
    (base_stats s) (listened_addrs s) (external_addrs s) (banned_peers s) (connections_by_id s)
    (connections_by_peer s) (dialer s) (dial_attempts s) (S (next_tid s)) (dial_transactions s)
    (sw_filter_private s) (sw_filter_loopback s).

Definition with_settings (r : bool) (ts : gmap Z Transport) (private loopback : bool) (s : Swarm) : Swarm :=
  mk_Swarm (peer_store s) r ts (local_peer_id s) (next_connection_id s)
    (base_stats s) (listened_addrs s) (external_addrs s) (banned_peers s) (connections_by_id s)
    (connections_by_peer s) (dialer s) (dial_attempts s) (next_tid s) (dial_transactions s)
    private loopback.

(** [with_transport]: the transport is registered for each of its protocols, in
    place of an earlier one, whose protocol must be one that [get_enum] knows. *)
Definition with_transport (protocols : list Z) (t : Transport) (s : Swarm) : option Swarm :=
  match protocols with
  | [] => None
  | _ :: _ =>
      if forallb (λ p, negb (bool_decide (is_Some (swarm_transports s !! p))) ||
                       bool_decide (is_Some (result_ok (get_enum p)))) protocols
      then Some (with_settings (routing s) (foldl (λ ts p, <[p := t]> ts) (swarm_transports s) protocols)
                   (sw_filter_private s) (sw_filter_loopback s) s)
      else None
  end.

Definition with_routing (s : Swarm) : Swarm :=
  with_settings true (swarm_transports s) (sw_filter_private s) (sw_filter_loopback s) s.
Definition with_filter_private (b : bool) (s : Swarm) : Swarm :=
  with_settings (routing s) (swarm_transports s) b (sw_filter_loopback s) s.
Definition with_filter_loopback (b : bool) (s : Swarm) : Swarm :=
  with_settings (routing s) (swarm_transports s) (sw_filter_private s) b s.

(** ** Addresses *)

Definition get_self_addrs (s : Swarm) : list Multiaddr :=
  sort_dedup (Addresses_iter (external_addrs s) ++ listened_addrs s).

Definition kickoff_address_change (s : Swarm) : list SwarmEffect :=
  [NotifyAddressChanged (get_self_addrs s)].

(** [Swarm::address_translation]. *)
Fixpoint translate_all (listened : list Multiaddr) (observed : Multiaddr) : option (list Multiaddr) :=
  match listened with
  | [] => Some []
  | server :: listened =>
      o ← address_translation server observed;
      l ← translate_all listened observed;
      Some (match o with Some a => a :: l | None => l end)
  end.

Definition swarm_address_translation (s : Swarm) (observed : Multiaddr) : option (list Multiaddr) :=
  l ← translate_all (listened_addrs s) observed; Some (sort_dedup l).

Definition handle_observed_address (s : Swarm) (observed : Multiaddr) : option Swarm :=
  addrs ← swarm_address_translation s observed;
  Some (with_addresses (listened_addrs s) (foldl Addresses_add (external_addrs s) addrs) s).

(** [listen_on]: the transport answers with the address it listens on, if it knows
    one, or refuses. *)
Definition add_listen_addr (listen : Multiaddr → option (option Multiaddr)) (s : Swarm) (addr : Multiaddr) :
    option (bool * Swarm) :=
  t ← lookup_by_addr (swarm_transports s) addr;
  match t with
  | None => Some (false, s)
  | Some _ =>
      match listen addr with
      | None => Some (false, s)
      | Some None => Some (true, s)
      | Some (Some a) => Some (true, with_addresses (listened_addrs s ++ [a]) (external_addrs s) s)
      end
  end.

Fixpoint listen_loop (listen : Multiaddr → option (option Multiaddr)) (s : Swarm) (addrs : list Multiaddr)
    (succeeded : nat) : option (nat * Swarm) :=
  match addrs with
  | [] => Some (succeeded, s)
  | addr :: addrs =>
      '(ok, s) ← add_listen_addr listen s addr;
      listen_loop listen s addrs (if ok : bool then S succeeded else succeeded)
  end.

Definition listen_on (listen : Multiaddr → option (option Multiaddr)) (s : Swarm) (addrs : list Multiaddr) :
    option (result SwarmError unit * Swarm) :=
  match addrs with
  | [] => Some (Err CanNotListenOnAny, s)
  | _ :: _ =>
      '(succeeded, s) ← listen_loop listen s addrs 0;
      Some (if decide (succeeded = 0) then (Err CanNotListenOnAny, s) else (Ok tt, s))
  end.

(** ** Connections of a peer *)

Definition best_step (by_id : gmap nat Connection) (acc : nat * option nat) (id : nat) : nat * option nat :=
  match by_id !! id with
  | Some connection =>
      if decide (acc.1 ≤ num_streams connection) then (num_streams connection, Some id) else acc
  | None => acc
  end.

Definition get_best_conn (s : Swarm) (peer : PeerId) : option Connection :=
  id ← match connections_by_peer s !! peer with
       | Some ids => (foldl (best_step (connections_by_id s)) (0, None) ids).2
       | None => None
       end;
  connections_by_id s !! id.

Definition is_connected (s : Swarm) (peer : PeerId) : bool :=
  bool_decide (0 < from_option length 0 (connections_by_peer s !! peer)).

Definition add_connection (s : Swarm) (connection : Connection) : Swarm :=
  let cid := conn_id connection in
  let p := conn_remote_peer connection in
  with_connections (<[cid := connection]> (connections_by_id s))
    (<[p := default [] (connections_by_peer s !! p) ++ [cid]]> (connections_by_peer s)) s.

Definition get_network_info (s : Swarm) : NetworkInfo :=
  mk_NetworkInfo (local_peer_id s) (size (connections_by_peer s)) (size (connections_by_id s)) 0 0
    (map_fold (λ _ c acc, acc + num_streams c) 0 (connections_by_id s)).

Definition get_substream_views (s : Swarm) (peer : PeerId) : result SwarmError (list SubstreamView) :=
  match connections_by_peer s !! peer with
  | Some cids => Ok (mjoin (substreams <$> omap (λ cid, connections_by_id s !! cid) cids))
  | None => Err (NoConnection peer)
  end.

(** ** Dialing *)

(** A callback, called with the new connection or with an error. *)
Definition run_callback (cb : DialCallback) (r : result SwarmError nat) : list SwarmEffect :=
  match cb, r with
  | CbReply rid, Ok _ => [ReplyUnit rid (Ok tt)]
  | CbReply rid, Err e => [ReplyUnit rid (Err e)]
  | CbNewStream pids rid, Ok cid => [OpenStream cid pids rid]
  | CbNewStream pids rid, Err e => [ReplyStream rid (Err e)]
  end.

Definition start_dial (s : Swarm) (peer : PeerId) (a : EitherDialAddr) (f : DialCallback) : Swarm :=
  let s := assign_tid s in
  let tid := next_tid s in
  let s := with_transactions (<[tid := f]> (dial_transactions s)) s in
  with_dialer (dial (dialer s) (mk_DialParam (swarm_transports s) a peer tid (dial_attempts s)
    (sw_filter_private s) (sw_filter_loopback s))) s.

Definition dial_addr (now : Instant) (s : Swarm) (peer : PeerId) (addrs : list Multiaddr)
    (f : DialCallback) : Swarm * list SwarmEffect :=
  if decide (local_peer_id s = peer) then (s, run_callback f (Err DialToSelf))
  else
    let s := with_peer_store (add_addrs now (peer_store s) peer addrs ADDRESS_TTL) s in
    (start_dial s peer (Addresses addrs) f, []).

Definition dial_peer (s : Swarm) (peer : PeerId) (use_routing : bool) (f : DialCallback) :
    option (Swarm * list SwarmEffect) :=
  if decide (local_peer_id s = peer) then Some (s, run_callback f (Err DialToSelf))
  else
    match get_addrs (peer_store s) peer with
    | Some ((_ :: _) as list) =>
        list ← (if sw_filter_private s then filter_not is_private_addr list else Some list);
        list ← (if sw_filter_loopback s then filter_not is_loopback_addr list else Some list);
        Some (start_dial s peer (Addresses list) f, [])
    | _ =>
        if use_routing && routing s then Some (start_dial s peer DHT f, [])
        else Some (s, run_callback f (Err (NoAddresses peer)))
    end.

(** ** Commands *)

Definition on_connect (now : Instant) (s : Swarm) (peer : PeerId) (addrs : list Multiaddr) (rid : nat) :
    Swarm * list SwarmEffect :=
  match get_best_conn s peer with
  | Some _ => (s, [ReplyUnit rid (Ok tt)])
  | None => dial_addr now s peer addrs (CbReply rid)
  end.

Definition on_new_connection (s : Swarm) (peer : PeerId) (use_routing : bool) (rid : nat) :
    option (Swarm * list SwarmEffect) :=
  match get_best_conn s peer with
  | Some _ => Some (s, [ReplyUnit rid (Ok tt)])
  | None => dial_peer s peer use_routing (CbReply rid)
  end.

Definition on_close_connection (s : Swarm) (peer : PeerId) (rid : nat) : Swarm * list SwarmEffect :=
  match connections_by_peer s !! peer with
  | Some ids =>
      (with_connections (foldl (λ m id, alter conn_close id m) (connections_by_id s) ids)
         (connections_by_peer s) s,
       (CloseMuxer <$> filter (λ id, is_Some (connections_by_id s !! id)) ids) ++ [ReplyUnit rid (Ok tt)])
  | None => (s, [ReplyUnit rid (Err (NoConnection peer))])
  end.

Definition on_new_stream (s : Swarm) (peer : PeerId) (pids : list string) (use_routing : bool) (rid : nat) :
    option (Swarm * list SwarmEffect) :=
  match get_best_conn s peer with
  | Some connection => Some (s, [OpenStream (conn_id connection) pids rid])
  | None => dial_peer s peer use_routing (CbNewStream pids rid)
  end.

Definition handle_stream_closed (s : Swarm) (cid sid : nat) : Swarm :=
  let s := with_base_stats (λ b, mk_SwarmBaseStats (connection_incoming_opened b)
    (connection_outgoing_opened b) (connection_closed b) (incoming_connection_error b)
    (outgoing_connection_error b) (substream_inbound_opened b) (substream_outbound_opened b)
    (S (substream_closed b)) (substream_inbound_error b) (substream_outbound_error b)) s in
  with_connections (alter (λ c, del_stream c sid) cid (connections_by_id s)) (connections_by_peer s) s.

Definition on_command (now : Instant) (s : Swarm) (cmd : SwarmControlCmd) :
    option (Swarm * list SwarmEffect) :=
  match cmd with
  | Connect peer addrs rid => Some (on_connect now s peer addrs rid)
  | NewConnection peer use_routing rid => on_new_connection s peer use_routing rid
  | CloseConnection peer rid => Some (on_close_connection s peer rid)
  | NewStream peer pids use_routing rid => on_new_stream s peer pids use_routing rid
  | CloseStream cid sid => Some (handle_stream_closed s cid sid, [])
  | SelfAddresses rid => Some (s, [ReplyAddresses rid (get_self_addrs s)])
  | GetNetworkInfo rid => Some (s, [ReplyNetworkInfo rid (get_network_info s)])
  | DumpStreams peer rid => Some (s, [ReplyStreams rid (get_substream_views s peer)])
  end.

(** ** Events *)

Definition handle_connection_opened (s : Swarm) (m : StreamMuxer) (dir : Direction) (tid : option nat) :
    option (Swarm * list SwarmEffect) :=
  let s := with_base_stats (λ b, mk_SwarmBaseStats
    (if decide (dir = Inbound) then S (connection_incoming_opened b) else connection_incoming_opened b)
    (if decide (dir = Inbound) then connection_outgoing_opened b else S (connection_outgoing_opened b))
    (connection_closed b) (incoming_connection_error b) (outgoing_connection_error b)
    (substream_inbound_opened b) (substream_outbound_opened b) (substream_closed b)
    (substream_inbound_error b) (substream_outbound_error b)) s in
  let s := assign_cid s in
  let connection := Connection_new (next_connection_id s) m dir in
  let cid := conn_id connection in
  match tid with
  | Some id =>
      callback ← dial_transactions s !! id;
      let s := with_transactions (delete id (dial_transactions s)) s in
      Some (add_connection s connection,
            [SpawnAccept cid; NotifyConnected cid] ++ run_callback callback (Ok cid))
  | None => Some (add_connection s connection, [SpawnAccept cid; NotifyConnected cid])
  end.

Definition handle_outgoing_connection_error (s : Swarm) (e : SwarmError) (tid : nat) :
    option (Swarm * list SwarmEffect) :=
  let s := with_base_stats (λ b, mk_SwarmBaseStats (connection_incoming_opened b)
    (connection_outgoing_opened b) (connection_closed b) (incoming_connection_error b)
    (S (outgoing_connection_error b)) (substream_inbound_opened b) (substream_outbound_opened b)
    (substream_closed b) (substream_inbound_error b) (substream_outbound_error b)) s in
  callback ← dial_transactions s !! tid;
  Some (with_transactions (delete tid (dial_transactions s)) s, run_callback callback (Err e)).

Definition handle_incoming_connection_error (s : Swarm) : Swarm :=
  with_base_stats (λ b, mk_SwarmBaseStats (connection_incoming_opened b)
    (connection_outgoing_opened b) (connection_closed b) (S (incoming_connection_error b))
    (outgoing_connection_error b) (substream_inbound_opened b) (substream_outbound_opened b)
    (substream_closed b) (substream_inbound_error b) (substream_outbound_error b)) s.

Definition handle_stream_opened (s : Swarm) (view : SubstreamView) : Swarm :=
  let s := with_base_stats (λ b, mk_SwarmBaseStats (connection_incoming_opened b)
    (connection_outgoing_opened b) (connection_closed b) (incoming_connection_error b)
    (outgoing_connection_error b)
    (if decide (view_dir view = Inbound) then S (substream_inbound_opened b) else substream_inbound_opened b)
    (if decide (view_dir view = Inbound) then substream_outbound_opened b else S (substream_outbound_opened b))
    (substream_closed b) (substream_inbound_error b) (substream_outbound_error b)) s in
  with_connections (alter (λ c, add_stream c view) (view_cid view) (connections_by_id s))
    (connections_by_peer s) s.

Definition handle_stream_error (s : Swarm) (dir : Direction) : Swarm :=
  with_base_stats (λ b, mk_SwarmBaseStats (connection_incoming_opened b)
    (connection_outgoing_opened b) (connection_closed b) (incoming_connection_error b)
    (outgoing_connection_error b) (substream_inbound_opened b) (substream_outbound_opened b)
    (substream_closed b)
    (if decide (dir = Outbound) then substream_inbound_error b else S (substream_inbound_error b))
    (if decide (dir = Outbound) then S (substream_outbound_error b) else substream_outbound_error b)) s.

Definition handle_connection_closed (s : Swarm) (cid : nat) : Swarm * list SwarmEffect :=
  let s := with_base_stats (λ b, mk_SwarmBaseStats (connection_incoming_opened b)
    (connection_outgoing_opened b) (S (connection_closed b)) (incoming_connection_error b)
    (outgoing_connection_error b) (substream_inbound_opened b) (substream_outbound_opened b)
    (substream_closed b) (substream_inbound_error b) (substream_outbound_error b)) s in
  match connections_by_id s !! cid with
  | Some connection =>
      let p := conn_remote_peer connection in
      let by_peer :=
        match connections_by_peer s !! p with
        | Some ids =>
            match filter (λ id, id ≠ cid) ids with
            | [] => delete p (connections_by_peer s)
            | ids => <[p := ids]> (connections_by_peer s)
            end
        | None => connections_by_peer s
        end in
      (with_connections (delete cid (connections_by_id s)) by_peer s, [NotifyDisconnected cid])
  | None => (s, [])
  end.

(** The latencies of the peer store are floating point and left out. *)
Definition handle_ping_result (s : Swarm) (cid : nat) (r : result SwarmError Duration) :
    Swarm * list SwarmEffect :=
  match connections_by_id s !! cid with
  | Some connection =>
      match r with
      | Ok _ => (s, [])
      | Err _ =>
          (with_connections (<[cid := conn_close connection]> (connections_by_id s))
             (connections_by_peer s) s, [CloseMuxer cid])
      end
  | None => (s, [])
  end.

Definition handle_identify_result (now : Instant) (s : Swarm) (cid : nat)
    (r : result SwarmError (IdentifyInfo * Multiaddr)) : option (Swarm * list SwarmEffect) :=
  match connections_by_id s !! cid with
  | Some connection =>
      match r with
      | Ok (info, observed_addr) =>
          let peer := conn_remote_peer connection in
          s ← handle_observed_address s observed_addr;
          let ps := add_addrs now (peer_store s) peer (info_listen_addrs info) ADDRESS_TTL in
          let ps := add_key ps peer (remote_pub_key (stream_muxer connection)) in
          let ps := add_protocols ps peer (info_protocols info) in
          Some (with_peer_store ps s, [NotifyIdentified peer])
      | Err _ => Some (s, [])
      end
  | None => Some (s, [])
  end.

Definition on_event (now : Instant) (s : Swarm) (ev : SwarmEvent) : option (Swarm * list SwarmEffect) :=
  match ev with
  | ListenerClosed => Some (s, [])
  | ListenAddressAdded addr =>
      if decide (addr ∈ listened_addrs s) then Some (s, [])
      else
        let s := with_addresses (listened_addrs s ++ [addr]) (external_addrs s) s in
        Some (s, kickoff_address_change s)
  | ListenAddressDeleted addr =>
      match position (λ a, bool_decide (a = addr)) (listened_addrs s) with
      | Some pos =>
          let s := with_addresses (delete pos (listened_addrs s)) (external_addrs s) s in
          Some (s, kickoff_address_change s)
      | None => Some (s, [])
      end
  | ConnectionEstablished m dir tid => handle_connection_opened s m dir tid
  | ConnectionClosed cid => Some (handle_connection_closed s cid)
  | OutgoingConnectionError _ e tid => handle_outgoing_connection_error s e tid
  | IncomingConnectionError => Some (handle_incoming_connection_error s, [])
  | StreamError _ dir => Some (handle_stream_error s dir, [])
  | StreamOpened view => Some (handle_stream_opened s view, [])
  | PingResult cid r => Some (handle_ping_result s cid r)
  | IdentifyResult cid r => handle_identify_result now s cid r
  end.

(** ** The system

    The main loop beside the tasks it starts, which talk to it through the event
    channel: the dials, the tasks that open a stream ([Connection::open_stream])
    and the accept loops of the connections.  The peer store is shared with the
    controls and with the task that purges it, which may change it at any time. *)

Record System := mk_System {
  sy_swarm : Swarm;
  sy_events : list SwarmEvent;
  sy_opening : list (nat * list string * nat);
  sy_accepting : gset nat;
  sy_asked : list (nat * SwarmControlCmd);
  sy_log : list SwarmEffect
}.

Definition System_new (s : Swarm) : System := mk_System s [] [] ∅ [] [].

Definition cmd_rid (cmd : SwarmControlCmd) : option nat :=
  match cmd with
  | Connect _ _ rid | NewConnection _ _ rid | CloseConnection _ rid | NewStream _ _ _ rid
  | SelfAddresses rid | GetNetworkInfo rid | DumpStreams _ rid => Some rid
  | CloseStream _ _ => None
  end.

Definition effect_rid (e : SwarmEffect) : option nat :=
  match e with
  | ReplyUnit rid _ | ReplyStream rid _ | ReplyAddresses rid _ | ReplyNetworkInfo rid _
  | ReplyStreams rid _ => Some rid
  | _ => None
  end.

Definition effect_open (e : SwarmEffect) : option (nat * list string * nat) :=
  match e with OpenStream cid pids rid => Some (cid, pids, rid) | _ => None end.

Definition effect_accept (e : SwarmEffect) : option nat :=
  match e with SpawnAccept cid => Some cid | _ => None end.

(** The requests that have been answered. *)
Definition answered (log : list SwarmEffect) : list nat := omap effect_rid log.

Definition run_effects (sy : System) (s : Swarm) (effs : list SwarmEffect) : System :=
  mk_System s (sy_events sy) (sy_opening sy ++ omap effect_open effs)
    (sy_accepting sy ∪ list_to_set (omap effect_accept effs)) (sy_asked sy) (sy_log sy ++ effs).

Definition on_swarm (s : Swarm) (sy : System) : System :=
  mk_System s (sy_events sy) (sy_opening sy) (sy_accepting sy) (sy_asked sy) (sy_log sy).

Definition send_event (ev : SwarmEvent) (sy : System) : System :=
  mk_System (sy_swarm sy) (sy_events sy ++ [ev]) (sy_opening sy) (sy_accepting sy) (sy_asked sy) (sy_log sy).

Inductive SysAction :=
  | ACommand (now : Instant) (cmd : SwarmControlCmd)
  | AEvent (now : Instant)
  | ATask (now : Instant) (found : option (list Multiaddr)) (t : nat)
  | AJob (out : @DialOutcome StreamMuxer TransportError) (j : nat)
  | ACleanup (now : Instant)
  | ADialEnd (t : nat)
  | AOpenEnd (i : nat) (r : result TransportError SubstreamView)
  | AAccept (cid : nat) (r : option SubstreamView) (dir : Direction)
  | AAcceptEnd (cid : nat)
  | AEnv (ev : SwarmEvent)
  | AStore (ps : gmap PeerId (@StoredPeer Multiaddr PublicKey)).

(** The end of the task spawned by [AsyncDialer::dial]. *)
Definition dial_end_event (param : DialParam) (r : result SwarmError StreamMuxer) : SwarmEvent :=
  match r with
  | Ok m => ConnectionEstablished m Outbound (Some (tid param))
  | Err e => OutgoingConnectionError (peer_id param) e (tid param)
  end.

(** The event sent by the task of [Connection::open_stream]. *)
Definition open_stream_event (cid : nat) (r : result TransportError SubstreamView) : SwarmEvent :=
  match r with Ok view => StreamOpened view | Err _ => StreamError cid Outbound end.

(** The event of an accept loop after the protocol selection of an inbound stream;
    [dir] is the direction of the connection. *)
Definition accept_event (cid : nat) (dir : Direction) (r : option SubstreamView) : SwarmEvent :=
  match r with Some view => StreamOpened view | None => StreamError cid dir end.

(** One step; [None] is a panic, or the step of a task that is not there. *)
Definition sys_step (sy : System) (a : SysAction) : option System :=
  let s := sy_swarm sy in
  match a with
  | ACommand now cmd =>
      let asked := match cmd_rid cmd with Some rid => [(rid, cmd)] | None => [] end in
      '(s, effs) ← on_command now s cmd;
      Some (run_effects (mk_System s (sy_events sy) (sy_opening sy) (sy_accepting sy)
                           (sy_asked sy ++ asked) (sy_log sy)) s effs)
  | AEvent now =>
      match sy_events sy with
      | [] => None
      | ev :: events =>
          '(s, effs) ← on_event now s ev;
          Some (run_effects (mk_System s events (sy_opening sy) (sy_accepting sy) (sy_asked sy)
                               (sy_log sy)) s effs)
      end
  | ATask now found t => d ← task_step remote_peer now found (dialer s) t; Some (on_swarm (with_dialer d s) sy)
  | AJob out j => d ← job_step out (dialer s) j; Some (on_swarm (with_dialer d s) sy)
  | ACleanup now => d ← cleanup_step now (dialer s); Some (on_swarm (with_dialer d s) sy)
  | ADialEnd t =>
      task ← tasks (dialer s) !! t;
      match dt_phase task with
      | PDone r =>
          Some (send_event (dial_end_event (dt_param task) r) (on_swarm (with_dialer (reap (dialer s) t) s) sy))
      | _ => None
      end
  | AOpenEnd i r =>
      '(cid, pids, rid) ← sy_opening sy !! i;
      Some (mk_System s (sy_events sy ++ [open_stream_event cid r]) (delete i (sy_opening sy)) (sy_accepting sy) (sy_asked sy)
              (sy_log sy ++ [ReplyStream rid (map_err TransportErr r)]))
  | AAccept cid r dir =>
      if decide (cid ∈ sy_accepting sy) then
        Some (send_event (accept_event cid dir r) sy)
      else None
  | AAcceptEnd cid =>
      if decide (cid ∈ sy_accepting sy) then
        Some (mk_System s (sy_events sy ++ [ConnectionClosed cid]) (sy_opening sy)
                (sy_accepting sy ∖ {[cid]}) (sy_asked sy) (sy_log sy))
      else None
  | AEnv ev => Some (send_event ev sy)
  | AStore ps => Some (on_swarm (with_peer_store ps s) sy)
  end.
(** *** Reachable states *)

Definition store_valid (ps : gmap PeerId (@StoredPeer Multiaddr PublicKey)) : Prop :=
  ∀ p pr, ps !! p = Some pr → Forall (λ r, valid_addr (ab_addr r)) (sp_addrs pr).

Definition valid_event (ev : SwarmEvent) : Prop :=
  match ev with
  | ListenAddressAdded a => valid_addr a
  | IdentifyResult _ (Ok (info, observed)) => Forall valid_addr (info_listen_addrs info) ∧ valid_addr observed
  | _ => True
  end.

(** The events of the listeners and of the ping and identify tasks. *)
Definition env_event (ev : SwarmEvent) : Prop :=
  match ev with
  | ConnectionEstablished _ dir t => dir = Inbound ∧ t = None
  | ConnectionClosed _ | OutgoingConnectionError _ _ _ => False
  | ev => valid_event ev
  end.

Definition valid_cmd (cmd : SwarmControlCmd) : Prop :=
  match cmd with Connect _ addrs _ => Forall valid_addr addrs | _ => True end.

(** Every request has a reply channel of its own, addresses are values of the type,
    and no address has failed 65536 times in a row. *)
Definition action_ok (sy : System) (a : SysAction) : Prop :=
  match a with
  | ACommand _ cmd => valid_cmd cmd ∧ ∀ rid, cmd_rid cmd = Some rid → rid ∉ (sy_asked sy).*1
  | ATask _ found _ => tries_small (backoff (dialer (sy_swarm sy))) ∧ from_option (Forall valid_addr) True found
  | AEnv ev => env_event ev
  | AStore ps => store_valid ps
  | _ => True
  end.

(** What the builder methods and [listen_on] make before [start]. *)
Inductive swarm_built (limit : Z) : Swarm → Prop :=
  | built_new ps local attempts : store_valid ps → swarm_built limit (Swarm_new ps local limit attempts)
  | built_transport protocols t s s' : swarm_built limit s → with_transport protocols t s = Some s' →
      swarm_built limit s'
  | built_routing s : swarm_built limit s → swarm_built limit (with_routing s)
  | built_private b s : swarm_built limit s → swarm_built limit (with_filter_private b s)
  | built_loopback b s : swarm_built limit s → swarm_built limit (with_filter_loopback b s)
  | built_ban p s : swarm_built limit s → swarm_built limit (ban_peer_id s p)
  | built_unban p s : swarm_built limit s → swarm_built limit (unban_peer_id s p)
  | built_listen listen s addrs r s' : swarm_built limit s →
      (∀ a a', listen a = Some (Some a') → valid_addr a') →
      listen_on listen s addrs = Some (r, s') → swarm_built limit s'.

Inductive system_reach (limit : Z) : System → Prop :=
  | system_start s : swarm_built limit s → system_reach limit (System_new s)
  | system_step sy a sy' : system_reach limit sy → action_ok sy a → sys_step sy a = Some sy' →
      system_reach limit sy'.

(** *** The invariant *)

Definition event_tid (ev : SwarmEvent) : option nat :=
  match ev with
  | ConnectionEstablished _ _ t => t
  | OutgoingConnectionError _ _ t => Some t
  | _ => None
  end.

Definition event_closed (ev : SwarmEvent) : option nat :=
  match ev with ConnectionClosed cid => Some cid | _ => None end.

Definition cb_rid (cb : DialCallback) : nat :=
  match cb with CbReply rid | CbNewStream _ rid => rid end.

(** The callback is the one of a request for the peer. *)
Definition cb_for (cb : DialCallback) (cmd : SwarmControlCmd) (p : PeerId) : Prop :=
  match cb with
  | CbReply rid => (∃ addrs, cmd = Connect p addrs rid) ∨ ∃ r, cmd = NewConnection p r rid
  | CbNewStream pids rid => ∃ r, cmd = NewStream p pids r rid
  end.

(** The tables of the connections: [acc] are the running accept loops and [closed]
    the connections whose end is in the event channel. *)
Record conns_ok (n : nat) (by_id : gmap nat Connection) (by_peer : gmap PeerId (list nat))
    (acc : gset nat) (closed : list nat) : Prop := {
  co_id cid c : by_id !! cid = Some c → conn_id c = cid ∧ cid ≤ n;
  co_nodup p ids : by_peer !! p = Some ids → ids ≠ [] ∧ NoDup ids;
  co_peer p cid : cid ∈ default [] (by_peer !! p) ↔ ∃ c, by_id !! cid = Some c ∧ conn_remote_peer c = p;
  co_alive cid : is_Some (by_id !! cid) ↔ cid ∈ acc ∨ cid ∈ closed;
  co_closed : NoDup closed;
  co_disjoint cid : cid ∈ acc → cid ∉ closed
}.

(** The transactions: one for each dial that runs or whose result is in the
    channel. *)
Record dials_ok (n : nat) (trans : gmap nat DialCallback) (params : gmap nat DialParam)
    (evs : list SwarmEvent) (asked : list (nat * SwarmControlCmd)) : Prop := {
  di_dom t : is_Some (trans !! t) ↔ is_Some (params !! t) ∨ t ∈ omap event_tid evs;
  di_disjoint t : is_Some (params !! t) → t ∉ omap event_tid evs;
  di_nodup : NoDup (omap event_tid evs);
  di_le t : is_Some (trans !! t) → t ≤ n;
  di_cb t cb : trans !! t = Some cb → ∃ cmd p, (cb_rid cb, cmd) ∈ asked ∧ cb_for cb cmd p ∧
    (∀ param, params !! t = Some param → peer_id param = p) ∧
    (∀ m dir, ConnectionEstablished m dir (Some t) ∈ evs → remote_peer m = p)
}.

Definition waiting (trans : gmap nat DialCallback) : list nat := cb_rid <$> (map_to_list trans).*2.

Definition tparams (d : Dialer) : gmap nat DialParam := dt_param <$> tasks d.

(** [pend] are requests in the hands of the handler that runs. *)
Record sys_inv (limit : Z) (pend : list nat) (sy : System) : Prop := {
  sy_conns : conns_ok (next_connection_id (sy_swarm sy)) (connections_by_id (sy_swarm sy))
    (connections_by_peer (sy_swarm sy)) (sy_accepting sy) (omap event_closed (sy_events sy));
  sy_dials : dials_ok (next_tid (sy_swarm sy)) (dial_transactions (sy_swarm sy))
    (tparams (dialer (sy_swarm sy))) (sy_events sy) (sy_asked sy);
  sy_requests : (sy_asked sy).*1 ≡ₚ
    answered (sy_log sy) ++ (sy_opening sy).*2 ++ waiting (dial_transactions (sy_swarm sy)) ++ pend;
  sy_fresh : NoDup (sy_asked sy).*1;
  sy_opens cid pids rid : (cid, pids, rid) ∈ sy_opening sy → cid ≤ next_connection_id (sy_swarm sy) ∧
    ∃ p r, (rid, NewStream p pids r rid) ∈ sy_asked sy ∧
      ∀ c, connections_by_id (sy_swarm sy) !! cid = Some c → conn_remote_peer c = p;
  sy_valid : Forall valid_event (sy_events sy) ∧ Forall valid_addr (listened_addrs (sy_swarm sy)) ∧
    store_valid (peer_store (sy_swarm sy));
  sy_dialer : dialer_reach remote_peer limit (dialer (sy_swarm sy))
}.

Context `{!VarintCodecLaws} `{!AddrCodecsLaws}.

(** **** The tables *)

Lemma conns_add n by_id by_peer acc closed c :
  conns_ok n by_id by_peer acc closed → conn_id c = S n →
  conns_ok (S n) (<[S n := c]> by_id)
    (<[conn_remote_peer c := default [] (by_peer !! conn_remote_peer c) ++ [S n]]> by_peer)
    (acc ∪ {[S n]}) closed.
Proof.
  intros [Hid Hnd Hp Ha Hc Hd] Hn.
  assert (Hnew : by_id !! S n = None).
  { apply eq_None_not_Some. intros [c' H']. apply Hid in H' as [_ ?]. lia. }
  assert (Hfresh : ∀ p, S n ∉ default [] (by_peer !! p)).
  { intros p (c'&H'&_)%Hp. congruence. }
  split.
  - intros cid c'. destruct (decide (cid = S n)) as [->|Hne].
    + rewrite lookup_insert_eq. intros [= <-]. lia.
    + rewrite lookup_insert_ne by done. intros [? ?]%Hid. lia.
  - intros p ids. destruct (decide (p = conn_remote_peer c)) as [->|Hne].
    + rewrite lookup_insert_eq. intros [= <-]. split; [by destruct (default _ _)|].
      apply NoDup_app. split_and!; [| |apply NoDup_singleton].
      * destruct (by_peer !! _) eqn:E; [by apply Hnd in E as [_ ?]|constructor].
      * intros x Hx ->%list_elem_of_singleton. by eapply Hfresh.
    + rewrite lookup_insert_ne by done. apply Hnd.
  - intros p cid. destruct (decide (p = conn_remote_peer c)) as [->|Hne].
    + rewrite lookup_insert_eq. simpl. rewrite elem_of_app, list_elem_of_singleton, Hp.
      destruct (decide (cid = S n)) as [->|Hne]; [rewrite lookup_insert_eq; naive_solver|].
      rewrite lookup_insert_ne by done. naive_solver.
    + rewrite lookup_insert_ne by done. rewrite Hp.
      destruct (decide (cid = S n)) as [->|]; [rewrite lookup_insert_eq, Hnew; naive_solver|].
      by rewrite lookup_insert_ne.
  - intros cid. rewrite elem_of_union, elem_of_singleton.
    destruct (decide (cid = S n)) as [->|]; [rewrite lookup_insert_eq; naive_solver|].
    rewrite lookup_insert_ne, Ha by done. naive_solver.
  - done.
  - intros cid. rewrite elem_of_union, elem_of_singleton. intros [?| ->]; [by apply Hd|].
    intros Hin. destruct (proj2 (Ha (S n)) (or_intror Hin)). congruence.
Qed.

Lemma filter_ne_elem (cid x : nat) (ids : list nat) : x ∈ filter (λ id, id ≠ cid) ids ↔ x ≠ cid ∧ x ∈ ids.
Proof. by rewrite list_elem_of_filter. Qed.

Lemma conns_close n by_id by_peer acc closed cid c :
  conns_ok n by_id by_peer acc (cid :: closed) → by_id !! cid = Some c →
  conns_ok n (delete cid by_id)
    (match by_peer !! conn_remote_peer c with
     | Some ids =>
         match filter (λ id, id ≠ cid) ids with
         | [] => delete (conn_remote_peer c) by_peer
         | ids => <[conn_remote_peer c := ids]> by_peer
         end
     | None => by_peer
     end) acc closed.
Proof.
  intros [Hid Hnd Hp Ha Hc Hd] Hcid. set (q := conn_remote_peer c).
  assert (Hq : cid ∈ default [] (by_peer !! q)) by (apply Hp; eauto).
  destruct (by_peer !! q) as [ids|] eqn:Hids; [|by apply elem_of_nil in Hq].
  set (by_peer' := match filter _ ids with [] => _ | _ => _ end).
  assert (Hl : ∀ p, default [] (by_peer' !! p) =
    if decide (p = q) then filter (λ id, id ≠ cid) ids else default [] (by_peer !! p)).
  { intros p. subst by_peer'. destruct (decide (p = q)) as [->|];
      destruct (filter _ ids); by rewrite ?lookup_delete_eq, ?lookup_insert_eq,
        ?lookup_delete_ne, ?lookup_insert_ne. }
  apply NoDup_cons in Hc as [Hnc Hc]. split.
  - intros x c' [_ H']%lookup_delete_Some. by apply Hid.
  - intros p l Hpl. pose proof (Hl p) as Hlp. rewrite Hpl in Hlp. simpl in Hlp.
    destruct (decide (p = q)) as [->|Hne].
    + subst l. split.
      * subst by_peer'. intros E. rewrite E, lookup_delete_eq in Hpl. done.
      * apply NoDup_filter. by apply Hnd in Hids as [_ ?].
    + destruct (by_peer !! p) eqn:E; simpl in Hlp; subst; [by apply Hnd in E|].
      subst by_peer'. destruct (filter _ ids); by rewrite ?lookup_delete_ne, ?lookup_insert_ne, E in Hpl.
  - intros p x. rewrite Hl. setoid_rewrite lookup_delete_Some. destruct (decide (p = q)) as [->|Hne].
    + rewrite filter_ne_elem. specialize (Hp q x). rewrite Hids in Hp. simpl in Hp. rewrite Hp.
      naive_solver.
    + rewrite Hp. split; [|naive_solver]. intros (c'&H'&<-). exists c'. split_and!; try done.
      intros ->. by simplify_eq.
  - intros x. rewrite lookup_delete_is_Some, Ha, elem_of_cons.
    split; [naive_solver|]. intros [Hx|Hx]; (split; [|tauto]).
    + intros ->. apply (Hd _ Hx). left.
    + by intros ->.
  - done.
  - intros x Hx Hin. apply (Hd x Hx). by right.
Qed.

Lemma conns_keep n by_id by_id' by_peer acc closed :
  conns_ok n by_id by_peer acc closed →
  (λ c, (conn_id c, stream_muxer c)) <$> by_id' = (λ c, (conn_id c, stream_muxer c)) <$> by_id →
  conns_ok n by_id' by_peer acc closed.
Proof.
  intros [Hid Hnd Hp Ha Hc Hd] Heq.
  assert (Hl : ∀ cid c', by_id' !! cid = Some c' → ∃ c, by_id !! cid = Some c ∧
    conn_id c' = conn_id c ∧ conn_remote_peer c' = conn_remote_peer c).
  { intros cid c' H'. assert (Hk := f_equal (lookup cid) Heq). rewrite !lookup_fmap, H' in Hk.
    destruct (by_id !! cid) as [c|]; [|done]. injection Hk as Hk1 Hk2. exists c.
    unfold conn_remote_peer. by rewrite Hk2. }
  assert (Hr : ∀ cid c, by_id !! cid = Some c → ∃ c', by_id' !! cid = Some c' ∧
    conn_remote_peer c' = conn_remote_peer c).
  { intros cid c H'. assert (Hk := f_equal (lookup cid) Heq). rewrite !lookup_fmap, H' in Hk.
    destruct (by_id' !! cid) as [c'|]; [|done]. injection Hk as Hk1 Hk2. exists c'.
    unfold conn_remote_peer. by rewrite Hk2. }
  split; [|done| | |done|done].
  - intros cid c' (c&H'&->&_)%Hl. by apply Hid.
  - intros p cid. rewrite Hp. split.
    + intros (c&(c'&?&Hrp)%Hr&<-). eauto.
    + intros (c'&(c&?&_&Hrp)%Hl&<-). eauto.
  - intros cid. rewrite <-Ha. split; intros [c H'].
    + apply Hl in H' as (?&?&_). eauto.
    + apply Hr in H' as (?&?&_). eauto.
Qed.

Lemma conns_end n by_id by_peer acc closed cid :
  conns_ok n by_id by_peer acc closed → cid ∈ acc →
  conns_ok n by_id by_peer (acc ∖ {[cid]}) (closed ++ [cid]).
Proof.
  intros [Hid Hnd Hp Ha Hc Hd] Hcid. split; try done.
  - intros x. rewrite Ha, elem_of_difference, elem_of_singleton, elem_of_app, list_elem_of_singleton.
    destruct (decide (x = cid)) as [->|]; tauto.
  - apply NoDup_app. split_and!; [done| |apply NoDup_singleton].
    intros x Hx ->%list_elem_of_singleton. by apply (Hd cid).
  - intros x [Hx Hne]%elem_of_difference. rewrite elem_of_app, list_elem_of_singleton.
    intros [Hin| ->]; [by apply (Hd x)|]. by apply Hne, elem_of_singleton.
Qed.

(** **** The dials *)

Lemma task_step_params now found (d d' : Dialer) t :
  task_step remote_peer now found d t = Some d' → tparams d' = tparams d.
Proof.
  unfold task_step, tparams. destruct (tasks d !! t) as [task|] eqn:Ht; [|done]. cbn [mbind option_bind].
  assert (Hset : ∀ task', dt_param task' = dt_param task →
    dt_param <$> <[t := task']> (tasks d) = dt_param <$> tasks d).
  { intros task' Hp. rewrite fmap_insert. apply insert_id. by rewrite lookup_fmap, Ht, Hp. }
  destruct (dt_phase task) as [|[|a todo] kept|c n| |r|]; intros Hs; try done.
  1,5: injection Hs as <-; unfold lookup_step; repeat case_match; simpl; by rewrite Hset.
  - injection Hs as <-. unfold start_jobs. destruct kept; [simpl; by rewrite Hset|].
    destruct (_ ≫= _) as [[|]|]; [simpl; by rewrite Hset| |simpl; by rewrite Hset].
    destruct (spawn_jobs _ _ _ _ _). simpl. by rewrite Hset.
  - injection Hs as <-. unfold check_step. case_match; simpl; by rewrite Hset.
  - unfold collect_step in Hs. destruct n; [injection Hs as <-; simpl; by rewrite Hset|].
    destruct (chans d !! c) as [[|[r addr] q]|]; [done| |done].
    destruct r as [m|e]; [case_decide; [|case_match]|destruct e; [..|idtac]; try case_match];
      injection Hs as <-; simpl; by rewrite Hset.
Qed.

Lemma job_step_params out (d d' : Dialer) j : job_step out d j = Some d' → tparams d' = tparams d.
Proof.
  unfold job_step, tparams. destruct (jobs d !! j) as [[job ph]|]; [|done]. cbn [mbind option_bind].
  destruct ph; [case_match| | |]; try (intros [= <-]; done).
  destruct (dial_timeout _); [|done]. cbn [mbind option_bind]. destruct out; by intros [= <-].
Qed.

Lemma cleanup_step_params now (d d' : Dialer) : cleanup_step now d = Some d' → tparams d' = tparams d.
Proof.
  unfold cleanup_step. destruct (cleanup d); [by intros [= <-]|].
  destruct (cleanup_scan _ _); [|done]. by intros [= <-].
Qed.

Lemma dials_start n trans params evs asked cb cmd param :
  dials_ok n trans params evs asked → (cb_rid cb, cmd) ∈ asked → cb_for cb cmd (peer_id param) →
  dials_ok (S n) (<[S n := cb]> trans) (<[S n := param]> params) evs asked.
Proof.
  intros [Hdom Hdis Hnd Hle Hcb] Hin Hfor.
  assert (Hnew : trans !! S n = None).
  { apply eq_None_not_Some. intros ?%Hle. lia. }
  assert (Hev : S n ∉ omap event_tid evs).
  { intros Hx. destruct (proj2 (Hdom (S n)) (or_intror Hx)). congruence. }
  split.
  - intros t. rewrite !lookup_insert_is_Some, Hdom. destruct (decide (S n = t)); tauto.
  - intros t. destruct (decide (t = S n)) as [->|]; [done|]. rewrite lookup_insert_ne by done. apply Hdis.
  - done.
  - intros t. destruct (decide (t = S n)) as [->|]; [done|]. rewrite lookup_insert_ne by done.
    intros ?%Hle. lia.
  - intros t cb'. destruct (decide (t = S n)) as [->|].
    + rewrite lookup_insert_eq. intros [= <-]. exists cmd, (peer_id param). split_and!; try done.
      * intros param'. rewrite lookup_insert_eq. by intros [= <-].
      * intros m dir Hm. destruct Hev. apply list_elem_of_omap. by exists (ConnectionEstablished m dir (Some (S n))).
    + rewrite !lookup_insert_ne by done. apply Hcb.
Qed.

(** The event channel with an event that is not the end of a dial. *)
Lemma dials_quiet n trans params evs evs' asked :
  dials_ok n trans params evs asked → omap event_tid evs' = omap event_tid evs →
  (∀ m dir t, ConnectionEstablished m dir (Some t) ∈ evs' → ConnectionEstablished m dir (Some t) ∈ evs) →
  dials_ok n trans params evs' asked.
Proof.
  intros [Hdom Hdis Hnd Hle Hcb] Heq Hin. split; rewrite ?Heq; try done.
  intros t cb (cmd&p&?&?&?&?)%Hcb. exists cmd, p. split_and!; eauto.
Qed.

Lemma dials_ask n trans params evs asked asked' :
  dials_ok n trans params evs asked → dials_ok n trans params evs (asked ++ asked').
Proof.
  intros [Hdom Hdis Hnd Hle Hcb]. split; try done. intros t cb (cmd&p&?&?&?&?)%Hcb.
  exists cmd, p. split_and!; try done. apply elem_of_app. by left.
Qed.

(** The end of a dial enters the channel. *)
Lemma dials_end n trans params evs asked t param ev :
  dials_ok n trans params evs asked → params !! t = Some param → event_tid ev = Some t →
  (∀ m dir, ev = ConnectionEstablished m dir (Some t) → remote_peer m = peer_id param) →
  dials_ok n trans (delete t params) (evs ++ [ev]) asked.
Proof.
  intros [Hdom Hdis Hnd Hle Hcb] Ht Hev Hm.
  assert (Homap : omap event_tid (evs ++ [ev]) = omap event_tid evs ++ [t]).
  { rewrite omap_app. simpl. by rewrite Hev. }
  split; rewrite ?Homap; try done.
  - intros t'. rewrite lookup_delete_is_Some, Hdom, elem_of_app, list_elem_of_singleton.
    destruct (decide (t' = t)) as [->|]; [|naive_solver]. split; [by right; right|]. left. by rewrite Ht.
  - intros t' [Hne Hs]%lookup_delete_is_Some. rewrite elem_of_app, list_elem_of_singleton.
    intros [?| ->]; [by apply (Hdis t')|done].
  - apply NoDup_app. split_and!; [done| |apply NoDup_singleton].
    intros x Hx ->%list_elem_of_singleton. apply (Hdis t); [by rewrite Ht|done].
  - intros t' cb (cmd&p&Hin&Hfor&Hp&Hx)%Hcb. exists cmd, p. split_and!; try done.
    + intros param' [_ Hl]%lookup_delete_Some. by apply Hp.
    + intros m dir [?|Hl%list_elem_of_singleton]%elem_of_app; [by eapply Hx|].
      subst ev. simpl in Hev. injection Hev as ->. rewrite (Hm m dir eq_refl). by apply Hp.
Qed.

(** The end of a dial leaves the channel with its transaction. *)
Lemma dials_pop n trans params ev evs asked t :
  dials_ok n trans params (ev :: evs) asked → event_tid ev = Some t →
  is_Some (trans !! t) ∧ dials_ok n (delete t trans) params evs asked.
Proof.
  intros [Hdom Hdis Hnd Hle Hcb] Hev.
  assert (Homap : omap event_tid (ev :: evs) = t :: omap event_tid evs) by (simpl; by rewrite Hev).
  rewrite Homap in Hnd. setoid_rewrite Homap in Hdom. setoid_rewrite Homap in Hdis.
  apply NoDup_cons in Hnd as [Hni Hnd].
  assert (Hnp : params !! t = None).
  { apply eq_None_not_Some. intros Hs%Hdis. apply Hs. left. }
  split; [apply Hdom; right; left|]. split.
  - intros t'. rewrite lookup_delete_is_Some, Hdom, elem_of_cons.
    destruct (decide (t' = t)) as [->|]; [|naive_solver]. rewrite Hnp. split; [naive_solver|].
    intros [[? ?]|?]; done.
  - intros t' Hs Hin. apply (Hdis t' Hs). by right.
  - done.
  - intros t' [_ Hs]%lookup_delete_is_Some. by apply Hle.
  - intros t' cb [_ Hl]%lookup_delete_Some. apply Hcb in Hl as (cmd&p&?&?&?&Hx). exists cmd, p.
    split_and!; try done. intros m dir Hin. eapply Hx. right. exact Hin.
Qed.

(** **** Effects *)

Lemma answered_app l1 l2 : answered (l1 ++ l2) = answered l1 ++ answered l2.
Proof. apply omap_app. Qed.

Lemma run_effects_app sy s e1 e2 :
  run_effects sy s (e1 ++ e2) = run_effects (run_effects sy s e1) s e2.
Proof.
  unfold run_effects. simpl. f_equal; [by rewrite omap_app, assoc by apply _| |by rewrite assoc by apply _].
  rewrite omap_app, list_to_set_app_L. set_solver.
Qed.

Lemma run_effects_two sy s a b : run_effects sy s [a; b] = run_effects (run_effects sy s [a]) s [b].
Proof. exact (run_effects_app sy s [a] [b]). Qed.

Lemma run_effects_on sy s effs : run_effects sy s effs = run_effects (on_swarm s sy) s effs.
Proof. done. Qed.

Lemma inv_quiet limit pend sy effs :
  sys_inv limit pend sy → Forall (λ e, effect_rid e = None ∧ effect_open e = None ∧ effect_accept e = None) effs →
  sys_inv limit pend (run_effects sy (sy_swarm sy) effs).
Proof.
  intros Hi He.
  assert (omap effect_rid effs = [] ∧ omap effect_open effs = [] ∧ omap effect_accept effs = []) as (Hr&Ho&Ha).
  { induction He as [|e effs (H1&H2&H3) _ IH]; [done|]. simpl. by rewrite H1, H2, H3. }
  destruct Hi as [Hc Hd Hq Hf Hop Hv Hdl]. split; simpl; rewrite ?Ho, ?Ha, ?app_nil_r; try done.
  - by rewrite ?list_to_set_nil, union_empty_r_L.
  - by rewrite answered_app, (Hr : answered effs = []), app_nil_r.
Qed.

Lemma inv_reply limit pend sy e rid :
  sys_inv limit (rid :: pend) sy → effect_rid e = Some rid → effect_open e = None → effect_accept e = None →
  sys_inv limit pend (run_effects sy (sy_swarm sy) [e]).
Proof.
  intros [Hc Hd Hq Hf Hop Hv Hdl] He Ho Ha. split; simpl; rewrite ?Ho, ?Ha, ?app_nil_r; try done.
  - by rewrite ?list_to_set_nil, union_empty_r_L.
  - unfold answered. rewrite omap_app. simpl. rewrite He, Hq. unfold answered. solve_Permutation.
Qed.

Lemma inv_open limit pend sy cid pids rid p r c :
  sys_inv limit (rid :: pend) sy → (rid, NewStream p pids r rid) ∈ sy_asked sy →
  connections_by_id (sy_swarm sy) !! cid = Some c → conn_remote_peer c = p →
  sys_inv limit pend (run_effects sy (sy_swarm sy) [OpenStream cid pids rid]).
Proof.
  intros [Hc Hd Hq Hf Hop Hv Hdl] Hin Hcid Hp. split; simpl; try done.
  - by rewrite ?list_to_set_nil, union_empty_r_L.
  - rewrite answered_app, fmap_app, Hq. simpl. rewrite app_nil_r. solve_Permutation.
  - intros cid' pids' rid' [?|[= -> -> ->]%list_elem_of_singleton]%elem_of_app; [by apply Hop|].
    split; [by apply (co_id _ _ _ _ _ Hc) in Hcid as [_ ?]|]. exists p, r. split; [done|].
    intros c' Hc'. rewrite Hcid in Hc'. by injection Hc' as <-.
Qed.

Lemma inv_callback_err limit sy cb e :
  sys_inv limit [cb_rid cb] sy → sys_inv limit [] (run_effects sy (sy_swarm sy) (run_callback cb (Err e))).
Proof. intros Hi. by destruct cb; apply (inv_reply _ _ _ _ _ Hi). Qed.

Lemma inv_callback_ok limit sy cb cmd cid c :
  sys_inv limit [cb_rid cb] sy → (cb_rid cb, cmd) ∈ sy_asked sy →
  connections_by_id (sy_swarm sy) !! cid = Some c → cb_for cb cmd (conn_remote_peer c) →
  sys_inv limit [] (run_effects sy (sy_swarm sy) (run_callback cb (Ok cid))).
Proof.
  intros Hi Hin Hc Hfor. destruct cb as [rid|pids rid]; [by apply (inv_reply _ _ _ _ _ Hi)|].
  destruct Hfor as [r ->]. by eapply inv_open.
Qed.

(** **** Updates of the state *)

Definition conn_key (c : Connection) : nat * StreamMuxer := (conn_id c, stream_muxer c).

Lemma conn_key_remote (m m' : gmap nat Connection) cid c' :
  conn_key <$> m' = conn_key <$> m → m' !! cid = Some c' →
  ∃ c, m !! cid = Some c ∧ conn_remote_peer c = conn_remote_peer c'.
Proof.
  intros Heq Hc. assert (Hk := f_equal (lookup cid) Heq). rewrite !lookup_fmap, Hc in Hk.
  destruct (m !! cid) as [c|]; [|done]. injection Hk as _ Hk. exists c. unfold conn_remote_peer.
  by rewrite Hk.
Qed.

Lemma conn_key_alter f (m : gmap nat Connection) cid :
  (∀ c, conn_key (f c) = conn_key c) → conn_key <$> alter f cid m = conn_key <$> m.
Proof.
  intros Hf. apply map_eq. intros i. rewrite !lookup_fmap. destruct (decide (i = cid)) as [->|].
  - rewrite lookup_alter_eq. destruct (m !! cid); simpl; by rewrite ?Hf.
  - by rewrite lookup_alter_ne.
Qed.

Lemma inv_swarm limit pend sy s' :
  sys_inv limit pend sy →
  next_connection_id s' = next_connection_id (sy_swarm sy) →
  conn_key <$> connections_by_id s' = conn_key <$> connections_by_id (sy_swarm sy) →
  connections_by_peer s' = connections_by_peer (sy_swarm sy) →
  next_tid s' = next_tid (sy_swarm sy) → dial_transactions s' = dial_transactions (sy_swarm sy) →
  dialer s' = dialer (sy_swarm sy) → Forall valid_addr (listened_addrs s') → store_valid (peer_store s') →
  sys_inv limit pend (on_swarm s' sy).
Proof.
  intros [Hc Hd Hq Hf Hop (Hv1&Hv2&Hv3) Hdl] H1 H2 H3 H4 H5 H6 H7 H8.
  split; simpl; rewrite ?H1, ?H3, ?H4, ?H5, ?H6; try done.
  - by eapply conns_keep.
  - intros cid pids rid (?&p&r&?&Hp)%Hop. split; [done|]. exists p, r. split; [done|].
    intros c' (c&Hc0&<-)%(conn_key_remote _ _ _ _ H2). by apply Hp.
Qed.

Lemma inv_stats limit pend sy f :
  sys_inv limit pend sy → sys_inv limit pend (on_swarm (with_base_stats f (sy_swarm sy)) sy).
Proof. intros Hi. apply inv_swarm; try done; apply (sy_valid _ _ _ Hi). Qed.

Lemma inv_store limit pend sy ps :
  sys_inv limit pend sy → store_valid ps → sys_inv limit pend (on_swarm (with_peer_store ps (sy_swarm sy)) sy).
Proof. intros Hi Hp. apply inv_swarm; try done; apply (sy_valid _ _ _ Hi). Qed.

Lemma inv_addresses limit pend sy l ext :
  sys_inv limit pend sy → Forall valid_addr l →
  sys_inv limit pend (on_swarm (with_addresses l ext (sy_swarm sy)) sy).
Proof. intros Hi Hp. apply inv_swarm; try done; apply (sy_valid _ _ _ Hi). Qed.

Lemma inv_conns limit pend sy by_id :
  sys_inv limit pend sy → conn_key <$> by_id = conn_key <$> connections_by_id (sy_swarm sy) →
  sys_inv limit pend
    (on_swarm (with_connections by_id (connections_by_peer (sy_swarm sy)) (sy_swarm sy)) sy).
Proof. intros Hi Hp. apply inv_swarm; try done; apply (sy_valid _ _ _ Hi). Qed.

Lemma inv_stats_conns limit pend sy f by_id :
  sys_inv limit pend sy → conn_key <$> by_id = conn_key <$> connections_by_id (sy_swarm sy) →
  sys_inv limit pend (on_swarm (with_connections by_id (connections_by_peer (sy_swarm sy))
    (with_base_stats f (sy_swarm sy))) sy).
Proof. intros Hi Hp. apply inv_swarm; try done; apply (sy_valid _ _ _ Hi). Qed.

Lemma inv_dialer limit sy d :
  sys_inv limit [] sy → tparams d = tparams (dialer (sy_swarm sy)) → dialer_reach remote_peer limit d →
  sys_inv limit [] (on_swarm (with_dialer d (sy_swarm sy)) sy).
Proof. intros [] Ht Hr. split; simpl; try done. by rewrite Ht. Qed.

Definition with_events (evs : list SwarmEvent) (sy : System) : System :=
  mk_System (sy_swarm sy) evs (sy_opening sy) (sy_accepting sy) (sy_asked sy) (sy_log sy).

Lemma inv_pop limit sy ev evs :
  sys_inv limit [] sy → sy_events sy = ev :: evs → event_tid ev = None → event_closed ev = None →
  sys_inv limit [] (with_events evs sy).
Proof.
  intros [Hc Hd Hq Hf Hop (Hv1&Hv2&Hv3) Hdl] Hev Ht Hcl. rewrite Hev in *.
  apply Forall_cons in Hv1 as [_ Hv1]. split; simpl; try done.
  - simpl in Hc. by rewrite Hcl in Hc.
  - eapply dials_quiet; [done|simpl; by rewrite Ht|]. intros. by right.
Qed.

Lemma inv_send limit sy ev :
  sys_inv limit [] sy → event_tid ev = None → event_closed ev = None → valid_event ev →
  sys_inv limit [] (send_event ev sy).
Proof.
  intros [Hc Hd Hq Hf Hop (Hv1&Hv2&Hv3) Hdl] Ht Hcl Hv. split; simpl; try done.
  - rewrite omap_app. simpl. by rewrite Hcl, app_nil_r.
  - eapply dials_quiet; [done|rewrite omap_app; simpl; by rewrite Ht, app_nil_r|].
    intros m dir t [?|Hl%list_elem_of_singleton]%elem_of_app; [done|]. by subst ev.
  - split_and!; [|done..]. apply Forall_app. by repeat constructor.
Qed.

Lemma waiting_insert trans t cb : trans !! t = None → waiting (<[t := cb]> trans) ≡ₚ cb_rid cb :: waiting trans.
Proof. intros Ht. unfold waiting. by rewrite (map_to_list_insert _ _ _ Ht). Qed.

Lemma waiting_delete trans t cb : trans !! t = Some cb → waiting trans ≡ₚ cb_rid cb :: waiting (delete t trans).
Proof. intros Ht. unfold waiting. by rewrite <-(map_to_list_delete _ _ _ Ht). Qed.

Lemma inv_start_dial limit sy cb cmd p a :
  sys_inv limit [cb_rid cb] sy → (cb_rid cb, cmd) ∈ sy_asked sy → cb_for cb cmd p →
  (match a with Addresses l => Forall valid_addr l | DHT => True end) →
  sys_inv limit [] (on_swarm (start_dial (sy_swarm sy) p a cb) sy).
Proof.
  intros [Hc Hd Hq Hf Hop Hv Hdl] Hin Hfor Ha. set (n := next_tid (sy_swarm sy)) in *.
  assert (Hno : ¬ is_Some (dial_transactions (sy_swarm sy) !! S n)).
  { intros Hs%(di_le _ _ _ _ _ Hd). lia. }
  split; simpl; try done.
  - unfold tparams. simpl. rewrite fmap_insert. by eapply dials_start.
  - rewrite Hq, waiting_insert by (by apply eq_None_not_Some). rewrite app_nil_r.
    solve_Permutation.
  - apply reach_dial; [done| |done]. simpl. apply eq_None_not_Some. intros Hs. apply Hno.
    apply (di_dom _ _ _ _ _ Hd). left. unfold tparams. rewrite lookup_fmap. by apply fmap_is_Some.
Qed.

(** The end of a dial is handled: its transaction is taken. *)
Lemma inv_take_dial limit sy ev evs t :
  sys_inv limit [] sy → sy_events sy = ev :: evs → event_tid ev = Some t →
  ∃ cb cmd p, dial_transactions (sy_swarm sy) !! t = Some cb ∧ (cb_rid cb, cmd) ∈ sy_asked sy ∧
    cb_for cb cmd p ∧ (∀ m dir, ev = ConnectionEstablished m dir (Some t) → remote_peer m = p) ∧
    sys_inv limit [cb_rid cb] (on_swarm (with_transactions (delete t (dial_transactions (sy_swarm sy)))
      (sy_swarm sy)) (with_events evs sy)).
Proof.
  intros [Hc Hd Hq Hf Hop (Hv1&Hv2&Hv3) Hdl] Hev Ht. rewrite Hev in *.
  apply Forall_cons in Hv1 as [_ Hv1].
  destruct (dials_pop _ _ _ _ _ _ _ Hd Ht) as [[cb Hcb] Hd'].
  destruct (di_cb _ _ _ _ _ Hd _ _ Hcb) as (cmd&p&Hin&Hfor&_&Hm). exists cb, cmd, p.
  split_and!; try done; [intros m dir ->; apply (Hm m dir); left|].
  assert (Hcl : event_closed ev = None) by (by destruct ev).
  split; simpl; try done.
  - simpl in Hc. by rewrite Hcl in Hc.
  - rewrite Hq, (waiting_delete _ _ _ Hcb), app_nil_r. solve_Permutation.
Qed.

Lemma inv_add_conn limit pend sy m dir :
  sys_inv limit pend sy →
  let s := assign_cid (sy_swarm sy) in
  let c := Connection_new (next_connection_id s) m dir in
  sys_inv limit pend (run_effects sy (add_connection s c) [SpawnAccept (conn_id c)]).
Proof.
  intros [Hc Hd Hq Hf Hop Hv Hdl] s c. split; simpl; try done.
  - rewrite union_empty_r_L. by apply (conns_add _ _ _ _ _ c Hc).
  - by rewrite answered_app, !app_nil_r.
  - rewrite app_nil_r. intros cid pids rid (?&p&r&?&Hp)%Hop. split; [lia|]. exists p, r.
    split; [done|]. intros c'. rewrite lookup_insert_ne by lia. apply Hp.
Qed.

Lemma inv_del_conn limit sy cid evs :
  sys_inv limit [] sy → sy_events sy = ConnectionClosed cid :: evs →
  ∃ s', handle_connection_closed (sy_swarm sy) cid = (s', [NotifyDisconnected cid]) ∧
    sys_inv limit [] (on_swarm s' (with_events evs sy)).
Proof.
  intros [Hc Hd Hq Hf Hop (Hv1&Hv2&Hv3) Hdl] Hev. rewrite Hev in *.
  apply Forall_cons in Hv1 as [_ Hv1]. simpl in Hc.
  assert (is_Some (connections_by_id (sy_swarm sy) !! cid)) as [c Hcid].
  { apply (co_alive _ _ _ _ _ Hc). right. left. }
  unfold handle_connection_closed. simpl. rewrite Hcid. eexists. split; [done|].
  split; simpl; try done.
  - by apply conns_close.
  - eapply dials_quiet; [done|done|]. intros. by right.
  - intros cid' pids rid (?&p&r&?&Hp)%Hop. split; [done|]. exists p, r. split; [done|].
    intros c' [_ Hl]%lookup_delete_Some. by apply Hp.
Qed.

(** **** Addresses *)

Lemma store_valid_alter ps p f :
  store_valid ps → (∀ pr, sp_addrs (f pr) = sp_addrs pr) → store_valid (alter f p ps).
Proof.
  intros Hv Hf q pr. destruct (decide (q = p)) as [->|].
  - rewrite lookup_alter_eq. destruct (ps !! p) eqn:E; [|done]. intros [= <-]. rewrite Hf. by eapply Hv.
  - rewrite lookup_alter_ne by done. apply Hv.
Qed.

Lemma put_addrs_valid now ttl l rs :
  Forall valid_addr l → Forall (λ r, valid_addr (ab_addr r)) rs →
  Forall (λ r, valid_addr (ab_addr r)) (foldl (put_addr now ttl) rs l).
Proof.
  intros Hl. revert rs. induction Hl as [|a l Ha _ IH]; [done|]. intros rs Hrs. simpl. apply IH.
  unfold put_addr. case_match.
  - apply Forall_alter; [done|]. intros r _ Hr. exact Hr.
  - apply Forall_app. split; [done|]. by repeat constructor.
Qed.

Lemma add_addrs_valid now ps p l ttl : store_valid ps → Forall valid_addr l → store_valid (add_addrs now ps p l ttl).
Proof.
  intros Hv Hl q pr. unfold add_addrs. destruct (ps !! p) as [pr0|] eqn:E;
    (destruct (decide (q = p)) as [->|]; [rewrite lookup_insert_eq; intros [= <-]; simpl|
      rewrite lookup_insert_ne by done; apply Hv]).
  - apply put_addrs_valid; [done|by eapply Hv].
  - by apply Forall_fmap.
Qed.

Lemma add_protocols_valid ps p l : store_valid ps → store_valid (add_protocols ps p l).
Proof.
  intros Hv q pr. unfold add_protocols. destruct (ps !! p) as [pr0|] eqn:E;
    (destruct (decide (q = p)) as [->|]; [rewrite lookup_insert_eq; intros [= <-]; simpl|
      rewrite lookup_insert_ne by done; apply Hv]); [by eapply Hv|done].
Qed.

Lemma translate_all_valid l observed :
  Forall valid_addr l → valid_addr observed → is_Some (translate_all l observed).
Proof.
  intros Hl [qs Hq]. induction Hl as [|a l [ps Ha] _ [l' IH]]; [by eexists|]. simpl.
  destruct (translation_refines a ps observed qs Ha Hq) as (r&->&_). cbn [mbind option_bind].
  rewrite IH. by eexists.
Qed.

(** **** The best connection *)

Lemma best_fold by_id ids acc :
  let r := foldl (best_step by_id) acc ids in
  acc.1 ≤ r.1 ∧
  (r = acc ∨ ∃ id c, r.2 = Some id ∧ id ∈ ids ∧ by_id !! id = Some c ∧ num_streams c = r.1) ∧
  (∀ id c, id ∈ ids → by_id !! id = Some c → num_streams c ≤ r.1).
Proof.
  revert acc. induction ids as [|id ids IH]; intros acc; cbn -[best_step].
  { split_and!; [lia|by left|]. by intros ? ? ?%elem_of_nil. }
  destruct (IH (best_step by_id acc id)) as (Hle&Hr&Hall). set (r := foldl _ _ ids) in *.
  assert (acc.1 ≤ (best_step by_id acc id).1 ∧
    (best_step by_id acc id = acc ∨ ∃ c, by_id !! id = Some c ∧ best_step by_id acc id = (num_streams c, Some id)) ∧
    ∀ c, by_id !! id = Some c → num_streams c ≤ (best_step by_id acc id).1) as (H1&H2&H3).
  { unfold best_step. destruct (by_id !! id) as [c|]; [case_decide|]; split_and!; simpl; try lia; try done;
      try (by left); try (right; by eexists); intros c' [= <-]; simpl; lia. }
  split_and!; [lia| |].
  - destruct Hr as [Hr|(x&c&?&?&?&?)]; [|right; exists x, c; split_and!; try done; by right].
    rewrite Hr. destruct H2 as [->|(c&Hc&->)]; [by left|]. right. exists id, c. split_and!; try done. left.
  - intros x c [->|Hx]%elem_of_cons Hc; [specialize (H3 c Hc); lia|by eapply Hall].
Qed.

Lemma best_fold_some by_id ids acc :
  (is_Some acc.2 ∨ ∃ id c, id ∈ ids ∧ by_id !! id = Some c ∧ acc.1 = 0) →
  is_Some (foldl (best_step by_id) acc ids).2.
Proof.
  revert acc. induction ids as [|id ids IH]; intros acc; cbn -[best_step].
  { intros [?|(?&?&?%elem_of_nil&_)]; done. }
  intros Hor. apply IH. unfold best_step. destruct (by_id !! id) as [c|] eqn:Hid.
  - case_decide; [left; by eexists|]. destruct Hor as [?|(?&?&_&_&?)]; [by left|lia].
  - destruct Hor as [?|(x&c&[->|?]%elem_of_cons&Hc&?)]; [by left|congruence|]. right. eauto.
Qed.

(** The connection with the most streams, [None] exactly when there is none. *)
Lemma get_best_conn_spec n s acc closed p :
  conns_ok n (connections_by_id s) (connections_by_peer s) acc closed →
  match get_best_conn s p with
  | Some c =>
      connections_by_id s !! conn_id c = Some c ∧ conn_remote_peer c = p ∧ is_connected s p = true ∧
      ∀ cid c', connections_by_id s !! cid = Some c' → conn_remote_peer c' = p → num_streams c' ≤ num_streams c
  | None =>
      is_connected s p = false ∧
      ∀ cid c', connections_by_id s !! cid = Some c' → conn_remote_peer c' ≠ p
  end.
Proof.
  intros Hc. unfold get_best_conn, is_connected. pose proof (co_peer _ _ _ _ _ Hc p) as Hp.
  destruct (connections_by_peer s !! p) as [ids|] eqn:Hids; simpl in Hp.
  - pose proof (co_nodup _ _ _ _ _ Hc _ _ Hids) as [Hne _].
    assert (Hlen : 0 < length ids) by (destruct ids; [done|simpl; lia]).
    assert (is_Some (foldl (best_step (connections_by_id s)) (0, None) ids).2) as [id Hid].
    { apply best_fold_some. right. destruct ids as [|id ids]; [done|].
      destruct (proj1 (Hp id)) as (c&?&_); [left|]. exists id, c. split_and!; [left|done..]. }
    destruct (best_fold (connections_by_id s) ids (0, None)) as (_&Hr&Hall).
    set (r := foldl _ _ ids) in *. rewrite Hid. simpl.
    destruct Hr as [Hr|(x&c&Hx&Hin&Hcx&Hn)]; [by rewrite Hr in Hid|].
    rewrite Hid in Hx. injection Hx as <-. rewrite Hcx.
    destruct (proj1 (Hp id) Hin) as (c'&?&Hrp). simplify_eq.
    pose proof (co_id _ _ _ _ _ Hc _ _ Hcx) as [-> _]. split_and!; try done; [by apply bool_decide_eq_true|].
    intros cid c' Hc' Hp'. rewrite Hn. apply (Hall cid); [|done]. apply Hp. eauto.
  - simpl. split; [done|]. intros cid c' Hc' Hp'. apply (elem_of_nil cid), Hp. eauto.
Qed.

(** **** Commands *)

Lemma inv_dial_peer limit sy cb cmd p r :
  sys_inv limit [cb_rid cb] sy → (cb_rid cb, cmd) ∈ sy_asked sy → cb_for cb cmd p →
  ∃ s' effs, dial_peer (sy_swarm sy) p r cb = Some (s', effs) ∧ sys_inv limit [] (run_effects sy s' effs).
Proof.
  intros Hi Hin Hfor. unfold dial_peer. case_decide.
  { eexists _, _. split; [done|]. by apply inv_callback_err. }
  assert (Hdht : ∃ s' effs, (if r && routing (sy_swarm sy)
      then Some (start_dial (sy_swarm sy) p DHT cb, [])
      else Some (sy_swarm sy, run_callback cb (Err (NoAddresses p)))) = Some (s', effs) ∧
      sys_inv limit [] (run_effects sy s' effs)).
  { destruct (r && routing (sy_swarm sy)); eexists _, _; (split; [done|]).
    - rewrite run_effects_on. apply (inv_quiet _ _ (on_swarm _ sy)); [|done]. by eapply inv_start_dial.
    - by apply inv_callback_err. }
  destruct (get_addrs (peer_store (sy_swarm sy)) p) as [[|a l]|] eqn:Hl; [done| |done].
  assert (Hv : Forall valid_addr (a :: l)).
  { unfold get_addrs in Hl. destruct (peer_store (sy_swarm sy) !! p) as [pr|] eqn:Hpr; [|done].
    injection Hl as <-. apply Forall_fmap. destruct (sy_valid _ _ _ Hi) as (_&_&Hs). by eapply Hs. }
  assert (∃ l1, (if sw_filter_private (sy_swarm sy) then filter_not is_private_addr (a :: l)
      else Some (a :: l)) = Some l1 ∧ Forall valid_addr l1) as (l1&->&Hv1).
  { destruct (sw_filter_private _); [|eauto]. apply filter_not_valid; [|done]. intros x Hx. by apply valid_accessors. }
  cbn [mbind option_bind].
  assert (∃ l2, (if sw_filter_loopback (sy_swarm sy) then filter_not is_loopback_addr l1
      else Some l1) = Some l2 ∧ Forall valid_addr l2) as (l2&->&Hv2).
  { destruct (sw_filter_loopback _); [|eauto]. apply filter_not_valid; [|done]. intros x Hx. by apply valid_accessors. }
  cbn [mbind option_bind]. eexists _, _. split; [done|].
  rewrite run_effects_on. apply (inv_quiet _ _ (on_swarm _ sy)); [|done]. by eapply inv_start_dial.
Qed.

Lemma inv_dial_addr limit now sy cb cmd p l s' effs :
  sys_inv limit [cb_rid cb] sy → (cb_rid cb, cmd) ∈ sy_asked sy → cb_for cb cmd p → Forall valid_addr l →
  dial_addr now (sy_swarm sy) p l cb = (s', effs) → sys_inv limit [] (run_effects sy s' effs).
Proof.
  intros Hi Hin Hfor Hl. unfold dial_addr. case_decide.
  { intros [= <- <-]. by apply inv_callback_err. }
  intros [= <- <-]. rewrite run_effects_on. apply (inv_quiet _ _ (on_swarm _ sy)); [|done].
  destruct (sy_valid _ _ _ Hi) as (_&_&Hs).
  pose proof (inv_store _ _ _ _ Hi (add_addrs_valid now _ p l ADDRESS_TTL Hs Hl)) as Hi'.
  exact (inv_start_dial _ _ cb cmd p (Addresses l) Hi' Hin Hfor Hl).
Qed.

Lemma close_all_key ids (m : gmap nat Connection) :
  conn_key <$> foldl (λ m id, alter conn_close id m) m ids = conn_key <$> m.
Proof.
  revert m. induction ids as [|id ids IH]; [done|]. intros m. simpl. rewrite IH. by apply conn_key_alter.
Qed.

Definition ask (sy : System) (cmd : SwarmControlCmd) : System :=
  mk_System (sy_swarm sy) (sy_events sy) (sy_opening sy) (sy_accepting sy)
    (sy_asked sy ++ match cmd_rid cmd with Some rid => [(rid, cmd)] | None => [] end) (sy_log sy).

Lemma inv_ask limit sy cmd :
  sys_inv limit [] sy → (∀ rid, cmd_rid cmd = Some rid → rid ∉ (sy_asked sy).*1) →
  sys_inv limit (match cmd_rid cmd with Some rid => [rid] | None => [] end) (ask sy cmd).
Proof.
  intros [Hc Hd Hq Hf Hop Hv Hdl] Hfresh. unfold ask. destruct (cmd_rid cmd) as [rid|] eqn:Hr.
  - split; simpl; try done.
    + by apply dials_ask.
    + rewrite fmap_app, Hq, app_nil_r. simpl. solve_Permutation.
    + rewrite fmap_app. apply NoDup_app. split_and!; [done| |apply NoDup_singleton].
      intros x Hx ->%list_elem_of_singleton. by apply (Hfresh rid).
    + intros cid pids rid' (?&p&r&?&?)%Hop. split; [done|]. exists p, r.
      split; [apply elem_of_app; by left|done].
  - rewrite app_nil_r. by split.
Qed.

Lemma inv_command limit now sy cmd :
  sys_inv limit [] sy → action_ok sy (ACommand now cmd) →
  ∃ s' effs, on_command now (sy_swarm sy) cmd = Some (s', effs) ∧
    sys_inv limit [] (run_effects (ask sy cmd) s' effs).
Proof.
  intros Hi0 [Hvalid Hfresh]. pose proof (inv_ask _ _ _ Hi0 Hfresh) as Hi.
  assert (Hin : ∀ rid, cmd_rid cmd = Some rid → (rid, cmd) ∈ sy_asked (ask sy cmd)).
  { intros rid Hr. simpl. rewrite Hr. apply elem_of_app. right. by apply list_elem_of_singleton. }
  set (sy1 := ask sy cmd) in *. change (sy_swarm sy) with (sy_swarm sy1).
  pose proof (λ p, get_best_conn_spec _ _ _ _ p (sy_conns _ _ _ Hi)) as Hbest.
  destruct cmd as [p l rid|p r rid|p rid|p pids r rid|cid sid|rid|rid|p rid]; simpl in Hi, Hin;
    try specialize (Hin _ eq_refl); cbn [on_command].
  - destruct (on_connect now (sy_swarm sy1) p l rid) as [s' effs] eqn:Hon. exists s', effs. split; [done|].
    unfold on_connect in Hon. destruct (get_best_conn (sy_swarm sy1) p).
    + injection Hon as <- <-. by apply (inv_reply _ _ _ _ _ Hi).
    + eapply (inv_dial_addr _ _ sy1 (CbReply rid)); try done. left. by eexists.
  - unfold on_new_connection. destruct (get_best_conn (sy_swarm sy1) p).
    + eexists _, _. split; [done|]. by apply (inv_reply _ _ _ _ _ Hi).
    + eapply (inv_dial_peer _ sy1 (CbReply rid)); try done. right. by eexists.
  - unfold on_close_connection. destruct (connections_by_peer (sy_swarm sy1) !! p) as [ids|].
    + eexists _, _. split; [done|]. rewrite run_effects_app, (run_effects_on sy1).
      eapply (inv_reply _ _ (run_effects _ _ _)); try done.
      apply (inv_quiet _ _ (on_swarm _ sy1)); [|apply Forall_fmap; by apply Forall_true].
      apply inv_conns; [done|]. apply close_all_key.
    + eexists _, _. split; [done|]. by apply (inv_reply _ _ _ _ _ Hi).
  - unfold on_new_stream. specialize (Hbest p). destruct (get_best_conn (sy_swarm sy1) p) as [c|].
    + destruct Hbest as (Hc&Hp&_). eexists _, _. split; [done|]. by eapply inv_open.
    + eapply (inv_dial_peer _ sy1 (CbNewStream pids rid)); try done. by eexists.
  - eexists _, _. split; [done|]. rewrite run_effects_on.
    apply (inv_quiet _ _ (on_swarm _ sy1)); [|done].
    apply inv_stats_conns; [done|]. by apply conn_key_alter.
  - eexists _, _. split; [done|]. by apply (inv_reply _ _ _ _ _ Hi).
  - eexists _, _. split; [done|]. by apply (inv_reply _ _ _ _ _ Hi).
  - eexists _, _. split; [done|]. by apply (inv_reply _ _ _ _ _ Hi).
Qed.

(** **** Events *)

Lemma inv_opened limit sy m dir t evs :
  sys_inv limit [] sy → sy_events sy = ConnectionEstablished m dir t :: evs →
  ∃ s' effs, handle_connection_opened (sy_swarm sy) m dir t = Some (s', effs) ∧
    sys_inv limit [] (run_effects (with_events evs sy) s' effs).
Proof.
  intros Hi Hev. unfold handle_connection_opened. destruct t as [t|].
  - destruct (inv_take_dial _ _ _ _ t Hi Hev eq_refl) as (cb&cmd&p&Hcb&Hin&Hfor&Hm&Hi').
    cbn [dial_transactions with_base_stats assign_cid]. rewrite Hcb. cbn [mbind option_bind].
    eexists _, _. split; [done|]. set (f := λ b : SwarmBaseStats, mk_SwarmBaseStats _ _ _ _ _ _ _ _ _ _).
    apply (inv_stats _ _ _ f), (inv_add_conn _ _ _ m dir) in Hi'.
    apply (inv_quiet _ _ _ [NotifyConnected (S (next_connection_id (sy_swarm sy)))]) in Hi';
      [|by repeat constructor].
    rewrite (run_effects_app _ _ [_; _]), run_effects_two.
    eapply (inv_callback_ok _ _ _ _ _ (Connection_new (S (next_connection_id (sy_swarm sy))) m dir)) in Hi';
      [exact Hi'|exact Hin|apply lookup_insert_eq|].
    unfold conn_remote_peer. simpl. by rewrite (Hm _ _ eq_refl).
  - eexists _, _. split; [done|]. apply (inv_pop _ _ _ _ Hi) in Hev; [|done..].
    set (f := λ b : SwarmBaseStats, mk_SwarmBaseStats _ _ _ _ _ _ _ _ _ _).
    apply (inv_stats _ _ _ f), (inv_add_conn _ _ _ m dir) in Hev.
    apply (inv_quiet _ _ _ [NotifyConnected (S (next_connection_id (sy_swarm sy)))]) in Hev;
      [|by repeat constructor].
    rewrite run_effects_two. exact Hev.
Qed.

Lemma inv_dial_error limit sy p e t evs :
  sys_inv limit [] sy → sy_events sy = OutgoingConnectionError p e t :: evs →
  ∃ s' effs, handle_outgoing_connection_error (sy_swarm sy) e t = Some (s', effs) ∧
    sys_inv limit [] (run_effects (with_events evs sy) s' effs).
Proof.
  intros Hi Hev. unfold handle_outgoing_connection_error.
  destruct (inv_take_dial _ _ _ _ t Hi Hev eq_refl) as (cb&cmd&p'&Hcb&_&_&_&Hi').
  cbn [dial_transactions with_base_stats]. rewrite Hcb. cbn [mbind option_bind].
  eexists _, _. split; [done|]. set (f := λ b : SwarmBaseStats, mk_SwarmBaseStats _ _ _ _ _ _ _ _ _ _).
  apply (inv_stats _ _ _ f) in Hi'. exact (inv_callback_err _ _ _ e Hi').
Qed.

Lemma inv_identify limit now sy cid r :
  sys_inv limit [] sy → valid_event (IdentifyResult cid r) →
  ∃ s' effs, handle_identify_result now (sy_swarm sy) cid r = Some (s', effs) ∧
    sys_inv limit [] (run_effects sy s' effs).
Proof.
  intros Hi Hv. unfold handle_identify_result.
  assert (Hnil : sys_inv limit [] (run_effects sy (sy_swarm sy) [])) by by apply inv_quiet.
  destruct (connections_by_id (sy_swarm sy) !! cid) as [c|]; [|by eexists _, _].
  destruct r as [[info obs]|e]; [|by eexists _, _]. destruct Hv as [Hl Ho].
  destruct (sy_valid _ _ _ Hi) as (_&Hla&Hst).
  destruct (translate_all_valid (listened_addrs (sy_swarm sy)) obs Hla Ho) as [l Htr].
  unfold handle_observed_address, swarm_address_translation. rewrite Htr. cbn [mbind option_bind].
  eexists _, _. split; [done|]. rewrite run_effects_on.
  apply (inv_quiet _ _ (on_swarm _ sy)); [|by repeat constructor].
  apply inv_swarm; try done. apply add_protocols_valid, store_valid_alter; [|done].
  by apply add_addrs_valid.
Qed.

Lemma inv_event limit now sy ev evs :
  sys_inv limit [] sy → sy_events sy = ev :: evs →
  ∃ s' effs, on_event now (sy_swarm sy) ev = Some (s', effs) ∧
    sys_inv limit [] (run_effects (with_events evs sy) s' effs).
Proof.
  intros Hi Hev. assert (Hva : valid_event ev).
  { destruct (sy_valid _ _ _ Hi) as (Hva&_). rewrite Hev in Hva. by apply Forall_cons in Hva as [? _]. }
  destruct (sy_valid _ _ _ Hi) as (_&Hla&_).
  pose proof (inv_pop _ _ _ _ Hi Hev) as Hpop. set (sy1 := with_events evs sy) in *.
  assert (Hquiet : ∀ s' effs, sys_inv limit [] (on_swarm s' sy1) →
    Forall (λ e, effect_rid e = None ∧ effect_open e = None ∧ effect_accept e = None) effs →
    ∃ s'' effs', Some (s', effs) = Some (s'', effs') ∧ sys_inv limit [] (run_effects sy1 s'' effs')).
  { intros s' effs Hs He. exists s', effs. split; [done|]. rewrite run_effects_on.
    by apply (inv_quiet _ _ (on_swarm s' sy1)). }
  destruct ev as [m dir t|cid|cid dir|view| |p e t|a|a| |cid r|cid r]; cbn [on_event].
  - by apply inv_opened.
  - destruct (inv_del_conn _ _ _ _ Hi Hev) as (s'&->&Hi'). apply Hquiet; [done|by repeat constructor].
  - apply Hquiet; [|done]. apply (inv_stats _ _ sy1). by apply Hpop.
  - apply Hquiet; [|done]. apply (inv_stats_conns _ _ sy1); [by apply Hpop|]. by apply conn_key_alter.
  - apply Hquiet; [|done]. apply (inv_stats _ _ sy1). by apply Hpop.
  - by eapply inv_dial_error.
  - case_decide; apply Hquiet; [by apply Hpop|done| |by repeat constructor].
    apply (inv_addresses _ _ sy1); [by apply Hpop|]. apply Forall_app. by repeat constructor.
  - destruct (position _ _); apply Hquiet; [|by repeat constructor|by apply Hpop|done].
    apply (inv_addresses _ _ sy1); [by apply Hpop|]. by apply Forall_delete.
  - apply Hquiet; [by apply Hpop|done].
  - unfold handle_ping_result. destruct (connections_by_id (sy_swarm sy) !! cid) as [c|] eqn:Hc;
      [|apply Hquiet; [by apply Hpop|done]].
    destruct r; apply Hquiet; [by apply Hpop|done| |by repeat constructor].
    apply (inv_conns _ _ sy1); [by apply Hpop|]. rewrite fmap_insert. apply insert_id.
    subst sy1. simpl. by rewrite lookup_fmap, Hc.
  - apply (inv_identify _ now sy1); [by apply Hpop|done].
Qed.

(** **** Steps *)

Lemma inv_open_end limit sy i cid pids rid r ev :
  sys_inv limit [] sy → sy_opening sy !! i = Some (cid, pids, rid) →
  event_tid ev = None → event_closed ev = None → valid_event ev →
  sys_inv limit [] (mk_System (sy_swarm sy) (sy_events sy ++ [ev]) (delete i (sy_opening sy))
    (sy_accepting sy) (sy_asked sy) (sy_log sy ++ [ReplyStream rid r])).
Proof.
  intros Hi Hop Ht Hc Hv. apply (inv_send _ _ ev) in Hi; [|done..].
  destruct Hi as [H1 H2 Hq H4 H5 H6 H7]. pose proof (delete_Permutation _ _ _ Hop) as Hdel.
  assert (Hdel2 : (sy_opening sy).*2 ≡ₚ rid :: (delete i (sy_opening sy)).*2).
  { exact (fmap_Permutation snd _ _ Hdel). }
  split; try done.
  - simpl in *. rewrite Hq, answered_app, Hdel2. simpl. solve_Permutation.
  - intros cid' pids' rid' Hin. apply H5. simpl in *. rewrite Hdel. by right.
Qed.

Lemma sys_step_inv limit sy a sy' :
  sys_inv limit [] sy → action_ok sy a → sys_step sy a = Some sy' → sys_inv limit [] sy'.
Proof.
  intros Hi Ha Hs.
  destruct a as [now cmd|now|now found t|out j|now|t|i r|cid r dir|cid|ev|ps]; cbn [sys_step] in Hs.
  - destruct (inv_command _ _ _ _ Hi Ha) as (s'&effs&Hc&Hi'). rewrite Hc in Hs. by injection Hs as <-.
  - destruct (sy_events sy) as [|ev evs] eqn:Hev; [done|].
    destruct (inv_event _ now _ _ _ Hi Hev) as (s'&effs&He&Hi'). rewrite He in Hs. by injection Hs as <-.
  - destruct (task_step _ _ _ _ _) as [d|] eqn:Hd; [|done]. injection Hs as <-. destruct Ha as [Hsm Hf].
    apply inv_dialer; [done|by eapply task_step_params|]. eapply reach_task; try done. apply Hi.
  - destruct (job_step _ _ _) as [d|] eqn:Hd; [|done]. injection Hs as <-.
    apply inv_dialer; [done|by eapply job_step_params|]. eapply reach_job; [apply Hi|done].
  - destruct (cleanup_step _ _) as [d|] eqn:Hd; [|done]. injection Hs as <-.
    apply inv_dialer; [done|by eapply cleanup_step_params|]. eapply reach_cleanup; [apply Hi|done].
  - destruct (tasks _ !! t) as [task|] eqn:Ht; [|done]. cbn [mbind option_bind] in Hs.
    destruct (dt_phase task) as [| | | |r|] eqn:Hph; try done. injection Hs as <-.
    pose proof (dialer_reach_inv _ _ _ (sy_dialer _ _ _ Hi)) as Hdi.
    destruct (inv_tasks _ _ _ Hdi _ _ Ht) as (Htid&_&_&Hok). unfold dial_end_event. rewrite Htid.
    unfold phase_ok in Hok. rewrite Hph in Hok.
    destruct Hi as [H1 H2 H3 H4 H5 (H6&H7&H8) H9]. split; simpl; try done.
    + rewrite omap_app. by destruct r; simpl; rewrite app_nil_r.
    + unfold tparams. simpl. rewrite fmap_delete. eapply dials_end; [done| |by destruct r|].
      * unfold tparams. by rewrite lookup_fmap, Ht.
      * intros m dir Hm. destruct r; [|done]. by injection Hm as -> _.
    + split_and!; [|done..]. apply Forall_app. split; [done|]. by repeat constructor; destruct r.
    + by apply reach_reap.
  - destruct (sy_opening sy !! i) as [[[cid pids] rid]|] eqn:Hop; [|done]. injection Hs as <-.
    by eapply inv_open_end; try done; destruct r.
  - case_decide; [|done]. injection Hs as <-. by apply inv_send; try done; destruct r.
  - case_decide as Hacc; [|done]. injection Hs as <-.
    destruct Hi as [H1 H2 H3 H4 H5 (H6&H7&H8) H9]. split; simpl; try done.
    + rewrite omap_app. by apply conns_end.
    + eapply dials_quiet; [done|rewrite omap_app; apply app_nil_r|].
      intros m dir t [?|Hl%list_elem_of_singleton]%elem_of_app; done.
    + split_and!; [|done..]. apply Forall_app. by repeat constructor.
  - injection Hs as <-. apply inv_send; [done|..]; destruct ev; simpl in Ha; try done; naive_solver.
  - injection Hs as <-. by apply inv_store.
Qed.

Lemma listen_loop_inv limit listen s addrs k k' s' :
  (∀ a a', listen a = Some (Some a') → valid_addr a') → sys_inv limit [] (System_new s) →
  listen_loop listen s addrs k = Some (k', s') → sys_inv limit [] (System_new s').
Proof.
  intros Hl. revert s k. induction addrs as [|a addrs IH]; intros s k Hi Hs; [by injection Hs as _ <-|].
  simpl in Hs. destruct (add_listen_addr listen s a) as [[ok s1]|] eqn:Ha; [|done].
  cbn [mbind option_bind] in Hs. eapply IH; [|exact Hs]. clear Hs IH. unfold add_listen_addr in Ha.
  destruct (lookup_by_addr _ _) as [[t|]|]; [|by injection Ha as _ <-|done]. cbn [mbind option_bind] in Ha.
  destruct (listen a) as [[a'|]|] eqn:Hla; injection Ha as _ <-; try done.
  apply (inv_addresses _ _ (System_new s)); [done|]. apply Forall_app.
  split; [apply (sy_valid _ _ _ Hi)|]. repeat constructor. by eapply Hl.
Qed.

Lemma swarm_built_inv limit s : swarm_built limit s → sys_inv limit [] (System_new s).
Proof.
  induction 1 as [ps local attempts Hps|protocols t s s' _ IH Hs|s _ IH|b s _ IH|b s _ IH|p s _ IH|p s _ IH
    |listen s addrs r s' _ IH Hl Hs]; try by destruct IH; split.
  - split; simpl; try done.
    + split; simpl; try done; try set_solver; try apply NoDup_nil_2.
      intros cid. rewrite lookup_empty. split; [by intros []|set_solver].
    + unfold tparams. simpl. rewrite fmap_empty. split; simpl; try apply NoDup_nil_2.
      * intros t. rewrite !lookup_empty. split; [by intros []|intros [[]|]; set_solver].
      * intros t _. apply not_elem_of_nil.
      * intros t. rewrite lookup_empty. by intros [].
      * intros t cb. by rewrite lookup_empty.
    + apply NoDup_nil_2.
    + by intros ? ? ? ?%elem_of_nil.
    + constructor.
  - unfold with_transport in Hs. destruct protocols; [done|]. destruct (forallb _ _); [|done].
    injection Hs as <-. by destruct IH; split.
  - unfold listen_on in Hs. destruct addrs as [|a addrs]; [by injection Hs as _ <-|].
    destruct (listen_loop _ _ _ _) as [[k s1]|] eqn:Hloop; [|done]. cbn [mbind option_bind] in Hs.
    eapply listen_loop_inv in Hloop; [|done..]. case_decide; by injection Hs as _ <-.
Qed.

Lemma system_reach_inv limit sy : system_reach limit sy → sys_inv limit [] sy.
Proof.
  induction 1 as [s Hs|sy a sy' _ IH Ha Hs]; [by apply swarm_built_inv|by eapply sys_step_inv].
Qed.

(** ** Theorems *)

(** [C7] The two tables of connections agree in every state of the system: a
    connection is listed under its own number, and once, in the list of its remote
    peer; no list is empty; and the connections of the table are those whose accept
    loop runs or whose end is in the event channel, so that the branches of
    [handle_connection_closed] marked as impossible are. *)
Theorem swarm_tables limit sy :
  system_reach limit sy →
  let s := sy_swarm sy in
  (∀ cid c, connections_by_id s !! cid = Some c →
    conn_id c = cid ∧ ∃ ids, connections_by_peer s !! conn_remote_peer c = Some ids ∧ cid ∈ ids) ∧
  (∀ p ids, connections_by_peer s !! p = Some ids → ids ≠ [] ∧ NoDup ids ∧
    ∀ cid, cid ∈ ids → ∃ c, connections_by_id s !! cid = Some c ∧ conn_remote_peer c = p) ∧
  (∀ cid, is_Some (connections_by_id s !! cid) ↔
    cid ∈ sy_accepting sy ∨ ConnectionClosed cid ∈ sy_events sy) ∧
  (∀ cid, cid ∈ sy_accepting sy → ConnectionClosed cid ∉ sy_events sy).
Proof.
  intros Hi%system_reach_inv s. pose proof (sy_conns _ _ _ Hi) as Hc.
  assert (Hev : ∀ cid, ConnectionClosed cid ∈ sy_events sy ↔ cid ∈ omap event_closed (sy_events sy)).
  { intros cid. rewrite list_elem_of_omap. split; [by eexists|]. intros (ev&?&He).
    destruct ev; try done. by injection He as ->. }
  split_and!.
  - intros cid c Hcid. split; [by apply (co_id _ _ _ _ _ Hc)|].
    pose proof (proj2 (co_peer _ _ _ _ _ Hc (conn_remote_peer c) cid)) as Hp.
    specialize (Hp (ex_intro _ c (conj Hcid eq_refl))).
    destruct (connections_by_peer (sy_swarm sy) !! _) as [ids|] eqn:Hids; [|by apply elem_of_nil in Hp].
    by exists ids.
  - intros p ids Hids. destruct (co_nodup _ _ _ _ _ Hc _ _ Hids). split_and!; [done..|].
    intros cid Hin. apply (co_peer _ _ _ _ _ Hc). change s with (sy_swarm sy) in Hids. by rewrite Hids.
  - intros cid. rewrite Hev. apply Hc.
  - intros cid. rewrite Hev. apply Hc.
Qed.

(** The choice of a connection: a peer with connections in the table gets the
    one with the most streams, which is a connection to that peer, and there is no
    choice exactly when there is no connection to the peer. *)
Theorem best_connection limit sy p :
  system_reach limit sy →
  match get_best_conn (sy_swarm sy) p with
  | Some c =>
      connections_by_id (sy_swarm sy) !! conn_id c = Some c ∧ conn_remote_peer c = p ∧
      is_connected (sy_swarm sy) p = true ∧
      ∀ cid c', connections_by_id (sy_swarm sy) !! cid = Some c' → conn_remote_peer c' = p →
        num_streams c' ≤ num_streams c
  | None =>
      is_connected (sy_swarm sy) p = false ∧
      ∀ cid c', connections_by_id (sy_swarm sy) !! cid = Some c' → conn_remote_peer c' ≠ p
  end.
Proof. intros Hi%system_reach_inv. eapply get_best_conn_spec, Hi. Qed.

(** [C8] The main loop never panics: every command and the next event of the
    channel are handled, in particular the transaction of a dial that ends is
    always found. *)
Theorem swarm_never_panics limit sy now :
  system_reach limit sy →
  (∀ cmd, action_ok sy (ACommand now cmd) → is_Some (on_command now (sy_swarm sy) cmd)) ∧
  (∀ ev evs, sy_events sy = ev :: evs → is_Some (on_event now (sy_swarm sy) ev)).
Proof.
  intros Hi%system_reach_inv. split.
  - intros cmd Ha. destruct (inv_command _ _ _ _ Hi Ha) as (?&?&->&_). by eexists.
  - intros ev evs Hev. destruct (inv_event _ now _ _ _ Hi Hev) as (?&?&->&_). by eexists.
Qed.

(** [C4] Every request is answered exactly once: the requests are, without
    repetition, those that have been answered, those whose stream is being opened
    and those that wait for a dial. *)
Theorem requests_answered_once limit sy :
  system_reach limit sy →
  NoDup (sy_asked sy).*1 ∧
  (sy_asked sy).*1 ≡ₚ
    answered (sy_log sy) ++ (sy_opening sy).*2 ++ waiting (dial_transactions (sy_swarm sy)).
Proof.
  intros Hi%system_reach_inv. split; [apply (sy_fresh _ _ _ Hi)|].
  pose proof (sy_requests _ _ _ Hi) as Hq. by rewrite app_nil_r in Hq.
Qed.


(** *** Replies *)

Lemma add_connection_connected s c : is_connected (add_connection s c) (conn_remote_peer c) = true.
Proof.
  unfold is_connected. simpl. rewrite lookup_insert_eq. apply bool_decide_eq_true. simpl.
  rewrite length_app. simpl. lia.
Qed.

(** A positive answer to a request to connect. *)
Definition connects (cmd : SwarmControlCmd) (p : PeerId) (rid : nat) : Prop :=
  (∃ addrs, cmd = Connect p addrs rid) ∨ ∃ r, cmd = NewConnection p r rid.

Lemma asked_unique sy limit rid cmd cmd' :
  sys_inv limit [] sy → (rid, cmd) ∈ sy_asked sy → (rid, cmd') ∈ sy_asked sy → cmd = cmd'.
Proof.
  intros Hi [i Hi1]%list_elem_of_lookup_1 [j Hj]%list_elem_of_lookup_1.
  assert (i = j) as <-; [|congruence].
  apply (proj1 (NoDup_alt _) (sy_fresh _ _ _ Hi) i j rid); by rewrite list_lookup_fmap, ?Hi1, ?Hj.
Qed.

Lemma run_callback_err_no_ok cb e rid : ReplyUnit rid (Ok tt) ∉ run_callback cb (Err e).
Proof. destruct cb; simpl; by intros ?%list_elem_of_singleton. Qed.

Lemma dial_addr_no_ok now s p l cb s' effs rid :
  dial_addr now s p l cb = (s', effs) → ReplyUnit rid (Ok tt) ∉ effs.
Proof.
  unfold dial_addr. case_decide; intros [= _ <-]; [apply run_callback_err_no_ok|apply not_elem_of_nil].
Qed.

Lemma dial_peer_no_ok s p r cb s' effs rid :
  dial_peer s p r cb = Some (s', effs) → ReplyUnit rid (Ok tt) ∉ effs.
Proof.
  unfold dial_peer. case_decide; [intros [= _ <-]; apply run_callback_err_no_ok|].
  destruct (get_addrs _ _) as [[|a l]|]; [| |].
  1,3: destruct (_ && _); intros [= _ <-]; [apply not_elem_of_nil|apply run_callback_err_no_ok].
  destruct (if sw_filter_private s then _ else _) as [l1|]; [|done]. cbn [mbind option_bind].
  destruct (if sw_filter_loopback s then _ else _) as [l2|]; [|done]. cbn [mbind option_bind].
  intros [= _ <-]. apply not_elem_of_nil.
Qed.

Lemma command_reply_ok limit now sy cmd s' effs rid p :
  sys_inv limit [] sy → on_command now (sy_swarm sy) cmd = Some (s', effs) →
  ReplyUnit rid (Ok tt) ∈ effs → connects cmd p rid → is_connected s' p = true.
Proof.
  intros Hi Hon Hin Hc. pose proof (get_best_conn_spec _ _ _ _ p (sy_conns _ _ _ Hi)) as Hbest.
  destruct Hc as [[l ->]|[r ->]]; cbn [on_command] in Hon.
  - injection Hon as Hon. unfold on_connect in Hon. destruct (get_best_conn (sy_swarm sy) p).
    + injection Hon as <- _. apply Hbest.
    + by eapply dial_addr_no_ok in Hin.
  - unfold on_new_connection in Hon. destruct (get_best_conn (sy_swarm sy) p).
    + injection Hon as <- _. apply Hbest.
    + by eapply dial_peer_no_ok in Hin.
Qed.

(** The commands answer only the request at hand. *)
Lemma command_reply_own now s cmd s' effs rid x :
  on_command now s cmd = Some (s', effs) → ReplyUnit rid x ∈ effs → cmd_rid cmd = Some rid.
Proof.
  assert (Hcb : ∀ cb e, ReplyUnit rid x ∈ run_callback cb (Err e) → cb_rid cb = rid).
  { intros [] e; simpl; intros Hl%list_elem_of_singleton; by simplify_eq. }
  assert (Hdp : ∀ p r cb, dial_peer s p r cb = Some (s', effs) → ReplyUnit rid x ∈ effs → cb_rid cb = rid).
  { intros p r cb. unfold dial_peer. case_decide; [intros [= _ <-]; apply Hcb|].
    destruct (get_addrs _ _) as [[|a l]|]; [| |].
    1,3: destruct (_ && _); intros [= _ <-]; [by intros ?%elem_of_nil|apply Hcb].
    destruct (if sw_filter_private s then _ else _) as [l1|]; [|done]. cbn [mbind option_bind].
    destruct (if sw_filter_loopback s then _ else _) as [l2|]; [|done]. cbn [mbind option_bind].
    intros [= _ <-]. by intros ?%elem_of_nil. }
  destruct cmd; cbn [on_command cmd_rid].
  - unfold on_connect, dial_addr. destruct (get_best_conn s peer); [|case_decide]; intros [= _ <-] Hl.
    + apply list_elem_of_singleton in Hl. by simplify_eq.
    + by apply (Hcb (CbReply rid0) DialToSelf) in Hl as <-.
    + by apply elem_of_nil in Hl.
  - unfold on_new_connection. destruct (get_best_conn s peer).
    + intros [= _ <-] Hl%list_elem_of_singleton. by simplify_eq.
    + intros Hd Hl. by rewrite <-(Hdp _ _ _ Hd Hl).
  - unfold on_close_connection. destruct (connections_by_peer s !! peer); intros [= _ <-] Hl.
    + apply elem_of_app in Hl as [(?&?&_)%list_elem_of_fmap|Hl%list_elem_of_singleton]; by simplify_eq.
    + apply list_elem_of_singleton in Hl. by simplify_eq.
  - unfold on_new_stream. destruct (get_best_conn s peer).
    + by intros [= _ <-] Hl%list_elem_of_singleton.
    + intros Hd Hl. by rewrite <-(Hdp _ _ _ Hd Hl).
  - by intros [= _ <-] ?%elem_of_nil.
  - by intros [= _ <-] ?%list_elem_of_singleton.
  - by intros [= _ <-] ?%list_elem_of_singleton.
  - by intros [= _ <-] ?%list_elem_of_singleton.
Qed.

Lemma event_reply_ok limit now sy ev evs s' effs rid cmd p :
  sys_inv limit [] sy → sy_events sy = ev :: evs → on_event now (sy_swarm sy) ev = Some (s', effs) →
  ReplyUnit rid (Ok tt) ∈ effs → (rid, cmd) ∈ sy_asked sy → connects cmd p rid → is_connected s' p = true.
Proof.
  intros Hi Hev Hon Hin Hask Hc.
  destruct ev as [m dir t|cid|cid dir|view| |q e t|a|a| |cid r|cid r]; cbn [on_event] in Hon.
  - destruct t as [t|]; [|injection Hon as _ <-; by do 2 (apply elem_of_cons in Hin as [|Hin]; [done|]);
      apply elem_of_nil in Hin].
    destruct (inv_take_dial _ _ _ _ t Hi Hev eq_refl) as (cb&cmd'&p'&Hcb&Hask'&Hfor&Hm&_).
    unfold handle_connection_opened in Hon. cbn [dial_transactions with_base_stats assign_cid] in Hon.
    rewrite Hcb in Hon. cbn [mbind option_bind] in Hon. injection Hon as <- <-.
    do 2 (apply elem_of_cons in Hin as [|Hin]; [done|]).
    destruct cb as [rid'|pids rid']; simpl in Hin; apply list_elem_of_singleton in Hin; [|done].
    injection Hin as <-. pose proof (asked_unique _ _ _ _ _ Hi Hask Hask') as <-.
    assert (p' = p) as -> by (destruct Hc as [[? ->]|[? ->]], Hfor as [[? Hf]|[? Hf]]; by simplify_eq).
    rewrite <-(Hm _ _ eq_refl).
    exact (add_connection_connected _ (Connection_new (S (next_connection_id (sy_swarm sy))) m dir)).
  - injection Hon as Hon. unfold handle_connection_closed in Hon. destruct (_ !! cid); injection Hon as _ <-;
      [by apply list_elem_of_singleton in Hin|by apply elem_of_nil in Hin].
  - injection Hon as _ <-. by apply elem_of_nil in Hin.
  - injection Hon as _ <-. by apply elem_of_nil in Hin.
  - injection Hon as _ <-. by apply elem_of_nil in Hin.
  - unfold handle_outgoing_connection_error in Hon. destruct (_ !! t); [|done].
    cbn [mbind option_bind] in Hon. injection Hon as _ <-. by apply run_callback_err_no_ok in Hin.
  - case_decide; injection Hon as _ <-; [by apply elem_of_nil in Hin|by apply list_elem_of_singleton in Hin].
  - destruct (position _ _); injection Hon as _ <-;
      [by apply list_elem_of_singleton in Hin|by apply elem_of_nil in Hin].
  - injection Hon as _ <-. by apply elem_of_nil in Hin.
  - injection Hon as Hon. unfold handle_ping_result in Hon. destruct (_ !! cid); [destruct r|];
      injection Hon as _ <-; by first [apply elem_of_nil in Hin|apply list_elem_of_singleton in Hin].
  - unfold handle_identify_result in Hon. destruct (_ !! cid); [destruct r as [[info obs]|]|];
      [destruct (handle_observed_address _ _); [|done]; cbn [mbind option_bind] in Hon|..];
      injection Hon as _ <-; by first [apply elem_of_nil in Hin|apply list_elem_of_singleton in Hin].
Qed.

(** [C6] A positive answer to a request to connect is true: in the state after the
    step that gives it, the table holds a connection to the peer the request named,
    whether it was there already or came from the dial of the request. *)
Theorem connected_when_told limit sy a sy' effs rid cmd p :
  system_reach limit sy → action_ok sy a → sys_step sy a = Some sy' →
  sy_log sy' = sy_log sy ++ effs → ReplyUnit rid (Ok tt) ∈ effs →
  (rid, cmd) ∈ sy_asked sy' → connects cmd p rid →
  is_connected (sy_swarm sy') p = true.
Proof.
  intros Hi%system_reach_inv Ha Hs Hlog Hin Hask Hc.
  pose proof (sys_step_inv _ _ _ _ Hi Ha Hs) as Hi'.
  assert (Hsame : sy_log sy' ≠ sy_log sy).
  { rewrite Hlog. intros Heq. apply (f_equal length) in Heq. rewrite length_app in Heq.
    destruct effs; [by apply elem_of_nil in Hin|simpl in Heq; lia]. }
  destruct a as [now cmd'|now|now found t|out j|now|t|i r|cid r dir|cid|ev|ps]; cbn [sys_step] in Hs.
  - destruct (on_command now (sy_swarm sy) cmd') as [[s' effs']|] eqn:Hon; [|done].
    injection Hs as <-. simpl in Hlog, Hask. apply app_inv_head in Hlog as ->.
    pose proof (command_reply_own _ _ _ _ _ _ _ Hon Hin) as Hrid. rewrite Hrid in Hask, Hi'.
    assert (cmd = cmd') as ->.
    { eapply (asked_unique _ _ rid); [exact Hi'|exact Hask|]. simpl. apply elem_of_app. right. left. }
    exact (command_reply_ok _ _ _ _ _ _ _ _ Hi Hon Hin Hc).
  - destruct (sy_events sy) as [|ev evs] eqn:Hev; [done|].
    destruct (on_event now (sy_swarm sy) ev) as [[s' effs']|] eqn:Hon; [|done].
    injection Hs as <-. simpl in Hlog, Hask. apply app_inv_head in Hlog as ->.
    exact (event_reply_ok _ _ _ _ _ _ _ _ _ _ Hi Hev Hon Hin Hask Hc).
  - destruct (task_step _ _ _ _ _); [|done]. by injection Hs as <-.
  - destruct (job_step _ _ _); [|done]. by injection Hs as <-.
  - destruct (cleanup_step _ _); [|done]. by injection Hs as <-.
  - destruct (_ !! t) as [task|]; [|done]. cbn [mbind option_bind] in Hs.
    destruct (dt_phase task); try done. by injection Hs as <-.
  - destruct (_ !! i) as [[[cid pids] rid']|]; [|done]. injection Hs as <-. simpl in Hlog.
    apply app_inv_head in Hlog as <-. by apply list_elem_of_singleton in Hin.
  - case_decide; [|done]. by injection Hs as <-.
  - case_decide; [|done]. by injection Hs as <-.
  - by injection Hs as <-.
  - by injection Hs as <-.
Qed.
End swarm.

(** ** A run

    Peers are bytes, and a connection is the byte of its remote peer. *)

#[local] Existing Instance byte_PeerIdType.
#[local] Existing Instance leb128.
#[local] Existing Instance sample_codecs.

Local Abbreviation SSystem := (@System u8 _ u8 unit unit unit).
Local Abbreviation SAction := (@SysAction u8 _ u8 unit unit).

Definition s_step : SSystem → SAction → option SSystem := sys_step id (λ _, tt).
Local Abbreviation s_reach := (system_reach (id : u8 → u8) (λ _, tt : unit)).

(** The conditions of a step that depend on the state, and those that do not. *)
Definition run_guard (sy : SSystem) (a : SAction) : bool :=
  match a with
  | ACommand _ cmd =>
      match cmd_rid cmd with Some rid => bool_decide (rid ∉ (sy_asked sy).*1) | None => true end
  | ATask _ _ _ => bool_decide (backoff (dialer (sy_swarm sy)) = ∅)
  | _ => true
  end.

Definition run_valid (a : SAction) : Prop :=
  match a with
  | ACommand _ cmd => valid_cmd cmd
  | ATask _ found _ => found = None
  | AEnv ev => env_event ev
  | AStore ps => store_valid ps
  | _ => True
  end.

Definition run_swarm (sy : SSystem) (l : list SAction) : option SSystem :=
  foldl (λ o a, sy ← o; if run_guard sy a then s_step sy a else None) (Some sy) l.

Lemma run_swarm_reach limit sy l sy' :
  s_reach limit sy → Forall run_valid l → run_swarm sy l = Some sy' → s_reach limit sy'.
Proof.
  revert sy. induction l as [|a l IH]; intros sy Hsy Hl; cbn; [by intros [= <-]|].
  apply Forall_cons in Hl as [Ha Hl]. destruct (run_guard sy a) eqn:Hg; [destruct (s_step sy a) eqn:Hs|].
  - apply IH; [|done]. eapply system_step; [done| |exact Hs].
    destruct a; simpl in *; try done.
    + split; [done|]. intros rid Hr. rewrite Hr in Hg. by apply bool_decide_eq_true in Hg.
    + apply bool_decide_eq_true in Hg. split; [|by subst]. intros p pm k e. by rewrite Hg, lookup_empty.
  - clear. induction l as [|b l IH]; [done|]. exact IH.
  - clear. induction l as [|b l IH]; [done|]. exact IH.
Qed.

Definition sample_swarm : @Swarm u8 _ u8 unit unit unit :=
  default (Swarm_new ∅ Byte.x00 10 1) (with_transport [TCP] tt (Swarm_new ∅ Byte.x00 10 1)).

Lemma sample_swarm_built : swarm_built 10 sample_swarm.
Proof.
  eapply (built_transport 10 [TCP] tt); [|by apply default_is_Some; by_eval].
  constructor. intros p pr. by rewrite lookup_empty.
Qed.

(** A request to connect to peer 7 that is dialed and answered, then a request for
    a stream, which uses the connection, and a second one whose dial has to wait. *)
Definition run_dialing : list SAction :=
  [ACommand 0 (Connect Byte.x07 [sample_target] 1); ATask 0 None 1; ATask 0 None 1; ATask 0 None 1].
Definition run_dialed : list SAction :=
  run_dialing ++ [AJob (Connected Byte.x07) 1; AJob (Connected Byte.x07) 1; AJob (Connected Byte.x07) 1;
    ATask 0 None 1; ADialEnd 1].
Definition run_connected : list SAction :=
  run_dialed ++ [AEvent 0; ACommand 1 (NewStream Byte.x07 ["p"] false 2);
    ACommand 1 (Connect Byte.x09 [sample_target] 3)].

Definition sample_system (l : list SAction) : SSystem :=
  default (System_new sample_swarm) (run_swarm (System_new sample_swarm) l).

Lemma run_connected_valid : Forall run_valid run_connected.
Proof. repeat constructor; simpl; by_eval. Qed.

Lemma sample_system_reach l l' :
  l ++ l' = run_connected → bool_decide (is_Some (run_swarm (System_new sample_swarm) l)) = true →
  s_reach 10 (sample_system l).
Proof.
  intros Hl Hr%bool_decide_eq_true. eapply run_swarm_reach; [apply system_start, sample_swarm_built| |
    by apply default_is_Some].
  pose proof run_connected_valid as Hv. rewrite <-Hl in Hv. by apply Forall_app in Hv as [? _].
Qed.

Lemma sample_connected_reach : s_reach 10 (sample_system run_connected).
Proof. apply (sample_system_reach _ []); [apply app_nil_r|by vm_compute]. Qed.

Lemma sample_dialed_reach : s_reach 10 (sample_system run_dialed).
Proof. eapply sample_system_reach; [reflexivity|by vm_compute]. Qed.

Lemma sample_dialing_reach : s_reach 10 (sample_system run_dialing).
Proof.
  eapply sample_system_reach; [|by vm_compute]. unfold run_connected, run_dialed.
  rewrite <-app_assoc. reflexivity.
Qed.

Lemma swarm_tables_witness :
  connections_by_peer (sy_swarm (sample_system run_connected)) !! Byte.x07 = Some [1] ∧
  ∀ cid c, connections_by_id (sy_swarm (sample_system run_connected)) !! cid = Some c → conn_id c = cid.
Proof.
  split; [by vm_compute|]. intros cid c Hc.
  by apply (swarm_tables id (λ _, tt) 10 (sample_system run_connected) sample_connected_reach).
Defined.

Lemma best_connection_witness :
  (conn_id <$> get_best_conn (sy_swarm (sample_system run_connected)) Byte.x07) = Some 1 ∧
  ∀ c, get_best_conn (sy_swarm (sample_system run_connected)) Byte.x07 = Some c →
    conn_remote_peer id c = Byte.x07.
Proof.
  split; [by vm_compute|]. intros c Hc.
  pose proof (best_connection id (λ _, tt) 10 (sample_system run_connected) Byte.x07
    sample_connected_reach) as Hb.
  rewrite Hc in Hb. apply Hb.
Defined.

Lemma swarm_never_panics_witness :
  omap event_tid (sy_events (sample_system run_dialed)) = [1] ∧
  ∀ ev evs, sy_events (sample_system run_dialed) = ev :: evs →
    is_Some (on_event id (λ _, tt) 5 (sy_swarm (sample_system run_dialed)) ev).
Proof.
  split; [by vm_compute|]. apply (swarm_never_panics id (λ _, tt) 10 (sample_system run_dialed) 5
    sample_dialed_reach).
Defined.

Lemma requests_answered_once_witness :
  answered (sy_log (sample_system run_connected)) = [1] ∧
  (sy_opening (sample_system run_connected)).*2 = [2] ∧
  (sy_asked (sample_system run_connected)).*1 ≡ₚ
    answered (sy_log (sample_system run_connected)) ++ (sy_opening (sample_system run_connected)).*2 ++
    waiting (dial_transactions (sy_swarm (sample_system run_connected))).
Proof.
  split_and!; [by vm_compute..|].
  apply (requests_answered_once id (λ _, tt) 10 (sample_system run_connected) sample_connected_reach).
Defined.


Definition sample_told : SSystem :=
  default (System_new sample_swarm) (s_step (sample_system run_dialed) (AEvent 0)).

Lemma connected_when_told_witness :
  s_step (sample_system run_dialed) (AEvent 0) = Some sample_told ∧
  is_connected (sy_swarm sample_told) Byte.x07 = true.
Proof.
  assert (Hs : s_step (sample_system run_dialed) (AEvent 0) = Some sample_told).
  { apply default_is_Some, (bool_decide_unpack _). by vm_compute. }
  split; [exact Hs|].
  apply (connected_when_told id (λ _, tt) 10 (sample_system run_dialed) (AEvent 0) sample_told
    [SpawnAccept 1; NotifyConnected 1; ReplyUnit 1 (Ok tt)] 1 (Connect Byte.x07 [sample_target] 1)
    Byte.x07 sample_dialed_reach I Hs); [by vm_compute|right; right; left| |left; by eexists].
  assert (Ha : sy_asked sample_told = [(1, Connect Byte.x07 [sample_target] 1)]) by by vm_compute.
  rewrite Ha. left.
Defined.

(** [ban_peer_id] is documented to reject connections and dials, but nothing reads
    the set of banned peers: a banned peer is dialed, and its connection accepted. *)
Lemma banned_peer_served :
  let s := ban_peer_id sample_swarm Byte.x07 in
  Byte.x07 ∈ banned_peers s ∧
  (on_command 0 s (Connect Byte.x07 [sample_target] 1) ≫= λ r, dial_transactions r.1 !! 1) =
    Some (CbReply 1) ∧
  (on_event id (λ _, tt) 0 s (ConnectionEstablished Byte.x07 Inbound None) ≫= λ r,
    Some (is_connected r.1 Byte.x07)) = Some true.
Proof. split_and!; [apply elem_of_union_l, elem_of_singleton|..]; by vm_compute. Qed.
