(* ===== verification/Framing.v ===== *)
(** * Length-prefixed messages on byte streams

    The [ReadEx] and [WriteEx] traits of [core/src/util/mod.rs] and the
    [LengthDelimited] frames of [core/src/multistream/length_delimited.rs].

    A reader is a function of the bytes that have arrived and of whether the
    stream has ended after them.  The sizes of the pieces in which the transport
    delivers or accepts data are arguments of the definitions. *)

From Stdlib Require Import ZArith Lia.
From S2P Require Import Prelude Varint.

Inductive IoErrorKind :=
  | UnexpectedEof
  | WriteZero
  | InvalidData
  | OtherError.

Inductive Outcome (A : Type) :=
  | Done (a : A) (rest : bytes)
  | Failed (e : IoErrorKind)
  | Pending
  | Panicked.
Arguments Done {A} a rest.
Arguments Failed {A} e.
Arguments Pending {A}.
Arguments Panicked {A}.

Definition Reader (A : Type) : Type := bool → bytes → Outcome A.

Definition rd_ret {A} (a : A) : Reader A := λ _ inp, Done a inp.
Definition rd_fail {A} (e : IoErrorKind) : Reader A := λ _ _, Failed e.
Definition rd_panic {A} : Reader A := λ _ _, Panicked.

Definition rd_bind {A B} (m : Reader A) (k : A → Reader B) : Reader B := λ eof inp,
  match m eof inp with
  | Done a rest => k a eof rest
  | Failed e => Failed e
  | Pending => Pending
  | Panicked => Panicked
  end.

Notation "'let!' x := m 'in' k" := (rd_bind m (fun x => k))
  (at level 10, x pattern, k at level 200) : libp2p_scope.

(** [AsyncReadExt::read_exact]. *)
Definition read_exact (n : nat) : Reader bytes := λ eof inp,
  if decide (n ≤ length inp) then Done (take n inp) (drop n inp)
  else if eof then Failed UnexpectedEof else Pending.

(** ** ReadEx *)

Section read_ex.
Context `{Varint}.
(** The [i]-th read of a loop is offered [chunks i] bytes. *)
Variable chunks : nat → nat.

Definition read2 (i want : nat) : Reader bytes := λ eof inp,
  match inp with
  | [] => if eof then Done [] [] else Pending
  | _ => let n := min want (max 1 (chunks i)) in Done (take n inp) (drop n inp)
  end.

Fixpoint read_exact_loop (fuel i want : nat) : Reader bytes :=
  match want, fuel with
  | 0, _ => rd_ret []
  | S _, 0 => λ _ _, Pending
  | S _, S fuel =>
      let! piece := read2 i want in
      match piece with
      | [] => rd_fail UnexpectedEof
      | _ =>
          let! rest := read_exact_loop fuel (S i) (want - length piece) in
          rd_ret (piece ++ rest)
      end
  end.

(** A read delivers at least one byte, so [want] rounds are enough. *)
Definition read_exact2 (want : nat) : Reader bytes := read_exact_loop want 0 want.

Definition read_fixed_u32 : Reader Z :=
  let! len := read_exact2 4 in rd_ret (be_combine len).

(** [fuel] is the number of bytes left in the buffer; a read beyond it would be
    an index out of range. *)
Fixpoint read_varint_loop (fuel : nat) (buffer : bytes) : Reader Z :=
  match fuel with
  | 0 => rd_panic
  | S fuel =>
      let! piece := read2 (length buffer) 1 in
      match piece with
      | [] => match buffer with [] => rd_ret 0%Z | _ => rd_fail UnexpectedEof end
      | b :: _ =>
          let buffer := buffer ++ [b] in
          match uvi_decode 64 buffer with
          | Ok (len, _) => rd_ret len
          | Err Overflow => rd_fail InvalidData
          | Err _ => read_varint_loop fuel buffer
          end
      end
  end.

Definition read_varint : Reader Z := read_varint_loop (uvi_buffer_len 64) [].

Definition read_one_fixed (max_size : Z) : Reader bytes :=
  let! len := read_fixed_u32 in
  if (max_size <? len)%Z then rd_fail InvalidData else read_exact2 (Z.to_nat len).

Definition read_one (max_size : Z) : Reader bytes :=
  let! len := read_varint in
  if (max_size <? len)%Z then rd_fail InvalidData else read_exact2 (Z.to_nat len).
End read_ex.

(** ** WriteEx

    What has been written, and the result. *)

Definition Written : Type := bytes * result IoErrorKind unit.

Definition wr_seq (w : Written) (k : Written) : Written :=
  match w with
  | (bs, Ok _) => (bs ++ k.1, k.2)
  | (bs, Err e) => (bs, Err e)
  end.

Section write_ex.
Context `{Varint}.
(** The [i]-th write of a loop accepts [accepts i] bytes. *)
Variable accepts : nat → nat.

Fixpoint write_all_loop (fuel i : nat) (buf : bytes) : Written :=
  match buf, fuel with
  | [], _ => ([], Ok ())
  | _, 0 => ([], Ok ())
  | _, S fuel =>
      let n := min (accepts i) (length buf) in
      if Nat.eqb n 0 then ([], Err WriteZero)
      else wr_seq (take n buf, Ok ()) (write_all_loop fuel (S i) (drop n buf))
  end.

Definition write_all2 (buf : bytes) : Written := write_all_loop (length buf) 0 buf.

Definition write_varint (len : Z) : Written := write_all2 (uvi_encode len).

(** [len as u32] keeps the 32 low bits. *)
Definition write_fixed_u32 (len : Z) : Written := write_all2 (be_split 4 (len mod 2 ^ 32)).

Definition write_one_fixed (buf : bytes) : Written :=
  wr_seq (write_fixed_u32 (Z.of_nat (length buf))) (write_all2 buf).

Definition write_one (buf : bytes) : Written :=
  wr_seq (write_varint (Z.of_nat (length buf))) (write_all2 buf).
End write_ex.

(** ** LengthDelimited *)

Section length_delimited.
Context `{Varint}.

Definition MAX_LEN_BYTES : Z := 2.
Definition MAX_FRAME_SIZE : Z := 2 ^ (MAX_LEN_BYTES * 8 - MAX_LEN_BYTES) - 1.

Fixpoint read_unsigned_varint_loop (fuel : nat) (b : bytes) : Reader Z :=
  match fuel with
  | 0 => rd_fail OtherError
  | S fuel =>
      let! piece := read_exact 1 in
      let b := b ++ piece in
      match last b with
      | None => rd_panic
      | Some c =>
          if uvi_is_last c then
            match uvi_decode 16 b with
            | Ok (len, _) => rd_ret len
            | Err _ => rd_fail OtherError
            end
          else read_unsigned_varint_loop fuel b
      end
  end.

Definition read_unsigned_varint : Reader Z := read_unsigned_varint_loop (uvi_buffer_len 16) [].

Definition recv_frame : Reader bytes :=
  let! len := read_unsigned_varint in
  if (MAX_FRAME_SIZE <? len)%Z then rd_fail InvalidData
  else if (0 <? len)%Z then read_exact (Z.to_nat len) else rd_ret [].

Definition send_frame (buf : bytes) : result IoErrorKind bytes :=
  let len := Z.of_nat (length buf) in
  if (len <=? MAX_FRAME_SIZE)%Z then Ok (uvi_encode len ++ buf) else Err InvalidData.
End length_delimited.

(** ** Reading *)

Section read_lemmas.
Context `{VarintLaws}.
Variable chunks : nat → nat.
Implicit Types (eof : bool) (inp rest buf : bytes).

(** The loop reads what a single [read_exact] would, whatever the pieces. *)
Lemma read_exact_loop_eq fuel i want eof inp :
  want ≤ fuel → read_exact_loop chunks fuel i want eof inp = read_exact want eof inp.
Proof.
  revert i want inp. induction fuel as [|fuel IH]; intros i want inp Hf.
  { replace want with 0 by lia. unfold read_exact. by rewrite decide_True by lia. }
  destruct want as [|want]; [unfold read_exact; by rewrite decide_True by lia|].
  cbn [read_exact_loop]. unfold rd_bind, read2. destruct inp as [|b inp].
  { unfold read_exact. rewrite decide_False by (simpl; lia). by destruct eof. }
  set (n := S want `min` (1 `max` chunks i)). assert (0 < n ≤ S want) by lia.
  destruct (take n (b :: inp)) as [|c piece] eqn:Hp.
  { apply (f_equal length) in Hp. rewrite length_take in Hp. simpl in Hp. lia. }
  assert (Hlen : length (c :: piece) = n `min` length (b :: inp)) by (by rewrite <-Hp, length_take).
  assert (0 < length (b :: inp)) by (simpl; lia).
  rewrite IH by lia. unfold read_exact. rewrite Hlen, length_drop. case_decide as Hd.
  - rewrite decide_True by lia. unfold rd_ret. rewrite <-Hp.
    replace (n `min` length (b :: inp)) with n by lia. f_equal.
    + rewrite <-(take_drop n (b :: inp)) at 3. rewrite take_app_ge by (rewrite length_take; lia).
      rewrite length_take. by replace (n `min` length (b :: inp)) with n by lia.
    + rewrite drop_drop. f_equal. lia.
  - rewrite decide_False by lia. by destruct eof.
Qed.

Lemma read_exact2_eq want eof inp : read_exact2 chunks want eof inp = read_exact want eof inp.
Proof. by apply read_exact_loop_eq. Qed.

Lemma read_exact_app n eof p rest : length p = n → read_exact n eof (p ++ rest) = Done p rest.
Proof.
  intros <-. unfold read_exact. rewrite decide_True by (rewrite length_app; lia).
  by rewrite take_app_length, drop_app_length.
Qed.

Lemma read_exact_Done n eof inp p rest :
  read_exact n eof inp = Done p rest ↔ inp = p ++ rest ∧ length p = n.
Proof.
  split.
  - unfold read_exact. repeat case_match; intros; simplify_eq/=.
    rewrite take_drop, length_take. split; [done|lia].
  - intros [-> ?]. by apply read_exact_app.
Qed.

Lemma read2_1 i eof b inp : read2 chunks i 1 eof (b :: inp) = Done [b] inp.
Proof. unfold read2. by replace (1 `min` (1 `max` chunks i)) with 1 by lia. Qed.

(** A varint is read to its end, and no further. *)
Lemma read_varint_loop_encoded fuel buffer p b n eof rest :
  Forall (λ c, uvi_is_last c = false) (buffer ++ p) → uvi_is_last b = true →
  length p < fuel → length buffer + fuel = uvi_buffer_len 64 →
  uvi_decode 64 (buffer ++ p ++ [b]) = Ok (n, []) →
  read_varint_loop chunks fuel buffer eof (p ++ b :: rest) = Done n rest.
Proof.
  revert buffer p. induction fuel as [|fuel IH]; intros buffer p Hc Hb Hl Hlen Hd; [lia|].
  cbn [read_varint_loop]. unfold rd_bind. destruct p as [|c p]; cbn [app]; rewrite read2_1.
  - cbn [app] in Hd. by rewrite Hd.
  - rewrite uvi_decode_short.
    + apply IH; [by rewrite <-app_assoc|done|simpl in Hl; lia| |by rewrite <-app_assoc].
      rewrite length_app. simpl in *. lia.
    + right; by right.
    + rewrite length_app. simpl in *. lia.
    + rewrite Forall_app in Hc. destruct Hc as [? [? ?]%Forall_cons]. apply Forall_app.
      split; [done|by constructor].
Qed.

Lemma read_varint_encoded n eof rest :
  (0 ≤ n < 2 ^ 64)%Z → read_varint chunks eof (uvi_encode n ++ rest) = Done n rest.
Proof.
  intros Hn. destruct (uvi_encode_width 64 n) as (p&b&He&Hp&Hb&Hlen); [by right; right|done|].
  rewrite He, <-app_assoc. apply read_varint_loop_encoded; [done|done|lia|done|].
  cbn [app]. rewrite <-He, <-(app_nil_r (uvi_encode n)). apply uvi_decode_encode; [by right; right|done].
Qed.

Lemma read_varint_loop_safe fuel buffer eof inp :
  0 < fuel → Forall (λ c, uvi_is_last c = false) buffer →
  length buffer + fuel = uvi_buffer_len 64 →
  read_varint_loop chunks fuel buffer eof inp ≠ Panicked.
Proof.
  revert buffer inp. induction fuel as [|fuel IH]; intros buffer inp Hf Hc Hlen; [lia|].
  cbn [read_varint_loop]. unfold rd_bind. destruct inp as [|b inp].
  { simpl. destruct eof; [by destruct buffer|done]. }
  rewrite read2_1. destruct (uvi_is_last b) eqn:Hb.
  { destruct (uvi_decode_complete 64 buffer b []) as [[n ->]| ->]; [by right; right|done..]. }
  assert (Hc' : Forall (λ c, uvi_is_last c = false) (buffer ++ [b])).
  { apply Forall_app. by repeat constructor. }
  destruct fuel as [|fuel].
  - rewrite uvi_decode_long; [done|by right; right| |].
    + rewrite length_app. simpl. lia.
    + by apply Forall_take.
  - rewrite uvi_decode_short; [|by right; right| |done]; [|rewrite length_app; simpl; lia].
    apply IH; [lia|done|]. rewrite length_app. simpl. lia.
Qed.
End read_lemmas.

(** ** Writing *)

Lemma write_all_loop_accepted (accepts : nat → nat) fuel i buf :
  (∀ j, 0 < accepts j) → length buf ≤ fuel → write_all_loop accepts fuel i buf = (buf, Ok ()).
Proof.
  intros Hacc. revert i buf. induction fuel as [|fuel IH]; intros i [|b buf] Hf;
    simpl in Hf; try done; [lia|]. cbn [write_all_loop].
  specialize (Hacc i). set (n := accepts i `min` length (b :: buf)).
  assert (0 < n) by (subst n; simpl; lia). destruct (Nat.eqb_spec n 0); [lia|].
  rewrite IH by (rewrite length_drop; simpl; lia). unfold wr_seq. simpl fst; simpl snd.
  by rewrite take_drop.
Qed.

Lemma write_all2_accepted (accepts : nat → nat) buf :
  (∀ j, 0 < accepts j) → write_all2 accepts buf = (buf, Ok ()).
Proof. intros. by apply write_all_loop_accepted. Qed.

(** A proper prefix. *)
Definition partial (p ws : bytes) : Prop := p `prefix_of` ws ∧ p ≠ ws.

Lemma partial_app p l1 l2 :
  partial p (l1 ++ l2) → partial p l1 ∨ ∃ p2, p = l1 ++ p2 ∧ partial p2 l2.
Proof.
  intros [[q Hq] Hne]. destruct (app_eq_inv _ _ _ _ Hq) as [(r&->&->)|(r&->&->)].
  - destruct r as [|x r].
    + right. exists []. rewrite !app_nil_r in *. split; [done|].
      split; [by exists l2|]. intros <-. by rewrite app_nil_r in Hne.
    + left. split; [by eexists|]. intros Heq%(f_equal length). rewrite length_app in Heq.
      simpl in Heq. lia.
  - right. exists r. split; [done|]. split; [by eexists|]. intros Heq. apply Hne. by rewrite <-Heq.
Qed.

Lemma partial_length p ws : partial p ws → length p < length ws.
Proof.
  intros [Hp Hne]. pose proof (prefix_length _ _ Hp). destruct (decide (length p = length ws)); [|lia].
  by apply prefix_length_eq in Hp; [|lia].
Qed.

Section stream_lemmas.
Context `{VarintLaws}.
Variable chunks : nat → nat.

Lemma read_exact_partial n p : length p < n → read_exact n false p = Pending.
Proof. intros. unfold read_exact. by rewrite decide_False by lia. Qed.

(** The bytes of an encoding before its last one. *)
Lemma partial_encoding w n p :
  uvi_width w → (0 ≤ n < 2 ^ Z.of_nat w)%Z → partial p (uvi_encode n) →
  Forall (λ c, uvi_is_last c = false) p ∧ length p < uvi_buffer_len w.
Proof.
  intros Hw Hn Hp. destruct (uvi_encode_width w n Hw Hn) as (q&b&He&Hq&_&Hlen).
  rewrite He in Hp. apply partial_app in Hp as [Hp|(p2&->&Hp2)].
  - pose proof (partial_length _ _ Hp). destruct Hp as [[r ->] _].
    apply Forall_app in Hq as [? _]. split; [done|lia].
  - apply partial_length in Hp2. destruct p2; [|simpl in Hp2; lia]. rewrite app_nil_r. done.
Qed.

Lemma read_varint_loop_partial fuel buffer p :
  Forall (λ c, uvi_is_last c = false) (buffer ++ p) → length p < fuel →
  length buffer + fuel = uvi_buffer_len 64 →
  read_varint_loop chunks fuel buffer false p = Pending.
Proof.
  revert buffer p. induction fuel as [|fuel IH]; intros buffer p Hc Hl Hlen; [lia|].
  cbn [read_varint_loop]. unfold rd_bind. destruct p as [|c p]; [done|]. rewrite read2_1.
  simpl in Hl. rewrite uvi_decode_short.
  - apply IH; [by rewrite <-app_assoc|lia|]. rewrite length_app. simpl. lia.
  - by right; right.
  - rewrite length_app. simpl. lia.
  - replace (buffer ++ c :: p) with ((buffer ++ [c]) ++ p) in Hc by by rewrite <-app_assoc.
    apply Forall_app in Hc. apply Hc.
Qed.

Lemma read_varint_partial n p :
  (0 ≤ n < 2 ^ 64)%Z → partial p (uvi_encode n) → read_varint chunks false p = Pending.
Proof.
  intros Hn Hp. apply (partial_encoding 64) in Hp as [Hc Hl]; [|by right; right|done].
  by apply read_varint_loop_partial.
Qed.

Lemma read_varint_loop_suffix fuel buffer eof inp n rest :
  read_varint_loop chunks fuel buffer eof inp = Done n rest →
  (∃ p, inp = p ++ rest) ∧ (0 ≤ n < 2 ^ 64)%Z.
Proof.
  revert buffer inp. induction fuel as [|fuel IH]; intros buffer inp; [done|].
  cbn [read_varint_loop]. unfold rd_bind. destruct inp as [|b inp].
  { simpl. destruct eof; [|done]. destruct buffer; [|done]. intros [= <- <-]. split; [by exists []|lia]. }
  rewrite read2_1. destruct (uvi_decode 64 (buffer ++ [b])) as [[len r]|[]] eqn:Hd; [|  |done].
  - intros [= <- <-]. apply uvi_decode_sound in Hd as [Hn _]; [|by right; right].
    split; [by exists [b]|exact Hn].
  - intros Hr. apply IH in Hr as [[p ->] ?]. split; [by exists (b :: p)|done].
Qed.

(** What [write_one] writes is what [read_one] reads. *)
Lemma written_read_one (accepts : nat → nat) buf max_size eof :
  (∀ j, 0 < accepts j) → (Z.of_nat (length buf) ≤ max_size)%Z → (Z.of_nat (length buf) < 2 ^ 64)%Z →
  ∃ ws, write_one accepts buf = (ws, Ok ()) ∧ ws ≠ [] ∧
    (∀ rest, read_one chunks max_size eof (ws ++ rest) = Done buf rest) ∧
    ∀ p, partial p ws → read_one chunks max_size false p = Pending.
Proof.
  intros Hacc Hmax Hlen. set (n := Z.of_nat (length buf)) in *. assert (Hn : (0 ≤ n < 2 ^ 64)%Z) by lia.
  assert (Hmax' : (max_size <? n)%Z = false) by (by apply Z.ltb_ge).
  assert (Hbuf : Z.to_nat n = length buf) by lia.
  exists (uvi_encode n ++ buf). unfold write_one, write_varint.
  rewrite !write_all2_accepted by done. split; [done|]. split.
  { intros [Henc _]%app_eq_nil. destruct (uvi_encode_width 64 n) as (p&b&Hp&_); [apply width_64|lia|]. rewrite Hp in Henc. by destruct p. }
  unfold read_one, rd_bind. split.
  - intros rest. rewrite <-app_assoc, read_varint_encoded, Hmax', Hbuf by done.
    by rewrite read_exact2_eq, read_exact_app.
  - intros p [Hp|(p2&->&Hp2)]%partial_app; [by rewrite (read_varint_partial n)|].
    rewrite read_varint_encoded, Hmax', Hbuf by done.
    rewrite read_exact2_eq. by apply read_exact_partial, partial_length.
Qed.

Lemma written_read_one_fixed (accepts : nat → nat) buf max_size eof :
  (∀ j, 0 < accepts j) → (Z.of_nat (length buf) ≤ max_size)%Z → (Z.of_nat (length buf) < 2 ^ 32)%Z →
  ∃ ws, write_one_fixed accepts buf = (ws, Ok ()) ∧ ws = be_split 4 (Z.of_nat (length buf)) ++ buf ∧
    (∀ rest, read_one_fixed chunks max_size eof (ws ++ rest) = Done buf rest) ∧
    ∀ p, partial p ws → read_one_fixed chunks max_size false p = Pending.
Proof.
  intros Hacc Hmax Hlen.
  set (n := Z.of_nat (length buf)) in *. assert (Hmax' : (max_size <? n)%Z = false) by (by apply Z.ltb_ge).
  assert (Hbuf : Z.to_nat n = length buf) by lia.
  exists (be_split 4 n ++ buf). unfold write_one_fixed, write_fixed_u32. fold n.
  rewrite Z.mod_small by lia. rewrite !write_all2_accepted by done. split; [done|]. split; [done|].
  assert (Hbe : be_combine (be_split 4 n) = n) by (apply be_combine_split_small; simpl; lia).
  unfold read_one_fixed, read_fixed_u32, rd_bind. split.
  - intros rest. rewrite read_exact2_eq, <-app_assoc, read_exact_app by apply length_be_split.
    unfold rd_ret. rewrite Hbe, Hmax', Hbuf. by rewrite read_exact2_eq, read_exact_app.
  - intros p [Hp|(p2&->&Hp2)]%partial_app; rewrite read_exact2_eq.
    { apply partial_length in Hp. rewrite length_be_split in Hp. by rewrite read_exact_partial. }
    rewrite read_exact_app by apply length_be_split. unfold rd_ret.
    rewrite Hbe, Hmax', Hbuf, read_exact2_eq. by apply read_exact_partial, partial_length.
Qed.

Lemma read_one_fixed_safe max_size eof inp : read_one_fixed chunks max_size eof inp ≠ Panicked.
Proof.
  assert (Hs : ∀ n eof inp, read_exact n eof inp ≠ Panicked) by (intros n e i; unfold read_exact; by case_decide; [|destruct e]).
  unfold read_one_fixed, read_fixed_u32, rd_bind. rewrite read_exact2_eq.
  destruct (read_exact 4 eof inp) as [len r|e| |] eqn:Hl; try done; [|by apply Hs in Hl]. unfold rd_ret.
  destruct (max_size <? be_combine len)%Z; [done|]. rewrite read_exact2_eq. apply Hs.
Qed.

Lemma read_one_fixed_Done max_size eof inp buf rest :
  read_one_fixed chunks max_size eof inp = Done buf rest →
  inp = be_split 4 (Z.of_nat (length buf)) ++ buf ++ rest ∧ (Z.of_nat (length buf) ≤ max_size)%Z.
Proof.
  unfold read_one_fixed, read_fixed_u32, rd_bind. rewrite read_exact2_eq.
  destruct (read_exact 4 eof inp) as [len r|e| |] eqn:Hl; try done. unfold rd_ret.
  destruct (Z.ltb_spec max_size (be_combine len)); [done|]. rewrite read_exact2_eq.
  apply read_exact_Done in Hl as [-> Hl]. intros [-> Hb]%read_exact_Done.
  pose proof (be_combine_bound len). rewrite Hb, Z2Nat.id by lia. rewrite <-Hl, be_split_combine. split; [done|lia].
Qed.

Lemma read_one_no_panic max_size eof inp : read_one chunks max_size eof inp ≠ Panicked.
Proof.
  unfold read_one, rd_bind. destruct (read_varint chunks eof inp) as [n r|e| |] eqn:Hr; try done.
  2: { exfalso. revert Hr. by apply read_varint_loop_safe; [by_eval|constructor|]. }
  destruct (Z.ltb_spec max_size n); [done|]. rewrite read_exact2_eq. unfold read_exact. by repeat case_match.
Qed.

(** *** Properties *)

(** [C25] A message written by [write_one] is read back by [read_one], and one
    written by [write_one_fixed] by [read_one_fixed], however the transport
    splits the data on both sides: the reader returns exactly the message and
    leaves the bytes after it, and as long as a part of it is missing it waits.
    The size of the message is at most the reader's maximum and fits the
    prefix. *)
Theorem message_stream_roundtrip (accepts : nat → nat) buf max_size rest eof
    (Hacc : ∀ j, 0 < accepts j) (Hmax : (Z.of_nat (length buf) ≤ max_size)%Z)
    (Hlen : (Z.of_nat (length buf) < 2 ^ 32)%Z) :
  (∃ ws, write_one accepts buf = (ws, Ok ()) ∧
    read_one chunks max_size eof (ws ++ rest) = Done buf rest ∧
    ∀ p, partial p ws → read_one chunks max_size false p = Pending) ∧
  (∃ ws, write_one_fixed accepts buf = (ws, Ok ()) ∧
    read_one_fixed chunks max_size eof (ws ++ rest) = Done buf rest ∧
    ∀ p, partial p ws → read_one_fixed chunks max_size false p = Pending).
Proof.
  destruct (written_read_one accepts buf max_size eof Hacc Hmax) as (ws&?&_&?&?); [lia|].
  destruct (written_read_one_fixed accepts buf max_size eof Hacc Hmax Hlen) as (ws'&?&_&?&?). eauto 10.
Qed.

(** [C35] Whatever arrives, [read_one] does not panic, and a message it returns
    has at most [max_size] bytes and is followed by the rest of the input: the
    decoder of the length never runs past its buffer of 10 bytes. *)
Theorem read_one_safe max_size eof inp :
  read_one chunks max_size eof inp ≠ Panicked ∧
  ∀ buf rest, read_one chunks max_size eof inp = Done buf rest →
    (Z.of_nat (length buf) ≤ max_size)%Z ∧ ∃ p, inp = p ++ rest.
Proof.
  split; [apply read_one_no_panic|]. unfold read_one, rd_bind.
  destruct (read_varint chunks eof inp) as [n r|e| |] eqn:Hr; try done.
  destruct (Z.ltb_spec max_size n); [done|]. rewrite read_exact2_eq.
  intros buf rest [-> Hl]%read_exact_Done. apply read_varint_loop_suffix in Hr as [[p ->] Hn].
  split; [lia|]. exists (p ++ buf). by rewrite <-app_assoc.
Qed.
End stream_lemmas.

(** ** Frames of multistream-select *)

Section frame_lemmas.
Context `{VarintLaws}.

Lemma read_byte eof b inp : read_exact 1 eof (b :: inp) = Done [b] inp.
Proof. by apply (read_exact_app 1 eof [b] inp). Qed.

Lemma read_uvi_loop_cons fuel buffer b inp eof :
  read_unsigned_varint_loop (S fuel) buffer eof (b :: inp) =
    if uvi_is_last b then
      match uvi_decode 16 (buffer ++ [b]) with
      | Ok (len, _) => Done len inp
      | Err _ => Failed OtherError
      end
    else read_unsigned_varint_loop fuel (buffer ++ [b]) eof inp.
Proof.
  cbn [read_unsigned_varint_loop]. unfold rd_bind. rewrite read_byte, last_snoc.
  destruct (uvi_is_last b); [|done]. by destruct (uvi_decode 16 _) as [[]|].
Qed.

Lemma read_uvi_loop_encoded fuel buffer p b eof rest :
  Forall (λ c, uvi_is_last c = false) p → uvi_is_last b = true → length p < fuel →
  read_unsigned_varint_loop fuel buffer eof (p ++ b :: rest) =
    match uvi_decode 16 (buffer ++ p ++ [b]) with
    | Ok (len, _) => Done len rest
    | Err _ => Failed OtherError
    end.
Proof.
  intros Hp Hb. revert fuel buffer. induction Hp as [|c p Hc Hp IH]; intros [|fuel] buffer Hl;
    simpl in Hl; try lia; cbn [app]; rewrite read_uvi_loop_cons.
  - by rewrite Hb.
  - rewrite Hc, IH by lia. by rewrite <-app_assoc.
Qed.

Lemma read_uvi_loop_partial fuel buffer p :
  Forall (λ c, uvi_is_last c = false) p → length p < fuel →
  read_unsigned_varint_loop fuel buffer false p = Pending.
Proof.
  intros Hp. revert fuel buffer. induction Hp as [|c p Hc Hp IH]; intros [|fuel] buffer Hl;
    simpl in Hl; try lia; [done|]. rewrite read_uvi_loop_cons, Hc. apply IH. lia.
Qed.

Lemma read_uvi_loop_safe fuel buffer eof inp :
  read_unsigned_varint_loop fuel buffer eof inp ≠ Panicked.
Proof.
  revert buffer inp. induction fuel as [|fuel IH]; intros buffer [|b inp]; [done..| |].
  - simpl. by destruct eof.
  - rewrite read_uvi_loop_cons. destruct (uvi_is_last b); [|apply IH].
    by destruct (uvi_decode 16 _) as [[]|].
Qed.

Lemma MAX_FRAME_SIZE_eq : MAX_FRAME_SIZE = 16383%Z.
Proof. reflexivity. Qed.

Lemma send_frame_ok buf :
  (Z.of_nat (length buf) ≤ MAX_FRAME_SIZE)%Z →
  send_frame buf = Ok (uvi_encode (Z.of_nat (length buf)) ++ buf).
Proof. intros. unfold send_frame. by destruct (Z.leb_spec (Z.of_nat (length buf)) MAX_FRAME_SIZE); [|lia]. Qed.

Lemma recv_frame_sent buf ws eof rest :
  send_frame buf = Ok ws → recv_frame eof (ws ++ rest) = Done buf rest.
Proof.
  unfold send_frame. rewrite MAX_FRAME_SIZE_eq. destruct (Z.leb_spec (Z.of_nat (length buf)) 16383) as [Hl|]; [|done].
  intros [= <-]. set (n := Z.of_nat (length buf)) in *.
  destruct (uvi_encode_width 16 n) as (p&b&He&Hp&Hb&Hlen); [by left|simpl; lia|].
  unfold recv_frame, rd_bind, read_unsigned_varint.
  rewrite <-app_assoc, He, <-app_assoc. cbn [app].
  rewrite read_uvi_loop_encoded by done. cbn [app]. rewrite <-He, <-(app_nil_r (uvi_encode n)).
  rewrite uvi_decode_encode by (by left || (simpl; lia)).
  rewrite MAX_FRAME_SIZE_eq. destruct (Z.ltb_spec 16383 n); [lia|].
  destruct (Z.ltb_spec 0 n); [apply read_exact_app; lia|].
  destruct buf; [done|]. simpl in n. lia.
Qed.

Lemma recv_frame_partial buf ws p :
  send_frame buf = Ok ws → partial p ws → recv_frame false p = Pending.
Proof.
  unfold send_frame. rewrite MAX_FRAME_SIZE_eq. destruct (Z.leb_spec (Z.of_nat (length buf)) 16383) as [Hl|]; [|done].
  intros [= <-]. set (n := Z.of_nat (length buf)) in *.
  assert (Hn : (0 ≤ n < 2 ^ Z.of_nat 16)%Z) by (simpl; lia).
  intros [Hp|(p2&->&Hp2)]%partial_app.
  - apply (partial_encoding 16) in Hp as [Hc Hlen]; [|by left|done].
    unfold recv_frame, rd_bind, read_unsigned_varint. by rewrite read_uvi_loop_partial.
  - destruct (uvi_encode_width 16 n) as (p&b&He&Hp&Hb&Hlen); [by left|done|].
    unfold recv_frame, rd_bind, read_unsigned_varint. rewrite He, <-app_assoc. cbn [app].
    rewrite read_uvi_loop_encoded by done. cbn [app].
    rewrite <-He, <-(app_nil_r (uvi_encode n)), uvi_decode_encode by (by left || done).
    apply partial_length in Hp2. rewrite MAX_FRAME_SIZE_eq. destruct (Z.ltb_spec 16383 n); [lia|].
    destruct (Z.ltb_spec 0 n); [|lia]. apply read_exact_partial. lia.
Qed.

Lemma recv_frame_safe eof inp : recv_frame eof inp ≠ Panicked.
Proof.
  unfold recv_frame, rd_bind. destruct (read_unsigned_varint eof inp) as [n r|e| |] eqn:Hr; try done.
  - destruct (_ <? _)%Z; [done|]. destruct (_ <? _)%Z; [|done]. unfold read_exact. by repeat case_match.
  - exfalso. by eapply read_uvi_loop_safe.
Qed.

(** Frames of multistream-select: a payload can be sent exactly when it has
    at most 16383 bytes; the receiver returns exactly the payload and leaves the
    bytes after it, and waits while a part of the frame is missing; no input
    makes the receiver panic. *)
Theorem frame_roundtrip (buf rest inp : bytes) (eof : bool) :
  recv_frame eof inp ≠ Panicked ∧
  match send_frame buf with
  | Ok ws =>
      (Z.of_nat (length buf) ≤ 16383)%Z ∧ recv_frame eof (ws ++ rest) = Done buf rest ∧
      ∀ p, partial p ws → recv_frame false p = Pending
  | Err e => e = InvalidData ∧ (16383 < Z.of_nat (length buf))%Z
  end.
Proof.
  split; [apply recv_frame_safe|]. destruct (send_frame buf) as [ws|e] eqn:Hs.
  - split_and!; [|by apply recv_frame_sent|intros p; by apply (recv_frame_partial buf)].
    unfold send_frame in Hs. rewrite MAX_FRAME_SIZE_eq in Hs.
    by destruct (Z.leb_spec (Z.of_nat (length buf)) 16383).
  - unfold send_frame in Hs. rewrite MAX_FRAME_SIZE_eq in Hs.
    destruct (Z.leb_spec (Z.of_nat (length buf)) 16383); [done|]. by injection Hs as <-.
Qed.
End frame_lemmas.

(** *** Witnesses *)

#[local] Existing Instance leb128.

Lemma message_stream_roundtrip_witness :
  ∃ ws, write_one (λ _, 2) [Byte.x61; Byte.x62; Byte.x63] = (ws, Ok ()) ∧
    read_one (λ _, 1) 10 false (ws ++ [Byte.xff]) = Done [Byte.x61; Byte.x62; Byte.x63] [Byte.xff].
Proof.
  destruct (message_stream_roundtrip (λ _, 1) (λ _, 2) [Byte.x61; Byte.x62; Byte.x63] 10 [Byte.xff]
    false ltac:(intros; simpl; lia) ltac:(simpl; lia) ltac:(simpl; lia)) as [(ws&Hw&Hr&_) _].
  exists ws. split; [exact Hw|exact Hr].
Defined.

Lemma read_one_safe_witness :
  read_one (λ _, 1) 10 true (replicate 12 Byte.xff) ≠ Panicked.
Proof. exact (proj1 (read_one_safe (λ _, 1) 10 true (replicate 12 Byte.xff))). Defined.

Lemma frame_roundtrip_witness :
  recv_frame false (uvi_encode 2 ++ [Byte.x61; Byte.x62] ++ [Byte.x63]) =
    Done [Byte.x61; Byte.x62] [Byte.x63].
Proof.
  destruct (frame_roundtrip [Byte.x61; Byte.x62] [Byte.x63] [] false) as [_ (_&Hr&_)]. exact Hr.
Defined.
