(* ===== verification/Multistream.v ===== *)
(** * Multistream-select

    The messages of [core/src/multistream/protocol.rs] with their binary form,
    the [Negotiator] of [negotiator.rs] as a dialer and a listener that read and
    write byte streams, and the system of the two. *)

From Stdlib Require Import ZArith Lia String.
From S2P Require Import Prelude Varint Framing.

Local Open Scope nat_scope.

Definition NL : u8 := Byte.x0a.
Definition SLASH : u8 := Byte.x2f.

(** ** Messages *)

Definition MAX_PROTOCOLS : Z := 1000.
Definition MAX_PROTOCOL_LEN : nat := 140.

Definition MSG_MULTISTREAM_1_0 : bytes := b_str "/multistream/1.0.0" ++ [NL].
Definition MSG_PROTOCOL_NA : bytes := b_str "na" ++ [NL].
Definition MSG_LS : bytes := b_str "ls" ++ [NL].

Inductive Version := V1.

Inductive ProtocolError :=
  | IoError (kind : IoErrorKind)
  | InvalidMessage
  | InvalidProtocol
  | TooManyProtocols.

(** A [Protocol] is its name. *)
Abbreviation Protocol := bytes (only parsing).

Definition Protocol_try_from (value : bytes) : result ProtocolError Protocol :=
  if negb (bool_decide (head value = Some SLASH)) || (MAX_PROTOCOL_LEN <? length value)
  then Err InvalidProtocol else Ok value.

Inductive Message :=
  | Header (v : Version)
  | MProtocol (p : Protocol)
  | ListProtocols
  | Protocols (ps : list Protocol)
  | NotAvailable.

#[global] Instance Version_eq_dec : EqDecision Version.
Proof. solve_decision. Defined.
#[global] Instance Message_eq_dec : EqDecision Message.
Proof. solve_decision. Defined.

Section messages.
Context `{Varint}.

Definition encode_entry (p : Protocol) : bytes :=
  uvi_encode (Z.of_nat (length p + 1)) ++ p ++ [NL].

Definition message_encode (m : Message) : bytes :=
  match m with
  | Header V1 => MSG_MULTISTREAM_1_0
  | MProtocol p => p ++ [NL]
  | ListProtocols => MSG_LS
  | Protocols ps => uvi_encode (Z.of_nat (length ps)) ++ (ps ≫= encode_entry)
  | NotAvailable => MSG_PROTOCOL_NA
  end.

Definition varint_error {A} (r : result VarintError A) : result ProtocolError A :=
  map_err (λ _, IoError InvalidData) r.

Fixpoint decode_protocols (num : nat) (remaining : bytes) : result ProtocolError (list Protocol) :=
  match num with
  | 0 => Ok []
  | S num =>
      let? (len, rem) := varint_error (uvi_decode 64 remaining) in
      if (len =? 0)%Z || (Z.of_nat (length rem) <? len)%Z ||
         negb (bool_decide (rem !! (Z.to_nat len - 1) = Some NL))
      then Err InvalidMessage
      else
        let? p := Protocol_try_from (take (Z.to_nat len - 1) rem) in
        let? ps := decode_protocols num (drop (Z.to_nat len) rem) in
        Ok (p :: ps)
  end.

Definition message_decode (msg : bytes) : result ProtocolError Message :=
  if decide (msg = MSG_MULTISTREAM_1_0) then Ok (Header V1)
  else if decide (head msg = Some SLASH ∧ last msg = Some NL ∧ length msg ≤ MAX_PROTOCOL_LEN) then
    let? p := Protocol_try_from (take (length msg - 1) msg) in Ok (MProtocol p)
  else if decide (msg = MSG_PROTOCOL_NA) then Ok NotAvailable
  else if decide (msg = MSG_LS) then Ok ListProtocols
  else
    let? (num_protocols, remaining) := varint_error (uvi_decode 64 msg) in
    if (MAX_PROTOCOLS <? num_protocols)%Z then Err TooManyProtocols
    else
      let? ps := decode_protocols (Z.to_nat num_protocols) remaining in
      Ok (Protocols ps).

(** *** Messages on a stream *)

Inductive Received :=
  | GotMessage (m : Message) (rest : bytes)
  | GotError (e : ProtocolError)
  | WaitMore
  | RecvPanic.

Definition recv_message (eof : bool) (inp : bytes) : Received :=
  match recv_frame eof inp with
  | Done msg rest =>
      match message_decode msg with
      | Ok m => GotMessage m rest
      | Err e => GotError e
      end
  | Failed kind => GotError (IoError kind)
  | Pending => WaitMore
  | Panicked => RecvPanic
  end.

Definition send_message (m : Message) : result ProtocolError bytes :=
  map_err IoError (send_frame (message_encode m)).
End messages.

(** ** The negotiator *)

Section negotiator.
Context `{Varint} {TProto : Type} `{ToBytes TProto}.

Record Negotiator := mk_Negotiator { neg_protocols : list (TProto * Protocol) }.

Definition new_with_protocols (protocols : list TProto) : Negotiator :=
  mk_Negotiator (omap (λ n, match Protocol_try_from (to_bytes n) with
                            | Ok p => Some (n, p)
                            | Err _ => None
                            end) protocols).

Definition add_protocol (n : Negotiator) (proto : TProto) : result ProtocolError Negotiator :=
  let? p := Protocol_try_from (to_bytes proto) in
  Ok (mk_Negotiator (neg_protocols n ++ [(proto, p)])).

Inductive NegotiationError :=
  | NegProtocolError (e : ProtocolError)
  (** The rejected protocols; the code keeps their printed form. *)
  | NegFailed (cause : list TProto).

(** *** The listener: [negotiate]

    The states are the places where it waits for a message. *)

Inductive LState :=
  | LWaitHeader
  | LWaitRequest
  | LDone (r : result NegotiationError TProto).

(** [send_message(..).await?] and then [next]. *)
Definition l_send (m : Message) (next : LState) : LState * bytes :=
  match send_message m with
  | Ok out => (next, out)
  | Err e => (LDone (Err (NegProtocolError e)), [])
  end.

Definition find_protocol (n : Negotiator) (p : Protocol) : option TProto :=
  fst <$> head (filter (λ np, np.2 = p) (neg_protocols n)).

Definition negotiate_recv (n : Negotiator) (st : LState) (m : Message) : LState * bytes :=
  match st, m with
  | LWaitHeader, Header version => l_send (Header version) LWaitRequest
  | LWaitRequest, ListProtocols =>
      l_send (Protocols (snd <$> neg_protocols n)) LWaitRequest
  | LWaitRequest, MProtocol p =>
      match find_protocol n p with
      | Some protocol => l_send (MProtocol p) (LDone (Ok protocol))
      | None => l_send NotAvailable LWaitRequest
      end
  | LDone r, _ => (LDone r, [])
  | _, _ => (LDone (Err (NegProtocolError InvalidMessage)), [])
  end.

(** One round: a message is read, and the answer is written.  [None]: there is
    nothing to do. *)
Definition negotiate_step (n : Negotiator) (st : LState) (eof : bool) (inp : bytes)
    : option (LState * bytes * bytes) :=
  match st with
  | LDone _ => None
  | _ =>
      match recv_message eof inp with
      | GotMessage m rest => let '(st, out) := negotiate_recv n st m in Some (st, rest, out)
      | GotError e => Some (LDone (Err (NegProtocolError e)), inp, [])
      | WaitMore | RecvPanic => None
      end
  end.

(** *** The dialer: [select_one] *)

Inductive DState :=
  | DWaitHeader
  | DWaitReply (proto : TProto * Protocol) (others : list (TProto * Protocol)) (cause : list TProto)
  | DDone (r : result NegotiationError TProto).

Definition d_send (m : Message) (next : DState) : DState * bytes :=
  match send_message m with
  | Ok out => (next, out)
  | Err e => (DDone (Err (NegProtocolError e)), [])
  end.

Definition select_start : DState * bytes := d_send (Header V1) DWaitHeader.

(** The next iteration of the loop over the protocols. *)
Definition select_next (protocols : list (TProto * Protocol)) (cause : list TProto)
    : DState * bytes :=
  match protocols with
  | [] => (DDone (Err (NegFailed cause)), [])
  | proto :: others => d_send (MProtocol proto.2) (DWaitReply proto others cause)
  end.

Definition select_recv (n : Negotiator) (st : DState) (m : Message) : DState * bytes :=
  match st with
  | DWaitHeader =>
      if decide (m = Header V1) then select_next (neg_protocols n) []
      else (DDone (Err (NegProtocolError InvalidMessage)), [])
  | DWaitReply proto others cause =>
      match m with
      | MProtocol p =>
          if decide (p = to_bytes proto.1) then (DDone (Ok proto.1), [])
          else (DDone (Err (NegProtocolError InvalidMessage)), [])
      | NotAvailable => select_next others (cause ++ [proto.1])
      | _ => (DDone (Err (NegProtocolError InvalidMessage)), [])
      end
  | DDone r => (DDone r, [])
  end.

Definition select_step (n : Negotiator) (st : DState) (eof : bool) (inp : bytes)
    : option (DState * bytes * bytes) :=
  match st with
  | DDone _ => None
  | _ =>
      match recv_message eof inp with
      | GotMessage m rest => let '(st, out) := select_recv n st m in Some (st, rest, out)
      | GotError e => Some (DDone (Err (NegProtocolError e)), inp, [])
      | WaitMore | RecvPanic => None
      end
  end.
End negotiator.
Arguments LState : clear implicits.
Arguments DState : clear implicits.
Arguments Negotiator : clear implicits.
Arguments NegotiationError : clear implicits.

(** ** The binary form *)

(** A name that [Protocol::try_from] accepts. *)
Definition valid_name (p : Protocol) : Prop :=
  head p = Some SLASH ∧ length p ≤ MAX_PROTOCOL_LEN.

(** A name that is read back from a [Protocol] message. *)
Definition negotiable (p : Protocol) : Prop :=
  head p = Some SLASH ∧ length p < MAX_PROTOCOL_LEN ∧ p ++ [NL] ≠ MSG_MULTISTREAM_1_0.

Definition valid_message (m : Message) : Prop :=
  match m with
  | MProtocol p => negotiable p
  | Protocols ps => Forall valid_name ps ∧ (Z.of_nat (length ps) ≤ MAX_PROTOCOLS)%Z
  | _ => True
  end.

Lemma Protocol_try_from_ok value p :
  Protocol_try_from value = Ok p ↔ p = value ∧ valid_name value.
Proof.
  unfold Protocol_try_from, valid_name. destruct (Nat.ltb_spec MAX_PROTOCOL_LEN (length value));
    case_bool_decide; simpl; split; intros; simplify_eq; try naive_solver lia.
Qed.

Lemma Protocol_try_from_valid p : valid_name p → Protocol_try_from p = Ok p.
Proof. intros. by apply Protocol_try_from_ok. Qed.

Section message_lemmas.
Context `{VarintLaws}.

Lemma encode_nonempty n : (0 ≤ n < 2 ^ 64)%Z → 1 ≤ length (uvi_encode n).
Proof.
  intros Hn. destruct (uvi_encode_width 64 n width_64 Hn) as (p&b&->&_).
  rewrite length_app. simpl. lia.
Qed.

Lemma encode_head n b :
  (0 ≤ n < 2 ^ 64)%Z → head (uvi_encode n) = Some b → (byte.unsigned b < 128)%Z →
  n = byte.unsigned b ∧ uvi_encode n = [b].
Proof.
  intros Hn Hh Hb. destruct (Z.lt_ge_cases n 128) as [Hs|Hl].
  - rewrite uvi_encode_small in * by lia. injection Hh as <-. by rewrite byte_of_Z_unsigned by lia.
  - rewrite uvi_encode_large in Hh by lia. injection Hh as <-.
    pose proof (Z.mod_pos_bound n 128 ltac:(lia)). rewrite byte_of_Z_unsigned in Hb by lia. lia.
Qed.

Lemma encode_entry_length p : valid_name p → 3 ≤ length (encode_entry p).
Proof.
  intros [Hh Hl]. unfold MAX_PROTOCOL_LEN in Hl. unfold encode_entry.
  rewrite !length_app. pose proof (encode_nonempty (Z.of_nat (length p + 1)) ltac:(lia)).
  destruct p; [done|]. simpl in *. lia.
Qed.

Lemma encode_entries_length ps : Forall valid_name ps → 3 * length ps ≤ length (ps ≫= encode_entry).
Proof.
  induction 1 as [|p ps Hp Hps IH]; [done|]. rewrite bind_cons, length_app.
  pose proof (encode_entry_length p Hp). simpl. lia.
Qed.

(** The encoding of a list of protocols is not that of another message. *)
Lemma encode_protocols_head ps b :
  valid_message (Protocols ps) → head (message_encode (Protocols ps)) = Some b →
  (byte.unsigned b < 128)%Z →
  3 * Z.to_nat (byte.unsigned b) < length (message_encode (Protocols ps)).
Proof.
  intros [Hps Hn] Hh Hb. unfold MAX_PROTOCOLS in Hn. cbn [message_encode] in *.
  assert (Hlen : (0 ≤ Z.of_nat (length ps) < 2 ^ 64)%Z) by lia.
  pose proof (encode_nonempty _ Hlen) as Hne. pose proof (encode_entries_length ps Hps).
  assert (Hh' : head (uvi_encode (Z.of_nat (length ps))) = Some b).
  { destruct (uvi_encode (Z.of_nat (length ps))); [simpl in Hne; lia|done]. }
  destruct (encode_head _ b Hlen Hh' Hb) as [<- _]. rewrite length_app. lia.
Qed.

Lemma decode_protocols_encode ps rest :
  Forall valid_name ps → decode_protocols (length ps) ((ps ≫= encode_entry) ++ rest) = Ok ps.
Proof.
  induction 1 as [|p ps Hp Hps IH]; [done|]. pose proof Hp as [_ Hl]. unfold MAX_PROTOCOL_LEN in Hl.
  rewrite bind_cons. unfold encode_entry at 1. cbn [length decode_protocols].
  rewrite <-!app_assoc, uvi_decode_encode by (apply width_64 || lia). cbn [varint_error map_err result_bind].
  set (n := length p). replace (Z.to_nat (Z.of_nat (n + 1)) - 1) with n by lia.
  replace (Z.to_nat (Z.of_nat (n + 1))) with (n + 1) by lia.
  rewrite bool_decide_true by (by apply list_lookup_middle).
  destruct (Z.eqb_spec (Z.of_nat (n + 1)) 0); [lia|].
  destruct (Z.ltb_spec (Z.of_nat (length (p ++ [NL] ++ (ps ≫= encode_entry) ++ rest))) (Z.of_nat (n + 1))) as [Hc|_].
  { rewrite !length_app in Hc. simpl in Hc. lia. }
  cbn [orb negb]. rewrite take_app_length', Protocol_try_from_valid by done. cbn [result_bind].
  rewrite app_assoc, drop_app_length' by (rewrite length_app; simpl; lia). by rewrite IH.
Qed.

Lemma message_decode_encode m : valid_message m → message_decode (message_encode m) = Ok m.
Proof.
  destruct m as [[]|p| |ps| ]; intros Hv; try by vm_compute.
  - destruct Hv as (Hh&Hl&Hne). unfold message_decode. cbn [message_encode].
    rewrite decide_False by done. rewrite decide_True.
    + rewrite length_app. simpl length. replace (length p + 1 - 1) with (length p) by lia.
      rewrite take_app_length, Protocol_try_from_valid; [done|split; [done|lia]].
    + split; [by destruct p|]. rewrite last_snoc, length_app. simpl. split; [done|lia].
  - pose proof (encode_protocols_head ps) as Hhd. destruct Hv as [Hps Hn]. unfold message_decode.
    assert (Hno : ∀ b bs, message_encode (Protocols ps) = b :: bs →
      (byte.unsigned b < 128)%Z → 3 * Z.to_nat (byte.unsigned b) < length (b :: bs)).
    { intros b bs He Hb. rewrite <-He. apply Hhd; [done|by rewrite He|done]. }
    rewrite decide_False by (intros He; apply Hno in He; [vm_compute in He; lia|by vm_compute]).
    rewrite decide_False.
    2: { intros (Hh&_&Hle). apply Hhd in Hh; [|done|by vm_compute].
         change (Z.to_nat (byte.unsigned SLASH)) with 47 in Hh. unfold MAX_PROTOCOL_LEN in Hle. lia. }
    rewrite decide_False by (intros He; apply Hno in He; [vm_compute in He; lia|by vm_compute]).
    rewrite decide_False by (intros He; apply Hno in He; [vm_compute in He; lia|by vm_compute]).
    cbn [message_encode]. unfold MAX_PROTOCOLS in Hn.
    rewrite uvi_decode_encode by (apply width_64 || lia).
    cbn [varint_error map_err result_bind]. unfold MAX_PROTOCOLS.
    destruct (Z.ltb_spec 1000 (Z.of_nat (length ps))); [lia|]. rewrite Nat2Z.id.
    rewrite <-(app_nil_r (ps ≫= encode_entry)), decode_protocols_encode by done. done.
Qed.

(** What is decoded: valid names, each entry of a list with its at least 3 bytes. *)
Lemma decode_protocols_sound num remaining ps :
  decode_protocols num remaining = Ok ps →
  length ps = num ∧ Forall valid_name ps ∧ 3 * num ≤ length remaining.
Proof.
  revert remaining ps. induction num as [|num IH]; intros remaining ps; cbn [decode_protocols].
  { intros [= <-]. split_and!; [done|constructor|lia]. }
  destruct (uvi_decode 64 remaining) as [[len rem]|] eqn:Hd; [|done]. cbn [varint_error map_err result_bind].
  apply uvi_decode_sound in Hd as [_ (q&b&->&_)]; [|apply width_64].
  destruct ((len =? 0)%Z || (Z.of_nat (length rem) <? len)%Z || _) eqn:Hc; [done|].
  rewrite !orb_false_iff in Hc. destruct Hc as [[Hz%Z.eqb_neq Hle%Z.ltb_ge] _].
  intros (p&[-> Hp]%Protocol_try_from_ok&Hr)%result_bind_ok.
  apply result_bind_ok in Hr as (ps'&(?&?&Hlen)%IH&[= <-]).
  assert (2 ≤ Z.to_nat len).
  { destruct Hp as [Hh _]. destruct (Z.to_nat len) as [|[|m]]; [done|done|lia]. }
  rewrite length_drop in Hlen. split_and!; [simpl; lia|by constructor|].
  rewrite length_app. simpl. lia.
Qed.

Lemma message_decode_sound msg m :
  message_decode msg = Ok m →
  match m with
  | MProtocol p => valid_name p
  | Protocols ps => Forall valid_name ps ∧ (Z.of_nat (length ps) ≤ MAX_PROTOCOLS)%Z
  | _ => True
  end.
Proof.
  unfold message_decode. case_decide; [by intros [= <-]|]. case_decide.
  { by intros (p&[-> ?]%Protocol_try_from_ok&[= <-])%result_bind_ok. }
  case_decide; [by intros [= <-]|]. case_decide; [by intros [= <-]|].
  intros ([num rem]&Hd&Hr)%result_bind_ok.
  destruct (Z.ltb_spec MAX_PROTOCOLS num); [done|].
  apply result_bind_ok in Hr as (ps&(Hl&?&_)%decode_protocols_sound&[= <-]).
  split; [done|]. unfold MAX_PROTOCOLS in *. lia.
Qed.

(** A name of 140 bytes is valid, but its [Protocol] message of 141 bytes is
    taken for a list of 47 protocols, for which it is too short. *)
Lemma decode_name_140 p :
  head p = Some SLASH → length p = MAX_PROTOCOL_LEN →
  ∃ e, message_decode (p ++ [NL]) = Err e.
Proof.
  intros Hh Hl. destruct p as [|s p]; [done|]. injection Hh as ->. unfold MAX_PROTOCOL_LEN in Hl.
  unfold message_decode. assert (Hlen : length ((SLASH :: p) ++ [NL]) = 141).
  { rewrite length_app. simpl in *. lia. }
  assert (Hne : ∀ c, length c ≠ 141 → (SLASH :: p) ++ [NL] ≠ c) by (intros c Hc <-; done).
  rewrite decide_False by by apply Hne. rewrite decide_False by (intros (_&_&?); unfold MAX_PROTOCOL_LEN in *; lia).
  rewrite !decide_False by by apply Hne.
  assert (H47 : uvi_encode 47 = [SLASH]) by by rewrite uvi_encode_small by lia.
  change ((SLASH :: p) ++ [NL]) with ([SLASH] ++ (p ++ [NL])).
  rewrite <-H47, uvi_decode_encode by (apply width_64 || lia). cbn [varint_error map_err result_bind].
  change (MAX_PROTOCOLS <? 47)%Z with false. cbn [negb]. change (Z.to_nat 47) with 47.
  destruct (decode_protocols 47 (p ++ [NL])) as [ps|e] eqn:Hd; [|by eexists].
  apply decode_protocols_sound in Hd as (_&_&Hd). rewrite length_app in Hd. simpl in *. lia.
Qed.
End message_lemmas.

(** ** A dialer and a listener

    [d2l] and [l2d] are the bytes in flight; once a party has agreed on a
    protocol, its application may write further data, recorded in [app_d] and
    [app_l]. A party that fails drops the stream, which ends it for the other. *)

Section system.
Context `{VarintLaws} {TD TL : Type} `{ToBytes TD, ToBytes TL}.
Variables (nd : Negotiator TD) (nl : Negotiator TL).

Record Sys := mk_Sys {
  dial : DState TD;
  lis : LState TL;
  d2l : bytes;
  l2d : bytes;
  app_d : bytes;
  app_l : bytes
}.

Definition dialer_failed (s : Sys) : bool :=
  match dial s with DDone (Err _) => true | _ => false end.
Definition listener_failed (s : Sys) : bool :=
  match lis s with LDone (Err _) => true | _ => false end.

(** A step of one of the two parties. *)
Inductive party_step : Sys → Sys → Prop :=
  | step_dialer s st rest out :
      select_step nd (dial s) (listener_failed s) (l2d s) = Some (st, rest, out) →
      party_step s (mk_Sys st (lis s) (d2l s ++ out) rest (app_d s) (app_l s))
  | step_listener s st rest out :
      negotiate_step nl (lis s) (dialer_failed s) (d2l s) = Some (st, rest, out) →
      party_step s (mk_Sys (dial s) st rest (l2d s ++ out) (app_d s) (app_l s)).

(** Data of an application. *)
Inductive app_step : Sys → Sys → Prop :=
  | app_dialer s r data :
      dial s = DDone (Ok r) →
      app_step s (mk_Sys (dial s) (lis s) (d2l s ++ data) (l2d s) (app_d s ++ data) (app_l s))
  | app_listener s r data :
      lis s = LDone (Ok r) →
      app_step s (mk_Sys (dial s) (lis s) (d2l s) (l2d s ++ data) (app_d s) (app_l s ++ data)).

Definition sys_start : Sys :=
  let '(st, out) := select_start in mk_Sys st LWaitHeader out [] [] [].

(** The states after [n] steps of the parties. *)
Inductive reach : nat → Sys → Prop :=
  | reach_start : reach 0 sys_start
  | reach_party n s s' : reach n s → party_step s s' → reach (S n) s'
  | reach_app n s s' : reach n s → app_step s s' → reach n s'.

Definition both_done (s : Sys) : Prop :=
  match dial s, lis s with DDone _, LDone _ => True | _, _ => False end.

(** The listener does not support a protocol of the dialer. *)
Definition unsupported (q : TD * Protocol) : Prop := find_protocol nl q.2 = None.

(** The states of a negotiation, each with a bound on the steps that are left. *)
Inductive Phase : nat → Sys → Prop :=
  | Ph_start w :
      send_message (Header V1) = Ok w →
      Phase (2 * length (neg_protocols nd) + 3) (mk_Sys DWaitHeader LWaitHeader w [] [] [])
  | Ph_header w :
      send_message (Header V1) = Ok w →
      Phase (2 * length (neg_protocols nd) + 2) (mk_Sys DWaitHeader LWaitRequest [] w [] [])
  | Ph_ask pre tp p others w :
      neg_protocols nd = pre ++ (tp, p) :: others → Forall unsupported pre →
      send_message (MProtocol p) = Ok w →
      Phase (2 * length others + 3)
        (mk_Sys (DWaitReply (tp, p) others (fst <$> pre)) LWaitRequest w [] [] [])
  | Ph_reject pre tp p others w :
      neg_protocols nd = pre ++ (tp, p) :: others → Forall unsupported (pre ++ [(tp, p)]) →
      send_message NotAvailable = Ok w →
      Phase (2 * length others + 2)
        (mk_Sys (DWaitReply (tp, p) others (fst <$> pre)) LWaitRequest [] w [] [])
  | Ph_accept pre tp p others tl w al :
      neg_protocols nd = pre ++ (tp, p) :: others → Forall unsupported pre →
      find_protocol nl p = Some tl → send_message (MProtocol p) = Ok w →
      Phase 1 (mk_Sys (DWaitReply (tp, p) others (fst <$> pre)) (LDone (Ok tl)) [] (w ++ al) [] al)
  | Ph_agreed pre tp p others tl ad al :
      neg_protocols nd = pre ++ (tp, p) :: others → Forall unsupported pre →
      find_protocol nl p = Some tl →
      Phase 0 (mk_Sys (DDone (Ok tp)) (LDone (Ok tl)) ad al ad al)
  | Ph_none :
      Forall unsupported (neg_protocols nd) →
      Phase 1 (mk_Sys (DDone (Err (NegFailed (fst <$> neg_protocols nd)))) LWaitRequest [] [] [] [])
  | Ph_closed :
      Forall unsupported (neg_protocols nd) →
      Phase 0 (mk_Sys (DDone (Err (NegFailed (fst <$> neg_protocols nd))))
        (LDone (Err (NegProtocolError (IoError UnexpectedEof)))) [] [] [] []).

(** The dialer's names can be negotiated. *)
Hypothesis Hnames : Forall (λ q : TD * Protocol, q.2 = to_bytes q.1 ∧ negotiable q.2) (neg_protocols nd).

Lemma send_message_ok m :
  length (message_encode m) ≤ 141 → ∃ w, send_message m = Ok w.
Proof.
  intros Hl. unfold send_message. rewrite send_frame_ok; [by eexists|]. rewrite MAX_FRAME_SIZE_eq. lia.
Qed.

Lemma recv_message_sent m w eof rest :
  valid_message m → send_message m = Ok w → recv_message eof (w ++ rest) = GotMessage m rest.
Proof.
  intros Hv Hs. unfold send_message in Hs. destruct (send_frame _) as [ws|] eqn:Hf; [|done].
  injection Hs as ->. unfold recv_message. rewrite (recv_frame_sent _ _ _ _ Hf).
  by rewrite message_decode_encode.
Qed.

Lemma recv_message_sent_nil m w eof :
  valid_message m → send_message m = Ok w → recv_message eof w = GotMessage m [].
Proof. intros. rewrite <-(app_nil_r w). by apply recv_message_sent. Qed.

Lemma recv_message_empty : recv_message false [] = WaitMore.
Proof. done. Qed.

Lemma recv_message_eof : recv_message true [] = GotError (IoError UnexpectedEof).
Proof. done. Qed.

Lemma names_elem tp p pre others :
  neg_protocols nd = pre ++ (tp, p) :: others → p = to_bytes tp ∧ negotiable p.
Proof.
  intros He. rewrite He, Forall_app, Forall_cons in Hnames. by destruct Hnames as (_&[??]&_).
Qed.

Lemma send_protocol_ok p : negotiable p → ∃ w, send_message (MProtocol p) = Ok w.
Proof.
  intros (_&Hl&_). apply send_message_ok. cbn [message_encode]. rewrite length_app.
  unfold MAX_PROTOCOL_LEN in Hl. simpl. lia.
Qed.

(** The next proposal of the dialer. *)
Lemma phase_next pre others :
  neg_protocols nd = pre ++ others → Forall unsupported pre →
  ∃ k, k ≤ 2 * length others + 1 ∧
    Phase k (mk_Sys (select_next others (fst <$> pre)).1 LWaitRequest
      (select_next others (fst <$> pre)).2 [] [] []).
Proof.
  intros He Hpre. destruct others as [|[tp p] others]; cbn [select_next].
  - rewrite app_nil_r in He. exists 1. split; [simpl; lia|]. simpl. rewrite <-He in *. by constructor.
  - destruct (send_protocol_ok p) as [w Hw]; [by eapply names_elem|].
    exists (2 * length others + 3). split; [simpl; lia|]. unfold d_send. simpl snd. rewrite Hw.
    by eapply Ph_ask.
Qed.

Lemma select_waits (st : DState TD) : select_step nd st false [] = None.
Proof. by destruct st. Qed.

Lemma negotiate_waits (st : LState TL) : negotiate_step nl st false [] = None.
Proof. by destruct st. Qed.

Lemma select_step_msg st eof m w rest :
  (∀ r, st ≠ DDone r) → valid_message m → send_message m = Ok w →
  select_step nd st eof (w ++ rest) =
    Some ((select_recv nd st m).1, rest, (select_recv nd st m).2).
Proof.
  intros Hst Hv Hw. unfold select_step. rewrite (recv_message_sent m) by done.
  destruct (select_recv nd st m). destruct st; naive_solver.
Qed.

Lemma negotiate_step_msg st eof m w rest :
  (∀ r, st ≠ LDone r) → valid_message m → send_message m = Ok w →
  negotiate_step nl st eof (w ++ rest) =
    Some ((negotiate_recv nl st m).1, rest, (negotiate_recv nl st m).2).
Proof.
  intros Hst Hv Hw. unfold negotiate_step. rewrite (recv_message_sent m) by done.
  destruct (negotiate_recv nl st m). destruct st; naive_solver.
Qed.

Lemma phase_listener_asked pre tp p others :
  neg_protocols nd = pre ++ (tp, p) :: others → Forall unsupported pre →
  ∃ k, k < 2 * length others + 3 ∧
    Phase k (mk_Sys (DWaitReply (tp, p) others (fst <$> pre))
      (negotiate_recv nl LWaitRequest (MProtocol p)).1 []
      (negotiate_recv nl LWaitRequest (MProtocol p)).2 [] []).
Proof.
  intros He Hpre. cbn [negotiate_recv]. destruct (find_protocol nl p) as [tl|] eqn:Hf; unfold l_send.
  - destruct (send_protocol_ok p) as [w Hw]; [by eapply names_elem|]. rewrite Hw.
    exists 1. split; [lia|]. rewrite <-(app_nil_r w). by eapply Ph_accept.
  - destruct (send_message_ok NotAvailable) as [w Hw]; [vm_compute; lia|]. rewrite Hw.
    exists (2 * length others + 2). split; [lia|]. eapply Ph_reject; [done| |done].
    apply Forall_app. split; [done|]. by constructor.
Qed.

Lemma phase_step k s s' : Phase k s → party_step s s' → ∃ k', k' < k ∧ Phase k' s'.
Proof.
  intros Hph Hst. destruct Hst as [s st rest out Hex|s st rest out Hex]; destruct Hph;
    unfold listener_failed, dialer_failed in Hex; cbn [dial lis d2l l2d app_d app_l] in *;
    try (rewrite select_waits in Hex; done); try (rewrite negotiate_waits in Hex; done); try done;
    try rewrite <-(app_nil_r w) in Hex.
  - rewrite (select_step_msg _ _ (Header V1)) in Hex by done. cbn [select_recv] in Hex.
    rewrite decide_True in Hex by done. injection Hex as <- <- <-.
    destruct (phase_next [] (neg_protocols nd)) as (k'&?&?); [done|done|]. exists k'. split; [lia|done].
  - rewrite (select_step_msg _ _ NotAvailable) in Hex by done. injection Hex as <- <- <-.
    destruct (phase_next (pre ++ [(tp, p)]) others) as (k'&?&Hk); [by rewrite <-app_assoc|done|].
    rewrite fmap_app in Hk. exists k'. split; [lia|exact Hk].
  - pose proof (names_elem _ _ _ _ H3) as [Hp Hneg].
    rewrite app_nil_r, (select_step_msg _ _ (MProtocol p)) in Hex by done.
    cbn [select_recv fst snd] in Hex. rewrite decide_True in Hex by done. injection Hex as <- <- <-.
    exists 0. split; [lia|]. by eapply Ph_agreed.
  - rewrite (negotiate_step_msg _ _ (Header V1)) in Hex by done. injection Hex as <- <- <-.
    exists (2 * length (neg_protocols nd) + 2). split; [lia|]. by apply Ph_header.
  - pose proof (names_elem _ _ _ _ H3) as [_ Hneg].
    rewrite (negotiate_step_msg _ _ (MProtocol p)) in Hex by done. injection Hex as <- <- <-.
    by apply phase_listener_asked.
  - injection Hex as <- <- <-. exists 0. split; [lia|]. by constructor.
Qed.

Lemma phase_progress k s : Phase k s → both_done s ∨ ∃ s', party_step s s'.
Proof.
  destruct 1; try by left.
  all: right; eexists.
  - apply step_listener. cbn [lis d2l]. rewrite <-(app_nil_r w). by apply (negotiate_step_msg _ _ (Header V1)).
  - apply step_dialer. cbn [dial l2d]. rewrite <-(app_nil_r w). by apply (select_step_msg _ _ (Header V1)).
  - pose proof (names_elem _ _ _ _ H3) as [_ Hneg]. apply step_listener. cbn [lis d2l].
    rewrite <-(app_nil_r w). by apply (negotiate_step_msg _ _ (MProtocol p)).
  - apply step_dialer. cbn [dial l2d]. rewrite <-(app_nil_r w). by apply (select_step_msg _ _ NotAvailable).
  - pose proof (names_elem _ _ _ _ H3) as [_ Hneg]. apply step_dialer. cbn [dial l2d].
    by apply (select_step_msg _ _ (MProtocol p)).
  - by apply step_listener.
Qed.

Lemma phase_app k s s' : Phase k s → app_step s s' → Phase k s'.
Proof.
  intros Hph Hst. destruct Hst as [s r data Hd|s r data Hl]; destruct Hph;
    cbn [dial lis d2l l2d app_d app_l] in *; simplify_eq.
  - by eapply Ph_agreed.
  - rewrite <-app_assoc. by eapply Ph_accept.
  - by eapply Ph_agreed.
Qed.

Lemma reach_phase n s :
  reach n s → ∃ k, n + k ≤ 2 * length (neg_protocols nd) + 3 ∧ Phase k s.
Proof.
  induction 1 as [|n s s' _ (k&Hk&Hph) Hst|n s s' _ (k&Hk&Hph) Hst].
  - unfold sys_start, select_start, d_send.
    destruct (send_message_ok (Header V1)) as [w Hw]; [vm_compute; lia|]. rewrite Hw.
    eexists. split; [|by constructor]. lia.
  - destruct (phase_step _ _ _ Hph Hst) as (k'&?&?). exists k'. split; [lia|done].
  - exists k. split; [done|]. by eapply phase_app.
Qed.

(** What the parties have agreed on. *)
Definition agreed (tp : TD) (tl : TL) : Prop :=
  ∃ pre p others, neg_protocols nd = pre ++ (tp, p) :: others ∧ Forall unsupported pre ∧
    find_protocol nl p = Some tl.

Lemma phase_outcome k s :
  Phase k s →
  match dial s with
  | DDone (Ok tp) => ∃ tl, agreed tp tl ∧ lis s = LDone (Ok tl) ∧ d2l s = app_d s ∧ l2d s = app_l s
  | DDone (Err e) => e = NegFailed (fst <$> neg_protocols nd) ∧ Forall unsupported (neg_protocols nd)
  | _ => True
  end ∧
  match lis s with
  | LDone (Ok tl) => (∃ tp, agreed tp tl) ∧ d2l s = app_d s
  | LDone (Err e) =>
      e = NegProtocolError (IoError UnexpectedEof) ∧ Forall unsupported (neg_protocols nd)
  | _ => True
  end.
Proof.
  destruct 1; cbn [dial lis d2l l2d app_d app_l]; try done.
  - split; [done|]. split; [|done]. exists tp, pre, p, others. done.
  - split; [exists tl; split_and!; [|done..]; by exists pre, p, others|].
    split; [exists tp; by exists pre, p, others|done].
Qed.
End system.

Lemma new_with_protocols_names {TProto} `{ToBytes TProto} (names : list TProto) :
  Forall (λ n, negotiable (to_bytes n)) names →
  neg_protocols (new_with_protocols names) = (λ n, (n, to_bytes n)) <$> names.
Proof.
  induction 1 as [|n names (Hh&Hl&_) Hns IH]; [done|]. unfold new_with_protocols in *.
  cbn [neg_protocols omap list_omap] in *.
  rewrite Protocol_try_from_valid by (split; [done|lia]). by rewrite fmap_cons, <-IH.
Qed.

Lemma new_with_protocols_negotiable {TProto} `{ToBytes TProto} (names : list TProto) :
  Forall (λ n, negotiable (to_bytes n)) names →
  Forall (λ q : TProto * Protocol, q.2 = to_bytes q.1 ∧ negotiable q.2)
    (neg_protocols (new_with_protocols names)).
Proof.
  intros Hns. rewrite new_with_protocols_names by done. rewrite Forall_fmap.
  eapply Forall_impl; [exact Hns|]. done.
Qed.

(** ** Properties *)

Section properties.
Context `{VarintLaws} {TD TL : Type} `{ToBytes TD, ToBytes TL}.


(** [C34] Every negotiation ends.  Under the same conditions on the names, in
    every reachable state that is not final one of the parties can take a step,
    and there are at most [2 n + 3] such steps for [n] protocols of the dialer. *)
Theorem negotiation_terminates (names : list TD) (nl : Negotiator TL) n s
    (Hnames : Forall (λ t, negotiable (to_bytes t)) names)
    (Hr : reach (new_with_protocols names) nl n s) :
  n ≤ 2 * length names + 3 ∧
  (both_done s ∨ ∃ s', party_step (new_with_protocols names) nl s s').
Proof.
  destruct (reach_phase _ nl (new_with_protocols_negotiable _ Hnames) n s Hr) as (k&Hk&Hph).
  rewrite new_with_protocols_names, length_fmap in Hk by done. split; [lia|].
  apply (phase_progress _ nl (new_with_protocols_negotiable _ Hnames) k s Hph).
Qed.

(** Decoding inverts encoding, for all messages whose names are acceptable:
    those of a list up to 140 bytes, the one of a proposal up to 139 bytes and
    not that of multistream-select itself.  What is decoded always has valid
    names, and at most 1000 of them. *)
Theorem message_roundtrip (m : Message) (msg : bytes) (m' : Message) (Hv : valid_message m)
    (Hd : message_decode msg = Ok m') :
  message_decode (message_encode m) = Ok m ∧
  match m' with
  | MProtocol p => valid_name p
  | Protocols ps => Forall valid_name ps ∧ (Z.of_nat (length ps) ≤ MAX_PROTOCOLS)%Z
  | _ => True
  end.
Proof. split; [by apply message_decode_encode|by eapply message_decode_sound]. Qed.

(** A protocol name of the maximal length can be registered, but neither side
    can propose or confirm it. *)
Theorem protocol_name_140_lost (p : Protocol) (Hh : head p = Some SLASH)
    (Hl : length p = MAX_PROTOCOL_LEN) :
  Protocol_try_from p = Ok p ∧ ∃ e, message_decode (message_encode (MProtocol p)) = Err e.
Proof.
  split; [apply Protocol_try_from_valid; split; [done|lia]|]. by apply decode_name_140.
Qed.
End properties.

(** ** Witnesses *)

#[local] Existing Instance leb128.
#[local] Instance bytes_to_bytes : ToBytes bytes := λ b, b.

Definition sample_names : list bytes := [b_str "/chat/1"; b_str "/ping/2"].
Local Abbreviation sample_dialer := (new_with_protocols sample_names).
Definition sample_listener : Negotiator bytes := new_with_protocols [b_str "/sync/3"; b_str "/ping/2"].

(** A step of the dialer, and of the listener. *)
Definition exec_d (s : Sys (TD := bytes) (TL := bytes)) : Sys :=
  match select_step sample_dialer (dial s) (listener_failed s) (l2d s) with
  | Some (st, rest, out) => mk_Sys st (lis s) (d2l s ++ out) rest (app_d s) (app_l s)
  | None => s
  end.

Definition exec_l (s : Sys (TD := bytes) (TL := bytes)) : Sys :=
  match negotiate_step sample_listener (lis s) (dialer_failed s) (d2l s) with
  | Some (st, rest, out) => mk_Sys (dial s) st rest (l2d s ++ out) (app_d s) (app_l s)
  | None => s
  end.

Lemma reach_exec_d n s :
  reach sample_dialer sample_listener n s →
  is_Some (select_step sample_dialer (dial s) (listener_failed s) (l2d s)) →
  reach sample_dialer sample_listener (S n) (exec_d s).
Proof.
  intros Hr [[[st rest] out] Hex]. eapply reach_party; [exact Hr|]. unfold exec_d. rewrite Hex.
  by apply step_dialer.
Qed.

Lemma reach_exec_l n s :
  reach sample_dialer sample_listener n s →
  is_Some (negotiate_step sample_listener (lis s) (dialer_failed s) (d2l s)) →
  reach sample_dialer sample_listener (S n) (exec_l s).
Proof.
  intros Hr [[[st rest] out] Hex]. eapply reach_party; [exact Hr|]. unfold exec_l. rewrite Hex.
  by apply step_listener.
Qed.

(** The headers, a rejected and a confirmed proposal. *)
Definition sample_final : Sys := exec_d (exec_l (exec_d (exec_l (exec_d (exec_l sys_start))))).

Lemma sample_final_reach : reach sample_dialer sample_listener 6 sample_final.
Proof.
  assert (Hsome : ∀ A (o : option A), bool_decide (is_Some o) = true → is_Some o).
  { intros A o. apply bool_decide_eq_true. }
  refine (reach_exec_d 5 _ (reach_exec_l 4 _ (reach_exec_d 3 _ (reach_exec_l 2 _
    (reach_exec_d 1 _ (reach_exec_l 0 _ (reach_start _ _) _) _) _) _) _) _);
    apply Hsome; vm_compute; reflexivity.
Qed.

Lemma sample_names_negotiable : Forall (λ t : bytes, negotiable (to_bytes t)) sample_names.
Proof. unfold negotiable. by_eval. Qed.


Lemma negotiation_terminates_witness :
  both_done sample_final ∨
  ∃ s', party_step sample_dialer sample_listener sample_final s'.
Proof.
  exact (proj2 (negotiation_terminates sample_names sample_listener 6 sample_final
    sample_names_negotiable sample_final_reach)).
Defined.

Lemma message_roundtrip_witness :
  message_decode (message_encode (Protocols [b_str "/a"; b_str "/b"])) =
    Ok (Protocols [b_str "/a"; b_str "/b"]).
Proof.
  refine (proj1 (message_roundtrip (Protocols [b_str "/a"; b_str "/b"]) MSG_LS ListProtocols
    (conj _ _) _)).
  - unfold valid_name. by_eval.
  - vm_compute. discriminate.
  - vm_compute. reflexivity.
Defined.
