(* ===== verification/Mplex.v ===== *)
(** * Mplex

    The stream multiplexer of [protocols/mplex]: the headers and frames
    ([frame.rs], [frame/header.rs], [frame/io.rs], [frame/length_delimited.rs]),
    the [Connection] of [connection.rs] as a state machine on frames, stream
    commands and control commands, the reading side of a [Stream], and the system
    of two connected endpoints. *)

From Stdlib Require Import ZArith Lia.
From S2P Require Import Prelude Varint Framing.

Local Open Scope Z_scope.

(** ** Headers *)

Record StreamID := mk_StreamID { sid_id : Z; sid_initiator : bool }.

#[global] Instance StreamID_eq_dec : EqDecision StreamID.
Proof. solve_decision. Defined.
#[global] Program Instance StreamID_countable : Countable StreamID :=
  inj_countable (λ s, (sid_id s, sid_initiator s)) (λ p, Some (mk_StreamID p.1 p.2)) _.
Next Obligation. by intros []. Qed.

(** [self.id + 10000000] on a [u32]: [None] is an overflow, a panic in a debug build. *)
Definition StreamID_val (s : StreamID) : option Z :=
  if sid_initiator s then
    if sid_id s + 10000000 <? 2 ^ 32 then Some (sid_id s + 10000000) else None
  else Some (sid_id s).

Inductive Tag := NewStream | TMessage | Close | Reset.

#[global] Instance Tag_eq_dec : EqDecision Tag.
Proof. solve_decision. Defined.

Definition tag_as_u32 (t : Tag) : Z :=
  match t with NewStream => 0 | TMessage => 2 | Close => 4 | Reset => 6 end.

Record MHeader := mk_MHeader { h_stream_id : StreamID; h_tag : Tag }.

(** [id << 3] drops the bits that leave the 32-bit word. *)
Definition u32_shl3 (id : Z) : Z := Z.shiftl id 3 mod 2 ^ 32.

Definition header_encode (hdr : MHeader) : Z :=
  let tag := tag_as_u32 (h_tag hdr) in
  let id := sid_id (h_stream_id hdr) in
  if (tag =? 0) || sid_initiator (h_stream_id hdr) then u32_shl3 id + tag
  else u32_shl3 id + tag - 1.

Definition header_decode (header_byte : Z) : result Z MHeader :=
  let tag := Z.land header_byte 7 in
  let remote_initiator := Z.land tag 1 =? 0 in
  let id := mk_StreamID (Z.shiftr header_byte 3) (negb remote_initiator) in
  if tag =? 0 then Ok (mk_MHeader id NewStream)
  else if (tag =? 1) || (tag =? 2) then Ok (mk_MHeader id TMessage)
  else if (tag =? 3) || (tag =? 4) then Ok (mk_MHeader id Close)
  else if (tag =? 5) || (tag =? 6) then Ok (mk_MHeader id Reset)
  else Err tag.

(** ** Frames *)

Record Frame := mk_Frame { f_header : MHeader; f_body : bytes }.

Definition f_stream_id (f : Frame) : StreamID := h_stream_id (f_header f).
Definition f_tag (f : Frame) : Tag := h_tag (f_header f).

Definition new_stream_frame (s : StreamID) (body : bytes) : Frame := mk_Frame (mk_MHeader s NewStream) body.
Definition message_frame (s : StreamID) (body : bytes) : Frame := mk_Frame (mk_MHeader s TMessage) body.
Definition close_frame (s : StreamID) : Frame := mk_Frame (mk_MHeader s Close) [].
Definition reset_frame (s : StreamID) : Frame := mk_Frame (mk_MHeader s Reset) [].

Section frame_io.
Context `{Varint}.

Definition MAX_MESSAGE_SIZE : Z := 2 ^ 20.
Definition U32_LEN : nat := 5.

Inductive FrameDecodeError :=
  | FIo (kind : IoErrorKind)
  | FHeader (tag : Z)
  | FrameTooLarge (n : Z).

(** The buffer has [U32_LEN] bytes, zero where nothing was read yet. *)
Fixpoint read_uvarint_loop (fuel : nat) (buf : bytes) : Reader Z :=
  match fuel with
  | O => rd_ret 0
  | S fuel =>
      let! piece := read_exact 1 in
      let buf := buf ++ piece in
      match last buf with
      | None => rd_panic
      | Some b =>
          if byte.unsigned b <? 128 then
            match uvi_decode 32 (buf ++ replicate (U32_LEN - length buf) Byte.x00) with
            | Ok (len, _) => rd_ret len
            | Err _ => rd_fail InvalidData
            end
          else read_uvarint_loop fuel buf
      end
  end.

Definition read_uvarint : Reader Z := read_uvarint_loop U32_LEN [].

(** [IO::recv_frame]; an error of the frame is a value of the reader. *)
Definition mplex_recv_frame : Reader (result FrameDecodeError Frame) :=
  let! header_byte := read_uvarint in
  match header_decode header_byte with
  | Err tag => rd_ret (Err (FHeader tag))
  | Ok header =>
      let! len := read_uvarint in
      if MAX_MESSAGE_SIZE <? len then rd_ret (Err (FrameTooLarge len))
      else if len =? 0 then rd_ret (Ok (mk_Frame header []))
      else
        let! body := read_exact (Z.to_nat len) in
        rd_ret (Ok (mk_Frame header body))
  end.

(** [IO::send_frame]: what is written, and the result.  The header goes out
    before the length of the body is checked. *)
Definition mplex_send_frame (f : Frame) : Written :=
  let len := Z.of_nat (length (f_body f)) mod 2 ^ 32 in
  let header := uvi_encode (header_encode (f_header f)) in
  if MAX_MESSAGE_SIZE <? len then (header, Err InvalidData)
  else (header ++ uvi_encode len ++ f_body f, Ok ()).
End frame_io.

(** ** Streams *)

Inductive StreamState := Open | SendClosed | RecvClosed.

#[global] Instance StreamState_eq_dec : EqDecision StreamState.
Proof. solve_decision. Defined.

Definition can_read (s : StreamState) : bool := bool_decide (s ≠ RecvClosed).
Definition can_write (s : StreamState) : bool := bool_decide (s ≠ SendClosed).

(** The reading side of a [Stream]: its buffer and the channel that the
    connection fills. *)
Record StreamReader := mk_StreamReader {
  sr_buffer : bytes;
  sr_queue : list bytes;
  sr_ended : bool
}.

Inductive PollRead :=
  | ReadReady (data : bytes)
  | ReadEof
  | ReadPending.

Definition poll_read (r : StreamReader) (buf_len : nat) : StreamReader * PollRead :=
  match sr_buffer r with
  | _ :: _ =>
      let len := Nat.min (length (sr_buffer r)) buf_len in
      (mk_StreamReader (drop len (sr_buffer r)) (sr_queue r) (sr_ended r),
        ReadReady (take len (sr_buffer r)))
  | [] =>
      match sr_queue r with
      | data :: queue =>
          let len := Nat.min (length data) buf_len in
          (mk_StreamReader (drop len data) queue (sr_ended r), ReadReady (take len data))
      | [] => (r, if sr_ended r then ReadEof else ReadPending)
      end
  end.

(** ** The connection *)

Inductive ConnectionError :=
  | CEIo (kind : IoErrorKind)
  | CEDecode (e : FrameDecodeError)
  | CENoMoreStreamIds
  | CEClosed.

(** A [ReplyTo] is the sender of a one-shot channel. *)
Abbreviation ReplyTo := nat (only parsing).

Inductive Shutdown :=
  | ShNotStarted
  | ShInProgress (tx : ReplyTo)
  | ShComplete.

Record MConn := mk_MConn {
  mc_shutdown : Shutdown;
  mc_next_stream_id : Z;
  mc_streams : gset StreamID;
  mc_stat : gmap StreamID StreamState;
  mc_commands_closed : bool;
  mc_control_paused : bool;
  mc_control_closed : bool;
  mc_waiting : option ReplyTo;
  mc_pending : list StreamID
}.

Definition MConn_new : MConn := mk_MConn ShNotStarted 0 ∅ ∅ false false false None [].

Definition mc_set_streams (c : MConn) (streams : gset StreamID) (stat : gmap StreamID StreamState)
    : MConn :=
  mk_MConn (mc_shutdown c) (mc_next_stream_id c) streams stat (mc_commands_closed c)
    (mc_control_paused c) (mc_control_closed c) (mc_waiting c) (mc_pending c).

Definition mc_set_accept (c : MConn) (waiting : option ReplyTo) (pending : list StreamID) : MConn :=
  mk_MConn (mc_shutdown c) (mc_next_stream_id c) (mc_streams c) (mc_stat c) (mc_commands_closed c)
    (mc_control_paused c) (mc_control_closed c) waiting pending.

Definition mc_set_next (c : MConn) (next : Z) : MConn :=
  mk_MConn (mc_shutdown c) next (mc_streams c) (mc_stat c) (mc_commands_closed c)
    (mc_control_paused c) (mc_control_closed c) (mc_waiting c) (mc_pending c).

Definition mc_set_shutdown (c : MConn) (sh : Shutdown) (commands paused control : bool) : MConn :=
  mk_MConn sh (mc_next_stream_id c) (mc_streams c) (mc_stat c) commands paused control
    (mc_waiting c) (mc_pending c).

Inductive MEffect :=
  | EWrite (f : Frame)
  | EDeliver (s : StreamID) (body : bytes)
  | EReplyStream (tx : ReplyTo) (r : result ConnectionError StreamID)
  | EReplyUnit (tx : ReplyTo)
  | ECloseWriter.

(** What a handler meets: how the push into the channel of a stream ends
    (delivered within the timeout or not, or its receiver was dropped), whether
    the writer accepts a frame, and whether the receiver of a reply is alive. *)
Inductive ChanOutcome := ChanSent | ChanTimeout | ChanClosed.

Record MEnv := mk_MEnv {
  env_channel : ChanOutcome;
  env_write : bool;
  env_reply : bool
}.

(** The state afterwards, the effects, and the error that ends the connection.
    [None] is a panic: a reply that must not fail meets a dropped receiver. *)
Definition Handled : Type := option (MConn * list MEffect * option ConnectionError).

Definition h_ok (c : MConn) (eff : list MEffect) : Handled := Some (c, eff, None).
Definition h_err (c : MConn) (eff : list MEffect) (e : ConnectionError) : Handled :=
  Some (c, eff, Some e).

(** [writer.send_frame(..).await.or(Err(Closed))?], and then the rest. *)
Definition write_then (env : MEnv) (c : MConn) (f : Frame) (k : list MEffect → Handled) : Handled :=
  if env_write env then k [EWrite f] else h_err c [] CEClosed.

(** [reply.send(..).expect("send err")] *)
Definition reply_then (env : MEnv) (e : MEffect) (k : list MEffect → Handled) : Handled :=
  if env_reply env then k [e] else None.

Definition on_frame (env : MEnv) (c : MConn) (frame : Frame) : Handled :=
  let stream_id := f_stream_id frame in
  match f_tag frame with
  | NewStream =>
      match mc_stat c !! stream_id with
      | Some _ => h_err c [] (CEIo InvalidData)
      | None =>
          let c := mc_set_streams c ({[stream_id]} ∪ mc_streams c) (<[stream_id := Open]> (mc_stat c)) in
          match mc_waiting c with
          | Some sender =>
              reply_then env (EReplyStream sender (Ok stream_id))
                (h_ok (mc_set_accept c None (mc_pending c)))
          | None => h_ok (mc_set_accept c None (mc_pending c ++ [stream_id])) []
          end
      end
  | TMessage =>
      match mc_stat c !! stream_id with
      | None | Some RecvClosed => h_ok c []
      | Some _ =>
          if decide (stream_id ∈ mc_streams c) then
            match env_channel env with
            | ChanSent => h_ok c [EDeliver stream_id (f_body frame)]
            | ChanTimeout =>
                write_then env c (reset_frame stream_id)
                  (h_ok (mc_set_streams c (mc_streams c ∖ {[stream_id]})
                    (delete stream_id (mc_stat c))))
            | ChanClosed => h_ok (mc_set_streams c (mc_streams c ∖ {[stream_id]}) (mc_stat c)) []
            end
          else h_ok c []
      end
  | Close =>
      let streams := mc_streams c ∖ {[stream_id]} in
      let stat :=
        match mc_stat c !! stream_id with
        | Some SendClosed => delete stream_id (mc_stat c)
        | Some _ => <[stream_id := RecvClosed]> (mc_stat c)
        | None => mc_stat c
        end in
      h_ok (mc_set_streams c streams stat) []
  | Reset =>
      h_ok (mc_set_streams c (mc_streams c ∖ {[stream_id]}) (delete stream_id (mc_stat c))) []
  end.

Inductive StreamCommand :=
  | SendFrame (f : Frame)
  | CloseStream (f : Frame)
  | ResetStream (f : Frame) (reply : ReplyTo).

(** [None]: the queue of commands is closed and empty.  The [debug_assert!] is
    left out, as in a release build. *)
Definition on_stream_command (env : MEnv) (c : MConn) (cmd : option StreamCommand) : Handled :=
  match cmd with
  | Some (SendFrame frame) =>
      match mc_stat c !! f_stream_id frame with
      | Some stat => if can_write stat then write_then env c frame (h_ok c) else h_ok c []
      | None => h_ok c []
      end
  | Some (CloseStream frame) =>
      let stream_id := f_stream_id frame in
      match mc_stat c !! stream_id with
      | Some stat =>
          if can_write stat then
            let stats :=
              if decide (stat = RecvClosed) then delete stream_id (mc_stat c)
              else <[stream_id := SendClosed]> (mc_stat c) in
            write_then env c frame (h_ok (mc_set_streams c (mc_streams c) stats))
          else h_ok c []
      | None => h_ok c []
      end
  | Some (ResetStream frame reply) =>
      let stream_id := f_stream_id frame in
      match mc_stat c !! stream_id with
      | Some _ =>
          write_then env c frame (λ eff,
            h_ok (mc_set_streams c (mc_streams c ∖ {[stream_id]}) (delete stream_id (mc_stat c)))
              (eff ++ [EReplyUnit reply]))
      | None => h_ok c [EReplyUnit reply]
      end
  | None => h_ok (mc_set_shutdown c (mc_shutdown c) (mc_commands_closed c) false true) []
  end.

Inductive MControlCommand :=
  | OpenStream (reply : ReplyTo)
  | AcceptStream (reply : ReplyTo)
  | CloseConnection (reply : ReplyTo).

Definition next_stream_id (c : MConn) : result ConnectionError (MConn * StreamID) :=
  let proposed := mk_StreamID (mc_next_stream_id c) true in
  if mc_next_stream_id c + 1 <? 2 ^ 32 then Ok (mc_set_next c (mc_next_stream_id c + 1), proposed)
  else Err CENoMoreStreamIds.

(** [print] is the decimal notation of [u32]. *)
Definition on_control_command (print : Z → bytes) (env : MEnv) (c : MConn)
    (cmd : option MControlCommand) : Handled :=
  match cmd with
  | Some (OpenStream reply) =>
      match mc_shutdown c with
      | ShComplete => h_ok c [EReplyStream reply (Err CEClosed)]
      | _ =>
          match next_stream_id c with
          | Err e => h_err c [] e
          | Ok (c, stream_id) =>
              let c := mc_set_streams c ({[stream_id]} ∪ mc_streams c)
                (<[stream_id := Open]> (mc_stat c)) in
              val ← StreamID_val stream_id;
              write_then env c (new_stream_frame stream_id (print val)) (λ eff,
                reply_then env (EReplyStream reply (Ok stream_id)) (λ eff', h_ok c (eff ++ eff')))
          end
      end
  | Some (AcceptStream reply) =>
      match mc_waiting c with
      | Some _ => reply_then env (EReplyStream reply (Err CEClosed)) (h_ok c)
      | None =>
          match mc_pending c with
          | stream :: pending =>
              reply_then env (EReplyStream reply (Ok stream)) (h_ok (mc_set_accept c None pending))
          | [] => h_ok (mc_set_accept c (Some reply) []) []
          end
      end
  | Some (CloseConnection reply) =>
      match mc_shutdown c with
      | ShNotStarted =>
          h_ok (mc_set_shutdown c (ShInProgress reply) true true (mc_control_closed c)) []
      | _ => h_ok c [EReplyUnit reply]
      end
  | None =>
      let informed := match mc_shutdown c with ShInProgress tx => [EReplyUnit tx] | _ => [] end in
      let c := mc_set_shutdown c ShComplete (mc_commands_closed c) (mc_control_paused c)
        (mc_control_closed c) in
      h_err c (informed ++ [ECloseWriter]) CEClosed
  end.

(** The end of [next_stream], after [handle_coming] has returned: the caller of
    a pending accept is told, the queued control commands are answered, the
    streams are dropped, and the queued stream commands are drained.  The outer
    loop takes one stream command before the inner one answers the others. *)
Definition reply_closed (cmd : MControlCommand) : MEffect :=
  match cmd with
  | OpenStream reply | AcceptStream reply => EReplyStream reply (Err CEClosed)
  | CloseConnection reply => EReplyUnit reply
  end.

Definition drain_stream_commands (cmds : list StreamCommand) : list MEffect :=
  omap (λ cmd, match cmd with ResetStream _ reply => Some (EReplyUnit reply) | _ => None end)
    (tail cmds).

Definition next_stream_exit (env : MEnv) (c : MConn) (controls : list MControlCommand)
    (cmds : list StreamCommand) : option (MConn * list MEffect) :=
  let rest eff :=
    Some (mk_MConn (mc_shutdown c) (mc_next_stream_id c) ∅ ∅ true false true None (mc_pending c),
      eff ++ (reply_closed <$> controls) ++ drain_stream_commands cmds) in
  match mc_waiting c with
  | Some sender => if env_reply env then rest [EReplyStream sender (Err CEClosed)] else None
  | None => rest []
  end.

(** ** Endpoints

    All inputs of a connection, and the frames it has written, the frames it has
    consumed and the data it has delivered to its streams so far. *)

Inductive MInput :=
  | InFrame (f : Frame)
  | InCommand (cmd : option StreamCommand)
  | InControl (cmd : option MControlCommand).

Definition mplex_exec (print : Z → bytes) (env : MEnv) (c : MConn) (inp : MInput) : Handled :=
  match inp with
  | InFrame f => on_frame env c f
  | InCommand cmd => on_stream_command env c cmd
  | InControl cmd => on_control_command print env c cmd
  end.

(** The frames a [Stream] puts into its commands. *)
Definition command_ok (inp : MInput) : Prop :=
  match inp with
  | InCommand (Some (SendFrame f)) => ∃ s body, f = message_frame s body
  | InCommand (Some (CloseStream f)) => ∃ s, f = close_frame s
  | InCommand (Some (ResetStream f _)) => ∃ s, f = reset_frame s
  | _ => True
  end.

Definition eff_writes (eff : list MEffect) : list Frame :=
  omap (λ e, match e with EWrite f => Some f | _ => None end) eff.
Definition eff_delivers (eff : list MEffect) : list (StreamID * bytes) :=
  omap (λ e, match e with EDeliver s b => Some (s, b) | _ => None end) eff.

(** The data of the message frames of a stream, and the data delivered to it. *)
Definition messages (l : list Frame) (s : StreamID) : list bytes :=
  f_body <$> filter (λ f, f_tag f = TMessage ∧ f_stream_id f = s) l.
Definition delivered (l : list (StreamID * bytes)) (s : StreamID) : list bytes :=
  snd <$> filter (λ d, d.1 = s) l.

(** Some frame opens the stream. *)
Definition opened (l : list Frame) (s : StreamID) : Prop :=
  ∃ f, f ∈ l ∧ f_tag f = NewStream ∧ f_stream_id f = s.

(** *** What a handler changes *)

(** No stream is added, and at most one frame, of a known stream, is written. *)
Record shrinks (c c' : MConn) (w : list Frame) : Prop := mk_shrinks {
  sh_next : mc_next_stream_id c' = mc_next_stream_id c;
  sh_streams : mc_streams c' ⊆ mc_streams c;
  sh_stat s : mc_stat c !! s = None → mc_stat c' !! s = None;
  sh_live s : s ∈ mc_streams c' → mc_stat c' !! s = None ∨ mc_stat c' !! s = Some RecvClosed →
    mc_stat c !! s = None ∨ mc_stat c !! s = Some RecvClosed;
  sh_writes : w = [] ∨ ∃ f, w = [f] ∧ is_Some (mc_stat c !! f_stream_id f) ∧ f_tag f ≠ NewStream
}.

(** The stream [s] is added. *)
Record adds (c c' : MConn) (s : StreamID) : Prop := mk_adds {
  ad_streams : mc_streams c' = {[s]} ∪ mc_streams c;
  ad_stat : mc_stat c' = <[s := Open]> (mc_stat c)
}.

Definition is_error (e : option ConnectionError) : bool :=
  match e with Some _ => true | None => false end.

Lemma shrinks_refl c : shrinks c c [].
Proof. split; auto. Qed.

Lemma shrinks_same c c' w :
  mc_next_stream_id c' = mc_next_stream_id c → mc_streams c' = mc_streams c →
  mc_stat c' = mc_stat c →
  (w = [] ∨ ∃ f, w = [f] ∧ is_Some (mc_stat c !! f_stream_id f) ∧ f_tag f ≠ NewStream) →
  shrinks c c' w.
Proof. intros Hn Hs Ht Hw. split; rewrite ?Hs, ?Ht; auto. Qed.

(** A stream is removed from the channels, and its state deleted or kept. *)
Lemma shrinks_remove c s stat w :
  (∀ s', s' ≠ s → stat !! s' = mc_stat c !! s') → (mc_stat c !! s = None → stat !! s = None) →
  (w = [] ∨ ∃ f, w = [f] ∧ is_Some (mc_stat c !! f_stream_id f) ∧ f_tag f ≠ NewStream) →
  shrinks c (mc_set_streams c (mc_streams c ∖ {[s]}) stat) w.
Proof.
  intros Hs Hn Hw. split; simpl; [done|set_solver| | |done].
  - intros s' Hs'. destruct (decide (s' = s)) as [->|]; [auto|]. by rewrite Hs.
  - intros s' Hs'. rewrite Hs by set_solver. auto.
Qed.

Lemma on_frame_new env c f c' eff e :
  f_tag f = NewStream → on_frame env c f = Some (c', eff, e) →
  eff_writes eff = [] ∧ eff_delivers eff = [] ∧ mc_next_stream_id c' = mc_next_stream_id c ∧
  (c' = c ∧ is_error e = true ∨
   mc_stat c !! f_stream_id f = None ∧ adds c c' (f_stream_id f) ∧ is_error e = false).
Proof.
  unfold on_frame, reply_then, h_ok, h_err. intros ->. simpl.
  destruct (mc_stat c !! f_stream_id f) eqn:Hs; [intros; simplify_eq/=; split_and!; [done..|by left]|].
  destruct (mc_waiting c); [destruct (env_reply env); [|done]|]; intros; simplify_eq/=;
    (split_and!; [done..|]); right; (split_and!; [done| |done]); by split.
Qed.

Lemma on_frame_message env c f c' eff e :
  f_tag f = TMessage → on_frame env c f = Some (c', eff, e) →
  (c' = c ∧ eff_writes eff = [] ∧ eff_delivers eff = [(f_stream_id f, f_body f)] ∧
    f_stream_id f ∈ mc_streams c ∧ is_error e = false) ∨
  (shrinks c c' (eff_writes eff) ∧ eff_delivers eff = [] ∧
    (is_error e = true ∨ f_stream_id f ∉ mc_streams c' ∨
      mc_stat c !! f_stream_id f = None ∨ mc_stat c !! f_stream_id f = Some RecvClosed)).
Proof.
  unfold on_frame, write_then, h_ok, h_err. intros ->. simpl.
  destruct (mc_stat c !! f_stream_id f) as [st|] eqn:Hs.
  2: { intros; simplify_eq/=. right. split; [apply shrinks_refl|auto]. }
  destruct (decide (st = RecvClosed)) as [->|Hst].
  { intros; simplify_eq/=. right. split; [apply shrinks_refl|auto]. }
  assert (Hm : ∀ A (x y : A), match st with RecvClosed => x | _ => y end = y)
    by (intros; destruct st; [done|done|by destruct Hst]).
  rewrite Hm. case_decide as Hin.
  2: { intros; simplify_eq/=. right. split; [apply shrinks_refl|auto]. }
  destruct (env_channel env); [| |].
  - intros; simplify_eq/=. by left.
  - destruct (env_write env); intros; simplify_eq/=; right.
    + split; [|split; [done|right; left; set_solver]]. apply shrinks_remove.
      * intros s' ?. by apply lookup_delete_ne.
      * intros _. apply lookup_delete_eq.
      * right. eexists. split; [done|]. by eauto.
    + split; [apply shrinks_refl|auto].
  - intros; simplify_eq/=; right. split; [|split; [done|right; left; set_solver]].
    apply shrinks_remove; auto.
Qed.

Lemma on_frame_other env c f c' eff e :
  f_tag f ≠ NewStream → f_tag f ≠ TMessage → on_frame env c f = Some (c', eff, e) →
  shrinks c c' (eff_writes eff) ∧ eff_delivers eff = [].
Proof.
  unfold on_frame, h_ok. intros H1 H2. destruct (f_tag f); try done; intros; simplify_eq/=.
  - split; [|done]. apply shrinks_remove; [| |by left].
    + intros s' ?. destruct (mc_stat c !! f_stream_id f) as [[]|];
        rewrite ?lookup_insert_ne, ?lookup_delete_ne by done; done.
    + intros Hs. by rewrite !Hs.
  - split; [|done]. apply shrinks_remove; [| |by left].
    + intros s' ?. by apply lookup_delete_ne.
    + intros _. apply lookup_delete_eq.
Qed.

Lemma on_stream_command_shrinks env c cmd c' eff e :
  command_ok (InCommand cmd) → (∀ s, s ∈ mc_streams c → mc_stat c !! s ≠ Some RecvClosed) →
  on_stream_command env c cmd = Some (c', eff, e) →
  shrinks c c' (eff_writes eff) ∧ eff_delivers eff = [].
Proof.
  intros Hok Hlive. destruct cmd as [[f|f|f reply]|]; cbn [on_stream_command command_ok] in *.
  - destruct Hok as (s&body&->). unfold write_then, h_ok, h_err.
    destruct (mc_stat c !! _) as [st|] eqn:Hs; [|intros; simplify_eq/=; by eauto using shrinks_refl].
    destruct (can_write st); [destruct (env_write env)|]; intros; simplify_eq/=;
      eauto using shrinks_refl. split; [|done]. apply shrinks_same; [done..|]. right. by eauto.
  - destruct Hok as (s&->). unfold write_then, h_ok, h_err, f_stream_id in *. simpl.
    destruct (mc_stat c !! s) as [st|] eqn:Hs; [|intros; simplify_eq/=; by eauto using shrinks_refl].
    destruct (can_write st); [destruct (env_write env)|]; intros; simplify_eq/=;
      eauto using shrinks_refl. split; [|done].
    split; simpl; [done|done| | |right; eexists; split; [done|]; unfold f_stream_id; simpl; by eauto].
    + intros s' Hs'. destruct (decide (s' = s)) as [->|]; [congruence|].
      case_decide; [by rewrite lookup_delete_ne|by rewrite lookup_insert_ne].
    + intros s' Hin. destruct (decide (s' = s)) as [->|].
      * case_decide as Hd; [subst; by destruct (Hlive s)|]. rewrite lookup_insert_eq. naive_solver.
      * case_decide; [by rewrite lookup_delete_ne|by rewrite lookup_insert_ne].
  - destruct Hok as (s&->). unfold write_then, h_ok, h_err, f_stream_id in *. simpl.
    destruct (mc_stat c !! s) as [st|] eqn:Hs; [|intros; simplify_eq/=; by eauto using shrinks_refl].
    destruct (env_write env); intros; simplify_eq/=; eauto using shrinks_refl. split; [|done].
    apply shrinks_remove.
    + intros s' ?. by apply lookup_delete_ne.
    + intros _. apply lookup_delete_eq.
    + right. eexists. split; [done|]. unfold f_stream_id. simpl. by eauto.
  - unfold h_ok. intros; simplify_eq/=. split; [|done]. by apply shrinks_same; [..|left].
Qed.

Lemma on_control_command_change print env c cmd c' eff e :
  on_control_command print env c cmd = Some (c', eff, e) →
  eff_delivers eff = [] ∧
  (shrinks c c' (eff_writes eff) ∨
   let s := mk_StreamID (mc_next_stream_id c) true in
   mc_next_stream_id c' = mc_next_stream_id c + 1 ∧ adds c c' s ∧
   (eff_writes eff = [] ∧ is_error e = true ∨ ∃ body, eff_writes eff = [new_stream_frame s body])).
Proof.
  destruct cmd as [[reply|reply|reply]|]; cbn [on_control_command];
    unfold next_stream_id, write_then, reply_then, h_ok, h_err.
  - assert (Hopen : (match (if mc_next_stream_id c + 1 <? 2 ^ 32
        then Ok (mc_set_next c (mc_next_stream_id c + 1), mk_StreamID (mc_next_stream_id c) true)
        else Err CENoMoreStreamIds) with
      | Ok (c0, stream_id) =>
          let c1 := mc_set_streams c0 ({[stream_id]} ∪ mc_streams c0) (<[stream_id:=Open]> (mc_stat c0)) in
          val ← StreamID_val stream_id;
          (if env_write env then
             if env_reply env then
               Some (c1, [EWrite (new_stream_frame stream_id (print val))] ++
                 [EReplyStream reply (Ok stream_id)], None)
             else None
           else Some (c1, [], Some CEClosed))
      | Err e0 => Some (c, [], Some e0)
      end = Some (c', eff, e)) → eff_delivers eff = [] ∧
      (shrinks c c' (eff_writes eff) ∨
       let s := mk_StreamID (mc_next_stream_id c) true in
       mc_next_stream_id c' = mc_next_stream_id c + 1 ∧ adds c c' s ∧
       (eff_writes eff = [] ∧ is_error e = true ∨
        ∃ body, eff_writes eff = [new_stream_frame s body]))).
    { destruct (mc_next_stream_id c + 1 <? 2 ^ 32);
        [|intros; simplify_eq/=; by eauto using shrinks_refl].
      intros (val&_&Hk)%bind_Some. destruct (env_write env); [destruct (env_reply env); [|done]|];
        simplify_eq/=; split; [done| |done|]; right; (split_and!; [done|by split|]); eauto. }
    destruct (mc_shutdown c); [exact Hopen|exact Hopen|].
    intros; simplify_eq/=; by eauto using shrinks_refl.
  - destruct (mc_waiting c); [destruct (env_reply env); [|done]|destruct (mc_pending c);
      [|destruct (env_reply env); [|done]]]; intros; simplify_eq/=;
      (split; [done|]); left; apply shrinks_same; auto.
  - destruct (mc_shutdown c); intros; simplify_eq/=; (split; [done|]); left; apply shrinks_same; auto.
  - intros; simplify_eq/=. destruct (mc_shutdown c); simpl;
      (split; [done|]); left; apply shrinks_same; auto.
Qed.

(** *** The histories of an endpoint *)

Record Endpoint := mk_Endpoint {
  ep_conn : MConn;
  ep_out : list Frame;
  ep_in : list Frame;
  ep_got : list (StreamID * bytes);
  ep_done : bool
}.

Definition ep_new : Endpoint := mk_Endpoint MConn_new [] [] [] false.

Definition consumed (inp : MInput) : list Frame :=
  match inp with InFrame f => [f] | _ => [] end.

Definition ep_apply (e : Endpoint) (inp : MInput) (c' : MConn) (eff : list MEffect)
    (err : option ConnectionError) : Endpoint :=
  mk_Endpoint c' (ep_out e ++ eff_writes eff) (ep_in e ++ consumed inp)
    (ep_got e ++ eff_delivers eff) (is_error err).

Record ep_inv (e : Endpoint) : Prop := mk_ep_inv {
  ei_next : 0 ≤ mc_next_stream_id (ep_conn e);
  ei_live s : s ∈ mc_streams (ep_conn e) →
    is_Some (mc_stat (ep_conn e) !! s) ∧ mc_stat (ep_conn e) !! s ≠ Some RecvClosed;
  ei_own s : sid_initiator s = true →
    is_Some (mc_stat (ep_conn e) !! s) ∨ s ∈ f_stream_id <$> ep_out e →
    0 ≤ sid_id s < mc_next_stream_id (ep_conn e);
  ei_new f : f ∈ ep_out e → f_tag f = NewStream → sid_initiator (f_stream_id f) = true;
  ei_nodup : NoDup (f_stream_id <$> filter (λ f, f_tag f = NewStream) (ep_out e));
  ei_order l1 f l2 : ep_out e = l1 ++ f :: l2 → sid_initiator (f_stream_id f) = true →
    f_tag f ≠ NewStream → opened l1 (f_stream_id f);
  ei_opened s : ep_done e = false → sid_initiator s = true →
    is_Some (mc_stat (ep_conn e) !! s) → opened (ep_out e) s;
  ei_remote s : sid_initiator s = false →
    is_Some (mc_stat (ep_conn e) !! s) ∨ s ∈ f_stream_id <$> ep_out e → opened (ep_in e) s;
  ei_prefix s : delivered (ep_got e) s `prefix_of` messages (ep_in e) s;
  ei_all s : ep_done e = false → s ∈ mc_streams (ep_conn e) →
    delivered (ep_got e) s = messages (ep_in e) s
}.

Lemma messages_app l1 l2 s : messages (l1 ++ l2) s = messages l1 s ++ messages l2 s.
Proof. unfold messages. by rewrite filter_app, fmap_app. Qed.

Lemma messages_other l s : (∀ f, f ∈ l → f_tag f = TMessage → f_stream_id f ≠ s) → messages l s = [].
Proof. intros Hl. unfold messages. by rewrite filter_none by naive_solver. Qed.

Lemma delivered_app l1 l2 s : delivered (l1 ++ l2) s = delivered l1 s ++ delivered l2 s.
Proof. unfold delivered. by rewrite filter_app, fmap_app. Qed.

Lemma opened_app_l l1 l2 s : opened l1 s → opened (l1 ++ l2) s.
Proof. intros (f&?&?). exists f. set_solver. Qed.

Lemma ep_new_inv : ep_inv ep_new.
Proof.
  assert (Hno : ∀ s, ¬ is_Some ((∅ : gmap StreamID StreamState) !! s)).
  { intros s [? Hs]. by rewrite lookup_empty in Hs. }
  split; simpl.
  - done.
  - intros s Hs. by apply elem_of_empty in Hs.
  - intros s _ [Hs|Hs]; [by apply Hno in Hs|by apply not_elem_of_nil in Hs].
  - intros f Hf. by apply not_elem_of_nil in Hf.
  - constructor.
  - intros l1 f l2 Heq. by destruct l1.
  - intros s _ _ Hs. by apply Hno in Hs.
  - intros s _ [Hs|Hs]; [by apply Hno in Hs|by apply not_elem_of_nil in Hs].
  - done.
  - done.
Qed.

(** The invariant on the frames written, when frames of known streams are added. *)
Lemma order_snoc e f l1 g l2 :
  ep_inv e → ep_done e = false → is_Some (mc_stat (ep_conn e) !! f_stream_id f) →
  ep_out e ++ [f] = l1 ++ g :: l2 → sid_initiator (f_stream_id g) = true → f_tag g ≠ NewStream →
  opened l1 (f_stream_id g).
Proof.
  intros Hinv Hd Hf Heq Hi Ht. destruct l2 as [|h l2 _] using rev_ind.
  - apply app_inj_tail in Heq as [<- <-]. by apply (ei_opened e Hinv).
  - rewrite app_comm_cons, app_assoc in Heq. apply app_inj_tail in Heq as [Heq _].
    by apply (ei_order e Hinv l1 g l2).
Qed.

Lemma ep_inv_shrinks e c' w i err :
  ep_inv e → ep_done e = false → shrinks (ep_conn e) c' w →
  (∀ s, err = false → s ∈ mc_streams c' → messages i s = []) →
  ep_inv (mk_Endpoint c' (ep_out e ++ w) (ep_in e ++ i) (ep_got e) err).
Proof.
  intros Hinv Hd Hsh Hi. pose proof Hinv as [Hn Hlive Hown Hnew Hnd Hord Hop Hrem Hpre Hall].
  destruct Hsh as [Hnext Hstr Hstat Hlv Hw].
  assert (Hst : ∀ s, is_Some (mc_stat c' !! s) → is_Some (mc_stat (ep_conn e) !! s)).
  { intros s [x Hs]. destruct (mc_stat (ep_conn e) !! s) eqn:He; [by eauto|].
    rewrite (Hstat s He) in Hs. done. }
  assert (Hout : ∀ s, s ∈ f_stream_id <$> (ep_out e ++ w) →
    is_Some (mc_stat (ep_conn e) !! s) ∨ s ∈ f_stream_id <$> ep_out e).
  { intros s. rewrite fmap_app, elem_of_app. intros [?|Hs]; [by right|left].
    destruct Hw as [->|(f&->&?&_)]; [by apply not_elem_of_nil in Hs|].
    rewrite fmap_cons in Hs. apply list_elem_of_singleton in Hs as ->. done. }
  split; simpl.
  - lia.
  - intros s Hs. destruct (Hlive s (Hstr s Hs)) as [[y Hy] Hne].
    destruct (mc_stat c' !! s) as [x|] eqn:Hx.
    + split; [eauto|]. intros [= ->]. destruct (Hlv s Hs) as [?|?]; [by right|congruence|done].
    + destruct (Hlv s Hs) as [?|?]; [by left|congruence|done].
  - intros s Hi' Hs. rewrite Hnext. apply Hown; [done|]. destruct Hs as [?|?]; auto.
  - intros f [Hf|Hf]%elem_of_app Ht; [by apply Hnew|].
    destruct Hw as [->|(g&->&_&?)]; [by apply not_elem_of_nil in Hf|].
    apply list_elem_of_singleton in Hf as ->. done.
  - rewrite filter_app. destruct Hw as [->|(g&->&_&?)]; [by rewrite app_nil_r|].
    rewrite filter_cons, decide_False by done. by rewrite app_nil_r.
  - destruct Hw as [->|(g&->&Hg&_)]; [rewrite app_nil_r; exact Hord|].
    intros l1 f l2 Heq. by apply (order_snoc e g l1 f l2).
  - intros s -> Hi' Hs. apply opened_app_l. auto.
  - intros s Hi' Hs. apply opened_app_l, Hrem; [done|]. destruct Hs as [?|?]; auto.
  - intros s. rewrite messages_app. by apply prefix_app_r.
  - intros s -> Hs. rewrite messages_app, Hi, app_nil_r by done. auto.
Qed.

Lemma ep_inv_deliver e f :
  ep_inv e → ep_done e = false → f_tag f = TMessage → f_stream_id f ∈ mc_streams (ep_conn e) →
  ep_inv (mk_Endpoint (ep_conn e) (ep_out e) (ep_in e ++ [f])
    (ep_got e ++ [(f_stream_id f, f_body f)]) false).
Proof.
  intros [Hn Hlive Hown Hnew Hnd Hord Hop Hrem Hpre Hall] Hd Ht Hin.
  assert (Hs : ∀ s, delivered [(f_stream_id f, f_body f)] s = messages [f] s).
  { intros s. unfold delivered, messages. rewrite !filter_cons. simpl.
    destruct (decide (f_stream_id f = s)); [by rewrite decide_True|by rewrite decide_False by naive_solver]. }
  split; simpl; try done.
  - intros s _. auto.
  - intros s Hi Hst. apply opened_app_l. auto.
  - intros s. rewrite messages_app, delivered_app, Hs.
    destruct (decide (s = f_stream_id f)) as [->|Hne].
    + rewrite Hall by done. done.
    + rewrite (messages_other [f]); [by rewrite !app_nil_r|].
      intros g ->%list_elem_of_singleton _. done.
  - intros s _ Hst. rewrite messages_app, delivered_app, Hs, Hall by done. done.
Qed.

Lemma ep_inv_adds e c' s w i err :
  ep_inv e → ep_done e = false → adds (ep_conn e) c' s →
  mc_next_stream_id (ep_conn e) ≤ mc_next_stream_id c' →
  (sid_initiator s = true → 0 ≤ sid_id s < mc_next_stream_id c') →
  (sid_initiator s = false → opened (ep_in e ++ i) s) →
  (err = false → sid_initiator s = true → opened (ep_out e ++ w) s) →
  (w = [] ∨ ∃ body, w = [new_stream_frame s body] ∧ sid_initiator s = true ∧
    s ∉ f_stream_id <$> ep_out e) →
  (∀ s', messages i s' = []) → messages (ep_in e) s = [] →
  ep_inv (mk_Endpoint c' (ep_out e ++ w) (ep_in e ++ i) (ep_got e) err).
Proof.
  intros [Hn Hlive Hown Hnew Hnd Hord Hop Hrem Hpre Hall] Hd [Hstr Hstat] Hnx Hso Hsr Hsop Hw Hi Hm.
  assert (Hlk : ∀ s', is_Some (mc_stat c' !! s') → s' = s ∨ is_Some (mc_stat (ep_conn e) !! s')).
  { intros s'. rewrite Hstat. destruct (decide (s' = s)) as [->|]; [by left|].
    rewrite lookup_insert_ne by done. by right. }
  assert (Hout : ∀ s', s' ∈ f_stream_id <$> (ep_out e ++ w) →
    s' = s ∨ s' ∈ f_stream_id <$> ep_out e).
  { intros s'. rewrite fmap_app, elem_of_app. intros [?|Hs]; [by right|left].
    destruct Hw as [->|(body&->&_)]; [by apply not_elem_of_nil in Hs|].
    by apply list_elem_of_singleton in Hs. }
  split; simpl.
  - lia.
  - intros s'. rewrite Hstr, Hstat, elem_of_union, elem_of_singleton. intros [->|Hs].
    + rewrite lookup_insert_eq. split; [by eexists|done].
    + destruct (decide (s' = s)) as [->|]; [rewrite lookup_insert_eq; split; [by eexists|done]|].
      rewrite lookup_insert_ne by done. auto.
  - intros s' Hi' Hs. assert (Hs' : s' = s ∨ is_Some (mc_stat (ep_conn e) !! s') ∨
      s' ∈ f_stream_id <$> ep_out e) by (destruct Hs as [[|]%Hlk|[|]%Hout]; auto).
    destruct Hs' as [->|Hs']; [auto|]. pose proof (Hown s' Hi' Hs'). lia.
  - intros f [Hf|Hf]%elem_of_app Ht; [by apply Hnew|].
    destruct Hw as [->|(body&->&?&_)]; [by apply not_elem_of_nil in Hf|].
    apply list_elem_of_singleton in Hf as ->. done.
  - rewrite filter_app. destruct Hw as [->|(body&->&_&Hnin)]; [by rewrite app_nil_r|].
    rewrite filter_cons, decide_True by done. rewrite fmap_app. simpl.
    apply NoDup_app. split_and!; [done| |apply NoDup_singleton].
    intros x Hx Hxs%list_elem_of_singleton. apply Hnin. change (x = s) in Hxs. rewrite <-Hxs.
    apply list_elem_of_fmap in Hx as (f&->&Hf). apply list_elem_of_fmap_2.
    by apply list_elem_of_filter in Hf as [_ ?].
  - destruct Hw as [->|(body&->&_)]; [rewrite app_nil_r; exact Hord|].
    intros l1 f l2 Heq Hi' Ht. destruct l2 as [|h l2 _] using rev_ind.
    + apply app_inj_tail in Heq as [_ <-]. done.
    + rewrite app_comm_cons, app_assoc in Heq. apply app_inj_tail in Heq as [Heq _].
      by apply (Hord l1 f l2).
  - intros s' He Hi' [->|Hs]%Hlk; [auto|]. apply opened_app_l. auto.
  - intros s' Hi' Hs. assert (Hs' : s' = s ∨ is_Some (mc_stat (ep_conn e) !! s') ∨
      s' ∈ f_stream_id <$> ep_out e) by (destruct Hs as [[|]%Hlk|[|]%Hout]; auto).
    destruct Hs' as [->|Hs']; [auto|]. by apply opened_app_l, Hrem.
  - intros s'. rewrite messages_app, Hi, app_nil_r. done.
  - intros s' _ Hs. rewrite messages_app, Hi, app_nil_r. rewrite Hstr in Hs.
    apply elem_of_union in Hs as [->%elem_of_singleton|Hs]; [|auto].
    specialize (Hpre s). rewrite Hm in *. by apply prefix_nil_inv in Hpre.
Qed.

(** The conditions under which an input keeps the invariant: a stream that is
    opened has no history. *)
Definition fresh_input (e : Endpoint) (inp : MInput) : Prop :=
  match inp with
  | InFrame f => f_tag f = NewStream →
      sid_initiator (f_stream_id f) = false ∧ messages (ep_in e) (f_stream_id f) = []
  | InCommand _ => True
  | InControl _ =>
      messages (ep_in e) (mk_StreamID (mc_next_stream_id (ep_conn e)) true) = []
  end.

Lemma ep_inv_step print env e inp c' eff err :
  ep_inv e → ep_done e = false → command_ok inp → fresh_input e inp →
  mplex_exec print env (ep_conn e) inp = Some (c', eff, err) →
  ep_inv (ep_apply e inp c' eff err).
Proof.
  intros Hinv Hd Hok Hfresh Hex. unfold ep_apply. destruct inp as [f|cmd|cmd]; simpl in *.
  - destruct (decide (f_tag f = NewStream)) as [Ht|Ht].
    { destruct (on_frame_new _ _ _ _ _ _ Ht Hex) as (->&->&Hnx&Hcase). rewrite (app_nil_r (ep_got e)).
      assert (Hm : ∀ s, messages [f] s = []).
      { intros s. apply messages_other. intros g ->%list_elem_of_singleton. by rewrite Ht. }
      destruct Hcase as [[-> He]|(Hs&Hadd&->)].
      - by apply (ep_inv_shrinks e _ [] [f]); [..|apply shrinks_refl|].
      - destruct (Hfresh Ht) as [Hi Hmsg]. eapply ep_inv_adds; [done..| | | | | | |exact Hmsg]; try done.
        + lia.
        + by rewrite Hi.
        + intros _. exists f. set_solver.
        + by rewrite Hi.
        + by left. }
    destruct (decide (f_tag f = TMessage)) as [Hm|Hm].
    { destruct (on_frame_message _ _ _ _ _ _ Hm Hex) as [(->&->&->&Hin&->)|(Hsh&->&Hcase)].
      - rewrite app_nil_r. by apply ep_inv_deliver.
      - rewrite (app_nil_r (ep_got e)). apply ep_inv_shrinks; [done..|]. intros s He Hs.
        apply messages_other. intros g ->%list_elem_of_singleton _ <-.
        destruct (ei_live e Hinv _ (sh_streams _ _ _ Hsh _ Hs)) as [[x Hx] Hne].
        destruct Hcase as [?|[?|[?|?]]]; congruence. }
    destruct (on_frame_other _ _ _ _ _ _ Ht Hm Hex) as [Hsh ->]. rewrite (app_nil_r (ep_got e)).
    apply ep_inv_shrinks; [done..|]. intros s _ _. apply messages_other.
    by intros g ->%list_elem_of_singleton.
  - destruct (on_stream_command_shrinks _ _ _ _ _ _ Hok (λ s Hs, proj2 (ei_live e Hinv s Hs)) Hex)
      as [Hsh ->]. rewrite (app_nil_r (ep_got e)). by apply ep_inv_shrinks.
  - destruct (on_control_command_change _ _ _ _ _ _ _ Hex) as [-> [Hsh|(Hnx&Hadd&Hw)]];
      rewrite (app_nil_r (ep_got e)).
    { by apply ep_inv_shrinks. }
    pose proof (ei_next e Hinv). eapply ep_inv_adds; [done..| | | | | | |exact Hfresh]; try done.
    + lia.
    + simpl. lia.
    + intros He _. destruct Hw as [[_ ?]|(body&->)]; [congruence|].
      eexists. rewrite elem_of_app, list_elem_of_singleton. by split; [right|].
    + destruct Hw as [[? _]|(body&->)]; [by left|right]. exists body. split_and!; [done..|].
      intros Hin. pose proof (ei_own e Hinv (mk_StreamID (mc_next_stream_id (ep_conn e)) true) eq_refl (or_intror Hin)). simpl in *. lia.
Qed.

(** ** Headers on the wire *)

Definition flip_id (s : StreamID) : StreamID := mk_StreamID (sid_id s) (negb (sid_initiator s)).
Definition flip (f : Frame) : Frame :=
  mk_Frame (mk_MHeader (flip_id (f_stream_id f)) (f_tag f)) (f_body f).

Lemma header_decode_eq id t :
  0 ≤ id → 0 ≤ t < 8 → Z.land (8 * id + t) 7 = t ∧ Z.shiftr (8 * id + t) 3 = id.
Proof.
  intros Hid Ht. change 7 with (Z.ones 3). rewrite Z.land_ones, Z.shiftr_div_pow2 by lia.
  change (2 ^ 3) with 8. rewrite (Z.mul_comm 8). split.
  - rewrite Z.add_comm, Z.mod_add by lia. by apply Z.mod_small.
  - rewrite Z.div_add_l by lia. rewrite Z.div_small by lia. lia.
Qed.

Lemma u32_shl3_small id : 0 ≤ id < 2 ^ 29 → u32_shl3 id = 8 * id.
Proof.
  intros. unfold u32_shl3. rewrite Z.shiftl_mul_pow2 by lia. change (2 ^ 3) with 8.
  rewrite Z.mod_small; lia.
Qed.

Lemma header_decode_at v id t :
  v = 8 * id + t → 0 ≤ id → 0 ≤ t < 8 →
  header_decode v =
    let s := mk_StreamID id (negb (Z.land t 1 =? 0)) in
    if t =? 0 then Ok (mk_MHeader s NewStream)
    else if (t =? 1) || (t =? 2) then Ok (mk_MHeader s TMessage)
    else if (t =? 3) || (t =? 4) then Ok (mk_MHeader s Close)
    else if (t =? 5) || (t =? 6) then Ok (mk_MHeader s Reset)
    else Err t.
Proof.
  intros -> Hid Ht. unfold header_decode. by destruct (header_decode_eq id t Hid Ht) as [-> ->].
Qed.

Lemma header_wire id init tag :
  0 ≤ id < 2 ^ 29 →
  header_decode (header_encode (mk_MHeader (mk_StreamID id init) tag)) =
    Ok (mk_MHeader (mk_StreamID id (if decide (tag = NewStream) then false else negb init)) tag).
Proof.
  intros Hid. unfold header_encode. cbn [h_tag h_stream_id sid_id sid_initiator].
  rewrite u32_shl3_small by done.
  set (t := if decide (tag = NewStream) then 0 else if init then tag_as_u32 tag else tag_as_u32 tag - 1).
  rewrite (header_decode_at _ id t); [by destruct tag, init|..|lia|];
    destruct tag, init; simpl in t; subst t; simpl; lia.
Qed.

Lemma header_encode_range hdr :
  0 ≤ sid_id (h_stream_id hdr) < 2 ^ 29 → 0 ≤ header_encode hdr < 2 ^ 32.
Proof.
  intros Hid. unfold header_encode. rewrite u32_shl3_small by done.
  destruct (h_tag hdr); cbn [tag_as_u32 Z.eqb orb]; destruct (sid_initiator (h_stream_id hdr)); lia.
Qed.

(** A frame as the other side decodes it. *)
Definition wire (f f' : Frame) : Prop :=
  header_decode (header_encode (f_header f)) = Ok (f_header f') ∧ f_body f' = f_body f.

Lemma wire_flip f f' :
  0 ≤ sid_id (f_stream_id f) < 2 ^ 29 →
  (f_tag f = NewStream → sid_initiator (f_stream_id f) = true) → wire f f' → f' = flip f.
Proof.
  intros Hid Hnew [Hh Hb]. destruct f as [[[id init] tag] body], f' as [h' body'].
  unfold flip, flip_id, f_stream_id, f_tag in *. simpl in *. rewrite header_wire in Hh by done.
  injection Hh as <-. subst body'. do 3 f_equal. case_decide; [|done]. by rewrite Hnew.
Qed.

Lemma flip_id_involutive s : flip_id (flip_id s) = s.
Proof. destruct s as [id init]. unfold flip_id. simpl. by rewrite negb_involutive. Qed.

Lemma messages_flip l s : messages (flip <$> l) (flip_id s) = messages l s.
Proof.
  unfold messages. induction l as [|f l IH]; [done|]. rewrite fmap_cons, !filter_cons.
  assert (Hiff : f_stream_id (flip f) = flip_id s ↔ f_stream_id f = s).
  { change (f_stream_id (flip f)) with (flip_id (f_stream_id f)). split; [|by intros ->].
    intros Heq%(f_equal flip_id). by rewrite !flip_id_involutive in Heq. }
  change (f_tag (flip f)) with (f_tag f).
  destruct (decide (f_tag f = TMessage ∧ f_stream_id f = s)) as [[? ?]|Hn].
  - rewrite decide_True by (split; [done|by apply Hiff]). rewrite !fmap_cons. by f_equal.
  - rewrite decide_False; [done|]. rewrite Hiff. done.
Qed.

(** ** Two endpoints

    [peer_step x y x']: the endpoint [x], whose peer is [y], makes a step.  The
    next frame it can receive is the first one of [y] it has not consumed. *)

Section two_endpoints.
Variable print : Z → bytes.

Inductive peer_step (x y : Endpoint) : Endpoint → Prop :=
  | ps_local env inp c' eff err :
      ep_done x = false → command_ok inp → consumed inp = [] →
      mplex_exec print env (ep_conn x) inp = Some (c', eff, err) →
      peer_step x y (ep_apply x inp c' eff err)
  | ps_frame env f f' c' eff err :
      ep_done x = false → ep_out y !! length (ep_in x) = Some f → wire f f' →
      mplex_exec print env (ep_conn x) (InFrame f') = Some (c', eff, err) →
      peer_step x y (ep_apply x (InFrame f') c' eff err).

Inductive mplex_reach : Endpoint → Endpoint → Prop :=
  | mr_start : mplex_reach ep_new ep_new
  | mr_left x y x' : mplex_reach x y → peer_step x y x' → mplex_reach x' y
  | mr_right x y y' : mplex_reach x y → peer_step y x y' → mplex_reach x y'.

(** What [x] has consumed is what [y] has sent, up to now. *)
Definition linked (x y : Endpoint) : Prop :=
  (length (ep_in x) ≤ length (ep_out y))%nat ∧
  ep_in x = flip <$> take (length (ep_in x)) (ep_out y).

Definition few_streams (x : Endpoint) : Prop := mc_next_stream_id (ep_conn x) ≤ 2 ^ 29.

Lemma linked_elem x y f : linked x y → f ∈ ep_in x → ∃ f0, f0 ∈ ep_out y ∧ f = flip f0.
Proof.
  intros [_ Hl] Hf. rewrite Hl in Hf. apply list_elem_of_fmap in Hf as (f0&->&Hf0).
  exists f0. split; [|done]. by apply elem_of_take_elem in Hf0.
Qed.

(** Every stream of a frame was opened by one of the sides. *)
Lemma linked_ids x y f :
  ep_inv x → ep_inv y → linked x y → few_streams x → few_streams y → f ∈ ep_out x →
  0 ≤ sid_id (f_stream_id f) < 2 ^ 29.
Proof.
  intros Hx Hy Hl Hbx Hby Hf. unfold few_streams in *.
  assert (Hs : f_stream_id f ∈ f_stream_id <$> ep_out x) by by apply list_elem_of_fmap_2.
  destruct (sid_initiator (f_stream_id f)) eqn:Hi.
  - pose proof (ei_own x Hx _ Hi (or_intror Hs)). lia.
  - destruct (ei_remote x Hx _ Hi (or_intror Hs)) as (g&Hg&_&Hgs).
    destruct (linked_elem _ _ _ Hl Hg) as (g0&Hg0&->). rewrite <-Hgs in *. simpl in *.
    change (sid_id (f_stream_id (flip g0))) with (sid_id (f_stream_id g0)).
    change (negb (sid_initiator (f_stream_id g0)) = false) in Hi. apply negb_false_iff in Hi.
    pose proof (ei_own y Hy _ Hi (or_intror (list_elem_of_fmap_2 _ _ _ Hg0))). lia.
Qed.

Lemma fresh_frame x y f :
  ep_inv y → linked x y → ep_out y !! length (ep_in x) = Some f → fresh_input x (InFrame (flip f)).
Proof.
  intros Hy [_ Hl] Hf Ht. change (f_tag f = NewStream) in Ht.
  assert (Hfo : f ∈ ep_out y) by by eapply list_elem_of_lookup_2.
  pose proof (ei_new y Hy f Hfo Ht) as Hi.
  change (f_stream_id (flip f)) with (flip_id (f_stream_id f)).
  split; [simpl; by rewrite Hi|]. rewrite Hl, messages_flip.
  apply messages_other. intros g Hg Hgt Hgs.
  apply list_elem_of_split in Hg as (l1&l2&Hsplit).
  pose proof (take_drop_middle _ _ _ Hf) as Hmid.
  destruct (ei_order y Hy l1 g (l2 ++ f :: drop (S (length (ep_in x))) (ep_out y))) as (h&Hh&Hht&Hhs).
  - rewrite <-Hmid at 1. rewrite Hsplit. by rewrite <-app_assoc.
  - by rewrite Hgs.
  - by rewrite Hgt.
  - pose proof (ei_nodup y Hy) as Hnd. rewrite <-Hmid, filter_app, fmap_app in Hnd.
    apply NoDup_app in Hnd as (_&Hdis&_). apply (Hdis (f_stream_id f)).
    + rewrite <-Hgs, <-Hhs. apply list_elem_of_fmap_2, list_elem_of_filter. split; [done|].
      rewrite Hsplit. apply elem_of_app. by left.
    + apply list_elem_of_fmap_2, list_elem_of_filter. split; [done|by left].
Qed.

Lemma fresh_control x y cmd :
  ep_inv x → ep_inv y → linked x y → linked y x → fresh_input x (InControl cmd).
Proof.
  intros Hx Hy Hl Hl'. simpl. set (s := mk_StreamID _ true). apply messages_other.
  intros g Hg _ Hgs. destruct (linked_elem _ _ _ Hl Hg) as (g0&Hg0&->).
  change (flip_id (f_stream_id g0) = s) in Hgs.
  assert (Hs0 : f_stream_id g0 = flip_id s) by (by rewrite <-Hgs, flip_id_involutive).
  destruct (ei_remote y Hy (flip_id s)) as (h&Hh&_&Hhs); [done|right|].
  { rewrite <-Hs0. by apply list_elem_of_fmap_2. }
  destruct (linked_elem _ _ _ Hl' Hh) as (h0&Hh0&->). change (flip_id (f_stream_id h0) = flip_id s) in Hhs.
  apply (f_equal flip_id) in Hhs. rewrite !flip_id_involutive in Hhs.
  assert (Hin : s ∈ f_stream_id <$> ep_out x) by (rewrite <-Hhs; by apply list_elem_of_fmap_2).
  pose proof (ei_own x Hx s eq_refl (or_intror Hin)) as Hown. subst s. simpl in Hown. lia.
Qed.

Lemma linked_apply_l x y inp c' eff err :
  consumed inp = [] → linked x y → linked (ep_apply x inp c' eff err) y.
Proof. intros Hc. unfold linked, ep_apply. simpl. by rewrite Hc, app_nil_r. Qed.

Lemma linked_apply_r x y inp c' eff err : linked x y → linked x (ep_apply y inp c' eff err).
Proof.
  unfold linked, ep_apply. simpl. intros [Hle Hl]. rewrite length_app. split; [lia|].
  by rewrite take_app_le.
Qed.

Lemma linked_frame x y f c' eff err :
  linked x y → ep_out y !! length (ep_in x) = Some f →
  linked (ep_apply x (InFrame (flip f)) c' eff err) y.
Proof.
  unfold linked, ep_apply. simpl. intros [Hle Hl] Hf. rewrite length_app. simpl.
  pose proof (lookup_lt_Some _ _ _ Hf). split; [lia|].
  rewrite Nat.add_1_r, (take_S_r _ _ f), fmap_app by done. by rewrite <-Hl.
Qed.

Definition sys_inv (x y : Endpoint) : Prop :=
  ep_inv x ∧ ep_inv y ∧ linked x y ∧ linked y x.

Lemma on_stream_command_next env c cmd c' eff err :
  on_stream_command env c cmd = Some (c', eff, err) → mc_next_stream_id c' = mc_next_stream_id c.
Proof.
  unfold on_stream_command, write_then, h_ok, h_err.
  repeat case_match; intros; simplify_eq; done.
Qed.

Lemma exec_next env c inp c' eff err :
  mplex_exec print env c inp = Some (c', eff, err) →
  mc_next_stream_id c ≤ mc_next_stream_id c'.
Proof.
  intros Hex. destruct inp as [f|cmd|cmd]; simpl in Hex.
  - destruct (decide (f_tag f = NewStream)) as [Ht|Ht].
    { destruct (on_frame_new _ _ _ _ _ _ Ht Hex) as (_&_&->&_). done. }
    destruct (decide (f_tag f = TMessage)) as [Hm|Hm].
    { destruct (on_frame_message _ _ _ _ _ _ Hm Hex) as [(->&_)|([-> _ _ _ _]&_)]; done. }
    by destruct (on_frame_other _ _ _ _ _ _ Ht Hm Hex) as [[-> _ _ _ _] _].
  - by rewrite (on_stream_command_next _ _ _ _ _ _ Hex).
  - destruct (on_control_command_change _ _ _ _ _ _ _ Hex) as [_ [[-> _ _ _ _]|(->&_)]]; lia.
Qed.

Lemma peer_step_inv x y x' :
  sys_inv x y → few_streams x' → few_streams y → peer_step x y x' → sys_inv x' y.
Proof.
  intros (Hx&Hy&Hxy&Hyx) Hbx Hby Hst.
  destruct Hst as [env inp c' eff err Hd Hok Hc Hex|env f f' c' eff err Hd Hf Hw Hex].
  - split_and!; [|done|by apply linked_apply_l|by apply linked_apply_r].
    eapply ep_inv_step; [done..| |done]. destruct inp; [done|done|]. by eapply fresh_control.
  - pose proof (exec_next _ _ _ _ _ _ Hex) as Hnx.
    assert (Hb : few_streams x) by (unfold few_streams in *; simpl in *; lia).
    assert (Hfo : f ∈ ep_out y) by by eapply list_elem_of_lookup_2.
    pose proof (linked_ids y x f Hy Hx Hyx Hby Hb Hfo) as Hid.
    pose proof (wire_flip f f' Hid (ei_new y Hy f Hfo) Hw) as ->.
    split_and!; [|done|by apply linked_frame|by apply linked_apply_r].
    eapply ep_inv_step; [done|done|done| |done]. by eapply fresh_frame.
Qed.

Lemma peer_step_next x y x' : peer_step x y x' → few_streams x' → few_streams x.
Proof.
  unfold few_streams. destruct 1 as [env inp c' eff err _ _ _ Hex|env f f' c' eff err _ _ _ Hex];
    simpl; pose proof (exec_next _ _ _ _ _ _ Hex); lia.
Qed.

Lemma mplex_reach_inv x y :
  mplex_reach x y → few_streams x → few_streams y → sys_inv x y.
Proof.
  induction 1 as [|x y x' Hr IH Hst|x y y' Hr IH Hst]; intros Hbx Hby.
  - split_and!; [apply ep_new_inv|apply ep_new_inv|by split|by split].
  - eapply peer_step_inv; [|done..]. apply IH; [by eapply peer_step_next|done].
  - destruct (peer_step_inv y x y') as (?&?&?&?); [|done..|by split_and!].
    destruct IH as (?&?&?&?); [done|by eapply peer_step_next|]. by split_and!.
Qed.

Lemma linked_messages x y s :
  linked x y → messages (ep_in x) (flip_id s) = messages (take (length (ep_in x)) (ep_out y)) s.
Proof. intros [_ Hl]. rewrite Hl at 1. apply messages_flip. Qed.

(** ** Properties *)

(** [C24] Data of a stream arrives in order, on its own stream.  For two connected
    endpoints, under every interleaving of frames, stream commands and control
    commands, with every outcome of pushes, writes and replies: what an endpoint
    has delivered to a stream is a prefix of the messages that the other side has
    sent on it.  As long as the stream is receiving, nothing is lost: the messages
    sent are those delivered, followed by those still in flight.  Each side has
    opened at most [2 ^ 29] streams, the ids that fit a header. *)
Theorem mplex_delivery (x y : Endpoint) (s : StreamID) (Hr : mplex_reach x y)
    (Hbx : few_streams x) (Hby : few_streams y) :
  delivered (ep_got x) (flip_id s) `prefix_of` messages (ep_out y) s ∧
  (ep_done x = false → flip_id s ∈ mc_streams (ep_conn x) →
    messages (ep_out y) s =
      delivered (ep_got x) (flip_id s) ++ messages (drop (length (ep_in x)) (ep_out y)) s).
Proof.
  destruct (mplex_reach_inv x y Hr Hbx Hby) as (Hx&Hy&Hxy&_).
  assert (Hm : messages (ep_out y) s =
    messages (ep_in x) (flip_id s) ++ messages (drop (length (ep_in x)) (ep_out y)) s).
  { rewrite (linked_messages x y s Hxy), <-messages_app. by rewrite take_drop. }
  split.
  - rewrite Hm. apply prefix_app_r, (ei_prefix x Hx).
  - intros Hd Hin. rewrite Hm. by rewrite (ei_all x Hx (flip_id s) Hd Hin).
Qed.

(** The tables of a connection stay consistent: a stream with a channel has
    a state and has not been closed by the remote; the streams it opened have ids
    below the next one, so that opening a stream never replaces another one; and
    the streams of the remote were announced by a [NewStream] frame. *)
Theorem mplex_tables (x y : Endpoint) (Hr : mplex_reach x y)
    (Hbx : few_streams x) (Hby : few_streams y) :
  let c := ep_conn x in
  (∀ s, s ∈ mc_streams c → is_Some (mc_stat c !! s) ∧ mc_stat c !! s ≠ Some RecvClosed) ∧
  mc_stat c !! mk_StreamID (mc_next_stream_id c) true = None ∧
  (∀ s, sid_initiator s = false → is_Some (mc_stat c !! s) → opened (ep_in x) s).
Proof.
  destruct (mplex_reach_inv x y Hr Hbx Hby) as (Hx&_). split_and!.
  - apply (ei_live x Hx).
  - destruct (mc_stat _ !! _) eqn:Hs; [|done].
    pose proof (ei_own x Hx (mk_StreamID (mc_next_stream_id (ep_conn x)) true) eq_refl
      (or_introl (mk_is_Some _ _ Hs))) as Hlt. simpl in Hlt. lia.
  - intros s Hi Hs. apply (ei_remote x Hx s Hi). by left.
Qed.
End two_endpoints.

Section frame_lemmas.
Context `{VarintLaws}.

Lemma read_uvarint_cons fuel buf b inp eof :
  read_uvarint_loop (S fuel) buf eof (b :: inp) =
    if byte.unsigned b <? 128 then
      match uvi_decode 32 ((buf ++ [b]) ++ replicate (U32_LEN - length (buf ++ [b])) Byte.x00) with
      | Ok (len, _) => Done len inp
      | Err _ => Failed InvalidData
      end
    else read_uvarint_loop fuel (buf ++ [b]) eof inp.
Proof.
  cbn [read_uvarint_loop]. unfold rd_bind. rewrite read_byte, last_snoc.
  destruct (byte.unsigned b <? 128); [|done]. by destruct (uvi_decode 32 _) as [[]|].
Qed.

Lemma read_uvarint_loop_encoded fuel buf p b n eof rest :
  Forall (λ c, uvi_is_last c = false) p → uvi_is_last b = true → (length p < fuel)%nat →
  buf ++ p ++ [b] = uvi_encode n → 0 ≤ n < 2 ^ 32 →
  read_uvarint_loop fuel buf eof (p ++ b :: rest) = Done n rest.
Proof.
  intros Hp Hb Hl He Hn. revert fuel buf Hl He.
  induction Hp as [|c p Hc Hp IH]; intros [|fuel] buf Hl He; simpl in Hl; try lia;
    cbn [app]; rewrite read_uvarint_cons; rewrite uvi_is_last_spec in *.
  - rewrite Hb. cbn [app] in He. rewrite He.
    by rewrite uvi_decode_encode by (apply width_32 || done).
  - rewrite Hc. apply IH; [lia|]. by rewrite <-app_assoc.
Qed.

Lemma read_uvarint_encoded n eof rest :
  0 ≤ n < 2 ^ 32 → read_uvarint eof (uvi_encode n ++ rest) = Done n rest.
Proof.
  intros Hn. destruct (uvi_encode_width 32 n width_32 Hn) as (p&b&He&Hp&Hb&Hl).
  rewrite He, <-app_assoc. by apply read_uvarint_loop_encoded.
Qed.

(** A frame that is sent is the frame the other side receives, with the
    role of the initiator exchanged; the bytes after it are left.  The id is below
    [2 ^ 29] and the body has at most [2 ^ 20] bytes; a larger body is refused,
    after its header has already been written. *)
Theorem mplex_frame_roundtrip (f : Frame) (eof : bool) (rest : bytes)
    (Hid : 0 ≤ sid_id (f_stream_id f) < 2 ^ 29)
    (Hnew : f_tag f = NewStream → sid_initiator (f_stream_id f) = true)
    (Hlen : Z.of_nat (length (f_body f)) < 2 ^ 32) :
  match mplex_send_frame f with
  | (ws, Ok _) =>
      Z.of_nat (length (f_body f)) ≤ 2 ^ 20 ∧
      mplex_recv_frame eof (ws ++ rest) = Done (Ok (flip f)) rest
  | (ws, Err e) =>
      2 ^ 20 < Z.of_nat (length (f_body f)) ∧ e = InvalidData ∧
      ws = uvi_encode (header_encode (f_header f))
  end.
Proof.
  unfold mplex_send_frame. rewrite Z.mod_small by lia. change MAX_MESSAGE_SIZE with (2 ^ 20).
  destruct (Z.ltb_spec (2 ^ 20) (Z.of_nat (length (f_body f)))) as [?|Hle]; [done|].
  split; [done|]. unfold mplex_recv_frame, rd_bind. rewrite <-!app_assoc.
  rewrite read_uvarint_encoded by by apply header_encode_range.
  assert (Hh : header_decode (header_encode (f_header f)) = Ok (f_header (flip f))).
  { destruct f as [[[id init] tag] body]. unfold flip, flip_id, f_tag, f_stream_id in *. simpl in *.
    rewrite header_wire by done. do 3 f_equal. case_decide; [|done]. by rewrite Hnew. }
  rewrite Hh, read_uvarint_encoded by lia. change MAX_MESSAGE_SIZE with (2 ^ 20).
  destruct (Z.ltb_spec (2 ^ 20) (Z.of_nat (length (f_body f)))); [lia|].
  destruct (Z.eqb_spec (Z.of_nat (length (f_body f))) 0) as [Hz|Hz].
  - destruct (f_body f) eqn:Hb; [|simpl in Hz; lia]. unfold rd_ret, flip. by rewrite Hb.
  - rewrite Nat2Z.id. by rewrite read_exact_app.
Qed.
End frame_lemmas.

(** The length decoder accepts five continuation bytes as the number 0: a
    header of five bytes [0xff] is read as the header of a [NewStream] frame of
    stream 0 instead of being refused. *)
Theorem read_uvarint_overlong `{Varint} (eof : bool) (rest : bytes) :
  read_uvarint eof (replicate 5 Byte.xff ++ rest) = Done 0 rest.
Proof. reflexivity. Qed.

(** ** Reading from a stream *)

(** All the data that is still to be read. *)
Definition unread (r : StreamReader) : bytes := sr_buffer r ++ concat (sr_queue r).

(** Reading from a stream returns its data in order without loss or
    duplication, in pieces of at most the size of the caller's buffer: what is
    returned and what is left unread make up what was unread before.  The end of
    the stream is reported only when everything was read. *)
Theorem poll_read_in_order (r : StreamReader) (buf_len : nat) :
  match poll_read r buf_len with
  | (r', ReadReady data) => unread r = data ++ unread r' ∧ (length data ≤ buf_len)%nat
  | (r', ReadEof) => r' = r ∧ unread r = [] ∧ sr_ended r = true
  | (r', ReadPending) => r' = r ∧ unread r = [] ∧ sr_ended r = false
  end.
Proof.
  destruct r as [buf queue ended]. unfold poll_read, unread. simpl.
  destruct buf as [|b buf]; [destruct queue as [|d queue]|].
  - by destruct ended.
  - simpl. split; [|rewrite length_take; lia]. by rewrite app_assoc, take_drop.
  - cbn [sr_buffer sr_queue]. rewrite app_assoc, take_drop. split; [done|]. rewrite length_take. lia.
Qed.

(** ** Two flaws of the connection *)

(** A caller that gives up waiting in [accept_stream] makes the next inbound
    stream panic the connection: the reply channel is gone. *)
Lemma dropped_accept_panics env c f tx :
  f_tag f = NewStream → mc_stat c !! f_stream_id f = None → mc_waiting c = Some tx →
  env_reply env = false → on_frame env c f = None.
Proof. intros Ht Hs Hw He. unfold on_frame, reply_then. rewrite Ht, Hs. simpl. by rewrite Hw, He. Qed.

(** When the connection ends, the first queued reset is not answered. *)
Lemma first_reset_unanswered f reply cmds :
  drain_stream_commands (ResetStream f reply :: cmds) = drain_stream_commands (SendFrame f :: cmds).
Proof. done. Qed.

(** ** Witnesses *)

Definition good_env : MEnv := mk_MEnv ChanSent true true.
Definition no_print (_ : Z) : bytes := [].

Definition do_input (e : Endpoint) (inp : MInput) : Endpoint :=
  match mplex_exec no_print good_env (ep_conn e) inp with
  | Some (c', eff, err) => ep_apply e inp c' eff err
  | None => e
  end.

Definition sample_sid : StreamID := mk_StreamID 0 true.
Definition sample_msg : Frame := message_frame sample_sid [Byte.x68; Byte.x69].

(** The sender opens a stream and writes on it; the receiver has consumed both frames. *)
Definition sample_sender : Endpoint :=
  do_input (do_input ep_new (InControl (Some (OpenStream 0)))) (InCommand (Some (SendFrame sample_msg))).
Definition sample_receiver : Endpoint :=
  do_input (do_input ep_new (InFrame (flip (new_stream_frame sample_sid [])))) (InFrame (flip sample_msg)).

Lemma do_input_left x y inp :
  mplex_reach no_print x y → ep_done x = false → command_ok inp →
  match inp with
  | InFrame f' => ∃ f, ep_out y !! length (ep_in x) = Some f ∧ wire f f'
  | _ => True
  end →
  is_Some (mplex_exec no_print good_env (ep_conn x) inp) → mplex_reach no_print (do_input x inp) y.
Proof.
  intros Hr Hd Hok Hf [[[c' eff] err] Hex]. eapply mr_left; [exact Hr|]. unfold do_input. rewrite Hex.
  destruct inp as [f'|cmd|cmd]; [destruct Hf as (f&?&?); by eapply ps_frame|by eapply ps_local..].
Qed.

Lemma mplex_reach_sym x y : mplex_reach no_print x y → mplex_reach no_print y x.
Proof. induction 1; [constructor|by eapply mr_right|by eapply mr_left]. Qed.

Lemma sample_mplex_reach : mplex_reach no_print sample_receiver sample_sender.
Proof.
  assert (Hs : ∀ A (o : option A), bool_decide (is_Some o) = true → is_Some o).
  { intros A o. apply bool_decide_eq_true. }
  assert (Hw : ∀ f, sid_id (f_stream_id f) = 0 → sid_initiator (f_stream_id f) = true →
    wire f (flip f)).
  { intros [[[id init] tag] body] Hid Hi. unfold f_stream_id in *. simpl in *. subst. by destruct tag. }
  unfold sample_receiver. apply do_input_left; [apply do_input_left|..].
  - apply mplex_reach_sym. unfold sample_sender.
    apply do_input_left; [apply do_input_left; [constructor|done|done|done|]|done|by eexists _, _|done|];
      apply Hs; vm_compute; reflexivity.
  - done.
  - done.
  - exists (new_stream_frame sample_sid []). split; [reflexivity|by apply Hw].
  - apply Hs. vm_compute. reflexivity.
  - vm_compute. reflexivity.
  - done.
  - exists sample_msg. split; [vm_compute; reflexivity|by apply Hw].
  - apply Hs. vm_compute. reflexivity.
Qed.

Lemma mplex_delivery_witness :
  delivered (ep_got sample_receiver) (flip_id sample_sid) = [[Byte.x68; Byte.x69]] ∧
  delivered (ep_got sample_receiver) (flip_id sample_sid) `prefix_of`
    messages (ep_out sample_sender) sample_sid.
Proof.
  split; [vm_compute; reflexivity|].
  refine (proj1 (mplex_delivery no_print sample_receiver sample_sender sample_sid
    sample_mplex_reach _ _)); vm_compute; discriminate.
Defined.

Lemma mplex_tables_witness :
  mc_stat (ep_conn sample_receiver) !! mk_StreamID 0 true = None.
Proof.
  refine (proj1 (proj2 (mplex_tables no_print sample_receiver sample_sender sample_mplex_reach _ _)));
    vm_compute; discriminate.
Defined.

#[local] Existing Instance leb128.

Lemma mplex_frame_roundtrip_witness :
  mplex_recv_frame false (fst (mplex_send_frame sample_msg) ++ [Byte.x07]) =
    Done (Ok (flip sample_msg)) [Byte.x07].
Proof.
  refine (proj2 (mplex_frame_roundtrip sample_msg false [Byte.x07] _ _ _)).
  - vm_compute. split; [discriminate|reflexivity].
  - discriminate.
  - vm_compute. reflexivity.
Defined.
