(* ===== verification/GossipCache.v ===== *)
(** * The data structures of gossipsub: [protocols/gossipsub/src]

    The message types ([types.rs]), the message cache with its history of
    heartbeats ([mcache.rs]), the time caches for seen messages
    ([time_cache.rs]), the backoffs of pruned peers with their cyclic buffer of
    heartbeats ([backoff.rs]), the promises of peers that advertised messages
    ([gossip_promises.rs]) and the filters of subscriptions
    ([subscription_filter.rs]).

    Durations and instants are integers in nanoseconds; a result of type [option]
    whose [None] is a panic is marked as such. *)

From Stdlib Require Import ZArith Lia.
From stdpp Require Import strings.
From S2P Require Import Prelude.

Local Open Scope nat_scope.

Local Abbreviation Instant := Z.
Local Abbreviation Duration := Z.

(** ** Messages: [types.rs], [topic.rs] *)

Abbreviation TopicHash := string.
Abbreviation MessageId := bytes.
Abbreviation FastMessageId := bytes.

Record RawGossipsubMessage {PeerId : Type} := mk_Raw {
  source : option PeerId;
  data : bytes;
  sequence_number : option Z;
  topic : TopicHash;
  signature : option bytes;
  key : option bytes;
  validated : bool
}.
Arguments RawGossipsubMessage : clear implicits.

Inductive GossipsubSubscriptionAction := Subscribe | Unsubscribe.
#[global] Instance action_eq_dec : EqDecision GossipsubSubscriptionAction.
Proof. solve_decision. Defined.

Record GossipsubSubscription := mk_Subscription {
  action : GossipsubSubscriptionAction;
  topic_hash : TopicHash
}.
#[global] Instance subscription_eq_dec : EqDecision GossipsubSubscription.
Proof. solve_decision. Defined.

Inductive ValidationError :=
  | InvalidSignature
  | EmptySequenceNumber
  | InvalidSequenceNumber
  | InvalidPeerId
  | SignaturePresent
  | SequenceNumberPresent
  | MessageSourcePresent
  | TransformFailed.

(** [peer_score.rs]. *)
Inductive RejectReason :=
  | RejectValidationError (e : ValidationError)
  | SelfOrigin
  | BlackListedPeer
  | BlackListedSource
  | ValidationIgnored
  | ValidationFailed.

(** ** The message cache: [mcache.rs] *)

Record CacheEntry := mk_CacheEntry { ce_mid : MessageId; ce_topic : TopicHash }.

Definition u32_max : Z := (2 ^ 32 - 1)%Z.

Section mcache.
Context {PeerId : Type} `{!EqDecision PeerId} `{!Countable PeerId}.

Local Abbreviation Raw := (RawGossipsubMessage PeerId).

Record MessageCache := mk_MessageCache {
  msgs : gmap MessageId Raw;
  iwant_counts : gmap MessageId (gmap PeerId Z);
  history : list (list CacheEntry);
  gossip : nat
}.

Definition mc_new (gossip history_capacity : nat) : MessageCache :=
  mk_MessageCache ∅ ∅ (replicate history_capacity []) gossip.

(** [put]; it panics when there is no history. *)
Definition mc_put (mc : MessageCache) (mid : MessageId) (msg : Raw) : option (option Raw * MessageCache) :=
  let seen := msgs mc !! mid in
  let ms := <[mid := msg]> (msgs mc) in
  match seen with
  | Some _ => Some (seen, mk_MessageCache ms (iwant_counts mc) (history mc) (gossip mc))
  | None =>
      match history mc with
      | [] => None
      | h :: hs =>
          Some (seen, mk_MessageCache ms (iwant_counts mc) ((h ++ [mk_CacheEntry mid (topic msg)]) :: hs)
                        (gossip mc))
      end
  end.

(** [get_with_iwant_counts]; it panics when the counter overflows. *)
Definition mc_get_with_iwant_counts (mc : MessageCache) (mid : MessageId) (peer : PeerId) :
    option (option (Raw * Z) * MessageCache) :=
  match msgs mc !! mid with
  | Some message =>
      if validated message then
        let counts := default ∅ (iwant_counts mc !! mid) in
        let count := default 0%Z (counts !! peer) in
        if (count =? u32_max)%Z then None
        else Some (Some (message, (count + 1)%Z),
                   mk_MessageCache (msgs mc) (<[mid := <[peer := (count + 1)%Z]> counts]> (iwant_counts mc))
                     (history mc) (gossip mc))
      else Some (None, mc)
  | None => Some (None, mc)
  end.

Definition set_validated (m : Raw) : Raw :=
  mk_Raw PeerId (source m) (data m) (sequence_number m) (topic m) (signature m) (key m) true.

Definition mc_validate (mc : MessageCache) (mid : MessageId) : option Raw * MessageCache :=
  (set_validated <$> msgs mc !! mid,
   mk_MessageCache (alter set_validated mid (msgs mc)) (iwant_counts mc) (history mc) (gossip mc)).

Definition gossip_entries (ms : gmap MessageId Raw) (t : TopicHash) (entries : list CacheEntry) : list MessageId :=
  omap (λ e, if decide (ce_topic e = t) then
               match validated <$> ms !! ce_mid e with Some true => Some (ce_mid e) | _ => None end
             else None) entries.

(** [get_gossip_message_ids]; the slice panics when it is longer than the history. *)
Definition mc_get_gossip_message_ids (mc : MessageCache) (t : TopicHash) : option (list MessageId) :=
  if decide (gossip mc ≤ length (history mc)) then
    Some (foldl (λ current entries, current ++ gossip_entries (msgs mc) t entries) []
            (take (gossip mc) (history mc)))
  else None.

Definition drop_entry (mc : MessageCache) (e : CacheEntry) : MessageCache :=
  mk_MessageCache (delete (ce_mid e) (msgs mc)) (delete (ce_mid e) (iwant_counts mc)) (history mc) (gossip mc).

(** [shift]; it panics when there is no history. *)
Definition mc_shift (mc : MessageCache) : option MessageCache :=
  entries ← last (history mc);
  let mc := mk_MessageCache (msgs mc) (iwant_counts mc) (take (length (history mc) - 1) (history mc))
              (gossip mc) in
  let mc := foldl drop_entry mc entries in
  Some (mk_MessageCache (msgs mc) (iwant_counts mc) ([] :: history mc) (gossip mc)).

Definition mc_remove (mc : MessageCache) (mid : MessageId) : option Raw * MessageCache :=
  (msgs mc !! mid,
   mk_MessageCache (delete mid (msgs mc)) (delete mid (iwant_counts mc)) (history mc) (gossip mc)).

(** Runs of the cache. *)
Inductive McOp :=
  | OpPut (mid : MessageId) (msg : Raw)
  | OpIwant (mid : MessageId) (peer : PeerId)
  | OpValidate (mid : MessageId)
  | OpShift
  | OpRemove (mid : MessageId).

Definition mc_exec (mc : MessageCache) (op : McOp) : option MessageCache :=
  match op with
  | OpPut mid msg => snd <$> mc_put mc mid msg
  | OpIwant mid peer => snd <$> mc_get_with_iwant_counts mc mid peer
  | OpValidate mid => Some (mc_validate mc mid).2
  | OpShift => mc_shift mc
  | OpRemove mid => Some (mc_remove mc mid).2
  end.

Fixpoint mc_run (mc : MessageCache) (ops : list McOp) : option MessageCache :=
  match ops with
  | [] => Some mc
  | op :: ops => mc ← mc_exec mc op; mc_run mc ops
  end.

(** *** Lemmas *)

Definition slot_mids (h : list CacheEntry) : list MessageId := ce_mid <$> h.

Record mc_wf (mc : MessageCache) : Prop := {
  mw_history : 1 ≤ length (history mc) ∧ gossip mc ≤ length (history mc);
  mw_msgs mid : is_Some (msgs mc !! mid) → ∃ i h, history mc !! i = Some h ∧ mid ∈ slot_mids h;
  mw_counts mid : is_Some (iwant_counts mc !! mid) → is_Some (msgs mc !! mid)
}.

(** No counter is near its maximum. *)
Definition counts_below (n : Z) (mc : MessageCache) : Prop :=
  ∀ mid counts peer c, iwant_counts mc !! mid = Some counts → counts !! peer = Some c → (c ≤ n)%Z.

Lemma foldl_drop_entry mc entries :
  let mc' := foldl drop_entry mc entries in
  history mc' = history mc ∧ gossip mc' = gossip mc ∧
  (∀ mid, msgs mc' !! mid = if decide (mid ∈ slot_mids entries) then None else msgs mc !! mid) ∧
  (∀ mid, iwant_counts mc' !! mid = if decide (mid ∈ slot_mids entries) then None else iwant_counts mc !! mid).
Proof.
  revert mc. induction entries as [|e entries IH]; intros mc; [done|]. simpl.
  destruct (IH (drop_entry mc e)) as (->&->&Hm&Hc).
  assert (Hdel : ∀ {A} (m : gmap MessageId A) mid,
    (if decide (mid ∈ slot_mids entries) then None else delete (ce_mid e) m !! mid) =
    if decide (mid ∈ slot_mids (e :: entries)) then None else m !! mid).
  { intros A m mid. unfold slot_mids. simpl. destruct (decide (mid = ce_mid e)) as [->|Hne].
    - rewrite lookup_delete_eq, (decide_True (P := _ ∈ _ :: _)) by left. by case_decide.
    - rewrite lookup_delete_ne by done. destruct (decide (mid ∈ ce_mid <$> entries)) as [Hin|Hni].
      + by rewrite decide_True by (by right).
      + rewrite decide_False; [done|]. by intros [?|?]%elem_of_cons. }
  split_and!; [done..| |]; intros mid; rewrite ?Hm, ?Hc; apply Hdel.
Qed.

Lemma mc_new_wf g h : 1 ≤ h → g ≤ h → mc_wf (mc_new g h).
Proof.
  intros H1 H2. split; simpl.
  - by rewrite length_replicate.
  - intros mid. rewrite lookup_empty. by intros [].
  - intros mid. rewrite lookup_empty. by intros [].
Qed.

Lemma shift_lookup mc mc' entries :
  last (history mc) = Some entries → mc_shift mc = Some mc' →
  length (history mc') = length (history mc) ∧ gossip mc' = gossip mc ∧
  history mc' = [] :: take (length (history mc) - 1) (history mc) ∧
  (∀ mid, msgs mc' !! mid = if decide (mid ∈ slot_mids entries) then None else msgs mc !! mid) ∧
  (∀ mid, iwant_counts mc' !! mid = if decide (mid ∈ slot_mids entries) then None else iwant_counts mc !! mid).
Proof.
  intros Hl. unfold mc_shift. rewrite Hl. cbn [mbind option_bind]. intros [= <-]. simpl.
  set (mc1 := mk_MessageCache _ _ _ _). destruct (foldl_drop_entry mc1 entries) as (Hh&Hg&Hm&Hc).
  rewrite Hh, Hg. simpl. split_and!; try done. rewrite length_take.
  destruct (history mc); [done|]. simpl. lia.
Qed.

Lemma shift_history mc mc' entries i h :
  last (history mc) = Some entries → mc_shift mc = Some mc' → history mc' !! i = Some h →
  (i = 0 ∧ h = []) ∨ ∃ j, i = S j ∧ S j < length (history mc) ∧ history mc !! j = Some h.
Proof.
  intros Hl Hs. destruct (shift_lookup _ _ _ Hl Hs) as (_&_&->&_). destruct i as [|j]; simpl.
  - intros [= <-]. by left.
  - intros [Hj Hlt]%lookup_take_Some. right. exists j. split_and!; [done|lia|done].
Qed.

Lemma shift_moves mc mc' entries j h :
  last (history mc) = Some entries → mc_shift mc = Some mc' → history mc !! j = Some h →
  if decide (S j < length (history mc)) then history mc' !! S j = Some h else h = entries.
Proof.
  intros Hl Hs Hj. destruct (shift_lookup _ _ _ Hl Hs) as (_&_&->&_). case_decide as Hlt; simpl.
  - rewrite lookup_take_lt by lia. done.
  - apply lookup_lt_Some in Hj as Hlt'. rewrite last_lookup in Hl.
    replace (Nat.pred (length (history mc))) with j in Hl by lia. congruence.
Qed.

Lemma put_entries mc mid msg r mc' i h' e :
  mc_put mc mid msg = Some (r, mc') → history mc' !! i = Some h' → e ∈ h' →
  (∃ h, history mc !! i = Some h ∧ e ∈ h) ∨ e = mk_CacheEntry mid (topic msg).
Proof.
  unfold mc_put. destruct (msgs mc !! mid); [intros [= _ <-]; eauto|].
  destruct (history mc) as [|h hs]; [done|]. intros [= _ <-]. simpl.
  destruct i as [|i]; simpl; [|eauto]. intros [= <-] [He|He%list_elem_of_singleton]%elem_of_app; eauto.
Qed.

Lemma put_keeps mc mid msg r mc' i h :
  mc_put mc mid msg = Some (r, mc') → history mc !! i = Some h → ∃ h', history mc' !! i = Some h' ∧ h ⊆ h'.
Proof.
  unfold mc_put. destruct (msgs mc !! mid); [intros [= _ <-]; eauto|].
  destruct (history mc) as [|h0 hs]; [done|]. intros [= _ <-]. simpl.
  destruct i as [|i]; simpl; [|eauto]. intros [= <-]. eexists. split; [done|]. set_solver.
Qed.

Lemma slot_mids_subseteq h h' : h ⊆ h' → slot_mids h ⊆ slot_mids h'.
Proof.
  intros Hs mid (e&->&He)%list_elem_of_fmap. apply list_elem_of_fmap. eauto.
Qed.

Lemma wf_put mc mid msg :
  mc_wf mc → ∃ r mc', mc_put mc mid msg = Some (r, mc') ∧ mc_wf mc' ∧
    length (history mc') = length (history mc) ∧ gossip mc' = gossip mc ∧
    iwant_counts mc' = iwant_counts mc ∧ msgs mc' = <[mid := msg]> (msgs mc).
Proof.
  intros [[Hh Hg] Hm Hc].
  assert (Hc' : ∀ x, is_Some (iwant_counts mc !! x) → is_Some (<[mid := msg]> (msgs mc) !! x)).
  { intros x Hx. apply lookup_insert_is_Some'. right. by apply Hc. }
  unfold mc_put. destruct (msgs mc !! mid) as [old|] eqn:Hold.
  - eexists _, _. split_and!; try done. split; simpl; [done| |done].
    intros x [->|Hx]%lookup_insert_is_Some'; apply Hm; by rewrite ?Hold.
  - destruct (history mc) as [|h hs] eqn:Hhist; [simpl in Hh; lia|].
    eexists _, _. split_and!; try done. split; simpl; [done| |done].
    intros x [->|Hx]%lookup_insert_is_Some'.
    + exists 0. eexists. split; [done|]. unfold slot_mids. rewrite fmap_app. apply elem_of_app. right. left.
    + apply Hm in Hx as ([|i]&h'&Hi&Hin); simpl in Hi; [|by exists (S i), h'].
      injection Hi as <-. exists 0. eexists. split; [done|]. unfold slot_mids. rewrite fmap_app.
      apply elem_of_app. by left.
Qed.

Lemma wf_shift mc :
  mc_wf mc → ∃ mc' entries, last (history mc) = Some entries ∧ mc_shift mc = Some mc' ∧ mc_wf mc' ∧
    length (history mc') = length (history mc) ∧ gossip mc' = gossip mc.
Proof.
  intros [[Hh Hg] Hm Hc].
  destruct (last (history mc)) as [entries|] eqn:Hl; [|apply last_None in Hl; rewrite Hl in Hh; simpl in Hh; lia].
  assert (is_Some (mc_shift mc)) as [mc' Hs] by (unfold mc_shift; rewrite Hl; by eexists).
  destruct (shift_lookup _ _ _ Hl Hs) as (Hlen&Hgo&Hhi&Hms&Hct).
  exists mc', entries. split_and!; try done. split; [by rewrite Hlen, Hgo| |].
  - intros mid. rewrite Hms. case_decide as Hin; [by intros []|]. intros (j&h&Hj&Hmem)%Hm.
    pose proof (shift_moves _ _ _ _ _ Hl Hs Hj) as Hmv. case_decide; [eauto|]. by subst.
  - intros mid. rewrite Hms, Hct. case_decide; [by intros []|apply Hc].
Qed.

Lemma mc_exec_wf n mc op :
  mc_wf mc → counts_below (n - 1) mc → (1 ≤ n ≤ u32_max)%Z →
  ∃ mc', mc_exec mc op = Some mc' ∧ mc_wf mc' ∧ counts_below n mc' ∧
    length (history mc') = length (history mc) ∧ gossip mc' = gossip mc.
Proof.
  intros Hwf Hb Hn.
  assert (Hb' : counts_below n mc) by (intros mid cs p c H1 H2; specialize (Hb _ _ _ _ H1 H2); lia).
  destruct op as [mid msg|mid peer|mid| |mid]; cbn [mc_exec].
  - destruct (wf_put mc mid msg Hwf) as (r&mc'&->&?&?&?&Hct&_). exists mc'. split_and!; try done.
    unfold counts_below. by rewrite Hct.
  - unfold mc_get_with_iwant_counts. destruct (msgs mc !! mid) as [m|] eqn:Hmid; [|by exists mc].
    destruct (validated m); [|by exists mc].
    set (counts := default ∅ (iwant_counts mc !! mid)). set (c := default 0%Z (counts !! peer)).
    assert (Hcn : (c ≤ n - 1)%Z).
    { subst c counts. destruct (iwant_counts mc !! mid) as [cs|] eqn:Hcs; simpl; [|rewrite lookup_empty; simpl; lia].
      destruct (cs !! peer) as [c|] eqn:Hc; simpl; [by eapply Hb|lia]. }
    destruct (Z.eqb_spec c u32_max) as [Heq|_]; [lia|]. eexists. split; [done|]. split_and!; try done.
    + destruct Hwf as [H1 H2 H3]. split; simpl; try done. intros x [->|Hx]%lookup_insert_is_Some'; [by rewrite Hmid|by apply H3].
    + intros x cs p c'. simpl. destruct (decide (x = mid)) as [->|Hne].
      * rewrite lookup_insert_eq. intros [= <-]. destruct (decide (p = peer)) as [->|].
        -- rewrite lookup_insert_eq. intros [= <-]. lia.
        -- rewrite lookup_insert_ne by done. subst counts. intros Hp.
           destruct (iwant_counts mc !! mid) as [cs|] eqn:Hcs; simpl in Hp; [by eapply Hb'|].
           by rewrite lookup_empty in Hp.
      * rewrite lookup_insert_ne by done. apply Hb'.
  - eexists. split; [done|]. split_and!; try done. destruct Hwf as [H1 H2 H3].
    split; simpl; try done; intros x; rewrite lookup_alter_is_Some; auto.
  - destruct (wf_shift mc Hwf) as (mc'&entries&Hl&Hs&?&?&?). exists mc'. split_and!; try done.
    destruct (shift_lookup _ _ _ Hl Hs) as (_&_&_&_&Hct). intros x cs p c. rewrite Hct.
    case_decide; [done|apply Hb'].
  - eexists. split; [done|]. destruct Hwf as [H1 H2 H3]. split_and!; try done.
    + split; simpl; try done.
      * intros x [_ Hx]%lookup_delete_is_Some. by apply H2.
      * intros x [Hne Hx]%lookup_delete_is_Some. apply lookup_delete_is_Some. auto.
    + intros x cs p c. simpl. intros [_ Hx]%lookup_delete_Some. by eapply Hb'.
Qed.

(** *** The lifetime of a message *)

Definition shifts (ops : list McOp) : nat :=
  sum_list_with (λ op, match op with OpShift => 1 | _ => 0 end) ops.

Definition leaves (mid : MessageId) (op : McOp) : Prop :=
  match op with OpPut mid' _ | OpRemove mid' => mid' ≠ mid | _ => True end.

Record tracked (mc : MessageCache) (mid : MessageId) (msg : Raw) (i : nat) : Prop := {
  tr_slot : ∃ h, history mc !! i = Some h ∧ mid ∈ slot_mids h;
  tr_only j h e : history mc !! j = Some h → e ∈ h → ce_mid e = mid → j = i ∧ ce_topic e = topic msg;
  tr_msg : ∃ msg', msgs mc !! mid = Some msg' ∧ set_validated msg' = set_validated msg
}.

Definition gone (mc : MessageCache) (mid : MessageId) : Prop :=
  msgs mc !! mid = None ∧ ∀ j h, history mc !! j = Some h → mid ∉ slot_mids h.

Lemma gone_exec mc mid op mc' : mc_wf mc → gone mc mid → leaves mid op → mc_exec mc op = Some mc' → gone mc' mid.
Proof.
  intros Hwf [Hm Hh] Hl He. destruct op as [mid' msg|mid' peer|mid'| |mid']; cbn [mc_exec] in He.
  - destruct (wf_put mc mid' msg Hwf) as (r&mc1&Hp&_&_&_&_&Hms). rewrite Hp in He. injection He as <-.
    split; [by rewrite Hms, lookup_insert_ne|]. intros j h Hj (e&->&He)%list_elem_of_fmap.
    destruct (put_entries _ _ _ _ _ _ _ _ Hp Hj He) as [(h0&Hj0&He0)| ->]; [|by simpl in Hl].
    apply (Hh _ _ Hj0). apply list_elem_of_fmap. eauto.
  - unfold mc_get_with_iwant_counts in He. destruct (msgs mc !! mid') as [m|]; [|by injection He as <-].
    destruct (validated m); [|by injection He as <-]. case_match; [done|]. by injection He as <-.
  - injection He as <-. split; [|done]. simpl. rewrite lookup_alter_None. done.
  - destruct (wf_shift mc Hwf) as (mc1&entries&Hla&Hs&_). rewrite Hs in He. injection He as <-.
    destruct (shift_lookup _ _ _ Hla Hs) as (_&_&_&Hms&_). split; [rewrite Hms; by case_decide|].
    intros j h Hj. destruct (shift_history _ _ _ _ _ Hla Hs Hj) as [[_ ->]|(j'&_&_&Hj')];
      [apply not_elem_of_nil|by eapply Hh].
  - injection He as <-. split; [|done]. simpl. rewrite lookup_delete_ne by done. done.
Qed.

Lemma tracked_exec mc mid msg i op mc' :
  mc_wf mc → tracked mc mid msg i → leaves mid op → mc_exec mc op = Some mc' →
  match op with
  | OpShift => if decide (S i < length (history mc)) then tracked mc' mid msg (S i) else gone mc' mid
  | _ => tracked mc' mid msg i
  end.
Proof.
  intros Hwf [(h&Hi&Hin) Ho (msg'&Hm&Heq)] Hl He.
  destruct op as [mid' msg0|mid' peer|mid'| |mid']; cbn [mc_exec] in He.
  - destruct (wf_put mc mid' msg0 Hwf) as (r&mc1&Hp&_&_&_&_&Hms). rewrite Hp in He. injection He as <-.
    split.
    + destruct (put_keeps _ _ _ _ _ _ _ Hp Hi) as (h'&?&Hsub). exists h'. split; [done|].
      by apply (slot_mids_subseteq h).
    + intros j h' e Hj He Hmid. destruct (put_entries _ _ _ _ _ _ _ _ Hp Hj He) as [(h0&Hj0&He0)| ->];
        [by eapply Ho|by simpl in Hl, Hmid].
    + rewrite Hms, lookup_insert_ne by done. eauto.
  - unfold mc_get_with_iwant_counts in He. assert (tracked mc mid msg i) by (split; eauto).
    destruct (msgs mc !! mid') as [m|]; [|by injection He as <-].
    destruct (validated m); [|by injection He as <-]. case_match; [done|]. injection He as <-. by split; eauto.
  - injection He as <-. split; simpl; [eauto|done|]. destruct (decide (mid = mid')) as [->|].
    + rewrite lookup_alter_eq, Hm. eauto.
    + rewrite lookup_alter_ne by done. eauto.
  - destruct (wf_shift mc Hwf) as (mc1&entries&Hla&Hs&_). rewrite Hs in He. injection He as <-.
    destruct (shift_lookup _ _ _ Hla Hs) as (_&_&_&Hms&_).
    pose proof (shift_moves _ _ _ _ _ Hla Hs Hi) as Hmv. case_decide as Hlt.
    + split; [eauto| |].
      * intros j h' e Hj He Hmid. destruct (shift_history _ _ _ _ _ Hla Hs Hj) as [[_ ->]|(j'&->&_&Hj')];
          [by apply elem_of_nil in He|]. destruct (Ho _ _ _ Hj' He Hmid) as [-> ?]. done.
      * rewrite Hms. rewrite decide_False; [eauto|]. intros (e&Hmid&He)%list_elem_of_fmap.
        rewrite last_lookup in Hla. destruct (Ho _ _ _ Hla He) as [<- _]; [done|]. lia.
    + subst entries. split; [rewrite Hms; by rewrite decide_True|].
      intros j h' Hj (e&Hmid&He)%list_elem_of_fmap.
      destruct (shift_history _ _ _ _ _ Hla Hs Hj) as [[_ ->]|(j'&->&Hj'&Hl')]; [by apply elem_of_nil in He|].
      destruct (Ho _ _ _ Hl' He) as [-> _]; [done|]. lia.
  - injection He as <-. split; simpl; [eauto|done|]. rewrite lookup_delete_ne by done. eauto.
Qed.

Lemma mc_run_tracked mc mid msg i ops :
  mc_wf mc → counts_below (u32_max - Z.of_nat (length ops)) mc → (Z.of_nat (length ops) < u32_max)%Z →
  Forall (leaves mid) ops →
  ∃ mc', mc_run mc ops = Some mc' ∧ mc_wf mc' ∧ length (history mc') = length (history mc) ∧
    gossip mc' = gossip mc ∧
    (gone mc mid → gone mc' mid) ∧
    (tracked mc mid msg i → i < length (history mc) →
     if decide (i + shifts ops < length (history mc)) then tracked mc' mid msg (i + shifts ops) else gone mc' mid).
Proof.
  intros Hwf Hb Hn Hl. revert mc i Hwf Hb. induction Hl as [|op ops Hop Hl IH]; intros mc i Hwf Hb.
  { exists mc. split_and!; try done. intros Ht Hi. unfold shifts. simpl. rewrite Nat.add_0_r. by rewrite decide_True. }
  cbn [mc_run]. cbn [length] in Hb, Hn.
  destruct (mc_exec_wf (u32_max - Z.of_nat (length ops)) mc op Hwf) as (mc1&He&Hwf1&Hb1&Hlen1&Hg1).
  { intros x cs p c H1 H2. specialize (Hb _ _ _ _ H1 H2). lia. }
  { lia. }
  rewrite He. cbn [mbind option_bind].
  assert (Hsh : shifts (op :: ops) = (match op with OpShift => 1 | _ => 0 end) + shifts ops).
  { unfold shifts. by destruct op. }
  set (i1 := match op with OpShift => S i | _ => i end).
  destruct (IH ltac:(lia) mc1 i1 Hwf1 Hb1) as (mc2&Hr&Hwf2&Hlen2&Hg2&Hgone&Htr).
  exists mc2. split_and!; try done; [congruence|congruence| |].
  - intros Hg. apply Hgone. exact (gone_exec _ _ _ _ Hwf Hg Hop He).
  - intros Ht Hi. rewrite Hlen1 in Htr. pose proof (tracked_exec _ _ _ _ _ _ Hwf Ht Hop He) as Hte.
    assert (Hplus : i + shifts (op :: ops) = i1 + shifts ops) by (rewrite Hsh; subst i1; destruct op; lia).
    rewrite Hplus. subst i1. destruct op; try (by apply Htr).
    destruct (decide (S i < length (history mc))); [by apply Htr|].
    rewrite decide_False by lia. by apply Hgone.
Qed.

Lemma gossip_ids_eq mc t :
  gossip mc ≤ length (history mc) →
  mc_get_gossip_message_ids mc t = Some (take (gossip mc) (history mc) ≫= gossip_entries (msgs mc) t).
Proof.
  intros Hg. unfold mc_get_gossip_message_ids. rewrite decide_True by done. f_equal.
  assert (Hf : ∀ l acc, foldl (λ current entries, current ++ gossip_entries (msgs mc) t entries) acc l =
    acc ++ (l ≫= gossip_entries (msgs mc) t)).
  { induction l as [|h l IH]; intros acc; simpl; [by rewrite app_nil_r|]. by rewrite IH, <-app_assoc. }
  by rewrite Hf.
Qed.

Lemma gossip_entries_elem ms t h mid :
  mid ∈ gossip_entries ms t h ↔ mk_CacheEntry mid t ∈ h ∧ ∃ m, ms !! mid = Some m ∧ validated m = true.
Proof.
  unfold gossip_entries. rewrite list_elem_of_omap. split.
  - intros ([mid' t']&He&Hs). simpl in Hs. destruct (decide (t' = t)) as [->|]; [|done].
    destruct (ms !! mid') as [m|] eqn:Hm; [|done]. simpl in Hs. destruct (validated m) eqn:Hv; [|done].
    injection Hs as <-. eauto.
  - intros [He (m&Hm&Hv)]. eexists. split; [exact He|]. simpl. rewrite decide_True by done.
    rewrite Hm. simpl. by rewrite Hv.
Qed.

End mcache.

(** ** Time caches: [time_cache.rs] *)

Section time_cache.
Context {K V : Type} `{!EqDecision K} `{!Countable K}.

(** The map holds a value with its latest expiry; the list holds the keys in the
    order of their expiry. *)
Record TimeCache := mk_TimeCache {
  tc_map : gmap K (V * Instant);
  tc_list : list (K * Instant);
  tc_ttl : Duration
}.

Definition tc_new (ttl : Duration) : TimeCache := mk_TimeCache ∅ [] ttl.

Fixpoint remove_expired_loop (m : gmap K (V * Instant)) (l : list (K * Instant)) (now : Instant) :
    gmap K (V * Instant) * list (K * Instant) :=
  match l with
  | [] => (m, [])
  | (k, expires) :: l' =>
      if (now <? expires)%Z then (m, l)
      else
        let m := match m !! k with
                 | Some (_, e) => if (e <=? now)%Z then delete k m else m
                 | None => m
                 end in
        remove_expired_loop m l' now
  end.

Definition remove_expired_keys (c : TimeCache) (now : Instant) : TimeCache :=
  let '(m, l) := remove_expired_loop (tc_map c) (tc_list c) now in mk_TimeCache m l (tc_ttl c).

(** [entry]: the purged cache with the value of the key when it is occupied. *)
Definition tc_entry (now : Instant) (c : TimeCache) (k : K) : option V * TimeCache :=
  let c := remove_expired_keys c now in (fst <$> tc_map c !! k, c).

Definition vacant_insert (now : Instant) (c : TimeCache) (k : K) (v : V) : TimeCache :=
  let expiration := (now + tc_ttl c)%Z in
  mk_TimeCache (<[k := (v, expiration)]> (tc_map c)) (tc_list c ++ [(k, expiration)]) (tc_ttl c).

Definition insert_and_update_expiration := vacant_insert.

Definition insert_without_updating_expiration (c : TimeCache) (k : K) (v : V) : TimeCache :=
  mk_TimeCache (alter (λ ve, (v, ve.2)) k (tc_map c)) (tc_list c) (tc_ttl c).

Definition or_insert_with (now : Instant) (c : TimeCache) (k : K) (v : V) : V * TimeCache :=
  match tc_entry now c k with
  | (Some v, c) => (v, c)
  | (None, c) => (v, vacant_insert now c k v)
  end.

Definition tc_clear (c : TimeCache) : TimeCache := mk_TimeCache ∅ [] (tc_ttl c).

Definition tc_contains_key (c : TimeCache) (k : K) : bool := bool_decide (is_Some (tc_map c !! k)).

Definition tc_get (c : TimeCache) (k : K) : option V := fst <$> tc_map c !! k.

(** *** Lemmas *)

(** The keys of the map are in the list with their expiry, and no later entry of a
    key is in the list; the list is sorted. *)
Record tc_wf (last : Instant) (c : TimeCache) : Prop := {
  tw_listed k v e : tc_map c !! k = Some (v, e) → (k, e) ∈ tc_list c;
  tw_latest k e : (k, e) ∈ tc_list c → ∃ v e', tc_map c !! k = Some (v, e') ∧ (e ≤ e')%Z;
  tw_sorted : StronglySorted (λ a b, a.2 ≤ b.2)%Z (tc_list c);
  tw_bound : Forall (λ x, x.2 ≤ last + tc_ttl c)%Z (tc_list c);
  tw_ttl : (0 ≤ tc_ttl c)%Z
}.
Lemma remove_expired_spec m l now :
  StronglySorted (λ a b : K * Instant, a.2 ≤ b.2)%Z l →
  (∀ k v e, m !! k = Some (v, e) → (e ≤ now)%Z → (k, e) ∈ l) →
  remove_expired_loop m l now =
    (filter (λ kv : K * (V * Instant), now < kv.2.2)%Z m, filter (λ x, now < x.2)%Z l).
Proof.
  revert m. induction l as [|[k expires] l IH]; intros m Hs Hm; simpl.
  { f_equal. symmetry. apply map_filter_id. intros k [v e] Hk. simpl.
    destruct (Z.lt_ge_cases now e) as [|Hle]; [done|]. by apply (Hm k v e), elem_of_nil in Hle. }
  apply StronglySorted_inv in Hs as [Hs Hall]. rewrite Forall_forall in Hall.
  destruct (Z.ltb_spec now expires) as [Hlt|Hge].
  - rewrite filter_cons_True by done. f_equal.
    + symmetry. apply map_filter_id. intros k' [v e] Hk. simpl.
      destruct (Z.lt_ge_cases now e) as [|Hle]; [done|]. pose proof (Hm k' v e Hk Hle) as [Heq|Hin]%elem_of_cons.
      * injection Heq as -> ->. lia.
      * specialize (Hall _ Hin). simpl in Hall. lia.
    + f_equal. symmetry. apply filter_all. intros x Hx. specialize (Hall _ Hx).
      simpl in Hall. lia.
  - rewrite filter_cons_False by (simpl; lia). set (m' := match m !! k with Some _ => _ | None => m end).
    assert (Hm' : ∀ k' v e, m' !! k' = Some (v, e) ↔ m !! k' = Some (v, e) ∧ (k' = k → now < e)%Z).
    { intros k' v e. subst m'. destruct (m !! k) as [[v0 e0]|] eqn:Hk.
      - destruct (Z.leb_spec e0 now).
        + rewrite lookup_delete_Some. split; [naive_solver|]. intros [Hk' Hne]. split; [|done].
          intros ->. rewrite Hk in Hk'. injection Hk' as -> ->. specialize (Hne eq_refl). lia.
        + split; [|naive_solver]. intros Hk'. split; [done|]. intros ->. rewrite Hk in Hk'.
          injection Hk' as -> ->. lia.
      - split; [|naive_solver]. intros Hk'. split; [done|]. intros ->. congruence. }
    rewrite IH; [|done|].
    + f_equal. apply map_eq. intros k'. apply option_eq. intros [v e].
      rewrite !map_lookup_filter_Some, Hm'. simpl. naive_solver.
    + intros k' v e [Hk' Hne]%Hm' He.
      pose proof (Hm _ _ _ Hk' He) as [Heq|Hin]%elem_of_cons; [|done]. injection Heq as -> ->.
      specialize (Hne eq_refl). lia.
Qed.

Lemma remove_expired_keys_spec last c now :
  tc_wf last c →
  tc_map (remove_expired_keys c now) = filter (λ kv : K * (V * Instant), now < kv.2.2)%Z (tc_map c) ∧
  tc_list (remove_expired_keys c now) = filter (λ x, now < x.2)%Z (tc_list c) ∧
  tc_ttl (remove_expired_keys c now) = tc_ttl c.
Proof.
  intros [Hl _ Hs _ _]. unfold remove_expired_keys.
  rewrite remove_expired_spec; [done|done|]. intros k v e Hk _. by eapply Hl.
Qed.

Lemma remove_expired_wf last c now : tc_wf last c → tc_wf last (remove_expired_keys c now).
Proof.
  intros Hwf. destruct (remove_expired_keys_spec last c now Hwf) as (Hm&Hl&Ht).
  destruct Hwf as [H1 H2 H3 H4 H5]. split; rewrite ?Hm, ?Hl, ?Ht.
  - intros k v e [Hk He]%map_lookup_filter_Some. apply list_elem_of_filter. eauto.
  - intros k e [He (v&e'&Hk&Hle)%H2]%list_elem_of_filter. exists v, e'. split; [|done].
    apply map_lookup_filter_Some. split; [done|]. simpl in *. lia.
  - by apply StronglySorted_filter.
  - by apply Forall_filter.
  - done.
Qed.

Lemma vacant_insert_wf last now c k v :
  tc_wf last c → (last ≤ now)%Z →
  tc_wf now (vacant_insert now c k v).
Proof.
  intros [H1 H2 H3 H4 H5] Hnow. rewrite Forall_forall in H4.
  split; simpl.
  - intros k' v' e'. destruct (decide (k' = k)) as [->|].
    + rewrite lookup_insert_eq. intros [= <- <-]. apply elem_of_app. right. by apply list_elem_of_singleton.
    + rewrite lookup_insert_ne by done. intros Hk. apply elem_of_app. left. by eapply H1.
  - intros k' e' [Hin|[= -> ->]%list_elem_of_singleton]%elem_of_app.
    + destruct (decide (k' = k)) as [->|].
      * rewrite lookup_insert_eq. eexists _, _. split; [done|]. specialize (H4 _ Hin). simpl in H4. lia.
      * rewrite lookup_insert_ne by done. by apply H2.
    + rewrite lookup_insert_eq. by eexists _, _.
  - apply StronglySorted_app_2; [|done|by repeat constructor].
    intros x y Hx ->%list_elem_of_singleton. specialize (H4 _ Hx). simpl. lia.
  - apply Forall_app. split; [|repeat constructor; simpl; lia]. apply Forall_forall. intros x Hx.
    specialize (H4 _ Hx). lia.
  - done.
Qed.
End time_cache.
Arguments TimeCache : clear implicits.
Arguments TimeCache _ _ {_ _}.

(** *** Seen messages *)

Section duplicate_cache.
Context {K : Type} `{!EqDecision K} `{!Countable K}.

Local Abbreviation DuplicateCache := (TimeCache K unit).

Definition dc_insert (now : Instant) (c : DuplicateCache) (k : K) : bool * DuplicateCache :=
  match tc_entry now c k with
  | (Some _, c) => (false, c)
  | (None, c) => (true, vacant_insert now c k tt)
  end.

Definition dc_contains (c : DuplicateCache) (k : K) : bool := tc_contains_key c k.

Fixpoint dc_run (c : DuplicateCache) (ops : list (Instant * K)) : list bool * DuplicateCache :=
  match ops with
  | [] => ([], c)
  | (now, k) :: ops =>
      let '(b, c) := dc_insert now c k in
      let '(bs, c) := dc_run c ops in (b :: bs, c)
  end.

(** The reference: a key is new when it has not been accepted during the last
    [ttl]. *)
Definition seen_within (ttl : Duration) (accepted : list (Instant * K)) (now : Instant) (k : K) : bool :=
  existsb (λ x, bool_decide (x.2 = k) && (now <? x.1 + ttl)%Z) accepted.

Fixpoint seen_run (ttl : Duration) (accepted : list (Instant * K)) (ops : list (Instant * K)) :
    list bool * list (Instant * K) :=
  match ops with
  | [] => ([], accepted)
  | (now, k) :: ops =>
      let dup := seen_within ttl accepted now k in
      let '(bs, accepted) := seen_run ttl (if dup then accepted else (now, k) :: accepted) ops in
      (negb dup :: bs, accepted)
  end.

Lemma seen_within_true ttl accepted now k :
  seen_within ttl accepted now k = true ↔ ∃ t, (t, k) ∈ accepted ∧ (now < t + ttl)%Z.
Proof.
  unfold seen_within. rewrite existsb_exists. split.
  - intros ([t k']&Hin&[Hk Ht]%andb_true_iff). apply bool_decide_eq_true in Hk. simpl in Hk. subst.
    exists t. split; [by apply list_elem_of_In|]. by apply Z.ltb_lt.
  - intros (t&Hin&Ht). exists (t, k). split; [by apply list_elem_of_In|]. apply andb_true_iff.
    split; [by apply bool_decide_eq_true|by apply Z.ltb_lt].
Qed.

(** The cache and the accepted keys agree on every key from the time [now] on. *)
Definition dc_agrees (now : Instant) (c : DuplicateCache) (accepted : list (Instant * K)) : Prop :=
  tc_wf now c ∧
  ∀ now' k, (now ≤ now')%Z →
    ((∃ e, tc_map c !! k = Some (tt, e) ∧ (now' < e)%Z) ↔ ∃ t, (t, k) ∈ accepted ∧ (now' < t + tc_ttl c)%Z).

Lemma dc_insert_agrees last now c accepted k :
  dc_agrees last c accepted → (last ≤ now)%Z →
  let dup := seen_within (tc_ttl c) accepted now k in
  let '(b, c') := dc_insert now c k in
  b = negb dup ∧ tc_ttl c' = tc_ttl c ∧ dc_agrees now c' (if dup then accepted else (now, k) :: accepted).
Proof.
  intros [Hwf Ha] Hle dup. unfold dc_insert, tc_entry.
  destruct (remove_expired_keys_spec last c now Hwf) as (Hm&_&Httl).
  pose proof (remove_expired_wf last c now Hwf) as Hwf1. set (c1 := remove_expired_keys c now) in *.
  assert (Ha1 : ∀ now' k', (now ≤ now')%Z →
    ((∃ e, tc_map c1 !! k' = Some (tt, e) ∧ (now' < e)%Z) ↔ ∃ t, (t, k') ∈ accepted ∧ (now' < t + tc_ttl c)%Z)).
  { intros now' k' Hn. rewrite <-Ha by lia. rewrite Hm. setoid_rewrite map_lookup_filter_Some. simpl.
    split; [naive_solver|]. intros (e&?&?). exists e. split_and!; try done. lia. }
  assert (Hwf2 : tc_wf now c1).
  { destruct Hwf1 as [? ? ? Hb ?]. split; try done. eapply Forall_impl; [exact Hb|]. simpl. intros. lia. }
  destruct (tc_map c1 !! k) as [[[] e]|] eqn:Hk; simpl.
  - assert (dup = true) as ->.
    { apply seen_within_true, Ha1; [lia|]. exists e. split; [done|]. rewrite Hm in Hk.
      by apply map_lookup_filter_Some in Hk as [_ ?]. }
    split_and!; [done..|]. split; [done|]. intros now' k' Hn. rewrite Httl. by apply Ha1.
  - assert (dup = false) as ->.
    { apply not_true_iff_false. intros (e&?&_)%seen_within_true%Ha1; [|lia]. congruence. }
    split_and!; [done..|]. split; [by eapply vacant_insert_wf|]. intros now' k' Hn. simpl. rewrite Httl.
    destruct (decide (k' = k)) as [->|Hne].
    + rewrite lookup_insert_eq. split.
      * intros (e&[= <-]&?). exists now. split; [left|lia].
      * intros (t&[[= ->]|Hin]%elem_of_cons&?); [by eexists|].
        destruct (proj2 (Ha1 now' k Hn)) as (e&?&_); [by exists t|congruence].
    + rewrite lookup_insert_ne by done. rewrite Ha1 by done. split.
      * intros (t&?&?). exists t. split; [by right|done].
      * intros (t&[[= _ ?]|Hin]%elem_of_cons&?); [done|]. by exists t.
Qed.

(** The cache of seen messages answers like the list of all accepted keys: an
    insertion returns true exactly when the key has not been accepted during the
    last [ttl], whatever has been purged, and a key that was accepted during the
    last [ttl] is always contained. *)
Theorem duplicate_cache_window ttl ops :
  (0 ≤ ttl)%Z → StronglySorted (λ a b, a.1 ≤ b.1)%Z ops →
  let '(answers, c) := dc_run (tc_new ttl) ops in
  let '(expected, accepted) := seen_run ttl [] ops in
  answers = expected ∧
  ∀ now k, Forall (λ x, x.1 ≤ now)%Z ops → seen_within ttl accepted now k = true → dc_contains c k = true.
Proof.
  intros Httl Hs. destruct ops as [|x ops]; [done|].
  assert (H0 : dc_agrees x.1 (tc_new ttl) []).
  { split; [split; simpl; try done; try (by constructor)|].
    - intros k e. by intros ?%elem_of_nil.
    - intros now' k _. split; [intros (e&?&_)|intros (t&?%elem_of_nil&_)]; done. }
  assert (Hgen : ∀ ops last c accepted, dc_agrees last c accepted → tc_ttl c = ttl →
    StronglySorted (λ a b, a.1 ≤ b.1)%Z ops → Forall (λ x, last ≤ x.1)%Z ops →
    let '(answers, c') := dc_run c ops in
    let '(expected, accepted') := seen_run ttl accepted ops in
    answers = expected ∧ ∀ now k, (last ≤ now)%Z → Forall (λ x, x.1 ≤ now)%Z ops →
      seen_within ttl accepted' now k = true → dc_contains c' k = true).
  { clear. intros ops. induction ops as [|[now k] ops IH]; intros last c accepted Ha Ht Hs Hf; simpl.
    - split; [done|]. intros now k Hn _ (t&?&?)%seen_within_true. unfold dc_contains, tc_contains_key.
      apply bool_decide_eq_true. destruct (proj2 (proj2 Ha now k Hn)) as (e&->&_); [|by eexists].
      exists t. by rewrite Ht.
    - apply StronglySorted_inv in Hs as [Hs Hall]. apply Forall_cons in Hf as [Hlast Hf].
      pose proof (dc_insert_agrees last now c accepted k Ha Hlast) as Hstep. rewrite Ht in Hstep.
      destruct (dc_insert now c k) as [b c1]. destruct Hstep as (->&Ht1&Ha1).
      specialize (IH now c1 _ Ha1 ltac:(congruence) Hs Hall).
      destruct (dc_run c1 ops) as [bs c2]. destruct (seen_run ttl _ ops) as [es acc2].
      destruct IH as [-> IH]. split; [done|]. intros now' k' _ [Hle Hall']%Forall_cons.
      by apply IH. }
  specialize (Hgen (x :: ops) x.1 (tc_new ttl) [] H0 eq_refl Hs).
  destruct (dc_run (tc_new ttl) (x :: ops)) as [answers c].
  destruct (seen_run ttl [] (x :: ops)) as [expected accepted].
  destruct Hgen as [-> Hend].
  { apply StronglySorted_inv in Hs as [_ Hall]. by constructor. }
  split; [done|]. intros now k Hf Hsn. apply (Hend now k); [|done|done].
  by apply Forall_cons in Hf as [? _].
Qed.
End duplicate_cache.

(** ** Backoffs: [backoff.rs] *)

Definition NANOS : Z := 1000000000%Z.

(** The latest [Instant] of the standard library on Linux, whose seconds are a
    signed 64-bit integer; an addition beyond it panics. *)
Definition INSTANT_MAX : Instant := (2 ^ 63 * NANOS - 1)%Z.

Definition instant_add (i : Instant) (d : Duration) : option Instant :=
  if (i + d <=? INSTANT_MAX)%Z then Some (i + d)%Z else None.

Section backoff.
Context {PeerId : Type} `{!EqDecision PeerId} `{!Countable PeerId}.

Local Abbreviation Backoffs := (gmap TopicHash (gmap PeerId (Instant * nat))).

Record BackoffStorage := mk_BackoffStorage {
  backoffs : Backoffs;
  backoffs_by_heartbeat : list (gset (TopicHash * PeerId));
  heartbeat_index : nat;
  heartbeat_interval : Duration;
  backoff_slack : Z
}.

(** [heartbeats]; it panics for an empty interval. *)
Definition heartbeats (d interval : Duration) : option Z :=
  if (interval =? 0)%Z then None else Some (((d + interval - 1) / interval) mod 2 ^ 64)%Z.

Definition bs_new (prune_backoff interval : Duration) (slack : Z) : option BackoffStorage :=
  n ← heartbeats prune_backoff interval;
  if (n + slack + 1 <=? usize_max)%Z then
    Some (mk_BackoffStorage ∅ (replicate (Z.to_nat (n + slack + 1)) ∅) 0 interval slack)
  else None.

(** The closure of [update_backoff]. *)
Definition insert_into_backoffs_by_heartbeat (bs : BackoffStorage) (slots : list (gset (TopicHash * PeerId)))
    (pair : TopicHash * PeerId) (time : Duration) : option (list (gset (TopicHash * PeerId)) * nat) :=
  n ← heartbeats time (heartbeat_interval bs);
  let sum := (Z.of_nat (heartbeat_index bs) + n + backoff_slack bs)%Z in
  if (sum <=? usize_max)%Z then
    let index := Z.to_nat (sum mod Z.of_nat (length slots)) in
    Some (alter (λ s, {[pair]} ∪ s) index slots, index)
  else None.

Definition get_backoff (bs : Backoffs) (t : TopicHash) (p : PeerId) : option (Instant * nat) :=
  m ← bs !! t; m !! p.

Definition set_backoff (bs : Backoffs) (t : TopicHash) (p : PeerId) (x : Instant * nat) : Backoffs :=
  <[t := <[p := x]> (default ∅ (bs !! t))]> bs.

Definition update_backoff (now : Instant) (bs : BackoffStorage) (t : TopicHash) (p : PeerId) (time : Duration) :
    option BackoffStorage :=
  instant ← instant_add now time;
  match get_backoff (backoffs bs) t p with
  | Some (backoff, index) =>
      if (backoff <? instant)%Z then
        let slots := alter (λ s, s ∖ {[(t, p)]}) index (backoffs_by_heartbeat bs) in
        '(slots, index) ← insert_into_backoffs_by_heartbeat bs slots (t, p) time;
        Some (mk_BackoffStorage (set_backoff (backoffs bs) t p (instant, index)) slots
                (heartbeat_index bs) (heartbeat_interval bs) (backoff_slack bs))
      else Some bs
  | None =>
      '(slots, index) ← insert_into_backoffs_by_heartbeat bs (backoffs_by_heartbeat bs) (t, p) time;
      Some (mk_BackoffStorage (set_backoff (backoffs bs) t p (instant, index)) slots
              (heartbeat_index bs) (heartbeat_interval bs) (backoff_slack bs))
  end.

Definition is_backoff_with_slack (bs : BackoffStorage) (t : TopicHash) (p : PeerId) : bool :=
  bool_decide (is_Some (get_backoff (backoffs bs) t p)).

Definition get_backoff_time (bs : BackoffStorage) (t : TopicHash) (p : PeerId) : option Instant :=
  fst <$> get_backoff (backoffs bs) t p.

Definition remove_backoff (bs : Backoffs) (pair : TopicHash * PeerId) : Backoffs :=
  match bs !! pair.1 with
  | Some m =>
      match m !! pair.2 with
      | Some _ =>
          let m := delete pair.2 m in
          if decide (m = ∅) then delete pair.1 bs else <[pair.1 := m]> bs
      | None => bs
      end
  | None => bs
  end.

Definition slack_time (bs : BackoffStorage) : Duration := (heartbeat_interval bs * backoff_slack bs)%Z.

(** The closure of [retain]: whether a pair is kept, or a panic. *)
Definition keep_backoff (now : Instant) (bs : BackoffStorage) (pair : TopicHash * PeerId) : option bool :=
  match get_backoff_time bs pair.1 pair.2 with
  | Some b => e ← instant_add b (slack_time bs); Some (now <? e)%Z
  | None => Some false
  end.

(** [heartbeat]. *)
Definition bs_heartbeat (now : Instant) (bs : BackoffStorage) : option BackoffStorage :=
  let i := heartbeat_index bs in
  let next := (i + 1) `mod` length (backoffs_by_heartbeat bs) in
  match backoffs_by_heartbeat bs !! i with
  | Some s =>
      if decide (Forall (λ pair, is_Some (keep_backoff now bs pair)) (elements s)) then
        let kept := filter (λ pair, keep_backoff now bs pair = Some true) s in
        Some (mk_BackoffStorage (foldl remove_backoff (backoffs bs) (elements (s ∖ kept)))
                (<[i := kept]> (backoffs_by_heartbeat bs)) next (heartbeat_interval bs) (backoff_slack bs))
      else None
  | None => Some (mk_BackoffStorage (backoffs bs) (backoffs_by_heartbeat bs) next (heartbeat_interval bs)
                    (backoff_slack bs))
  end.

(** *** Lemmas *)

Lemma get_set_backoff bs t p x t' p' :
  get_backoff (set_backoff bs t p x) t' p' = if decide ((t', p') = (t, p)) then Some x else get_backoff bs t' p'.
Proof.
  unfold get_backoff, set_backoff. destruct (decide (t' = t)) as [->|Ht].
  - rewrite lookup_insert_eq. simpl. destruct (decide (p' = p)) as [->|Hp].
    + by rewrite lookup_insert_eq, decide_True.
    + rewrite lookup_insert_ne by done. rewrite decide_False by congruence.
      destruct (bs !! t); simpl; [done|]. by rewrite lookup_empty.
  - rewrite lookup_insert_ne by done. by rewrite decide_False by congruence.
Qed.

Lemma get_remove_backoff bs pair t p :
  get_backoff (remove_backoff bs pair) t p = if decide ((t, p) = pair) then None else get_backoff bs t p.
Proof.
  destruct pair as [t0 p0]. unfold get_backoff, remove_backoff. simpl.
  destruct (bs !! t0) as [m|] eqn:Ht0.
  - destruct (m !! p0) as [x|] eqn:Hp0.
    + destruct (decide (t = t0)) as [->|Hne].
      * rewrite Ht0. simpl. destruct (decide (p = p0)) as [->|Hp].
        -- rewrite (decide_True (P := (t0, p0) = _)) by done. case_decide; [by rewrite lookup_delete_eq|].
           rewrite lookup_insert_eq. simpl. by rewrite lookup_delete_eq.
        -- rewrite (decide_False (P := (t0, p) = _)) by congruence. case_decide as Hm.
           ++ rewrite lookup_delete_eq. simpl. rewrite <-(lookup_delete_ne m p0 p) by done.
              by rewrite Hm, lookup_empty.
           ++ rewrite lookup_insert_eq. simpl. by rewrite lookup_delete_ne.
      * rewrite (decide_False (P := (t, p) = _)) by congruence.
        case_decide; by rewrite ?lookup_delete_ne, ?lookup_insert_ne.
    + case_decide as Heq; [|done]. injection Heq as -> ->. by rewrite Ht0; simpl.
  - case_decide as Heq; [|done]. injection Heq as -> ->. by rewrite Ht0.
Qed.

Lemma get_remove_backoffs bs l t p :
  get_backoff (foldl remove_backoff bs l) t p = if decide ((t, p) ∈ l) then None else get_backoff bs t p.
Proof.
  revert bs. induction l as [|pair l IH]; intros bs; cbn [foldl].
  - by rewrite decide_False by apply not_elem_of_nil.
  - rewrite IH, get_remove_backoff. destruct (decide ((t, p) = pair)) as [<-|Hne].
    + rewrite (decide_True (P := _ ∈ _ :: _)) by left. by case_decide.
    + destruct (decide ((t, p) ∈ l)); [by rewrite decide_True by (by right)|].
      rewrite decide_False; [done|]. by intros [?|?]%elem_of_cons.
Qed.

Record bs_wf (bs : BackoffStorage) : Prop := {
  bw_index : heartbeat_index bs < length (backoffs_by_heartbeat bs);
  bw_len : (Z.of_nat (length (backoffs_by_heartbeat bs)) ≤ usize_max)%Z;
  bw_interval : (0 < heartbeat_interval bs)%Z ∧ (0 ≤ backoff_slack bs)%Z;
  bw_slot t p b i : get_backoff (backoffs bs) t p = Some (b, i) →
    (∃ s, backoffs_by_heartbeat bs !! i = Some s ∧ (t, p) ∈ s) ∧ (b + slack_time bs ≤ INSTANT_MAX)%Z;
  bw_back i s t p : backoffs_by_heartbeat bs !! i = Some s → (t, p) ∈ s →
    ∃ b, get_backoff (backoffs bs) t p = Some (b, i)
}.

(** The deadline is representable, and so is its slot. *)
Definition backoff_fits (bs : BackoffStorage) (now : Instant) (time : Duration) : Prop :=
  (now + time + slack_time bs ≤ INSTANT_MAX)%Z ∧
  (Z.of_nat (length (backoffs_by_heartbeat bs)) + (time + heartbeat_interval bs - 1) / heartbeat_interval bs +
    backoff_slack bs ≤ usize_max)%Z ∧ (0 ≤ time)%Z.

Lemma bs_new_wf prune interval slack bs :
  (0 < interval)%Z → (0 ≤ slack)%Z → bs_new prune interval slack = Some bs → bs_wf bs.
Proof.
  intros Hi Hs. unfold bs_new, heartbeats. rewrite (proj2 (Z.eqb_neq interval 0)) by lia. simpl.
  destruct (_ <=? _)%Z eqn:Hle; [|done]. apply Z.leb_le in Hle. intros [= <-].
  pose proof (Z.mod_pos_bound ((prune + interval - 1) / interval) (2 ^ 64) ltac:(lia)).
  split; simpl; rewrite ?length_replicate; try lia.
  - done.
  - intros i s t p [-> _]%lookup_replicate. by intros ?%elem_of_empty.
Qed.

(** Inserting a pair into a slot, after removing it from the slot it was in. *)
Lemma set_backoff_wf bs t p b j slots :
  bs_wf bs → (b + slack_time bs ≤ INSTANT_MAX)%Z → j < length (backoffs_by_heartbeat bs) →
  (∀ i, slots !! i = (λ s, s ∖ {[(t, p)]}) <$> backoffs_by_heartbeat bs !! i) →
  bs_wf (mk_BackoffStorage (set_backoff (backoffs bs) t p (b, j)) (alter (λ s, {[(t, p)]} ∪ s) j slots)
           (heartbeat_index bs) (heartbeat_interval bs) (backoff_slack bs)).
Proof.
  intros [Hi Hl Hiv Hsl Hbk] Hb Hj Hslots.
  assert (Hlen : length slots = length (backoffs_by_heartbeat bs)).
  { apply dec_stable. intros Hne. destruct (decide (length slots < length (backoffs_by_heartbeat bs))) as [Hlt|Hge].
    - destruct (lookup_lt_is_Some_2 _ _ Hlt) as [s Hs]. specialize (Hslots (length slots)).
      rewrite Hs, lookup_ge_None_2 in Hslots by lia. done.
    - destruct (lookup_lt_is_Some_2 slots (length (backoffs_by_heartbeat bs)) ltac:(lia)) as [s Hs].
      specialize (Hslots (length (backoffs_by_heartbeat bs))). rewrite Hs, lookup_ge_None_2 in Hslots by lia. done. }
  assert (Halt : ∀ i, alter (λ s, {[(t, p)]} ∪ s) j slots !! i =
      (λ s, if decide (i = j) then {[(t, p)]} ∪ s ∖ {[(t, p)]} else s ∖ {[(t, p)]}) <$> backoffs_by_heartbeat bs !! i).
  { intros i. destruct (decide (i = j)) as [->|Hne].
    - rewrite list_lookup_alter_eq, Hslots. by destruct (_ !! j).
    - rewrite list_lookup_alter_ne, Hslots by done. done. }
  split; unfold slack_time in *; simpl; rewrite ?length_alter, ?Hlen; try done.
  - intros t' p' b' i. rewrite get_set_backoff. setoid_rewrite Halt. case_decide as Heq.
    + injection Heq as -> ->. intros [= <- <-]. split; [|done].
      destruct (lookup_lt_is_Some_2 _ _ Hj) as [s Hs]. rewrite Hs. simpl. rewrite decide_True by done.
      eexists. split; [done|]. set_solver.
    + intros [(s & Hs & Hin) Hfit]%Hsl. split; [|done]. rewrite Hs. simpl. eexists. split; [done|].
      case_decide; set_solver.
  - intros i s t' p'. rewrite Halt. destruct (backoffs_by_heartbeat bs !! i) as [s0|] eqn:Hs0; [|done].
    simpl. intros [= <-] Hin. rewrite get_set_backoff.
    destruct (decide ((t', p') = (t, p))) as [Heq|Heq].
    + injection Heq as -> ->. destruct (decide (i = j)) as [->|]; [by eexists|]. set_solver.
    + eapply Hbk; [exact Hs0|]. case_decide; set_solver.
Qed.

Lemma insert_slot_fits bs now time slots pair :
  bs_wf bs → backoff_fits bs now time → length slots = length (backoffs_by_heartbeat bs) →
  ∃ j, j < length (backoffs_by_heartbeat bs) ∧
    insert_into_backoffs_by_heartbeat bs slots pair time = Some (alter (λ s, {[pair]} ∪ s) j slots, j).
Proof.
  intros [Hi Hl [Hiv Hsk] _ _] (_ & Hfit & Ht) Hlen.
  unfold insert_into_backoffs_by_heartbeat, heartbeats.
  rewrite (proj2 (Z.eqb_neq _ 0)) by lia. simpl.
  pose proof (Z.div_pos (time + heartbeat_interval bs - 1) (heartbeat_interval bs) ltac:(lia) ltac:(lia)).
  unfold usize_max in *. rewrite Z.mod_small by lia. rewrite (proj2 (Z.leb_le _ _)) by lia.
  eexists. split; [|done]. rewrite Hlen.
  pose proof (Z.mod_pos_bound (Z.of_nat (heartbeat_index bs) +
    (time + heartbeat_interval bs - 1) / heartbeat_interval bs + backoff_slack bs)
    (Z.of_nat (length (backoffs_by_heartbeat bs))) ltac:(lia)). lia.
Qed.

Definition same_slots (bs bs' : BackoffStorage) : Prop :=
  length (backoffs_by_heartbeat bs') = length (backoffs_by_heartbeat bs) ∧
  heartbeat_interval bs' = heartbeat_interval bs ∧ backoff_slack bs' = backoff_slack bs.

Lemma update_backoff_effect bs now t p time :
  bs_wf bs → backoff_fits bs now time →
  ∃ bs', update_backoff now bs t p time = Some bs' ∧ bs_wf bs' ∧ same_slots bs bs' ∧
    heartbeat_index bs' = heartbeat_index bs ∧
    get_backoff_time bs' t p =
      Some (Z.max (default (now + time)%Z (get_backoff_time bs t p)) (now + time)) ∧
    ∀ t' p', (t', p') ≠ (t, p) → get_backoff (backoffs bs') t' p' = get_backoff (backoffs bs) t' p'.
Proof.
  intros Hwf Hfit. pose proof Hfit as (Hinst & _ & Htime).
  assert (0 ≤ slack_time bs)%Z.
  { destruct (bw_interval _ Hwf). apply Z.mul_nonneg_nonneg; lia. }
  unfold update_backoff, instant_add, get_backoff_time. rewrite (proj2 (Z.leb_le _ _)) by lia. simpl.
  assert (Hput : ∀ slots, (∀ i, slots !! i = (λ s, s ∖ {[(t, p)]}) <$> backoffs_by_heartbeat bs !! i) →
    length slots = length (backoffs_by_heartbeat bs) →
    ∃ bs', ('(slots, index) ← insert_into_backoffs_by_heartbeat bs slots (t, p) time;
      Some (mk_BackoffStorage (set_backoff (backoffs bs) t p ((now + time)%Z, index)) slots
              (heartbeat_index bs) (heartbeat_interval bs) (backoff_slack bs))) = Some bs' ∧
      bs_wf bs' ∧ same_slots bs bs' ∧ heartbeat_index bs' = heartbeat_index bs ∧
      fst <$> get_backoff (backoffs bs') t p = Some (now + time)%Z ∧
      ∀ t' p', (t', p') ≠ (t, p) → get_backoff (backoffs bs') t' p' = get_backoff (backoffs bs) t' p').
  { intros slots Hslots Hlen.
    destruct (insert_slot_fits bs now time slots (t, p) Hwf Hfit Hlen) as (j & Hj & ->). simpl.
    eexists. split; [done|]. split; [by apply set_backoff_wf|].
    split; [by split; simpl; rewrite ?length_alter|]. split; [done|]. simpl.
    split; [by rewrite get_set_backoff, decide_True|].
    intros t' p' Hne. by rewrite get_set_backoff, decide_False. }
  destruct (get_backoff (backoffs bs) t p) as [[b i]|] eqn:Hg; simpl.
  - destruct (b <? now + time)%Z eqn:Hlt.
    + destruct (Hput (alter (λ s, s ∖ {[(t, p)]}) i (backoffs_by_heartbeat bs))) as (bs' & ? & ? & ? & ? & Hm & ?).
      * intros k. destruct (decide (k = i)) as [->|Hne]; [by rewrite list_lookup_alter_eq|].
        rewrite list_lookup_alter_ne by done. destruct (_ !! k) as [s|] eqn:Hs; [|done]. simpl. f_equal.
        assert ((t, p) ∉ s); [|set_solver]. intros Hin. destruct (bw_back _ Hwf _ _ _ _ Hs Hin). congruence.
      * by rewrite length_alter.
      * exists bs'. rewrite Hm, Z.max_r by lia. done.
    + exists bs. rewrite Hg. simpl. rewrite Z.max_l by lia. done.
  - destruct (Hput (backoffs_by_heartbeat bs)) as (bs' & ? & ? & ? & ? & Hm & ?); [|done|].
    + intros k. destruct (_ !! k) as [s|] eqn:Hs; [|done]. simpl. f_equal.
      assert ((t, p) ∉ s); [|set_solver]. intros Hin. destruct (bw_back _ Hwf _ _ _ _ Hs Hin). congruence.
    + exists bs'. rewrite Hm, Z.max_id. done.
Qed.

(** Whether the heartbeat at [now] drops a backoff. *)
Definition heartbeat_drops (now : Instant) (bs : BackoffStorage) (x : Instant * nat) : bool :=
  bool_decide (x.2 = heartbeat_index bs ∧ (x.1 + slack_time bs ≤ now)%Z).

Lemma heartbeat_effect bs now :
  bs_wf bs →
  ∃ bs', bs_heartbeat now bs = Some bs' ∧ bs_wf bs' ∧ same_slots bs bs' ∧
    heartbeat_index bs' = (heartbeat_index bs + 1) `mod` length (backoffs_by_heartbeat bs) ∧
    ∀ t p, get_backoff (backoffs bs') t p =
      x ← get_backoff (backoffs bs) t p; if heartbeat_drops now bs x then None else Some x.
Proof.
  intros Hwf. pose proof Hwf as [Hi Hl [Hiv Hsk] Hsl Hbk]. unfold bs_heartbeat.
  destruct (lookup_lt_is_Some_2 _ _ Hi) as [s Hs]. rewrite Hs.
  assert (Hkeep : ∀ t p, (t, p) ∈ s → ∃ b, get_backoff (backoffs bs) t p = Some (b, heartbeat_index bs) ∧
    keep_backoff now bs (t, p) = Some (now <? b + slack_time bs)%Z).
  { intros t p Hin. destruct (Hbk _ _ _ _ Hs Hin) as [b Hb]. exists b. split; [done|].
    unfold keep_backoff, get_backoff_time, instant_add. simpl. rewrite Hb. simpl.
    destruct (Hsl _ _ _ _ Hb) as [_ ?]. by rewrite (proj2 (Z.leb_le _ _)). }
  rewrite decide_True.
  2: { apply Forall_forall. intros [t p] (b & _ & ->)%elem_of_elements%Hkeep. by eexists. }
  set (kept := filter _ s). eexists. split; [done|]. simpl.
  assert (Hget : ∀ t p, get_backoff (foldl remove_backoff (backoffs bs) (elements (s ∖ kept))) t p =
    x ← get_backoff (backoffs bs) t p; if heartbeat_drops now bs x then None else Some x).
  { intros t p. rewrite get_remove_backoffs. case_decide as Hin.
    - apply elem_of_elements, elem_of_difference in Hin as [Hin Hk].
      destruct (Hkeep _ _ Hin) as (b & Hb & Hkb). rewrite Hb. simpl. unfold heartbeat_drops.
      rewrite bool_decide_true; [done|]. split; [done|]. simpl.
      apply Z.nlt_ge. intros Hlt. apply Hk, elem_of_filter. split; [|done]. rewrite Hkb. f_equal. lia.
    - destruct (get_backoff (backoffs bs) t p) as [[b i]|] eqn:Hg; [|done]. simpl. unfold heartbeat_drops.
      rewrite bool_decide_false; [done|]. simpl. intros [-> Hle].
      destruct (Hsl _ _ _ _ Hg) as [(s' & Hs' & Hin') _]. simplify_eq. apply Hin.
      apply elem_of_elements, elem_of_difference. split; [done|]. intros [Hk _]%elem_of_filter.
      destruct (Hkeep _ _ Hin') as (b' & Hb' & Hkb). simplify_eq. lia. }
  split; [|split; [by split; simpl; rewrite ?length_insert|split; [done|exact Hget]]].
  split; unfold slack_time in *; simpl; rewrite ?length_insert; try done.
  - apply Nat.mod_upper_bound. lia.
  - intros t p b i. rewrite Hget. destruct (get_backoff (backoffs bs) t p) as [[b0 i0]|] eqn:Hg; [|done].
    simpl. destruct (heartbeat_drops _ _ _) eqn:Hd; [done|]. intros [= <- <-].
    destruct (Hsl _ _ _ _ Hg) as [(s' & Hs' & Hin') ?]. split; [|done].
    destruct (decide (i0 = heartbeat_index bs)) as [->|Hne].
    + rewrite list_lookup_insert_eq by done. eexists. split; [done|]. simplify_eq.
      apply elem_of_filter. split; [|done]. destruct (Hkeep _ _ Hin') as (b' & Hb' & ->). simplify_eq.
      apply bool_decide_eq_false in Hd. unfold slack_time in *. simpl in Hd. f_equal. lia.
    + rewrite list_lookup_insert_ne by done. eauto.
  - intros i s' t p. destruct (decide (i = heartbeat_index bs)) as [->|Hne].
    + rewrite list_lookup_insert_eq by done. intros [= <-] [Hk Hin]%elem_of_filter.
      destruct (Hkeep _ _ Hin) as (b & Hb & Hkb). exists b. rewrite Hget, Hb. simpl. unfold heartbeat_drops.
      rewrite bool_decide_false; [done|]. unfold slack_time in *. simpl. simplify_eq. lia.
    + rewrite list_lookup_insert_ne by done. intros Hs' Hin. destruct (Hbk _ _ _ _ Hs' Hin) as [b Hb].
      exists b. rewrite Hget, Hb. simpl. unfold heartbeat_drops. rewrite bool_decide_false; [done|].
      simpl. tauto.
Qed.

(** *** Runs *)

Inductive BackoffOp :=
  | BoUpdate (now : Instant) (t : TopicHash) (p : PeerId) (time : Duration)
  | BoHeartbeat (now : Instant).

Definition bo_time (o : BackoffOp) : Instant :=
  match o with BoUpdate now _ _ _ => now | BoHeartbeat now => now end.

Definition bo_updates (t : TopicHash) (p : PeerId) (o : BackoffOp) : Prop :=
  match o with BoUpdate _ t' p' _ => (t', p') = (t, p) | BoHeartbeat _ => False end.

Definition bo_fits (bs : BackoffStorage) (o : BackoffOp) : Prop :=
  match o with BoUpdate now _ _ time => backoff_fits bs now time | BoHeartbeat _ => True end.

Definition bo_exec (bs : BackoffStorage) (o : BackoffOp) : option BackoffStorage :=
  match o with
  | BoUpdate now t p time => update_backoff now bs t p time
  | BoHeartbeat now => bs_heartbeat now bs
  end.

Fixpoint bo_run (bs : BackoffStorage) (ops : list BackoffOp) : option BackoffStorage :=
  match ops with [] => Some bs | o :: ops => bs ← bo_exec bs o; bo_run bs ops end.

Fixpoint bo_heartbeats (ops : list BackoffOp) : nat :=
  match ops with
  | [] => 0
  | BoHeartbeat _ :: ops => S (bo_heartbeats ops)
  | BoUpdate _ _ _ _ :: ops => bo_heartbeats ops
  end.

Lemma same_slots_fits bs bs' o : same_slots bs bs' → bo_fits bs o → bo_fits bs' o.
Proof.
  intros (Hl & Hi & Hs). destruct o; [|done]. unfold bo_fits, backoff_fits, slack_time.
  by rewrite Hl, Hi, Hs.
Qed.

Lemma same_slots_trans bs1 bs2 bs3 : same_slots bs1 bs2 → same_slots bs2 bs3 → same_slots bs1 bs3.
Proof. intros (? & ? & ?) (? & ? & ?). split_and!; congruence. Qed.

Lemma same_slots_slack bs bs' : same_slots bs bs' → slack_time bs' = slack_time bs.
Proof. intros (_ & Hi & Hs). unfold slack_time. by rewrite Hi, Hs. Qed.

Lemma bo_exec_total bs o :
  bs_wf bs → bo_fits bs o → ∃ bs', bo_exec bs o = Some bs' ∧ bs_wf bs' ∧ same_slots bs bs'.
Proof.
  intros Hwf Hfit. destruct o as [now t p time|now]; simpl.
  - destruct (update_backoff_effect bs now t p time Hwf Hfit) as (bs' & ? & ? & ? & _). eauto.
  - destruct (heartbeat_effect bs now Hwf) as (bs' & ? & ? & ? & _). eauto.
Qed.

Lemma bo_run_total bs ops :
  bs_wf bs → Forall (bo_fits bs) ops → ∃ bs', bo_run bs ops = Some bs' ∧ bs_wf bs' ∧ same_slots bs bs'.
Proof.
  intros Hwf Hops. revert bs Hwf Hops. induction ops as [|o ops IH]; intros bs Hwf Hops; simpl.
  { exists bs. done. }
  inversion_clear Hops as [|?? Ho Hops'].
  destruct (bo_exec_total bs o Hwf Ho) as (bs1 & -> & Hwf1 & Hsame). simpl.
  destruct (IH bs1 Hwf1) as (bs2 & ? & ? & ?).
  { eapply Forall_impl; [exact Hops'|]. intros. by eapply same_slots_fits. }
  exists bs2. eauto using same_slots_trans.
Qed.

(** No operation before the deadline and its slack drops or shortens a backoff. *)
Lemma bo_run_keeps bs ops bs' t p b d :
  bs_wf bs → Forall (bo_fits bs) ops → bo_run bs ops = Some bs' →
  get_backoff_time bs t p = Some b → (d ≤ b)%Z → Forall (λ o, bo_time o < d + slack_time bs)%Z ops →
  ∃ b', get_backoff_time bs' t p = Some b' ∧ (d ≤ b')%Z.
Proof.
  revert bs b. induction ops as [|o ops IH]; intros bs b Hwf Hops Hrun Hget Hd Htimes; simpl in Hrun.
  { simplify_eq. eauto. }
  inversion_clear Hops as [|?? Ho Hops']. inversion_clear Htimes as [|?? Ht Htimes'].
  destruct (bo_exec_total bs o Hwf Ho) as (bs1 & He & Hwf1 & Hsame). rewrite He in Hrun. simpl in Hrun.
  assert (∃ b1, get_backoff_time bs1 t p = Some b1 ∧ (d ≤ b1)%Z) as (b1 & Hget1 & Hd1).
  { destruct o as [now t' p' time|now]; simpl in He, Ht.
    - destruct (update_backoff_effect bs now t' p' time Hwf Ho) as (bs1' & He' & _ & _ & _ & Hnew & Hold).
      simplify_eq. destruct (decide ((t, p) = (t', p'))) as [[= -> ->]|Hne].
      + rewrite Hnew, Hget. simpl. eexists. split; [done|]. lia.
      + unfold get_backoff_time. rewrite Hold by done. eauto.
    - destruct (heartbeat_effect bs now Hwf) as (bs1' & He' & _ & _ & _ & Hold). simplify_eq.
      unfold get_backoff_time in *. rewrite Hold. destruct (get_backoff (backoffs bs) t p) as [[b0 i]|]; [|done].
      simpl in *. simplify_eq. unfold heartbeat_drops. rewrite bool_decide_false; [by eauto|].
      simpl. lia. }
  eapply IH; [exact Hwf1| |exact Hrun|exact Hget1|done|].
  - eapply Forall_impl; [exact Hops'|]. intros. by eapply same_slots_fits.
  - by rewrite (same_slots_slack bs bs1).
Qed.

Lemma bo_run_stays_free bs ops bs' t p :
  bs_wf bs → Forall (bo_fits bs) ops → bo_run bs ops = Some bs' →
  get_backoff (backoffs bs) t p = None → Forall (λ o, ¬ bo_updates t p o) ops →
  get_backoff (backoffs bs') t p = None.
Proof.
  revert bs. induction ops as [|o ops IH]; intros bs Hwf Hops Hrun Hget Hupd; simpl in Hrun.
  { by simplify_eq. }
  inversion_clear Hops as [|?? Ho Hops']. inversion_clear Hupd as [|?? Hu Hupd'].
  destruct (bo_exec_total bs o Hwf Ho) as (bs1 & He & Hwf1 & Hsame). rewrite He in Hrun. simpl in Hrun.
  eapply IH; [exact Hwf1| |exact Hrun| |done].
  { eapply Forall_impl; [exact Hops'|]. intros. by eapply same_slots_fits. }
  destruct o as [now t' p' time|now]; simpl in He, Hu.
  - destruct (update_backoff_effect bs now t' p' time Hwf Ho) as (bs1' & He' & _ & _ & _ & _ & Hold).
    simplify_eq. by rewrite Hold by congruence.
  - destruct (heartbeat_effect bs now Hwf) as (bs1' & He' & _ & _ & _ & Hold). simplify_eq.
    by rewrite Hold, Hget.
Qed.

(** The heartbeats until slot [i] is visited. *)
Definition slot_distance (bs : BackoffStorage) (i : nat) : nat :=
  if decide (heartbeat_index bs ≤ i) then i - heartbeat_index bs
  else i + length (backoffs_by_heartbeat bs) - heartbeat_index bs.

Lemma bo_run_releases bs ops bs' t p b i :
  bs_wf bs → Forall (bo_fits bs) ops → bo_run bs ops = Some bs' →
  get_backoff (backoffs bs) t p = Some (b, i) → Forall (λ o, ¬ bo_updates t p o) ops →
  Forall (λ o, b + slack_time bs ≤ bo_time o)%Z ops → slot_distance bs i < bo_heartbeats ops →
  get_backoff (backoffs bs') t p = None.
Proof.
  revert bs. induction ops as [|o ops IH]; intros bs Hwf Hops Hrun Hget Hupd Htimes Hdist; simpl in Hrun.
  { simpl in Hdist. lia. }
  inversion Hops as [|?? Ho Hops']; subst. inversion_clear Hupd as [|?? Hu Hupd'].
  inversion_clear Htimes as [|?? Ht Htimes'].
  destruct (bo_exec_total bs o Hwf Ho) as (bs1 & He & Hwf1 & Hsame). rewrite He in Hrun. simpl in Hrun.
  assert (Hops1 : Forall (bo_fits bs1) ops).
  { eapply Forall_impl; [exact Hops'|]. intros. by eapply same_slots_fits. }
  rewrite <-(same_slots_slack bs bs1 Hsame) in Htimes'.
  destruct o as [now t' p' time|now]; simpl in He, Hu, Ht, Hdist.
  - destruct (update_backoff_effect bs now t' p' time Hwf Ho) as (bs1' & He' & _ & (Hl & _) & Hi & _ & Hold).
    simplify_eq. eapply IH; [exact Hwf1|done|exact Hrun| |done|done|].
    + by rewrite Hold by congruence.
    + unfold slot_distance in *. by rewrite Hi, Hl.
  - destruct (heartbeat_effect bs now Hwf) as (bs1' & He' & _ & (Hl & _) & Hi & Hold). simplify_eq.
    destruct (decide (i = heartbeat_index bs)) as [->|Hne].
    + eapply bo_run_stays_free; [exact Hwf1|done|exact Hrun| |done].
      rewrite Hold, Hget. simpl. unfold heartbeat_drops. by rewrite bool_decide_true.
    + eapply IH; [exact Hwf1|done|exact Hrun| |done|done|].
      * rewrite Hold, Hget. simpl. unfold heartbeat_drops. rewrite bool_decide_false; [done|].
        simpl. by intros [? _].
      * pose proof (bw_index _ Hwf) as Hlt. destruct (bw_slot _ Hwf _ _ _ _ Hget) as [(s & Hs%lookup_lt_Some & _) _].
        unfold slot_distance in *. rewrite Hi, Hl.
        destruct (decide (S (heartbeat_index bs) = length (backoffs_by_heartbeat bs))) as [Heq|Hneq].
        -- rewrite Nat.add_1_r, Heq, Nat.Div0.mod_same. repeat case_decide; lia.
        -- rewrite Nat.mod_small by lia. repeat case_decide; lia.
Qed.

(** A backoff set for a peer and a topic is in force, and no shorter than asked,
    as long as every later operation is before its deadline and the slack; after
    the deadline and the slack one turn of the heartbeat ring removes it, unless
    it is set again. The storage never panics on deadlines that fit an
    [Instant]. *)
Theorem backoff_window bs now t p time ops ops' :
  bs_wf bs → backoff_fits bs now time → Forall (bo_fits bs) ops → Forall (bo_fits bs) ops' →
  ∃ bs1 bs2 bs3, update_backoff now bs t p time = Some bs1 ∧ bo_run bs1 ops = Some bs2 ∧
    bo_run bs2 ops' = Some bs3 ∧
    (Forall (λ o, bo_time o < now + time + slack_time bs)%Z ops →
       is_backoff_with_slack bs2 t p = true ∧
       ∃ b, get_backoff_time bs2 t p = Some b ∧ (now + time ≤ b)%Z) ∧
    (∀ b, get_backoff_time bs2 t p = Some b →
       Forall (λ o, ¬ bo_updates t p o) ops' → Forall (λ o, b + slack_time bs ≤ bo_time o)%Z ops' →
       length (backoffs_by_heartbeat bs) ≤ bo_heartbeats ops' → is_backoff_with_slack bs3 t p = false).
Proof.
  intros Hwf Hfit Hops Hops'.
  destruct (update_backoff_effect bs now t p time Hwf Hfit) as (bs1 & Hu & Hwf1 & Hsame1 & _ & Hget & _).
  assert (Hops1 : Forall (bo_fits bs1) ops).
  { eapply Forall_impl; [exact Hops|]. intros. by eapply same_slots_fits. }
  destruct (bo_run_total bs1 ops Hwf1 Hops1) as (bs2 & Hr2 & Hwf2 & Hsame2).
  pose proof (same_slots_trans _ _ _ Hsame1 Hsame2) as Hsame12.
  assert (Hops2 : Forall (bo_fits bs2) ops').
  { eapply Forall_impl; [exact Hops'|]. intros. by eapply same_slots_fits. }
  destruct (bo_run_total bs2 ops' Hwf2 Hops2) as (bs3 & Hr3 & Hwf3 & _).
  exists bs1, bs2, bs3. split_and!; [done|done|done| |].
  - rewrite <-(same_slots_slack bs bs1 Hsame1). intros Htimes.
    destruct (bo_run_keeps bs1 ops bs2 t p _ (now + time)%Z Hwf1 Hops1 Hr2 Hget ltac:(lia) Htimes) as (b & Hb & ?).
    split; [|eauto]. unfold is_backoff_with_slack, get_backoff_time in *. rewrite bool_decide_true; [done|].
    destruct (get_backoff (backoffs bs2) t p); done.
  - intros b Hb Hno Htimes Hcount. unfold is_backoff_with_slack, get_backoff_time in *.
    destruct (get_backoff (backoffs bs2) t p) as [[b0 i]|] eqn:Hg; [|done]. simpl in Hb. simplify_eq.
    rewrite (bo_run_releases bs2 ops' bs3 t p b i); try done.
    + by rewrite (same_slots_slack bs bs2).
    + pose proof (bw_index _ Hwf2). destruct (bw_slot _ Hwf2 _ _ _ _ Hg) as [(s & Hs%lookup_lt_Some & _) _].
      unfold slot_distance. destruct Hsame12 as (? & _). case_decide; lia.
Qed.
End backoff.
Arguments BackoffStorage : clear implicits.
Arguments BackoffStorage _ {_ _}.

(** ** Promises: [gossip_promises.rs] *)

Section promises.
Context {PeerId : Type} `{!EqDecision PeerId} `{!Countable PeerId}.

Local Abbreviation GossipPromises := (gmap MessageId (gmap PeerId Instant)).

(** The element a random generator picks; [None] only for the empty list. *)
Definition choose {A} (rng : nat) (l : list A) : option A := l !! (rng `mod` length l).

Definition add_promise (rng : nat) (gp : GossipPromises) (peer : PeerId) (messages : list MessageId)
    (expires : Instant) : GossipPromises :=
  match choose rng messages with
  | Some mid =>
      let peers := default ∅ (gp !! mid) in
      match peers !! peer with
      | Some _ => gp
      | None => <[mid := <[peer := expires]> peers]> gp
      end
  | None => gp
  end.

Definition message_delivered (gp : GossipPromises) (mid : MessageId) : GossipPromises := delete mid gp.

Definition reject_message (gp : GossipPromises) (mid : MessageId) (reason : RejectReason) : GossipPromises :=
  match reason with
  | RejectValidationError InvalidSignature => gp
  | SelfOrigin => gp
  | _ => delete mid gp
  end.

Definition count_broken (r : gmap PeerId nat) (p : PeerId) : gmap PeerId nat :=
  <[p := S (default 0 (r !! p))]> r.

(** The peers of one message whose promise is over, and those kept. *)
Definition broken_peers (now : Instant) (peers : gmap PeerId Instant) : list PeerId :=
  fst <$> filter (λ x, (x.2 < now)%Z) (map_to_list peers).
Definition kept_peers (now : Instant) (peers : gmap PeerId Instant) : gmap PeerId Instant :=
  filter (λ x, ¬ (x.2 < now)%Z) peers.

Definition get_broken_promises (now : Instant) (gp : GossipPromises) : gmap PeerId nat * GossipPromises :=
  (foldl count_broken ∅ (map_to_list gp ≫= λ x, broken_peers now x.2),
   filter (λ x, x.2 ≠ ∅) (kept_peers now <$> gp)).

Definition promised (gp : GossipPromises) (mid : MessageId) (p : PeerId) : option Instant :=
  m ← gp !! mid; m !! p.

Lemma count_broken_total l r p :
  default 0 (foldl count_broken r l !! p) = default 0 (r !! p) + length (filter (p =.) l).
Proof.
  revert r. induction l as [|q l IH]; intros r; cbn [foldl]; [simpl; lia|].
  rewrite IH. unfold count_broken. rewrite filter_cons. case_decide as Hq.
  - subst q. rewrite lookup_insert_eq. simpl. lia.
  - by rewrite lookup_insert_ne by done.
Qed.

Lemma count_NoDup (l : list PeerId) p :
  NoDup l → length (filter (p =.) l) = if decide (p ∈ l) then 1 else 0.
Proof.
  induction 1 as [|q l Hq Hl IH]; [done|]. rewrite filter_cons. destruct (decide (p = q)) as [<-|Hne].
  - cbn [length]. rewrite IH, (decide_False (P := p ∈ l)) by done. by rewrite decide_True by left.
  - rewrite IH. destruct (decide (p ∈ l)) as [Hin|Hin]; [by rewrite decide_True by (by right)|].
    by rewrite decide_False by (by rewrite not_elem_of_cons).
Qed.

(** Whether the peer has promised the message of an entry and is late. *)
Definition promise_broken (now : Instant) (p : PeerId) (x : MessageId * gmap PeerId Instant) : bool :=
  match x.2 !! p with Some e => (e <? now)%Z | None => false end.

Lemma broken_peers_count now p x :
  length (filter (p =.) (broken_peers now x.2)) = if promise_broken now p x then 1 else 0.
Proof.
  unfold broken_peers, promise_broken. rewrite count_NoDup.
  2: { eapply sublist_NoDup; [apply (NoDup_fst_map_to_list x.2)|]. apply fmap_sublist, sublist_filter. }
  destruct (decide (p ∈ _)) as [Hin|Hin].
  - apply list_elem_of_fmap in Hin as ([q e] & -> & [Hlt Hin%elem_of_map_to_list]%list_elem_of_filter).
    simpl in *. rewrite Hin. by rewrite (proj2 (Z.ltb_lt e now)).
  - destruct (x.2 !! p) as [e|] eqn:He; [|done]. destruct (e <? now)%Z eqn:Hlt; [|done].
    exfalso. apply Hin, list_elem_of_fmap. exists (p, e). split; [done|].
    apply list_elem_of_filter. split; [simpl; lia|]. by apply elem_of_map_to_list.
Qed.

(** A round of promises counts, for each peer, the messages it promised and is
    late with; those promises are dropped and the others are kept, and no message
    is left without a promise. *)
Lemma broken_promises_exact now gp r gp' :
  get_broken_promises now gp = (r, gp') →
  (∀ p, default 0 (r !! p) = length (filter (promise_broken now p) (map_to_list gp))) ∧
  (∀ mid p, promised gp' mid p = e ← promised gp mid p; if (e <? now)%Z then None else Some e) ∧
  (∀ mid peers, gp' !! mid = Some peers → peers ≠ ∅).
Proof.
  unfold get_broken_promises. intros [= <- <-]. split_and!.
  - intros p. rewrite count_broken_total, lookup_empty. simpl.
    induction (map_to_list gp) as [|x l IH]; [done|]. rewrite bind_cons, filter_app, length_app.
    rewrite IH, broken_peers_count, filter_cons.
    by destruct (promise_broken now p x).
  - intros mid p. unfold promised.
    assert (Hk : (x ← kept_peers now <$> gp !! mid; x !! p) =
      e ← (m ← gp !! mid; m !! p); if (e <? now)%Z then None else Some e).
    { destruct (gp !! mid) as [m|]; [|done]. simpl. unfold kept_peers. rewrite map_lookup_filter.
      destruct (m !! p) as [e|]; [|done]. simpl. case_guard as Hlt; simpl.
      - by rewrite (proj2 (Z.ltb_ge _ _)) by lia.
      - by rewrite (proj2 (Z.ltb_lt _ _)) by lia. }
    rewrite <-Hk, map_lookup_filter, lookup_fmap. destruct (gp !! mid) as [m|]; [|done]. simpl.
    case_guard as Hne; [done|]. simpl in *. by rewrite Hne, lookup_empty.
  - intros mid peers [_ Hne]%map_lookup_filter_Some. done.
Qed.

Lemma add_promise_first rng gp peer messages expires mid p e :
  promised gp mid p = Some e → promised (add_promise rng gp peer messages expires) mid p = Some e.
Proof.
  unfold promised, add_promise. intros He. destruct (choose rng messages) as [m0|]; [|done].
  destruct (default ∅ (gp !! m0) !! peer) eqn:Hp; [done|].
  destruct (decide (mid = m0)) as [->|]; [|by rewrite lookup_insert_ne].
  rewrite lookup_insert_eq. simpl. destruct (gp !! m0) as [peers|]; [|done]. simpl in *.
  rewrite lookup_insert_ne; [done|]. intros ->. congruence.
Qed.
End promises.

(** ** Filters of subscriptions: [subscription_filter.rs] *)

#[global] Instance subscription_countable : Countable GossipsubSubscription.
Proof.
  refine (inj_countable' (λ s, (bool_decide (action s = Subscribe), topic_hash s))
            (λ x, mk_Subscription (if x.1 then Subscribe else Unsubscribe) x.2) _).
  by intros [[] t].
Defined.

Section filters.
(** The regular expressions of the crate [regex]. *)
Context {Regex : Type} (is_match : Regex → TopicHash → bool).

(** The implementations of [TopicSubscriptionFilter]; the callback is a
    function of the topic. *)
Inductive SubscriptionFilter :=
  | AllowAllSubscriptionFilter
  | WhitelistSubscriptionFilter (whitelist : gset TopicHash)
  | MaxCountSubscriptionFilter (filter : SubscriptionFilter)
      (max_subscribed_topics max_subscriptions_per_request : nat)
  | CombinedSubscriptionFilters (filter1 filter2 : SubscriptionFilter)
  | CallbackSubscriptionFilter (callback : TopicHash → bool)
  | RegexSubscriptionFilter (regex : Regex).

Inductive FilterError := TooManyPerRequest | TooManyTopics.

Fixpoint can_subscribe (f : SubscriptionFilter) (t : TopicHash) : bool :=
  match f with
  | AllowAllSubscriptionFilter => true
  | WhitelistSubscriptionFilter w => bool_decide (t ∈ w)
  | MaxCountSubscriptionFilter f _ _ => can_subscribe f t
  | CombinedSubscriptionFilters f1 f2 => can_subscribe f1 t && can_subscribe f2 t
  | CallbackSubscriptionFilter c => c t
  | RegexSubscriptionFilter r => is_match r t
  end.

Definition allow_incoming_subscription (f : SubscriptionFilter) (s : GossipsubSubscription) : bool :=
  can_subscribe f (topic_hash s).

Local Abbreviation Subscriptions := (gset GossipsubSubscription).

Definition retain_allowed (f : SubscriptionFilter) (subs : Subscriptions) : Subscriptions :=
  filter (λ s, allow_incoming_subscription f s = true) subs.

Fixpoint filter_incoming_subscription_set (f : SubscriptionFilter) (subs : Subscriptions) (current : gset TopicHash) :
    result FilterError Subscriptions :=
  match f with
  | CombinedSubscriptionFilters f1 f2 =>
      let? intermediate := filter_incoming_subscription_set f1 subs current in
      filter_incoming_subscription_set f2 intermediate current
  | _ => Ok (retain_allowed f subs)
  end.

(** The loop of the default [filter_incoming_subscriptions]: a subscription and
    its opposite cancel out. *)
Definition dedup_step (m : gmap TopicHash GossipsubSubscription) (s : GossipsubSubscription) :
    gmap TopicHash GossipsubSubscription :=
  match m !! topic_hash s with
  | Some s' => if decide (action s' ≠ action s) then delete (topic_hash s) m else m
  | None => <[topic_hash s := s]> m
  end.

Definition deduplicate (subs : list GossipsubSubscription) : Subscriptions :=
  list_to_set (snd <$> map_to_list (foldl dedup_step ∅ subs)).

Definition new_subscriptions (subs : Subscriptions) (current : gset TopicHash) : Subscriptions :=
  filter (λ s, action s = Subscribe ∧ topic_hash s ∉ current) subs.
Definition gone_subscriptions (subs : Subscriptions) (current : gset TopicHash) : Subscriptions :=
  filter (λ s, action s = Unsubscribe ∧ topic_hash s ∈ current) subs.

Fixpoint filter_incoming_subscriptions (f : SubscriptionFilter) (subs : list GossipsubSubscription)
    (current : gset TopicHash) : result FilterError Subscriptions :=
  match f with
  | MaxCountSubscriptionFilter f max_topics max_request =>
      if decide (max_request < length subs) then Err TooManyPerRequest
      else
        let? accepted := filter_incoming_subscriptions f subs current in
        if decide (max_topics + size (gone_subscriptions accepted current) <
                   size (new_subscriptions accepted current) + size current)
        then Err TooManyTopics
        else Ok accepted
  | _ => filter_incoming_subscription_set f (deduplicate subs) current
  end.

(** What the router does with the accepted subscriptions of a peer. *)
Definition apply_subscriptions (subs : Subscriptions) (current : gset TopicHash) : gset TopicHash :=
  (current ∪ set_map topic_hash (new_subscriptions subs current)) ∖
    set_map topic_hash (gone_subscriptions subs current).

(** One subscription for each topic. *)
Definition one_per_topic (subs : Subscriptions) : Prop :=
  ∀ s s', s ∈ subs → s' ∈ subs → topic_hash s = topic_hash s' → s = s'.

Lemma dedup_keys subs m :
  (∀ t s, m !! t = Some s → topic_hash s = t) →
  ∀ t s, foldl dedup_step m subs !! t = Some s → topic_hash s = t.
Proof.
  revert m. induction subs as [|s0 subs IH]; intros m Hm; cbn [foldl]; [done|]. apply IH.
  intros t s. unfold dedup_step. destruct (m !! topic_hash s0) eqn:Hs0.
  - case_decide; [|apply Hm]. intros [_ ?]%lookup_delete_Some. by apply Hm.
  - intros [[<- <-]|[_ ?]]%lookup_insert_Some; [done|]. by apply Hm.
Qed.

Lemma dedup_from subs m t s :
  foldl dedup_step m subs !! t = Some s → m !! t = Some s ∨ s ∈ subs.
Proof.
  revert m. induction subs as [|s0 subs IH]; intros m; cbn [foldl]; [by left|].
  intros [Hm|Hin]%IH; [|right; by right]. unfold dedup_step in Hm. destruct (m !! topic_hash s0) eqn:Hs0.
  - revert Hm. case_decide; [intros [_ ?]%lookup_delete_Some|intros ?]; by left.
  - apply lookup_insert_Some in Hm as [[_ <-]|[_ ?]]; [right; left|by left].
Qed.

Lemma deduplicate_spec subs : one_per_topic (deduplicate subs) ∧ ∀ s, s ∈ deduplicate subs → s ∈ subs.
Proof.
  assert (Hin : ∀ s, s ∈ deduplicate subs → foldl dedup_step ∅ subs !! topic_hash s = Some s).
  { intros s. unfold deduplicate. rewrite elem_of_list_to_set, list_elem_of_fmap.
    intros ([t s'] & -> & Hl%elem_of_map_to_list). simpl.
    rewrite (dedup_keys subs ∅ ltac:(intros ??; by rewrite lookup_empty) _ _ Hl). exact Hl. }
  split.
  - intros s s' Hs Hs' Ht. apply Hin in Hs, Hs'. rewrite Ht in Hs. congruence.
  - intros s Hs%Hin%dedup_from. destruct Hs as [Hs|Hs]; [by rewrite lookup_empty in Hs|done].
Qed.

Lemma filter_set_allowed f subs current accepted :
  filter_incoming_subscription_set f subs current = Ok accepted →
  accepted = filter (λ s, allow_incoming_subscription f s = true) subs.
Proof.
  revert subs accepted. induction f as [| | | f1 IH1 f2 IH2 | |]; intros subs accepted; simpl;
    try (intros [= <-]; done).
  destruct (filter_incoming_subscription_set f1 subs current) as [mid|] eqn:H1; [|done]. simpl.
  intros H2. rewrite (IH2 _ _ H2), (IH1 _ _ H1). apply set_eq. intros s. rewrite !elem_of_filter.
  unfold allow_incoming_subscription. simpl. rewrite andb_true_iff. tauto.
Qed.

Lemma filter_incoming_subset f subs current accepted :
  filter_incoming_subscriptions f subs current = Ok accepted →
  one_per_topic accepted ∧ ∀ s, s ∈ accepted → s ∈ subs ∧ can_subscribe f (topic_hash s) = true.
Proof.
  revert accepted. assert (Hbase : ∀ f accepted,
    filter_incoming_subscription_set f (deduplicate subs) current = Ok accepted →
    one_per_topic accepted ∧ ∀ s, s ∈ accepted → s ∈ subs ∧ can_subscribe f (topic_hash s) = true).
  { intros g accepted ->%filter_set_allowed. destruct (deduplicate_spec subs) as [Hone Hin]. split.
    - intros s s' [_ Hs]%elem_of_filter [_ Hs']%elem_of_filter. by apply Hone.
    - intros s [Ha Hs]%elem_of_filter. split; [by apply Hin|done]. }
  induction f as [| |f IH mt mr| | |]; intros accepted; try apply Hbase.
  cbn [filter_incoming_subscriptions can_subscribe]. case_decide; [done|].
  destruct (filter_incoming_subscriptions f subs current) as [a|] eqn:Ha; [|done]. simpl.
  case_decide; [done|]. intros [= <-]. by apply IH.
Qed.

Lemma size_topics subs : one_per_topic subs → size (set_map topic_hash subs : gset TopicHash) = size subs.
Proof.
  intros Hone. unfold set_map. rewrite size_list_to_set, length_fmap; [done|].
  apply NoDup_fmap_2_strong; [|apply NoDup_elements].
  intros s s' Hs%elem_of_elements Hs'%elem_of_elements. by apply Hone.
Qed.

Lemma one_per_topic_subseteq subs subs' : subs' ⊆ subs → one_per_topic subs → one_per_topic subs'.
Proof. intros Hsub Hone s s' Hs Hs'. apply Hone; by apply Hsub. Qed.

(** The accepted subscriptions change the number of topics by the difference of
    the two counters. *)
Lemma apply_subscriptions_size subs current :
  one_per_topic subs →
  size (apply_subscriptions subs current) + size (gone_subscriptions subs current) =
    size current + size (new_subscriptions subs current).
Proof.
  intros Hone. unfold apply_subscriptions.
  set (new := set_map (D := gset TopicHash) topic_hash (new_subscriptions subs current)).
  set (old := set_map (D := gset TopicHash) topic_hash (gone_subscriptions subs current)).
  assert (Hnew : size new = size (new_subscriptions subs current)).
  { apply size_topics. eapply one_per_topic_subseteq; [|exact Hone]. by intros s [_ ?]%elem_of_filter. }
  assert (Hold : size old = size (gone_subscriptions subs current)).
  { apply size_topics. eapply one_per_topic_subseteq; [|exact Hone]. by intros s [_ ?]%elem_of_filter. }
  assert (Hdisj : current ## new).
  { intros t Ht (s & -> & [[_ Hn] _]%elem_of_filter)%elem_of_map. done. }
  assert (Hsub : old ⊆ current ∪ new).
  { intros t (s & -> & [[_ Hn] _]%elem_of_filter)%elem_of_map. apply elem_of_union. by left. }
  rewrite <-Hnew, <-Hold, size_difference, size_union by done.
  pose proof (subseteq_size _ _ Hsub) as Hle. rewrite size_union in Hle by done. lia.
Qed.

(** A bounded filter accepts only subscriptions of the request that the inner
    filter allows, at most one for each topic, and only such that the peer is
    left with at most [max_topics] topics; a request that is too long is
    refused. *)
Theorem max_count_filter_bounds f max_topics max_request subs current accepted :
  filter_incoming_subscriptions (MaxCountSubscriptionFilter f max_topics max_request) subs current = Ok accepted →
  length subs ≤ max_request ∧ one_per_topic accepted ∧
  (∀ s, s ∈ accepted → s ∈ subs ∧ can_subscribe f (topic_hash s) = true) ∧
  size (apply_subscriptions accepted current) ≤ max_topics.
Proof.
  intros Hf. pose proof (filter_incoming_subset _ _ _ _ Hf) as [Hone Hin]. revert Hf.
  cbn [filter_incoming_subscriptions]. case_decide; [done|].
  destruct (filter_incoming_subscriptions f subs current) as [a|]; [|done]. simpl.
  case_decide as Hc; [done|]. intros [= ->]. split_and!; [lia|done|done|].
  pose proof (apply_subscriptions_size accepted current Hone). lia.
Qed.

(** Inside a combination of filters the bounds of [MaxCountSubscriptionFilter]
    are not applied: any request that a combination dispatches reaches only
    [filter_incoming_subscription_set]. *)
Lemma combined_ignores_max_count f g max_topics max_request subs current :
  filter_incoming_subscriptions
    (CombinedSubscriptionFilters (MaxCountSubscriptionFilter f max_topics max_request) g) subs current =
  filter_incoming_subscription_set g (retain_allowed f (deduplicate subs)) current.
Proof. done. Qed.
End filters.
Arguments SubscriptionFilter : clear implicits.

(** ** Concrete runs *)

Definition sample_raw : RawGossipsubMessage nat := mk_Raw nat (Some 1) [] (Some 7%Z) "news" None None true.


Lemma duplicate_cache_window_witness :
  (dc_run (tc_new 10) [(0%Z, "a"); (5%Z, "a"); (9%Z, "b"); (10%Z, "a")]).1 = [true; false; true; true].
Proof.
  pose proof (duplicate_cache_window 10 [(0%Z, "a"); (5%Z, "a"); (9%Z, "b"); (10%Z, "a")] ltac:(lia)) as H.
  destruct (dc_run _ _) as [answers c] eqn:Hr, (seen_run _ _ _) as [expected accepted] eqn:He.
  destruct H as [-> _].
  - repeat constructor; simpl; lia.
  - simpl. revert He. vm_compute (seen_run _ _ _). by intros [= <- <-].
Defined.

Definition sample_backoffs : BackoffStorage nat := default (mk_BackoffStorage ∅ [] 0 1 0) (bs_new 60 10 1).

Lemma backoff_window_witness :
  ∃ bs1 bs2, update_backoff 0 sample_backoffs "news" 1 60 = Some bs1 ∧
    bo_run bs1 [BoHeartbeat 10; BoUpdate 20 "news" 1 5; BoHeartbeat 69] = Some bs2 ∧
    is_backoff_with_slack bs2 "news" 1 = true.
Proof.
  destruct (backoff_window sample_backoffs 0 "news" 1 60 [BoHeartbeat 10; BoUpdate 20 "news" 1 5; BoHeartbeat 69] [])
    as (bs1 & bs2 & _ & H1 & H2 & _ & H3 & _).
  - by apply (bs_new_wf 60 10 1).
  - by vm_compute.
  - repeat constructor; done.
  - constructor.
  - exists bs1, bs2. split; [done|]. split; [done|]. apply H3. repeat constructor; done.
Defined.

Lemma max_count_filter_bounds_witness :
  let subs := [mk_Subscription Subscribe "a"; mk_Subscription Subscribe "b"; mk_Subscription Unsubscribe "b";
               mk_Subscription Unsubscribe "c"] in
  let accepted := deduplicate subs in
  size (apply_subscriptions accepted {["c"; "d"]}) ≤ 2.
Proof.
  intros subs accepted.
  apply (max_count_filter_bounds (λ (_ : unit) _, false) AllowAllSubscriptionFilter 2 4 subs {["c"; "d"]} accepted).
  by vm_compute.
Defined.

(** The longest backoff a peer can ask for does not fit an [Instant]. *)
Lemma remote_backoff_panics (bs : BackoffStorage nat) now t p :
  (0 ≤ now)%Z → update_backoff now bs t p ((2 ^ 64 - 1) * NANOS)%Z = None.
Proof.
  intros Hn. unfold update_backoff, instant_add.
  rewrite (proj2 (Z.leb_gt _ _)); [done|]. unfold INSTANT_MAX, NANOS. lia.
Qed.
