(* ===== verification/Float64.v ===== *)
(** * 64-bit floats

    [f64] of Rust as the [spec_float] of the Standard Library with the operations
    of binary64, the conversions to and from integers, and the order of the
    numbers. *)

From Stdlib Require Import ZArith Lia SpecFloat.
From S2P Require Import Prelude.

Local Open Scope nat_scope.

Abbreviation f64 := spec_float.

Definition f64_add : f64 → f64 → f64 := SFadd 53 1024.
Definition f64_sub : f64 → f64 → f64 := SFsub 53 1024.
Definition f64_mul : f64 → f64 → f64 := SFmul 53 1024.
Definition f64_div : f64 → f64 → f64 := SFdiv 53 1024.

Declare Scope f64_scope.
Delimit Scope f64_scope with f64.
Infix "+" := f64_add : f64_scope.
Infix "-" := f64_sub : f64_scope.
Infix "*" := f64_mul : f64_scope.
Infix "/" := f64_div : f64_scope.
Infix "<?" := SFltb : f64_scope.
Infix "<=?" := SFleb : f64_scope.

(** The conversion [as f64] of an integer. *)
Definition f64_of_Z (z : Z) : f64 := binary_normalize 53 1024 z 0 false.

Definition f64_zero : f64 := S754_zero false.
Definition f64_one : f64 := f64_of_Z 1.

(** The conversion [as usize], which truncates and saturates. *)
Definition f64_to_usize (x : f64) : Z :=
  match x with
  | S754_finite false m e => Z.min usize_max (Z.shiftl (Zpos m) e)
  | S754_infinity false => usize_max
  | _ => 0
  end.

(** *** The order of floats *)

Definition not_nan (x : f64) : bool := match x with S754_nan => false | _ => true end.

(** The floats in the order of triples of integers. *)
Definition f64_key (x : f64) : Z * (Z * Z) :=
  match x with
  | S754_zero _ | S754_nan => (0, (0, 0))
  | S754_infinity s => (if s then -2 else 2, (0, 0))
  | S754_finite s m e => if s then (-1, (- e, - Zpos m)) else (1, (e, Zpos m))
  end%Z.

Definition key_lt (a b : Z * (Z * Z)) : Prop :=
  (a.1 < b.1 ∨ (a.1 = b.1 ∧ (a.2.1 < b.2.1 ∨ (a.2.1 = b.2.1 ∧ a.2.2 < b.2.2))))%Z.

Lemma f64_ltb_key x y : (x <? y)%f64 = true ↔ not_nan x = true ∧ not_nan y = true ∧ key_lt (f64_key x) (f64_key y).
Proof.
  unfold SFltb, key_lt.
  destruct x as [[]|[]| |[] m1 e1], y as [[]|[]| |[] m2 e2]; simpl;
    try (split; [done|]; intros (?&?&?); first [done|lia]); try (split; [|done]; intros; lia).
  - destruct (Z.compare_spec e1 e2) as [->|Hlt|Hgt]; simpl; [|split; [done|lia]|split; [lia|done]].
    change (PosDef.Pos.compare_cont Eq m1 m2) with (m1 ?= m2)%positive.
    destruct (Pos.compare_spec m1 m2); simpl; split; try done; lia.
  - destruct (Z.compare_spec e1 e2) as [->|Hlt|Hgt]; simpl; [|split; [lia|done]|split; [done|lia]].
    change (PosDef.Pos.compare_cont Eq m1 m2) with (m1 ?= m2)%positive.
    destruct (Pos.compare_spec m1 m2); simpl; split; try done; lia.
Qed.

Lemma f64_ltb_irrefl x : (x <? x)%f64 = false.
Proof. apply not_true_iff_false. rewrite f64_ltb_key. unfold key_lt. intros (_&_&?). lia. Qed.

(** [a ≤ b ≤ c] for [b] a number. *)
Lemma f64_nlt_trans a b c :
  not_nan b = true → (b <? a)%f64 = false → (c <? b)%f64 = false → (c <? a)%f64 = false.
Proof.
  intros Hb Hba Hcb. apply not_true_iff_false. rewrite f64_ltb_key. intros (Hc&Ha&Hlt).
  apply not_true_iff_false in Hba, Hcb. rewrite f64_ltb_key in Hba, Hcb.
  destruct (decide (key_lt (f64_key b) (f64_key a))) as [|Hn]; [tauto|].
  apply Hcb. split_and!; [done|done|]. unfold key_lt in *. lia.
Qed.
