(* ===== verification/PeerScore.v ===== *)
(** * The peer score of gossipsub: [protocols/gossipsub/src/peer_score.rs]

    The parameters and thresholds with their validation
    ([peer_score/params.rs]), the statistics of each peer and topic, the records
    of message deliveries, and the operations of [PeerScore]. *)

From Stdlib Require Import ZArith Lia SpecFloat.
From stdpp Require Import strings.
From S2P Require Import Prelude GossipCache Float64.

Local Open Scope nat_scope.

Local Abbreviation Instant := Z.
Local Abbreviation Duration := Z.

(** [as_secs_f64] of a [Duration]. *)
Definition as_secs_f64 (d : Duration) : f64 :=
  (f64_of_Z (d / NANOS) + f64_of_Z (d mod NANOS) / f64_of_Z NANOS)%f64.

(** ** Parameters: [peer_score/params.rs] *)

Record PeerScoreThresholds := mk_PeerScoreThresholds {
  gossip_threshold : f64;
  publish_threshold : f64;
  graylist_threshold : f64;
  accept_px_threshold : f64;
  opportunistic_graft_threshold : f64
}.

Definition f64_gt0 (x : f64) : bool := (f64_zero <? x)%f64.
Definition f64_lt0 (x : f64) : bool := (x <? f64_zero)%f64.

(** [x <= 0 || x >= 1]. *)
Definition outside_unit (x : f64) : bool := (x <=? f64_zero)%f64 || (f64_one <=? x)%f64.

(** [x != 0]; a NaN differs from everything. *)
Definition f64_ne0 (x : f64) : bool := negb (SFeqb x f64_zero).

Inductive ThresholdsError :=
  InvalidGossip | InvalidPublish | InvalidGraylist | InvalidAcceptPx | InvalidOpportunistic.

Definition validate_thresholds (th : PeerScoreThresholds) : result ThresholdsError () :=
  if f64_gt0 (gossip_threshold th) then Err InvalidGossip
  else if f64_gt0 (publish_threshold th) || (gossip_threshold th <? publish_threshold th)%f64 then Err InvalidPublish
  else if f64_gt0 (graylist_threshold th) || (publish_threshold th <? graylist_threshold th)%f64
  then Err InvalidGraylist
  else if f64_lt0 (accept_px_threshold th) then Err InvalidAcceptPx
  else if f64_lt0 (opportunistic_graft_threshold th) then Err InvalidOpportunistic
  else Ok ().

Record TopicScoreParams := mk_TopicScoreParams {
  topic_weight : f64;
  time_in_mesh_weight : f64;
  time_in_mesh_quantum : Duration;
  time_in_mesh_cap : f64;
  first_message_deliveries_weight : f64;
  first_message_deliveries_decay : f64;
  first_message_deliveries_cap : f64;
  mesh_message_deliveries_weight : f64;
  mesh_message_deliveries_decay : f64;
  mesh_message_deliveries_cap : f64;
  mesh_message_deliveries_threshold : f64;
  mesh_message_deliveries_window : Duration;
  mesh_message_deliveries_activation : Duration;
  mesh_failure_penalty_weight : f64;
  mesh_failure_penalty_decay : f64;
  invalid_message_deliveries_weight : f64;
  invalid_message_deliveries_decay : f64
}.

Inductive TopicParamsError :=
  | InvalidTopicWeight | InvalidTimeInMeshQuantum | InvalidTimeInMeshWeight | InvalidTimeInMeshCap
  | InvalidFirstWeight | InvalidFirstDecay | InvalidFirstCap
  | InvalidMeshWeight | InvalidMeshDecay | InvalidMeshCap | InvalidMeshThreshold | InvalidMeshActivation
  | InvalidFailureWeight | InvalidFailureDecay | InvalidInvalidWeight | InvalidInvalidDecay.

(** The checks in the order of the code: the first that holds is the error. *)
Definition topic_params_checks (tp : TopicScoreParams) : list (bool * TopicParamsError) :=
  let p1 := f64_ne0 (time_in_mesh_weight tp) in
  let p2 := f64_ne0 (first_message_deliveries_weight tp) in
  let p3 := f64_ne0 (mesh_message_deliveries_weight tp) in
  [ (f64_lt0 (topic_weight tp), InvalidTopicWeight);
    (time_in_mesh_quantum tp =? 0, InvalidTimeInMeshQuantum)%Z;
    (f64_lt0 (time_in_mesh_weight tp), InvalidTimeInMeshWeight);
    (p1 && (time_in_mesh_cap tp <=? f64_zero)%f64, InvalidTimeInMeshCap);
    (f64_lt0 (first_message_deliveries_weight tp), InvalidFirstWeight);
    (p2 && outside_unit (first_message_deliveries_decay tp), InvalidFirstDecay);
    (p2 && (first_message_deliveries_cap tp <=? f64_zero)%f64, InvalidFirstCap);
    (f64_gt0 (mesh_message_deliveries_weight tp), InvalidMeshWeight);
    (p3 && outside_unit (mesh_message_deliveries_decay tp), InvalidMeshDecay);
    (p3 && (mesh_message_deliveries_cap tp <=? f64_zero)%f64, InvalidMeshCap);
    (p3 && (mesh_message_deliveries_threshold tp <=? f64_zero)%f64, InvalidMeshThreshold);
    (p3 && (mesh_message_deliveries_activation tp <? NANOS)%Z, InvalidMeshActivation);
    (f64_gt0 (mesh_failure_penalty_weight tp), InvalidFailureWeight);
    (f64_ne0 (mesh_failure_penalty_weight tp) && outside_unit (mesh_failure_penalty_decay tp), InvalidFailureDecay);
    (f64_gt0 (invalid_message_deliveries_weight tp), InvalidInvalidWeight);
    (outside_unit (invalid_message_deliveries_decay tp), InvalidInvalidDecay) ].

Fixpoint first_failure {E} (checks : list (bool * E)) : result E () :=
  match checks with
  | [] => Ok ()
  | (true, e) :: _ => Err e
  | (false, _) :: checks => first_failure checks
  end.

Definition validate_topic_params (tp : TopicScoreParams) : result TopicParamsError () :=
  first_failure (topic_params_checks tp).

Inductive ScoreParamsError :=
  | InvalidTopic (t : TopicHash) (e : TopicParamsError)
  | InvalidTopicScoreCap | InvalidIpWeight | InvalidIpThreshold
  | InvalidPenaltyWeight | InvalidPenaltyDecay | InvalidPenaltyThreshold
  | InvalidDecayInterval | InvalidDecayToZero.

Section peer_score.
Context {PeerId IpAddr : Type} `{!EqDecision PeerId} `{!Countable PeerId} `{!EqDecision IpAddr} `{!Countable IpAddr}.
Context `{!HashOrder}.

Record PeerScoreParams := mk_PeerScoreParams {
  pp_topics : gmap TopicHash TopicScoreParams;
  topic_score_cap : f64;
  app_specific_weight : f64;
  ip_colocation_factor_weight : f64;
  ip_colocation_factor_threshold : f64;
  ip_colocation_factor_whitelist : gset IpAddr;
  behaviour_penalty_weight : f64;
  behaviour_penalty_threshold : f64;
  behaviour_penalty_decay : f64;
  decay_interval : Duration;
  decay_to_zero : f64;
  retain_score : Duration
}.

Fixpoint validate_topics (l : list (TopicHash * TopicScoreParams)) : result ScoreParamsError () :=
  match l with
  | [] => Ok ()
  | (t, tp) :: l =>
      match validate_topic_params tp with
      | Ok _ => validate_topics l
      | Err e => Err (InvalidTopic t e)
      end
  end.

Definition validate_score_params (pp : PeerScoreParams) : result ScoreParamsError () :=
  let? _ := validate_topics (hash_iter (map_to_list (pp_topics pp))) in
  first_failure
    [ (f64_lt0 (topic_score_cap pp), InvalidTopicScoreCap);
      (f64_gt0 (ip_colocation_factor_weight pp), InvalidIpWeight);
      (f64_ne0 (ip_colocation_factor_weight pp) && (ip_colocation_factor_threshold pp <? f64_one)%f64,
         InvalidIpThreshold);
      (f64_gt0 (behaviour_penalty_weight pp), InvalidPenaltyWeight);
      (f64_ne0 (behaviour_penalty_weight pp) && outside_unit (behaviour_penalty_decay pp), InvalidPenaltyDecay);
      (f64_lt0 (behaviour_penalty_threshold pp), InvalidPenaltyThreshold);
      (decay_interval pp <? NANOS, InvalidDecayInterval)%Z;
      (outside_unit (decay_to_zero pp), InvalidDecayToZero) ].

(** ** Statistics *)

Inductive MeshStatus := Active (mesh_time : Duration) | InActive.

Definition new_active : MeshStatus := Active 0.

Record TopicStats := mk_TopicStats {
  mesh_status : MeshStatus;
  first_message_deliveries : f64;
  mesh_message_deliveries_active : bool;
  mesh_message_deliveries : f64;
  mesh_failure_penalty : f64;
  invalid_message_deliveries : f64
}.

Definition default_topic_stats : TopicStats := mk_TopicStats InActive f64_zero false f64_zero f64_zero f64_zero.

Definition in_mesh (ts : TopicStats) : bool := match mesh_status ts with Active _ => true | InActive => false end.

Inductive ConnectionStatus := Connected | Disconnected (expire : Instant).

Record PeerStats := mk_PeerStats {
  st_status : ConnectionStatus;
  st_topics : gmap TopicHash TopicStats;
  known_ips : gset IpAddr;
  behaviour_penalty : f64;
  application_score : f64
}.

Definition default_peer_stats : PeerStats := mk_PeerStats Connected ∅ ∅ f64_zero f64_zero.

Inductive DeliveryStatus := Unknown | Valid (validated : Instant) | Invalid | Ignored.

Record DeliveryRecord := mk_DeliveryRecord {
  dr_status : DeliveryStatus;
  first_seen : Instant;
  dr_peers : gset PeerId
}.

Definition default_record (now : Instant) : DeliveryRecord := mk_DeliveryRecord Unknown now ∅.

(** The calls of the delivery callback are logged in [callback_calls]. *)
Record PeerScore := mk_PeerScore {
  ps_params : PeerScoreParams;
  peer_stats : gmap PeerId PeerStats;
  peer_ips : gmap IpAddr (gset PeerId);
  deliveries : @TimeCache MessageId DeliveryRecord _ _;
  message_delivery_time_callback : bool;
  callback_calls : list (PeerId * TopicHash * f64)
}.

Definition TIME_CACHE_DURATION : Duration := (120 * NANOS)%Z.

Definition ps_new (params : PeerScoreParams) (callback : bool) : PeerScore :=
  mk_PeerScore params ∅ ∅ (tc_new TIME_CACHE_DURATION) callback [].

Definition with_stats (ps : PeerScore) (m : gmap PeerId PeerStats) : PeerScore :=
  mk_PeerScore (ps_params ps) m (peer_ips ps) (deliveries ps) (message_delivery_time_callback ps) (callback_calls ps).
Definition with_ips (ps : PeerScore) (m : gmap IpAddr (gset PeerId)) : PeerScore :=
  mk_PeerScore (ps_params ps) (peer_stats ps) m (deliveries ps) (message_delivery_time_callback ps) (callback_calls ps).
Definition with_deliveries (ps : PeerScore) (c : @TimeCache MessageId DeliveryRecord _ _) : PeerScore :=
  mk_PeerScore (ps_params ps) (peer_stats ps) (peer_ips ps) c (message_delivery_time_callback ps) (callback_calls ps).
Definition with_params (ps : PeerScore) (pp : PeerScoreParams) : PeerScore :=
  mk_PeerScore pp (peer_stats ps) (peer_ips ps) (deliveries ps) (message_delivery_time_callback ps) (callback_calls ps).
Definition with_call (ps : PeerScore) (call : PeerId * TopicHash * f64) : PeerScore :=
  mk_PeerScore (ps_params ps) (peer_stats ps) (peer_ips ps) (deliveries ps) (message_delivery_time_callback ps)
    (callback_calls ps ++ [call]).

(** ** The score *)

Definition f64_min (v cap : f64) : f64 := if (v <? cap)%f64 then v else cap.

Definition topic_score (tp : TopicScoreParams) (ts : TopicStats) : f64 :=
  let score := f64_zero in
  let score := match mesh_status ts with
               | Active mesh_time =>
                   let p1 := f64_min (as_secs_f64 mesh_time / as_secs_f64 (time_in_mesh_quantum tp))%f64
                               (time_in_mesh_cap tp) in
                   (score + p1 * time_in_mesh_weight tp)%f64
               | InActive => score
               end in
  let p2 := f64_min (first_message_deliveries ts) (first_message_deliveries_cap tp) in
  let score := (score + p2 * first_message_deliveries_weight tp)%f64 in
  let score :=
    if mesh_message_deliveries_active ts && (mesh_message_deliveries ts <? mesh_message_deliveries_threshold tp)%f64
    then let deficit := (mesh_message_deliveries_threshold tp - mesh_message_deliveries ts)%f64 in
         (score + (deficit * deficit) * mesh_message_deliveries_weight tp)%f64
    else score in
  let score := (score + mesh_failure_penalty ts * mesh_failure_penalty_weight tp)%f64 in
  let p4 := (invalid_message_deliveries ts * invalid_message_deliveries ts)%f64 in
  (score + p4 * invalid_message_deliveries_weight tp)%f64.

Definition add_topic_score (pp : PeerScoreParams) (score : f64) (x : TopicHash * TopicStats) : f64 :=
  match pp_topics pp !! x.1 with
  | Some tp => (score + topic_score tp x.2 * topic_weight tp)%f64
  | None => score
  end.

Definition add_ip_score (ps : PeerScore) (score : f64) (ip : IpAddr) : f64 :=
  if decide (ip ∈ ip_colocation_factor_whitelist (ps_params ps)) then score
  else match peer_ips ps !! ip with
       | Some peers =>
           let n := f64_of_Z (Z.of_nat (size peers)) in
           let threshold := ip_colocation_factor_threshold (ps_params ps) in
           if (threshold <? n)%f64 then
             let surplus := (n - threshold)%f64 in
             (score + (surplus * surplus) * ip_colocation_factor_weight (ps_params ps))%f64
           else score
       | None => score
       end.

Definition ps_score (ps : PeerScore) (p : PeerId) : f64 :=
  match peer_stats ps !! p with
  | None => f64_zero
  | Some s =>
      let pp := ps_params ps in
      let score := foldl (add_topic_score pp) f64_zero (hash_iter (map_to_list (st_topics s))) in
      let score := if f64_gt0 (topic_score_cap pp) && (topic_score_cap pp <? score)%f64
                   then topic_score_cap pp else score in
      let score := (score + application_score s * app_specific_weight pp)%f64 in
      let score := foldl (add_ip_score ps) score (hash_iter (elements (known_ips s))) in
      if (behaviour_penalty_threshold pp <? behaviour_penalty s)%f64 then
        let excess := (behaviour_penalty s - behaviour_penalty_threshold pp)%f64 in
        (score + (excess * excess) * behaviour_penalty_weight pp)%f64
      else score
  end.

(** ** Operations *)

Definition alter_peer (ps : PeerScore) (p : PeerId) (f : PeerStats → PeerStats) : PeerScore :=
  with_stats ps (alter f p (peer_stats ps)).

Definition with_penalty (s : PeerStats) (x : f64) : PeerStats :=
  mk_PeerStats (st_status s) (st_topics s) (known_ips s) x (application_score s).
Definition with_application_score (s : PeerStats) (x : f64) : PeerStats :=
  mk_PeerStats (st_status s) (st_topics s) (known_ips s) (behaviour_penalty s) x.
Definition with_topics (s : PeerStats) (m : gmap TopicHash TopicStats) : PeerStats :=
  mk_PeerStats (st_status s) m (known_ips s) (behaviour_penalty s) (application_score s).
Definition with_status (s : PeerStats) (c : ConnectionStatus) : PeerStats :=
  mk_PeerStats c (st_topics s) (known_ips s) (behaviour_penalty s) (application_score s).

Definition add_penalty (ps : PeerScore) (p : PeerId) (count : Z) : PeerScore :=
  alter_peer ps p (λ s, with_penalty s (behaviour_penalty s + f64_of_Z count)%f64).

Definition remove_ips_for_peer (s : PeerStats) (ips : gmap IpAddr (gset PeerId)) (p : PeerId) :
    gmap IpAddr (gset PeerId) :=
  foldl (λ m ip, alter (λ peers, peers ∖ {[p]}) ip m) ips (hash_iter (elements (known_ips s))).

Definition ps_add_peer (ps : PeerScore) (p : PeerId) : PeerScore :=
  with_stats ps (<[p := with_status (default default_peer_stats (peer_stats ps !! p)) Connected]> (peer_stats ps)).

(** The statistics of a topic when its peer goes away. *)
Definition leave_topic (pp : PeerScoreParams) (t : TopicHash) (ts : TopicStats) : TopicStats :=
  let penalty :=
    match mesh_message_deliveries_threshold <$> pp_topics pp !! t with
    | Some threshold =>
        if in_mesh ts && mesh_message_deliveries_active ts && (mesh_message_deliveries ts <? threshold)%f64
        then let deficit := (threshold - mesh_message_deliveries ts)%f64 in
             (mesh_failure_penalty ts + deficit * deficit)%f64
        else mesh_failure_penalty ts
    | None => mesh_failure_penalty ts
    end in
  mk_TopicStats InActive f64_zero false (mesh_message_deliveries ts) penalty (invalid_message_deliveries ts).

(** [remove_peer]; it panics when the time of expiry is not representable. *)
Definition ps_remove_peer (now : Instant) (ps : PeerScore) (p : PeerId) : option PeerScore :=
  if f64_gt0 (ps_score ps p) then
    match peer_stats ps !! p with
    | Some s => Some (with_ips (with_stats ps (delete p (peer_stats ps))) (remove_ips_for_peer s (peer_ips ps) p))
    | None => Some ps
    end
  else
    match peer_stats ps !! p with
    | Some s =>
        let s := with_topics s (map_imap (λ t ts, Some (leave_topic (ps_params ps) t ts)) (st_topics s)) in
        expire ← instant_add now (retain_score (ps_params ps));
        Some (with_stats ps (<[p := with_status s (Disconnected expire)]> (peer_stats ps)))
    | None => Some ps
    end.

(** [stats_or_default_mut]. *)
Definition stats_or_default (pp : PeerScoreParams) (s : PeerStats) (t : TopicHash) : option TopicStats :=
  match pp_topics pp !! t with
  | Some _ => Some (default default_topic_stats (st_topics s !! t))
  | None => st_topics s !! t
  end.

(** An update of the statistics [stats_or_default_mut] gives; [None] is a panic. *)
Definition update_topic (ps : PeerScore) (p : PeerId) (t : TopicHash) (f : TopicStats → option TopicStats) :
    option PeerScore :=
  match peer_stats ps !! p with
  | Some s =>
      match stats_or_default (ps_params ps) s t with
      | Some ts =>
          ts ← f ts;
          Some (with_stats ps (<[p := with_topics s (<[t := ts]> (st_topics s))]> (peer_stats ps)))
      | None => Some ps
      end
  | None => Some ps
  end.

Definition ps_graft (ps : PeerScore) (p : PeerId) (t : TopicHash) : option PeerScore :=
  update_topic ps p t (λ ts,
    Some (mk_TopicStats new_active (first_message_deliveries ts) false (mesh_message_deliveries ts)
            (mesh_failure_penalty ts) (invalid_message_deliveries ts))).

(** [prune] and the operations below panic for statistics of a topic that has no
    parameters. *)
Definition ps_prune (ps : PeerScore) (p : PeerId) (t : TopicHash) : option PeerScore :=
  update_topic ps p t (λ ts,
    tp ← pp_topics (ps_params ps) !! t;
    let threshold := mesh_message_deliveries_threshold tp in
    let penalty :=
      if mesh_message_deliveries_active ts && (mesh_message_deliveries ts <? threshold)%f64
      then let deficit := (threshold - mesh_message_deliveries ts)%f64 in
           (mesh_failure_penalty ts + deficit * deficit)%f64
      else mesh_failure_penalty ts in
    Some (mk_TopicStats InActive (first_message_deliveries ts) false (mesh_message_deliveries ts) penalty
            (invalid_message_deliveries ts))).

(** [if x + 1 > cap { cap } else { x + 1 }]. *)
Definition increment_capped (x cap : f64) : f64 :=
  if (cap <? x + f64_one)%f64 then cap else (x + f64_one)%f64.

Definition mark_invalid_message_delivery (ps : PeerScore) (p : PeerId) (t : TopicHash) : option PeerScore :=
  update_topic ps p t (λ ts,
    Some (mk_TopicStats (mesh_status ts) (first_message_deliveries ts) (mesh_message_deliveries_active ts)
            (mesh_message_deliveries ts) (mesh_failure_penalty ts)
            (invalid_message_deliveries ts + f64_one)%f64)).

Definition mark_first_message_delivery (ps : PeerScore) (p : PeerId) (t : TopicHash) : option PeerScore :=
  update_topic ps p t (λ ts,
    tp ← pp_topics (ps_params ps) !! t;
    let first := increment_capped (first_message_deliveries ts) (first_message_deliveries_cap tp) in
    let mesh := if in_mesh ts then increment_capped (mesh_message_deliveries ts) (mesh_message_deliveries_cap tp)
                else mesh_message_deliveries ts in
    Some (mk_TopicStats (mesh_status ts) first (mesh_message_deliveries_active ts) mesh (mesh_failure_penalty ts)
            (invalid_message_deliveries ts))).

Definition falls_in_mesh_deliver_window (now : Instant) (tp : TopicScoreParams) (validated_time : option Instant) :
    bool :=
  match validated_time with
  | Some v => (now <=? default now (instant_add v (mesh_message_deliveries_window tp)))%Z
  | None => true
  end.

Definition mark_duplicate_message_delivery (now : Instant) (ps : PeerScore) (p : PeerId) (t : TopicHash)
    (validated_time : option Instant) : option PeerScore :=
  update_topic ps p t (λ ts,
    if in_mesh ts then
      tp ← pp_topics (ps_params ps) !! t;
      let mesh := if falls_in_mesh_deliver_window now tp validated_time
                  then increment_capped (mesh_message_deliveries ts) (mesh_message_deliveries_cap tp)
                  else mesh_message_deliveries ts in
      Some (mk_TopicStats (mesh_status ts) (first_message_deliveries ts) (mesh_message_deliveries_active ts) mesh
              (mesh_failure_penalty ts) (invalid_message_deliveries ts))
    else Some ts).

Definition is_in_mesh (ps : PeerScore) (p : PeerId) (t : TopicHash) : bool :=
  match (s ← peer_stats ps !! p; st_topics s !! t) with Some ts => in_mesh ts | None => false end.

(** The record of a message, inserted when there is none. *)
Definition delivery_record (now : Instant) (ps : PeerScore) (mid : MessageId) : DeliveryRecord * PeerScore :=
  let '(r, c) := or_insert_with now (deliveries ps) mid (default_record now) in (r, with_deliveries ps c).

Definition put_delivery (ps : PeerScore) (mid : MessageId) (r : DeliveryRecord) : PeerScore :=
  with_deliveries ps (insert_without_updating_expiration (deliveries ps) mid r).

Definition validate_message (now : Instant) (ps : PeerScore) (from : PeerId) (mid : MessageId) (t : TopicHash) :
    PeerScore :=
  let '(_, ps) := delivery_record now ps mid in
  if message_delivery_time_callback ps && is_in_mesh ps from t then with_call ps (from, t, f64_zero) else ps.

(** The loops over peers. *)
Fixpoint for_peers (f : PeerScore → PeerId → option PeerScore) (ps : PeerScore) (l : list PeerId) : option PeerScore :=
  match l with [] => Some ps | p :: l => ps ← f ps p; for_peers f ps l end.

Definition deliver_message (now : Instant) (ps : PeerScore) (from : PeerId) (mid : MessageId) (t : TopicHash) :
    option PeerScore :=
  ps ← mark_first_message_delivery ps from t;
  let '(r, ps) := delivery_record now ps mid in
  match dr_status r with
  | Unknown =>
      let ps := put_delivery ps mid (mk_DeliveryRecord (Valid now) (first_seen r) (dr_peers r)) in
      for_peers (λ ps peer, if decide (peer ≠ from) then mark_duplicate_message_delivery now ps peer t None else Some ps)
        ps (hash_iter (elements (dr_peers r)))
  | _ => Some ps
  end.

Definition reject_invalid_message (ps : PeerScore) (from : PeerId) (t : TopicHash) : option PeerScore :=
  mark_invalid_message_delivery ps from t.

Definition ps_reject_message (now : Instant) (ps : PeerScore) (from : PeerId) (mid : MessageId) (t : TopicHash)
    (reason : RejectReason) : option PeerScore :=
  match reason with
  | RejectValidationError _ | SelfOrigin => reject_invalid_message ps from t
  | BlackListedPeer | BlackListedSource => Some ps
  | ValidationIgnored =>
      let '(r, ps) := delivery_record now ps mid in
      match dr_status r with
      | Unknown => Some (put_delivery ps mid (mk_DeliveryRecord Ignored (first_seen r) ∅))
      | _ => Some ps
      end
  | ValidationFailed =>
      let '(r, ps) := delivery_record now ps mid in
      match dr_status r with
      | Unknown =>
          let ps := put_delivery ps mid (mk_DeliveryRecord Invalid (first_seen r) ∅) in
          ps ← mark_invalid_message_delivery ps from t;
          for_peers (λ ps peer, mark_invalid_message_delivery ps peer t) ps (hash_iter (elements (dr_peers r)))
      | _ => Some ps
      end
  end.

Definition duplicated_message (now : Instant) (ps : PeerScore) (from : PeerId) (mid : MessageId) (t : TopicHash) :
    option PeerScore :=
  let '(r, ps) := delivery_record now ps mid in
  if decide (from ∈ dr_peers r) then Some ps
  else
    let time := match dr_status r with Valid v => as_secs_f64 (now - v) | _ => f64_zero end in
    let ps := if message_delivery_time_callback ps && is_in_mesh ps from t then with_call ps (from, t, time) else ps in
    match dr_status r with
    | Unknown => Some (put_delivery ps mid (mk_DeliveryRecord Unknown (first_seen r) ({[from]} ∪ dr_peers r)))
    | Valid v =>
        let ps := put_delivery ps mid (mk_DeliveryRecord (Valid v) (first_seen r) ({[from]} ∪ dr_peers r)) in
        mark_duplicate_message_delivery now ps from t (Some v)
    | Invalid => mark_invalid_message_delivery ps from t
    | Ignored => Some ps
    end.

Definition ps_set_application_score (ps : PeerScore) (p : PeerId) (x : f64) : bool * PeerScore :=
  (bool_decide (is_Some (peer_stats ps !! p)), alter_peer ps p (λ s, with_application_score s x)).

Definition cap_first (cap : f64) (ts : TopicStats) : TopicStats :=
  if (cap <? first_message_deliveries ts)%f64 then
    mk_TopicStats (mesh_status ts) cap (mesh_message_deliveries_active ts) (mesh_message_deliveries ts)
      (mesh_failure_penalty ts) (invalid_message_deliveries ts)
  else ts.

Definition cap_mesh (cap : f64) (ts : TopicStats) : TopicStats :=
  if (cap <? mesh_message_deliveries ts)%f64 then
    mk_TopicStats (mesh_status ts) (first_message_deliveries ts) (mesh_message_deliveries_active ts) cap
      (mesh_failure_penalty ts) (invalid_message_deliveries ts)
  else ts.

Definition alter_topic (t : TopicHash) (f : TopicStats → TopicStats) (ps : PeerScore) : PeerScore :=
  with_stats ps ((λ s, with_topics s (alter f t (st_topics s))) <$> peer_stats ps).

Definition ps_set_topic_params (ps : PeerScore) (t : TopicHash) (tp : TopicScoreParams) : PeerScore :=
  let pp := ps_params ps in
  let pp' := mk_PeerScoreParams (<[t := tp]> (pp_topics pp)) (topic_score_cap pp) (app_specific_weight pp)
    (ip_colocation_factor_weight pp) (ip_colocation_factor_threshold pp) (ip_colocation_factor_whitelist pp)
    (behaviour_penalty_weight pp) (behaviour_penalty_threshold pp) (behaviour_penalty_decay pp)
    (decay_interval pp) (decay_to_zero pp) (retain_score pp) in
  let ps' := with_params ps pp' in
  match pp_topics pp !! t with
  | Some old =>
      let ps' := if (first_message_deliveries_cap tp <? first_message_deliveries_cap old)%f64
                 then alter_topic t (cap_first (first_message_deliveries_cap tp)) ps' else ps' in
      if (mesh_message_deliveries_cap tp <? mesh_message_deliveries_cap old)%f64
      then alter_topic t (cap_mesh (mesh_message_deliveries_cap tp)) ps' else ps'
  | None => ps'
  end.

(** ** Runs *)

Inductive PsOp :=
  | PsAddPeer (p : PeerId)
  | PsRemovePeer (now : Instant) (p : PeerId)
  | PsGraft (p : PeerId) (t : TopicHash)
  | PsPrune (p : PeerId) (t : TopicHash)
  | PsValidate (now : Instant) (from : PeerId) (mid : MessageId) (t : TopicHash)
  | PsDeliver (now : Instant) (from : PeerId) (mid : MessageId) (t : TopicHash)
  | PsRejectInvalid (from : PeerId) (t : TopicHash)
  | PsReject (now : Instant) (from : PeerId) (mid : MessageId) (t : TopicHash) (reason : RejectReason)
  | PsDuplicated (now : Instant) (from : PeerId) (mid : MessageId) (t : TopicHash)
  | PsPenalty (p : PeerId) (count : Z)
  | PsSetApplicationScore (p : PeerId) (x : f64)
  | PsSetTopicParams (t : TopicHash) (tp : TopicScoreParams).

Definition ps_exec (ps : PeerScore) (op : PsOp) : option PeerScore :=
  match op with
  | PsAddPeer p => Some (ps_add_peer ps p)
  | PsRemovePeer now p => ps_remove_peer now ps p
  | PsGraft p t => ps_graft ps p t
  | PsPrune p t => ps_prune ps p t
  | PsValidate now from mid t => Some (validate_message now ps from mid t)
  | PsDeliver now from mid t => deliver_message now ps from mid t
  | PsRejectInvalid from t => reject_invalid_message ps from t
  | PsReject now from mid t reason => ps_reject_message now ps from mid t reason
  | PsDuplicated now from mid t => duplicated_message now ps from mid t
  | PsPenalty p count => Some (add_penalty ps p count)
  | PsSetApplicationScore p x => Some (ps_set_application_score ps p x).2
  | PsSetTopicParams t tp => Some (ps_set_topic_params ps t tp)
  end.

Fixpoint ps_run (ps : PeerScore) (ops : list PsOp) : option PeerScore :=
  match ops with [] => Some ps | op :: ops => ps ← ps_exec ps op; ps_run ps ops end.

(** The caps are numbers that are not negative; the checks of
    [validate_topic_params] imply it for the caps that are not NaN and in use. *)
Definition caps_ok (tp : TopicScoreParams) : Prop :=
  not_nan (first_message_deliveries_cap tp) = true ∧ f64_lt0 (first_message_deliveries_cap tp) = false ∧
  not_nan (mesh_message_deliveries_cap tp) = true ∧ f64_lt0 (mesh_message_deliveries_cap tp) = false.

Definition ps_op_ok (retain : Duration) (op : PsOp) : Prop :=
  match op with
  | PsRemovePeer now _ => (now + retain ≤ INSTANT_MAX)%Z
  | PsSetTopicParams _ tp => caps_ok tp
  | _ => True
  end.

(** The statistics of a topic: scored, below the caps, and without a share in the
    time-dependent parts of the score. *)
Record topic_stats_ok (pp : PeerScoreParams) (t : TopicHash) (ts : TopicStats) : Prop := {
  tso_caps : ∃ tp, pp_topics pp !! t = Some tp ∧
    (first_message_deliveries_cap tp <? first_message_deliveries ts)%f64 = false ∧
    (mesh_message_deliveries_cap tp <? mesh_message_deliveries ts)%f64 = false;
  tso_active : mesh_message_deliveries_active ts = false;
  tso_penalty : mesh_failure_penalty ts = f64_zero;
  tso_time : mesh_status ts = InActive ∨ mesh_status ts = Active 0
}.

Record ps_ok (ps : PeerScore) : Prop := {
  pso_caps t tp : pp_topics (ps_params ps) !! t = Some tp → caps_ok tp;
  pso_ips p s : peer_stats ps !! p = Some s → known_ips s = ∅;
  pso_topics p s t ts : peer_stats ps !! p = Some s → st_topics s !! t = Some ts → topic_stats_ok (ps_params ps) t ts
}.

Lemma stats_or_default_ok ps p s t ts :
  ps_ok ps → peer_stats ps !! p = Some s → stats_or_default (ps_params ps) s t = Some ts →
  topic_stats_ok (ps_params ps) t ts.
Proof.
  intros Hok Hs. unfold stats_or_default. destruct (pp_topics (ps_params ps) !! t) as [tp|] eqn:Htp.
  - intros [= <-]. destruct (st_topics s !! t) as [ts|] eqn:Hts; [by eapply pso_topics|]. simpl.
    destruct (pso_caps _ Hok _ _ Htp) as (?&?&?&?). split; simpl; [|done|done|by left]. eauto.
  - intros Hts. by eapply pso_topics.
Qed.

Lemma with_stats_ok ps p s :
  ps_ok ps → known_ips s = ∅ → (∀ t ts, st_topics s !! t = Some ts → topic_stats_ok (ps_params ps) t ts) →
  ps_ok (with_stats ps (<[p := s]> (peer_stats ps))).
Proof.
  intros [Hc Hi Ht] Hips Htopics. split; simpl; [done| |].
  - intros p' s' [[-> <-]|[_ Hold]]%lookup_insert_Some; eauto.
  - intros p' s' t ts [[-> <-]|[_ Hold]]%lookup_insert_Some; eauto.
Qed.

Lemma update_topic_ok ps p t f :
  ps_ok ps →
  (∀ ts tp, topic_stats_ok (ps_params ps) t ts → pp_topics (ps_params ps) !! t = Some tp →
    ∃ ts', f ts = Some ts' ∧ topic_stats_ok (ps_params ps) t ts') →
  ∃ ps', update_topic ps p t f = Some ps' ∧ ps_ok ps' ∧ ps_params ps' = ps_params ps.
Proof.
  intros Hok Hf. unfold update_topic. destruct (peer_stats ps !! p) as [s|] eqn:Hs; [|by eauto].
  destruct (stats_or_default _ s t) as [ts|] eqn:Hts; [|by eauto].
  pose proof (stats_or_default_ok _ _ _ _ _ Hok Hs Hts) as Hts_ok. destruct (tso_caps _ _ _ Hts_ok) as (tp&Htp&_).
  destruct (Hf _ _ Hts_ok Htp) as (ts'&->&Hts'). simpl. eexists. split; [done|]. split; [|done].
  apply with_stats_ok; simpl; [done|by eapply pso_ips|].
  intros t' ts0 [[-> <-]|[_ Hold]]%lookup_insert_Some; [done|]. by eapply pso_topics.
Qed.

Lemma increment_capped_ok x cap : (cap <? increment_capped x cap)%f64 = false.
Proof. unfold increment_capped. destruct (cap <? x + f64_one)%f64 eqn:Hc; [apply f64_ltb_irrefl|done]. Qed.

(** A tactic for the updates of one topic: the panics are excluded by the
    parameters, the counters stay below their caps. *)
Local Ltac topic_update Hok :=
  apply update_topic_ok; [exact Hok|]; intros ts tp [(tp'&Htp'&?&?) Hact Hpen Htime] Htp;
  rewrite Htp in Htp'; injection Htp' as <-; rewrite ?Htp; cbn [option_bind mbind]; rewrite ?Hact; cbn [andb];
  repeat match goal with |- context [if ?b then _ else _] => destruct b eqn:? end;
  eexists; (split; [done|]); (split; simpl; [exists tp; rewrite ?increment_capped_ok|..]; auto).

Lemma mark_invalid_ok ps p t :
  ps_ok ps → ∃ ps', mark_invalid_message_delivery ps p t = Some ps' ∧ ps_ok ps' ∧ ps_params ps' = ps_params ps.
Proof. intros Hok. unfold mark_invalid_message_delivery. topic_update Hok. Qed.

Lemma mark_first_ok ps p t :
  ps_ok ps → ∃ ps', mark_first_message_delivery ps p t = Some ps' ∧ ps_ok ps' ∧ ps_params ps' = ps_params ps.
Proof. intros Hok. unfold mark_first_message_delivery. topic_update Hok. Qed.

Lemma mark_duplicate_ok now ps p t v :
  ps_ok ps →
  ∃ ps', mark_duplicate_message_delivery now ps p t v = Some ps' ∧ ps_ok ps' ∧ ps_params ps' = ps_params ps.
Proof. intros Hok. unfold mark_duplicate_message_delivery. topic_update Hok. Qed.

Lemma ps_graft_ok ps p t :
  ps_ok ps → ∃ ps', ps_graft ps p t = Some ps' ∧ ps_ok ps' ∧ ps_params ps' = ps_params ps.
Proof. intros Hok. unfold ps_graft. topic_update Hok. Qed.

Lemma ps_prune_ok ps p t :
  ps_ok ps → ∃ ps', ps_prune ps p t = Some ps' ∧ ps_ok ps' ∧ ps_params ps' = ps_params ps.
Proof. intros Hok. unfold ps_prune. topic_update Hok. Qed.

Lemma for_peers_ok f ps l :
  (∀ ps p, ps_ok ps → ∃ ps', f ps p = Some ps' ∧ ps_ok ps' ∧ ps_params ps' = ps_params ps) → ps_ok ps →
  ∃ ps', for_peers f ps l = Some ps' ∧ ps_ok ps' ∧ ps_params ps' = ps_params ps.
Proof.
  intros Hf. revert ps. induction l as [|p l IH]; intros ps Hok; simpl; [by eauto|].
  destruct (Hf ps p Hok) as (ps1&->&Hok1&Hp1). simpl. destruct (IH ps1 Hok1) as (ps2&->&?&?).
  exists ps2. split_and!; [done|done|congruence].
Qed.

(** The records and the log have no part in the invariant. *)
Lemma ps_ok_ext ps ps' :
  ps_ok ps → ps_params ps' = ps_params ps → peer_stats ps' = peer_stats ps → ps_ok ps'.
Proof. intros [? ? ?] Hp Hs. split; rewrite ?Hp, ?Hs; eauto. Qed.

Lemma delivery_record_ext now ps mid r ps' :
  delivery_record now ps mid = (r, ps') → ps_params ps' = ps_params ps ∧ peer_stats ps' = peer_stats ps.
Proof. unfold delivery_record. destruct (or_insert_with _ _ _ _). by intros [= <- <-]. Qed.

Lemma put_delivery_ok ps mid r : ps_ok ps → ps_ok (put_delivery ps mid r).
Proof. intros. by eapply ps_ok_ext. Qed.

Lemma deliver_message_ok now ps from mid t :
  ps_ok ps → ∃ ps', deliver_message now ps from mid t = Some ps' ∧ ps_ok ps' ∧ ps_params ps' = ps_params ps.
Proof.
  intros Hok. unfold deliver_message. destruct (mark_first_ok ps from t Hok) as (ps1&->&Hok1&Hp1). simpl.
  destruct (delivery_record now ps1 mid) as [r ps2] eqn:Hr. apply delivery_record_ext in Hr as [Hp2 Hs2].
  assert (Hok2 : ps_ok ps2) by (by eapply ps_ok_ext). destruct (dr_status r); try (eexists; split_and!; [done..|congruence]).
  match goal with |- context [for_peers ?f ?x ?l] => destruct (for_peers_ok f x l) as (ps3&->&?&Hp3) end.
  - intros ps0 p0 Hok0. case_decide; [by apply mark_duplicate_ok|by eauto].
  - by apply put_delivery_ok.
  - exists ps3. split_and!; [done|done|]. simpl in Hp3. congruence.
Qed.

Lemma ps_reject_message_ok now ps from mid t reason :
  ps_ok ps → ∃ ps', ps_reject_message now ps from mid t reason = Some ps' ∧ ps_ok ps' ∧ ps_params ps' = ps_params ps.
Proof.
  intros Hok. unfold ps_reject_message.
  destruct (delivery_record now ps mid) as [r ps2] eqn:Hr. apply delivery_record_ext in Hr as [Hp2 Hs2].
  assert (Hok2 : ps_ok ps2) by (by eapply ps_ok_ext).
  destruct reason; try (by apply mark_invalid_ok); try by eauto.
  - destruct (dr_status r); eexists; split_and!; try done. by apply put_delivery_ok.
  - destruct (dr_status r); try by eauto.
    destruct (mark_invalid_ok (put_delivery ps2 mid (mk_DeliveryRecord Invalid (first_seen r) ∅)) from t)
      as (ps3&->&Hok3&Hp3); [by apply put_delivery_ok|]. simpl.
    match goal with |- context [for_peers ?f ?x ?l] => destruct (for_peers_ok f x l) as (ps4&->&?&Hp4) end.
    + intros ps0 p0 Hok0. by apply mark_invalid_ok.
    + done.
    + exists ps4. split_and!; [done|done|]. simpl in Hp3. congruence.
Qed.

Lemma duplicated_message_ok now ps from mid t :
  ps_ok ps → ∃ ps', duplicated_message now ps from mid t = Some ps' ∧ ps_ok ps' ∧ ps_params ps' = ps_params ps.
Proof.
  intros Hok. unfold duplicated_message.
  destruct (delivery_record now ps mid) as [r ps2] eqn:Hr. apply delivery_record_ext in Hr as [Hp2 Hs2].
  assert (Hok2 : ps_ok ps2) by (by eapply ps_ok_ext). case_decide; [by eauto|].
  set (ps3 := if message_delivery_time_callback ps2 && is_in_mesh ps2 from t then _ else ps2).
  assert (Hps3 : ps_ok ps3 ∧ ps_params ps3 = ps_params ps).
  { subst ps3. destruct (_ && _); [|done]. split; [by eapply ps_ok_ext|done]. }
  destruct Hps3 as [Hok3 Hp3]. destruct (dr_status r).
  - eexists. split_and!; [done|by apply put_delivery_ok|done].
  - match goal with |- context [mark_duplicate_message_delivery now ?x from t ?v] =>
      destruct (mark_duplicate_ok now x from t v) as (ps4&->&?&?); [by apply put_delivery_ok|] end.
    exists ps4. split_and!; [done|done|]. simpl in *. congruence.
  - destruct (mark_invalid_ok ps3 from t Hok3) as (ps4&->&?&?). exists ps4. split_and!; [done|done|congruence].
  - by eauto.
Qed.

Lemma ps_remove_peer_ok now ps p :
  ps_ok ps → (now + retain_score (ps_params ps) ≤ INSTANT_MAX)%Z →
  ∃ ps', ps_remove_peer now ps p = Some ps' ∧ ps_ok ps' ∧ ps_params ps' = ps_params ps.
Proof.
  intros Hok Hfit. unfold ps_remove_peer. destruct (f64_gt0 _).
  - destruct (peer_stats ps !! p) as [s|] eqn:Hs; [|by eauto]. eexists. split; [done|]. split; [|done].
    destruct Hok as [Hc Hi Ht]. split; simpl; [done| |].
    + intros p' s' [_ ?]%lookup_delete_Some. eauto.
    + intros p' s' t ts [_ ?]%lookup_delete_Some. eauto.
  - destruct (peer_stats ps !! p) as [s|] eqn:Hs; [|by eauto]. unfold instant_add.
    rewrite (proj2 (Z.leb_le _ _)) by done. simpl. eexists. split; [done|]. split; [|done].
    apply with_stats_ok; simpl; [done|by eapply pso_ips|]. intros t ts. rewrite map_lookup_imap.
    destruct (st_topics s !! t) as [ts0|] eqn:Hts0; [|done]. simpl. intros [= <-].
    destruct (pso_topics _ Hok _ _ _ _ Hs Hts0) as [(tp&Htp&Hf&Hm) Hact Hpen Htime].
    destruct (pso_caps _ Hok _ _ Htp) as (?&?&?&?). unfold leave_topic. rewrite Htp, Hact, andb_false_r. simpl.
    split; simpl; [|done|done|by left]. eauto.
Qed.

Lemma alter_topic_ok t f ps :
  (∀ p s ts, peer_stats ps !! p = Some s → st_topics s !! t = Some ts → topic_stats_ok (ps_params ps) t (f ts)) →
  (∀ p s t' ts, t' ≠ t → peer_stats ps !! p = Some s → st_topics s !! t' = Some ts →
     topic_stats_ok (ps_params ps) t' ts) →
  (∀ p s, peer_stats ps !! p = Some s → known_ips s = ∅) →
  (∀ t tp, pp_topics (ps_params ps) !! t = Some tp → caps_ok tp) →
  ps_ok (alter_topic t f ps).
Proof.
  intros Hf Hne Hi Hc. split; simpl; [done| |].
  - intros p s. rewrite lookup_fmap. intros (s0&Hs0&->)%fmap_Some_1. simpl. eauto.
  - intros p s t' ts. rewrite lookup_fmap. intros (s0&Hs0&->)%fmap_Some_1. simpl.
    destruct (decide (t' = t)) as [->|Ht]; [|rewrite lookup_alter_ne by done; by eauto].
    rewrite lookup_alter_eq. intros (ts0&?&->)%fmap_Some_1. eauto.
Qed.

Lemma set_topic_params_ok ps t tp : ps_ok ps → caps_ok tp → ps_ok (ps_set_topic_params ps t tp).
Proof.
  intros Hok Htp. pose proof Hok as [Hc Hi Ht]. unfold ps_set_topic_params.
  set (pp' := mk_PeerScoreParams _ _ _ _ _ _ _ _ _ _ _ _).
  assert (Hc' : ∀ t' tp', pp_topics pp' !! t' = Some tp' → caps_ok tp').
  { subst pp'. simpl. intros t' tp' [[_ <-]|[_ ?]]%lookup_insert_Some; eauto. }
  assert (Hother : ∀ t' ts, t' ≠ t → topic_stats_ok (ps_params ps) t' ts → topic_stats_ok pp' t' ts).
  { intros t' ts Hne [(tp'&?&?) ? ? ?]. split; [|done..]. exists tp'. subst pp'. simpl.
    by rewrite lookup_insert_ne. }
  destruct (pp_topics (ps_params ps) !! t) as [old|] eqn:Hold.
  2: { split; simpl; [done|done|]. intros p s t' ts Hs Hts. pose proof (Ht _ _ _ _ Hs Hts) as Hts'.
       apply Hother; [|done]. intros ->. destruct (tso_caps _ _ _ Hts') as (?&?&_). congruence. }
  destruct (Hc _ _ Hold) as (Hn1&_&Hn2&_).
  (* the statistics of the topic, clamped to the caps that decreased *)
  assert (Hnew : ∀ ts, topic_stats_ok (ps_params ps) t ts →
    topic_stats_ok pp' t
      ((if (mesh_message_deliveries_cap tp <? mesh_message_deliveries_cap old)%f64
        then cap_mesh (mesh_message_deliveries_cap tp) else id)
       ((if (first_message_deliveries_cap tp <? first_message_deliveries_cap old)%f64
         then cap_first (first_message_deliveries_cap tp) else id) ts))).
  { intros ts [(tp'&Htp'&Hf&Hm) Hact Hpen Htime]. rewrite Hold in Htp'. injection Htp' as <-.
    set (ts1 := (if (first_message_deliveries_cap tp <? _)%f64 then _ else id) ts).
    assert (H1 : (first_message_deliveries_cap tp <? first_message_deliveries ts1)%f64 = false ∧
      mesh_message_deliveries ts1 = mesh_message_deliveries ts ∧ mesh_message_deliveries_active ts1 = false ∧
      mesh_failure_penalty ts1 = f64_zero ∧ mesh_status ts1 = mesh_status ts).
    { subst ts1. destruct (_ <? first_message_deliveries_cap old)%f64 eqn:Hlt; unfold cap_first, id.
      - destruct (first_message_deliveries_cap tp <? first_message_deliveries ts)%f64 eqn:Hlt'; simpl; [|done].
        split_and!; try done. apply f64_ltb_irrefl.
      - split_and!; try done. exact (f64_nlt_trans _ _ _ Hn1 Hf Hlt). }
    destruct H1 as (Hf1&Hm1&Hact1&Hpen1&Htime1). rewrite <-Hm1 in Hm. rewrite <-Htime1 in Htime. clearbody ts1.
    assert (Htp' : pp_topics pp' !! t = Some tp) by apply lookup_insert_eq.
    destruct (_ <? mesh_message_deliveries_cap old)%f64 eqn:Hlt; unfold cap_mesh, id.
    - destruct (mesh_message_deliveries_cap tp <? mesh_message_deliveries ts1)%f64 eqn:Hlt'; split; simpl; try done;
        exists tp; split_and!; try done. apply f64_ltb_irrefl.
    - split; [|done..]. exists tp. split_and!; try done. exact (f64_nlt_trans _ _ _ Hn2 Hm Hlt). }
  assert (Hgoal : ps_ok (alter_topic t (λ ts, (if (mesh_message_deliveries_cap tp <? mesh_message_deliveries_cap old)%f64
        then cap_mesh (mesh_message_deliveries_cap tp) else id)
       ((if (first_message_deliveries_cap tp <? first_message_deliveries_cap old)%f64
         then cap_first (first_message_deliveries_cap tp) else id) ts)) (with_params ps pp'))).
  { apply alter_topic_ok; simpl; eauto. }
  eapply ps_ok_ext; [exact Hgoal|by repeat case_match|].
  apply map_eq. intros p.
  destruct (_ <? mesh_message_deliveries_cap old)%f64, (_ <? first_message_deliveries_cap old)%f64; simpl;
    rewrite ?lookup_fmap; (destruct (peer_stats ps !! p) as [[]|]; [|done]); simpl; unfold with_topics; simpl;
    do 2 f_equal; apply map_eq; intros t'; (destruct (decide (t' = t)) as [->|];
      [rewrite ?lookup_alter_eq|rewrite ?lookup_alter_ne by done; done]).
  all: by destruct (st_topics0 !! t).
Qed.

Lemma ps_exec_ok ps op retain :
  ps_ok ps → retain_score (ps_params ps) = retain → ps_op_ok retain op →
  ∃ ps', ps_exec ps op = Some ps' ∧ ps_ok ps' ∧ retain_score (ps_params ps') = retain.
Proof.
  intros Hok Hr Hop.
  assert (Hsame : ∀ r, (∃ ps', r = Some ps' ∧ ps_ok ps' ∧ ps_params ps' = ps_params ps) →
    ∃ ps', r = Some ps' ∧ ps_ok ps' ∧ retain_score (ps_params ps') = retain).
  { intros r (ps'&?&?&Hp). exists ps'. rewrite Hp. done. }
  destruct op; cbn [ps_exec ps_op_ok] in *.
  - apply Hsame. eexists. split; [done|]. split; [|done].
    destruct (peer_stats ps !! p) as [s|] eqn:Hs; (apply with_stats_ok; [done|..]); rewrite Hs; simpl; try done.
    + by eapply pso_ips.
    + intros t ts. by eapply pso_topics.
  - apply Hsame. apply ps_remove_peer_ok; [done|]. by rewrite Hr.
  - by apply Hsame, ps_graft_ok.
  - by apply Hsame, ps_prune_ok.
  - apply Hsame. eexists. split; [done|]. unfold validate_message.
    destruct (delivery_record now ps mid) as [r ps2] eqn:Hrec. apply delivery_record_ext in Hrec as [Hp2 Hs2].
    assert (ps_ok ps2) by (by eapply ps_ok_ext). destruct (_ && _); [|done]. split; [by eapply ps_ok_ext|done].
  - by apply Hsame, deliver_message_ok.
  - by apply Hsame, mark_invalid_ok.
  - by apply Hsame, ps_reject_message_ok.
  - by apply Hsame, duplicated_message_ok.
  - apply Hsame. eexists. split; [done|]. split; [|done]. destruct Hok as [Hc Hi Ht]. split; simpl; [done| |].
    + intros p' s [(_&s0&Hs0&->)|[_ Hs0]]%lookup_alter_Some; simpl; eauto.
    + intros p' s t ts [(_&s0&Hs0&->)|[_ Hs0]]%lookup_alter_Some; simpl; eauto.
  - apply Hsame. eexists. split; [done|]. split; [|done]. destruct Hok as [Hc Hi Ht]. split; simpl; [done| |].
    + intros p' s [(_&s0&Hs0&->)|[_ Hs0]]%lookup_alter_Some; simpl; eauto.
    + intros p' s t ts [(_&s0&Hs0&->)|[_ Hs0]]%lookup_alter_Some; simpl; eauto.
  - eexists. split; [done|]. split; [by apply set_topic_params_ok|]. unfold ps_set_topic_params.
    repeat case_match; done.
Qed.


(** *** Deliveries *)

(** A duplicate of a message that is already on record for the peer, while the
    record lives, changes no statistics. *)
Lemma duplicate_recorded now ps from mid t r e :
  tc_map (deliveries ps) !! mid = Some (r, e) → (now < e)%Z → from ∈ dr_peers r →
  tc_wf now (deliveries ps) →
  ∃ ps', duplicated_message now ps from mid t = Some ps' ∧ peer_stats ps' = peer_stats ps ∧
    callback_calls ps' = callback_calls ps.
Proof.
  intros Hr He Hin Hwf. unfold duplicated_message, delivery_record, or_insert_with, tc_entry.
  destruct (remove_expired_keys_spec now _ now Hwf) as (Hm&_&_).
  assert (Hkeep : tc_map (remove_expired_keys (deliveries ps) now) !! mid = Some (r, e)).
  { rewrite Hm. by apply map_lookup_filter_Some. }
  rewrite Hkeep. simpl. rewrite decide_True by done. eexists. split; [done|]. done.
Qed.

(** The thresholds that pass the validation are in order, when they are numbers. *)
Lemma validate_thresholds_order th :
  validate_thresholds th = Ok () →
  (gossip_threshold th <? publish_threshold th)%f64 = false ∧
  (publish_threshold th <? graylist_threshold th)%f64 = false ∧
  f64_gt0 (gossip_threshold th) = false ∧ f64_lt0 (accept_px_threshold th) = false ∧
  f64_lt0 (opportunistic_graft_threshold th) = false.
Proof.
  unfold validate_thresholds. destruct (f64_gt0 (gossip_threshold th)); [done|].
  destruct (f64_gt0 (publish_threshold th)); [done|]. destruct (gossip_threshold th <? _)%f64; [done|].
  destruct (f64_gt0 (graylist_threshold th)); [done|]. destruct (publish_threshold th <? _)%f64; [done|]. simpl.
  destruct (f64_lt0 (accept_px_threshold th)); [done|]. by destruct (f64_lt0 _).
Qed.
End peer_score.
Arguments PeerScoreParams : clear implicits.
Arguments PeerScoreParams _ {_ _}.
Arguments PeerStats : clear implicits.
Arguments PeerStats _ {_ _}.
Arguments PeerScore : clear implicits.
Arguments PeerScore _ _ {_ _ _ _}.

(** ** A concrete run *)

Definition sample_topic_params : TopicScoreParams :=
  let f := f64_of_Z in
  mk_TopicScoreParams (f 1%Z) (f 1%Z) 1000000 (f 3600%Z) (f 1%Z) (S754_finite false 4503599627370496 (-53)) (f 2%Z)
    (f (-1)%Z) (S754_finite false 4503599627370496 (-53)) (f 100%Z) (f 20%Z) 10000000 (5 * NANOS)
    (f (-1)%Z) (S754_finite false 4503599627370496 (-53)) (f (-1)%Z) (S754_finite false 4503599627370496 (-53)).

Definition sample_params : PeerScoreParams nat :=
  let f := f64_of_Z in
  mk_PeerScoreParams {["news" := sample_topic_params]} (f 3600%Z) (f 10%Z) (f (-5)%Z) (f 10%Z) ∅ (f (-10)%Z) f64_zero
    (S754_finite false 4503599627370496 (-53)) NANOS (S754_finite false 4503599627370496 (-53)) (3600 * NANOS).

Definition sample_ops : list (@PsOp nat) :=
  [PsAddPeer 1; PsGraft 1 "news"; PsValidate 0 1 [Byte.x01] "news"; PsDuplicated 1 2 [Byte.x01] "news";
   PsDeliver 2 1 [Byte.x01] "news"; PsReject 3 1 [Byte.x02] "news" ValidationFailed; PsPenalty 1 2; PsPrune 1 "news";
   PsRemovePeer 4 1].

Local Instance sample_order : HashOrder := λ _ l, l.

