(* ===== verification/Identity.v ===== *)
(** * Identities: [core/src/identity.rs] and [core/src/peer_id.rs]

    The public keys and key pairs of a node, their protobuf encoding, and the peer
    ids made from them. The signature schemes (the crates [ed25519_dalek], [ring]
    and [secp256k1] behind [core/src/identity/]), the protobuf codec of
    [keys.proto] and the crate [multihash] are parameters with the laws they
    document. [PeerId] implements the interface of peer ids the protocols use. *)

From Stdlib Require Import ZArith Lia.
From S2P Require Import Prelude KadKey RecordStore KadProto.

(** ** Parameters *)

(** A signature scheme: [sign] and [public] of its key pair, [verify], [encode] and
    [decode] of its public key. *)
Class KeyScheme := {
  ks_secret : Type;
  ks_public : Type;
  ks_public_eq_dec :: EqDecision ks_public;
  ks_pub : ks_secret → ks_public;
  ks_sign : ks_secret → bytes → option bytes;
  ks_verify : ks_public → bytes → bytes → bool;
  ks_encode : ks_public → bytes;
  ks_decode : bytes → option ks_public
}.

Class KeySchemeLaws (ks : KeyScheme) := {
  ks_decode_encode k : ks_decode (ks_encode k) = Some k;
  ks_verify_sign s m sig : ks_sign s m = Some sig → ks_verify (ks_pub s) m sig = true
}.

(** The codec of the message [PublicKey] of [keys.proto]: a key type and the data. *)
Class KeysProto := {
  kp_encode : Z → bytes → bytes;
  kp_decode : bytes → option (Z * bytes)
}.

Class KeysProtoLaws `{KeysProto} :=
  kp_decode_encode t d : (0 ≤ t < 2 ^ 31)%Z → kp_decode (kp_encode t d) = Some (t, d).

(** The crate [multihash]: a hash with its code, and the digests. *)
Class MultihashCrate := {
  mh_to_bytes : Z → bytes → bytes;
  mh_from_bytes : bytes → option (Z * bytes);
  sha2_256 : bytes → bytes
}.

Definition CODE_IDENTITY : Z := 0.
Definition CODE_SHA2_256 : Z := 18.

Class MultihashLaws `{MultihashCrate} := {
  mh_from_to c d : (0 ≤ c < 2 ^ 63)%Z → length d ≤ 64 → mh_from_bytes (mh_to_bytes c d) = Some (c, d);
  mh_from_size bs c d : mh_from_bytes bs = Some (c, d) → length d ≤ 64;
  mh_identity_bytes d :
    length d < 128 → mh_to_bytes CODE_IDENTITY d = Byte.x00 :: byte.of_Z (Z.of_nat (length d)) :: d;
  mh_to_bytes_long c d : 2 ≤ length (mh_to_bytes c d);
  sha2_256_size bs : length (sha2_256 bs) = 32
}.

(** ** The interface of identities

    What the protocols use of the keys of a node: signing and verifying, the
    encoding of public keys, and the peer id of a key. *)
Class NodeIdentity (PeerId : Type) `{PeerIdType PeerId} := {
  ni_keypair : Type;
  ni_pubkey : Type;
  ni_sign : ni_keypair → bytes → option bytes;
  ni_public : ni_keypair → ni_pubkey;
  ni_verify : ni_pubkey → bytes → bytes → bool;
  ni_encode : ni_pubkey → bytes;
  ni_decode : bytes → option ni_pubkey;
  ni_peer_id : ni_pubkey → PeerId
}.

(** A public key of at most 42 encoded bytes is inlined in its peer id, after two
    bytes. *)
Class NodeIdentityLaws (PeerId : Type) `{NodeIdentity PeerId} := {
  ni_decode_encode k : ni_decode (ni_encode k) = Some k;
  ni_verify_sign s m sig : ni_sign s m = Some sig → ni_verify (ni_public s) m sig = true;
  ni_inline k : length (ni_encode k) ≤ 42 → drop 2 (to_bytes (ni_peer_id k)) = ni_encode k;
  ni_bytes_long (p : PeerId) : 2 ≤ length (to_bytes p)
}.

Section identity.
Context (ed25519 rsa secp256k1 : KeyScheme) `{!KeysProto} `{!MultihashCrate}.

(** ** Keys: [identity.rs] *)

Inductive KeyType := KEY_RSA | KEY_ED25519 | KEY_SECP256K1.

Definition key_type_as_i32 (t : KeyType) : Z :=
  match t with KEY_RSA => 0 | KEY_ED25519 => 1 | KEY_SECP256K1 => 2 end.

Definition key_type_from_i32 (z : Z) : option KeyType :=
  match z with 0 => Some KEY_RSA | 1 => Some KEY_ED25519 | 2 => Some KEY_SECP256K1 | _ => None end%Z.

Inductive PublicKey :=
  | PkEd25519 (k : @ks_public ed25519)
  | PkRsa (k : @ks_public rsa)
  | PkSecp256k1 (k : @ks_public secp256k1).

#[global] Instance PublicKey_eq_dec : EqDecision PublicKey.
Proof. solve_decision. Defined.

Inductive Keypair :=
  | KpEd25519 (s : @ks_secret ed25519)
  | KpRsa (s : @ks_secret rsa)
  | KpSecp256k1 (s : @ks_secret secp256k1).

Inductive IdentityError := SigningError | ProtobufError | UnknownKeyType (t : Z) | KeyDecodingError.

Definition sign (kp : Keypair) (msg : bytes) : result IdentityError bytes :=
  match kp with
  | KpEd25519 s => ok_or SigningError (ks_sign s msg)
  | KpRsa s => ok_or SigningError (ks_sign s msg)
  | KpSecp256k1 s => ok_or SigningError (ks_sign s msg)
  end.

Definition public (kp : Keypair) : PublicKey :=
  match kp with
  | KpEd25519 s => PkEd25519 (ks_pub s)
  | KpRsa s => PkRsa (ks_pub s)
  | KpSecp256k1 s => PkSecp256k1 (ks_pub s)
  end.

Definition verify (pk : PublicKey) (msg sig : bytes) : bool :=
  match pk with
  | PkEd25519 k => ks_verify k msg sig
  | PkRsa k => ks_verify k msg sig
  | PkSecp256k1 k => ks_verify k msg sig
  end.

Definition into_protobuf_encoding (pk : PublicKey) : bytes :=
  match pk with
  | PkEd25519 k => kp_encode (key_type_as_i32 KEY_ED25519) (ks_encode k)
  | PkRsa k => kp_encode (key_type_as_i32 KEY_RSA) (ks_encode k)
  | PkSecp256k1 k => kp_encode (key_type_as_i32 KEY_SECP256K1) (ks_encode k)
  end.

Definition from_protobuf_encoding (bs : bytes) : result IdentityError PublicKey :=
  let? x := ok_or ProtobufError (kp_decode bs) in
  let? key_type := ok_or (UnknownKeyType x.1) (key_type_from_i32 x.1) in
  match key_type with
  | KEY_ED25519 => ok_or KeyDecodingError (PkEd25519 <$> ks_decode x.2)
  | KEY_RSA => ok_or KeyDecodingError (PkRsa <$> ks_decode x.2)
  | KEY_SECP256K1 => ok_or KeyDecodingError (PkSecp256k1 <$> ks_decode x.2)
  end.

(** ** Peer ids: [peer_id.rs] *)

Definition MAX_INLINE_KEY_LENGTH : nat := 42.

(** A multihash: its code and digest. *)
Abbreviation Multihash := (Z * bytes)%type.

(** What [from_multihash] requires. *)
Definition peer_multihash (mh : Multihash) : bool :=
  bool_decide (mh.1 = CODE_SHA2_256 ∧ length mh.2 ≤ 64) ||
  bool_decide (mh.1 = CODE_IDENTITY ∧ length mh.2 ≤ MAX_INLINE_KEY_LENGTH).

Record PeerId := mk_PeerId { multihash : Multihash; peer_multihash_ok : peer_multihash multihash = true }.

Lemma PeerId_eq (p q : PeerId) : multihash p = multihash q → p = q.
Proof. destruct p as [m Hm], q as [m' Hm']. simpl. intros ->. f_equal. apply (proof_irrel Hm Hm'). Qed.

#[global] Instance PeerId_eq_dec : EqDecision PeerId.
Proof.
  refine (λ p q, cast_if (decide (multihash p = multihash q))); [by apply PeerId_eq|by intros ->].
Defined.

(** [from_multihash]; [None] gives the multihash back. *)
Definition from_multihash (mh : Multihash) : option PeerId :=
  match bool_dec (peer_multihash mh) true with
  | left Hok => Some (mk_PeerId mh Hok)
  | right _ => None
  end.

#[global] Instance PeerId_countable : Countable PeerId.
Proof.
  refine (inj_countable multihash from_multihash _). intros [m Hm]. unfold from_multihash. simpl.
  destruct (bool_dec _ _) as [Hok|Hno]; [|congruence]. f_equal. by apply PeerId_eq.
Defined.

Definition code_digest (code : Z) (data : bytes) : Multihash :=
  if decide (code = CODE_IDENTITY) then (CODE_IDENTITY, data) else (CODE_SHA2_256, sha2_256 data).

(** The multihash [from_public_key] builds. *)
Definition public_key_multihash (pk : PublicKey) : Multihash :=
  let key_enc := into_protobuf_encoding pk in
  let hash_algorithm := if decide (length key_enc ≤ MAX_INLINE_KEY_LENGTH) then CODE_IDENTITY else CODE_SHA2_256 in
  code_digest hash_algorithm key_enc.

(** [from_bytes]. *)
Inductive MultihashError := MultihashInvalid | UnsupportedCode (code : Z).

Definition peer_id_from_bytes (data : bytes) : result MultihashError PeerId :=
  let? mh := ok_or MultihashInvalid (mh_from_bytes data) in
  ok_or (UnsupportedCode mh.1) (from_multihash mh).

Definition peer_id_to_bytes (p : PeerId) : bytes := mh_to_bytes (multihash p).1 (multihash p).2.

(** [random], with the bytes of the generator. *)
Definition random_multihash (rng : bytes) : Multihash := (CODE_IDENTITY, rng).

(** [is_public_key]; the code of a peer id is always one of the two. *)
Definition is_public_key (p : PeerId) (pk : PublicKey) : option bool :=
  let enc := into_protobuf_encoding pk in
  Some (bool_decide (code_digest (multihash p).1 enc = multihash p)).

(** *** Laws *)

Lemma peer_multihash_spec mh :
  peer_multihash mh = true ↔
  (mh.1 = CODE_SHA2_256 ∧ length mh.2 ≤ 64) ∨ (mh.1 = CODE_IDENTITY ∧ length mh.2 ≤ MAX_INLINE_KEY_LENGTH).
Proof. unfold peer_multihash. by rewrite orb_true_iff, !bool_decide_eq_true. Qed.

Lemma from_multihash_spec mh p : from_multihash mh = Some p ↔ multihash p = mh.
Proof.
  unfold from_multihash. destruct (bool_dec _ _) as [Hm|Hm].
  - split; [by intros [= <-]|]. intros <-. f_equal. by apply PeerId_eq.
  - split; [done|]. intros <-. by destruct Hm, p.
Qed.

Context `{!KeySchemeLaws ed25519} `{!KeySchemeLaws rsa} `{!KeySchemeLaws secp256k1} `{!KeysProtoLaws} `{!MultihashLaws}.

Lemma public_key_multihash_ok pk : peer_multihash (public_key_multihash pk) = true.
Proof.
  apply peer_multihash_spec. unfold public_key_multihash. case_decide as Hl; unfold code_digest.
  - rewrite decide_True by done. by right.
  - rewrite decide_False by done. left. split; [done|]. simpl. rewrite sha2_256_size. lia.
Qed.

Definition from_public_key (pk : PublicKey) : PeerId := mk_PeerId _ (public_key_multihash_ok pk).

Lemma key_roundtrip pk : from_protobuf_encoding (into_protobuf_encoding pk) = Ok pk.
Proof.
  unfold from_protobuf_encoding, into_protobuf_encoding.
  destruct pk; rewrite kp_decode_encode by done; cbn [result_bind ok_or fst snd key_type_as_i32 key_type_from_i32];
    by rewrite ks_decode_encode.
Qed.

Lemma signature_verifies kp msg sig : sign kp msg = Ok sig → verify (public kp) msg sig = true.
Proof.
  destruct kp as [s|s|s]; simpl; destruct (ks_sign s msg) as [x|] eqn:Hs; simpl; try done; intros [= <-];
    by apply ks_verify_sign.
Qed.

Lemma peer_id_bytes_roundtrip p : peer_id_from_bytes (peer_id_to_bytes p) = Ok p.
Proof.
  unfold peer_id_from_bytes, peer_id_to_bytes. pose proof (proj1 (peer_multihash_spec _) (peer_multihash_ok p)) as Hm.
  rewrite mh_from_to.
  - simpl. rewrite <-surjective_pairing, (proj2 (from_multihash_spec _ p) eq_refl). done.
  - destruct Hm as [[-> _]|[-> _]]; done.
  - unfold MAX_INLINE_KEY_LENGTH in Hm. lia.
Qed.

Lemma sha_bytes_accepted bs d :
  mh_from_bytes bs = Some (CODE_SHA2_256, d) → ∃ p, peer_id_from_bytes bs = Ok p ∧ multihash p = (CODE_SHA2_256, d).
Proof.
  intros Hbs. unfold peer_id_from_bytes. rewrite Hbs. simpl.
  assert (Hok : peer_multihash (CODE_SHA2_256, d) = true).
  { apply peer_multihash_spec. left. split; [done|]. by eapply mh_from_size. }
  pose proof (proj2 (from_multihash_spec _ (mk_PeerId _ Hok)) eq_refl) as Hf. simpl in Hf. rewrite Hf. by eexists.
Qed.

(** A peer id made from a short key contains the key. *)
Lemma inline_key pk :
  length (into_protobuf_encoding pk) ≤ MAX_INLINE_KEY_LENGTH →
  drop 2 (peer_id_to_bytes (from_public_key pk)) = into_protobuf_encoding pk.
Proof.
  intros Hl. unfold peer_id_to_bytes, from_public_key, public_key_multihash. simpl.
  rewrite decide_True by done. unfold code_digest. rewrite decide_True by done. simpl.
  rewrite mh_identity_bytes by (unfold MAX_INLINE_KEY_LENGTH in Hl; lia). done.
Qed.

(** The peer ids of public keys: a peer id survives its byte encoding, a key
    survives its encoding, the peer id of a key matches it, an inlined key can be
    read back from the bytes of the peer id, and among keys that are inlined the
    peer id determines the key. *)
Theorem peer_id_of_key pk :
  peer_id_from_bytes (peer_id_to_bytes (from_public_key pk)) = Ok (from_public_key pk) ∧
  is_public_key (from_public_key pk) pk = Some true ∧
  (length (into_protobuf_encoding pk) ≤ MAX_INLINE_KEY_LENGTH →
     from_protobuf_encoding (drop 2 (peer_id_to_bytes (from_public_key pk))) = Ok pk ∧
     ∀ pk', is_public_key (from_public_key pk) pk' = Some true → pk' = pk).
Proof.
  split; [apply peer_id_bytes_roundtrip|]. split.
  - unfold is_public_key. f_equal. apply bool_decide_eq_true. unfold from_public_key, public_key_multihash. simpl.
    by case_decide.
  - intros Hl. split; [by rewrite inline_key, key_roundtrip|]. intros pk'. unfold is_public_key.
    intros [= Hd%bool_decide_eq_true]. revert Hd. unfold from_public_key, public_key_multihash. simpl.
    rewrite decide_True by done. unfold code_digest. simpl. intros [= He]. pose proof (key_roundtrip pk) as Hk. pose proof (key_roundtrip pk') as Hk'.
    rewrite He in Hk'. congruence.
Qed.

(** The interface of peer ids. *)
#[local] Instance PeerId_PeerIdType : PeerIdType PeerId := {|
  pid_to_bytes := peer_id_to_bytes;
  pid_from_bytes bs := result_ok (peer_id_from_bytes bs)
|}.

#[local] Instance PeerId_PeerIdLaws : PeerIdLaws PeerId.
Proof.
  split.
  - intros p. simpl. unfold to_bytes, pid_to_bytes. simpl. by rewrite peer_id_bytes_roundtrip.
  - intros p Hp. pose proof (mh_to_bytes_long (multihash p).1 (multihash p).2) as Hl.
    change (to_bytes p) with (mh_to_bytes (multihash p).1 (multihash p).2) in Hp. rewrite Hp in Hl. simpl in Hl. lia.
Qed.

(** The interface of identities. *)
#[local] Instance PeerId_NodeIdentity : NodeIdentity PeerId := {|
  ni_keypair := Keypair;
  ni_pubkey := PublicKey;
  ni_sign kp m := result_ok (sign kp m);
  ni_public := public;
  ni_verify := verify;
  ni_encode := into_protobuf_encoding;
  ni_decode bs := result_ok (from_protobuf_encoding bs);
  ni_peer_id := from_public_key
|}.

#[local] Instance PeerId_NodeIdentityLaws : NodeIdentityLaws PeerId.
Proof.
  split.
  - intros k. cbn [ni_decode ni_encode PeerId_NodeIdentity]. by rewrite key_roundtrip.
  - intros kp m sig. cbn [ni_sign PeerId_NodeIdentity]. destruct (sign kp m) as [x|] eqn:Hs; [|done].
    intros [= <-]. by apply signature_verifies.
  - intros k. apply inline_key.
  - intros p. apply mh_to_bytes_long.
Qed.
End identity.

(** ** A toy instance

    Key pairs, codecs and hashes that satisfy the laws, for concrete runs. *)

#[local] Instance toy_scheme : KeyScheme := {|
  ks_secret := bytes;
  ks_public := bytes;
  ks_pub s := s;
  ks_sign s m := Some (s ++ m);
  ks_verify k m sig := bool_decide (sig = k ++ m);
  ks_encode k := k;
  ks_decode bs := Some bs
|}.

#[local] Instance toy_scheme_laws : KeySchemeLaws toy_scheme.
Proof. split; [done|]. intros s m sig [= <-]. by apply bool_decide_eq_true. Qed.

#[local] Instance toy_proto : KeysProto := {|
  kp_encode t d := be_split 4 t ++ d;
  kp_decode bs := Some (be_combine (take 4 bs), drop 4 bs)
|}.

#[local] Instance toy_proto_laws : KeysProtoLaws.
Proof.
  intros t d Ht. simpl. rewrite take_app_length', drop_app_length' by (by rewrite length_be_split).
  rewrite be_combine_split_small; [done|]. simpl. lia.
Qed.

#[local] Instance toy_multihash : MultihashCrate := {|
  mh_to_bytes c d :=
    if decide (c = CODE_IDENTITY ∧ length d < 128) then Byte.x00 :: byte.of_Z (Z.of_nat (length d)) :: d
    else Byte.x01 :: be_split 8 c ++ d;
  mh_from_bytes bs :=
    match bs with
    | Byte.x00 :: _ :: d => if decide (length d ≤ 64) then Some (CODE_IDENTITY, d) else None
    | Byte.x01 :: r => if decide (length (drop 8 r) ≤ 64) then Some (be_combine (take 8 r), drop 8 r) else None
    | _ => None
    end;
  sha2_256 bs := take 32 (bs ++ replicate 32 Byte.x00)
|}.

#[local] Instance toy_multihash_laws : MultihashLaws.
Proof.
  split.
  - intros c d Hc Hd. simpl. case_decide as Hi; [by rewrite decide_True, (proj1 Hi)|].
    rewrite take_app_length', drop_app_length' by (by rewrite length_be_split).
    rewrite decide_True by done. rewrite be_combine_split_small; [done|]. simpl. lia.
  - intros bs c d. simpl. destruct bs as [|[] bs]; try done.
    + destruct bs as [|? bs]; [done|]. case_decide; [|done]. by intros [= <- <-].
    + case_decide; [|done]. by intros [= <- <-].
  - intros d Hd. simpl. by rewrite decide_True.
  - intros c d. simpl. case_decide; simpl; [lia|]. rewrite length_app, length_be_split. lia.
  - intros bs. cbn [sha2_256 toy_multihash]. rewrite length_take, length_app, length_replicate. lia.
Qed.

Lemma peer_id_of_key_witness :
  let pk := PkEd25519 toy_scheme toy_scheme toy_scheme [Byte.x07; Byte.x2a] in
  from_protobuf_encoding toy_scheme toy_scheme toy_scheme
    (drop 2 (peer_id_to_bytes (from_public_key toy_scheme toy_scheme toy_scheme pk))) = Ok pk.
Proof.
  intros pk. refine (proj1 (proj2 (proj2 (peer_id_of_key toy_scheme toy_scheme toy_scheme pk)) _)).
  by_eval.
Defined.
