(* ===== verification/GossipRpc.v ===== *)
(** * The messages of gossipsub on the wire

    The RPCs of gossipsub and their conversion to protobuf ([types.rs]), the
    building and signing of messages and the check of the configuration
    ([gossipsub.rs]: [build_raw_message], [validate_config]), the validation of
    received messages ([protocol.rs]: [verify_signature], [handle]), and the
    fragmentation of large RPCs ([gossipsub.rs]: [fragment_message]), all in
    [protocols/gossipsub/src]. The byte encoding of the protobuf messages is
    prost's and a parameter; the keys are those of the interface [NodeIdentity]. *)

From Stdlib Require Import ZArith Lia SpecFloat.
From stdpp Require Import strings.
From S2P Require Import Prelude KadKey RecordStore KadProto Identity GossipCache Float64.

Local Open Scope nat_scope.

(** ** The protobuf messages of [rpc.proto] *)

Record ProtoSubOpts := mk_ProtoSubOpts { so_subscribe : option bool; so_topic_id : option string }.

Record ProtoPubMessage := mk_ProtoPubMessage {
  pm_from : option bytes;
  pm_data : option bytes;
  pm_seqno : option bytes;
  pm_topic : string;
  pm_signature : option bytes;
  pm_key : option bytes
}.

Record ProtoIHave := mk_ProtoIHave { ih_topic_id : option string; ih_message_ids : list bytes }.
Record ProtoIWant := mk_ProtoIWant { iw_message_ids : list bytes }.
Record ProtoGraft := mk_ProtoGraft { gr_topic_id : option string }.
Record ProtoPeerInfo := mk_ProtoPeerInfo { pi_peer_id : option bytes; pi_signed_peer_record : option bytes }.
Record ProtoPrune := mk_ProtoPrune {
  pr_topic_id : option string;
  pr_peers : list ProtoPeerInfo;
  pr_backoff : option Z
}.

Record ProtoControl := mk_ProtoControl {
  pc_ihave : list ProtoIHave;
  pc_iwant : list ProtoIWant;
  pc_graft : list ProtoGraft;
  pc_prune : list ProtoPrune
}.

Record ProtoRpc := mk_ProtoRpc {
  pr_subscriptions : list ProtoSubOpts;
  pr_publish : list ProtoPubMessage;
  pr_control : option ProtoControl
}.

#[global] Instance ProtoSubOpts_eq_dec : EqDecision ProtoSubOpts.
Proof. solve_decision. Defined.
#[global] Instance ProtoPubMessage_eq_dec : EqDecision ProtoPubMessage.
Proof. solve_decision. Defined.
#[global] Instance ProtoIHave_eq_dec : EqDecision ProtoIHave.
Proof. solve_decision. Defined.
#[global] Instance ProtoIWant_eq_dec : EqDecision ProtoIWant.
Proof. solve_decision. Defined.
#[global] Instance ProtoGraft_eq_dec : EqDecision ProtoGraft.
Proof. solve_decision. Defined.
#[global] Instance ProtoPeerInfo_eq_dec : EqDecision ProtoPeerInfo.
Proof. solve_decision. Defined.
#[global] Instance ProtoPrune_eq_dec : EqDecision ProtoPrune.
Proof. solve_decision. Defined.
#[global] Instance ProtoControl_eq_dec : EqDecision ProtoControl.
Proof. solve_decision. Defined.
#[global] Instance ProtoRpc_eq_dec : EqDecision ProtoRpc.
Proof. solve_decision. Defined.

(** The encoders of prost; [encoded_len] is the length of the encoding. *)
Class RpcCodec := {
  enc_message : ProtoPubMessage → bytes;
  enc_sub : ProtoSubOpts → bytes;
  enc_ihave : ProtoIHave → bytes;
  enc_iwant : ProtoIWant → bytes;
  enc_graft : ProtoGraft → bytes;
  enc_prune : ProtoPrune → bytes;
  enc_control : ProtoControl → bytes;
  enc_rpc : ProtoRpc → bytes
}.

Definition encoded_len (bs : bytes) : Z := Z.of_nat (length bs).

(** ** RPCs: [types.rs] *)

Section rpc.
Context {PeerId : Type} `{!PeerIdType PeerId}.

Local Abbreviation Raw := (RawGossipsubMessage PeerId).

(** [GossipsubMessage]: what the application sees. *)
Record GossipsubMessage := mk_GossipsubMessage {
  gm_source : option PeerId;
  gm_data : bytes;
  gm_sequence_number : option Z;
  gm_topic : TopicHash
}.

(** [PeerInfo] holds an optional peer id. *)
Inductive GossipsubControlAction :=
  | IHave (topic_hash : TopicHash) (message_ids : list MessageId)
  | IWant (message_ids : list MessageId)
  | Graft (topic_hash : TopicHash)
  | Prune (topic_hash : TopicHash) (peers : list (option PeerId)) (backoff : option Z).

Record GossipsubRpc := mk_GossipsubRpc {
  messages : list Raw;
  subscriptions : list GossipsubSubscription;
  control_msgs : list GossipsubControlAction
}.

Definition message_to_proto (m : Raw) : ProtoPubMessage :=
  mk_ProtoPubMessage (to_bytes <$> source m) (Some (data m)) (be_split 8 <$> sequence_number m) (topic m)
    (signature m) (key m).

Definition sub_to_proto (s : GossipsubSubscription) : ProtoSubOpts :=
  mk_ProtoSubOpts (Some (bool_decide (action s = Subscribe))) (Some (topic_hash s)).

(** One step of the loop over the control messages. *)
Definition push_control (c : ProtoControl) (a : GossipsubControlAction) : ProtoControl :=
  match a with
  | IHave t ids => mk_ProtoControl (pc_ihave c ++ [mk_ProtoIHave (Some t) ids]) (pc_iwant c) (pc_graft c) (pc_prune c)
  | IWant ids => mk_ProtoControl (pc_ihave c) (pc_iwant c ++ [mk_ProtoIWant ids]) (pc_graft c) (pc_prune c)
  | Graft t => mk_ProtoControl (pc_ihave c) (pc_iwant c) (pc_graft c ++ [mk_ProtoGraft (Some t)]) (pc_prune c)
  | Prune t peers backoff =>
      mk_ProtoControl (pc_ihave c) (pc_iwant c) (pc_graft c)
        (pc_prune c ++ [mk_ProtoPrune (Some t) ((λ p, mk_ProtoPeerInfo (to_bytes <$> p) None) <$> peers) backoff])
  end.

(** [into_protobuf]. *)
Definition rpc_into_protobuf (r : GossipsubRpc) : ProtoRpc :=
  mk_ProtoRpc (sub_to_proto <$> subscriptions r) (message_to_proto <$> messages r)
    (match control_msgs r with
     | [] => None
     | actions => Some (foldl push_control (mk_ProtoControl [] [] [] []) actions)
     end).

(** ** Building messages: [build_raw_message] and [validate_config] *)

Section signing.
Context `{!NodeIdentity PeerId} `{!RpcCodec}.

Inductive MessageAuthenticity :=
  | AuthSigned (keypair : ni_keypair)
  | AuthAuthor (p : PeerId)
  | AuthRandomAuthor
  | AuthAnonymous.

Definition is_signing (a : MessageAuthenticity) : bool := match a with AuthSigned _ => true | _ => false end.
Definition is_anonymous (a : MessageAuthenticity) : bool := match a with AuthAnonymous => true | _ => false end.

Inductive PublishConfig :=
  | Signing (keypair : ni_keypair) (author : PeerId) (inline_key : option bytes)
  | Author (p : PeerId)
  | RandomAuthor
  | Anonymous.

Definition get_own_id (pc : PublishConfig) : option PeerId :=
  match pc with Signing _ author _ => Some author | Author p => Some p | _ => None end.

Definition PublishConfig_from (a : MessageAuthenticity) : PublishConfig :=
  match a with
  | AuthSigned keypair =>
      let public_key := ni_public keypair in
      let key_enc := ni_encode public_key in
      Signing keypair (ni_peer_id public_key) (if decide (length key_enc ≤ 42) then None else Some key_enc)
  | AuthAuthor p => Author p
  | AuthRandomAuthor => RandomAuthor
  | AuthAnonymous => Anonymous
  end.

Inductive ValidationMode := Strict | Permissive | AnonymousMode | NoValidation.

Inductive ConfigError := SigningWithAnonymous | AuthorWithAnonymous | UnsignedWithStrict.

Definition validate_config (a : MessageAuthenticity) (mode : ValidationMode) : result ConfigError () :=
  match mode with
  | AnonymousMode =>
      if is_signing a then Err SigningWithAnonymous
      else if negb (is_anonymous a) then Err AuthorWithAnonymous else Ok ()
  | Strict => if negb (is_signing a) then Err UnsignedWithStrict else Ok ()
  | _ => Ok ()
  end.

Inductive PublishError := Duplicate | PublishSigningError | InsufficientPeers | MessageTooLarge | PublishTransformFailed.

(** [b"libp2p-pubsub:"]. *)
Definition SIGNING_PREFIX : bytes := b_str "libp2p-pubsub:".

(** What the signature covers: the message without signature and key. *)
Definition signature_bytes (m : ProtoPubMessage) : bytes :=
  SIGNING_PREFIX ++
  enc_message (mk_ProtoPubMessage (pm_from m) (pm_data m) (pm_seqno m) (pm_topic m) None None).

(** [build_raw_message]; [seq] and [random] are the random sequence number and the
    random peer id. *)
Definition build_raw_message (seq : Z) (random : PeerId) (pc : PublishConfig) (t : TopicHash) (d : bytes) :
    result PublishError Raw :=
  match pc with
  | Signing keypair author inline_key =>
      let m := mk_ProtoPubMessage (Some (to_bytes author)) (Some d) (Some (be_split 8 seq)) t None None in
      let? sig := ok_or PublishSigningError (ni_sign keypair (signature_bytes m)) in
      Ok (mk_Raw PeerId (Some author) d (Some seq) t (Some sig) inline_key true)
  | Author p => Ok (mk_Raw PeerId (Some p) d (Some seq) t None None true)
  | RandomAuthor => Ok (mk_Raw PeerId (Some random) d (Some seq) t None None true)
  | Anonymous => Ok (mk_Raw PeerId None d None t None None true)
  end.

(** ** Validation: [protocol.rs] *)

(** [verify_signature]; it panics for a peer id of fewer than two bytes. *)
Definition verify_signature (m : ProtoPubMessage) : option bool :=
  match pm_from m with
  | None => Some false
  | Some from =>
      match pid_from_bytes from with
      | None => Some false
      | Some source =>
          match pm_signature m with
          | None => Some false
          | Some signature =>
              let check (k : ni_pubkey) : bool :=
                if decide (source ≠ ni_peer_id k) then false else ni_verify k (signature_bytes m) signature in
              match key ← pm_key m; ni_decode key with
              | Some k => Some (check k)
              | None =>
                  if decide (length (to_bytes source) < 2) then None
                  else match ni_decode (drop 2 (to_bytes source)) with
                       | Some k => Some (check k)
                       | None => Some false
                       end
              end
          end
      end
  end.

Record Checks := mk_Checks { check_signature : bool; check_sequence_no : bool; check_source : bool }.

(** The checks a mode asks for, or the error of a field that must be absent. *)
Definition mode_checks (mode : ValidationMode) (m : ProtoPubMessage) : result ValidationError Checks :=
  match mode with
  | Strict => Ok (mk_Checks true true true)
  | Permissive =>
      Ok (mk_Checks (bool_decide (is_Some (pm_signature m))) (bool_decide (is_Some (pm_seqno m)))
            (bool_decide (is_Some (pm_from m))))
  | AnonymousMode =>
      if decide (is_Some (pm_signature m)) then Err SignaturePresent
      else if decide (is_Some (pm_seqno m)) then Err SequenceNumberPresent
      else if decide (is_Some (pm_from m)) then Err MessageSourcePresent
      else Ok (mk_Checks false false false)
  | NoValidation => Ok (mk_Checks false false false)
  end.

Definition invalid_message (m : ProtoPubMessage) (seq : option Z) (sig : option bytes) : Raw :=
  mk_Raw PeerId None (default [] (pm_data m)) seq (pm_topic m) sig (pm_key m) false.

Definition check_seqno (m : ProtoPubMessage) : result ValidationError (option Z) :=
  match pm_seqno m with
  | Some [] => Ok None
  | Some bs => if decide (length bs ≠ 8) then Err InvalidSequenceNumber else Ok (Some (be_combine bs))
  | None => Err EmptySequenceNumber
  end.

Definition check_from (m : ProtoPubMessage) : result ValidationError (option PeerId) :=
  match pm_from m with
  | Some [] => Ok None
  | Some bs => let? p := ok_or InvalidPeerId (pid_from_bytes bs) in Ok (Some p)
  | None => Ok None
  end.

(** The body of the loop of [handle] over the published messages: a message, or an
    invalid one with its error; [None] is a panic. *)
Definition validate_publish (mode : ValidationMode) (m : ProtoPubMessage) : option (Raw + Raw * ValidationError) :=
  match mode_checks mode m with
  | Err e => Some (inr (invalid_message m None None, e))
  | Ok checks =>
      sig_ok ← (if check_signature checks then verify_signature m else Some true);
      if negb sig_ok then Some (inr (invalid_message m None None, InvalidSignature))
      else
        match (if check_sequence_no checks then check_seqno m else Ok None) with
        | Err e => Some (inr (invalid_message m None (pm_signature m), e))
        | Ok seq =>
            match (if check_source checks then check_from m else Ok None) with
            | Err e => Some (inr (invalid_message m seq (pm_signature m), e))
            | Ok src =>
                Some (inl (mk_Raw PeerId src (default [] (pm_data m)) seq (pm_topic m) (pm_signature m) (pm_key m) false))
            end
        end
  end.

Fixpoint validate_all (mode : ValidationMode) (ms : list ProtoPubMessage) : option (list Raw * list (Raw * ValidationError)) :=
  match ms with
  | [] => Some ([], [])
  | m :: ms =>
      v ← validate_publish mode m;
      '(valid, invalid) ← validate_all mode ms;
      Some (match v with inl r => (r :: valid, invalid) | inr x => (valid, x :: invalid) end)
  end.

Definition control_from_proto (c : ProtoControl) : list GossipsubControlAction :=
  ((λ i, IHave (default EmptyString (ih_topic_id i)) (ih_message_ids i)) <$> pc_ihave c) ++
  ((λ i, IWant (iw_message_ids i)) <$> pc_iwant c) ++
  ((λ g, Graft (default EmptyString (gr_topic_id g))) <$> pc_graft c) ++
  ((λ p, Prune (default EmptyString (pr_topic_id p))
           (omap (λ i, Some <$> (id ← pi_peer_id i; pid_from_bytes id)) (pr_peers p)) (pr_backoff p)) <$> pc_prune c).

Definition sub_from_proto (s : ProtoSubOpts) : GossipsubSubscription :=
  mk_Subscription (if decide (so_subscribe s = Some true) then Subscribe else Unsubscribe)
    (default EmptyString (so_topic_id s)).

(** The event [handle] makes of a decoded RPC. *)
Definition handle_rpc (mode : ValidationMode) (r : ProtoRpc) :
    option (GossipsubRpc * list (Raw * ValidationError)) :=
  '(valid, invalid) ← validate_all mode (pr_publish r);
  Some (mk_GossipsubRpc valid (sub_from_proto <$> pr_subscriptions r)
          (match pr_control r with Some c => control_from_proto c | None => [] end), invalid).

(** ** Fragmentation: [fragment_message] *)

(** [1.05] as a 64-bit float. *)
Definition f64_1_05 : f64 := S754_finite false 4728779608739021 (-52).

Definition new_rpc : ProtoRpc := mk_ProtoRpc [] [] None.

(** The list of RPCs, the last one apart. *)
Abbreviation Fragments := (list ProtoRpc * ProtoRpc)%type.

(** [create_or_add_rpc]. *)
Definition create_or_add_rpc (max : Z) (size : Z) (fs : Fragments) : Fragments :=
  let '(done, cur) := fs in
  if (max <? encoded_len (enc_rpc cur) + f64_to_usize (f64_of_Z size * f64_1_05)%f64)%Z && bool_decide (cur ≠ new_rpc)
  then (done ++ [cur], new_rpc) else (done, cur).

(** [add_item], for an object of some size and its insertion into an RPC. *)
Definition add_item (max : Z) (size : Z) (push : ProtoRpc → ProtoRpc) (fs : Fragments) : result PublishError Fragments :=
  if (max <? size + 2)%Z then Err MessageTooLarge
  else let '(done, cur) := create_or_add_rpc max size fs in Ok (done, push cur).

(** The same for the parts of a control message, whose size is not checked. *)
Definition add_control (max : Z) (size : Z) (push : ProtoRpc → ProtoRpc) (fs : Fragments) : Fragments :=
  let '(done, cur) := create_or_add_rpc max size fs in (done, push cur).

Definition push_publish (m : ProtoPubMessage) (r : ProtoRpc) : ProtoRpc :=
  mk_ProtoRpc (pr_subscriptions r) (pr_publish r ++ [m]) (pr_control r).
Definition push_subscription (s : ProtoSubOpts) (r : ProtoRpc) : ProtoRpc :=
  mk_ProtoRpc (pr_subscriptions r ++ [s]) (pr_publish r) (pr_control r).

Definition empty_control : ProtoControl := mk_ProtoControl [] [] [] [].

(** [control.get_or_insert_with(empty_control)] and an insertion. *)
Definition push_part (f : ProtoControl → ProtoControl) (r : ProtoRpc) : ProtoRpc :=
  mk_ProtoRpc (pr_subscriptions r) (pr_publish r) (Some (f (default empty_control (pr_control r)))).

Definition push_ihave (x : ProtoIHave) (c : ProtoControl) : ProtoControl :=
  mk_ProtoControl (pc_ihave c ++ [x]) (pc_iwant c) (pc_graft c) (pc_prune c).
Definition push_iwant (x : ProtoIWant) (c : ProtoControl) : ProtoControl :=
  mk_ProtoControl (pc_ihave c) (pc_iwant c ++ [x]) (pc_graft c) (pc_prune c).
Definition push_graft (x : ProtoGraft) (c : ProtoControl) : ProtoControl :=
  mk_ProtoControl (pc_ihave c) (pc_iwant c) (pc_graft c ++ [x]) (pc_prune c).
Definition push_prune (x : ProtoPrune) (c : ProtoControl) : ProtoControl :=
  mk_ProtoControl (pc_ihave c) (pc_iwant c) (pc_graft c) (pc_prune c ++ [x]).

Definition fragment_control (max : Z) (c : ProtoControl) (fs : Fragments) : Fragments :=
  if (max <? encoded_len (enc_control c) + 2)%Z then
    let fs := foldl (λ fs x, add_control max (encoded_len (enc_ihave x)) (push_part (push_ihave x)) fs) fs (pc_ihave c) in
    let fs := foldl (λ fs x, add_control max (encoded_len (enc_iwant x)) (push_part (push_iwant x)) fs) fs (pc_iwant c) in
    let fs := foldl (λ fs x, add_control max (encoded_len (enc_graft x)) (push_part (push_graft x)) fs) fs (pc_graft c) in
    foldl (λ fs x, add_control max (encoded_len (enc_prune x)) (push_part (push_prune x)) fs) fs (pc_prune c)
  else
    let '(done, cur) := create_or_add_rpc max (encoded_len (enc_control c)) fs in
    (done, mk_ProtoRpc (pr_subscriptions cur) (pr_publish cur) (Some c)).

Fixpoint add_items (max : Z) (items : list (Z * (ProtoRpc → ProtoRpc))) (fs : Fragments) : result PublishError Fragments :=
  match items with
  | [] => Ok fs
  | (size, push) :: items => let? fs := add_item max size push fs in add_items max items fs
  end.

(** The RPCs [fragment_message] encodes. *)
Definition fragment_rpcs (max : Z) (r : ProtoRpc) : result PublishError (list ProtoRpc) :=
  if (encoded_len (enc_rpc r) <? max)%Z then Ok [r]
  else
    let? fs := add_items max ((λ m, (encoded_len (enc_message m), push_publish m)) <$> pr_publish r) ([], new_rpc) in
    let? fs := add_items max ((λ s, (encoded_len (enc_sub s), push_subscription s)) <$> pr_subscriptions r) fs in
    let fs := match pr_control r with Some c => fragment_control max c fs | None => fs end in
    Ok (fs.1 ++ [fs.2]).

Definition fragment_message (max : Z) (r : ProtoRpc) : result PublishError (list bytes) :=
  let? rpcs := fragment_rpcs max r in Ok (enc_rpc <$> rpcs).

(** *** Lemmas *)

(** The contents of a list of RPCs. *)
Definition control_of (r : ProtoRpc) : ProtoControl := default empty_control (pr_control r).

Record Contents := mk_Contents {
  ct_publish : list ProtoPubMessage;
  ct_subscriptions : list ProtoSubOpts;
  ct_ihave : list ProtoIHave;
  ct_iwant : list ProtoIWant;
  ct_graft : list ProtoGraft;
  ct_prune : list ProtoPrune
}.

Definition contents (l : list ProtoRpc) : Contents :=
  mk_Contents (l ≫= pr_publish) (l ≫= pr_subscriptions) (l ≫= λ r, pc_ihave (control_of r))
    (l ≫= λ r, pc_iwant (control_of r)) (l ≫= λ r, pc_graft (control_of r)) (l ≫= λ r, pc_prune (control_of r)).

Definition fragments (fs : Fragments) : list ProtoRpc := fs.1 ++ [fs.2].

Lemma create_or_add_contents max size fs : contents (fragments (create_or_add_rpc max size fs)) = contents (fragments fs).
Proof.
  destruct fs as [l cur]. unfold create_or_add_rpc. destruct (_ && _); [|done]. unfold contents, fragments. simpl.
  rewrite !bind_app, !bind_singleton. simpl. by rewrite !app_nil_r.
Qed.

(** [push] on the last RPC extends the contents by [ext]. *)
Definition extends (push : ProtoRpc → ProtoRpc) (ext : Contents → Contents) : Prop :=
  ∀ l r, contents (fragments (l, push r)) = ext (contents (fragments (l, r))).

Definition ext_publish ms c :=
  mk_Contents (ct_publish c ++ ms) (ct_subscriptions c) (ct_ihave c) (ct_iwant c) (ct_graft c) (ct_prune c).
Definition ext_subscriptions ss c :=
  mk_Contents (ct_publish c) (ct_subscriptions c ++ ss) (ct_ihave c) (ct_iwant c) (ct_graft c) (ct_prune c).
Definition ext_control (x : ProtoControl) c :=
  mk_Contents (ct_publish c) (ct_subscriptions c) (ct_ihave c ++ pc_ihave x) (ct_iwant c ++ pc_iwant x)
    (ct_graft c ++ pc_graft x) (ct_prune c ++ pc_prune x).

Local Ltac contents_step :=
  intros l r; unfold contents, fragments, ext_publish, ext_subscriptions, ext_control; simpl;
  rewrite !bind_app, !bind_singleton; simpl; by rewrite ?app_assoc, ?app_nil_r.

Lemma extends_publish m : extends (push_publish m) (ext_publish [m]).
Proof. contents_step. Qed.
Lemma extends_subscription s : extends (push_subscription s) (ext_subscriptions [s]).
Proof. contents_step. Qed.
Lemma extends_ihave x : extends (push_part (push_ihave x)) (ext_control (mk_ProtoControl [x] [] [] [])).
Proof. contents_step. Qed.
Lemma extends_iwant x : extends (push_part (push_iwant x)) (ext_control (mk_ProtoControl [] [x] [] [])).
Proof. contents_step. Qed.
Lemma extends_graft x : extends (push_part (push_graft x)) (ext_control (mk_ProtoControl [] [] [x] [])).
Proof. contents_step. Qed.
Lemma extends_prune x : extends (push_part (push_prune x)) (ext_control (mk_ProtoControl [] [] [] [x])).
Proof. contents_step. Qed.

Lemma add_control_contents max size push ext fs :
  extends push ext → contents (fragments (add_control max size push fs)) = ext (contents (fragments fs)).
Proof.
  intros Hp. rewrite <-(create_or_add_contents max size fs). unfold add_control.
  destruct (create_or_add_rpc max size fs) as [l cur]. apply Hp.
Qed.

Lemma foldl_control_contents {A} max (size : A → Z) push ext xs fs :
  (∀ x, extends (push x) (ext x)) →
  contents (fragments (foldl (λ fs x, add_control max (size x) (push x) fs) fs xs)) =
    foldl (λ c x, ext x c) (contents (fragments fs)) xs.
Proof.
  intros Hp. revert fs. induction xs as [|x xs IH]; intros fs; [done|]. cbn [foldl].
  by rewrite IH, (add_control_contents _ _ _ _ _ (Hp x)).
Qed.

Lemma foldl_ext {A} (ext : list A → Contents → Contents) xs c :
  (∀ c, ext [] c = c) → (∀ l l' c, ext l' (ext l c) = ext (l ++ l') c) →
  foldl (λ c x, ext [x] c) c xs = ext xs c.
Proof.
  intros Hnil Happ. revert c. induction xs as [|x xs IH]; intros c; [done|]. cbn [foldl]. by rewrite IH, Happ.
Qed.

Lemma add_items_contents {A} max (size : A → Z) push (ext : list A → Contents → Contents) xs fs fs' :
  (∀ c, ext [] c = c) → (∀ l l' c, ext l' (ext l c) = ext (l ++ l') c) → (∀ x, extends (push x) (ext [x])) →
  add_items max ((λ x, (size x, push x)) <$> xs) fs = Ok fs' → contents (fragments fs') = ext xs (contents (fragments fs)).
Proof.
  intros Hnil Happ Hp. revert fs. induction xs as [|x xs IH]; intros fs; cbn [fmap list_fmap add_items].
  { intros [= <-]. by rewrite Hnil. }
  unfold add_item. destruct (max <? size x + 2)%Z; [done|].
  pose proof (create_or_add_contents max (size x) fs) as Hc.
  destruct (create_or_add_rpc max (size x) fs) as [l cur]. cbn [result_bind]. intros ->%IH.
  by rewrite (Hp x), Hc, Happ.
Qed.

Lemma add_items_ok {A} max (size : A → Z) push xs fs :
  (∃ fs', add_items max ((λ x, (size x, push x)) <$> xs) fs = Ok fs') ↔ Forall (λ x, size x + 2 ≤ max)%Z xs.
Proof.
  revert fs. induction xs as [|x xs IH]; intros fs; cbn [fmap list_fmap add_items]; [by split; eauto|].
  rewrite Forall_cons. unfold add_item. destruct (Z.ltb_spec max (size x + 2)).
  { split; [by intros [? ?]|lia]. }
  destruct (create_or_add_rpc max (size x) fs) as [l cur]. cbn [result_bind].
  setoid_rewrite IH. split; [by split|by intros [_ ?]].
Qed.

(** No control message before the last stage. *)
Definition no_control (fs : Fragments) : Prop := Forall (λ r, pr_control r = None) (fragments fs).

Lemma create_or_add_no_control max size fs : no_control fs → no_control (create_or_add_rpc max size fs).
Proof.
  destruct fs as [l cur]. unfold no_control, fragments, create_or_add_rpc. destruct (_ && _); [|done]. simpl.
  rewrite !Forall_app, !Forall_singleton. naive_solver.
Qed.

Lemma add_items_no_control {A} max (size : A → Z) push xs fs fs' :
  (∀ x r, pr_control (push x r) = pr_control r) → no_control fs →
  add_items max ((λ x, (size x, push x)) <$> xs) fs = Ok fs' → no_control fs'.
Proof.
  intros Hp. revert fs. induction xs as [|x xs IH]; intros fs Hfs; cbn [fmap list_fmap add_items]; [by intros [= <-]|].
  unfold add_item. destruct (max <? size x + 2)%Z; [done|].
  apply (create_or_add_no_control max (size x)) in Hfs.
  destruct (create_or_add_rpc max (size x) fs) as [l cur]. cbn [result_bind]. apply IH.
  revert Hfs. unfold no_control, fragments. simpl. rewrite !Forall_app, !Forall_singleton, Hp. done.
Qed.

Local Ltac ext_side :=
  intros; unfold ext_publish, ext_subscriptions, ext_control;
  repeat match goal with c : Contents |- _ => destruct c end; simpl; by rewrite ?app_nil_r, ?app_assoc.

Lemma fragment_control_contents max c fs :
  no_control fs → contents (fragments (fragment_control max c fs)) = ext_control c (contents (fragments fs)).
Proof.
  intros Hfs. unfold fragment_control. destruct (_ <? _)%Z.
  - rewrite (foldl_control_contents max _ _ (λ x, ext_control (mk_ProtoControl [] [] [] [x])) _ _ extends_prune).
    rewrite (foldl_control_contents max _ _ (λ x, ext_control (mk_ProtoControl [] [] [x] [])) _ _ extends_graft).
    rewrite (foldl_control_contents max _ _ (λ x, ext_control (mk_ProtoControl [] [x] [] [])) _ _ extends_iwant).
    rewrite (foldl_control_contents max _ _ (λ x, ext_control (mk_ProtoControl [x] [] [] [])) _ _ extends_ihave).
    rewrite (foldl_ext (λ xs, ext_control (mk_ProtoControl xs [] [] []))) by ext_side.
    rewrite (foldl_ext (λ xs, ext_control (mk_ProtoControl [] xs [] []))) by ext_side.
    rewrite (foldl_ext (λ xs, ext_control (mk_ProtoControl [] [] xs []))) by ext_side.
    rewrite (foldl_ext (λ xs, ext_control (mk_ProtoControl [] [] [] xs))) by ext_side.
    unfold ext_control. simpl. by rewrite !app_nil_r.
  - rewrite <-(create_or_add_contents max (encoded_len (enc_control c)) fs).
    apply (create_or_add_no_control max (encoded_len (enc_control c))) in Hfs.
    destruct (create_or_add_rpc max _ fs) as [l cur]. unfold no_control, fragments in *. simpl in *.
    apply Forall_app in Hfs as [_ Hcur]. apply (Forall_cons_1 _ _ []) in Hcur as [Hcur _].
    unfold contents, ext_control, control_of. simpl. rewrite !bind_app, !bind_singleton. rewrite Hcur. simpl.
    by rewrite ?app_nil_r.
Qed.

Lemma fragment_rpcs_contents max r rpcs : fragment_rpcs max r = Ok rpcs → contents rpcs = contents [r].
Proof.
  unfold fragment_rpcs. destruct (_ <? _)%Z; [by intros [= <-]|].
  destruct (add_items max _ ([], new_rpc)) as [fs1|e] eqn:H1; cbn [result_bind]; [|done].
  destruct (add_items max _ fs1) as [fs2|e] eqn:H2; cbn [result_bind]; [|done]. intros [= <-].
  assert (Hn1 : no_control fs1).
  { eapply (add_items_no_control max _ _ _ ([], new_rpc)); [|by repeat constructor|exact H1]. done. }
  assert (Hn2 : no_control fs2) by (by eapply add_items_no_control; [|exact Hn1|exact H2]).
  apply (add_items_contents max _ _ ext_publish) in H1; [|ext_side|ext_side|apply extends_publish].
  apply (add_items_contents max _ _ ext_subscriptions) in H2; [|ext_side|ext_side|apply extends_subscription].
  destruct (pr_control r) as [c|] eqn:Hc.
  - change (_ ++ _) with (fragments (fragment_control max c fs2)). rewrite fragment_control_contents, H2, H1 by done.
    unfold contents, ext_control, ext_subscriptions, ext_publish, control_of. simpl. rewrite Hc. simpl. by rewrite !app_nil_r.
  - change (_ ++ _) with (fragments fs2). rewrite H2, H1.
    unfold contents, ext_subscriptions, ext_publish, control_of. simpl. rewrite Hc. simpl. by rewrite !app_nil_r.
Qed.

(** [C30] An RPC that is too large to be sent as it is is split into RPCs that together
    hold exactly its messages, subscriptions and control messages, each in its
    order; it fails exactly when one message or subscription alone does not fit. *)
Theorem fragments_complete max r :
  (∀ rpcs, fragment_rpcs max r = Ok rpcs → contents rpcs = contents [r]) ∧
  ((∃ rpcs, fragment_rpcs max r = Ok rpcs) ↔
    (encoded_len (enc_rpc r) < max)%Z ∨
    (Forall (λ m, encoded_len (enc_message m) + 2 ≤ max)%Z (pr_publish r) ∧
     Forall (λ s, encoded_len (enc_sub s) + 2 ≤ max)%Z (pr_subscriptions r))).
Proof.
  split; [apply fragment_rpcs_contents|]. unfold fragment_rpcs.
  destruct (Z.ltb_spec (encoded_len (enc_rpc r)) max) as [Hlt|Hge]; [by split; [left|eauto]|].
  pose proof (add_items_ok max (λ m, encoded_len (enc_message m)) push_publish (pr_publish r) ([], new_rpc)) as Hpub.
  destruct (add_items max _ ([], new_rpc)) as [fs1|e] eqn:H1; cbn [result_bind].
  2: { split; [by intros [? ?]|]. intros [?|[[? ?]%Hpub _]]; [lia|done]. }
  pose proof (add_items_ok max (λ s, encoded_len (enc_sub s)) push_subscription (pr_subscriptions r) fs1) as Hsub.
  destruct (add_items max _ fs1) as [fs2|e] eqn:H2; cbn [result_bind].
  2: { split; [by intros [? ?]|]. intros [?|[_ [? ?]%Hsub]]; [lia|done]. }
  split; [intros _; right; split; [apply Hpub|apply Hsub]; by eauto|by eauto].
Qed.

Context `{!PeerIdLaws PeerId} `{!NodeIdentityLaws PeerId}.

Lemma verify_signature_total m : ∃ b, verify_signature m = Some b.
Proof.
  unfold verify_signature. destruct (pm_from m); [|by eauto]. destruct (pid_from_bytes _) as [src|]; [|by eauto].
  destruct (pm_signature m); [|by eauto]. destruct (key ← pm_key m; ni_decode key); [by eauto|].
  rewrite decide_False by (pose proof (ni_bytes_long src); lia).
  destruct (ni_decode _); by eauto.
Qed.

Lemma validate_publish_total mode m : ∃ v, validate_publish mode m = Some v.
Proof.
  unfold validate_publish. destruct (mode_checks mode m) as [c|]; [|by eauto].
  destruct (verify_signature_total m) as [b Hb].
  destruct (check_signature c); rewrite ?Hb; cbn [mbind option_bind];
    repeat case_match; by eauto.
Qed.

(** The handler never panics, and every received message is either passed on or
    reported as invalid, in order. *)
Lemma validate_all_total mode ms :
  ∃ valid invalid, validate_all mode ms = Some (valid, invalid) ∧ length valid + length invalid = length ms.
Proof.
  induction ms as [|m ms (valid&invalid&IH&Hlen)]; [by exists [], []|]. cbn [validate_all].
  destruct (validate_publish_total mode m) as [v ->]. rewrite IH. simpl. destruct v; do 2 eexists; (split; [done|simpl; lia]).
Qed.

Lemma handle_rpc_total mode r : is_Some (handle_rpc mode r).
Proof. unfold handle_rpc. destruct (validate_all_total mode (pr_publish r)) as (?&?&->&_). by eexists. Qed.

Lemma check_seqno_split m seq : (0 ≤ seq < 2 ^ 64)%Z → pm_seqno m = Some (be_split 8 seq) → check_seqno m = Ok (Some seq).
Proof.
  intros Hseq Hm. unfold check_seqno. rewrite Hm. destruct (be_split 8 seq) as [|b bs] eqn:Hs.
  { apply (f_equal length) in Hs. by rewrite length_be_split in Hs. }
  rewrite <-Hs, decide_False by (rewrite length_be_split; lia). by rewrite be_combine_split_small.
Qed.

Lemma check_from_to m p : pm_from m = Some (to_bytes p) → check_from m = Ok (Some p).
Proof.
  intros Hm. unfold check_from. rewrite Hm. destruct (to_bytes p) as [|b bs] eqn:Hp; [by apply pid_to_bytes_nonempty in Hp|].
  rewrite <-Hp. by rewrite pid_from_to.
Qed.

(** A message signed with the key of its author verifies. *)
Lemma verify_signature_signed kp d seq t sig :
  let author := ni_peer_id (ni_public kp) in
  let key_enc := ni_encode (ni_public kp) in
  let m := mk_ProtoPubMessage (Some (to_bytes author)) (Some d) (Some (be_split 8 seq)) t in
  ni_sign kp (signature_bytes (m None None)) = Some sig →
  verify_signature (m (Some sig) (if decide (length key_enc ≤ 42) then None else Some key_enc)) = Some true.
Proof.
  intros author key_enc m Hsig. unfold verify_signature. cbn [pm_from pm_signature pm_key m].
  rewrite pid_from_to. change (signature_bytes _) with (signature_bytes (m None None)).
  case_decide as Hl; cbn [mbind option_bind].
  - rewrite decide_False by (pose proof (ni_bytes_long author); lia). subst author. rewrite ni_inline by done.
    rewrite ni_decode_encode, decide_False by auto. by rewrite (ni_verify_sign _ _ _ Hsig).
  - subst key_enc. rewrite ni_decode_encode, decide_False by auto. by rewrite (ni_verify_sign _ _ _ Hsig).
Qed.

(** What a receiver in a mode keeps of a message. *)
Definition received_message (mode : ValidationMode) (m : Raw) : Raw :=
  match mode with
  | NoValidation => mk_Raw PeerId None (data m) None (topic m) (signature m) (key m) false
  | _ => mk_Raw PeerId (source m) (data m) (sequence_number m) (topic m) (signature m) (key m) false
  end.

Lemma unsigned_accepted mode p seq t d :
  let raw := mk_Raw PeerId (Some p) d (Some seq) t None None true in
  (0 ≤ seq < 2 ^ 64)%Z → mode ≠ Strict → mode ≠ AnonymousMode →
  validate_publish mode (message_to_proto raw) = Some (inl (received_message mode raw)).
Proof.
  intros raw Hseq Hs Ha. unfold validate_publish, message_to_proto.
  cbn [raw source data sequence_number topic signature key fmap option_fmap option_map].
  destruct mode; try done; cbn [mode_checks check_signature check_sequence_no check_source pm_signature pm_seqno pm_from];
    rewrite ?(bool_decide_true (is_Some (Some _))), ?(bool_decide_false (is_Some None)) by (done || by intros []);
    cbn [mbind option_bind negb]; by rewrite (check_seqno_split _ seq), (check_from_to _ p).
Qed.

Lemma built_accepted a mode seq random t d raw :
  (0 ≤ seq < 2 ^ 64)%Z → validate_config a mode = Ok () →
  build_raw_message seq random (PublishConfig_from a) t d = Ok raw →
  validate_publish mode (message_to_proto raw) = Some (inl (received_message mode raw)).
Proof.
  intros Hseq Hcfg Hraw.
  destruct a as [kp|p| |]; cbn [PublishConfig_from build_raw_message] in Hraw.
  - destruct (ni_sign kp _) as [sig|] eqn:Hsig; [|done]. injection Hraw as <-.
    pose proof (verify_signature_signed kp d seq t sig Hsig) as Hver.
    unfold validate_publish, message_to_proto. cbn [source data sequence_number topic signature key fmap option_fmap option_map].
    destruct mode; try done; cbn [mode_checks check_signature check_sequence_no check_source pm_signature pm_seqno pm_from];
      rewrite ?bool_decide_true by done; rewrite Hver; cbn [mbind option_bind negb];
      by rewrite (check_seqno_split _ seq), (check_from_to _ (ni_peer_id (ni_public kp))).
  - injection Hraw as <-. apply unsigned_accepted; [done| |]; by intros ->.
  - injection Hraw as <-. apply unsigned_accepted; [done| |]; by intros ->.
  - injection Hraw as <-. by destruct mode.
Qed.

(** A configuration that passes [validate_config] never rejects what it publishes:
    a message built with the configured authenticity, sent as an RPC and handled
    by a peer with the configured validation mode is accepted, with its author,
    sequence number, data, topic, signature and key. *)
Theorem published_messages_accepted a mode seq random t d raw :
  (0 ≤ seq < 2 ^ 64)%Z → validate_config a mode = Ok () →
  build_raw_message seq random (PublishConfig_from a) t d = Ok raw →
  handle_rpc mode (rpc_into_protobuf (mk_GossipsubRpc [raw] [] [])) =
    Some (mk_GossipsubRpc [received_message mode raw] [] [], []).
Proof.
  intros Hseq Hcfg Hraw. unfold handle_rpc. cbn [rpc_into_protobuf pr_publish fmap list_fmap messages].
  cbn [validate_all]. by rewrite (built_accepted a mode seq random t d raw).
Qed.

(** *** Control messages and subscriptions *)

(** A prune without the peers that have no id. *)
Definition with_known_peers (a : GossipsubControlAction) : GossipsubControlAction :=
  match a with Prune t peers backoff => Prune t (Some <$> omap id peers) backoff | _ => a end.

Lemma omap_peers (peers : list (option PeerId)) :
  omap (λ i, Some <$> (id ← pi_peer_id i; pid_from_bytes id))
    ((λ p : option PeerId, mk_ProtoPeerInfo (to_bytes <$> p) None) <$> peers) = Some <$> omap id peers.
Proof.
  induction peers as [|[p|] peers IH]; [done| |]; simpl; [|exact IH]. rewrite pid_from_to. simpl. by f_equal.
Qed.

Lemma control_push c a :
  control_from_proto (push_control c a) ≡ₚ control_from_proto c ++ [with_known_peers a].
Proof.
  unfold control_from_proto. destruct a as [t ids|ids|t|t peers backoff]; simpl; rewrite !fmap_app; simpl.
  1-3: rewrite <-!app_assoc; solve_Permutation.
  rewrite omap_peers, !app_assoc. done.
Qed.

Lemma control_roundtrip c actions :
  control_from_proto (foldl push_control c actions) ≡ₚ control_from_proto c ++ (with_known_peers <$> actions).
Proof.
  revert c. induction actions as [|a actions IH]; intros c; simpl; [by rewrite app_nil_r|].
  rewrite IH, control_push, <-app_assoc. done.
Qed.

Lemma sub_roundtrip s : sub_from_proto (sub_to_proto s) = s.
Proof. by destruct s as [[] t]. Qed.

(** An RPC without messages arrives with its subscriptions in order and all its
    control messages, grouped by their kind. *)
Lemma rpc_control_roundtrip mode subs actions :
  ∃ actions', handle_rpc mode (rpc_into_protobuf (mk_GossipsubRpc [] subs actions)) =
    Some (mk_GossipsubRpc [] subs actions', []) ∧ actions' ≡ₚ (with_known_peers <$> actions).
Proof.
  unfold handle_rpc. simpl. eexists. split.
  - do 2 f_equal. f_equal. clear. induction subs as [|s subs IH]; [done|]. cbn [fmap list_fmap].
    by rewrite IH, sub_roundtrip.
  - destruct actions as [|a actions]; [done|]. exact (control_roundtrip (mk_ProtoControl [] [] [] []) (a :: actions)).
Qed.
End signing.
End rpc.
Arguments GossipsubMessage : clear implicits.
Arguments GossipsubControlAction : clear implicits.
Arguments GossipsubRpc : clear implicits.

(** ** A concrete exchange *)

#[local] Existing Instances toy_scheme toy_scheme_laws toy_proto toy_proto_laws toy_multihash toy_multihash_laws.
#[local] Existing Instances PeerId_PeerIdType PeerId_PeerIdLaws.

#[local] Instance toy_identity : NodeIdentity PeerId := PeerId_NodeIdentity toy_scheme toy_scheme toy_scheme.
#[local] Instance toy_identity_laws : NodeIdentityLaws PeerId := PeerId_NodeIdentityLaws toy_scheme toy_scheme toy_scheme.

#[local] Instance toy_codec : RpcCodec := {|
  enc_message m := default [] (pm_data m);
  enc_sub _ := [];
  enc_ihave _ := [];
  enc_iwant _ := [];
  enc_graft _ := [];
  enc_prune _ := [];
  enc_control _ := [];
  enc_rpc _ := []
|}.

Lemma published_messages_accepted_witness :
  let kp := KpEd25519 toy_scheme toy_scheme toy_scheme [Byte.x07] : ni_keypair in
  let author := ni_peer_id (ni_public kp) in
  ∃ raw, build_raw_message 5 author (PublishConfig_from (AuthSigned kp)) "news" [Byte.x2a] = Ok raw ∧
    handle_rpc Strict (rpc_into_protobuf (mk_GossipsubRpc [raw] [] [])) =
      Some (mk_GossipsubRpc [received_message Strict raw] [] [], []).
Proof.
  intros kp author. eexists. split; [reflexivity|].
  by apply (published_messages_accepted (AuthSigned kp) Strict 5 author "news" [Byte.x2a]).
Defined.
