(* ===== verification/GossipConfig.v ===== *)
(** * Configuration of gossipsub

    [protocols/gossipsub/src/config.rs]: the configuration, the calls of its
    builder, and the checks of [build].  The base58 encoder of the crate [bs58]
    is a parameter.  A message id function answers [None] when it panics. *)

From Stdlib Require Import ZArith Lia SpecFloat.
From stdpp Require Import strings pretty.
From S2P Require Import Prelude KadKey RecordStore KadProto Identity GossipCache Float64 GossipRpc.

Local Open Scope nat_scope.

Local Abbreviation Duration := Z.

(** [PeerKind] of [types.rs], with the conversions of [protocol.rs]. *)
Inductive PeerKind := Gossipsubv1_1 | GossipsubV1 | Floodsub | NotSupported.
#[global] Instance PeerKind_eq_dec : EqDecision PeerKind.
Proof. solve_decision. Defined.

Definition u64_of_kind (k : PeerKind) : Z :=
  match k with Gossipsubv1_1 => 11 | GossipsubV1 => 10 | Floodsub => 0 | NotSupported => 1001 end.

Definition kind_of_u64 (z : Z) : PeerKind :=
  if (z =? 11)%Z then Gossipsubv1_1 else if (z =? 10)%Z then GossipsubV1
  else if (z =? 0)%Z then Floodsub else NotSupported.

Lemma kind_of_u64_of_kind k : kind_of_u64 (u64_of_kind k) = k.
Proof. by destruct k. Qed.

Section config.
Context {PeerId : Type} `{!PeerIdType PeerId}.

Local Abbreviation Raw := (RawGossipsubMessage PeerId).
Local Abbreviation Message := (@GossipsubMessage PeerId).

(** [GossipsubConfig]. *)
Record GossipsubConfig := mk_GossipsubConfig {
  c_protocol_ids : list (bytes * Z);
  c_peer_id : PeerId;
  c_history_length : nat;
  c_history_gossip : nat;
  c_mesh_n : nat;
  c_mesh_n_low : nat;
  c_mesh_n_high : nat;
  c_retain_scores : nat;
  c_gossip_lazy : nat;
  c_gossip_factor : f64;
  c_heartbeat_initial_delay : Duration;
  c_heartbeat_interval : Duration;
  c_fanout_ttl : Duration;
  c_check_explicit_peers_ticks : nat;
  c_max_transmit_size : Z;
  c_duplicate_cache_time : Duration;
  c_validate_messages : bool;
  c_validation_mode : ValidationMode;
  c_message_id_fn : Message → option MessageId;
  c_fast_message_id_fn : option (Raw → FastMessageId);
  c_allow_self_origin : bool;
  c_do_px : bool;
  c_prune_peers : nat;
  c_prune_backoff : Duration;
  c_backoff_slack : Z;
  c_flood_publish : bool;
  c_graft_flood_threshold : Duration;
  c_mesh_outbound_min : nat;
  c_opportunistic_graft_ticks : nat;
  c_opportunistic_graft_peers : nat;
  c_gossip_retransimission : Z;
  c_max_messages_per_rpc : option nat;
  c_max_ihave_length : nat;
  c_max_ihave_messages : nat;
  c_iwant_followup_time : Duration;
  c_support_floodsub : bool;
  c_published_message_ids_cache_time : Duration
}.

Definition message_id (c : GossipsubConfig) (m : Message) : option MessageId := c_message_id_fn c m.
Definition fast_message_id (c : GossipsubConfig) (m : Raw) : option FastMessageId :=
  (λ f, f m) <$> c_fast_message_id_fn c.

(** The setters. *)
Inductive BuilderCall :=
  | Set_history_length (v : nat)
  | Set_history_gossip (v : nat)
  | Set_mesh_n (v : nat)
  | Set_mesh_n_low (v : nat)
  | Set_mesh_n_high (v : nat)
  | Set_retain_scores (v : nat)
  | Set_gossip_lazy (v : nat)
  | Set_gossip_factor (v : f64)
  | Set_heartbeat_initial_delay (v : Duration)
  | Set_heartbeat_interval (v : Duration)
  | Set_check_explicit_peers_ticks (v : nat)
  | Set_fanout_ttl (v : Duration)
  | Set_max_transmit_size (v : Z)
  | Set_duplicate_cache_time (v : Duration)
  | Set_validate_messages
  | Set_validation_mode (v : ValidationMode)
  | Set_message_id_fn (v : Message → option MessageId)
  | Set_fast_message_id_fn (v : Raw → FastMessageId)
  | Set_do_px
  | Set_prune_peers (v : nat)
  | Set_prune_backoff (v : Duration)
  | Set_backoff_slack (v : Z)
  | Set_flood_publish (v : bool)
  | Set_graft_flood_threshold (v : Duration)
  | Set_mesh_outbound_min (v : nat)
  | Set_opportunistic_graft_ticks (v : nat)
  | Set_gossip_retransimission (v : Z)
  | Set_opportunistic_graft_peers (v : nat)
  | Set_max_messages_per_rpc (v : option nat)
  | Set_max_ihave_length (v : nat)
  | Set_max_ihave_messages (v : nat)
  | Set_allow_self_origin (v : bool)
  | Set_iwant_followup_time (v : Duration)
  | Set_support_floodsub
  | Set_published_message_ids_cache_time (v : Duration).

Definition builder_call (c : GossipsubConfig) (call : BuilderCall) : GossipsubConfig :=
  match call with
  | Set_history_length v =>
      mk_GossipsubConfig (c_protocol_ids c) (c_peer_id c) (v) (c_history_gossip c) (c_mesh_n c) (c_mesh_n_low
        c) (c_mesh_n_high c) (c_retain_scores c) (c_gossip_lazy c) (c_gossip_factor c)
        (c_heartbeat_initial_delay c) (c_heartbeat_interval c) (c_fanout_ttl c) (c_check_explicit_peers_ticks
        c) (c_max_transmit_size c) (c_duplicate_cache_time c) (c_validate_messages c) (c_validation_mode c)
        (c_message_id_fn c) (c_fast_message_id_fn c) (c_allow_self_origin c) (c_do_px c) (c_prune_peers c)
        (c_prune_backoff c) (c_backoff_slack c) (c_flood_publish c) (c_graft_flood_threshold c)
        (c_mesh_outbound_min c) (c_opportunistic_graft_ticks c) (c_opportunistic_graft_peers c)
        (c_gossip_retransimission c) (c_max_messages_per_rpc c) (c_max_ihave_length c) (c_max_ihave_messages
        c) (c_iwant_followup_time c) (c_support_floodsub c) (c_published_message_ids_cache_time c)
  | Set_history_gossip v =>
      mk_GossipsubConfig (c_protocol_ids c) (c_peer_id c) (c_history_length c) (v) (c_mesh_n c) (c_mesh_n_low
        c) (c_mesh_n_high c) (c_retain_scores c) (c_gossip_lazy c) (c_gossip_factor c)
        (c_heartbeat_initial_delay c) (c_heartbeat_interval c) (c_fanout_ttl c) (c_check_explicit_peers_ticks
        c) (c_max_transmit_size c) (c_duplicate_cache_time c) (c_validate_messages c) (c_validation_mode c)
        (c_message_id_fn c) (c_fast_message_id_fn c) (c_allow_self_origin c) (c_do_px c) (c_prune_peers c)
        (c_prune_backoff c) (c_backoff_slack c) (c_flood_publish c) (c_graft_flood_threshold c)
        (c_mesh_outbound_min c) (c_opportunistic_graft_ticks c) (c_opportunistic_graft_peers c)
        (c_gossip_retransimission c) (c_max_messages_per_rpc c) (c_max_ihave_length c) (c_max_ihave_messages
        c) (c_iwant_followup_time c) (c_support_floodsub c) (c_published_message_ids_cache_time c)
  | Set_mesh_n v =>
      mk_GossipsubConfig (c_protocol_ids c) (c_peer_id c) (c_history_length c) (c_history_gossip c) (v)
        (c_mesh_n_low c) (c_mesh_n_high c) (c_retain_scores c) (c_gossip_lazy c) (c_gossip_factor c)
        (c_heartbeat_initial_delay c) (c_heartbeat_interval c) (c_fanout_ttl c) (c_check_explicit_peers_ticks
        c) (c_max_transmit_size c) (c_duplicate_cache_time c) (c_validate_messages c) (c_validation_mode c)
        (c_message_id_fn c) (c_fast_message_id_fn c) (c_allow_self_origin c) (c_do_px c) (c_prune_peers c)
        (c_prune_backoff c) (c_backoff_slack c) (c_flood_publish c) (c_graft_flood_threshold c)
        (c_mesh_outbound_min c) (c_opportunistic_graft_ticks c) (c_opportunistic_graft_peers c)
        (c_gossip_retransimission c) (c_max_messages_per_rpc c) (c_max_ihave_length c) (c_max_ihave_messages
        c) (c_iwant_followup_time c) (c_support_floodsub c) (c_published_message_ids_cache_time c)
  | Set_mesh_n_low v =>
      mk_GossipsubConfig (c_protocol_ids c) (c_peer_id c) (c_history_length c) (c_history_gossip c) (c_mesh_n
        c) (v) (c_mesh_n_high c) (c_retain_scores c) (c_gossip_lazy c) (c_gossip_factor c)
        (c_heartbeat_initial_delay c) (c_heartbeat_interval c) (c_fanout_ttl c) (c_check_explicit_peers_ticks
        c) (c_max_transmit_size c) (c_duplicate_cache_time c) (c_validate_messages c) (c_validation_mode c)
        (c_message_id_fn c) (c_fast_message_id_fn c) (c_allow_self_origin c) (c_do_px c) (c_prune_peers c)
        (c_prune_backoff c) (c_backoff_slack c) (c_flood_publish c) (c_graft_flood_threshold c)
        (c_mesh_outbound_min c) (c_opportunistic_graft_ticks c) (c_opportunistic_graft_peers c)
        (c_gossip_retransimission c) (c_max_messages_per_rpc c) (c_max_ihave_length c) (c_max_ihave_messages
        c) (c_iwant_followup_time c) (c_support_floodsub c) (c_published_message_ids_cache_time c)
  | Set_mesh_n_high v =>
      mk_GossipsubConfig (c_protocol_ids c) (c_peer_id c) (c_history_length c) (c_history_gossip c) (c_mesh_n
        c) (c_mesh_n_low c) (v) (c_retain_scores c) (c_gossip_lazy c) (c_gossip_factor c)
        (c_heartbeat_initial_delay c) (c_heartbeat_interval c) (c_fanout_ttl c) (c_check_explicit_peers_ticks
        c) (c_max_transmit_size c) (c_duplicate_cache_time c) (c_validate_messages c) (c_validation_mode c)
        (c_message_id_fn c) (c_fast_message_id_fn c) (c_allow_self_origin c) (c_do_px c) (c_prune_peers c)
        (c_prune_backoff c) (c_backoff_slack c) (c_flood_publish c) (c_graft_flood_threshold c)
        (c_mesh_outbound_min c) (c_opportunistic_graft_ticks c) (c_opportunistic_graft_peers c)
        (c_gossip_retransimission c) (c_max_messages_per_rpc c) (c_max_ihave_length c) (c_max_ihave_messages
        c) (c_iwant_followup_time c) (c_support_floodsub c) (c_published_message_ids_cache_time c)
  | Set_retain_scores v =>
      mk_GossipsubConfig (c_protocol_ids c) (c_peer_id c) (c_history_length c) (c_history_gossip c) (c_mesh_n
        c) (c_mesh_n_low c) (c_mesh_n_high c) (v) (c_gossip_lazy c) (c_gossip_factor c)
        (c_heartbeat_initial_delay c) (c_heartbeat_interval c) (c_fanout_ttl c) (c_check_explicit_peers_ticks
        c) (c_max_transmit_size c) (c_duplicate_cache_time c) (c_validate_messages c) (c_validation_mode c)
        (c_message_id_fn c) (c_fast_message_id_fn c) (c_allow_self_origin c) (c_do_px c) (c_prune_peers c)
        (c_prune_backoff c) (c_backoff_slack c) (c_flood_publish c) (c_graft_flood_threshold c)
        (c_mesh_outbound_min c) (c_opportunistic_graft_ticks c) (c_opportunistic_graft_peers c)
        (c_gossip_retransimission c) (c_max_messages_per_rpc c) (c_max_ihave_length c) (c_max_ihave_messages
        c) (c_iwant_followup_time c) (c_support_floodsub c) (c_published_message_ids_cache_time c)
  | Set_gossip_lazy v =>
      mk_GossipsubConfig (c_protocol_ids c) (c_peer_id c) (c_history_length c) (c_history_gossip c) (c_mesh_n
        c) (c_mesh_n_low c) (c_mesh_n_high c) (c_retain_scores c) (v) (c_gossip_factor c)
        (c_heartbeat_initial_delay c) (c_heartbeat_interval c) (c_fanout_ttl c) (c_check_explicit_peers_ticks
        c) (c_max_transmit_size c) (c_duplicate_cache_time c) (c_validate_messages c) (c_validation_mode c)
        (c_message_id_fn c) (c_fast_message_id_fn c) (c_allow_self_origin c) (c_do_px c) (c_prune_peers c)
        (c_prune_backoff c) (c_backoff_slack c) (c_flood_publish c) (c_graft_flood_threshold c)
        (c_mesh_outbound_min c) (c_opportunistic_graft_ticks c) (c_opportunistic_graft_peers c)
        (c_gossip_retransimission c) (c_max_messages_per_rpc c) (c_max_ihave_length c) (c_max_ihave_messages
        c) (c_iwant_followup_time c) (c_support_floodsub c) (c_published_message_ids_cache_time c)
  | Set_gossip_factor v =>
      mk_GossipsubConfig (c_protocol_ids c) (c_peer_id c) (c_history_length c) (c_history_gossip c) (c_mesh_n
        c) (c_mesh_n_low c) (c_mesh_n_high c) (c_retain_scores c) (c_gossip_lazy c) (v)
        (c_heartbeat_initial_delay c) (c_heartbeat_interval c) (c_fanout_ttl c) (c_check_explicit_peers_ticks
        c) (c_max_transmit_size c) (c_duplicate_cache_time c) (c_validate_messages c) (c_validation_mode c)
        (c_message_id_fn c) (c_fast_message_id_fn c) (c_allow_self_origin c) (c_do_px c) (c_prune_peers c)
        (c_prune_backoff c) (c_backoff_slack c) (c_flood_publish c) (c_graft_flood_threshold c)
        (c_mesh_outbound_min c) (c_opportunistic_graft_ticks c) (c_opportunistic_graft_peers c)
        (c_gossip_retransimission c) (c_max_messages_per_rpc c) (c_max_ihave_length c) (c_max_ihave_messages
        c) (c_iwant_followup_time c) (c_support_floodsub c) (c_published_message_ids_cache_time c)
  | Set_heartbeat_initial_delay v =>
      mk_GossipsubConfig (c_protocol_ids c) (c_peer_id c) (c_history_length c) (c_history_gossip c) (c_mesh_n
        c) (c_mesh_n_low c) (c_mesh_n_high c) (c_retain_scores c) (c_gossip_lazy c) (c_gossip_factor c) (v)
        (c_heartbeat_interval c) (c_fanout_ttl c) (c_check_explicit_peers_ticks c) (c_max_transmit_size c)
        (c_duplicate_cache_time c) (c_validate_messages c) (c_validation_mode c) (c_message_id_fn c)
        (c_fast_message_id_fn c) (c_allow_self_origin c) (c_do_px c) (c_prune_peers c) (c_prune_backoff c)
        (c_backoff_slack c) (c_flood_publish c) (c_graft_flood_threshold c) (c_mesh_outbound_min c)
        (c_opportunistic_graft_ticks c) (c_opportunistic_graft_peers c) (c_gossip_retransimission c)
        (c_max_messages_per_rpc c) (c_max_ihave_length c) (c_max_ihave_messages c) (c_iwant_followup_time c)
        (c_support_floodsub c) (c_published_message_ids_cache_time c)
  | Set_heartbeat_interval v =>
      mk_GossipsubConfig (c_protocol_ids c) (c_peer_id c) (c_history_length c) (c_history_gossip c) (c_mesh_n
        c) (c_mesh_n_low c) (c_mesh_n_high c) (c_retain_scores c) (c_gossip_lazy c) (c_gossip_factor c)
        (c_heartbeat_initial_delay c) (v) (c_fanout_ttl c) (c_check_explicit_peers_ticks c)
        (c_max_transmit_size c) (c_duplicate_cache_time c) (c_validate_messages c) (c_validation_mode c)
        (c_message_id_fn c) (c_fast_message_id_fn c) (c_allow_self_origin c) (c_do_px c) (c_prune_peers c)
        (c_prune_backoff c) (c_backoff_slack c) (c_flood_publish c) (c_graft_flood_threshold c)
        (c_mesh_outbound_min c) (c_opportunistic_graft_ticks c) (c_opportunistic_graft_peers c)
        (c_gossip_retransimission c) (c_max_messages_per_rpc c) (c_max_ihave_length c) (c_max_ihave_messages
        c) (c_iwant_followup_time c) (c_support_floodsub c) (c_published_message_ids_cache_time c)
  | Set_check_explicit_peers_ticks v =>
      mk_GossipsubConfig (c_protocol_ids c) (c_peer_id c) (c_history_length c) (c_history_gossip c) (c_mesh_n
        c) (c_mesh_n_low c) (c_mesh_n_high c) (c_retain_scores c) (c_gossip_lazy c) (c_gossip_factor c)
        (c_heartbeat_initial_delay c) (c_heartbeat_interval c) (c_fanout_ttl c) (v) (c_max_transmit_size c)
        (c_duplicate_cache_time c) (c_validate_messages c) (c_validation_mode c) (c_message_id_fn c)
        (c_fast_message_id_fn c) (c_allow_self_origin c) (c_do_px c) (c_prune_peers c) (c_prune_backoff c)
        (c_backoff_slack c) (c_flood_publish c) (c_graft_flood_threshold c) (c_mesh_outbound_min c)
        (c_opportunistic_graft_ticks c) (c_opportunistic_graft_peers c) (c_gossip_retransimission c)
        (c_max_messages_per_rpc c) (c_max_ihave_length c) (c_max_ihave_messages c) (c_iwant_followup_time c)
        (c_support_floodsub c) (c_published_message_ids_cache_time c)
  | Set_fanout_ttl v =>
      mk_GossipsubConfig (c_protocol_ids c) (c_peer_id c) (c_history_length c) (c_history_gossip c) (c_mesh_n
        c) (c_mesh_n_low c) (c_mesh_n_high c) (c_retain_scores c) (c_gossip_lazy c) (c_gossip_factor c)
        (c_heartbeat_initial_delay c) (c_heartbeat_interval c) (v) (c_check_explicit_peers_ticks c)
        (c_max_transmit_size c) (c_duplicate_cache_time c) (c_validate_messages c) (c_validation_mode c)
        (c_message_id_fn c) (c_fast_message_id_fn c) (c_allow_self_origin c) (c_do_px c) (c_prune_peers c)
        (c_prune_backoff c) (c_backoff_slack c) (c_flood_publish c) (c_graft_flood_threshold c)
        (c_mesh_outbound_min c) (c_opportunistic_graft_ticks c) (c_opportunistic_graft_peers c)
        (c_gossip_retransimission c) (c_max_messages_per_rpc c) (c_max_ihave_length c) (c_max_ihave_messages
        c) (c_iwant_followup_time c) (c_support_floodsub c) (c_published_message_ids_cache_time c)
  | Set_max_transmit_size v =>
      mk_GossipsubConfig (c_protocol_ids c) (c_peer_id c) (c_history_length c) (c_history_gossip c) (c_mesh_n
        c) (c_mesh_n_low c) (c_mesh_n_high c) (c_retain_scores c) (c_gossip_lazy c) (c_gossip_factor c)
        (c_heartbeat_initial_delay c) (c_heartbeat_interval c) (c_fanout_ttl c) (c_check_explicit_peers_ticks
        c) (v) (c_duplicate_cache_time c) (c_validate_messages c) (c_validation_mode c) (c_message_id_fn c)
        (c_fast_message_id_fn c) (c_allow_self_origin c) (c_do_px c) (c_prune_peers c) (c_prune_backoff c)
        (c_backoff_slack c) (c_flood_publish c) (c_graft_flood_threshold c) (c_mesh_outbound_min c)
        (c_opportunistic_graft_ticks c) (c_opportunistic_graft_peers c) (c_gossip_retransimission c)
        (c_max_messages_per_rpc c) (c_max_ihave_length c) (c_max_ihave_messages c) (c_iwant_followup_time c)
        (c_support_floodsub c) (c_published_message_ids_cache_time c)
  | Set_duplicate_cache_time v =>
      mk_GossipsubConfig (c_protocol_ids c) (c_peer_id c) (c_history_length c) (c_history_gossip c) (c_mesh_n
        c) (c_mesh_n_low c) (c_mesh_n_high c) (c_retain_scores c) (c_gossip_lazy c) (c_gossip_factor c)
        (c_heartbeat_initial_delay c) (c_heartbeat_interval c) (c_fanout_ttl c) (c_check_explicit_peers_ticks
        c) (c_max_transmit_size c) (v) (c_validate_messages c) (c_validation_mode c) (c_message_id_fn c)
        (c_fast_message_id_fn c) (c_allow_self_origin c) (c_do_px c) (c_prune_peers c) (c_prune_backoff c)
        (c_backoff_slack c) (c_flood_publish c) (c_graft_flood_threshold c) (c_mesh_outbound_min c)
        (c_opportunistic_graft_ticks c) (c_opportunistic_graft_peers c) (c_gossip_retransimission c)
        (c_max_messages_per_rpc c) (c_max_ihave_length c) (c_max_ihave_messages c) (c_iwant_followup_time c)
        (c_support_floodsub c) (c_published_message_ids_cache_time c)
  | Set_validate_messages =>
      mk_GossipsubConfig (c_protocol_ids c) (c_peer_id c) (c_history_length c) (c_history_gossip c) (c_mesh_n
        c) (c_mesh_n_low c) (c_mesh_n_high c) (c_retain_scores c) (c_gossip_lazy c) (c_gossip_factor c)
        (c_heartbeat_initial_delay c) (c_heartbeat_interval c) (c_fanout_ttl c) (c_check_explicit_peers_ticks
        c) (c_max_transmit_size c) (c_duplicate_cache_time c) (true) (c_validation_mode c) (c_message_id_fn c)
        (c_fast_message_id_fn c) (c_allow_self_origin c) (c_do_px c) (c_prune_peers c) (c_prune_backoff c)
        (c_backoff_slack c) (c_flood_publish c) (c_graft_flood_threshold c) (c_mesh_outbound_min c)
        (c_opportunistic_graft_ticks c) (c_opportunistic_graft_peers c) (c_gossip_retransimission c)
        (c_max_messages_per_rpc c) (c_max_ihave_length c) (c_max_ihave_messages c) (c_iwant_followup_time c)
        (c_support_floodsub c) (c_published_message_ids_cache_time c)
  | Set_validation_mode v =>
      mk_GossipsubConfig (c_protocol_ids c) (c_peer_id c) (c_history_length c) (c_history_gossip c) (c_mesh_n
        c) (c_mesh_n_low c) (c_mesh_n_high c) (c_retain_scores c) (c_gossip_lazy c) (c_gossip_factor c)
        (c_heartbeat_initial_delay c) (c_heartbeat_interval c) (c_fanout_ttl c) (c_check_explicit_peers_ticks
        c) (c_max_transmit_size c) (c_duplicate_cache_time c) (c_validate_messages c) (v) (c_message_id_fn c)
        (c_fast_message_id_fn c) (c_allow_self_origin c) (c_do_px c) (c_prune_peers c) (c_prune_backoff c)
        (c_backoff_slack c) (c_flood_publish c) (c_graft_flood_threshold c) (c_mesh_outbound_min c)
        (c_opportunistic_graft_ticks c) (c_opportunistic_graft_peers c) (c_gossip_retransimission c)
        (c_max_messages_per_rpc c) (c_max_ihave_length c) (c_max_ihave_messages c) (c_iwant_followup_time c)
        (c_support_floodsub c) (c_published_message_ids_cache_time c)
  | Set_message_id_fn v =>
      mk_GossipsubConfig (c_protocol_ids c) (c_peer_id c) (c_history_length c) (c_history_gossip c) (c_mesh_n
        c) (c_mesh_n_low c) (c_mesh_n_high c) (c_retain_scores c) (c_gossip_lazy c) (c_gossip_factor c)
        (c_heartbeat_initial_delay c) (c_heartbeat_interval c) (c_fanout_ttl c) (c_check_explicit_peers_ticks
        c) (c_max_transmit_size c) (c_duplicate_cache_time c) (c_validate_messages c) (c_validation_mode c)
        (v) (c_fast_message_id_fn c) (c_allow_self_origin c) (c_do_px c) (c_prune_peers c) (c_prune_backoff c)
        (c_backoff_slack c) (c_flood_publish c) (c_graft_flood_threshold c) (c_mesh_outbound_min c)
        (c_opportunistic_graft_ticks c) (c_opportunistic_graft_peers c) (c_gossip_retransimission c)
        (c_max_messages_per_rpc c) (c_max_ihave_length c) (c_max_ihave_messages c) (c_iwant_followup_time c)
        (c_support_floodsub c) (c_published_message_ids_cache_time c)
  | Set_fast_message_id_fn v =>
      mk_GossipsubConfig (c_protocol_ids c) (c_peer_id c) (c_history_length c) (c_history_gossip c) (c_mesh_n
        c) (c_mesh_n_low c) (c_mesh_n_high c) (c_retain_scores c) (c_gossip_lazy c) (c_gossip_factor c)
        (c_heartbeat_initial_delay c) (c_heartbeat_interval c) (c_fanout_ttl c) (c_check_explicit_peers_ticks
        c) (c_max_transmit_size c) (c_duplicate_cache_time c) (c_validate_messages c) (c_validation_mode c)
        (c_message_id_fn c) (Some v) (c_allow_self_origin c) (c_do_px c) (c_prune_peers c) (c_prune_backoff c)
        (c_backoff_slack c) (c_flood_publish c) (c_graft_flood_threshold c) (c_mesh_outbound_min c)
        (c_opportunistic_graft_ticks c) (c_opportunistic_graft_peers c) (c_gossip_retransimission c)
        (c_max_messages_per_rpc c) (c_max_ihave_length c) (c_max_ihave_messages c) (c_iwant_followup_time c)
        (c_support_floodsub c) (c_published_message_ids_cache_time c)
  | Set_do_px =>
      mk_GossipsubConfig (c_protocol_ids c) (c_peer_id c) (c_history_length c) (c_history_gossip c) (c_mesh_n
        c) (c_mesh_n_low c) (c_mesh_n_high c) (c_retain_scores c) (c_gossip_lazy c) (c_gossip_factor c)
        (c_heartbeat_initial_delay c) (c_heartbeat_interval c) (c_fanout_ttl c) (c_check_explicit_peers_ticks
        c) (c_max_transmit_size c) (c_duplicate_cache_time c) (c_validate_messages c) (c_validation_mode c)
        (c_message_id_fn c) (c_fast_message_id_fn c) (c_allow_self_origin c) (true) (c_prune_peers c)
        (c_prune_backoff c) (c_backoff_slack c) (c_flood_publish c) (c_graft_flood_threshold c)
        (c_mesh_outbound_min c) (c_opportunistic_graft_ticks c) (c_opportunistic_graft_peers c)
        (c_gossip_retransimission c) (c_max_messages_per_rpc c) (c_max_ihave_length c) (c_max_ihave_messages
        c) (c_iwant_followup_time c) (c_support_floodsub c) (c_published_message_ids_cache_time c)
  | Set_prune_peers v =>
      mk_GossipsubConfig (c_protocol_ids c) (c_peer_id c) (c_history_length c) (c_history_gossip c) (c_mesh_n
        c) (c_mesh_n_low c) (c_mesh_n_high c) (c_retain_scores c) (c_gossip_lazy c) (c_gossip_factor c)
        (c_heartbeat_initial_delay c) (c_heartbeat_interval c) (c_fanout_ttl c) (c_check_explicit_peers_ticks
        c) (c_max_transmit_size c) (c_duplicate_cache_time c) (c_validate_messages c) (c_validation_mode c)
        (c_message_id_fn c) (c_fast_message_id_fn c) (c_allow_self_origin c) (c_do_px c) (v) (c_prune_backoff
        c) (c_backoff_slack c) (c_flood_publish c) (c_graft_flood_threshold c) (c_mesh_outbound_min c)
        (c_opportunistic_graft_ticks c) (c_opportunistic_graft_peers c) (c_gossip_retransimission c)
        (c_max_messages_per_rpc c) (c_max_ihave_length c) (c_max_ihave_messages c) (c_iwant_followup_time c)
        (c_support_floodsub c) (c_published_message_ids_cache_time c)
  | Set_prune_backoff v =>
      mk_GossipsubConfig (c_protocol_ids c) (c_peer_id c) (c_history_length c) (c_history_gossip c) (c_mesh_n
        c) (c_mesh_n_low c) (c_mesh_n_high c) (c_retain_scores c) (c_gossip_lazy c) (c_gossip_factor c)
        (c_heartbeat_initial_delay c) (c_heartbeat_interval c) (c_fanout_ttl c) (c_check_explicit_peers_ticks
        c) (c_max_transmit_size c) (c_duplicate_cache_time c) (c_validate_messages c) (c_validation_mode c)
        (c_message_id_fn c) (c_fast_message_id_fn c) (c_allow_self_origin c) (c_do_px c) (c_prune_peers c) (v)
        (c_backoff_slack c) (c_flood_publish c) (c_graft_flood_threshold c) (c_mesh_outbound_min c)
        (c_opportunistic_graft_ticks c) (c_opportunistic_graft_peers c) (c_gossip_retransimission c)
        (c_max_messages_per_rpc c) (c_max_ihave_length c) (c_max_ihave_messages c) (c_iwant_followup_time c)
        (c_support_floodsub c) (c_published_message_ids_cache_time c)
  | Set_backoff_slack v =>
      mk_GossipsubConfig (c_protocol_ids c) (c_peer_id c) (c_history_length c) (c_history_gossip c) (c_mesh_n
        c) (c_mesh_n_low c) (c_mesh_n_high c) (c_retain_scores c) (c_gossip_lazy c) (c_gossip_factor c)
        (c_heartbeat_initial_delay c) (c_heartbeat_interval c) (c_fanout_ttl c) (c_check_explicit_peers_ticks
        c) (c_max_transmit_size c) (c_duplicate_cache_time c) (c_validate_messages c) (c_validation_mode c)
        (c_message_id_fn c) (c_fast_message_id_fn c) (c_allow_self_origin c) (c_do_px c) (c_prune_peers c)
        (c_prune_backoff c) (v) (c_flood_publish c) (c_graft_flood_threshold c) (c_mesh_outbound_min c)
        (c_opportunistic_graft_ticks c) (c_opportunistic_graft_peers c) (c_gossip_retransimission c)
        (c_max_messages_per_rpc c) (c_max_ihave_length c) (c_max_ihave_messages c) (c_iwant_followup_time c)
        (c_support_floodsub c) (c_published_message_ids_cache_time c)
  | Set_flood_publish v =>
      mk_GossipsubConfig (c_protocol_ids c) (c_peer_id c) (c_history_length c) (c_history_gossip c) (c_mesh_n
        c) (c_mesh_n_low c) (c_mesh_n_high c) (c_retain_scores c) (c_gossip_lazy c) (c_gossip_factor c)
        (c_heartbeat_initial_delay c) (c_heartbeat_interval c) (c_fanout_ttl c) (c_check_explicit_peers_ticks
        c) (c_max_transmit_size c) (c_duplicate_cache_time c) (c_validate_messages c) (c_validation_mode c)
        (c_message_id_fn c) (c_fast_message_id_fn c) (c_allow_self_origin c) (c_do_px c) (c_prune_peers c)
        (c_prune_backoff c) (c_backoff_slack c) (v) (c_graft_flood_threshold c) (c_mesh_outbound_min c)
        (c_opportunistic_graft_ticks c) (c_opportunistic_graft_peers c) (c_gossip_retransimission c)
        (c_max_messages_per_rpc c) (c_max_ihave_length c) (c_max_ihave_messages c) (c_iwant_followup_time c)
        (c_support_floodsub c) (c_published_message_ids_cache_time c)
  | Set_graft_flood_threshold v =>
      mk_GossipsubConfig (c_protocol_ids c) (c_peer_id c) (c_history_length c) (c_history_gossip c) (c_mesh_n
        c) (c_mesh_n_low c) (c_mesh_n_high c) (c_retain_scores c) (c_gossip_lazy c) (c_gossip_factor c)
        (c_heartbeat_initial_delay c) (c_heartbeat_interval c) (c_fanout_ttl c) (c_check_explicit_peers_ticks
        c) (c_max_transmit_size c) (c_duplicate_cache_time c) (c_validate_messages c) (c_validation_mode c)
        (c_message_id_fn c) (c_fast_message_id_fn c) (c_allow_self_origin c) (c_do_px c) (c_prune_peers c)
        (c_prune_backoff c) (c_backoff_slack c) (c_flood_publish c) (v) (c_mesh_outbound_min c)
        (c_opportunistic_graft_ticks c) (c_opportunistic_graft_peers c) (c_gossip_retransimission c)
        (c_max_messages_per_rpc c) (c_max_ihave_length c) (c_max_ihave_messages c) (c_iwant_followup_time c)
        (c_support_floodsub c) (c_published_message_ids_cache_time c)
  | Set_mesh_outbound_min v =>
      mk_GossipsubConfig (c_protocol_ids c) (c_peer_id c) (c_history_length c) (c_history_gossip c) (c_mesh_n
        c) (c_mesh_n_low c) (c_mesh_n_high c) (c_retain_scores c) (c_gossip_lazy c) (c_gossip_factor c)
        (c_heartbeat_initial_delay c) (c_heartbeat_interval c) (c_fanout_ttl c) (c_check_explicit_peers_ticks
        c) (c_max_transmit_size c) (c_duplicate_cache_time c) (c_validate_messages c) (c_validation_mode c)
        (c_message_id_fn c) (c_fast_message_id_fn c) (c_allow_self_origin c) (c_do_px c) (c_prune_peers c)
        (c_prune_backoff c) (c_backoff_slack c) (c_flood_publish c) (c_graft_flood_threshold c) (v)
        (c_opportunistic_graft_ticks c) (c_opportunistic_graft_peers c) (c_gossip_retransimission c)
        (c_max_messages_per_rpc c) (c_max_ihave_length c) (c_max_ihave_messages c) (c_iwant_followup_time c)
        (c_support_floodsub c) (c_published_message_ids_cache_time c)
  | Set_opportunistic_graft_ticks v =>
      mk_GossipsubConfig (c_protocol_ids c) (c_peer_id c) (c_history_length c) (c_history_gossip c) (c_mesh_n
        c) (c_mesh_n_low c) (c_mesh_n_high c) (c_retain_scores c) (c_gossip_lazy c) (c_gossip_factor c)
        (c_heartbeat_initial_delay c) (c_heartbeat_interval c) (c_fanout_ttl c) (c_check_explicit_peers_ticks
        c) (c_max_transmit_size c) (c_duplicate_cache_time c) (c_validate_messages c) (c_validation_mode c)
        (c_message_id_fn c) (c_fast_message_id_fn c) (c_allow_self_origin c) (c_do_px c) (c_prune_peers c)
        (c_prune_backoff c) (c_backoff_slack c) (c_flood_publish c) (c_graft_flood_threshold c)
        (c_mesh_outbound_min c) (v) (c_opportunistic_graft_peers c) (c_gossip_retransimission c)
        (c_max_messages_per_rpc c) (c_max_ihave_length c) (c_max_ihave_messages c) (c_iwant_followup_time c)
        (c_support_floodsub c) (c_published_message_ids_cache_time c)
  | Set_gossip_retransimission v =>
      mk_GossipsubConfig (c_protocol_ids c) (c_peer_id c) (c_history_length c) (c_history_gossip c) (c_mesh_n
        c) (c_mesh_n_low c) (c_mesh_n_high c) (c_retain_scores c) (c_gossip_lazy c) (c_gossip_factor c)
        (c_heartbeat_initial_delay c) (c_heartbeat_interval c) (c_fanout_ttl c) (c_check_explicit_peers_ticks
        c) (c_max_transmit_size c) (c_duplicate_cache_time c) (c_validate_messages c) (c_validation_mode c)
        (c_message_id_fn c) (c_fast_message_id_fn c) (c_allow_self_origin c) (c_do_px c) (c_prune_peers c)
        (c_prune_backoff c) (c_backoff_slack c) (c_flood_publish c) (c_graft_flood_threshold c)
        (c_mesh_outbound_min c) (c_opportunistic_graft_ticks c) (c_opportunistic_graft_peers c) (v)
        (c_max_messages_per_rpc c) (c_max_ihave_length c) (c_max_ihave_messages c) (c_iwant_followup_time c)
        (c_support_floodsub c) (c_published_message_ids_cache_time c)
  | Set_opportunistic_graft_peers v =>
      mk_GossipsubConfig (c_protocol_ids c) (c_peer_id c) (c_history_length c) (c_history_gossip c) (c_mesh_n
        c) (c_mesh_n_low c) (c_mesh_n_high c) (c_retain_scores c) (c_gossip_lazy c) (c_gossip_factor c)
        (c_heartbeat_initial_delay c) (c_heartbeat_interval c) (c_fanout_ttl c) (c_check_explicit_peers_ticks
        c) (c_max_transmit_size c) (c_duplicate_cache_time c) (c_validate_messages c) (c_validation_mode c)
        (c_message_id_fn c) (c_fast_message_id_fn c) (c_allow_self_origin c) (c_do_px c) (c_prune_peers c)
        (c_prune_backoff c) (c_backoff_slack c) (c_flood_publish c) (c_graft_flood_threshold c)
        (c_mesh_outbound_min c) (c_opportunistic_graft_ticks c) (v) (c_gossip_retransimission c)
        (c_max_messages_per_rpc c) (c_max_ihave_length c) (c_max_ihave_messages c) (c_iwant_followup_time c)
        (c_support_floodsub c) (c_published_message_ids_cache_time c)
  | Set_max_messages_per_rpc v =>
      mk_GossipsubConfig (c_protocol_ids c) (c_peer_id c) (c_history_length c) (c_history_gossip c) (c_mesh_n
        c) (c_mesh_n_low c) (c_mesh_n_high c) (c_retain_scores c) (c_gossip_lazy c) (c_gossip_factor c)
        (c_heartbeat_initial_delay c) (c_heartbeat_interval c) (c_fanout_ttl c) (c_check_explicit_peers_ticks
        c) (c_max_transmit_size c) (c_duplicate_cache_time c) (c_validate_messages c) (c_validation_mode c)
        (c_message_id_fn c) (c_fast_message_id_fn c) (c_allow_self_origin c) (c_do_px c) (c_prune_peers c)
        (c_prune_backoff c) (c_backoff_slack c) (c_flood_publish c) (c_graft_flood_threshold c)
        (c_mesh_outbound_min c) (c_opportunistic_graft_ticks c) (c_opportunistic_graft_peers c)
        (c_gossip_retransimission c) (v) (c_max_ihave_length c) (c_max_ihave_messages c)
        (c_iwant_followup_time c) (c_support_floodsub c) (c_published_message_ids_cache_time c)
  | Set_max_ihave_length v =>
      mk_GossipsubConfig (c_protocol_ids c) (c_peer_id c) (c_history_length c) (c_history_gossip c) (c_mesh_n
        c) (c_mesh_n_low c) (c_mesh_n_high c) (c_retain_scores c) (c_gossip_lazy c) (c_gossip_factor c)
        (c_heartbeat_initial_delay c) (c_heartbeat_interval c) (c_fanout_ttl c) (c_check_explicit_peers_ticks
        c) (c_max_transmit_size c) (c_duplicate_cache_time c) (c_validate_messages c) (c_validation_mode c)
        (c_message_id_fn c) (c_fast_message_id_fn c) (c_allow_self_origin c) (c_do_px c) (c_prune_peers c)
        (c_prune_backoff c) (c_backoff_slack c) (c_flood_publish c) (c_graft_flood_threshold c)
        (c_mesh_outbound_min c) (c_opportunistic_graft_ticks c) (c_opportunistic_graft_peers c)
        (c_gossip_retransimission c) (c_max_messages_per_rpc c) (v) (c_max_ihave_messages c)
        (c_iwant_followup_time c) (c_support_floodsub c) (c_published_message_ids_cache_time c)
  | Set_max_ihave_messages v =>
      mk_GossipsubConfig (c_protocol_ids c) (c_peer_id c) (c_history_length c) (c_history_gossip c) (c_mesh_n
        c) (c_mesh_n_low c) (c_mesh_n_high c) (c_retain_scores c) (c_gossip_lazy c) (c_gossip_factor c)
        (c_heartbeat_initial_delay c) (c_heartbeat_interval c) (c_fanout_ttl c) (c_check_explicit_peers_ticks
        c) (c_max_transmit_size c) (c_duplicate_cache_time c) (c_validate_messages c) (c_validation_mode c)
        (c_message_id_fn c) (c_fast_message_id_fn c) (c_allow_self_origin c) (c_do_px c) (c_prune_peers c)
        (c_prune_backoff c) (c_backoff_slack c) (c_flood_publish c) (c_graft_flood_threshold c)
        (c_mesh_outbound_min c) (c_opportunistic_graft_ticks c) (c_opportunistic_graft_peers c)
        (c_gossip_retransimission c) (c_max_messages_per_rpc c) (c_max_ihave_length c) (v)
        (c_iwant_followup_time c) (c_support_floodsub c) (c_published_message_ids_cache_time c)
  | Set_allow_self_origin v =>
      mk_GossipsubConfig (c_protocol_ids c) (c_peer_id c) (c_history_length c) (c_history_gossip c) (c_mesh_n
        c) (c_mesh_n_low c) (c_mesh_n_high c) (c_retain_scores c) (c_gossip_lazy c) (c_gossip_factor c)
        (c_heartbeat_initial_delay c) (c_heartbeat_interval c) (c_fanout_ttl c) (c_check_explicit_peers_ticks
        c) (c_max_transmit_size c) (c_duplicate_cache_time c) (c_validate_messages c) (c_validation_mode c)
        (c_message_id_fn c) (c_fast_message_id_fn c) (v) (c_do_px c) (c_prune_peers c) (c_prune_backoff c)
        (c_backoff_slack c) (c_flood_publish c) (c_graft_flood_threshold c) (c_mesh_outbound_min c)
        (c_opportunistic_graft_ticks c) (c_opportunistic_graft_peers c) (c_gossip_retransimission c)
        (c_max_messages_per_rpc c) (c_max_ihave_length c) (c_max_ihave_messages c) (c_iwant_followup_time c)
        (c_support_floodsub c) (c_published_message_ids_cache_time c)
  | Set_iwant_followup_time v =>
      mk_GossipsubConfig (c_protocol_ids c) (c_peer_id c) (c_history_length c) (c_history_gossip c) (c_mesh_n
        c) (c_mesh_n_low c) (c_mesh_n_high c) (c_retain_scores c) (c_gossip_lazy c) (c_gossip_factor c)
        (c_heartbeat_initial_delay c) (c_heartbeat_interval c) (c_fanout_ttl c) (c_check_explicit_peers_ticks
        c) (c_max_transmit_size c) (c_duplicate_cache_time c) (c_validate_messages c) (c_validation_mode c)
        (c_message_id_fn c) (c_fast_message_id_fn c) (c_allow_self_origin c) (c_do_px c) (c_prune_peers c)
        (c_prune_backoff c) (c_backoff_slack c) (c_flood_publish c) (c_graft_flood_threshold c)
        (c_mesh_outbound_min c) (c_opportunistic_graft_ticks c) (c_opportunistic_graft_peers c)
        (c_gossip_retransimission c) (c_max_messages_per_rpc c) (c_max_ihave_length c) (c_max_ihave_messages
        c) (v) (c_support_floodsub c) (c_published_message_ids_cache_time c)
  | Set_support_floodsub =>
      mk_GossipsubConfig (c_protocol_ids c ++ [(b_str "/floodsub/1.0.0", u64_of_kind Floodsub)]) (c_peer_id c)
        (c_history_length c) (c_history_gossip c) (c_mesh_n c) (c_mesh_n_low c) (c_mesh_n_high c)
        (c_retain_scores c) (c_gossip_lazy c) (c_gossip_factor c) (c_heartbeat_initial_delay c)
        (c_heartbeat_interval c) (c_fanout_ttl c) (c_check_explicit_peers_ticks c) (c_max_transmit_size c)
        (c_duplicate_cache_time c) (c_validate_messages c) (c_validation_mode c) (c_message_id_fn c)
        (c_fast_message_id_fn c) (c_allow_self_origin c) (c_do_px c) (c_prune_peers c) (c_prune_backoff c)
        (c_backoff_slack c) (c_flood_publish c) (c_graft_flood_threshold c) (c_mesh_outbound_min c)
        (c_opportunistic_graft_ticks c) (c_opportunistic_graft_peers c) (c_gossip_retransimission c)
        (c_max_messages_per_rpc c) (c_max_ihave_length c) (c_max_ihave_messages c) (c_iwant_followup_time c)
        (true) (c_published_message_ids_cache_time c)
  | Set_published_message_ids_cache_time v =>
      mk_GossipsubConfig (c_protocol_ids c) (c_peer_id c) (c_history_length c) (c_history_gossip c) (c_mesh_n
        c) (c_mesh_n_low c) (c_mesh_n_high c) (c_retain_scores c) (c_gossip_lazy c) (c_gossip_factor c)
        (c_heartbeat_initial_delay c) (c_heartbeat_interval c) (c_fanout_ttl c) (c_check_explicit_peers_ticks
        c) (c_max_transmit_size c) (c_duplicate_cache_time c) (c_validate_messages c) (c_validation_mode c)
        (c_message_id_fn c) (c_fast_message_id_fn c) (c_allow_self_origin c) (c_do_px c) (c_prune_peers c)
        (c_prune_backoff c) (c_backoff_slack c) (c_flood_publish c) (c_graft_flood_threshold c)
        (c_mesh_outbound_min c) (c_opportunistic_graft_ticks c) (c_opportunistic_graft_peers c)
        (c_gossip_retransimission c) (c_max_messages_per_rpc c) (c_max_ihave_length c) (c_max_ihave_messages
        c) (c_iwant_followup_time c) (c_support_floodsub c) (v)
  end.

(** [build]. *)
Inductive BuildError := TransmitSizeTooSmall | HistoryTooShort | MeshInequality | OutboundMinTooLarge.

Definition build (c : GossipsubConfig) : result BuildError GossipsubConfig :=
  if (c_max_transmit_size c <? 100)%Z then Err TransmitSizeTooSmall
  else if c_history_length c <? c_history_gossip c then Err HistoryTooShort
  else if negb ((c_mesh_outbound_min c <? c_mesh_n_low c) && (c_mesh_n_low c <=? c_mesh_n c) &&
                (c_mesh_n c <=? c_mesh_n_high c)) then Err MeshInequality
  else if c_mesh_n c <? c_mesh_outbound_min c * 2 then Err OutboundMinTooLarge
  else Ok c.

(** What [build] promises to the router. *)
Record config_built (c : GossipsubConfig) : Prop := {
  cb_transmit : (100 ≤ c_max_transmit_size c)%Z;
  cb_history : c_history_gossip c ≤ c_history_length c;
  cb_mesh : c_mesh_outbound_min c < c_mesh_n_low c ≤ c_mesh_n c ∧ c_mesh_n c ≤ c_mesh_n_high c;
  cb_outbound : c_mesh_outbound_min c * 2 ≤ c_mesh_n c
}.

Lemma build_ok c c' : build c = Ok c' ↔ c' = c ∧ config_built c.
Proof.
  unfold build. destruct (Z.ltb_spec (c_max_transmit_size c) 100).
  { split; [done|]. intros [_ []]. lia. }
  destruct (Nat.ltb_spec (c_history_length c) (c_history_gossip c)).
  { split; [done|]. intros [_ []]. lia. }
  destruct (Nat.ltb_spec (c_mesh_outbound_min c) (c_mesh_n_low c));
    [|simpl; split; [done|]; intros [_ []]; lia].
  destruct (Nat.leb_spec (c_mesh_n_low c) (c_mesh_n c)); [|simpl; split; [done|]; intros [_ []]; lia].
  destruct (Nat.leb_spec (c_mesh_n c) (c_mesh_n_high c)); [|simpl; split; [done|]; intros [_ []]; lia].
  simpl. destruct (Nat.ltb_spec (c_mesh_n c) (c_mesh_outbound_min c * 2)).
  - split; [done|]. intros [_ []]. lia.
  - split; [intros [= <-]; split; [done|]; split; lia|]. by intros [-> _].
Qed.

(** ** The defaults *)

Section builder.
Context (bs58_encode : bytes → string).

(** The default id of a message: the author in base58, then the sequence number. *)
Definition default_message_id (m : Message) : option MessageId :=
  source ← match gm_source m with
           | Some p => Some (bs58_encode (to_bytes p))
           | None => p ← pid_from_bytes [Byte.x00; Byte.x01; Byte.x00]; Some (bs58_encode (to_bytes p))
           end;
  Some (b_str (source +:+ pretty (Z.to_N (default 0%Z (gm_sequence_number m))))).

(** [GossipsubConfigBuilder::new]. *)
Definition builder_new (peer_id : PeerId) : GossipsubConfig :=
  mk_GossipsubConfig
    [(b_str "/meshsub/1.1.0", u64_of_kind Gossipsubv1_1); (b_str "/meshsub/1.0.0", u64_of_kind GossipsubV1)]
    peer_id 5 3 6 5 12 4 6 (S754_finite false 1 (-2)) (5 * NANOS) (1 * NANOS) (60 * NANOS) 300 65535 (60 * NANOS)
    false Strict default_message_id None false false 0 (60 * NANOS) 1 true (10 * NANOS) 2 60 2 3 None 5000 10
    (3 * NANOS) false (10 * NANOS).

Lemma builder_new_built peer_id : config_built (builder_new peer_id).
Proof. split; simpl; lia. Qed.

Lemma b_str_inj (s s' : string) : b_str s = b_str s' → s = s'.
Proof.
  unfold b_str. intros Heq. rewrite <-(String.string_of_list_byte_of_string s).
  by rewrite Heq, String.string_of_list_byte_of_string.
Qed.

Lemma string_app_assoc (s1 s2 s3 : string) : s1 +:+ (s2 +:+ s3) = (s1 +:+ s2) +:+ s3.
Proof. induction s1 as [|a s1 IH]; [done|]. exact (f_equal (String.String a) IH). Qed.

(** Two messages of an author have different ids when their sequence numbers
    differ. *)
Lemma default_message_id_seqno m m' mid :
  gm_source m = gm_source m' → (0 ≤ default 0 (gm_sequence_number m))%Z →
  (0 ≤ default 0 (gm_sequence_number m'))%Z →
  default_message_id m = Some mid → default_message_id m' = Some mid →
  default 0%Z (gm_sequence_number m) = default 0%Z (gm_sequence_number m').
Proof.
  intros Hsrc H0 H0' Hm Hm'. unfold default_message_id in *. rewrite <-Hsrc in Hm'.
  destruct (match gm_source m with Some _ => _ | None => _ end) as [src|]; [|done]. simpl in *.
  injection Hm as <-. injection Hm' as Heq. apply b_str_inj, (inj (String.app src)), (inj pretty) in Heq.
  lia.
Qed.

(** The author and the sequence number are not separated: an author whose text
    continues that of another one with a digit shares ids with it. *)
Lemma default_message_id_collision p q d n n' t x y :
  bs58_encode (to_bytes q) = bs58_encode (to_bytes p) +:+ d →
  pretty (Z.to_N n) = d +:+ pretty (Z.to_N n') →
  default_message_id (mk_GossipsubMessage (Some p) x (Some n) t) =
  default_message_id (mk_GossipsubMessage (Some q) y (Some n') t).
Proof.
  intros Hq Hn. unfold default_message_id. simpl. rewrite Hq, Hn. by rewrite string_app_assoc.
Qed.
End builder.
End config.
Arguments GossipsubConfig : clear implicits.
Arguments BuilderCall : clear implicits.
