(* ===== verification/Gossipsub.v ===== *)
(** * The gossipsub router

    [protocols/gossipsub/src/gossipsub.rs]: the state of [Gossipsub], the methods
    of its interface, the handlers of the events and commands of its main loop,
    and the heartbeat.  An operation answers [None] when it panics.

    - A handler runs at one instant [now].
    - The iteration order of hash maps is [hash_iter]; that of [BTreeSet<PeerId>],
      the order of the crate [multihash], is [set_le].
    - The crate [rand] is the class [RandCrate]; [gs_draws] counts the draws, so
      that every draw has a result of its own.
    - A channel is a number.  What a handler sends, and the tasks it spawns, are
      appended to [gs_outputs].
    - The data transform and the regular expressions are classes. *)

From Stdlib Require Import ZArith Lia SpecFloat.
From stdpp Require Import strings.
From S2P Require Import Prelude KadKey RecordStore KadProto Identity GossipCache Float64 PeerScore GossipRpc GossipConfig.

Local Open Scope nat_scope.

Local Abbreviation Instant := Z.
Local Abbreviation Duration := Z.

(** ** Parameters *)

(** The order of a [BTreeSet]. *)
Class SetOrder (A : Type) := set_le : A → A → bool.

Definition bt_iter {A} `{Countable A} `{!SetOrder A} (s : gset A) : list A := sort_by set_le (elements s).

Class RandCrate (PeerId : Type) := {
  shuffle {A : Type} : nat → list A → list A;
  partial_shuffle {A : Type} : nat → nat → list A → list A;
  random_u64 : nat → Z;
  random_peer : nat → PeerId;
  random_index : nat → nat
}.

(** The documented behaviour: shuffling permutes. *)
Class RandLaws (PeerId : Type) `{RandCrate PeerId} := {
  shuffle_perm {A : Type} n (l : list A) : shuffle n l ≡ₚ l;
  partial_shuffle_perm {A : Type} n k (l : list A) : partial_shuffle n k l ≡ₚ l;
  random_u64_range n : (0 ≤ random_u64 n < 2 ^ 64)%Z
}.

(** The trait [DataTransform] of [transform.rs]. *)
Class DataTransform (PeerId : Type) := {
  inbound_transform : RawGossipsubMessage PeerId → option (GossipsubMessage PeerId);
  outbound_transform : TopicHash → bytes → option bytes
}.

(** [IdentityTransform]. *)
Definition IdentityTransform (PeerId : Type) : DataTransform PeerId := {|
  inbound_transform m := Some (mk_GossipsubMessage (source m) (data m) (sequence_number m) (topic m));
  outbound_transform _ d := Some d
|}.

Class RegexCrate (Regex : Type) := regex_is_match : Regex → TopicHash → bool.

(** ** State *)

Section router.
Context {PeerId IpAddr Regex : Type} `{!PeerIdType PeerId} `{!NodeIdentity PeerId} `{!RpcCodec}.
Context `{!EqDecision IpAddr} `{!Countable IpAddr} `{!HashOrder} `{!SetOrder PeerId} `{!RandCrate PeerId}.
Context `{!DataTransform PeerId} `{!RegexCrate Regex}.

Local Abbreviation Raw := (RawGossipsubMessage PeerId).
Local Abbreviation Message := (GossipsubMessage PeerId).
Local Abbreviation Action := (GossipsubControlAction PeerId).
Local Abbreviation Config := (GossipsubConfig PeerId).

(** What leaves the router: a buffer for the stream of a peer, a message for a
    subscription, and the tasks it spawns. *)
Inductive Output :=
  | OSend (p : PeerId) (chan : nat) (buf : bytes)
  | ONotify (at_time : Instant) (chan : nat) (m : Message)
  | ODial (p : PeerId)
  | OOpenConnection (p : PeerId)
  | OStreamTask (p : PeerId) (chan : nat)
  | OCloseChannel (chan : nat).

(** The score, the thresholds and the promises of [peer_score]. *)
Record Scoring := mk_Scoring {
  sc_score : PeerScore PeerId IpAddr;
  sc_thresholds : PeerScoreThresholds;
  sc_promises : gmap MessageId (gmap PeerId Instant)
}.

Record Gossipsub := mk_Gossipsub {
  gs_config : GossipsubConfig PeerId;
  gs_swarm : bool;
  gs_control_pool : gmap PeerId (list Action);
  gs_publish_config : PublishConfig;
  gs_duplicate_cache : TimeCache MessageId unit;
  gs_peer_protocols : gmap PeerId PeerKind;
  gs_topic_peers : gmap TopicHash (gset PeerId);
  gs_peer_topics : gmap PeerId (gset TopicHash);
  gs_my_topics : gmap TopicHash nat;
  gs_explicit_peers : gset PeerId;
  gs_connected_peer : gmap PeerId nat;
  gs_blacklisted_peers : gset PeerId;
  gs_mesh : gmap TopicHash (gset PeerId);
  gs_fanout : gmap TopicHash (gset PeerId);
  gs_fanout_last_pub : gmap TopicHash Instant;
  gs_backoffs : BackoffStorage PeerId;
  gs_mcache : @MessageCache PeerId _ _;
  gs_heartbeat_ticks : nat;
  gs_px_peers : gset PeerId;
  gs_outbound_peers : gset PeerId;
  gs_peer_score : option Scoring;
  gs_count_received_ihave : gmap PeerId nat;
  gs_count_sent_iwant : gmap PeerId nat;
  gs_published_message_ids : TimeCache MessageId unit;
  gs_fast_message_id_cache : TimeCache FastMessageId MessageId;
  gs_subscription_filter : SubscriptionFilter Regex;
  gs_next_chan : nat;
  gs_draws : nat;
  gs_outputs : list Output
}.

Definition set_swarm v (g : Gossipsub) : Gossipsub :=
  mk_Gossipsub (gs_config g) v (gs_control_pool g) (gs_publish_config g) (gs_duplicate_cache g)
    (gs_peer_protocols g) (gs_topic_peers g) (gs_peer_topics g) (gs_my_topics g) (gs_explicit_peers g)
    (gs_connected_peer g) (gs_blacklisted_peers g) (gs_mesh g) (gs_fanout g) (gs_fanout_last_pub g)
    (gs_backoffs g) (gs_mcache g) (gs_heartbeat_ticks g) (gs_px_peers g) (gs_outbound_peers g) (gs_peer_score
    g) (gs_count_received_ihave g) (gs_count_sent_iwant g) (gs_published_message_ids g)
    (gs_fast_message_id_cache g) (gs_subscription_filter g) (gs_next_chan g) (gs_draws g) (gs_outputs g).
Definition set_control_pool v (g : Gossipsub) : Gossipsub :=
  mk_Gossipsub (gs_config g) (gs_swarm g) v (gs_publish_config g) (gs_duplicate_cache g) (gs_peer_protocols g)
    (gs_topic_peers g) (gs_peer_topics g) (gs_my_topics g) (gs_explicit_peers g) (gs_connected_peer g)
    (gs_blacklisted_peers g) (gs_mesh g) (gs_fanout g) (gs_fanout_last_pub g) (gs_backoffs g) (gs_mcache g)
    (gs_heartbeat_ticks g) (gs_px_peers g) (gs_outbound_peers g) (gs_peer_score g) (gs_count_received_ihave g)
    (gs_count_sent_iwant g) (gs_published_message_ids g) (gs_fast_message_id_cache g) (gs_subscription_filter
    g) (gs_next_chan g) (gs_draws g) (gs_outputs g).
Definition set_duplicate_cache v (g : Gossipsub) : Gossipsub :=
  mk_Gossipsub (gs_config g) (gs_swarm g) (gs_control_pool g) (gs_publish_config g) v (gs_peer_protocols g)
    (gs_topic_peers g) (gs_peer_topics g) (gs_my_topics g) (gs_explicit_peers g) (gs_connected_peer g)
    (gs_blacklisted_peers g) (gs_mesh g) (gs_fanout g) (gs_fanout_last_pub g) (gs_backoffs g) (gs_mcache g)
    (gs_heartbeat_ticks g) (gs_px_peers g) (gs_outbound_peers g) (gs_peer_score g) (gs_count_received_ihave g)
    (gs_count_sent_iwant g) (gs_published_message_ids g) (gs_fast_message_id_cache g) (gs_subscription_filter
    g) (gs_next_chan g) (gs_draws g) (gs_outputs g).
Definition set_peer_protocols v (g : Gossipsub) : Gossipsub :=
  mk_Gossipsub (gs_config g) (gs_swarm g) (gs_control_pool g) (gs_publish_config g) (gs_duplicate_cache g) v
    (gs_topic_peers g) (gs_peer_topics g) (gs_my_topics g) (gs_explicit_peers g) (gs_connected_peer g)
    (gs_blacklisted_peers g) (gs_mesh g) (gs_fanout g) (gs_fanout_last_pub g) (gs_backoffs g) (gs_mcache g)
    (gs_heartbeat_ticks g) (gs_px_peers g) (gs_outbound_peers g) (gs_peer_score g) (gs_count_received_ihave g)
    (gs_count_sent_iwant g) (gs_published_message_ids g) (gs_fast_message_id_cache g) (gs_subscription_filter
    g) (gs_next_chan g) (gs_draws g) (gs_outputs g).
Definition set_topic_peers v (g : Gossipsub) : Gossipsub :=
  mk_Gossipsub (gs_config g) (gs_swarm g) (gs_control_pool g) (gs_publish_config g) (gs_duplicate_cache g)
    (gs_peer_protocols g) v (gs_peer_topics g) (gs_my_topics g) (gs_explicit_peers g) (gs_connected_peer g)
    (gs_blacklisted_peers g) (gs_mesh g) (gs_fanout g) (gs_fanout_last_pub g) (gs_backoffs g) (gs_mcache g)
    (gs_heartbeat_ticks g) (gs_px_peers g) (gs_outbound_peers g) (gs_peer_score g) (gs_count_received_ihave g)
    (gs_count_sent_iwant g) (gs_published_message_ids g) (gs_fast_message_id_cache g) (gs_subscription_filter
    g) (gs_next_chan g) (gs_draws g) (gs_outputs g).
Definition set_peer_topics v (g : Gossipsub) : Gossipsub :=
  mk_Gossipsub (gs_config g) (gs_swarm g) (gs_control_pool g) (gs_publish_config g) (gs_duplicate_cache g)
    (gs_peer_protocols g) (gs_topic_peers g) v (gs_my_topics g) (gs_explicit_peers g) (gs_connected_peer g)
    (gs_blacklisted_peers g) (gs_mesh g) (gs_fanout g) (gs_fanout_last_pub g) (gs_backoffs g) (gs_mcache g)
    (gs_heartbeat_ticks g) (gs_px_peers g) (gs_outbound_peers g) (gs_peer_score g) (gs_count_received_ihave g)
    (gs_count_sent_iwant g) (gs_published_message_ids g) (gs_fast_message_id_cache g) (gs_subscription_filter
    g) (gs_next_chan g) (gs_draws g) (gs_outputs g).
Definition set_my_topics v (g : Gossipsub) : Gossipsub :=
  mk_Gossipsub (gs_config g) (gs_swarm g) (gs_control_pool g) (gs_publish_config g) (gs_duplicate_cache g)
    (gs_peer_protocols g) (gs_topic_peers g) (gs_peer_topics g) v (gs_explicit_peers g) (gs_connected_peer g)
    (gs_blacklisted_peers g) (gs_mesh g) (gs_fanout g) (gs_fanout_last_pub g) (gs_backoffs g) (gs_mcache g)
    (gs_heartbeat_ticks g) (gs_px_peers g) (gs_outbound_peers g) (gs_peer_score g) (gs_count_received_ihave g)
    (gs_count_sent_iwant g) (gs_published_message_ids g) (gs_fast_message_id_cache g) (gs_subscription_filter
    g) (gs_next_chan g) (gs_draws g) (gs_outputs g).
Definition set_explicit_peers v (g : Gossipsub) : Gossipsub :=
  mk_Gossipsub (gs_config g) (gs_swarm g) (gs_control_pool g) (gs_publish_config g) (gs_duplicate_cache g)
    (gs_peer_protocols g) (gs_topic_peers g) (gs_peer_topics g) (gs_my_topics g) v (gs_connected_peer g)
    (gs_blacklisted_peers g) (gs_mesh g) (gs_fanout g) (gs_fanout_last_pub g) (gs_backoffs g) (gs_mcache g)
    (gs_heartbeat_ticks g) (gs_px_peers g) (gs_outbound_peers g) (gs_peer_score g) (gs_count_received_ihave g)
    (gs_count_sent_iwant g) (gs_published_message_ids g) (gs_fast_message_id_cache g) (gs_subscription_filter
    g) (gs_next_chan g) (gs_draws g) (gs_outputs g).
Definition set_connected_peer v (g : Gossipsub) : Gossipsub :=
  mk_Gossipsub (gs_config g) (gs_swarm g) (gs_control_pool g) (gs_publish_config g) (gs_duplicate_cache g)
    (gs_peer_protocols g) (gs_topic_peers g) (gs_peer_topics g) (gs_my_topics g) (gs_explicit_peers g) v
    (gs_blacklisted_peers g) (gs_mesh g) (gs_fanout g) (gs_fanout_last_pub g) (gs_backoffs g) (gs_mcache g)
    (gs_heartbeat_ticks g) (gs_px_peers g) (gs_outbound_peers g) (gs_peer_score g) (gs_count_received_ihave g)
    (gs_count_sent_iwant g) (gs_published_message_ids g) (gs_fast_message_id_cache g) (gs_subscription_filter
    g) (gs_next_chan g) (gs_draws g) (gs_outputs g).
Definition set_blacklisted_peers v (g : Gossipsub) : Gossipsub :=
  mk_Gossipsub (gs_config g) (gs_swarm g) (gs_control_pool g) (gs_publish_config g) (gs_duplicate_cache g)
    (gs_peer_protocols g) (gs_topic_peers g) (gs_peer_topics g) (gs_my_topics g) (gs_explicit_peers g)
    (gs_connected_peer g) v (gs_mesh g) (gs_fanout g) (gs_fanout_last_pub g) (gs_backoffs g) (gs_mcache g)
    (gs_heartbeat_ticks g) (gs_px_peers g) (gs_outbound_peers g) (gs_peer_score g) (gs_count_received_ihave g)
    (gs_count_sent_iwant g) (gs_published_message_ids g) (gs_fast_message_id_cache g) (gs_subscription_filter
    g) (gs_next_chan g) (gs_draws g) (gs_outputs g).
Definition set_mesh v (g : Gossipsub) : Gossipsub :=
  mk_Gossipsub (gs_config g) (gs_swarm g) (gs_control_pool g) (gs_publish_config g) (gs_duplicate_cache g)
    (gs_peer_protocols g) (gs_topic_peers g) (gs_peer_topics g) (gs_my_topics g) (gs_explicit_peers g)
    (gs_connected_peer g) (gs_blacklisted_peers g) v (gs_fanout g) (gs_fanout_last_pub g) (gs_backoffs g)
    (gs_mcache g) (gs_heartbeat_ticks g) (gs_px_peers g) (gs_outbound_peers g) (gs_peer_score g)
    (gs_count_received_ihave g) (gs_count_sent_iwant g) (gs_published_message_ids g) (gs_fast_message_id_cache
    g) (gs_subscription_filter g) (gs_next_chan g) (gs_draws g) (gs_outputs g).
Definition set_fanout v (g : Gossipsub) : Gossipsub :=
  mk_Gossipsub (gs_config g) (gs_swarm g) (gs_control_pool g) (gs_publish_config g) (gs_duplicate_cache g)
    (gs_peer_protocols g) (gs_topic_peers g) (gs_peer_topics g) (gs_my_topics g) (gs_explicit_peers g)
    (gs_connected_peer g) (gs_blacklisted_peers g) (gs_mesh g) v (gs_fanout_last_pub g) (gs_backoffs g)
    (gs_mcache g) (gs_heartbeat_ticks g) (gs_px_peers g) (gs_outbound_peers g) (gs_peer_score g)
    (gs_count_received_ihave g) (gs_count_sent_iwant g) (gs_published_message_ids g) (gs_fast_message_id_cache
    g) (gs_subscription_filter g) (gs_next_chan g) (gs_draws g) (gs_outputs g).
Definition set_fanout_last_pub v (g : Gossipsub) : Gossipsub :=
  mk_Gossipsub (gs_config g) (gs_swarm g) (gs_control_pool g) (gs_publish_config g) (gs_duplicate_cache g)
    (gs_peer_protocols g) (gs_topic_peers g) (gs_peer_topics g) (gs_my_topics g) (gs_explicit_peers g)
    (gs_connected_peer g) (gs_blacklisted_peers g) (gs_mesh g) (gs_fanout g) v (gs_backoffs g) (gs_mcache g)
    (gs_heartbeat_ticks g) (gs_px_peers g) (gs_outbound_peers g) (gs_peer_score g) (gs_count_received_ihave g)
    (gs_count_sent_iwant g) (gs_published_message_ids g) (gs_fast_message_id_cache g) (gs_subscription_filter
    g) (gs_next_chan g) (gs_draws g) (gs_outputs g).
Definition set_backoffs v (g : Gossipsub) : Gossipsub :=
  mk_Gossipsub (gs_config g) (gs_swarm g) (gs_control_pool g) (gs_publish_config g) (gs_duplicate_cache g)
    (gs_peer_protocols g) (gs_topic_peers g) (gs_peer_topics g) (gs_my_topics g) (gs_explicit_peers g)
    (gs_connected_peer g) (gs_blacklisted_peers g) (gs_mesh g) (gs_fanout g) (gs_fanout_last_pub g) v
    (gs_mcache g) (gs_heartbeat_ticks g) (gs_px_peers g) (gs_outbound_peers g) (gs_peer_score g)
    (gs_count_received_ihave g) (gs_count_sent_iwant g) (gs_published_message_ids g) (gs_fast_message_id_cache
    g) (gs_subscription_filter g) (gs_next_chan g) (gs_draws g) (gs_outputs g).
Definition set_mcache v (g : Gossipsub) : Gossipsub :=
  mk_Gossipsub (gs_config g) (gs_swarm g) (gs_control_pool g) (gs_publish_config g) (gs_duplicate_cache g)
    (gs_peer_protocols g) (gs_topic_peers g) (gs_peer_topics g) (gs_my_topics g) (gs_explicit_peers g)
    (gs_connected_peer g) (gs_blacklisted_peers g) (gs_mesh g) (gs_fanout g) (gs_fanout_last_pub g)
    (gs_backoffs g) v (gs_heartbeat_ticks g) (gs_px_peers g) (gs_outbound_peers g) (gs_peer_score g)
    (gs_count_received_ihave g) (gs_count_sent_iwant g) (gs_published_message_ids g) (gs_fast_message_id_cache
    g) (gs_subscription_filter g) (gs_next_chan g) (gs_draws g) (gs_outputs g).
Definition set_heartbeat_ticks v (g : Gossipsub) : Gossipsub :=
  mk_Gossipsub (gs_config g) (gs_swarm g) (gs_control_pool g) (gs_publish_config g) (gs_duplicate_cache g)
    (gs_peer_protocols g) (gs_topic_peers g) (gs_peer_topics g) (gs_my_topics g) (gs_explicit_peers g)
    (gs_connected_peer g) (gs_blacklisted_peers g) (gs_mesh g) (gs_fanout g) (gs_fanout_last_pub g)
    (gs_backoffs g) (gs_mcache g) v (gs_px_peers g) (gs_outbound_peers g) (gs_peer_score g)
    (gs_count_received_ihave g) (gs_count_sent_iwant g) (gs_published_message_ids g) (gs_fast_message_id_cache
    g) (gs_subscription_filter g) (gs_next_chan g) (gs_draws g) (gs_outputs g).
Definition set_px_peers v (g : Gossipsub) : Gossipsub :=
  mk_Gossipsub (gs_config g) (gs_swarm g) (gs_control_pool g) (gs_publish_config g) (gs_duplicate_cache g)
    (gs_peer_protocols g) (gs_topic_peers g) (gs_peer_topics g) (gs_my_topics g) (gs_explicit_peers g)
    (gs_connected_peer g) (gs_blacklisted_peers g) (gs_mesh g) (gs_fanout g) (gs_fanout_last_pub g)
    (gs_backoffs g) (gs_mcache g) (gs_heartbeat_ticks g) v (gs_outbound_peers g) (gs_peer_score g)
    (gs_count_received_ihave g) (gs_count_sent_iwant g) (gs_published_message_ids g) (gs_fast_message_id_cache
    g) (gs_subscription_filter g) (gs_next_chan g) (gs_draws g) (gs_outputs g).
Definition set_outbound_peers v (g : Gossipsub) : Gossipsub :=
  mk_Gossipsub (gs_config g) (gs_swarm g) (gs_control_pool g) (gs_publish_config g) (gs_duplicate_cache g)
    (gs_peer_protocols g) (gs_topic_peers g) (gs_peer_topics g) (gs_my_topics g) (gs_explicit_peers g)
    (gs_connected_peer g) (gs_blacklisted_peers g) (gs_mesh g) (gs_fanout g) (gs_fanout_last_pub g)
    (gs_backoffs g) (gs_mcache g) (gs_heartbeat_ticks g) (gs_px_peers g) v (gs_peer_score g)
    (gs_count_received_ihave g) (gs_count_sent_iwant g) (gs_published_message_ids g) (gs_fast_message_id_cache
    g) (gs_subscription_filter g) (gs_next_chan g) (gs_draws g) (gs_outputs g).
Definition set_peer_score v (g : Gossipsub) : Gossipsub :=
  mk_Gossipsub (gs_config g) (gs_swarm g) (gs_control_pool g) (gs_publish_config g) (gs_duplicate_cache g)
    (gs_peer_protocols g) (gs_topic_peers g) (gs_peer_topics g) (gs_my_topics g) (gs_explicit_peers g)
    (gs_connected_peer g) (gs_blacklisted_peers g) (gs_mesh g) (gs_fanout g) (gs_fanout_last_pub g)
    (gs_backoffs g) (gs_mcache g) (gs_heartbeat_ticks g) (gs_px_peers g) (gs_outbound_peers g) v
    (gs_count_received_ihave g) (gs_count_sent_iwant g) (gs_published_message_ids g) (gs_fast_message_id_cache
    g) (gs_subscription_filter g) (gs_next_chan g) (gs_draws g) (gs_outputs g).
Definition set_count_received_ihave v (g : Gossipsub) : Gossipsub :=
  mk_Gossipsub (gs_config g) (gs_swarm g) (gs_control_pool g) (gs_publish_config g) (gs_duplicate_cache g)
    (gs_peer_protocols g) (gs_topic_peers g) (gs_peer_topics g) (gs_my_topics g) (gs_explicit_peers g)
    (gs_connected_peer g) (gs_blacklisted_peers g) (gs_mesh g) (gs_fanout g) (gs_fanout_last_pub g)
    (gs_backoffs g) (gs_mcache g) (gs_heartbeat_ticks g) (gs_px_peers g) (gs_outbound_peers g) (gs_peer_score
    g) v (gs_count_sent_iwant g) (gs_published_message_ids g) (gs_fast_message_id_cache g)
    (gs_subscription_filter g) (gs_next_chan g) (gs_draws g) (gs_outputs g).
Definition set_count_sent_iwant v (g : Gossipsub) : Gossipsub :=
  mk_Gossipsub (gs_config g) (gs_swarm g) (gs_control_pool g) (gs_publish_config g) (gs_duplicate_cache g)
    (gs_peer_protocols g) (gs_topic_peers g) (gs_peer_topics g) (gs_my_topics g) (gs_explicit_peers g)
    (gs_connected_peer g) (gs_blacklisted_peers g) (gs_mesh g) (gs_fanout g) (gs_fanout_last_pub g)
    (gs_backoffs g) (gs_mcache g) (gs_heartbeat_ticks g) (gs_px_peers g) (gs_outbound_peers g) (gs_peer_score
    g) (gs_count_received_ihave g) v (gs_published_message_ids g) (gs_fast_message_id_cache g)
    (gs_subscription_filter g) (gs_next_chan g) (gs_draws g) (gs_outputs g).
Definition set_published_message_ids v (g : Gossipsub) : Gossipsub :=
  mk_Gossipsub (gs_config g) (gs_swarm g) (gs_control_pool g) (gs_publish_config g) (gs_duplicate_cache g)
    (gs_peer_protocols g) (gs_topic_peers g) (gs_peer_topics g) (gs_my_topics g) (gs_explicit_peers g)
    (gs_connected_peer g) (gs_blacklisted_peers g) (gs_mesh g) (gs_fanout g) (gs_fanout_last_pub g)
    (gs_backoffs g) (gs_mcache g) (gs_heartbeat_ticks g) (gs_px_peers g) (gs_outbound_peers g) (gs_peer_score
    g) (gs_count_received_ihave g) (gs_count_sent_iwant g) v (gs_fast_message_id_cache g)
    (gs_subscription_filter g) (gs_next_chan g) (gs_draws g) (gs_outputs g).
Definition set_fast_message_id_cache v (g : Gossipsub) : Gossipsub :=
  mk_Gossipsub (gs_config g) (gs_swarm g) (gs_control_pool g) (gs_publish_config g) (gs_duplicate_cache g)
    (gs_peer_protocols g) (gs_topic_peers g) (gs_peer_topics g) (gs_my_topics g) (gs_explicit_peers g)
    (gs_connected_peer g) (gs_blacklisted_peers g) (gs_mesh g) (gs_fanout g) (gs_fanout_last_pub g)
    (gs_backoffs g) (gs_mcache g) (gs_heartbeat_ticks g) (gs_px_peers g) (gs_outbound_peers g) (gs_peer_score
    g) (gs_count_received_ihave g) (gs_count_sent_iwant g) (gs_published_message_ids g) v
    (gs_subscription_filter g) (gs_next_chan g) (gs_draws g) (gs_outputs g).
Definition set_next_chan v (g : Gossipsub) : Gossipsub :=
  mk_Gossipsub (gs_config g) (gs_swarm g) (gs_control_pool g) (gs_publish_config g) (gs_duplicate_cache g)
    (gs_peer_protocols g) (gs_topic_peers g) (gs_peer_topics g) (gs_my_topics g) (gs_explicit_peers g)
    (gs_connected_peer g) (gs_blacklisted_peers g) (gs_mesh g) (gs_fanout g) (gs_fanout_last_pub g)
    (gs_backoffs g) (gs_mcache g) (gs_heartbeat_ticks g) (gs_px_peers g) (gs_outbound_peers g) (gs_peer_score
    g) (gs_count_received_ihave g) (gs_count_sent_iwant g) (gs_published_message_ids g)
    (gs_fast_message_id_cache g) (gs_subscription_filter g) v (gs_draws g) (gs_outputs g).
Definition set_draws v (g : Gossipsub) : Gossipsub :=
  mk_Gossipsub (gs_config g) (gs_swarm g) (gs_control_pool g) (gs_publish_config g) (gs_duplicate_cache g)
    (gs_peer_protocols g) (gs_topic_peers g) (gs_peer_topics g) (gs_my_topics g) (gs_explicit_peers g)
    (gs_connected_peer g) (gs_blacklisted_peers g) (gs_mesh g) (gs_fanout g) (gs_fanout_last_pub g)
    (gs_backoffs g) (gs_mcache g) (gs_heartbeat_ticks g) (gs_px_peers g) (gs_outbound_peers g) (gs_peer_score
    g) (gs_count_received_ihave g) (gs_count_sent_iwant g) (gs_published_message_ids g)
    (gs_fast_message_id_cache g) (gs_subscription_filter g) (gs_next_chan g) v (gs_outputs g).
Definition set_outputs v (g : Gossipsub) : Gossipsub :=
  mk_Gossipsub (gs_config g) (gs_swarm g) (gs_control_pool g) (gs_publish_config g) (gs_duplicate_cache g)
    (gs_peer_protocols g) (gs_topic_peers g) (gs_peer_topics g) (gs_my_topics g) (gs_explicit_peers g)
    (gs_connected_peer g) (gs_blacklisted_peers g) (gs_mesh g) (gs_fanout g) (gs_fanout_last_pub g)
    (gs_backoffs g) (gs_mcache g) (gs_heartbeat_ticks g) (gs_px_peers g) (gs_outbound_peers g) (gs_peer_score
    g) (gs_count_received_ihave g) (gs_count_sent_iwant g) (gs_published_message_ids g)
    (gs_fast_message_id_cache g) (gs_subscription_filter g) (gs_next_chan g) (gs_draws g) v.

(** [new_with_subscription_filter_and_transform]; it panics when the backoff
    storage cannot be made. *)
Definition gossipsub_new (privacy : MessageAuthenticity) (c : Config) (f : SubscriptionFilter Regex) :
    option (result ConfigError Gossipsub) :=
  match validate_config privacy (c_validation_mode c) with
  | Err e => Some (Err e)
  | Ok _ =>
      bs ← bs_new (c_prune_backoff c) (c_heartbeat_interval c) (c_backoff_slack c);
      Some (Ok (mk_Gossipsub c false ∅ (PublishConfig_from privacy) (tc_new (c_duplicate_cache_time c)) ∅ ∅ ∅ ∅ ∅ ∅ ∅
        ∅ ∅ ∅ bs (mc_new (c_history_gossip c) (c_history_length c)) 0 ∅ ∅ None ∅ ∅
        (tc_new (c_published_message_ids_cache_time c)) (tc_new (c_duplicate_cache_time c)) f 0 0 []))
  end.

Definition put_out (os : list Output) (g : Gossipsub) : Gossipsub := set_outputs (gs_outputs g ++ os) g.
Definition draw (g : Gossipsub) : Gossipsub := set_draws (S (gs_draws g)) g.

(** An update of the score. *)
Definition on_score (f : PeerScore PeerId IpAddr → option (PeerScore PeerId IpAddr)) (g : Gossipsub) :
    option Gossipsub :=
  match gs_peer_score g with
  | Some sc => ps ← f (sc_score sc); Some (set_peer_score (Some (mk_Scoring ps (sc_thresholds sc) (sc_promises sc))) g)
  | None => Some g
  end.

Definition on_promises (f : gmap MessageId (gmap PeerId Instant) → gmap MessageId (gmap PeerId Instant))
    (g : Gossipsub) : Gossipsub :=
  match gs_peer_score g with
  | Some sc => set_peer_score (Some (mk_Scoring (sc_score sc) (sc_thresholds sc) (f (sc_promises sc)))) g
  | None => g
  end.

Definition score_below_threshold (g : Gossipsub) (p : PeerId) (threshold : PeerScoreThresholds → f64) : bool * f64 :=
  match gs_peer_score g with
  | Some sc =>
      let score := ps_score (sc_score sc) p in
      if (score <? threshold (sc_thresholds sc))%f64 then (true, score) else (false, score)
  | None => (false, f64_zero)
  end.

Definition below_zero (g : Gossipsub) (p : PeerId) : bool := (score_below_threshold g p (λ _, f64_zero)).1.

(** ** Helpers *)

Definition is_gossip_kind (k : option PeerKind) : bool :=
  match k with Some GossipsubV1 | Some Gossipsubv1_1 => true | _ => false end.

(** The draw is counted by the caller: the second component tells whether there was one. *)
Definition get_random_peers_dynamic (topic_peers : gmap TopicHash (gset PeerId)) (peer_protocols : gmap PeerId PeerKind)
    (t : TopicHash) (n_map : nat → nat) (f : PeerId → bool) (rng : nat) : gset PeerId * nat :=
  let gossip_peers :=
    match topic_peers !! t with
    | Some peer_list => filter (λ p, f p && is_gossip_kind (peer_protocols !! p) = true) (bt_iter peer_list)
    | None => []
    end in
  let n := n_map (length gossip_peers) in
  if length gossip_peers <=? n then (list_to_set gossip_peers, rng)
  else (list_to_set (take n (partial_shuffle rng n gossip_peers)), S rng).

Definition get_random_peers (topic_peers : gmap TopicHash (gset PeerId)) (peer_protocols : gmap PeerId PeerKind)
    (t : TopicHash) (n : nat) (f : PeerId → bool) (rng : nat) : gset PeerId * nat :=
  get_random_peers_dynamic topic_peers peer_protocols t (λ _, n) f rng.

Definition control_pool_add (p : PeerId) (a : Action) (g : Gossipsub) : Gossipsub :=
  set_control_pool (<[p := default [] (gs_control_pool g !! p) ++ [a]]> (gs_control_pool g)) g.

Definition send_message (g : Gossipsub) (p : PeerId) (rpc : ProtoRpc) : result PublishError Gossipsub :=
  let? bufs := fragment_message (c_max_transmit_size (gs_config g)) rpc in
  Ok match gs_connected_peer g !! p with
     | Some chan => put_out (OSend p chan <$> bufs) g
     | None => g
     end.

(** A call whose error is only logged. *)
Definition send_or_log (p : PeerId) (rpc : ProtoRpc) (g : Gossipsub) : Gossipsub :=
  match send_message g p rpc with Ok g => g | Err _ => g end.

(** The loops that stop at the first error. *)
Fixpoint send_all (g : Gossipsub) (peers : list PeerId) (rpc : ProtoRpc) : result PublishError () * Gossipsub :=
  match peers with
  | [] => (Ok (), g)
  | p :: peers => match send_message g p rpc with Ok g => send_all g peers rpc | Err e => (Err e, g) end
  end.

Definition subscriptions_rpc (subs : list GossipsubSubscription) : ProtoRpc :=
  rpc_into_protobuf (mk_GossipsubRpc [] subs [] : GossipsubRpc PeerId).
Definition messages_rpc (ms : list Raw) : ProtoRpc := rpc_into_protobuf (mk_GossipsubRpc ms [] []).
Definition control_rpc (actions : list Action) : ProtoRpc := rpc_into_protobuf (mk_GossipsubRpc [] [] actions).

Definition notify_subs (now : Instant) (m : Message) (g : Gossipsub) : Gossipsub :=
  match gs_my_topics g !! gm_topic m with Some chan => put_out [ONotify now chan m] g | None => g end.

(** ** Joining and leaving a topic *)

(** The peers a topic may take: not explicit, not below zero, not backed off. *)
Definition may_join (g : Gossipsub) (t : TopicHash) (p : PeerId) : bool :=
  negb (bool_decide (p ∈ gs_explicit_peers g)) && negb (below_zero g p) &&
  negb (is_backoff_with_slack (gs_backoffs g) t p).

(** The part of [join] that takes peers from the fanout. *)
Definition join_fanout (g : Gossipsub) (t : TopicHash) : gset PeerId * Gossipsub :=
  match gs_fanout g !! t with
  | Some peers =>
      let peers := filter (λ p, may_join g t p = true) peers in
      let add_peers := Nat.min (size peers) (c_mesh_n (gs_config g)) in
      let added : gset PeerId := list_to_set (take add_peers (bt_iter peers)) in
      (added,
       set_mesh (<[t := added]> (gs_mesh g))
         (set_fanout (delete t (gs_fanout g)) (set_fanout_last_pub (delete t (gs_fanout_last_pub g)) g)))
  | None => (∅, g)
  end.

(** The part of [join] that takes random peers. *)
Definition join_random (g : Gossipsub) (t : TopicHash) (added : gset PeerId) : gset PeerId * Gossipsub :=
  if size added <? c_mesh_n (gs_config g) then
    let '(new_peers, rng) :=
      get_random_peers (gs_topic_peers g) (gs_peer_protocols g) t (c_mesh_n (gs_config g) - size added)
        (λ p, negb (bool_decide (p ∈ added)) && may_join g t p) (gs_draws g) in
    (added ∪ new_peers,
     set_draws rng (set_mesh (<[t := default ∅ (gs_mesh g !! t) ∪ new_peers]> (gs_mesh g)) g))
  else (added, g).

Definition join (g : Gossipsub) (t : TopicHash) : option Gossipsub :=
  if decide (is_Some (gs_mesh g !! t)) then Some g
  else
    let '(added, g) := join_fanout g t in
    let '(added, g) := join_random g t added in
    foldlM (λ g p, g ← on_score (λ ps, ps_graft ps p t) g; Some (control_pool_add p (Graft t) g))
      g (hash_iter (elements added)).

(** [as_secs] of a duration. *)
Definition as_secs (d : Duration) : Z := (d / NANOS)%Z.

Definition make_prune (now : Instant) (g : Gossipsub) (t : TopicHash) (p : PeerId) (do_px : bool) :
    option (Action * Gossipsub) :=
  g ← on_score (λ ps, ps_prune ps p t) g;
  match gs_peer_protocols g !! p with
  | Some GossipsubV1 => Some (Prune t [] None, g)
  | _ =>
      let '(peers, rng) :=
        if do_px then
          let '(peers, rng) :=
            get_random_peers (gs_topic_peers g) (gs_peer_protocols g) t (c_prune_peers (gs_config g))
              (λ q, negb (bool_decide (q = p)) && negb (below_zero g q)) (gs_draws g) in
          (Some <$> bt_iter peers, rng)
        else ([], gs_draws g) in
      bs ← update_backoff now (gs_backoffs g) t p (c_prune_backoff (gs_config g));
      Some (Prune t peers (Some (as_secs (c_prune_backoff (gs_config g)))), set_backoffs bs (set_draws rng g))
  end.

(** The prunes of a peer, in order. *)
Fixpoint make_prunes (now : Instant) (g : Gossipsub) (p : PeerId) (do_px : bool) (ts : list TopicHash) :
    option (list Action * Gossipsub) :=
  match ts with
  | [] => Some ([], g)
  | t :: ts =>
      '(a, g) ← make_prune now g t p do_px;
      '(rest, g) ← make_prunes now g p do_px ts;
      Some (a :: rest, g)
  end.

Definition leave (now : Instant) (g : Gossipsub) (t : TopicHash) : option Gossipsub :=
  match gs_mesh g !! t with
  | Some peers =>
      foldlM (λ g p, '(control, g) ← make_prune now g t p (c_do_px (gs_config g)); Some (control_pool_add p control g))
        (set_mesh (delete t (gs_mesh g)) g) (bt_iter peers)
  | None => Some g
  end.

(** ** The interface *)

Inductive SubscriptionError := NotAllowed | SubscriptionPublishError (e : PublishError) | SubscriptionExist.

Definition subscribe (g : Gossipsub) (t : TopicHash) : option (result SubscriptionError bool * Gossipsub) :=
  if negb (can_subscribe regex_is_match (gs_subscription_filter g) t) then Some (Err NotAllowed, g)
  else if decide (is_Some (gs_mesh g !! t)) then Some (Ok false, g)
  else
    match send_all g (hash_iter (map_to_list (gs_peer_topics g)).*1) (subscriptions_rpc [mk_Subscription Subscribe t]) with
    | (Err e, g) => Some (Err (SubscriptionPublishError e), g)
    | (Ok _, g) => g ← join g t; Some (Ok true, g)
    end.

Definition unsubscribe (now : Instant) (g : Gossipsub) (t : TopicHash) : option (result PublishError bool * Gossipsub) :=
  if decide (gs_mesh g !! t = None) then Some (Ok false, g)
  else
    match send_all g (hash_iter (map_to_list (gs_peer_topics g)).*1) (subscriptions_rpc [mk_Subscription Unsubscribe t]) with
    | (Err e, g) => Some (Err e, g)
    | (Ok _, g) => g ← leave now g t; Some (Ok true, g)
    end.

(** The recipients of [forward_msg]. *)
Definition forward_recipients (g : Gossipsub) (m : Raw) (propagation_source : option PeerId) : gset PeerId :=
  filter (λ p, Some p ≠ propagation_source ∧ Some p ≠ source m) (default ∅ (gs_mesh g !! topic m)) ∪
  filter (λ p, Some p ≠ propagation_source ∧ Some p ≠ source m ∧
               topic m ∈ default ∅ (gs_peer_topics g !! p)) (gs_explicit_peers g).

Definition forward_msg (now : Instant) (g : Gossipsub) (mid : MessageId) (m : Raw) (propagation_source : option PeerId) :
    option (result PublishError bool * Gossipsub) :=
  g ← match propagation_source with
      | Some p => on_score (λ ps, deliver_message now ps p mid (topic m)) g
      | None => Some g
      end;
  let recipient_peers := forward_recipients g m propagation_source in
  if decide (recipient_peers = ∅) then Some (Ok false, g)
  else
    let '(r, g) := send_all g (hash_iter (elements recipient_peers)) (messages_rpc [m]) in
    Some (match r with Ok _ => Ok true | Err e => Err e end, g).

(** The peers above the threshold for publishing. *)
Definition above_publish (g : Gossipsub) (p : PeerId) : bool := negb (score_below_threshold g p publish_threshold).1.

(** The recipients [publish] selects from the peers of the topic, with the fanout
    it extends. *)
Definition publish_recipients (now : Instant) (g : Gossipsub) (t : TopicHash) : gset PeerId * Gossipsub :=
  match gs_topic_peers g !! t with
  | None => (∅, g)
  | Some set =>
      if c_flood_publish (gs_config g) then
        (filter (λ p, p ∈ gs_explicit_peers g ∨ above_publish g p = true) set, g)
      else
        let explicit := gs_explicit_peers g ∩ set in
        let floodsub : gset PeerId :=
          list_to_set (filter (λ p, gs_peer_protocols g !! p = Some Floodsub ∧ above_publish g p = true)
                         (map_to_list (gs_peer_protocols g)).*1) in
        if decide (gs_mesh g !! t = None) then
          let '(fanout_peers, g) :=
            match gs_fanout g !! t with
            | Some peers => (peers, g)
            | None =>
                let '(new_peers, rng) :=
                  get_random_peers (gs_topic_peers g) (gs_peer_protocols g) t (c_mesh_n (gs_config g))
                    (λ p, negb (bool_decide (p ∈ gs_explicit_peers g)) && above_publish g p) (gs_draws g) in
                (new_peers, set_draws rng (set_fanout (<[t := new_peers]> (gs_fanout g)) g))
            end in
          (explicit ∪ floodsub ∪ fanout_peers, set_fanout_last_pub (<[t := now]> (gs_fanout_last_pub g)) g)
        else (explicit ∪ floodsub, g)
  end.

Definition publish (now : Instant) (g : Gossipsub) (t : TopicHash) (d : bytes) :
    option (result PublishError MessageId * Gossipsub) :=
  match outbound_transform t d with
  | None => Some (Err PublishTransformFailed, g)
  | Some transformed =>
      match build_raw_message (random_u64 (gs_draws g)) (random_peer (gs_draws g)) (gs_publish_config g) t transformed with
      | Err e => Some (Err e, draw g)
      | Ok raw =>
          let g := draw g in
          mid ← message_id (gs_config g) (mk_GossipsubMessage (source raw) d (sequence_number raw) (topic raw));
          let event := messages_rpc [raw] in
          if (c_max_transmit_size (gs_config g) <? encoded_len (enc_rpc event))%Z then Some (Err MessageTooLarge, g)
          else if dc_contains (gs_duplicate_cache g) mid then Some (Err Duplicate, g)
          else
            '(forwarded, g) ← (if c_flood_publish (gs_config g) then Some (Ok false, g) else forward_msg now g mid raw None);
            match forwarded with
            | Err e => Some (Err e, g)
            | Ok mesh_peers_sent =>
                let '(recipient_peers, g) := publish_recipients now g (topic raw) in
                if bool_decide (recipient_peers = ∅) && negb mesh_peers_sent then Some (Err InsufficientPeers, g)
                else
                  let g := set_duplicate_cache (dc_insert now (gs_duplicate_cache g) mid).2 g in
                  '(_, mc) ← mc_put (gs_mcache g) mid raw;
                  let g := set_mcache mc g in
                  let g := match gs_publish_config g with
                           | RandomAuthor | Anonymous =>
                               if c_allow_self_origin (gs_config g) then g
                               else set_published_message_ids (dc_insert now (gs_published_message_ids g) mid).2 g
                           | _ => g
                           end in
                  let '(r, g) := send_all g (hash_iter (elements recipient_peers)) event in
                  Some (match r with Ok _ => Ok mid | Err e => Err e end, g)
            end
      end
  end.

Inductive MessageAcceptance := Accept | Reject | Ignore.

Definition report_message_validation_result (now : Instant) (g : Gossipsub) (mid : MessageId) (propagation_source : PeerId)
    (acceptance : MessageAcceptance) : option (result PublishError bool * Gossipsub) :=
  let reject reason :=
    let '(removed, mc) := mc_remove (gs_mcache g) mid in
    let g := set_mcache mc g in
    match removed with
    | Some raw => g ← on_score (λ ps, ps_reject_message now ps propagation_source mid (topic raw) reason) g; Some (Ok true, g)
    | None => Some (Ok false, g)
    end in
  match acceptance with
  | Accept =>
      let '(found, mc) := mc_validate (gs_mcache g) mid in
      let g := set_mcache mc g in
      match found with
      | Some raw =>
          '(r, g) ← forward_msg now g mid raw (Some propagation_source);
          Some (match r with Ok _ => Ok true | Err e => Err e end, g)
      | None => Some (Ok false, g)
      end
  | Reject => reject ValidationFailed
  | Ignore => reject ValidationIgnored
  end.

(** Dials a peer that is not connected; it panics before the router is started. *)
Definition check_explicit_peer_connection (g : Gossipsub) (p : PeerId) : option Gossipsub :=
  if decide (is_Some (gs_peer_topics g !! p)) then Some g
  else if gs_swarm g then
    q ← pid_from_bytes (to_bytes p);
    Some (put_out [ODial q] g)
  else None.

Definition add_explicit_peer (g : Gossipsub) (p : PeerId) : option Gossipsub :=
  check_explicit_peer_connection (set_explicit_peers ({[p]} ∪ gs_explicit_peers g) g) p.
Definition remove_explicit_peer (g : Gossipsub) (p : PeerId) : Gossipsub :=
  set_explicit_peers (gs_explicit_peers g ∖ {[p]}) g.
Definition blacklist_peer (g : Gossipsub) (p : PeerId) : Gossipsub :=
  set_blacklisted_peers ({[p]} ∪ gs_blacklisted_peers g) g.
Definition remove_blacklisted_peer (g : Gossipsub) (p : PeerId) : Gossipsub :=
  set_blacklisted_peers (gs_blacklisted_peers g ∖ {[p]}) g.

Inductive PeerScoreError := InvalidParams (e : ScoreParamsError) | InvalidThresholds (e : ThresholdsError) | SetTwice.

(** [with_peer_score_and_message_delivery_time_callback]. *)
Definition with_peer_score (g : Gossipsub) (params : PeerScoreParams IpAddr) (threshold : PeerScoreThresholds)
    (callback : bool) : result PeerScoreError Gossipsub :=
  let? _ := map_err InvalidParams (validate_score_params params) in
  let? _ := map_err InvalidThresholds (validate_thresholds threshold) in
  match gs_peer_score g with
  | Some _ => Err SetTwice
  | None => Ok (set_peer_score (Some (mk_Scoring (ps_new params callback) threshold ∅)) g)
  end.

Definition set_topic_params (g : Gossipsub) (t : TopicHash) (params : TopicScoreParams) : result () Gossipsub :=
  match gs_peer_score g with
  | Some sc =>
      Ok (set_peer_score (Some (mk_Scoring (ps_set_topic_params (sc_score sc) t params) (sc_thresholds sc) (sc_promises sc))) g)
  | None => Err ()
  end.

Definition set_application_score (g : Gossipsub) (p : PeerId) (new_score : f64) : bool * Gossipsub :=
  match gs_peer_score g with
  | Some sc =>
      let '(known, ps) := ps_set_application_score (sc_score sc) p new_score in
      (known, set_peer_score (Some (mk_Scoring ps (sc_thresholds sc) (sc_promises sc))) g)
  | None => (false, g)
  end.

(** ** Control messages *)

(** The ids of an IHAVE that are wanted. *)
Definition wanted_ids (g : Gossipsub) (ihave_msgs : list (TopicHash * list MessageId)) : gset MessageId :=
  foldl (λ ids x,
           if decide (is_Some (gs_mesh g !! x.1)) then
             foldl (λ ids id, if dc_contains (gs_duplicate_cache g) id then ids else {[id]} ∪ ids) ids x.2
           else ids) ∅ ihave_msgs.

Definition handle_ihave (now : Instant) (g : Gossipsub) (p : PeerId) (ihave_msgs : list (TopicHash * list MessageId)) :
    option Gossipsub :=
  let c := gs_config g in
  if (score_below_threshold g p gossip_threshold).1 then Some g
  else
    let peer_have := S (default 0 (gs_count_received_ihave g !! p)) in
    let g := set_count_received_ihave (<[p := peer_have]> (gs_count_received_ihave g)) g in
    if c_max_ihave_messages c <? peer_have then Some g
    else if match gs_count_sent_iwant g !! p with Some iasked => c_max_ihave_length c <=? iasked | None => false end
    then Some g
    else
      let iwant_ids := wanted_ids g ihave_msgs in
      if decide (iwant_ids = ∅) then Some g
      else
        let iasked := default 0 (gs_count_sent_iwant g !! p) in
        let iask := if c_max_ihave_length c <? iasked + size iwant_ids then c_max_ihave_length c - iasked
                    else size iwant_ids in
        let message_ids := take iask (partial_shuffle (gs_draws g) iask (hash_iter (elements iwant_ids))) in
        let g := draw (set_count_sent_iwant (<[p := iasked + iask]> (gs_count_sent_iwant g)) g) in
        g ← match gs_peer_score g with
            | Some _ =>
                expires ← instant_add now (c_iwant_followup_time c);
                Some (draw (on_promises (λ gp, add_promise (random_index (gs_draws g)) gp p message_ids expires) g))
            | None => Some g
            end;
        Some (control_pool_add p (IWant message_ids) g).

(** The loop over the ids of an IWANT. *)
Definition collect_iwant (p : PeerId) (st : gmap MessageId Raw * Gossipsub) (id : MessageId) :
    option (gmap MessageId Raw * Gossipsub) :=
  let '(cached, g) := st in
  '(r, mc) ← mc_get_with_iwant_counts (gs_mcache g) id p;
  let g := set_mcache mc g in
  Some match r with
       | Some (msg, count) =>
           if (c_gossip_retransimission (gs_config g) <? count)%Z then (cached, g) else (<[id := msg]> cached, g)
       | None => (cached, g)
       end.

Definition handle_iwant (g : Gossipsub) (p : PeerId) (iwant_msgs : list MessageId) : option Gossipsub :=
  if (score_below_threshold g p gossip_threshold).1 then Some g
  else
    '(cached, g) ← foldlM (collect_iwant p) (∅, g) iwant_msgs;
    if decide (cached = ∅) then Some g
    else Some (send_or_log p (messages_rpc (hash_iter (map_to_list cached)).*2) g).

(** A GRAFT that is not backed off: the score and the size of the mesh decide. *)
Definition graft_admit (p : PeerId) (negative : bool) (peers : gset PeerId) (t : TopicHash)
    (st : gset TopicHash * bool * Gossipsub) : option (gset TopicHash * bool * Gossipsub) :=
  let '(to_prune, do_px, g) := st in
  if negative then Some ({[t]} ∪ to_prune, false, g)
  else if (c_mesh_n_high (gs_config g) <=? size peers) && negb (bool_decide (p ∈ gs_outbound_peers g))
  then Some ({[t]} ∪ to_prune, do_px, g)
  else
    g ← on_score (λ ps, ps_graft ps p t) (set_mesh (<[t := {[p]} ∪ peers]> (gs_mesh g)) g);
    Some (to_prune, do_px, g).

(** One topic of a GRAFT, with the topics to prune and whether to exchange peers. *)
Definition graft_topic (now : Instant) (p : PeerId) (negative : bool) (st : gset TopicHash * bool * Gossipsub)
    (t : TopicHash) : option (gset TopicHash * bool * Gossipsub) :=
  let '(to_prune, do_px, g) := st in
  match gs_mesh g !! t with
  | None => Some (to_prune, false, g)
  | Some peers =>
      if decide (p ∈ peers) then Some st
      else
        match get_backoff_time (gs_backoffs g) t p with
        | Some backoff_time =>
            if (now <? backoff_time)%Z then
              g ← match gs_peer_score g with
                  | Some _ =>
                      g ← on_score (λ ps, Some (add_penalty ps p 1)) g;
                      cutoff ← instant_add backoff_time (c_graft_flood_threshold (gs_config g));
                      let flood_cutoff := (cutoff - c_prune_backoff (gs_config g))%Z in
                      if (now <? flood_cutoff)%Z then on_score (λ ps, Some (add_penalty ps p 1)) g else Some g
                  | None => Some g
                  end;
              Some ({[t]} ∪ to_prune, false, g)
            else graft_admit p negative peers t st
        | None => graft_admit p negative peers t st
        end
  end.

Definition handle_graft (now : Instant) (g : Gossipsub) (p : PeerId) (topics : list TopicHash) : option Gossipsub :=
  let do_px := c_do_px (gs_config g) in
  '(to_prune_topics, do_px, g) ←
    (if decide (p ∈ gs_explicit_peers g) then Some (list_to_set topics, false, g)
     else foldlM (graft_topic now p (below_zero g p)) (∅, do_px, g) topics);
  if decide (to_prune_topics = ∅) then Some g
  else
    '(prune_messages, g) ← make_prunes now g p do_px (hash_iter (elements to_prune_topics));
    Some (send_or_log p (control_rpc prune_messages) g).

Definition remove_peer_from_mesh (now : Instant) (g : Gossipsub) (p : PeerId) (t : TopicHash) (backoff : option Z)
    (always_update_backoff : bool) : option Gossipsub :=
  '(update, g) ←
    match gs_mesh g !! t with
    | Some peers =>
        if decide (p ∈ peers) then
          g ← on_score (λ ps, ps_prune ps p t) (set_mesh (<[t := peers ∖ {[p]}]> (gs_mesh g)) g);
          Some (true, g)
        else Some (always_update_backoff, g)
    | None => Some (always_update_backoff, g)
    end;
  if update : bool then
    let time := match backoff with Some secs => (secs * NANOS)%Z | None => c_prune_backoff (gs_config g) end in
    bs ← update_backoff now (gs_backoffs g) t p time;
    Some (set_backoffs bs g)
  else Some g.

(** Connects to a peer; it panics before the router is started. *)
Definition open_connection (g : Gossipsub) (p : PeerId) : option Gossipsub :=
  if gs_swarm g then Some (put_out [OOpenConnection p] g) else None.

Definition px_connect (g : Gossipsub) (px : list (option PeerId)) : option Gossipsub :=
  let n := c_prune_peers (gs_config g) in
  let ids := omap id px in
  let '(ids, g) := if n <? length ids then (take n (partial_shuffle (gs_draws g) n ids), draw g) else (ids, g) in
  foldlM (λ g p, open_connection (set_px_peers ({[p]} ∪ gs_px_peers g) g) p) g ids.

Definition handle_prune (now : Instant) (g : Gossipsub) (p : PeerId)
    (prune_data : list (TopicHash * list (option PeerId) * option Z)) : option Gossipsub :=
  let below := (score_below_threshold g p accept_px_threshold).1 in
  foldlM (λ g x,
    let '(t, px, backoff) := x in
    g ← remove_peer_from_mesh now g p t backoff true;
    if bool_decide (is_Some (gs_mesh g !! t)) && negb (bool_decide (px = [])) && negb below &&
       (0 <? c_prune_peers (gs_config g))
    then px_connect g px else Some g) g prune_data.

(** ** Messages *)

Definition reject (now : Instant) (g : Gossipsub) (from : PeerId) (mid : MessageId) (t : TopicHash)
    (reason : RejectReason) : option Gossipsub :=
  g ← on_score (λ ps, ps_reject_message now ps from mid t reason) g;
  Some (on_promises (λ gp, reject_message gp mid reason) g).

(** Whether a message claims to be published by the local node. *)
Definition self_published (g : Gossipsub) (mid : MessageId) (m : Raw) (propagation_source : PeerId) : bool :=
  negb (c_allow_self_origin (gs_config g)) &&
  match get_own_id (gs_publish_config g) with
  | Some own_id => bool_decide (own_id ≠ propagation_source) && bool_decide (source m = Some own_id)
  | None => dc_contains (gs_published_message_ids g) mid
  end.

(** [message_is_valid], with the message it changes. *)
Definition message_is_valid (now : Instant) (g : Gossipsub) (mid : MessageId) (m : Raw) (propagation_source : PeerId) :
    option (bool * Raw * Gossipsub) :=
  if decide (propagation_source ∈ gs_blacklisted_peers g) then
    g ← reject now g propagation_source mid (topic m) BlackListedPeer; Some (false, m, g)
  else if match source m with Some p => bool_decide (p ∈ gs_blacklisted_peers g) | None => false end then
    g ← reject now g propagation_source mid (topic m) BlackListedSource; Some (false, m, g)
  else
    let m := if c_validate_messages (gs_config g) then m else set_validated m in
    if self_published g mid m propagation_source then
      g ← reject now g propagation_source mid (topic m) SelfOrigin; Some (false, m, g)
    else Some (true, m, g).

Definition handle_invalid_message (now : Instant) (g : Gossipsub) (propagation_source : PeerId) (m : Raw)
    (e : ValidationError) : option Gossipsub :=
  match gs_peer_score g with
  | None => Some g
  | Some _ =>
      match id ← fast_message_id (gs_config g) m; tc_get (gs_fast_message_id_cache g) id with
      | Some mid => reject now g propagation_source mid (topic m) (RejectValidationError e)
      | None => on_score (λ ps, reject_invalid_message ps propagation_source (topic m)) g
      end
  end.

(** A message seen for the first time. *)
Definition deliver_new (now : Instant) (g : Gossipsub) (mid : MessageId) (m : Raw) (message : Message)
    (propagation_source : PeerId) : option Gossipsub :=
  let g := notify_subs now message g in
  g ← on_score (λ ps, Some (validate_message now ps propagation_source mid (gm_topic message))) g;
  let g := on_promises (λ gp, message_delivered gp mid) g in
  '(_, mc) ← mc_put (gs_mcache g) mid m;
  let g := set_mcache mc g in
  match gs_mesh g !! gm_topic message with
  | None => Some g
  | Some peer_list =>
      let g := foldl (λ g p, send_or_log p (messages_rpc [m]) g) g (bt_iter peer_list) in
      if c_validate_messages (gs_config g) then Some g
      else '(_, g) ← forward_msg now g mid m (Some propagation_source); Some g
  end.

Definition handle_received_message (now : Instant) (g : Gossipsub) (m : Raw) (propagation_source : PeerId) :
    option Gossipsub :=
  let fast_id := fast_message_id (gs_config g) m in
  match id ← fast_id; tc_get (gs_fast_message_id_cache g) id with
  | Some mid =>
      '(_, m, g) ← message_is_valid now g mid m propagation_source;
      on_score (λ ps, duplicated_message now ps propagation_source mid (topic m)) g
  | None =>
      match inbound_transform m with
      | None => handle_invalid_message now g propagation_source m TransformFailed
      | Some message =>
          mid ← message_id (gs_config g) message;
          '(valid, m, g) ← message_is_valid now g mid m propagation_source;
          if negb valid then Some g
          else
            let g := match fast_id with
                     | Some id => set_fast_message_id_cache (or_insert_with now (gs_fast_message_id_cache g) id mid).2 g
                     | None => g
                     end in
            let '(inserted, cache) := dc_insert now (gs_duplicate_cache g) mid in
            let g := set_duplicate_cache cache g in
            if negb inserted then
              on_score (λ ps, duplicated_message now ps propagation_source mid (gm_topic message)) g
            else deliver_new now g mid m message propagation_source
      end
  end.

(** One accepted subscription of a peer, with the grafts to send and the topics it left. *)
Definition apply_subscription (p : PeerId) (st : list Action * list TopicHash * Gossipsub) (s : GossipsubSubscription) :
    option (list Action * list TopicHash * Gossipsub) :=
  let '(grafts, gone, g) := st in
  let t := topic_hash s in
  let peer_list := default ∅ (gs_topic_peers g !! t) in
  let topics := default ∅ (gs_peer_topics g !! p) in
  match action s with
  | Subscribe =>
      let g := set_topic_peers (<[t := {[p]} ∪ peer_list]> (gs_topic_peers g))
                 (set_peer_topics (<[p := {[t]} ∪ topics]> (gs_peer_topics g)) g) in
      if negb (bool_decide (p ∈ gs_explicit_peers g)) && is_gossip_kind (gs_peer_protocols g !! p) &&
         negb (below_zero g p) && negb (is_backoff_with_slack (gs_backoffs g) t p) then
        match gs_mesh g !! t with
        | Some peers =>
            if (size peers <? c_mesh_n_low (gs_config g)) && bool_decide (p ∉ peers) then
              g ← on_score (λ ps, ps_graft ps p t) (set_mesh (<[t := {[p]} ∪ peers]> (gs_mesh g)) g);
              Some (grafts ++ [Graft t], gone, g)
            else Some (grafts, gone, g)
        | None => Some (grafts, gone, g)
        end
      else Some (grafts, gone, g)
  | Unsubscribe =>
      Some (grafts, gone ++ [t],
            set_topic_peers (<[t := peer_list ∖ {[p]}]> (gs_topic_peers g))
              (set_peer_topics (<[p := topics ∖ {[t]}]> (gs_peer_topics g)) g))
  end.

Definition handle_received_subscriptions (now : Instant) (g : Gossipsub) (subs : list GossipsubSubscription) (p : PeerId) :
    option Gossipsub :=
  match gs_peer_topics g !! p with
  | None => Some g
  | Some subscribed_topics =>
      match filter_incoming_subscriptions regex_is_match (gs_subscription_filter g) subs subscribed_topics with
      | Err _ => Some g
      | Ok filtered_topics =>
          '(grafts, gone, g) ← foldlM (apply_subscription p) ([], [], g) (hash_iter (elements filtered_topics));
          g ← foldlM (λ g t, remove_peer_from_mesh now g p t None false) g gone;
          Some match grafts with [] => g | _ => send_or_log p (control_rpc grafts) g end
      end
  end.

(** The loop over the control messages: IWANTs are handled at once, the others are grouped. *)
Record Grouped := mk_Grouped {
  gr_ihave : list (TopicHash * list MessageId);
  gr_graft : list TopicHash;
  gr_prune : list (TopicHash * list (option PeerId) * option Z)
}.

Definition control_step (p : PeerId) (st : Grouped * Gossipsub) (a : Action) : option (Grouped * Gossipsub) :=
  let '(gr, g) := st in
  match a with
  | IHave t ids => Some (mk_Grouped (gr_ihave gr ++ [(t, ids)]) (gr_graft gr) (gr_prune gr), g)
  | IWant ids => g ← handle_iwant g p ids; Some (gr, g)
  | Graft t => Some (mk_Grouped (gr_ihave gr) (gr_graft gr ++ [t]) (gr_prune gr), g)
  | Prune t peers backoff => Some (mk_Grouped (gr_ihave gr) (gr_graft gr) (gr_prune gr ++ [(t, peers, backoff)]), g)
  end.

Definition handle_control (now : Instant) (g : Gossipsub) (p : PeerId) (actions : list Action) : option Gossipsub :=
  '(gr, g) ← foldlM (control_step p) (mk_Grouped [] [] [], g) actions;
  g ← match gr_ihave gr with [] => Some g | l => handle_ihave now g p l end;
  g ← match gr_graft gr with [] => Some g | l => handle_graft now g p l end;
  match gr_prune gr with [] => Some g | l => handle_prune now g p l end.

Definition handle_message_event (now : Instant) (g : Gossipsub) (rpc : GossipsubRpc PeerId) (p : PeerId)
    (invalid_messages : list (Raw * ValidationError)) : option Gossipsub :=
  g ← match subscriptions rpc with [] => Some g | l => handle_received_subscriptions now g l p end;
  if (score_below_threshold g p graylist_threshold).1 then Some g
  else
    g ← foldlM (λ g x, handle_invalid_message now g p x.1 x.2) g invalid_messages;
    let processed := match c_max_messages_per_rpc (gs_config g) with
                     | Some n => take n (messages rpc)
                     | None => messages rpc
                     end in
    g ← foldlM (λ g m, handle_received_message now g m p) g processed;
    handle_control now g p (control_msgs rpc).

(** ** Peers *)

Definition handle_new_peer (g : Gossipsub) (p : PeerId) : option Gossipsub :=
  if decide (p ∈ gs_blacklisted_peers g) then Some g
  else if negb (gs_swarm g) then None
  else
    let chan := gs_next_chan g in
    let closed := match gs_connected_peer g !! p with Some old => [OCloseChannel old] | None => [] end in
    let g := put_out (closed ++ [OStreamTask p chan])
               (set_next_chan (S chan) (set_connected_peer (<[p := chan]> (gs_connected_peer g)) g)) in
    let subs := mk_Subscription Subscribe <$> hash_iter (map_to_list (gs_mesh g)).*1 in
    let g := match subs with [] => g | _ => send_or_log p (subscriptions_rpc subs) g end in
    let g := set_peer_topics (<[p := ∅]> (gs_peer_topics g)) g in
    on_score (λ ps, Some (ps_add_peer ps p)) g.

(** Takes a peer out of the sets of a map, for the topics given. *)
Definition remove_from_topics (p : PeerId) (topics : gset TopicHash) (m : gmap TopicHash (gset PeerId)) :
    gmap TopicHash (gset PeerId) :=
  foldl (λ m t, alter (λ peers, peers ∖ {[p]}) t m) m (elements topics).

Definition handle_remove_dead_peer (now : Instant) (g : Gossipsub) (p : PeerId) : option Gossipsub :=
  match gs_peer_topics g !! p with
  | None => Some g
  | Some topics =>
      let g := set_mesh (remove_from_topics p topics (gs_mesh g))
        (set_topic_peers (remove_from_topics p topics (gs_topic_peers g))
           (set_fanout (remove_from_topics p topics (gs_fanout g)) g)) in
      let g := set_px_peers (gs_px_peers g ∖ {[p]}) (set_outbound_peers (gs_outbound_peers g ∖ {[p]}) g) in
      let g := set_explicit_peers (gs_explicit_peers g ∖ {[p]}) g in
      let g := set_connected_peer (delete p (gs_connected_peer g)) g in
      let g := set_peer_topics (delete p (gs_peer_topics g)) (set_peer_protocols (delete p (gs_peer_protocols g)) g) in
      on_score (λ ps, ps_remove_peer now ps p) g
  end.

Inductive PeerEvent := EvPeerKind (p : PeerId) (k : PeerKind) | EvNewPeer (p : PeerId) | EvDeadPeer (p : PeerId).

Definition handle_peer_event (now : Instant) (g : Gossipsub) (e : PeerEvent) : option Gossipsub :=
  match e with
  | EvPeerKind p k =>
      match gs_peer_protocols g !! p with
      | Some _ => Some g
      | None => Some (set_peer_protocols (<[p := k]> (gs_peer_protocols g)) g)
      end
  | EvNewPeer p => handle_new_peer g p
  | EvDeadPeer p => handle_remove_dead_peer now g p
  end.

(** ** The heartbeat *)

Definition apply_iwant_penalties (now : Instant) (g : Gossipsub) : Gossipsub :=
  match gs_peer_score g with
  | Some sc =>
      let '(broken, gp) := get_broken_promises now (sc_promises sc) in
      let ps := foldl (λ ps x, add_penalty ps x.1 (Z.of_nat x.2)) (sc_score sc) (hash_iter (map_to_list broken)) in
      set_peer_score (Some (mk_Scoring ps (sc_thresholds sc) gp)) g
  | None => g
  end.

(** The score of a peer during the heartbeat. *)
Definition hb_score (g : Gossipsub) (p : PeerId) : f64 :=
  match gs_peer_score g with Some sc => ps_score (sc_score sc) p | None => f64_zero end.

(** What the maintenance of the mesh collects: the topics to graft and to prune by
    peer, the peers to prune without peer exchange, and the draws. *)
Record Maintenance := mk_Maintenance {
  to_graft : gmap PeerId (list TopicHash);
  to_prune : gmap PeerId (list TopicHash);
  no_px : gset PeerId;
  mt_draws : nat
}.

Definition push_topic (t : TopicHash) (m : gmap PeerId (list TopicHash)) (p : PeerId) : gmap PeerId (list TopicHash) :=
  <[p := default [] (m !! p) ++ [t]]> m.

Definition mt_graft (t : TopicHash) (peers : list PeerId) (mt : Maintenance) : Maintenance :=
  mk_Maintenance (foldl (push_topic t) (to_graft mt) peers) (to_prune mt) (no_px mt) (mt_draws mt).
Definition mt_prune (t : TopicHash) (peers : list PeerId) (mt : Maintenance) : Maintenance :=
  mk_Maintenance (to_graft mt) (foldl (push_topic t) (to_prune mt) peers) (no_px mt) (mt_draws mt).
Definition mt_no_px (peers : gset PeerId) (mt : Maintenance) : Maintenance :=
  mk_Maintenance (to_graft mt) (to_prune mt) (peers ∪ no_px mt) (mt_draws mt).
Definition mt_set_draws (n : nat) (mt : Maintenance) : Maintenance :=
  mk_Maintenance (to_graft mt) (to_prune mt) (no_px mt) n.

(** Drops the peers with a negative score. *)
Definition drop_negative (g : Gossipsub) (t : TopicHash) (peers : gset PeerId) (mt : Maintenance) :
    gset PeerId * Maintenance :=
  let to_remove := filter (λ p, (hb_score g p <? f64_zero)%f64 = true) (bt_iter peers) in
  (peers ∖ list_to_set to_remove, mt_no_px (list_to_set to_remove) (mt_prune t to_remove mt)).

(** The peers the mesh of a topic may take. *)
Definition may_graft (g : Gossipsub) (t : TopicHash) (peers : gset PeerId) (p : PeerId) : bool :=
  negb (bool_decide (p ∈ peers)) && negb (bool_decide (p ∈ gs_explicit_peers g)) &&
  negb (is_backoff_with_slack (gs_backoffs g) t p).

(** Grafts at most [n] random peers that satisfy [f]. *)
Definition graft_random (g : Gossipsub) (t : TopicHash) (n : nat) (f : PeerId → bool) (peers : gset PeerId)
    (mt : Maintenance) : gset PeerId * Maintenance :=
  let '(peer_list, rng) := get_random_peers (gs_topic_peers g) (gs_peer_protocols g) t n f (mt_draws mt) in
  (peers ∪ peer_list, mt_graft t (bt_iter peer_list) (mt_set_draws rng mt)).

(** Too few peers: the mesh is filled up to [mesh_n]. *)
Definition mesh_low (g : Gossipsub) (t : TopicHash) (peers : gset PeerId) (mt : Maintenance) :
    option (gset PeerId * Maintenance) :=
  let c := gs_config g in
  if size peers <? c_mesh_n_low c then
    if c_mesh_n c <? size peers then None
    else Some (graft_random g t (c_mesh_n c - size peers)
                 (λ p, may_graft g t peers p && (f64_zero <=? hb_score g p)%f64) peers mt)
  else Some (peers, mt).

(** The loop that removes peers; [removed] and [outbound] are its counters. *)
Fixpoint remove_excess (g : Gossipsub) (excess removed outbound : nat) (shuffled : list PeerId) : list PeerId :=
  match shuffled with
  | [] => []
  | p :: shuffled =>
      if removed =? excess then []
      else if bool_decide (p ∈ gs_outbound_peers g) then
        if outbound <=? c_mesh_outbound_min (gs_config g) then remove_excess g excess removed outbound shuffled
        else p :: remove_excess g excess (S removed) (outbound - 1) shuffled
      else p :: remove_excess g excess (S removed) outbound shuffled
  end.

Definition score_le (g : Gossipsub) (p1 p2 : PeerId) : bool := negb (hb_score g p2 <? hb_score g p1)%f64.

(** Too many peers: the mesh is cut to [mesh_n], the best [retain_scores] last. *)
Definition mesh_high (g : Gossipsub) (t : TopicHash) (peers : gset PeerId) (mt : Maintenance) :
    option (gset PeerId * Maintenance) :=
  let c := gs_config g in
  if c_mesh_n_high c <? size peers then
    if size peers <? c_mesh_n c then None
    else if size peers <? c_retain_scores c then None
    else
      let excess_peer_no := size peers - c_mesh_n c in
      let shuffled := sort_by (score_le g) (shuffle (mt_draws mt) (bt_iter peers)) in
      let k := size peers - c_retain_scores c in
      let shuffled := shuffle (S (mt_draws mt)) (take k shuffled) ++ drop k shuffled in
      let outbound := length (filter (λ p, p ∈ gs_outbound_peers g) shuffled) in
      let removed := remove_excess g excess_peer_no 0 outbound shuffled in
      Some (peers ∖ list_to_set removed, mt_prune t removed (mt_set_draws (S (S (mt_draws mt))) mt))
  else Some (peers, mt).

(** Too few outbound peers. *)
Definition mesh_outbound (g : Gossipsub) (t : TopicHash) (peers : gset PeerId) (mt : Maintenance) :
    gset PeerId * Maintenance :=
  let c := gs_config g in
  if c_mesh_n_low c <=? size peers then
    let outbound := size (filter (λ p, p ∈ gs_outbound_peers g) peers) in
    if outbound <? c_mesh_outbound_min c then
      graft_random g t (c_mesh_outbound_min c - outbound)
        (λ p, may_graft g t peers p && (f64_zero <=? hb_score g p)%f64 && bool_decide (p ∈ gs_outbound_peers g)) peers mt
    else (peers, mt)
  else (peers, mt).

(** The median score of the peers of a mesh. *)
Definition median_score (g : Gossipsub) (peers : gset PeerId) : option f64 :=
  let peers_by_score := sort_by (score_le g) (bt_iter peers) in
  let middle := length peers_by_score `div` 2 in
  if length peers_by_score `mod` 2 =? 0 then
    p1 ← peers_by_score !! (middle - 1);
    p2 ← peers_by_score !! middle;
    Some ((hb_score g p1 + hb_score g p2) * S754_finite false 1 (-1))%f64
  else hb_score g <$> peers_by_score !! middle.

(** Opportunistic grafting; the remainder panics when the number of ticks is zero. *)
Definition mesh_opportunistic (g : Gossipsub) (t : TopicHash) (peers : gset PeerId) (mt : Maintenance) :
    option (gset PeerId * Maintenance) :=
  let c := gs_config g in
  if c_opportunistic_graft_ticks c =? 0 then None
  else
    match gs_peer_score g with
    | Some sc =>
        if (gs_heartbeat_ticks g `mod` c_opportunistic_graft_ticks c =? 0) && (1 <? size peers) then
          median ← median_score g peers;
          if (median <? opportunistic_graft_threshold (sc_thresholds sc))%f64 then
            Some (graft_random g t (c_opportunistic_graft_peers c)
                    (λ p, may_graft g t peers p && (median <? hb_score g p)%f64) peers mt)
          else Some (peers, mt)
        else Some (peers, mt)
    | None => Some (peers, mt)
    end.

(** The maintenance of the mesh of one topic. *)
Definition maintain_topic (g : Gossipsub) (t : TopicHash) (peers : gset PeerId) (mt : Maintenance) :
    option (gset PeerId * Maintenance) :=
  let '(peers, mt) := drop_negative g t peers mt in
  '(peers, mt) ← mesh_low g t peers mt;
  '(peers, mt) ← mesh_high g t peers mt;
  let '(peers, mt) := mesh_outbound g t peers mt in
  mesh_opportunistic g t peers mt.

Definition maintain_step (g : Gossipsub) (st : gmap TopicHash (gset PeerId) * Maintenance) (x : TopicHash * gset PeerId) :
    option (gmap TopicHash (gset PeerId) * Maintenance) :=
  let '(m, mt) := st in
  '(peers, mt) ← maintain_topic g x.1 x.2 mt;
  Some (<[x.1 := peers]> m, mt).

Definition maintain_mesh (g : Gossipsub) : option (Maintenance * Gossipsub) :=
  '(m, mt) ← foldlM (maintain_step g) (gs_mesh g, mk_Maintenance ∅ ∅ ∅ (gs_draws g)) (hash_iter (map_to_list (gs_mesh g)));
  Some (mt, set_draws (mt_draws mt) (set_mesh m g)).

(** Removes the fanout topics nothing was published to for [fanout_ttl]. *)
Definition expire_fanout (now : Instant) (g : Gossipsub) : option Gossipsub :=
  let ttl := c_fanout_ttl (gs_config g) in
  if decide (Forall (λ x, is_Some (instant_add x.2 ttl)) (map_to_list (gs_fanout_last_pub g))) then
    let expired (last_pub : Instant) := (last_pub + ttl <? now)%Z in
    Some (set_fanout (filter (λ x, default false (expired <$> gs_fanout_last_pub g !! x.1) = false) (gs_fanout g))
            (set_fanout_last_pub (filter (λ x, expired x.2 = false) (gs_fanout_last_pub g)) g))
  else None.

(** The peers of a fanout topic that are kept, and the new ones. *)
Definition maintain_fanout_topic (g : Gossipsub) (t : TopicHash) (peers : gset PeerId) (rng : nat) : gset PeerId * nat :=
  let publish_threshold := match gs_peer_score g with
                           | Some sc => publish_threshold (sc_thresholds sc)
                           | None => f64_zero
                           end in
  let keep p := match gs_peer_topics g !! p with
                | Some topics => bool_decide (t ∈ topics) && negb (hb_score g p <? publish_threshold)%f64
                | None => false
                end in
  let peers := filter (λ p, keep p = true) peers in
  if size peers <? c_mesh_n (gs_config g) then
    let '(new_peers, rng) :=
      get_random_peers (gs_topic_peers g) (gs_peer_protocols g) t (c_mesh_n (gs_config g) - size peers)
        (λ p, negb (bool_decide (p ∈ peers)) && negb (bool_decide (p ∈ gs_explicit_peers g)) &&
              (hb_score g p <? publish_threshold)%f64) rng in
    (peers ∪ new_peers, rng)
  else (peers, rng).

Definition maintain_fanout_step (g : Gossipsub) (st : gmap TopicHash (gset PeerId) * nat) (x : TopicHash * gset PeerId) :
    gmap TopicHash (gset PeerId) * nat :=
  let '(m, rng) := st in
  let '(peers, rng) := maintain_fanout_topic g x.1 x.2 rng in (<[x.1 := peers]> m, rng).

Definition maintain_fanout (g : Gossipsub) : Gossipsub :=
  let '(m, rng) := foldl (maintain_fanout_step g) (gs_fanout g, gs_draws g) (hash_iter (map_to_list (gs_fanout g))) in
  set_draws rng (set_fanout m g).

(** [n_map] of [emit_gossip]. *)
Definition gossip_count (g : Gossipsub) (m : nat) : nat :=
  Nat.max (c_gossip_lazy (gs_config g))
    (Z.to_nat (f64_to_usize (c_gossip_factor (gs_config g) * f64_of_Z (Z.of_nat m))%f64)).

(** An IHAVE for one peer: at most [max_ihave_length] ids. *)
Definition gossip_to (t : TopicHash) (ids : list MessageId) (g : Gossipsub) (p : PeerId) : Gossipsub :=
  let max := c_max_ihave_length (gs_config g) in
  if max <? length ids then
    control_pool_add p (IHave t (take max (partial_shuffle (gs_draws g) max ids))) (draw g)
  else control_pool_add p (IHave t ids) g.

(** [emit_gossip]; it stops at the first topic without messages. *)
Fixpoint emit_gossip_loop (g : Gossipsub) (topics : list (TopicHash * gset PeerId)) : option Gossipsub :=
  match topics with
  | [] => Some g
  | (t, peers) :: topics =>
      ids ← mc_get_gossip_message_ids (gs_mcache g) t;
      match ids with
      | [] => Some g
      | _ =>
          let '(ids, g) := if c_max_ihave_length (gs_config g) <? length ids then (ids, g)
                           else (shuffle (gs_draws g) ids, draw g) in
          let '(to_msg_peers, rng) :=
            get_random_peers_dynamic (gs_topic_peers g) (gs_peer_protocols g) t (gossip_count g)
              (λ p, negb (bool_decide (p ∈ peers)) && negb (bool_decide (p ∈ gs_explicit_peers g)) &&
                    negb (score_below_threshold g p gossip_threshold).1) (gs_draws g) in
          emit_gossip_loop (foldl (gossip_to t ids) (set_draws rng g) (bt_iter to_msg_peers)) topics
      end
  end.

Definition emit_gossip (g : Gossipsub) : option Gossipsub :=
  emit_gossip_loop g (hash_iter (map_to_list (gs_mesh g)) ++ hash_iter (map_to_list (gs_fanout g))).

(** The grafts of one peer, with its prunes. *)
Definition send_graft (now : Instant) (no_px : gset PeerId) (st : gmap PeerId (list TopicHash) * Gossipsub)
    (x : PeerId * list TopicHash) : option (gmap PeerId (list TopicHash) * Gossipsub) :=
  let '(prunes, g) := st in
  let '(p, topics) := x in
  g ← foldlM (λ g t, on_score (λ ps, ps_graft ps p t) g) g topics;
  '(prune_msgs, g) ← match prunes !! p with
                     | Some ts => make_prunes now g p (c_do_px (gs_config g) && negb (bool_decide (p ∈ no_px))) ts
                     | None => Some ([], g)
                     end;
  Some (delete p prunes, send_or_log p (control_rpc ((Graft <$> topics) ++ prune_msgs)) g).

Definition send_prune (now : Instant) (no_px : gset PeerId) (g : Gossipsub) (x : PeerId * list TopicHash) : option Gossipsub :=
  let '(p, topics) := x in
  '(prune_msgs, g) ← make_prunes now g p (c_do_px (gs_config g) && negb (bool_decide (p ∈ no_px))) topics;
  Some (send_or_log p (control_rpc prune_msgs) g).

Definition send_graft_prune (now : Instant) (mt : Maintenance) (g : Gossipsub) : option Gossipsub :=
  '(prunes, g) ← foldlM (send_graft now (no_px mt)) (to_prune mt, g) (hash_iter (map_to_list (to_graft mt)));
  foldlM (send_prune now (no_px mt)) g (hash_iter (map_to_list prunes)).

Definition flush_control_pool (g : Gossipsub) : Gossipsub :=
  foldl (λ g x, send_or_log x.1 (control_rpc x.2) g) (set_control_pool ∅ g) (hash_iter (map_to_list (gs_control_pool g))).

(** The first part of [heartbeat]: backoffs, counters, penalties and explicit peers.
    The remainder panics when [check_explicit_peers_ticks] is zero. *)
Definition heartbeat_begin (now : Instant) (g : Gossipsub) : option Gossipsub :=
  let g := set_heartbeat_ticks (S (gs_heartbeat_ticks g)) g in
  bs ← bs_heartbeat now (gs_backoffs g);
  let g := set_backoffs bs g in
  let g := set_count_sent_iwant ∅ (set_count_received_ihave ∅ g) in
  let g := apply_iwant_penalties now g in
  if c_check_explicit_peers_ticks (gs_config g) =? 0 then None
  else if gs_heartbeat_ticks g `mod` c_check_explicit_peers_ticks (gs_config g) =? 0 then
    foldlM check_explicit_peer_connection g (hash_iter (elements (gs_explicit_peers g)))
  else Some g.

Definition heartbeat (now : Instant) (g : Gossipsub) : option Gossipsub :=
  g ← heartbeat_begin now g;
  '(mt, g) ← maintain_mesh g;
  g ← expire_fanout now g;
  let g := maintain_fanout g in
  g ← emit_gossip g;
  g ← (if bool_decide (to_graft mt = ∅) && bool_decide (to_prune mt = ∅) then Some g else send_graft_prune now mt g);
  let g := flush_control_pool g in
  mc ← mc_shift (gs_mcache g);
  Some (set_mcache mc g).

(** ** The main loop *)

Inductive ControlCommand :=
  | CmdPublish (t : TopicHash) (d : bytes)
  | CmdSubscribe (t : TopicHash)
  | CmdUnsubscribed (t : TopicHash)
  | CmdHeartbeat
  | CmdGetMeshPeer
  | CmdGetFanoutPeer
  | CmdGetKnownTopicByPeer.

(** The answers of the commands; a subscription is its receiver. *)
Inductive Reply :=
  | RNone
  | RPublished
  | RSubscribed (r : result SubscriptionError nat)
  | RPeers (m : gmap TopicHash (gset PeerId)).

Definition handle_command (now : Instant) (g : Gossipsub) (cmd : ControlCommand) : option (Reply * Gossipsub) :=
  match cmd with
  | CmdPublish t d => '(_, g) ← publish now g t d; Some (RPublished, g)
  | CmdSubscribe t =>
      '(r, g) ← subscribe g t;
      Some match r with
           | Ok false => (RSubscribed (Err SubscriptionExist), g)
           | Ok true =>
               let chan := gs_next_chan g in
               let topic_subs := default chan (gs_my_topics g !! t) in
               (RSubscribed (Ok chan), set_next_chan (S chan) (set_my_topics (<[t := topic_subs]> (gs_my_topics g)) g))
           | Err e => (RSubscribed (Err e), g)
           end
  | CmdUnsubscribed t =>
      '(_, g) ← unsubscribe now g t;
      Some match gs_my_topics g !! t with
           | Some chan => (RNone, put_out [OCloseChannel chan] (set_my_topics (delete t (gs_my_topics g)) g))
           | None => (RNone, g)
           end
  | CmdHeartbeat => g ← heartbeat now g; Some (RNone, g)
  | CmdGetMeshPeer => Some (RPeers (gs_mesh g), g)
  | CmdGetFanoutPeer => Some (RPeers (gs_fanout g), g)
  | CmdGetKnownTopicByPeer => Some (RNone, g)
  end.

Inductive HandlerEvent :=
  | EvMessage (propagation_source : PeerId) (rpc : GossipsubRpc PeerId) (invalid_messages : list (Raw * ValidationError))
  | EvPeer (e : PeerEvent)
  | EvHeartBeat.

Definition handle_event (now : Instant) (g : Gossipsub) (e : HandlerEvent) : option Gossipsub :=
  match e with
  | EvPeer pe => handle_peer_event now g pe
  | EvMessage p rpc invalid => handle_message_event now g rpc p invalid
  | EvHeartBeat => heartbeat now g
  end.

(** What the loop receives: an event, a command, or the end of a subscription; and
    the calls of the interface before the start. *)
Inductive GossipInput :=
  | InEvent (e : HandlerEvent)
  | InCommand (cmd : ControlCommand)
  | InCancel (t : TopicHash)
  | InReport (mid : MessageId) (p : PeerId) (acceptance : MessageAcceptance)
  | InAddExplicit (p : PeerId)
  | InRemoveExplicit (p : PeerId)
  | InBlacklist (p : PeerId)
  | InUnblacklist (p : PeerId)
  | InApplicationScore (p : PeerId) (score : f64)
  | InTopicParams (t : TopicHash) (params : TopicScoreParams).

Definition process_input (now : Instant) (g : Gossipsub) (i : GossipInput) : option Gossipsub :=
  match i with
  | InEvent e => handle_event now g e
  | InCommand cmd => snd <$> handle_command now g cmd
  | InCancel t => snd <$> unsubscribe now g t
  | InReport mid p acceptance => snd <$> report_message_validation_result now g mid p acceptance
  | InAddExplicit p => add_explicit_peer g p
  | InRemoveExplicit p => Some (remove_explicit_peer g p)
  | InBlacklist p => Some (blacklist_peer g p)
  | InUnblacklist p => Some (remove_blacklisted_peer g p)
  | InApplicationScore p score => Some (set_application_score g p score).2
  | InTopicParams t params => Some (match set_topic_params g t params with Ok g => g | Err _ => g end)
  end.

Definition gossip_run (g : Gossipsub) (inputs : list (Instant * GossipInput)) : option Gossipsub :=
  foldlM (λ g x, process_input x.1 g x.2) g inputs.

Definition start (g : Gossipsub) : Gossipsub := set_swarm true g.
End router.
Arguments Gossipsub _ _ _ {_ _ _ _} : assert.
