(* ===== verification/GossipsubInv.v ===== *)
(** * Invariants of the gossipsub router

    The router of [Gossipsub.v] never panics, under the conditions on its
    configuration and its clock that are collected in [setting_ok], and keeps the
    invariants of its tables: every peer a topic lists is known, the sizes of the
    meshes and the number of messages asked for are bounded, and no message is
    given to the application twice while it is remembered. *)

From Stdlib Require Import ZArith Lia SpecFloat.
From stdpp Require Import strings.
From S2P Require Import Prelude KadKey RecordStore KadProto Identity GossipCache Float64 PeerScore GossipRpc GossipConfig Gossipsub.

Local Open Scope nat_scope.

Local Abbreviation Instant := Z.
Local Abbreviation Duration := Z.

Section inv.
Context {PeerId IpAddr Regex : Type} `{!PeerIdType PeerId} `{!NodeIdentity PeerId} {codec : RpcCodec}.
Context `{!EqDecision IpAddr} `{!Countable IpAddr} {hord : HashOrder} `{!SetOrder PeerId} `{!RandCrate PeerId}.
Context `{!DataTransform PeerId} `{!RegexCrate Regex}.
Context {hlaws : HashOrderLaws} `{!RandLaws PeerId} `{!PeerIdLaws PeerId}.

Local Abbreviation Raw := (RawGossipsubMessage PeerId).
Local Abbreviation Message := (GossipsubMessage PeerId).
Local Abbreviation Action := (GossipsubControlAction PeerId).
Local Abbreviation Gossip := (Gossipsub PeerId IpAddr Regex).
Implicit Types (g : Gossip) (p : PeerId) (t : TopicHash).

(** ** Settings

    The configuration [c], a bound [horizon] of the clock, a bound [max_backoff]
    of the backoffs remote peers ask for, a bound [max_retain] of the time scores
    are retained, and the number [slots] of slots of the backoff storage. *)
Context (c : GossipsubConfig PeerId) (horizon : Instant) (max_backoff max_retain : Duration) (slots : nat).

Record setting_ok : Prop := {
  so_built : config_built c;
  so_history : 1 ≤ c_history_length c;
  so_explicit_ticks : c_check_explicit_peers_ticks c ≠ 0;
  so_opportunistic_ticks : c_opportunistic_graft_ticks c ≠ 0;
  so_retain_scores : c_retain_scores c ≤ S (c_mesh_n_high c);
  so_message_id m : is_Some (message_id c m);
  so_prune_backoff : (0 ≤ c_prune_backoff c ≤ max_backoff)%Z;
  so_backoffs : (horizon + max_backoff + c_heartbeat_interval c * c_backoff_slack c ≤ INSTANT_MAX)%Z;
  so_slots : (Z.of_nat slots + (max_backoff + c_heartbeat_interval c - 1) / c_heartbeat_interval c +
              c_backoff_slack c ≤ usize_max)%Z;
  so_flood : (horizon + max_backoff + c_graft_flood_threshold c ≤ INSTANT_MAX)%Z;
  so_followup : (horizon + c_iwant_followup_time c ≤ INSTANT_MAX)%Z;
  so_fanout : (horizon + c_fanout_ttl c ≤ INSTANT_MAX)%Z;
  so_retain : (horizon + max_retain ≤ INSTANT_MAX)%Z;
  so_duplicate : (0 ≤ c_duplicate_cache_time c)%Z
}.
Context (Hset : setting_ok).

(** ** The invariant *)

Definition score_ok (sc : option (@Scoring PeerId IpAddr _ _ _)) : Prop :=
  match sc with
  | Some sc => ps_ok (sc_score sc) ∧ (retain_score (ps_params (sc_score sc)) ≤ max_retain)%Z
  | None => True
  end.

Record backoff_ok (bs : BackoffStorage PeerId) : Prop := {
  bo_wf : bs_wf bs;
  bo_interval : heartbeat_interval bs = c_heartbeat_interval c;
  bo_slack : backoff_slack bs = c_backoff_slack c;
  bo_slots : length (backoffs_by_heartbeat bs) = slots;
  bo_bound t p b : get_backoff_time bs t p = Some b → (b ≤ horizon + max_backoff)%Z
}.

Record mcache_ok (n : Z) (mc : @MessageCache PeerId _ _) : Prop := {
  mo_wf : mc_wf mc;
  mo_counts : counts_below n mc
}.

(** ** Minor steps

    Most helpers change only the score, the backoffs, the draws, the outputs and
    the pool of control messages; they notify nobody, and pool no IWANT. *)
Definition iwant_ids (a : Action) : nat := match a with IWant ids => length ids | _ => 0 end.

Definition pool_iwants (pool : gmap PeerId (list Action)) p : nat :=
  sum_list_with iwant_ids (default [] (pool !! p)).

Definition quiet (o : @Output PeerId) : Prop := match o with ONotify _ _ _ => False | _ => True end.

Definition minor g g' : Prop :=
  ∃ sc bs n os pool,
    g' = set_control_pool pool (set_peer_score sc (set_backoffs bs (set_draws n (put_out os g)))) ∧
    (score_ok (gs_peer_score g) → score_ok sc) ∧ (backoff_ok (gs_backoffs g) → backoff_ok bs) ∧ Forall quiet os ∧
    ∀ p, pool_iwants pool p = pool_iwants (gs_control_pool g) p.

(** The components of a state that a minor step leaves alone. *)
Local Ltac minor_eta := unfold put_out; rewrite ?app_nil_r; match goal with g : Gossip |- _ => by destruct g end.

Lemma minor_refl g : minor g g.
Proof.
  exists (gs_peer_score g), (gs_backoffs g), (gs_draws g), [], (gs_control_pool g). split; [minor_eta|by auto].
Qed.

Lemma minor_trans g1 g2 g3 : minor g1 g2 → minor g2 g3 → minor g1 g3.
Proof.
  intros (sc&bs&n&os&pool&->&Hsc&Hbs&Hos&Hp) (sc'&bs'&n'&os'&pool'&->&Hsc'&Hbs'&Hos'&Hp'). simpl in *.
  exists sc', bs', n', (os ++ os'), pool'. split; [|split_and!; [auto|auto|by apply Forall_app|]].
  - unfold put_out. simpl. by rewrite (assoc_L (++)).
  - intros p. by rewrite Hp', Hp.
Qed.

(** What a minor step needs of a state, and keeps. *)
Record minor_ok g : Prop := {
  mi_config : gs_config g = c;
  mi_swarm : gs_swarm g = true;
  mi_score : score_ok (gs_peer_score g);
  mi_backoffs : backoff_ok (gs_backoffs g)
}.

Lemma minor_keeps g g' : minor g g' → minor_ok g → minor_ok g'.
Proof. intros (sc&bs&n&os&pool&->&Hsc&Hbs&Hos&_) [Hc Hw Hs Hb]. split; simpl; auto. Qed.

Lemma minor_score sc g : (score_ok (gs_peer_score g) → score_ok sc) → minor g (set_peer_score sc g).
Proof.
  intros Hsc. exists sc, (gs_backoffs g), (gs_draws g), [], (gs_control_pool g). split; [minor_eta|auto].
Qed.

Lemma minor_backoffs bs g : (backoff_ok (gs_backoffs g) → backoff_ok bs) → minor g (set_backoffs bs g).
Proof.
  intros Hbs. exists (gs_peer_score g), bs, (gs_draws g), [], (gs_control_pool g). split; [minor_eta|auto].
Qed.

Lemma minor_draws n g : minor g (set_draws n g).
Proof.
  exists (gs_peer_score g), (gs_backoffs g), n, [], (gs_control_pool g). split; [minor_eta|auto].
Qed.

Lemma minor_out os g : Forall quiet os → minor g (put_out os g).
Proof.
  intros Hos. exists (gs_peer_score g), (gs_backoffs g), (gs_draws g), os, (gs_control_pool g). split; [minor_eta|auto].
Qed.

Lemma minor_pool p a g : iwant_ids a = 0 → minor g (control_pool_add p a g).
Proof.
  intros Ha. exists (gs_peer_score g), (gs_backoffs g), (gs_draws g), []. eexists. split; [minor_eta|].
  split_and!; [auto|auto|auto|]. intros q. unfold pool_iwants. destruct (decide (q = p)) as [->|Hne].
  - rewrite lookup_insert_eq. simpl. rewrite sum_list_with_app. simpl. lia.
  - by rewrite lookup_insert_ne.
Qed.

Lemma minor_on_score op g :
  (∀ retain, (retain ≤ max_retain)%Z → ps_op_ok retain op) → minor_ok g →
  ∃ g', on_score (λ ps, ps_exec ps op) g = Some g' ∧ minor g g'.
Proof.
  intros Hop [_ _ Hs _]. unfold on_score. destruct (gs_peer_score g) as [sc|] eqn:Hsc; [|eauto using minor_refl].
  destruct Hs as [Hok Hr]. destruct (ps_exec_ok _ op _ Hok eq_refl (Hop _ Hr)) as (ps&->&Hok'&Hp). simpl.
  eexists. split; [done|]. apply minor_score. intros _. split; simpl; [done|]. lia.
Qed.

Lemma minor_on_promises f g : minor g (on_promises f g).
Proof.
  unfold on_promises. destruct (gs_peer_score g) as [sc|] eqn:Hsc; [|apply minor_refl].
  apply minor_score. by rewrite Hsc.
Qed.

Lemma minor_send_message g p rpc g' : send_message g p rpc = Ok g' → minor g g'.
Proof.
  unfold send_message. destruct (fragment_message _ rpc) as [bufs|]; [|done]. simpl. intros [= <-].
  destruct (gs_connected_peer g !! p); [|apply minor_refl]. apply minor_out, Forall_fmap, Forall_true. done.
Qed.

Lemma minor_send_or_log p rpc g : minor g (send_or_log p rpc g).
Proof.
  unfold send_or_log. destruct (send_message g p rpc) as [g'|] eqn:Hs; [by eapply minor_send_message|apply minor_refl].
Qed.

Lemma minor_send_all g ps rpc : minor g (send_all g ps rpc).2.
Proof.
  revert g. induction ps as [|p ps IH]; intros g; simpl; [apply minor_refl|].
  destruct (send_message g p rpc) as [g'|] eqn:Hs; simpl; [|apply minor_refl].
  eapply minor_trans; [by eapply minor_send_message|done].
Qed.

Lemma minor_foldl {A} (f : Gossip → A → Gossip) g l : (∀ g x, minor g (f g x)) → minor g (foldl f g l).
Proof.
  intros Hf. revert g. induction l as [|x l IH]; intros g; simpl; [apply minor_refl|].
  eapply minor_trans; [apply Hf|done].
Qed.

Lemma minor_foldlM {A} (f : Gossip → A → option Gossip) g l :
  (∀ g x, x ∈ l → minor_ok g → ∃ g', f g x = Some g' ∧ minor g g') → minor_ok g →
  ∃ g', foldlM f g l = Some g' ∧ minor g g'.
Proof.
  intros Hf Hg. destruct (foldlM_total (λ g', minor_ok g' ∧ minor g g') f g l) as (g'&?&?&?); [|..|by eauto].
  - split; [done|apply minor_refl].
  - intros g1 x Hx [Hg1 Hm]. destruct (Hf g1 x Hx Hg1) as (g2&Hg2&Hm2). exists g2. split; [done|].
    split; [by eapply minor_keeps|by eapply minor_trans].
Qed.

Lemma backoff_update_ok now bs t p time :
  (now ≤ horizon)%Z → (0 ≤ time ≤ max_backoff)%Z → backoff_ok bs →
  ∃ bs', update_backoff now bs t p time = Some bs' ∧ backoff_ok bs'.
Proof.
  intros Hnow Htime [Hwf Hi Hs Hl Hb].
  destruct (update_backoff_effect bs now t p time Hwf) as (bs'&Hup&Hwf'&(Hl'&Hi'&Hs')&_&Hget&Hother).
  { unfold backoff_fits, slack_time. rewrite Hi, Hs, Hl. pose proof (so_backoffs Hset). pose proof (so_slots Hset).
    destruct (bw_interval _ Hwf) as [Hpos _]. rewrite Hi in Hpos.
    pose proof (Z.div_le_mono (time + c_heartbeat_interval c - 1) (max_backoff + c_heartbeat_interval c - 1)
      (c_heartbeat_interval c) Hpos ltac:(lia)). lia. }
  exists bs'. split; [done|]. split; [done|congruence..|]. intros t' p' b.
  destruct (decide ((t', p') = (t, p))) as [[= -> ->]|Hne].
  - rewrite Hget. intros [= <-]. destruct (get_backoff_time bs t p) as [b0|] eqn:Hb0; simpl.
    + specialize (Hb _ _ _ Hb0). lia.
    + lia.
  - unfold get_backoff_time. rewrite Hother by done. apply Hb.
Qed.

Lemma minor_update_backoff now g t p time :
  (now ≤ horizon)%Z → (0 ≤ time ≤ max_backoff)%Z → minor_ok g →
  ∃ bs, update_backoff now (gs_backoffs g) t p time = Some bs ∧ minor g (set_backoffs bs g).
Proof.
  intros Hnow Htime [_ _ _ Hb]. destruct (backoff_update_ok now _ t p time Hnow Htime Hb) as (bs&Hup&Hok).
  exists bs. split; [done|]. by apply minor_backoffs.
Qed.

(** The scores of a graft and a prune. *)
Lemma minor_graft p t g : minor_ok g → ∃ g', on_score (λ ps, ps_graft ps p t) g = Some g' ∧ minor g g'.
Proof. exact (minor_on_score (PsGraft p t) g (λ _ _, I)). Qed.

Lemma minor_prune p t g : minor_ok g → ∃ g', on_score (λ ps, ps_prune ps p t) g = Some g' ∧ minor g g'.
Proof. exact (minor_on_score (PsPrune p t) g (λ _ _, I)). Qed.

Lemma minor_make_prune now g t p do_px :
  (now ≤ horizon)%Z → minor_ok g → ∃ a g', make_prune now g t p do_px = Some (a, g') ∧ minor g g'.
Proof.
  intros Hnow Hg. unfold make_prune. destruct (minor_prune p t g Hg) as (g1&->&Hm1). simpl.
  assert (Hg1 : minor_ok g1) by (by eapply minor_keeps).
  assert (Hrest : ∀ (peers : list (option PeerId)) rng, ∃ a g',
    (bs ← update_backoff now (gs_backoffs g1) t p (c_prune_backoff (gs_config g1));
     Some (Prune t peers (Some (as_secs (c_prune_backoff (gs_config g1)))), set_backoffs bs (set_draws rng g1))) =
    Some (a, g') ∧ minor g g').
  { intros peers rng. rewrite (mi_config _ Hg1).
    destruct (backoff_update_ok now _ t p _ Hnow (so_prune_backoff Hset) (mi_backoffs _ Hg1)) as (bs&->&Hok).
    eexists _, _. split; [done|]. eapply minor_trans; [exact Hm1|].
    eapply minor_trans; [apply (minor_draws rng)|]. by apply minor_backoffs. }
  set (pr := if do_px then _ else _). destruct pr as [peers rng].
  destruct (gs_peer_protocols g1 !! p) as [[]|]; eauto.
Qed.

Lemma minor_make_prunes now g p do_px ts :
  (now ≤ horizon)%Z → minor_ok g → ∃ l g', make_prunes now g p do_px ts = Some (l, g') ∧ minor g g'.
Proof.
  intros Hnow. revert g. induction ts as [|t ts IH]; intros g Hg; simpl; [eauto using minor_refl|].
  destruct (minor_make_prune now g t p do_px Hnow Hg) as (a&g1&->&Hm1). simpl.
  destruct (IH g1) as (l&g2&->&Hm2); [by eapply minor_keeps|]. simpl. eauto using minor_trans.
Qed.

Lemma minor_forward_msg now g mid m src :
  minor_ok g → ∃ r g', forward_msg now g mid m src = Some (r, g') ∧ minor g g'.
Proof.
  intros Hg. unfold forward_msg.
  assert (∃ g1, match src with
                | Some p => on_score (λ ps, deliver_message now ps p mid (topic m)) g
                | None => Some g
                end = Some g1 ∧ minor g g1) as (g1&->&Hm1).
  { destruct src as [p|]; [|eauto using minor_refl]. exact (minor_on_score (PsDeliver now p mid (topic m)) g (λ _ _, I) Hg). }
  simpl. case_decide; [by eauto|]. pose proof (minor_send_all g1 (hash_iter (elements (forward_recipients g1 m src)))
    (messages_rpc [m])) as Hm2. destruct (send_all _ _ _) as [r g2]. eauto using minor_trans.
Qed.

Lemma minor_reject now g from mid t reason :
  minor_ok g → ∃ g', reject now g from mid t reason = Some g' ∧ minor g g'.
Proof.
  intros Hg. unfold reject. 
  destruct (minor_on_score (PsReject now from mid t reason) g (λ _ _, I) Hg) as (g1&Hs&Hm).
  cbn [ps_exec] in Hs. rewrite Hs. simpl. eexists. split; [done|]. eapply minor_trans; [done|]. apply minor_on_promises.
Qed.

Lemma minor_message_is_valid now g mid m src :
  minor_ok g → ∃ v m' g', message_is_valid now g mid m src = Some (v, m', g') ∧ minor g g' ∧ topic m' = topic m.
Proof.
  intros Hg. unfold message_is_valid. case_decide.
  { destruct (minor_reject now g src mid (topic m) BlackListedPeer Hg) as (g'&->&?). simpl. by eauto 10. }
  destruct (match source m with Some _ => _ | None => false end).
  { destruct (minor_reject now g src mid (topic m) BlackListedSource Hg) as (g'&->&?). simpl. by eauto 10. }
  set (m1 := if c_validate_messages _ then m else _).
  assert (topic m1 = topic m) as Ht by (subst m1; by destruct (c_validate_messages _)).
  destruct (self_published g mid m1 src).
  - destruct (minor_reject now g src mid (topic m1) SelfOrigin Hg) as (g'&->&?). simpl. by eauto 10.
  - eexists _, _, _. split; [done|]. split; [apply minor_refl|done].
Qed.

Lemma minor_handle_invalid_message now g src m e :
  minor_ok g → ∃ g', handle_invalid_message now g src m e = Some g' ∧ minor g g'.
Proof.
  intros Hg. unfold handle_invalid_message. destruct (gs_peer_score g); [|eauto using minor_refl].
  destruct (fast_message_id _ m ≫= _); [by apply minor_reject|].
  exact (minor_on_score (PsRejectInvalid src (topic m)) g (λ _ _, I) Hg).
Qed.

Lemma minor_check_explicit g p :
  minor_ok g → ∃ g', check_explicit_peer_connection g p = Some g' ∧ minor g g'.
Proof.
  intros Hg. unfold check_explicit_peer_connection. case_decide; [eauto using minor_refl|].
  rewrite (mi_swarm _ Hg), pid_from_to. simpl. eexists. split; [done|]. by apply minor_out, Forall_singleton.
Qed.

Lemma minor_duplicated now g src mid t :
  minor_ok g → ∃ g', on_score (λ ps, duplicated_message now ps src mid t) g = Some g' ∧ minor g g'.
Proof. exact (minor_on_score (PsDuplicated now src mid t) g (λ _ _, I)). Qed.

Lemma minor_make_prune_pool now g t p do_px :
  (now ≤ horizon)%Z → minor_ok g →
  ∃ g', ('(control, g) ← make_prune now g t p do_px; Some (control_pool_add p control g)) = Some g' ∧ minor g g'.
Proof.
  intros Hnow Hg. destruct (minor_make_prune now g t p do_px Hnow Hg) as (a&g'&Ha&Hm). rewrite Ha. simpl.
  eexists. split; [done|]. eapply minor_trans; [done|]. apply minor_pool.
  unfold make_prune in Ha. destruct (on_score _ g) as [g1|]; [|done]. simpl in Ha.
  destruct (if do_px then _ else _) as [peers rng]. destruct (update_backoff now (gs_backoffs g1) t p _);
    destruct (gs_peer_protocols g1 !! p) as [[]|]; simplify_eq/=; done.
Qed.

(** ** The tables *)

Definition mesh_bound : nat := c_mesh_n_high c + c_opportunistic_graft_peers c.

(** The notifications with the ids of their messages. *)
Definition notification (o : @Output PeerId) : option (Instant * MessageId) :=
  match o with ONotify at_time _ m => mid ← message_id c m; Some (at_time, mid) | _ => None end.

(** Newest first: occurrences of an id are at least the lifetime of the cache apart. *)
Definition spaced (acc : list (Instant * MessageId)) : Prop :=
  StronglySorted (λ a b, a.2 = b.2 → b.1 + c_duplicate_cache_time c ≤ a.1)%Z acc.

(** The cache remembers the accepted messages, which include the notified ones. *)
Definition seen_ok (last : Instant) (cache : TimeCache MessageId unit) (os : list Output) : Prop :=
  ∃ acc, dc_agrees last cache acc ∧ tc_ttl cache = c_duplicate_cache_time c ∧ spaced acc ∧
    sublist (omap notification os) (reverse acc).

Record tables_ok g : Prop := {
  tb_topics p ts t : gs_peer_topics g !! p = Some ts → t ∈ ts → ∃ ps, gs_topic_peers g !! t = Some ps ∧ p ∈ ps;
  tb_connected p : is_Some (gs_connected_peer g !! p) ↔ is_Some (gs_peer_topics g !! p);
  tb_fanout t : is_Some (gs_fanout g !! t) ↔ is_Some (gs_fanout_last_pub g !! t);
  tb_last_pub t x : gs_fanout_last_pub g !! t = Some x → (x ≤ horizon)%Z;
  tb_disjoint t : is_Some (gs_mesh g !! t) → gs_fanout g !! t = None;
  tb_mesh t ps : gs_mesh g !! t = Some ps → size ps ≤ mesh_bound;
  tb_fanout_size t ps : gs_fanout g !! t = Some ps → size ps ≤ c_mesh_n c;
  tb_outbound : gs_outbound_peers g = ∅
}.

(** [n] bounds the counters of IWANTs, [last] is the time of the last event. *)
Record gossip_core (n : Z) (last : Instant) g : Prop := {
  gc_minor : minor_ok g;
  gc_mcache : mcache_ok n (gs_mcache g);
  gc_tables : tables_ok g;
  gc_seen : seen_ok last (gs_duplicate_cache g) (gs_outputs g)
}.

(** What was asked for since the last heartbeat is counted, and bounded. *)
Definition iwant_ok g : Prop :=
  ∀ p, pool_iwants (gs_control_pool g) p ≤ default 0 (gs_count_sent_iwant g !! p) ≤ c_max_ihave_length c.

Definition gossip_inv (n : Z) (last : Instant) g : Prop := gossip_core n last g ∧ iwant_ok g.

Lemma seen_quiet last cache os os' : Forall quiet os' → seen_ok last cache os → seen_ok last cache (os ++ os').
Proof.
  intros Hq (acc&Ha&Ht&Hs&Hsub). exists acc. split_and!; try done. rewrite omap_app.
  replace (omap notification os') with (@nil (Instant * MessageId)); [by rewrite app_nil_r|].
  symmetry. induction Hq as [|o os' Ho Hq IH]; [done|]. cbn. rewrite IH. by destruct o.
Qed.

Lemma seen_later last now cache os : (last ≤ now)%Z → seen_ok last cache os → seen_ok now cache os.
Proof.
  intros Hle (acc&[Hwf Ha]&Ht&Hs&Hsub). exists acc. split_and!; try done. split.
  - destruct Hwf as [? ? ? Hb ?]. split; try done. eapply Forall_impl; [exact Hb|]. simpl. intros. lia.
  - intros now' k Hn. apply Ha. lia.
Qed.

Lemma seen_insert last now cache os mid b cache' :
  seen_ok last cache os → (last ≤ now)%Z → dc_insert now cache mid = (b, cache') →
  seen_ok now cache' os ∧
  ∀ chan m, b = true → message_id c m = Some mid → seen_ok now cache' (os ++ [ONotify now chan m]).
Proof.
  intros (acc&Ha&Ht&Hs&Hsub) Hle Hins. pose proof (dc_insert_agrees last now cache acc mid Ha Hle) as Hd.
  rewrite Hins, Ht in Hd. destruct Hd as (->&Ht'&Ha').
  destruct (seen_within (c_duplicate_cache_time c) acc now mid) eqn:Hdup.
  - split; [|done]. by exists acc.
  - assert (Hsp : spaced ((now, mid) :: acc)).
    { constructor; [done|]. apply Forall_forall. intros [x k] Hx. simpl. intros <-.
      apply not_true_iff_false in Hdup. rewrite seen_within_true in Hdup.
      apply Z.nlt_ge. intros Hlt. apply Hdup. eauto. }
    split; [|intros chan m _ Hm]; exists ((now, mid) :: acc); (split_and!; [done|congruence|done|]);
      rewrite reverse_cons.
    + by apply sublist_inserts_r.
    + rewrite omap_app. cbn. rewrite Hm. cbn. by apply sublist_app.
Qed.

Lemma core_later n last now g : (last ≤ now)%Z → gossip_core n last g → gossip_core n now g.
Proof. intros Hle [? ? ? ?]. split; try done. by eapply seen_later. Qed.

Lemma minor_core n last g g' : minor g g' → gossip_core n last g → gossip_core n last g'.
Proof.
  intros Hm [Hmi Hmc Htb Hse]. pose proof (minor_keeps _ _ Hm Hmi).
  destruct Hm as (sc&bs&k&os&pool&->&_&_&Hos&_). split; simpl; [done|done| |by apply seen_quiet].
  by destruct Htb.
Qed.

Lemma minor_iwant g g' : minor g g' → iwant_ok g → iwant_ok g'.
Proof. intros (sc&bs&k&os&pool&->&_&_&_&Hp) Hi p. simpl. rewrite Hp. apply Hi. Qed.

Lemma minor_inv n last g g' : minor g g' → gossip_inv n last g → gossip_inv n last g'.
Proof. intros Hm [Hc Hi]. split; [by eapply minor_core|by eapply minor_iwant]. Qed.

Lemma minor_fields g g' :
  minor g g' → gs_mesh g' = gs_mesh g ∧ gs_fanout g' = gs_fanout g ∧ gs_peer_topics g' = gs_peer_topics g ∧
    gs_topic_peers g' = gs_topic_peers g ∧ gs_mcache g' = gs_mcache g ∧ gs_config g' = gs_config g ∧
    gs_explicit_peers g' = gs_explicit_peers g ∧ gs_my_topics g' = gs_my_topics g.
Proof. by intros (sc&bs&k&os&pool&->&_). Qed.

(** ** Random peers *)

Lemma bt_iter_perm (s : gset PeerId) : bt_iter s ≡ₚ elements s.
Proof. apply sort_by_perm. Qed.

Lemma size_list_to_set_le (l : list PeerId) : size (list_to_set l : gset PeerId) ≤ length l.
Proof. clear Hset c horizon max_backoff max_retain slots.
  induction l as [|x l IH]; [by rewrite list_to_set_nil, size_empty|]. rewrite list_to_set_cons. simpl.
  pose proof (size_union_alt {[x]} (list_to_set l : gset PeerId)).
  assert (size (list_to_set l ∖ {[x]} : gset PeerId) ≤ size (list_to_set l : gset PeerId)) by (apply subseteq_size; set_solver).
  rewrite size_singleton in *. lia.
Qed.

(** The candidates of a topic. *)
Definition candidate (topic_peers : gmap TopicHash (gset PeerId)) (kinds : gmap PeerId PeerKind) t
    (f : PeerId → bool) p : Prop :=
  (∃ l, topic_peers !! t = Some l ∧ p ∈ l) ∧ f p = true ∧ is_gossip_kind (kinds !! p) = true.

(** At most [n] candidates are chosen, all of them when there are no more. *)
Lemma get_random_peers_spec tp kinds t n f rng s rng' :
  get_random_peers tp kinds t n f rng = (s, rng') →
  size s ≤ n ∧ (∀ p, p ∈ s → candidate tp kinds t f p) ∧
  (size s = n ∨ ∀ p, candidate tp kinds t f p → p ∈ s).
Proof.
  clear Hset c horizon max_backoff max_retain slots.
  unfold get_random_peers, get_random_peers_dynamic.
  set (l := match tp !! t with Some _ => _ | None => [] end).
  assert (Hl : ∀ p, p ∈ l ↔ candidate tp kinds t f p).
  { intros p. subst l. unfold candidate. destruct (tp !! t) as [peers|]; simpl.
    - rewrite list_elem_of_filter, andb_true_iff, bt_iter_perm, elem_of_elements. naive_solver.
    - rewrite elem_of_nil. naive_solver. }
  assert (Hnd : NoDup l).
  { subst l. destruct (tp !! t); [|constructor]. apply NoDup_filter. rewrite bt_iter_perm. apply NoDup_elements. }
  destruct (Nat.leb_spec (length l) n) as [Hle|Hgt]; intros [= <- <-].
  - pose proof (size_list_to_set_le l). split_and!; [lia| |].
    + intros p. rewrite elem_of_list_to_set. apply Hl.
    + right. intros p Hp. by apply elem_of_list_to_set, Hl.
  - set (l' := partial_shuffle rng n l). assert (Hp : l' ≡ₚ l) by apply partial_shuffle_perm.
    assert (Hnd' : NoDup (take n l')).
    { eapply sublist_NoDup; [|apply sublist_take]. by rewrite Hp. }
    assert (Hlen : length (take n l') = n) by (rewrite length_take, Hp; lia).
    assert (Hsz : size (list_to_set (take n l') : gset PeerId) = n) by (by rewrite size_list_to_set).
    split_and!; [lia| |by left]. intros p. rewrite elem_of_list_to_set. intros Hin%elem_of_take_elem.
    apply Hl. by rewrite <-Hp.
Qed.

(** ** Joining and leaving *)

(** A step that changes only the tables. *)
Lemma inv_tables n last g g' :
  gossip_inv n last g → gs_config g' = gs_config g → gs_swarm g' = gs_swarm g → gs_peer_score g' = gs_peer_score g →
  gs_backoffs g' = gs_backoffs g → gs_mcache g' = gs_mcache g → gs_duplicate_cache g' = gs_duplicate_cache g →
  gs_outputs g' = gs_outputs g → gs_control_pool g' = gs_control_pool g →
  gs_count_sent_iwant g' = gs_count_sent_iwant g → tables_ok g' → gossip_inv n last g'.
Proof.
  intros [[[? ? ? ?] ? ? ?] Hi] Hc Hw Hs Hb Hm Hd Ho Hp Hn Ht. split.
  - split; [split; congruence|congruence|done|congruence].
  - unfold iwant_ok. by rewrite Hp, Hn.
Qed.

(** The same for a change of the mesh of one topic. *)
Lemma tables_mesh g t ps :
  tables_ok g → size ps ≤ mesh_bound → gs_fanout g !! t = None → tables_ok (set_mesh (<[t := ps]> (gs_mesh g)) g).
Proof.
  intros [? ? ? ? Hd Hm ? ?] Hsz Hf. split; simpl; try done.
  - intros t'. destruct (decide (t' = t)) as [->|]; [done|]. rewrite lookup_insert_ne by done. apply Hd.
  - intros t' ps' [[<- <-]|[_ ?]]%lookup_insert_Some; eauto.
Qed.

Lemma inv_mesh n last g t ps :
  gossip_inv n last g → size ps ≤ mesh_bound → gs_fanout g !! t = None →
  gossip_inv n last (set_mesh (<[t := ps]> (gs_mesh g)) g).
Proof. intros Hg Hsz Hf. eapply inv_tables; try done. apply tables_mesh; [apply Hg|done|done]. Qed.

Lemma mesh_n_bound : c_mesh_n c ≤ mesh_bound.
Proof. unfold mesh_bound. destruct (cb_mesh _ (so_built Hset)). lia. Qed.

Lemma inv_config n last g : gossip_inv n last g → gs_config g = c.
Proof. intros [[[] _ _ _] _]. done. Qed.

Lemma join_fanout_inv n last g t added g' :
  gossip_inv n last g → gs_mesh g !! t = None → join_fanout g t = (added, g') →
  gossip_inv n last g' ∧ default ∅ (gs_mesh g' !! t) = added ∧ size added ≤ c_mesh_n c ∧ gs_fanout g' !! t = None.
Proof.
  intros Hg Hno. unfold join_fanout. destruct (gs_fanout g !! t) as [peers|] eqn:Hf; intros [= <- <-].
  2: { rewrite Hno, Hf. split_and!; try done. rewrite size_empty. lia. }
  simpl. rewrite lookup_insert_eq, lookup_delete_eq. simpl.
  set (added := list_to_set _). assert (Hsz : size added ≤ c_mesh_n c).
  { subst added. etrans; [apply size_list_to_set_le|]. rewrite length_take, (inv_config _ _ _ Hg). lia. }
  split_and!; try done. eapply inv_tables; try done. destruct Hg as [[_ _ [? ? Hfl Hlp Hd Hm Hfs ?] _] _].
  pose proof mesh_n_bound. split; simpl; try done.
  - intros t'. rewrite !lookup_delete_is_Some, Hfl. done.
  - intros t' x [_ ?]%lookup_delete_Some. eauto.
  - intros t' [->|Hs]%lookup_insert_is_Some'; [by rewrite lookup_delete_eq|]. apply lookup_delete_None. auto.
  - intros t' ps [[<- <-]|[_ ?]]%lookup_insert_Some; [lia|eauto].
  - intros t' ps [_ ?]%lookup_delete_Some. eauto.
Qed.

Lemma join_random_inv n last g t added added' g' :
  gossip_inv n last g → default ∅ (gs_mesh g !! t) = added → size added ≤ c_mesh_n c → gs_fanout g !! t = None →
  join_random g t added = (added', g') → gossip_inv n last g'.
Proof.
  intros Hg Hadd Hsz Hf. unfold join_random. destruct (_ <? _); [|by intros [= <- <-]].
  destruct (get_random_peers _ _ t _ _ _) as [new rng] eqn:Hr. apply get_random_peers_spec in Hr as (Hn&_&_).
  rewrite (inv_config _ _ _ Hg) in Hn. intros [= <- <-]. eapply minor_inv; [apply minor_draws|].
  apply inv_mesh; [done| |done]. rewrite Hadd. pose proof mesh_n_bound.
  pose proof (size_union_alt added new). pose proof (subseteq_size (new ∖ added) new ltac:(set_solver)). lia.
Qed.

Lemma join_inv n last g t : gossip_inv n last g → ∃ g', join g t = Some g' ∧ gossip_inv n last g'.
Proof.
  intros Hg. unfold join. case_decide as Hm; [by eauto|]. apply eq_None_not_Some in Hm.
  destruct (join_fanout g t) as [added g1] eqn:H1. destruct (join_fanout_inv _ _ _ _ _ _ Hg Hm H1) as (Hg1&Ha&Hs&Hf).
  destruct (join_random g1 t added) as [added' g2] eqn:H2. pose proof (join_random_inv _ _ _ _ _ _ _ Hg1 Ha Hs Hf H2) as Hg2.
  edestruct (minor_foldlM (λ g p, g ← on_score (λ ps, ps_graft ps p t) g; Some (control_pool_add p (Graft t) g)) g2)
    as (g3&->&Hm3); [|apply Hg2|].
  - intros g' p _ Hg'. destruct (minor_graft p t g' Hg') as (g3&->&Hm3). simpl. eexists. split; [done|].
    eapply minor_trans; [done|]. by apply minor_pool.
  - eexists. split; [done|]. by eapply minor_inv.
Qed.

Lemma leave_inv n last now g t :
  (now ≤ horizon)%Z → gossip_inv n last g → ∃ g', leave now g t = Some g' ∧ gossip_inv n last g'.
Proof.
  intros Hnow Hg. unfold leave. destruct (gs_mesh g !! t) as [peers|] eqn:Hm; [|by eauto].
  assert (Hg1 : gossip_inv n last (set_mesh (delete t (gs_mesh g)) g)).
  { eapply inv_tables; try done. destruct Hg as [[_ _ [? ? ? ? Hd Hsz ? ?] _] _]. split; simpl; try done.
    - intros t' [_ ?]%lookup_delete_is_Some. by apply Hd.
    - intros t' ps [_ ?]%lookup_delete_Some. eauto. }
  edestruct (minor_foldlM (λ g p, '(control, g) ← make_prune now g t p (c_do_px (gs_config g));
    Some (control_pool_add p control g)) (set_mesh (delete t (gs_mesh g)) g) (bt_iter peers)) as (g2&->&Hm2).
  - intros g' p _ Hg'. by apply minor_make_prune_pool.
  - apply Hg1.
  - eexists. split; [done|]. by eapply minor_inv.
Qed.

Lemma subscribe_inv n last g t :
  gossip_inv n last g → ∃ r g', subscribe g t = Some (r, g') ∧ gossip_inv n last g'.
Proof.
  intros Hg. unfold subscribe. destruct (negb _); [by eauto|]. case_decide; [by eauto|].
  set (rpc := subscriptions_rpc _). set (l := hash_iter _). pose proof (minor_send_all g l rpc) as Hm.
  destruct (send_all g l rpc) as [[|e] g1]; simpl in Hm; pose proof (minor_inv _ _ _ _ Hm Hg) as Hg1; [|by eauto].
  destruct (join_inv _ _ _ t Hg1) as (g2&->&?). simpl. eauto.
Qed.

Lemma unsubscribe_inv n last now g t :
  (now ≤ horizon)%Z → gossip_inv n last g → ∃ r g', unsubscribe now g t = Some (r, g') ∧ gossip_inv n last g'.
Proof.
  intros Hnow Hg. unfold unsubscribe. case_decide; [by eauto|].
  set (rpc := subscriptions_rpc _). set (l := hash_iter _). pose proof (minor_send_all g l rpc) as Hm.
  destruct (send_all g l rpc) as [[|e] g1]; simpl in Hm; pose proof (minor_inv _ _ _ _ Hm Hg) as Hg1; [|by eauto].
  destruct (leave_inv _ _ now _ t Hnow Hg1) as (g2&->&?). simpl. eauto.
Qed.

(** ** The message cache *)

Lemma mcache_put n mc mid m :
  mcache_ok n mc → ∃ r mc', mc_put mc mid m = Some (r, mc') ∧ mcache_ok n mc'.
Proof.
  intros [Hwf Hn]. destruct (wf_put mc mid m Hwf) as (r&mc'&->&?&_&_&Hc&_). eexists _, _. split; [done|].
  split; [done|]. unfold counts_below. by rewrite Hc.
Qed.

Lemma mcache_validate n mc mid : mcache_ok n mc → mcache_ok n (mc_validate mc mid).2.
Proof.
  intros [[Hh Hm Hc] Hn]. split; [|done]. split; simpl; [done|..]; intros x; rewrite lookup_alter_is_Some; auto.
Qed.

Lemma mcache_remove n mc mid : mcache_ok n mc → mcache_ok n (mc_remove mc mid).2.
Proof.
  intros [[Hh Hm Hc] Hn]. split; [split; simpl; [done|..]|].
  - intros x [_ Hx]%lookup_delete_is_Some. by apply Hm.
  - intros x [Hne Hx]%lookup_delete_is_Some. apply lookup_delete_is_Some. auto.
  - intros x cs q k. simpl. intros [_ Hx]%lookup_delete_Some. by eapply Hn.
Qed.

Lemma mcache_shift n mc : mcache_ok n mc → ∃ mc', mc_shift mc = Some mc' ∧ mcache_ok n mc'.
Proof.
  intros [Hwf Hn]. destruct (wf_shift mc Hwf) as (mc'&es&Hl&Hs&?&_&_). exists mc'. split; [done|]. split; [done|].
  destruct (shift_lookup _ _ _ Hl Hs) as (_&_&_&_&Hc). intros x cs q k. rewrite Hc. case_decide; [done|apply Hn].
Qed.

Lemma mcache_iwant n mc mid p :
  (0 ≤ n < u32_max)%Z → mcache_ok n mc →
  ∃ r mc', mc_get_with_iwant_counts mc mid p = Some (r, mc') ∧ mcache_ok (n + 1) mc'.
Proof.
  intros Hn [Hwf Hb]. destruct (mc_exec_wf (n + 1) mc (OpIwant mid p) Hwf) as (mc'&Hex&Hwf'&Hb'&_).
  - by rewrite Z.add_simpl_r.
  - lia.
  - cbn [mc_exec] in Hex. destruct (mc_get_with_iwant_counts mc mid p) as [[r mc1]|]; [|done].
    injection Hex as <-. eauto using mcache_ok.
Qed.

Lemma mcache_gossip n mc t : mcache_ok n mc → is_Some (mc_get_gossip_message_ids mc t).
Proof. intros [[[_ Hg] _ _] _]. unfold mc_get_gossip_message_ids. rewrite decide_True by done. by eexists. Qed.

Lemma inv_mcache n n' last g mc : gossip_inv n last g → mcache_ok n' mc → gossip_inv n' last (set_mcache mc g).
Proof. intros [[[? ? ? ?] ? [] ?] Hi] Hmc. split; [|done]. split; [by split|done|by split|done]. Qed.

(** ** Publishing *)

Lemma publish_recipients_inv n last now g t s g' :
  (now ≤ horizon)%Z → gossip_inv n last g → publish_recipients now g t = (s, g') → gossip_inv n last g'.
Proof.
  intros Hnow Hg. unfold publish_recipients. destruct (gs_topic_peers g !! t) as [set|]; [|by intros [= <- <-]].
  destruct (c_flood_publish _); [by intros [= <- <-]|]. case_decide as Hm; [|by intros [= <- <-]].
  destruct (gs_fanout g !! t) as [peers|] eqn:Hf; [intros [= <- <-]|].
  - eapply inv_tables; try done. destruct Hg as [[_ _ [? ? Hfl Hlp Hd Hsz ? ?] _] _]. split; simpl; try done.
    + intros t'. rewrite lookup_insert_is_Some', <-Hfl. split; [auto|]. intros [<-|?]; [by rewrite Hf|done].
    + intros t' x [[<- <-]|[_ ?]]%lookup_insert_Some; [done|eauto].
  - destruct (get_random_peers _ _ t _ _ _) as [new rng] eqn:Hr. apply get_random_peers_spec in Hr as (Hn&_&_).
    rewrite (inv_config _ _ _ Hg) in Hn. intros [= <- <-]. eapply inv_tables; try done.
    destruct Hg as [[_ _ [? ? Hfl Hlp Hd Hsz Hfs ?] _] _]. split; simpl; try done.
    + intros t'. rewrite !lookup_insert_is_Some', <-Hfl. done.
    + intros t' x [[<- <-]|[_ ?]]%lookup_insert_Some; [done|eauto].
    + intros t' Ht'. destruct (decide (t' = t)) as [->|]; [rewrite Hm in Ht'; by destruct Ht'|].
      rewrite lookup_insert_ne by done. by apply Hd.
    + intros t' ps [[<- <-]|[_ ?]]%lookup_insert_Some; [done|eauto].
Qed.

(** The duplicate cache after an insertion. *)
Lemma inv_dup_insert n last now g mid :
  (last ≤ now)%Z → gossip_inv n last g →
  gossip_inv n now (set_duplicate_cache (dc_insert now (gs_duplicate_cache g) mid).2 g).
Proof.
  intros Hle [[[] ? [] Hse] Hi]. split; [|done]. split; [by split|done|by split|]. simpl.
  destruct (dc_insert now _ mid) as [b cache] eqn:Hins. by eapply seen_insert.
Qed.

Lemma inv_later n last now g : (last ≤ now)%Z → gossip_inv n last g → gossip_inv n now g.
Proof. intros Hle [Hc Hi]. split; [by eapply core_later|done]. Qed.

Lemma publish_inv n last now g t d :
  (last ≤ now ≤ horizon)%Z → gossip_inv n last g → ∃ r g', publish now g t d = Some (r, g') ∧ gossip_inv n now g'.
Proof.
  intros Hnow Hg. unfold publish. assert (Hg0 : gossip_inv n now g) by (by eapply inv_later; [apply Hnow|]).
  destruct (outbound_transform t d) as [td|]; [|by eauto].
  assert (Hgd : gossip_inv n last (draw g)) by (eapply minor_inv; [apply minor_draws|done]).
  destruct (build_raw_message _ _ _ _ _) as [raw|e]; [|eexists _, _; split; [done|]; by eapply inv_later; [apply Hnow|]].
  rewrite (inv_config _ _ _ Hgd). destruct (so_message_id Hset (mk_GossipsubMessage (source raw) d (sequence_number raw) (topic raw))) as [mid ->].
  simpl. set (event := messages_rpc [raw]). set (g1 := draw g) in *. clearbody g1.
  assert (Hg1 : gossip_inv n now g1) by (by eapply inv_later; [apply Hnow|]).
  destruct (_ <? _)%Z; [by eauto|]. destruct (dc_contains _ mid); [by eauto|].
  assert (∃ r g2, (if c_flood_publish c then Some (Ok false, g1) else forward_msg now g1 mid raw None) = Some (r, g2) ∧ minor g1 g2)
    as (r&g2&->&Hm2).
  { destruct (c_flood_publish c); [eauto using minor_refl|]. apply minor_forward_msg. apply Hg1. }
  simpl. pose proof (minor_inv _ _ _ _ Hm2 Hg1) as Hg2. destruct r as [sent|e]; [|by eauto].
  destruct (publish_recipients now g2 (topic raw)) as [recipients g3] eqn:H3.
  pose proof (publish_recipients_inv _ _ _ _ _ _ _ (proj2 Hnow) Hg2 H3) as Hg3.
  destruct (_ && _); [by eauto|].
  pose proof (inv_dup_insert n now now g3 mid ltac:(lia) Hg3) as Hg4.
  destruct (mcache_put n (gs_mcache g3) mid raw (gc_mcache _ _ _ (proj1 Hg3))) as (old&mc&->&Hmc). simpl.
  pose proof (inv_mcache _ _ _ _ _ Hg4 Hmc) as Hg5.
  set (g6 := match gs_publish_config g3 with RandomAuthor | Anonymous => _ | _ => _ end).
  assert (Hg6 : gossip_inv n now g6).
  { subst g6. destruct (gs_publish_config g3); try done; destruct (c_allow_self_origin _); try done;
      (eapply inv_tables; [exact Hg5|done..|]); by destruct Hg5 as [[_ _ [] _] _]. }
  pose proof (minor_send_all g6 (hash_iter (elements recipients)) event) as Hm7.
  destruct (send_all g6 _ event) as [r g7]. eexists _, _. split; [done|]. by eapply minor_inv.
Qed.

Lemma report_inv n last now g mid p a :
  gossip_inv n last g → ∃ r g', report_message_validation_result now g mid p a = Some (r, g') ∧ gossip_inv n last g'.
Proof.
  intros Hg. unfold report_message_validation_result.
  assert (Hrej : ∀ reason, ∃ r g', (let '(removed, mc) := mc_remove (gs_mcache g) mid in
    let g := set_mcache mc g in
    match removed with
    | Some raw => g ← on_score (λ ps, ps_reject_message now ps p mid (topic raw) reason) g; Some (Ok true : result PublishError bool, g)
    | None => Some (Ok false, g)
    end) = Some (r, g') ∧ gossip_inv n last g').
  { intros reason. pose proof (mcache_remove n _ mid (gc_mcache _ _ _ (proj1 Hg))) as Hmc.
    destruct (mc_remove _ mid) as [removed mc]. pose proof (inv_mcache _ _ _ _ _ Hg Hmc) as Hg1.
    destruct removed as [raw|]; cbv zeta; [|by eauto].
    destruct (minor_on_score (PsReject now p mid (topic raw) reason) (set_mcache mc g) (λ _ _, I)) as (g2&Hs&Hm2);
      [apply Hg1|]. cbn [ps_exec] in Hs. rewrite Hs. simpl. eexists _, _. split; [done|]. by eapply minor_inv. }
  destruct a; [|apply Hrej|apply Hrej].
  pose proof (mcache_validate n _ mid (gc_mcache _ _ _ (proj1 Hg))) as Hmc.
  destruct (mc_validate _ mid) as [found mc]. pose proof (inv_mcache _ _ _ _ _ Hg Hmc) as Hg1.
  destruct found as [raw|]; cbv zeta; [|by eauto].
  destruct (minor_forward_msg now (set_mcache mc g) mid raw (Some p)) as (r&g2&->&Hm2); [apply Hg1|]. simpl.
  eexists _, _. split; [done|]. by eapply minor_inv.
Qed.

(** ** Control messages *)

Lemma mcache_mono n n' mc : (n ≤ n')%Z → mcache_ok n mc → mcache_ok n' mc.
Proof. intros Hle [Hwf Hb]. split; [done|]. intros mid cs p k H1 H2. specialize (Hb _ _ _ _ H1 H2). lia. Qed.

Lemma inv_mono n n' last g : (n ≤ n')%Z → gossip_inv n last g → gossip_inv n' last g.
Proof. intros Hle [[? Hmc ? ?] Hi]. split; [split; try done; by eapply mcache_mono|done]. Qed.

(** Asking a peer for messages, counted by [count_sent_iwant]. *)
Lemma inv_asked n last g p ids iask g' :
  gossip_inv n last g → let iasked := default 0 (gs_count_sent_iwant g !! p) in
  length ids ≤ iask → iasked + iask ≤ c_max_ihave_length c →
  minor (set_count_sent_iwant (<[p := iasked + iask]> (gs_count_sent_iwant g)) g) g' →
  gossip_inv n last (control_pool_add p (IWant ids) g').
Proof.
  intros [[[? ? ? ?] ? [] ?] Hi] iasked Hlen Hmax Hm.
  assert (Hc : gossip_core n last g').
  { eapply minor_core; [exact Hm|]. split; [by split|done|by split|done]. }
  split; [by destruct Hc as [[] ? [] ?]|].
  destruct Hm as (sc&bs&k&os&pool&->&_&_&_&Hp). intros q. simpl. unfold pool_iwants.
  specialize (Hi q). destruct (decide (q = p)) as [->|Hne].
  - rewrite !lookup_insert_eq. simpl. rewrite sum_list_with_app. simpl.
    fold (pool_iwants pool p). rewrite Hp. simpl. fold iasked in Hi. lia.
  - rewrite !lookup_insert_ne by done. fold (pool_iwants pool q). by rewrite Hp.
Qed.

Lemma handle_ihave_inv n last now g p msgs :
  (now ≤ horizon)%Z → gossip_inv n last g → ∃ g', handle_ihave now g p msgs = Some g' ∧ gossip_inv n last g'.
Proof.
  intros Hnow Hg. unfold handle_ihave. destruct (score_below_threshold g p gossip_threshold).1; [by eauto|].
  set (have := S _). set (g1 := set_count_received_ihave _ g).
  assert (Hg1 : gossip_inv n last g1).
  { eapply inv_tables; [exact Hg|try done..]. by destruct Hg as [[_ _ [] _] _]. }
  destruct (_ <? have); [by eauto|]. destruct (match _ !! p with Some _ => _ | None => false end); [by eauto|].
  case_decide; [by eauto|]. rewrite (inv_config _ _ _ Hg).
  set (iasked := default 0 _). set (iask := if _ <? _ then _ else _). set (ids := take iask _).
  assert (Hask : iasked + iask ≤ c_max_ihave_length c).
  { pose proof (proj2 Hg1 p) as Hp. fold iasked in Hp. subst iask. destruct (Nat.ltb_spec (c_max_ihave_length c) (iasked + size (wanted_ids g1 msgs))); lia. }
  assert (Hids : length ids ≤ iask) by (subst ids; rewrite length_take; lia).
  set (g2 := draw _). assert (Hm2 : minor (set_count_sent_iwant (<[p := iasked + iask]> (gs_count_sent_iwant g1)) g1) g2) by apply minor_draws.
  assert (∃ g3, match gs_peer_score g2 with
    | Some _ => expires ← instant_add now (c_iwant_followup_time c);
        Some (draw (on_promises (λ gp, add_promise (random_index (gs_draws g2)) gp p ids expires) g2))
    | None => Some g2 end = Some g3 ∧ minor g2 g3) as (g3&->&Hm3).
  { destruct (gs_peer_score g2); [|eauto using minor_refl]. unfold instant_add. pose proof (so_followup Hset).
    rewrite (proj2 (Z.leb_le _ _)) by lia. simpl. eexists. split; [done|].
    eapply minor_trans; [apply minor_on_promises|apply minor_draws]. }
  simpl. eexists. split; [done|]. apply (inv_asked n last g1 p ids iask g3 Hg1 Hids Hask). exact (minor_trans _ _ _ Hm2 Hm3).
Qed.

Lemma collect_iwant_inv n last p ids cached g :
  (0 ≤ n)%Z → (n + Z.of_nat (length ids) ≤ u32_max)%Z → gossip_inv n last g →
  ∃ cached' g', foldlM (collect_iwant p) (cached, g) ids = Some (cached', g') ∧
    gossip_inv (n + Z.of_nat (length ids)) last g'.
Proof.
  revert n cached g. induction ids as [|id ids IH]; intros n cached g Hn Hle Hg; simpl in *.
  { eexists _, _. split; [done|]. by eapply inv_mono; [|exact Hg]; lia. }
  destruct (mcache_iwant n _ id p ltac:(lia) (gc_mcache _ _ _ (proj1 Hg))) as (r&mc&->&Hmc). simpl.
  pose proof (inv_mcache _ _ _ _ _ Hg Hmc) as Hg1.
  assert (∃ cached1, match r with
    | Some (msg, count) => if (c_gossip_retransimission (gs_config g) <? count)%Z
        then (cached, set_mcache mc g) else (<[id:=msg]> cached, set_mcache mc g)
    | None => (cached, set_mcache mc g) end = (cached1, set_mcache mc g)) as [cached1 ->].
  { destruct r as [[msg count]|]; [destruct (_ <? _)%Z|]; eauto. }
  simpl. replace (n + Z.of_nat (S (length ids)))%Z with (n + 1 + Z.of_nat (length ids))%Z by lia.
  apply IH; [lia|lia|done].
Qed.

Lemma handle_iwant_inv n last g p ids :
  (0 ≤ n)%Z → (n + Z.of_nat (length ids) ≤ u32_max)%Z → gossip_inv n last g →
  ∃ g', handle_iwant g p ids = Some g' ∧ gossip_inv (n + Z.of_nat (length ids)) last g'.
Proof.
  intros Hn Hle Hg. unfold handle_iwant. destruct (score_below_threshold g p gossip_threshold).1.
  { eexists. split; [done|]. eapply inv_mono; [|exact Hg]. lia. }
  destruct (collect_iwant_inv n last p ids ∅ g Hn Hle Hg) as (cached&g1&->&Hg1). simpl.
  case_decide; eexists; (split; [done|]); [done|]. eapply minor_inv; [apply minor_send_or_log|done].
Qed.

Lemma size_insert_le p (s : gset PeerId) : size ({[p]} ∪ s) ≤ S (size s).
Proof.
  rewrite size_union_alt, size_singleton. pose proof (subseteq_size (s ∖ {[p]}) s ltac:(set_solver)). lia.
Qed.

Lemma graft_admit_inv n last p negative peers t st :
  gossip_inv n last st.2 → gs_mesh st.2 !! t = Some peers →
  ∃ st', graft_admit p negative peers t st = Some st' ∧ gossip_inv n last st'.2.
Proof.
  destruct st as [[to_prune do_px] g]. simpl. intros Hg Hm. unfold graft_admit. destruct negative; [by eauto|].
  rewrite (inv_config _ _ _ Hg). pose proof Hg as [[Hmi _ Htb _] _].
  rewrite (tb_outbound _ Htb). rewrite bool_decide_false by set_solver. rewrite andb_true_r.
  destruct (Nat.leb_spec (c_mesh_n_high c) (size peers)); [by eauto|].
  assert (Hg1 : gossip_inv n last (set_mesh (<[t := {[p]} ∪ peers]> (gs_mesh g)) g)).
  { apply inv_mesh; [done| |by apply (tb_disjoint _ Htb)]. pose proof (size_insert_le p peers). unfold mesh_bound. lia. }
  destruct (minor_graft p t _ (gc_minor _ _ _ (proj1 Hg1))) as (g2&->&Hm2). simpl.
  eexists. split; [done|]. by eapply minor_inv.
Qed.

Lemma graft_topic_inv n last now p negative st t :
  (now ≤ horizon)%Z → gossip_inv n last st.2 → ∃ st', graft_topic now p negative st t = Some st' ∧ gossip_inv n last st'.2.
Proof.
  destruct st as [[to_prune do_px] g]. simpl. intros Hnow Hg. unfold graft_topic.
  destruct (gs_mesh g !! t) as [peers|] eqn:Hm; [|by eauto]. case_decide; [by eauto|].
  pose proof (graft_admit_inv n last p negative peers t (to_prune, do_px, g) Hg Hm) as Hadmit.
  destruct (get_backoff_time _ t p) as [b|] eqn:Hb; [|done]. destruct (now <? b)%Z; [|done].
  pose proof Hg as [[Hmi _ _ _] _].
  assert (Hpen : ∀ g, minor_ok g → ∃ g', on_score (λ ps, Some (add_penalty ps p 1)) g = Some g' ∧ minor g g').
  { intros g1 Hg1. exact (minor_on_score (PsPenalty p 1) g1 (λ _ _, I) Hg1). }
  destruct (gs_peer_score g) eqn:Hsc; simpl; [|by eauto].
  destruct (Hpen g Hmi) as (g1&->&Hm1). simpl. pose proof (minor_keeps _ _ Hm1 Hmi) as Hmi1.
  rewrite (mi_config _ Hmi1). unfold instant_add. pose proof (so_flood Hset). pose proof (bo_bound _ (mi_backoffs _ Hmi) _ _ _ Hb).
  rewrite (proj2 (Z.leb_le _ _)) by lia. simpl. destruct (now <? _)%Z.
  - destruct (Hpen g1 Hmi1) as (g2&->&Hm2). simpl. eexists. split; [done|]. simpl.
    exact (minor_inv _ _ _ _ (minor_trans _ _ _ Hm1 Hm2) Hg).
  - simpl. eexists. split; [done|]. by eapply minor_inv.
Qed.

Lemma handle_graft_inv n last now g p topics :
  (now ≤ horizon)%Z → gossip_inv n last g → ∃ g', handle_graft now g p topics = Some g' ∧ gossip_inv n last g'.
Proof.
  intros Hnow Hg. unfold handle_graft.
  assert (∃ tp px g1, (if decide (p ∈ gs_explicit_peers g) then Some (list_to_set topics, false, g)
     else foldlM (graft_topic now p (below_zero g p)) (∅, c_do_px (gs_config g), g) topics) = Some (tp, px, g1) ∧
     gossip_inv n last g1) as (tp&px&g1&->&Hg1).
  { case_decide; [by eauto 10|].
    destruct (foldlM_total (λ st, gossip_inv n last st.2) (graft_topic now p (below_zero g p))
      (∅, c_do_px (gs_config g), g) topics) as ([[tp px] g1]&Hf&Hg1); [done| |by eauto 10].
    intros st t _ Hst. by apply graft_topic_inv. }
  simpl. case_decide; [by eauto|]. destruct (minor_make_prunes now g1 p px (hash_iter (elements tp)) Hnow) as (l&g2&->&Hm2);
    [apply Hg1|]. simpl. eexists. split; [done|]. eapply minor_inv; [|exact Hg1].
  eapply minor_trans; [done|]. apply minor_send_or_log.
Qed.

Definition backoff_arg_ok (backoff : option Z) : Prop :=
  match backoff with Some secs => (0 ≤ secs * NANOS ≤ max_backoff)%Z | None => True end.

Lemma remove_peer_from_mesh_inv n last now g p t backoff always :
  (now ≤ horizon)%Z → backoff_arg_ok backoff → gossip_inv n last g →
  ∃ g', remove_peer_from_mesh now g p t backoff always = Some g' ∧ gossip_inv n last g'.
Proof.
  intros Hnow Hb Hg. unfold remove_peer_from_mesh.
  assert (∃ update g1, match gs_mesh g !! t with
    | Some peers => if decide (p ∈ peers) then
        g ← on_score (λ ps, ps_prune ps p t) (set_mesh (<[t := peers ∖ {[p]}]> (gs_mesh g)) g); Some (true, g)
        else Some (always, g)
    | None => Some (always, g) end = Some (update, g1) ∧ gossip_inv n last g1) as (update&g1&->&Hg1).
  { destruct (gs_mesh g !! t) as [peers|] eqn:Hm; [|by eauto]. case_decide; [|by eauto].
    assert (Hg1 : gossip_inv n last (set_mesh (<[t := peers ∖ {[p]}]> (gs_mesh g)) g)).
    { pose proof Hg as [[_ _ Htb _] _]. apply inv_mesh; [done| |by apply (tb_disjoint _ Htb)].
      pose proof (tb_mesh _ Htb _ _ Hm). pose proof (subseteq_size (peers ∖ {[p]}) peers ltac:(set_solver)). lia. }
    destruct (minor_prune p t _ (gc_minor _ _ _ (proj1 Hg1))) as (g2&->&Hm2). simpl. eauto using minor_inv. }
  simpl. destruct update; [|by eauto]. rewrite (inv_config _ _ _ Hg1).
  set (time := match backoff with Some _ => _ | None => _ end).
  assert (Ht : (0 ≤ time ≤ max_backoff)%Z) by (subst time; destruct backoff; [done|apply (so_prune_backoff Hset)]).
  destruct (minor_update_backoff now g1 t p time Hnow Ht (gc_minor _ _ _ (proj1 Hg1))) as (bs&->&Hm2). simpl.
  eauto using minor_inv.
Qed.

Lemma inv_px n last g s : gossip_inv n last g → gossip_inv n last (set_px_peers s g).
Proof. intros Hg. eapply inv_tables; [exact Hg|done..|]. by destruct Hg as [[_ _ [] _] _]. Qed.

Lemma px_connect_inv n last g px : gossip_inv n last g → ∃ g', px_connect g px = Some g' ∧ gossip_inv n last g'.
Proof.
  intros Hg. unfold px_connect. destruct (if _ <? _ then _ else _) as [ids g1] eqn:Hi.
  assert (Hg1 : gossip_inv n last g1).
  { destruct (_ <? _) in Hi; injection Hi as <- <-; [|done]. eapply minor_inv; [apply minor_draws|done]. }
  apply (foldlM_total (gossip_inv n last)); [done|]. intros g2 p _ Hg2. unfold open_connection. simpl.
  rewrite (mi_swarm _ (gc_minor _ _ _ (proj1 Hg2))). eexists. split; [done|].
  eapply minor_inv; [|by apply inv_px]. by apply minor_out, Forall_singleton.
Qed.

Lemma handle_prune_inv n last now g p prune_data :
  (now ≤ horizon)%Z → Forall (λ x, backoff_arg_ok x.2) prune_data → gossip_inv n last g →
  ∃ g', handle_prune now g p prune_data = Some g' ∧ gossip_inv n last g'.
Proof.
  intros Hnow Hb Hg. unfold handle_prune. apply (foldlM_total (gossip_inv n last)); [done|].
  rewrite Forall_forall in Hb. intros g1 [[t px] backoff] Hx Hg1.
  destruct (remove_peer_from_mesh_inv n last now g1 p t backoff true Hnow (Hb _ Hx) Hg1) as (g2&->&Hg2). simpl.
  destruct (_ && _ && _ && _); [by apply px_connect_inv|by eauto].
Qed.

(** ** Messages *)

Lemma notify_subs_inv n now g message :
  gossip_inv n now g →
  (∀ chan, seen_ok now (gs_duplicate_cache g) (gs_outputs g ++ [ONotify now chan message])) →
  gossip_inv n now (notify_subs now message g).
Proof.
  intros [[[] ? [] ?] Hi] Hn. unfold notify_subs. destruct (gs_my_topics g !! _) as [chan|].
  - split; [|done]. split; [by split|done|by split|apply Hn].
  - split; [|done]. split; [by split|done|by split|done].
Qed.

Lemma deliver_new_inv n now g mid m message src :
  gossip_inv n now g →
  (∀ chan, seen_ok now (gs_duplicate_cache g) (gs_outputs g ++ [ONotify now chan message])) →
  ∃ g', deliver_new now g mid m message src = Some g' ∧ gossip_inv n now g'.
Proof.
  intros Hg Hn. unfold deliver_new. pose proof (notify_subs_inv n now g message Hg Hn) as Hg1.
  destruct (minor_on_score (PsValidate now src mid (gm_topic message)) _ (λ _ _, I) (gc_minor _ _ _ (proj1 Hg1)))
    as (g2&Hs&Hm2). cbn [ps_exec] in Hs. rewrite Hs. simpl.
  assert (Hg3 : gossip_inv n now (on_promises (λ gp, message_delivered gp mid) g2)).
  { eapply minor_inv; [eapply minor_trans; [exact Hm2|apply minor_on_promises]|done]. }
  destruct (mcache_put n _ mid m (gc_mcache _ _ _ (proj1 Hg3))) as (old&mc&->&Hmc). simpl.
  pose proof (inv_mcache _ _ _ _ _ Hg3 Hmc) as Hg4. set (g4 := set_mcache mc _) in *.
  change (gs_mesh (on_promises (λ gp, message_delivered gp mid) g2)) with (gs_mesh g4).
  destruct (gs_mesh g4 !! gm_topic message) as [peers|]; [|by eauto].
  set (g5 := foldl _ g4 (bt_iter peers)).
  assert (Hg5 : gossip_inv n now g5).
  { eapply minor_inv; [|exact Hg4]. apply minor_foldl. intros g' p. apply minor_send_or_log. }
  destruct (c_validate_messages _); [by eauto|].
  destruct (minor_forward_msg now g5 mid m (Some src) (gc_minor _ _ _ (proj1 Hg5))) as (r&g6&->&Hm6). simpl.
  eauto using minor_inv.
Qed.

Lemma inv_fast_cache n last g x : gossip_inv n last g → gossip_inv n last (set_fast_message_id_cache x g).
Proof. intros Hg. eapply inv_tables; [exact Hg|try done..]. by destruct Hg as [[_ _ [] _] _]. Qed.

Lemma handle_received_message_inv n last now g m src :
  (last ≤ now)%Z → gossip_inv n last g → ∃ g', handle_received_message now g m src = Some g' ∧ gossip_inv n now g'.
Proof.
  intros Hle Hg. unfold handle_received_message. pose proof (gc_minor _ _ _ (proj1 Hg)) as Hmi.
  assert (Hminor : ∀ g', minor g g' → gossip_inv n now g').
  { intros g' Hm. eapply inv_later; [exact Hle|]. by eapply minor_inv. }
  destruct (fast_message_id _ m ≫= _) as [mid|].
  { destruct (minor_message_is_valid now g mid m src Hmi) as (v&m'&g1&->&Hm1&_). simpl.
    destruct (minor_duplicated now g1 src mid (topic m')) as (g2&->&Hm2); [by eapply minor_keeps|].
    eexists. split; [done|]. apply Hminor. exact (minor_trans _ _ _ Hm1 Hm2). }
  destruct (inbound_transform m) as [message|].
  2: { destruct (minor_handle_invalid_message now g src m TransformFailed Hmi) as (g1&->&Hm1). eauto. }
  rewrite (inv_config _ _ _ Hg). destruct (so_message_id Hset message) as [mid Hmid]. rewrite Hmid. simpl.
  destruct (minor_message_is_valid now g mid m src Hmi) as (v&m'&g1&->&Hm1&_). simpl.
  destruct v; simpl; [|by eauto]. pose proof (minor_inv _ _ _ _ Hm1 Hg) as Hg1.
  set (g2 := match fast_message_id c m with Some _ => _ | None => _ end).
  assert (Hg2 : gossip_inv n last g2).
  { subst g2. destruct (fast_message_id c m); [by apply inv_fast_cache|done]. }
  pose proof (inv_dup_insert n last now g2 mid Hle Hg2) as Hg3.
  pose proof (seen_insert last now (gs_duplicate_cache g2) (gs_outputs g2) mid) as Hseen.
  destruct (dc_insert now (gs_duplicate_cache g2) mid) as [b cache]. simpl in Hg3.
  destruct (Hseen b cache (gc_seen _ _ _ (proj1 Hg2)) Hle eq_refl) as [_ Hnotify]. destruct b; simpl.
  - apply deliver_new_inv; [done|]. intros chan. by apply Hnotify.
  - destruct (minor_duplicated now _ src mid (gm_topic message) (gc_minor _ _ _ (proj1 Hg3))) as (g4&->&Hm4).
    eauto using minor_inv.
Qed.

(** *** What the reception of a message tells the application *)

(** The notifications among the outputs. *)
Definition notice (o : @Output PeerId) : option (Instant * nat * Message) :=
  match o with ONotify now chan m => Some (now, chan, m) | _ => None end.
Local Abbreviation notices g := (omap notice (gs_outputs g)).

(** The channel of the subscription and the message, unless the message was seen,
    comes from or through a blacklisted peer, claims to be the local node's, or
    cannot be decoded. *)
Definition delivers (now : Instant) g (m : Raw) p : option (nat * Message) :=
  match id ← fast_message_id (gs_config g) m; tc_get (gs_fast_message_id_cache g) id with
  | Some _ => None
  | None =>
      message ← inbound_transform m;
      mid ← message_id (gs_config g) message;
      if bool_decide (p ∈ gs_blacklisted_peers g) || match source m with Some a => bool_decide (a ∈ gs_blacklisted_peers g) | None => false end
         || self_published g mid m p || negb (dc_insert now (gs_duplicate_cache g) mid).1 then None
      else chan ← gs_my_topics g !! gm_topic message; Some (chan, message)
  end.

Definition notified (now : Instant) (d : option (nat * Message)) : list (Instant * nat * Message) :=
  match d with Some (chan, m) => [(now, chan, m)] | None => [] end.

Lemma minor_notices g g' : minor g g' → notices g' = notices g.
Proof.
  intros (sc&bs&k&os&pool&->&_&_&Hos&_). simpl. rewrite omap_app.
  assert (Hnil : omap notice os = []).
  { induction Hos as [|o os Ho _ IH]; [done|]. cbn. destruct o; done. }
  by rewrite Hnil, app_nil_r.
Qed.

Lemma deliver_new_notices now g mid m message src g' :
  minor_ok g → deliver_new now g mid m message src = Some g' →
  notices g' = notices g ++ notified now (chan ← gs_my_topics g !! gm_topic message; Some (chan, message)).
Proof.
  intros Hg. unfold deliver_new. set (g1 := notify_subs now message g).
  assert (Hn : notices g1 = notices g ++ notified now (chan ← gs_my_topics g !! gm_topic message; Some (chan, message))).
  { subst g1. unfold notify_subs. destruct (gs_my_topics g !! _); simpl; [|by rewrite app_nil_r]. by rewrite omap_app. }
  assert (Hm1 : minor_ok g1) by (subst g1; unfold notify_subs; destruct (gs_my_topics g !! _), Hg; done).
  rewrite <-Hn. clearbody g1. clear Hn.
  destruct (minor_on_score (PsValidate now src mid (gm_topic message)) g1 (λ _ _, I) Hm1) as (g2&Hs&Hm2).
  cbn [ps_exec] in Hs. rewrite Hs. simpl. set (g3 := on_promises _ g2).
  pose proof (minor_trans _ _ _ Hm2 (minor_on_promises (λ gp, message_delivered gp mid) g2) : minor g1 g3) as Hm3.
  destruct (mc_put _ mid m) as [[old mc]|]; [|done]. simpl. rewrite <-(minor_notices _ _ Hm3).
  pose proof (minor_keeps _ _ Hm3 Hm1) as Hok3. clearbody g3. set (g4 := set_mcache mc g3).
  assert (Hok4 : minor_ok g4) by (by destruct Hok3). change (notices g3) with (notices g4).
  change (gs_mesh g3) with (gs_mesh g4). clearbody g4.
  destruct (gs_mesh g4 !! gm_topic message) as [peers|]; [|by intros [= <-]].
  set (g5 := foldl _ g4 (bt_iter peers)).
  assert (Hm5 : minor g4 g5) by (apply minor_foldl; intros g'' p; apply minor_send_or_log).
  rewrite <-(minor_notices _ _ Hm5). pose proof (minor_keeps _ _ Hm5 Hok4) as Hok5. clearbody g5.
  destruct (c_validate_messages _); [by intros [= <-]|].
  destruct (minor_forward_msg now g5 mid m (Some src) Hok5) as (r&g6&->&Hm6). simpl. intros [= <-]. by apply minor_notices.
Qed.

Lemma message_is_valid_cases now g mid m src v m' g' :
  message_is_valid now g mid m src = Some (v, m', g') →
  v = negb (bool_decide (src ∈ gs_blacklisted_peers g) || match source m with Some a => bool_decide (a ∈ gs_blacklisted_peers g) | None => false end
            || self_published g mid m src) ∧ (v = true → g' = g).
Proof.
  unfold message_is_valid. destruct (decide (src ∈ gs_blacklisted_peers g)) as [Hb|Hb].
  { rewrite bool_decide_true by done. simpl. destruct (reject _ _ _ _ _ _); [|done]. simpl. by intros [= <- <- <-]. }
  rewrite bool_decide_false by done. simpl. destruct (match source m with Some _ => _ | None => _ end); simpl.
  { destruct (reject _ _ _ _ _ _); [|done]. simpl. by intros [= <- <- <-]. }
  assert (self_published g mid (if c_validate_messages (gs_config g) then m else set_validated m) src = self_published g mid m src) as ->
    by (by destruct (c_validate_messages _)).
  destruct (self_published g mid m src); simpl; [|by intros [= <- <- <-]].
  destruct (reject _ _ _ _ _ _); [|done]. simpl. by intros [= <- <- <-].
Qed.

Lemma handle_received_message_notices n last now g m src g' :
  gossip_inv n last g → handle_received_message now g m src = Some g' →
  notices g' = notices g ++ notified now (delivers now g m src).
Proof.
  intros Hg. unfold handle_received_message, delivers. pose proof (gc_minor _ _ _ (proj1 Hg)) as Hmi.
  destruct (fast_message_id _ m ≫= _) as [mid|] eqn:Hfast.
  { destruct (minor_message_is_valid now g mid m src Hmi) as (v&m'&g1&->&Hm1&_). simpl.
    destruct (minor_duplicated now g1 src mid (topic m')) as (g2&->&Hm2); [by eapply minor_keeps|].
    intros [= <-]. rewrite app_nil_r. apply minor_notices. exact (minor_trans _ _ _ Hm1 Hm2). }
  destruct (inbound_transform m) as [message|]; simpl.
  2: { destruct (minor_handle_invalid_message now g src m TransformFailed Hmi) as (g1&->&Hm1). intros [= <-].
       rewrite app_nil_r. by apply minor_notices. }
  rewrite (inv_config _ _ _ Hg). destruct (so_message_id Hset message) as [mid Hmid]. rewrite Hmid. simpl.
  destruct (minor_message_is_valid now g mid m src Hmi) as (v&m'&g1&Hv&Hm1&_). rewrite Hv. simpl.
  destruct (message_is_valid_cases _ _ _ _ _ _ _ _ Hv) as [Hcase Hsame]. destruct v; simpl.
  2: { intros [= <-]. symmetry in Hcase. apply negb_false_iff in Hcase. rewrite Hcase. simpl. rewrite app_nil_r. by apply minor_notices. }
  symmetry in Hcase. apply negb_true_iff in Hcase. rewrite Hcase. rewrite (Hsame eq_refl). simpl.
  set (g2 := match fast_message_id c m with Some _ => _ | None => _ end).
  assert (Hg2 : minor_ok g2 ∧ gs_duplicate_cache g2 = gs_duplicate_cache g ∧ notices g2 = notices g ∧ gs_my_topics g2 = gs_my_topics g)
    by (subst g2; destruct (fast_message_id c m), Hmi; done).
  destruct Hg2 as (Hok2&Hdup&Hn&Ht). clearbody g2. rewrite <-Hdup, <-Hn, <-Ht.
  destruct (dc_insert now (gs_duplicate_cache g2) mid) as [b cache]. simpl.
  assert (Hok3 : minor_ok (set_duplicate_cache cache g2)) by (by destruct Hok2). destruct b; simpl.
  - intros Hd. by apply deliver_new_notices in Hd.
  - destruct (minor_duplicated now _ src mid (gm_topic message) Hok3) as (g4&->&Hm4). intros [= <-].
    rewrite app_nil_r. by rewrite (minor_notices _ _ Hm4).
Qed.

(** ** Subscriptions *)

Lemma apply_subscription_inv n last p s st :
  gossip_inv n last st.2 ∧ is_Some (gs_peer_topics st.2 !! p) →
  ∃ st', apply_subscription p st s = Some st' ∧ gossip_inv n last st'.2 ∧ is_Some (gs_peer_topics st'.2 !! p).
Proof.
  destruct st as [[grafts gone] g]. simpl. intros [Hg [topics Hp]]. unfold apply_subscription. rewrite Hp. simpl.
  set (t := topic_hash s). destruct (action s).
  - set (g1 := set_topic_peers _ (set_peer_topics _ g)).
    assert (Hg1 : gossip_inv n last g1).
    { eapply inv_tables; [exact Hg|try done..]. destruct Hg as [[_ _ [Ht Hc ? ? ? ? ? ?] _] _]. split; simpl; try done.
      - intros p' ts t'. destruct (decide (p' = p)) as [->|Hne].
        + rewrite lookup_insert_eq. intros [= <-] [->%elem_of_singleton|Hin]%elem_of_union.
          * rewrite lookup_insert_eq. eexists. split; [done|]. set_solver.
          * destruct (Ht _ _ _ Hp Hin) as (ps&Hps&Hin'). destruct (decide (t' = t)) as [->|].
            -- rewrite lookup_insert_eq. eexists. split; [done|]. set_solver.
            -- rewrite lookup_insert_ne by done. eauto.
        + rewrite lookup_insert_ne by done. intros Hp' Hin. destruct (Ht _ _ _ Hp' Hin) as (ps&Hps&Hin').
          destruct (decide (t' = t)) as [->|].
          * rewrite lookup_insert_eq. eexists. split; [done|]. rewrite Hps. set_solver.
          * rewrite lookup_insert_ne by done. eauto.
      - intros p'. rewrite Hc, lookup_insert_is_Some'. split; [auto|]. intros [<-|?]; [by rewrite Hp|done]. }
    assert (Hp1 : is_Some (gs_peer_topics g1 !! p)) by (simpl; rewrite lookup_insert_eq; by eexists).
    destruct (_ && _ && _ && _); [|by eauto]. change (gs_mesh g) with (gs_mesh g1). change (gs_config g) with (gs_config g1).
    destruct (gs_mesh g1 !! t) as [peers|] eqn:Hm; [|by eauto].
    rewrite (inv_config _ _ _ Hg1). destruct (Nat.ltb_spec (size peers) (c_mesh_n_low c)); [|by eauto].
    destruct (bool_decide (p ∉ peers)); simpl; [|by eauto].
    assert (Hg2 : gossip_inv n last (set_mesh (<[t := {[p]} ∪ peers]> (gs_mesh g1)) g1)).
    { apply inv_mesh; [done| |apply (tb_disjoint _ (gc_tables _ _ _ (proj1 Hg1))); by rewrite Hm].
      pose proof (size_insert_le p peers). pose proof mesh_n_bound. destruct (cb_mesh _ (so_built Hset)). lia. }
    destruct (minor_graft p t _ (gc_minor _ _ _ (proj1 Hg2))) as (g3&Hs3&Hm3). exists (grafts ++ [Graft t], gone, g3).
    split; [by change (gs_mesh g) with (gs_mesh g1); rewrite Hs3|]. split; [by eapply minor_inv|]. simpl. by destruct (minor_fields _ _ Hm3) as (_&_&->&_).
  - eexists. split; [done|]. simpl. split; [|rewrite lookup_insert_eq; by eexists].
    eapply inv_tables; [exact Hg|try done..]. destruct Hg as [[_ _ [Ht Hc ? ? ? ? ? ?] _] _]. split; simpl; try done.
    + intros p' ts t'. destruct (decide (p' = p)) as [->|Hne].
      * rewrite lookup_insert_eq. intros [= <-] Hin. destruct (decide (t' = t)) as [->|]; [set_solver|].
        rewrite lookup_insert_ne by done. apply (Ht p topics t' Hp). set_solver.
      * rewrite lookup_insert_ne by done. intros Hp' Hin. destruct (Ht _ _ _ Hp' Hin) as (ps&Hps&Hin').
        destruct (decide (t' = t)) as [->|].
        -- rewrite lookup_insert_eq. eexists. split; [done|]. rewrite Hps. set_solver.
        -- rewrite lookup_insert_ne by done. eauto.
    + intros p'. rewrite Hc, lookup_insert_is_Some'. split; [auto|]. intros [<-|?]; [by rewrite Hp|done].
Qed.

Lemma handle_received_subscriptions_inv n last now g subs p :
  (now ≤ horizon)%Z → gossip_inv n last g →
  ∃ g', handle_received_subscriptions now g subs p = Some g' ∧ gossip_inv n last g'.
Proof.
  intros Hnow Hg. unfold handle_received_subscriptions. destruct (gs_peer_topics g !! p) as [topics|] eqn:Hp; [|by eauto].
  destruct (filter_incoming_subscriptions _ _ subs topics) as [filtered|]; [|by eauto].
  destruct (foldlM_total (λ st, gossip_inv n last st.2 ∧ is_Some (gs_peer_topics st.2 !! p)) (apply_subscription p)
    ([], [], g) (hash_iter (elements filtered))) as ([[grafts gone] g1]&->&Hg1&_).
  - split; [done|]. simpl. by rewrite Hp.
  - intros st s _ Hst. by apply apply_subscription_inv.
  - simpl in *. destruct (foldlM_total (gossip_inv n last) (λ g t, remove_peer_from_mesh now g p t None false) g1 gone)
      as (g2&->&Hg2); [done| |].
    + intros g' t _ Hg'. by apply remove_peer_from_mesh_inv.
    + simpl. eexists. split; [done|]. destruct grafts; [done|]. eapply minor_inv; [apply minor_send_or_log|done].
Qed.

(** ** RPCs *)

Definition action_ok (a : Action) : Prop := match a with Prune _ _ b => backoff_arg_ok b | _ => True end.

Lemma control_loop_inv n last p actions gr g :
  (0 ≤ n)%Z → (n + Z.of_nat (sum_list_with iwant_ids actions) ≤ u32_max)%Z → Forall action_ok actions →
  Forall (λ x, backoff_arg_ok x.2) (gr_prune gr) → gossip_inv n last g →
  ∃ gr' g', foldlM (control_step p) (gr, g) actions = Some (gr', g') ∧
    Forall (λ x, backoff_arg_ok x.2) (gr_prune gr') ∧
    gossip_inv (n + Z.of_nat (sum_list_with iwant_ids actions)) last g'.
Proof.
  revert n gr g. induction actions as [|a actions IH]; intros n gr g Hn Hle Hok Hpr Hg; simpl in *.
  { eexists _, _. split; [done|]. split; [done|]. by rewrite Z.add_0_r. }
  inversion_clear Hok as [|? ? Ha Hok']. destruct a as [t ids|ids|t|t peers backoff]; simpl in *.
  - by apply IH.
  - destruct (handle_iwant_inv n last g p ids) as (g1&->&Hg1); [lia|lia|done|]. simpl.
    replace (n + Z.of_nat (length ids + sum_list_with iwant_ids actions))%Z with
      (n + Z.of_nat (length ids) + Z.of_nat (sum_list_with iwant_ids actions))%Z by lia.
    apply IH; try done; lia.
  - by apply IH.
  - apply IH; try done. apply Forall_app. split; [done|]. by apply Forall_singleton.
Qed.

Lemma handle_control_inv n last now g p actions :
  (now ≤ horizon)%Z → (0 ≤ n)%Z → (n + Z.of_nat (sum_list_with iwant_ids actions) ≤ u32_max)%Z →
  Forall action_ok actions → gossip_inv n last g →
  ∃ g', handle_control now g p actions = Some g' ∧ gossip_inv (n + Z.of_nat (sum_list_with iwant_ids actions)) last g'.
Proof.
  intros Hnow Hn Hle Hok Hg. unfold handle_control.
  destruct (control_loop_inv n last p actions (mk_Grouped [] [] []) g Hn Hle Hok) as (gr&g1&->&Hpr&Hg1); [constructor|done|].
  simpl. set (n' := (n + _)%Z) in *. clearbody n'.
  assert (∃ g2, match gr_ihave gr with [] => Some g1 | l => handle_ihave now g1 p l end = Some g2 ∧ gossip_inv n' last g2)
    as (g2&->&Hg2) by (destruct (gr_ihave gr); [by eauto|by apply handle_ihave_inv]).
  simpl. assert (∃ g3, match gr_graft gr with [] => Some g2 | l => handle_graft now g2 p l end = Some g3 ∧ gossip_inv n' last g3)
    as (g3&->&Hg3) by (destruct (gr_graft gr); [by eauto|by apply handle_graft_inv]).
  simpl. destruct (gr_prune gr) eqn:Hgp; [by eauto|]. by apply handle_prune_inv.
Qed.

(** The RPCs of remote peers: the backoffs they ask for fit the clock. *)
Definition rpc_ok (rpc : GossipsubRpc PeerId) : Prop := Forall action_ok (control_msgs rpc).
Definition rpc_iwants (rpc : GossipsubRpc PeerId) : nat := sum_list_with iwant_ids (control_msgs rpc).

Lemma handle_message_event_inv n last now g rpc p invalid :
  (last ≤ now ≤ horizon)%Z → (0 ≤ n)%Z → (n + Z.of_nat (rpc_iwants rpc) ≤ u32_max)%Z → rpc_ok rpc → gossip_inv n last g →
  ∃ g', handle_message_event now g rpc p invalid = Some g' ∧ gossip_inv (n + Z.of_nat (rpc_iwants rpc)) now g'.
Proof.
  intros Hnow Hn Hle Hok Hg0. apply (inv_later _ _ now) in Hg0 as Hg; [|lia]. unfold handle_message_event.
  assert (∃ g1, match subscriptions rpc with [] => Some g | l => handle_received_subscriptions now g l p end = Some g1 ∧
    gossip_inv n now g1) as (g1&->&Hg1).
  { destruct (subscriptions rpc); [by eauto|]. apply handle_received_subscriptions_inv; [lia|done]. }
  simpl. destruct (score_below_threshold g1 p graylist_threshold).1.
  { eexists. split; [done|]. eapply inv_mono; [|exact Hg1]. lia. }
  destruct (minor_foldlM (λ g x, handle_invalid_message now g p x.1 x.2) g1 invalid) as (g2&->&Hm2).
  { intros g' x _ Hg'. by apply minor_handle_invalid_message. }
  { apply Hg1. }
  simpl. pose proof (minor_inv _ _ _ _ Hm2 Hg1) as Hg2.
  destruct (foldlM_total (gossip_inv n now) (λ g m, handle_received_message now g m p) g2
    (match c_max_messages_per_rpc (gs_config g2) with Some n => take n (messages rpc) | None => messages rpc end))
    as (g3&->&Hg3); [done| |].
  - intros g' m _ Hg'. by apply (handle_received_message_inv n now).
  - simpl. apply handle_control_inv; try done. lia.
Qed.

(** ** Peers *)

Lemma handle_new_peer_inv n last g p : gossip_inv n last g → ∃ g', handle_new_peer g p = Some g' ∧ gossip_inv n last g'.
Proof.
  intros Hg. unfold handle_new_peer. case_decide; [by eauto|].
  rewrite (mi_swarm _ (gc_minor _ _ _ (proj1 Hg))). simpl.
  set (os := _ ++ [OStreamTask p _]). set (chan := gs_next_chan g).
  set (g1 := put_out os (set_next_chan (S chan) (set_connected_peer (<[p := chan]> (gs_connected_peer g)) g))).
  set (subs := mk_Subscription Subscribe <$> _).
  set (g2 := match subs with [] => g1 | _ => send_or_log p (subscriptions_rpc subs) g1 end).
  assert (Hm2 : minor g1 g2) by (subst g2; destruct subs; [apply minor_refl|apply minor_send_or_log]).
  assert (Hg3 : gossip_inv n last (set_peer_topics (<[p := ∅]> (gs_peer_topics g2)) g2)).
  { assert (Hos : Forall quiet os) by (subst os; destruct (gs_connected_peer g !! p); repeat constructor).
    clearbody g2. destruct Hm2 as (sc&bs&k&os'&pool&->&Hsc&Hbs&Hos'&Hpool).
    destruct Hg as [[[? ? Hs Hb] ? [Ht Hc ? ? ? ? ? ?] Hse] Hi]. split.
    - split; simpl; [split; simpl; auto|done| |].
      + split; simpl; try done.
        * intros p' ts t'. destruct (decide (p' = p)) as [->|]; [rewrite lookup_insert_eq; by intros [= <-] ?%elem_of_empty|].
          rewrite lookup_insert_ne by done. apply Ht.
        * intros p'. rewrite !lookup_insert_is_Some', Hc. done.
      + apply seen_quiet; [done|]. by apply seen_quiet.
    - intros q. simpl. rewrite Hpool. apply Hi. }
  destruct (minor_on_score (PsAddPeer p) _ (λ _ _, I) (gc_minor _ _ _ (proj1 Hg3))) as (g4&Hs&Hm4).
  exists g4. split; [exact Hs|]. by eapply minor_inv.
Qed.

Lemma lookup_remove_from_topics p topics m t :
  remove_from_topics p topics m !! t = (if decide (t ∈ topics) then (λ s, s ∖ {[p]}) <$> m !! t else m !! t).
Proof.
  unfold remove_from_topics.
  assert (Hl : ∀ l (m : gmap TopicHash (gset PeerId)), NoDup l → foldl (λ m t, alter (λ peers : gset PeerId, peers ∖ {[p]}) t m) m l !! t =
    if decide (t ∈ l) then (λ s, s ∖ {[p]}) <$> m !! t else m !! t).
  { clear m. induction l as [|t' l IH]; intros m Hnd; cbn [foldl]; [by rewrite decide_False by apply not_elem_of_nil|].
    inversion_clear Hnd as [|? ? Hni Hnd']. rewrite IH by done. destruct (decide (t = t')) as [->|Hne].
    - rewrite decide_False by done. rewrite decide_True by left. apply lookup_alter_eq.
    - rewrite lookup_alter_ne by done. destruct (decide (t ∈ l)) as [Hin|Hni'].
      + by rewrite decide_True by (by right).
      + rewrite decide_False; [done|]. by intros [?|?]%elem_of_cons. }
  rewrite Hl by apply NoDup_elements. destruct (decide (t ∈ topics)).
  - by rewrite decide_True by (by apply elem_of_elements).
  - by rewrite decide_False by (by rewrite elem_of_elements).
Qed.

Lemma remove_from_topics_is_Some p topics m t :
  is_Some (remove_from_topics p topics m !! t) ↔ is_Some (m !! t).
Proof. rewrite lookup_remove_from_topics. case_decide; [|done]. by rewrite fmap_is_Some. Qed.

Lemma remove_from_topics_size p topics m t ps k :
  (∀ t ps, m !! t = Some ps → size ps ≤ k) → remove_from_topics p topics m !! t = Some ps → size ps ≤ k.
Proof.
  intros Hm. rewrite lookup_remove_from_topics. case_decide; [|apply Hm].
  intros (ps'&Hps&->)%fmap_Some_1. specialize (Hm _ _ Hps).
  pose proof (subseteq_size (ps' ∖ {[p]}) ps' ltac:(set_solver)). lia.
Qed.

Lemma handle_remove_dead_peer_inv n last now g p :
  (now ≤ horizon)%Z → gossip_inv n last g → ∃ g', handle_remove_dead_peer now g p = Some g' ∧ gossip_inv n last g'.
Proof.
  intros Hnow Hg. unfold handle_remove_dead_peer. destruct (gs_peer_topics g !! p) as [topics|] eqn:Hp; [|by eauto].
  cbv zeta. set (g1 := set_peer_topics _ _).
  assert (Hg1 : gossip_inv n last g1).
  { eapply inv_tables; [exact Hg|try done..]. destruct Hg as [[_ _ [Ht Hc Hfl Hlp Hd Hm Hfs Ho] _] _]. split; simpl; try done.
    - intros p' ts t [Hne Hp']%lookup_delete_Some Hin. destruct (Ht _ _ _ Hp' Hin) as (ps&Hps&Hin').
      rewrite lookup_remove_from_topics, Hps. simpl. case_decide; [|by eauto]. eexists. split; [done|]. set_solver.
    - intros p'. rewrite !lookup_delete_is_Some, Hc. done.
    - intros t. by rewrite remove_from_topics_is_Some.
    - intros t. rewrite remove_from_topics_is_Some. intros Hd'%Hd. rewrite lookup_remove_from_topics, Hd'. by case_decide.
    - intros t ps. by apply remove_from_topics_size.
    - intros t ps. by apply remove_from_topics_size.
    - rewrite Ho. set_solver. }
  destruct (minor_on_score (PsRemovePeer now p) g1) as (g2&Hs&Hm2).
  - intros retain Hr. simpl. pose proof (so_retain Hset). lia.
  - apply Hg1.
  - exists g2. split; [exact Hs|]. by eapply minor_inv.
Qed.

Lemma handle_peer_event_inv n last now g e :
  (now ≤ horizon)%Z → gossip_inv n last g → ∃ g', handle_peer_event now g e = Some g' ∧ gossip_inv n last g'.
Proof.
  intros Hnow Hg. destruct e as [p k|p|p]; cbn [handle_peer_event].
  - destruct (gs_peer_protocols g !! p); [by eauto|]. eexists. split; [done|].
    eapply inv_tables; [exact Hg|try done..]. by destruct Hg as [[_ _ [] _] _].
  - by apply handle_new_peer_inv.
  - by apply handle_remove_dead_peer_inv.
Qed.

(** ** The heartbeat *)

Definition topics_of (m : gmap PeerId (list TopicHash)) p : list TopicHash := default [] (m !! p).

Lemma foldl_push_topic m t l t' p :
  t' ∈ topics_of (foldl (push_topic t) m l) p ↔ t' ∈ topics_of m p ∨ (t' = t ∧ p ∈ l).
Proof.
  revert m. induction l as [|q l IH]; intros m; simpl.
  { split; [auto|]. intros [?|[_ ?%elem_of_nil]]; done. }
  rewrite IH. unfold push_topic at 1, topics_of at 1. destruct (decide (p = q)) as [->|Hne].
  - rewrite lookup_insert_eq. simpl. rewrite elem_of_app, list_elem_of_singleton, elem_of_cons.
    unfold topics_of. naive_solver.
  - rewrite lookup_insert_ne by done. rewrite elem_of_cons. unfold topics_of. naive_solver.
Qed.

(** The notices of one step of the maintenance include those before. *)
Definition notices_le (mt mt' : Maintenance) : Prop :=
  (∀ p t, t ∈ topics_of (to_graft mt) p → t ∈ topics_of (to_graft mt') p) ∧
  (∀ p t, t ∈ topics_of (to_prune mt) p → t ∈ topics_of (to_prune mt') p).

#[local] Instance notices_le_preorder : PreOrder notices_le.
Proof. split; [by intros mt|]. intros mt1 mt2 mt3 [H1 H2] [H3 H4]. split; eauto. Qed.

Lemma bt_iter_empty : bt_iter (∅ : gset PeerId) = [].
Proof. unfold bt_iter. by rewrite elements_empty. Qed.

Lemma graft_random_spec g t k f peers mt peers' mt' :
  graft_random g t k f peers mt = (peers', mt') →
  ∃ new, peers' = peers ∪ new ∧ size new ≤ k ∧
    (∀ p, p ∈ new → candidate (gs_topic_peers g) (gs_peer_protocols g) t f p) ∧
    (size new = k ∨ ∀ p, candidate (gs_topic_peers g) (gs_peer_protocols g) t f p → p ∈ new) ∧
    notices_le mt mt' ∧ (∀ p, p ∈ new → t ∈ topics_of (to_graft mt') p).
Proof.
  unfold graft_random. destruct (get_random_peers _ _ t k f _) as [new rng] eqn:Hr.
  apply get_random_peers_spec in Hr as (Hk&Hc&Hall). intros [= <- <-]. exists new. split_and!; try done.
  - split; [|done]. intros p t' Ht'. simpl. apply foldl_push_topic. by left.
  - intros p Hp. simpl. apply foldl_push_topic. right. split; [done|]. by rewrite bt_iter_perm, elem_of_elements.
Qed.

Lemma remove_excess_take g excess removed outbound l :
  gs_outbound_peers g = ∅ → removed ≤ excess → remove_excess g excess removed outbound l = take (excess - removed) l.
Proof.
  intros Ho. revert removed. induction l as [|p l IH]; intros removed Hle; simpl; [by rewrite take_nil|].
  destruct (Nat.eqb_spec removed excess) as [->|Hne]; [by rewrite Nat.sub_diag|].
  rewrite Ho, bool_decide_false by set_solver. rewrite IH by lia.
  by replace (excess - removed) with (S (excess - S removed)) by lia.
Qed.

Lemma mesh_high_spec g t peers mt :
  gs_config g = c → gs_outbound_peers g = ∅ →
  ∃ peers' mt', mesh_high g t peers mt = Some (peers', mt') ∧ peers' ⊆ peers ∧ notices_le mt mt' ∧
    (∀ p, p ∈ peers → p ∉ peers' → t ∈ topics_of (to_prune mt') p) ∧
    if c_mesh_n_high c <? size peers then size peers' = c_mesh_n c else peers' = peers.
Proof.
  intros Hc Ho. unfold mesh_high. rewrite Hc. destruct (Nat.ltb_spec (c_mesh_n_high c) (size peers)) as [Hgt|Hle].
  2: { eexists _, _. split; [done|]. split_and!; try done. }
  destruct (cb_mesh _ (so_built Hset)). pose proof (so_retain_scores Hset).
  rewrite (proj2 (Nat.ltb_ge (size peers) (c_mesh_n c))) by lia.
  rewrite (proj2 (Nat.ltb_ge (size peers) (c_retain_scores c))) by lia.
  set (sorted := sort_by (score_le g) _). set (k := size peers - c_retain_scores c).
  set (sh := shuffle _ (take k sorted) ++ drop k sorted).
  assert (Hsh : sh ≡ₚ elements peers).
  { subst sh. rewrite shuffle_perm, take_drop. subst sorted. by rewrite sort_by_perm, shuffle_perm, bt_iter_perm. }
  rewrite remove_excess_take by (done || lia). rewrite Nat.sub_0_r. set (rm := take _ sh).
  assert (Hrm : ∀ p, p ∈ rm → p ∈ peers).
  { intros p Hp%elem_of_take_elem. by apply elem_of_elements; rewrite <-Hsh. }
  assert (Hlen : length sh = size peers) by (rewrite Hsh; done).
  assert (Hsz : size (list_to_set rm : gset PeerId) = size peers - c_mesh_n c).
  { rewrite size_list_to_set; [subst rm; rewrite length_take; lia|].
    eapply sublist_NoDup; [|apply sublist_take]. rewrite Hsh. apply NoDup_elements. }
  eexists _, _. split; [done|]. split_and!.
  - set_solver.
  - split; [done|]. intros p t' Ht'. simpl. apply foldl_push_topic. by left.
  - intros p Hp Hnp. simpl. apply foldl_push_topic. right. split; [done|].
    apply (elem_of_list_to_set (C := gset PeerId)). set_solver.
  - rewrite size_difference by (intros p; rewrite elem_of_list_to_set; apply Hrm). rewrite Hsz. lia.
Qed.

(** Why a peer may be added to the mesh of a topic: it is subscribed, speaks
    gossipsub, is not explicit and not backed off. *)
Definition graftable g t p : Prop :=
  (∃ l, gs_topic_peers g !! t = Some l ∧ p ∈ l) ∧ is_gossip_kind (gs_peer_protocols g !! p) = true ∧
  ¬ p ∈ gs_explicit_peers g ∧ is_backoff_with_slack (gs_backoffs g) t p = false.

Lemma candidate_graftable g t peers f p :
  candidate (gs_topic_peers g) (gs_peer_protocols g) t (λ p, may_graft g t peers p && f p) p ↔
  graftable g t p ∧ ¬ p ∈ peers ∧ f p = true.
Proof.
  unfold candidate, graftable, may_graft. rewrite !andb_true_iff, !negb_true_iff, !bool_decide_eq_false. naive_solver.
Qed.

(** The peers of the old mesh whose score is not negative. *)
Definition kept_peers_of g (peers : gset PeerId) : gset PeerId := filter (λ p, (hb_score g p <? f64_zero)%f64 = false) peers.

(** What the maintenance does to the mesh of a topic: peers with a negative score
    leave; too small a mesh is filled up to [mesh_n] with graftable peers, as far
    as there are any; one of the right size is kept; too large a mesh is cut, but
    not below [mesh_n]. *)
Record mesh_maintained g t (peers peers' : gset PeerId) : Prop := {
  md_bound : size peers' ≤ mesh_bound;
  md_members p : p ∈ peers' → p ∈ kept_peers_of g peers ∨ graftable g t p;
  md_low : size (kept_peers_of g peers) < c_mesh_n_low c →
    kept_peers_of g peers ⊆ peers' ∧
    (c_mesh_n c ≤ size peers' ∨ ∀ p, graftable g t p → (f64_zero <=? hb_score g p)%f64 = true → p ∈ peers');
  md_keep : c_mesh_n_low c ≤ size (kept_peers_of g peers) ≤ c_mesh_n_high c → kept_peers_of g peers ⊆ peers';
  md_high : c_mesh_n_high c < size (kept_peers_of g peers) → c_mesh_n c ≤ size peers'
}.

(** The same, with the notices to the peers that were added or removed. *)
Record maintained g t (peers peers' : gset PeerId) (mt' : Maintenance) : Prop := {
  md_mesh : mesh_maintained g t peers peers';
  md_grafted p : p ∈ peers' → p ∉ peers → t ∈ topics_of (to_graft mt') p;
  md_pruned p : p ∈ peers → p ∉ peers' → t ∈ topics_of (to_prune mt') p
}.

Lemma maintained_le g t peers peers' mt mt' : notices_le mt mt' → maintained g t peers peers' mt → maintained g t peers peers' mt'.
Proof. intros [Hg Hp] []. split; eauto. Qed.

Lemma mesh_low_spec g t peers mt :
  gs_config g = c →
  ∃ peers' mt', mesh_low g t peers mt = Some (peers', mt') ∧ peers ⊆ peers' ∧ notices_le mt mt' ∧
    (∀ p, p ∈ peers' → p ∉ peers → graftable g t p ∧ t ∈ topics_of (to_graft mt') p) ∧
    if size peers <? c_mesh_n_low c then
      size peers' ≤ c_mesh_n c ∧
      (c_mesh_n c ≤ size peers' ∨ ∀ p, graftable g t p → (f64_zero <=? hb_score g p)%f64 = true → p ∈ peers')
    else peers' = peers.
Proof.
  intros Hc. unfold mesh_low. rewrite Hc. destruct (Nat.ltb_spec (size peers) (c_mesh_n_low c)) as [Hlt|Hge].
  2: { eexists _, _. split; [done|]. split_and!; try done. }
  destruct (cb_mesh _ (so_built Hset)). rewrite (proj2 (Nat.ltb_ge (c_mesh_n c) (size peers))) by lia.
  destruct (graft_random g t _ _ peers mt) as [peers' mt'] eqn:Hr.
  apply graft_random_spec in Hr as (new&->&Hk&Hcand&Hall&Hle&Hgr).
  assert (Hd : peers ## new) by (intros p Hp Hn; apply Hcand, candidate_graftable in Hn as (_&?&_); done).
  pose proof (size_union peers new Hd) as Hsz.
  eexists _, _. split; [done|]. split_and!; [set_solver|done| |lia|].
  - intros p [?|Hn]%elem_of_union Hnp; [done|]. split; [|by apply Hgr]. by apply Hcand, candidate_graftable in Hn as (?&_).
  - destruct Hall as [Heq|Hall]; [left; lia|right]. intros p Hp Hs.
    destruct (decide (p ∈ peers)); [set_solver|]. apply elem_of_union_r, Hall, candidate_graftable. done.
Qed.

Lemma mesh_outbound_spec g t peers mt :
  gs_outbound_peers g = ∅ → ∃ mt', mesh_outbound g t peers mt = (peers, mt') ∧ notices_le mt mt'.
Proof.
  intros Ho. unfold mesh_outbound. destruct (_ <=? _); [|by eexists]. destruct (_ <? _); [|by eexists].
  destruct (graft_random g t _ _ peers mt) as [peers' mt'] eqn:Hr.
  apply graft_random_spec in Hr as (new&->&_&Hcand&_&Hle&_). exists mt'. split; [|done]. f_equal.
  assert (new = ∅); [|set_solver]. apply elem_of_equiv_empty_L. intros p Hp%Hcand. destruct Hp as (_&Hf&_).
  rewrite Ho, !andb_true_iff, bool_decide_eq_true in Hf. set_solver.
Qed.

Lemma median_score_Some g peers : peers ≠ ∅ → is_Some (median_score g peers).
Proof.
  intros Hne. unfold median_score. set (l := sort_by (score_le g) (bt_iter peers)).
  assert (Hl : 0 < length l).
  { subst l. rewrite length_sort_by, bt_iter_perm. change (0 < size peers).
    destruct (decide (size peers = 0)) as [Hz%size_empty_inv|]; [|lia]. by apply leibniz_equiv in Hz. }
  pose proof (Nat.div_lt (length l) 2 Hl ltac:(lia)).
  destruct (lookup_lt_is_Some_2 l (length l `div` 2) ltac:(lia)) as [p2 Hp2]. rewrite Hp2.
  destruct (_ =? 0); [|by eexists].
  destruct (lookup_lt_is_Some_2 l (length l `div` 2 - 1) ltac:(lia)) as [p1 ->]. simpl. by eexists.
Qed.

Lemma mesh_opportunistic_spec g t peers mt :
  gs_config g = c →
  ∃ peers' mt', mesh_opportunistic g t peers mt = Some (peers', mt') ∧ peers ⊆ peers' ∧ notices_le mt mt' ∧
    size peers' ≤ size peers + c_opportunistic_graft_peers c ∧
    (∀ p, p ∈ peers' → p ∉ peers → graftable g t p ∧ t ∈ topics_of (to_graft mt') p).
Proof.
  intros Hc. unfold mesh_opportunistic. rewrite Hc. rewrite (proj2 (Nat.eqb_neq _ _) (so_opportunistic_ticks Hset)).
  assert (Hsame : ∃ peers' mt', Some (peers, mt) = Some (peers', mt') ∧ peers ⊆ peers' ∧ notices_le mt mt' ∧
    size peers' ≤ size peers + c_opportunistic_graft_peers c ∧
    (∀ p, p ∈ peers' → p ∉ peers → graftable g t p ∧ t ∈ topics_of (to_graft mt') p)).
  { eexists _, _. split; [done|]. split_and!; try done. lia. }
  destruct (gs_peer_score g) as [sc|]; [|done]. destruct (_ =? 0); [|done]. simpl.
  destruct (Nat.ltb_spec 1 (size peers)) as [Hsz|]; [|done].
  destruct (median_score_Some g peers) as [median ->]; [intros ->; rewrite size_empty in Hsz; lia|]. simpl.
  destruct (_ <? _)%f64; [|done]. destruct (graft_random g t _ _ peers mt) as [peers' mt'] eqn:Hr.
  apply graft_random_spec in Hr as (new&->&Hk&Hcand&_&Hle&Hgr). eexists _, _. split; [done|].
  split_and!; [set_solver|done| |].
  - rewrite size_union_alt. pose proof (subseteq_size (new ∖ peers) new ltac:(set_solver)). lia.
  - intros p [?|Hn]%elem_of_union Hnp; [done|]. split; [|by apply Hgr]. by apply Hcand, candidate_graftable in Hn as (?&_).
Qed.

Lemma drop_negative_spec g t peers mt :
  ∃ mt', drop_negative g t peers mt = (kept_peers_of g peers, mt') ∧ notices_le mt mt' ∧
    ∀ p, p ∈ peers → p ∉ kept_peers_of g peers → t ∈ topics_of (to_prune mt') p.
Proof.
  unfold drop_negative. set (rm := filter _ (bt_iter peers)).
  assert (Hrm : ∀ p, p ∈ rm ↔ p ∈ peers ∧ (hb_score g p <? f64_zero)%f64 = true).
  { intros p. subst rm. rewrite list_elem_of_filter, bt_iter_perm, elem_of_elements. naive_solver. }
  eexists. split; [f_equal|split].
  - apply leibniz_equiv. intros p. unfold kept_peers_of.
    rewrite elem_of_difference, elem_of_list_to_set, Hrm, elem_of_filter. destruct (_ <? _)%f64; naive_solver.
  - split; [done|]. intros p t' Ht'. simpl. apply foldl_push_topic. by left.
  - intros p Hp Hnk. simpl. apply foldl_push_topic. right. split; [done|]. apply Hrm. split; [done|].
    unfold kept_peers_of in Hnk. rewrite elem_of_filter in Hnk. destruct (_ <? _)%f64; [done|]. naive_solver.
Qed.

Lemma maintain_topic_spec g t peers mt :
  gs_config g = c → gs_outbound_peers g = ∅ →
  ∃ peers' mt', maintain_topic g t peers mt = Some (peers', mt') ∧ maintained g t peers peers' mt' ∧ notices_le mt mt'.
Proof.
  intros Hc Ho. unfold maintain_topic.
  destruct (drop_negative_spec g t peers mt) as (mt1&->&Hle1&Hpr1). set (kept := kept_peers_of g peers) in *.
  destruct (mesh_low_spec g t kept mt1 Hc) as (peers2&mt2&->&Hsub2&Hle2&Hgr2&Hlow). simpl.
  destruct (mesh_high_spec g t peers2 mt2 Hc Ho) as (peers3&mt3&->&Hsub3&Hle3&Hpr3&Hhigh). simpl.
  destruct (mesh_outbound_spec g t peers3 mt3 Ho) as (mt4&->&Hle4).
  destruct (mesh_opportunistic_spec g t peers3 mt4 Hc) as (peers5&mt5&->&Hsub5&Hle5&Hsz5&Hgr5).
  eexists _, _. split; [done|]. split; [|by do 4 (etrans; [eassumption|])].
  assert (Hkp : kept ⊆ peers) by (unfold kept, kept_peers_of; set_solver).
  destruct (cb_mesh _ (so_built Hset)) as [[? ?] ?].
  assert (Hsz3 : size peers3 ≤ c_mesh_n_high c).
  { destruct (Nat.ltb_spec (c_mesh_n_high c) (size peers2)); [lia|by subst]. }
  pose proof (subseteq_size _ _ Hsub5).
  destruct Hle5 as [Hg5 Hp5], Hle4 as [Hg4 Hp4], Hle3 as [Hg3 Hp3], Hle2 as [Hg2 Hp2].
  assert (Hlow3 : size kept < c_mesh_n_low c → peers3 = peers2).
  { intros Hlt. rewrite (proj2 (Nat.ltb_lt _ _) Hlt) in Hlow. destruct Hlow as [Hl _].
    by rewrite (proj2 (Nat.ltb_ge _ _)) in Hhigh by lia. }
  assert (Hok3 : c_mesh_n_low c ≤ size kept → peers2 = kept).
  { intros Hge. by rewrite (proj2 (Nat.ltb_ge _ _) Hge) in Hlow. }
  split; [split; fold kept|..].
  - unfold mesh_bound. lia.
  - intros p Hp. destruct (decide (p ∈ peers3)) as [Hp3'|]; [|right; by apply Hgr5].
    apply Hsub3 in Hp3'. destruct (decide (p ∈ kept)); [by left|right; by apply Hgr2].
  - intros Hlt. rewrite (Hlow3 Hlt) in *. rewrite (proj2 (Nat.ltb_lt _ _) Hlt) in Hlow. destruct Hlow as [_ Hlow].
    split; [set_solver|]. destruct Hlow as [?|Hall]; [left; lia|right]. intros p Hp Hs. by apply Hsub5, Hall.
  - intros [Hge Hle]. rewrite (Hok3 Hge) in *. rewrite (proj2 (Nat.ltb_ge _ _) Hle) in Hhigh. by subst.
  - intros Hgt. rewrite (Hok3 ltac:(lia)) in *. rewrite (proj2 (Nat.ltb_lt _ _) Hgt) in Hhigh. lia.
  - intros p Hp Hnp. destruct (decide (p ∈ peers3)) as [Hp3'|]; [|by apply Hgr5].
    apply Hg5, Hg4, Hg3, Hgr2; [by apply Hsub3|set_solver].
  - intros p Hp Hnp. destruct (decide (p ∈ kept)) as [Hk|Hnk].
    + apply Hp5, Hp4, Hpr3; [by apply Hsub2|set_solver].
    + by apply Hp5, Hp4, Hp3, Hp2, Hpr1.
Qed.

Lemma maintain_loop g l m mt :
  gs_config g = c → gs_outbound_peers g = ∅ → NoDup l.*1 →
  ∃ m' mt', foldlM (maintain_step g) (m, mt) l = Some (m', mt') ∧ notices_le mt mt' ∧
    (∀ t, t ∉ l.*1 → m' !! t = m !! t) ∧
    (∀ t peers, (t, peers) ∈ l → ∃ peers', m' !! t = Some peers' ∧ maintained g t peers peers' mt').
Proof.
  intros Hc Ho. revert m mt. induction l as [|[t peers] l IH]; intros m mt Hnd; simpl.
  { eexists _, _. split; [done|]. split_and!; [done|done|]. by intros t peers ?%elem_of_nil. }
  inversion_clear Hnd as [|? ? Hni Hnd'].
  destruct (maintain_topic_spec g t peers mt Hc Ho) as (peers'&mt1&->&Hmd&Hle1). simpl.
  destruct (IH (<[t := peers']> m) mt1 Hnd') as (m'&mt'&->&Hle&Hout&Hin). eexists _, _. split; [done|]. split_and!.
  - by etrans.
  - intros t' [Hne Hni']%not_elem_of_cons. rewrite Hout, lookup_insert_ne by done. done.
  - intros t' ps [[= -> ->]|Hl]%elem_of_cons; [|by apply Hin].
    exists peers'. rewrite Hout, lookup_insert_eq by done. split; [done|]. by eapply maintained_le.
Qed.

Lemma hash_iter_keys {A} (m : gmap TopicHash A) : NoDup (hash_iter (map_to_list m)).*1.
Proof. rewrite (hash_iter_perm _ (map_to_list m)). apply NoDup_fst_map_to_list. Qed.

Lemma hash_iter_map {A} (m : gmap TopicHash A) t x : (t, x) ∈ hash_iter (map_to_list m) ↔ m !! t = Some x.
Proof. rewrite (hash_iter_perm _ (map_to_list m)). apply elem_of_map_to_list. Qed.

(** The maintenance of all meshes: no topic is added or dropped. *)
Lemma maintain_mesh_spec g :
  gs_config g = c → gs_outbound_peers g = ∅ →
  ∃ mt m' k, maintain_mesh g = Some (mt, set_draws k (set_mesh m' g)) ∧
    ∀ t, match gs_mesh g !! t with
         | Some peers => ∃ peers', m' !! t = Some peers' ∧ maintained g t peers peers' mt
         | None => m' !! t = None
         end.
Proof.
  intros Hc Ho. unfold maintain_mesh.
  destruct (maintain_loop g (hash_iter (map_to_list (gs_mesh g))) (gs_mesh g) (mk_Maintenance ∅ ∅ ∅ (gs_draws g)) Hc Ho)
    as (m'&mt'&->&_&Hout&Hin); [apply hash_iter_keys|]. simpl. eexists _, _, _. split; [done|]. intros t.
  destruct (gs_mesh g !! t) as [peers|] eqn:Hm; [by apply Hin, hash_iter_map|].
  rewrite Hout; [done|]. intros ([t' ps]&->&Hl)%list_elem_of_fmap. apply hash_iter_map in Hl. simpl in Hm. congruence.
Qed.

(** A step that changes only the tables, for the core of the invariant. *)
Lemma core_tables n last g g' :
  gossip_core n last g → gs_config g' = gs_config g → gs_swarm g' = gs_swarm g → gs_peer_score g' = gs_peer_score g →
  gs_backoffs g' = gs_backoffs g → gs_mcache g' = gs_mcache g → gs_duplicate_cache g' = gs_duplicate_cache g →
  gs_outputs g' = gs_outputs g → tables_ok g' → gossip_core n last g'.
Proof. intros [[? ? ? ?] ? ? ?] Hc Hw Hs Hb Hm Hd Ho Ht. split; [split; congruence|congruence|done|congruence]. Qed.

Lemma maintain_mesh_core n last g mt m' k :
  gossip_core n last g →
  (∀ t, match gs_mesh g !! t with
         | Some peers => ∃ peers', m' !! t = Some peers' ∧ maintained g t peers peers' mt
         | None => m' !! t = None
         end) →
  gossip_core n last (set_draws k (set_mesh m' g)).
Proof.
  intros Hg Hm. eapply core_tables; [exact Hg|try done..]. destruct Hg as [_ _ [? ? ? ? Hd ? ? ?] _]. split; simpl; try done.
  - intros t [ps Hps]. specialize (Hm t). destruct (gs_mesh g !! t) eqn:Hold; [apply Hd; by rewrite Hold|congruence].
  - intros t ps Hps. specialize (Hm t). destruct (gs_mesh g !! t) eqn:Hold; [|congruence].
    destruct Hm as (ps'&Hps'&[[] _ _]). by simplify_eq.
Qed.

Lemma expire_fanout_core n last now g :
  gossip_core n last g → ∃ f lp, expire_fanout now g = Some (set_fanout f (set_fanout_last_pub lp g)) ∧
    gossip_core n last (set_fanout f (set_fanout_last_pub lp g)).
Proof.
  intros Hg. unfold expire_fanout. rewrite (mi_config _ (gc_minor _ _ _ Hg)). rewrite decide_True.
  2: { apply Forall_forall. intros [t x] Hx%elem_of_map_to_list. simpl. unfold instant_add.
       pose proof (tb_last_pub _ (gc_tables _ _ _ Hg) _ _ Hx). pose proof (so_fanout Hset).
       rewrite (proj2 (Z.leb_le _ _)) by lia. by eexists. }
  eexists _, _. split; [done|]. eapply core_tables; [exact Hg|try done..].
  destruct Hg as [_ _ [? ? Hfl Hlp Hd ? Hfs ?] _]. split; simpl; try done.
  - intros t. specialize (Hfl t). split; intros [x Hx]; apply map_lookup_filter_Some in Hx as [Hx He]; simpl in He.
    + destruct (proj1 Hfl) as [y Hy]; [by rewrite Hx|]. rewrite Hy in He. simpl in He. exists y.
      by apply map_lookup_filter_Some.
    + destruct (proj2 Hfl) as [y Hy]; [by rewrite Hx|]. exists y. apply map_lookup_filter_Some. split; [done|].
      simpl. by rewrite Hx.
  - intros t x [Hx _]%map_lookup_filter_Some. eauto.
  - intros t Hm. apply map_lookup_filter_None. left. by apply Hd.
  - intros t ps [Hps _]%map_lookup_filter_Some. eauto.
Qed.

Lemma maintain_fanout_topic_size g t peers rng peers' rng' :
  gs_config g = c → size peers ≤ c_mesh_n c → maintain_fanout_topic g t peers rng = (peers', rng') →
  size peers' ≤ c_mesh_n c.
Proof.
  intros Hc Hsz. unfold maintain_fanout_topic. rewrite Hc. set (kept := filter _ peers).
  assert (size kept ≤ size peers) by (apply subseteq_size; subst kept; set_solver).
  destruct (Nat.ltb_spec (size kept) (c_mesh_n c)); [|intros [= <- <-]; lia].
  destruct (get_random_peers _ _ t _ _ _) as [new k] eqn:Hr. apply get_random_peers_spec in Hr as (Hk&_&_).
  intros [= <- <-]. rewrite size_union_alt. pose proof (subseteq_size (new ∖ kept) new ltac:(set_solver)). lia.
Qed.

Lemma maintain_fanout_loop g l m0 k m rng :
  gs_config g = c → (∀ t ps, (t, ps) ∈ l → size ps ≤ c_mesh_n c) → foldl (maintain_fanout_step g) (m0, k) l = (m, rng) →
  ∀ t, m !! t = m0 !! t ∨ (t ∈ l.*1 ∧ ∃ ps, m !! t = Some ps ∧ size ps ≤ c_mesh_n c).
Proof.
  intros Hc. revert m0 k. induction l as [|[t ps] l IH]; intros m0 k Hl Hf t'; simpl in Hf; [simplify_eq; by left|].
  destruct (maintain_fanout_topic g t ps k) as [ps' k'] eqn:Hmt. rewrite fmap_cons. simpl.
  destruct (IH _ _ ltac:(intros ? ? ?; apply (Hl t0 ps0); by right) Hf t') as [Heq|[Hin ?]]; [|right; split; [by right|done]].
  rewrite Heq. destruct (decide (t' = t)) as [->|Hne]; [|left; by rewrite lookup_insert_ne].
  right. split; [by left|]. exists ps'. rewrite lookup_insert_eq. split; [done|].
  eapply maintain_fanout_topic_size; [done| |exact Hmt]. apply (Hl t). by left.
Qed.

Lemma maintain_fanout_core n last g : gossip_core n last g → gossip_core n last (maintain_fanout g).
Proof.
  intros Hg. unfold maintain_fanout. destruct (foldl _ _ _) as [m rng] eqn:Hf.
  pose proof (tb_fanout_size _ (gc_tables _ _ _ Hg)) as Hfs0.
  pose proof (maintain_fanout_loop _ _ _ _ _ _ (mi_config _ (gc_minor _ _ _ Hg)) ltac:(intros t ps Hps%hash_iter_map; by eapply Hfs0) Hf) as Hloop.
  assert (Hm : ∀ t, (is_Some (m !! t) ↔ is_Some (gs_fanout g !! t)) ∧ ∀ ps, m !! t = Some ps → size ps ≤ c_mesh_n c).
  { intros t. destruct (Hloop t) as [->|[Hin (ps&->&Hsz)]]; [split; [done|apply Hfs0]|].
    split; [|by intros ? [= <-]]. apply list_elem_of_fmap in Hin as ([t' ps']&->&Hin). apply hash_iter_map in Hin.
    simpl. rewrite Hin. split; intros; by eexists. }
  eapply core_tables; [exact Hg|try done..]. destruct Hg as [_ _ [? ? Hfl Hlp Hd ? Hfs ?] _]. split; simpl; try done.
  - intros t. rewrite (proj1 (Hm t)). apply Hfl.
  - intros t Ht%Hd. destruct (m !! t) eqn:Hmt; [|done]. destruct (proj1 (proj1 (Hm t))) as [? ?]; [by rewrite Hmt|congruence].
  - intros t. apply Hm.
Qed.

Lemma minor_emit_gossip n g l :
  minor_ok g → mcache_ok n (gs_mcache g) → ∃ g', emit_gossip_loop g l = Some g' ∧ minor g g'.
Proof.
  revert g. induction l as [|[t peers] l IH]; intros g Hg Hmc; simpl; [eauto using minor_refl|].
  destruct (mcache_gossip n _ t Hmc) as [ids ->]. simpl. destruct ids as [|id ids]; [eauto using minor_refl|].
  destruct (if _ <? _ then _ else _) as [ids' g1] eqn:Hi.
  assert (Hm1 : minor g g1) by (destruct (_ <? _) in Hi; injection Hi as <- <-; [apply minor_refl|apply minor_draws]).
  destruct (get_random_peers_dynamic _ _ t _ _ _) as [to_msg rng].
  set (g2 := foldl _ (set_draws rng g1) _). assert (Hm2 : minor g g2).
  { eapply minor_trans; [exact Hm1|]. eapply minor_trans; [apply (minor_draws rng)|]. apply minor_foldl.
    intros g' p. unfold gossip_to. destruct (c_max_ihave_length (gs_config g') <? length ids'); [|by apply minor_pool].
    eapply minor_trans; [apply (minor_draws (S (gs_draws g')))|]. by apply minor_pool. }
  destruct (IH g2) as (g3&->&Hm3); [by eapply minor_keeps| |].
  - destruct (minor_fields _ _ Hm2) as (_&_&_&_&->&_). done.
  - eexists. split; [done|]. exact (minor_trans _ _ _ Hm2 Hm3).
Qed.

Lemma minor_send_graft now px st x :
  (now ≤ horizon)%Z → minor_ok st.2 → ∃ st', send_graft now px st x = Some st' ∧ minor st.2 st'.2.
Proof.
  destruct st as [prunes g], x as [p topics]. simpl. intros Hnow Hg. unfold send_graft.
  destruct (minor_foldlM (λ g t, on_score (λ ps, ps_graft ps p t) g) g topics) as (g1&->&Hm1); [|done|].
  { intros g' t _ Hg'. by apply minor_graft. }
  simpl. assert (∃ l g2, match prunes !! p with
    | Some ts => make_prunes now g1 p (c_do_px (gs_config g1) && negb (bool_decide (p ∈ px))) ts
    | None => Some ([], g1) end = Some (l, g2) ∧ minor g1 g2) as (l&g2&->&Hm2).
  { destruct (prunes !! p); [|eauto using minor_refl]. apply minor_make_prunes; [done|by eapply minor_keeps]. }
  simpl. eexists. split; [done|]. simpl. eapply minor_trans; [exact Hm1|]. eapply minor_trans; [exact Hm2|].
  apply minor_send_or_log.
Qed.

Lemma minor_send_graft_prune now mt g :
  (now ≤ horizon)%Z → minor_ok g → ∃ g', send_graft_prune now mt g = Some g' ∧ minor g g'.
Proof.
  intros Hnow Hg. unfold send_graft_prune.
  destruct (foldlM_total (λ st, minor_ok st.2 ∧ minor g st.2) (send_graft now (no_px mt)) (to_prune mt, g)
    (hash_iter (map_to_list (to_graft mt)))) as ([prunes g1]&->&Hg1&Hm1).
  - split; [done|apply minor_refl].
  - intros st x _ [Hst Hm]. destruct (minor_send_graft now (no_px mt) st x Hnow Hst) as (st'&?&Hm'). exists st'.
    split; [done|]. split; [by eapply minor_keeps|]. exact (minor_trans _ _ _ Hm Hm').
  - simpl in *. destruct (minor_foldlM (send_prune now (no_px mt)) g1 (hash_iter (map_to_list prunes))) as (g2&->&Hm2).
    + intros g' [p ts] _ Hg'. unfold send_prune.
      destruct (minor_make_prunes now g' p (c_do_px (gs_config g') && negb (bool_decide (p ∈ no_px mt))) ts Hnow Hg') as (l&g3&->&Hm3).
      simpl. eexists. split; [done|]. eapply minor_trans; [exact Hm3|]. apply minor_send_or_log.
    + done.
    + eexists. split; [done|]. exact (minor_trans _ _ _ Hm1 Hm2).
Qed.

Lemma minor_apply_iwant_penalties now g : minor_ok g → minor g (apply_iwant_penalties now g).
Proof.
  intros Hg. unfold apply_iwant_penalties. destruct (gs_peer_score g) as [sc|] eqn:Hsc; [|apply minor_refl].
  destruct (get_broken_promises now (sc_promises sc)) as [broken gp]. apply minor_score. rewrite Hsc. simpl.
  generalize (hash_iter (map_to_list broken)) as l. generalize (sc_score sc) as ps. intros ps l. revert ps.
  induction l as [|x l IH]; intros ps [Hok Hr]; simpl; [done|]. apply IH.
  destruct (ps_exec_ok ps (PsPenalty x.1 (Z.of_nat x.2)) _ Hok eq_refl I) as (ps'&[= <-]&Hok'&Hr'). split; [done|]. lia.
Qed.

Lemma backoff_heartbeat_ok now bs : backoff_ok bs → ∃ bs', bs_heartbeat now bs = Some bs' ∧ backoff_ok bs'.
Proof.
  intros [Hwf Hi Hs Hl Hb]. destruct (heartbeat_effect bs now Hwf) as (bs'&->&Hwf'&(Hl'&Hi'&Hs')&_&Hget).
  exists bs'. split; [done|]. split; [done|congruence..|]. intros t p b. unfold get_backoff_time. rewrite Hget.
  destruct (get_backoff (backoffs bs) t p) as [x|] eqn:Hx; [|done]. simpl. destruct (heartbeat_drops now bs x); [done|].
  simpl. intros [= <-]. apply (Hb t p). unfold get_backoff_time. by rewrite Hx.
Qed.

(** The first part of the heartbeat clears the counters and keeps the tables. *)
Lemma heartbeat_begin_spec n last now g :
  gossip_core n last g →
  ∃ g', heartbeat_begin now g = Some g' ∧ gossip_core n last g' ∧ gs_count_sent_iwant g' = ∅ ∧ gs_mesh g' = gs_mesh g ∧
    gs_connected_peer g' = gs_connected_peer g.
Proof.
  intros Hg. unfold heartbeat_begin. simpl.
  destruct (backoff_heartbeat_ok now (gs_backoffs g) (mi_backoffs _ (gc_minor _ _ _ Hg))) as (bs&->&Hbs). simpl.
  set (g1 := set_count_sent_iwant ∅ _). assert (Hg1 : gossip_core n last g1).
  { destruct Hg as [[? ? ? ?] ? [] ?]. split; [by split|done|by split|done]. }
  pose proof (minor_apply_iwant_penalties now g1 (gc_minor _ _ _ Hg1)) as Hm2. set (g2 := apply_iwant_penalties now g1) in *.
  pose proof (minor_core _ _ _ _ Hm2 Hg1) as Hg2. pose proof (mi_config _ (gc_minor _ _ _ Hg2)) as Hc2.
  rewrite Hc2, (proj2 (Nat.eqb_neq _ _) (so_explicit_ticks Hset)).
  assert (∃ g3, (if gs_heartbeat_ticks g2 `mod` c_check_explicit_peers_ticks c =? 0
    then foldlM check_explicit_peer_connection g2 (hash_iter (elements (gs_explicit_peers g2))) else Some g2) = Some g3 ∧
    minor g2 g3) as (g3&->&Hm3).
  { destruct (_ =? 0); [|eauto using minor_refl]. apply minor_foldlM; [|apply Hg2]. intros g' p _ Hg'. by apply minor_check_explicit. }
  exists g3. pose proof (minor_trans _ _ _ Hm2 Hm3) as Hm. split; [done|]. split; [by eapply minor_core|].
  by destruct Hm as (sc&bs'&k&os&pool&->&_).
Qed.

Lemma minor_count g g' : minor g g' → gs_count_sent_iwant g' = gs_count_sent_iwant g.
Proof. by intros (sc&bs&k&os&pool&->&_). Qed.

Lemma flush_control_pool_core n last g :
  gossip_core n last g → gs_count_sent_iwant g = ∅ → gossip_inv n last (flush_control_pool g).
Proof.
  intros Hg Hcnt. unfold flush_control_pool.
  assert (Hg1 : gossip_inv n last (set_control_pool ∅ g)).
  { split; [destruct Hg as [[] ? [] ?]; split; [by split|done|by split|done]|].
    intros p. simpl. rewrite Hcnt. unfold pool_iwants. rewrite !lookup_empty. simpl. lia. }
  eapply minor_inv; [|exact Hg1]. apply minor_foldl. intros g' x. apply minor_send_or_log.
Qed.

(** *** Grafts and prunes are told *)

(** The peer [p] was sent, over its channel, an RPC in which it finds an action satisfying [a]. *)
Definition told (os : list Output) p (chan : nat) (a : Action → Prop) : Prop :=
  ∃ r act, OSend p chan (enc_rpc r) ∈ os ∧ act ∈ control_from_proto (control_of r) ∧ a act.

Definition is_graft t (a : Action) : Prop := a = Graft t.
Definition is_prune t (a : Action) : Prop := ∃ peers backoff, a = Prune t peers backoff.

Lemma told_more os os' p chan a : os ⊆ os' → told os p chan a → told os' p chan a.
Proof. intros Hs (r&act&?&?&?). exists r, act. split_and!; try done. by apply Hs. Qed.

Lemma push_control_graft t actions pc :
  Graft t ∈ actions ∨ mk_ProtoGraft (Some t) ∈ pc_graft pc → mk_ProtoGraft (Some t) ∈ pc_graft (foldl push_control pc actions).
Proof.
  revert pc. induction actions as [|a l IH]; intros pc; simpl; [by intros [?%elem_of_nil|?]|].
  intros [[<-|Hin]%elem_of_cons|Hin]; apply IH; [right; simpl; apply elem_of_app; right; by left|by left|].
  right. destruct a; simpl; try done. apply elem_of_app. by left.
Qed.

Lemma push_control_prune t actions pc :
  (∃ a, a ∈ actions ∧ is_prune t a) ∨ (∃ x, x ∈ pc_prune pc ∧ pr_topic_id x = Some t) →
  ∃ x, x ∈ pc_prune (foldl push_control pc actions) ∧ pr_topic_id x = Some t.
Proof.
  revert pc. induction actions as [|a l IH]; intros pc; simpl; [by intros [(?&?%elem_of_nil&_)|?]|].
  intros [(b&[->|Hin]%elem_of_cons&Hb)|(x&Hx&Ht)]; apply IH; [| |].
  - right. destruct Hb as (peers&backoff&->). simpl. eexists. split; [apply elem_of_app; right; by left|done].
  - left. by eauto.
  - right. exists x. split; [|done]. destruct a; simpl; try done. apply elem_of_app. by left.
Qed.

(** What the fragments of an RPC of control messages hold. *)
Lemma fragment_actions max actions :
  ∃ rpcs, fragment_message max (control_rpc actions) = Ok (enc_rpc <$> rpcs) ∧
    (∀ t, Graft t ∈ actions → ∃ r, r ∈ rpcs ∧ Graft t ∈ control_from_proto (control_of r)) ∧
    (∀ t a, a ∈ actions → is_prune t a → ∃ r act, r ∈ rpcs ∧ act ∈ control_from_proto (control_of r) ∧ is_prune t act).
Proof.
  assert (∃ rpcs, fragment_rpcs max (control_rpc actions) = Ok rpcs) as [rpcs Hr].
  { unfold fragment_rpcs. destruct (_ <? _)%Z; simpl; by eauto. }
  exists rpcs. unfold fragment_message. rewrite Hr. split; [done|]. apply fragment_rpcs_contents in Hr.
  assert (Hc : control_of (control_rpc actions) = foldl push_control (mk_ProtoControl [] [] [] []) actions).
  { unfold control_of, control_rpc, rpc_into_protobuf. simpl. by destruct actions. }
  split.
  - intros t Hin. assert (Hg : mk_ProtoGraft (Some t) ∈ ct_graft (contents rpcs)).
    { rewrite Hr. simpl. rewrite app_nil_r, Hc. apply push_control_graft. by left. }
    simpl in Hg. apply list_elem_of_bind in Hg as (r&Hg&Hin'). exists r. split; [done|].
    unfold control_from_proto. rewrite !elem_of_app. right; right; left.
    apply list_elem_of_fmap. by exists (mk_ProtoGraft (Some t)).
  - intros t a Hin Ha. assert (Hg : ∃ x, x ∈ ct_prune (contents rpcs) ∧ pr_topic_id x = Some t).
    { rewrite Hr. simpl. rewrite app_nil_r, Hc. apply push_control_prune. by eauto. }
    destruct Hg as (x&Hx&Ht). simpl in Hx. apply list_elem_of_bind in Hx as (r&Hx&Hin').
    eexists r, _. split; [done|]. split.
    + unfold control_from_proto. rewrite !elem_of_app. right; right; right. apply list_elem_of_fmap. by exists x.
    + rewrite Ht. simpl. eexists _, _. done.
Qed.

Lemma minor_outputs g g' : minor g g' → gs_outputs g ⊆ gs_outputs g' ∧ gs_connected_peer g' = gs_connected_peer g.
Proof. intros (sc&bs&k&os&pool&->&_). simpl. split; [set_solver|done]. Qed.

Lemma send_or_log_told g p chan actions :
  gs_config g = c → gs_connected_peer g !! p = Some chan →
  (∀ t, Graft t ∈ actions → told (gs_outputs (send_or_log p (control_rpc actions) g)) p chan (is_graft t)) ∧
  (∀ t a, a ∈ actions → is_prune t a → told (gs_outputs (send_or_log p (control_rpc actions) g)) p chan (is_prune t)).
Proof.
  intros Hc Hp. destruct (fragment_actions (c_max_transmit_size c) actions) as (rpcs&Hf&Hgr&Hpr).
  assert (Hsent : ∀ r, r ∈ rpcs → OSend p chan (enc_rpc r) ∈ gs_outputs (send_or_log p (control_rpc actions) g)).
  { intros r Hr. unfold send_or_log, send_message. rewrite Hc, Hf. simpl. rewrite Hp. simpl.
    apply elem_of_app. right. by apply list_elem_of_fmap_2, list_elem_of_fmap_2. }
  split.
  - intros t (r&Hr&?)%Hgr. exists r, (Graft t). by split_and!; [apply Hsent| |].
  - intros t a Hin Ha. destruct (Hpr t a Hin Ha) as (r&act&Hr&?&?). exists r, act. by split_and!; [apply Hsent| |].
Qed.

Lemma make_prunes_acts now g p px ts l g' t :
  make_prunes now g p px ts = Some (l, g') → t ∈ ts → ∃ act, act ∈ l ∧ is_prune t act.
Proof.
  revert g l. induction ts as [|t' ts IH]; intros g l Hmk Hin; [by apply elem_of_nil in Hin|]. simpl in Hmk.
  destruct (make_prune now g t' p px) as [[a g1]|] eqn:Ha; [|done]. simpl in Hmk.
  destruct (make_prunes now g1 p px ts) as [[rest g2]|] eqn:Hr; [|done]. simpl in Hmk. injection Hmk as <- <-.
  apply elem_of_cons in Hin as [->|Hin].
  - exists a. split; [by left|]. unfold make_prune in Ha. destruct (on_score _ g) as [g0|]; [|done]. simpl in Ha.
    destruct (if px then _ else _) as [peers rng]. unfold is_prune.
    destruct (update_backoff now (gs_backoffs g0) t' p _); destruct (gs_peer_protocols g0 !! p) as [[]|]; simplify_eq/=; eauto.
  - destruct (IH _ _ Hr Hin) as (act&?&?). exists act. split; [by right|done].
Qed.

Lemma send_graft_told now px prunes g p topics st' t chan :
  (now ≤ horizon)%Z → minor_ok g → gs_connected_peer g !! p = Some chan →
  send_graft now px (prunes, g) (p, topics) = Some st' →
  (t ∈ topics → told (gs_outputs st'.2) p chan (is_graft t)) ∧
  (t ∈ topics_of prunes p → told (gs_outputs st'.2) p chan (is_prune t)) ∧
  st'.1 = delete p prunes.
Proof.
  intros Hnow Hg Hp. unfold send_graft.
  destruct (minor_foldlM (λ g t, on_score (λ ps, ps_graft ps p t) g) g topics) as (g1&->&Hm1); [|done|].
  { intros g' t' _ Hg'. by apply minor_graft. }
  simpl. assert (Hpr : ∃ l g2, match prunes !! p with
    | Some ts => make_prunes now g1 p (c_do_px (gs_config g1) && negb (bool_decide (p ∈ px))) ts
    | None => Some ([], g1) end = Some (l, g2) ∧ minor g1 g2 ∧ (t ∈ topics_of prunes p → ∃ act, act ∈ l ∧ is_prune t act)).
  { unfold topics_of. destruct (prunes !! p) as [ts|]; simpl.
    - destruct (minor_make_prunes now g1 p (c_do_px (gs_config g1) && negb (bool_decide (p ∈ px))) ts Hnow) as (l&g2&Hmk&Hm2);
        [by eapply minor_keeps|]. exists l, g2. split_and!; try done. intros Hin. by eapply make_prunes_acts.
    - exists [], g1. split_and!; [done|apply minor_refl|]. by intros ?%elem_of_nil. }
  destruct Hpr as (l&g2&->&Hm2&Hacts). simpl. intros [= <-]. simpl.
  pose proof (minor_trans _ _ _ Hm1 Hm2) as Hm. pose proof (minor_keeps _ _ Hm Hg) as Hg2.
  assert (Hp2 : gs_connected_peer g2 !! p = Some chan) by (by rewrite (proj2 (minor_outputs _ _ Hm))).
  split_and!; [| |done].
  - intros Hin. apply (send_or_log_told g2 p chan); [by destruct Hg2|done|].
    apply elem_of_app. left. by apply list_elem_of_fmap_2.
  - intros (act&Hact&?)%Hacts. apply (proj2 (send_or_log_told g2 p chan _ (mi_config _ Hg2) Hp2) t act); [|done].
    apply elem_of_app. by right.
Qed.

Lemma send_grafts_told now px l prunes g st' :
  (now ≤ horizon)%Z → minor_ok g → NoDup l.*1 → foldlM (send_graft now px) (prunes, g) l = Some st' →
  minor g st'.2 ∧
  ∀ p chan t, gs_connected_peer g !! p = Some chan →
    (∀ topics, (p, topics) ∈ l → t ∈ topics → told (gs_outputs st'.2) p chan (is_graft t)) ∧
    (t ∈ topics_of prunes p → told (gs_outputs st'.2) p chan (is_prune t) ∨ t ∈ topics_of st'.1 p).
Proof.
  intros Hnow. revert prunes g. induction l as [|[q topics] l IH]; intros prunes g Hg Hnd; cbn [foldlM].
  { intros [= <-]. split; [apply minor_refl|]. intros p chan t Hp. split; [by intros ? ?%elem_of_nil|by right]. }
  inversion_clear Hnd as [|? ? Hni Hnd']. destruct (minor_send_graft now px (prunes, g) (q, topics) Hnow Hg) as ([pr1 g1]&Hs1&Hm1).
  rewrite Hs1. simpl. intros Hf. simpl in Hm1. destruct (IH pr1 g1 (minor_keeps _ _ Hm1 Hg) Hnd' Hf) as [Hm' Htold].
  split; [exact (minor_trans _ _ _ Hm1 Hm')|]. destruct (minor_outputs _ _ Hm') as [Hos _].
  destruct (minor_outputs _ _ Hm1) as [_ Hcon]. intros p chan t Hp.
  destruct (Htold p chan t) as [Hgr Hpr]; [by rewrite Hcon|].
  destruct (decide (p = q)) as [->|Hne].
  - destruct (send_graft_told now px prunes g q topics _ t chan Hnow Hg Hp Hs1) as (Hgr1&Hpr1&_). simpl in *.
    split; [|intros Hin; left; by apply (told_more _ _ _ _ _ Hos), Hpr1].
    intros topics' [[= ->]|Hin]%elem_of_cons Ht; [by apply (told_more _ _ _ _ _ Hos), Hgr1|].
    destruct Hni. by apply (list_elem_of_fmap_2 fst _ (q, topics')).
  - split.
    + intros topics' [[= -> ->]|Hin]%elem_of_cons Ht; [done|]. by eapply Hgr.
    + intros Hin. apply Hpr. assert (pr1 = delete q prunes) as ->.
      { unfold send_graft in Hs1. destruct (foldlM _ g topics); [|done]. simpl in Hs1.
        destruct (match prunes !! q with Some _ => _ | None => _ end) as [[? ?]|]; [|done]. simpl in Hs1. by injection Hs1. }
      unfold topics_of. by rewrite lookup_delete_ne.
Qed.

Lemma send_prunes_told now px l g g' :
  (now ≤ horizon)%Z → minor_ok g → foldlM (send_prune now px) g l = Some g' →
  minor g g' ∧ ∀ p chan topics t, gs_connected_peer g !! p = Some chan → (p, topics) ∈ l → t ∈ topics →
    told (gs_outputs g') p chan (is_prune t).
Proof.
  intros Hnow. revert g. induction l as [|[q ts] l IH]; intros g Hg; cbn [foldlM].
  { intros [= <-]. split; [apply minor_refl|]. by intros p chan topics t _ ?%elem_of_nil. }
  destruct (minor_make_prunes now g q (c_do_px (gs_config g) && negb (bool_decide (q ∈ px))) ts Hnow Hg) as (acts&g1&Hmk&Hm1).
  assert (send_prune now px g (q, ts) = Some (send_or_log q (control_rpc acts) g1)) as -> by (unfold send_prune; by rewrite Hmk).
  simpl. pose proof (minor_send_or_log q (control_rpc acts) g1) as Hm2.
  pose proof (minor_trans _ _ _ Hm1 Hm2) as Hm. intros Hf. destruct (IH _ (minor_keeps _ _ Hm Hg) Hf) as [Hm' Htold].
  split; [exact (minor_trans _ _ _ Hm Hm')|]. destruct (minor_outputs _ _ Hm') as [Hos _].
  intros p chan topics t Hp [[= -> ->]|Hin]%elem_of_cons Ht.
  - destruct (make_prunes_acts _ _ _ _ _ _ _ t Hmk Ht) as (act&Hact&?). apply (told_more _ _ _ _ _ Hos).
    assert (Hq : gs_connected_peer g1 !! q = Some chan) by (by rewrite (proj2 (minor_outputs _ _ Hm1))).
    by apply (proj2 (send_or_log_told g1 q chan acts (mi_config _ (minor_keeps _ _ Hm1 Hg)) Hq) t act).
  - eapply Htold; [|exact Hin|done]. by rewrite (proj2 (minor_outputs _ _ Hm)).
Qed.

Lemma send_graft_prune_told now mt g g' :
  (now ≤ horizon)%Z → minor_ok g → send_graft_prune now mt g = Some g' →
  ∀ p chan t, gs_connected_peer g !! p = Some chan →
    (t ∈ topics_of (to_graft mt) p → told (gs_outputs g') p chan (is_graft t)) ∧
    (t ∈ topics_of (to_prune mt) p → told (gs_outputs g') p chan (is_prune t)).
Proof.
  intros Hnow Hg. unfold send_graft_prune.
  destruct (foldlM _ _ (hash_iter (map_to_list (to_graft mt)))) as [[prunes g1]|] eqn:Hf1; [|done]. simpl. intros Hf2.
  apply send_grafts_told in Hf1 as [Hm1 Htold1]; [|done|done|].
  2: { rewrite (hash_iter_perm _ (map_to_list (to_graft mt))). apply NoDup_fst_map_to_list. }
  apply send_prunes_told in Hf2 as [Hm2 Htold2]; [|done|by eapply minor_keeps]. simpl in *.
  destruct (minor_outputs _ _ Hm2) as [Hos _]. destruct (minor_outputs _ _ Hm1) as [_ Hcon]. intros p chan t Hp.
  destruct (Htold1 p chan t Hp) as [Hgr Hpr]. split.
  - unfold topics_of. destruct (to_graft mt !! p) as [topics|] eqn:Htp; [|by intros ?%elem_of_nil]. simpl. intros Hin.
    apply (told_more _ _ _ _ _ Hos). eapply Hgr; [|exact Hin].
    rewrite (hash_iter_perm _ (map_to_list (to_graft mt))). by apply elem_of_map_to_list.
  - intros Hin. destruct (Hpr Hin) as [?|Hrest]; [by apply (told_more _ _ _ _ _ Hos)|]. unfold topics_of in Hrest.
    destruct (prunes !! p) as [topics|] eqn:Htp; [|by apply elem_of_nil in Hrest]. simpl in Hrest.
    eapply Htold2; [by rewrite Hcon| |exact Hrest].
    rewrite (hash_iter_perm _ (map_to_list prunes)). by apply elem_of_map_to_list.
Qed.

(** The heartbeat keeps the invariant, and maintains every mesh: [g1] is the state
    whose scores and backoffs decide. *)
Lemma heartbeat_spec n last now g :
  (last ≤ now ≤ horizon)%Z → gossip_inv n last g →
  ∃ g1 g', heartbeat_begin now g = Some g1 ∧ heartbeat now g = Some g' ∧ gossip_inv n now g' ∧
    ∀ t, match gs_mesh g !! t with
         | None => gs_mesh g' !! t = None
         | Some peers => ∃ peers', gs_mesh g' !! t = Some peers' ∧ mesh_maintained g1 t peers peers' ∧
             ∀ p chan, gs_connected_peer g !! p = Some chan →
               (p ∈ peers' → p ∉ peers → told (gs_outputs g') p chan (is_graft t)) ∧
               (p ∈ peers → p ∉ peers' → told (gs_outputs g') p chan (is_prune t))
         end.
Proof.
  intros Hnow [Hg0 _]. apply (core_later _ _ now) in Hg0; [|lia].
  destruct (heartbeat_begin_spec n now now g Hg0) as (g1&Hb&Hg1&Hcnt1&Hmesh1&Hcon1). unfold heartbeat. rewrite Hb. simpl.
  destruct (maintain_mesh_spec g1) as (mt&m'&k&->&Hm); [apply Hg1|apply Hg1|]. simpl.
  pose proof (maintain_mesh_core n now g1 mt m' k Hg1 Hm) as Hg2. set (g2 := set_draws k (set_mesh m' g1)) in *.
  destruct (expire_fanout_core n now now g2 Hg2) as (f&lp&->&Hg3). simpl.
  set (g3 := set_fanout f (set_fanout_last_pub lp g2)) in *. pose proof (maintain_fanout_core n now g3 Hg3) as Hg4.
  assert (Hf4 : gs_mesh (maintain_fanout g3) = m' ∧ gs_connected_peer (maintain_fanout g3) = gs_connected_peer g ∧
    gs_count_sent_iwant (maintain_fanout g3) = ∅).
  { unfold maintain_fanout. destruct (foldl _ _ _). simpl. by rewrite Hcon1, Hcnt1. }
  set (g4 := maintain_fanout g3) in *. clearbody g4.
  destruct (minor_emit_gossip n g4 (hash_iter (map_to_list (gs_mesh g4)) ++ hash_iter (map_to_list (gs_fanout g4)))
    (gc_minor _ _ _ Hg4) (gc_mcache _ _ _ Hg4)) as (g5&Hem&Hm5). unfold emit_gossip. rewrite Hem. simpl.
  pose proof (minor_core _ _ _ _ Hm5 Hg4) as Hg5.
  assert (Hs : ∃ g6, (if bool_decide (to_graft mt = ∅) && bool_decide (to_prune mt = ∅) then Some g5
    else send_graft_prune now mt g5) = Some g6 ∧ minor g5 g6 ∧
    ∀ p chan t, gs_connected_peer g5 !! p = Some chan →
      (t ∈ topics_of (to_graft mt) p → told (gs_outputs g6) p chan (is_graft t)) ∧
      (t ∈ topics_of (to_prune mt) p → told (gs_outputs g6) p chan (is_prune t))).
  { destruct (bool_decide (to_graft mt = ∅) && bool_decide (to_prune mt = ∅)) eqn:He.
    - apply andb_true_iff in He as [->%bool_decide_eq_true ->%bool_decide_eq_true].
      exists g5. split_and!; [done|apply minor_refl|]. intros p chan t _. unfold topics_of. rewrite lookup_empty. simpl.
      by split; intros ?%elem_of_nil.
    - destruct (minor_send_graft_prune now mt g5 (proj2 Hnow) (gc_minor _ _ _ Hg5)) as (g6&Hs&Hm6). exists g6.
      split_and!; [done|done|]. by apply (send_graft_prune_told now); [lia|apply Hg5|]. }
  destruct Hs as (g6&->&Hm6&Htold). simpl. pose proof (minor_core _ _ _ _ Hm6 Hg5) as Hg6.
  pose proof (minor_trans _ _ _ Hm5 Hm6) as Hm46.
  assert (Hg7 : gossip_inv n now (flush_control_pool g6)).
  { apply flush_control_pool_core; [done|]. rewrite (minor_count _ _ Hm46). apply Hf4. }
  assert (Hm7 : minor (set_control_pool ∅ g6) (flush_control_pool g6)).
  { apply minor_foldl. intros g' x. apply minor_send_or_log. }
  destruct (mcache_shift n _ (gc_mcache _ _ _ (proj1 Hg7))) as (mc&->&Hmc). simpl.
  exists g1. eexists. split; [done|]. split; [done|]. split; [by eapply inv_mcache|]. simpl.
  destruct (minor_fields _ _ Hm7) as [-> _]. simpl. destruct (minor_fields _ _ Hm46) as [-> _].
  destruct Hf4 as (->&Hcon4&_). intros t. specialize (Hm t). rewrite Hmesh1 in Hm.
  destruct (gs_mesh g !! t) as [peers|]; [|done]. destruct Hm as (peers'&Hp'&[Hmd Hgr Hpr]). exists peers'.
  split_and!; [done|done|]. intros p chan Hp.
  destruct (Htold p chan t) as [Hgr' Hpr']; [by rewrite (proj2 (minor_outputs _ _ Hm5)), Hcon4|].
  destruct (minor_outputs _ _ Hm7) as [Hos _]. simpl in Hos.
  split; intros; (eapply told_more; [exact Hos|]); auto.
Qed.

(** ** The main loop *)

Lemma inv_simple n last g g' :
  gossip_inv n last g → gs_config g' = gs_config g → gs_swarm g' = gs_swarm g → gs_peer_score g' = gs_peer_score g →
  gs_backoffs g' = gs_backoffs g → gs_mcache g' = gs_mcache g → gs_duplicate_cache g' = gs_duplicate_cache g →
  gs_outputs g' = gs_outputs g → gs_control_pool g' = gs_control_pool g → gs_count_sent_iwant g' = gs_count_sent_iwant g →
  gs_peer_topics g' = gs_peer_topics g → gs_topic_peers g' = gs_topic_peers g → gs_connected_peer g' = gs_connected_peer g →
  gs_fanout g' = gs_fanout g → gs_fanout_last_pub g' = gs_fanout_last_pub g → gs_mesh g' = gs_mesh g →
  gs_outbound_peers g' = gs_outbound_peers g → gossip_inv n last g'.
Proof.
  intros Hg Hc Hw Hs Hb Hm Hd Ho Hp Hn Ht Htp Hcp Hf Hl Hme Hob. eapply inv_tables; try done.
  destruct Hg as [[_ _ [] _] _]. split; try congruence.
  - rewrite Ht, Htp. done.
  - rewrite Ht, Hcp. done.
  - rewrite Hf, Hl. done.
  - rewrite Hl. done.
  - rewrite Hf, Hme. done.
  - rewrite Hme. done.
  - rewrite Hf. done.
Qed.

Definition input_iwants (i : GossipInput) : nat :=
  match i with InEvent (EvMessage _ rpc _) => rpc_iwants rpc | _ => 0 end.

(** The conditions on the inputs: the backoffs of remote peers fit, and new
    parameters of topics are well-formed. *)
Definition input_ok (i : GossipInput) : Prop :=
  match i with
  | InEvent (EvMessage _ rpc _) => rpc_ok rpc
  | InTopicParams _ params => caps_ok params
  | _ => True
  end.

Lemma handle_command_inv n last now g cmd :
  (last ≤ now ≤ horizon)%Z → gossip_inv n last g →
  ∃ r g', handle_command now g cmd = Some (r, g') ∧ gossip_inv n now g'.
Proof.
  intros Hnow Hg. assert (Hgn : gossip_inv n now g) by (eapply inv_later; [apply Hnow|done]).
  destruct cmd as [t d|t|t| | | |]; simpl.
  - destruct (publish_inv n last now g t d Hnow Hg) as (r&g'&->&?). simpl. eauto.
  - destruct (subscribe_inv n now g t Hgn) as (r&g'&->&Hg'). simpl. destruct r as [[]|e]; eexists _, _; (split; [done|]); try done.
    by eapply inv_simple.
  - destruct (unsubscribe_inv n now now g t ltac:(lia) Hgn) as (r&g'&->&Hg'). simpl.
    destruct (gs_my_topics g' !! t) as [chan|]; eexists _, _; (split; [done|]); [|done].
    eapply minor_inv; [by apply minor_out, Forall_singleton|]. by eapply inv_simple.
  - destruct (heartbeat_spec n last now g Hnow Hg) as (g1&g'&_&->&?&_). simpl. eauto.
  - eauto.
  - eauto.
  - eauto.
Qed.

Lemma process_input_inv n last now g i :
  (last ≤ now ≤ horizon)%Z → (0 ≤ n)%Z → (n + Z.of_nat (input_iwants i) ≤ u32_max)%Z → input_ok i → gossip_inv n last g →
  ∃ g', process_input now g i = Some g' ∧ gossip_inv (n + Z.of_nat (input_iwants i)) now g'.
Proof.
  intros Hnow Hn Hle Hok Hg. assert (Hgn : gossip_inv n now g) by (eapply inv_later; [apply Hnow|done]).
  destruct i as [e|cmd|t|mid p a|p|p|p|p|p x|t params]; cbn [process_input input_iwants] in *; rewrite ?Z.add_0_r.
  - destruct e as [p rpc invalid|e|]; cbn [handle_event] in *.
    + by apply handle_message_event_inv with last.
    + rewrite Z.add_0_r. apply handle_peer_event_inv; [lia|done].
    + rewrite Z.add_0_r. destruct (heartbeat_spec n last now g Hnow Hg) as (g1&g'&_&?&?&_). eauto.
  - destruct (handle_command_inv n last now g cmd Hnow Hg) as (r&g'&->&?). simpl. eauto.
  - destruct (unsubscribe_inv n now now g t ltac:(lia) Hgn) as (r&g'&->&?). simpl. eauto.
  - destruct (report_inv n now now g mid p a Hgn) as (r&g'&->&?). simpl. eauto.
  - unfold add_explicit_peer. set (g1 := set_explicit_peers _ g). assert (Hg1 : gossip_inv n now g1) by (by eapply inv_simple).
    destruct (minor_check_explicit g1 p (gc_minor _ _ _ (proj1 Hg1))) as (g2&->&?). eauto using minor_inv.
  - eexists. split; [done|]. by eapply inv_simple.
  - eexists. split; [done|]. by eapply inv_simple.
  - eexists. split; [done|]. by eapply inv_simple.
  - destruct (minor_on_score (PsSetApplicationScore p x) g (λ _ _, I) (gc_minor _ _ _ (proj1 Hgn))) as (g'&Hs&Hm).
    exists g'. split; [|by eapply minor_inv]. unfold set_application_score. unfold on_score in Hs.
    destruct (gs_peer_score g); [|done]. simpl in Hs. by injection Hs as <-.
  - destruct (minor_on_score (PsSetTopicParams t params) g (λ _ _, Hok) (gc_minor _ _ _ (proj1 Hgn))) as (g'&Hs&Hm).
    exists g'. split; [|by eapply minor_inv]. unfold set_topic_params. unfold on_score in Hs.
    destruct (gs_peer_score g); [|done]. simpl in Hs. by injection Hs as <-.
Qed.

Lemma gossip_run_inv n last g inputs :
  (0 ≤ n)%Z → (n + Z.of_nat (sum_list_with (λ x, input_iwants x.2) inputs) ≤ u32_max)%Z →
  StronglySorted (λ a b, a.1 ≤ b.1)%Z inputs → Forall (λ x, last ≤ x.1 ≤ horizon)%Z inputs →
  Forall (λ x, input_ok x.2) inputs → gossip_inv n last g →
  ∃ g' last', gossip_run g inputs = Some g' ∧
    gossip_inv (n + Z.of_nat (sum_list_with (λ x, input_iwants x.2) inputs)) last' g'.
Proof.
  revert n last g. induction inputs as [|[now i] inputs IH]; intros n last g Hn Hle Hs Ht Hok Hg; simpl in *.
  { rewrite Z.add_0_r. eauto. }
  apply StronglySorted_inv in Hs as [Hs Hall]. inversion_clear Ht as [|? ? Hnow Ht']. inversion_clear Hok as [|? ? Hi Hok'].
  simpl in *. destruct (process_input_inv n last now g i Hnow Hn ltac:(lia) Hi Hg) as (g1&Hp&Hg1).
  unfold gossip_run in *. simpl. rewrite Hp. simpl.
  replace (n + _)%Z with (n + Z.of_nat (input_iwants i) + Z.of_nat (sum_list_with (λ x, input_iwants x.2) inputs))%Z by lia.
  apply (IH _ now); try done; try lia.
  rewrite Forall_forall in *. intros x Hx. specialize (Ht' x Hx). specialize (Hall x Hx). simpl in *. lia.
Qed.
End inv.
