(* ===== verification/GossipsubProps.v ===== *)
(** * Properties of the gossipsub router

    The theorems about reachable states of the router of [Gossipsub.v], proved
    from the invariant of [GossipsubInv.v]; the way of a message from its
    publication to the application of a remote subscriber; and some behaviours of
    the router on concrete inputs. *)

From Stdlib Require Import ZArith Lia SpecFloat.
From stdpp Require Import strings.
From S2P Require Import Prelude KadKey RecordStore KadProto Identity GossipCache Float64 PeerScore GossipRpc GossipConfig Gossipsub GossipsubInv.

Local Open Scope nat_scope.

Local Abbreviation Instant := Z.
Local Abbreviation Duration := Z.

Section props.
Context {PeerId IpAddr Regex : Type} `{!PeerIdType PeerId} `{!NodeIdentity PeerId} {codec : RpcCodec}.
Context `{!EqDecision IpAddr} `{!Countable IpAddr} {hord : HashOrder} `{!SetOrder PeerId} `{!RandCrate PeerId}.
Context `{!DataTransform PeerId} `{!RegexCrate Regex}.
Context {hlaws : HashOrderLaws} `{!RandLaws PeerId} `{!PeerIdLaws PeerId}.

Local Abbreviation Raw := (RawGossipsubMessage PeerId).
Local Abbreviation Message := (GossipsubMessage PeerId).
Local Abbreviation Action := (GossipsubControlAction PeerId).
Local Abbreviation Gossip := (Gossipsub PeerId IpAddr Regex).
Implicit Types (g : Gossip) (p : PeerId) (t : TopicHash).

(** ** Reachable states *)

Section reach.
Context (c : GossipsubConfig PeerId) (horizon : Instant) (max_backoff max_retain : Duration) (slots : nat).

(** A started router, with or without scoring. *)
Definition initial g : Prop :=
  ∃ privacy f g0 sc, gossipsub_new privacy c f = Some (Ok g0) ∧ score_ok max_retain sc ∧
    length (backoffs_by_heartbeat (gs_backoffs g0)) = slots ∧ g = start (set_peer_score sc g0).

(** The states the main loop reaches: [n] is the number of messages remote peers
    asked for, [last] the time of the last input. *)
Inductive gossip_reach : Z → Instant → Gossip → Prop :=
  | reach_initial last g : initial g → gossip_reach 0 last g
  | reach_input n last g now i g' :
      gossip_reach n last g → (last ≤ now ≤ horizon)%Z → (n + Z.of_nat (input_iwants i) ≤ u32_max)%Z →
      input_ok max_backoff i → process_input now g i = Some g' →
      gossip_reach (n + Z.of_nat (input_iwants i)) now g'.

Context (Hset : setting_ok c horizon max_backoff max_retain slots) (Hint : (0 < c_heartbeat_interval c)%Z) (Hslack : (0 ≤ c_backoff_slack c)%Z).

Local Abbreviation Inv := (gossip_inv c horizon max_backoff max_retain slots).

Lemma initial_inv last g : initial g → Inv 0 last g.
Proof.
  intros (privacy&f&g0&sc&Hnew&Hsc&Hsl&->). unfold gossipsub_new in Hnew.
  destruct (validate_config privacy (c_validation_mode c)); [|done].
  destruct (bs_new _ _ _) as [bs|] eqn:Hbs; [|done]. simpl in Hnew. injection Hnew as <-. simpl in Hsl.
  pose proof (bs_new_wf _ _ _ _ Hint Hslack Hbs) as Hwf.
  assert (Hb : heartbeat_interval bs = c_heartbeat_interval c ∧ backoff_slack bs = c_backoff_slack c ∧ backoffs bs = ∅).
  { unfold bs_new in Hbs. destruct (heartbeats _ _); [|done]. simpl in Hbs. destruct (_ <=? _)%Z; [|done].
    by injection Hbs as <-. }
  destruct Hb as (?&?&Hemp). split; [split|].
  - split; simpl; [done|done|done|]. split; try done. intros t p b. unfold get_backoff_time, get_backoff. by rewrite Hemp.
  - split; [apply mc_new_wf; [apply (so_history _ _ _ _ _ Hset)|apply (cb_history _ (so_built _ _ _ _ _ Hset))]|].
    intros mid cs p k. simpl. by rewrite lookup_empty.
  - split; simpl; try done; intros t; rewrite ?lookup_empty; try done; by intros [].
  - exists []. split_and!; [|done|constructor|done]. split.
    + split; simpl; try done; [by intros k e ?%elem_of_nil|constructor|apply (so_duplicate _ _ _ _ _ Hset)].
    + intros now' k _. split; [intros (e&?&_)|intros (x&?%elem_of_nil&_)]; done.
  - intros p. simpl. unfold pool_iwants. rewrite !lookup_empty. simpl. lia.
Qed.

Lemma reach_inv n last g : gossip_reach n last g → (0 ≤ n)%Z ∧ Inv n last g.
Proof.
  induction 1 as [last g Hi|n last g now i g' _ [Hn IH] Hnow Hle Hok Hp]; [split; [done|by apply initial_inv]|].
  split; [lia|]. destruct (process_input_inv c horizon max_backoff max_retain slots Hset n last now g i Hnow Hn Hle Hok IH)
    as (g1&Hp1&Hg1). by simplify_eq.
Qed.


(** [C13] Bounds on what a reachable state holds: no mesh has more peers than the
    upper bound of the configuration and the peers of one opportunistic graft, no
    fanout more than the target size of a mesh; and a peer has been asked, since
    the last heartbeat, for at most [max_ihave_length] messages, which bounds the
    ids of the IWANTs waiting for it. *)
Theorem gossip_bounds n last g (Hreach : gossip_reach n last g) :
  (∀ t peers, gs_mesh g !! t = Some peers → size peers ≤ c_mesh_n_high c + c_opportunistic_graft_peers c) ∧
  (∀ t peers, gs_fanout g !! t = Some peers → size peers ≤ c_mesh_n c) ∧
  (∀ p, sum_list_with iwant_ids (default [] (gs_control_pool g !! p)) ≤ default 0 (gs_count_sent_iwant g !! p) ≤ c_max_ihave_length c).
Proof. by destruct (reach_inv _ _ _ Hreach) as [_ [[_ _ [] _] Hi]]. Qed.

(** [C12] Exactly once: in every run, two notifications of the application about
    messages with the same id are at least [duplicate_cache_time] apart. *)
Theorem delivered_once n last g (Hreach : gossip_reach n last g) :
  StronglySorted (λ a b, a.2 = b.2 → a.1 + c_duplicate_cache_time c ≤ b.1)%Z (omap (notification c) (gs_outputs g)).
Proof.
  destruct (reach_inv _ _ _ Hreach) as [_ [[_ _ _ (acc&_&_&Hs&Hsub)] _]].
  assert (Hrev : ∀ l, spaced c l → StronglySorted (λ a b, a.2 = b.2 → a.1 + c_duplicate_cache_time c ≤ b.1)%Z (reverse l)).
  { clear. induction l as [|x l IH]; intros Hs; [constructor|]. rewrite reverse_cons. apply StronglySorted_inv in Hs as [Hs Hall].
    apply StronglySorted_app_2; [|by apply IH|by repeat constructor].
    intros a b Ha ->%list_elem_of_singleton Heq. rewrite Forall_forall in Hall. apply (Hall a); [|done].
    by apply elem_of_reverse. }
  specialize (Hrev _ Hs). clear Hs. revert Hrev Hsub. generalize (reverse acc) as l. generalize (omap (notification c) (gs_outputs g)) as k.
  intros k l Hl Hsub. induction Hsub as [|x k l Hsub IH|x k l Hsub IH]; [done| |].
  - apply StronglySorted_inv in Hl as [Hl Hall]. constructor; [by apply IH|]. rewrite Forall_forall in *.
    intros y Hy. apply Hall. by eapply elem_of_sublist.
  - apply StronglySorted_inv in Hl as [Hl _]. by apply IH.
Qed.

End reach.

(** ** The fanout *)

(** Without scoring the heartbeat only removes peers from a fanout: the peers it
    would add are asked to be below the threshold. *)
Lemma fanout_not_refilled g t peers rng :
  gs_peer_score g = None → (maintain_fanout_topic g t peers rng).1 ⊆ peers.
Proof.
  intros Hs. unfold maintain_fanout_topic. rewrite Hs. set (kept := filter _ peers).
  assert (Hk : kept ⊆ peers) by (subst kept; set_solver). destruct (size kept <? _); [|done].
  destruct (get_random_peers _ _ _ _ _ rng) as [new rng'] eqn:Hr. apply get_random_peers_spec in Hr as (_&Hc&_). simpl.
  intros p [Hp|Hp]%elem_of_union; [by apply Hk|]. destruct (Hc _ Hp) as (_&Hf&_). unfold hb_score in Hf. rewrite Hs in Hf.
  by rewrite andb_false_r in Hf.
Qed.

(** ** From a publication to a remote subscriber *)

Lemma fragment_one max (m : Raw) bufs :
  fragment_message max (messages_rpc [m]) = Ok bufs → bufs = [enc_rpc (messages_rpc [m])].
Proof.
  unfold fragment_message, fragment_rpcs. destruct (_ <? _)%Z; [by intros [= <-]|]. simpl. unfold add_item.
  destruct (_ <? _)%Z; [done|]. unfold create_or_add_rpc. rewrite (bool_decide_false (new_rpc ≠ new_rpc)) by auto.
  rewrite andb_false_r. by intros [= <-].
Qed.

Lemma send_all_grows g ps rpc :
  gs_outputs g ⊆ gs_outputs (send_all g ps rpc).2 ∧ gs_connected_peer (send_all g ps rpc).2 = gs_connected_peer g.
Proof.
  revert g. induction ps as [|q ps IH]; intros g; simpl; [done|].
  destruct (send_message g q rpc) as [g1|] eqn:H1; [|done]. unfold send_message in H1.
  destruct (fragment_message _ _) as [bufs|]; [|done]. simpl in H1. destruct (IH g1) as [Ho Hc].
  destruct (gs_connected_peer g !! q); simplify_eq/=; [|done]. split; [|done]. set_solver.
Qed.

Lemma send_all_sent g ps m g' p chan :
  send_all g ps (messages_rpc [m]) = (Ok (), g') → p ∈ ps → gs_connected_peer g !! p = Some chan →
  OSend p chan (enc_rpc (messages_rpc [m])) ∈ gs_outputs g'.
Proof.
  revert g. induction ps as [|q ps IH]; intros g Hs Hin Hp; [by apply elem_of_nil in Hin|]. simpl in Hs.
  destruct (send_message g q _) as [g1|] eqn:H1; [|done]. unfold send_message in H1.
  destruct (fragment_message _ _) as [bufs|] eqn:Hf; [|done]. apply fragment_one in Hf as ->. simpl in H1.
  assert (Hp1 : gs_connected_peer g1 !! p = Some chan) by (destruct (gs_connected_peer g !! q); by simplify_eq/=).
  apply elem_of_cons in Hin as [->|Hin]; [|by eapply IH].
  rewrite Hp in H1. injection H1 as <-.
  pose proof (send_all_grows (put_out [OSend q chan (enc_rpc (messages_rpc [m]))] g) ps (messages_rpc [m])) as [Hg _].
  rewrite Hs in Hg. apply Hg. simpl. apply elem_of_app. right. by left.
Qed.

(** The peers a published message is sent to: with flooding all peers of the topic
    that are explicit or above the threshold, otherwise the mesh. *)
Definition publish_reaches g t (author : option PeerId) p : Prop :=
  if c_flood_publish (gs_config g)
  then p ∈ default ∅ (gs_topic_peers g !! t) ∧ (p ∈ gs_explicit_peers g ∨ above_publish g p = true)
  else p ∈ default ∅ (gs_mesh g !! t) ∧ author ≠ Some p.

Lemma publish_recipients_quiet now g t :
  gs_outputs (publish_recipients now g t).2 = gs_outputs g ∧
  gs_connected_peer (publish_recipients now g t).2 = gs_connected_peer g.
Proof.
  unfold publish_recipients. destruct (gs_topic_peers g !! t); [|done]. destruct (c_flood_publish _); [done|].
  destruct (decide (gs_mesh g !! t = None)); [|done]. destruct (gs_fanout g !! t); [done|].
  by destruct (get_random_peers _ _ _ _ _ _).
Qed.

Lemma forward_msg_sent now g mid m g' p chan :
  p ∈ default ∅ (gs_mesh g !! topic m) → source m ≠ Some p → gs_connected_peer g !! p = Some chan →
  ∀ b, forward_msg now g mid m None = Some (Ok b, g') → OSend p chan (enc_rpc (messages_rpc [m])) ∈ gs_outputs g'.
Proof.
  intros Hin Hs Hp b. unfold forward_msg. simpl.
  assert (Hr : p ∈ forward_recipients g m None).
  { unfold forward_recipients. apply elem_of_union. left. apply elem_of_filter. done. }
  destruct (decide (forward_recipients g m None = ∅)) as [He|]; [set_solver|].
  destruct (send_all g _ _) as [[[]|e] g1] eqn:Ha; [|done]. intros [= _ <-]. eapply send_all_sent; [done| |done].
  by rewrite hash_iter_perm, elem_of_elements.
Qed.

Lemma publish_sends now g t d d' raw mid g' p chan :
  outbound_transform t d = Some d' →
  build_raw_message (random_u64 (gs_draws g)) (random_peer (gs_draws g)) (gs_publish_config g) t d' = Ok raw →
  publish now g t d = Some (Ok mid, g') → gs_connected_peer g !! p = Some chan → publish_reaches g t (source raw) p →
  OSend p chan (enc_rpc (messages_rpc [raw])) ∈ gs_outputs g'.
Proof.
  intros Ht Hraw Hpub Hp Hr. unfold publish in Hpub. rewrite Ht, Hraw in Hpub.
  assert (Htopic : topic raw = t).
  { destruct (gs_publish_config g); simpl in Hraw; [|by simplify_eq/=..]. by destruct (ni_sign _ _); simplify_eq/=. }
  destruct (message_id _ _) as [mid'|]; [|done]. cbn [mbind option_bind] in Hpub.
  destruct (_ <? _)%Z; [done|]. destruct (dc_contains _ mid'); [done|].
  set (g1 := draw g) in Hpub. change (gs_connected_peer g) with (gs_connected_peer g1) in Hp.
  assert (Hr1 : publish_reaches g1 t (source raw) p) by done. clearbody g1. clear Hr Hraw g.
  destruct (if c_flood_publish (gs_config g1) then _ else _) as [[fw g2]|] eqn:H2; [|done]. cbn [mbind option_bind] in Hpub.
  destruct fw as [sent|]; [|done].
  destruct (publish_recipients_quiet now g2 (topic raw)) as [Ho3 Hc3].
  destruct (publish_recipients now g2 (topic raw)) as [recipients g3] eqn:H3. simpl in Ho3, Hc3.
  destruct (_ && _); [done|]. destruct (mc_put _ mid' raw) as [[old mc]|]; [|done]. cbn [mbind option_bind] in Hpub.
  set (g4 := match gs_publish_config _ with RandomAuthor | Anonymous => _ | _ => _ end) in Hpub.
  assert (Hg4 : gs_outputs g4 = gs_outputs g3 ∧ gs_connected_peer g4 = gs_connected_peer g3)
    by (subst g4; destruct (gs_publish_config _); try done; by destruct (c_allow_self_origin _)).
  destruct Hg4 as [Ho4 Hc4]. clearbody g4.
  pose proof (send_all_grows g4 (hash_iter (elements recipients)) (messages_rpc [raw])) as [Hgrow _].
  destruct (send_all g4 _ _) as [[[]|e] g5] eqn:H5; [|done]. injection Hpub as _ <-.
  unfold publish_reaches in Hr1. destruct (c_flood_publish (gs_config g1)) eqn:Hflood.
  - injection H2 as _ <-. eapply send_all_sent; [exact H5| |by rewrite Hc4, Hc3].
    rewrite hash_iter_perm, elem_of_elements. unfold publish_recipients in H3. rewrite Htopic, Hflood in H3.
    destruct (gs_topic_peers g1 !! t) as [set|]; [|set_solver]. injection H3 as <- _.
    apply elem_of_filter. tauto.
  - apply Hgrow. simpl. rewrite Ho4, Ho3. eapply forward_msg_sent; [by rewrite Htopic; apply Hr1|apply Hr1|done|exact H2].
Qed.

(** A node that takes a message from [p]: it does not ignore the peer, it has not
    seen the message, which is not its own, and it subscribes to the topic. *)
Record receptive (now : Instant) g (m : Raw) (message : Message) p (chan : nat) : Prop := {
  rc_graylist : (score_below_threshold g p graylist_threshold).1 = false;
  rc_limit : c_max_messages_per_rpc (gs_config g) ≠ Some 0;
  rc_fast id : fast_message_id (gs_config g) m = Some id → tc_get (gs_fast_message_id_cache g) id = None;
  rc_peer : p ∉ gs_blacklisted_peers g;
  rc_source a : source m = Some a → a ∉ gs_blacklisted_peers g;
  rc_unseen mid : message_id (gs_config g) message = Some mid →
    self_published g mid m p = false ∧ (dc_insert now (gs_duplicate_cache g) mid).1 = true;
  rc_subscribed : gs_my_topics g !! gm_topic message = Some chan
}.

Section delivery.
Context `{!NodeIdentityLaws PeerId}.
(** [prost]'s decoder, which inverts the encoder; a transformation whose two directions fit. *)
Context (dec_rpc : bytes → option ProtoRpc) (Hdec : ∀ r, dec_rpc (enc_rpc r) = Some r).
Context (Htransform : ∀ t d d' m, outbound_transform t d = Some d' → data m = d' →
  inbound_transform m = Some (mk_GossipsubMessage (source m) d (sequence_number m) (topic m))).
Context (c : GossipsubConfig PeerId) (horizon : Instant) (max_backoff max_retain : Duration) (slots : nat).
Context (Hset : setting_ok c horizon max_backoff max_retain slots) (Hint : (0 < c_heartbeat_interval c)%Z) (Hslack : (0 ≤ c_backoff_slack c)%Z).

Lemma receive_one n last now g m message p chan :
  gossip_inv c horizon max_backoff max_retain slots n last g → (0 ≤ n ≤ u32_max)%Z → (last ≤ now ≤ horizon)%Z →
  inbound_transform m = Some message → receptive now g m message p chan →
  ∃ g', handle_event now g (EvMessage p (mk_GossipsubRpc [m] [] []) []) = Some g' ∧ ONotify now chan message ∈ gs_outputs g'.
Proof.
  intros Hg Hn Hnow Hm []. destruct (handle_received_message_inv c horizon max_backoff max_retain slots Hset n last now g m p)
    as (g'&Hr&_); [lia|done|].
  exists g'. split.
  - cbn [handle_event]. unfold handle_message_event. cbn [subscriptions mbind option_bind]. rewrite rc_graylist0.
    cbn [foldlM mbind option_bind messages]. destruct (c_max_messages_per_rpc _) as [[|k]|]; [done| |]; simpl; rewrite ?take_nil;
      by rewrite Hr.
  - eapply (handle_received_message_notices c horizon max_backoff max_retain slots Hset) in Hr; [|done].
    assert (Hd : delivers now g m p = Some (chan, message)).
    { unfold delivers. destruct (fast_message_id (gs_config g) m ≫= _) eqn:Hfast.
      { apply bind_Some in Hfast as (id&Hid&Hc). by rewrite (rc_fast0 id Hid) in Hc. }
      rewrite Hm. simpl. rewrite (inv_config _ _ _ _ _ _ _ _ Hg) in *.
      destruct (so_message_id _ _ _ _ _ Hset message) as [mid Hmid]. rewrite Hmid. simpl.
      destruct (rc_unseen0 mid Hmid) as [-> ->]. rewrite bool_decide_false by done. simpl. rewrite orb_false_r.
      replace (match source m with Some a => bool_decide (a ∈ gs_blacklisted_peers g) | None => false end) with false.
      - simpl. by rewrite rc_subscribed0.
      - destruct (source m) as [a|]; [|done]. symmetry. by apply bool_decide_eq_false, rc_source0. }
    rewrite Hd in Hr. simpl in Hr.
    assert (Hin : (now, chan, message) ∈ omap notice (gs_outputs g')) by (rewrite Hr; apply elem_of_app; right; by left).
    apply list_elem_of_omap in Hin as (o&Ho&Heq). by destruct o; simplify_eq/=.
Qed.

End delivery.
End props.

(** ** Concrete routers *)

#[local] Existing Instances toy_scheme toy_scheme_laws toy_proto toy_proto_laws toy_multihash toy_multihash_laws.
#[local] Existing Instances PeerId_PeerIdType PeerId_PeerIdLaws.

#[local] Instance demo_identity : NodeIdentity PeerId := PeerId_NodeIdentity toy_scheme toy_scheme toy_scheme.
#[local] Instance demo_identity_laws : NodeIdentityLaws PeerId := PeerId_NodeIdentityLaws toy_scheme toy_scheme toy_scheme.

Definition demo_keypair (b : Init.Byte.byte) : ni_keypair := KpEd25519 toy_scheme toy_scheme toy_scheme [b].
Definition demo_peer (b : Init.Byte.byte) : PeerId := ni_peer_id (ni_public (demo_keypair b)).

#[local] Instance demo_hash_order : HashOrder := λ A l, l.
#[local] Instance demo_hash_order_laws : HashOrderLaws.
Proof. intros A l. reflexivity. Qed.
#[local] Instance demo_set_order : SetOrder PeerId := λ _ _, true.
#[local] Instance demo_rand : RandCrate PeerId := {|
  shuffle _ _ l := l;
  partial_shuffle _ _ _ l := l;
  random_u64 n := (Z.of_nat n mod 2 ^ 64)%Z;
  random_peer _ := demo_peer Byte.xff;
  random_index n := n
|}.
#[local] Instance demo_rand_laws : RandLaws PeerId.
Proof. split; [done..|]. intros n. apply Z.mod_pos_bound. lia. Qed.
#[local] Instance demo_transform : DataTransform PeerId := IdentityTransform PeerId.
#[local] Instance demo_regex : RegexCrate nat := λ _ _, true.

(** A codec: the bits of a number for the RPC. *)

#[local] Instance demo_message_countable : Countable ProtoPubMessage.
Proof.
  refine (inj_countable' (λ m, (((pm_data m, pm_topic m), (pm_seqno m, pm_key m)), (pm_from m, pm_signature m)))
    (λ '(((b, d), (c, f)), (a, e)), mk_ProtoPubMessage a b c d e f) _). by intros [].
Defined.
#[local] Instance demo_sub_countable : Countable ProtoSubOpts.
Proof. refine (inj_countable' (λ m, (so_subscribe m, so_topic_id m)) (λ '(a, b), mk_ProtoSubOpts a b) _). by intros []. Defined.
#[local] Instance demo_ihave_countable : Countable ProtoIHave.
Proof. refine (inj_countable' (λ m, (ih_topic_id m, ih_message_ids m)) (λ '(a, b), mk_ProtoIHave a b) _). by intros []. Defined.
#[local] Instance demo_iwant_countable : Countable ProtoIWant.
Proof. refine (inj_countable' iw_message_ids mk_ProtoIWant _). by intros []. Defined.
#[local] Instance demo_graft_countable : Countable ProtoGraft.
Proof. refine (inj_countable' gr_topic_id mk_ProtoGraft _). by intros []. Defined.
#[local] Instance demo_peer_info_countable : Countable ProtoPeerInfo.
Proof. refine (inj_countable' (λ m, (pi_peer_id m, pi_signed_peer_record m)) (λ '(a, b), mk_ProtoPeerInfo a b) _). by intros []. Defined.
#[local] Instance demo_prune_countable : Countable ProtoPrune.
Proof. refine (inj_countable' (λ m, (pr_topic_id m, pr_peers m, pr_backoff m)) (λ '(a, b, c), mk_ProtoPrune a b c) _). by intros []. Defined.
#[local] Instance demo_control_countable : Countable ProtoControl.
Proof.
  refine (inj_countable' (λ m, (pc_ihave m, pc_iwant m, pc_graft m, pc_prune m)) (λ '(a, b, c, d), mk_ProtoControl a b c d) _).
  by intros [].
Defined.
#[local] Instance demo_rpc_countable : Countable ProtoRpc.
Proof.
  refine (inj_countable' (λ m, (pr_publish m, (pr_subscriptions m, pr_control m))) (λ '(b, (a, c)), mk_ProtoRpc a b c) _).
  by intros [].
Defined.

#[local] Instance demo_codec : RpcCodec := {|
  enc_message m := bits_of (encode m);
  enc_sub m := bits_of (encode m);
  enc_ihave m := bits_of (encode m);
  enc_iwant m := bits_of (encode m);
  enc_graft m := bits_of (encode m);
  enc_prune m := bits_of (encode m);
  enc_control m := bits_of (encode m);
  enc_rpc m := bits_of (encode m)
|}.

Definition demo_dec (b : bytes) : option ProtoRpc := decode (of_bits b).

Lemma demo_dec_enc r : demo_dec (enc_rpc r) = Some r.
Proof. unfold demo_dec. simpl. rewrite of_bits_of. apply decode_encode. Qed.

(** The default configuration, with a message's data as its id. *)
Definition demo_config : GossipsubConfig PeerId :=
  builder_call (builder_new (λ _, "peer"%string) (demo_peer Byte.x00)) (Set_message_id_fn (λ m, Some (gm_data m))).

Abbreviation DemoGossip := (Gossipsub PeerId nat nat).

Definition demo_new (b : Init.Byte.byte) : option DemoGossip :=
  match gossipsub_new (AuthSigned (demo_keypair b)) demo_config AllowAllSubscriptionFilter with
  | Some (Ok g) => Some (start (set_peer_score None g))
  | _ => None
  end.

(** The state after some inputs. *)
Definition demo_run (b : Init.Byte.byte) (inputs : list (Instant * GossipInput)) : option DemoGossip :=
  g ← demo_new b; gossip_run g inputs.

Definition subscribes (b : Init.Byte.byte) (t : TopicHash) : HandlerEvent :=
  EvMessage (demo_peer b) (mk_GossipsubRpc [] [mk_Subscription Subscribe t] []) [].

Definition meets (b : Init.Byte.byte) : list (Instant * GossipInput) :=
  [(1%Z, InEvent (EvPeer (EvPeerKind (demo_peer b) Gossipsubv1_1))); (2%Z, InEvent (EvPeer (EvNewPeer (demo_peer b))))].

Definition demo_publisher : option DemoGossip := demo_run Byte.x07 (meets Byte.x08 ++ [(3%Z, InEvent (subscribes Byte.x08 "news"))]).
Definition demo_subscriber : option DemoGossip := demo_run Byte.x08 (meets Byte.x07 ++ [(3%Z, InCommand (CmdSubscribe "news"))]).

Local Abbreviation demo_horizon := (1000 * NANOS)%Z.
Local Abbreviation demo_reach := (gossip_reach demo_config demo_horizon (60 * NANOS)%Z 0%Z 62).

Lemma demo_setting : setting_ok demo_config demo_horizon (60 * NANOS)%Z 0%Z 62.
Proof. split; try done; try (vm_compute; lia). split; simpl; lia. Qed.

Lemma demo_interval : (0 < c_heartbeat_interval demo_config)%Z.
Proof. vm_compute. reflexivity. Qed.
Lemma demo_slack : (0 ≤ c_backoff_slack demo_config)%Z.
Proof. vm_compute. by intros. Qed.

Lemma demo_initial b g : demo_new b = Some g → demo_reach 0 0 g.
Proof.
  intros Hg. apply reach_initial. unfold demo_new in Hg.
  destruct (gossipsub_new (AuthSigned (demo_keypair b)) demo_config AllowAllSubscriptionFilter) as [[g0|]|] eqn:Hnew; [|done..].
  injection Hg as <-. exists (AuthSigned (demo_keypair b)), AllowAllSubscriptionFilter, g0, None. split_and!; [done..| |done].
  unfold gossipsub_new in Hnew. destruct (validate_config _ _); [|done].
  assert (Hbs : (λ bs, length (backoffs_by_heartbeat bs)) <$> bs_new (PeerId := PeerId) (60 * NANOS) (1 * NANOS) 1 = Some 62) by done.
  change (bs_new _ _ _) with (bs_new (PeerId := PeerId) (60 * NANOS) (1 * NANOS) 1) in Hnew.
  destruct (bs_new _ _ _) as [bs|]; [|done]. simpl in Hnew. injection Hnew as <-. by injection Hbs.
Qed.

Lemma demo_reach_run l last (g g' : DemoGossip) :
  demo_reach 0 last g → Sorted Z.le (last :: l.*1 ++ [demo_horizon]) →
  Forall (λ x, input_ok (60 * NANOS)%Z x.2 ∧ input_iwants x.2 = 0) l → gossip_run g l = Some g' →
  demo_reach 0 (foldl (λ _ x, x.1) last l) g'.
Proof.
  revert last g. induction l as [|[now i] l IH]; intros last g Hr Hs Hok Hrun; [by injection Hrun as <-|].
  apply Sorted_inv in Hs as [Hs Hle%HdRel_inv]. inversion_clear Hok as [|? ? [Hi Hw] Hok'].
  unfold gossip_run in Hrun. cbn [foldlM] in Hrun. destruct (process_input _ g _) as [g1|] eqn:Hp; [|done].
  simpl in *. assert (Hnow : (now ≤ demo_horizon)%Z).
  { apply Sorted_StronglySorted, StronglySorted_inv in Hs as [_ Hall]; [|intros ? ? ?; lia].
    rewrite Forall_forall in Hall. apply Hall, elem_of_app. right. by left. }
  apply (IH now g1); [|done..].
  pose proof (reach_input demo_config demo_horizon (60 * NANOS)%Z 0%Z 62 0 last g now i g1 Hr (conj Hle Hnow)) as Hstep.
  rewrite Hw in Hstep. by apply Hstep.
Qed.

(** The states of [demo_run] are reachable. *)
Lemma demo_run_reached b l g :
  demo_run b l = Some g → Sorted Z.le (0%Z :: l.*1 ++ [demo_horizon]) →
  Forall (λ x, input_ok (60 * NANOS)%Z x.2 ∧ input_iwants x.2 = 0) l → demo_reach 0 (foldl (λ _ x, x.1) 0%Z l) g.
Proof.
  unfold demo_run. destruct (demo_new b) as [g0|] eqn:H0; [|done]. intros Hrun Hs Hl.
  by apply (demo_reach_run l 0 g0 g (demo_initial _ _ H0)).
Qed.

(** A message of the publisher, as the subscriber receives it. *)
Definition demo_raw : RawGossipsubMessage PeerId :=
  mk_Raw PeerId (Some (demo_peer Byte.x07)) [Byte.x2a] (Some 0%Z) "news" None None false.
Definition delivers_raw : HandlerEvent := EvMessage (demo_peer Byte.x07) (mk_GossipsubRpc [demo_raw] [] []) [].

(** It is received three times, the last time after the cache has forgotten it. *)
Definition demo_received : option DemoGossip :=
  demo_run Byte.x08 (meets Byte.x07 ++ [(3%Z, InCommand (CmdSubscribe "news")); (4%Z, InEvent delivers_raw);
    (5%Z, InEvent delivers_raw); ((60 * NANOS + 4)%Z, InEvent delivers_raw)]).

Lemma demo_subscriber_some : ∃ g, demo_subscriber = Some g ∧ demo_reach 0 3 g.
Proof.
  assert (Hsome : bool_decide (is_Some demo_subscriber) = true) by (vm_compute; reflexivity).
  apply bool_decide_eq_true in Hsome as [g Hg]. exists g. split; [done|].
  by apply (demo_run_reached _ _ _ Hg); repeat constructor.
Qed.

Lemma demo_received_some :
  ∃ g, demo_received = Some g ∧ demo_reach 0 (60 * NANOS + 4) g ∧
    omap (notification demo_config) (gs_outputs g) = [(4%Z, [Byte.x2a]); ((60 * NANOS + 4)%Z, [Byte.x2a])].
Proof.
  assert (Hsome : (λ g, omap (notification demo_config) (gs_outputs g)) <$> demo_received =
    Some [(4%Z, [Byte.x2a]); ((60 * NANOS + 4)%Z, [Byte.x2a])]) by (vm_compute; reflexivity).
  apply fmap_Some in Hsome as (g&Hg&Hn). exists g. split_and!; [done| |done].
  by apply (demo_run_reached _ _ _ Hg); repeat constructor.
Qed.


Lemma gossip_bounds_witness :
  ∃ g, demo_subscriber = Some g ∧ ∀ t peers, gs_mesh g !! t = Some peers → size peers ≤ 14.
Proof.
  destruct demo_subscriber_some as (g&Hg&Hr). exists g. split; [done|].
  apply (gossip_bounds demo_config demo_horizon (60 * NANOS) 0 62 demo_setting demo_interval demo_slack 0 3 g Hr).
Defined.

Lemma delivered_once_witness :
  ∃ g, demo_received = Some g ∧
    omap (notification demo_config) (gs_outputs g) = [(4%Z, [Byte.x2a]); ((60 * NANOS + 4)%Z, [Byte.x2a])] ∧
    StronglySorted (λ a b, a.2 = b.2 → a.1 + 60 * NANOS ≤ b.1)%Z (omap (notification demo_config) (gs_outputs g)).
Proof.
  destruct demo_received_some as (g&Hg&Hr&Hn). exists g. split_and!; [done|done|].
  apply (delivered_once demo_config demo_horizon (60 * NANOS) 0 62 demo_setting demo_interval demo_slack 0 _ g Hr).
Defined.


Definition publishes_as (b : Init.Byte.byte) (pc : PublishConfig) : bool :=
  match pc with
  | Signing k author None =>
      match k : Keypair toy_scheme toy_scheme toy_scheme with
      | KpEd25519 _ _ _ s => bool_decide (s = [b]) && bool_decide (author = demo_peer b)
      | _ => false
      end
  | _ => false
  end.

Lemma publishes_as_true b pc : publishes_as b pc = true → pc = PublishConfig_from (AuthSigned (demo_keypair b)).
Proof.
  unfold publishes_as. destruct pc as [k author [inline|]| | |]; try done. destruct k; try done.
  intros [->%bool_decide_eq_true ->%bool_decide_eq_true]%andb_prop. unfold PublishConfig_from.
  by rewrite decide_True by (destruct b; vm_compute; lia).
Qed.

Lemma identity_transform_inverse t d d' (m : RawGossipsubMessage PeerId) :
  outbound_transform t d = Some d' → data m = d' →
  inbound_transform m = Some (mk_GossipsubMessage (source m) d (sequence_number m) (topic m)).
Proof. by intros [= ->] <-. Qed.

(** The subscriber has not seen the message. *)
Lemma demo_receptive (g : DemoGossip) raw :
  demo_subscriber = Some g → source raw = Some (demo_peer Byte.x07) →
  receptive 5 g raw (mk_GossipsubMessage (Some (demo_peer Byte.x07)) [Byte.x2a] (Some 0%Z) "news") (demo_peer Byte.x07) 1.
Proof.
  intros Hg Hsrc.
  assert (Hf : (λ g : DemoGossip, (bool_decide (is_Some (gs_peer_score g)), bool_decide (is_Some (c_max_messages_per_rpc (gs_config g))),
       bool_decide (is_Some (c_fast_message_id_fn (gs_config g))), bool_decide (gs_blacklisted_peers g = ∅),
       (message_id (gs_config g) (mk_GossipsubMessage (Some (demo_peer Byte.x07)) [Byte.x2a] (Some 0%Z) "news")),
       bool_decide (get_own_id (gs_publish_config g) = Some (demo_peer Byte.x08)), (dc_insert 5 (gs_duplicate_cache g) [Byte.x2a]).1,
       (gs_my_topics g !! "news"%string))) <$> demo_subscriber =
    Some (false, false, false, true, Some [Byte.x2a], true, true, Some 1)) by (vm_compute; reflexivity).
  rewrite Hg in Hf. injection Hf as Hps Hmax Hfast Hbl Hmid Hown Hdup Htop.
  apply bool_decide_eq_false in Hps, Hmax, Hfast. apply bool_decide_eq_true in Hbl, Hown. split.
  - unfold score_below_threshold. destruct (gs_peer_score g); [|done]. by destruct Hps.
  - intros Heq. apply Hmax. by rewrite Heq.
  - intros id. unfold fast_message_id. destruct (c_fast_message_id_fn _); [|done]. by destruct Hfast.
  - rewrite Hbl. apply not_elem_of_empty.
  - intros a _. rewrite Hbl. apply not_elem_of_empty.
  - intros mid. rewrite Hmid. intros [= <-]. split; [|done]. unfold self_published. rewrite Hown, Hsrc.
    assert (demo_peer Byte.x07 ≠ demo_peer Byte.x08) as Hne by (apply (bool_decide_unpack _); vm_compute; exact I).
    rewrite (bool_decide_false (Some _ = Some _)) by congruence. by rewrite !andb_false_r.
  - done.
Qed.


(** *** Behaviours on concrete inputs *)

Definition sends_to (p : PeerId) (buf : bytes) (g : DemoGossip) : nat :=
  length (filter (λ o, match o with OSend q _ b => bool_decide (q = p) && bool_decide (b = buf) | _ => false end = true) (gs_outputs g)).

(** A message is sent back to the mesh peer it came from, and twice to the others:
    once in the loop of [handle_received_message] and once by [forward_msg]. *)
Example received_message_echoed :
  (λ g, (sends_to (demo_peer Byte.x07) (enc_rpc (messages_rpc [set_validated demo_raw])) g,
         sends_to (demo_peer Byte.x09) (enc_rpc (messages_rpc [set_validated demo_raw])) g)) <$>
    demo_run Byte.x08 (meets Byte.x07 ++ meets Byte.x09 ++
      [(3%Z, InEvent (subscribes Byte.x07 "news")); (3%Z, InEvent (subscribes Byte.x09 "news")); (4%Z, InCommand (CmdSubscribe "news"));
       (5%Z, InEvent delivers_raw)]) = Some (1, 2).
Proof. vm_compute. reflexivity. Qed.

(** A subscription made after an earlier one was cancelled is answered with a new
    channel, while the messages still go to the old one. *)
Example resubscription_deaf :
  (g ← demo_run Byte.x08 [(1%Z, InCommand (CmdSubscribe "news")); (2%Z, InCancel "news")];
   '(r, g) ← handle_command 3 g (CmdSubscribe "news");
   Some (match r with RSubscribed (Ok chan) => Some chan | _ => None end, gs_my_topics g !! "news"%string)) = Some (Some 1, Some 0).
Proof. vm_compute. reflexivity. Qed.

(** A peer that grafts without having subscribed stays in the mesh after it is gone. *)
Example dead_peer_in_mesh :
  (λ g, (bool_decide (demo_peer Byte.x07 ∈ default ∅ (gs_mesh g !! "news"%string)), bool_decide (is_Some (gs_connected_peer g !! demo_peer Byte.x07)))) <$>
    demo_run Byte.x08 (meets Byte.x07 ++ [(3%Z, InCommand (CmdSubscribe "news"));
      (4%Z, InEvent (EvMessage (demo_peer Byte.x07) (mk_GossipsubRpc [] [] [Graft "news"]) []));
      (5%Z, InEvent (EvPeer (EvDeadPeer (demo_peer Byte.x07))))]) = Some (true, false).
Proof. vm_compute. reflexivity. Qed.

(** An explicit peer that disconnects is no longer an explicit peer, so that the
    heartbeat does not dial it again. *)
Example explicit_peer_forgotten :
  (λ g, bool_decide (demo_peer Byte.x07 ∈ gs_explicit_peers g)) <$>
    demo_run Byte.x08 (meets Byte.x07 ++ [(3%Z, InAddExplicit (demo_peer Byte.x07));
      (4%Z, InEvent (EvPeer (EvDeadPeer (demo_peer Byte.x07))))]) = Some false.
Proof. vm_compute. reflexivity. Qed.

(** The cancellation of an old subscription ends a newer one. *)
Example stale_cancellation :
  (λ g, bool_decide (is_Some (gs_mesh g !! "news"%string))) <$>
    demo_run Byte.x08 [(1%Z, InCommand (CmdSubscribe "news")); (2%Z, InCommand (CmdUnsubscribed "news"));
      (3%Z, InCommand (CmdSubscribe "news")); (4%Z, InCancel "news")] = Some false.
Proof. vm_compute. reflexivity. Qed.
