(* ===== verification/Floodsub.v ===== *)
(** * Floodsub

    [protocols/floodsub/src]: the messages and their protobuf form
    ([protocol.rs]), the handler that reads RPCs from a stream, the state of
    [FloodSub] with the handlers of its main loop ([floodsub.rs]), the task that
    writes RPCs, and a network of nodes.

    A channel is a number.  What a handler sends, and the tasks it spawns, are
    appended to [fs_outputs].  Subscription ids, which the code draws at random, are
    arguments.  The byte encoding of the protobuf messages is prost's. *)

From Stdlib Require Import ZArith Lia.
From stdpp Require Import strings.
From S2P Require Import Prelude KadKey KadProto Varint Framing.

Local Open Scope nat_scope.

(** ** Messages: [protocol.rs] and [rpc.proto] *)

Abbreviation Topic := string.

Record FsProtoMessage := mk_FsProtoMessage {
  fp_from : option bytes;
  fp_data : option bytes;
  fp_seqno : option bytes;
  fp_topic_ids : list string
}.
Record FsProtoSubOpts := mk_FsProtoSubOpts { fp_subscribe : option bool; fp_topic_id : option string }.
Record FsProtoRpc := mk_FsProtoRpc { fp_subscriptions : list FsProtoSubOpts; fp_publish : list FsProtoMessage }.

(** prost's codec of the RPCs. *)
Class FsCodec := {
  fs_encode : FsProtoRpc → bytes;
  fs_decode : bytes → option FsProtoRpc
}.
Class FsCodecLaws `{FsCodec} : Prop := fs_decode_encode : ∀ r, fs_decode (fs_encode r) = Some r.

Inductive FloodsubSubscriptionAction := FsSubscribe | FsUnsubscribe.
#[global] Instance FloodsubSubscriptionAction_eq_dec : EqDecision FloodsubSubscriptionAction.
Proof. solve_decision. Defined.

Record FloodsubSubscription := mk_FloodsubSubscription { fsub_action : FloodsubSubscriptionAction; fsub_topic : Topic }.

Section floodsub.
Context {PeerId : Type} `{!PeerIdType PeerId} {codec : FsCodec} {hord : HashOrder}.

Record FloodsubMessage := mk_FloodsubMessage {
  fm_source : PeerId;
  fm_data : bytes;
  fm_sequence_number : bytes;
  fm_topics : list Topic
}.

Record FloodsubRpc := mk_FloodsubRpc {
  fr_messages : list FloodsubMessage;
  fr_subscriptions : list FloodsubSubscription
}.

Definition into_bytes (r : FloodsubRpc) : bytes :=
  fs_encode (mk_FsProtoRpc
    ((λ s, mk_FsProtoSubOpts (Some (bool_decide (fsub_action s = FsSubscribe))) (Some (fsub_topic s))) <$> fr_subscriptions r)
    ((λ m, mk_FsProtoMessage (Some (to_bytes (fm_source m))) (Some (fm_data m)) (Some (fm_sequence_number m)) (fm_topics m))
       <$> fr_messages r)).

Inductive FloodsubDecodeError := FsProtobufError | FsInvalidPeerId.

Definition message_of_proto (m : FsProtoMessage) : result FloodsubDecodeError FloodsubMessage :=
  let? source := ok_or FsInvalidPeerId (pid_from_bytes (default [] (fp_from m))) in
  Ok (mk_FloodsubMessage source (default [] (fp_data m)) (default [] (fp_seqno m)) (fp_topic_ids m)).

Fixpoint messages_of_proto (l : list FsProtoMessage) : result FloodsubDecodeError (list FloodsubMessage) :=
  match l with
  | [] => Ok []
  | m :: l => let? m := message_of_proto m in let? l := messages_of_proto l in Ok (m :: l)
  end.

Definition subscription_of_proto (s : FsProtoSubOpts) : FloodsubSubscription :=
  mk_FloodsubSubscription (if decide (Some true = fp_subscribe s) then FsSubscribe else FsUnsubscribe)
    (default EmptyString (fp_topic_id s)).

(** What the handler makes of a packet. *)
Definition decode_packet (packet : bytes) : result FloodsubDecodeError FloodsubRpc :=
  let? rpc := ok_or FsProtobufError (fs_decode packet) in
  let? ms := messages_of_proto (fp_publish rpc) in
  Ok (mk_FloodsubRpc ms (subscription_of_proto <$> fp_subscriptions rpc)).

(** ** The streams *)

Section streams.
Context `{!Varint} (chunks : nat → nat) (accepts : nat → nat).

Inductive HandlerEnd := FsReadError (e : IoErrorKind) (closed : bool) | FsDecodeError (e : FloodsubDecodeError) | FsWaits | FsHandlerPanics.

(** The loop of [handle] over the bytes of a stream: the RPCs it passes on and how
    it ends; every packet takes at least one byte. *)
Fixpoint handle_loop (fuel : nat) (eof : bool) (inp : bytes) : list FloodsubRpc * HandlerEnd :=
  match fuel with
  | O => ([], FsWaits)
  | S fuel =>
      match read_one chunks 2048 eof inp with
      | Done packet rest =>
          match decode_packet packet with
          | Ok rpc => let '(l, e) := handle_loop fuel eof rest in (rpc :: l, e)
          | Err e => ([], FsDecodeError e)
          end
      | Failed e => ([], FsReadError e match e with UnexpectedEof => true | _ => false end)
      | Pending => ([], FsWaits)
      | Panicked => ([], FsHandlerPanics)
      end
  end.
Definition stream_handle (eof : bool) (inp : bytes) := handle_loop (S (length inp)) eof inp.

(** The loop of [handle_send_message] over the buffers of its channel. *)
Fixpoint handle_send_message (bufs : list bytes) : Written :=
  match bufs with
  | [] => ([], Ok ())
  | b :: bufs => wr_seq (write_one accepts b) (handle_send_message bufs)
  end.
End streams.

(** ** The state: [floodsub.rs] *)

Record FloodsubConfig := mk_FloodsubConfig {
  fc_local_peer_id : PeerId;
  fc_subscribe_local_messages : bool
}.

Definition floodsub_config_new (p : PeerId) : FloodsubConfig := mk_FloodsubConfig p false.

Abbreviation SubId := Z.

Inductive FsOutput :=
  | FsSend (p : PeerId) (chan : nat) (buf : bytes)
  | FsNotify (chan : nat) (m : FloodsubMessage)
  | FsStreamTask (p : PeerId) (chan : nat)
  | FsCloseChannel (chan : nat).

Record FloodSub := mk_FloodSub {
  fs_config : FloodsubConfig;
  fs_swarm : bool;
  fs_connected_peers : gmap PeerId nat;
  fs_topics : gmap Topic (gset PeerId);
  fs_my_topics : gmap Topic (gmap SubId nat);
  fs_next_chan : nat;
  fs_outputs : list FsOutput
}.

Definition floodsub_new (c : FloodsubConfig) : FloodSub := mk_FloodSub c false ∅ ∅ ∅ 0 [].
Definition floodsub_start (f : FloodSub) : FloodSub :=
  mk_FloodSub (fs_config f) true (fs_connected_peers f) (fs_topics f) (fs_my_topics f) (fs_next_chan f) (fs_outputs f).

Definition fs_put (os : list FsOutput) (f : FloodSub) : FloodSub :=
  mk_FloodSub (fs_config f) (fs_swarm f) (fs_connected_peers f) (fs_topics f) (fs_my_topics f) (fs_next_chan f)
    (fs_outputs f ++ os).
Definition fs_set_connected v (f : FloodSub) : FloodSub :=
  mk_FloodSub (fs_config f) (fs_swarm f) v (fs_topics f) (fs_my_topics f) (fs_next_chan f) (fs_outputs f).
Definition fs_set_topics v (f : FloodSub) : FloodSub :=
  mk_FloodSub (fs_config f) (fs_swarm f) (fs_connected_peers f) v (fs_my_topics f) (fs_next_chan f) (fs_outputs f).
Definition fs_set_my_topics v (f : FloodSub) : FloodSub :=
  mk_FloodSub (fs_config f) (fs_swarm f) (fs_connected_peers f) (fs_topics f) v (fs_next_chan f) (fs_outputs f).
Definition fs_take_chan (f : FloodSub) : FloodSub :=
  mk_FloodSub (fs_config f) (fs_swarm f) (fs_connected_peers f) (fs_topics f) (fs_my_topics f) (S (fs_next_chan f)) (fs_outputs f).

(** The keys of a hash map in the order of its iteration. *)
Definition map_keys {K V} `{Countable K} (m : gmap K V) : list K := hash_iter (map_to_list m).*1.

Definition get_hello_packet (f : FloodSub) : bytes :=
  into_bytes (mk_FloodsubRpc [] (mk_FloodsubSubscription FsSubscribe <$> map_keys (fs_my_topics f))).

(** The new sender replaces an old one, whose receiver then ends. *)
Definition fs_handle_new_peer (f : FloodSub) (rpid : PeerId) : option FloodSub :=
  if fs_swarm f then
    let chan := fs_next_chan f in
    let closed := match fs_connected_peers f !! rpid with Some old => [FsCloseChannel old] | None => [] end in
    Some (fs_put ([FsSend rpid chan (get_hello_packet f)] ++ closed ++ [FsStreamTask rpid chan])
            (fs_set_connected (<[rpid := chan]> (fs_connected_peers f)) (fs_take_chan f)))
  else None.

Definition fs_handle_remove_dead_peer (f : FloodSub) (rpid : PeerId) : FloodSub :=
  let closed := match fs_connected_peers f !! rpid with Some old => [FsCloseChannel old] | None => [] end in
  fs_put closed (fs_set_topics ((λ ps, ps ∖ {[rpid]}) <$> fs_topics f) (fs_set_connected (delete rpid (fs_connected_peers f)) f)).

Inductive FsPeerEvent := FsNewPeer (p : PeerId) | FsDeadPeer (p : PeerId).

Definition fs_handle_peer_event (f : FloodSub) (e : FsPeerEvent) : option FloodSub :=
  match e with
  | FsNewPeer p => fs_handle_new_peer f p
  | FsDeadPeer p => Some (fs_handle_remove_dead_peer f p)
  end.

Definition subscribed_to_msg (f : FloodSub) (topics : list Topic) : bool :=
  existsb (λ t, bool_decide (is_Some (fs_my_topics f !! t))) topics.

(** What the local subscriptions of the topics of a message are sent. *)
Definition fs_notices (f : FloodSub) (from : PeerId) (m : FloodsubMessage) : list FsOutput :=
  if negb (fc_subscribe_local_messages (fs_config f)) && bool_decide (fc_local_peer_id (fs_config f) = from) then []
  else mjoin ((λ t, match fs_my_topics f !! t with
                    | Some subs => (λ x, FsNotify x.2 m) <$> hash_iter (map_to_list subs)
                    | None => []
                    end) <$> fm_topics m).
Definition fs_notify_subs (f : FloodSub) (from : PeerId) (m : FloodsubMessage) : FloodSub := fs_put (fs_notices f from m) f.

(** The peers subscribed to the topics of a message, and what they are sent. *)
Definition fs_recipients (f : FloodSub) (m : FloodsubMessage) : list PeerId :=
  mjoin ((λ t, match fs_topics f !! t with Some subs => hash_iter (elements subs) | None => [] end) <$> fm_topics m).

Definition fs_sends (f : FloodSub) (from : PeerId) (m : FloodsubMessage) : list FsOutput :=
  let rpc := into_bytes (mk_FloodsubRpc [m] []) in
  omap (λ p, if bool_decide (p = from) || bool_decide (p = fm_source m) then None
             else chan ← fs_connected_peers f !! p; Some (FsSend p chan rpc)) (fs_recipients f m).
Definition fs_publish (f : FloodSub) (from : PeerId) (m : FloodsubMessage) : FloodSub := fs_put (fs_sends f from m) f.

Definition publish_message (f : FloodSub) (from : PeerId) (m : FloodsubMessage) : FloodSub :=
  fs_publish (fs_notify_subs f from m) from m.

Definition incoming_subscription (from : PeerId) (f : FloodSub) (s : FloodsubSubscription) : FloodSub :=
  match fsub_action s with
  | FsSubscribe =>
      fs_set_topics (<[fsub_topic s := {[from]} ∪ default ∅ (fs_topics f !! fsub_topic s)]> (fs_topics f)) f
  | FsUnsubscribe => fs_set_topics (alter (λ ps, ps ∖ {[from]}) (fsub_topic s) (fs_topics f)) f
  end.

Definition incoming_message (from : PeerId) (f : FloodSub) (m : FloodsubMessage) : FloodSub :=
  if subscribed_to_msg f (fm_topics m) then publish_message f from m else f.

Definition handle_incoming_rpc (f : FloodSub) (from : PeerId) (rpc : FloodsubRpc) : FloodSub :=
  foldl (incoming_message from) (foldl (incoming_subscription from) f (fr_subscriptions rpc)) (fr_messages rpc).

Definition announce (f : FloodSub) (t : Topic) (a : FloodsubSubscriptionAction) : FloodSub :=
  let rpc := into_bytes (mk_FloodsubRpc [] [mk_FloodsubSubscription a t]) in
  fs_put ((λ x, FsSend x.1 x.2 rpc) <$> hash_iter (map_to_list (fs_connected_peers f))) f.

(** The answer is the id and the channel of the new subscription. *)
Definition fs_subscribe (f : FloodSub) (t : Topic) (sub_id : SubId) : nat * FloodSub :=
  let subs := default ∅ (fs_my_topics f !! t) in
  let f := fs_set_my_topics (delete t (fs_my_topics f)) f in
  let f := if decide (subs = ∅) then announce f t FsSubscribe else f in
  let chan := fs_next_chan f in
  let closed := match subs !! sub_id with Some old => [FsCloseChannel old] | None => [] end in
  (chan, fs_put closed (fs_set_my_topics (<[t := <[sub_id := chan]> subs]> (fs_my_topics f)) (fs_take_chan f))).

Definition un_subscribe (f : FloodSub) (t : Topic) (id : SubId) : FloodSub :=
  match fs_my_topics f !! t with
  | Some subs =>
      let f := fs_set_my_topics (delete t (fs_my_topics f)) f in
      let f := match subs !! id with
               | Some chan => announce (fs_put [FsCloseChannel chan] f) t FsUnsubscribe
               | None => f
               end in
      let subs := delete id subs in
      if decide (subs = ∅) then f else fs_set_my_topics (<[t := subs]> (fs_my_topics f)) f
  | None => f
  end.

Inductive FsCommand :=
  | FsPublish (m : FloodsubMessage)
  | FsCmdSubscribe (t : Topic) (sub_id : SubId)
  | FsLs
  | FsGetPeers (t : Topic).

Inductive FsReply := FsReplyUnit | FsReplySubscription (id : SubId) (chan : nat) | FsReplyTopics (l : list Topic) | FsReplyPeers (l : list PeerId).

Definition on_control_command (f : FloodSub) (cmd : FsCommand) : FsReply * FloodSub :=
  match cmd with
  | FsPublish m => (FsReplyUnit, publish_message f (fc_local_peer_id (fs_config f)) m)
  | FsCmdSubscribe t id => let '(chan, f) := fs_subscribe f t id in (FsReplySubscription id chan, f)
  | FsLs => (FsReplyTopics (map_keys (fs_my_topics f)), f)
  | FsGetPeers t =>
      (FsReplyPeers (if bool_decide (t = EmptyString) then map_keys (fs_connected_peers f)
                     else match fs_topics f !! t with Some subs => hash_iter (elements subs) | None => [] end), f)
  end.

(** The message [Control::publish] makes, with its 20 random bytes. *)
Definition control_publish (c : FloodsubConfig) (seq : bytes) (t : Topic) (d : bytes) : FloodsubMessage :=
  mk_FloodsubMessage (fc_local_peer_id c) d seq [t].

(** One turn of the loop of [next]. *)
Inductive FsInput :=
  | FsInPeer (e : FsPeerEvent)
  | FsInRpc (from : PeerId) (rpc : FloodsubRpc)
  | FsInCommand (cmd : FsCommand)
  | FsInCancel (t : Topic) (id : SubId).

Definition floodsub_step (f : FloodSub) (i : FsInput) : option FloodSub :=
  match i with
  | FsInPeer e => fs_handle_peer_event f e
  | FsInRpc from rpc => Some (handle_incoming_rpc f from rpc)
  | FsInCommand cmd => Some (on_control_command f cmd).2
  | FsInCancel t id => Some (un_subscribe f t id)
  end.

(** The end of [process_loop]: all senders are dropped. *)
Definition process_loop_end (f : FloodSub) : FloodSub :=
  fs_put (FsCloseChannel <$> ((map_to_list (fs_connected_peers f)).*2 ++
                               mjoin ((λ x, (map_to_list x.2).*2) <$> map_to_list (fs_my_topics f))))
    (fs_set_connected ∅ (fs_set_topics ∅ (fs_set_my_topics ∅ f))).

Definition floodsub_run (f : FloodSub) (l : list FsInput) : option FloodSub := foldlM floodsub_step f l.
End floodsub.

(** ** Lemmas: messages *)

Section packets.
Context {PeerId : Type} `{!PeerIdType PeerId} {codec : FsCodec} `{!PeerIdLaws PeerId} `{!FsCodecLaws}.

Lemma messages_roundtrip (ms : list (FloodsubMessage (PeerId := PeerId))) :
  messages_of_proto ((λ m, mk_FsProtoMessage (Some (to_bytes (fm_source m))) (Some (fm_data m)) (Some (fm_sequence_number m))
    (fm_topics m)) <$> ms) = Ok ms.
Proof.
  induction ms as [|m ms IH]; [done|]. rewrite fmap_cons. cbn [messages_of_proto].
  assert (message_of_proto (mk_FsProtoMessage (Some (to_bytes (fm_source m))) (Some (fm_data m)) (Some (fm_sequence_number m))
    (fm_topics m)) = Ok m) as -> by (unfold message_of_proto; simpl; rewrite pid_from_to; by destruct m).
  cbn [result_bind]. by rewrite IH.
Qed.

Lemma packet_roundtrip (r : FloodsubRpc (PeerId := PeerId)) : decode_packet (into_bytes r) = Ok r.
Proof.
  unfold decode_packet, into_bytes. rewrite fs_decode_encode. cbn [ok_or result_bind fp_publish fp_subscriptions].
  rewrite messages_roundtrip. simpl. f_equal. destruct r as [ms subs]. simpl. f_equal.
  rewrite <-list_fmap_compose. rewrite <-(list_fmap_id subs) at 2. apply list_fmap_ext. intros _ [[] t] _; done.
Qed.

Section link.
Context `{VarintLaws} (chunks accepts : nat → nat) (Hacc : ∀ j, 0 < accepts j).

Lemma prefix_of_written (p w ws : bytes) :
  p `prefix_of` w ++ ws → partial p w ∨ ∃ p2, p = w ++ p2 ∧ p2 `prefix_of` ws.
Proof.
  intros Hp. destruct (decide (p = w ++ ws)) as [->|Hne]; [right; by exists ws|].
  destruct (partial_app p w ws (conj Hp Hne)) as [?|(p2&->&[? _])]; [by left|right]. by exists p2.
Qed.

Lemma read_one_nil : read_one chunks 2048 false [] = Pending.
Proof. done. Qed.

(** The writer and the reader of a stream: of the RPCs of at most 2048 bytes those
    whose bytes have arrived are read, in order. *)
Lemma link_prefix rpcs :
  Forall (λ r, length (into_bytes r) ≤ 2048) rpcs →
  ∃ ws, handle_send_message accepts (into_bytes <$> rpcs) = (ws, Ok ()) ∧
    ∀ p fuel, p `prefix_of` ws → length p < fuel →
      ∃ k, handle_loop (PeerId := PeerId) chunks fuel false p = (take k rpcs, FsWaits) ∧ (p = ws → k = length rpcs).
Proof.
  intros Hall. induction Hall as [|r rpcs Hr _ (ws&Hws&Hread)].
  { exists []. split; [done|]. intros p fuel ->%prefix_nil_inv Hf. exists 0. destruct fuel; [lia|done]. }
  destruct (written_read_one chunks accepts (into_bytes r) 2048 false Hacc) as (w&Hw&Hne&Hone&Hpart); [lia|lia|].
  exists (w ++ ws). split; [rewrite fmap_cons; cbn [handle_send_message]; by rewrite Hw, Hws|]. intros p fuel Hp Hf.
  destruct fuel as [|fuel]; [lia|]. cbn [handle_loop]. destruct (prefix_of_written _ _ _ Hp) as [Hq|(p2&->&Hp2)].
  - rewrite Hpart by done. exists 0. split; [done|]. intros ->. apply partial_length in Hq. rewrite length_app in Hq. lia.
  - rewrite Hone, packet_roundtrip. rewrite length_app in Hf. assert (length w ≠ 0) by (by destruct w).
    destruct (Hread p2 fuel Hp2 ltac:(lia)) as (k&->&Hk). exists (S k). split; [done|]. intros ->%app_inv_head. simpl. by rewrite Hk.
Qed.

Lemma link_delivers rpcs :
  Forall (λ r, length (into_bytes r) ≤ 2048) rpcs →
  ∃ ws, handle_send_message accepts (into_bytes <$> rpcs) = (ws, Ok ()) ∧
    stream_handle (PeerId := PeerId) chunks false ws = (rpcs, FsWaits) ∧
    ∀ p, p `prefix_of` ws → ∃ k, stream_handle (PeerId := PeerId) chunks false p = (take k rpcs, FsWaits).
Proof.
  intros (ws&Hws&Hread)%link_prefix. exists ws. split_and!; [done| |].
  - destruct (Hread ws (S (length ws)) ltac:(done) ltac:(lia)) as (k&Hk&Hall). unfold stream_handle.
    rewrite Hk, (Hall eq_refl), take_ge by lia. done.
  - intros p Hp. destruct (Hread p (S (length p)) Hp ltac:(lia)) as (k&Hk&_). by exists k.
Qed.
End link.
End packets.

(** ** A network of nodes *)

Section network.
Context {PeerId : Type} `{!PeerIdType PeerId} {codec : FsCodec} {hord : HashOrder}.
Context `{!PeerIdLaws PeerId} `{!FsCodecLaws} {hlaws : HashOrderLaws}.

Local Abbreviation Node := (FloodSub (PeerId := PeerId)).
Local Abbreviation Msg := (FloodsubMessage (PeerId := PeerId)).
Implicit Types (f : Node) (m : Msg) (p q from : PeerId) (t : Topic).

(** The packet of one message. *)
Definition packet m : bytes := into_bytes (mk_FloodsubRpc [m] []).

(** The packets in a part of the output log. *)
Definition packets_of (os : list (FsOutput (PeerId := PeerId))) : list (PeerId * bytes) :=
  omap (λ o, match o with FsSend p _ buf => Some (p, buf) | _ => None end) os.

(** The nodes, the packets between them, and the messages the nodes have handled:
    the node, the peer the message came from, and the message. *)
Record Net := mk_Net {
  net_nodes : gmap PeerId Node;
  net_flight : list (PeerId * PeerId * bytes);
  net_handled : list (PeerId * PeerId * Msg)
}.

(** The packets a step of a node adds. *)
Definition sent p f f' : list (PeerId * PeerId * bytes) :=
  (λ x, (p, x.1, x.2)) <$> packets_of (drop (length (fs_outputs f)) (fs_outputs f')).

(** A node publishes; a node handles a packet, of which the handler reads at most
    2048 bytes; a packet that is larger is lost with its stream. *)
Inductive net_step : Net → Net → Prop :=
  | net_publish p f m nodes flight handled :
      nodes !! p = Some f → fm_source m = p → fc_local_peer_id (fs_config f) = p →
      let f' := (on_control_command f (FsPublish m)).2 in
      net_step (mk_Net nodes flight handled)
        (mk_Net (<[p := f']> nodes) (flight ++ sent p f f') ((p, p, m) :: handled))
  | net_receive l1 l2 from p buf rpc f nodes handled :
      nodes !! p = Some f → length buf ≤ 2048 → decode_packet buf = Ok rpc →
      let f' := handle_incoming_rpc f from rpc in
      net_step (mk_Net nodes (l1 ++ (from, p, buf) :: l2) handled)
        (mk_Net (<[p := f']> nodes) (l1 ++ l2 ++ sent p f f')
           (((λ m, (p, from, m)) <$> filter (λ m, subscribed_to_msg f (fm_topics m) = true) (fr_messages rpc)) ++ handled))
  | net_lose l1 l2 from p buf nodes handled :
      2048 < length buf →
      net_step (mk_Net nodes (l1 ++ (from, p, buf) :: l2) handled) (mk_Net nodes (l1 ++ l2) handled).

(** The tables of a node, which messages do not change. *)
Definition same_tables f f' : Prop :=
  fs_config f' = fs_config f ∧ fs_connected_peers f' = fs_connected_peers f ∧ fs_topics f' = fs_topics f ∧
  fs_my_topics f' = fs_my_topics f.

Lemma publish_message_eq f from m :
  publish_message f from m = fs_put (fs_notices f from m ++ fs_sends f from m) f.
Proof. unfold publish_message, fs_publish, fs_notify_subs, fs_put. simpl. by rewrite (assoc_L (++)). Qed.

Lemma elem_of_recipients f m q :
  q ∈ fs_recipients f m ↔ ∃ t ps, t ∈ fm_topics m ∧ fs_topics f !! t = Some ps ∧ q ∈ ps.
Proof.
  unfold fs_recipients. rewrite list_elem_of_join. split.
  - intros (l&Hq&(t&->&Ht)%list_elem_of_fmap). destruct (fs_topics f !! t) as [ps|] eqn:Hps; [|by apply elem_of_nil in Hq].
    rewrite hash_iter_perm, elem_of_elements in Hq. eauto.
  - intros (t&ps&Ht&Hps&Hq). exists (hash_iter (elements ps)). split; [by rewrite hash_iter_perm, elem_of_elements|].
    apply list_elem_of_fmap. exists t. by rewrite Hps.
Qed.

Lemma packets_of_app os os' : packets_of (os ++ os') = packets_of os ++ packets_of os'.
Proof. apply omap_app. Qed.

Lemma packets_of_notices f from m : packets_of (fs_notices f from m) = [].
Proof.
  assert (Hall : Forall (λ o, ∃ chan, o = FsNotify chan m) (fs_notices f from m)).
  { unfold fs_notices. destruct (_ && _); [done|]. apply Forall_forall.
    intros o (l&Ho&(t&->&_)%list_elem_of_fmap)%list_elem_of_join. destruct (fs_my_topics f !! t); [|by apply elem_of_nil in Ho].
    apply list_elem_of_fmap in Ho as (x&->&_). eauto. }
  induction Hall as [|o os [chan ->] _ IH]; [done|exact IH].
Qed.

(** A message goes to the connected subscribers other than the peer it came from
    and its author, and to nobody else. *)
Lemma message_packets f from m q buf :
  (q, buf) ∈ packets_of (fs_sends f from m) ↔
  buf = packet m ∧ q ≠ from ∧ q ≠ fm_source m ∧ is_Some (fs_connected_peers f !! q) ∧ q ∈ fs_recipients f m.
Proof.
  unfold packets_of, fs_sends. rewrite list_elem_of_omap. split.
  - intros (o&(p&Hp&Ho)%list_elem_of_omap&Heq). destruct (bool_decide_reflect (p = from)); [done|].
    destruct (bool_decide_reflect (p = fm_source m)); [done|]. simpl in Ho.
    destruct (fs_connected_peers f !! p) eqn:Hc; [|done]. simplify_eq/=. eauto 10.
  - intros (->&H1&H2&[chan Hc]&Hq). exists (FsSend q chan (packet m)). split; [|done]. apply list_elem_of_omap.
    exists q. split; [done|]. rewrite !bool_decide_false by done. simpl. by rewrite Hc.
Qed.

(** Every subscription of a topic of the message is notified, unless the message is
    the node's own and it does not want those. *)
Lemma message_notices f from m t subs id chan :
  t ∈ fm_topics m → fs_my_topics f !! t = Some subs → subs !! id = Some chan →
  fc_subscribe_local_messages (fs_config f) = true ∨ fc_local_peer_id (fs_config f) ≠ from →
  FsNotify chan m ∈ fs_notices f from m.
Proof.
  intros Ht Hs Hid Hloc. unfold fs_notices.
  replace (negb _ && _) with false by (destruct Hloc as [->|]; [done|]; by rewrite bool_decide_false, andb_false_r).
  apply list_elem_of_join. exists ((λ x, FsNotify x.2 m) <$> hash_iter (map_to_list subs)). split.
  - apply list_elem_of_fmap. exists (id, chan). split; [done|]. rewrite hash_iter_perm. by apply elem_of_map_to_list.
  - apply list_elem_of_fmap. exists t. by rewrite Hs.
Qed.

(** A node after messages, without subscriptions. *)
Lemma handle_messages f from ms :
  let f' := handle_incoming_rpc f from (mk_FloodsubRpc ms []) in
  same_tables f f' ∧ ∃ os, fs_outputs f' = fs_outputs f ++ os ∧
    packets_of os = (filter (λ m, subscribed_to_msg f (fm_topics m) = true) ms) ≫= (λ m, packets_of (fs_sends f from m)) ∧
    ∀ m, m ∈ ms → subscribed_to_msg f (fm_topics m) = true → fs_notices f from m ⊆ os.
Proof.
  unfold handle_incoming_rpc. simpl. revert f. induction ms as [|m ms IH]; intros f; simpl.
  { split; [done|]. exists []. rewrite app_nil_r. split_and!; [done|done|]. by intros m ?%elem_of_nil. }
  assert (Hsame : same_tables f (incoming_message from f m)).
  { unfold incoming_message. destruct (subscribed_to_msg f _); [|done]. by rewrite publish_message_eq. }
  destruct (IH (incoming_message from f m)) as (Hs&os&Hos&Hpk&Hn).
  assert (Hsends : ∀ m', fs_sends (incoming_message from f m) from m' = fs_sends f from m').
  { intros m'. destruct Hsame as (_&Hc&Ht&_). unfold fs_sends, fs_recipients. by rewrite Hc, Ht. }
  assert (Hnot : ∀ m', fs_notices (incoming_message from f m) from m' = fs_notices f from m').
  { intros m'. destruct Hsame as (Hc&_&_&Ht). unfold fs_notices. by rewrite Hc, Ht. }
  assert (Hsub : ∀ ts, subscribed_to_msg (incoming_message from f m) ts = subscribed_to_msg f ts).
  { intros ts. destruct Hsame as (_&_&_&Ht). unfold subscribed_to_msg. by rewrite Ht. }
  split; [by destruct Hsame as (?&?&?&?), Hs as (?&?&?&?); repeat split; congruence|].
  destruct (subscribed_to_msg f (fm_topics m)) eqn:Hm.
  - exists (fs_notices f from m ++ fs_sends f from m ++ os). split_and!.
    + rewrite Hos. unfold incoming_message. rewrite Hm, publish_message_eq. simpl. by rewrite <-!(assoc_L (++)).
    + rewrite !packets_of_app, packets_of_notices, Hpk. rewrite filter_cons_True by done. simpl. f_equal.
      rewrite (list_filter_iff _ (λ m, subscribed_to_msg f (fm_topics m) = true)) by (intros x; by rewrite Hsub).
      apply list_bind_ext; [|done]. intros x. by rewrite Hsends.
    + intros m' [->|Hin]%elem_of_cons Hsm o Ho; rewrite !elem_of_app; [by left|]. right. right.
      by apply (Hn m' Hin ltac:(by rewrite Hsub)); rewrite Hnot.
  - exists os. split_and!.
    + rewrite Hos. unfold incoming_message. by rewrite Hm.
    + rewrite Hpk. rewrite filter_cons_False by congruence.
      rewrite (list_filter_iff _ (λ m, subscribed_to_msg f (fm_topics m) = true)) by (intros x; by rewrite Hsub).
      apply list_bind_ext; [|done]. intros x. by rewrite Hsends.
    + intros m' [->|Hin]%elem_of_cons Hsm o Ho; [congruence|]. by apply (Hn m' Hin ltac:(by rewrite Hsub)); rewrite Hnot.
Qed.

(** *** The invariant of a network in which messages are published *)

Lemma packet_inj m m' : packet m = packet m' → m = m'.
Proof. intros Heq. assert (Hd := packet_roundtrip (mk_FloodsubRpc [m] [])). unfold packet in Heq. rewrite Heq, packet_roundtrip in Hd. by simplify_eq. Qed.

Lemma decode_packet_packet m rpc : decode_packet (packet m) = Ok rpc → rpc = mk_FloodsubRpc [m] [].
Proof. unfold packet. rewrite packet_roundtrip. by intros [= <-]. Qed.

Definition subscribed f m : bool := subscribed_to_msg f (fm_topics m).

Record flood_inv (nodes0 : gmap PeerId Node) (net : Net) : Prop := {
  fi_nodes p : match nodes0 !! p, net_nodes net !! p with
               | Some f0, Some f => same_tables f0 f | None, None => True | _, _ => False end;
  fi_plain from p buf : (from, p, buf) ∈ net_flight net → ∃ m, buf = packet m;
  fi_forward p from m f0 q g0 :
    (p, from, m) ∈ net_handled net → nodes0 !! p = Some f0 → nodes0 !! q = Some g0 →
    q ≠ from → q ≠ fm_source m → is_Some (fs_connected_peers f0 !! q) → q ∈ fs_recipients f0 m →
    length (packet m) ≤ 2048 → subscribed g0 m = true →
    (p, q, packet m) ∈ net_flight net ∨ (q, p, m) ∈ net_handled net;
  fi_notified p from m f : (p, from, m) ∈ net_handled net → net_nodes net !! p = Some f → fs_notices f from m ⊆ fs_outputs f
}.

Lemma same_tables_sends f f' from m : same_tables f f' → fs_sends f' from m = fs_sends f from m.
Proof. intros (_&Hc&Ht&_). unfold fs_sends, fs_recipients. by rewrite Hc, Ht. Qed.
Lemma same_tables_notices f f' from m : same_tables f f' → fs_notices f' from m = fs_notices f from m.
Proof. intros (Hc&_&_&Ht). unfold fs_notices. by rewrite Hc, Ht. Qed.
Lemma same_tables_subscribed f f' m : same_tables f f' → subscribed f' m = subscribed f m.
Proof. intros (_&_&_&Ht). unfold subscribed, subscribed_to_msg. by rewrite Ht. Qed.
Lemma same_tables_trans f1 f2 f3 : same_tables f1 f2 → same_tables f2 f3 → same_tables f1 f3.
Proof. unfold same_tables. intuition congruence. Qed.

(** A node handles a message: the common part of the two steps. *)
Lemma flood_handle nodes0 nodes flight handled flight' p from m f f0 :
  flood_inv nodes0 (mk_Net nodes flight handled) → nodes !! p = Some f → nodes0 !! p = Some f0 →
  (∀ x, x ∈ flight' → x ∈ flight) → (∀ x, x ∈ flight → x ∈ flight' ∨ x = (from, p, packet m)) →
  flood_inv nodes0 (mk_Net (<[p := publish_message f from m]> nodes)
    (flight' ++ sent p f (publish_message f from m)) ((p, from, m) :: handled)).
Proof.
  intros [Hn Hpl Hfw Hno] Hp Hp0 Hfl Hfl'. simpl in *.
  assert (Hsame0 : same_tables f0 f) by (specialize (Hn p); by rewrite Hp, Hp0 in Hn).
  assert (Hsame : same_tables f (publish_message f from m)) by (by rewrite publish_message_eq).
  assert (Hsent : ∀ x, x ∈ sent p f (publish_message f from m) ↔ x.1.1 = p ∧ (x.1.2, x.2) ∈ packets_of (fs_sends f0 from m)).
  { intros [[a b] buf]. unfold sent. rewrite publish_message_eq. simpl.
    rewrite drop_app_length, packets_of_app, packets_of_notices, (same_tables_sends _ _ _ _ Hsame0). simpl.
    rewrite list_elem_of_fmap. split; [intros ([q b']&[= -> -> ->]&?); done|]. intros [-> ?]. by exists (b, buf). }
  split; simpl.
  - intros q. specialize (Hn q). destruct (decide (q = p)) as [->|]; [|by rewrite lookup_insert_ne].
    rewrite lookup_insert_eq, Hp0. by eapply same_tables_trans.
  - intros a b buf [Hin|[_ Hin]%Hsent]%elem_of_app; [by eapply Hpl, Hfl|]. simpl in Hin.
    apply message_packets in Hin as [-> _]. eauto.
  - intros p' from' m' f0' q g0 [[= -> -> ->]|Hin]%elem_of_cons Hf0' Hg0 Hq1 Hq2 Hc Hr Hlen Hsub.
    + left. apply elem_of_app. right. apply Hsent. simpl. split; [done|]. simplify_eq. by apply message_packets.
    + destruct (Hfw p' from' m' f0' q g0) as [Hf|Hh]; try done; [|right; by right].
      apply Hfl' in Hf as [Hf|[= -> -> ->%packet_inj]]; [left; apply elem_of_app; by left|right; by left].
  - intros p' from' m' f' Hin Hf'. destruct (decide (p' = p)) as [->|Hne].
    + rewrite lookup_insert_eq in Hf'. injection Hf' as <-. rewrite (same_tables_notices _ _ _ _ Hsame).
      rewrite publish_message_eq. simpl. apply elem_of_cons in Hin as [[= -> ->]|Hin]; [set_solver|].
      specialize (Hno _ _ _ _ Hin Hp). set_solver.
    + rewrite lookup_insert_ne in Hf' by done. apply elem_of_cons in Hin as [[= ]|Hin]; [done|]. by eapply Hno.
Qed.

Lemma flood_inv_step nodes0 net net' : net_step net net' → flood_inv nodes0 net → flood_inv nodes0 net'.
Proof.
  intros Hstep Hinv. assert (Hn := fi_nodes _ _ Hinv). destruct Hstep as [p f m nodes flight handled Hp Hsrc Hloc f'|
    l1 l2 from p buf rpc f nodes handled Hp Hlen Hdec f'|l1 l2 from p buf nodes handled Hlen]; simpl in *.
  - specialize (Hn p). rewrite Hp in Hn. destruct (nodes0 !! p) as [f0|] eqn:Hp0; [|done].
    subst f'. simpl. rewrite Hloc. eapply flood_handle; eauto.
  - specialize (Hn p). rewrite Hp in Hn. destruct (nodes0 !! p) as [f0|] eqn:Hp0; [|done].
    destruct (fi_plain _ _ Hinv from p buf) as [m ->]; [simpl; set_solver|]. apply decode_packet_packet in Hdec as ->.
    subst f'. simpl. unfold handle_incoming_rpc. simpl. unfold incoming_message.
    destruct (subscribed_to_msg f (fm_topics m)) eqn:Hsub.
    + rewrite filter_cons_True, filter_nil by done. simpl. rewrite (assoc_L (++)). eapply flood_handle; try done; simpl; set_solver.
    + rewrite filter_cons_False, filter_nil by congruence. simpl. unfold sent. rewrite drop_all. simpl. rewrite app_nil_r, insert_id by done.
      destruct Hinv as [Hn' Hpl Hfw Hno]. split; simpl in *; try done; [set_solver|].
      intros p' from' m' f0' q g0 Hin Hf0' Hg0 Hq1 Hq2 Hc Hr Hl Hs.
      destruct (Hfw p' from' m' f0' q g0) as [Hf|Hh]; try done; [|by right].
      left. rewrite elem_of_app, elem_of_cons in Hf. rewrite elem_of_app. destruct Hf as [?|[[= -> -> ->%packet_inj]|?]]; [by left| |by right].
      exfalso. simplify_eq. rewrite <-(same_tables_subscribed _ _ _ Hn) in Hs. unfold subscribed in Hs. congruence.
  - destruct Hinv as [Hn' Hpl Hfw Hno]. split; simpl in *; try done; [set_solver|].
    intros p' from' m' f0' q g0 Hin Hf0' Hg0 Hq1 Hq2 Hc Hr Hl Hs.
    destruct (Hfw p' from' m' f0' q g0) as [Hf|Hh]; try done; [|by right].
    left. rewrite elem_of_app, elem_of_cons in Hf. rewrite elem_of_app. destruct Hf as [?|[Heq|?]]; [by left| |by right]. simplify_eq. lia.
Qed.

Lemma flood_inv_reach nodes0 net : rtc net_step (mk_Net nodes0 [] []) net → flood_inv nodes0 net.
Proof.
  intros Hsteps. assert (H0 : flood_inv nodes0 (mk_Net nodes0 [] [])).
  { split; simpl; [intros q; by destruct (nodes0 !! q)| | |]; intros; set_solver. }
  induction Hsteps as [|? ? ? Hs _ IH]; [done|]. apply IH. by eapply flood_inv_step.
Qed.

(** *** Properties of a network *)

(** [q] hears from [p] about a topic. *)
Definition serves (nodes : gmap PeerId Node) t p q : Prop :=
  ∃ f g ps, nodes !! p = Some f ∧ nodes !! q = Some g ∧ p ≠ q ∧ fs_topics f !! t = Some ps ∧ q ∈ ps ∧
    is_Some (fs_connected_peers f !! q) ∧ is_Some (fs_my_topics g !! t) ∧ fc_local_peer_id (fs_config g) = q.

(** A route from the author [s] of a message over subscribers, which never returns
    to the peer it came from or to the author: its last two nodes. *)
Inductive route (nodes : gmap PeerId Node) t s : PeerId → PeerId → Prop :=
  | route_first q : serves nodes t s q → route nodes t s s q
  | route_next r p q : route nodes t s r p → serves nodes t p q → q ≠ r → q ≠ s → route nodes t s p q.

Lemma serves_subscribed nodes t p q g m :
  serves nodes t p q → nodes !! q = Some g → t ∈ fm_topics m → subscribed g m = true.
Proof.
  intros (_&g'&_&_&Hg&_&_&_&_&Hs&_) Hg' Ht. simplify_eq. unfold subscribed, subscribed_to_msg. apply existsb_exists.
  exists t. split; [by apply list_elem_of_In|by apply bool_decide_eq_true].
Qed.


(** Three nodes that hear from each other and are not the author of a message. *)
Definition triangle (nodes : gmap PeerId Node) t m (vs : gset PeerId) : Prop :=
  (fm_source m ∉ vs) ∧ t ∈ fm_topics m ∧ (∀ p q, p ∈ vs → q ∈ vs → p ≠ q → serves nodes t p q) ∧
  (∀ p q, p ∈ vs → q ∈ vs → ∃ z, z ∈ vs ∧ z ≠ p ∧ z ≠ q).

(** There is no memory of the messages seen: once a message passes between three
    nodes that hear from each other, it never stops to. *)
Theorem flood_never_ends nodes0 net net' t m vs p q
    (Hsteps : rtc net_step (mk_Net nodes0 [] []) net) (Htri : triangle nodes0 t m vs) (Hsize : length (packet m) ≤ 2048)
    (Hp : p ∈ vs) (Hq : q ∈ vs) (Hne : p ≠ q) (Hin : (p, q, packet m) ∈ net_flight net)
    (Hmore : rtc net_step net net') :
  ∃ p' q', p' ∈ vs ∧ q' ∈ vs ∧ p' ≠ q' ∧ (p', q', packet m) ∈ net_flight net'.
Proof.
  pose proof (flood_inv_reach _ _ Hsteps) as Hinv.
  clear Hsteps. revert p q Hp Hq Hne Hin Hinv. induction Hmore as [net|net net1 net2 Hstep _ IH]; intros p q Hp Hq Hne Hin Hinv; [by exists p, q|].
  pose proof (flood_inv_step _ _ _ Hstep Hinv) as Hinv1.
  assert (Hnext : ∃ p' q', p' ∈ vs ∧ q' ∈ vs ∧ p' ≠ q' ∧ (p', q', packet m) ∈ net_flight net1).
  { destruct Hstep as [p0 f m0 nodes flight handled Hp0 Hsrc Hloc f'|
      l1 l2 from p0 buf rpc f nodes handled Hp0 Hlen Hdec f'|l1 l2 from p0 buf nodes handled Hlen]; simpl in *.
    - exists p, q. split_and!; try done. apply elem_of_app. by left.
    - rewrite elem_of_app, elem_of_cons in Hin. destruct (decide ((p, q, packet m) = (from, p0, buf))) as [Heq|Hneq].
      2: { exists p, q. split_and!; try done. rewrite !elem_of_app. destruct Hin as [?|[?|?]]; [by left|done|right; by left]. }
      injection Heq as <- <- <-. apply decode_packet_packet in Hdec as ->. destruct Htri as (Hs&Ht&Hserves&Hthird).
      destruct (Hthird p q Hp Hq) as (z&Hz&Hzp&Hzq). exists q, z. split_and!; try done.
      pose proof (fi_nodes _ _ Hinv q) as Hn. simpl in Hn. rewrite Hp0 in Hn. destruct (nodes0 !! q) as [f0|] eqn:Hf0; [|done].
      pose proof (Hserves p q Hp Hq Hne) as Hpq. pose proof (serves_subscribed _ _ _ _ _ m Hpq Hf0 Ht) as Hsub.
      rewrite <-(same_tables_subscribed _ _ _ Hn) in Hsub.
      rewrite !elem_of_app. right. right. subst f'. unfold handle_incoming_rpc. simpl. unfold incoming_message, subscribed in *. rewrite Hsub.
      unfold sent. rewrite publish_message_eq. simpl. rewrite drop_app_length, packets_of_app, packets_of_notices. simpl.
      apply list_elem_of_fmap. exists (z, packet m). split; [done|]. rewrite (same_tables_sends _ _ _ _ Hn).
      destruct (Hserves q z Hq Hz ltac:(done)) as (f0'&g&ps&Hf0'&_&_&Htop&Hps&Hc&_). simplify_eq. apply message_packets.
      split_and!; try done; [|apply elem_of_recipients; eauto]. intros Heq. apply Hs. by rewrite <-Heq.
    - exists p, q. split_and!; try done. rewrite elem_of_app, elem_of_cons in Hin. rewrite elem_of_app.
      destruct Hin as [?|[Heq|?]]; [by left| |by right]. simplify_eq. lia. }
  destruct Hnext as (p'&q'&Hp'&Hq'&Hne'&Hin'). exact (IH p' q' Hp' Hq' Hne' Hin' Hinv1).
Qed.

(** *** Steps as functions *)

(** The author publishes; the first packet is handled. *)
Definition do_publish m (net : Net) : option Net :=
  f ← net_nodes net !! fm_source m;
  if decide (fc_local_peer_id (fs_config f) = fm_source m) then
    let f' := (on_control_command f (FsPublish m)).2 in
    Some (mk_Net (<[fm_source m := f']> (net_nodes net)) (net_flight net ++ sent (fm_source m) f f')
            ((fm_source m, fm_source m, m) :: net_handled net))
  else None.

Definition do_receive (net : Net) : option Net :=
  match net_flight net with
  | (from, p, buf) :: l =>
      f ← net_nodes net !! p;
      if decide (length buf ≤ 2048) then
        match decode_packet buf with
        | Ok rpc =>
            let f' := handle_incoming_rpc f from rpc in
            Some (mk_Net (<[p := f']> (net_nodes net)) (l ++ sent p f f')
              (((λ m, (p, from, m)) <$> filter (λ m, subscribed_to_msg f (fm_topics m) = true) (fr_messages rpc)) ++ net_handled net))
        | Err _ => None
        end
      else None
  | [] => None
  end.

Lemma do_publish_step m net net' : do_publish m net = Some net' → net_step net net'.
Proof.
  destruct net as [nodes flight handled]. unfold do_publish. simpl. destruct (nodes !! fm_source m) as [f|] eqn:Hf; [|done]. simpl.
  case_decide; [|done]. intros [= <-]. by apply (net_publish (fm_source m) f m nodes flight handled).
Qed.

Lemma do_receive_step net net' : do_receive net = Some net' → net_step net net'.
Proof.
  destruct net as [nodes [|[[from p] buf] l] handled]; unfold do_receive; simpl; [done|].
  destruct (nodes !! p) as [f|] eqn:Hf; simpl; [|done]. destruct (decide (length buf ≤ 2048)) as [Hlen|]; [|done].
  destruct (decode_packet buf) as [rpc|] eqn:Hd; [|done].
  intros [= <-]. exact (net_receive [] l from p buf rpc f nodes handled Hf Hlen Hd).
Qed.
End network.

(** ** One node *)

Section node.
Context {PeerId : Type} `{!PeerIdType PeerId} {codec : FsCodec} {hord : HashOrder}.
Local Abbreviation Node := (FloodSub (PeerId := PeerId)).
Implicit Types (f : Node).

(** A started node: every topic it holds has a subscription, and every subscription
    has a channel of its own. *)
Record fs_wf f : Prop := {
  fw_started : fs_swarm f = true;
  fw_nonempty t subs : fs_my_topics f !! t = Some subs → subs ≠ ∅;
  fw_fresh t subs id chan : fs_my_topics f !! t = Some subs → subs !! id = Some chan → chan < fs_next_chan f;
  fw_own t subs id chan t' subs' id' : fs_my_topics f !! t = Some subs → subs !! id = Some chan →
    fs_my_topics f !! t' = Some subs' → subs' !! id' = Some chan → t' = t ∧ id' = id
}.

(** The part of the state the invariant is about. *)
Lemma fs_wf_ext f f' :
  fs_swarm f' = fs_swarm f → fs_my_topics f' = fs_my_topics f → fs_next_chan f ≤ fs_next_chan f' → fs_wf f → fs_wf f'.
Proof.
  intros Hs Hm Hn [H1 H2 H3 H4]. split; [congruence|rewrite Hm; done| |rewrite Hm; done].
  intros t subs id chan Ht Hid. rewrite Hm in Ht. specialize (H3 _ _ _ _ Ht Hid). lia.
Qed.

Lemma handle_incoming_rpc_same f from rpc :
  let f' := handle_incoming_rpc f from rpc in
  fs_swarm f' = fs_swarm f ∧ fs_my_topics f' = fs_my_topics f ∧ fs_next_chan f' = fs_next_chan f.
Proof.
  unfold handle_incoming_rpc. simpl.
  assert (H1 : ∀ l f, let f' := foldl (incoming_subscription from) f l in
    fs_swarm f' = fs_swarm f ∧ fs_my_topics f' = fs_my_topics f ∧ fs_next_chan f' = fs_next_chan f).
  { intros l. induction l as [|s l IH]; intros f0; [done|]. simpl. destruct (IH (incoming_subscription from f0 s)) as (->&->&->).
    unfold incoming_subscription. by destruct (fsub_action s). }
  assert (H2 : ∀ l f, let f' := foldl (incoming_message from) f l in
    fs_swarm f' = fs_swarm f ∧ fs_my_topics f' = fs_my_topics f ∧ fs_next_chan f' = fs_next_chan f).
  { intros l. induction l as [|m l IH]; intros f0; [done|]. simpl. destruct (IH (incoming_message from f0 m)) as (->&->&->).
    unfold incoming_message. by destruct (subscribed_to_msg f0 _). }
  destruct (H2 (fr_messages rpc) (foldl (incoming_subscription from) f (fr_subscriptions rpc))) as (->&->&->). apply H1.
Qed.

Lemma fs_subscribe_wf f t id : fs_wf f → fs_wf (fs_subscribe f t id).2.
Proof.
  intros [H1 H2 H3 H4]. unfold fs_subscribe. set (subs := default ∅ (fs_my_topics f !! t)).
  set (f1 := if decide (subs = ∅) then _ else _).
  assert (Hf1 : fs_swarm f1 = true ∧ fs_my_topics f1 = delete t (fs_my_topics f) ∧ fs_next_chan f1 = fs_next_chan f).
  { subst f1. by destruct (decide (subs = ∅)). }
  destruct Hf1 as (Hs&Hm&Hn). clearbody f1. simpl.
  assert (Hlook : ∀ t' subs', <[t := <[id := fs_next_chan f1]> subs]> (fs_my_topics f1) !! t' = Some subs' →
    (t' = t ∧ subs' = <[id := fs_next_chan f1]> subs) ∨ (t' ≠ t ∧ fs_my_topics f !! t' = Some subs')).
  { intros t' subs'. rewrite Hm. destruct (decide (t' = t)) as [->|]; [rewrite lookup_insert_eq; intros [= <-]; by left|].
    rewrite lookup_insert_ne, lookup_delete_ne by done. by right. }
  assert (Hold : ∀ id' chan, subs !! id' = Some chan → ∃ s, fs_my_topics f !! t = Some s ∧ s !! id' = Some chan).
  { intros id' chan. subst subs. destruct (fs_my_topics f !! t); simpl; [eauto|by rewrite lookup_empty]. }
  assert (Hcase : ∀ t' subs' id' chan, <[t := <[id := fs_next_chan f1]> subs]> (fs_my_topics f1) !! t' = Some subs' →
    subs' !! id' = Some chan → (t' = t ∧ id' = id ∧ chan = fs_next_chan f) ∨
      (chan < fs_next_chan f ∧ ∃ s, fs_my_topics f !! t' = Some s ∧ s !! id' = Some chan)).
  { intros t' subs' id' chan [[-> ->]|[Hne Ht]]%Hlook Hid.
    - destruct (decide (id' = id)) as [->|]; [rewrite lookup_insert_eq in Hid; left; split_and!; congruence|].
      rewrite lookup_insert_ne in Hid by done. destruct (Hold _ _ Hid) as (s&Hs'&Hid'). right. eauto.
    - right. eauto. }
  split; simpl; [done| | |].
  - intros t' subs' [[-> ->]|[_ Ht]]%Hlook; [apply insert_non_empty|by eapply H2].
  - intros t' subs' id' chan Ht Hid. destruct (Hcase _ _ _ _ Ht Hid) as [(_&_&->)|[? _]]; lia.
  - intros t' subs' id' chan t2 subs2 id2 Ht Hid Ht2 Hid2.
    destruct (Hcase _ _ _ _ Ht Hid) as [(->&->&E1)|[Hlt (s&Hs1&Hs2)]], (Hcase _ _ _ _ Ht2 Hid2) as [(->&->&E2)|[Hlt2 (s2&Hs3&Hs4)]];
      [done|lia|lia|]. by eapply H4.
Qed.

Lemma un_subscribe_wf f t id : fs_wf f → fs_wf (un_subscribe f t id).
Proof.
  intros [H1 H2 H3 H4]. unfold un_subscribe. destruct (fs_my_topics f !! t) as [subs|] eqn:Ht; [|done].
  set (f1 := match subs !! id with Some _ => _ | None => _ end).
  assert (Hf1 : fs_swarm f1 = true ∧ fs_my_topics f1 = delete t (fs_my_topics f) ∧ fs_next_chan f1 = fs_next_chan f).
  { subst f1. by destruct (subs !! id). }
  destruct Hf1 as (Hs&Hm&Hn). clearbody f1.
  assert (Hsub : ∀ t' subs', (if decide (delete id subs = ∅) then fs_my_topics f1 else <[t := delete id subs]> (fs_my_topics f1)) !! t' = Some subs' →
    subs' ≠ ∅ ∧ ∃ s, fs_my_topics f !! t' = Some s ∧ subs' ⊆ s).
  { intros t' subs'. rewrite Hm. destruct (decide (t' = t)) as [->|Hne]; case_decide; rewrite ?lookup_delete_eq, ?lookup_insert_eq; try done.
    - intros [= <-]. split; [done|]. exists subs. split; [done|]. apply delete_subseteq.
    - rewrite lookup_delete_ne by done. intros Hl. split; [by eapply H2|by exists subs'].
    - rewrite lookup_insert_ne, lookup_delete_ne by done. intros Hl. split; [by eapply H2|by exists subs']. }
  assert (Hres : (if decide (delete id subs = ∅) then f1 else fs_set_my_topics (<[t := delete id subs]> (fs_my_topics f1)) f1) =
    fs_set_my_topics (if decide (delete id subs = ∅) then fs_my_topics f1 else <[t := delete id subs]> (fs_my_topics f1)) f1).
  { case_decide; [|done]. by destruct f1. }
  rewrite Hres. split; simpl; [done| | |].
  - intros t' subs' Hl. by apply Hsub in Hl as [? _].
  - intros t' subs' id' chan (_&s&Hl&Hle)%Hsub Hid. rewrite Hn. eapply H3; [done|]. by eapply lookup_weaken.
  - intros t' subs' id' chan t2 subs2 id2 (_&s&Hl&Hle)%Hsub Hid (_&s2&Hl2&Hle2)%Hsub Hid2.
    eapply (H4 t' s id' chan t2 s2); try done; by eapply lookup_weaken.
Qed.

(** No input makes a started node panic, and the invariant is kept. *)
Theorem floodsub_safe f i (Hf : fs_wf f) : ∃ f', floodsub_step f i = Some f' ∧ fs_wf f'.
Proof.
  destruct i as [[p|p]|from rpc|[m|t id| |t]|t id]; cbn [floodsub_step fs_handle_peer_event on_control_command].
  - unfold fs_handle_new_peer. rewrite (fw_started f Hf). eexists. split; [done|]. eapply fs_wf_ext; [..|exact Hf]; simpl; [done|done|lia].
  - eexists. split; [done|]. by eapply fs_wf_ext; [..|exact Hf].
  - destruct (handle_incoming_rpc_same f from rpc) as (?&?&Hn). eexists. split; [done|]. eapply fs_wf_ext; [done|done|lia|done].
  - eexists. split; [done|]. by eapply fs_wf_ext; [..|exact Hf].
  - pose proof (fs_subscribe_wf f t id Hf). destruct (fs_subscribe f t id). eauto.
  - eauto.
  - eauto.
  - eexists. split; [done|]. by apply un_subscribe_wf.
Qed.
End node.

(** ** Concrete nodes *)

#[local] Instance demo_peer_id : PeerIdType Init.Byte.byte := {|
  pid_to_bytes := λ b, [b];
  pid_from_bytes := λ bs, match bs with [b] => Some b | _ => None end
|}.
#[local] Instance demo_peer_id_laws : PeerIdLaws Init.Byte.byte.
Proof. split; done. Qed.
#[local] Instance demo_order : HashOrder := λ A l, l.
#[local] Instance demo_order_laws : HashOrderLaws.
Proof. intros A l. reflexivity. Qed.

#[local] Instance demo_fs_message_eq : EqDecision FsProtoMessage.
Proof. solve_decision. Defined.
#[local] Instance demo_fs_sub_eq : EqDecision FsProtoSubOpts.
Proof. solve_decision. Defined.
#[local] Instance demo_fs_rpc_eq : EqDecision FsProtoRpc.
Proof. solve_decision. Defined.
#[local] Instance demo_fs_message_countable : Countable FsProtoMessage.
Proof.
  refine (inj_countable' (λ m, ((fp_from m, fp_data m), (fp_seqno m, fp_topic_ids m)))
    (λ '((a, b), (c, d)), mk_FsProtoMessage a b c d) _). by intros [].
Defined.
#[local] Instance demo_fs_sub_countable : Countable FsProtoSubOpts.
Proof. refine (inj_countable' (λ m, (fp_subscribe m, fp_topic_id m)) (λ '(a, b), mk_FsProtoSubOpts a b) _). by intros []. Defined.
#[local] Instance demo_fs_rpc_countable : Countable FsProtoRpc.
Proof. refine (inj_countable' (λ m, (fp_subscriptions m, fp_publish m)) (λ '(a, b), mk_FsProtoRpc a b) _). by intros []. Defined.

#[local] Instance demo_fs_codec : FsCodec := {| fs_encode r := bits_of (encode r); fs_decode b := decode (of_bits b) |}.
#[local] Instance demo_fs_codec_laws : FsCodecLaws.
Proof. intros r. simpl. rewrite of_bits_of. apply decode_encode. Qed.

(** A node that hears from some peers and subscribes to a topic, and a message. *)
Definition fs_node (p : Init.Byte.byte) (peers : list Init.Byte.byte) : FloodSub :=
  mk_FloodSub (floodsub_config_new p) true (list_to_map ((λ q, (q, 0)) <$> peers)) {[ "t"%string := list_to_set peers ]}
    {[ "t"%string := {[ 7%Z := 1 ]} ]} 2 [].
Definition fs_hello : FloodsubMessage := mk_FloodsubMessage Byte.x01 [Byte.x2a] [] ["t"%string].

(** Three nodes in a line. *)
Definition line_net : Net := mk_Net
  {[ Byte.x01 := fs_node Byte.x01 [Byte.x02]; Byte.x02 := fs_node Byte.x02 [Byte.x01; Byte.x03];
     Byte.x03 := fs_node Byte.x03 [Byte.x02] ]} [] [].
Definition line_nodes := net_nodes line_net.

Definition line_run : option Net := n1 ← do_publish fs_hello line_net; n2 ← do_receive n1; do_receive n2.


Lemma line_serves_1 : serves line_nodes "t" Byte.x01 Byte.x02.
Proof.
  exists (fs_node Byte.x01 [Byte.x02]), (fs_node Byte.x02 [Byte.x01; Byte.x03]), (list_to_set [Byte.x02]).
  split_and!; [done|done|done|done| |by eexists|by eexists|done]. by apply (bool_decide_unpack _).
Qed.
Lemma line_serves_2 : serves line_nodes "t" Byte.x02 Byte.x03.
Proof.
  exists (fs_node Byte.x02 [Byte.x01; Byte.x03]), (fs_node Byte.x03 [Byte.x02]), (list_to_set [Byte.x01; Byte.x03]).
  split_and!; [done|done|done|done| |by eexists|by eexists|done]. by apply (bool_decide_unpack _).
Qed.


(** When one of two subscriptions of a topic ends, the peers are told that the node
    has unsubscribed, although it still subscribes to the topic. *)
Example unsubscribed_too_early :
  (f ← floodsub_run (floodsub_start (floodsub_new (floodsub_config_new Byte.x01)))
    [FsInPeer (FsNewPeer Byte.x02); FsInCommand (FsCmdSubscribe "t" 1); FsInCommand (FsCmdSubscribe "t" 2); FsInCancel "t" 1];
   Some (bool_decide (is_Some (fs_my_topics f !! "t"%string)), last (packets_of (fs_outputs f)))) =
  Some (true, Some (Byte.x02, into_bytes (mk_FloodsubRpc [] [mk_FloodsubSubscription FsUnsubscribe "t"]))).
Proof. vm_compute. reflexivity. Qed.

Lemma floodsub_safe_witness :
  ∃ f', floodsub_step (fs_node Byte.x01 [Byte.x02]) (FsInPeer (FsNewPeer Byte.x03)) = Some f' ∧ fs_wf f'.
Proof.
  apply floodsub_safe. split; [done|..].
  - intros t subs. unfold fs_node. cbn [fs_my_topics]. intros [_ <-]%lookup_singleton_Some. apply insert_non_empty.
  - intros t subs id chan. unfold fs_node. cbn [fs_my_topics fs_next_chan]. intros [_ <-]%lookup_singleton_Some [_ <-]%lookup_singleton_Some. lia.
  - intros t subs id chan t' subs' id'. unfold fs_node. cbn [fs_my_topics].
    intros [<- <-]%lookup_singleton_Some [<- <-]%lookup_singleton_Some [<- <-]%lookup_singleton_Some [<- _]%lookup_singleton_Some. done.
Defined.

(** Four nodes that all hear from each other: a message of the first one never
    stops to pass between the others. *)
Definition full_net : Net := mk_Net
  {[ Byte.x01 := fs_node Byte.x01 [Byte.x02; Byte.x03; Byte.x04]; Byte.x02 := fs_node Byte.x02 [Byte.x01; Byte.x03; Byte.x04];
     Byte.x03 := fs_node Byte.x03 [Byte.x01; Byte.x02; Byte.x04]; Byte.x04 := fs_node Byte.x04 [Byte.x01; Byte.x02; Byte.x03] ]} [] [].
Definition full_run : option Net := n1 ← do_publish fs_hello full_net; do_receive n1.

Lemma full_serves p q :
  p ∈ [Byte.x02; Byte.x03; Byte.x04] → q ∈ [Byte.x02; Byte.x03; Byte.x04] → p ≠ q → serves (net_nodes full_net) "t" p q.
Proof.
  intros Hp Hq Hne. rewrite !elem_of_cons, elem_of_nil in Hp, Hq.
  destruct Hp as [->|[->|[->|[]]]], Hq as [->|[->|[->|[]]]]; try done;
    (eexists _, _, _; split; [reflexivity|]; split; [reflexivity|]; split; [done|]; split; [reflexivity|];
     split; [by apply (bool_decide_unpack _)|]; split; [by eexists|]; split; [by eexists|done]).
Qed.

Lemma flood_never_ends_witness :
  ∃ net, full_run = Some net ∧ ∀ net', rtc net_step net net' → net_flight net' ≠ [].
Proof.
  assert (Hrun : (λ n, bool_decide ((Byte.x04, Byte.x03, packet fs_hello) ∈ net_flight n)) <$> full_run = Some true) by (vm_compute; reflexivity).
  destruct full_run as [net|] eqn:Hnet; [|done]. injection Hrun as Hin. apply bool_decide_eq_true in Hin. exists net. split; [done|].
  intros net' Hmore Hempty. unfold full_run in Hnet. apply bind_Some in Hnet as (n1&H1&H2).
  destruct (flood_never_ends (net_nodes full_net) net net' "t" fs_hello (list_to_set [Byte.x02; Byte.x03; Byte.x04]) Byte.x04 Byte.x03)
    as (p&q&_&_&_&Hin'); try done.
  - eapply rtc_l; [by eapply do_publish_step|]. by eapply rtc_once, do_receive_step.
  - split; [by apply (bool_decide_unpack _)|]. split; [by left|]. split.
    + intros p q. rewrite !elem_of_list_to_set. apply full_serves.
    + intros p q. rewrite !elem_of_list_to_set, !elem_of_cons, !elem_of_nil. intros Hp Hq.
      destruct (decide (p ≠ Byte.x02 ∧ q ≠ Byte.x02)) as [[]|H]; [by exists Byte.x02; rewrite elem_of_list_to_set; set_solver|].
      destruct (decide (p ≠ Byte.x03 ∧ q ≠ Byte.x03)) as [[]|H3]; [by exists Byte.x03; rewrite elem_of_list_to_set; set_solver|].
      exists Byte.x04. rewrite elem_of_list_to_set. destruct Hp as [->|[->|[->|[]]]], Hq as [->|[->|[->|[]]]]; set_solver.
  - apply (bool_decide_unpack _). vm_compute. exact I.
  - rewrite Hempty in Hin'. by apply elem_of_nil in Hin'.
Defined.
