(* ===== verification/Session.v ===== *)
(** * Programs on a socket

    The handshakes of the secure channels are asynchronous functions that write to
    and read from a socket in turn.  A [Session] is such a function: a tree of
    writes, reads and a result.  It can be run alone on the bytes that arrive
    ([session_run]), whoever sent them, or against another session over a pair of
    byte streams ([link_step]), where the two sides proceed independently.

    The readers do not look ahead: a read that is over stays the same when more
    bytes arrive ([stable]).  For stable sessions the final state of a link does
    not depend on the order of the steps ([link_determined]), and every order ends
    ([link_terminates]).

    Code that is polled instead ([AsyncRead] and [AsyncWrite] implementations) sees the
    socket one poll at a time ([sock_poll_read], [sock_poll_write]). *)

From Stdlib Require Import ZArith Lia.
From stdpp Require Import relations.
From S2P Require Import Prelude KadKey KadProto Varint Framing Identity.

Inductive Session (A : Type) : Type :=
  | SRet (a : A)
  | SPanic
  | SSend (bs : bytes) (k : Session A)
  | SRecv (B : Type) (read : Reader B) (k : B → Session A) (fail : IoErrorKind → Session A).
Arguments SRet {A} a.
Arguments SPanic {A}.
Arguments SSend {A} bs k.
Arguments SRecv {A B} read k fail.

Fixpoint sess_bind {A B} (s : Session A) (f : A → Session B) : Session B :=
  match s with
  | SRet a => f a
  | SPanic => SPanic
  | SSend bs k => SSend bs (sess_bind k f)
  | SRecv r k fail => SRecv r (λ b, sess_bind (k b) f) (λ e, sess_bind (fail e) f)
  end.

(** The operator [?] on the results of a session. *)
Definition sess_try {E A B} (s : Session (result E A)) (f : A → Session (result E B)) : Session (result E B) :=
  sess_bind s (λ r, match r with Ok a => f a | Err e => SRet (Err e) end).

(** [f().await] and [f().await?]. *)
Notation "'await' x := m 'in' k" := (sess_bind m (fun x => k))
  (at level 10, x pattern, k at level 200) : libp2p_scope.
Notation "'await?' x := m 'in' k" := (sess_try m (fun x => k))
  (at level 10, x pattern, k at level 200) : libp2p_scope.

(** What a write leaves on the socket, and its result; a read. *)
Definition s_write (w : Written) : Session (result IoErrorKind unit) := SSend w.1 (SRet w.2).
Definition s_read {A} (r : Reader A) : Session (result IoErrorKind A) :=
  SRecv r (λ a, SRet (Ok a)) (λ e, SRet (Err e)).
(** A result or a value computed without the socket; [None] is a panic. *)
Definition sess_result {E A} (r : result E A) : Session (result E A) := SRet r.
Definition s_value {A} (o : option A) : Session A := match o with Some a => SRet a | None => SPanic end.
Definition sess_map_err {E F A} (f : E → F) (s : Session (result E A)) : Session (result F A) :=
  sess_bind s (λ r, SRet (map_err f r)).

(** ** A session and the bytes that arrive *)

Inductive SessionEnd (A : Type) :=
  | Returned (a : A) (rest : bytes)
  | Waits
  | Crashed.
Arguments Returned {A} a rest.
Arguments Waits {A}.
Arguments Crashed {A}.

(** What is written, and the end, when [inp] arrives and then, if [eof], the stream
    ends. *)
Fixpoint session_run {A} (s : Session A) (eof : bool) (inp : bytes) : bytes * SessionEnd A :=
  match s with
  | SRet a => ([], Returned a inp)
  | SPanic => ([], Crashed)
  | SSend bs k => let r := session_run k eof inp in (bs ++ r.1, r.2)
  | SRecv r k fail =>
      match r eof inp with
      | Done b rest => session_run (k b) eof rest
      | Failed e => session_run (fail e) eof inp
      | Pending => ([], Waits)
      | Panicked => ([], Crashed)
      end
  end.

Lemma session_run_bind {A B} (s : Session A) (f : A → Session B) eof inp :
  session_run (sess_bind s f) eof inp =
  match session_run s eof inp with
  | (out, Returned a rest) => let r := session_run (f a) eof rest in (out ++ r.1, r.2)
  | (out, Waits) => (out, Waits)
  | (out, Crashed) => (out, Crashed)
  end.
Proof.
  revert inp. induction s as [a| |bs k IH|C r k IHk fail IHf]; intros inp; simpl.
  - by destruct (session_run (f a) eof inp).
  - done.
  - rewrite IH. destruct (session_run k eof inp) as [out [a rest| |]]; simpl; by rewrite ?app_assoc.
  - by destruct (r eof inp).
Qed.

(** The first part of a session that returned. *)
Lemma session_run_bind_inv {A B} (s : Session A) (f : A → Session B) eof inp out b rest :
  session_run (sess_bind s f) eof inp = (out, Returned b rest) →
  ∃ out1 a rest1 out2, session_run s eof inp = (out1, Returned a rest1) ∧
    session_run (f a) eof rest1 = (out2, Returned b rest) ∧ out = out1 ++ out2.
Proof.
  rewrite session_run_bind. destruct (session_run s eof inp) as [out1 [a rest1| |]]; [|done..].
  simpl. destruct (session_run (f a) eof rest1) as [out2 e] eqn:E. simpl. intros [= <- ->]. eauto 10.
Qed.

Lemma session_run_try_inv {E A B} (s : Session (result E A)) (f : A → Session (result E B)) eof inp out b rest :
  session_run (sess_try s f) eof inp = (out, Returned (Ok b) rest) →
  ∃ out1 a rest1 out2, session_run s eof inp = (out1, Returned (Ok a) rest1) ∧
    session_run (f a) eof rest1 = (out2, Returned (Ok b) rest) ∧ out = out1 ++ out2.
Proof. intros (o1&[a|e]&r1&o2&H1&H2&->)%session_run_bind_inv; [eauto 10|done]. Qed.

Lemma session_run_map_err_inv {E F A} (f : E → F) (s : Session (result E A)) eof inp out a rest :
  session_run (sess_map_err f s) eof inp = (out, Returned (Ok a) rest) →
  session_run s eof inp = (out, Returned (Ok a) rest).
Proof.
  intros (o1&[a'|e]&r1&o2&H1&H2&->)%session_run_bind_inv; [|done]. simpl in H2. simplify_eq. by rewrite app_nil_r.
Qed.

Lemma session_run_read_inv {A} (r : Reader A) eof inp out a rest :
  session_run (s_read r) eof inp = (out, Returned (Ok a) rest) → r eof inp = Done a rest ∧ out = [].
Proof. simpl. destruct (r eof inp); simpl; intros; by simplify_eq. Qed.

Lemma session_run_write_inv w eof inp out u rest :
  session_run (s_write w) eof inp = (out, Returned (Ok u) rest) → w = (out, Ok u) ∧ rest = inp.
Proof. destruct w as [bs r]. simpl. rewrite app_nil_r. intros. by simplify_eq. Qed.

Lemma session_run_value_inv {A} (o : option A) eof inp out a rest :
  session_run (s_value o) eof inp = (out, Returned a rest) → o = Some a ∧ rest = inp ∧ out = [].
Proof. destruct o; simpl; intros; by simplify_eq. Qed.

Lemma session_run_ret_inv {A} (x : A) eof inp out a rest :
  session_run (SRet x) eof inp = (out, Returned a rest) → a = x ∧ rest = inp ∧ out = [].
Proof. by intros [= -> -> ->]. Qed.

(** Inversion of a successful run, step by step. *)
Ltac run_inv H :=
  lazymatch type of H with
  | session_run (sess_try _ _) _ _ = (_, Returned (Ok _) _) =>
      let H1 := fresh H in apply session_run_try_inv in H as (?&?&?&?&H1&H&->); run_inv H1; run_inv H
  | session_run (sess_bind _ _) _ _ = (_, Returned _ _) =>
      let H1 := fresh H in apply session_run_bind_inv in H as (?&?&?&?&H1&H&->); run_inv H1; run_inv H
  | session_run (sess_map_err _ _) _ _ = (_, Returned (Ok _) _) => apply session_run_map_err_inv in H; run_inv H
  | session_run (s_read _) _ _ = (_, Returned (Ok _) _) => apply session_run_read_inv in H as [H ->]
  | session_run (s_write _) _ _ = (_, Returned (Ok _) _) => apply session_run_write_inv in H as [H ->]
  | session_run (s_value _) _ _ = (_, Returned _ _) => apply session_run_value_inv in H as (H&->&->)
  | session_run (sess_result _) _ _ = (_, Returned _ _) =>
      apply session_run_ret_inv in H as (H&->&->); symmetry in H
  | session_run (SRet _) _ _ = (_, Returned _ _) =>
      apply session_run_ret_inv in H as (H&->&->); try injection H as ->
  | _ => idtac
  end.

(** *** Sessions that do not panic

    [sess_safe s P]: whatever arrives, [s] does not panic, and if it returns then a
    value with [P]. *)

Definition sess_safe {A} (s : Session A) (P : A → Prop) : Prop := ∀ eof inp,
  match (session_run s eof inp).2 with
  | Returned a _ => P a
  | Waits => True
  | Crashed => False
  end.

(** The same for a value, only if it is [Ok]. *)
Definition on_ok {E A} (P : A → Prop) (r : result E A) : Prop := match r with Ok a => P a | Err _ => True end.

Lemma sess_safe_bind {A B} (s : Session A) (f : A → Session B) P Q :
  sess_safe s P → (∀ a, P a → sess_safe (f a) Q) → sess_safe (sess_bind s f) Q.
Proof.
  intros Hs Hf eof inp. rewrite session_run_bind. specialize (Hs eof inp).
  destruct (session_run s eof inp) as [out [a rest| |]]; try done. apply (Hf a Hs eof rest).
Qed.

Lemma sess_safe_try {E A B} (s : Session (result E A)) (f : A → Session (result E B)) P Q :
  sess_safe s (on_ok P) → (∀ a, P a → sess_safe (f a) (on_ok Q)) → sess_safe (sess_try s f) (on_ok Q).
Proof. intros Hs Hf. eapply sess_safe_bind; [done|]. intros [a|e] Ha; [by apply Hf|by intros eof inp]. Qed.

Lemma sess_safe_map_err {E F A} (f : E → F) (s : Session (result E A)) P :
  sess_safe s (on_ok P) → sess_safe (sess_map_err f s) (on_ok P).
Proof. intros Hs. eapply sess_safe_bind; [done|]. by intros [a|e] Ha eof inp. Qed.

Lemma sess_safe_ret {A} (a : A) (P : A → Prop) : P a → sess_safe (SRet a) P.
Proof. by intros Ha eof inp. Qed.

Lemma sess_safe_write w : sess_safe (s_write w) (on_ok (λ _, True)).
Proof. intros eof inp. by destruct w as [bs []]. Qed.

Lemma sess_safe_read {A} (r : Reader A) (P : A → Prop) :
  (∀ eof inp, match r eof inp with Done a _ => P a | Panicked => False | _ => True end) → sess_safe (s_read r) (on_ok P).
Proof. intros Hr eof inp. simpl. specialize (Hr eof inp). by destruct (r eof inp). Qed.

Lemma sess_safe_value {A} (o : option A) (P : A → Prop) a : o = Some a → P a → sess_safe (s_value o) P.
Proof. by intros -> Ha eof inp. Qed.

(** ** Readers that do not look ahead *)

Definition stable {A} (r : Reader A) : Prop := ∀ eof inp more,
  match r false inp with
  | Done a rest => r eof (inp ++ more) = Done a (rest ++ more)
  | Failed e => r eof (inp ++ more) = Failed e
  | Pending => True
  | Panicked => r eof (inp ++ more) = Panicked
  end.

Lemma stable_ret {A} (a : A) : stable (rd_ret a).
Proof. by intros eof inp more. Qed.
Lemma stable_fail {A} e : stable (rd_fail (A := A) e).
Proof. by intros eof inp more. Qed.
Lemma stable_panic {A} : stable (rd_panic (A := A)).
Proof. by intros eof inp more. Qed.

Lemma stable_bind {A B} (m : Reader A) (k : A → Reader B) : stable m → (∀ a, stable (k a)) → stable (rd_bind m k).
Proof.
  intros Hm Hk eof inp more. unfold rd_bind. specialize (Hm eof inp more).
  destruct (m false inp) as [a rest|e| |]; try done; rewrite Hm; [|done..]. apply Hk.
Qed.

Lemma stable_read_exact n : stable (read_exact n).
Proof.
  intros eof inp more. unfold read_exact. destruct (decide (n ≤ length inp)) as [Hn|]; [|done].
  rewrite decide_True by (rewrite length_app; lia). by rewrite take_app_le, drop_app_le by lia.
Qed.

Lemma stable_ext {A} (r r' : Reader A) : (∀ eof inp, r eof inp = r' eof inp) → stable r → stable r'.
Proof. intros Heq Hr eof inp more. rewrite <-!Heq. apply Hr. Qed.

Lemma stable_read_one_fixed chunks max : stable (read_one_fixed chunks max).
Proof.
  assert (H : ∀ n, stable (read_exact2 chunks n)).
  { intros n. eapply stable_ext; [|apply (stable_read_exact n)]. intros. by rewrite read_exact2_eq. }
  apply stable_bind; [apply stable_bind; [apply H|intros; apply stable_ret]|].
  intros n. destruct (max <? n)%Z; [apply stable_fail|apply H].
Qed.

Fixpoint stable_session {A} (s : Session A) : Prop :=
  match s with
  | SRet _ | SPanic => True
  | SSend _ k => stable_session k
  | SRecv r k fail => stable r ∧ (∀ b, stable_session (k b)) ∧ ∀ e, stable_session (fail e)
  end.

Lemma stable_sess_bind {A B} (s : Session A) (f : A → Session B) :
  stable_session s → (∀ a, stable_session (f a)) → stable_session (sess_bind s f).
Proof. intros Hs Hf. induction s; simpl in *; naive_solver. Qed.

Lemma stable_sess_try {E A B} (s : Session (result E A)) (f : A → Session (result E B)) :
  stable_session s → (∀ a, stable_session (f a)) → stable_session (sess_try s f).
Proof. intros Hs Hf. apply stable_sess_bind; [done|]. by intros [a|e]. Qed.

Lemma stable_map_err {E F A} (f : E → F) (s : Session (result E A)) :
  stable_session s → stable_session (sess_map_err f s).
Proof. intros. by apply stable_sess_bind. Qed.

Lemma stable_s_read {A} (r : Reader A) : stable r → stable_session (s_read r).
Proof. by intros. Qed.

Lemma stable_s_write w : stable_session (s_write w).
Proof. done. Qed.

Lemma stable_s_value {A} (o : option A) : stable_session (s_value o).
Proof. by destruct o. Qed.

#[export] Hint Resolve stable_sess_bind stable_sess_try stable_map_err stable_s_read stable_s_write stable_s_value
  stable_read_one_fixed stable_read_exact stable_ret stable_fail stable_bind : lp2p.

(** ** Two sessions over a pair of streams *)

Section link.
Context {A B : Type}.

(** The two sessions, and the bytes under way to the left and to the right one. *)
Record Link := mk_Link { l_left : Session A; l_right : Session B; l_to_left : bytes; l_to_right : bytes }.

(** A step of one session: what it becomes, what is left to read, what it writes. *)
Definition sess_step {T} (s : Session T) (inp : bytes) : option (Session T * bytes * bytes) :=
  match s with
  | SRet _ | SPanic => None
  | SSend bs k => Some (k, inp, bs)
  | SRecv r k fail =>
      match r false inp with
      | Done b rest => Some (k b, rest, [])
      | Failed e => Some (fail e, inp, [])
      | Pending => None
      | Panicked => Some (SPanic, inp, [])
      end
  end.

Inductive link_step : Link → Link → Prop :=
  | step_left s s' t il il' ir out :
      sess_step s il = Some (s', il', out) → link_step (mk_Link s t il ir) (mk_Link s' t il' (ir ++ out))
  | step_right s t t' il ir ir' out :
      sess_step t ir = Some (t', ir', out) → link_step (mk_Link s t il ir) (mk_Link s t' (il ++ out) ir').

Definition link_start (s : Session A) (t : Session B) : Link := mk_Link s t [] [].

Lemma sess_step_stable {T} (s : Session T) inp more s' rest out :
  stable_session s → sess_step s inp = Some (s', rest, out) →
  stable_session s' ∧ sess_step s (inp ++ more) = Some (s', rest ++ more, out).
Proof.
  destruct s as [a| |bs k|C r k fail]; simpl; try done; [intros Hk [= <- <- <-]; done|].
  intros (Hr&Hk&Hf). specialize (Hr false inp more). destruct (r false inp) as [b rest'|e| |]; try done;
    intros [= <- <- <-]; by rewrite Hr.
Qed.

Definition link_stable (l : Link) : Prop := stable_session (l_left l) ∧ stable_session (l_right l).

Lemma link_stable_step l l' : link_stable l → link_step l l' → link_stable l'.
Proof.
  intros [H1 H2] Hstep. inversion Hstep; subst; simpl in *; split; simpl; try done;
    eapply (sess_step_stable _ _ []); eauto.
Qed.

Lemma link_locally_confluent l l1 l2 :
  link_stable l → link_step l l1 → link_step l l2 → ∃ l', rtc link_step l1 l' ∧ rtc link_step l2 l'.
Proof.
  intros [Hs Ht] H1 H2. inversion H1 as [? ? ? ? ? ? ? E1|? ? ? ? ? ? ? E1]; inversion H2 as [? ? ? ? ? ? ? E2|? ? ? ? ? ? ? E2];
    simplify_eq; simpl in *; [by eexists| | |by eexists].
  - destruct (sess_step_stable _ _ out0 _ _ _ Hs E1) as [_ E1']. destruct (sess_step_stable _ _ out _ _ _ Ht E2) as [_ E2'].
    eexists (mk_Link _ _ _ _); split; apply rtc_once; [apply step_right, E2'|apply step_left, E1'].
  - destruct (sess_step_stable _ _ out0 _ _ _ Ht E1) as [_ E1']. destruct (sess_step_stable _ _ out _ _ _ Hs E2) as [_ E2'].
    eexists (mk_Link _ _ _ _); split; apply rtc_once; [apply step_left, E2'|apply step_right, E1'].
Qed.

(** What a session can become in a step. *)
Definition sess_next {T} (s' s : Session T) : Prop := ∃ inp rest out, sess_step s inp = Some (s', rest, out).

Lemma sess_next_wf {T} : well_founded (@sess_next T).
Proof.
  assert (Hp : Acc sess_next (SPanic (A := T))) by (constructor; by intros s (?&?&?&?)).
  intros s. induction s as [a| |bs k IH|C r k IHk fail IHf]; [by constructor; intros s (?&?&?&?)|done| |];
    constructor; intros s' (inp&rest&out&Hs); simpl in Hs; [by simplify_eq|].
  destruct (r false inp); simplify_eq; done.
Qed.

(** Every order of steps ends. *)
Lemma link_terminates l : sn link_step l.
Proof.
  destruct l as [s t il ir]. revert t il ir. induction s as [s IHs] using (well_founded_induction sess_next_wf).
  intros t. induction t as [t IHt] using (well_founded_induction sess_next_wf). intros il ir.
  constructor. intros l' Hstep. inversion Hstep; subst; [apply IHs|apply IHt]; by repeat eexists.
Qed.

(** If one order of steps leads to a final state, every order does. *)
Lemma link_determined l l' f :
  link_stable l → rtc link_step l f → nf link_step f → rtc link_step l l' → rtc link_step l' f.
Proof.
  intros Hst Hf Hnf Hl'. pose proof (link_terminates l) as Hsn. revert l' Hl' Hf.
  induction Hsn as [l _ IH]. intros l' Hl' Hf. inversion Hl' as [|? l1 ? Hs1 Hr1]; subst; [done|].
  inversion Hf as [|? l2 ? Hs2 Hr2]; subst; [destruct Hnf; by eexists|].
  destruct (link_locally_confluent _ _ _ Hst Hs1 Hs2) as (m&Hm1&Hm2).
  assert (Hmf : rtc link_step m f) by (by eapply (IH l2); [done|eapply link_stable_step|..]).
  eapply (IH l1); [done|by eapply link_stable_step|done|]. by etrans.
Qed.

(** Both sides have returned. *)
Lemma link_returned_nf a b il ir : nf link_step (mk_Link (SRet a) (SRet b) il ir).
Proof. intros [l' H]. inversion H; by subst. Qed.

(** The link of two honest sessions ends with these results, in every order. *)
Definition link_returns (s : Session A) (t : Session B) (a : A) (b : B) (to_left to_right : bytes) : Prop :=
  sn link_step (link_start s t) ∧
  ∀ l, rtc link_step (link_start s t) l → rtc link_step l (mk_Link (SRet a) (SRet b) to_left to_right).

Lemma link_returns_intro s t a b il ir :
  stable_session s → stable_session t → rtc link_step (link_start s t) (mk_Link (SRet a) (SRet b) il ir) →
  link_returns s t a b il ir.
Proof.
  intros Hs Ht Hrun. split; [apply link_terminates|]. intros l Hl.
  by eapply link_determined; [|done|apply link_returned_nf|].
Qed.

(** *** Composing runs *)

Lemma link_send bs k t il ir l :
  rtc link_step (mk_Link k t il (ir ++ bs)) l → rtc link_step (mk_Link (SSend bs k) t il ir) l.
Proof. intros Hl. eapply rtc_l; [by apply step_left|done]. Qed.

Lemma link_recv {C} (r : Reader C) k fail t c il il' ir l :
  r false il = Done c il' → rtc link_step (mk_Link (k c) t il' ir) l → rtc link_step (mk_Link (SRecv r k fail) t il ir) l.
Proof.
  intros Hr Hl. eapply rtc_l; [apply (step_left _ (k c) _ _ il' _ []); simpl; by rewrite Hr|]. by rewrite app_nil_r.
Qed.

End link.
#[global] Arguments Link : clear implicits.

(** The two sides can be exchanged. *)
Lemma link_swap {A B} (s s' : Session A) (t t' : Session B) il ir il' ir' :
  rtc link_step (mk_Link t s ir il) (mk_Link t' s' ir' il') → rtc link_step (mk_Link s t il ir) (mk_Link s' t' il' ir').
Proof.
  set (swap := λ l : Link B A, mk_Link (l_right l) (l_left l) (l_to_right l) (l_to_left l)).
  intros H. refine (rtc_congruence swap link_step _ _ _ H).
  intros x y Hxy. inversion Hxy; subst; cbn; [by apply step_right|by apply step_left].
Qed.

Lemma sess_step_bind {T T'} (u : Session T) (h : T → Session T') inp u' rest out :
  sess_step u inp = Some (u', rest, out) → sess_step (sess_bind u h) inp = Some (sess_bind u' h, rest, out).
Proof.
  destruct u as [a| |bs k|C r k fail]; cbn; try done; [by intros [= <- <- <-]|].
  destruct (r false inp); intros; by simplify_eq.
Qed.

(** The first parts of two sessions run as the sessions do. *)
Lemma link_bind {A B A' B'} (s s' : Session A) (t t' : Session B) (f : A → Session A') (g : B → Session B') il ir il' ir' :
  rtc link_step (mk_Link s t il ir) (mk_Link s' t' il' ir') →
  rtc link_step (mk_Link (sess_bind s f) (sess_bind t g) il ir) (mk_Link (sess_bind s' f) (sess_bind t' g) il' ir').
Proof.
  set (lift := λ l : Link A B, mk_Link (sess_bind (l_left l) f) (sess_bind (l_right l) g) (l_to_left l) (l_to_right l)).
  intros H. refine (rtc_congruence lift link_step _ _ _ H).
  intros x y Hxy. inversion Hxy; subst; cbn; [apply step_left|apply step_right]; by apply sess_step_bind.
Qed.
Lemma link_bind_right {A B B'} (s s' : Session A) (t t' : Session B) (g : B → Session B') il ir il' ir' :
  rtc link_step (mk_Link s t il ir) (mk_Link s' t' il' ir') →
  rtc link_step (mk_Link s (sess_bind t g) il ir) (mk_Link s' (sess_bind t' g) il' ir').
Proof.
  set (lift := λ l : Link A B, mk_Link (l_left l) (sess_bind (l_right l) g) (l_to_left l) (l_to_right l)).
  intros H. refine (rtc_congruence lift link_step _ _ _ H).
  intros x y Hxy. inversion Hxy; subst; cbn; [by apply step_left|]. by apply step_right, sess_step_bind.
Qed.

Lemma link_try_ok {E F A B A' B'} (s : Session (result E A)) (t : Session (result F B))
    (f : A → Session (result E A')) (g : B → Session (result F B')) a b il ir l :
  rtc link_step (link_start s t) (mk_Link (SRet (Ok a)) (SRet (Ok b)) il ir) →
  rtc link_step (mk_Link (f a) (g b) il ir) l → rtc link_step (link_start (sess_try s f) (sess_try t g)) l.
Proof. intros H1 H2. etrans; [by apply (link_bind _ _ _ _ _ _ _ _ _ _ H1)|done]. Qed.

(** *** Steps of the operations that the handshakes are composed of

    They are stated for the left side; [link_swap] gives those of the right side. *)

Section link_ops.
Context {E X Y C : Type} (f : IoErrorKind → E).
Implicit Types (l : Link (result E X) Y).

Lemma link_write w bs (k : unit → Session (result E X)) t il ir l :
  w = (bs, Ok ()) → rtc link_step (mk_Link (k ()) t il (ir ++ bs)) l →
  rtc link_step (mk_Link (sess_try (sess_map_err f (s_write w)) k) t il ir) l.
Proof. intros ->. apply link_send. Qed.

Lemma link_read (r : Reader C) c (k : C → Session (result E X)) t il il' ir l :
  r false il = Done c il' → rtc link_step (mk_Link (k c) t il' ir) l →
  rtc link_step (mk_Link (sess_try (sess_map_err f (s_read r)) k) t il ir) l.
Proof. intros Hr Hl. by eapply link_recv. Qed.

Lemma link_ok (r : result E C) c (k : C → Session (result E X)) t il ir l :
  r = Ok c → rtc link_step (mk_Link (k c) t il ir) l → rtc link_step (mk_Link (sess_try (sess_result r) k) t il ir) l.
Proof. by intros ->. Qed.

Lemma link_value (o : option (result E C)) c (k : C → Session (result E X)) t il ir l :
  o = Some (Ok c) → rtc link_step (mk_Link (k c) t il ir) l → rtc link_step (mk_Link (sess_try (s_value o) k) t il ir) l.
Proof. by intros ->. Qed.
End link_ops.

(** ** The socket, one poll at a time *)

Inductive Poll (A : Type) := Ready (a : A) | PollPending.
Arguments Ready {A} a.
Arguments PollPending {A}.

(** The bytes that have arrived, and whether the stream ends after them. *)
Record Incoming := mk_Incoming { in_bytes : bytes; in_eof : bool; in_round : nat }.
(** The bytes that have been written. *)
Record Outgoing := mk_Outgoing { out_bytes : bytes; out_round : nat }.

Section sockets.
(** The [i]-th read of the socket is offered [chunks i] bytes, and at least one.  The
    [i]-th write accepts [accepts i] bytes; [None] is [Poll::Pending]. *)
Variables (chunks : nat → nat) (accepts : nat → option nat).

(** [poll_read] into a buffer of [n] bytes. *)
Definition sock_poll_read (io : Incoming) (n : nat) : Poll bytes * Incoming :=
  match in_bytes io with
  | [] => if in_eof io then (Ready [], io) else (PollPending, io)
  | bs =>
      let k := min n (max 1 (chunks (in_round io))) in
      (Ready (take k bs), mk_Incoming (drop k bs) (in_eof io) (S (in_round io)))
  end.

Definition sock_poll_write (io : Outgoing) (buf : bytes) : Poll nat * Outgoing :=
  match accepts (out_round io) with
  | None => (PollPending, mk_Outgoing (out_bytes io) (S (out_round io)))
  | Some k =>
      let k := min k (length buf) in
      (Ready k, mk_Outgoing (out_bytes io ++ take k buf) (S (out_round io)))
  end.

(** A read of the socket takes a nonempty piece from the front, or nothing has arrived. *)
Lemma sock_poll_read_spec io n :
  0 < n →
  (in_bytes io = [] ∧ sock_poll_read io n = (if in_eof io then Ready [] else PollPending, io)) ∨
  ∃ data io', sock_poll_read io n = (Ready data, io') ∧ data ≠ [] ∧ length data ≤ n ∧
    in_bytes io = data ++ in_bytes io' ∧ in_eof io' = in_eof io.
Proof.
  intros Hn. destruct io as [bs eof i]. unfold sock_poll_read. simpl. destruct bs as [|b bs].
  { left. split; [done|]. by destruct eof. }
  right. set (k := min n (max 1 (chunks i))). assert (Hk : 0 < k ≤ n) by lia.
  eexists (take k (b :: bs)), _. split; [done|]. simpl. split; [by destruct k; [lia|]|].
  split; [rewrite length_take; lia|]. by rewrite take_drop.
Qed.

(** A write of the socket takes a prefix of the buffer. *)
Lemma sock_poll_write_spec io buf :
  match sock_poll_write io buf with
  | (PollPending, io') => out_bytes io' = out_bytes io
  | (Ready n, io') => n ≤ length buf ∧ out_bytes io' = out_bytes io ++ take n buf
  end.
Proof. unfold sock_poll_write. destruct (accepts (out_round io)); [|done]. cbn. split; [lia|done]. Qed.
End sockets.

(** ** A small identity, for the examples of the handshakes

    A key is a byte, and a signature the key and the message. *)

Definition toy_peer_id : PeerIdType Init.Byte.byte := {|
  pid_to_bytes := λ p, [Byte.x00; Byte.x01; p];
  pid_from_bytes b := match b with [_; _; p] => Some p | _ => None end
|}.

Lemma toy_peer_id_laws : @PeerIdLaws Init.Byte.byte toy_peer_id.
Proof. by split. Qed.

Definition toy_node : @NodeIdentity Init.Byte.byte toy_peer_id := {|
  ni_keypair := Init.Byte.byte;
  ni_pubkey := Init.Byte.byte;
  ni_sign k m := Some (k :: m);
  ni_public k := k;
  ni_verify k m sig := bool_decide (sig = k :: m);
  ni_encode k := [k];
  ni_decode b := match b with [k] => Some k | _ => None end;
  ni_peer_id k := k
|}.

Lemma toy_node_laws : @NodeIdentityLaws Init.Byte.byte toy_peer_id toy_node.
Proof.
  split; try done; [|simpl; lia].
  intros s m sig [= <-]. simpl. by apply bool_decide_eq_true_2.
Qed.
