(* ===== verification/Plaintext.v ===== *)
(** * Plaintext: [protocols/plaintext/src/lib.rs] and [handshake/handshake_plaintext.rs]

    The security protocol without security: both sides send their peer id and
    public key in an [Exchange] message and check that the two belong together.
    The protobuf codec of [Exchange] is a parameter, the keys are the interface
    [NodeIdentity].  [secure_stream.rs] is not part of the build: after the
    handshake the socket is used as it is. *)

From Stdlib Require Import ZArith Lia.
From stdpp Require Import relations.
From S2P Require Import Prelude KadKey KadProto Varint Framing Identity Session.

(** The codec of [structs.proto]. *)
Record PtExchange := mk_PtExchange { px_id : option bytes; px_pubkey : option bytes }.

Class PtCodec := {
  pt_encode : PtExchange → bytes;
  pt_decode : bytes → option PtExchange
}.
Class PtCodecLaws `{PtCodec} : Prop := pt_decode_encode : ∀ x, pt_decode (pt_encode x) = Some x.

Inductive PlaintextError :=
  | PtIoError (e : IoErrorKind)
  | PtEmptyPublicKey
  | PtConnectSelf
  | PtHandshakeParsingFailure
  | PtMismatchedIDANDPubKey.

Section plaintext.
Context {PeerId : Type} `{NodeIdentity PeerId} `{PtCodec}.
(** How the socket splits what is read and written. *)
Variables (chunks accepts : nat → nat).

Definition PT_MAX_FRAME_SIZE : Z := 1024 * 1024 * 8.

Record PlainTextConfig := mk_PlainTextConfig { pt_key : ni_keypair; pt_max_frame_length : Z }.
Definition PlainTextConfig_new (key : ni_keypair) : PlainTextConfig := mk_PlainTextConfig key PT_MAX_FRAME_SIZE.

Record PtRemote := mk_PtRemote { pr_peer_id : PeerId; pr_public_key : ni_pubkey }.

(** [HandshakeContext::<Local>::new]: the bytes of the local message. *)
Definition pt_local (config : PlainTextConfig) : bytes :=
  let public_key := ni_public (pt_key config) in
  pt_encode (mk_PtExchange (Some (to_bytes (ni_peer_id public_key))) (Some (ni_encode public_key))).

Definition pt_with_remote (exchange_bytes : bytes) : result PlaintextError PtRemote :=
  match pt_decode exchange_bytes with
  | None => Err PtHandshakeParsingFailure
  | Some prop =>
      match px_pubkey prop with
      | None => Err PtEmptyPublicKey
      | Some pubkey =>
          match ni_decode pubkey with
          | None => Err PtHandshakeParsingFailure
          | Some public_key =>
              match pid_from_bytes (default [] (px_id prop)) with
              | None => Err PtHandshakeParsingFailure
              | Some peer_id =>
                  if bool_decide (peer_id ≠ ni_peer_id public_key) then Err PtMismatchedIDANDPubKey
                  else Ok (mk_PtRemote peer_id public_key)
              end
          end
      end
  end.

Definition pt_handshake (config : PlainTextConfig) : Session (result PlaintextError PtRemote) :=
  await? _ := sess_map_err PtIoError (s_write (write_one_fixed accepts (pt_local config))) in
  await? buf := sess_map_err PtIoError (s_read (read_one_fixed chunks (pt_max_frame_length config))) in
  match pt_with_remote buf with
  | Err e => SRet (Err e)
  | Ok remote =>
      let local_id := ni_peer_id (ni_public (pt_key config)) in
      if bool_decide (ni_peer_id (pr_public_key remote) = local_id) then SRet (Err PtConnectSelf)
      else SRet (Ok remote)
  end.

Record PlainTextOutput := mk_PlainTextOutput {
  po_local_priv_key : ni_keypair;
  po_local_peer_id : PeerId;
  po_remote_pub_key : ni_pubkey;
  po_remote_peer_id : PeerId
}.

Definition pt_make_secure_output (config : PlainTextConfig) : Session (result PlaintextError PlainTextOutput) :=
  await? remote := pt_handshake config in
  SRet (Ok (mk_PlainTextOutput (pt_key config) (ni_peer_id (ni_public (pt_key config)))
              (pr_public_key remote) (pr_peer_id remote))).
End plaintext.
#[global] Arguments PlainTextConfig {PeerId _ _}.
#[global] Arguments PtRemote {PeerId _ _}.
#[global] Arguments PlainTextOutput {PeerId _ _}.

Section plaintext_properties.
Context {PeerId : Type} `{NodeIdentity PeerId} `{!PeerIdLaws PeerId} `{!NodeIdentityLaws PeerId} `{PtCodecLaws}.
Implicit Types (c : PlainTextConfig (PeerId := PeerId)).

(** The output of a node with key [k] connected to one with key [k']. *)
Definition pt_output (k k' : ni_keypair) : PlainTextOutput :=
  mk_PlainTextOutput k (ni_peer_id (ni_public k)) (ni_public k') (ni_peer_id (ni_public k')).

Lemma pt_with_remote_local c :
  pt_with_remote (pt_local c) = Ok (mk_PtRemote (ni_peer_id (ni_public (pt_key c))) (ni_public (pt_key c))).
Proof.
  unfold pt_with_remote, pt_local. rewrite pt_decode_encode. simpl. rewrite ni_decode_encode, pid_from_to.
  by rewrite bool_decide_false by (by intros []).
Qed.

Lemma pt_with_remote_ok buf r : pt_with_remote buf = Ok r → pr_peer_id r = ni_peer_id (pr_public_key r).
Proof.
  unfold pt_with_remote. destruct (pt_decode buf) as [prop|]; [|done]. destruct (px_pubkey prop) as [k|]; [|done].
  destruct (ni_decode k) as [pk|]; [|done]. destruct (pid_from_bytes _) as [p|]; [|done].
  case_bool_decide as Hp; [done|]. intros [= <-]. simpl. by destruct (decide (p = ni_peer_id pk)).
Qed.

Lemma stable_pt_handshake chunks accepts c : stable_session (pt_make_secure_output chunks accepts c).
Proof.
  unfold pt_make_secure_output, pt_handshake. apply stable_sess_try; [|done].
  apply stable_sess_try; [auto with lp2p|]. intros _. apply stable_sess_try; [auto with lp2p|]. intros buf.
  repeat case_match; done.
Qed.

(** Two nodes with different peer ids complete the handshake in every order of
    their reads and writes, each with the key and the peer id of the other, and
    leave no byte unread. *)
Theorem plaintext_completes ca cb chunks1 chunks2 accepts1 accepts2
    (Hacc1 : ∀ j, 0 < accepts1 j) (Hacc2 : ∀ j, 0 < accepts2 j)
    (Hne : ni_peer_id (ni_public (pt_key ca)) ≠ ni_peer_id (ni_public (pt_key cb)))
    (Hla : (Z.of_nat (length (pt_local ca)) ≤ pt_max_frame_length cb < 2 ^ 32)%Z)
    (Hlb : (Z.of_nat (length (pt_local cb)) ≤ pt_max_frame_length ca < 2 ^ 32)%Z) :
  link_returns (pt_make_secure_output chunks1 accepts1 ca) (pt_make_secure_output chunks2 accepts2 cb)
    (Ok (pt_output (pt_key ca) (pt_key cb))) (Ok (pt_output (pt_key cb) (pt_key ca))) [] [].
Proof.
  apply link_returns_intro; [apply stable_pt_handshake..|].
  destruct (written_read_one_fixed chunks2 accepts1 (pt_local ca) (pt_max_frame_length cb) false) as (wa&Ewa&_&Hra&_); [done|lia..|].
  destruct (written_read_one_fixed chunks1 accepts2 (pt_local cb) (pt_max_frame_length ca) false) as (wb&Ewb&_&Hrb&_); [done|lia..|].
  specialize (Hra []). specialize (Hrb []). rewrite app_nil_r in Hra, Hrb.
  set (remote k := mk_PtRemote (ni_peer_id (ni_public k)) (ni_public k)).
  apply (link_try_ok _ _ _ _ (remote (pt_key cb)) (remote (pt_key ca)) [] []); [|done].
  unfold link_start, pt_handshake. eapply link_write; [exact Ewa|]. apply link_swap.
  eapply link_write; [exact Ewb|]. eapply link_read; [exact Hra|]. apply link_swap. eapply link_read; [exact Hrb|].
  rewrite !pt_with_remote_local. cbn [pr_public_key]. by rewrite !bool_decide_false by congruence.
Qed.

(** Whatever arrives, a handshake that succeeds yields a peer id that is the one of
    the key received, and not the local one. *)
Lemma plaintext_identity c chunks accepts eof inp sent o rest :
  session_run (pt_make_secure_output chunks accepts c) eof inp = (sent, Returned (Ok o) rest) →
  po_remote_peer_id o = ni_peer_id (po_remote_pub_key o) ∧
  po_local_peer_id o = ni_peer_id (ni_public (pt_key c)) ∧ po_remote_peer_id o ≠ po_local_peer_id o.
Proof.
  intros Hrun. unfold pt_make_secure_output, pt_handshake in Hrun. run_inv Hrun.
  destruct (pt_with_remote x5) as [r|e] eqn:Hr; [|done]. apply pt_with_remote_ok in Hr.
  case_bool_decide as Hne; [done|]. simpl in *. simplify_eq. simpl. by rewrite Hr.
Qed.
End plaintext_properties.

(** ** Example *)

#[local] Existing Instances toy_peer_id toy_peer_id_laws toy_node toy_node_laws.

#[local] Instance toy_pt_eq : EqDecision PtExchange.
Proof. solve_decision. Defined.
#[local] Instance toy_pt_countable : Countable PtExchange.
Proof. refine (inj_countable' (λ x, (px_id x, px_pubkey x)) (λ x, mk_PtExchange x.1 x.2) _). by intros []. Defined.
#[local] Instance toy_pt_codec : PtCodec := {| pt_encode x := bits_of (encode x); pt_decode b := decode (of_bits b) |}.
#[local] Instance toy_pt_codec_laws : PtCodecLaws.
Proof. intros x. simpl. by rewrite of_bits_of, decode_encode. Qed.

Definition plain_alice : PlainTextConfig := PlainTextConfig_new (Byte.x0a : ni_keypair).
Definition plain_bob : PlainTextConfig := PlainTextConfig_new (Byte.x0b : ni_keypair).

Lemma plaintext_completes_witness :
  link_returns (pt_make_secure_output (λ _, 1) (λ _, 2) plain_alice) (pt_make_secure_output (λ _, 3) (λ _, 4) plain_bob)
    (Ok (pt_output (Byte.x0a : ni_keypair) (Byte.x0b : ni_keypair))) (Ok (pt_output (Byte.x0b : ni_keypair) (Byte.x0a : ni_keypair))) [] [].
Proof.
  apply (plaintext_completes plain_alice plain_bob (λ _, 1) (λ _, 3) (λ _, 2) (λ _, 4)); [intros; cbn; lia..|done| |];
    split; vm_compute; congruence.
Defined.
