(* ===== verification/Secio.v ===== *)
(** * Secio: [protocols/secio/src/]

    The key exchange and the encrypted stream of secio: the algorithms and their
    negotiation ([support.rs], [exchange.rs], [crypto/]), the handshake
    ([handshake/procedure.rs], [handshake/handshake_context.rs]) and the frames of
    the stream ([codec/secure_stream.rs], [codec/mod.rs]).

    The primitives (the crates [ring] and [aes]) and the protobuf codec of
    [structs.proto] are parameters with the laws they document; the keys of a node
    are the interface [NodeIdentity].  The theorems show that two nodes complete
    the handshake in every order of their reads and writes and agree on the
    algorithms and keys, that a handshake that succeeds has authenticated the
    remote key whatever arrived, and that the stream delivers what was written. *)

From Stdlib Require Import ZArith Lia String.
From stdpp Require Import relations.
From S2P Require Import Prelude KadKey KadProto StdText Varint Framing Identity Session.

Local Open Scope nat_scope.

(** ** Algorithms: [exchange.rs], [crypto/cipher.rs], [lib.rs] *)

Inductive KeyAgreement := EcdhP256 | EcdhP384.
Inductive CipherType := Aes128Ctr | Aes128Gcm | Aes256Gcm | ChaCha20Poly1305.
Inductive Digest := Sha256 | Sha512.

#[global] Instance KeyAgreement_eq_dec : EqDecision KeyAgreement.
Proof. solve_decision. Defined.
#[global] Instance CipherType_eq_dec : EqDecision CipherType.
Proof. solve_decision. Defined.
#[global] Instance Digest_eq_dec : EqDecision Digest.
Proof. solve_decision. Defined.

Definition digest_num_bytes (d : Digest) : nat := match d with Sha256 => 256 / 8 | Sha512 => 512 / 8 end.

Definition CTR128LEN : nat := 16.

(** The AEAD algorithms of [ring], with the lengths of their keys, nonces and tags. *)
Inductive AeadAlgorithm := AES_128_GCM | AES_256_GCM | CHACHA20_POLY1305.
Definition aead_key_len (a : AeadAlgorithm) : nat :=
  match a with AES_128_GCM => 16 | AES_256_GCM => 32 | CHACHA20_POLY1305 => 32 end.
Definition aead_nonce_len (a : AeadAlgorithm) : nat := 12.
Definition aead_tag_len (a : AeadAlgorithm) : nat := 16.

Definition key_size (t : CipherType) : nat :=
  match t with
  | Aes128Ctr => CTR128LEN
  | Aes128Gcm => aead_key_len AES_128_GCM
  | Aes256Gcm => aead_key_len AES_256_GCM
  | ChaCha20Poly1305 => aead_key_len CHACHA20_POLY1305
  end.
Definition iv_size (t : CipherType) : nat :=
  match t with
  | Aes128Ctr => CTR128LEN
  | Aes128Gcm => aead_nonce_len AES_128_GCM
  | Aes256Gcm => aead_nonce_len AES_256_GCM
  | ChaCha20Poly1305 => aead_nonce_len CHACHA20_POLY1305
  end.
Definition tag_size (t : CipherType) : nat :=
  match t with
  | Aes128Ctr => 0
  | Aes128Gcm => aead_tag_len AES_128_GCM
  | Aes256Gcm => aead_tag_len AES_256_GCM
  | ChaCha20Poly1305 => aead_tag_len CHACHA20_POLY1305
  end.

Inductive SecioError :=
  | ScIoError (e : IoErrorKind)
  | ScRingCryptoError
  | ScEphemeralKeyGenerationFailed
  | ScSecretGenerationFailed
  | ScNoSupportIntersection
  | ScNonceVerificationFailed
  | ScFrameTooShort
  | ScHmacNotMatching
  | ScConnectSelf
  | ScHandshakeParsingFailure
  | ScSignatureVerificationFailed
  | ScInvalidMessage
  | ScInvalidProposition.

(** ** Parameters *)

(** The primitives of [ring] and [aes].  [agr_rng] stands for the state of the random
    number generator of the system. *)
Class SecioCrypto := {
  ring_sha256 : bytes → bytes;
  hmac_tag : Digest → bytes → bytes → bytes;
  hmac_verify : Digest → bytes → bytes → bytes → bool;
  agr_private : Type;
  agr_rng : Type;
  agr_generate : KeyAgreement → agr_rng → option agr_private;
  agr_public : agr_private → option bytes;
  agr_agree : KeyAgreement → agr_private → bytes → option bytes;
  ctr_state : Type;
  ctr_new : bytes → bytes → ctr_state;
  ctr_apply : ctr_state → bytes → bytes * ctr_state;
  aead_seal : AeadAlgorithm → bytes → bytes → bytes → option bytes;
  aead_open : AeadAlgorithm → bytes → bytes → bytes → option bytes
}.

(** The largest plaintext that every AEAD algorithm accepts. *)
Definition AEAD_MAX_IN : Z := 2 ^ 36 - 32.

Class SecioCryptoLaws `{SecioCrypto} : Prop := {
  hmac_tag_length d k m : length (hmac_tag d k m) = digest_num_bytes d;
  hmac_verify_spec d k m t : hmac_verify d k m t = bool_decide (t = hmac_tag d k m);
  agr_shared a r1 r2 p1 p2 q1 q2 :
    agr_generate a r1 = Some p1 → agr_generate a r2 = Some p2 → agr_public p1 = Some q1 → agr_public p2 = Some q2 →
    ∃ s, agr_agree a p1 q2 = Some s ∧ agr_agree a p2 q1 = Some s;
  ctr_length s x : length (ctr_apply s x).1 = length x;
  ctr_involutive s x : ctr_apply s (ctr_apply s x).1 = (x, (ctr_apply s x).2);
  aead_seal_ok a k n m :
    length k = aead_key_len a → length n = aead_nonce_len a → (Z.of_nat (length m) ≤ AEAD_MAX_IN)%Z →
    ∃ c, aead_seal a k n m = Some c ∧ length c = length m + aead_tag_len a ∧ aead_open a k n c = Some m;
  aead_open_length a k n c m : aead_open a k n c = Some m → length c = length m + aead_tag_len a
}.

(** The codec of [structs.proto]. *)
Record Propose := mk_Propose { pp_rand : bytes; pp_pubkey : bytes; pp_exchanges : bytes; pp_ciphers : bytes; pp_hashes : bytes }.
Record ScExchange := mk_ScExchange { ex_epubkey : bytes; ex_signature : bytes }.

Class SecioCodec := {
  propose_encode : Propose → bytes;
  propose_decode : bytes → option Propose;
  exchange_encode : ScExchange → bytes;
  exchange_decode : bytes → option ScExchange
}.
Class SecioCodecLaws `{SecioCodec} : Prop := {
  propose_decode_encode p : propose_decode (propose_encode p) = Some p;
  exchange_decode_encode x : exchange_decode (exchange_encode x) = Some x
}.

(** ** Negotiation: [support.rs] *)

Definition ECDH_P256 : bytes := b_str "P-256".
Definition ECDH_P384 : bytes := b_str "P-384".
Definition AES_128 : bytes := b_str "AES-128".
Definition AES_128_CTR : bytes := b_str "AES-128-CTR".
Definition AES_128_GCM_NAME : bytes := b_str "AES-128-GCM".
Definition AES_256_GCM_NAME : bytes := b_str "AES-256-GCM".
Definition CHACHA20_POLY1305_NAME : bytes := b_str "CHACHA20_POLY1305".
Definition SHA_256 : bytes := b_str "SHA256".
Definition SHA_512 : bytes := b_str "SHA512".

Definition DEFAULT_AGREEMENTS_PROPOSITION : bytes := b_str "P-256,P-384".
Definition DEFAULT_CIPHERS_PROPOSITION : bytes := b_str "AES-128,AES-128-CTR,AES-128-GCM,AES-256-GCM,CHACHA20_POLY1305".
Definition DEFAULT_DIGESTS_PROPOSITION : bytes := b_str "SHA256,SHA512".

Definition comma : u8 := Byte.x2c.

(** The names, each followed by a comma, and [s.pop()] at the end. *)
Definition proposition {T} (name : T → bytes) (l : list T) : bytes :=
  let s := foldl (λ s x, s ++ name x ++ [comma]) [] l in take (length s - 1) s.

Definition agreement_name (x : KeyAgreement) : bytes := match x with EcdhP256 => ECDH_P256 | EcdhP384 => ECDH_P384 end.
Definition key_agreements_proposition : list KeyAgreement → bytes := proposition agreement_name.

Definition cipher_name (c : CipherType) : bytes :=
  match c with
  | Aes128Ctr => AES_128_CTR
  | Aes128Gcm => AES_128_GCM_NAME
  | Aes256Gcm => AES_256_GCM_NAME
  | ChaCha20Poly1305 => CHACHA20_POLY1305_NAME
  end.
Definition ciphers_proposition : list CipherType → bytes := proposition cipher_name.

Definition digest_name (d : Digest) : bytes := match d with Sha256 => SHA_256 | Sha512 => SHA_512 end.
Definition digests_proposition : list Digest → bytes := proposition digest_name.

(** The loop the three functions share: the first name of the preferred side that the
    other side has too and that is known. *)
Fixpoint select_loop {T} (parse : bytes → option T) (xs ys : list bytes) : result SecioError T :=
  match xs with
  | [] => Err ScNoSupportIntersection
  | x :: xs =>
      if bool_decide (x ∈ ys) then
        match parse x with
        | Some t => Ok t
        | None => select_loop parse xs ys
        end
      else select_loop parse xs ys
  end.

Definition select {T} (parse : bytes → option T) (r : comparison) (ours theirs : bytes) : result SecioError T :=
  let ab := match r with Lt | Eq => (theirs, ours) | Gt => (ours, theirs) end in
  select_loop parse (split_char comma ab.1) (split_char comma ab.2).

Definition agreement_of (x : bytes) : option KeyAgreement :=
  if bool_decide (x = ECDH_P256) then Some EcdhP256
  else if bool_decide (x = ECDH_P384) then Some EcdhP384 else None.
Definition select_agreement : comparison → bytes → bytes → result SecioError KeyAgreement := select agreement_of.

Definition digest_of (x : bytes) : option Digest :=
  if bool_decide (x = SHA_256) then Some Sha256 else if bool_decide (x = SHA_512) then Some Sha512 else None.
Definition select_digest : comparison → bytes → bytes → result SecioError Digest := select digest_of.

Definition cipher_of (x : bytes) : option CipherType :=
  if bool_decide (x = AES_128) || bool_decide (x = AES_128_CTR) then Some Aes128Ctr
  else if bool_decide (x = AES_128_GCM_NAME) then Some Aes128Gcm
  else if bool_decide (x = AES_256_GCM_NAME) then Some Aes256Gcm
  else if bool_decide (x = CHACHA20_POLY1305_NAME) then Some ChaCha20Poly1305 else None.
Definition select_cipher : comparison → bytes → bytes → result SecioError CipherType := select cipher_of.

(** [Ord::cmp] of byte slices: lexicographic. *)
Fixpoint slice_cmp (a b : bytes) : comparison :=
  match a, b with
  | [], [] => Eq
  | [], _ :: _ => Lt
  | _ :: _, [] => Gt
  | x :: a, y :: b =>
      match (byte.unsigned x ?= byte.unsigned y)%Z with
      | Eq => slice_cmp a b
      | c => c
      end
  end.

(** ** Ciphers: [crypto/mod.rs], [crypto/ring_impl.rs], [crypto/ctr_impl.rs] *)

Inductive CryptoMode := ModeEncrypt | ModeDecrypt.

(** A little-endian counter. *)
Fixpoint nonce_advance (nonce : bytes) : bytes :=
  match nonce with
  | [] => []
  | i :: nonce =>
      if bool_decide (byte.unsigned i = 255%Z) then Byte.x00 :: nonce_advance nonce
      else byte.of_Z (byte.unsigned i + 1) :: nonce
  end.

Section ciphers.
Context `{SecioCrypto}.

Inductive Cipher :=
  | CTRCipher (cipher : ctr_state)
  | RingSeal (alg : AeadAlgorithm) (key nonce : bytes) (cipher_type : CipherType)
  | RingOpen (alg : AeadAlgorithm) (key nonce : bytes) (cipher_type : CipherType).

(** [GenericArray::from_slice] panics on a slice of another length. *)
Definition CTRCipher_new (key iv : bytes) : option Cipher :=
  if bool_decide (length iv = CTR128LEN) && bool_decide (length key = CTR128LEN) then Some (CTRCipher (ctr_new key iv))
  else None.

(** [UnboundKey::new] refuses a key of another length, and the result is unwrapped. *)
Definition RingAeadCipher_new (t : CipherType) (key : bytes) (mode : CryptoMode) : option Cipher :=
  let nonce := replicate (iv_size t) Byte.x00 in
  algorithm ← match t with
              | Aes128Gcm => Some AES_128_GCM
              | Aes256Gcm => Some AES_256_GCM
              | ChaCha20Poly1305 => Some CHACHA20_POLY1305
              | Aes128Ctr => None
              end;
  if bool_decide (length key = aead_key_len algorithm) then
    Some (match mode with
          | ModeEncrypt => RingSeal algorithm key nonce t
          | ModeDecrypt => RingOpen algorithm key nonce t
          end)
  else None.

Definition new_stream (t : CipherType) (key iv : bytes) (mode : CryptoMode) : option Cipher :=
  match t with
  | Aes128Ctr => CTRCipher_new key iv
  | Aes128Gcm | Aes256Gcm | ChaCha20Poly1305 => RingAeadCipher_new t key mode
  end.

(** The result and the cipher afterwards; [None] is the [unreachable!] of the wrong
    mode. *)
Definition encrypt (c : Cipher) (input : bytes) : option (result SecioError bytes * Cipher) :=
  match c with
  | CTRCipher s => let r := ctr_apply s input in Some (Ok r.1, CTRCipher r.2)
  | RingSeal a k n t =>
      let n := nonce_advance n in
      Some (ok_or ScRingCryptoError (aead_seal a k n input), RingSeal a k n t)
  | RingOpen _ _ _ _ => None
  end.

Definition decrypt (c : Cipher) (input : bytes) : option (result SecioError bytes * Cipher) :=
  match c with
  | CTRCipher s => let r := ctr_apply s input in Some (Ok r.1, CTRCipher r.2)
  | RingOpen a k n t =>
      if length input <? tag_size t then Some (Err ScFrameTooShort, c)
      else
        let output_len := length input - tag_size t in
        let n := nonce_advance n in
        match aead_open a k n input with
        | Some out => if bool_decide (length out = output_len) then Some (Ok out, RingOpen a k n t) else None
        | None => Some (Err ScRingCryptoError, RingOpen a k n t)
        end
  | RingSeal _ _ _ t => if length input <? tag_size t then Some (Err ScFrameTooShort, c) else None
  end.
End ciphers.

(** ** The encrypted stream: [codec/mod.rs] and [codec/secure_stream.rs] *)

Section streams.
Context `{SecioCrypto}.

Record Hmac := mk_Hmac { hm_algorithm : Digest; hm_key : bytes }.
Definition hmac_num_bytes (h : Hmac) : nat := digest_num_bytes (hm_algorithm h).
Definition Hmac_from_key (algorithm : Digest) (key : bytes) : Hmac := mk_Hmac algorithm key.
Definition hmac_sign (h : Hmac) (crypted_data : bytes) : bytes := hmac_tag (hm_algorithm h) (hm_key h) crypted_data.
Definition hmac_check (h : Hmac) (crypted_data expected_hash : bytes) : bool :=
  hmac_verify (hm_algorithm h) (hm_key h) crypted_data expected_hash.

(** [dc_item] is what is left of the current item; [dc_ended] tells that the stream of
    frames has returned [None], after which polling it again panics. *)
Record Decrypter := mk_Decrypter {
  dc_item : bytes;
  dc_ended : bool;
  dc_max_len : Z;
  dc_cipher : Cipher;
  dc_hmac : option Hmac
}.
Definition Decrypter_new (max_len : Z) (c : Cipher) (h : option Hmac) : Decrypter := mk_Decrypter [] false max_len c h.

(** The stream of frames that [Decrypter::new] unfolds; [None] is its end. *)
Definition next_frame (max_len : Z) : Reader (option bytes) := λ eof inp,
  match read_exact 4 eof inp with
  | Done len rest =>
      let n := be_combine len in
      if (max_len <? n)%Z then Failed OtherError
      else match read_exact (Z.to_nat n) eof rest with
           | Done v rest => Done (Some v) rest
           | Failed e => Failed e
           | Pending => Pending
           | Panicked => Panicked
           end
  | Failed UnexpectedEof => Done None []
  | Failed e => Failed e
  | Pending => Pending
  | Panicked => Panicked
  end.

(** What [poll_read] does with a frame. *)
Definition decode_frame (d : Decrypter) (frame : bytes) : option (result SecioError Decrypter) :=
  let check :=
    match dc_hmac d with
    | None => Ok frame
    | Some hmac =>
        if length frame <? hmac_num_bytes hmac then Err ScFrameTooShort
        else
          let content_length := length frame - hmac_num_bytes hmac in
          if hmac_check hmac (take content_length frame) (drop content_length frame)
          then Ok (take content_length frame)
          else Err ScHmacNotMatching
    end in
  match check with
  | Err e => Some (Err e)
  | Ok frame =>
      match decrypt (dc_cipher d) frame with
      | None => None
      | Some (Err e, _) => Some (Err e)
      | Some (Ok out, c) => Some (Ok (mk_Decrypter out false (dc_max_len d) c (dc_hmac d)))
      end
  end.

(** [poll_read] into a buffer of [n] bytes, with the decrypter afterwards. *)
Fixpoint decrypter_loop (fuel : nat) (d : Decrypter) (n : nat) : Reader (bytes * Decrypter) :=
  match dc_item d with
  | _ :: _ =>
      rd_ret (take n (dc_item d), mk_Decrypter (drop n (dc_item d)) (dc_ended d) (dc_max_len d) (dc_cipher d) (dc_hmac d))
  | [] =>
      if dc_ended d then rd_panic
      else
        match fuel with
        | 0 => λ _ _, Pending
        | S fuel =>
            rd_bind (next_frame (dc_max_len d)) (λ f,
              match f with
              | None => rd_ret ([], mk_Decrypter [] true (dc_max_len d) (dc_cipher d) (dc_hmac d))
              | Some frame =>
                  match decode_frame d frame with
                  | None => rd_panic
                  | Some (Err e) => rd_fail InvalidData
                  | Some (Ok d) => decrypter_loop fuel d n
                  end
              end)
        end
  end.
(** A frame has at least its four bytes of length, so [length inp] rounds are enough. *)
Definition decrypter_read (d : Decrypter) (n : nat) : Reader (bytes * Decrypter) := λ eof inp,
  decrypter_loop (S (length inp)) d n eof inp.

(** [AsyncReadExt::read_exact] on the stream. *)
Fixpoint decrypter_read_exact (fuel : nat) (d : Decrypter) (n : nat) : Reader (bytes * Decrypter) :=
  match n, fuel with
  | 0, _ => rd_ret ([], d)
  | S _, 0 => λ _ _, Pending
  | S _, S fuel =>
      rd_bind (decrypter_read d n) (λ x,
        match x.1 with
        | [] => rd_fail UnexpectedEof
        | _ => rd_bind (decrypter_read_exact fuel x.2 (n - length x.1)) (λ y, rd_ret (x.1 ++ y.1, y.2))
        end)
  end.

Record Encrypter := mk_Encrypter { ec_cipher : Cipher; ec_hmac : option Hmac; ec_max_len : Z }.

(** What the sink of [Encrypter::new] writes for an item; an item above [max_len] is
    only logged. *)
Definition sink_send (accepts : nat → nat) (data : bytes) : Written :=
  wr_seq (write_all2 accepts (be_split 4 (Z.of_nat (length data) mod 2 ^ 32))) (write_all2 accepts data).

(** [poll_write]: the item for the sink and the encrypter afterwards.  The whole buffer
    is always taken. *)
Definition encrypter_write (e : Encrypter) (buf : bytes) : option (result IoErrorKind bytes * Encrypter) :=
  match encrypt (ec_cipher e) buf with
  | None => None
  | Some (Err _, c) => Some (Err InvalidData, mk_Encrypter c (ec_hmac e) (ec_max_len e))
  | Some (Ok out, c) =>
      let out := match ec_hmac e with Some hmac => out ++ hmac_sign hmac out | None => out end in
      Some (Ok out, mk_Encrypter c (ec_hmac e) (ec_max_len e))
  end.

Record SecureStream := mk_SecureStream { ss_decrypter : Decrypter; ss_encrypter : Encrypter; ss_nonce : bytes }.

Definition SecureStream_new (max_frame_len : Z) (decode_cipher : Cipher) (decode_hmac : option Hmac)
    (encode_cipher : Cipher) (encode_hmac : option Hmac) (nonce : bytes) : SecureStream :=
  mk_SecureStream (Decrypter_new max_frame_len decode_cipher decode_hmac)
    (mk_Encrypter encode_cipher encode_hmac max_frame_len) nonce.

(** [write_all] and [flush]: nothing for an empty buffer, one frame otherwise. *)
Definition ss_write_all (accepts : nat → nat) (s : SecureStream) (buf : bytes) :
    Session (result IoErrorKind SecureStream) :=
  match buf with
  | [] => SRet (Ok s)
  | _ =>
      match encrypter_write (ss_encrypter s) buf with
      | None => SPanic
      | Some (Err e, _) => SRet (Err e)
      | Some (Ok item, enc) =>
          await? _ := s_write (sink_send accepts item) in
          SRet (Ok (mk_SecureStream (ss_decrypter s) enc (ss_nonce s)))
      end
  end.

Definition verify_nonce (s : SecureStream) : Session (result SecioError SecureStream) :=
  match ss_nonce s with
  | [] => SRet (Ok s)
  | _ =>
      let len := length (ss_nonce s) in
      await? x := sess_map_err ScIoError (s_read (decrypter_read_exact len (ss_decrypter s) len)) in
      let n := min (length x.1) (length (ss_nonce s)) in
      if bool_decide (take n x.1 ≠ take n (ss_nonce s)) then SRet (Err ScNonceVerificationFailed)
      else SRet (Ok (mk_SecureStream x.2 (ss_encrypter s) (drop n (ss_nonce s))))
  end.
End streams.

(** ** The handshake: [handshake_context.rs] and [procedure.rs] *)

Definition SECIO_MAX_FRAME_SIZE : Z := 1024 * 1024 * 8.

Section handshake.
Context {PeerId : Type} `{NodeIdentity PeerId} `{SecioCrypto} `{SecioCodec}.
(** How the socket splits what is read and written. *)
Variables (chunks accepts : nat → nat).

Record SecioConfig := mk_SecioConfig {
  sc_key : ni_keypair;
  sc_agreements_proposal : option bytes;
  sc_ciphers_proposal : option bytes;
  sc_digests_proposal : option bytes;
  sc_max_frame_length : Z
}.

Definition SecioConfig_new (key_pair : ni_keypair) : SecioConfig :=
  mk_SecioConfig key_pair None None None SECIO_MAX_FRAME_SIZE.
Definition sc_key_agreements (c : SecioConfig) (xs : list KeyAgreement) : SecioConfig :=
  mk_SecioConfig (sc_key c) (Some (key_agreements_proposition xs)) (sc_ciphers_proposal c) (sc_digests_proposal c)
    (sc_max_frame_length c).
Definition sc_ciphers (c : SecioConfig) (xs : list CipherType) : SecioConfig :=
  mk_SecioConfig (sc_key c) (sc_agreements_proposal c) (Some (ciphers_proposition xs)) (sc_digests_proposal c)
    (sc_max_frame_length c).
Definition sc_digests (c : SecioConfig) (xs : list Digest) : SecioConfig :=
  mk_SecioConfig (sc_key c) (sc_agreements_proposal c) (sc_ciphers_proposal c) (Some (digests_proposition xs))
    (sc_max_frame_length c).

Record ScLocal := mk_ScLocal { lo_nonce : bytes; lo_public_key : bytes; lo_proposition_bytes : bytes }.
Record ScRemote := mk_ScRemote {
  re_local : ScLocal;
  re_proposition_bytes : bytes;
  re_public_key : ni_pubkey;
  re_nonce : bytes;
  re_hashes_ordering : comparison;
  re_chosen_exchange : KeyAgreement;
  re_chosen_cipher : CipherType;
  re_chosen_hash : Digest
}.

Definition sc_exchanges (c : SecioConfig) : bytes := default DEFAULT_AGREEMENTS_PROPOSITION (sc_agreements_proposal c).
Definition sc_cipher_names (c : SecioConfig) : bytes := default DEFAULT_CIPHERS_PROPOSITION (sc_ciphers_proposal c).
Definition sc_hash_names (c : SecioConfig) : bytes := default DEFAULT_DIGESTS_PROPOSITION (sc_digests_proposal c).

(** [nonce] is what [rand::random] returned. *)
Definition with_local (c : SecioConfig) (nonce : bytes) : ScLocal :=
  let public_key := ni_public (sc_key c) in
  let local_proposition :=
    mk_Propose nonce (ni_encode public_key) (sc_exchanges c) (sc_cipher_names c) (sc_hash_names c) in
  mk_ScLocal nonce (ni_encode public_key) (propose_encode local_proposition).

Definition with_remote (c : SecioConfig) (local : ScLocal) (remote_bytes : bytes) : result SecioError ScRemote :=
  let? propose := ok_or ScHandshakeParsingFailure (propose_decode remote_bytes) in
  let nonce := pp_rand propose in
  let public_key := pp_pubkey propose in
  if bool_decide (public_key = lo_public_key local) then Err ScConnectSelf
  else
    let oh1 := ring_sha256 (public_key ++ lo_nonce local) in
    let oh2 := ring_sha256 (lo_public_key local ++ nonce) in
    let hashes_ordering := slice_cmp oh1 oh2 in
    let? chosen_exchange := select_agreement hashes_ordering (sc_exchanges c) (pp_exchanges propose) in
    let? chosen_cipher := select_cipher hashes_ordering (sc_cipher_names c) (pp_ciphers propose) in
    let? chosen_hash := select_digest hashes_ordering (sc_hash_names c) (pp_hashes propose) in
    let? public_key := ok_or ScHandshakeParsingFailure (ni_decode public_key) in
    Ok (mk_ScRemote local remote_bytes public_key nonce hashes_ordering chosen_exchange chosen_cipher chosen_hash).

Definition generate_agreement (algorithm : KeyAgreement) (rng : agr_rng) : result SecioError (agr_private * bytes) :=
  match agr_generate algorithm rng with
  | Some tmp_priv_key =>
      let? tmp_pub_key := ok_or ScEphemeralKeyGenerationFailed (agr_public tmp_priv_key) in
      Ok (tmp_priv_key, tmp_pub_key)
  | None => Err ScEphemeralKeyGenerationFailed
  end.

Definition agree (algorithm : KeyAgreement) (my_private_key : agr_private) (other_public_key : bytes) :
    result SecioError bytes :=
  ok_or ScSecretGenerationFailed (agr_agree algorithm my_private_key other_public_key).

Definition SEED : bytes := b_str "key expansion".

(** [result.len() - j] bytes are left to fill; a multi-step context signs the
    concatenation of its updates. *)
Fixpoint stretch_loop (fuel : nat) (hmac : Hmac) (a : bytes) (left : nat) : bytes :=
  match left, fuel with
  | 0, _ => []
  | S _, 0 => []
  | S _, S fuel =>
      let b := hmac_sign hmac (a ++ SEED) in
      let todo := min (length b) left in
      take todo b ++ stretch_loop fuel hmac (hmac_sign hmac a) (left - todo)
  end.
(** A digest is not empty, so [len] rounds are enough. *)
Definition stretch_key (hmac : Hmac) (len : nat) : bytes := stretch_loop len hmac (hmac_sign hmac SEED) len.

(** [split_at] panics beyond the end. *)
Definition split_at (n : nat) (l : bytes) : option (bytes * bytes) :=
  if bool_decide (n ≤ length l) then Some (take n l, drop n l) else None.

Definition generate_stream_cipher_and_hmac (t : CipherType) (digest : Digest) (mode : CryptoMode) (info : bytes)
    (key_size iv_size : nat) : option (Cipher * option Hmac) :=
  x ← split_at iv_size info;
  y ← split_at key_size x.2;
  let hmac := match t with
              | ChaCha20Poly1305 | Aes128Gcm | Aes256Gcm => None
              | Aes128Ctr => Some (Hmac_from_key digest y.2)
              end in
  cipher ← new_stream t y.1 x.1 mode;
  Some (cipher, hmac).

(** From the key material to the stream. *)
Definition derive_stream (max_frame_len : Z) (r : ScRemote) (key_material : bytes) : option (result SecioError SecureStream) :=
  let chosen_cipher := re_chosen_cipher r in
  let cipher_key_size := key_size chosen_cipher in
  let iv_size := iv_size chosen_cipher in
  let key := Hmac_from_key (re_chosen_hash r) key_material in
  let longer_key := stretch_key key (2 * (iv_size + cipher_key_size + 20)) in
  halves ← split_at (length longer_key / 2) longer_key;
  match re_hashes_ordering r with
  | Eq => Some (Err ScInvalidProposition)
  | c =>
      let local_infos := match c with Lt => halves.2 | _ => halves.1 end in
      let remote_infos := match c with Lt => halves.1 | _ => halves.2 end in
      e ← generate_stream_cipher_and_hmac chosen_cipher (re_chosen_hash r) ModeEncrypt local_infos cipher_key_size iv_size;
      d ← generate_stream_cipher_and_hmac chosen_cipher (re_chosen_hash r) ModeDecrypt remote_infos cipher_key_size iv_size;
      Some (Ok (SecureStream_new max_frame_len d.1 d.2 e.1 e.2 (lo_nonce (re_local r))))
  end.

(** The [Exchange] message that is sent, with the signature of both propositions. *)
Definition local_exchange (c : SecioConfig) (r : ScRemote) (tmp_pub_key : bytes) : result SecioError bytes :=
  let data_to_sign := lo_proposition_bytes (re_local r) ++ re_proposition_bytes r ++ tmp_pub_key in
  let? signature := ok_or ScHandshakeParsingFailure (ni_sign (sc_key c) data_to_sign) in
  Ok (exchange_encode (mk_ScExchange tmp_pub_key signature)).

Definition check_exchange (r : ScRemote) (raw_exchanges : bytes) : result SecioError bytes :=
  let? remote_exchanges := ok_or ScHandshakeParsingFailure (exchange_decode raw_exchanges) in
  let data_to_verify :=
    re_proposition_bytes r ++ lo_proposition_bytes (re_local r) ++ ex_epubkey remote_exchanges in
  if ni_verify (re_public_key r) data_to_verify (ex_signature remote_exchanges) then Ok (ex_epubkey remote_exchanges)
  else Err ScSignatureVerificationFailed.

(** [nonce] and [rng] are the random values of the handshake. *)
Definition secio_handshake (c : SecioConfig) (nonce : bytes) (rng : agr_rng) :
    Session (result SecioError (SecureStream * ni_pubkey * bytes)) :=
  let max_frame_len := sc_max_frame_length c in
  let local := with_local c nonce in
  await? _ := sess_map_err ScIoError (s_write (write_one_fixed accepts (lo_proposition_bytes local))) in
  await? remote_proposition := sess_map_err ScIoError (s_read (read_one_fixed chunks max_frame_len)) in
  await? remote := sess_result (with_remote c local remote_proposition) in
  await? tmp := sess_result (generate_agreement (re_chosen_exchange remote) rng) in
  await? local_exchanges := sess_result (local_exchange c remote tmp.2) in
  await? _ := sess_map_err ScIoError (s_write (write_one_fixed accepts local_exchanges)) in
  await? raw_exchanges := sess_map_err ScIoError (s_read (read_one_fixed chunks max_frame_len)) in
  await? epubkey := sess_result (check_exchange remote raw_exchanges) in
  await? key_material := sess_result (agree (re_chosen_exchange remote) tmp.1 epubkey) in
  await? secure_stream := s_value (derive_stream max_frame_len remote key_material) in
  await? secure_stream := sess_map_err ScIoError (ss_write_all accepts secure_stream (re_nonce remote)) in
  await? secure_stream := verify_nonce secure_stream in
  SRet (Ok (secure_stream, re_public_key remote, tmp.2)).

Record SecioOutput := mk_SecioOutput {
  so_stream : SecureStream;
  so_local_priv_key : ni_keypair;
  so_local_peer_id : PeerId;
  so_remote_pub_key : ni_pubkey;
  so_remote_peer_id : PeerId
}.

(** [make_secure_output], which both [upgrade_inbound] and [upgrade_outbound] are. *)
Definition secio_make_secure_output (c : SecioConfig) (nonce : bytes) (rng : agr_rng) :
    Session (result SecioError SecioOutput) :=
  await? x := secio_handshake c nonce rng in
  SRet (Ok (mk_SecioOutput x.1.1 (sc_key c) (ni_peer_id (ni_public (sc_key c))) x.1.2 (ni_peer_id x.1.2))).
End handshake.

(** ** Negotiation *)

Lemma slice_cmp_opp a b : slice_cmp b a = CompOpp (slice_cmp a b).
Proof.
  revert b. induction a as [|x a IH]; intros [|y b]; simpl; try done.
  rewrite (Z.compare_antisym (byte.unsigned x)). destruct (byte.unsigned x ?= byte.unsigned y)%Z; simpl; auto.
Qed.

Lemma slice_cmp_Eq a b : slice_cmp a b = Eq → a = b.
Proof.
  revert b. induction a as [|x a IH]; intros [|y b]; simpl; try done.
  destruct (Z.compare_spec (byte.unsigned x) (byte.unsigned y)) as [Hxy| |]; try done.
  intros Hab. f_equal; [|by apply IH]. rewrite <-(byte.of_Z_unsigned x), Hxy. apply byte.of_Z_unsigned.
Qed.

(** The two sides make the same choice, since their orderings are opposite. *)
Lemma select_symmetric {T} (parse : bytes → option T) r ours theirs :
  r ≠ Eq → select parse (CompOpp r) theirs ours = select parse r ours theirs.
Proof. by destruct r. Qed.

Lemma proposition_text {T} (name : T → bytes) x l :
  proposition name (x :: l) = name x ++ mjoin ((λ y, comma :: name y) <$> l).
Proof.
  assert (H : ∀ s l, foldl (λ s x, s ++ name x ++ [comma]) s l = s ++ mjoin ((λ y, name y ++ [comma]) <$> l)).
  { intros s l'. revert s. induction l' as [|y l' IH]; intros s; cbn; [by rewrite app_nil_r|]. by rewrite IH, <-app_assoc. }
  assert (H' : ∀ x l, mjoin ((λ y, name y ++ [comma]) <$> x :: l) = (name x ++ mjoin ((λ y, comma :: name y) <$> l)) ++ [comma]).
  { clear. intros x l. revert x. induction l as [|y l IH]; intros x; [cbn; by rewrite !app_nil_r|].
    change (mjoin ((λ y, name y ++ [comma]) <$> x :: y :: l))
      with ((name x ++ [comma]) ++ mjoin ((λ y, name y ++ [comma]) <$> y :: l)).
    rewrite IH. change (mjoin ((λ y, comma :: name y) <$> y :: l)) with ((comma :: name y) ++ mjoin ((λ y, comma :: name y) <$> l)).
    by rewrite <-!app_assoc. }
  unfold proposition. rewrite H, H'. cbn [app]. rewrite length_app, Nat.add_sub. by rewrite take_app_length.
Qed.

(** The text of a proposition splits into the names. *)
Lemma split_proposition {T} (name : T → bytes) x l :
  (∀ y, comma ∉ name y) → split_char comma (proposition name (x :: l)) = name <$> x :: l.
Proof.
  intros Hn. rewrite proposition_text. revert x. induction l as [|y l IH]; intros x.
  - cbn. rewrite app_nil_r. by apply split_char_single.
  - change (mjoin ((λ y, comma :: name y) <$> y :: l)) with ((comma :: name y) ++ mjoin ((λ y, comma :: name y) <$> l)).
    cbn [app]. rewrite split_char_cons by done. by rewrite IH.
Qed.

(** The algorithm that is chosen is the first of the preferred side that the other
    side has too. *)
Lemma select_first {T} `{EqDecision T} (name : T → bytes) (parse : bytes → option T) x xs y ys :
  (∀ t, comma ∉ name t) → (∀ t, parse (name t) = Some t) →
  select parse Gt (proposition name (x :: xs)) (proposition name (y :: ys)) =
  ok_or ScNoSupportIntersection (head (filter (λ t, t ∈ y :: ys) (x :: xs))).
Proof.
  intros Hc Hp. unfold select. cbn [fst snd]. rewrite !split_proposition by done.
  assert (Hin : ∀ t (l : list T), name t ∈ name <$> l ↔ t ∈ l).
  { intros t l. split; [|apply list_elem_of_fmap_2]. intros (t'&Ht&?)%list_elem_of_fmap.
    by apply (f_equal parse) in Ht; rewrite !Hp in Ht; simplify_eq. }
  generalize (x :: xs) (y :: ys). clear x xs y ys. intros xs ys. induction xs as [|x xs IH]; [done|].
  rewrite fmap_cons. cbn [select_loop]. rewrite (bool_decide_ext _ (x ∈ ys)) by apply Hin.
  case_bool_decide as Hx.
  - by rewrite Hp, filter_cons_True.
  - by rewrite filter_cons_False.
Qed.

Lemma agreement_names : (∀ t, comma ∉ agreement_name t) ∧ ∀ t, agreement_of (agreement_name t) = Some t.
Proof. split; intros []; try done; apply (bool_decide_unpack _); by vm_compute. Qed.
Lemma cipher_names : (∀ t, comma ∉ cipher_name t) ∧ ∀ t, cipher_of (cipher_name t) = Some t.
Proof. split; intros []; try done; apply (bool_decide_unpack _); by vm_compute. Qed.
Lemma digest_names : (∀ t, comma ∉ digest_name t) ∧ ∀ t, digest_of (digest_name t) = Some t.
Proof. split; intros []; try done; apply (bool_decide_unpack _); by vm_compute. Qed.

(** ** Nonces *)

(** The value of a nonce as a little-endian number. *)
Definition nonce_value (nonce : bytes) : Z := be_combine (reverse nonce).

Lemma nonce_value_cons b n : nonce_value (b :: n) = (byte.unsigned b + 256 * nonce_value n)%Z.
Proof.
  unfold nonce_value. rewrite reverse_cons, be_combine_app, be_combine_singleton. change (length [b]) with 1.
  change (2 ^ (8 * Z.of_nat 1))%Z with 256%Z. lia.
Qed.

Lemma nonce_advance_length nonce : length (nonce_advance nonce) = length nonce.
Proof. induction nonce as [|b nonce IH]; [done|]. cbn. case_bool_decide; cbn; by rewrite ?IH. Qed.

Lemma nonce_advance_value nonce :
  nonce_value (nonce_advance nonce) = ((nonce_value nonce + 1) mod 256 ^ Z.of_nat (length nonce))%Z.
Proof.
  induction nonce as [|b nonce IH]; [done|].
  assert (Hb : (0 ≤ nonce_value nonce < 256 ^ Z.of_nat (length nonce))%Z).
  { unfold nonce_value. pose proof (be_combine_bound (reverse nonce)) as Hb. rewrite length_reverse in Hb.
    rewrite Z.pow_mul_r in Hb by lia. done. }
  pose proof (byte.unsigned_range b) as Hr. cbn [length]. rewrite Nat2Z.inj_succ, Z.pow_succ_r by lia.
  cbn [nonce_advance]. case_bool_decide as Hff; rewrite !nonce_value_cons.
  - rewrite IH, Hff. change (byte.unsigned Byte.x00) with 0%Z.
    rewrite Z.add_0_l, <-Zmult_mod_distr_l. f_equal. lia.
  - rewrite byte_of_Z_unsigned by lia. rewrite Z.mod_small by lia. lia.
Qed.

(** The nonces of successive messages are distinct until the counter has wrapped
    around. *)
Lemma nonces_distinct nonce i j :
  (Z.of_nat i < Z.of_nat j < Z.of_nat i + 256 ^ Z.of_nat (length nonce))%Z →
  Nat.iter i nonce_advance nonce ≠ Nat.iter j nonce_advance nonce.
Proof.
  assert (H : ∀ k, length (Nat.iter k nonce_advance nonce) = length nonce ∧
    (nonce_value (Nat.iter k nonce_advance nonce) mod 256 ^ Z.of_nat (length nonce) =
     (nonce_value nonce + Z.of_nat k) mod 256 ^ Z.of_nat (length nonce))%Z).
  { induction k as [|k [IHl IHv]]; [by rewrite Z.add_0_r|]. rewrite Nat.iter_succ.
    rewrite nonce_advance_length, nonce_advance_value, IHl. split; [done|].
    rewrite Z.mod_mod, <-Zplus_mod_idemp_l, IHv, Zplus_mod_idemp_l by lia. f_equal. lia. }
  intros Hij Heq. destruct (H i) as [_ Hi], (H j) as [_ Hj]. rewrite <-Heq, Hi in Hj.
  set (m := (256 ^ Z.of_nat (length nonce))%Z) in *.
  assert (Hd : ((Z.of_nat j - Z.of_nat i) mod m = 0)%Z).
  { replace (Z.of_nat j - Z.of_nat i)%Z with ((nonce_value nonce + Z.of_nat j) - (nonce_value nonce + Z.of_nat i))%Z by lia.
    rewrite Zminus_mod, <-Hj, Z.sub_diag. by rewrite Zmod_0_l. }
  rewrite Z.mod_small in Hd by lia. lia.
Qed.

(** ** The stream *)

Section stream_lemmas.
Context `{SecioCryptoLaws}.

(** A cipher that encrypts and the one of the other side that decrypts. *)
Definition cipher_pair (e d : Cipher) : Prop :=
  match e, d with
  | CTRCipher s, CTRCipher s' => s = s'
  | RingSeal a k n t, RingOpen a' k' n' t' =>
      a = a' ∧ k = k' ∧ n = n' ∧ t = t' ∧ length k = aead_key_len a ∧ length n = aead_nonce_len a ∧
      tag_size t = aead_tag_len a
  | _, _ => False
  end.
Definition cipher_overhead (e : Cipher) : nat := match e with RingSeal a _ _ _ => aead_tag_len a | _ => 0 end.

Lemma cipher_pair_step e d m :
  cipher_pair e d → (Z.of_nat (length m) ≤ AEAD_MAX_IN)%Z →
  ∃ c e' d', encrypt e m = Some (Ok c, e') ∧ decrypt d c = Some (Ok m, d') ∧ cipher_pair e' d' ∧
    length c = length m + cipher_overhead e ∧ cipher_overhead e' = cipher_overhead e.
Proof.
  destruct e as [s|a k n t|], d as [s'|a' k' n' t'|a' k' n' t']; try done; simpl.
  - intros ->. intros _. exists (ctr_apply s' m).1, (CTRCipher (ctr_apply s' m).2), (CTRCipher (ctr_apply s' m).2).
    by rewrite ctr_length, ctr_involutive, Nat.add_0_r.
  - intros (<-&<-&<-&<-&Hk&Hn&Ht) Hm.
    destruct (aead_seal_ok a k (nonce_advance n) m) as (c&Hc&Hl&Ho); [done|by rewrite nonce_advance_length|done|].
    rewrite Hc. simpl. exists c, (RingSeal a k (nonce_advance n) t), (RingOpen a k (nonce_advance n) t).
    split_and!; [done| | |done|done].
    + destruct (Nat.ltb_spec (length c) (tag_size t)); [lia|]. rewrite Ho. by rewrite bool_decide_true by lia.
    + split_and!; try done. by rewrite nonce_advance_length.
Qed.

Definition stream_pair (e : Encrypter) (d : Decrypter) : Prop :=
  cipher_pair (ec_cipher e) (dc_cipher d) ∧ ec_hmac e = dc_hmac d ∧ dc_ended d = false ∧ (dc_max_len d < 2 ^ 32)%Z.

(** What a frame has more than its content. *)
Definition overhead (e : Encrypter) : nat :=
  cipher_overhead (ec_cipher e) + match ec_hmac e with Some h => hmac_num_bytes h | None => 0 end.

Definition fits (e : Encrypter) (max_len : Z) (buf : bytes) : Prop :=
  (Z.of_nat (length buf + overhead e) ≤ max_len)%Z.

(** The other side decodes what is written. *)
Lemma frame_pair e d m :
  stream_pair e d → fits e (dc_max_len d) m →
  ∃ item e' d', encrypter_write e m = Some (Ok item, e') ∧ decode_frame d item = Some (Ok d') ∧
    dc_item d' = m ∧ stream_pair e' d' ∧ dc_max_len d' = dc_max_len d ∧ overhead e' = overhead e ∧
    length item = length m + overhead e.
Proof.
  destruct e as [ce h el], d as [di dn dm cd h']. unfold stream_pair, fits, overhead. simpl. intros (Hc&<-&->&Hm) Hf.
  destruct (cipher_pair_step ce cd m Hc) as (c&e'&d'&He&Hd&Hp&Hl&Ho); [unfold AEAD_MAX_IN; lia|].
  unfold encrypter_write, decode_frame. simpl. rewrite He. destruct h as [h|].
  - assert (Hs : length (hmac_sign h c) = hmac_num_bytes h) by apply hmac_tag_length.
    eexists _, _, _. split; [done|]. rewrite length_app, Hs, Nat.add_sub, take_app_length, drop_app_length.
    destruct (Nat.ltb_spec (length c + hmac_num_bytes h) (hmac_num_bytes h)); [lia|].
    unfold hmac_check. rewrite hmac_verify_spec, bool_decide_true by done. rewrite Hd. split; [done|].
    simpl. split_and!; [done|done|done|done|done|done|by rewrite Ho|lia].
  - eexists _, _, _. split; [done|]. rewrite Hd. split; [done|]. simpl. split_and!; [done|done|done|done|done|done|by rewrite Ho|lia].
Qed.

(** The bytes of a frame on the wire. *)
Definition frame_bytes (item : bytes) : bytes := be_split 4 (Z.of_nat (length item)) ++ item.

Lemma sink_send_accepted accepts item :
  (∀ j, 0 < accepts j) → (Z.of_nat (length item) < 2 ^ 32)%Z → sink_send accepts item = (frame_bytes item, Ok ()).
Proof. intros Ha Hl. unfold sink_send. rewrite Z.mod_small by lia. by rewrite !write_all2_accepted. Qed.

Lemma next_frame_bytes max item eof rest :
  (Z.of_nat (length item) ≤ max < 2 ^ 32)%Z → next_frame max eof (frame_bytes item ++ rest) = Done (Some item) rest.
Proof.
  intros Hl. unfold next_frame, frame_bytes. rewrite <-app_assoc, read_exact_app by apply length_be_split.
  rewrite be_combine_split_small by (simpl; lia). destruct (Z.ltb_spec max (Z.of_nat (length item))); [lia|].
  rewrite Nat2Z.id. by rewrite read_exact_app.
Qed.

Lemma next_frame_partial max item p :
  (Z.of_nat (length item) ≤ max < 2 ^ 32)%Z → partial p (frame_bytes item) → next_frame max false p = Pending.
Proof.
  intros Hl [Hp|(p2&->&Hp2)]%partial_app; unfold next_frame.
  - apply partial_length in Hp. rewrite length_be_split in Hp. by rewrite read_exact_partial.
  - rewrite read_exact_app by apply length_be_split. rewrite be_combine_split_small by (simpl; lia).
    destruct (Z.ltb_spec max (Z.of_nat (length item))); [lia|]. rewrite Nat2Z.id.
    apply partial_length in Hp2. by rewrite read_exact_partial.
Qed.

Lemma stable_next_frame max : stable (next_frame max).
Proof.
  intros eof inp more. unfold next_frame. pose proof (stable_read_exact 4 eof inp more) as H4.
  assert (Hnf : ∀ n inp e, read_exact n false inp ≠ Failed e) by (intros; unfold read_exact; by case_decide).
  destruct (read_exact 4 false inp) as [len rest|e| |] eqn:E4; [|by destruct (Hnf 4 inp e)|done|by rewrite H4].
  rewrite H4. destruct (max <? be_combine len)%Z; [done|]. set (n := Z.to_nat (be_combine len)).
  pose proof (stable_read_exact n eof rest more) as Hn.
  destruct (read_exact n false rest) as [v rest'|e| |] eqn:En; [by rewrite Hn|by destruct (Hnf n rest e)|done|by rewrite Hn].
Qed.

Lemma next_frame_consumes max eof inp f rest :
  next_frame max eof inp = Done (Some f) rest → length rest < length inp.
Proof.
  unfold next_frame. destruct (read_exact 4 eof inp) as [len r|[]| |] eqn:E4; try done.
  destruct (max <? be_combine len)%Z; [done|]. set (n := Z.to_nat (be_combine len)).
  destruct (read_exact n eof r) eqn:En; try done. intros [= -> ->].
  apply read_exact_Done in E4 as [-> Hl4], En as [-> Hln]. rewrite !length_app. lia.
Qed.

(** The fuel of [decrypter_read] is enough. *)
Lemma decrypter_loop_fuel fuel d n eof inp :
  length inp < fuel → decrypter_loop fuel d n eof inp = decrypter_read d n eof inp.
Proof.
  enough (∀ f g d inp, length inp < f → length inp < g → decrypter_loop f d n eof inp = decrypter_loop g d n eof inp) as Hfg.
  { intros. apply Hfg; [done|lia]. }
  clear. induction f as [|f IH]; intros g d inp Hf Hg; [lia|]. destruct g as [|g]; [lia|]. cbn [decrypter_loop].
  destruct (dc_item d); [|done]. destruct (dc_ended d); [done|]. unfold rd_bind.
  destruct (next_frame (dc_max_len d) eof inp) as [[frame|] rest|e| |] eqn:E; try done.
  apply next_frame_consumes in E. destruct (decode_frame d frame) as [[d'|]|]; [|done..]. apply IH; lia.
Qed.

(** [poll_read], without the fuel. *)
Lemma decrypter_read_eq d n eof inp :
  decrypter_read d n eof inp =
  match dc_item d with
  | _ :: _ => Done (take n (dc_item d), mk_Decrypter (drop n (dc_item d)) (dc_ended d) (dc_max_len d) (dc_cipher d) (dc_hmac d)) inp
  | [] =>
      if dc_ended d then Panicked
      else match next_frame (dc_max_len d) eof inp with
           | Done None rest => Done ([], mk_Decrypter [] true (dc_max_len d) (dc_cipher d) (dc_hmac d)) rest
           | Done (Some frame) rest =>
               match decode_frame d frame with
               | None => Panicked
               | Some (Err _) => Failed InvalidData
               | Some (Ok d) => decrypter_read d n eof rest
               end
           | Failed e => Failed e
           | Pending => Pending
           | Panicked => Panicked
           end
  end.
Proof.
  unfold decrypter_read at 1. cbn [decrypter_loop]. destruct (dc_item d); [|done]. destruct (dc_ended d); [done|].
  unfold rd_bind. destruct (next_frame (dc_max_len d) eof inp) as [[frame|] rest|e| |] eqn:E; try done.
  apply next_frame_consumes in E. destruct (decode_frame d frame) as [[d'|]|]; [|done..]. by apply decrypter_loop_fuel.
Qed.

Lemma stable_decrypter_read d n : stable (decrypter_read d n).
Proof.
  intros eof inp more. remember (length inp) as len eqn:Hlen. revert d inp Hlen.
  induction len as [len IH] using lt_wf_ind. intros d inp Hlen. rewrite !decrypter_read_eq.
  destruct (dc_item d); [|done]. destruct (dc_ended d); [done|].
  pose proof (stable_next_frame (dc_max_len d) eof inp more) as Hs.
  destruct (next_frame (dc_max_len d) false inp) as [[frame|] rest|e| |] eqn:E; try done; rewrite Hs; try done.
  destruct (decode_frame d frame) as [[d'|]|]; [|done..]. apply next_frame_consumes in E.
  apply (IH (length rest)); [lia|done].
Qed.

Lemma stable_decrypter_read_exact fuel d n : stable (decrypter_read_exact fuel d n).
Proof.
  revert d n. induction fuel as [|fuel IH]; intros d [|n]; cbn; auto with lp2p; [by intros eof inp more|].
  apply stable_bind; [apply stable_decrypter_read|]. intros [[|b x] d']; cbn; [apply stable_fail|].
  apply stable_bind; [apply IH|]. intros. apply stable_ret.
Qed.

(** *** A stream in one direction *)

(** Successive writes, and what they leave on the wire. *)
Fixpoint ss_writes (accepts : nat → nat) (e : Encrypter) (bufs : list bytes) : option (bytes * Encrypter) :=
  match bufs with
  | [] => Some ([], e)
  | buf :: bufs =>
      match encrypter_write e buf with
      | Some (Ok item, e) =>
          match sink_send accepts item with
          | (bs, Ok _) => r ← ss_writes accepts e bufs; Some (bs ++ r.1, r.2)
          | _ => None
          end
      | _ => None
      end
  end.

(** Successive reads: before each one more bytes arrive.  The data, the decrypter and
    the bytes left; [None] is an error or a panic. *)
Fixpoint ss_reads (d : Decrypter) (inp : bytes) (l : list (bytes * nat)) : option (bytes * Decrypter * bytes) :=
  match l with
  | [] => Some ([], d, inp)
  | (more, n) :: l =>
      match decrypter_read d n false (inp ++ more) with
      | Done (x, d) rest => r ← ss_reads d rest l; Some (x ++ r.1.1, r.1.2, r.2)
      | Pending => ss_reads d (inp ++ more) l
      | Failed _ | Panicked => None
      end
  end.

(** The frames [items] hold the writes [bufs], after which the decrypter is the
    counterpart of [e]. *)
Inductive pipe (e : Encrypter) : Decrypter → list bytes → list bytes → Prop :=
  | pipe_nil d : stream_pair e d → pipe e d [] []
  | pipe_cons d d' item items bufs :
      dc_ended d = false → (Z.of_nat (length item) ≤ dc_max_len d < 2 ^ 32)%Z →
      decode_frame d item = Some (Ok d') → pipe e d' items bufs → pipe e d (item :: items) (dc_item d' :: bufs).

Definition wire (items : list bytes) : bytes := mjoin (frame_bytes <$> items).

Lemma pipe_item e d items bufs x :
  pipe e d items bufs → pipe e (mk_Decrypter x (dc_ended d) (dc_max_len d) (dc_cipher d) (dc_hmac d)) items bufs.
Proof. destruct 1 as [d Hp|d d' item items bufs He Hl Hd Hp]; [by constructor|by apply pipe_cons]. Qed.

Lemma writes_pipe accepts e d bufs :
  (∀ j, 0 < accepts j) → stream_pair e d → Forall (fits e (dc_max_len d)) bufs →
  ∃ items e', ss_writes accepts e bufs = Some (wire items, e') ∧ pipe e' d items bufs.
Proof.
  intros Ha. revert e d. induction bufs as [|buf bufs IH]; intros e d Hp Hf.
  { exists [], e. split; [done|]. by constructor. }
  inversion Hf as [|? ? Hb Hbs]; subst. destruct (frame_pair e d buf Hp Hb) as (item&e1&d1&Hw&Hd&<-&Hp1&Hm&Ho&Hl).
  destruct Hp as (_&_&He&Hmax). unfold fits in Hb.
  destruct (IH e1 d1 Hp1) as (items&e2&Hw2&Hpipe).
  { eapply Forall_impl; [done|]. intros b. unfold fits. by rewrite Ho, Hm. }
  exists (item :: items), e2. cbn [ss_writes]. rewrite Hw, sink_send_accepted by (done || lia). rewrite Hw2.
  split; [done|]. apply pipe_cons; [done|lia|done|done].
Qed.

Lemma prefix_frames p item items :
  p `prefix_of` frame_bytes item ++ wire items →
  partial p (frame_bytes item) ∨ ∃ p2, p = frame_bytes item ++ p2 ∧ p2 `prefix_of` wire items.
Proof.
  intros [k Hk]. destruct (decide (length (frame_bytes item) ≤ length p)) as [Hle|Hgt].
  - right. apply app_eq_app in Hk as (l&[[Hl1 Hl2]|[Hl1 Hl2]]).
    + rewrite Hl1, length_app in Hle. destruct l; [|simpl in Hle; lia]. rewrite app_nil_r in Hl1. simpl in Hl2.
      exists []. rewrite app_nil_r. split; [done|apply prefix_nil].
    + exists l. split; [done|by eexists].
  - left. split; [|intros ->; lia]. apply app_eq_app in Hk as (l&[[Hl1 Hl2]|[Hl1 Hl2]]); [by eexists|].
    rewrite Hl1, length_app in Hgt. lia.
Qed.

(** One read: it waits only when nothing is left of the frames that have arrived, and
    otherwise delivers the next bytes. *)
Lemma pipe_read e d items bufs n p :
  pipe e d items bufs → 0 < n → p `prefix_of` wire items →
  (decrypter_read d n false p = Pending ∧ (p = wire items → dc_item d ++ mjoin bufs = [])) ∨
  (∃ x d' rest items' bufs' used, decrypter_read d n false p = Done (x, d') rest ∧ x ≠ [] ∧ length x ≤ n ∧
     pipe e d' items' bufs' ∧ p = used ++ rest ∧ wire items = used ++ wire items' ∧
     dc_item d ++ mjoin bufs = x ++ dc_item d' ++ mjoin bufs').
Proof.
  intros Hpipe Hn. revert p.
  assert (Hitem : ∀ d items bufs p, pipe e d items bufs → dc_item d ≠ [] →
    ∃ x d' rest items' bufs' used, decrypter_read d n false p = Done (x, d') rest ∧ x ≠ [] ∧ length x ≤ n ∧
     pipe e d' items' bufs' ∧ p = used ++ rest ∧ wire items = used ++ wire items' ∧
     dc_item d ++ mjoin bufs = x ++ dc_item d' ++ mjoin bufs').
  { intros d0 its bfs p Hp Hne. rewrite decrypter_read_eq. destruct (dc_item d0) as [|b x] eqn:Ed; [done|].
    rewrite <-Ed in *. eexists _, _, p, its, bfs, []. split; [done|]. split; [rewrite Ed; destruct n; [lia|done]|].
    split; [rewrite length_take; lia|]. split; [by apply pipe_item|]. split; [done|]. split; [done|].
    cbn [dc_item]. by rewrite (assoc_L (++)), take_drop. }
  induction Hpipe as [d Hp|d d' item items bufs He Hl Hd Hp IH]; intros p Hpre.
  - destruct (decide (dc_item d = [])) as [Hi|Hi]; [|right; by apply Hitem; [constructor|]].
    apply prefix_nil_inv in Hpre as ->. left. rewrite decrypter_read_eq, Hi. destruct Hp as (_&_&->&_). done.
  - destruct (decide (dc_item d = [])) as [Hi|Hi]; [|right; apply Hitem; [by apply pipe_cons|done]].
    change (wire (item :: items)) with (frame_bytes item ++ wire items) in *.
    rewrite decrypter_read_eq, Hi, He. apply prefix_frames in Hpre as [Hpa|(p2&->&Hp2)].
    + left. rewrite (next_frame_partial _ item) by done. split; [done|]. intros ->.
      apply partial_length in Hpa. rewrite length_app in Hpa. lia.
    + rewrite next_frame_bytes by done. rewrite Hd.
      destruct (IH p2 Hp2) as [[Hr Hall]|(x&d2&rest&its&bfs&used&Hr&Hx&Hxn&Hp'&->&Hw&Heq)].
      * left. split; [done|]. intros Heq. apply Hall. by apply app_inv_head in Heq.
      * right. eexists x, d2, rest, its, bfs, (frame_bytes item ++ used). split_and!; try done.
        { by rewrite <-app_assoc. } { rewrite Hw. by rewrite <-app_assoc. }
Qed.

Lemma pipe_reads e d items bufs inp l :
  pipe e d items bufs → Forall (λ x, 0 < x.2) l → inp ++ mjoin l.*1 `prefix_of` wire items →
  ∃ data d' rest items' bufs' used, ss_reads d inp l = Some (data, d', rest) ∧ pipe e d' items' bufs' ∧
    inp ++ mjoin l.*1 = used ++ rest ∧ wire items = used ++ wire items' ∧
    dc_item d ++ mjoin bufs = data ++ dc_item d' ++ mjoin bufs'.
Proof.
  intros Hpipe Hl. revert d items bufs inp Hpipe. induction l as [|[more n] l IH]; intros d items bufs inp Hpipe Hpre.
  { eexists [], d, inp, items, bufs, []. cbn. by rewrite app_nil_r. }
  inversion Hl as [|? ? Hn Hl']; subst. cbn [ss_reads]. change (mjoin ((more, n) :: l).*1) with (more ++ mjoin l.*1) in *.
  rewrite (assoc_L (++)) in Hpre |- *.
  destruct (pipe_read e d items bufs n (inp ++ more) Hpipe Hn) as [[Hr _]|(x&d2&rest&its&bfs&used&Hr&_&_&Hp2&Hu&Hw&Heq)].
  { eapply prefix_app_l; done. }
  - rewrite Hr. apply IH; done.
  - rewrite Hr, Hu in *. destruct (IH Hl' d2 its bfs rest Hp2) as (data&d3&rest3&its3&bfs3&used3&Hr3&Hp3&Hu3&Hw3&Heq3).
    { rewrite Hw, <-app_assoc in Hpre. by apply prefix_app_inv in Hpre. }
    rewrite Hr3. cbn. eexists _, _, _, _, _, (used ++ used3). split_and!; [done|done| | |].
    + by rewrite <-!app_assoc, Hu3.
    + by rewrite Hw, Hw3, <-app_assoc.
    + by rewrite Heq, Heq3, <-app_assoc.
Qed.

End stream_lemmas.

(** ** The handshake *)

Section handshake_lemmas.
Context {PeerId : Type} `{NodeIdentity PeerId} `{!NodeIdentityLaws PeerId} `{SecioCryptoLaws} `{SecioCodecLaws}.
Implicit Types (c : SecioConfig (PeerId := PeerId)).

Lemma digest_num_bytes_pos d : 0 < digest_num_bytes d.
Proof. destruct d; cbn; lia. Qed.

Lemma stretch_loop_length fuel h a left : left ≤ fuel → length (stretch_loop fuel h a left) = left.
Proof.
  revert a left. induction fuel as [|fuel IH]; intros a [|left] Hl; cbn [stretch_loop]; [done|lia|done|].
  assert (Hs : length (hmac_sign h (a ++ SEED)) = digest_num_bytes (hm_algorithm h)) by apply hmac_tag_length.
  pose proof (digest_num_bytes_pos (hm_algorithm h)). rewrite length_app, length_take, Hs, IH by lia. lia.
Qed.

Lemma split_at_ok n l : n ≤ length l → split_at n l = Some (take n l, drop n l).
Proof. intros. unfold split_at. by rewrite bool_decide_true. Qed.

(** The two directions of a cipher. *)
Lemma generate_pair t digest info :
  length info = iv_size t + key_size t + 20 →
  ∃ ce cd h, generate_stream_cipher_and_hmac t digest ModeEncrypt info (key_size t) (iv_size t) = Some (ce, h) ∧
    generate_stream_cipher_and_hmac t digest ModeDecrypt info (key_size t) (iv_size t) = Some (cd, h) ∧ cipher_pair ce cd.
Proof.
  intros Hl. unfold generate_stream_cipher_and_hmac. rewrite split_at_ok by lia. cbn [mbind option_bind fst snd].
  rewrite split_at_ok by (rewrite length_drop; lia). cbn [mbind option_bind fst snd].
  assert (Hiv : length (take (iv_size t) info) = iv_size t) by (rewrite length_take; lia).
  assert (Hk : length (take (key_size t) (drop (iv_size t) info)) = key_size t) by (rewrite length_take, length_drop; lia).
  destruct t; unfold new_stream, CTRCipher_new, RingAeadCipher_new; cbn [mbind option_bind];
    rewrite ?Hiv, ?Hk; cbn -[take drop replicate]; eexists _, _, _; split_and!; try done;
    cbn -[take drop]; rewrite ?length_replicate; split_and!; done.
Qed.

Definition opposite (ra rb : ScRemote (PeerId := PeerId)) : Prop :=
  re_hashes_ordering ra ≠ Eq ∧ re_hashes_ordering rb = CompOpp (re_hashes_ordering ra) ∧
  re_chosen_cipher rb = re_chosen_cipher ra ∧ re_chosen_hash rb = re_chosen_hash ra.

(** The two sides derive streams that belong together. *)
Lemma derive_pair ra rb ma mb km :
  opposite ra rb → (ma < 2 ^ 32)%Z → (mb < 2 ^ 32)%Z →
  ∃ sa sb, derive_stream ma ra km = Some (Ok sa) ∧ derive_stream mb rb km = Some (Ok sb) ∧
    stream_pair (ss_encrypter sa) (ss_decrypter sb) ∧ stream_pair (ss_encrypter sb) (ss_decrypter sa) ∧
    dc_item (ss_decrypter sa) = [] ∧ dc_item (ss_decrypter sb) = [] ∧
    dc_max_len (ss_decrypter sa) = ma ∧ dc_max_len (ss_decrypter sb) = mb ∧
    ss_nonce sa = lo_nonce (re_local ra) ∧ ss_nonce sb = lo_nonce (re_local rb).
Proof.
  intros (Hne&Hord&Hci&Hdi) Hma Hmb. unfold derive_stream. rewrite Hord, Hci, Hdi.
  set (t := re_chosen_cipher ra). set (dg := re_chosen_hash ra).
  set (long := stretch_key _ _). assert (Hlong : length long = 2 * (iv_size t + key_size t + 20)) by (by apply stretch_loop_length).
  rewrite Hlong, (Nat.mul_comm 2), Nat.div_mul by done. rewrite split_at_ok by lia. cbn [mbind option_bind fst snd].
  destruct (generate_pair t dg (take (iv_size t + key_size t + 20) long)) as (ce1&cd1&h1&He1&Hd1&Hp1); [rewrite length_take; lia|].
  destruct (generate_pair t dg (drop (iv_size t + key_size t + 20) long)) as (ce2&cd2&h2&He2&Hd2&Hp2); [rewrite length_drop; lia|].
  destruct (re_hashes_ordering ra); [done|..]; cbn [CompOpp]; rewrite He1, Hd1, He2, Hd2; cbn [mbind option_bind fst snd];
    (eexists _, _; do 2 (split; [done|])); by cbn.
Qed.

Lemma overhead_bound e : overhead e ≤ 80.
Proof.
  unfold overhead. assert (cipher_overhead (ec_cipher e) ≤ 16) by (unfold cipher_overhead, aead_tag_len; destruct (ec_cipher e); lia).
  destruct (ec_hmac e) as [h|]; [|lia]. unfold hmac_num_bytes. assert (digest_num_bytes (hm_algorithm h) ≤ 64) by (destruct (hm_algorithm h); vm_compute; lia). lia.
Qed.

(** The nonce that one side sends back is read by the other. *)
Lemma nonce_exchange e d nonce :
  stream_pair e d → dc_item d = [] → nonce ≠ [] → fits e (dc_max_len d) nonce →
  ∃ item e' d', encrypter_write e nonce = Some (Ok item, e') ∧ (Z.of_nat (length item) < 2 ^ 32)%Z ∧
    decrypter_read_exact (length nonce) d (length nonce) false (frame_bytes item) = Done (nonce, d') [] ∧
    stream_pair e' d' ∧ dc_item d' = [] ∧ dc_max_len d' = dc_max_len d.
Proof.
  intros Hp Hi Hne Hf. destruct (frame_pair e d nonce Hp Hf) as (item&e1&d1&Hw&Hd&Hn&Hp1&Hm&Ho&Hl).
  pose proof Hp as (_&_&Hend&Hmax). unfold fits in Hf.
  eexists item, e1, (mk_Decrypter [] (dc_ended d1) (dc_max_len d1) (dc_cipher d1) (dc_hmac d1)).
  split; [done|]. split; [lia|]. split; [|by destruct Hp1 as (?&?&?&?)].
  assert (Hread : decrypter_read d (length nonce) false (frame_bytes item) =
    Done (nonce, mk_Decrypter [] (dc_ended d1) (dc_max_len d1) (dc_cipher d1) (dc_hmac d1)) []).
  { rewrite decrypter_read_eq, Hi, Hend. rewrite <-(app_nil_r (frame_bytes item)), next_frame_bytes by lia. rewrite Hd.
    rewrite decrypter_read_eq, Hn. destruct nonce as [|b n]; [done|]. by rewrite firstn_all, skipn_all. }
  destruct nonce as [|b n]; [done|]. cbn [decrypter_read_exact length]. unfold rd_bind.
  change (S (length n)) with (length (b :: n)). rewrite Hread. cbn [fst snd]. rewrite Nat.sub_diag.
  destruct (length n); cbn; by rewrite app_nil_r.
Qed.

Definition encoded_key c : bytes := ni_encode (ni_public (sc_key c)).

(** The ordering that [c] finds. *)
Definition ordering_of c (n : bytes) c' (n' : bytes) : comparison :=
  slice_cmp (ring_sha256 (encoded_key c' ++ n)) (ring_sha256 (encoded_key c ++ n')).

Lemma ordering_opposite ca na cb nb : ordering_of cb nb ca na = CompOpp (ordering_of ca na cb nb).
Proof. apply slice_cmp_opp. Qed.

(** What [c] has found out about [c'] after the propositions. *)
Definition remote_of c n c' n' ke ci di : ScRemote (PeerId := PeerId) :=
  mk_ScRemote (with_local c n) (lo_proposition_bytes (with_local c' n')) (ni_public (sc_key c')) n'
    (ordering_of c n c' n') ke ci di.

Lemma with_remote_local c n c' n' ke ci di :
  encoded_key c' ≠ encoded_key c →
  select_agreement (ordering_of c n c' n') (sc_exchanges c) (sc_exchanges c') = Ok ke →
  select_cipher (ordering_of c n c' n') (sc_cipher_names c) (sc_cipher_names c') = Ok ci →
  select_digest (ordering_of c n c' n') (sc_hash_names c) (sc_hash_names c') = Ok di →
  with_remote c (with_local c n) (lo_proposition_bytes (with_local c' n')) = Ok (remote_of c n c' n' ke ci di).
Proof.
  intros Hne Hke Hci Hdi. unfold with_remote. cbn [with_local lo_proposition_bytes lo_public_key lo_nonce].
  rewrite propose_decode_encode. cbn [ok_or result_bind pp_rand pp_pubkey pp_exchanges pp_ciphers pp_hashes].
  rewrite bool_decide_false by done. unfold ordering_of, encoded_key in *. rewrite Hke, Hci, Hdi. cbn [result_bind].
  by rewrite ni_decode_encode.
Qed.

Lemma check_local_exchange ca na cb nb ke ci di qb xb :
  local_exchange cb (remote_of cb nb ca na ke ci di) qb = Ok xb →
  check_exchange (remote_of ca na cb nb ke ci di) xb = Ok qb.
Proof.
  unfold local_exchange, check_exchange. cbn [remote_of re_local re_proposition_bytes re_public_key].
  destruct (ni_sign (sc_key cb) _) as [sig|] eqn:Hs; [|done]. cbn [ok_or result_bind].
  intros [= <-]. rewrite exchange_decode_encode. cbn [ok_or result_bind ex_epubkey ex_signature].
  apply ni_verify_sign in Hs. by rewrite Hs.
Qed.

Lemma stable_secio chunks accepts c n rng : stable_session (secio_make_secure_output chunks accepts c n rng).
Proof.
  unfold secio_make_secure_output, secio_handshake. apply stable_sess_try; [|done].
  repeat (apply stable_sess_try; [|intros]); auto with lp2p; try done.
  - apply stable_map_err. unfold ss_write_all. destruct (re_nonce _); [done|].
    destruct (encrypter_write _ _) as [[[]]|]; [|done..]. by apply stable_sess_try.
  - unfold verify_nonce. destruct (ss_nonce _); [done|]. apply stable_sess_try.
    + apply stable_map_err, stable_s_read, stable_decrypter_read_exact.
    + intros x. by case_bool_decide.
Qed.

(** Sending back the nonce, and checking the one sent by the other side. *)
Lemma link_nonce {X Y} accepts sa e' nonce item (k : SecureStream → Session (result SecioError X)) (t : Session Y) il ir l :
  (∀ j, 0 < accepts j) → nonce ≠ [] → encrypter_write (ss_encrypter sa) nonce = Some (Ok item, e') →
  (Z.of_nat (length item) < 2 ^ 32)%Z →
  rtc link_step (mk_Link (k (mk_SecureStream (ss_decrypter sa) e' (ss_nonce sa))) t il (ir ++ frame_bytes item)) l →
  rtc link_step (mk_Link (sess_try (sess_map_err ScIoError (ss_write_all accepts sa nonce)) k) t il ir) l.
Proof.
  intros Ha Hne Hw Hl Hrun. unfold ss_write_all. rewrite Hw, sink_send_accepted by done.
  destruct nonce; [done|]. by apply link_send.
Qed.
Lemma link_verify {X Y} d' e nonce (k : SecureStream → Session (result SecioError X)) (t : Session Y) d il il' ir l :
  nonce ≠ [] → decrypter_read_exact (length nonce) d (length nonce) false il = Done (nonce, d') il' →
  rtc link_step (mk_Link (k (mk_SecureStream d' e [])) t il' ir) l →
  rtc link_step (mk_Link (sess_try (verify_nonce (mk_SecureStream d e nonce)) k) t il ir) l.
Proof.
  intros Hne Hr Hrun. unfold verify_nonce. cbn [ss_nonce ss_decrypter]. destruct nonce as [|b n] eqn:En; [done|].
  rewrite <-En in *. eapply link_recv; [exact Hr|]. cbn [fst snd sess_bind map_err]. rewrite Nat.min_id, firstn_all, skipn_all.
  by rewrite bool_decide_false by (by intros []).
Qed.
End handshake_lemmas.

(** ** Properties of the handshake *)

Section handshake_properties.
Context {PeerId : Type} `{NodeIdentity PeerId} `{!NodeIdentityLaws PeerId} `{SecioCryptoLaws} `{SecioCodecLaws}.
Implicit Types (c : SecioConfig (PeerId := PeerId)).

(** The output of [c] for the remote [c'] and the stream [s]. *)
Definition secio_output c c' (s : SecureStream) : SecioOutput :=
  mk_SecioOutput s (sc_key c) (ni_peer_id (ni_public (sc_key c))) (ni_public (sc_key c')) (ni_peer_id (ni_public (sc_key c'))).

(** What the handshake of two nodes, with the random values [na], [ra], [nb] and [rb],
    relies on: different keys, digests without a collision, algorithms [ke], [ci],
    [di] in common, ephemeral keys and signatures that can be made, and messages that
    the other side does not refuse. *)
Record honest ca na ra cb nb rb ke ci di : Prop := {
  ho_keys : encoded_key cb ≠ encoded_key ca;
  ho_digests : ordering_of ca na cb nb ≠ Eq;
  ho_agreement : select_agreement (ordering_of ca na cb nb) (sc_exchanges ca) (sc_exchanges cb) = Ok ke;
  ho_cipher : select_cipher (ordering_of ca na cb nb) (sc_cipher_names ca) (sc_cipher_names cb) = Ok ci;
  ho_digest : select_digest (ordering_of ca na cb nb) (sc_hash_names ca) (sc_hash_names cb) = Ok di;
  ho_nonces : length na = 16 ∧ length nb = 16;
  ho_propositions :
    (Z.of_nat (length (lo_proposition_bytes (with_local ca na))) ≤ sc_max_frame_length cb)%Z ∧
    (Z.of_nat (length (lo_proposition_bytes (with_local cb nb))) ≤ sc_max_frame_length ca)%Z;
  ho_exchange_a : ∃ p q x, generate_agreement ke ra = Ok (p, q) ∧
    local_exchange ca (remote_of ca na cb nb ke ci di) q = Ok x ∧ (Z.of_nat (length x) ≤ sc_max_frame_length cb)%Z;
  ho_exchange_b : ∃ p q x, generate_agreement ke rb = Ok (p, q) ∧
    local_exchange cb (remote_of cb nb ca na ke ci di) q = Ok x ∧ (Z.of_nat (length x) ≤ sc_max_frame_length ca)%Z;
  ho_max_a : (96 ≤ sc_max_frame_length ca < 2 ^ 32)%Z;
  ho_max_b : (96 ≤ sc_max_frame_length cb < 2 ^ 32)%Z
}.

Lemma generate_agreement_ok ke rng p q :
  generate_agreement ke rng = Ok (p, q) → agr_generate ke rng = Some p ∧ agr_public p = Some q.
Proof.
  unfold generate_agreement. destruct (agr_generate ke rng) as [p'|]; [|done]. destruct (agr_public p') as [q'|] eqn:Hq; [|done].
  cbn. intros [= -> ->]. done.
Qed.

(** The handshake of two nodes, with the limits of the streams it ends with. *)
Lemma secio_links chunks1 chunks2 accepts1 accepts2 ca na ra cb nb rb ke ci di
    (Hacc1 : ∀ j, 0 < accepts1 j) (Hacc2 : ∀ j, 0 < accepts2 j) (Hhonest : honest ca na ra cb nb rb ke ci di) :
  ∃ sa sb,
    link_returns (secio_make_secure_output chunks1 accepts1 ca na ra) (secio_make_secure_output chunks2 accepts2 cb nb rb)
      (Ok (secio_output ca cb sa)) (Ok (secio_output cb ca sb)) [] [] ∧
    stream_pair (ss_encrypter sa) (ss_decrypter sb) ∧ stream_pair (ss_encrypter sb) (ss_decrypter sa) ∧
    dc_item (ss_decrypter sa) = [] ∧ dc_item (ss_decrypter sb) = [] ∧
    dc_max_len (ss_decrypter sa) = sc_max_frame_length ca ∧ dc_max_len (ss_decrypter sb) = sc_max_frame_length cb.
Proof.
  destruct Hhonest as [Hkeys Hdig Hke Hci Hdi [Hna Hnb] [Hpa Hpb] (pa&qa&xa&Hga&Hxa&Hla) (pb&qb&xb&Hgb&Hxb&Hlb) Hma Hmb].
  assert (Hwa := with_remote_local ca na cb nb ke ci di Hkeys Hke Hci Hdi).
  assert (Hwb : with_remote cb (with_local cb nb) (lo_proposition_bytes (with_local ca na)) = Ok (remote_of cb nb ca na ke ci di)).
  { apply with_remote_local; [done|..]; rewrite ordering_opposite; unfold select_agreement, select_cipher, select_digest;
      by rewrite select_symmetric. }
  pose proof (check_local_exchange ca na cb nb ke ci di qb xb Hxb) as Hca.
  pose proof (check_local_exchange cb nb ca na ke ci di qa xa Hxa) as Hcb.
  pose proof (generate_agreement_ok _ _ _ _ Hga) as [Ega Eqa]. pose proof (generate_agreement_ok _ _ _ _ Hgb) as [Egb Eqb].
  destruct (agr_shared ke ra rb pa pb qa qb Ega Egb Eqa Eqb) as (km&Hka&Hkb).
  apply (f_equal (ok_or ScSecretGenerationFailed)) in Hka, Hkb.
  destruct (derive_pair (remote_of ca na cb nb ke ci di) (remote_of cb nb ca na ke ci di)
    (sc_max_frame_length ca) (sc_max_frame_length cb) km) as (sa&sb&Hsa&Hsb&Hab&Hba&Hia&Hib&Hmxa&Hmxb&Hnca&Hncb).
  { split_and!; [done|apply ordering_opposite|done|done]. } { lia. } { lia. }
  assert (Hne : na ≠ [] ∧ nb ≠ []) by (by destruct na, nb). destruct Hne as [Hnea Hneb].
  destruct (nonce_exchange _ _ nb Hab Hib Hneb) as (ia&ea&db&Hia1&Hia2&Hia3&Hab'&Hdb&Hdbm).
  { unfold fits. pose proof (overhead_bound (ss_encrypter sa)). lia. }
  destruct (nonce_exchange _ _ na Hba Hia Hnea) as (ib&eb&da&Hib1&Hib2&Hib3&Hba'&Hda&Hdam).
  { unfold fits. pose proof (overhead_bound (ss_encrypter sb)). lia. }
  exists (mk_SecureStream da ea []), (mk_SecureStream db eb []). split; [|cbn; split_and!; congruence].
  apply link_returns_intro; [apply stable_secio..|].
  apply (link_try_ok _ _ _ _ (mk_SecureStream da ea [], ni_public (sc_key cb), qa) (mk_SecureStream db eb [], ni_public (sc_key ca), qb) [] []); [|done].
  destruct (written_read_one_fixed chunks2 accepts1 (lo_proposition_bytes (with_local ca na)) (sc_max_frame_length cb) false) as (w1&Ew1&_&Hr1&_); [done|lia..|].
  destruct (written_read_one_fixed chunks1 accepts2 (lo_proposition_bytes (with_local cb nb)) (sc_max_frame_length ca) false) as (w2&Ew2&_&Hr2&_); [done|lia..|].
  destruct (written_read_one_fixed chunks2 accepts1 xa (sc_max_frame_length cb) false) as (w3&Ew3&_&Hr3&_); [done|lia..|].
  destruct (written_read_one_fixed chunks1 accepts2 xb (sc_max_frame_length ca) false) as (w4&Ew4&_&Hr4&_); [done|lia..|].
  specialize (Hr1 []). specialize (Hr2 []). specialize (Hr3 []). rewrite app_nil_r in Hr1, Hr2, Hr3.
  unfold link_start, secio_handshake.
  eapply link_write; [exact Ew1|]. apply link_swap. eapply link_write; [exact Ew2|]. eapply link_read; [exact Hr1|].
  eapply link_ok; [exact Hwb|]. eapply link_ok; [exact Hgb|]. eapply link_ok; [exact Hxb|]. apply link_swap.
  eapply link_read; [exact Hr2|]. eapply link_ok; [exact Hwa|]. eapply link_ok; [exact Hga|]. eapply link_ok; [exact Hxa|].
  eapply link_write; [exact Ew3|]. apply link_swap. eapply link_write; [exact Ew4|]. eapply link_read; [exact Hr3|].
  eapply link_ok; [exact Hcb|]. eapply link_ok; [exact Hkb|]. eapply link_value; [exact Hsb|].
  eapply link_nonce; [done|exact Hnea|exact Hib1|done|]. apply link_swap.
  eapply link_read; [exact (Hr4 (frame_bytes ib))|]. eapply link_ok; [exact Hca|]. eapply link_ok; [exact Hka|].
  eapply link_value; [exact Hsa|]. eapply link_nonce; [done|exact Hneb|exact Hia1|done|].
  rewrite Hnca. eapply link_verify; [exact Hnea|exact Hib3|]. apply link_swap.
  rewrite Hncb. eapply link_verify; [exact Hneb|exact Hia3|]. done.
Qed.

(** [C22] Two nodes complete the handshake in every order of their reads and writes and
    however the sockets split the data.  Each learns the key of the other, no byte is
    left unread, and the encrypting side of each stream is the counterpart of the
    decrypting side of the other. *)
Theorem secio_completes chunks1 chunks2 accepts1 accepts2 ca na ra cb nb rb ke ci di
    (Hacc1 : ∀ j, 0 < accepts1 j) (Hacc2 : ∀ j, 0 < accepts2 j) (Hhonest : honest ca na ra cb nb rb ke ci di) :
  ∃ sa sb,
    link_returns (secio_make_secure_output chunks1 accepts1 ca na ra) (secio_make_secure_output chunks2 accepts2 cb nb rb)
      (Ok (secio_output ca cb sa)) (Ok (secio_output cb ca sb)) [] [] ∧
    stream_pair (ss_encrypter sa) (ss_decrypter sb) ∧ stream_pair (ss_encrypter sb) (ss_decrypter sa) ∧
    dc_item (ss_decrypter sa) = [] ∧ dc_item (ss_decrypter sb) = [].
Proof.
  destruct (secio_links chunks1 chunks2 accepts1 accepts2 ca na ra cb nb rb ke ci di) as (sa&sb&Hrun&Hab&Hba&Ha&Hb&_); [done..|]. by exists sa, sb.
Qed.

Lemma with_remote_inv c local rb r :
  with_remote c local rb = Ok r →
  ∃ propose, propose_decode rb = Some propose ∧ ni_decode (pp_pubkey propose) = Some (re_public_key r) ∧
    pp_pubkey propose ≠ lo_public_key local ∧ re_local r = local ∧ re_proposition_bytes r = rb.
Proof.
  unfold with_remote. destruct (propose_decode rb) as [propose|]; [|done]. cbn [ok_or result_bind].
  case_bool_decide as Hne; [done|]. destruct (select_agreement _ _ _) as [ke|]; [|done].
  destruct (select_cipher _ _ _) as [ci|]; [|done]. destruct (select_digest _ _ _) as [di|]; [|done]. cbn [result_bind].
  destruct (ni_decode (pp_pubkey propose)) as [pk|] eqn:Hpk; [|done]. cbn. intros [= <-]. by exists propose.
Qed.

Lemma check_exchange_inv r raw q :
  check_exchange r raw = Ok q →
  ∃ x, exchange_decode raw = Some x ∧ ex_epubkey x = q ∧
    ni_verify (re_public_key r) (re_proposition_bytes r ++ lo_proposition_bytes (re_local r) ++ ex_epubkey x)
      (ex_signature x) = true.
Proof.
  unfold check_exchange. destruct (exchange_decode raw) as [x|]; [|done]. cbn [ok_or result_bind].
  destruct (ni_verify _ _ _) eqn:Hv; [|done]. intros [= <-]. by exists x.
Qed.

Lemma derive_stream_inv max r km s :
  derive_stream max r km = Some (Ok s) → re_hashes_ordering r ≠ Eq ∧ ss_nonce s = lo_nonce (re_local r).
Proof.
  unfold derive_stream. destruct (split_at _ _) as [halves|]; [|done]. cbn [mbind option_bind].
  destruct (re_hashes_ordering r); [done|..]; (destruct (generate_stream_cipher_and_hmac _ _ ModeEncrypt _ _ _) as [e|]; [|done]);
    cbn [mbind option_bind]; (destruct (generate_stream_cipher_and_hmac _ _ ModeDecrypt _ _ _) as [d|]; [|done]); cbn; intros [= <-]; done.
Qed.

Lemma ss_write_all_inv accepts s buf eof inp out s' rest :
  session_run (ss_write_all accepts s buf) eof inp = (out, Returned (Ok s') rest) →
  ss_decrypter s' = ss_decrypter s ∧ ss_nonce s' = ss_nonce s ∧ rest = inp.
Proof.
  unfold ss_write_all. destruct buf as [|b buf]; [by intros [= _ -> ->]|].
  destruct (encrypter_write _ _) as [[[item|e] enc]|]; [|done..]. intros Hrun. run_inv Hrun. done.
Qed.

Lemma decrypter_read_length d n eof inp x d' rest :
  decrypter_read d n eof inp = Done (x, d') rest → length x ≤ n.
Proof.
  remember (length inp) as len eqn:Hlen. revert d inp Hlen. induction len as [len IH] using lt_wf_ind. intros d inp Hlen.
  rewrite decrypter_read_eq. destruct (dc_item d) as [|b it] eqn:Hi.
  2: { intros [= <- _ _]. rewrite length_take. lia. }
  destruct (dc_ended d); [done|]. destruct (next_frame _ _ _) as [[frame|] r|e| |] eqn:E; try done.
  - apply next_frame_consumes in E. destruct (decode_frame d frame) as [[d1|]|]; [|done..]. intros Hr.
    apply (IH (length r)) in Hr; [done|lia|done].
  - intros [= <- _ _]. cbn. lia.
Qed.

Lemma decrypter_read_exact_length fuel d n eof inp x d' rest :
  decrypter_read_exact fuel d n eof inp = Done (x, d') rest → length x = n.
Proof.
  revert d n inp x d' rest. induction fuel as [|fuel IH]; intros d [|n] inp x d' rest; cbn [decrypter_read_exact]; try done;
    [by intros [= <- _ _]..|]. unfold rd_bind.
  destruct (decrypter_read d (S n) eof inp) as [[y d1] r|e| |] eqn:Hr; try done. cbn [fst snd].
  apply decrypter_read_length in Hr. destruct y as [|b y']; [done|]. set (y := b :: y') in *.
  assert (0 < length y) by (cbn; lia).
  destruct (decrypter_read_exact fuel d1 (S n - length y) eof r) as [[z d2] r2|e| |] eqn:Hz; try done.
  apply IH in Hz. intros [= <- _ _]. subst y. cbn [length] in *. rewrite length_app. lia.
Qed.

Lemma verify_nonce_inv s eof inp out s' rest :
  session_run (verify_nonce s) eof inp = (out, Returned (Ok s') rest) → ss_nonce s ≠ [] →
  decrypter_read_exact (length (ss_nonce s)) (ss_decrypter s) (length (ss_nonce s)) eof inp =
    Done (ss_nonce s, ss_decrypter s') rest.
Proof.
  unfold verify_nonce. intros Hrun Hne. destruct (ss_nonce s) as [|b n] eqn:En; [done|]. rewrite <-En in *. run_inv Hrun.
  match goal with H : decrypter_read_exact _ _ _ _ _ = Done ?y _ |- _ => destruct y as [x d]; pose proof H as Hread end.
  cbn [fst snd] in *. pose proof (decrypter_read_exact_length _ _ _ _ _ _ _ _ Hread) as Hl.
  rewrite Hl, Nat.min_id in Hrun. case_bool_decide as Heq; [done|]. run_inv Hrun. rewrite Hread. do 2 f_equal.
  rewrite <-Hl in Heq at 1. rewrite !firstn_all in Heq. by destruct (decide (x = ss_nonce s)).
Qed.
(** [C18] Whatever arrives, a handshake that succeeds has received a proposition and an
    exchange message such that the key it returns is the one of the proposition, is
    not the local key, and verifies the signature of both propositions and the
    ephemeral key; the algorithms are among those that both sides proposed; and the
    local nonce was read back from the stream that was derived with them. *)
Theorem secio_authenticates chunks accepts c nonce rng eof inp sent o rest
    (Hrun : session_run (secio_make_secure_output chunks accepts c nonce rng) eof inp = (sent, Returned (Ok o) rest))
    (Hnonce : nonce ≠ []) :
  ∃ remote_prop propose raw x more remote tmp s0,
    inp = be_split 4 (Z.of_nat (length remote_prop)) ++ remote_prop ++ be_split 4 (Z.of_nat (length raw)) ++ raw ++ more ∧
    propose_decode remote_prop = Some propose ∧ exchange_decode raw = Some x ∧
    ni_decode (pp_pubkey propose) = Some (so_remote_pub_key o) ∧ pp_pubkey propose ≠ encoded_key c ∧
    so_remote_peer_id o = ni_peer_id (so_remote_pub_key o) ∧
    ni_verify (so_remote_pub_key o) (remote_prop ++ lo_proposition_bytes (with_local c nonce) ++ ex_epubkey x)
      (ex_signature x) = true ∧
    with_remote c (with_local c nonce) remote_prop = Ok remote ∧ re_hashes_ordering remote ≠ Eq ∧
    generate_agreement (re_chosen_exchange remote) rng = Ok tmp ∧
    (∃ km, agr_agree (re_chosen_exchange remote) tmp.1 (ex_epubkey x) = Some km ∧
           derive_stream (sc_max_frame_length c) remote km = Some (Ok s0)) ∧
    decrypter_read_exact (length nonce) (ss_decrypter s0) (length nonce) eof more =
      Done (nonce, ss_decrypter (so_stream o)) rest.
Proof.
  unfold secio_make_secure_output, secio_handshake in Hrun. run_inv Hrun.
  match goal with
  | H1 : read_one_fixed _ _ _ _ = Done _ ?i, H2 : read_one_fixed _ _ _ ?i = Done _ _ |- _ =>
      apply read_one_fixed_Done in H1 as [-> _], H2 as [-> _]
  end.
  match goal with H : with_remote _ _ _ = Ok _ |- _ => pose proof H as Hwr end.
  apply with_remote_inv in Hwr as (propose&Hpp&Hpk&Hne&Hloc&Hprop).
  match goal with H : check_exchange _ _ = Ok _ |- _ => apply check_exchange_inv in H as (x'&Hx&<-&Hv) end.
  match goal with H : derive_stream _ _ _ = Some (Ok _) |- _ => pose proof H as Hds end.
  apply derive_stream_inv in Hds as [Hord Hsn].
  match goal with H : session_run (ss_write_all _ _ _) _ _ = _ |- _ => apply ss_write_all_inv in H as (Hdec&Hnc&->) end.
  match goal with H : session_run (verify_nonce _) _ _ = _ |- _ => apply verify_nonce_inv in H; [rename H into Hver|] end.
  2: { by rewrite Hnc, Hsn, Hloc. }
  match goal with H : agree _ _ _ = Ok _ |- _ => rename H into Hag end.
  unfold agree in Hag. destruct (agr_agree _ _ _) as [km|] eqn:Hkm; [|done]. injection Hag as ->.
  rewrite Hnc, Hsn, Hdec, Hloc in Hver. rewrite Hprop, Hloc in Hv.
  eexists _, propose, _, x', _, _, _, _. split_and!; eauto.
Qed.

(** Whatever arrives, the handshake does not panic. *)
Definition decrypter_ok (d : Decrypter) : Prop :=
  dc_ended d = false ∧
  match dc_cipher d with
  | CTRCipher _ => True
  | RingOpen a _ _ t => tag_size t = aead_tag_len a
  | RingSeal _ _ _ _ => False
  end.
Definition encrypter_ok (e : Encrypter) : Prop := match ec_cipher e with RingOpen _ _ _ _ => False | _ => True end.

Lemma decode_frame_ok d frame :
  decrypter_ok d → match decode_frame d frame with
                   | Some (Ok d') => decrypter_ok d'
                   | Some (Err _) => True
                   | None => False
                   end.
Proof.
  intros [Hend Hc]. unfold decode_frame. destruct (match dc_hmac d with Some _ => _ | None => _ end) as [f|]; [|done].
  destruct (dc_cipher d) as [s| |a k n t]; [done|done|]. cbn [decrypt]. destruct (Nat.ltb_spec (length f) (tag_size t)); [done|].
  destruct (aead_open a k (nonce_advance n) f) as [out|] eqn:Ho; [|done]. apply aead_open_length in Ho.
  by rewrite bool_decide_true by lia.
Qed.

Lemma decrypter_read_ok d n eof inp :
  decrypter_ok d →
  match decrypter_read d n eof inp with
  | Done (x, d') _ => x ≠ [] → decrypter_ok d'
  | Panicked => False
  | _ => True
  end.
Proof.
  remember (length inp) as len eqn:Hlen. revert d inp Hlen. induction len as [len IH] using lt_wf_ind. intros d inp Hlen Hd.
  rewrite decrypter_read_eq. destruct (dc_item d) as [|b it]; [|by destruct Hd]. pose proof Hd as [-> _].
  destruct (next_frame _ _ _) as [[frame|] r|e| |] eqn:E; try done.
  - apply next_frame_consumes in E. pose proof (decode_frame_ok d frame Hd) as Hf.
    destruct (decode_frame d frame) as [[d1|]|]; [|done..]. apply (IH (length r)); [lia|done|done].
  - unfold next_frame, read_exact in E. repeat case_match; try done; repeat case_decide; done.
Qed.

Lemma decrypter_read_exact_ok fuel d n eof inp :
  decrypter_ok d → decrypter_read_exact fuel d n eof inp ≠ Panicked.
Proof.
  revert d n inp. induction fuel as [|fuel IH]; intros d [|n] inp Hd; cbn [decrypter_read_exact]; try done. unfold rd_bind.
  pose proof (decrypter_read_ok d (S n) eof inp Hd) as Hr. destruct (decrypter_read d (S n) eof inp) as [[x d1] r|e| |]; try done.
  cbn [fst snd]. destruct x as [|b x]; [done|]. specialize (IH d1 (S n - length (b :: x)) r (Hr ltac:(done))).
  by destruct (decrypter_read_exact _ _ _ _ _).
Qed.

Lemma derive_stream_ok max r km :
  ∃ res, derive_stream max r km = Some res ∧ on_ok (λ s, encrypter_ok (ss_encrypter s) ∧ decrypter_ok (ss_decrypter s)) res.
Proof.
  assert (Hpair : ∀ ce cd, cipher_pair ce cd → ∀ m h, encrypter_ok (mk_Encrypter ce h m) ∧ decrypter_ok (Decrypter_new m cd h)).
  { intros [| |] [| |] Hp m h; try done. destruct Hp as (<-&_&_&<-&_&_&Ht). by repeat split. }
  unfold derive_stream. set (t := re_chosen_cipher r). set (dg := re_chosen_hash r). set (long := stretch_key _ _).
  assert (Hlong : length long = 2 * (iv_size t + key_size t + 20)) by (by apply stretch_loop_length).
  rewrite Hlong, (Nat.mul_comm 2), Nat.div_mul by done. rewrite split_at_ok by lia. cbn [mbind option_bind fst snd].
  destruct (generate_pair t dg (take (iv_size t + key_size t + 20) long)) as (ce1&cd1&h1&He1&Hd1&Hp1); [rewrite length_take; lia|].
  destruct (generate_pair t dg (drop (iv_size t + key_size t + 20) long)) as (ce2&cd2&h2&He2&Hd2&Hp2); [rewrite length_drop; lia|].
  destruct (re_hashes_ordering r); rewrite ?He1, ?Hd1, ?He2, ?Hd2; cbn [mbind option_bind fst snd]; eexists; (split; [done|]);
    cbn [on_ok]; [done|..]; split; [eapply (Hpair ce2 cd2 Hp2)|eapply (Hpair ce1 cd1 Hp1)|eapply (Hpair ce1 cd1 Hp1)|eapply (Hpair ce2 cd2 Hp2)].
Qed.

Lemma ss_write_all_safe accepts s buf :
  encrypter_ok (ss_encrypter s) → decrypter_ok (ss_decrypter s) →
  sess_safe (ss_write_all accepts s buf) (on_ok (λ s', decrypter_ok (ss_decrypter s'))).
Proof.
  intros He Hd. unfold ss_write_all. destruct buf as [|b buf]; [by apply sess_safe_ret|].
  unfold encrypter_write, encrypter_ok in *. destruct (ec_cipher (ss_encrypter s)) as [st|a k n t|]; [| |done]; cbn [encrypt].
  - eapply sess_safe_try; [apply sess_safe_write|]. intros _ _. by apply sess_safe_ret.
  - destruct (aead_seal _ _ _ _); cbn [ok_or]; [|by apply sess_safe_ret].
    eapply sess_safe_try; [apply sess_safe_write|]. intros _ _. by apply sess_safe_ret.
Qed.

Lemma verify_nonce_safe s : decrypter_ok (ss_decrypter s) → sess_safe (verify_nonce s) (on_ok (λ _, True)).
Proof.
  intros Hd. unfold verify_nonce. destruct (ss_nonce s); [by apply sess_safe_ret|].
  apply (sess_safe_try _ _ (λ _, True)).
  - apply sess_safe_map_err, sess_safe_read. intros eof inp.
    match goal with |- context [decrypter_read_exact ?f ?d ?n eof inp] => pose proof (decrypter_read_exact_ok f d n eof inp Hd) as Hr end.
    by destruct (decrypter_read_exact _ _ _ _ _).
  - intros x _. case_bool_decide; by apply sess_safe_ret.
Qed.

Theorem secio_never_panics chunks accepts c nonce rng eof inp :
  (session_run (secio_make_secure_output chunks accepts c nonce rng) eof inp).2 ≠ Crashed.
Proof.
  assert (Hread : ∀ max, sess_safe (sess_map_err ScIoError (s_read (read_one_fixed chunks max))) (on_ok (λ _, True))).
  { intros max. apply sess_safe_map_err, sess_safe_read. intros eof' inp'.
    pose proof (read_one_fixed_safe chunks max eof' inp'). by destruct (read_one_fixed _ _ _ _). }
  assert (Hres : ∀ {A} (r : result SecioError A), sess_safe (sess_result r) (on_ok (λ _, True))).
  { intros A r. apply sess_safe_ret. by destruct r. }
  enough (Hs : sess_safe (secio_make_secure_output chunks accepts c nonce rng) (on_ok (λ _, True))).
  { specialize (Hs eof inp). by destruct (session_run _ _ _) as [? []]. }
  apply (sess_safe_try _ _ (λ _, True)); [|intros; by apply sess_safe_ret]. unfold secio_handshake.
  eapply sess_safe_try; [apply sess_safe_map_err, sess_safe_write|]. intros _ _.
  eapply sess_safe_try; [apply Hread|]. intros rp _. eapply sess_safe_try; [apply Hres|]. intros remote _.
  eapply sess_safe_try; [apply Hres|]. intros tmp _. eapply sess_safe_try; [apply Hres|]. intros x _.
  eapply sess_safe_try; [apply sess_safe_map_err, sess_safe_write|]. intros _ _.
  eapply sess_safe_try; [apply Hread|]. intros raw _. eapply sess_safe_try; [apply Hres|]. intros q _.
  eapply sess_safe_try; [apply Hres|]. intros km _.
  destruct (derive_stream_ok (sc_max_frame_length c) remote km) as (res&Hd&Hok).
  eapply sess_safe_try; [by eapply sess_safe_value|]. intros s [He Hdec].
  eapply sess_safe_try; [by apply sess_safe_map_err, ss_write_all_safe|]. intros s' Hs'.
  eapply sess_safe_try; [by apply verify_nonce_safe|]. intros s'' _. by apply sess_safe_ret.
Qed.
End handshake_properties.

(** ** Examples *)

#[local] Existing Instances toy_peer_id toy_node toy_node_laws.

(** A toy instance of the primitives: a tag is a piece of the key and the message, a
    shared secret the product of the private numbers, and a cipher the complement. *)
Definition toy_tag (n : nat) (m : bytes) : bytes := take n (m ++ replicate n Byte.x00).
Definition toy_complement (b : Init.Byte.byte) : Init.Byte.byte := byte.of_Z (255 - byte.unsigned b).

#[local] Instance toy_crypto : SecioCrypto := {|
  ring_sha256 m := m;
  hmac_tag d k m := toy_tag (digest_num_bytes d) (k ++ m);
  hmac_verify d k m t := bool_decide (t = toy_tag (digest_num_bytes d) (k ++ m));
  agr_private := Z;
  agr_rng := Z;
  agr_generate _ r := Some (r mod 2 ^ 32)%Z;
  agr_public p := Some (be_split 4 (p mod 2 ^ 32));
  agr_agree _ p q := Some (be_split 8 ((p mod 2 ^ 32) * be_combine q));
  ctr_state := bytes;
  ctr_new k iv := k;
  ctr_apply s x := (toy_complement <$> x, s);
  aead_seal a k n m := Some (m ++ toy_tag 16 (n ++ k));
  aead_open a k n c :=
    if decide (16 ≤ length c) then
      if bool_decide (drop (length c - 16) c = toy_tag 16 (n ++ k)) then Some (take (length c - 16) c) else None
    else None
|}.

Lemma length_toy_tag n m : length (toy_tag n m) = n.
Proof. unfold toy_tag. rewrite length_take, length_app, length_replicate. lia. Qed.

#[local] Instance toy_crypto_laws : SecioCryptoLaws.
Proof.
  split; simpl.
  - intros. apply length_toy_tag.
  - done.
  - intros a r1 r2 p1 p2 q1 q2 [= <-] [= <-] [= <-] [= <-]. eexists. split; [done|].
    rewrite !be_combine_split. change (Z.of_nat 4 * 8)%Z with 32%Z. rewrite !Z.mod_mod by done. by rewrite Z.mul_comm.
  - intros. by rewrite length_fmap.
  - intros s x. f_equal. rewrite <-list_fmap_compose. rewrite <-(list_fmap_id x) at 2. apply list_fmap_ext. intros _ b _.
    by destruct b.
  - intros a k n m _ _ _. eexists. split; [done|]. rewrite length_app, length_toy_tag. split; [done|].
    rewrite decide_True by lia. rewrite Nat.add_sub, drop_app_length, bool_decide_true by done. by rewrite take_app_length.
  - intros a k n c m. case_decide; [|done]. case_bool_decide; [|done]. intros [= <-]. rewrite length_take. unfold aead_tag_len. lia.
Qed.

#[local] Instance toy_propose_eq : EqDecision Propose.
Proof. solve_decision. Defined.
#[local] Instance toy_propose_countable : Countable Propose.
Proof.
  refine (inj_countable' (λ p, (pp_rand p, pp_pubkey p, pp_exchanges p, pp_ciphers p, pp_hashes p))
    (λ x, mk_Propose x.1.1.1.1 x.1.1.1.2 x.1.1.2 x.1.2 x.2) _). by intros [].
Defined.
#[local] Instance toy_exchange_eq : EqDecision ScExchange.
Proof. solve_decision. Defined.
#[local] Instance toy_exchange_countable : Countable ScExchange.
Proof. refine (inj_countable' (λ x, (ex_epubkey x, ex_signature x)) (λ x, mk_ScExchange x.1 x.2) _). by intros []. Defined.

#[local] Instance toy_codec : SecioCodec := {|
  propose_encode p := bits_of (encode p);
  propose_decode b := decode (of_bits b);
  exchange_encode p := bits_of (encode p);
  exchange_decode b := decode (of_bits b)
|}.
#[local] Instance toy_codec_laws : SecioCodecLaws.
Proof. split; intros; simpl; by rewrite of_bits_of, decode_encode. Qed.

Definition alice : SecioConfig := SecioConfig_new (Byte.x0a : ni_keypair).
Definition bob : SecioConfig := sc_ciphers (SecioConfig_new (Byte.x0b : ni_keypair)) [ChaCha20Poly1305; Aes128Gcm].
Definition alice_nonce : bytes := replicate 16 Byte.x01.
Definition bob_nonce : bytes := replicate 16 Byte.x02.
Definition alice_rng : agr_rng (SecioCrypto := toy_crypto) := 5%Z.
Definition bob_rng : agr_rng (SecioCrypto := toy_crypto) := 7%Z.

Lemma alice_bob : honest alice alice_nonce alice_rng bob bob_nonce bob_rng EcdhP256 Aes128Gcm Sha256.
Proof.
  split; [by vm_compute..|done|split; by vm_compute| | |split; by vm_compute|split; by vm_compute].
  - exists 5%Z, (be_split 4 5). eexists. split; [done|]. split; [reflexivity|]. by vm_compute.
  - exists 7%Z, (be_split 4 7). eexists. split; [done|]. split; [reflexivity|]. by vm_compute.
Qed.

Lemma secio_completes_witness :
  ∃ sa sb, link_returns (secio_make_secure_output (λ _, 3) (λ _, 5) alice alice_nonce alice_rng)
      (secio_make_secure_output (λ _, 1) (λ _, 1000) bob bob_nonce bob_rng)
      (Ok (secio_output alice bob sa)) (Ok (secio_output bob alice sb)) [] [] ∧
    stream_pair (ss_encrypter sa) (ss_decrypter sb).
Proof.
  destruct (secio_completes (λ _, 3) (λ _, 1) (λ _, 5) (λ _, 1000) alice alice_nonce alice_rng bob bob_nonce bob_rng _ _ _
    ltac:(intros; cbn; lia) ltac:(intros; cbn; lia) alice_bob) as (sa&sb&Hl&Hp&_). by exists sa, sb.
Defined.

Lemma secio_never_panics_witness :
  (session_run (secio_make_secure_output (λ _, 3) (λ _, 5) alice alice_nonce alice_rng) true [Byte.x00; Byte.x01]).2 ≠ Crashed.
Proof. apply secio_never_panics. Defined.

(** A pair of streams. *)
Definition toy_encrypter : Encrypter := mk_Encrypter (CTRCipher []) (Some (mk_Hmac Sha256 [])) 100.
Definition toy_decrypter : Decrypter := Decrypter_new 100 (CTRCipher []) (Some (mk_Hmac Sha256 [])).

Definition toy_writes : list bytes := [[Byte.x61; Byte.x62]; [Byte.x63]].
Definition toy_wire : bytes := match ss_writes (λ _, 7) toy_encrypter toy_writes with Some x => x.1 | None => [] end.
Definition toy_reads : list (bytes * nat) := [(take 37 toy_wire, 1); (drop 37 toy_wire, 10); ([], 10); ([], 10)].


(** What the other side of a handshake sends is accepted: the hypotheses of
    [secio_authenticates]. *)
Definition bob_remote : ScRemote := remote_of bob bob_nonce alice alice_nonce EcdhP256 Aes128Gcm Sha256.

Definition bob_sends : bytes :=
  match local_exchange bob bob_remote (be_split 4 7), derive_stream SECIO_MAX_FRAME_SIZE bob_remote (be_split 8 35) with
  | Ok x, Some (Ok s) =>
      match encrypter_write (ss_encrypter s) alice_nonce with
      | Some (Ok item, _) =>
          (write_one_fixed (λ _, 9) (lo_proposition_bytes (with_local bob bob_nonce))).1 ++
          (write_one_fixed (λ _, 9) x).1 ++ (sink_send (λ _, 9) item).1
      | _ => []
      end
  | _, _ => []
  end.

Definition accepts_key (r : bytes * SessionEnd (result SecioError SecioOutput)) (k : Init.Byte.byte) : bool :=
  match r.2 with Returned (Ok o) [] => bool_decide (so_remote_pub_key o = k) | _ => false end.

Lemma accepts_key_returned r k : accepts_key r k = true → ∃ sent o, r = (sent, Returned (Ok o) []) ∧ so_remote_pub_key o = k.
Proof. destruct r as [sent [[o|] [|]| |]]; try done. intros H%bool_decide_eq_true. eauto. Qed.

Lemma bob_accepted :
  accepts_key (session_run (secio_make_secure_output (λ _, 3) (λ _, 5) alice alice_nonce alice_rng) false bob_sends) Byte.x0b = true.
Proof. vm_compute. reflexivity. Qed.

Lemma secio_authenticates_witness :
  ∃ o sent, session_run (secio_make_secure_output (λ _, 3) (λ _, 5) alice alice_nonce alice_rng) false bob_sends =
      (sent, Returned (Ok o) []) ∧ so_remote_peer_id o = ni_peer_id (so_remote_pub_key o).
Proof.
  destruct (accepts_key_returned _ _ bob_accepted) as (sent&o&Hrun&_). exists o, sent. split; [exact Hrun|].
  destruct (secio_authenticates _ _ _ _ _ _ _ _ _ _ Hrun) as (?&?&?&?&?&?&?&?&?&?&?&?&?&Hid&_); [|exact Hid].
  intros [=].
Defined.

(** A read after the end of the stream panics. *)
Example read_after_end :
  ∃ d, decrypter_read toy_decrypter 1 true [] = Done ([], d) [] ∧ decrypter_read d 1 true [] = Panicked.
Proof. eexists. split; [reflexivity|]. reflexivity. Qed.

(** The sender accepts an item that the receiver refuses for its length. *)
Example oversized_refused :
  match encrypter_write toy_encrypter (replicate 90 Byte.x00) with
  | Some (Ok item, _) =>
      match decrypter_read toy_decrypter 1 false (sink_send (λ _, 9) item).1 with Failed OtherError => true | _ => false end
  | _ => false
  end = true.
Proof. vm_compute. reflexivity. Qed.
