(* ===== verification/Noise.v ===== *)
(** * Noise: [protocols/noise/src/]

    The frames of noise messages as the state machines of [io/framed.rs], the
    buffered stream of [io.rs], the XX handshake of [io/handshake.rs] and
    [lib.rs], the signatures of [protocol.rs], [protocol/x25519.rs] and
    [protocol/x25519_spec.rs], and the upgrade of [upgrade.rs].

    The crate [snow] and the curve operations are parameters with the laws of the
    noise pattern; the keys of a node are the interface [NodeIdentity].  The
    theorems show that the state machines read and write whole frames however the
    socket splits the data and whenever it is not ready, that the stream delivers
    what was written, that two nodes complete the handshake in every order, and
    which identity a handshake that succeeds has established. *)

From Stdlib Require Import ZArith Lia String.
From stdpp Require Import relations.
From S2P Require Import Prelude KadKey KadProto Varint Framing Identity Session.

Local Open Scope nat_scope.

Section sockets.
(** As for [sock_poll_read] and [sock_poll_write]. *)
Variables (chunks : nat → nat) (accepts : nat → option nat).

(** ** Frames: [io/framed.rs] *)

Definition MAX_NOISE_MSG_LEN : nat := Z.to_nat 65535.
Definition EXTRA_ENCRYPT_SPACE : nat := Z.to_nat 1024.
Definition MAX_FRAME_LEN : nat := MAX_NOISE_MSG_LEN - EXTRA_ENCRYPT_SPACE.

(** The trait [SessionState]; [None] is an error of [snow].  The second argument of
    [write_message] is the size of the buffer for the message. *)
Class SessionState (S : Type) := {
  read_message : S → bytes → option (bytes * S);
  write_message : S → bytes → nat → option (bytes * S)
}.

Inductive ReadState :=
  | RsReady
  | RsReadLen (buf : bytes) (off : nat)
  | RsReadData (len off : nat)
  | RsEof (expected : bool)
  | RsDecErr.

Inductive WriteState :=
  | WsReady
  | WsWriteLen (len : nat) (buf : bytes) (off : nat)
  | WsWriteData (len off : nat)
  | WsEof
  | WsEncErr.

Definition ws_is_ready (w : WriteState) : bool := match w with WsReady => true | _ => false end.

(** [Vec::resize] with zeroes, and writing at an offset. *)
Definition vec_resize (n : nat) (l : bytes) : bytes := take n l ++ replicate (n - length l) Byte.x00.
Definition vec_write (off : nat) (data l : bytes) : bytes := take off l ++ data ++ drop (off + length data) l.

(** The result of [read_frame_len], with the buffer and the offset it leaves. *)
Fixpoint read_frame_len_loop (fuel : nat) (io : Incoming) (buf : bytes) (off : nat) :
    Poll (option Z) * bytes * nat * Incoming :=
  match fuel with
  | 0 => (PollPending, buf, off, io)
  | S fuel =>
      match sock_poll_read chunks io (2 - off) with
      | (PollPending, io) => (PollPending, buf, off, io)
      | (Ready [], io) => (Ready None, buf, off, io)
      | (Ready data, io) =>
          let buf := vec_write off data buf in
          let off := off + length data in
          if off =? 2 then (Ready (Some (be_combine buf)), buf, off, io)
          else read_frame_len_loop fuel io buf off
      end
  end.
(** Every read but the last delivers one of the two bytes. *)
Definition read_frame_len := read_frame_len_loop 3.

Fixpoint write_frame_len_loop (fuel : nat) (io : Outgoing) (buf : bytes) (off : nat) : Poll bool * nat * Outgoing :=
  match fuel with
  | 0 => (PollPending, off, io)
  | S fuel =>
      match sock_poll_write accepts io (drop off buf) with
      | (PollPending, io) => (PollPending, off, io)
      | (Ready 0, io) => (Ready false, off, io)
      | (Ready n, io) =>
          let off := off + n in
          if off =? 2 then (Ready true, off, io) else write_frame_len_loop fuel io buf off
      end
  end.
Definition write_frame_len := write_frame_len_loop 3.

Section framed.
Context {St : Type} `{SessionState St}.

Record NoiseFramed := mk_NoiseFramed {
  nf_session : St;
  nf_read_state : ReadState;
  nf_write_state : WriteState;
  nf_read_buffer : bytes;
  nf_write_buffer : bytes
}.

Definition NoiseFramed_new (s : St) : NoiseFramed := mk_NoiseFramed s RsReady WsReady [] [].

Definition set_read (s : St) (r : ReadState) (b : bytes) (f : NoiseFramed) : NoiseFramed :=
  mk_NoiseFramed s r (nf_write_state f) b (nf_write_buffer f).
Definition set_write (s : St) (w : WriteState) (b : bytes) (f : NoiseFramed) : NoiseFramed :=
  mk_NoiseFramed s (nf_read_state f) w (nf_read_buffer f) b.

(** What [poll_next] is ready with: the payload of a frame, an error or the end. *)
Definition NextItem : Type := option (result IoErrorKind bytes).

Fixpoint poll_next_loop (fuel : nat) (f : NoiseFramed) (io : Incoming) : Poll NextItem * NoiseFramed * Incoming :=
  match fuel with
  | 0 => (PollPending, f, io)
  | S fuel =>
      let keep r b := set_read (nf_session f) r b f in
      match nf_read_state f with
      | RsReady => poll_next_loop fuel (keep (RsReadLen [Byte.x00; Byte.x00] 0) (nf_read_buffer f)) io
      | RsReadLen buf off =>
          match read_frame_len io buf off with
          | (Ready (Some n), _, _, io) =>
              if (n =? 0)%Z then poll_next_loop fuel (keep RsReady (nf_read_buffer f)) io
              else poll_next_loop fuel (keep (RsReadData (Z.to_nat n) 0) (vec_resize (Z.to_nat n) (nf_read_buffer f))) io
          | (Ready None, _, _, io) => (Ready None, keep (RsEof true) (nf_read_buffer f), io)
          | (PollPending, buf, off, io) => (PollPending, keep (RsReadLen buf off) (nf_read_buffer f), io)
          end
      | RsReadData len off =>
          match sock_poll_read chunks io (len - off) with
          | (PollPending, io) => (PollPending, f, io)
          | (Ready [], io) => (Ready (Some (Err UnexpectedEof)), keep (RsEof false) (nf_read_buffer f), io)
          | (Ready data, io) =>
              let b := vec_write off data (nf_read_buffer f) in
              let off := off + length data in
              if len =? off then
                match read_message (nf_session f) b with
                | Some (payload, s) => (Ready (Some (Ok payload)), set_read s RsReady b f, io)
                | None => (Ready (Some (Err InvalidData)), keep RsDecErr b, io)
                end
              else poll_next_loop fuel (keep (RsReadData len off) b) io
          end
      | RsEof true => (Ready None, f, io)
      | RsEof false => (Ready (Some (Err UnexpectedEof)), f, io)
      | RsDecErr => (Ready (Some (Err InvalidData)), f, io)
      end
  end.
(** Of three successive rounds at least one consumes a byte. *)
Definition poll_next (f : NoiseFramed) (io : Incoming) : Poll NextItem * NoiseFramed * Incoming :=
  poll_next_loop (4 + 3 * length (in_bytes io)) f io.

Fixpoint poll_ready_loop (fuel : nat) (f : NoiseFramed) (io : Outgoing) :
    Poll (result IoErrorKind unit) * NoiseFramed * Outgoing :=
  match fuel with
  | 0 => (PollPending, f, io)
  | S fuel =>
      let keep w := set_write (nf_session f) w (nf_write_buffer f) f in
      match nf_write_state f with
      | WsReady => (Ready (Ok ()), f, io)
      | WsWriteLen len buf off =>
          match write_frame_len io buf off with
          | (Ready true, _, io) => poll_ready_loop fuel (keep (WsWriteData len 0)) io
          | (Ready false, _, io) => (Ready (Err WriteZero), keep WsEof, io)
          | (PollPending, off, io) => (PollPending, keep (WsWriteLen len buf off), io)
          end
      | WsWriteData len off =>
          match sock_poll_write accepts io (drop off (take len (nf_write_buffer f))) with
          | (PollPending, io) => (PollPending, f, io)
          | (Ready 0, io) => (Ready (Err WriteZero), keep WsEof, io)
          | (Ready n, io) =>
              let off := off + n in
              if len =? off then poll_ready_loop fuel (keep WsReady) io
              else poll_ready_loop fuel (keep (WsWriteData len off)) io
          end
      | WsEof => (Ready (Err WriteZero), f, io)
      | WsEncErr => (Ready (Err InvalidData), f, io)
      end
  end.
(** Every round but the first and the last writes a byte of the frame. *)
Definition poll_ready (f : NoiseFramed) (io : Outgoing) : Poll (result IoErrorKind unit) * NoiseFramed * Outgoing :=
  poll_ready_loop (3 + length (nf_write_buffer f)) f io.

(** [None] is a failed assertion. *)
Definition start_send (f : NoiseFramed) (frame : bytes) : option (result IoErrorKind unit * NoiseFramed) :=
  if length frame <=? MAX_FRAME_LEN then
    if ws_is_ready (nf_write_state f) then
      match write_message (nf_session f) frame (length frame + EXTRA_ENCRYPT_SPACE) with
      | Some (m, s) =>
          let n := length m in
          Some (Ok (), set_write s (WsWriteLen n (be_split 2 (Z.of_nat n mod 2 ^ 16)) 0) m f)
      | None =>
          Some (Err InvalidData, set_write (nf_session f) WsEncErr (vec_resize (length frame + EXTRA_ENCRYPT_SPACE) (nf_write_buffer f)) f)
      end
    else None
  else None.

(** Flushing the socket itself has no effect on what is written. *)
Definition framed_poll_flush (f : NoiseFramed) (io : Outgoing) : Poll (result IoErrorKind unit) * NoiseFramed * Outgoing :=
  poll_ready f io.
(** The socket is closed once everything is written. *)
Definition framed_poll_close (f : NoiseFramed) (io : Outgoing) : Poll (result IoErrorKind unit) * NoiseFramed * Outgoing :=
  framed_poll_flush f io.
End framed.
#[global] Arguments NoiseFramed St : clear implicits.
#[global] Arguments NextItem : clear implicits.
End sockets.

(** ** The crate [snow] and the curve

    [hs_build] is a builder for the XX pattern with the secret static key and a random
    value; [true] is the initiator. *)
Class SnowCrate := {
  hs_state : Type;
  ts_state : Type;
  snow_rng : Type;
  hs_build : bool → bytes → snow_rng → option hs_state;
  hs_session :: SessionState hs_state;
  ts_session :: SessionState ts_state;
  hs_remote_static : hs_state → option bytes;
  hs_into_transport : hs_state → option ts_state;
  x25519_base : bytes → bytes
}.

(** The codec of [payload.proto]. *)
Record NoisePayload := mk_NoisePayload { np_identity_key : bytes; np_identity_sig : bytes; np_data : bytes }.
Class NoiseCodec := {
  payload_encode : NoisePayload → bytes;
  payload_decode : bytes → option NoisePayload
}.

Inductive NoiseError :=
  | NeIo (e : IoErrorKind)
  | NeNoise
  | NeInvalidKey
  | NeInvalidPayload
  | NeSigningError.

(** ** The buffered stream: [io.rs] *)

Section output.
Context `{SnowCrate} (chunks : nat → nat) (accepts : nat → option nat).

Record NoiseOutput := mk_NoiseOutput {
  no_io : NoiseFramed ts_state;
  no_recv_buffer : bytes;
  no_recv_offset : nat;
  no_send_buffer : bytes;
  no_send_offset : nat
}.

Definition NoiseOutput_new (io : NoiseFramed ts_state) : NoiseOutput := mk_NoiseOutput io [] 0 [] 0.

Definition set_recv (f : NoiseFramed ts_state) (b : bytes) (off : nat) (o : NoiseOutput) : NoiseOutput :=
  mk_NoiseOutput f b off (no_send_buffer o) (no_send_offset o).
Definition set_send (f : NoiseFramed ts_state) (b : bytes) (off : nat) (o : NoiseOutput) : NoiseOutput :=
  mk_NoiseOutput f (no_recv_buffer o) (no_recv_offset o) b off.

(** [poll_read] into a buffer of [n] bytes. *)
Fixpoint output_poll_read_loop (fuel : nat) (o : NoiseOutput) (io : Incoming) (n : nat) :
    Poll (result IoErrorKind bytes) * NoiseOutput * Incoming :=
  match fuel with
  | 0 => (PollPending, o, io)
  | S fuel =>
      let len := length (no_recv_buffer o) in
      let off := no_recv_offset o in
      if 0 <? len then
        let k := min (len - off) n in
        let data := take k (drop off (no_recv_buffer o)) in
        let off := off + k in
        (Ready (Ok data), set_recv (no_io o) (if len =? off then [] else no_recv_buffer o) off o, io)
      else
        match poll_next chunks (no_io o) io with
        | (PollPending, f, io) => (PollPending, set_recv f (no_recv_buffer o) off o, io)
        | (Ready None, f, io) => (Ready (Ok []), set_recv f (no_recv_buffer o) off o, io)
        | (Ready (Some (Err e)), f, io) => (Ready (Err e), set_recv f (no_recv_buffer o) off o, io)
        | (Ready (Some (Ok frame)), f, io) => output_poll_read_loop fuel (set_recv f frame 0 o) io n
        end
  end.
(** A frame consumes a byte that has arrived. *)
Definition output_poll_read (o : NoiseOutput) (io : Incoming) (n : nat) :=
  output_poll_read_loop (2 + length (in_bytes io)) o io n.

(** Hands the send buffer to the frames; [None] is a failed assertion. *)
Definition output_send (o : NoiseOutput) (io : Outgoing) :
    option (Poll (result IoErrorKind unit) * NoiseOutput * Outgoing) :=
  match poll_ready accepts (no_io o) io with
  | (PollPending, f, io) => Some (PollPending, set_send f (no_send_buffer o) (no_send_offset o) o, io)
  | (Ready (Err e), f, io) => Some (Ready (Err e), set_send f (no_send_buffer o) (no_send_offset o) o, io)
  | (Ready (Ok _), f, io) =>
      match start_send f (no_send_buffer o) with
      | None => None
      | Some (Err e, f) => Some (Ready (Err e), set_send f (no_send_buffer o) (no_send_offset o) o, io)
      | Some (Ok _, f) => Some (Ready (Ok ()), set_send f (no_send_buffer o) 0 o, io)
      end
  end.

(** The part of [poll_write] that copies into the send buffer. *)
Definition output_buffer (o : NoiseOutput) (buf : bytes) : nat * NoiseOutput :=
  let off := no_send_offset o in
  let n := min MAX_FRAME_LEN (off + length buf) in
  let b := vec_resize n (no_send_buffer o) in
  let n := min (MAX_FRAME_LEN - off) (length buf) in
  (n, set_send (no_io o) (vec_write off (take n buf) b) (off + n) o).

Definition output_poll_write (o : NoiseOutput) (io : Outgoing) (buf : bytes) :
    option (Poll (result IoErrorKind nat) * NoiseOutput * Outgoing) :=
  if no_send_offset o =? MAX_FRAME_LEN then
    match output_send o io with
    | None => None
    | Some (PollPending, o, io) => Some (PollPending, o, io)
    | Some (Ready (Err e), o, io) => Some (Ready (Err e), o, io)
    | Some (Ready (Ok _), o, io) => let r := output_buffer o buf in Some (Ready (Ok r.1), r.2, io)
    end
  else let r := output_buffer o buf in Some (Ready (Ok r.1), r.2, io).

Definition output_poll_flush (o : NoiseOutput) (io : Outgoing) :
    option (Poll (result IoErrorKind unit) * NoiseOutput * Outgoing) :=
  let finish (o : NoiseOutput) (io : Outgoing) :=
    match framed_poll_flush accepts (no_io o) io with
    | (r, f, io) => (r, set_send f (no_send_buffer o) (no_send_offset o) o, io)
    end in
  if 0 <? no_send_offset o then
    match output_send o io with
    | None => None
    | Some (Ready (Ok _), o, io) => Some (finish o io)
    | Some r => Some r
    end
  else Some (finish o io).

Definition output_poll_close (o : NoiseOutput) (io : Outgoing) :
    option (Poll (result IoErrorKind unit) * NoiseOutput * Outgoing) :=
  match output_poll_flush o io with
  | Some (Ready (Ok _), o, io) =>
      match framed_poll_close accepts (no_io o) io with
      | (r, f, io) => Some (r, set_send f (no_send_buffer o) (no_send_offset o) o, io)
      end
  | r => r
  end.
End output.

(** ** The protocols: [protocol.rs], [protocol/x25519.rs], [protocol/x25519_spec.rs] *)

(** The trait [Protocol]: signatures of static DH keys. *)
Class NoiseProtocol (PeerId : Type) `{NodeIdentity PeerId} := {
  public_from_bytes : bytes → result NoiseError bytes;
  np_verify : ni_pubkey → bytes → option bytes → bool;
  np_sign : ni_keypair → bytes → result NoiseError bytes
}.

Section protocols.
Context {PeerId : Type} `{NodeIdentity PeerId}.

Definition x25519_from_bytes (b : bytes) : result NoiseError bytes :=
  if bool_decide (length b ≠ 32) then Err NeInvalidKey else Ok b.

Definition id_sign (k : ni_keypair) (msg : bytes) : result NoiseError bytes := ok_or NeSigningError (ni_sign k msg).

(** [linked]: the curve point of an Ed25519 key; [ed25519_point] is the conversion of an
    identity key of that kind. *)
Definition x25519_linked (ed25519_point : ni_pubkey → option bytes) (id_pk : ni_pubkey) (dh_pk : bytes) : bool :=
  match ed25519_point id_pk with Some p => bool_decide (p = dh_pk) | None => false end.

Definition X25519 (ed25519_point : ni_pubkey → option bytes) : NoiseProtocol PeerId := {|
  public_from_bytes := x25519_from_bytes;
  np_verify id_pk dh_pk sig :=
    x25519_linked ed25519_point id_pk dh_pk ||
    match sig with Some s => ni_verify id_pk dh_pk s | None => false end;
  np_sign := id_sign
|}.

Definition STATIC_KEY_DOMAIN : bytes := b_str "noise-libp2p-static-key:".

Definition X25519Spec : NoiseProtocol PeerId := {|
  public_from_bytes := x25519_from_bytes;
  np_verify id_pk dh_pk sig :=
    match sig with Some s => ni_verify id_pk (STATIC_KEY_DOMAIN ++ dh_pk) s | None => false end;
  np_sign k dh_pk := id_sign k (STATIC_KEY_DOMAIN ++ dh_pk)
|}.
End protocols.

(** ** The handshake: [io/handshake.rs] and [lib.rs] *)

(** [NoiseFramed::next] until it is ready, as a reader; [None] is the end.  The theorem
    [poll_next_refines] relates it to the state machine. *)
Fixpoint frame_loop {St} `{SessionState St} (fuel : nat) (s : St) : Reader (option (bytes * St)) := λ eof inp,
  match fuel with
  | 0 => Pending
  | S fuel =>
      if length inp <? 2 then if eof then Done None [] else Pending
      else
        let n := Z.to_nat (be_combine (take 2 inp)) in
        let rest := drop 2 inp in
        if n =? 0 then frame_loop fuel s eof rest
        else if length rest <? n then if eof then Failed UnexpectedEof else Pending
        else match read_message s (take n rest) with
             | Some x => Done (Some x) (drop n rest)
             | None => Failed InvalidData
             end
  end.
Definition frame_next {St} `{SessionState St} (s : St) : Reader (option (bytes * St)) := λ eof inp,
  frame_loop (S (length inp)) s eof inp.

(** The bytes of a message on the wire. *)
Definition noise_frame (m : bytes) : bytes := be_split 2 (Z.of_nat (length m) mod 2 ^ 16) ++ m.

Section handshake.
Context {PeerId : Type} `{NodeIdentity PeerId} `{!EqDecision ni_pubkey} `{!NoiseProtocol PeerId} `{SnowCrate} `{NoiseCodec}.

Record LegacyConfig := mk_LegacyConfig { lc_send : bool; lc_recv : bool }.
Record KeypairIdentity := mk_KeypairIdentity { ki_public : ni_pubkey; ki_signature : option bytes }.
Record AuthenticKeypair := mk_AuthenticKeypair { ak_secret : bytes; ak_public : bytes; ak_identity : KeypairIdentity }.

(** [Keypair::from] a secret key and [into_authentic]. *)
Definition into_authentic (secret : bytes) (id_keys : ni_keypair) : result NoiseError AuthenticKeypair :=
  let public := x25519_base secret in
  let? sig := np_sign id_keys public in
  Ok (mk_AuthenticKeypair secret public (mk_KeypairIdentity (ni_public id_keys) (Some sig))).

Inductive RemoteIdentity := RiUnknown | RiStaticDhKey (k : bytes) | RiIdentityKey (k : ni_pubkey).

Inductive IdentityExchange :=
  | IxMutual
  | IxSend (remote : ni_pubkey)
  | IxReceive
  | IxNone (remote : ni_pubkey).

Record HsState := mk_HsState {
  st_io : hs_state;
  st_identity : KeypairIdentity;
  st_dh_remote_pubkey_sig : option bytes;
  st_id_remote_pubkey : option ni_pubkey;
  st_send_identity : bool;
  st_legacy : LegacyConfig
}.

Definition HsState_new (session : result NoiseError hs_state) (identity : KeypairIdentity) (x : IdentityExchange)
    (legacy : LegacyConfig) : result NoiseError HsState :=
  let p := match x with
           | IxMutual => (None, true)
           | IxSend remote => (Some remote, true)
           | IxReceive => (None, false)
           | IxNone remote => (Some remote, false)
           end in
  let? s := session in
  Ok (mk_HsState s identity None p.1 p.2 legacy).

Definition set_hs (s : hs_state) (st : HsState) : HsState :=
  mk_HsState s (st_identity st) (st_dh_remote_pubkey_sig st) (st_id_remote_pubkey st) (st_send_identity st) (st_legacy st).

(** [into_transport] and [finish]. *)
Definition into_transport (s : hs_state) : result NoiseError (option bytes * NoiseOutput) :=
  let? pk := match hs_remote_static s with
             | None => Ok None
             | Some k => let? dh_pk := public_from_bytes k in Ok (Some dh_pk)
             end in
  let? t := ok_or NeNoise (hs_into_transport s) in
  Ok (pk, NoiseOutput_new (NoiseFramed_new t)).

Definition finish (st : HsState) : result NoiseError (RemoteIdentity * NoiseOutput) :=
  let? x := into_transport (st_io st) in
  match st_id_remote_pubkey st, x.1 with
  | _, None => Ok (RiUnknown, x.2)
  | None, Some dh_pk => Ok (RiStaticDhKey dh_pk, x.2)
  | Some id_pk, Some dh_pk =>
      if np_verify id_pk dh_pk (st_dh_remote_pubkey_sig st) then Ok (RiIdentityKey id_pk, x.2) else Err NeInvalidKey
  end.

Definition recv (st : HsState) : Session (result NoiseError (bytes * HsState)) :=
  await? m := sess_map_err NeIo (s_read (frame_next (st_io st))) in
  match m with
  | None => SRet (Err (NeIo UnexpectedEof))
  | Some (payload, s) => SRet (Ok (payload, set_hs s st))
  end.

(** [SinkExt::send]: [start_send] and the flush. *)
Definition hs_send (accepts : nat → nat) (st : HsState) (msg : bytes) : Session (result NoiseError HsState) :=
  if length msg <=? MAX_FRAME_LEN then
    match write_message (st_io st) msg (length msg + EXTRA_ENCRYPT_SPACE) with
    | Some (m, s) =>
        await? _ := sess_map_err NeIo (s_write (wr_seq (write_all2 accepts (be_split 2 (Z.of_nat (length m) mod 2 ^ 16)))
                                                  (write_all2 accepts m))) in
        SRet (Ok (set_hs s st))
    | None => SRet (Err (NeIo InvalidData))
    end
  else SPanic.

Definition recv_empty (st : HsState) : Session (result NoiseError HsState) :=
  await? x := recv st in
  match x.1 with
  | [] => SRet (Ok x.2)
  | _ => SRet (Err (NeIo InvalidData))
  end.

Definition send_empty (accepts : nat → nat) (st : HsState) : Session (result NoiseError HsState) := hs_send accepts st [].

(** The payload, with the fallback for a length prefix. *)
Definition decode_identity (legacy : LegacyConfig) (msg : bytes) : result NoiseError NoisePayload :=
  match payload_decode msg with
  | Some pb => Ok pb
  | None =>
      if lc_recv legacy && (2 <? length msg) && (be_combine (take 2 msg) + 2 =? Z.of_nat (length msg))%Z
      then ok_or NeInvalidPayload (payload_decode (drop 2 msg))
      else Err NeInvalidPayload
  end.

Definition apply_identity (st : HsState) (pb : NoisePayload) : result NoiseError HsState :=
  let? id_pk := match np_identity_key pb with
                | [] => Ok (st_id_remote_pubkey st)
                | _ =>
                    let? pk := ok_or NeInvalidKey (ni_decode (np_identity_key pb)) in
                    match st_id_remote_pubkey st with
                    | Some k => if bool_decide (k ≠ pk) then Err NeInvalidKey else Ok (Some pk)
                    | None => Ok (Some pk)
                    end
                end in
  let sig := match np_identity_sig pb with [] => st_dh_remote_pubkey_sig st | s => Some s end in
  Ok (mk_HsState (st_io st) (st_identity st) sig id_pk (st_send_identity st) (st_legacy st)).

Definition recv_identity (st : HsState) : Session (result NoiseError HsState) :=
  await? x := recv st in
  await? pb := sess_result (decode_identity (st_legacy x.2) x.1) in
  sess_result (apply_identity x.2 pb).

(** [encoded_len() as u16] in front of a legacy payload. *)
Definition identity_msg (st : HsState) : bytes :=
  let pb := mk_NoisePayload (if st_send_identity st then ni_encode (ki_public (st_identity st)) else [])
              (default [] (ki_signature (st_identity st))) [] in
  let encoded := payload_encode pb in
  if lc_send (st_legacy st) then be_split 2 (Z.of_nat (length encoded) mod 2 ^ 16) ++ encoded else encoded.

Definition send_identity (accepts : nat → nat) (st : HsState) : Session (result NoiseError HsState) :=
  hs_send accepts st (identity_msg st).

Section patterns.
Context (accepts : nat → nat) (session : result NoiseError hs_state) (identity : KeypairIdentity) (x : IdentityExchange)
        (legacy : LegacyConfig).
Let Result := Session (result NoiseError (RemoteIdentity * NoiseOutput)).

Definition rt1_initiator : Result :=
  await? st := sess_result (HsState_new session identity x legacy) in
  await? st := send_identity accepts st in
  await? st := recv_identity st in
  sess_result (finish st).

Definition rt1_responder : Result :=
  await? st := sess_result (HsState_new session identity x legacy) in
  await? st := recv_identity st in
  await? st := send_identity accepts st in
  sess_result (finish st).

Definition rt15_initiator : Result :=
  await? st := sess_result (HsState_new session identity x legacy) in
  await? st := send_empty accepts st in
  await? st := recv_identity st in
  await? st := send_identity accepts st in
  sess_result (finish st).

Definition rt15_responder : Result :=
  await? st := sess_result (HsState_new session identity x legacy) in
  await? st := recv_empty st in
  await? st := send_identity accepts st in
  await? st := recv_identity st in
  sess_result (finish st).
End patterns.

Record NoiseConfig := mk_NoiseConfig { nc_dh_keys : AuthenticKeypair; nc_local_priv_key : ni_keypair; nc_legacy : LegacyConfig }.

Definition noise_xx (dh_keys : AuthenticKeypair) (local_priv_key : ni_keypair) : NoiseConfig :=
  mk_NoiseConfig dh_keys local_priv_key (mk_LegacyConfig false false).

Definition set_legacy_config (c : NoiseConfig) (cfg : LegacyConfig) : NoiseConfig :=
  mk_NoiseConfig (nc_dh_keys c) (nc_local_priv_key c) cfg.

Definition noise_handshake (accepts : nat → nat) (c : NoiseConfig) (initiator : bool) (rng : snow_rng) :
    Session (result NoiseError (RemoteIdentity * NoiseOutput)) :=
  let session := ok_or NeNoise (hs_build initiator (ak_secret (nc_dh_keys c)) rng) in
  if initiator then rt15_initiator accepts session (ak_identity (nc_dh_keys c)) IxMutual (nc_legacy c)
  else rt15_responder accepts session (ak_identity (nc_dh_keys c)) IxMutual (nc_legacy c).

(** ** The upgrade: [upgrade.rs] *)

Record NoiseStream := mk_NoiseStream { ns_io : NoiseOutput; ns_local_priv_key : ni_keypair; ns_remote_pub_key : option ni_pubkey }.

Definition noise_upgrade (accepts : nat → nat) (c : NoiseConfig) (initiator : bool) (rng : snow_rng) :
    Session (result NoiseError NoiseStream) :=
  await? x := noise_handshake accepts c initiator rng in
  let remote_pub_key := match x.1 with RiIdentityKey pub_key => Some pub_key | _ => None end in
  SRet (Ok (mk_NoiseStream x.2 (nc_local_priv_key c) remote_pub_key)).
Definition noise_upgrade_inbound (accepts : nat → nat) (c : NoiseConfig) (rng : snow_rng) := noise_upgrade accepts c false rng.
Definition noise_upgrade_outbound (accepts : nat → nat) (c : NoiseConfig) (rng : snow_rng) := noise_upgrade accepts c true rng.

Definition ns_local_peer (s : NoiseStream) : PeerId := ni_peer_id (ni_public (ns_local_priv_key s)).
(** [None] is the panic of [unwrap]. *)
Definition ns_remote_peer (s : NoiseStream) : option PeerId := ni_peer_id <$> ns_remote_pub_key s.
End handshake.

(** ** Reading frames *)

Section reading.
Context {St : Type} `{SessionState St} (chunks : nat → nat).
Implicit Types (f : NoiseFramed St) (io : Incoming) (s : St).

Lemma vec_write_length off data l : off + length data ≤ length l → length (vec_write off data l) = length l.
Proof. intros. unfold vec_write. rewrite !length_app, length_take, length_drop. lia. Qed.

Lemma vec_write_take off data l :
  off ≤ length l → take (off + length data) (vec_write off data l) = take off l ++ data.
Proof.
  intros. unfold vec_write. rewrite (assoc_L (++)). rewrite take_app_length'; [done|].
  rewrite length_app, length_take. lia.
Qed.

Lemma vec_resize_length n l : length (vec_resize n l) = n.
Proof. unfold vec_resize. rewrite length_app, length_take, length_replicate. lia. Qed.

(** [frame_next] without the fuel. *)
Lemma frame_loop_fuel fuel s eof inp :
  length inp < fuel → frame_loop fuel s eof inp = frame_next s eof inp.
Proof.
  enough (∀ a b inp, length inp < a → length inp < b → frame_loop a s eof inp = frame_loop b s eof inp) as Hab.
  { intros. apply Hab; [done|lia]. }
  clear. induction a as [|a IH]; intros b inp Ha Hb; [lia|]. destruct b as [|b]; [lia|]. cbn [frame_loop].
  destruct (Nat.ltb_spec (length inp) 2); [done|]. destruct (_ =? 0) eqn:E; [|done]. apply IH; rewrite length_drop; lia.
Qed.

Lemma frame_next_eq s eof inp :
  frame_next s eof inp =
    if length inp <? 2 then if eof then Done None [] else Pending
    else
      let n := Z.to_nat (be_combine (take 2 inp)) in
      let rest := drop 2 inp in
      if n =? 0 then frame_next s eof rest
      else if length rest <? n then if eof then Failed UnexpectedEof else Pending
      else match read_message s (take n rest) with
           | Some x => Done (Some x) (drop n rest)
           | None => Failed InvalidData
           end.
Proof.
  unfold frame_next at 1. cbn [frame_loop]. destruct (Nat.ltb_spec (length inp) 2); [done|]. cbn zeta.
  destruct (_ =? 0) eqn:E; [|done]. apply frame_loop_fuel. rewrite length_drop. lia.
Qed.

Lemma read_frame_len_spec io buf off :
  length buf = 2 → off < 2 →
  match read_frame_len chunks io buf off with
  | (Ready (Some n), _, _, io') =>
      2 ≤ length (take off buf ++ in_bytes io) ∧ n = be_combine (take 2 (take off buf ++ in_bytes io)) ∧
      in_bytes io' = drop 2 (take off buf ++ in_bytes io) ∧ in_eof io' = in_eof io ∧ length (in_bytes io') < length (in_bytes io)
  | (Ready None, _, _, io') =>
      length (take off buf ++ in_bytes io) < 2 ∧ in_eof io = true ∧ in_eof io' = true
  | (PollPending, buf', off', io') =>
      length (take off buf ++ in_bytes io) < 2 ∧ in_eof io = false ∧ in_eof io' = false ∧ in_bytes io' = [] ∧
      length buf' = 2 ∧ off' < 2 ∧ take off' buf' = take off buf ++ in_bytes io
  end.
Proof.
  unfold read_frame_len. assert (Hfuel : 2 - off < 3) by lia. revert Hfuel. generalize 3 as fuel. intros fuel. revert io buf off.
  induction fuel as [|fuel IH]; intros io buf off Hfuel Hb Ho; [lia|]. cbn [read_frame_len_loop].
  destruct (sock_poll_read_spec chunks io (2 - off)) as [[Hi ->]|(data&io'&->&Hne&Hl&Hi&He)]; [lia| |].
  { rewrite Hi, app_nil_r, length_take. destruct (in_eof io) eqn:Ee; split_and!; try done; lia. }
  destruct data as [|d data']; [done|]. set (data := d :: data') in *.
  assert (Hd : 0 < length data) by (cbn; lia).
  assert (Hw : take (off + length data) (vec_write off data buf) = take off buf ++ data) by (apply vec_write_take; lia).
  assert (Hwl : length (vec_write off data buf) = 2) by (rewrite vec_write_length; lia).
  destruct (Nat.eqb_spec (off + length data) 2) as [H2|H2].
  - rewrite H2 in Hw. rewrite <-Hwl, firstn_all in Hw at 1. rewrite Hi, Hw, (assoc_L (++)).
    assert (Hp : length (take off buf ++ data) = 2) by (rewrite <-Hw; done).
    rewrite !length_app in *. split_and!; [lia| | |done|lia].
    + by rewrite take_app_length' by (rewrite length_app; lia).
    + by rewrite drop_app_length' by (rewrite length_app; lia).
  - specialize (IH io' (vec_write off data buf) (off + length data)). rewrite Hw, <-(assoc_L (++)), <-Hi in IH.
    rewrite He in IH.
    assert (Hlen : length (in_bytes io') < length (in_bytes io)) by (rewrite Hi, length_app; lia).
    specialize (IH ltac:(lia) Hwl ltac:(lia)).
    destruct (read_frame_len_loop chunks fuel io' (vec_write off data buf) (off + length data)) as [[[[[n|]|] ?] ?] io2]; [|done..].
    destruct IH as (?&?&?&?&?). split_and!; try done; lia.
Qed.

#[local] Arguments frame_next : simpl never.

(** The bytes of the current frame that have been read. *)
Definition progress f : bytes :=
  match nf_read_state f with
  | RsReadLen buf off => take off buf
  | RsReadData len off => be_split 2 (Z.of_nat len) ++ take off (nf_read_buffer f)
  | _ => []
  end.

(** The states in which reading goes on. *)
Definition read_wf f : Prop :=
  match nf_read_state f with
  | RsReady => True
  | RsReadLen buf off => length buf = 2 ∧ off < 2
  | RsReadData len off => 0 < len ∧ (Z.of_nat len < 2 ^ 16)%Z ∧ off < len ∧ length (nf_read_buffer f) = len
  | RsEof _ | RsDecErr => False
  end.

(** Frames of length zero, which are skipped. *)
Definition empty_frames (k : nat) : bytes := replicate (2 * k) Byte.x00.

Lemma frame_next_empty_frames k s eof inp : frame_next s eof (empty_frames k ++ inp) = frame_next s eof inp.
Proof.
  unfold empty_frames. induction k as [|k IH]; [done|]. replace (2 * S k) with (S (S (2 * k))) by lia.
  rewrite frame_next_eq. cbn [replicate app length Nat.ltb Nat.leb take drop firstn skipn].
  change (be_combine [Byte.x00; Byte.x00]) with 0%Z. cbn. exact IH.
Qed.

(** What one poll does, compared with [frame_next] on the bytes of the current frame and
    those that have arrived. *)
Definition next_spec f io (r : Poll NextItem * NoiseFramed St * Incoming) : Prop :=
  let '(p, f', io') := r in
  let have := progress f ++ in_bytes io in
  in_eof io' = in_eof io ∧ nf_write_state f' = nf_write_state f ∧ nf_write_buffer f' = nf_write_buffer f ∧
  match p with
  | PollPending =>
      in_eof io = false ∧ in_bytes io' = [] ∧ read_wf f' ∧ nf_session f' = nf_session f ∧
      frame_next (nf_session f) (in_eof io) have = Pending ∧ ∃ k, have = empty_frames k ++ progress f'
  | Ready None => frame_next (nf_session f) (in_eof io) have = Done None []
  | Ready (Some (Err e)) => frame_next (nf_session f) (in_eof io) have = Failed e
  | Ready (Some (Ok payload)) =>
      nf_read_state f' = RsReady ∧
      frame_next (nf_session f) (in_eof io) have = Done (Some (payload, nf_session f')) (in_bytes io') ∧
      length (in_bytes io') < length (in_bytes io)
  end.

(** A round of the loop that has no result. *)
Lemma next_spec_step k f io f1 io1 r :
  nf_session f1 = nf_session f → in_eof io1 = in_eof io → nf_write_state f1 = nf_write_state f →
  nf_write_buffer f1 = nf_write_buffer f → length (in_bytes io1) ≤ length (in_bytes io) →
  progress f ++ in_bytes io = empty_frames k ++ progress f1 ++ in_bytes io1 →
  next_spec f1 io1 r → next_spec f io r.
Proof.
  intros Hs He Hw Hb Hl Heq. destruct r as [[p f'] io']. unfold next_spec. rewrite Hs, He, Hw, Hb, Heq, frame_next_empty_frames.
  intros (?&?&?&Hp). split_and!; try done. destruct p as [[[payload|e]|]|].
  - destruct Hp as (?&?&?). split_and!; try done. lia.
  - done.
  - done.
  - destruct Hp as (?&?&?&?&?&k'&Hk'). split_and!; try done. exists (k + k'). rewrite Hk'. unfold empty_frames.
    rewrite (assoc_L (++)), <-replicate_add. do 2 f_equal; lia.
Qed.

(** Of three successive rounds at least one consumes a byte. *)
Definition rounds f io : nat := 3 * length (in_bytes io) + match nf_read_state f with RsReady => 2 | RsReadLen _ _ => 1 | _ => 0 end.

Lemma len_prefix len : (Z.of_nat len < 2 ^ 16)%Z → Z.to_nat (be_combine (be_split 2 (Z.of_nat len))) = len.
Proof. intros. rewrite be_combine_split_small by (simpl; lia). lia. Qed.

(** A frame whose length has been read. *)
Lemma frame_next_data s eof len data more :
  (Z.of_nat len < 2 ^ 16)%Z → 0 < len →
  frame_next s eof ((be_split 2 (Z.of_nat len) ++ data) ++ more) =
    if length (data ++ more) <? len then if eof then Failed UnexpectedEof else Pending
    else match read_message s (take len (data ++ more)) with
         | Some x => Done (Some x) (drop len (data ++ more))
         | None => Failed InvalidData
         end.
Proof.
  intros Hl Hp. rewrite frame_next_eq, <-(assoc_L (++)). rewrite length_app, length_be_split. cbn [Nat.add Nat.ltb Nat.leb].
  rewrite take_app_length', drop_app_length' by (by rewrite length_be_split).
  cbn zeta. rewrite len_prefix by done. by destruct (Nat.eqb_spec len 0); [lia|].
Qed.

Lemma poll_next_loop_spec fuel f io :
  read_wf f → rounds f io < fuel → next_spec f io (poll_next_loop chunks fuel f io).
Proof.
  revert f io. induction fuel as [|fuel IH]; intros f io Hwf Hfuel; [lia|]. cbn [poll_next_loop].
  unfold read_wf, rounds in *. destruct (nf_read_state f) as [|buf off|len off| |] eqn:Est; [| | |done..].
  - eapply (next_spec_step 0); [..|apply IH]; try done; [|simpl; lia..].
    unfold progress at 1. by rewrite Est.
  - destruct Hwf as [Hb Ho]. pose proof (read_frame_len_spec io buf off Hb Ho) as Hr.
    assert (Hpr : progress f = take off buf) by (unfold progress; by rewrite Est).
    destruct (read_frame_len chunks io buf off) as [[[[[n|]|] buf'] off'] io'].
    + destruct Hr as (H2&->&Hi&He&Hl). set (have := take off buf ++ in_bytes io) in *.
      pose proof (be_combine_bound (take 2 have)) as Hn. rewrite length_take, Nat.min_l in Hn by lia.
      change (2 ^ (8 * Z.of_nat 2))%Z with (2 ^ 16)%Z in Hn. set (n := be_combine (take 2 have)) in *.
      assert (Hpre : take 2 have = be_split 2 n).
      { pose proof (be_split_combine (take 2 have)) as Hs. by rewrite length_take, Nat.min_l in Hs by lia. }
      destruct (Z.eqb_spec n 0) as [H0|H0].
      * eapply (next_spec_step 1); [..|apply IH]; try done; [simpl; lia| |simpl; lia].
        rewrite Hpr. fold have. rewrite <-(take_drop 2 have), Hpre, H0. by rewrite Hi.
      * eapply (next_spec_step 0); [..|apply IH]; try done; [simpl; lia| | |simpl; lia].
        -- rewrite Hpr. fold have. rewrite <-(take_drop 2 have) at 1. rewrite Hpre. unfold progress.
           cbn [set_read nf_read_state nf_read_buffer]. rewrite take_0, app_nil_r, Hi, Z2Nat.id by lia. done.
        -- cbn. rewrite vec_resize_length. split_and!; [lia|lia|lia|done].
    + destruct Hr as (Hlt&He&He'). cbn. rewrite He, He', Hpr. split_and!; try done.
      rewrite frame_next_eq. by destruct (Nat.ltb_spec (length (take off buf ++ in_bytes io)) 2); [|lia].
    + destruct Hr as (Hlt&He&He'&Hi&Hbl&Hol&Ht). cbn. rewrite He, He', Hi, Hpr. split_and!; try done.
      * rewrite frame_next_eq. by destruct (Nat.ltb_spec (length (take off buf ++ in_bytes io)) 2); [|lia].
      * exists 0. unfold progress. cbn. by rewrite Ht.
  - destruct Hwf as (Hp&Hm&Ho&Hb).
    assert (Hpr : progress f = be_split 2 (Z.of_nat len) ++ take off (nf_read_buffer f)) by (unfold progress; by rewrite Est).
    destruct (sock_poll_read_spec chunks io (len - off)) as [[Hi ->]|(data&io'&->&Hne&Hl&Hi&He)]; [lia| |].
    { assert (Hfn : ∀ eof, frame_next (nf_session f) eof (progress f ++ in_bytes io) = if eof then Failed UnexpectedEof else Pending).
      { intros eof. rewrite Hpr, Hi. rewrite frame_next_data by done. rewrite app_nil_r, length_take.
        by destruct (Nat.ltb_spec (min off (length (nf_read_buffer f))) len); [|lia]. }
      destruct (in_eof io) eqn:Ee; cbn; rewrite ?Ee.
      - split_and!; try done. apply Hfn.
      - split_and!; try done. + unfold read_wf. rewrite Est. done. + apply Hfn. + exists 0. by rewrite Hi, app_nil_r. }
    destruct data as [|d data']; [done|]. set (data := d :: data') in *. assert (Hd : 0 < length data) by (cbn; lia).
    assert (Hw : take (off + length data) (vec_write off data (nf_read_buffer f)) = take off (nf_read_buffer f) ++ data) by (apply vec_write_take; lia).
    assert (Hwl : length (vec_write off data (nf_read_buffer f)) = len) by (rewrite vec_write_length; lia).
    assert (Hil : length (in_bytes io') < length (in_bytes io)) by (rewrite Hi, length_app; lia).
    destruct (Nat.eqb_spec len (off + length data)) as [Heq|Hneq].
    + rewrite <-Heq in Hw. rewrite <-Hwl, firstn_all in Hw at 1.
      assert (Hlen : length (take off (nf_read_buffer f) ++ data) = len) by (by rewrite <-Hw).
      assert (Hfn : frame_next (nf_session f) (in_eof io) (progress f ++ in_bytes io) =
        match read_message (nf_session f) (vec_write off data (nf_read_buffer f)) with
        | Some x => Done (Some x) (in_bytes io') | None => Failed InvalidData end).
      { rewrite Hpr, Hi. rewrite frame_next_data by done. rewrite (assoc_L (++)), length_app, Hlen.
        destruct (Nat.ltb_spec (len + length (in_bytes io')) len); [lia|].
        by rewrite take_app_length', drop_app_length', Hw by done. }
      destruct (read_message (nf_session f) (vec_write off data (nf_read_buffer f))) as [[payload s']|]; cbn; rewrite He; split_and!; done.
    + eapply (next_spec_step 0); [..|apply IH]; try done; [idtac; lia| | |simpl; lia].
      * rewrite Hpr, Hi. unfold progress. cbn [set_read nf_read_state nf_read_buffer]. rewrite Hw.
        by rewrite <-!(assoc_L (++)).
      * cbn [set_read nf_read_state nf_read_buffer]. split_and!; [lia|done|lia|done].
Qed.

Lemma poll_next_spec f io : read_wf f → next_spec f io (poll_next chunks f io).
Proof.
  intros Hwf. apply poll_next_loop_spec; [done|]. unfold rounds. destruct (nf_read_state f); lia.
Qed.

(** [C27] However the bytes of frames are split, polling reads what [frame_next] reads from
    all of them: a poll that is pending has lost no byte, and one that is ready has the
    outcome of [frame_next] on the bytes read before and those that have arrived. *)
Theorem poll_next_refines f io (Hwf : read_wf f) : next_spec f io (poll_next chunks f io).
Proof. by apply poll_next_spec. Qed.
End reading.

(** ** Writing frames *)

Section writing.
Context {St : Type} `{SessionState St} (accepts : nat → option nat).
Implicit Types (f : NoiseFramed St) (io : Outgoing) (s : St).

(** The bytes of the current frame that are not written. *)
Definition pending f : bytes :=
  match nf_write_state f with
  | WsWriteLen len buf off => drop off buf ++ take len (nf_write_buffer f)
  | WsWriteData len off => drop off (take len (nf_write_buffer f))
  | _ => []
  end.

Definition write_wf f : Prop :=
  match nf_write_state f with
  | WsWriteLen len buf off => length buf = 2 ∧ off < 2 ∧ 0 < len ∧ len = length (nf_write_buffer f)
  | WsWriteData len off => off < len ∧ len = length (nf_write_buffer f)
  | _ => True
  end.

(** The states in which no more is written. *)
Definition write_dead f : Prop :=
  match nf_write_state f with WsEof | WsEncErr => True | _ => False end.

Lemma write_frame_len_spec io buf off :
  length buf = 2 → off < 2 →
  match write_frame_len accepts io buf off with
  | (Ready true, _, io') => out_bytes io' = out_bytes io ++ drop off buf
  | (Ready false, _, io') => ∃ new rest, out_bytes io' = out_bytes io ++ new ∧ drop off buf = new ++ rest
  | (PollPending, off', io') =>
      off' < 2 ∧ ∃ new, out_bytes io' = out_bytes io ++ new ∧ drop off buf = new ++ drop off' buf
  end.
Proof.
  unfold write_frame_len. assert (Hfuel : 2 - off < 3) by lia. revert Hfuel. generalize 3 as fuel. intros fuel. revert io off.
  induction fuel as [|fuel IH]; intros io off Hfuel Hb Ho; [lia|]. cbn [write_frame_len_loop].
  pose proof (sock_poll_write_spec accepts io (drop off buf)) as Hw. destruct (sock_poll_write accepts io (drop off buf)) as [[n|] io'].
  2: { split; [done|]. exists []. by rewrite app_nil_r. }
  rewrite length_drop in Hw. destruct Hw as [Hn Hw]. destruct n as [|n].
  { exists [], (drop off buf). by rewrite Hw, take_0. }
  destruct (Nat.eqb_spec (off + S n) 2) as [H2|H2].
  { rewrite Hw. f_equal. apply take_ge. rewrite length_drop. lia. }
  specialize (IH io' (off + S n) ltac:(lia) Hb ltac:(lia)).
  assert (Heq : drop off buf = take (S n) (drop off buf) ++ drop (off + S n) buf) by (rewrite <-drop_drop; by rewrite take_drop).
  destruct (write_frame_len_loop accepts fuel io' buf (off + S n)) as [[[[]|] off'] io''].
  - rewrite IH, Hw, <-(assoc_L (++)). f_equal. symmetry. exact Heq.
  - destruct IH as (new&rest&IH1&IH2). exists (take (S n) (drop off buf) ++ new), rest. split.
    + by rewrite IH1, Hw, (assoc_L (++)).
    + etrans; [exact Heq|]. by rewrite IH2, (assoc_L (++)).
  - destruct IH as (Ho'&new&IH1&IH2). split; [done|]. exists (take (S n) (drop off buf) ++ new). split.
    + by rewrite IH1, Hw, (assoc_L (++)).
    + etrans; [exact Heq|]. by rewrite IH2, (assoc_L (++)).
Qed.

(** What is written and what is pending together stay the same. *)
Definition ready_spec f io (r : Poll (result IoErrorKind unit) * NoiseFramed St * Outgoing) : Prop :=
  let '(p, f', io') := r in
  nf_session f' = nf_session f ∧ nf_read_state f' = nf_read_state f ∧ nf_read_buffer f' = nf_read_buffer f ∧
  write_wf f' ∧
  match p with
  | Ready (Ok _) => nf_write_state f' = WsReady
  | Ready (Err _) => write_dead f'
  | PollPending => ¬ write_dead f'
  end ∧
  ∃ new rest, out_bytes io' = out_bytes io ++ new ∧ pending f = new ++ rest ∧ (¬ write_dead f' → rest = pending f').

Lemma ready_spec_step new f io f1 io1 r :
  nf_session f1 = nf_session f → nf_read_state f1 = nf_read_state f → nf_read_buffer f1 = nf_read_buffer f →
  out_bytes io1 = out_bytes io ++ new → pending f = new ++ pending f1 → ready_spec f1 io1 r → ready_spec f io r.
Proof.
  intros H1 H2 H3 Hn Hp. destruct r as [[p f'] io']. unfold ready_spec. rewrite H1, H2, H3, Hn, Hp.
  intros (?&?&?&?&?&new'&rest&Hn'&->&Hr). split_and!; try done. exists (new ++ new'), rest. by rewrite Hn', !(assoc_L (++)).
Qed.

Definition write_rounds f : nat :=
  match nf_write_state f with
  | WsWriteLen len _ _ => 2 + len
  | WsWriteData len off => 1 + (len - off)
  | _ => 0
  end.

Lemma ready_spec_done f io io' p :
  write_wf f → out_bytes io' = out_bytes io →
  match p with
  | Ready (Ok _) => nf_write_state f = WsReady
  | Ready (Err _) => write_dead f
  | PollPending => ¬ write_dead f
  end → ready_spec f io (p, f, io').
Proof. intros Hwf Hio Hp. unfold ready_spec. split_and!; try done. exists [], (pending f). by rewrite app_nil_r. Qed.

(** Giving up. *)
Lemma ready_spec_eof new rest f io io' :
  out_bytes io' = out_bytes io ++ new → pending f = new ++ rest →
  ready_spec f io (Ready (Err WriteZero), set_write (nf_session f) WsEof (nf_write_buffer f) f, io').
Proof. intros Hn Hr. cbn. split_and!; try done. by exists new, rest. Qed.

Lemma poll_ready_loop_spec fuel f io :
  write_wf f → write_rounds f < fuel → ready_spec f io (poll_ready_loop accepts fuel f io).
Proof.
  revert f io. induction fuel as [|fuel IH]; intros f io Hwf Hfuel; [lia|]. cbn [poll_ready_loop].
  pose proof Hwf as Hwf'. unfold write_wf in Hwf'. unfold write_rounds in *.
  destruct (nf_write_state f) as [|len buf off|len off| |] eqn:Est.
  - by apply ready_spec_done.
  - destruct Hwf' as (Hb&Ho&Hl&Hlen). pose proof (write_frame_len_spec io buf off Hb Ho) as Hw.
    assert (Hp : pending f = drop off buf ++ take len (nf_write_buffer f)) by (unfold pending; by rewrite Est).
    destruct (write_frame_len accepts io buf off) as [[[[]|] off'] io'].
    + eapply ready_spec_step; [..|apply IH]; try done; simpl; lia.
    + destruct Hw as (new&rest&Hw&Hd). eapply ready_spec_eof; [done|]. by rewrite Hp, Hd, <-(assoc_L (++)).
    + destruct Hw as (Ho'&new&Hw&Hd). eapply (ready_spec_step new _ _ _ io'); [..|apply ready_spec_done]; try done; [|by intros []].
      by rewrite Hp, Hd, <-(assoc_L (++)).
  - destruct Hwf' as (Ho&Hlen).
    assert (Hp : pending f = drop off (take len (nf_write_buffer f))) by (unfold pending; by rewrite Est).
    pose proof (sock_poll_write_spec accepts io (drop off (take len (nf_write_buffer f)))) as Hw. rewrite <-Hp in *.
    destruct (sock_poll_write accepts io (pending f)) as [[[|n]|] io'].
    + destruct Hw as [_ Hw]. by eapply ready_spec_eof.
    + destruct Hw as [Hn Hw]. assert (Hpl : length (pending f) = len - off) by (rewrite Hp, length_drop, length_take; lia).
      rewrite Hpl in Hn. destruct (Nat.eqb_spec len (off + S n)) as [Heq|Hneq].
      * eapply ready_spec_step; [..|apply IH]; try done; [|simpl; lia]. cbn. rewrite app_nil_r. symmetry. apply take_ge. lia.
      * eapply ready_spec_step; [..|apply IH]; try done; [|cbn; lia..].
        cbn. rewrite <-(drop_drop (take len (nf_write_buffer f))), <-Hp. by rewrite take_drop.
    + apply ready_spec_done; [done..|]. unfold write_dead. rewrite Est. by intros [].
  - apply ready_spec_done; [done..|]. unfold write_dead. by rewrite Est.
  - apply ready_spec_done; [done..|]. unfold write_dead. by rewrite Est.
Qed.

Lemma poll_ready_spec f io : write_wf f → ready_spec f io (poll_ready accepts f io).
Proof.
  intros Hwf. apply poll_ready_loop_spec; [done|]. unfold write_rounds, write_wf in *. destruct (nf_write_state f); lia.
Qed.
End writing.

(** ** Two ends of a connection

    The transport states of [snow] have a cipher per direction.  A message written is
    sixteen bytes longer than its payload, is read by the state whose receiving cipher
    is the sending cipher of the writer, and leaves the other direction as it is. *)
Class SnowTransport `{SnowCrate} := {
  ts_cipher : Type;
  ts_tx : ts_state → ts_cipher;
  ts_rx : ts_state → ts_cipher;
  ts_message : ∀ a p n m a', write_message a p n = Some (m, a') →
    length m = length p + 16 ∧ ts_rx a' = ts_rx a ∧
    ∀ b, ts_rx b = ts_tx a → ∃ b', read_message b m = Some (p, b') ∧ ts_rx b' = ts_tx a' ∧ ts_tx b' = ts_tx b
}.

Lemma MAX_FRAME_LEN_eq : Z.of_nat MAX_FRAME_LEN = 64511%Z.
Proof. vm_compute. reflexivity. Qed.
Lemma frame_room l : l ≤ MAX_FRAME_LEN → l + EXTRA_ENCRYPT_SPACE ≤ MAX_NOISE_MSG_LEN.
Proof.
  assert (EXTRA_ENCRYPT_SPACE ≤ MAX_NOISE_MSG_LEN) by (unfold EXTRA_ENCRYPT_SPACE, MAX_NOISE_MSG_LEN; lia).
  unfold MAX_FRAME_LEN. lia.
Qed.
#[local] Opaque MAX_FRAME_LEN.

Section duplex.
Context `{SnowCrate} (chunks : bool → nat → nat) (accepts : bool → nat → option nat).

(** One end: the stream, the two sides of its socket, the number of bytes of the other
    end that have arrived, the bytes that [poll_write] accepted and those that
    [poll_read] delivered. *)
Record Endpoint := mk_Endpoint {
  en_stream : NoiseOutput;
  en_out : Outgoing;
  en_in : Incoming;
  en_arrived : nat;
  en_accepted : bytes;
  en_delivered : bytes
}.

Definition Endpoint_new (t : ts_state) : Endpoint :=
  mk_Endpoint (NoiseOutput_new (NoiseFramed_new t)) (mk_Outgoing [] 0) (mk_Incoming [] false 0) 0 [] [].

Inductive EndEvent := EvWrite (buf : bytes) | EvFlush | EvRead (n : nat) | EvArrive (n : nat).
Inductive EndOutcome :=
  | OutWrite (r : Poll (result IoErrorKind nat))
  | OutFlush (r : Poll (result IoErrorKind unit))
  | OutRead (r : Poll (result IoErrorKind bytes))
  | OutArrive.

Definition end_write (i : bool) (e : Endpoint) (buf : bytes) : option (EndOutcome * Endpoint) :=
  '(r, o, io) ← output_poll_write (accepts i) (en_stream e) (en_out e) buf;
  let n := match r with Ready (Ok n) => n | _ => 0 end in
  Some (OutWrite r, mk_Endpoint o io (en_in e) (en_arrived e) (en_accepted e ++ take n buf) (en_delivered e)).

Definition end_flush (i : bool) (e : Endpoint) : option (EndOutcome * Endpoint) :=
  '(r, o, io) ← output_poll_flush (accepts i) (en_stream e) (en_out e);
  Some (OutFlush r, mk_Endpoint o io (en_in e) (en_arrived e) (en_accepted e) (en_delivered e)).

Definition end_read (i : bool) (e : Endpoint) (n : nat) : EndOutcome * Endpoint :=
  let '(r, o, io) := output_poll_read (chunks i) (en_stream e) (en_in e) n in
  let data := match r with Ready (Ok data) => data | _ => [] end in
  (OutRead r, mk_Endpoint o (en_out e) io (en_arrived e) (en_accepted e) (en_delivered e ++ data)).

(** The next [n] bytes that [peer] has written arrive. *)
Definition end_arrive (peer e : Endpoint) (n : nat) : EndOutcome * Endpoint :=
  let data := take n (drop (en_arrived e) (out_bytes (en_out peer))) in
  (OutArrive, mk_Endpoint (en_stream e) (en_out e)
    (mk_Incoming (in_bytes (en_in e) ++ data) (in_eof (en_in e)) (in_round (en_in e)))
    (en_arrived e + length data) (en_accepted e) (en_delivered e)).

Definition end_event (i : bool) (peer e : Endpoint) (ev : EndEvent) : option (EndOutcome * Endpoint) :=
  match ev with
  | EvWrite buf => end_write i e buf
  | EvFlush => end_flush i e
  | EvRead n => Some (end_read i e n)
  | EvArrive n => Some (end_arrive peer e n)
  end.

(** Any order of the events of the ends; [None] is a failed assertion. *)
Fixpoint duplex (evs : list (bool * EndEvent)) (a b : Endpoint) : option (list (bool * EndOutcome) * Endpoint * Endpoint) :=
  match evs with
  | [] => Some ([], a, b)
  | (true, ev) :: evs =>
      '(o, a) ← end_event true b a ev;
      '(os, a, b) ← duplex evs a b;
      Some ((true, o) :: os, a, b)
  | (false, ev) :: evs =>
      '(o, b) ← end_event false a b ev;
      '(os, a, b) ← duplex evs a b;
      Some ((false, o) :: os, a, b)
  end.

(** *** What is in transit *)

Context `{!SnowTransport}.
Implicit Types (q : list (bytes * bytes)) (o : NoiseOutput) (e : Endpoint).

Definition nf_of (e : Endpoint) : NoiseFramed ts_state := no_io (en_stream e).

(** Messages with their payloads that the cipher [c] reads, becoming [d]. *)
Fixpoint in_transit q (c d : ts_cipher) : Prop :=
  match q with
  | [] => c = d
  | (p, m) :: q =>
      length m = length p + 16 ∧ length p ≤ MAX_FRAME_LEN ∧
      ∃ c', (∀ b, ts_rx b = c → ∃ b', read_message b m = Some (p, b') ∧ ts_rx b' = c' ∧ ts_tx b' = ts_tx b) ∧
            in_transit q c' d
  end.

Definition frames q : bytes := q ≫= λ x, noise_frame x.2.
Definition payloads q : bytes := q ≫= fst.

Lemma in_transit_snoc q c p n m a a' :
  in_transit q c (ts_tx a) → length p ≤ MAX_FRAME_LEN → write_message a p n = Some (m, a') →
  in_transit (q ++ [(p, m)]) c (ts_tx a').
Proof.
  intros Hq Hp Hw. destruct (ts_message _ _ _ _ _ Hw) as (Hl&Hrx&Hread). revert c Hq.
  induction q as [|[p1 m1] q IH]; intros c; cbn.
  2: { intros (?&?&c'&?&?). split_and!; [done|done|]. exists c'. auto. }
  intros ->. split_and!; [done|done|]. exists (ts_tx a'). by split.
Qed.

Lemma noise_frame_small (p m : bytes) :
  length m = length p + 16 → length p ≤ MAX_FRAME_LEN → noise_frame m = be_split 2 (Z.of_nat (length m)) ++ m.
Proof.
  intros Hm Hp. pose proof MAX_FRAME_LEN_eq. unfold noise_frame. rewrite Z.mod_small by lia. done.
Qed.

(** What [frame_next] reads from a part of the frames in transit. *)
Lemma frame_next_in_transit q c d b h tail :
  in_transit q c d → ts_rx b = c → h ++ tail = frames q →
  (frame_next b false h = Pending ∧ (tail = [] → q = [])) ∨
  ∃ p m q' b' rest, q = (p, m) :: q' ∧ frame_next b false h = Done (Some (p, b')) rest ∧ rest ++ tail = frames q' ∧
    in_transit q' (ts_rx b') d ∧ ts_tx b' = ts_tx b.
Proof.
  pose proof MAX_FRAME_LEN_eq as HM. intros Hq Hb Hh. destruct q as [|[p m] q]; cbn in Hq, Hh.
  { apply app_nil in Hh as [-> ->]. left. split; [reflexivity|done]. }
  destruct Hq as (Hm&Hp&c'&Hread&Hq). destruct (Hread b Hb) as (b'&Hr&Hrx&Htx). cbn in Hh.
  rewrite (noise_frame_small p), <-(assoc_L (++)) in Hh by done. rewrite frame_next_eq.
  destruct (Nat.ltb_spec (length h) 2) as [Hs|Hs].
  { left. split; [done|]. intros ->. rewrite app_nil_r in Hh. apply (f_equal length) in Hh.
    rewrite length_app, length_be_split in Hh. lia. }
  assert (take 2 h = be_split 2 (Z.of_nat (length m)) ∧ drop 2 h ++ tail = m ++ frames q) as [Hpre Hrest].
  { apply app_inj_1; [rewrite length_take, length_be_split; lia|]. by rewrite (assoc_L (++)), take_drop. }
  rewrite Hpre, len_prefix by lia. cbn zeta. destruct (Nat.eqb_spec (length m) 0); [lia|].
  destruct (Nat.ltb_spec (length (drop 2 h)) (length m)) as [Hd|Hd].
  { left. split; [done|]. intros ->. rewrite app_nil_r in Hrest. apply (f_equal length) in Hrest. rewrite length_app in Hrest. lia. }
  right. assert (take (length m) (drop 2 h) = m ∧ drop (length m) (drop 2 h) ++ tail = frames q) as [Htk Hdr].
  { apply app_inj_1; [rewrite length_take; lia|]. by rewrite (assoc_L (++)), take_drop. }
  exists p, m, q, b', (drop (length m) (drop 2 h)). rewrite Htk, Hr. subst c'. split_and!; [reflexivity|reflexivity|exact Hdr|exact Hq|exact Htx].
Qed.

(** No frame in transit is empty. *)
Lemma frames_not_empty q c d k l tail : in_transit q c d → (empty_frames k ++ l) ++ tail = frames q → k = 0.
Proof.
  pose proof MAX_FRAME_LEN_eq as HM. intros Hq Hh. destruct k as [|k]; [done|exfalso]. unfold empty_frames in Hh. replace (2 * S k) with (2 + 2 * k) in Hh by lia.
  rewrite replicate_add, <-!(assoc_L (++)) in Hh. destruct q as [|[p m] q]; [done|].
  cbn [in_transit] in Hq. destruct Hq as (Hm&Hp&_). unfold frames in Hh. rewrite bind_cons in Hh.
  cbn [snd] in Hh. rewrite (noise_frame_small p), <-(assoc_L (++)) in Hh by done.
  apply app_inj_1 in Hh as [Hh _]; [|by rewrite length_be_split]. apply (f_equal be_combine) in Hh.
  rewrite be_combine_zeros, be_combine_split_small in Hh by (simpl; lia). lia.
Qed.

(** *** Receiving *)

(** What was read from frames and not delivered. *)
Definition unread o : bytes := drop (no_recv_offset o) (no_recv_buffer o).
Definition recv_wf o : Prop := no_recv_buffer o = [] ∨ no_recv_offset o < length (no_recv_buffer o).

(** The receiver is at the start of the messages [q]; [tail] has not arrived. *)
Definition recv_inv q (d : ts_cipher) (tail : bytes) o (io : Incoming) : Prop :=
  in_eof io = false ∧ read_wf (no_io o) ∧ recv_wf o ∧ in_transit q (ts_rx (nf_session (no_io o))) d ∧
  (progress (no_io o) ++ in_bytes io) ++ tail = frames q.

(** Reading leaves what concerns the other direction as it is. *)
Definition same_send o o' : Prop :=
  nf_write_state (no_io o') = nf_write_state (no_io o) ∧ nf_write_buffer (no_io o') = nf_write_buffer (no_io o) ∧
  ts_tx (nf_session (no_io o')) = ts_tx (nf_session (no_io o)) ∧
  no_send_buffer o' = no_send_buffer o ∧ no_send_offset o' = no_send_offset o.

Lemma same_send_trans o1 o2 o3 : same_send o1 o2 → same_send o2 o3 → same_send o1 o3.
Proof. intros (?&?&?&?&?) (?&?&?&?&?). split_and!; congruence. Qed.

Lemma output_poll_read_spec i fuel q d tail o io n :
  recv_inv q d tail o io → length (in_bytes io) + (if decide (no_recv_buffer o = []) then 1 else 0) < fuel →
  let '(r, o', io') := output_poll_read_loop (chunks i) fuel o io n in
  same_send o o' ∧ ∃ q' data, recv_inv q' d tail o' io' ∧ unread o ++ payloads q = data ++ unread o' ++ payloads q' ∧
  match r with
  | Ready (Ok data') => data' = data ∧ (0 < n → data ≠ [])
  | Ready (Err _) => False
  | PollPending => data = [] ∧ unread o' = [] ∧ (tail = [] → q' = [])
  end.
Proof.
  revert q o io. induction fuel as [|fuel IH]; intros q o io (He&Hrw&Hwf&Hq&Hfr) Hfuel; [lia|]. cbn [output_poll_read_loop].
  destruct (Nat.ltb_spec 0 (length (no_recv_buffer o))) as [Hlen|Hlen].
  { destruct Hwf as [Hwf|Hwf]; [rewrite Hwf in Hlen; cbn in Hlen; lia|].
    set (len := length (no_recv_buffer o)) in *. set (off := no_recv_offset o) in *. set (k := min (len - off) n).
    set (data := take k (drop off (no_recv_buffer o))).
    assert (Hd : unread o = data ++ drop (off + k) (no_recv_buffer o)) by (unfold unread, data; rewrite <-drop_drop; by rewrite take_drop).
    assert (Hdl : length data = k) by (unfold data; rewrite length_take, length_drop; lia).
    split; [done|]. exists q, data. cbn [set_recv no_io no_recv_buffer no_recv_offset]. unfold recv_inv.
    cbn [set_recv no_io no_recv_buffer no_recv_offset]. split_and!; try done.
    - unfold recv_wf. cbn [set_recv no_recv_buffer no_recv_offset]. destruct (Nat.eqb_spec len (off + k)); [by left|right]. lia.
    - rewrite Hd. unfold unread. cbn [set_recv no_recv_buffer no_recv_offset]. rewrite <-(assoc_L (++)). do 2 f_equal.
      destruct (Nat.eqb_spec len (off + k)) as [Heq|]; [|done]. rewrite drop_nil. apply drop_ge. unfold len in *. lia.
    - intros ? Hnil. rewrite Hnil in Hdl. cbn in Hdl. lia. }
  assert (Hrb : no_recv_buffer o = []) by (destruct (no_recv_buffer o); cbn in Hlen; [done|lia]).
  assert (Hun : unread o = []) by (unfold unread; rewrite Hrb; apply drop_nil).
  rewrite decide_True in Hfuel by done.
  pose proof (poll_next_spec (chunks i) (no_io o) io Hrw) as Hn.
  destruct (poll_next (chunks i) (no_io o) io) as [[p f'] io']. destruct Hn as (He'&Hws&Hwb&Hn). rewrite He in Hn, He'.
  destruct (frame_next_in_transit _ _ _ _ _ _ Hq eq_refl Hfr) as [[Hp Htail]|(p1&m&q'&b'&rest&->&Hp&Hrest&Hq'&Htx)].
  - rewrite Hp in Hn. destruct p as [[[payload|e]|]|]; [by destruct Hn as (_&?&_)|done|done|].
    destruct Hn as (_&Hin&Hrw'&Hs&_&k&Hk). rewrite Hk in Hfr. pose proof (frames_not_empty _ _ _ _ _ _ Hq Hfr) as ->.
    cbn [empty_frames Nat.mul replicate app] in Hfr, Hk.
    split; [split_and!; try done; cbn; by rewrite Hs|]. exists q, []. unfold recv_inv, unread, recv_wf.
    cbn [set_recv no_io no_recv_buffer no_recv_offset]. rewrite Hs, Hin, app_nil_r, Hrb, !drop_nil. split_and!; try done. by left.
  - rewrite Hp in Hn. destruct p as [[[payload|e]|]|]; [|done|done|by destruct Hn as (_&_&_&_&?&_)].
    destruct Hn as (Hrs&Hn&Hlt). injection Hn as -> Hb' ->. subst b'.
    set (o1 := set_recv f' payload 0 o).
    assert (Hpr : progress f' = []) by (unfold progress; by rewrite Hrs).
    assert (Hrw' : read_wf f') by (unfold read_wf; by rewrite Hrs).
    specialize (IH q' o1 io'). destruct (output_poll_read_loop (chunks i) fuel o1 io' n) as [[r o'] io''].
    destruct IH as (Hss&q''&data&Hri&Heq&Hr).
    { split_and!; try done. - unfold recv_wf, o1. cbn. destruct payload; [by left|right; cbn; lia]. - cbn. by rewrite Hpr. }
    { cbn. destruct (decide (payload = [])); lia. }
    split; [eapply same_send_trans; [|exact Hss]; split_and!; done|].
    exists q'', data. split; [done|]. split; [|done]. rewrite <-Heq, Hun. unfold unread, o1. cbn. by rewrite drop_0.
Qed.

(** *** Sending *)

Definition send_wf o : Prop :=
  no_send_offset o ≤ MAX_FRAME_LEN ∧ (0 < no_send_offset o → length (no_send_buffer o) = no_send_offset o).

(** The payload that has been accepted and is in no message. *)
Definition unsent o : bytes := take (no_send_offset o) (no_send_buffer o).

(** [rest] are the bytes of messages that are not written. *)
Definition send_ok (rest : bytes) o : Prop :=
  write_wf (no_io o) ∧ send_wf o ∧ (¬ write_dead (no_io o) → rest = pending (no_io o)).

(** Writing leaves what concerns the other direction as it is. *)
Definition same_recv o o' : Prop :=
  nf_read_state (no_io o') = nf_read_state (no_io o) ∧ nf_read_buffer (no_io o') = nf_read_buffer (no_io o) ∧
  ts_rx (nf_session (no_io o')) = ts_rx (nf_session (no_io o)) ∧
  no_recv_buffer o' = no_recv_buffer o ∧ no_recv_offset o' = no_recv_offset o.

(** An operation that accepts the payload [acc] adds messages and writes a part of the
    bytes that were not written. *)
Definition send_step (rest acc : bytes) o (io : Outgoing) (rest' : bytes) o' (io' : Outgoing) : Prop :=
  ∃ add new, same_recv o o' ∧ out_bytes io' = out_bytes io ++ new ∧
    (∀ q c, in_transit q c (ts_tx (nf_session (no_io o))) → in_transit (q ++ add) c (ts_tx (nf_session (no_io o')))) ∧
    rest ++ frames add = new ++ rest' ∧ send_ok rest' o' ∧ unsent o ++ acc = payloads add ++ unsent o'.

Lemma send_step_trans rest1 acc1 o1 io1 rest2 o2 io2 acc2 rest3 o3 io3 :
  send_step rest1 acc1 o1 io1 rest2 o2 io2 → send_step rest2 acc2 o2 io2 rest3 o3 io3 →
  send_step rest1 (acc1 ++ acc2) o1 io1 rest3 o3 io3.
Proof.
  intros (add1&new1&Hs1&Ho1&Ht1&Hf1&_&Hu1) (add2&new2&Hs2&Ho2&Ht2&Hf2&Hok&Hu2).
  exists (add1 ++ add2), (new1 ++ new2). split_and!; try done.
  - destruct Hs1 as (?&?&?&?&?), Hs2 as (?&?&?&?&?). split_and!; congruence.
  - by rewrite Ho2, Ho1, (assoc_L (++)).
  - intros q c Hq. rewrite (assoc_L (++)). auto.
  - unfold frames in *. rewrite bind_app, (assoc_L (++)), Hf1, <-!(assoc_L (++)). by rewrite Hf2.
  - unfold payloads in *. rewrite bind_app, (assoc_L (++)), Hu1, <-!(assoc_L (++)). by rewrite Hu2.
Qed.

(** No message is added. *)
Lemma send_step_no_message rest acc o io new rest' o' io' :
  same_recv o o' → out_bytes io' = out_bytes io ++ new → ts_tx (nf_session (no_io o')) = ts_tx (nf_session (no_io o)) →
  rest = new ++ rest' → send_ok rest' o' → unsent o ++ acc = unsent o' → send_step rest acc o io rest' o' io'.
Proof.
  intros Hs Ho Htx Hr Hok Hu. exists [], new. rewrite Htx. split_and!; try done.
  - intros. by rewrite app_nil_r.
  - cbn. by rewrite app_nil_r.
Qed.

Lemma poll_ready_send i rest o io p f' io' :
  send_ok rest o → poll_ready (accepts i) (no_io o) io = (p, f', io') →
  ∃ rest', send_step rest [] o io rest' (set_send f' (no_send_buffer o) (no_send_offset o) o) io' ∧
    match p with
    | Ready (Ok _) => nf_write_state f' = WsReady
    | Ready (Err _) => write_dead f'
    | PollPending => ¬ write_dead f'
    end.
Proof.
  intros (Hwf&Hsw&Hrest) Heq. pose proof (poll_ready_spec (accepts i) (no_io o) io Hwf) as Hp. rewrite Heq in Hp.
  destruct Hp as (Hs&Hrs&Hrb&Hwf'&Hp&new&rest'&Hout&Hpend&Hr').
  assert (Hst : ∀ x, rest = new ++ x → (¬ write_dead f' → x = pending f') →
    send_step rest [] o io x (set_send f' (no_send_buffer o) (no_send_offset o) o) io').
  { intros x Hx Hd. eapply (send_step_no_message _ _ _ _ new); try done; [split_and!; try done; cbn; by rewrite Hs|cbn; by rewrite Hs|].
    by rewrite app_nil_r. }
  assert (write_dead (no_io o) ∨ ¬ write_dead (no_io o)) as [Hd|Hd].
  { unfold write_dead. destruct (nf_write_state (no_io o)); tauto. }
  - assert (Hpn : pending (no_io o) = [] ∧ f' = no_io o).
    { revert Hd Heq. unfold pending, write_dead, poll_ready. cbn [poll_ready_loop Nat.add].
      destruct (nf_write_state (no_io o)); intros Hd Heq; try done; by simplify_eq. }
    destruct Hpn as [Hpn ->]. rewrite Hpn in Hpend. symmetry in Hpend. apply app_nil in Hpend as [-> ->].
    exists rest. split; [|done]. by apply Hst.
  - exists rest'. split; [|done]. apply Hst; [|done]. rewrite <-Hpend. by apply Hrest.
Qed.

Lemma start_send_step rest o io :
  send_ok rest o → nf_write_state (no_io o) = WsReady → 0 < no_send_offset o →
  match start_send (no_io o) (no_send_buffer o) with
  | None => False
  | Some (Ok _, f) => ∃ rest', send_step rest [] o io rest' (set_send f (no_send_buffer o) 0 o) io
  | Some (Err _, f) => ∃ rest', send_step rest [] o io rest' (set_send f (no_send_buffer o) (no_send_offset o) o) io
  end.
Proof.
  intros (Hwf&[Hmax Hlen]&Hrest) Hws Hoff. specialize (Hlen Hoff). unfold start_send. rewrite Hws.
  destruct (Nat.leb_spec (length (no_send_buffer o)) MAX_FRAME_LEN); [|lia]. cbn [ws_is_ready].
  assert (Hr : rest = []). { rewrite Hrest; unfold pending, write_dead; rewrite Hws; [done|tauto]. }
  destruct (write_message _ _ _) as [[m s]|] eqn:Hw.
  - destruct (ts_message _ _ _ _ _ Hw) as (Hml&Hrx&_). exists (noise_frame m), [(no_send_buffer o, m)], [].
    split_and!; try done.
    + cbn. by rewrite app_nil_r.
    + intros q c Hq. by eapply in_transit_snoc.
    + rewrite Hr. cbn. by rewrite app_nil_r.
    + unfold send_ok, write_wf, send_wf, pending, noise_frame.
      cbn [set_send no_io set_write nf_write_state nf_write_buffer no_send_offset no_send_buffer].
      rewrite length_be_split, drop_0, firstn_all. split_and!; [done|lia|lia|done|lia|lia|done].
    + unfold unsent. cbn. rewrite take_0, !app_nil_r, <-Hlen. apply firstn_all.
  - exists []. eapply (send_step_no_message _ _ _ _ []); try done; by rewrite app_nil_r.
Qed.

Lemma output_send_step i rest o io :
  send_ok rest o → 0 < no_send_offset o →
  ∃ r o' io' rest', output_send (accepts i) o io = Some (r, o', io') ∧ send_step rest [] o io rest' o' io' ∧
    match r with Ready (Ok _) => no_send_offset o' = 0 | _ => True end.
Proof.
  intros Hok Hoff. unfold output_send. destruct (poll_ready (accepts i) (no_io o) io) as [[p f'] io'] eqn:Hp.
  destruct (poll_ready_send _ _ _ _ _ _ _ Hok Hp) as (rest'&Hst&Hr). destruct p as [[[]|e]|]; [|by eauto 10..].
  set (o1 := set_send f' (no_send_buffer o) (no_send_offset o) o) in *.
  assert (Hok1 : send_ok rest' o1) by (by destruct Hst as (?&?&?&?&?&?&?&?)).
  pose proof (start_send_step rest' o1 io' Hok1 Hr Hoff) as Hss.
  change (no_io o1) with f' in Hss. change (no_send_buffer o1) with (no_send_buffer o) in Hss.
  destruct (start_send f' (no_send_buffer o)) as [[[[]|e] f2]|]; [| |done]; destruct Hss as [rest2 Hss];
    pose proof (send_step_trans _ _ _ _ _ _ _ _ _ _ _ Hst Hss) as Hst2; cbn in Hst2; by eauto 10.
Qed.

Lemma output_buffer_step rest o io buf :
  send_ok rest o →
  let x := output_buffer o buf in
  x.1 ≤ length buf ∧ send_step rest (take x.1 buf) o io rest x.2 io.
Proof.
  intros (Hwf&[Hmax Hlen]&Hrest). cbn. split; [lia|].
  set (off := no_send_offset o) in *. set (n := min (MAX_FRAME_LEN - off) (length buf)).
  replace (min MAX_FRAME_LEN (off + length buf)) with (off + n) by lia. set (b := vec_resize (off + n) (no_send_buffer o)).
  assert (Hb : length b = off + n) by apply vec_resize_length.
  assert (Htb : length (take n buf) = n) by (rewrite length_take; lia).
  assert (Hob : take off b = take off (no_send_buffer o)).
  { destruct off as [|off']; [done|]. unfold b, vec_resize. rewrite take_app_le by (rewrite length_take; lia).
    rewrite take_take. f_equal. lia. }
  eapply (send_step_no_message _ _ _ _ []); try done; [by rewrite app_nil_r|split_and!; try done|].
  - unfold send_wf. cbn [set_send no_send_offset no_send_buffer]. rewrite vec_write_length; lia.
  - unfold unsent. cbn [set_send no_send_offset no_send_buffer]. fold off. rewrite <-Htb at 2. rewrite vec_write_take by lia. by rewrite Hob.
Qed.

(** No operation of a sender fails an assertion. *)
Lemma output_poll_write_step i rest o io buf :
  send_ok rest o →
  ∃ r o' io' rest', output_poll_write (accepts i) o io buf = Some (r, o', io') ∧
    send_step rest (take (match r with Ready (Ok n) => n | _ => 0 end) buf) o io rest' o' io'.
Proof.
  intros Hok. unfold output_poll_write. destruct (Nat.eqb_spec (no_send_offset o) MAX_FRAME_LEN) as [Heq|Hne].
  - pose proof MAX_FRAME_LEN_eq. destruct (output_send_step i rest o io Hok) as (r&o1&io1&rest1&->&Hst&Hr); [lia|].
    destruct r as [[[]|e]|]; [|by eauto 10..].
    assert (Hok1 : send_ok rest1 o1) by (by destruct Hst as (?&?&?&?&?&?&?&?)).
    destruct (output_buffer_step rest1 o1 io1 buf Hok1) as [_ Hst1].
    eexists _, _, _, _. split; [done|]. exact (send_step_trans _ _ _ _ _ _ _ _ _ _ _ Hst Hst1).
  - destruct (output_buffer_step rest o io buf Hok) as [_ Hst]. eexists _, _, _, _. by split; [done|].
Qed.

(** A flush that completes has written everything. *)
Lemma output_poll_flush_step i rest o io :
  send_ok rest o →
  ∃ r o' io' rest', output_poll_flush (accepts i) o io = Some (r, o', io') ∧ send_step rest [] o io rest' o' io' ∧
    match r with Ready (Ok _) => rest' = [] ∧ unsent o' = [] | _ => True end.
Proof.
  intros Hok. unfold output_poll_flush, framed_poll_flush.
  assert (Hfin : ∀ rest o io, send_ok rest o → no_send_offset o = 0 →
    ∃ r f io' rest', poll_ready (accepts i) (no_io o) io = (r, f, io') ∧
    send_step rest [] o io rest' (set_send f (no_send_buffer o) (no_send_offset o) o) io' ∧
    match r with Ready (Ok _) => rest' = [] ∧ unsent (set_send f (no_send_buffer o) (no_send_offset o) o) = [] | _ => True end).
  { clear rest o io Hok. intros rest o io Hok Hz. destruct (poll_ready (accepts i) (no_io o) io) as [[p f'] io'] eqn:Hp.
    destruct (poll_ready_send _ _ _ _ _ _ _ Hok Hp) as (rest'&Hst&Hr). eexists _, _, _, _. split_and!; [done|done|].
    destruct p as [[[]|e]|]; [|done..]. pose proof Hst as (?&?&_&_&_&_&(_&_&Hd)&_). cbn in Hd.
    unfold write_dead, pending in Hd. rewrite Hr in Hd. split; [by apply Hd; intros []|]. unfold unsent. cbn. by rewrite Hz. }
  destruct (Nat.ltb_spec 0 (no_send_offset o)) as [Hoff|Hoff].
  - destruct (output_send_step i rest o io Hok Hoff) as (r&o1&io1&rest1&->&Hst&Hr).
    destruct r as [[[]|e]|]; [|by eauto 10..].
    assert (Hok1 : send_ok rest1 o1) by (by destruct Hst as (?&?&?&?&?&?&?&?)).
    destruct (Hfin rest1 o1 io1 Hok1 Hr) as (r&f&io2&rest2&->&Hst1&Hr1). eexists _, _, _, _. split_and!; [done| |done].
    exact (send_step_trans _ _ _ _ _ _ _ _ _ _ _ Hst Hst1).
  - destruct (Hfin rest o io Hok ltac:(lia)) as (r&f&io2&rest2&->&Hst1&Hr1). by eexists _, _, _, _.
Qed.

(** *** One direction *)

(** The messages [q] and the unwritten bytes [rest] are between the sender and the
    receiver. *)
Definition dir_at q (rest : bytes) (s r : Endpoint) : Prop :=
  recv_inv q (ts_tx (nf_session (nf_of s))) (drop (en_arrived r) (out_bytes (en_out s)) ++ rest) (en_stream r) (en_in r) ∧
  en_arrived r ≤ length (out_bytes (en_out s)) ∧ send_ok rest (en_stream s) ∧
  en_accepted s = en_delivered r ++ unread (en_stream r) ++ payloads q ++ unsent (en_stream s).
Definition dir_inv (s r : Endpoint) : Prop := ∃ q rest, dir_at q rest s r.

(** What an operation leaves as it is in the other direction. *)
Definition recv_frame e (e' : Endpoint) : Prop :=
  same_recv (en_stream e) (en_stream e') ∧ en_in e' = en_in e ∧ en_arrived e' = en_arrived e ∧ en_delivered e' = en_delivered e.
Definition send_frame e (e' : Endpoint) : Prop :=
  same_send (en_stream e) (en_stream e') ∧ en_out e' = en_out e ∧ en_accepted e' = en_accepted e.

Lemma dir_inv_recv_frame s r r' : recv_frame r r' → dir_inv s r → dir_inv s r'.
Proof.
  intros ((Hrs&Hrb&Hrx&Hb&Ho)&Hin&Har&Hd) (q&rest&(He&Hrw&Hwf&Hq&Hf)&Ha&Hok&Hacc). exists q, rest.
  unfold dir_at, recv_inv, recv_wf, read_wf, progress, unread in *. rewrite Hin, Har, Hd, Hrs, Hrb, Hrx, Hb, Ho. done.
Qed.

Lemma dir_inv_send_frame s s' r : send_frame s s' → dir_inv s r → dir_inv s' r.
Proof.
  intros ((Hws&Hwb&Htx&Hb&Ho)&Hout&Hac) (q&rest&Hri&Ha&(Hww&Hsw&Hd)&Hacc). exists q, rest. unfold dir_at, nf_of.
  unfold send_ok, write_wf, write_dead, pending, send_wf, unsent in *. rewrite Hout, Hac, Htx, Hws, Hwb, Hb, Ho. done.
Qed.

Lemma dir_at_send q rest s r acc rest' o' io' :
  dir_at q rest s r → send_step rest acc (en_stream s) (en_out s) rest' o' io' →
  let s' := mk_Endpoint o' io' (en_in s) (en_arrived s) (en_accepted s ++ acc) (en_delivered s) in
  recv_frame s s' ∧ ∃ q', dir_at q' rest' s' r.
Proof.
  intros ((He&Hrw&Hwf&Hq&Hf)&Ha&Hok&Hacc) (add&new&Hsr&Hout&Htr&Hfr&Hok'&Hu). cbn. split; [done|].
  exists (q ++ add). unfold dir_at, recv_inv, nf_of. cbn [en_stream en_out en_accepted]. rewrite Hout. split_and!; try done.
  - by apply Htr.
  - unfold frames in *. rewrite bind_app, <-Hf, <-!(assoc_L (++)), Hfr, drop_app_le by done. by rewrite <-(assoc_L (++)).
  - rewrite length_app. lia.
  - unfold payloads in *. rewrite bind_app, Hacc, <-!(assoc_L (++)). by rewrite Hu.
Qed.

(** *** The operations *)

Lemma end_write_inv i s r buf :
  dir_inv s r → ∃ out s', end_write i s buf = Some (OutWrite out, s') ∧ recv_frame s s' ∧ dir_inv s' r.
Proof.
  intros (q&rest&Hd). destruct (output_poll_write_step i rest (en_stream s) (en_out s) buf) as (x&o'&io'&rest'&Heq&Hst).
  { by destruct Hd as (_&_&?&_). }
  unfold end_write. rewrite Heq. cbn. destruct (dir_at_send _ _ _ _ _ _ _ _ Hd Hst) as [Hf [q' Hd']].
  eexists _, _. split; [done|]. split; [done|]. by exists q', rest'.
Qed.

Lemma end_flush_inv i s r :
  dir_inv s r →
  ∃ out s', end_flush i s = Some (OutFlush out, s') ∧ recv_frame s s' ∧ ∃ q rest, dir_at q rest s' r ∧
    match out with Ready (Ok _) => rest = [] ∧ unsent (en_stream s') = [] | _ => True end.
Proof.
  intros (q&rest&Hd). destruct (output_poll_flush_step i rest (en_stream s) (en_out s)) as (x&o'&io'&rest'&Heq&Hst&Hx).
  { by destruct Hd as (_&_&?&_). }
  unfold end_flush. rewrite Heq. cbn. destruct (dir_at_send _ _ _ _ _ _ _ _ Hd Hst) as [Hf [q' Hd']].
  rewrite app_nil_r in Hf, Hd'. eexists _, _. split; [done|]. split; [done|]. by exists q', rest'.
Qed.

Lemma end_arrive_at q rest s r n :
  dir_at q rest s r → dir_at q rest s (end_arrive s r n).2 ∧ send_frame r (end_arrive s r n).2.
Proof.
  intros ((He&Hrw&Hwf&Hq&Hf)&Ha&Hok&Hacc). split; [|done]. unfold dir_at, recv_inv, end_arrive.
  cbn [snd en_stream en_in en_arrived en_delivered in_eof in_bytes]. split_and!; try done.
  - rewrite <-Hf, <-!(assoc_L (++)). do 2 f_equal. rewrite (assoc_L (++)). f_equal.
    rewrite <-drop_drop, length_take. set (flight := drop (en_arrived r) (out_bytes (en_out s))).
    destruct (decide (n ≤ length flight)).
    + by rewrite Nat.min_l, take_drop by done.
    + by rewrite Nat.min_r, take_ge, drop_ge, app_nil_r by lia.
  - rewrite length_take, length_drop. lia.
Qed.

Lemma end_read_at i q rest s r n :
  dir_at q rest s r →
  ∃ out r', end_read i r n = (OutRead out, r') ∧ send_frame r r' ∧ en_arrived r' = en_arrived r ∧ ∃ q', dir_at q' rest s r' ∧
    match out with
    | Ready (Ok data) => 0 < n → data ≠ []
    | Ready (Err _) => False
    | PollPending => unread (en_stream r') = [] ∧ (drop (en_arrived r) (out_bytes (en_out s)) ++ rest = [] → q' = [])
    end.
Proof.
  intros (Hri&Ha&Hok&Hacc). unfold end_read, output_poll_read.
  pose proof (output_poll_read_spec i (2 + length (in_bytes (en_in r))) q _ _ _ _ n Hri) as Hr.
  destruct (output_poll_read_loop _ _ _ _ _) as [[out o'] io']. destruct Hr as (Hss&q'&data&Hri'&Heq&Hr).
  { case_decide; lia. }
  eexists _, _. split; [done|]. split; [done|]. split; [done|]. exists q'. split.
  - split; [done|]. split; [done|]. split; [done|]. cbn [en_accepted en_delivered en_stream]. rewrite Hacc.
    rewrite (assoc_L (++) (unread _)), Heq, <-!(assoc_L (++)). f_equal. f_equal.
    destruct out as [[data'|e]|]; [by destruct Hr as [-> _]|done|by destruct Hr as [-> _]].
  - destruct out as [[data'|e]|]; [|done|by destruct Hr as (_&?&?)]. by destruct Hr as [-> ?].
Qed.

(** A read never fails, and is not empty unless it is asked for nothing. *)
Definition outcome_ok (ev : EndEvent) (out : EndOutcome) : Prop :=
  match ev, out with
  | EvRead n, OutRead (Ready (Ok data)) => 0 < n → data ≠ []
  | EvRead _, OutRead (Ready (Err _)) => False
  | _, _ => True
  end.

Lemma end_event_inv i peer e ev :
  dir_inv e peer → dir_inv peer e →
  ∃ out e', end_event i peer e ev = Some (out, e') ∧ dir_inv e' peer ∧ dir_inv peer e' ∧ outcome_ok ev out.
Proof.
  intros Hs Hr. destruct ev as [buf| |n|n]; cbn.
  - destruct (end_write_inv i e peer buf Hs) as (out&e'&->&Hf&Hd). eauto 10 using dir_inv_recv_frame.
  - destruct (end_flush_inv i e peer Hs) as (out&e'&->&Hf&q&rest&Hd&_). unfold dir_inv at 1. eauto 10 using dir_inv_recv_frame.
  - destruct Hr as (q&rest&Hr). destruct (end_read_at i q rest peer e n Hr) as (out&e'&->&Hf&_&q'&Hd&Ho).
    eexists _, _. split; [done|]. split; [by eapply dir_inv_send_frame|]. split; [by exists q', rest|].
    cbn. by destruct out as [[]|].
  - destruct Hr as (q&rest&Hr). destruct (end_arrive_at q rest peer e n Hr) as [Hd Hf].
    eexists _, _. split; [apply f_equal, surjective_pairing|]. split; [by eapply dir_inv_send_frame|]. split; [by exists q, rest|done].
Qed.

Lemma duplex_inv evs a b :
  dir_inv a b → dir_inv b a →
  ∃ os a' b', duplex evs a b = Some (os, a', b') ∧ dir_inv a' b' ∧ dir_inv b' a' ∧
    Forall2 (λ ev out, out.1 = ev.1 ∧ outcome_ok ev.2 out.2) evs os.
Proof.
  revert a b. induction evs as [|[[] ev] evs IH]; intros a b Hab Hba; cbn.
  { eexists _, _, _. by split_and!. }
  - destruct (end_event_inv true b a ev Hab Hba) as (out&a1&->&Hab1&Hba1&Ho). cbn.
    destruct (IH a1 b Hab1 Hba1) as (os&a'&b'&->&?&?&?). eexists _, _, _. split; [done|]. split_and!; try done. by constructor.
  - destruct (end_event_inv false a b ev Hba Hab) as (out&b1&->&Hba1&Hab1&Ho). cbn.
    destruct (IH a b1 Hab1 Hba1) as (os&a'&b'&->&?&?&?). eexists _, _, _. split; [done|]. split_and!; try done. by constructor.
Qed.

Lemma dir_inv_new a b : ts_tx a = ts_rx b → dir_inv (Endpoint_new a) (Endpoint_new b).
Proof.
  intros Hab. exists [], []. unfold dir_at, recv_inv, send_ok, send_wf. cbn. split_and!; try done; [by left|lia].
Qed.

(** *** Delivery *)

End duplex.

(** ** The handshake

    [snow] runs the XX pattern: three messages, each not empty and at most
    [EXTRA_ENCRYPT_SPACE] bytes longer than its payload, after which each side knows
    the static key of the other and the ciphers of the transports match. *)

Definition xx_message `{SnowCrate} (w r : hs_state) (p m : bytes) (w' r' : hs_state) : Prop :=
  write_message w p (length p + EXTRA_ENCRYPT_SPACE) = Some (m, w') ∧ read_message r m = Some (p, r') ∧
  0 < length m ≤ length p + EXTRA_ENCRYPT_SPACE.

Class SnowXX `{SnowTransport} := {
  x25519_length k : length (x25519_base k) = 32;
  xx_run ka ra kb rb i0 r0 p1 p2 p3 :
    hs_build true ka ra = Some i0 → hs_build false kb rb = Some r0 →
    length p1 ≤ MAX_FRAME_LEN → length p2 ≤ MAX_FRAME_LEN → length p3 ≤ MAX_FRAME_LEN →
    ∃ m1 i1 r1 m2 r2 i2 m3 i3 r3 ta tb,
      xx_message i0 r0 p1 m1 i1 r1 ∧ xx_message r1 i1 p2 m2 r2 i2 ∧ xx_message i2 r2 p3 m3 i3 r3 ∧
      hs_remote_static i3 = Some (x25519_base kb) ∧ hs_remote_static r3 = Some (x25519_base ka) ∧
      hs_into_transport i3 = Some ta ∧ hs_into_transport r3 = Some tb ∧ ts_tx ta = ts_rx tb ∧ ts_tx tb = ts_rx ta
}.

(** A signature of a static key is one that verifies. *)
Class NoiseProtocolLaws (PeerId : Type) `{NoiseProtocol PeerId} := {
  public_from_bytes_32 b : length b = 32 → public_from_bytes b = Ok b;
  np_verify_sign k m sig : np_sign k m = Ok sig → np_verify (ni_public k) m (Some sig) = true
}.

Class NoiseCodecLaws `{NoiseCodec} : Prop := payload_decode_encode p : payload_decode (payload_encode p) = Some p.

Section protocol_laws.
Context {PeerId : Type} `{NodeIdentityLaws PeerId}.

Lemma x25519_from_bytes_32 b : length b = 32 → x25519_from_bytes b = Ok b.
Proof. intros. unfold x25519_from_bytes. by rewrite bool_decide_false by lia. Qed.

Lemma id_sign_verifies k m sig : id_sign k m = Ok sig → ni_verify (ni_public k) m sig = true.
Proof. unfold id_sign. destruct (ni_sign k m) eqn:Hs; [|done]. intros [= <-]. by eapply ni_verify_sign. Qed.

Lemma X25519_laws point : @NoiseProtocolLaws PeerId _ _ (X25519 point).
Proof.
  split; [apply x25519_from_bytes_32|]. intros k m sig Hs. cbn in *. by rewrite (id_sign_verifies _ _ _ Hs), orb_true_r.
Qed.

Lemma X25519Spec_laws : @NoiseProtocolLaws PeerId _ _ X25519Spec.
Proof. split; [apply x25519_from_bytes_32|]. intros k m sig Hs. by apply id_sign_verifies. Qed.
End protocol_laws.

(** [frame_next] does not depend on what comes after the frame. *)
Lemma stable_frame_next {St} `{SessionState St} (s : St) : stable (frame_next s).
Proof.
  intros eof inp more. revert inp. enough (∀ n inp, length inp < n →
    match frame_next s false inp with
    | Done a rest => frame_next s eof (inp ++ more) = Done a (rest ++ more)
    | Failed e => frame_next s eof (inp ++ more) = Failed e
    | Pending => True
    | Panicked => frame_next s eof (inp ++ more) = Panicked
    end) as Hn by (intros inp; apply (Hn (S (length inp))); lia).
  induction n as [|n IH]; intros inp Hlen; [lia|]. rewrite (frame_next_eq s false inp).
  destruct (Nat.ltb_spec (length inp) 2) as [|H2]; [done|].
  rewrite (frame_next_eq s eof (inp ++ more)), length_app. destruct (Nat.ltb_spec (length inp + length more) 2); [lia|].
  rewrite take_app_le, drop_app_le by lia. cbn zeta. set (k := Z.to_nat (be_combine (take 2 inp))).
  destruct (k =? 0); [apply IH; rewrite length_drop; lia|]. rewrite length_app.
  destruct (Nat.ltb_spec (length (drop 2 inp)) k); [done|].
  destruct (Nat.ltb_spec (length (drop 2 inp) + length more) k); [lia|]. rewrite take_app_le, drop_app_le by lia.
  by destruct (read_message s (take k (drop 2 inp))).
Qed.

(** A message that was written is read. *)
Lemma frame_next_message {St} `{SessionState St} (s s' : St) m p eof more :
  0 < length m → (Z.of_nat (length m) < 2 ^ 16)%Z → read_message s m = Some (p, s') →
  frame_next s eof (noise_frame m ++ more) = Done (Some (p, s')) more.
Proof.
  intros Hpos Hlen Hr. unfold noise_frame. rewrite Z.mod_small by lia. rewrite frame_next_data by done.
  rewrite length_app. destruct (Nat.ltb_spec (length m + length more) (length m)); [lia|].
  by rewrite take_app_length, drop_app_length, Hr.
Qed.

Section handshake_properties.
Context {PeerId : Type} `{NodeIdentityLaws PeerId} `{!EqDecision ni_pubkey} `{!NoiseProtocol PeerId} `{!NoiseProtocolLaws PeerId}.
Context `{SnowXX} `{NoiseCodecLaws}.

Lemma stable_recv st : stable_session (recv st).
Proof.
  apply stable_sess_try; [apply stable_map_err, stable_s_read, stable_frame_next|]. by intros [[]|].
Qed.

Lemma stable_hs_send accepts st msg : stable_session (hs_send accepts st msg).
Proof. unfold hs_send. destruct (_ <=? _); [|done]. destruct (write_message _ _ _) as [[]|]; [|done]. by apply stable_sess_try. Qed.

Lemma stable_recv_identity st : stable_session (recv_identity st).
Proof. apply stable_sess_try; [apply stable_recv|]. intros. by apply stable_sess_try. Qed.

Lemma stable_noise_upgrade accepts c initiator rng : stable_session (noise_upgrade accepts c initiator rng).
Proof.
  apply stable_sess_try; [|done]. unfold noise_handshake.
  destruct initiator; (apply stable_sess_try; [done|intros st]).
  - apply stable_sess_try; [apply stable_hs_send|intros st1]. apply stable_sess_try; [apply stable_recv_identity|intros st2].
    apply stable_sess_try; [apply stable_hs_send|done].
  - apply stable_sess_try.
    { apply stable_sess_try; [apply stable_recv|]. by intros [[]]. }
    intros st1. apply stable_sess_try; [apply stable_hs_send|intros st2]. apply stable_sess_try; [apply stable_recv_identity|done].
Qed.

(** The states of a handshake of [c]: nothing is known of the other side, or its identity. *)
Definition hs_fresh (c : NoiseConfig) (s : hs_state) : HsState :=
  mk_HsState s (ak_identity (nc_dh_keys c)) None None true (nc_legacy c).
Definition hs_knows (c d : NoiseConfig) (s : hs_state) : HsState :=
  mk_HsState s (ak_identity (nc_dh_keys c)) (ki_signature (ak_identity (nc_dh_keys d)))
    (Some (ni_public (nc_local_priv_key d))) true (nc_legacy c).

(** A configuration of [xx] with keys made by [into_authentic], whose encodings are not
    empty and fit a frame. *)
Record noise_node (c : NoiseConfig) : Prop := {
  nn_keys : into_authentic (ak_secret (nc_dh_keys c)) (nc_local_priv_key c) = Ok (nc_dh_keys c);
  nn_legacy : nc_legacy c = mk_LegacyConfig false false;
  nn_public : ni_encode (ni_public (nc_local_priv_key c)) ≠ [];
  nn_signature : ki_signature (ak_identity (nc_dh_keys c)) ≠ Some [];
  nn_length : ∀ s, length (identity_msg (hs_fresh c s)) ≤ MAX_FRAME_LEN
}.

Lemma apply_identity_known c d s s' :
  noise_node d →
  ∃ pb, decode_identity (nc_legacy c) (identity_msg (hs_fresh d s')) = Ok pb ∧ apply_identity (hs_fresh c s) pb = Ok (hs_knows c d s).
Proof.
  intros [Hk Hl Hpk Hsg _]. unfold into_authentic in Hk.
  destruct (np_sign _ _) as [sig|]; [|done]. cbn in Hk. injection Hk as Hk. rewrite <-Hk in Hsg. cbn in Hsg.
  unfold identity_msg, decode_identity, hs_fresh, hs_knows. cbn [st_legacy st_send_identity st_identity].
  rewrite Hl. cbn [lc_send]. rewrite payload_decode_encode. eexists. split; [done|]. rewrite <-Hk. unfold apply_identity.
  cbn [ak_identity ki_public ki_signature np_identity_key np_identity_sig st_id_remote_pubkey default].
  destruct (ni_encode _) as [|b bs] eqn:He; [done|]. rewrite <-He, ni_decode_encode. cbn. by destruct sig.
Qed.

(** A message of one side is sent and received. *)
Lemma link_hs_send {X Y} accepts st msg m s (k : HsState → Session (result NoiseError X)) (t : Session Y) il ir l :
  (∀ j, 0 < accepts j) → length msg ≤ MAX_FRAME_LEN → write_message (st_io st) msg (length msg + EXTRA_ENCRYPT_SPACE) = Some (m, s) →
  rtc link_step (mk_Link (k (set_hs s st)) t il (ir ++ noise_frame m)) l →
  rtc link_step (mk_Link (sess_try (hs_send accepts st msg) k) t il ir) l.
Proof.
  intros Hacc Hlen Hw Hl. unfold hs_send. destruct (Nat.leb_spec (length msg) MAX_FRAME_LEN); [|lia]. rewrite Hw.
  rewrite !write_all2_accepted by done. by apply link_send.
Qed.

Lemma frame_next_single {St} `{SessionState St} (s s' : St) m p :
  0 < length m ≤ MAX_NOISE_MSG_LEN → read_message s m = Some (p, s') → frame_next s false (noise_frame m) = Done (Some (p, s')) [].
Proof.
  intros Hm Hr. assert (HM : Z.of_nat MAX_NOISE_MSG_LEN = 65535%Z) by (vm_compute; reflexivity).
  rewrite <-(app_nil_r (noise_frame m)). apply frame_next_message; [lia|lia|done].
Qed.

Lemma link_recv_empty {X Y} st m s (k : HsState → Session (result NoiseError X)) (t : Session Y) ir l :
  0 < length m ≤ MAX_NOISE_MSG_LEN → read_message (st_io st) m = Some ([], s) →
  rtc link_step (mk_Link (k (set_hs s st)) t [] ir) l →
  rtc link_step (mk_Link (sess_try (recv_empty st) k) t (noise_frame m) ir) l.
Proof. intros Hm Hr Hl. unfold recv_empty, recv. cbn. by eapply link_recv; [apply frame_next_single|]. Qed.

Lemma link_recv_identity {X Y} c d m s s1 s' (k : HsState → Session (result NoiseError X)) (t : Session Y) ir l :
  noise_node d → 0 < length m ≤ MAX_NOISE_MSG_LEN → read_message s m = Some (identity_msg (hs_fresh d s'), s1) →
  rtc link_step (mk_Link (k (hs_knows c d s1)) t [] ir) l →
  rtc link_step (mk_Link (sess_try (recv_identity (hs_fresh c s)) k) t (noise_frame m) ir) l.
Proof.
  intros Hd Hm Hr Hl. destruct (apply_identity_known c d s1 s' Hd) as (pb&Hdec&Happ).
  unfold recv_identity, recv, sess_try, sess_map_err. cbn [sess_bind s_read]. eapply link_recv; [by apply frame_next_single|].
  cbn [sess_bind map_err fst snd]. change (set_hs s1 (hs_fresh c s)) with (hs_fresh c s1).
  change (st_legacy (hs_fresh c s1)) with (nc_legacy c). rewrite Hdec. cbn [sess_bind sess_result]. by rewrite Happ.
Qed.

Lemma finish_known c d s t :
  noise_node d → hs_remote_static s = Some (x25519_base (ak_secret (nc_dh_keys d))) → hs_into_transport s = Some t →
  finish (hs_knows c d s) = Ok (RiIdentityKey (ni_public (nc_local_priv_key d)), NoiseOutput_new (NoiseFramed_new t)).
Proof.
  intros [Hk _ _ _ _] Hs Ht. unfold into_authentic in Hk. destruct (np_sign _ _) as [sig|] eqn:Hsig; [|done].
  cbn in Hk. injection Hk as Hk. unfold finish, into_transport. cbn [hs_knows st_io st_id_remote_pubkey st_dh_remote_pubkey_sig].
  rewrite Hs, Ht, public_from_bytes_32 by apply x25519_length. cbn. rewrite <-Hk. cbn. by rewrite (np_verify_sign _ _ _ Hsig).
Qed.

Definition noise_stream (c d : NoiseConfig) (t : ts_state) : NoiseStream :=
  mk_NoiseStream (NoiseOutput_new (NoiseFramed_new t)) (nc_local_priv_key c) (Some (ni_public (nc_local_priv_key d))).

(** [C20] Two nodes complete the handshake in every order of their reads and writes, each with
    the identity key of the other, on transports whose ciphers match, and leave no byte
    unread. *)
Theorem noise_completes ca ra cb rb accepts1 accepts2
    (Hacc1 : ∀ j, 0 < accepts1 j) (Hacc2 : ∀ j, 0 < accepts2 j) (Hca : noise_node ca) (Hcb : noise_node cb)
    (Hba : is_Some (hs_build true (ak_secret (nc_dh_keys ca)) ra)) (Hbb : is_Some (hs_build false (ak_secret (nc_dh_keys cb)) rb)) :
  ∃ ta tb,
    link_returns (noise_upgrade_outbound accepts1 ca ra) (noise_upgrade_inbound accepts2 cb rb)
      (Ok (noise_stream ca cb ta)) (Ok (noise_stream cb ca tb)) [] [] ∧
    ts_tx ta = ts_rx tb ∧ ts_tx tb = ts_rx ta.
Proof.
  destruct Hba as [i0 Hi0], Hbb as [r0 Hr0].
  destruct (xx_run _ _ _ _ i0 r0 [] (identity_msg (hs_fresh cb r0)) (identity_msg (hs_fresh ca i0)) Hi0 Hr0)
    as (m1&i1&r1&m2&r2&i2&m3&i3&r3&ta&tb&(Hw1&Hx1&Hl1)&(Hw2&Hx2&Hl2)&(Hw3&Hx3&Hl3)&Hsi&Hsr&Hta&Htb&Hab&Hba).
  { cbn. lia. } { apply (nn_length cb Hcb). } { apply (nn_length ca Hca). }
  exists ta, tb. split; [|done]. apply link_returns_intro; [apply stable_noise_upgrade..|].
  pose proof (frame_room _ (nn_length ca Hca i0)). pose proof (frame_room _ (nn_length cb Hcb r0)). pose proof (frame_room 0 ltac:(lia)).
  set (x c t := (RiIdentityKey (ni_public (nc_local_priv_key c)), NoiseOutput_new (NoiseFramed_new t))).
  apply (link_try_ok _ _ _ _ (x cb ta) (x ca tb) [] []); [|done].
  unfold link_start, noise_handshake, rt15_initiator, rt15_responder. rewrite Hi0, Hr0.
  eapply (link_ok _ (hs_fresh ca i0)); [done|]. apply link_swap. eapply (link_ok _ (hs_fresh cb r0)); [done|]. apply link_swap.
  eapply link_hs_send; [done|cbn; lia|exact Hw1|]. apply link_swap.
  change (length []) with 0 in Hl1. eapply (link_recv_empty _ m1); [lia|exact Hx1|].
  eapply link_hs_send; [done|exact (nn_length cb Hcb r0)|exact Hw2|]. apply link_swap.
  eapply (link_recv_identity ca cb m2); [done|lia|exact Hx2|].
  eapply link_hs_send; [done|exact (nn_length ca Hca i0)|exact Hw3|]. apply link_swap.
  eapply (link_recv_identity cb ca m3); [done|lia|exact Hx3|]. apply link_swap.
  change (set_hs i3 (hs_knows ca cb i2)) with (hs_knows ca cb i3).
  unfold sess_result. rewrite (finish_known ca cb i3 ta), (finish_known cb ca r3 tb) by done. done.
Qed.

(** [C21] Whatever arrives, a stream with an identity key is one of a handshake whose remote
    static key has a signature that verifies for that identity key. *)
Theorem noise_identity accepts c initiator rng eof inp sent s rest pk
    (Hrun : session_run (noise_upgrade accepts c initiator rng) eof inp = (sent, Returned (Ok s) rest))
    (Hpk : ns_remote_pub_key s = Some pk) :
  ns_remote_peer s = Some (ni_peer_id pk) ∧
  ∃ hs k dh_pk sig t, hs_remote_static hs = Some k ∧ public_from_bytes k = Ok dh_pk ∧ np_verify pk dh_pk sig = true ∧
    hs_into_transport hs = Some t ∧ ns_io s = NoiseOutput_new (NoiseFramed_new t).
Proof.
  split; [unfold ns_remote_peer; by rewrite Hpk|]. unfold noise_upgrade in Hrun.
  apply session_run_try_inv in Hrun as (out1&x&inp'&out2&Hhs&Hs&->).
  assert (Hfin : ∃ st, finish st = Ok x).
  { destruct initiator; unfold noise_handshake, rt15_initiator, rt15_responder in Hhs; run_inv Hhs; eauto. }
  apply session_run_ret_inv in Hs as (Hs&_&_). injection Hs as ->. cbn in Hpk.
  destruct Hfin as [st Hfin]. unfold finish, into_transport in Hfin.
  destruct (hs_remote_static (st_io st)) as [k|] eqn:Hrs; cbn in Hfin.
  2: { destruct (hs_into_transport (st_io st)); [|done]. cbn in Hfin. destruct (st_id_remote_pubkey st); by simplify_eq. }
  destruct (public_from_bytes k) as [dh_pk|] eqn:Hpb; [|done]. cbn in Hfin.
  destruct (hs_into_transport (st_io st)) as [t|] eqn:Ht; [|done]. cbn in Hfin.
  destruct (st_id_remote_pubkey st) as [id_pk|]; [|by simplify_eq].
  destruct (np_verify id_pk dh_pk (st_dh_remote_pubkey_sig st)) eqn:Hv; [|done]. simplify_eq. cbn in Hpk. simplify_eq.
  by eexists _, _, _, _, _.
Qed.
End handshake_properties.

(** ** Examples *)

(** A pattern without secrecy, for the examples: every message but the first carries the
    static key, and the tag of a transport message is the state of the cipher. *)
Record toy_hs_state := mk_toy_hs { th_initiator : bool; th_secret : bytes; th_stage : nat; th_remote : option bytes }.
Definition toy_cipher : Type := bool * Z.
Definition toy_ts_state : Type := toy_cipher * toy_cipher.

Definition toy_base (secret : bytes) : bytes := vec_resize 32 secret.
Definition toy_writes (h : toy_hs_state) : bool := eqb (th_initiator h) (Nat.even (th_stage h)) && (th_stage h <? 3).
Definition toy_reads (h : toy_hs_state) : bool := negb (eqb (th_initiator h) (Nat.even (th_stage h))) && (th_stage h <? 3).
Definition toy_tag (c : toy_cipher) : bytes := (if c.1 then Byte.x01 else Byte.x00) :: be_split 15 c.2.

Definition toy_snow : SnowCrate := {|
  hs_state := toy_hs_state;
  ts_state := toy_ts_state;
  snow_rng := unit;
  hs_build i secret _ := Some (mk_toy_hs i secret 0 None);
  hs_session := {|
    write_message h p n :=
      let m := (if th_stage h =? 0 then toy_base [] else toy_base (th_secret h)) ++ p in
      if toy_writes h && (length m <=? n) then Some (m, mk_toy_hs (th_initiator h) (th_secret h) (S (th_stage h)) (th_remote h)) else None;
    read_message h m :=
      if toy_reads h && (32 <=? length m) then
        Some (drop 32 m, mk_toy_hs (th_initiator h) (th_secret h) (S (th_stage h)) (if th_stage h =? 0 then None else Some (take 32 m)))
      else None |};
  ts_session := {|
    write_message t p n :=
      if length p + 16 <=? n then Some (toy_tag t.1 ++ p, ((t.1.1, Z.succ t.1.2), t.2)) else None;
    read_message t m :=
      if bool_decide (take 16 m = toy_tag t.2) then Some (drop 16 m, (t.1, (t.2.1, Z.succ t.2.2))) else None |};
  hs_remote_static := th_remote;
  hs_into_transport h := if th_stage h =? 3 then Some ((th_initiator h, 0%Z), (negb (th_initiator h), 0%Z)) else None;
  x25519_base := toy_base
|}.
#[local] Existing Instance toy_snow.

#[local] Instance toy_snow_transport : SnowTransport.
Proof.
  refine {| ts_cipher := toy_cipher : Type; ts_tx (t : ts_state) := fst (t : toy_ts_state); ts_rx (t : ts_state) := snd (t : toy_ts_state) |}.
  intros a p n m a'. cbn. destruct (length p + 16 <=? n); [|done]. intros [= <- <-]. cbn. rewrite length_app. split_and!; [|done|].
  { cbn. rewrite length_be_split. lia. }
  intros b Hb. rewrite Hb. rewrite bool_decide_true; [|done]. by eexists.
Defined.

Definition toy_prefix (h : toy_hs_state) : bytes := if th_stage h =? 0 then toy_base [] else toy_base (th_secret h).
Definition toy_next (h : toy_hs_state) (remote : option bytes) : toy_hs_state :=
  mk_toy_hs (th_initiator h) (th_secret h) (S (th_stage h)) remote.

Lemma toy_write_eq (h : toy_hs_state) p n :
  write_message (S := @hs_state toy_snow) h p n =
    if toy_writes h && (length (toy_prefix h ++ p) <=? n) then Some (toy_prefix h ++ p, toy_next h (th_remote h)) else None.
Proof. reflexivity. Qed.
Lemma toy_read_eq (h : toy_hs_state) m :
  read_message (S := @hs_state toy_snow) h m =
    if toy_reads h && (32 <=? length m) then Some (drop 32 m, toy_next h (if th_stage h =? 0 then None else Some (take 32 m))) else None.
Proof. reflexivity. Qed.

Lemma toy_message (h h' : toy_hs_state) p :
  toy_writes h = true → toy_reads h' = true → th_stage h' = th_stage h →
  xx_message (h : hs_state) (h' : hs_state) p (toy_prefix h ++ p) (toy_next h (th_remote h))
    (toy_next h' (if th_stage h =? 0 then None else Some (toy_base (th_secret h)))).
Proof.
  intros Hw Hr Hst. assert (Hl : length (toy_prefix h) = 32) by (unfold toy_prefix; destruct (_ =? 0); apply vec_resize_length).
  assert (32 ≤ EXTRA_ENCRYPT_SPACE) by (unfold EXTRA_ENCRYPT_SPACE; lia).
  split_and!; [| |rewrite length_app; lia..].
  - rewrite toy_write_eq, Hw, leb_correct; [done|]. rewrite length_app. lia.
  - rewrite toy_read_eq, Hr, leb_correct by (rewrite length_app; lia). rewrite drop_app_length', take_app_length' by done.
    rewrite Hst. unfold toy_prefix. by destruct (_ =? 0).
Qed.

#[local] Instance toy_snow_xx : SnowXX.
Proof.
  split; [intros; apply vec_resize_length|].
  intros ka ra kb rb i0 r0 p1 p2 p3 [= <-] [= <-] _ _ _. do 11 eexists.
  split; [by apply toy_message|]. split; [by apply toy_message|]. split; [by apply toy_message|]. cbn. by split_and!.
Qed.

#[local] Existing Instances toy_peer_id toy_peer_id_laws toy_node toy_node_laws.
#[local] Instance toy_protocol : NoiseProtocol Init.Byte.byte := X25519Spec.
#[local] Instance toy_protocol_laws : NoiseProtocolLaws Init.Byte.byte := X25519Spec_laws.
#[local] Instance toy_pubkey_eq : EqDecision ni_pubkey.
Proof. unfold ni_pubkey. simpl. apply _. Defined.

#[local] Instance toy_payload_eq : EqDecision NoisePayload.
Proof. solve_decision. Defined.
#[local] Instance toy_payload_countable : Countable NoisePayload.
Proof.
  refine (inj_countable' (λ x, (np_identity_key x, np_identity_sig x, np_data x)) (λ x, mk_NoisePayload x.1.1 x.1.2 x.2) _). by intros [].
Defined.
#[local] Instance toy_noise_codec : NoiseCodec := {| payload_encode x := bits_of (encode x); payload_decode b := decode (of_bits b) |}.
#[local] Instance toy_noise_codec_laws : NoiseCodecLaws.
Proof. intros x. simpl. by rewrite of_bits_of, decode_encode. Qed.

Definition noise_config (id : Init.Byte.byte) (secret : bytes) : NoiseConfig :=
  let public := toy_base secret in
  noise_xx (mk_AuthenticKeypair secret public (mk_KeypairIdentity (id : ni_pubkey) (Some (id :: STATIC_KEY_DOMAIN ++ public)))) (id : ni_keypair).
Definition noise_alice : NoiseConfig := noise_config Byte.x0a [Byte.x01].
Definition noise_bob : NoiseConfig := noise_config Byte.x0b [Byte.x02].

Definition identity_fits (c : NoiseConfig) : bool :=
  (Z.of_nat (length (identity_msg (hs_fresh c (mk_toy_hs true [] 0 None)))) <=? 64511)%Z.

Lemma noise_config_node id secret : identity_fits (noise_config id secret) = true → noise_node (noise_config id secret).
Proof.
  intros Hfit. split; try done. intros s. pose proof MAX_FRAME_LEN_eq. apply Z.leb_le in Hfit.
  change (identity_msg (hs_fresh _ s)) with (identity_msg (hs_fresh (noise_config id secret) (mk_toy_hs true [] 0 None))). lia.
Qed.

Definition toy_start : @hs_state toy_snow := mk_toy_hs true [] 0 None.
Definition toy_rng : @snow_rng toy_snow := tt.

Lemma noise_completes_witness :
  ∃ ta tb,
    link_returns (noise_upgrade_outbound (λ _, 3) noise_alice toy_rng) (noise_upgrade_inbound (λ _, 5) noise_bob toy_rng)
      (Ok (noise_stream noise_alice noise_bob ta)) (Ok (noise_stream noise_bob noise_alice tb)) [] [] ∧
    ts_tx ta = ts_rx tb ∧ ts_tx tb = ts_rx ta.
Proof.
  apply (noise_completes noise_alice toy_rng noise_bob toy_rng (λ _, 3) (λ _, 5)); [intros; lia|intros; lia| | |done|done];
    apply noise_config_node; vm_compute; reflexivity.
Defined.

(** What a peer sends to a responder: the first message, and the third one with its
    static key and a payload. *)
Definition initiator_bytes (secret payload : bytes) : bytes :=
  noise_frame (toy_base []) ++ noise_frame (toy_base secret ++ payload).

(** The peer of a stream that was established. *)
Definition stream_peer (r : bytes * SessionEnd (result NoiseError NoiseStream)) : option (option Init.Byte.byte) :=
  match r with (_, Returned (Ok s) _) => Some (ns_remote_peer s) | _ => None end.

Lemma stream_peer_inv r pk :
  stream_peer r = Some (Some pk) → ∃ sent s rest, r = (sent, Returned (Ok s) rest) ∧ ns_remote_pub_key s = Some pk.
Proof.
  destruct r as [sent [[s|e] rest| |]]; try done. unfold stream_peer, ns_remote_peer. intros Hs. exists sent, s, rest. split; [done|].
  destruct (ns_remote_pub_key s); [|done]. by injection Hs as ->.
Qed.

Lemma noise_identity_witness : ∃ s : NoiseStream, ns_remote_peer s = Some Byte.x0a.
Proof.
  destruct (stream_peer_inv (session_run (noise_upgrade (λ _, 3) noise_bob false toy_rng) true
    (initiator_bytes [Byte.x01] (identity_msg (hs_fresh noise_alice toy_start)))) Byte.x0a) as (sent&s&rest&Hrun&Hpk).
  { vm_compute. reflexivity. }
  exists s. exact (proj1 (noise_identity _ _ _ _ _ _ _ _ _ _ Hrun Hpk)).
Defined.

(** A peer that sends an empty payload completes the upgrade without an identity, and
    asking the stream for its remote peer panics. *)
Example anonymous_peer :
  stream_peer (session_run (noise_upgrade (λ _, 3) noise_bob false toy_rng) true
    (initiator_bytes [Byte.x01] (payload_encode (mk_NoisePayload [] [] [])))) = Some None.
Proof. vm_compute. reflexivity. Qed.

(** The signature of another key does not pass. *)
Example forged_identity_refused :
  stream_peer (session_run (noise_upgrade (λ _, 3) noise_bob false toy_rng) true
    (initiator_bytes [Byte.x09] (identity_msg (hs_fresh noise_alice toy_start)))) = None.
Proof. vm_compute. reflexivity. Qed.

(** The end of the stream inside the length of a frame is an end without an error, the
    end inside its data is an error. *)
Example eof_in_length (s : @ts_state toy_snow) : frame_next s true [Byte.x01] = Done None [].
Proof. reflexivity. Qed.
Example eof_in_data (s : @ts_state toy_snow) : frame_next s true [Byte.x00; Byte.x05; Byte.x01] = Failed UnexpectedEof.
Proof. reflexivity. Qed.

Definition toy_sender : @ts_state toy_snow := ((true, 0%Z), (false, 0%Z)).
Definition toy_receiver : @ts_state toy_snow := ((false, 0%Z), (true, 0%Z)).

Lemma poll_next_refines_witness :
  next_spec (NoiseFramed_new toy_receiver) (mk_Incoming [Byte.x00; Byte.x00; Byte.x00; Byte.x11] false 0)
    (poll_next (λ _, 1) (NoiseFramed_new toy_receiver) (mk_Incoming [Byte.x00; Byte.x00; Byte.x00; Byte.x11] false 0)).
Proof. by apply (poll_next_refines (λ _, 1)). Defined.

