(* ===== verification/Pnet.v ===== *)
(** * The private network protector: [core/src/pnet/]

    The pre-shared key and its file format, the handshake that exchanges nonces, the
    writer that encrypts ([crypt_writer.rs]) and the protected stream ([mod.rs]).

    The ciphers Salsa20 and XSalsa20 are key streams, which are parameters together
    with the hash Shake128.  The theorems show that the file format round-trips, that
    two nodes complete the handshake in every order, and that between two nodes with
    the same key the stream delivers what was written, whatever the socket does. *)

From Stdlib Require Import ZArith Lia String.
From stdpp Require Import relations.
From S2P Require Import Prelude StdText Varint Framing Session.

Local Open Scope nat_scope.

(** ** Text *)

Definition NEWLINE : u8 := Byte.x0a.
Definition strip_cr (s : bytes) : bytes :=
  match reverse s with
  | b :: r => if decide (b = Byte.x0d) then reverse r else s
  | [] => s
  end.

(** [str::lines]: the piece after the last newline is a line if it is not empty. *)
Fixpoint lines_of (pieces : list bytes) : list bytes :=
  match pieces with
  | [] => []
  | [p] => if decide (p = []) then [] else [p]
  | p :: ps => strip_cr p :: lines_of ps
  end.
Definition str_lines (s : bytes) : list bytes := lines_of (split_char NEWLINE s).

(** [str::trim_end]: the characters with the property [White_Space], from the end. *)
Definition white_1 (a : u8) : bool := in_range 0x09 0x0D a || in_range 0x20 0x20 a.
Definition white_2 (a b : u8) : bool := in_range 0xC2 0xC2 a && (in_range 0x85 0x85 b || in_range 0xA0 0xA0 b).
Definition white_3 (a b c : u8) : bool :=
  (in_range 0xE1 0xE1 a && in_range 0x9A 0x9A b && in_range 0x80 0x80 c) ||
  (in_range 0xE2 0xE2 a && in_range 0x80 0x80 b &&
     (in_range 0x80 0x8A c || in_range 0xA8 0xA9 c || in_range 0xAF 0xAF c)) ||
  (in_range 0xE2 0xE2 a && in_range 0x81 0x81 b && in_range 0x9F 0x9F c) ||
  (in_range 0xE3 0xE3 a && in_range 0x80 0x80 b && in_range 0x80 0x80 c).

Fixpoint trim_reversed (r : bytes) : bytes :=
  match r with
  | [] => []
  | c :: r1 =>
      if white_1 c then trim_reversed r1
      else
        match r1 with
        | [] => r
        | b :: r2 =>
            if white_2 b c then trim_reversed r2
            else
              match r2 with
              | [] => r
              | a :: r3 => if white_3 a b c then trim_reversed r3 else r
              end
        end
  end.
Definition trim_end (s : bytes) : bytes := reverse (trim_reversed (reverse s)).

(** The slice [&s[i..j]]; [None] is the panic off a character boundary. *)
Definition is_char_boundary (s : bytes) (i : nat) : bool :=
  (i =? 0) || (i =? length s) || match s !! i with Some b => negb (in_range 0x80 0xBF b) | None => false end.
Definition str_slice (s : bytes) (i j : nat) : option bytes :=
  if is_char_boundary s i && is_char_boundary s j && (i <=? j) then Some (take (j - i) (drop i s)) else None.

(** [u8::from_str_radix] with radix 16. *)
Inductive IntErrorKind := Empty | InvalidDigit | PosOverflow.

Fixpoint radix_digits (acc : Z) (s : bytes) : result IntErrorKind Z :=
  match s with
  | [] => Ok acc
  | b :: s =>
      match to_digit 16 b with
      | None => Err InvalidDigit
      | Some d => if (255 <? acc * 16 + d)%Z then Err PosOverflow else radix_digits (acc * 16 + d)%Z s
      end
  end.

Definition u8_from_str_radix (s : bytes) : result IntErrorKind u8 :=
  let digits :=
    match s with
    | [] => Err Empty
    | [b] => if decide (b = Byte.x2b ∨ b = Byte.x2d) then Err InvalidDigit else radix_digits 0 s
    | b :: s' => if decide (b = Byte.x2b) then radix_digits 0 s' else radix_digits 0 s
    end in
  let? z := digits in Ok (byte.of_Z z).

(** [{:02x}]. *)
Definition fmt_02x (b : u8) : bytes := [from_digit (byte.unsigned b / 16); from_digit (byte.unsigned b mod 16)].

(** ** The pre-shared key *)

Definition KEY_SIZE : nat := 32.
Definition NONCE_SIZE : nat := 24.
Definition FINGERPRINT_SIZE : nat := 16.

Inductive KeyParseError :=
  | InvalidKeyFile
  | InvalidKeyType
  | InvalidKeyEncoding
  | InvalidKeyLength
  | InvalidKeyChar (e : IntErrorKind).

Record PreSharedKey := mk_PreSharedKey { psk_bytes : bytes }.

(** The loop over the 32 bytes of the key. *)
Fixpoint parse_hex_loop (todo i : nat) (s : bytes) : option (result KeyParseError bytes) :=
  match todo with
  | 0 => Some (Ok [])
  | S todo =>
      d ← str_slice s (i * 2) (i * 2 + 2);
      match u8_from_str_radix d with
      | Err e => Some (Err (InvalidKeyChar e))
      | Ok b => r ← parse_hex_loop todo (S i) s; Some (let? bs := r in Ok (b :: bs))
      end
  end.

Definition parse_hex_key (s : bytes) : option (result KeyParseError bytes) :=
  if length s =? KEY_SIZE * 2 then parse_hex_loop KEY_SIZE 0 s else Some (Err InvalidKeyLength).

Definition to_hex (bs : bytes) : bytes := bs ≫= fmt_02x.

Definition KEY_TYPE : bytes := b_str "/key/swarm/psk/1.0.0/".
Definition KEY_ENCODING : bytes := b_str "/base16/".

Definition psk_from_str (s : bytes) : option (result KeyParseError PreSharedKey) :=
  match take 3 (str_lines s) with
  | [keytype; encoding; key] =>
      if decide (keytype ≠ KEY_TYPE) then Some (Err InvalidKeyType)
      else if decide (encoding ≠ KEY_ENCODING) then Some (Err InvalidKeyEncoding)
      else r ← parse_hex_key (trim_end key); Some (let? k := r in Ok (mk_PreSharedKey k))
  | _ => Some (Err InvalidKeyFile)
  end.

Definition psk_to_string (k : PreSharedKey) : bytes :=
  KEY_TYPE ++ [NEWLINE] ++ KEY_ENCODING ++ [NEWLINE] ++ to_hex (psk_bytes k) ++ [NEWLINE].

(** ** The ciphers *)

(** The byte of a key stream at a position, for a key and a nonce. *)
Class PnetCrypto := {
  salsa20 : bytes → bytes → nat → u8;
  xsalsa20 : bytes → bytes → nat → u8;
  shake128 : bytes → nat → bytes
}.

(** [apply_keystream] with a stream at a position. *)
Definition apply_stream (stream : nat → u8) (pos : nat) (bs : bytes) : bytes := imap (λ i b, byte.xor b (stream (pos + i))) bs.

Section pnet.
Context `{PnetCrypto}.

Definition fingerprint (k : PreSharedKey) : bytes :=
  let enc := apply_stream (salsa20 (psk_bytes k) (b_str "finprint")) 0 (replicate 64 Byte.x00) in
  shake128 enc FINGERPRINT_SIZE.

Definition fingerprint_to_string (f : bytes) : bytes := to_hex f.

Record XSalsa20 := mk_XSalsa20 { xs_key : bytes; xs_nonce : bytes; xs_pos : nat }.
Definition XSalsa20_new (key nonce : bytes) : XSalsa20 := mk_XSalsa20 key nonce 0.
Definition apply_keystream (c : XSalsa20) (bs : bytes) : bytes * XSalsa20 :=
  (apply_stream (xsalsa20 (xs_key c) (xs_nonce c)) (xs_pos c) bs, mk_XSalsa20 (xs_key c) (xs_nonce c) (xs_pos c + length bs)).

(** ** The writer: [crypt_writer.rs] *)

(** What a write of the socket does; every poll takes the next one, and none is left when
    the socket is not ready. *)
Inductive WriteOutcome := WoPending | WoAccept (n : nat) | WoInterrupted | WoError (e : IoErrorKind).
Record Wire := mk_Wire { wi_script : list WriteOutcome; wi_bytes : bytes }.

Record CryptWriter := mk_CryptWriter { cw_buf : bytes; cw_cipher : XSalsa20 }.

(** The loop of [poll_flush_buf]: the result, the number of bytes written and the wire. *)
Fixpoint flush_loop (script : list WriteOutcome) (buf out : bytes) (written : nat) : Poll (result IoErrorKind unit) * nat * Wire :=
  if written <? length buf then
    match script with
    | [] => (PollPending, written, mk_Wire [] out)
    | WoAccept n :: script =>
        let n := min n (length buf - written) in
        if 0 <? n then flush_loop script buf (out ++ take n (drop written buf)) (written + n)
        else (Ready (Err WriteZero), written, mk_Wire script out)
    | WoInterrupted :: script => flush_loop script buf out written
    | WoError e :: script => (Ready (Err e), written, mk_Wire script out)
    | WoPending :: script => (PollPending, written, mk_Wire script out)
    end
  else (Ready (Ok ()), written, mk_Wire script out).

Definition poll_flush_buf (buf : bytes) (w : Wire) : Poll (result IoErrorKind unit) * bytes * Wire :=
  let '(ret, written, w) := flush_loop (wi_script w) buf (wi_bytes w) 0 in
  (ret, drop written buf, w).

Definition crypt_poll_write (c : CryptWriter) (w : Wire) (buf : bytes) : Poll (result IoErrorKind nat) * CryptWriter * Wire :=
  match poll_flush_buf (cw_buf c) w with
  | (PollPending, b, w) => (PollPending, mk_CryptWriter b (cw_cipher c), w)
  | (Ready (Err e), b, w) => (Ready (Err e), mk_CryptWriter b (cw_cipher c), w)
  | (Ready (Ok _), b, w) =>
      let b := b ++ buf in
      let count := length buf in
      let x := apply_keystream (cw_cipher c) (take count b) in
      let b := x.1 ++ drop count b in
      match poll_flush_buf b w with
      | (Ready (Err e), b, w) => (Ready (Err e), mk_CryptWriter b x.2, w)
      | (_, b, w) => (Ready (Ok count), mk_CryptWriter b x.2, w)
      end
  end.

(** Flushing the socket itself has no effect on what is written. *)
Definition crypt_poll_flush (c : CryptWriter) (w : Wire) : Poll (result IoErrorKind unit) * CryptWriter * Wire :=
  let '(r, b, w) := poll_flush_buf (cw_buf c) w in (r, mk_CryptWriter b (cw_cipher c), w).
Definition crypt_poll_close (c : CryptWriter) (w : Wire) : Poll (result IoErrorKind unit) * CryptWriter * Wire :=
  let '(r, b, w) := poll_flush_buf (cw_buf c) w in (r, mk_CryptWriter b (cw_cipher c), w).

(** ** The protected stream: [mod.rs] *)

Inductive PnetError := PnHandshakeError (e : IoErrorKind) | PnIoError (e : IoErrorKind).

Record PnetConfig := PnetConfig_new { pc_key : PreSharedKey }.

Record PnetOutput := mk_PnetOutput { pn_inner : CryptWriter; pn_read_cipher : XSalsa20 }.
Definition PnetOutput_new (write_cipher read_cipher : XSalsa20) : PnetOutput :=
  mk_PnetOutput (mk_CryptWriter [] write_cipher) read_cipher.

(** [local_nonce] is the random value of the handshake. *)
Definition pnet_handshake (accepts : nat → nat) (c : PnetConfig) (local_nonce : bytes) : Session (result PnetError PnetOutput) :=
  await? _ := sess_map_err PnHandshakeError (s_write (write_all2 accepts local_nonce)) in
  await? remote_nonce := sess_map_err PnHandshakeError (s_read (read_exact NONCE_SIZE)) in
  let write_cipher := XSalsa20_new (psk_bytes (pc_key c)) local_nonce in
  let read_cipher := XSalsa20_new (psk_bytes (pc_key c)) remote_nonce in
  SRet (Ok (PnetOutput_new write_cipher read_cipher)).

(** [poll_read] into a buffer of [n] bytes. *)
Definition pnet_poll_read (chunks : nat → nat) (o : PnetOutput) (io : Incoming) (n : nat) :
    Poll bytes * PnetOutput * Incoming :=
  match sock_poll_read chunks io n with
  | (Ready data, io) =>
      let x := apply_keystream (pn_read_cipher o) data in
      (Ready x.1, mk_PnetOutput (pn_inner o) x.2, io)
  | (PollPending, io) => (PollPending, o, io)
  end.

Definition pnet_poll_write (o : PnetOutput) (w : Wire) (buf : bytes) : Poll (result IoErrorKind nat) * PnetOutput * Wire :=
  let '(r, c, w) := crypt_poll_write (pn_inner o) w buf in (r, mk_PnetOutput c (pn_read_cipher o), w).
Definition pnet_poll_flush (o : PnetOutput) (w : Wire) : Poll (result IoErrorKind unit) * PnetOutput * Wire :=
  let '(r, c, w) := crypt_poll_flush (pn_inner o) w in (r, mk_PnetOutput c (pn_read_cipher o), w).
Definition pnet_poll_close (o : PnetOutput) (w : Wire) : Poll (result IoErrorKind unit) * PnetOutput * Wire :=
  let '(r, c, w) := crypt_poll_close (pn_inner o) w in (r, mk_PnetOutput c (pn_read_cipher o), w).
End pnet.

(** ** The key file *)

Lemma fmt_02x_parse b : u8_from_str_radix (fmt_02x b) = Ok b.
Proof. by destruct b; vm_compute. Qed.

Definition hex_byte (b : u8) : bool := match to_digit 16 b with Some _ => true | None => false end.

Lemma fmt_02x_hex b : Forall (λ x, hex_byte x = true) (fmt_02x b).
Proof. by destruct b; repeat constructor. Qed.

Lemma to_hex_hex bs : Forall (λ x, hex_byte x = true) (to_hex bs).
Proof. unfold to_hex. induction bs as [|b bs IH]; [constructor|]. rewrite bind_cons. apply Forall_app. split; [apply fmt_02x_hex|done]. Qed.

Lemma length_to_hex bs : length (to_hex bs) = 2 * length bs.
Proof. unfold to_hex. induction bs as [|b bs IH]; [done|]. rewrite bind_cons, length_app, IH. cbn. lia. Qed.

(** Hexadecimal digits are neither white space nor parts of a longer character. *)
Lemma hex_byte_plain b : hex_byte b = true →
  b ≠ NEWLINE ∧ b ≠ Byte.x0d ∧ white_1 b = false ∧ in_range 0x80 0xBF b = false ∧
  (∀ a, white_2 b a = false) ∧ (∀ a c, white_3 b a c = false).
Proof. destruct b; intros Hb; try discriminate; split_and!; done. Qed.

Lemma strip_cr_plain s : Byte.x0d ∉ s → strip_cr s = s.
Proof.
  intros Hs. unfold strip_cr. destruct (reverse s) as [|b r] eqn:E; [done|]. rewrite decide_False; [done|]. intros ->.
  apply Hs. apply list_elem_of_In. apply (f_equal reverse) in E. rewrite reverse_involutive in E. rewrite E, reverse_cons.
  apply list_elem_of_In. set_solver.
Qed.

Lemma trim_end_hex s : Forall (λ x, hex_byte x = true) s → trim_end s = s.
Proof.
  intros Hs. unfold trim_end. rewrite <-(reverse_involutive s) at 2. f_equal. apply Forall_reverse in Hs.
  destruct (reverse s) as [|c r]; [done|]. apply Forall_cons in Hs as [Hc Hr]. apply hex_byte_plain in Hc as (_&_&Hc&_).
  cbn [trim_reversed]. rewrite Hc. destruct r as [|b r]; [done|]. apply Forall_cons in Hr as [Hb Hr].
  apply hex_byte_plain in Hb as (_&_&_&_&Hb&_). rewrite Hb. destruct r as [|a r]; [done|]. apply Forall_cons in Hr as [Ha _].
  apply hex_byte_plain in Ha as (_&_&_&_&_&Ha). by rewrite Ha.
Qed.

Lemma str_slice_ascii s i j :
  Forall (λ x, in_range 0x80 0xBF x = false) s → i ≤ j → j ≤ length s → str_slice s i j = Some (take (j - i) (drop i s)).
Proof.
  intros Hs Hij Hj.
  assert (Hb : ∀ k, k ≤ length s → is_char_boundary s k = true).
  { intros k Hk. unfold is_char_boundary. destruct (Nat.eqb_spec k (length s)) as [|Hne]; [by rewrite orb_true_r|].
    destruct (s !! k) as [b|] eqn:E; [|apply lookup_ge_None in E; lia].
    rewrite (Forall_lookup_1 _ _ _ _ Hs E). by rewrite orb_true_r. }
  unfold str_slice. rewrite !Hb by lia. by rewrite leb_correct.
Qed.

Lemma parse_hex_loop_to_hex pre bs :
  parse_hex_loop (length bs) (length pre) (to_hex (pre ++ bs)) = Some (Ok bs).
Proof.
  revert pre. induction bs as [|b bs IH]; intros pre; [done|]. cbn [length parse_hex_loop].
  assert (Hh : to_hex (pre ++ b :: bs) = to_hex pre ++ fmt_02x b ++ to_hex bs) by (unfold to_hex; by rewrite bind_app, bind_cons).
  assert (Hlen : length (to_hex (pre ++ b :: bs)) = 2 * length pre + 2 + 2 * length bs).
  { rewrite length_to_hex, length_app. cbn. lia. }
  rewrite str_slice_ascii; [|eapply Forall_impl; [apply to_hex_hex|]; intros x Hx; by apply hex_byte_plain in Hx as (_&_&_&?&_)|lia|lia].
  replace (length pre * 2 + 2 - length pre * 2) with 2 by lia. rewrite Hh, drop_app_length' by (rewrite length_to_hex; lia).
  rewrite take_app_length' by done. cbn [mbind option_bind]. rewrite fmt_02x_parse.
  specialize (IH (pre ++ [b])). rewrite length_app in IH. cbn [length] in IH.
  rewrite Nat.add_1_r, <-(assoc_L (++)) in IH. cbn [app] in IH. by rewrite <-Hh, IH.
Qed.

Lemma str_lines_of_key hex :
  Forall (λ x, hex_byte x = true) hex →
  str_lines (KEY_TYPE ++ [NEWLINE] ++ KEY_ENCODING ++ [NEWLINE] ++ hex ++ [NEWLINE]) = [KEY_TYPE; KEY_ENCODING; hex].
Proof.
  intros Hh. unfold str_lines.
  assert (Hno : (NEWLINE ∉ hex) ∧ (Byte.x0d ∉ hex)).
  { split; intros Hin; apply (proj1 (Forall_forall _ _) Hh) in Hin; by apply hex_byte_plain in Hin as (?&?&_). }
  cbn [app]. rewrite !split_char_cons; [|apply Hno|by apply (bool_decide_unpack _)..].
  cbn [split_char lines_of]. rewrite decide_True by done. rewrite (strip_cr_plain hex) by apply Hno. done.
Qed.

(** The file of a key is read as that key. *)
Theorem psk_roundtrip k (Hlen : length (psk_bytes k) = KEY_SIZE) : psk_from_str (psk_to_string k) = Some (Ok k).
Proof.
  unfold psk_from_str, psk_to_string. rewrite str_lines_of_key by apply to_hex_hex. cbn [take].
  rewrite !decide_False by (intros Hne; by apply Hne). rewrite trim_end_hex by apply to_hex_hex. unfold parse_hex_key.
  rewrite length_to_hex, Hlen. rewrite Nat.mul_comm, Nat.eqb_refl, <-Hlen. pose proof (parse_hex_loop_to_hex [] (psk_bytes k)) as Hp.
  cbn [length app] in Hp. rewrite Hp. by destruct k.
Qed.

(** A key that is read has 32 bytes. *)
Lemma psk_from_str_length s k : psk_from_str s = Some (Ok k) → length (psk_bytes k) = KEY_SIZE.
Proof.
  assert (Hloop : ∀ todo i s bs, parse_hex_loop todo i s = Some (Ok bs) → length bs = todo).
  { clear. induction todo as [|todo IH]; intros i s bs; cbn; [by intros [= <-]|].
    destruct (str_slice _ _ _); [|done]. cbn. destruct (u8_from_str_radix _); [|done].
    destruct (parse_hex_loop todo (S i) s) as [[bs'|]|] eqn:E; cbn; [|done|done]. intros [= <-]. cbn. f_equal. by eapply IH. }
  unfold psk_from_str. destruct (take 3 (str_lines s)) as [|kt [|enc [|key [|]]]]; try done.
  repeat case_decide; try done. unfold parse_hex_key. destruct (_ =? _); [|done].
  destruct (parse_hex_loop _ _ _) as [[bs|]|] eqn:E; cbn; [|done|done]. intros [= <-]. cbn. by eapply Hloop.
Qed.

(** A text of valid UTF-8 on which reading a key panics, and a key with signs that is
    accepted. *)
Definition key_file (key : bytes) : bytes := KEY_TYPE ++ [NEWLINE] ++ KEY_ENCODING ++ [NEWLINE] ++ key.
Definition accented_key : bytes := [Byte.x30; Byte.xc3; Byte.xa9] ++ replicate 61 Byte.x30.
Example psk_accent_panics : utf8_valid (key_file accented_key) = true ∧ psk_from_str (key_file accented_key) = None.
Proof. vm_compute. done. Qed.
Example psk_signs_accepted :
  psk_from_str (key_file (mjoin (replicate 32 [Byte.x2b; Byte.x66]))) = Some (Ok (mk_PreSharedKey (replicate 32 Byte.x0f))).
Proof. vm_compute. done. Qed.

(** ** Key streams *)

Lemma byte_xor_cancel a b : byte.xor (byte.xor a b) b = a.
Proof.
  unfold byte.xor. rewrite byte.unsigned_of_Z. unfold byte.wrap. rewrite Z.mod_small.
  - by rewrite Z.lxor_assoc, Z.lxor_nilpotent, Z.lxor_0_r, byte.of_Z_unsigned.
  - pose proof (byte.unsigned_range a). pose proof (byte.unsigned_range b).
    assert (Hn : (0 ≤ Z.lxor (byte.unsigned a) (byte.unsigned b))%Z) by (apply Z.lxor_nonneg; lia).
    split; [done|]. destruct (decide (Z.lxor (byte.unsigned a) (byte.unsigned b) = 0)%Z) as [->|]; [lia|].
    assert (Hlog : ∀ z, (0 ≤ z < 256 → Z.log2 z < 8)%Z).
    { intros z Hz. destruct (decide (z = 0)%Z) as [->|]; [done|]. apply Z.log2_lt_pow2; lia. }
    apply Z.log2_lt_pow2; [lia|]. eapply Z.le_lt_trans; [apply Z.log2_lxor; lia|]. apply Z.max_lub_lt; by apply Hlog.
Qed.

Lemma length_apply_stream f p bs : length (apply_stream f p bs) = length bs.
Proof. apply length_imap. Qed.

Lemma apply_stream_app f p a b : apply_stream f p (a ++ b) = apply_stream f p a ++ apply_stream f (p + length a) b.
Proof. unfold apply_stream. rewrite imap_app. f_equal. apply imap_ext. intros i x _. cbn. do 2 f_equal. lia. Qed.

Lemma apply_stream_twice f p bs : apply_stream f p (apply_stream f p bs) = bs.
Proof.
  unfold apply_stream. apply list_eq. intros i. rewrite !list_lookup_imap.
  destruct (bs !! i) as [b|]; [|done]. cbn. by rewrite byte_xor_cancel.
Qed.

(** ** Two nodes *)

#[local] Arguments apply_stream : simpl never.

Section pnet_properties.
Context `{PnetCrypto}.

Lemma stable_pnet_handshake accepts c nonce : stable_session (pnet_handshake accepts c nonce).
Proof.
  apply stable_sess_try; [done|intros _]. apply stable_sess_try; [|done]. apply stable_map_err, stable_s_read, stable_read_exact.
Qed.

(** Two nodes complete the handshake in every order of their reads and writes; each
    decrypts with the key of its own and the nonce of the other, and no byte is left
    unread.  With the same key the ciphers match. *)
Theorem pnet_completes accepts1 accepts2 ca na cb nb
    (Hacc1 : ∀ j, 0 < accepts1 j) (Hacc2 : ∀ j, 0 < accepts2 j) (Hna : length na = NONCE_SIZE) (Hnb : length nb = NONCE_SIZE) :
  let cipher c n := XSalsa20_new (psk_bytes (pc_key c)) n in
  link_returns (pnet_handshake accepts1 ca na) (pnet_handshake accepts2 cb nb)
    (Ok (PnetOutput_new (cipher ca na) (cipher ca nb))) (Ok (PnetOutput_new (cipher cb nb) (cipher cb na))) [] [].
Proof.
  intros cipher. apply link_returns_intro; [apply stable_pnet_handshake..|].
  assert (Hread : ∀ n, length n = NONCE_SIZE → read_exact NONCE_SIZE false n = Done n []).
  { intros n Hn. rewrite <-(app_nil_r n) at 1. by apply read_exact_app. }
  unfold link_start, pnet_handshake. eapply link_write; [by apply write_all2_accepted|]. apply link_swap.
  eapply link_write; [by apply write_all2_accepted|]. eapply link_read; [by apply Hread|].
  apply link_swap. eapply link_read; [by apply Hread|]. done.
Qed.

(** *** The writer *)

Lemma flush_loop_spec script buf out written r written' w' :
  flush_loop script buf out written = (r, written', w') → written ≤ length buf →
  written ≤ written' ≤ length buf ∧ wi_bytes w' ++ drop written' buf = out ++ drop written buf ∧
  (r = Ready (Ok ()) → written' = length buf) ∧ out `prefix_of` wi_bytes w'.
Proof.
  revert out written. induction script as [|o script IH]; intros out written; cbn [flush_loop];
    destruct (Nat.ltb_spec written (length buf)); intros Heq Hw; simplify_eq.
  1,2,4: split_and!; try done; lia.
  destruct o as [|n| |e]; simplify_eq; [split_and!; try done; lia| | |split_and!; try done; lia].
  - destruct (Nat.ltb_spec 0 (min n (length buf - written))); simplify_eq; [|split_and!; try done; lia].
    apply IH in Heq as (Hle&Hout&Hok&Hpre); [|lia]. split_and!; try done; [lia|lia| |].
    + rewrite Hout, <-(assoc_L (++)), <-drop_drop. by rewrite take_drop.
    + etrans; [|exact Hpre]. by eexists.
  - by apply IH in Heq as (Hle&Hout&Hok&Hpre).
Qed.

(** What is written and what is buffered together stay the same. *)
Lemma poll_flush_buf_spec buf w r b' w' :
  poll_flush_buf buf w = (r, b', w') →
  wi_bytes w' ++ b' = wi_bytes w ++ buf ∧ wi_bytes w `prefix_of` wi_bytes w' ∧ (r = Ready (Ok ()) → b' = []).
Proof.
  unfold poll_flush_buf. destruct (flush_loop _ _ _ _) as [[ret written] w1] eqn:Heq. intros [= <- <- <-].
  apply flush_loop_spec in Heq as (Hle&Hout&Hok&Hpre); [|lia]. rewrite drop_0 in Hout. split_and!; try done.
  intros ->. rewrite Hok by done. apply drop_all.
Qed.

(** *** A sender and a receiver *)

Record PnetPair := mk_PnetPair {
  px_sender : PnetOutput;
  px_wire : Wire;
  px_receiver : PnetOutput;
  px_in : Incoming;
  px_arrived : nat;
  px_accepted : bytes;
  px_failed : bool;
  px_delivered : bytes
}.

Definition pair_new (script : list WriteOutcome) (sender receiver : PnetOutput) : PnetPair :=
  mk_PnetPair sender (mk_Wire script []) receiver (mk_Incoming [] false 0) 0 [] false [].

Inductive PnetEvent := PxWrite (buf : bytes) | PxFlush | PxArrive (n : nat) | PxRead (n : nat).
Inductive PnetOutcome :=
  | PoWrite (r : Poll (result IoErrorKind nat))
  | PoFlush (r : Poll (result IoErrorKind unit))
  | PoArrive
  | PoRead (r : Poll bytes).

Definition pair_step (chunks : nat → nat) (x : PnetPair) (ev : PnetEvent) : PnetOutcome * PnetPair :=
  match ev with
  | PxWrite buf =>
      let '(r, o, w) := pnet_poll_write (px_sender x) (px_wire x) buf in
      let acc := match r with Ready (Ok n) => take n buf | _ => [] end in
      let failed := match r with Ready (Err _) => true | _ => px_failed x end in
      (PoWrite r, mk_PnetPair o w (px_receiver x) (px_in x) (px_arrived x) (px_accepted x ++ acc) failed (px_delivered x))
  | PxFlush =>
      let '(r, o, w) := pnet_poll_flush (px_sender x) (px_wire x) in
      (PoFlush r, mk_PnetPair o w (px_receiver x) (px_in x) (px_arrived x) (px_accepted x) (px_failed x) (px_delivered x))
  | PxArrive n =>
      let data := take n (drop (px_arrived x) (wi_bytes (px_wire x))) in
      (PoArrive, mk_PnetPair (px_sender x) (px_wire x) (px_receiver x)
        (mk_Incoming (in_bytes (px_in x) ++ data) (in_eof (px_in x)) (in_round (px_in x)))
        (px_arrived x + length data) (px_accepted x) (px_failed x) (px_delivered x))
  | PxRead n =>
      let '(r, o, io) := pnet_poll_read chunks (px_receiver x) (px_in x) n in
      let data := match r with Ready data => data | PollPending => [] end in
      (PoRead r, mk_PnetPair (px_sender x) (px_wire x) o io (px_arrived x) (px_accepted x) (px_failed x) (px_delivered x ++ data))
  end.

Fixpoint pair_run (chunks : nat → nat) (evs : list PnetEvent) (x : PnetPair) : list PnetOutcome * PnetPair :=
  match evs with
  | [] => ([], x)
  | ev :: evs =>
      let y := pair_step chunks x ev in
      let z := pair_run chunks evs y.2 in
      (y.1 :: z.1, z.2)
  end.

(** [taken] is what the writer has encrypted so far: all of it is written, in the socket
    or delivered. *)
Definition pair_inv (key nonce : bytes) (x : PnetPair) (taken : bytes) : Prop :=
  let enc := apply_stream (xsalsa20 key nonce) 0 taken in
  cw_cipher (pn_inner (px_sender x)) = mk_XSalsa20 key nonce (length taken) ∧
  pn_read_cipher (px_receiver x) = mk_XSalsa20 key nonce (length (px_delivered x)) ∧
  wi_bytes (px_wire x) ++ cw_buf (pn_inner (px_sender x)) = enc ∧
  px_arrived x ≤ length (wi_bytes (px_wire x)) ∧
  apply_stream (xsalsa20 key nonce) 0 (px_delivered x) ++ in_bytes (px_in x) = take (px_arrived x) (wi_bytes (px_wire x)) ∧
  in_eof (px_in x) = false ∧
  (px_failed x = false → px_accepted x = taken).

(** The delivered bytes are the first ones that were taken. *)
Lemma pair_inv_delivered key nonce x taken : pair_inv key nonce x taken → px_delivered x `prefix_of` taken.
Proof.
  intros (_&_&Henc&Harr&Hin&_). apply (f_equal (apply_stream (xsalsa20 key nonce) 0)) in Henc.
  rewrite apply_stream_twice in Henc. rewrite <-Henc, <-(take_drop (px_arrived x) (wi_bytes (px_wire x))), <-Hin, <-!(assoc_L (++)).
  rewrite apply_stream_app, apply_stream_twice. by eexists.
Qed.

Lemma pair_inv_all key nonce x taken :
  pair_inv key nonce x taken → cw_buf (pn_inner (px_sender x)) = [] → in_bytes (px_in x) = [] →
  px_arrived x = length (wi_bytes (px_wire x)) → px_delivered x = taken.
Proof.
  intros (_&_&Henc&_&Hin&_) Hb Hi Ha. rewrite Hb, app_nil_r in Henc. rewrite Hi, app_nil_r, Ha, take_ge, Henc in Hin by lia.
  apply (f_equal (apply_stream (xsalsa20 key nonce) 0)) in Hin. by rewrite !apply_stream_twice in Hin.
Qed.

Lemma take_prefix {A} n (l l' : list A) : l `prefix_of` l' → n ≤ length l → take n l' = take n l.
Proof. intros [k ->] Hn. by rewrite take_app_le. Qed.

(** The sender moves on: [taken] may grow, the wire too. *)
Lemma pair_inv_send key nonce x taken more c w acc failed :
  pair_inv key nonce x taken →
  cw_cipher c = mk_XSalsa20 key nonce (length (taken ++ more)) →
  wi_bytes w ++ cw_buf c = apply_stream (xsalsa20 key nonce) 0 (taken ++ more) →
  wi_bytes (px_wire x) `prefix_of` wi_bytes w →
  (failed = false → px_failed x = false ∧ acc = more) →
  pair_inv key nonce (mk_PnetPair (mk_PnetOutput c (pn_read_cipher (px_sender x))) w (px_receiver x) (px_in x) (px_arrived x)
    (px_accepted x ++ acc) failed (px_delivered x)) (taken ++ more).
Proof.
  intros (_&Hr&_&Harr&Hin&He&Hacc) Hc Hw Hpre Hf. split_and!; try done.
  - cbn. etrans; [exact Harr|]. by apply prefix_length.
  - cbn. by rewrite Hin, (take_prefix _ _ _ Hpre).
  - intros Hff. cbn. destruct (Hf Hff) as [Hx ->]. by rewrite Hacc.
Qed.

Lemma pair_write_inv chunks key nonce x taken buf :
  pair_inv key nonce x taken → ∃ more, pair_inv key nonce (pair_step chunks x (PxWrite buf)).2 (taken ++ more).
Proof.
  intros Hinv. pose proof Hinv as (Hc&_&Henc&_). cbn. unfold pnet_poll_write, crypt_poll_write.
  destruct (poll_flush_buf (cw_buf (pn_inner (px_sender x))) (px_wire x)) as [[r b] w] eqn:Hfl.
  apply poll_flush_buf_spec in Hfl as (Hw&Hpre&Hok). rewrite Henc in Hw. destruct r as [[[]|e]|].
  2,3: exists []; eapply pair_inv_send; rewrite ?app_nil_r; try done.
  rewrite Hok in * by done. rewrite app_nil_r in Hw. cbn [app]. rewrite firstn_all, drop_all, app_nil_r.
  set (y := apply_keystream (cw_cipher (pn_inner (px_sender x))) buf).
  assert (Hy : y.1 = apply_stream (xsalsa20 key nonce) (length taken) buf ∧ y.2 = mk_XSalsa20 key nonce (length (taken ++ buf))).
  { unfold y, apply_keystream. rewrite Hc. cbn. by rewrite length_app. }
  destruct Hy as [Hy1 Hy2]. destruct (poll_flush_buf y.1 w) as [[r2 b2] w2] eqn:Hfl2.
  apply poll_flush_buf_spec in Hfl2 as (Hw2&Hpre2&_). exists buf.
  destruct r2 as [[[]|e]|]; (eapply pair_inv_send; [done|done| |by etrans|]);
    try (cbn; by rewrite Hw2, Hw, Hy1, apply_stream_app); try done; by rewrite firstn_all.
Qed.

Lemma pair_flush_inv chunks key nonce x taken :
  pair_inv key nonce x taken →
  let y := pair_step chunks x PxFlush in
  pair_inv key nonce y.2 taken ∧ px_accepted y.2 = px_accepted x ∧ px_failed y.2 = px_failed x ∧
  (y.1 = PoFlush (Ready (Ok ())) → cw_buf (pn_inner (px_sender y.2)) = []).
Proof.
  intros Hinv. pose proof Hinv as (Hc&_&Henc&_). cbn. unfold pnet_poll_flush, crypt_poll_flush.
  destruct (poll_flush_buf (cw_buf (pn_inner (px_sender x))) (px_wire x)) as [[r b] w] eqn:Hfl.
  apply poll_flush_buf_spec in Hfl as (Hw&Hpre&Hok). rewrite Henc in Hw. cbn. split_and!; try done.
  - pose proof (pair_inv_send key nonce x taken [] (mk_CryptWriter b (cw_cipher (pn_inner (px_sender x)))) w [] (px_failed x) Hinv) as Hs.
    rewrite !app_nil_r in Hs. by apply Hs.
  - intros [= ->]. by apply Hok.
Qed.

Lemma pair_arrive_inv chunks key nonce x taken n :
  pair_inv key nonce x taken → pair_inv key nonce (pair_step chunks x (PxArrive n)).2 taken.
Proof.
  intros (Hc&Hr&Henc&Harr&Hin&He&Hacc). split_and!; try done; cbn.
  - rewrite length_take, length_drop. lia.
  - rewrite (assoc_L (++)), Hin, take_take_drop, length_take, length_drop. set (l := wi_bytes (px_wire x)) in *.
    destruct (decide (n ≤ length l - px_arrived x)); [by rewrite Nat.min_l|]. rewrite !take_ge; [done|lia..].
Qed.

Lemma pair_read_inv chunks key nonce x taken n :
  pair_inv key nonce x taken →
  let y := pair_step chunks x (PxRead n) in
  pair_inv key nonce y.2 taken ∧ (y.1 = PoRead PollPending → in_bytes (px_in x) = []).
Proof.
  intros (Hc&Hr&Henc&Harr&Hin&He&Hacc). cbn. unfold pnet_poll_read, sock_poll_read.
  destruct (in_bytes (px_in x)) as [|b0 bs0] eqn:Hb.
  { rewrite He. cbn. split; [|done]. split_and!; try done; cbn; by rewrite ?app_nil_r, ?Hb. }
  set (bs := b0 :: bs0) in *. set (k := min n (max 1 (chunks (in_round (px_in x))))). cbn. rewrite Hr. cbn. split; [|done].
  split_and!; try done; cbn.
  - by rewrite length_app, length_apply_stream.
  - rewrite apply_stream_app, Nat.add_0_l, apply_stream_twice, <-(assoc_L (++)). by rewrite take_drop.
Qed.

Lemma pair_run_inv chunks key nonce evs x taken :
  pair_inv key nonce x taken → ∃ more, pair_inv key nonce (pair_run chunks evs x).2 (taken ++ more).
Proof.
  revert x taken. induction evs as [|ev evs IH]; intros x taken Hinv; cbn.
  { exists []. by rewrite app_nil_r. }
  assert (∃ more, pair_inv key nonce (pair_step chunks x ev).2 (taken ++ more)) as [m1 H1].
  { destruct ev; [by apply pair_write_inv|exists []; rewrite app_nil_r..];
      [by apply pair_flush_inv|by apply pair_arrive_inv|by apply pair_read_inv]. }
  destruct (IH _ _ H1) as [m2 H2]. exists (m1 ++ m2). by rewrite (assoc_L (++)).
Qed.

(** Between a writer and a reader with the same key and nonce, whatever the order of the
    polls and whatever the socket accepts, refuses or delivers: unless a write has
    failed, what is delivered is a prefix of what was accepted, and it is all of it once
    a flush has completed, its bytes have arrived and the reader is pending. *)
Theorem pnet_delivery chunks key nonce script sender receiver evs
    (Hs : pn_inner sender = mk_CryptWriter [] (XSalsa20_new key nonce)) (Hr : pn_read_cipher receiver = XSalsa20_new key nonce) :
  let x := (pair_run chunks evs (pair_new script sender receiver)).2 in
  px_failed x = false →
  px_delivered x `prefix_of` px_accepted x ∧
  ∀ y k n, pair_step chunks x PxFlush = (PoFlush (Ready (Ok ())), y) →
    let z := (pair_step chunks y (PxArrive k)).2 in
    px_arrived z = length (wi_bytes (px_wire z)) → (pair_step chunks z (PxRead n)).1 = PoRead PollPending →
    px_delivered z = px_accepted z.
Proof.
  intros x Hok. assert (H0 : pair_inv key nonce (pair_new script sender receiver) []).
  { unfold pair_inv. cbn. rewrite Hs, Hr. cbn. split_and!; try done; lia. }
  destruct (pair_run_inv chunks key nonce evs _ _ H0) as [taken Hinv]. cbn [app] in Hinv. fold x in Hinv.
  assert (Ht : px_accepted x = taken) by (by apply Hinv).
  split; [rewrite Ht; by eapply pair_inv_delivered|]. intros y k n Hfl z Harr Hread.
  destruct (pair_flush_inv chunks key nonce x taken Hinv) as (Hy&Hacc&_&Hbuf). rewrite Hfl in Hy, Hacc, Hbuf. cbn in Hy, Hacc, Hbuf.
  pose proof (pair_arrive_inv chunks key nonce y taken k Hy) as Hz. fold z in Hz.
  destruct (pair_read_inv chunks key nonce z taken n Hz) as [_ Hp].
  assert (Hd : px_delivered z = taken) by (eapply pair_inv_all; [exact Hz|by apply Hbuf|by apply Hp|done]).
  rewrite Hd, <-Ht, <-Hacc. done.
Qed.
End pnet_properties.

(** ** Examples *)

(** A stream that only counts, for the examples. *)
Definition toy_stream (key nonce : bytes) (i : nat) : u8 :=
  byte.of_Z (be_combine (take 1 key) + be_combine (take 1 nonce) + Z.of_nat i).
#[local] Instance toy_pnet : PnetCrypto := {| salsa20 := toy_stream; xsalsa20 := toy_stream; shake128 bs n := take n bs |}.

Definition toy_key : PreSharedKey := mk_PreSharedKey (replicate 32 Byte.x0f).
Definition nonce_a : bytes := replicate 24 Byte.x01.
Definition nonce_b : bytes := replicate 24 Byte.x02.

Lemma psk_roundtrip_witness : psk_from_str (psk_to_string toy_key) = Some (Ok toy_key).
Proof. apply (psk_roundtrip toy_key). reflexivity. Defined.

Lemma pnet_completes_witness :
  link_returns (pnet_handshake (λ _, 1) (PnetConfig_new toy_key) nonce_a) (pnet_handshake (λ _, 7) (PnetConfig_new toy_key) nonce_b)
    (Ok (PnetOutput_new (XSalsa20_new (psk_bytes toy_key) nonce_a) (XSalsa20_new (psk_bytes toy_key) nonce_b)))
    (Ok (PnetOutput_new (XSalsa20_new (psk_bytes toy_key) nonce_b) (XSalsa20_new (psk_bytes toy_key) nonce_a))) [] [].
Proof.
  apply (pnet_completes (λ _, 1) (λ _, 7) (PnetConfig_new toy_key) nonce_a (PnetConfig_new toy_key) nonce_b);
    [intros; lia|intros; lia|reflexivity|reflexivity].
Defined.

Definition toy_writer : PnetOutput := PnetOutput_new (XSalsa20_new (psk_bytes toy_key) nonce_a) (XSalsa20_new [] []).
Definition toy_reader : PnetOutput := PnetOutput_new (XSalsa20_new [] []) (XSalsa20_new (psk_bytes toy_key) nonce_a).
Definition toy_script : list WriteOutcome := [WoAccept 1; WoInterrupted; WoPending; WoAccept 2; WoPending; WoAccept 9].
Definition toy_events : list PnetEvent := [PxWrite [Byte.x61; Byte.x62; Byte.x63]; PxWrite [Byte.x64]; PxFlush; PxArrive 2; PxRead 5].

Lemma pnet_delivery_witness :
  let x := (pair_run (λ _, 1) toy_events (pair_new toy_script toy_writer toy_reader)).2 in
  px_delivered x = [Byte.x61] ∧ px_delivered x `prefix_of` px_accepted x.
Proof.
  split; [vm_compute; reflexivity|].
  apply (pnet_delivery (λ _, 1) (psk_bytes toy_key) nonce_a toy_script toy_writer toy_reader toy_events); [reflexivity|reflexivity|].
  vm_compute. reflexivity.
Defined.

(** A reader with another key decrypts something else. *)
Example other_key_garbage :
  let reader := PnetOutput_new (XSalsa20_new [] []) (XSalsa20_new (replicate 32 Byte.x10) nonce_a) in
  px_delivered (pair_run (λ _, 1) toy_events (pair_new toy_script toy_writer reader)).2 ≠ [Byte.x61].
Proof. vm_compute. discriminate. Qed.
