(* ===== verification/Metrics.v ===== *)
(** * Metrics: [core/src/metricmap.rs], [swarm/src/metrics/metric.rs]

    The lock-free map of counters that the swarm, Kademlia and the peer store share
    between their tasks, as a machine whose steps are the atomic actions of its threads,
    and the traffic counters of the swarm on top of it.

    A pointer to a table is an address that the allocator may hand out again after the
    table is freed; tables are freed by the epoch collector, which waits for the threads
    that were pinned when the table was retired.  The theorems show that no thread uses a
    freed table, that every schedule ends with all operations done, and that then every
    update of a key that nobody deletes has been applied exactly once. *)

From Stdlib Require Import ZArith Lia String.
From stdpp Require Import relations.
From S2P Require Import Prelude.

Local Open Scope nat_scope.

(** ** The map of counters: [metricmap.rs] *)

Section metricmap.
(** [C] is what a value of the map points to, [U] are the atomic updates of it. *)
Context {K : Type} `{Countable K} {C U : Type} (V_default : C) (apply : U → C → C).

(** The closure given to [store_or_modify] is the list of the atomic updates it makes. *)
Inductive MapOp :=
  | OpStore (key : K) (on_modify : list U)
  | OpLoad (key : K)
  | OpDelete (key : K)
  | OpIterator.

(** Cells are the shared counters that the values of a table point to. *)
Local Abbreviation Table := (gmap K nat).
Definition Ptr : Type := nat.

Inductive MapResult := RUnit | RValue (v : option nat) | RTable (t : Table).

(** Where a thread is: before [pin], at the head of the loop, with the table it loaded,
    while it applies updates to the cell of its key, before [compare_exchange] with the
    new table, or at the end.  [PFault] is the use of a freed table or cell. *)
Inductive Pc :=
  | PStart
  | PLoop
  | PLoaded (shared : Ptr)
  | PModify (shared : Ptr) (cell : nat) (rest : list U)
  | PCas (shared owned : Ptr)
  | PDone (r : MapResult)
  | PFault.

Record Thread := mk_Thread { th_op : MapOp; th_pc : Pc }.

Record MetricMap := mk_MetricMap {
  mm_data : Ptr;
  mm_tables : gmap Ptr Table;
  mm_retired : gmap Ptr (list nat);
  mm_cells : list C;
  mm_threads : list Thread
}.

Definition set_pc (i : nat) (pc : Pc) (st : MetricMap) : MetricMap :=
  mk_MetricMap (mm_data st) (mm_tables st) (mm_retired st) (mm_cells st)
    (alter (λ th, mk_Thread (th_op th) pc) i (mm_threads st)).
Definition set_tables (t : gmap Ptr Table) (st : MetricMap) : MetricMap :=
  mk_MetricMap (mm_data st) t (mm_retired st) (mm_cells st) (mm_threads st).
Definition set_cells (c : list C) (st : MetricMap) : MetricMap :=
  mk_MetricMap (mm_data st) (mm_tables st) (mm_retired st) c (mm_threads st).

Definition pc_pinned (pc : Pc) : bool :=
  match pc with PLoop | PLoaded _ | PModify _ _ _ | PCas _ _ => true | _ => false end.
Definition pc_done (pc : Pc) : bool := match pc with PDone _ => true | _ => false end.

Definition pinned (ths : list Thread) : list nat :=
  filter (λ i, match ths !! i with Some th => pc_pinned (th_pc th) | None => false end = true) (seq 0 (length ths)).

(** [MetricMap::new], with the operations that the threads are going to run. *)
Definition MetricMap_new (ops : list MapOp) : MetricMap :=
  mk_MetricMap 0 {[ 0 := ∅ ]} ∅ [] ((λ op, mk_Thread op PStart) <$> ops).

(** [Owned::new] at the address [a], which must be unused. *)
Definition alloc (i : nat) (shared a : Ptr) (t : Table) (st : MetricMap) : option MetricMap :=
  match mm_tables st !! a with
  | Some _ => None
  | None => Some (set_pc i (PCas shared a) (set_tables (<[a := t]> (mm_tables st)) st))
  end.

(** The body of the loops of [store_or_modify] and [delete] up to [compare_exchange], and
    [load] and [iterator], once the table is loaded. *)
Definition on_loaded (i : nat) (op : MapOp) (shared a : Ptr) (st : MetricMap) : option MetricMap :=
  match mm_tables st !! shared with
  | None => Some (set_pc i PFault st)
  | Some hash =>
      match op with
      | OpStore key on_modify =>
          match hash !! key with
          | Some old_value => Some (set_pc i (PModify shared old_value on_modify) st)
          | None =>
              let value := length (mm_cells st) in
              alloc i shared a (<[key := value]> hash)
                (set_cells (mm_cells st ++ [foldl (flip apply) V_default on_modify]) st)
          end
      | OpDelete key => alloc i shared a (delete key hash) st
      | OpLoad key => Some (set_pc i (PDone (RValue (hash !! key))) st)
      | OpIterator => Some (set_pc i (PDone (RTable hash)) st)
      end
  end.

(** One update of a cell through the reference into the table. *)
Definition on_update (i : nat) (shared : Ptr) (cell : nat) (rest : list U) (st : MetricMap) : MetricMap :=
  match rest with
  | [] => set_pc i (PDone RUnit) st
  | u :: rest =>
      match mm_tables st !! shared, mm_cells st !! cell with
      | Some _, Some c => set_pc i (PModify shared cell rest) (set_cells (<[cell := apply u c]> (mm_cells st)) st)
      | _, _ => set_pc i PFault st
      end
  end.

(** [compare_exchange]: success publishes the new table and retires the old one, failure
    drops the new table. *)
Definition on_cas (i : nat) (shared owned : Ptr) (st : MetricMap) : MetricMap :=
  if decide (mm_data st = shared) then
    set_pc i (PDone RUnit)
      (mk_MetricMap owned (mm_tables st) (<[shared := pinned (mm_threads st)]> (mm_retired st)) (mm_cells st) (mm_threads st))
  else set_pc i PLoop (set_tables (delete owned (mm_tables st)) st).

(** A step of thread [i], with the address that the allocator returns if it is asked, or
    the destruction of a retired table, for which every thread that was pinned at the
    time must be done. *)
Inductive Choice := Run (i : nat) (a : Ptr) | Destroy (p : Ptr).

Definition mm_exec (ch : Choice) (st : MetricMap) : option MetricMap :=
  match ch with
  | Destroy p =>
      waiting ← mm_retired st !! p;
      if forallb (λ i, match mm_threads st !! i with Some th => pc_done (th_pc th) | None => true end) waiting then
        Some (mk_MetricMap (mm_data st) (delete p (mm_tables st)) (delete p (mm_retired st)) (mm_cells st) (mm_threads st))
      else None
  | Run i a =>
      th ← mm_threads st !! i;
      match th_pc th with
      | PStart => Some (set_pc i PLoop st)
      | PLoop => Some (set_pc i (PLoaded (mm_data st)) st)
      | PLoaded shared => on_loaded i (th_op th) shared a st
      | PModify shared cell rest => Some (on_update i shared cell rest st)
      | PCas shared owned => Some (on_cas i shared owned st)
      | PDone _ | PFault => None
      end
  end.

Definition mm_step (st st' : MetricMap) : Prop := ∃ ch, mm_exec ch st = Some st'.

Fixpoint mm_run (chs : list Choice) (st : MetricMap) : option MetricMap :=
  match chs with
  | [] => Some st
  | ch :: chs => st ← mm_exec ch st; mm_run chs st
  end.

(** The value of a key in the published table. *)
Definition mm_value (st : MetricMap) (k : K) : option C :=
  t ← mm_tables st !! mm_data st; c ← t !! k; mm_cells st !! c.

(** What [store_or_modify] and [delete] do when nothing else runs. *)
Definition store_or_modify (k : K) (us : list U) (m : gmap K C) : gmap K C :=
  <[k := foldl (flip apply) (default V_default (m !! k)) us]> m.

Definition all_done (st : MetricMap) : Prop := Forall (λ th, pc_done (th_pc th) = true) (mm_threads st).

(** The updates of [k] that operations make in total, and that a thread has still to make. *)
Definition op_updates (k : K) (op : MapOp) : list U :=
  match op with OpStore key us => if decide (key = k) then us else [] | _ => [] end.
Definition remaining (k : K) (th : Thread) : list U :=
  match th_pc th with
  | PDone _ | PFault => []
  | PModify _ _ rest => op_updates k (match th_op th with OpStore key _ => OpStore key rest | op => op end)
  | _ => op_updates k (th_op th)
  end.

(** *** The invariant *)

Implicit Types (st : MetricMap) (th : Thread) (op : MapOp) (pc : Pc).

Definition held st (i : nat) (p : Ptr) : Prop :=
  is_Some (mm_tables st !! p) ∧ (p = mm_data st ∨ ∃ s, mm_retired st !! p = Some s ∧ i ∈ s).

(** A table that only its creator can reach. *)
Definition private st (a : Ptr) : Prop := a ≠ mm_data st ∧ mm_retired st !! a = None.

Definition cas_ok st op (p a : Ptr) : Prop :=
  ∃ t, mm_tables st !! p = Some t ∧
  match op with
  | OpStore k us => t !! k = None ∧ ∃ c, mm_tables st !! a = Some (<[k := c]> t) ∧
      mm_cells st !! c = Some (foldl (flip apply) V_default us) ∧
      ∀ q t' k', mm_tables st !! q = Some t' → t' !! k' = Some c → q = a
  | OpDelete k => mm_tables st !! a = Some (delete k t)
  | _ => False
  end.

Definition th_ok st (i : nat) th : Prop :=
  match th_pc th with
  | PStart | PLoop | PDone _ => True
  | PLoaded p => held st i p
  | PModify p c us => held st i p ∧ ∃ k us' t, th_op th = OpStore k us' ∧ mm_tables st !! p = Some t ∧ t !! k = Some c
  | PCas p a => held st i p ∧ private st a ∧ cas_ok st (th_op th) p a
  | PFault => False
  end.

Definition owned_by th (a : Ptr) : Prop := match th_pc th with PCas _ a' => a' = a | _ => False end.

Record mm_inv (owner : list K) st : Prop := {
  inv_data : is_Some (mm_tables st !! mm_data st);
  inv_current : mm_retired st !! mm_data st = None;
  inv_retired p : is_Some (mm_retired st !! p) → is_Some (mm_tables st !! p);
  inv_owner_len : length owner = length (mm_cells st);
  inv_owner p t k c : mm_tables st !! p = Some t → t !! k = Some c → owner !! c = Some k;
  inv_threads i th : mm_threads st !! i = Some th → th_ok st i th;
  inv_distinct i j th th' a : mm_threads st !! i = Some th → mm_threads st !! j = Some th' →
    owned_by th a → owned_by th' a → i = j
}.

Lemma mm_inv_new ops : mm_inv [] (MetricMap_new ops).
Proof.
  constructor; cbn.
  - rewrite lookup_singleton_eq. eauto.
  - done.
  - intros p. rewrite lookup_empty. by intros [].
  - done.
  - intros p t k c [_ <-]%lookup_singleton_Some Hk. by apply lookup_empty_Some in Hk.
  - intros i th. rewrite list_lookup_fmap, fmap_Some. by intros (op&_&->).
  - intros i j th th' a. rewrite list_lookup_fmap, fmap_Some. by intros (op&_&->).
Qed.

Lemma pinned_spec ths i th : ths !! i = Some th → pc_pinned (th_pc th) = true → i ∈ pinned ths.
Proof.
  intros Hi Hp. apply list_elem_of_filter. rewrite Hi. split; [done|]. apply elem_of_seq.
  apply lookup_lt_Some in Hi. lia.
Qed.

(** Only thread [i] changes, and only its place. *)
Lemma lookup_set_pc i pc st j th :
  mm_threads (set_pc i pc st) !! j = Some th →
  (j = i ∧ th_pc th = pc ∧ ∃ th0, mm_threads st !! i = Some th0 ∧ th_op th = th_op th0) ∨ (j ≠ i ∧ mm_threads st !! j = Some th).
Proof.
  cbn. destruct (decide (j = i)) as [->|Hne].
  - rewrite list_lookup_alter_eq, fmap_Some. intros (th0&Hi&->). left. eauto.
  - rewrite list_lookup_alter_ne by done. eauto.
Qed.

(** A change of the shared state and of the place of one thread preserves the invariant if
    it keeps what the other threads rely on. *)
Lemma mm_inv_update owner owner' st st' i pc :
  mm_inv owner st → mm_threads st' = mm_threads st →
  is_Some (mm_tables st' !! mm_data st') → mm_retired st' !! mm_data st' = None →
  (∀ p, is_Some (mm_retired st' !! p) → is_Some (mm_tables st' !! p)) → length owner' = length (mm_cells st') →
  (∀ p t k c, mm_tables st' !! p = Some t → t !! k = Some c → owner' !! c = Some k) →
  (∀ j th, j ≠ i → mm_threads st !! j = Some th → th_ok st j th → th_ok st' j th) →
  (∀ th, mm_threads st !! i = Some th → th_ok st' i (mk_Thread (th_op th) pc)) →
  (∀ p a j th, pc = PCas p a → j ≠ i → mm_threads st !! j = Some th → ¬ owned_by th a) →
  mm_inv owner' (set_pc i pc st').
Proof.
  intros Hinv Hths Hd Hc Hr Hl Ho Hother Hself Hdist. constructor; try done.
  - intros j th [(->&Hpc&th0&Hi&Hop)|[Hne Hj]]%lookup_set_pc; rewrite Hths in *.
    + specialize (Hself _ Hi). unfold th_ok in *. cbn in Hself. by rewrite Hpc, Hop.
    + apply (Hother j th Hne Hj), Hinv, Hj.
  - intros j j' th th' a Hj Hj' Ho1 Ho2.
    apply lookup_set_pc in Hj as [(->&Hpc&_)|[Hne Hj]]; apply lookup_set_pc in Hj' as [(->&Hpc'&_)|[Hne' Hj']]; rewrite ?Hths in *.
    + done.
    + unfold owned_by in Ho1. rewrite Hpc in Ho1. destruct pc; try done. subst. by destruct (Hdist _ _ j' th' eq_refl Hne' Hj').
    + unfold owned_by in Ho2. rewrite Hpc' in Ho2. destruct pc; try done. subst. by destruct (Hdist _ _ j th eq_refl Hne Hj).
    + by eapply (inv_distinct _ _ Hinv).
Qed.

Lemma mm_inv_local owner st i pc :
  mm_inv owner st → (∀ p a, pc ≠ PCas p a) →
  (∀ th, mm_threads st !! i = Some th → th_ok st i (mk_Thread (th_op th) pc)) → mm_inv owner (set_pc i pc st).
Proof.
  intros Hinv Hpc Hself. pose proof Hinv as []. eapply mm_inv_update; try done. intros p a ? ? ?. by destruct (Hpc p a).
Qed.

Lemma held_alive st i p : held st i p → is_Some (mm_tables st !! p).
Proof. by intros [? _]. Qed.

Lemma held_not_private st i p a : held st i p → private st a → p ≠ a.
Proof. intros [_ [->|(s&Hs&_)]] [Ha Hr] <-; [done|congruence]. Qed.

(** *** Allocation *)

Lemma mm_inv_alloc owner st i op p a t (cs : list C) (new : list K) st' :
  mm_inv owner st → held st i p → mm_tables st !! p = Some t →
  ∀ t', length new = length cs →
  (∀ k c, t' !! k = Some c → t !! k = Some c ∨ length (mm_cells st) ≤ c) →
  (∀ k c, t' !! k = Some c → (owner ++ new) !! c = Some k) →
  (mm_tables st !! a = None → cas_ok (set_tables (<[a := t']> (mm_tables st)) (set_cells (mm_cells st ++ cs) st)) op p a) →
  (∀ th, mm_threads st !! i = Some th → th_op th = op) →
  alloc i p a t' (set_cells (mm_cells st ++ cs) st) = Some st' →
  mm_inv (owner ++ new) st'.
Proof.
  intros Hinv Hheld Hp t' Hnew Hcells Hown Hcas Hop Halloc. unfold alloc in Halloc. cbn in Halloc.
  destruct (mm_tables st !! a) eqn:Ha; [done|]. injection Halloc as <-. specialize (Hcas eq_refl).
  pose proof Hinv as [Hd Hc Hret Hl Ho Ht Hdist].
  assert (Hkeep : ∀ q, is_Some (mm_tables st !! q) → <[a := t']> (mm_tables st) !! q = mm_tables st !! q).
  { intros q [u Hq]. apply lookup_insert_ne. intros <-. congruence. }
  assert (Hfresh : ∀ q, is_Some (mm_tables st !! q) → q ≠ a) by (intros q [u Hq] ->; congruence).
  assert (Hheld' : ∀ j q, held st j q → held (set_tables (<[a := t']> (mm_tables st)) (set_cells (mm_cells st ++ cs) st)) j q).
  { intros j q [Hq Hor]. split; [|done]. cbn. by rewrite Hkeep. }
  eapply mm_inv_update; cbn; try done.
  - by rewrite Hkeep.
  - intros q Hq. rewrite Hkeep; auto.
  - rewrite !length_app. lia.
  - intros q u k c. destruct (decide (q = a)) as [->|Hne].
    + rewrite lookup_insert_eq. intros [= <-]. apply Hown.
    + rewrite lookup_insert_ne by done. intros Hq Hk. apply lookup_app_l_Some. eauto.
  - intros j th Hne Hj. unfold th_ok. destruct (th_pc th) as [| |q|q c us|q b| |]; try done; [by apply Hheld'| |].
    + intros [Hq (k&us'&u&?&Hu&?)]. split; [by apply Hheld'|]. exists k, us', u. cbn. rewrite Hkeep by eauto. done.
    + intros (Hq&[Hpr1 Hpr2]&u&Hu&Hm). split; [by apply Hheld'|]. split; [done|]. exists u. cbn. rewrite Hkeep by eauto.
      split; [done|]. destruct (th_op th) as [k us| |k|]; try done.
      * destruct Hm as (Huk&c&Hb&Hcell&Hpriv). split; [done|]. exists c. rewrite Hkeep by eauto.
        split; [done|]. split; [by apply lookup_app_l_Some|]. intros r t'' k'. destruct (decide (r = a)) as [->|Hra].
        -- rewrite lookup_insert_eq. intros [= <-] Hk. exfalso. apply Hcells in Hk as [Hk|Hk].
           ++ apply (Hpriv p t k' Hp) in Hk as ->. by apply (held_not_private st i b b Hheld).
           ++ apply lookup_lt_Some in Hcell. lia.
        -- rewrite lookup_insert_ne by done. apply Hpriv.
      * rewrite Hkeep; [done|]. eauto.
  - intros th Hi. cbn. split; [by apply Hheld'|]. split; [|by rewrite (Hop _ Hi)]. split.
    + cbn. intros Heq. rewrite <-Heq, Ha in Hd. by destruct Hd.
    + cbn. apply eq_None_not_Some. intros Hs%Hret. rewrite Ha in Hs. by destruct Hs.
  - intros q b j th [= <- <-] Hne Hj Hown'. unfold owned_by in Hown'. specialize (Ht _ _ Hj). unfold th_ok in Ht.
    destruct (th_pc th) as [| | | |q b| |]; try done. subst b. destruct Ht as (_&_&u&_&Hm).
    destruct (th_op th); try done; [destruct Hm as (_&c&Hm&_)|]; congruence.
Qed.

Lemma mm_inv_on_loaded owner st i th p a st' :
  mm_inv owner st → mm_threads st !! i = Some th → th_pc th = PLoaded p →
  on_loaded i (th_op th) p a st = Some st' → ∃ new, mm_inv (owner ++ new) st'.
Proof.
  intros Hinv Hi Hpc Hstep. pose proof (inv_threads _ _ Hinv i th Hi) as Hheld. unfold th_ok in Hheld. rewrite Hpc in Hheld.
  destruct (held_alive _ _ _ Hheld) as [t Ht]. unfold on_loaded in Hstep. rewrite Ht in Hstep.
  assert (Hop : ∀ th', mm_threads st !! i = Some th' → th_op th' = th_op th) by (intros th' ?; congruence).
  destruct (th_op th) as [k us|k|k|] eqn:Hopk.
  - destruct (t !! k) as [c|] eqn:Hk.
    + injection Hstep as <-. exists []. rewrite app_nil_r. apply mm_inv_local; [done|done|]. intros th' Hth'. cbn.
      rewrite Hop by done. unfold th_ok. cbn. eauto 10.
    + exists [k]. eapply (mm_inv_alloc owner st i (OpStore k us) p a t [foldl (flip apply) V_default us] [k]); try done.
      * intros k' c'. destruct (decide (k' = k)) as [->|Hne].
        -- rewrite lookup_insert_eq. intros [= <-]. by right.
        -- rewrite lookup_insert_ne by done. by left.
      * intros k' c'. destruct (decide (k' = k)) as [->|Hne].
        -- rewrite lookup_insert_eq. intros [= <-]. rewrite <-(inv_owner_len _ _ Hinv). by rewrite list_lookup_middle.
        -- rewrite lookup_insert_ne by done. intros Hk'. apply lookup_app_l_Some. by eapply (inv_owner _ _ Hinv).
      * intros Ha. exists t. cbn. rewrite lookup_insert_ne by congruence. split; [done|]. split; [done|].
        exists (length (mm_cells st)). rewrite lookup_insert_eq, list_lookup_middle by done. split; [done|]. split; [done|].
        intros q u k' Hq Hk'. destruct (decide (q = a)) as [->|Hne]; [done|]. exfalso.
        rewrite lookup_insert_ne in Hq by done. apply (inv_owner _ _ Hinv _ _ _ _ Hq), lookup_lt_Some in Hk'.
        rewrite (inv_owner_len _ _ Hinv) in Hk'. lia.
  - injection Hstep as <-. exists []. rewrite app_nil_r. by apply mm_inv_local.
  - assert (Hst : set_cells (mm_cells st ++ []) st = st) by (destruct st; unfold set_cells; cbn; by rewrite app_nil_r).
    exists []. eapply (mm_inv_alloc owner st i (OpDelete k) p a t [] []); try done.
    + intros k' c' [_ ?]%lookup_delete_Some. by left.
    + intros k' c' [_ ?]%lookup_delete_Some. rewrite app_nil_r. by eapply (inv_owner _ _ Hinv).
    + intros Ha. exists t. cbn. rewrite lookup_insert_eq, lookup_insert_ne by congruence. done.
    + by rewrite Hst.
  - injection Hstep as <-. exists []. rewrite app_nil_r. by apply mm_inv_local.
Qed.

(** A step of a thread on its cell keeps the cells that are private to others. *)
Lemma mm_inv_on_update owner st i th p c rest :
  mm_inv owner st → mm_threads st !! i = Some th → th_pc th = PModify p c rest → mm_inv owner (on_update i p c rest st).
Proof.
  intros Hinv Hi Hpc. pose proof (inv_threads _ _ Hinv i th Hi) as Hok. unfold th_ok in Hok. rewrite Hpc in Hok.
  destruct Hok as (Hheld&k&us'&t&Hop&Ht&Hk). unfold on_update. destruct rest as [|u rest]; [by apply mm_inv_local|].
  rewrite Ht. pose proof (inv_owner _ _ Hinv _ _ _ _ Ht Hk) as Hown.
  assert (is_Some (mm_cells st !! c)) as [v Hv].
  { apply lookup_lt_is_Some. rewrite <-(inv_owner_len _ _ Hinv). by eapply lookup_lt_Some. }
  rewrite Hv. pose proof Hinv as [Hd Hc Hret Hl Ho Hths Hdist]. eapply mm_inv_update; try done.
  - cbn. by rewrite length_insert.
  - intros j th' Hne Hj. unfold th_ok. destruct (th_pc th') as [| | | |q b| |]; try done.
    intros (Hq&Hpr&w&Hw&Hm). split; [done|]. split; [done|]. exists w. split; [done|]. destruct (th_op th') as [k0 us| | |]; try done.
    destruct Hm as (Hwk&c'&Hb&Hcell&Hpriv). split; [done|]. exists c'. split; [done|]. split; [|done]. cbn.
    rewrite list_lookup_insert_ne; [done|]. intros <-. apply (Hpriv _ _ _ Ht) in Hk as ->. by apply (held_not_private st i b b).
  - intros th' Hth'. assert (th' = th) as -> by congruence. unfold th_ok. cbn. eauto 10.
Qed.

Lemma mm_inv_on_cas owner st i th p a :
  mm_inv owner st → mm_threads st !! i = Some th → th_pc th = PCas p a → mm_inv owner (on_cas i p a st).
Proof.
  intros Hinv Hi Hpc. pose proof (inv_threads _ _ Hinv i th Hi) as Hok. unfold th_ok in Hok. rewrite Hpc in Hok.
  destruct Hok as (Hheld&[Ha1 Ha2]&t&Ht&Hm). pose proof Hinv as [Hd Hc Hret Hl Ho Hths Hdist].
  assert (is_Some (mm_tables st !! a)) as Haa by (destruct (th_op th); try done; destruct Hm as (_&?&?&_); eauto).
  assert (Hpriv : ∀ j th' q b, j ≠ i → mm_threads st !! j = Some th' → th_pc th' = PCas q b → b ≠ a).
  { intros j th' q b Hne Hj Hb ->. apply Hne. eapply (Hdist j i th' th a); try done; unfold owned_by; by rewrite ?Hb, ?Hpc. }
  unfold on_cas. case_decide as Hcas.
  - subst p. eapply mm_inv_update; cbn; try done.
    + rewrite lookup_insert_ne by done. done.
    + intros q. destruct (decide (q = mm_data st)) as [->|Hne]; [done|]. rewrite lookup_insert_ne by done. auto.
    + intros j th' Hne Hj.
      assert (Hheld' : ∀ q, pc_pinned (th_pc th') = true → held st j q → held (mk_MetricMap a (mm_tables st) (<[mm_data st:=pinned (mm_threads st)]> (mm_retired st)) (mm_cells st) (mm_threads st)) j q).
      { intros q Hpin [Hq Hor]. split; [done|]. right. cbn. destruct (decide (q = mm_data st)) as [->|Hqd].
        - exists (pinned (mm_threads st)). rewrite lookup_insert_eq. split; [done|]. by eapply pinned_spec.
        - rewrite lookup_insert_ne by done. by destruct Hor. }
      unfold th_ok. destruct (th_pc th') as [| |q|q c us|q b| |] eqn:Hpc'; try done.
      * by apply Hheld'.
      * intros [Hq ?]. split; [by apply Hheld'|done].
      * intros (Hq&[Hb1 Hb2]&?). split; [by apply Hheld'|]. split; [|done]. split; cbn; [by eapply Hpriv|].
        by rewrite lookup_insert_ne.
  - eapply mm_inv_update; cbn; try done.
    + by rewrite lookup_delete_ne.
    + intros q Hq. rewrite lookup_delete_ne; [auto|]. intros <-. rewrite Ha2 in Hq. by destruct Hq.
    + intros q u k c [_ Hq]%lookup_delete_Some. by eapply Ho.
    + intros j th' Hne Hj.
      assert (Hheld' : ∀ q, held st j q → held (set_tables (delete a (mm_tables st)) st) j q).
      { intros q Hq. pose proof (held_not_private _ _ _ a Hq) as Hqa. destruct Hq as [Hq Hor]. split; [|done]. cbn.
        rewrite lookup_delete_ne; [done|]. intros <-. by apply Hqa. }
      assert (Hkeep : ∀ q, held st j q → delete a (mm_tables st) !! q = mm_tables st !! q).
      { intros q Hq. apply lookup_delete_ne. intros <-. by apply (held_not_private _ _ _ a Hq). }
      unfold th_ok. destruct (th_pc th') as [| |q|q c us|q b| |] eqn:Hpc'; try done.
      * apply Hheld'.
      * intros [Hq (k&us'&u&?&Hu&?)]. split; [by apply Hheld'|]. exists k, us', u. cbn. rewrite Hkeep by done. done.
      * intros (Hq&Hb&u&Hu&Hm'). split; [by apply Hheld'|]. split; [done|]. exists u. cbn. rewrite Hkeep by done. split; [done|].
        assert (b ≠ a) by by eapply Hpriv.
        destruct (th_op th') as [k us| |k|]; try done; rewrite lookup_delete_ne by done; [|done].
        destruct Hm' as (?&c&?&?&Hp). split; [done|]. exists c. split; [done|]. split; [done|].
        intros r w k' [_ Hr]%lookup_delete_Some. by eapply Hp.
Qed.

Lemma mm_inv_destroy owner st st' p :
  mm_inv owner st → mm_exec (Destroy p) st = Some st' → mm_inv owner st'.
Proof.
  intros Hinv Hstep. cbn in Hstep. destruct (mm_retired st !! p) as [waiting|] eqn:Hp; [|done]. cbn in Hstep.
  destruct (forallb _ _) eqn:Hall in Hstep; [|done]. injection Hstep as <-. pose proof Hinv as [Hd Hc Hret Hl Ho Hths Hdist].
  assert (Hdone : ∀ j th q, mm_threads st !! j = Some th → pc_pinned (th_pc th) = true → held st j q → q ≠ p).
  { intros j th q Hj Hpin [_ [->|(s&Hs&Hin)]] <-; [congruence|]. assert (s = waiting) as -> by congruence.
    rewrite forallb_forall in Hall. apply list_elem_of_In, Hall in Hin. rewrite Hj in Hin. by destruct (th_pc th). }
  constructor; cbn; try done.
  - rewrite lookup_delete_ne; [done|]. congruence.
  - rewrite lookup_delete_ne; [done|]. congruence.
  - intros q [s [Hq Hs]%lookup_delete_Some]. rewrite lookup_delete_ne by done. eauto.
  - intros q t k c [_ Hq]%lookup_delete_Some. by eapply Ho.
  - intros j th Hj. specialize (Hths _ _ Hj).
    assert (Hheld' : ∀ q, pc_pinned (th_pc th) = true → held st j q →
      held (mk_MetricMap (mm_data st) (delete p (mm_tables st)) (delete p (mm_retired st)) (mm_cells st) (mm_threads st)) j q).
    { intros q Hpin Hq. assert (q ≠ p) by by eapply Hdone. destruct Hq as [? ?]. split; cbn; rewrite !lookup_delete_ne by done; done. }
    unfold th_ok in *. destruct (th_pc th) as [| |q|q c us|q b| |] eqn:Hpc; try done.
    + by apply Hheld'.
    + destruct Hths as [Hq Hx]. split; [by apply Hheld'|]. cbn. rewrite lookup_delete_ne; [done|]. apply not_eq_sym. eapply Hdone; [exact Hj|by rewrite Hpc|exact Hq].
    + destruct Hths as (Hq&[Hb1 Hb2]&u&Hu&Hm). assert (q ≠ p) by (eapply Hdone; [done| |done]; by rewrite Hpc).
      assert (b ≠ p) by congruence. split; [by apply Hheld'|]. split; [split; cbn; by rewrite ?lookup_delete_ne|].
      exists u. cbn. rewrite lookup_delete_ne by done. split; [done|]. destruct (th_op th); try done; rewrite lookup_delete_ne by done; [|done].
      destruct Hm as (?&c&?&?&Hpriv). split; [done|]. exists c. split; [done|]. split; [done|].
      intros r w k' [_ Hr]%lookup_delete_Some. by eapply Hpriv.
Qed.

Lemma mm_inv_step owner st st' : mm_inv owner st → mm_step st st' → ∃ new, mm_inv (owner ++ new) st'.
Proof.
  intros Hinv [[i a|p] Hstep].
  2: { exists []. rewrite app_nil_r. by eapply mm_inv_destroy. }
  cbn in Hstep. destruct (mm_threads st !! i) as [th|] eqn:Hi; [|done]. cbn in Hstep.
  destruct (th_pc th) as [| |q|q c us|q b| |] eqn:Hpc; try done; [..|injection Hstep as <-|injection Hstep as <-].
  - injection Hstep as <-. exists []. rewrite app_nil_r. by apply mm_inv_local.
  - injection Hstep as <-. exists []. rewrite app_nil_r. apply mm_inv_local; [done|done|]. intros th' _. split; [apply Hinv|by left].
  - by eapply mm_inv_on_loaded.
  - exists []. rewrite app_nil_r. by eapply mm_inv_on_update.
  - exists []. rewrite app_nil_r. by eapply mm_inv_on_cas.
Qed.

Lemma mm_inv_rtc owner st st' : mm_inv owner st → rtc mm_step st st' → ∃ owner', mm_inv owner' st'.
Proof.
  intros Hinv Hsteps. revert owner Hinv. induction Hsteps as [st|st1 st2 st3 Hstep _ IH]; intros owner Hinv; [eauto|].
  destruct (mm_inv_step _ _ _ Hinv Hstep) as [new Hnew]. eauto.
Qed.

(** *** The updates of a key that nobody deletes *)

Definition started pc : bool := match pc with PModify _ _ _ | PDone _ => true | _ => false end.
Definition published st (p : Ptr) : Prop := p = mm_data st ∨ is_Some (mm_retired st !! p).

Record key_inv (k : K) (total : list U) st : Prop := {
  ki_kept p t c : published st p → mm_tables st !! p = Some t → t !! k = Some c →
    ∃ td, mm_tables st !! mm_data st = Some td ∧ td !! k = Some c;
  ki_history : ∃ hist, default V_default (mm_value st k) = foldl (flip apply) V_default hist ∧
    hist ++ concat (remaining k <$> mm_threads st) ≡ₚ total;
  ki_present i th us : mm_threads st !! i = Some th → th_op th = OpStore k us → started (th_pc th) = true → is_Some (mm_value st k);
  ki_stored : is_Some (mm_value st k) → ∃ us, OpStore k us ∈ th_op <$> mm_threads st
}.

Lemma alter_insert {A} (f : A → A) (i : nat) (l : list A) x : l !! i = Some x → alter f i l = <[i := f x]> l.
Proof.
  intros Hi. apply list_eq. intros j. destruct (decide (j = i)) as [->|Hne].
  - rewrite list_lookup_alter_eq, Hi, list_lookup_insert_eq; [done|]. by eapply lookup_lt_Some.
  - by rewrite list_lookup_alter_ne, list_lookup_insert_ne.
Qed.

Lemma remaining_split k st i th pc :
  mm_threads st !! i = Some th →
  concat (remaining k <$> mm_threads st) ≡ₚ remaining k th ++ concat (remaining k <$> delete i (mm_threads st)) ∧
  concat (remaining k <$> mm_threads (set_pc i pc st)) ≡ₚ
    remaining k (mk_Thread (th_op th) pc) ++ concat (remaining k <$> delete i (mm_threads st)).
Proof.
  intros Hi. split.
  - by rewrite (delete_perm i th) at 1.
  - cbn [set_pc mm_threads]. rewrite (alter_insert _ _ _ th) by done.
    rewrite insert_delete_perm by by eapply lookup_lt_Some. done.
Qed.

Lemma ops_set_pc i pc st : th_op <$> mm_threads (set_pc i pc st) = th_op <$> mm_threads st.
Proof.
  apply list_eq. intros j. rewrite !list_lookup_fmap. cbn. destruct (decide (j = i)) as [->|Hne].
  - rewrite list_lookup_alter_eq. by destruct (mm_threads st !! i).
  - by rewrite list_lookup_alter_ne.
Qed.

(** Changing the place of a thread after a change of the shared state that keeps the value
    of the key, or adds to its history what the thread no longer has to do. *)
Lemma key_inv_update k total st st' i th pc us :
  key_inv k total st → mm_threads st' = mm_threads st → mm_threads st !! i = Some th →
  (∀ p t c, published st' p → mm_tables st' !! p = Some t → t !! k = Some c →
    ∃ td, mm_tables st' !! mm_data st' = Some td ∧ td !! k = Some c) →
  default V_default (mm_value st' k) = foldl (flip apply) (default V_default (mm_value st k)) us →
  (is_Some (mm_value st k) → is_Some (mm_value st' k)) →
  (is_Some (mm_value st' k) → ∃ us, OpStore k us ∈ th_op <$> mm_threads st) →
  remaining k th ≡ₚ us ++ remaining k (mk_Thread (th_op th) pc) →
  (∀ us, th_op th = OpStore k us → started pc = true → is_Some (mm_value st' k)) →
  key_inv k total (set_pc i pc st').
Proof.
  intros [Hkept (hist&Hval&Hperm) Hpres Hst] Hths Hi Hkept' Hval' Hsome Hst' Hrem Hself. constructor.
  - done.
  - exists (hist ++ us). change (mm_value (set_pc i pc st') k) with (mm_value st' k).
    rewrite Hval', Hval, foldl_app. split; [done|]. rewrite <-Hths in Hi.
    destruct (remaining_split k st' i th pc Hi) as [H1 H2]. rewrite H2. rewrite <-Hths, H1, Hrem in Hperm.
    rewrite <-Hperm. by rewrite <-!app_assoc.
  - change (mm_value (set_pc i pc st') k) with (mm_value st' k).
    intros j th' us' [(->&Hpc&th0&Hi'&Hop)|[Hne Hj]]%lookup_set_pc Hop' Hstart; rewrite Hths in *.
    + assert (th0 = th) as -> by congruence. rewrite Hpc in Hstart. eapply Hself; [|done]. by rewrite <-Hop.
    + eauto.
  - rewrite ops_set_pc, Hths. done.
Qed.

Lemma key_inv_local k total st i th pc :
  key_inv k total st → mm_threads st !! i = Some th → remaining k th = remaining k (mk_Thread (th_op th) pc) →
  (∀ us, th_op th = OpStore k us → started pc = true → is_Some (mm_value st k)) → key_inv k total (set_pc i pc st).
Proof.
  intros Hk Hi Hrem Hself. apply (key_inv_update k total st st i th pc []); try done; [apply Hk|apply Hk|by rewrite Hrem].
Qed.

(** Every value in a table has its cell. *)
Lemma inv_cell owner st p t k c : mm_inv owner st → mm_tables st !! p = Some t → t !! k = Some c → is_Some (mm_cells st !! c).
Proof.
  intros Hinv Hp Hk. apply lookup_lt_is_Some. rewrite <-(inv_owner_len _ _ Hinv). eapply lookup_lt_Some.
  by eapply (inv_owner _ _ Hinv).
Qed.

Lemma mm_value_Some st k td c v :
  mm_tables st !! mm_data st = Some td → td !! k = Some c → mm_cells st !! c = Some v → mm_value st k = Some v.
Proof. intros Hd Hk Hv. unfold mm_value. rewrite Hd. cbn. rewrite Hk. done. Qed.

Lemma key_inv_alloc owner k total st i th p a t' cs st' :
  mm_inv owner st → key_inv k total st → mm_threads st !! i = Some th → th_pc th = PLoaded p →
  alloc i p a t' (set_cells (mm_cells st ++ cs) st) = Some st' → key_inv k total st'.
Proof.
  intros Hinv Hk Hi Hpc Halloc. unfold alloc in Halloc. cbn in Halloc. destruct (mm_tables st !! a) eqn:Ha; [done|].
  injection Halloc as <-. pose proof (inv_data _ _ Hinv) as [td Hd].
  assert (Hval : mm_value (set_tables (<[a:=t']> (mm_tables st)) (set_cells (mm_cells st ++ cs) st)) k = mm_value st k).
  { unfold mm_value. cbn. rewrite lookup_insert_ne by congruence. rewrite Hd. cbn. destruct (td !! k) as [c|] eqn:Hc; [|done]. cbn.
    destruct (inv_cell _ _ _ _ _ _ Hinv Hd Hc) as [v Hv]. rewrite Hv. by apply lookup_app_l_Some. }
  apply (key_inv_update k total st _ i th _ []); rewrite ?Hval; try done.
  - intros q u c Hq. cbn. assert (q ≠ a).
    { intros ->. destruct Hq as [Hq|Hq]; cbn in Hq; [congruence|]. apply (inv_retired _ _ Hinv) in Hq. rewrite Ha in Hq. by destruct Hq. }
    rewrite !lookup_insert_ne by congruence. intros Hu Hc. by eapply (ki_kept _ _ _ Hk).
  - apply Hk.
  - unfold remaining. by rewrite Hpc.
Qed.

Lemma key_inv_on_loaded owner k total st i th p a st' :
  mm_inv owner st → key_inv k total st → mm_threads st !! i = Some th → th_pc th = PLoaded p →
  on_loaded i (th_op th) p a st = Some st' → key_inv k total st'.
Proof.
  intros Hinv Hk Hi Hpc Hstep. pose proof (inv_threads _ _ Hinv i th Hi) as Hheld. unfold th_ok in Hheld. rewrite Hpc in Hheld.
  destruct (held_alive _ _ _ Hheld) as [t Ht]. unfold on_loaded in Hstep. rewrite Ht in Hstep.
  assert (Hst : set_cells (mm_cells st ++ []) st = st) by (destruct st; unfold set_cells; cbn; by rewrite app_nil_r).
  destruct (th_op th) as [k' us|k'|k'|] eqn:Hop.
  - destruct (t !! k') as [c|] eqn:Hc; [|by eapply key_inv_alloc]. injection Hstep as <-. eapply key_inv_local; [done..| |].
    + unfold remaining. rewrite Hpc. cbn. by rewrite Hop.
    + intros us' Heq _. rewrite Hop in Heq. injection Heq as <- _. destruct (ki_kept _ _ _ Hk p t c) as (td&Hd&Hdc); [|done..|].
      { destruct Hheld as [_ [?|(?&?&_)]]; [by left|right; eauto]. }
      destruct (inv_cell _ _ _ _ _ _ Hinv Hd Hdc) as [v Hv]. rewrite (mm_value_Some st k' td c v); eauto.
  - injection Hstep as <-. eapply key_inv_local; [done..| |]; [|by rewrite Hop]. unfold remaining. by rewrite Hpc, Hop.
  - eapply key_inv_alloc; [done..|]. rewrite Hst. exact Hstep.
  - injection Hstep as <-. eapply key_inv_local; [done..| |]; [|by rewrite Hop]. unfold remaining. by rewrite Hpc, Hop.
Qed.

Lemma key_inv_on_update owner k total st i th p c rest :
  mm_inv owner st → key_inv k total st → mm_threads st !! i = Some th → th_pc th = PModify p c rest →
  key_inv k total (on_update i p c rest st).
Proof.
  intros Hinv Hk Hi Hpc. pose proof (inv_threads _ _ Hinv i th Hi) as Hok. unfold th_ok in Hok. rewrite Hpc in Hok.
  destruct Hok as (Hheld&k0&us'&t&Hop&Ht&Hc). unfold on_update. destruct rest as [|u rest].
  { eapply key_inv_local; [done..| |].
    - unfold remaining. rewrite Hpc, Hop. cbn. by case_decide.
    - intros us Hus _. eapply (ki_present _ _ _ Hk); [done..|]. by rewrite Hpc. }
  destruct (inv_cell _ _ _ _ _ _ Hinv Ht Hc) as [v Hv]. rewrite Ht, Hv. pose proof (inv_data _ _ Hinv) as [td Hd].
  set (st1 := set_cells (<[c:=apply u v]> (mm_cells st)) st).
  assert (Hrem : remaining k th = op_updates k (OpStore k0 [u]) ++ remaining k (mk_Thread (th_op th) (PModify p c rest))).
  { unfold remaining. rewrite Hpc, Hop. cbn. by case_decide. }
  destruct (decide (k0 = k)) as [->|Hne].
  - assert (Hdc : td !! k = Some c).
    { destruct (ki_kept _ _ _ Hk p t c) as (td'&Hd'&?); [|done..|congruence].
      destruct Hheld as [_ [?|(?&?&_)]]; [by left|right; eauto]. }
    assert (Hval : mm_value st k = Some v) by by eapply mm_value_Some.
    assert (Hval' : mm_value st1 k = Some (apply u v)).
    { eapply mm_value_Some; [done..|]. cbn. apply list_lookup_insert_eq. by eapply lookup_lt_Some. }
    apply (key_inv_update k total st st1 i th _ [u]); rewrite ?Hval, ?Hval'; try done; [apply Hk| |].
    + intros _. apply Hk. by rewrite Hval.
    + rewrite Hrem. cbn. by rewrite decide_True.
  - assert (Hval : mm_value st1 k = mm_value st k).
    { unfold mm_value. cbn. rewrite Hd. cbn. destruct (td !! k) as [c'|] eqn:Hdc; [|done]. cbn. apply list_lookup_insert_ne.
      intros ->. pose proof (inv_owner _ _ Hinv _ _ _ _ Ht Hc). pose proof (inv_owner _ _ Hinv _ _ _ _ Hd Hdc). congruence. }
    apply (key_inv_update k total st st1 i th _ []); rewrite ?Hval; try done; [apply Hk|apply Hk| |].
    + rewrite Hrem. cbn. by rewrite decide_False.
    + intros us Hus. rewrite Hop in Hus. congruence.
Qed.

(** A table that is published keeps the cell of a key that is not deleted, or adds it. *)
Lemma key_inv_on_cas owner k total st i th p a :
  mm_inv owner st → key_inv k total st → mm_threads st !! i = Some th → th_pc th = PCas p a → th_op th ≠ OpDelete k →
  key_inv k total (on_cas i p a st).
Proof.
  intros Hinv Hk Hi Hpc Hnodel. pose proof (inv_threads _ _ Hinv i th Hi) as Hok. unfold th_ok in Hok. rewrite Hpc in Hok.
  destruct Hok as (Hheld&[Ha1 Ha2]&t&Ht&Hm). unfold on_cas. case_decide as Hcas.
  - subst p. set (st1 := mk_MetricMap _ _ _ _ _).
    assert (∃ ta, mm_tables st !! a = Some ta ∧ ∀ c, t !! k = Some c → ta !! k = Some c) as (ta&Hta&Hkeep).
    { destruct (th_op th) as [k' us| |k'|]; try done.
      - destruct Hm as (Hno&c&Hta&_). eexists. split; [done|]. intros c' Hc'. rewrite lookup_insert_ne; [done|]. congruence.
      - eexists. split; [done|]. intros c' Hc'. rewrite lookup_delete_ne; [done|]. congruence. }
    assert (Hpub : ∀ q, published st1 q → q = a ∨ published st q).
    { intros q [->|Hq]; [by left|right]. cbn in Hq. destruct (decide (q = mm_data st)) as [->|Hne]; [by left|].
      rewrite lookup_insert_ne in Hq by done. by right. }
    assert (Hkept : ∀ q t' c, published st1 q → mm_tables st1 !! q = Some t' → t' !! k = Some c →
      ∃ td, mm_tables st1 !! mm_data st1 = Some td ∧ td !! k = Some c).
    { intros q t' c [->|Hq]%Hpub; cbn; intros Hq' Hc; [eauto|]. destruct (ki_kept _ _ _ Hk q t' c) as (td&Hd&Hdc); [done..|].
      exists ta. split; [done|]. apply Hkeep. congruence. }
    assert (Hother : mm_value st1 k = mm_value st k → remaining k th = [] → (∀ us, th_op th ≠ OpStore k us) → key_inv k total (set_pc i (PDone RUnit) st1)).
    { intros Hval Hrem Hno. apply (key_inv_update k total st st1 i th _ []); rewrite ?Hval; try done; [apply Hk|by rewrite Hrem|].
      intros us Hus. by destruct (Hno us). }
    destruct (th_op th) as [k' us| |k'|] eqn:Hop; try done.
    + destruct Hm as (Hno&c&Hta'&Hcell&Hpriv). assert (ta = <[k':=c]> t) as -> by congruence. destruct (decide (k' = k)) as [->|Hne].
      * assert (Hval : mm_value st k = None) by (unfold mm_value; rewrite Ht; cbn; by rewrite Hno).
        assert (Hval' : mm_value st1 k = Some (foldl (flip apply) V_default us)).
        { eapply mm_value_Some; [done| |done]. apply lookup_insert_eq. }
        apply (key_inv_update k total st st1 i th _ us); rewrite ?Hval, ?Hval'; try done.
        -- intros _. exists us. rewrite <-Hop. apply list_elem_of_fmap_2. by eapply list_elem_of_lookup_2.
        -- unfold remaining. rewrite Hpc, Hop. cbn. rewrite decide_True by done. by rewrite app_nil_r.
      * apply Hother; [|unfold remaining; rewrite Hpc, Hop; cbn; by rewrite decide_False|congruence].
        unfold mm_value. cbn. rewrite Hta, Ht. cbn. by rewrite lookup_insert_ne.
    + assert (ta = delete k' t) as -> by congruence. apply Hother; [|unfold remaining; by rewrite Hpc, Hop|done].
      unfold mm_value. cbn. rewrite Hta, Ht. cbn. rewrite lookup_delete_ne by congruence. done.
  - pose proof (inv_data _ _ Hinv) as [td Hd].
    assert (Hval : mm_value (set_tables (delete a (mm_tables st)) st) k = mm_value st k).
    { unfold mm_value. cbn. by rewrite lookup_delete_ne. }
    apply (key_inv_update k total st _ i th _ []); rewrite ?Hval; try done; [|apply Hk|unfold remaining; by rewrite Hpc].
    cbn. intros q t' c Hq [_ Ht']%lookup_delete_Some Hc. rewrite lookup_delete_ne by done. by eapply (ki_kept _ _ _ Hk).
Qed.

Lemma key_inv_step owner k total st st' :
  mm_inv owner st → key_inv k total st → OpDelete k ∉ th_op <$> mm_threads st → mm_step st st' → key_inv k total st'.
Proof.
  intros Hinv Hk Hnodel [[i a|p] Hstep]; cbn in Hstep.
  - destruct (mm_threads st !! i) as [th|] eqn:Hi; [|done]. cbn in Hstep.
    assert (th_op th ≠ OpDelete k).
    { intros Heq. apply Hnodel. rewrite <-Heq. apply list_elem_of_fmap_2. by eapply list_elem_of_lookup_2. }
    destruct (th_pc th) as [| |q|q c us|q b| |] eqn:Hpc; try done.
    + injection Hstep as <-. eapply key_inv_local; [done..| |done]. unfold remaining. by rewrite Hpc.
    + injection Hstep as <-. eapply key_inv_local; [done..| |done]. unfold remaining. by rewrite Hpc.
    + by eapply key_inv_on_loaded.
    + injection Hstep as <-. by eapply key_inv_on_update.
    + injection Hstep as <-. by eapply key_inv_on_cas.
  - destruct (mm_retired st !! p) as [waiting|] eqn:Hp; [|done]. cbn in Hstep. destruct (forallb _ _) in Hstep; [|done].
    injection Hstep as <-. assert (p ≠ mm_data st) by (intros ->; by rewrite (inv_current _ _ Hinv) in Hp).
    assert (Hval : ∀ r t, mm_value (mk_MetricMap (mm_data st) (delete p (mm_tables st)) r (mm_cells st) t) k = mm_value st k).
    { intros. unfold mm_value. cbn. by rewrite lookup_delete_ne. }
    destruct Hk as [Hkept Hhist Hpres Hst]. constructor; rewrite ?Hval; try done. cbn. intros q t c Hq [_ Ht]%lookup_delete_Some Hc.
    rewrite lookup_delete_ne by done. eapply Hkept; [|done..]. destruct Hq as [->|[s Hq]]; [by left|right]. cbn in Hq. apply lookup_delete_Some in Hq as [_ Hq]. eauto.
Qed.

Lemma step_ops st st' : mm_step st st' → th_op <$> mm_threads st' = th_op <$> mm_threads st.
Proof.
  intros [[i a|p] Hstep]; cbn in Hstep.
  - destruct (mm_threads st !! i) as [th|] eqn:Hi; [|done]. cbn in Hstep.
    destruct (th_pc th) as [| |q|q c us|q b| |] eqn:Hpc; try done.
    + injection Hstep as <-. apply ops_set_pc.
    + injection Hstep as <-. apply ops_set_pc.
    + unfold on_loaded, alloc in Hstep. repeat case_match; simplify_eq; by rewrite ops_set_pc.
    + injection Hstep as <-. unfold on_update. repeat case_match; by rewrite ops_set_pc.
    + injection Hstep as <-. unfold on_cas. case_decide; by rewrite ops_set_pc.
  - destruct (mm_retired st !! p); [|done]. cbn in Hstep. case_match; [|done]. by simplify_eq.
Qed.

Definition total_updates (k : K) (ops : list MapOp) : list U := concat (op_updates k <$> ops).

Lemma key_inv_new k ops : key_inv k (total_updates k ops) (MetricMap_new ops).
Proof.
  assert (Hval : mm_value (MetricMap_new ops) k = None) by done. constructor; rewrite ?Hval.
  - intros p t c [->|[? ?]]; cbn; [|done]. intros [= <-]. by intros ?%lookup_empty_Some.
  - exists []. split; [done|]. cbn. unfold total_updates. by rewrite <-list_fmap_compose.
  - intros i th us. cbn. rewrite list_lookup_fmap, fmap_Some. by intros (?&_&->).
  - by intros [].
Qed.

Lemma reachable_inv ops st :
  rtc mm_step (MetricMap_new ops) st →
  th_op <$> mm_threads st = ops ∧ (∃ owner, mm_inv owner st) ∧ ∀ k, OpDelete k ∉ ops → key_inv k (total_updates k ops) st.
Proof.
  assert (Hinit : th_op <$> mm_threads (MetricMap_new ops) = ops) by (cbn; rewrite <-list_fmap_compose; by apply list_fmap_id).
  assert (Hgo : ∀ st0, rtc mm_step st0 st → th_op <$> mm_threads st0 = ops → (∃ owner, mm_inv owner st0) →
    (∀ k, OpDelete k ∉ ops → key_inv k (total_updates k ops) st0) →
    th_op <$> mm_threads st = ops ∧ (∃ owner, mm_inv owner st) ∧ ∀ k, OpDelete k ∉ ops → key_inv k (total_updates k ops) st).
  { intros st0 Hsteps. induction Hsteps as [|st1 st2 st3 Hstep _ IH]; intros Hops [owner Hinv] Hk; [eauto|]. apply IH.
    - by rewrite (step_ops _ _ Hstep).
    - destruct (mm_inv_step _ _ _ Hinv Hstep). eauto.
    - intros k Hnodel. eapply key_inv_step; eauto. by rewrite Hops. }
  intros Hsteps. apply (Hgo _ Hsteps); [done| |].
  - exists []. apply mm_inv_new.
  - intros k _. apply key_inv_new.
Qed.

(** *** Termination *)

(** The threads that may still publish a table, and the steps that the threads have left
    before the next publication. *)
Definition may_publish pc : nat := match pc with PStart | PLoop | PLoaded _ | PCas _ _ => 1 | _ => 0 end.
Definition op_len op : nat := match op with OpStore _ us => length us | _ => 0 end.
Definition steps_left (data : Ptr) th : nat :=
  match th_pc th with
  | PStart => op_len (th_op th) + 6
  | PLoop => op_len (th_op th) + 5
  | PLoaded p => op_len (th_op th) + if decide (p = data) then 4 else 7
  | PCas p _ => op_len (th_op th) + if decide (p = data) then 3 else 6
  | PModify _ _ rest => length rest + 1
  | PDone _ | PFault => 0
  end.

Definition publishers st : nat := sum_list (may_publish ∘ th_pc <$> mm_threads st).
Definition work st : nat := size (mm_retired st) + sum_list (steps_left (mm_data st) <$> mm_threads st).

Lemma sum_set_pc (f : Thread → nat) i pc st th :
  mm_threads st !! i = Some th →
  sum_list (f <$> mm_threads (set_pc i pc st)) + f th = sum_list (f <$> mm_threads st) + f (mk_Thread (th_op th) pc).
Proof.
  intros Hi. assert (Hperm : ∀ l1 l2 : list Thread, l1 ≡ₚ l2 → sum_list (f <$> l1) = sum_list (f <$> l2)).
  { intros l1 l2 Hl. by rewrite Hl. }
  cbn. rewrite (alter_insert _ _ _ th Hi).
  rewrite (Hperm (<[i:=_]> (mm_threads st)) _ (insert_delete_perm i _ _ (lookup_lt_Some _ _ _ Hi))).
  rewrite (Hperm (mm_threads st) _ (delete_perm i th _ Hi)). cbn. lia.
Qed.

(** Either a thread that could publish no longer can, or the data stays and there is less
    work. *)
Lemma step_decreases st st' : mm_step st st' → publishers st' < publishers st ∨ (publishers st' = publishers st ∧ work st' < work st).
Proof.
  intros [[i a|p] Hstep]; cbn in Hstep.
  - destruct (mm_threads st !! i) as [th|] eqn:Hi; [|done]. cbn in Hstep.
    assert (Hpub : ∀ st1 pc, mm_threads st1 = mm_threads st →
      publishers (set_pc i pc st1) + may_publish (th_pc th) = publishers st + may_publish pc).
    { intros st1 pc Hths. unfold publishers. rewrite <-Hths. rewrite <-Hths in Hi. apply (sum_set_pc (may_publish ∘ th_pc) i pc st1 th Hi). }
    assert (Hwork : ∀ st1 pc, mm_threads st1 = mm_threads st → mm_data st1 = mm_data st → mm_retired st1 = mm_retired st →
      work (set_pc i pc st1) + steps_left (mm_data st) th = work st + steps_left (mm_data st) (mk_Thread (th_op th) pc)).
    { intros st1 pc Hths Hd Hr. unfold work. cbn [set_pc mm_data mm_retired]. rewrite Hd, Hr. rewrite <-Hths in Hi.
      pose proof (sum_set_pc (steps_left (mm_data st)) i pc st1 th Hi) as Hsum. rewrite <-Hths. cbn in *. lia. }
    destruct (th_pc th) as [| |q|q c us|q b| |] eqn:Hpc; try done.
    + injection Hstep as <-. right. pose proof (Hpub st PLoop eq_refl). pose proof (Hwork st PLoop eq_refl eq_refl eq_refl).
      unfold steps_left in *. rewrite Hpc in *. cbn in *. lia.
    + injection Hstep as <-. right. pose proof (Hpub st (PLoaded (mm_data st)) eq_refl).
      pose proof (Hwork st (PLoaded (mm_data st)) eq_refl eq_refl eq_refl) as Hw.
      unfold steps_left in Hw. rewrite Hpc in Hw. cbn in *. rewrite decide_True in Hw by done. lia.
    + unfold on_loaded, alloc in Hstep.
      repeat case_match; simplify_eq;
        try (left; lazymatch goal with |- publishers (set_pc _ ?pc ?s) < _ => pose proof (Hpub s pc eq_refl) end; cbn in *; lia).
      all: right; lazymatch goal with |- publishers (set_pc _ ?pc ?s) = _ ∧ _ =>
        pose proof (Hpub s pc eq_refl); pose proof (Hwork s pc eq_refl eq_refl eq_refl) as Hw end.
      all: unfold steps_left in Hw; rewrite Hpc in Hw; cbn in *; try match goal with Hop : th_op _ = _ |- _ => rewrite Hop in Hw; cbn in Hw end; case_decide; lia.
    + injection Hstep as <-. right. unfold on_update.
      destruct us as [|u us]; [|destruct (mm_tables st !! q); [destruct (mm_cells st !! c)|]];
      lazymatch goal with |- publishers (set_pc _ ?pc ?s) = _ ∧ _ =>
        pose proof (Hpub s pc eq_refl); pose proof (Hwork s pc eq_refl eq_refl eq_refl) as Hw end;
      unfold steps_left in Hw; rewrite Hpc in Hw; cbn in *; lia.
    + injection Hstep as <-. unfold on_cas. case_decide as Hcas.
      * left. lazymatch goal with |- publishers (set_pc _ ?pc ?s) < _ => pose proof (Hpub s pc eq_refl) end. cbn in *. lia.
      * right. lazymatch goal with |- publishers (set_pc _ ?pc ?s) = _ ∧ _ =>
          pose proof (Hpub s pc eq_refl); pose proof (Hwork s pc eq_refl eq_refl eq_refl) as Hw end.
        unfold steps_left in Hw. rewrite Hpc in Hw. cbn in *. rewrite decide_False in Hw by congruence. lia.
  - destruct (mm_retired st !! p) as [s|] eqn:Hp; [|done]. cbn in Hstep. case_match; [|done]. simplify_eq. right. split; [done|].
    unfold work. cbn. rewrite map_size_delete, Hp. assert (size (mm_retired st) ≠ 0).
    { intros Hz. apply map_size_empty_inv in Hz. rewrite Hz in Hp. done. } lia.
Qed.

Lemma mm_terminates st : sn mm_step st.
Proof.
  remember (publishers st) as n eqn:Hn. revert st Hn. induction (lt_wf n) as [n _ IHn]. intros st ->.
  remember (work st) as w eqn:Hw. revert st IHn Hw. induction (lt_wf w) as [w _ IHw]. intros st IHn ->.
  constructor. intros st' Hstep. destruct (step_decreases _ _ Hstep) as [Hlt|[Heq Hlt]].
  - by eapply IHn.
  - eapply IHw; [done| |done]. by rewrite Heq.
Qed.

(** As long as an operation is not done, its thread has a step. *)
Lemma mm_progress owner st : mm_inv owner st → all_done st ∨ ∃ st', mm_step st st'.
Proof.
  intros Hinv. unfold all_done. destruct (decide (Forall (λ th, pc_done (th_pc th) = true) (mm_threads st))) as [|Hno]; [by left|right].
  apply not_Forall_Exists in Hno; [|intros ?; apply _]. apply Exists_exists in Hno as (th&Hin&Hnd).
  change (pc_done (th_pc th) ≠ true) in Hnd. apply list_elem_of_lookup_1 in Hin as [i Hi]. pose proof (inv_threads _ _ Hinv i th Hi) as Hok.
  assert (∃ st', mm_exec (Run i (fresh (dom (mm_tables st)))) st = Some st') as [st' ?]; [|by exists st'; eexists].
  pose proof (is_fresh (dom (mm_tables st))) as Hf%not_elem_of_dom. cbn. rewrite Hi. cbn. unfold th_ok in Hok.
  destruct (th_pc th); try done; [eauto|eauto| |eauto|eauto]. unfold on_loaded. destruct Hok as [[t ->] _].
  unfold alloc. destruct (th_op th); cbn; rewrite ?Hf; [case_match|..]; eauto.
Qed.

(** ** Properties of the map *)

(** Whatever the schedule and the addresses that the allocator reuses, no thread uses a
    table or a cell that was freed. *)
Theorem metricmap_memory_safe ops st :
  rtc mm_step (MetricMap_new ops) st → Forall (λ th, th_pc th ≠ PFault) (mm_threads st).
Proof.
  intros (_&[owner Hinv]&_)%reachable_inv. apply Forall_lookup. intros i th Hi Hpc.
  pose proof (inv_threads _ _ Hinv i th Hi) as Hok. unfold th_ok in Hok. by rewrite Hpc in Hok.
Qed.

(** Every schedule is finite, and however it begins it can only end with all operations
    done. *)
Theorem metricmap_completes ops :
  sn mm_step (MetricMap_new ops) ∧
  ∀ st, rtc mm_step (MetricMap_new ops) st → nf mm_step st → all_done st.
Proof.
  split; [apply mm_terminates|]. intros st (_&[owner Hinv]&_)%reachable_inv Hnf.
  destruct (mm_progress _ _ Hinv) as [|Hstep]; [done|]. by destruct Hnf.
Qed.

(** The value of a key when the operations are done: the updates of the key, each applied
    once, in some order. *)
Lemma final_value ops st k :
  rtc mm_step (MetricMap_new ops) st → all_done st → OpDelete k ∉ ops →
  ((∃ us, OpStore k us ∈ ops) ↔ is_Some (mm_value st k)) ∧
  ∃ hist, hist ≡ₚ total_updates k ops ∧ default V_default (mm_value st k) = foldl (flip apply) V_default hist.
Proof.
  intros (Hops&_&Hk)%reachable_inv Hdone Hnodel. specialize (Hk k Hnodel). split.
  - split; [|intros Hs; rewrite <-Hops; by apply Hk]. intros [us Hus]. rewrite <-Hops in Hus.
    apply list_elem_of_fmap in Hus as (th&Hop&[i Hi]%list_elem_of_lookup_1). eapply (ki_present _ _ _ Hk); [done..|].
    unfold all_done in Hdone. rewrite Forall_lookup in Hdone. apply Hdone in Hi. by destruct (th_pc th).
  - destruct (ki_history _ _ _ Hk) as (hist&Hval&Hperm). exists hist. split; [|done]. rewrite <-Hperm.
    assert (concat (remaining k <$> mm_threads st) = []) as ->; [|by rewrite app_nil_r].
    clear -Hdone. unfold all_done in Hdone. induction Hdone as [|th ths Hth _ IH]; [done|]. cbn. rewrite IH.
    unfold remaining. by destruct (th_pc th).
Qed.

(** When all operations are done, a key that nobody deletes is in the map exactly if
    somebody stored to it, and each update of it was applied once. *)
Theorem metricmap_updates ops st k (Hsteps : rtc mm_step (MetricMap_new ops) st) (Hdone : all_done st) (Hkept : OpDelete k ∉ ops) :
  ((∃ us, OpStore k us ∈ ops) ↔ is_Some (mm_value st k)) ∧
  ∃ hist, hist ≡ₚ total_updates k ops ∧ default V_default (mm_value st k) = foldl (flip apply) V_default hist.
Proof. by apply final_value. Qed.

(** The operations one after the other. *)
Definition seq_op op (m : gmap K C) : gmap K C :=
  match op with
  | OpStore k us => store_or_modify k us m
  | OpDelete k => delete k m
  | OpLoad _ | OpIterator => m
  end.

Lemma seq_ops_value ops m k :
  OpDelete k ∉ ops →
  default V_default (foldl (flip seq_op) m ops !! k) = foldl (flip apply) (default V_default (m !! k)) (total_updates k ops) ∧
  (is_Some (foldl (flip seq_op) m ops !! k) ↔ is_Some (m !! k) ∨ ∃ us, OpStore k us ∈ ops).
Proof.
  revert m. induction ops as [|op ops IH]; intros m Hk.
  { cbn. split; [done|]. split; [by left|]. intros [|[us []%not_elem_of_nil]]; done. }
  apply not_elem_of_cons in Hk as [Hop Hk]. cbn [foldl]. destruct (IH (flip seq_op m op) Hk) as [-> IHsome]. rewrite IHsome.
  clear IH IHsome. unfold total_updates. cbn [fmap list_fmap concat]. rewrite foldl_app. setoid_rewrite elem_of_cons.
  assert (Hno : (∀ us, OpStore k us ≠ op) → ((∃ us, OpStore k us = op ∨ OpStore k us ∈ ops) ↔ ∃ us, OpStore k us ∈ ops)).
  { intros Hne. split; intros [us Hus]; exists us; [|by right]. by destruct Hus as [?%Hne|]. }
  destruct op as [k' us|k'|k'|]; cbn; unfold store_or_modify.
  - destruct (decide (k' = k)) as [->|Hne].
    + rewrite lookup_insert_eq. split; [done|]. split; [|eauto]. intros _. right. eauto.
    + rewrite lookup_insert_ne by done. rewrite Hno by congruence. done.
  - by rewrite Hno.
  - rewrite lookup_delete_ne by congruence. by rewrite Hno.
  - by rewrite Hno.
Qed.

Lemma foldl_apply_perm (Hcomm : ∀ u v c, apply u (apply v c) = apply v (apply u c)) us us' c :
  us ≡ₚ us' → foldl (flip apply) c us = foldl (flip apply) c us'.
Proof.
  intros Hp. revert c. induction Hp as [|u us us' _ IH|u v us|us us' us'' _ IH1 _ IH2]; intros c; cbn; [done|by rewrite IH| |].
  - by rewrite Hcomm.
  - by rewrite IH1.
Qed.

(** If updates commute, the concurrent map ends like the operations one after the other. *)
Lemma metricmap_sequential ops st (Hcomm : ∀ u v c, apply u (apply v c) = apply v (apply u c))
    (Hsteps : rtc mm_step (MetricMap_new ops) st) (Hdone : all_done st) k (Hkept : OpDelete k ∉ ops) :
  mm_value st k = foldl (flip seq_op) ∅ ops !! k.
Proof.
  destruct (final_value ops st k) as [Hsome (hist&Hperm&Hval)]; [done..|].
  destruct (seq_ops_value ops ∅ k Hkept) as [Hseq Hseqsome]. rewrite lookup_empty in Hseq, Hseqsome. cbn in Hseq.
  rewrite (foldl_apply_perm Hcomm _ _ _ Hperm), <-Hseq in Hval.
  destruct (mm_value st k) as [v|], (foldl _ ∅ ops !! k) as [v'|]; cbn in Hval; [by subst| | |done].
  - destruct Hseqsome as [_ Hs]. destruct Hs as [? [=]]. right. by apply Hsome.
  - destruct Hsome as [Hs _]. destruct Hs as [? [=]]. destruct Hseqsome as [Hs' _]. destruct Hs' as [[? [=]]|?]; eauto.
Qed.
End metricmap.

Arguments MapOp : clear implicits.
Arguments Thread K {_ _} U.
Arguments MetricMap K {_ _} C U.

(** ** Traffic counters: [metric.rs] *)

(** Counters are [usize], with 64 bits. *)
Definition fetch_add (a n : Z) : Z := ((a + n) mod 2 ^ 64)%Z.

Record RecordByte := mk_RecordByte { bytes_recv : Z; bytes_sent : Z }.
Record RecordByteAndPacket := mk_RecordByteAndPacket { rb_r : RecordByte; packets_recv : Z; packets_sent : Z }.

Definition RecordByte_default : RecordByte := mk_RecordByte 0 0.
Definition RecordByteAndPacket_default : RecordByteAndPacket := mk_RecordByteAndPacket RecordByte_default 0 0.

(** The atomic additions. *)
Inductive ByteAdd := BytesRecv (n : Z) | BytesSent (n : Z).
Inductive PacketAdd := Bytes (u : ByteAdd) | PacketRecv | PacketSent.

Definition byte_add (u : ByteAdd) (r : RecordByte) : RecordByte :=
  match u with
  | BytesRecv n => mk_RecordByte (fetch_add (bytes_recv r) n) (bytes_sent r)
  | BytesSent n => mk_RecordByte (bytes_recv r) (fetch_add (bytes_sent r) n)
  end.
Definition packet_add (u : PacketAdd) (r : RecordByteAndPacket) : RecordByteAndPacket :=
  match u with
  | Bytes u => mk_RecordByteAndPacket (byte_add u (rb_r r)) (packets_recv r) (packets_sent r)
  | PacketRecv => mk_RecordByteAndPacket (rb_r r) (fetch_add (packets_recv r) 1) (packets_sent r)
  | PacketSent => mk_RecordByteAndPacket (rb_r r) (packets_recv r) (fetch_add (packets_sent r) 1)
  end.

(** [add_sent] and [add_received] of the two records. *)
Definition rb_add_sent (n : Z) : list ByteAdd := [BytesSent n].
Definition rb_add_received (n : Z) : list ByteAdd := [BytesRecv n].
Definition add_sent (n : Z) : list PacketAdd := (Bytes <$> rb_add_sent n) ++ [PacketSent].
Definition add_received (n : Z) : list PacketAdd := (Bytes <$> rb_add_received n) ++ [PacketRecv].

Section metric.
Context {PeerId : Type} `{Countable PeerId}.

Record Metric := mk_Metric {
  node_stat : RecordByteAndPacket;
  group_by_peer : gmap PeerId RecordByteAndPacket;
  group_by_protocol : gmap string RecordByte
}.

Definition Metric_new : Metric := mk_Metric RecordByteAndPacket_default ∅ ∅.

Definition log_recv_msg (n : Z) (m : Metric) : Metric :=
  mk_Metric (foldl (flip packet_add) (node_stat m) (add_received n)) (group_by_peer m) (group_by_protocol m).
Definition log_sent_msg (n : Z) (m : Metric) : Metric :=
  mk_Metric (foldl (flip packet_add) (node_stat m) (add_sent n)) (group_by_peer m) (group_by_protocol m).

Definition log_sent_stream (protocol : string) (count : Z) (peer_id : PeerId) (m : Metric) : Metric :=
  mk_Metric (node_stat m)
    (store_or_modify RecordByteAndPacket_default packet_add peer_id (add_sent count) (group_by_peer m))
    (store_or_modify RecordByte_default byte_add protocol (rb_add_sent count) (group_by_protocol m)).
Definition log_recv_stream (protocol : string) (count : Z) (peer_id : PeerId) (m : Metric) : Metric :=
  mk_Metric (node_stat m)
    (store_or_modify RecordByteAndPacket_default packet_add peer_id (add_received count) (group_by_peer m))
    (store_or_modify RecordByte_default byte_add protocol (rb_add_received count) (group_by_protocol m)).

Definition get_recv_count_and_size (m : Metric) : Z * Z := (packets_recv (node_stat m), bytes_recv (rb_r (node_stat m))).
Definition get_sent_count_and_size (m : Metric) : Z * Z := (packets_sent (node_stat m), bytes_sent (rb_r (node_stat m))).
Definition get_protocol_in_and_out (m : Metric) (protocol_id : string) : option Z * option Z :=
  (bytes_recv <$> group_by_protocol m !! protocol_id, bytes_sent <$> group_by_protocol m !! protocol_id).
Definition get_peer_in_and_out (m : Metric) (peer_id : PeerId) : option Z * option Z :=
  (bytes_recv ∘ rb_r <$> group_by_peer m !! peer_id, bytes_sent ∘ rb_r <$> group_by_peer m !! peer_id).
Definition get_peers_in_list (m : Metric) : gmap PeerId Z := bytes_recv ∘ rb_r <$> group_by_peer m.
Definition get_peers_out_list (m : Metric) : gmap PeerId Z := bytes_sent ∘ rb_r <$> group_by_peer m.
Definition get_protocols_in_list (m : Metric) : gmap string Z := bytes_recv <$> group_by_protocol m.
Definition get_protocols_out_list (m : Metric) : gmap string Z := bytes_sent <$> group_by_protocol m.
Definition get_traffic_by_peer (m : Metric) (peer_id : option PeerId) : option (list (PeerId * RecordByteAndPacket)) :=
  match peer_id with
  | None => Some (map_to_list (group_by_peer m))
  | Some p => r ← group_by_peer m !! p; Some [(p, r)]
  end.

(** A read or a write of a stream of a protocol with a peer. *)
Record Traffic := mk_Traffic { tr_sent : bool; tr_protocol : string; tr_peer : PeerId; tr_count : Z }.

Definition log_traffic (m : Metric) (t : Traffic) : Metric :=
  if tr_sent t then log_sent_stream (tr_protocol t) (tr_count t) (tr_peer t) (log_sent_msg (tr_count t) m)
  else log_recv_stream (tr_protocol t) (tr_count t) (tr_peer t) (log_recv_msg (tr_count t) m).

Definition peer_ops (t : Traffic) : MapOp PeerId PacketAdd :=
  OpStore (tr_peer t) (if tr_sent t then add_sent (tr_count t) else add_received (tr_count t)).

(** *** Properties of the counters *)

Lemma fetch_add_comm a n n' : fetch_add (fetch_add a n) n' = fetch_add (fetch_add a n') n.
Proof. unfold fetch_add. rewrite !Zplus_mod_idemp_l. f_equal. lia. Qed.

Lemma packet_add_comm u v r : packet_add u (packet_add v r) = packet_add v (packet_add u r).
Proof.
  destruct u as [[n|n]| |], v as [[n'|n']| |], r as [[] ? ?]; cbn; unfold byte_add; cbn; do 2 f_equal; by rewrite fetch_add_comm.
Qed.

(** The reports in one direction, and their bytes. *)
Definition reports (sent : bool) (ts : list Traffic) : list Z := tr_count <$> filter (λ t, tr_sent t = sent) ts.
Definition wrap (n : Z) : Z := (n mod 2 ^ 64)%Z.
Definition sum_bytes (sent : bool) (ts : list Traffic) : Z := wrap (foldr Z.add 0%Z (reports sent ts)).
Definition count_reports (sent : bool) (ts : list Traffic) : Z := wrap (Z.of_nat (length (reports sent ts))).

Lemma reports_snoc sent ts t : reports sent (ts ++ [t]) = reports sent ts ++ if decide (tr_sent t = sent) then [tr_count t] else [].
Proof. unfold reports. rewrite filter_app, fmap_app, filter_cons, filter_nil. by case_decide. Qed.

Lemma sum_app (l l' : list Z) : foldr Z.add 0%Z (l ++ l') = (foldr Z.add 0 l + foldr Z.add 0 l')%Z.
Proof. induction l; cbn; lia. Qed.

Lemma sum_bytes_snoc sent ts t :
  sum_bytes sent (ts ++ [t]) = if decide (tr_sent t = sent) then fetch_add (sum_bytes sent ts) (tr_count t) else sum_bytes sent ts.
Proof.
  unfold sum_bytes, fetch_add, wrap. rewrite reports_snoc, sum_app. case_decide; cbn; [|by rewrite Z.add_0_r].
  by rewrite Zplus_mod_idemp_l, Z.add_0_r.
Qed.

Lemma count_reports_snoc sent ts t :
  count_reports sent (ts ++ [t]) = if decide (tr_sent t = sent) then fetch_add (count_reports sent ts) 1 else count_reports sent ts.
Proof.
  unfold count_reports, fetch_add, wrap. rewrite reports_snoc, length_app. case_decide; cbn; [|by rewrite Nat.add_0_r].
  rewrite Zplus_mod_idemp_l. f_equal. lia.
Qed.

Definition record_of (ts : list Traffic) : RecordByteAndPacket :=
  mk_RecordByteAndPacket (mk_RecordByte (sum_bytes false ts) (sum_bytes true ts)) (count_reports false ts) (count_reports true ts).

Lemma record_of_snoc ts t :
  record_of (ts ++ [t]) = foldl (flip packet_add) (record_of ts) (if tr_sent t then add_sent (tr_count t) else add_received (tr_count t)).
Proof.
  unfold record_of. rewrite !sum_bytes_snoc, !count_reports_snoc. by destruct (tr_sent t).
Qed.

Lemma bytes_of_snoc ts t :
  rb_r (record_of (ts ++ [t])) =
    foldl (flip byte_add) (rb_r (record_of ts)) (if tr_sent t then rb_add_sent (tr_count t) else rb_add_received (tr_count t)).
Proof. rewrite record_of_snoc. by destruct (tr_sent t). Qed.

Definition of_peer (p : PeerId) (ts : list Traffic) : list Traffic := filter (λ t, tr_peer t = p) ts.
Definition of_protocol (p : string) (ts : list Traffic) : list Traffic := filter (λ t, tr_protocol t = p) ts.

Lemma metric_records ts :
  let m := foldl log_traffic Metric_new ts in
  node_stat m = record_of ts ∧
  (∀ p, group_by_peer m !! p = match of_peer p ts with [] => None | ts' => Some (record_of ts') end) ∧
  (∀ p, group_by_protocol m !! p = match of_protocol p ts with [] => None | ts' => Some (rb_r (record_of ts')) end).
Proof.
  induction ts as [|t ts IH] using rev_ind; [done|]. cbn zeta in *. rewrite foldl_app. cbn [foldl].
  destruct IH as (Hnode&Hpeer&Hproto). set (m := foldl log_traffic Metric_new ts) in *.
  assert (Hlog : node_stat (log_traffic m t) = record_of (ts ++ [t]) ∧
    group_by_peer (log_traffic m t) = store_or_modify RecordByteAndPacket_default packet_add (tr_peer t)
      (if tr_sent t then add_sent (tr_count t) else add_received (tr_count t)) (group_by_peer m) ∧
    group_by_protocol (log_traffic m t) = store_or_modify RecordByte_default byte_add (tr_protocol t)
      (if tr_sent t then rb_add_sent (tr_count t) else rb_add_received (tr_count t)) (group_by_protocol m)).
  { rewrite record_of_snoc, <-Hnode. unfold log_traffic. by destruct (tr_sent t). }
  destruct Hlog as (->&->&->). split; [done|]. unfold of_peer, of_protocol, store_or_modify in *.
  split; intros p; rewrite filter_app, filter_cons, filter_nil; case_decide as Hp.
  - subst p. rewrite lookup_insert_eq, Hpeer. rewrite <-(app_nil_r (filter _ ts ++ [t])).
    replace (match (filter (λ t0, tr_peer t0 = tr_peer t) ts ++ [t]) ++ [] with [] => None | ts' => Some (record_of ts') end)
      with (Some (record_of (filter (λ t0, tr_peer t0 = tr_peer t) ts ++ [t]))); [|by rewrite app_nil_r; destruct (filter _ ts)].
    rewrite record_of_snoc. by destruct (filter _ ts).
  - rewrite lookup_insert_ne by done. rewrite app_nil_r. apply Hpeer.
  - subst p. rewrite lookup_insert_eq, Hproto.
    replace (match filter (λ t0, tr_protocol t0 = tr_protocol t) ts ++ [t] with [] => None | ts' => Some (rb_r (record_of ts')) end)
      with (Some (rb_r (record_of (filter (λ t0, tr_protocol t0 = tr_protocol t) ts ++ [t])))); [|by destruct (filter _ ts)].
    rewrite bytes_of_snoc. by destruct (filter _ ts).
  - rewrite lookup_insert_ne by done. rewrite app_nil_r. apply Hproto.
Qed.

(** The reported traffic of the node, of each peer and of each protocol is the sum of what
    was logged for it, modulo the width of the counters. *)
Theorem metric_traffic ts :
  let m := foldl log_traffic Metric_new ts in
  get_recv_count_and_size m = (count_reports false ts, sum_bytes false ts) ∧
  get_sent_count_and_size m = (count_reports true ts, sum_bytes true ts) ∧
  (∀ p, p ∈ tr_peer <$> ts → get_peer_in_and_out m p = (Some (sum_bytes false (of_peer p ts)), Some (sum_bytes true (of_peer p ts)))) ∧
  (∀ p, p ∈ tr_protocol <$> ts →
    get_protocol_in_and_out m p = (Some (sum_bytes false (of_protocol p ts)), Some (sum_bytes true (of_protocol p ts)))).
Proof.
  cbn zeta. destruct (metric_records ts) as (Hnode&Hpeer&Hproto).
  unfold get_recv_count_and_size, get_sent_count_and_size, get_peer_in_and_out, get_protocol_in_and_out. rewrite Hnode.
  split; [done|]. split; [done|]. split.
  - intros p (t&->&Ht)%list_elem_of_fmap. rewrite Hpeer.
    assert (t ∈ of_peer (tr_peer t) ts) as Hin by by apply list_elem_of_filter.
    by destruct (of_peer (tr_peer t) ts); [apply not_elem_of_nil in Hin|].
  - intros p (t&->&Ht)%list_elem_of_fmap. rewrite Hproto.
    assert (t ∈ of_protocol (tr_protocol t) ts) as Hin by by apply list_elem_of_filter.
    by destruct (of_protocol (tr_protocol t) ts); [apply not_elem_of_nil in Hin|].
Qed.

(** The counters of the peers, updated by concurrent tasks, end as the reports of the
    tasks one after the other leave them. *)
Lemma seq_peer_ops ts m :
  foldl (flip (seq_op RecordByteAndPacket_default packet_add)) (group_by_peer m) (peer_ops <$> ts) =
    group_by_peer (foldl log_traffic m ts).
Proof.
  revert m. induction ts as [|t ts IH]; intros m; [done|]. cbn [fmap list_fmap foldl]. rewrite <-IH. f_equal.
  unfold log_traffic, peer_ops. by destruct (tr_sent t).
Qed.

Theorem metric_concurrent ts st p (Hsteps : rtc (mm_step RecordByteAndPacket_default packet_add) (MetricMap_new (peer_ops <$> ts)) st)
    (Hdone : all_done st) : mm_value st p = group_by_peer (foldl log_traffic Metric_new ts) !! p.
Proof.
  rewrite <-seq_peer_ops. apply metricmap_sequential; [apply packet_add_comm|done|done|].
  rewrite list_elem_of_fmap. by intros (t&?&_).
Qed.
End metric.
Arguments Metric PeerId {_ _}.
Arguments Traffic PeerId : clear implicits.

(** ** Witnesses *)

Lemma mm_run_rtc {K} `{Countable K} {C U} (d : C) (apply : U → C → C) chs (st st' : MetricMap K C U) :
  mm_run d apply chs st = Some st' → rtc (mm_step d apply) st st'.
Proof.
  revert st. induction chs as [|ch chs IH]; intros st; cbn; [by intros [= ->]|].
  destruct (mm_exec d apply ch st) as [st1|] eqn:Hch; [|done]. intros Hrun. eapply rtc_l; [by exists ch|by apply IH].
Qed.

(** Two threads race to add a key, one of them fails and finds the key; the first table is
    freed and its address is used again by a third thread. *)
Definition race_ops : list (MapOp Z Z) := [OpStore 1 [2; 3]; OpStore 1 [5]; OpDelete 2; OpLoad 1]%Z.
Definition race : list Choice :=
  [Run 0 0; Run 1 0; Run 0 0; Run 1 0; Run 0 1; Run 1 2; Run 0 0; Run 1 0; Run 1 0; Run 1 0; Run 1 0; Run 1 0; Destroy 0;
   Run 2 0; Run 2 0; Run 2 0; Run 2 0; Run 3 0; Run 3 0; Run 3 0].
Definition race_end : MetricMap Z Z Z :=
  mk_MetricMap 0 {[ 1 := {[ 1%Z := 0 ]}; 0 := {[ 1%Z := 0 ]} ]} {[ 1 := [2] ]} [10; 5]%Z
    [mk_Thread (OpStore 1 [2; 3]) (PDone RUnit); mk_Thread (OpStore 1 [5]) (PDone RUnit);
     mk_Thread (OpDelete 2) (PDone RUnit); mk_Thread (OpLoad 1) (PDone (RValue (Some 0%nat)))]%Z.

Lemma race_run : mm_run 0%Z Z.add race (MetricMap_new race_ops) = Some race_end.
Proof. vm_compute. reflexivity. Qed.

(** A thread that loaded the table before the other published cannot be left with a freed
    table: the collector waits for it. *)
Example collector_waits : mm_run 0%Z Z.add
  [Run 0 0; Run 1 0; Run 0 0; Run 1 0; Run 0 1; Run 0 0; Destroy 0] (MetricMap_new race_ops) = None.
Proof. vm_compute. reflexivity. Qed.

Lemma metricmap_memory_safe_witness : Forall (λ th, th_pc th ≠ PFault) (mm_threads race_end).
Proof. apply (metricmap_memory_safe 0%Z Z.add race_ops), (mm_run_rtc _ _ race), race_run. Defined.

Lemma metricmap_updates_witness : ∃ hist, hist ≡ₚ [2; 3; 5]%Z ∧ 10%Z = foldl (flip Z.add) 0%Z hist.
Proof.
  destruct (metricmap_updates 0%Z Z.add race_ops race_end 1%Z) as [_ Hhist].
  - apply (mm_run_rtc _ _ race), race_run.
  - repeat constructor.
  - unfold race_ops. rewrite !not_elem_of_cons. split_and!; [done..|apply not_elem_of_nil].
  - exact Hhist.
Defined.

Lemma metricmap_completes_witness : all_done (mk_MetricMap (K := Z) (C := Z) (U := Z) 0 {[ 0 := ∅ ]} ∅ [] [mk_Thread (OpLoad 1%Z) (PDone (RValue None))]).
Proof.
  apply (metricmap_completes 0%Z Z.add [OpLoad 1%Z]).
  - apply (mm_run_rtc _ _ [Run 0 0; Run 0 0; Run 0 0]). vm_compute. reflexivity.
  - intros [st' [[[|i] a|p] Hstep]]; [done..|]. cbn in Hstep. rewrite lookup_empty in Hstep. done.
Defined.

(** Two tasks report reads of the same peer at once. *)
Definition two_reads : list (Traffic Z) := [mk_Traffic false "/ping" 7 10; mk_Traffic false "/ping" 7 20]%Z.
Definition two_end : MetricMap Z RecordByteAndPacket PacketAdd :=
  mk_MetricMap 1 {[ 0 := ∅; 1 := {[ 7%Z := 0 ]} ]} {[ 0 := [0; 1] ]}
    [mk_RecordByteAndPacket (mk_RecordByte 30 0) 2 0; mk_RecordByteAndPacket (mk_RecordByte 20 0) 1 0]%Z
    [mk_Thread (OpStore 7 [Bytes (BytesRecv 10); PacketRecv]) (PDone RUnit);
     mk_Thread (OpStore 7 [Bytes (BytesRecv 20); PacketRecv]) (PDone RUnit)]%Z.

Lemma metric_concurrent_witness : group_by_peer (foldl log_traffic Metric_new two_reads) !! 7%Z =
  Some (mk_RecordByteAndPacket (mk_RecordByte 30 0) 2 0).
Proof.
  rewrite <-(metric_concurrent two_reads two_end 7%Z).
  - reflexivity.
  - apply (mm_run_rtc _ _ [Run 0 0; Run 1 0; Run 0 0; Run 1 0; Run 0 1; Run 1 2; Run 0 0; Run 1 0; Run 1 0; Run 1 0; Run 1 0; Run 1 0; Run 1 0]).
    vm_compute. reflexivity.
  - repeat constructor.
Defined.

