(* ===== verification/Services.v ===== *)
(** * Services on a connection: [swarm/src/ping.rs], [identify.rs], [connection.rs], [substream.rs], [muxer.rs]

    The ping and identify protocols as programs on a stream, the tasks that a
    connection runs for them, the stream that the protocols are given with its timeouts
    and its closing, and the table of the protocol handlers.

    The theorems show that a ping succeeds in every order of the reads and writes and
    only if the payload came back, that a handler echoes whole payloads, that identify
    transmits the information of a node and survives any message, that the ping task
    counts consecutive failures, and that a stream is reported closed exactly once. *)

From Stdlib Require Import ZArith Lia String.
From stdpp Require Import relations.
From S2P Require Import Prelude Varint StdText Multiaddr KadKey RecordStore KadProto PeerStore Registry Dial.
From S2P Require Import Swarm Framing Multistream Identity Session Metrics.

Local Open Scope nat_scope.

(** ** Ping: [ping.rs] *)

Definition PING_PROTOCOL : string := "/ipfs/ping/1.0.0".
Definition PING_SIZE : nat := 32.

(** Durations are in seconds. *)
Record PingConfig := mk_PingConfig {
  pg_timeout : Duration;
  pg_interval : Duration;
  pg_max_failures : Z;
  pg_unsolicited : bool;
  pg_keep_alive : bool
}.

Definition PingConfig_new : PingConfig := mk_PingConfig 20 15 1 true false.
Definition with_timeout (c : PingConfig) (d : Duration) : PingConfig :=
  mk_PingConfig d (pg_interval c) (pg_max_failures c) (pg_unsolicited c) (pg_keep_alive c).
Definition with_interval (c : PingConfig) (d : Duration) : PingConfig :=
  mk_PingConfig (pg_timeout c) d (pg_max_failures c) (pg_unsolicited c) (pg_keep_alive c).
Definition with_max_failures (c : PingConfig) (n : Z) : PingConfig :=
  mk_PingConfig (pg_timeout c) (pg_interval c) n (pg_unsolicited c) (pg_keep_alive c).
Definition with_unsolicited (c : PingConfig) (b : bool) : PingConfig :=
  mk_PingConfig (pg_timeout c) (pg_interval c) (pg_max_failures c) b (pg_keep_alive c).
Definition with_keep_alive (c : PingConfig) (b : bool) : PingConfig :=
  mk_PingConfig (pg_timeout c) (pg_interval c) (pg_max_failures c) (pg_unsolicited c) b.

(** The exchange of a ping on an open stream, with its random payload; closing the stream
    sends nothing. *)
Definition ping_exchange (accepts : nat → nat) (payload : bytes) : Session (result IoErrorKind unit) :=
  await? _ := s_write (write_all2 accepts payload) in
  await? recv_payload := s_read (read_exact PING_SIZE) in
  SRet (if decide (recv_payload = payload) then Ok () else Err InvalidData).

(** The handler of inbound streams, for [rounds] payloads. *)
Fixpoint ping_handle (accepts : nat → nat) (rounds : nat) : Session (result IoErrorKind unit) :=
  match rounds with
  | 0 => SRecv (λ _ _, Pending) SRet (λ _, SRet (Ok ()))
  | S rounds =>
      SRecv (read_exact PING_SIZE)
        (λ payload, await? _ := s_write (write_all2 accepts payload) in ping_handle accepts rounds)
        (λ _, SRet (Ok ()))
  end.

(** ** Identify: [identify.rs] *)

Definition IDENTIFY_PROTOCOL : string := "/ipfs/id/1.0.0".
Definition IDENTIFY_PUSH_PROTOCOL : string := "/ipfs/id/push/1.0.0".

(** The message [Identify] of [structs.proto] and its codec. *)
Record IdentifyMsg := mk_IdentifyMsg {
  im_protocol_version : option bytes;
  im_agent_version : option bytes;
  im_public_key : option bytes;
  im_listen_addrs : list bytes;
  im_observed_addr : option bytes;
  im_protocols : list bytes
}.
Class IdentifyCodec := {
  im_encode : IdentifyMsg → bytes;
  im_decode : bytes → option IdentifyMsg
}.
Class IdentifyCodecLaws `{IdentifyCodec} : Prop := im_decode_encode m : im_decode (im_encode m) = Some m.

Section identify.
Context {PeerId : Type} `{NodeIdentity PeerId} `{Varint} `{AddrCodecs} `{IdentifyCodec}.

Record NodeInfo := mk_NodeInfo {
  nd_public_key : ni_pubkey;
  nd_protocol_version : bytes;
  nd_agent_version : bytes;
  nd_listen_addrs : list Multiaddr;
  nd_protocols : list bytes
}.

Definition bytes_to_multiaddr (b : bytes) : result IoErrorKind Multiaddr := map_err (λ _, InvalidData) (try_from b).

Fixpoint parse_addrs (l : list bytes) : result IoErrorKind (list Multiaddr) :=
  match l with
  | [] => Ok []
  | addr :: l =>
      let? a := bytes_to_multiaddr addr in
      let? addrs := parse_addrs l in
      Ok (a :: addrs)
  end.

Definition parse_proto_msg (msg : bytes) : result IoErrorKind (NodeInfo * Multiaddr) :=
  match im_decode msg with
  | Some m =>
      let? listen_addrs := parse_addrs (im_listen_addrs m) in
      let? public_key := ok_or InvalidData (ni_decode (default [] (im_public_key m))) in
      let? observed_addr := bytes_to_multiaddr (default [] (im_observed_addr m)) in
      Ok (mk_NodeInfo public_key (default [] (im_protocol_version m)) (default [] (im_agent_version m)) listen_addrs (im_protocols m),
          observed_addr)
  | None => Err InvalidData
  end.

Definition process_message (chunks : nat → nat) : Session (result IoErrorKind (NodeInfo * Multiaddr)) :=
  await? buf := s_read (read_one chunks 4096) in
  sess_result (parse_proto_msg buf).

(** [remote_addr] is the address that the stream observes. *)
Definition identify_message (remote_addr : Multiaddr) (info : NodeInfo) : bytes :=
  im_encode (mk_IdentifyMsg (Some (nd_protocol_version info)) (Some (nd_agent_version info)) (Some (ni_encode (nd_public_key info)))
    (nd_listen_addrs info) (Some remote_addr) (nd_protocols info)).

Definition produce_message (accepts : nat → nat) (remote_addr : Multiaddr) (info : NodeInfo) : Session (result IoErrorKind unit) :=
  s_write (write_one accepts (identify_message remote_addr info)).

(** ** The tasks of a connection: [connection.rs] *)

Context {TransportError : Type} (Timeout InternalError : TransportError) (from_io : IoErrorKind → TransportError).

(** The events that the tasks send to the main loop. *)
Inductive ServiceEvent :=
  | SvStreamOpened (view : SubstreamView)
  | SvStreamError (cid : nat) (dir : Direction) (e : TransportError)
  | SvPingResult (cid : nat) (r : result TransportError Duration)
  | SvIdentifyResult (cid : nat) (r : result TransportError (NodeInfo * Multiaddr)).

(** [ping] with its timeout: [None] if the exchange did not end in time; [rtt] is the time
    that passed. *)
Definition ping (outcome : option (result IoErrorKind unit)) (rtt : Duration) : result TransportError Duration :=
  match outcome with
  | None => Err Timeout
  | Some (Ok _) => Ok rtt
  | Some (Err e) => Err (from_io e)
  end.

(** One round of the ping task: the flag before and after the pause, the stream that was
    opened and the result of its ping. *)
Record PingRound := mk_PingRound {
  rd_running : bool;
  rd_still_running : bool;
  rd_open : result TransportError SubstreamView;
  rd_ping : result TransportError Duration
}.

Inductive PingEnd := PingRuns (fail_cnt : Z) | PingExited | PingOverflow.

(** The task of [start_ping], over the rounds that take place. *)
Fixpoint ping_task (cid : nat) (max_failures fail_cnt : Z) (rounds : list PingRound) : list ServiceEvent * PingEnd :=
  match rounds with
  | [] => ([], PingRuns fail_cnt)
  | rd :: rounds =>
      if negb (rd_running rd) then ([], PingExited)
      else if negb (rd_still_running rd) then ([], PingExited)
      else
        let '(evs, r) :=
          match rd_open rd with
          | Ok view => ([SvStreamOpened view], rd_ping rd)
          | Err err => ([SvStreamError cid Outbound InternalError], Err err)
          end in
        let fail_cnt := match r with Ok _ => 0%Z | Err _ => (fail_cnt + 1)%Z end in
        if (2 ^ 32 <=? fail_cnt)%Z then (evs, PingOverflow)
        else
          match r with
          | Ok rtt =>
              let x := ping_task cid max_failures fail_cnt rounds in
              (evs ++ SvPingResult cid (Ok rtt) :: x.1, x.2)
          | Err _ =>
              if (max_failures <=? fail_cnt)%Z then (evs, PingExited)
              else let x := ping_task cid max_failures fail_cnt rounds in (evs ++ x.1, x.2)
          end
  end.

(** The task of [start_identify], with the stream and what [process_message] returned. *)
Definition identify_task (cid : nat) (opened : result TransportError SubstreamView)
    (processed : result IoErrorKind (NodeInfo * Multiaddr)) : list ServiceEvent :=
  match opened with
  | Ok view => [SvStreamOpened view; SvIdentifyResult cid (map_err from_io processed)]
  | Err err => [SvStreamError cid Outbound InternalError; SvIdentifyResult cid (Err err)]
  end.

(** The task of [start_identify_push]: the events, and the message it writes.  [info] is
    [None] if the main loop is gone. *)
Definition identify_push_task (cid : nat) (info : option NodeInfo) (opened : result TransportError (SubstreamView * Multiaddr)) :
    list ServiceEvent * option bytes :=
  match info with
  | None => ([], None)
  | Some info =>
      match opened with
      | Ok (view, remote_addr) => ([SvStreamOpened view], Some (identify_message remote_addr info))
      | Err _ => ([SvStreamError cid Outbound InternalError], None)
      end
  end.

(** The handler of pushed information. *)
Definition identify_push_handle (cid : nat) (processed : result IoErrorKind (NodeInfo * Multiaddr)) : list ServiceEvent :=
  [SvIdentifyResult cid (map_err from_io processed)].
End identify.

(** [info]: the numbers of inbound and outbound streams. *)
Definition count_inbound (l : list SubstreamView) : nat :=
  foldl (λ acc s, if decide (view_dir s = Inbound) then acc + 1 else acc) 0 l.
Definition stream_counts (l : list SubstreamView) : nat * nat :=
  let num_inbound_streams := count_inbound l in (num_inbound_streams, length l - num_inbound_streams).

(** ** Streams: [substream.rs] *)

Inductive StreamError := SeIo (e : IoErrorKind) | SeTimedOut.

Section substream.
Context {PeerId : Type} `{Countable PeerId}.

(** [su_inner] is the identifier of the stream of the multiplexer; a timer is the time at
    which it is ready. *)
Record Substream := mk_Substream {
  su_inner : option nat;
  su_read_timeout : option Duration;
  su_write_timeout : option Duration;
  su_read_timer : option Instant;
  su_write_timer : option Instant;
  su_protocol : string;
  su_dir : Direction;
  su_cid : nat;
  su_rpid : PeerId
}.

Definition Substream_new (inner : nat) (dir : Direction) (protocol : string) (cid : nat) (rpid : PeerId) : Substream :=
  mk_Substream (Some inner) None None None None protocol dir cid rpid.

Definition with_read_timeout (s : Substream) (t : option Duration) : Substream :=
  mk_Substream (su_inner s) t (su_write_timeout s) (su_read_timer s) (su_write_timer s) (su_protocol s) (su_dir s) (su_cid s) (su_rpid s).
Definition with_write_timeout (s : Substream) (t : option Duration) : Substream :=
  mk_Substream (su_inner s) (su_read_timeout s) t (su_read_timer s) (su_write_timer s) (su_protocol s) (su_dir s) (su_cid s) (su_rpid s).
Definition with_both_timeouts (s : Substream) (t : option Duration) : Substream :=
  mk_Substream (su_inner s) t t (su_read_timer s) (su_write_timer s) (su_protocol s) (su_dir s) (su_cid s) (su_rpid s).
Definition set_read_timer (t : option Instant) (s : Substream) : Substream :=
  mk_Substream (su_inner s) (su_read_timeout s) (su_write_timeout s) t (su_write_timer s) (su_protocol s) (su_dir s) (su_cid s) (su_rpid s).
Definition set_write_timer (t : option Instant) (s : Substream) : Substream :=
  mk_Substream (su_inner s) (su_read_timeout s) (su_write_timeout s) (su_read_timer s) t (su_protocol s) (su_dir s) (su_cid s) (su_rpid s).
Definition set_inner (i : option nat) (s : Substream) : Substream :=
  mk_Substream i (su_read_timeout s) (su_write_timeout s) (su_read_timer s) (su_write_timer s) (su_protocol s) (su_dir s) (su_cid s) (su_rpid s).

(** [to_view]; [None] is the panic of a closed stream. *)
Definition to_view (s : Substream) : option SubstreamView :=
  id ← su_inner s; Some (mk_SubstreamView (su_cid s) id (su_protocol s) (su_dir s)).

(** The timer of a pending read or write: the result, the timer, and the time at which it
    will wake the task.  A new timer is not polled, so it wakes nobody. *)
Definition poll_timer (now : Instant) (timeout : option Duration) (timer : option Instant) :
    Poll StreamError * option Instant * option Instant :=
  match timeout with
  | None => (PollPending, timer, None)
  | Some d =>
      match timer with
      | Some deadline => if (deadline <=? now)%Z then (Ready SeTimedOut, timer, None) else (PollPending, timer, Some deadline)
      | None => (PollPending, Some (now + d)%Z, None)
      end
  end.

(** [poll_read] and [poll_write], with the result of the inner stream and the counters of
    the swarm; [None] is the panic of a closed stream, and the last component is the time
    at which a timer wakes the task. *)
Definition substream_poll_read (now : Instant) (s : Substream) (metric : Metric PeerId) (inner : Poll (result IoErrorKind bytes)) :
    option (Poll (result StreamError bytes) * Substream * Metric PeerId * option Instant) :=
  _ ← su_inner s;
  match inner with
  | PollPending =>
      match poll_timer now (su_read_timeout s) (su_read_timer s) with
      | (Ready e, t, w) => Some (Ready (Err e), set_read_timer t s, metric, w)
      | (PollPending, t, w) => Some (PollPending, set_read_timer t s, metric, w)
      end
  | Ready (Ok buf) =>
      let n := Z.of_nat (length buf) in
      Some (Ready (Ok buf), set_read_timer None s, log_recv_stream (su_protocol s) n (su_rpid s) (log_recv_msg n metric), None)
  | Ready (Err e) => Some (Ready (Err (SeIo e)), set_read_timer None s, metric, None)
  end.

Definition substream_poll_write (now : Instant) (s : Substream) (metric : Metric PeerId) (inner : Poll (result IoErrorKind nat)) :
    option (Poll (result StreamError nat) * Substream * Metric PeerId * option Instant) :=
  _ ← su_inner s;
  match inner with
  | PollPending =>
      match poll_timer now (su_write_timeout s) (su_write_timer s) with
      | (Ready e, t, w) => Some (Ready (Err e), set_write_timer t s, metric, w)
      | (PollPending, t, w) => Some (PollPending, set_write_timer t s, metric, w)
      end
  | Ready (Ok n) =>
      Some (Ready (Ok n), set_write_timer None s,
        log_sent_stream (su_protocol s) (Z.of_nat n) (su_rpid s) (log_sent_msg (Z.of_nat n) metric), None)
  | Ready (Err e) => Some (Ready (Err (SeIo e)), set_write_timer None s, metric, None)
  end.

Definition substream_poll_flush (s : Substream) (inner : Poll (result IoErrorKind unit)) : option (Poll (result IoErrorKind unit)) :=
  _ ← su_inner s; Some inner.

(** [poll_close]: the result, the stream and the [CloseStream] command that is sent.
    [ctrl_ready] tells whether the channel to the main loop has room. *)
Definition substream_poll_close (s : Substream) (ctrl_ready : bool) (inner : Poll (result IoErrorKind unit)) :
    Poll (result IoErrorKind unit) * Substream * list (nat * nat) :=
  match su_inner s with
  | Some id => if ctrl_ready then (inner, set_inner None s, [(su_cid s, id)]) else (PollPending, s, [])
  | None => (Ready (Ok ()), s, [])
  end.

(** [drop]: the command that the spawned task sends. *)
Definition substream_drop (s : Substream) : list (nat * nat) :=
  match su_inner s with Some id => [(su_cid s, id)] | None => [] end.

End substream.
Arguments Substream : clear implicits.

(** ** Protocol handlers: [muxer.rs] *)

Section muxer.
Context {Handler : Type} (protocol_info : Handler → list string) (client_mode : Handler → bool).

Definition Muxer : Type := gmap string Handler.
Definition Muxer_new : Muxer := ∅.

Definition add_protocol_handler (m : Muxer) (p : Handler) : Muxer := foldl (λ m pid, <[pid := p]> m) m (protocol_info p).

Definition supported_protocols (m : Muxer) : list string :=
  omap (λ x, if client_mode x.2 then None else Some x.1) (map_to_list m).

(** [select_inbound] once the negotiation has chosen [proto]; [None] is the panic of
    [unwrap]. *)
Definition select_handler (m : Muxer) (proto : string) : option (Handler * string) := h ← m !! proto; Some (h, proto).
End muxer.

(** ** Ping *)

Section ping_properties.
Context (accepts1 accepts2 : nat → nat) (Hacc1 : ∀ j, 0 < accepts1 j) (Hacc2 : ∀ j, 0 < accepts2 j).

Lemma stable_ping_exchange accepts payload : stable_session (ping_exchange accepts payload).
Proof. apply stable_sess_try; [done|intros _]. apply stable_sess_try; [apply stable_s_read, stable_read_exact|done]. Qed.

Lemma stable_ping_handle accepts rounds : stable_session (ping_handle accepts rounds).
Proof.
  induction rounds as [|rounds IH]; cbn; [by split_and!|]. split_and!; [apply stable_read_exact| |done].
  intros payload. by destruct (write_all2 accepts payload).2.
Qed.

(** In every order of the reads and writes a ping succeeds, and the handler waits for the
    next payload. *)
Theorem ping_completes payload rounds (Hlen : length payload = PING_SIZE) :
  let l0 := link_start (ping_exchange accepts1 payload) (ping_handle accepts2 (S rounds)) in
  sn link_step l0 ∧
  ∀ l, rtc link_step l0 l → rtc link_step l (mk_Link (SRet (Ok ())) (ping_handle accepts2 rounds) [] []).
Proof.
  intros l0. split; [apply link_terminates|]. intros l Hl.
  assert (Hread : read_exact PING_SIZE false payload = Done payload []).
  { rewrite <-(app_nil_r payload) at 1. by apply read_exact_app. }
  assert (Hnf : nf link_step (mk_Link (SRet (A := result IoErrorKind unit) (Ok ())) (ping_handle accepts2 rounds) [] [])).
  { intros [l' Hstep]. inversion Hstep as [? ? ? ? ? ? ? Hs|? ? ? ? ? ? ? Hs]; subst; [done|]. by destruct rounds. }
  apply (link_determined l0); [split; [apply stable_ping_exchange|apply (stable_ping_handle accepts2 (S rounds))]| |exact Hnf|exact Hl].
  unfold l0, link_start, ping_exchange. cbn [ping_handle]. rewrite !write_all2_accepted by done.
  apply link_send. apply link_swap. eapply link_recv; [exact Hread|]. rewrite write_all2_accepted by done.
  apply link_send. apply link_swap. eapply link_recv; [exact Hread|]. by rewrite decide_True.
Qed.

(** Whatever arrives, a ping that succeeds has received its own payload. *)
Lemma ping_echoed payload eof inp sent rest :
  session_run (ping_exchange accepts1 payload) eof inp = (sent, Returned (Ok ()) rest) → inp = payload ++ rest ∧ sent = payload.
Proof.
  intros Hrun. unfold ping_exchange in Hrun. rewrite write_all2_accepted in Hrun by done. cbn in Hrun.
  unfold read_exact in Hrun. case_decide as Hl; [|by destruct eof]. cbn in Hrun. case_decide as Heq; [|done].
  injection Hrun as <- <-. rewrite app_nil_r, <-Heq at 1. by rewrite take_drop.
Qed.

(** The handler sends back the whole payloads that arrive and ends with the stream. *)
Lemma ping_handle_echoes rounds inp :
  length inp < PING_SIZE * rounds →
  session_run (ping_handle accepts2 rounds) true inp =
    (take (PING_SIZE * (length inp / PING_SIZE)) inp, Returned (Ok ()) (drop (PING_SIZE * (length inp / PING_SIZE)) inp)).
Proof.
  unfold PING_SIZE. revert inp. induction rounds as [|rounds IH]; intros inp Hl; [lia|]. cbn [ping_handle session_run]. unfold read_exact, PING_SIZE.
  case_decide as Hle.
  - rewrite write_all2_accepted by done. unfold sess_try, s_write. cbn [sess_bind session_run fst snd]. rewrite IH by (rewrite length_drop; lia). cbn [fst snd].
    rewrite length_drop. set (n := length inp).
    assert (Hdiv : n / 32 = S ((n - 32) / 32)).
    { replace n with ((n - 32) + 1 * 32) at 1 by (unfold n; lia). rewrite Nat.div_add by done. lia. }
    rewrite Hdiv. set (k := (n - 32) / 32). replace (32 * S k) with (32 + 32 * k) by lia.
    by rewrite take_take_drop, drop_drop.
  - rewrite Nat.div_small by lia. done.
Qed.
End ping_properties.

(** ** Identify *)

Section identify_properties.
Context {PeerId : Type} `{NodeIdentityLaws PeerId} `{HV : Varint} `{HL : !VarintLaws} `{HC : AddrCodecs} `{IdentifyCodecLaws}.

Lemma stable_read_varint_loop chunks fuel buffer : stable (read_varint_loop chunks fuel buffer).
Proof.
  revert buffer. induction fuel as [|fuel IH]; intros buffer; cbn [read_varint_loop]; [apply stable_panic|].
  apply stable_bind.
  - intros eof inp more. destruct inp as [|b inp]; [done|]. cbn [app]. by rewrite !read2_1.
  - intros [|b piece]; [destruct buffer; [apply stable_ret|apply stable_fail]|].
    destruct (uvi_decode 64 (buffer ++ [b])) as [[len ?]|[]]; auto with lp2p.
Qed.

Lemma stable_read_one chunks max : stable (read_one chunks max).
Proof.
  apply stable_bind; [apply stable_read_varint_loop|]. intros n. destruct (max <? n)%Z; [apply stable_fail|].
  eapply stable_ext; [|apply (stable_read_exact (Z.to_nat n))]. intros. by rewrite read_exact2_eq.
Qed.

Lemma parse_addrs_valid l : Forall (λ a, try_from a = Ok a) l → parse_addrs l = Ok l.
Proof.
  induction 1 as [|a l Ha _ IH]; cbn; [done|]. unfold bytes_to_multiaddr. rewrite Ha. cbn. by rewrite IH.
Qed.

Lemma parse_identify_message remote_addr info :
  Forall (λ a, try_from a = Ok a) (remote_addr :: nd_listen_addrs info) →
  parse_proto_msg (identify_message remote_addr info) = Ok (info, remote_addr).
Proof.
  intros [Hr Ha]%Forall_cons. unfold parse_proto_msg, identify_message. rewrite im_decode_encode. cbn.
  rewrite parse_addrs_valid, ni_decode_encode by done. cbn. unfold bytes_to_multiaddr. rewrite Hr. cbn. by destruct info.
Qed.

(** Between two nodes identify transmits the information of the one and the address that
    it observes of the other, in every order of the reads and writes. *)
Theorem identify_exchange accepts chunks remote_addr info (Hacc : ∀ j, 0 < accepts j)
    (Haddrs : Forall (λ a, try_from a = Ok a) (remote_addr :: nd_listen_addrs info))
    (Hlen : (Z.of_nat (length (identify_message remote_addr info)) ≤ 4096)%Z) :
  link_returns (produce_message accepts remote_addr info) (process_message chunks) (Ok ()) (Ok (info, remote_addr)) [] [].
Proof.
  apply link_returns_intro; [done|apply stable_sess_try; [apply stable_s_read, stable_read_one|done]|].
  destruct (written_read_one chunks accepts (identify_message remote_addr info) 4096 false) as (ws&Hw&_&Hr&_); [done|lia|lia|].
  specialize (Hr []). rewrite app_nil_r in Hr. unfold link_start, produce_message. rewrite Hw. apply link_send. apply link_swap.
  unfold process_message. eapply link_recv; [exact Hr|]. cbn. by rewrite parse_identify_message.
Qed.

(** Whatever arrives, reading the information does not panic, and what it accepts has
    valid addresses. *)
Lemma parse_addrs_ok l addrs : parse_addrs l = Ok addrs → Forall (λ a, try_from a = Ok a) addrs.
Proof.
  revert addrs. induction l as [|b l IH]; intros addrs; cbn; [by intros [= <-]|]. unfold bytes_to_multiaddr.
  destruct (try_from b) as [a|] eqn:Hb; [|done]. cbn. destruct (parse_addrs l) as [as'|]; [|done]. cbn. intros [= <-].
  constructor; [|by apply IH]. pose proof Hb as Hd. apply try_from_denotes in Hd as [-> _]. done.
Qed.

Theorem identify_safe chunks eof inp :
  match (session_run (process_message chunks) eof inp).2 with
  | Returned (Ok (info, observed)) _ => Forall (λ a, try_from a = Ok a) (observed :: nd_listen_addrs info)
  | Crashed => False
  | _ => True
  end.
Proof.
  unfold process_message. cbn. pose proof (read_one_no_panic chunks 4096 eof inp) as Hsafe.
  destruct (read_one chunks 4096 eof inp) as [buf rest|e| |]; try done. cbn. unfold parse_proto_msg.
  destruct (im_decode buf) as [m|]; [|done]. destruct (parse_addrs (im_listen_addrs m)) as [addrs|] eqn:Ha; [|done]. cbn.
  destruct (ni_decode _); [|done]. cbn. unfold bytes_to_multiaddr.
  destruct (try_from (default [] (im_observed_addr m))) as [o|] eqn:Ho; [|done]. cbn. constructor; [|by eapply parse_addrs_ok].
  pose proof Ho as Hd. apply try_from_denotes in Hd as [-> _]. done.
Qed.
End identify_properties.

(** ** The ping task *)

Section task_properties.
Context {PeerId : Type} `{NodeIdentity PeerId} {TransportError : Type} (InternalError : TransportError).
Local Abbreviation PingRound := (@PingRound TransportError).
Local Abbreviation ServiceEvent := (@ServiceEvent PeerId _ _ TransportError).
Implicit Types (rd : PingRound) (rounds : list PingRound) (ev : ServiceEvent).

(** Whether the task is still wanted in a round, and the result of its ping. *)
Definition rd_wanted rd : bool := rd_running rd && rd_still_running rd.
Definition rd_result rd : result TransportError Duration :=
  match rd_open rd with Ok _ => rd_ping rd | Err e => Err e end.
Definition rd_failed rd : bool := match rd_result rd with Ok _ => false | Err _ => true end.

(** The results that the main loop is told. *)
Definition told ev : option (result TransportError Duration) := match ev with SvPingResult _ r => Some r | _ => None end.

Local Abbreviation task := (ping_task (PeerId := PeerId) InternalError).

(** One round of the task. *)
Lemma ping_task_cons cid max n rd rounds :
  (0 ≤ n < 2 ^ 32 - 1)%Z → rd_wanted rd = true →
  (rd_failed rd = true ∧ (max ≤ n + 1)%Z ∧ omap told (task cid max n (rd :: rounds)).1 = [] ∧ (task cid max n (rd :: rounds)).2 = PingExited) ∨
  (rd_failed rd = true ∧ (n + 1 < max)%Z ∧ omap told (task cid max n (rd :: rounds)).1 = omap told (task cid max (n + 1) rounds).1 ∧
    (task cid max n (rd :: rounds)).2 = (task cid max (n + 1) rounds).2) ∨
  (∃ rtt, rd_result rd = Ok rtt ∧ omap told (task cid max n (rd :: rounds)).1 = Ok rtt :: omap told (task cid max 0 rounds).1 ∧
    (task cid max n (rd :: rounds)).2 = (task cid max 0 rounds).2).
Proof.
  intros Hn Hw. unfold rd_wanted in Hw. apply andb_true_iff in Hw as [Hr Hs]. cbn [ping_task]. rewrite Hr, Hs. cbn [negb].
  unfold rd_failed, rd_result. destruct (rd_open rd) as [view|e]; [destruct (rd_ping rd) as [rtt|e]|].
  - right. right. exists rtt. split; [done|]. destruct (Z.leb_spec (2 ^ 32) 0); [lia|]. done.
  - destruct (Z.leb_spec (2 ^ 32) (n + 1)); [lia|]. destruct (Z.leb_spec max (n + 1)); [by left|right; by left].
  - destruct (Z.leb_spec (2 ^ 32) (n + 1)); [lia|]. destruct (Z.leb_spec max (n + 1)); [by left|right; by left].
Qed.

(** A run of consecutive failures that begins with [n] earlier ones. *)
Definition failures_at_start (m : nat) rounds : Prop := ∃ fs post, rounds = fs ++ post ∧ length fs = m ∧ Forall (λ rd, rd_failed rd = true) fs.
Definition failures (m : nat) rounds : Prop := ∃ pre rounds', rounds = pre ++ rounds' ∧ failures_at_start m rounds'.

Lemma failures_cons m rd rounds : failures m (rd :: rounds) ↔ failures_at_start m (rd :: rounds) ∨ failures m rounds.
Proof.
  split.
  - intros ([|rd' pre]&rounds'&Heq&Hf); cbn in Heq; [left; by subst|right]. injection Heq as <- ->. by exists pre, rounds'.
  - intros [Hf|(pre&rounds'&->&Hf)]; [by exists [], (rd :: rounds)|by exists (rd :: pre), rounds'].
Qed.

Lemma failures_at_start_cons m rd rounds : failures_at_start (S m) (rd :: rounds) ↔ rd_failed rd = true ∧ failures_at_start m rounds.
Proof.
  split.
  - intros ([|rd' fs]&post&Heq&Hl&Hf); [done|]. injection Heq as <- ->. apply Forall_cons in Hf as [Hrd Hf]. split; [done|].
    exists fs, post. by injection Hl as <-.
  - intros (Hrd&fs&post&->&<-&Hf). exists (rd :: fs), post. split_and!; [done|done|by constructor].
Qed.

Lemma failures_at_start_le m m' rounds : m ≤ m' → failures_at_start m' rounds → failures_at_start m rounds.
Proof.
  intros Hle (fs&post&->&<-&Hf). exists (take m fs), (drop m fs ++ post).
  rewrite app_assoc, take_drop, length_take. split_and!; [done|lia|by apply Forall_take].
Qed.

(** From [n] failures the task ends exactly if the failures reach the maximum, at the
    start or anew. *)
Lemma ping_task_from cid max n rounds :
  0 < max → n < max → (Z.of_nat max < 2 ^ 32)%Z → Forall (λ rd, rd_wanted rd = true) rounds →
  let e := (task cid (Z.of_nat max) (Z.of_nat n) rounds).2 in
  e ≠ PingOverflow ∧ (e = PingExited ↔ failures_at_start (max - n) rounds ∨ failures max rounds).
Proof.
  intros Hmax Hn Hlt Hw. revert n Hn. induction Hw as [|rd rounds Hrd Hw IH]; intros n Hn; cbn zeta.
  - cbn. split; [done|]. split; [done|]. intros [(fs&post&Heq&Hl&_)|(pre&?&Heq&fs&post&->&Hl&_)].
    + symmetry in Heq. apply app_eq_nil in Heq as [-> _]. cbn in Hl. lia.
    + symmetry in Heq. apply app_eq_nil in Heq as [_ Heq]. apply app_eq_nil in Heq as [-> _]. cbn in Hl. lia.
  - rewrite failures_cons. replace (max - n) with (S (max - (n + 1))) by lia.
    destruct max as [|max]; [lia|]. rewrite !failures_at_start_cons.
    destruct (ping_task_cons cid (Z.of_nat (S max)) (Z.of_nat n) rd rounds) as [(Hf&Hle&_&->)|[(Hf&Hle&_&->)|(rtt&Hok&_&->)]]; [lia|done|..].
    + split; [done|]. split; [|done]. intros _. left. split; [done|]. exists [], rounds. split_and!; [done|cbn; lia|done].
    + replace (Z.of_nat n + 1)%Z with (Z.of_nat (n + 1)) by lia. destruct (IH (n + 1)) as [? ->]; [lia|]. split; [done|].
      rewrite Hf. split; [intros [?|?]; eauto|]. intros [[_ ?]|[[_ ?]|?]]; [by left| |by right]. left. eapply failures_at_start_le; [|done]. lia.
    + assert (rd_failed rd = false) as -> by (unfold rd_failed; by rewrite Hok). change 0%Z with (Z.of_nat 0).
      destruct (IH 0) as [? ->]; [lia|]. split; [done|]. rewrite Nat.sub_0_r. split; [|intros [[[=] _]|[[[=] _]|?]]; by right].
      intros [?|?]; right; right; [|done]. by exists [], rounds.
Qed.

(** A maximum of zero acts as a maximum of one. *)
Lemma ping_task_max cid max n rounds :
  (0 ≤ n)%Z → task cid (Z.of_nat (max `max` 1)) n rounds = task cid (Z.of_nat max) n rounds.
Proof.
  revert n. induction rounds as [|rd rounds IH]; intros n Hn; [done|]. cbn [ping_task].
  assert (Hle : (Z.of_nat (max `max` 1) <=? n + 1)%Z = (Z.of_nat max <=? n + 1)%Z) by (apply eq_true_iff_eq; rewrite !Z.leb_le; lia).
  destruct (rd_open rd); [destruct (rd_ping rd)|]; by rewrite ?Hle, !IH by lia.
Qed.

Lemma ping_task_told cid max n rounds :
  Forall (λ x, ∃ rd rtt, rd ∈ rounds ∧ rd_result rd = Ok rtt ∧ x = Ok rtt) (omap told (task cid max n rounds).1).
Proof.
  revert n. induction rounds as [|rd rounds IH]; intros n; cbn [ping_task]; [constructor|].
  assert (IH' : ∀ n, Forall (λ x, ∃ rd' rtt, rd' ∈ rd :: rounds ∧ rd_result rd' = Ok rtt ∧ x = Ok rtt) (omap told (task cid max n rounds).1)).
  { intros n'. eapply Forall_impl; [apply IH|]. intros x (rd'&rtt&?&?&?). exists rd', rtt. split; [by right|done]. }
  destruct (rd_running rd), (rd_still_running rd); try constructor. cbn [negb].
  destruct (rd_open rd) as [view|e] eqn:Ho; [destruct (rd_ping rd) as [rtt|e] eqn:Hp|]; repeat case_match; try constructor; try apply IH'.
  exists rd, rtt. split; [by left|]. unfold rd_result. by rewrite Ho, Hp.
Qed.

(** The task never overflows its counter, and while it is wanted it ends exactly when
    [max_failures] consecutive pings have failed (or one, if the maximum is zero); the
    main loop is told only of successes. *)
Theorem ping_task_ends cid max rounds (Hmax : (Z.of_nat max < 2 ^ 32)%Z) (Hw : Forall (λ rd, rd_wanted rd = true) rounds) :
  let r := task cid (Z.of_nat max) 0 rounds in
  r.2 ≠ PingOverflow ∧ (r.2 = PingExited ↔ failures (max `max` 1) rounds) ∧
  Forall (λ x, ∃ rd rtt, rd ∈ rounds ∧ rd_result rd = Ok rtt ∧ x = Ok rtt) (omap told r.1).
Proof.
  intros r. apply and_assoc. split; [|apply ping_task_told]. unfold r. rewrite <-ping_task_max by lia.
  destruct (ping_task_from cid (max `max` 1) 0 rounds) as [? ->]; [lia..|done|]. split; [done|]. rewrite Nat.sub_0_r.
  split; [|by right]. intros [?|?]; [|done]. by exists [], rounds.
Qed.
End task_properties.

(** ** Streams *)

Section substream_properties.
Context {PeerId : Type} `{Countable PeerId}.
Implicit Types (s : Substream PeerId) (m : Metric PeerId).

(** The calls that a task makes on a stream, with what the inner stream and the channel
    to the main loop answer. *)
Inductive StreamCall :=
  | CallRead (now : Instant) (inner : Poll (result IoErrorKind bytes))
  | CallWrite (now : Instant) (inner : Poll (result IoErrorKind nat))
  | CallFlush (inner : Poll (result IoErrorKind unit))
  | CallClose (ctrl_ready : bool) (inner : Poll (result IoErrorKind unit)).

Definition stream_call (c : StreamCall) (x : Substream PeerId * Metric PeerId * list (nat * nat)) :
    option (Substream PeerId * Metric PeerId * list (nat * nat)) :=
  let '(s, m, cmds) := x in
  match c with
  | CallRead now inner => '(_, s, m, _) ← substream_poll_read now s m inner; Some (s, m, cmds)
  | CallWrite now inner => '(_, s, m, _) ← substream_poll_write now s m inner; Some (s, m, cmds)
  | CallFlush inner => _ ← substream_poll_flush s inner; Some (s, m, cmds)
  | CallClose ready inner => let '(_, s, sent) := substream_poll_close s ready inner in Some (s, m, cmds ++ sent)
  end.

Fixpoint stream_calls (cs : list StreamCall) (x : Substream PeerId * Metric PeerId * list (nat * nat)) :
    option (Substream PeerId * Metric PeerId * list (nat * nat)) :=
  match cs with
  | [] => Some x
  | c :: cs => x ← stream_call c x; stream_calls cs x
  end.

(** The traffic of a call that moved data. *)
Definition call_traffic s (c : StreamCall) : list (Traffic PeerId) :=
  match c with
  | CallRead _ (Ready (Ok buf)) => [mk_Traffic false (su_protocol s) (su_rpid s) (Z.of_nat (length buf))]
  | CallWrite _ (Ready (Ok n)) => [mk_Traffic true (su_protocol s) (su_rpid s) (Z.of_nat n)]
  | _ => []
  end.

(** Streams that differ in their timers and in being closed. *)
Definition same_stream s s' : Prop :=
  su_read_timeout s' = su_read_timeout s ∧ su_write_timeout s' = su_write_timeout s ∧ su_protocol s' = su_protocol s ∧
  su_dir s' = su_dir s ∧ su_cid s' = su_cid s ∧ su_rpid s' = su_rpid s.

Lemma stream_call_step c s m cmds s' m' cmds' :
  stream_call c (s, m, cmds) = Some (s', m', cmds') →
  same_stream s s' ∧ m' = foldl log_traffic m (call_traffic s c) ∧ cmds' ++ substream_drop s' = cmds ++ substream_drop s.
Proof.
  unfold stream_call, substream_poll_read, substream_poll_write, substream_poll_flush, substream_poll_close, substream_drop.
  destruct c as [now inner|now inner|inner|[] inner]; destruct (su_inner s) as [id|] eqn:Hin; cbn; try done.
  - destruct inner as [[buf|e]|]; [| |destruct (poll_timer now (su_read_timeout s) (su_read_timer s)) as [[[e|] t] w]];
      cbn; intros [= <- <- <-]; cbn; by rewrite Hin.
  - destruct inner as [[n|e]|]; [| |destruct (poll_timer now (su_write_timeout s) (su_write_timer s)) as [[[e|] t] w]];
      cbn; intros [= <- <- <-]; cbn; by rewrite Hin.
  - intros [= <- <- <-]; cbn; by rewrite ?Hin, ?app_nil_r.
  - intros [= <- <- <-]; cbn; by rewrite ?Hin, ?app_nil_r.
  - intros [= <- <- <-]; cbn; by rewrite ?Hin, ?app_nil_r.
  - intros [= <- <- <-]; cbn; by rewrite ?Hin, ?app_nil_r.
  - intros [= <- <- <-]; cbn; by rewrite ?Hin, ?app_nil_r.
Qed.

Lemma same_stream_traffic s s' c : same_stream s s' → call_traffic s' c = call_traffic s c.
Proof. intros (_&_&Hp&_&_&Hr). unfold call_traffic. by rewrite Hp, Hr. Qed.

(** Over the life of a stream, dropped at the end, the main loop is told exactly once to
    close it, whether the task closed it, gave up closing it or did not; and the counters
    of the swarm grow by exactly the data that was moved. *)
Theorem substream_lifecycle cs s m s' m' cmds :
  stream_calls cs (s, m, []) = Some (s', m', cmds) →
  cmds ++ substream_drop s' = substream_drop s ∧ m' = foldl log_traffic m (cs ≫= call_traffic s).
Proof.
  assert (Hgen : ∀ cs s0 m cmds0, same_stream s s0 → stream_calls cs (s0, m, cmds0) = Some (s', m', cmds) →
    cmds ++ substream_drop s' = cmds0 ++ substream_drop s0 ∧ m' = foldl log_traffic m (cs ≫= call_traffic s)).
  { clear cs m. intros cs. induction cs as [|c cs IH]; intros s0 m cmds0 Hsame; cbn [stream_calls].
    - by intros [= <- <- <-].
    - destruct (stream_call c (s0, m, cmds0)) as [[[s1 m1] cmds1]|] eqn:Hc; cbn [mbind option_bind]; [|done]. intros Hrest.
      apply stream_call_step in Hc as (Hs1&->&Hcmds). apply IH in Hrest as [-> ->].
      + split; [done|]. rewrite bind_cons, foldl_app, (same_stream_traffic s s0) by done. done.
      + destruct Hsame as (?&?&?&?&?&?), Hs1 as (?&?&?&?&?&?). unfold same_stream. split_and!; congruence. }
  intros Hcalls. by apply Hgen in Hcalls.
Qed.

(** A call panics exactly if it reads, writes or flushes a closed stream. *)
Lemma stream_call_panics c x :
  stream_call c x = None ↔ su_inner x.1.1 = None ∧ match c with CallClose _ _ => False | _ => True end.
Proof.
  destruct x as [[s m] cmds]. unfold stream_call, substream_poll_read, substream_poll_write, substream_poll_flush. cbn [fst].
  destruct c as [now inner|now inner|inner|ready inner]; destruct (su_inner s) as [id|]; cbn; try (split; [done|by intros []]); try done.
  - split; [|by intros []]. destruct inner as [[buf|e]|]; [done..|]. by destruct (poll_timer _ _ _) as [[[] ?] ?].
  - split; [|by intros []]. destruct inner as [[buf|e]|]; [done..|]. by destruct (poll_timer _ _ _) as [[[] ?] ?].
  - split; [|by intros []]. by destruct (substream_poll_close s ready inner) as [[]].
  - split; [|by intros []]. by destruct (substream_poll_close s ready inner) as [[]].
Qed.

(** Reads that stay pending: the result, the timer and the wake-up of each poll. *)
Fixpoint pending_reads (times : list Instant) s m : list (Poll (result StreamError bytes) * option Instant) :=
  match times with
  | [] => []
  | now :: times =>
      match substream_poll_read now s m PollPending with
      | Some (r, s, m, w) => (r, w) :: pending_reads times s m
      | None => []
      end
  end.

(** A read with a timeout [d] that first pends at time [t0] fails at every later poll from
    [t0 + d] on, not earlier; the first poll arms the timer without a wake-up. *)
Lemma read_times_out id d t0 times s m :
  su_inner s = Some id → su_read_timeout s = Some d → su_read_timer s = None →
  pending_reads (t0 :: times) s m =
    (PollPending, None) ::
    ((λ t, if (t0 + d <=? t)%Z then (Ready (Err SeTimedOut), None) else (PollPending, Some (t0 + d)%Z)) <$> times).
Proof.
  intros Hin Hd Ht. cbn [pending_reads]. unfold substream_poll_read at 1. rewrite Hin. cbn [mbind option_bind]. rewrite Hd, Ht. cbn [poll_timer].
  f_equal. assert (Hset : ∀ s', s' = set_read_timer (Some (t0 + d)%Z) s → pending_reads times s' m =
    ((λ t, if (t0 + d <=? t)%Z then (Ready (Err SeTimedOut), None) else (PollPending, Some (t0 + d)%Z)) <$> times)); [|by apply Hset].
  induction times as [|t times IH]; intros s' ->; [done|]. cbn [pending_reads fmap list_fmap]. unfold substream_poll_read at 1.
  cbn [set_read_timer su_inner su_read_timeout su_read_timer]. rewrite Hin, Hd. cbn [mbind option_bind poll_timer].
  destruct (Z.leb_spec (t0 + d) t); f_equal; by apply IH.
Qed.
End substream_properties.

(** ** Protocol handlers *)

Section muxer_properties.
Context `{Varint} `{ToBytes string} {Handler : Type} (protocol_info : Handler → list string) (client_mode : Handler → bool).
Implicit Types m : Muxer (Handler := Handler).

Lemma add_protocol_handler_lookup m p pid :
  add_protocol_handler protocol_info m p !! pid = if decide (pid ∈ protocol_info p) then Some p else m !! pid.
Proof.
  unfold add_protocol_handler. revert m. induction (protocol_info p) as [|q l IH]; intros m; cbn [foldl].
  { rewrite decide_False by apply not_elem_of_nil. done. }
  rewrite IH. destruct (decide (pid ∈ l)) as [Hin|Hin].
  - rewrite decide_True by by right. done.
  - destruct (decide (pid = q)) as [->|Hne].
    + rewrite decide_True by by left. apply (lookup_insert_eq (M := gmap string)).
    + rewrite decide_False by by rewrite not_elem_of_cons. by apply (lookup_insert_ne (M := gmap string)).
Qed.

Lemma supported_protocols_spec m pid :
  pid ∈ supported_protocols client_mode m ↔ ∃ h, m !! pid = Some h ∧ client_mode h = false.
Proof.
  unfold supported_protocols. rewrite list_elem_of_omap. split.
  - intros ([pid' h]&Hin&Hx). apply (elem_of_map_to_list (M := gmap string)) in Hin. cbn in Hx. destruct (client_mode h) eqn:Hc; [done|]. injection Hx as ->. eauto.
  - intros (h&Hm&Hc). exists (pid, h). split; [by apply (elem_of_map_to_list (M := gmap string))|]. cbn. by rewrite Hc.
Qed.

Lemma find_protocol_offered (l : list string) p proto : find_protocol (new_with_protocols l) p = Some proto → proto ∈ l.
Proof.
  unfold find_protocol. intros ([n q]&Hhead&->)%fmap_Some. apply head_Some_elem_of, list_elem_of_filter in Hhead as [_ Hin].
  cbn in Hin. apply list_elem_of_omap in Hin as (n'&Hn'&Heq). destruct (Protocol_try_from (to_bytes n')); by simplify_eq.
Qed.

(** Whatever the remote asks for, [select_inbound] ends with a protocol that has a
    handler which serves it: [unwrap] does not panic and handlers in client mode are not
    reached. *)
Theorem select_inbound_safe m st msg st' out proto :
  st' = LDone (Ok proto) → st ≠ st' →
  negotiate_recv (new_with_protocols (supported_protocols client_mode m)) st msg = (st', out) →
  ∃ h, select_handler m proto = Some (h, proto) ∧ client_mode h = false.
Proof.
  intros -> Hst Hrecv. assert (Hfind : ∃ p, find_protocol (new_with_protocols (supported_protocols client_mode m)) p = Some proto).
  { unfold negotiate_recv, l_send in Hrecv. destruct st; [..|by simplify_eq]; destruct msg; repeat case_match; simplify_eq; eauto. }
  destruct Hfind as [p Hfind%find_protocol_offered]. apply supported_protocols_spec in Hfind as (h&Hm&Hc).
  exists h. unfold select_handler. by rewrite Hm.
Qed.
End muxer_properties.

(** ** Counts of a connection *)

Lemma stream_counts_spec l :
  stream_counts l = (length (filter (λ v, view_dir v = Inbound) l), length (filter (λ v, view_dir v = Outbound) l)).
Proof.
  assert (Hfold : ∀ n, foldl (λ acc s, if decide (view_dir s = Inbound) then acc + 1 else acc) n l =
    n + length (filter (λ v, view_dir v = Inbound) l)).
  { induction l as [|v l IH]; intros n; cbn [foldl]; [cbn; lia|]. rewrite IH, filter_cons. case_decide; cbn; lia. }
  unfold stream_counts, count_inbound. rewrite Hfold. cbn. f_equal.
  assert (length l = length (filter (λ v, view_dir v = Inbound) l) + length (filter (λ v, view_dir v = Outbound) l)) as ->; [|lia].
  clear Hfold. induction l as [|v l IH]; [done|]. rewrite !filter_cons. destruct (view_dir v); repeat case_decide; try done; cbn; lia.
Qed.

(** ** Concrete instances *)

#[local] Existing Instance toy_peer_id.
#[local] Existing Instance toy_node.
#[local] Existing Instance toy_node_laws.
#[local] Existing Instance leb128.
#[local] Existing Instance sample_codecs.

#[local] Instance toy_identify_eq : EqDecision IdentifyMsg.
Proof. solve_decision. Defined.
#[local] Instance toy_identify_countable : Countable IdentifyMsg.
Proof.
  refine (inj_countable' (λ m, ((im_protocol_version m, im_agent_version m, im_public_key m), (im_listen_addrs m, im_observed_addr m, im_protocols m)))
    (λ '((a, b, c), (d, e, f)), mk_IdentifyMsg a b c d e f) _). by intros [].
Defined.
#[local] Instance toy_identify_codec : IdentifyCodec := {| im_encode m := bits_of (encode m); im_decode b := decode (of_bits b) |}.
#[local] Instance toy_identify_codec_laws : IdentifyCodecLaws.
Proof. intros m. simpl. rewrite of_bits_of. apply decode_encode. Qed.

Lemma ping_completes_witness :
  let payload := replicate 32 Byte.x07 in
  sn link_step (link_start (ping_exchange (λ _, 5) payload) (ping_handle (λ _, 3) 1)).
Proof. apply (ping_completes (λ _, 5) (λ _, 3)); [lia|lia|reflexivity]. Defined.

(** The information of a node that listens on [/tcp/80]. *)
Definition tcp_80 : Multiaddr := [Byte.x06; Byte.x00; Byte.x50].
Definition some_info : NodeInfo (PeerId := Init.Byte.byte) := mk_NodeInfo Byte.x02 (b_str "v") (b_str "a") [tcp_80] [b_str "p"].

Lemma identify_exchange_witness :
  link_returns (produce_message (λ _, 4) tcp_80 some_info) (process_message (λ _, 2)) (Ok ()) (Ok (some_info, tcp_80)) [] [].
Proof.
  apply (identify_exchange (λ _, 4) (λ _, 2) tcp_80 some_info).
  - lia.
  - repeat constructor; vm_compute; reflexivity.
  - apply Z.leb_le. vm_compute. reflexivity.
Defined.

(** Two pings fail, the second in a row after the first success; the maximum is two. *)
Definition round (r : result unit Duration) : PingRound (TransportError := unit) :=
  mk_PingRound true true (Ok (mk_SubstreamView 1 1 "ping"%string Outbound)) r.

Lemma ping_task_ends_witness :
  (ping_task (PeerId := Init.Byte.byte) () 1 2 0 [round (Err ()); round (Ok 5%Z); round (Err ()); round (Err ())]).2 = PingExited.
Proof.
  destruct (ping_task_ends (PeerId := Init.Byte.byte) () 1 2 [round (Err ()); round (Ok 5%Z); round (Err ()); round (Err ())]) as (_&Hend&_).
  - lia.
  - repeat constructor.
  - apply Hend. exists [round (Err ()); round (Ok 5%Z)], [round (Err ()); round (Err ())]. split; [done|].
    exists [round (Err ()); round (Err ())], []. split_and!; [done|done|by repeat constructor].
Defined.

(** With the default of one failure the task ends without telling the main loop. *)
Example ping_failure_untold :
  ping_task (PeerId := Init.Byte.byte) () 1 (pg_max_failures PingConfig_new) 0 [round (Err ()); round (Ok 5%Z)] =
    ([SvStreamOpened (mk_SubstreamView 1 1 "ping"%string Outbound)], PingExited).
Proof. reflexivity. Qed.

(** A stream that is read, closed with a pending inner close, and dropped. *)
Definition some_stream : Substream Z := Substream_new 4 Outbound "ping" 1 7%Z.
Definition some_calls : list StreamCall :=
  [CallRead 0 PollPending; CallRead 1 (Ready (Ok [Byte.x01; Byte.x02])); CallWrite 2 (Ready (Ok 3)); CallClose false PollPending;
   CallClose true PollPending; CallClose true PollPending].

Lemma substream_lifecycle_witness : ∃ s' m' cmds,
  stream_calls some_calls (some_stream, Metric_new, []) = Some (s', m', cmds) ∧ cmds ++ substream_drop s' = [(1, 4)].
Proof.
  destruct (stream_calls some_calls (some_stream, Metric_new, [])) as [[[s' m'] cmds]|] eqn:Hcalls; [|vm_compute in Hcalls; done].
  exists s', m', cmds. split; [done|]. exact (proj1 (substream_lifecycle some_calls some_stream Metric_new s' m' cmds Hcalls)).
Defined.

(** A close that is pending drops the inner stream: the next poll reports success. *)
Example close_pending_then_ok :
  let '(r, s, _) := substream_poll_close some_stream true PollPending in
  r = PollPending ∧ su_inner s = None ∧ substream_poll_close s true (Ready (Err OtherError)) = (Ready (Ok ()), s, []).
Proof. done. Qed.

#[local] Instance toy_string_bytes : ToBytes string := b_str.
Definition some_muxer : Muxer (Handler := bool) :=
  add_protocol_handler (λ c : bool, if c then ["/client"] else ["/ping"; "/echo"])%string
    (add_protocol_handler (λ c : bool, if c then ["/client"] else ["/ping"; "/echo"])%string Muxer_new true) false.

Lemma select_inbound_safe_witness : ∃ h, select_handler some_muxer "/ping" = Some (h, "/ping"%string) ∧ id h = false.
Proof.
  destruct (negotiate_recv (new_with_protocols (supported_protocols id some_muxer)) LWaitRequest (MProtocol (b_str "/ping"))) as [st' out] eqn:Hr.
  apply (select_inbound_safe id some_muxer LWaitRequest (MProtocol (b_str "/ping")) st' out).
  - vm_compute in Hr. by injection Hr as <- _.
  - vm_compute in Hr. by injection Hr as <- _.
  - exact Hr.
Defined.
