(* ===== verification/Upgrade.v ===== *)
(** * Upgrades of connections: [core/src/upgrade.rs], [upgrade/select.rs], [upgrade/multistream.rs], [transport/upgrade.rs]

    An upgrade negotiates one of its protocols with multistream-select and then runs the
    handshake of that protocol on the same socket.  The negotiation is here a program on
    the socket, made of the steps of [Multistream.v], so that it composes with the
    handshakes.  The listener of the upgraded transport runs several upgrades at once.

    The theorems show that a dialer and a listener that have a protocol in common run the
    handshake of the first such protocol to its end, in every order of the reads and
    writes, that a [Selector] prefers its first upgrade, and that the upgrading listener
    neither loses nor duplicates a connection and respects its limit. *)

From Stdlib Require Import ZArith Lia String.
From stdpp Require Import relations.
From S2P Require Import Prelude Varint Multiaddr Framing Multistream Session.

Local Open Scope nat_scope.

(** ** Errors and events of transports: [transport.rs] *)

(** Errors behind a trait object are kept without their content. *)
Inductive TransportError :=
  | MultiaddrNotSupported (addr : Multiaddr)
  | Timeout
  | Unreachable
  | InternalErr
  | RoutingErr
  | IoErr (e : IoErrorKind)
  | ResolveFail (name : bytes)
  | NegotiationErr (failed : bool)
  | ProtectorErr
  | SecurityErr
  | StreamMuxerErr
  | WsErr.

Definition from_io (e : IoErrorKind) : TransportError := IoErr e.
Definition from_negotiation {T} (e : NegotiationError T) : TransportError :=
  NegotiationErr (match e with NegFailed _ => true | NegProtocolError _ => false end).

Inductive ListenerEvent (O : Type) :=
  | AddressAdded (a : Multiaddr)
  | AddressDeleted (a : Multiaddr)
  | Accepted (o : O).
Arguments AddressAdded {O} a.
Arguments AddressDeleted {O} a.
Arguments Accepted {O} o.

Definition le_map {O U} (f : O → result TransportError U) (e : ListenerEvent O) : result TransportError (ListenerEvent U) :=
  match e with
  | Accepted o => let? u := f o in Ok (Accepted u)
  | AddressAdded a => Ok (AddressAdded a)
  | AddressDeleted a => Ok (AddressDeleted a)
  end.

Definition into_new_address {O} (e : ListenerEvent O) : option Multiaddr := match e with AddressAdded a => Some a | _ => None end.
Definition into_address_deleted {O} (e : ListenerEvent O) : option Multiaddr := match e with AddressDeleted a => Some a | _ => None end.

(** [accept_output] over the events that [accept] returns; [None] if it still waits. *)
Fixpoint accept_output {O} (events : list (result TransportError (ListenerEvent O))) : option (result TransportError O) :=
  match events with
  | [] => None
  | Ok (Accepted o) :: _ => Some (Ok o)
  | Ok _ :: events => accept_output events
  | Err e :: _ => Some (Err e)
  end.

(** ** The negotiation as a program *)

Section negotiation.
Context `{Varint} {T : Type} `{ToBytes T}.
Implicit Types n : Negotiator T.

(** A message is read and given to [f]. *)
Definition on_message {A} (f : Message → Session (result (NegotiationError T) A)) : Session (result (NegotiationError T) A) :=
  SRecv recv_frame
    (λ msg, match message_decode msg with
            | Ok m => f m
            | Err e => SRet (Err (NegProtocolError e))
            end)
    (λ kind, SRet (Err (NegProtocolError (IoError kind)))).

(** [negotiate], for [rounds] messages of the dialer; after them it waits. *)
Fixpoint negotiate_from (rounds : nat) n (st : LState T) : Session (result (NegotiationError T) T) :=
  match st, rounds with
  | LDone r, _ => SRet r
  | _, 0 => SRecv (λ _ _, Pending) SRet (λ _, SPanic)
  | _, S rounds => on_message (λ m, let x := negotiate_recv n st m in SSend x.2 (negotiate_from rounds n x.1))
  end.
Definition negotiate (rounds : nat) n : Session (result (NegotiationError T) T) := negotiate_from rounds n LWaitHeader.

(** [select_one] asks at most once for each protocol. *)
Fixpoint select_from (fuel : nat) n (st : DState T) : Session (result (NegotiationError T) T) :=
  match st, fuel with
  | DDone r, _ => SRet r
  | _, 0 => SPanic
  | _, S fuel => on_message (λ m, let x := select_recv n st m in SSend x.2 (select_from fuel n x.1))
  end.
Definition select_one n : Session (result (NegotiationError T) T) :=
  let x := select_start (TProto := T) in SSend x.2 (select_from (S (length (neg_protocols n))) n x.1).
End negotiation.

(** ** Upgraders *)

Record Upgrader (Info Out : Type) := mk_Upgrader {
  protocol_info : list Info;
  upgrade_inbound : Info → Session (result TransportError Out);
  upgrade_outbound : Info → Session (result TransportError Out)
}.
Arguments protocol_info {Info Out} u.
Arguments upgrade_inbound {Info Out} u i.
Arguments upgrade_outbound {Info Out} u i.

(** [select_inbound] and [select_outbound] of [Multistream]. *)
Definition select_inbound `{Varint} {Info Out} `{ToBytes Info} (rounds : nat) (u : Upgrader Info Out) : Session (result TransportError Out) :=
  await? proto := sess_map_err from_negotiation (negotiate rounds (new_with_protocols (protocol_info u))) in
  upgrade_inbound u proto.
Definition select_outbound `{Varint} {Info Out} `{ToBytes Info} (u : Upgrader Info Out) : Session (result TransportError Out) :=
  await? proto := sess_map_err from_negotiation (select_one (new_with_protocols (protocol_info u))) in
  upgrade_outbound u proto.

(** *** [Selector] *)

Inductive EitherName (A B : Type) := EnA (a : A) | EnB (b : B).
Arguments EnA {A B} a.
Arguments EnB {A B} b.
Inductive EitherOutput (A B : Type) := EoA (a : A) | EoB (b : B).
Arguments EoA {A B} a.
Arguments EoB {A B} b.

#[global] Instance EitherName_to_bytes {A B} `{ToBytes A, ToBytes B} : ToBytes (EitherName A B) :=
  λ x, match x with EnA a => to_bytes a | EnB b => to_bytes b end.

Definition Selector {IA IB OA OB} (a : Upgrader IA OA) (b : Upgrader IB OB) : Upgrader (EitherName IA IB) (EitherOutput OA OB) := {|
  protocol_info := (EnA <$> protocol_info a) ++ (EnB <$> protocol_info b);
  upgrade_inbound := λ info,
    match info with
    | EnA info => await? o := upgrade_inbound a info in SRet (Ok (EoA o))
    | EnB info => await? o := upgrade_inbound b info in SRet (Ok (EoB o))
    end;
  upgrade_outbound := λ info,
    match info with
    | EnA info => await? o := upgrade_outbound a info in SRet (Ok (EoA o))
    | EnB info => await? o := upgrade_outbound b info in SRet (Ok (EoB o))
    end
|}.

(** ** Programs on a secured socket

    What the streams of the secure channels promise: a write becomes whole frames on the
    socket, and a read takes whole frames from it. *)

Class SecureCodec (Tx Rx : Type) := {
  (** The frames of a write; [None] is an error. *)
  sc_encode : Tx → bytes → option (bytes * Tx);
  (** The content of the next frame; [None] is the end of the stream. *)
  sc_decode : Rx → Reader (option (bytes * Rx))
}.
#[global] Hint Mode SecureCodec ! - : typeclass_instances.
#[global] Hint Mode SecureCodec - ! : typeclass_instances.

Section secured.
Context {Tx Rx : Type} `{SecureCodec Tx Rx}.

(** A reader on the decrypted bytes: [buf] are those that are left of earlier frames. *)
Fixpoint sec_reader_loop {A} (fuel : nat) (rx : Rx) (buf : bytes) (r : Reader A) : Reader (A * (Rx * bytes)) := λ eof inp,
  match r false buf with
  | Done a rest => Done (a, (rx, rest)) inp
  | Failed e => Failed e
  | Panicked => Panicked
  | Pending =>
      match fuel with
      | 0 => Pending
      | S fuel =>
          match sc_decode rx eof inp with
          | Done (Some (f, rx)) inp => sec_reader_loop fuel rx (buf ++ f) r eof inp
          | Done None inp =>
              match r true buf with
              | Done a rest => Done (a, (rx, rest)) inp
              | Failed e => Failed e
              | Pending => Failed UnexpectedEof
              | Panicked => Panicked
              end
          | Failed e => Failed e
          | Pending => Pending
          | Panicked => Panicked
          end
      end
  end.
(** A frame has at least one byte, so [length inp] rounds are enough. *)
Definition sec_reader {A} (rx : Rx) (buf : bytes) (r : Reader A) : Reader (A * (Rx * bytes)) := λ eof inp,
  sec_reader_loop (S (length inp)) rx buf r eof inp.

(** A program on the secured socket; [err] is its result if a write fails. *)
Fixpoint secured {R} (err : R) (tx : Tx) (rx : Rx) (buf : bytes) (s : Session R) : Session R :=
  match s with
  | SRet a => SRet a
  | SPanic => SPanic
  | SSend [] k => secured err tx rx buf k
  | SSend bs k =>
      match sc_encode tx bs with
      | Some (w, tx) => SSend w (secured err tx rx buf k)
      | None => SRet err
      end
  | SRecv r k fail =>
      SRecv (sec_reader rx buf r) (λ x, secured err tx x.2.1 x.2.2 (k x.1)) (λ e, secured err tx rx buf (fail e))
  end.
End secured.

(** *** [TransportUpgrade]

    The upgrades of a socket: first its security, then, on the secured socket, its
    multiplexer.  [halves] are the two directions of the secured socket. *)

Section transport_upgrade.
Context `{Varint} {IS OS IM OM : Type} `{ToBytes IS, ToBytes IM} {Tx Rx : Type} `{SecureCodec Tx Rx} (halves : OS → Tx * Rx).

Definition on_secured {A} (o : OS) (s : Session (result TransportError A)) : Session (result TransportError A) :=
  secured (Err (IoErr InvalidData)) (halves o).1 (halves o).2 [] s.

Definition upgrade_socket_in (rounds : nat) (sec : Upgrader IS OS) (mux : Upgrader IM OM) : Session (result TransportError OM) :=
  await? sec_socket := select_inbound rounds sec in
  on_secured sec_socket (select_inbound rounds mux).
Definition upgrade_socket_out (sec : Upgrader IS OS) (mux : Upgrader IM OM) : Session (result TransportError OM) :=
  await? sec_socket := select_outbound sec in
  on_secured sec_socket (select_outbound mux).
End transport_upgrade.

(** ** The upgrading listener: [ListenerUpgrade] *)

Section listener_upgrade.
Context {Socket Out : Type}.

(** The futures of the upgrades that run, each with the number of its connection and with
    its result once it is there. *)
Local Abbreviation Upgrades := (list (nat * option (result TransportError Out))).

Record ListenerUpgrade := mk_ListenerUpgrade {
  lu_limit : option nat;
  lu_futures : Upgrades;
  lu_next : nat
}.

Definition ListenerUpgrade_new : ListenerUpgrade := mk_ListenerUpgrade (Some 10) [] 0.
Definition set_limit (l : option nat) (s : ListenerUpgrade) : ListenerUpgrade := mk_ListenerUpgrade l (lu_futures s) (lu_next s).

(** Whether the inner listener is asked in this round. *)
Definition accepts_more (s : ListenerUpgrade) : bool :=
  match lu_limit s with Some limit => length (lu_futures s) <? limit | None => true end.

Inductive AcceptRound :=
  | RoundPending
  | RoundAgain (s : ListenerUpgrade)
  | RoundReturns (s : ListenerUpgrade) (r : result TransportError (ListenerEvent Out)).

(** One round of the loop of [accept].  [incoming] is what the inner listener has ready,
    if it is asked; it goes first.  [upgraded] is the position of the future that is
    yielded, if one is ready. *)
Definition accept_round (s : ListenerUpgrade) (incoming : option (result TransportError (ListenerEvent Socket))) (upgraded : option nat) : AcceptRound :=
  match (if accepts_more s then incoming else None) with
  | Some (Err e) => RoundReturns s (Err e)
  | Some (Ok (AddressAdded a)) => RoundReturns s (Ok (AddressAdded a))
  | Some (Ok (AddressDeleted a)) => RoundReturns s (Ok (AddressDeleted a))
  | Some (Ok (Accepted socket)) => RoundAgain (mk_ListenerUpgrade (lu_limit s) (lu_futures s ++ [(lu_next s, None)]) (S (lu_next s)))
  | None =>
      match upgraded ≫= λ j, u ← lu_futures s !! j; r ← u.2; Some (j, r) with
      | None => RoundPending
      | Some (j, r) =>
          let s' := mk_ListenerUpgrade (lu_limit s) (delete j (lu_futures s)) (lu_next s) in
          RoundReturns s' (let? o := r in Ok (Accepted o))
      end
  end.

(** The upgrade at a position completes. *)
Definition complete (j : nat) (r : result TransportError Out) (s : ListenerUpgrade) : ListenerUpgrade :=
  mk_ListenerUpgrade (lu_limit s) (alter (λ u, (u.1, Some (default r u.2))) j (lu_futures s)) (lu_next s).
End listener_upgrade.

(** ** Negotiation followed by a handshake *)

Section stability.
Context `{VarintLaws}.

Lemma stable_read_unsigned_varint_loop fuel b : stable (read_unsigned_varint_loop fuel b).
Proof.
  revert b. induction fuel as [|fuel IH]; intros b; cbn [read_unsigned_varint_loop]; [apply stable_fail|].
  apply stable_bind; [apply stable_read_exact|]. intros piece. destruct (last (b ++ piece)) as [c|]; [|apply stable_panic].
  destruct (uvi_is_last c); [|apply IH]. destruct (uvi_decode 16 (b ++ piece)) as [[len ?]|]; [apply stable_ret|apply stable_fail].
Qed.

Lemma stable_recv_frame : stable recv_frame.
Proof.
  apply stable_bind; [apply stable_read_unsigned_varint_loop|]. intros len.
  destruct (MAX_FRAME_SIZE <? len)%Z; [apply stable_fail|]. destruct (0 <? len)%Z; [apply stable_read_exact|apply stable_ret].
Qed.

Context {T : Type} `{ToBytes T}.

Lemma stable_on_message {A} (f : Message → Session (result (NegotiationError T) A)) :
  (∀ m, stable_session (f m)) → stable_session (on_message f).
Proof. intros Hf. split; [apply stable_recv_frame|]. split; [|done]. intros msg. by destruct (message_decode msg). Qed.

Lemma stable_negotiate_from rounds (n : Negotiator T) st : stable_session (negotiate_from rounds n st).
Proof.
  revert st. induction rounds as [|rounds IH]; intros [| |r]; try done; cbn [negotiate_from]; apply stable_on_message; intros m; apply IH.
Qed.

Lemma stable_select_from fuel (n : Negotiator T) st : stable_session (select_from fuel n st).
Proof.
  revert st. induction fuel as [|fuel IH]; intros [|proto others cause|r]; try done; cbn [select_from]; apply stable_on_message; intros m; apply IH.
Qed.

Lemma stable_select_one (n : Negotiator T) : stable_session (select_one n).
Proof. unfold select_one. cbn [stable_session]. apply stable_select_from. Qed.

Lemma select_from_case fuel (n : Negotiator T) st :
  (∃ r, st = DDone r) ∨
  select_from (S fuel) n st = on_message (λ m, let x := select_recv n st m in SSend x.2 (select_from fuel n x.1)).
Proof. destruct st; eauto. Qed.

(** The states that [select_one] goes through leave it enough fuel. *)
Definition asks_left (n : Negotiator T) (st : DState T) : nat :=
  match st with
  | DWaitHeader => S (length (neg_protocols n))
  | DWaitReply _ others _ => S (length others)
  | DDone _ => 0
  end.

Lemma asks_left_next n protocols cause : asks_left n (select_next protocols cause).1 ≤ length protocols.
Proof. destruct protocols as [|q others]; cbn; [lia|]. unfold d_send. destruct (send_message _); cbn; lia. Qed.

Lemma asks_left_recv n st m : asks_left n (select_recv n st m).1 ≤ pred (asks_left n st).
Proof.
  destruct st as [|proto others cause|r]; cbn [select_recv]; [| |done].
  - case_decide; [|cbn; lia]. apply asks_left_next.
  - destruct m; cbn -[select_next]; try lia; [case_decide; cbn; lia|]. apply asks_left_next.
Qed.

(** [select_one] does not run out of fuel, whatever arrives. *)
Lemma select_one_safe (n : Negotiator T) : sess_safe (select_one n) (λ _, True).
Proof.
  assert (Hloop : ∀ fuel st, asks_left n st ≤ fuel → sess_safe (select_from fuel n st) (λ _, True)).
  { induction fuel as [|fuel IH]; intros st Hst eof inp.
    - destruct st; cbn in Hst; try lia. done.
    - destruct (select_from_case fuel n st) as [[r ->]|Hst']; [done|]. rewrite Hst'. cbn [on_message session_run]. pose proof (recv_frame_safe eof inp) as Hsafe.
      destruct (recv_frame eof inp) as [msg rest|e| |]; [|done..]. destruct (message_decode msg) as [m|e]; [|done].
      cbn [session_run snd]. apply IH. pose proof (asks_left_recv n st m). lia. }
  intros eof inp. unfold select_one. cbn [session_run snd]. apply Hloop. unfold select_start, d_send.
  destruct (send_message (Header V1)); cbn; lia.
Qed.
End stability.

Lemma link_message `{VarintLaws} {T A B} (f : Message → Session (result (NegotiationError T) A)) (t : Session B) m w ir l :
  valid_message m → send_message m = Ok w →
  rtc link_step (mk_Link (f m) t [] ir) l → rtc link_step (mk_Link (on_message f) t w ir) l.
Proof.
  intros Hv Hw Hl. unfold send_message in Hw. destruct (send_frame (message_encode m)) as [ws|] eqn:Hf; [|done]. injection Hw as ->.
  eapply link_recv; [rewrite <-(app_nil_r w); by apply recv_frame_sent|]. by rewrite message_decode_encode.
Qed.

Section agreement.
Context `{VarintLaws} {TD TL : Type} `{ToBytes TD, ToBytes TL} (nd : Negotiator TD) (nl : Negotiator TL).

(** The listener answers the proposals of the dialer up to the first that it supports. *)
Lemma link_proposals pre tp p others tl cause fuel rounds :
  Forall (λ q : TD * Protocol, q.2 = to_bytes q.1 ∧ negotiable q.2) (pre ++ (tp, p) :: others) →
  Forall (unsupported nl) pre → find_protocol nl p = Some tl → length pre < fuel → length pre < rounds →
  rtc link_step
    (mk_Link (let x := select_next (pre ++ (tp, p) :: others) cause in SSend x.2 (select_from fuel nd x.1))
      (negotiate_from rounds nl LWaitRequest) [] [])
    (mk_Link (SRet (Ok tp)) (SRet (Ok tl)) [] []).
Proof.
  revert cause fuel rounds. induction pre as [|[tq q] pre IH]; intros cause fuel rounds Hn Hun Hfind Hf Hr;
    (destruct fuel as [|fuel]; [cbn in Hf; lia|]); (destruct rounds as [|rounds]; [cbn in Hr; lia|]);
    cbn [app select_next]; apply Forall_cons in Hn as [[Hq Hneg] Hn]; cbn [fst snd] in *;
    destruct (send_protocol_ok _ Hneg) as [w Hw]; unfold d_send; rewrite Hw; cbn [fst snd];
    apply link_send; apply link_swap; cbn [negotiate_from app]; (eapply link_message; [|exact Hw|]; [exact Hneg|]); cbn [negotiate_recv].
  - rewrite Hfind. unfold l_send. rewrite Hw. cbn [fst snd]. apply link_send. apply link_swap. cbn [select_from app].
    eapply link_message; [|exact Hw|]; [exact Hneg|]. cbn [select_recv fst snd]. rewrite decide_True by done. cbn [fst snd].
    apply link_send. by destruct fuel, rounds.
  - apply Forall_cons in Hun as [Hu Hun]. unfold unsupported in Hu. cbn in Hu. rewrite Hu. unfold l_send.
    destruct (send_message_ok NotAvailable) as [w' Hw']; [vm_compute; lia|]. rewrite Hw'. cbn [fst snd].
    apply link_send. apply link_swap. cbn [select_from app]. eapply link_message; [|exact Hw'|]; [done|]. cbn [select_recv].
    apply IH; try done; cbn in Hf, Hr; lia.
Qed.

(** A dialer and a listener with a common protocol agree on the first of the dialer's that
    the listener supports. *)
Lemma link_negotiation tp tl rounds :
  Forall (λ q : TD * Protocol, q.2 = to_bytes q.1 ∧ negotiable q.2) (neg_protocols nd) →
  agreed nd nl tp tl → S (length (neg_protocols nd)) ≤ rounds →
  rtc link_step (link_start (select_one nd) (negotiate rounds nl)) (mk_Link (SRet (Ok tp)) (SRet (Ok tl)) [] []).
Proof.
  intros Hnames (pre&p&others&Hnd&Hun&Hfind) Hr. destruct rounds as [|rounds]; [lia|].
  destruct (send_message_ok (Header V1)) as [w Hw]; [vm_compute; lia|]. unfold link_start, select_one, select_start, d_send. rewrite Hw.
  cbn [fst snd]. apply link_send. apply link_swap. cbn [negotiate negotiate_from app].
  eapply link_message; [|exact Hw|]; [done|]. cbn [negotiate_recv]. unfold l_send. rewrite Hw. cbn [fst snd].
  apply link_send. apply link_swap. cbn [select_from app]. eapply link_message; [|exact Hw|]; [done|].
  cbn [select_recv]. rewrite decide_True by done. rewrite Hnd in *. rewrite length_app in *. cbn in Hr.
  apply link_proposals; try done; rewrite ?length_app; cbn; lia.
Qed.
End agreement.

(** The two handshakes of a protocol end with results, in every order. *)
Definition handshakes {ID IL OD OL} (ud : Upgrader ID OD) (ul : Upgrader IL OL) (i : ID) (j : IL) (a : OD) (b : OL) : Prop :=
  link_returns (upgrade_outbound ud i) (upgrade_inbound ul j) (Ok a) (Ok b) [] [].

Definition stable_upgrader {I O} (u : Upgrader I O) : Prop :=
  ∀ i, stable_session (upgrade_inbound u i) ∧ stable_session (upgrade_outbound u i).

(** The first protocol of the dialer that the listener supports, with the listener's name
    for it. *)
Definition first_common `{Varint} {ID IL OD OL} `{ToBytes ID, ToBytes IL} (ud : Upgrader ID OD) (ul : Upgrader IL OL) (i : ID) (j : IL) : Prop :=
  agreed (new_with_protocols (protocol_info ud)) (new_with_protocols (protocol_info ul)) i j.

Section upgrades.
Context `{VarintLaws} {ID IL OD OL : Type} `{ToBytes ID, ToBytes IL} (ud : Upgrader ID OD) (ul : Upgrader IL OL).
Context (Hd : stable_upgrader ud) (Hl : stable_upgrader ul) (Hnames : Forall (λ i, negotiable (to_bytes i)) (protocol_info ud)).

Lemma stable_select_inbound rounds : stable_session (select_inbound rounds ul).
Proof. apply stable_sess_try; [apply stable_map_err, stable_negotiate_from|]. intros j. apply Hl. Qed.

Lemma stable_select_outbound : stable_session (select_outbound ud).
Proof. apply stable_sess_try; [apply stable_map_err, stable_select_one|]. intros i. apply Hd. Qed.

Lemma link_upgrade i j a b rounds :
  first_common ud ul i j → handshakes ud ul i j a b → S (length (protocol_info ud)) ≤ rounds →
  rtc link_step (link_start (select_outbound ud) (select_inbound rounds ul)) (mk_Link (SRet (Ok a)) (SRet (Ok b)) [] []).
Proof.
  intros Hcommon [_ Hrun] Hr. eapply (link_try_ok _ _ _ _ i j [] []).
  - refine (link_bind _ _ _ _ (λ r, SRet (map_err from_negotiation r)) (λ r, SRet (map_err from_negotiation r)) _ _ _ _ (link_negotiation _ _ i j rounds _ Hcommon _)).
    + by apply new_with_protocols_negotiable.
    + rewrite new_with_protocols_names by done. by rewrite length_fmap.
  - apply Hrun. done.
Qed.

(** A dialer and a listener that have a protocol in common complete the upgrade with the
    handshake of the first such protocol of the dialer, in every order of their reads and
    writes and without leaving a byte. *)
Theorem select_completes i j a b rounds (Hcommon : first_common ud ul i j) (Hshake : handshakes ud ul i j a b)
    (Hrounds : S (length (protocol_info ud)) ≤ rounds) :
  link_returns (select_outbound ud) (select_inbound rounds ul) (Ok a) (Ok b) [] [].
Proof.
  apply link_returns_intro; [apply stable_select_outbound|apply stable_select_inbound|]. by eapply link_upgrade.
Qed.
End upgrades.


(** *** [Selector] prefers its first upgrade *)

Section selector.
Context `{VarintLaws} {IA IB IL OA OB OL : Type} `{ToBytes IA, ToBytes IB, ToBytes IL}.
Context (a : Upgrader IA OA) (b : Upgrader IB OB) (ul : Upgrader IL OL).

Lemma neg_protocols_selector :
  neg_protocols (new_with_protocols (protocol_info (Selector a b))) =
    ((λ q, (EnA q.1, q.2)) <$> neg_protocols (new_with_protocols (protocol_info a))) ++
    ((λ q, (EnB q.1, q.2)) <$> neg_protocols (new_with_protocols (protocol_info b))).
Proof.
  assert (Hmap : ∀ {I J} `{ToBytes I, ToBytes J} (f : I → J) (l : list I), (∀ i, to_bytes (f i) = to_bytes i) →
    neg_protocols (new_with_protocols (f <$> l)) = (λ q, (f q.1, q.2)) <$> neg_protocols (new_with_protocols l)).
  { intros I J HI HJ f l Hf. unfold new_with_protocols. cbn. induction l as [|i l IH]; [done|]. cbn. rewrite Hf, IH.
    by destruct (Protocol_try_from (to_bytes i)). }
  unfold Selector, new_with_protocols in *. cbn [protocol_info neg_protocols] in *. rewrite omap_app. f_equal; by apply Hmap.
Qed.

Lemma stable_selector : stable_upgrader a → stable_upgrader b → stable_upgrader (Selector a b).
Proof.
  intros Ha Hb [i|i]; cbn; (split; (apply stable_sess_try; [|done])); (apply Ha || apply Hb).
Qed.

(** The dialer asks for the protocols of the first upgrade first. *)
Lemma first_common_A i j : first_common a ul i j → first_common (Selector a b) ul (EnA i) j.
Proof.
  intros (pre&p&others&Heq&Hun&Hf). exists ((λ q, (EnA q.1, q.2)) <$> pre), p. rewrite neg_protocols_selector, Heq.
  eexists. split; [by rewrite fmap_app, <-app_assoc|]. split; [|done]. apply Forall_fmap. eapply Forall_impl; [exact Hun|]. by intros [].
Qed.

Lemma first_common_B i j :
  Forall (unsupported (new_with_protocols (protocol_info ul))) (neg_protocols (new_with_protocols (protocol_info a))) →
  first_common b ul i j → first_common (Selector a b) ul (EnB i) j.
Proof.
  intros Hno (pre&p&others&Heq&Hun&Hf).
  exists (((λ q, (EnA q.1, q.2)) <$> neg_protocols (new_with_protocols (protocol_info a))) ++ ((λ q, (EnB q.1, q.2)) <$> pre)), p.
  rewrite neg_protocols_selector, Heq. eexists. split; [by rewrite fmap_app, !app_assoc|]. split; [|done].
  apply Forall_app. split; apply Forall_fmap; (eapply Forall_impl; [done|]; by intros []).
Qed.
End selector.

(** The first part of one of the two sessions runs as the session does. *)
Lemma link_bind_left {A A' B} (s s' : Session A) (t t' : Session B) (f : A → Session A') il ir il' ir' :
  rtc link_step (mk_Link s t il ir) (mk_Link s' t' il' ir') →
  rtc link_step (mk_Link (sess_bind s f) t il ir) (mk_Link (sess_bind s' f) t' il' ir').
Proof.
  set (lift := λ l : Link A B, mk_Link (sess_bind (l_left l) f) (l_right l) (l_to_left l) (l_to_right l)).
  intros H. refine (rtc_congruence lift link_step _ _ _ H).
  intros x y Hxy. inversion Hxy as [u u' ? ? ? ? ? Hu|]; subst; cbn; [apply step_left|by apply step_right].
  destruct u as [a| |bs k|C r k fail]; cbn in *; try done; [by simplify_eq|]. by destruct (r false il0); simplify_eq.
Qed.

Lemma link_returns_wrap {X X' Y} (s : Session (result TransportError X)) (t : Session Y) (f : X → X') x y :
  stable_session s → stable_session t → link_returns s t (Ok x) y [] [] →
  link_returns (await? o := s in SRet (Ok (f o))) t (Ok (f x)) y [] [].
Proof.
  intros Hs Ht [_ Hrun]. apply link_returns_intro; [by apply stable_sess_try|done|].
  specialize (Hrun _ (rtc_refl _ _)). by apply (link_bind_left _ _ _ _ (λ r, match r with Ok o => SRet (Ok (f o)) | Err e => SRet (Err e) end)) in Hrun.
Qed.

(** A dialer with two upgrades uses the first one if the listener supports a protocol of
    it, and else the second one; the upgrade is completed in every order. *)
Theorem selector_completes `{VarintLaws} {IA IB IL OA OB OL} `{ToBytes IA, ToBytes IB, ToBytes IL}
    (a : Upgrader IA OA) (b : Upgrader IB OB) (ul : Upgrader IL OL) k o rounds
    (Ha : stable_upgrader a) (Hb : stable_upgrader b) (Hl : stable_upgrader ul)
    (Hnames : Forall (λ i, negotiable (to_bytes i)) (protocol_info (Selector a b)))
    (Hrounds : S (length (protocol_info a) + length (protocol_info b)) ≤ rounds) :
  (∀ i x, first_common a ul i k → handshakes a ul i k x o →
    link_returns (select_outbound (Selector a b)) (select_inbound rounds ul) (Ok (EoA x)) (Ok o) [] []) ∧
  (∀ i y, Forall (unsupported (new_with_protocols (protocol_info ul))) (neg_protocols (new_with_protocols (protocol_info a))) →
    first_common b ul i k → handshakes b ul i k y o →
    link_returns (select_outbound (Selector a b)) (select_inbound rounds ul) (Ok (EoB y)) (Ok o) [] []).
Proof.
  assert (Hst := stable_selector a b Ha Hb).
  assert (Hr : S (length (protocol_info (Selector a b))) ≤ rounds) by (cbn; rewrite length_app, !length_fmap; lia).
  split.
  - intros i x Hcommon Hshake. apply link_returns_intro; [by apply stable_select_outbound|by apply stable_select_inbound|].
    eapply link_upgrade; [done|by apply first_common_A| |done]. by apply link_returns_wrap; [apply Ha|apply Hl|].
  - intros i y Hno Hcommon Hshake. apply link_returns_intro; [by apply stable_select_outbound|by apply stable_select_inbound|].
    eapply link_upgrade; [done|by apply first_common_B| |done]. by apply link_returns_wrap; [apply Hb|apply Hl|].
Qed.

(** ** Programs on a secured socket *)

(** The bytes [w] hold the frames [fs]. *)
Inductive frames {Tx Rx : Type} `{SecureCodec Tx Rx} : Rx → bytes → list bytes → Rx → Prop :=
  | frames_nil rx : frames rx [] [] rx
  | frames_cons rx rx1 rx' w ws f fs :
      f ≠ [] → (∀ eof rest, sc_decode rx eof (w ++ rest) = Done (Some (f, rx1)) rest) →
      frames rx1 ws fs rx' → frames rx (w ++ ws) (f :: fs) rx'.

Class SecureCodecLaws (Tx Rx : Type) `{SecureCodec Tx Rx} := {
  sc_max : nat;
  sc_pair : Tx → Rx → Prop;
  sc_encode_ok (tx : Tx) (rx : Rx) bs : sc_pair tx rx → bs ≠ [] → length bs ≤ sc_max →
    ∃ w tx' fs rx', sc_encode tx bs = Some (w, tx') ∧ frames rx w fs rx' ∧ concat fs = bs ∧ sc_pair tx' rx';
  sc_decode_stable (rx : Rx) : stable (sc_decode rx);
  sc_decode_consumes (rx : Rx) eof inp f rx' rest : sc_decode rx eof inp = Done (Some (f, rx')) rest → length rest < length inp
}.

Section secured_properties.
Context {Tx Rx : Type} `{SecureCodecLaws Tx Rx}.
Implicit Types (tx : Tx) (rx : Rx).

Lemma frames_app rx rx1 rx' w ws fs gs : frames rx w fs rx1 → frames rx1 ws gs rx' → frames rx (w ++ ws) (fs ++ gs) rx'.
Proof. induction 1 as [|? ? ? ? ? ? ? Hf Hd _ IH]; intros Hg; [done|]. rewrite <-app_assoc. econstructor; [done|done|by apply IH]. Qed.

Lemma frames_empty rx w fs rx' : frames rx w fs rx' → concat fs = [] → w = [] ∧ rx' = rx.
Proof. destruct 1 as [|? ? ? ? ? f fs Hf _ _]; [done|]. cbn. intros [-> _]%app_eq_nil. done. Qed.

(** The fuel of [sec_reader] is enough. *)
Lemma sec_reader_fuel {A} fuel rx buf (r : Reader A) eof inp :
  length inp < fuel → sec_reader_loop fuel rx buf r eof inp = sec_reader rx buf r eof inp.
Proof.
  enough (∀ f g rx buf inp, length inp < f → length inp < g → sec_reader_loop f rx buf r eof inp = sec_reader_loop g rx buf r eof inp) as Hfg.
  { intros. apply Hfg; [done|lia]. }
  clear fuel rx buf inp. induction f as [|f IH]; intros g rx buf inp Hf Hg; [lia|]. destruct g as [|g]; [lia|]. cbn [sec_reader_loop].
  destruct (r false buf); try done. destruct (sc_decode rx eof inp) as [[[x rx1]|] rest|e| |] eqn:E; try done.
  apply sc_decode_consumes in E. apply IH; lia.
Qed.

Lemma sec_reader_eq {A} rx buf (r : Reader A) eof inp :
  sec_reader rx buf r eof inp =
  match r false buf with
  | Done a rest => Done (a, (rx, rest)) inp
  | Failed e => Failed e
  | Panicked => Panicked
  | Pending =>
      match sc_decode rx eof inp with
      | Done (Some (f, rx)) inp => sec_reader rx (buf ++ f) r eof inp
      | Done None inp =>
          match r true buf with
          | Done a rest => Done (a, (rx, rest)) inp
          | Failed e => Failed e
          | Pending => Failed UnexpectedEof
          | Panicked => Panicked
          end
      | Failed e => Failed e
      | Pending => Pending
      | Panicked => Panicked
      end
  end.
Proof.
  unfold sec_reader at 1. cbn [sec_reader_loop]. destruct (r false buf); try done.
  destruct (sc_decode rx eof inp) as [[[x rx1]|] rest|e| |] eqn:E; try done. apply sc_decode_consumes in E. by apply sec_reader_fuel.
Qed.

Lemma stable_sec_reader {A} rx buf (r : Reader A) : stable (sec_reader rx buf r).
Proof.
  intros eof inp more. remember (length inp) as len eqn:Hlen. revert rx buf inp Hlen.
  induction len as [len IH] using lt_wf_ind. intros rx buf inp Hlen. rewrite !sec_reader_eq. destruct (r false buf); try done.
  pose proof (sc_decode_stable rx eof inp more) as Hs.
  destruct (sc_decode rx false inp) as [[[x rx1]|] rest|e| |] eqn:E; try done; rewrite Hs; try done.
  - apply sc_decode_consumes in E. apply (IH (length rest)); [lia|done].
  - by destruct (r true buf).
Qed.

Lemma stable_secured {R} (err : R) tx rx buf s : stable_session s → stable_session (secured err tx rx buf s).
Proof.
  revert tx rx buf. induction s as [a| |bs k IH|B r k IHk fail IHf]; intros tx rx buf; cbn; [done..| |].
  - intros Hk. destruct bs; [by apply IH|]. destruct (sc_encode tx _) as [[w tx']|]; [by apply IH|done].
  - intros (Hr&Hk&Hf). split; [apply stable_sec_reader|]. split; [intros [b [rx' buf']]; by apply IHk|intros e; by apply IHf].
Qed.

(** A reader on the decrypted bytes reads what the reader itself reads from the content
    of the frames. *)
Lemma sec_reader_frames {A} (r : Reader A) rx buf w fs rx' :
  stable r → frames rx w fs rx' →
  match r false (buf ++ concat fs) with
  | Done a rest => ∃ rx1 buf1 w1 fs1, sec_reader rx buf r false w = Done (a, (rx1, buf1)) w1 ∧ frames rx1 w1 fs1 rx' ∧ rest = buf1 ++ concat fs1
  | Failed e => sec_reader rx buf r false w = Failed e
  | Panicked => sec_reader rx buf r false w = Panicked
  | Pending => True
  end.
Proof.
  intros Hr Hf. revert buf. induction Hf as [rx|rx rx1 rx' w ws f fs Hne Hd Hf IH]; intros buf; rewrite sec_reader_eq.
  - cbn [concat]. rewrite app_nil_r. destruct (r false buf) as [a rest|e| |]; try done. exists rx, rest, [], []. cbn.
    rewrite app_nil_r. split_and!; [done|constructor|done].
  - pose proof (Hr false buf (concat (f :: fs))) as Hst. destruct (r false buf) as [a rest|e| |]; try (rewrite Hst; done).
    + rewrite Hst. exists rx, rest, (w ++ ws), (f :: fs). split_and!; [done|by econstructor|done].
    + rewrite Hd. specialize (IH (buf ++ f)). rewrite <-app_assoc in IH. exact IH.
Qed.

(** The writes of a program are not too long for the codec. *)
Fixpoint small_sends {R} (n : nat) (s : Session R) : Prop :=
  match s with
  | SRet _ | SPanic => True
  | SSend bs k => length bs ≤ n ∧ small_sends n k
  | SRecv r k fail => (∀ b, small_sends n (k b)) ∧ ∀ e, small_sends n (fail e)
  end.

Section simulation.
Context {A B : Type} (errA : A) (errB : B).

(** One direction: what the reader has left, the frames under way and the writer. *)
Definition flow (tx : Tx) (rx : Rx) (buf w plain : bytes) : Prop :=
  ∃ fs rx', frames rx w fs rx' ∧ plain = buf ++ concat fs ∧ sc_pair tx rx'.

Definition link_secured (l m : Link A B) : Prop :=
  ∃ txl rxl bufl txr rxr bufr,
    l_left m = secured errA txl rxl bufl (l_left l) ∧ l_right m = secured errB txr rxr bufr (l_right l) ∧
    flow txr rxl bufl (l_to_left m) (l_to_left l) ∧ flow txl rxr bufr (l_to_right m) (l_to_right l).

(** A write of a program: a step of the secured one, or none if nothing is written. *)
Lemma secured_send {R S} (err : R) (t : Session S) tx rx buf bs k w wr rx0 buf0 plain :
  length bs ≤ sc_max → flow tx rx0 buf0 wr plain →
  ∃ tx' wr', flow tx' rx0 buf0 wr' (plain ++ bs) ∧
    rtc link_step (mk_Link (secured err tx rx buf (SSend bs k)) t w wr) (mk_Link (secured err tx' rx buf k) t w wr').
Proof.
  intros Hlen (fs&rx'&Hf&->&Hp). destruct bs as [|b bs].
  - exists tx, wr. split; [|done]. exists fs, rx'. by rewrite app_nil_r.
  - destruct (sc_encode_ok tx rx' (b :: bs) Hp) as (o&tx'&gs&rx''&He&Hg&Hc&Hp'); [done|done|].
    exists tx', (wr ++ o). split.
    + exists (fs ++ gs), rx''. split; [by eapply frames_app|]. rewrite concat_app, Hc, app_assoc. done.
    + cbn [secured]. rewrite He. apply rtc_once. by apply step_left.
Qed.

(** A read of a program. *)
Lemma secured_recv {R S C} (err : R) (t : Session S) tx rx buf (r : Reader C) k fail w wr tx0 inp s' rest :
  stable r → flow tx0 rx buf w inp → sess_step (SRecv r k fail) inp = Some (s', rest, []) →
  ∃ rx' buf' w', flow tx0 rx' buf' w' rest ∧
    rtc link_step (mk_Link (secured err tx rx buf (SRecv r k fail)) t w wr) (mk_Link (secured err tx rx' buf' s') t w' wr).
Proof.
  intros Hr (fs&rx'&Hf&->&Hp) Hstep. pose proof (sec_reader_frames r rx buf w fs rx' Hr Hf) as Hread. cbn [sess_step] in Hstep.
  destruct (r false (buf ++ concat fs)) as [c rest'|e| |]; [| |done|]; simplify_eq.
  - destruct Hread as (rx1&buf1&w1&fs1&Hread&Hf1&->). exists rx1, buf1, w1. split; [by exists fs1, rx'|].
    cbn [secured]. eapply link_recv; [exact Hread|]. done.
  - exists rx, buf, w. split; [by exists fs, rx'|]. cbn [secured]. apply rtc_once.
    rewrite <-(app_nil_r wr) at 2. apply step_left. cbn [sess_step]. by rewrite Hread.
  - exists rx, buf, w. split; [by exists fs, rx'|]. cbn [secured]. apply rtc_once.
    rewrite <-(app_nil_r wr) at 2. apply step_left. cbn [sess_step]. by rewrite Hread.
Qed.

Lemma sess_step_small {R} n (s : Session R) inp s' rest out :
  small_sends n s → sess_step s inp = Some (s', rest, out) → small_sends n s'.
Proof.
  destruct s as [a| |bs k|C r k fail]; cbn; try done; [by intros [_ ?] ?; simplify_eq|]. intros [Hk Hf].
  destruct (r false inp); intros ?; simplify_eq; done.
Qed.

Lemma secured_step {R S} (err : R) (t : Session S) tx rx buf s w wr tx0 inp rx0 buf0 plain s' rest out :
  stable_session s → small_sends sc_max s → flow tx0 rx buf w inp → flow tx rx0 buf0 wr plain →
  sess_step s inp = Some (s', rest, out) →
  ∃ tx' rx' buf' w' wr', flow tx0 rx' buf' w' rest ∧ flow tx' rx0 buf0 wr' (plain ++ out) ∧
    rtc link_step (mk_Link (secured err tx rx buf s) t w wr) (mk_Link (secured err tx' rx' buf' s') t w' wr').
Proof.
  intros Hst Hsm Hin Hout Hstep. destruct s as [a| |bs k|C r k fail]; [done|done| |].
  - cbn in Hstep. simplify_eq. destruct Hsm as [Hlen _].
    destruct (secured_send err t tx rx buf out s' w wr rx0 buf0 plain Hlen Hout) as (tx'&wr'&Hflow&Hrun). eauto 10.
  - assert (out = []) as -> by (cbn in Hstep; destruct (r false inp); by simplify_eq). destruct Hst as [Hr _].
    destruct (secured_recv err t tx rx buf r k fail w wr tx0 inp s' rest Hr Hin Hstep) as (rx'&buf'&w'&Hflow&Hrun).
    exists tx, rx', buf', w', wr. rewrite app_nil_r. done.
Qed.

Lemma link_secured_step l l' m :
  link_stable l → small_sends sc_max (l_left l) → small_sends sc_max (l_right l) → link_secured l m → link_step l l' →
  ∃ m', rtc link_step m m' ∧ link_secured l' m'.
Proof.
  intros [Hsl Hsr] Hml Hmr (txl&rxl&bufl&txr&rxr&bufr&Hl&Hr&Hfl&Hfr) Hstep. destruct m as [ml mr wl wr]. cbn in *. subst.
  inversion Hstep as [s s' t il il' ir out Hs|s t t' il ir ir' out Ht]; subst; cbn in *.
  - destruct (secured_step errA (secured errB txr rxr bufr t) txl rxl bufl s wl wr txr il rxr bufr ir s' il' out)
      as (tx'&rx'&buf'&w'&wr'&H1&H2&H3); [done..|].
    eexists. split; [exact H3|]. by exists tx', rx', buf', txr, rxr, bufr.
  - destruct (secured_step errB (secured errA txl rxl bufl s) txr rxr bufr t wr wl txl ir rxl bufl il t' ir' out)
      as (tx'&rx'&buf'&w'&wr'&H1&H2&H3); [done..|].
    eexists. split; [apply link_swap, H3|]. by exists txl, rxl, bufl, tx', rx', buf'.
Qed.

Lemma link_small_step n (l l' : Link A B) :
  small_sends n (l_left l) → small_sends n (l_right l) → link_step l l' → small_sends n (l_left l') ∧ small_sends n (l_right l').
Proof. intros Hl Hr Hstep. inversion Hstep; subst; cbn in *; split; first [done|by eapply sess_step_small]. Qed.

Lemma link_secured_run l l' m :
  link_stable l → small_sends sc_max (l_left l) → small_sends sc_max (l_right l) → link_secured l m → rtc link_step l l' →
  ∃ m', rtc link_step m m' ∧ link_secured l' m'.
Proof.
  intros Hst Hml Hmr Hm Hrun. revert m Hst Hml Hmr Hm. induction Hrun as [l|l l1 l2 Hstep _ IH]; intros m Hst Hml Hmr Hm; [by exists m|].
  destruct (link_secured_step l l1 m Hst Hml Hmr Hm Hstep) as (m1&Hm1&Hs1). destruct (link_small_step _ l l1 Hml Hmr Hstep) as [Hml1 Hmr1].
  destruct (IH m1) as (m2&Hm2&Hs2); [by eapply link_stable_step|done..|]. exists m2. split; [by etrans|done].
Qed.
End simulation.

Definition paired (o1 o2 : Tx * Rx) : Prop := sc_pair o1.1 o2.2 ∧ sc_pair o2.1 o1.2.

Lemma secured_run {A B} (errA : A) (errB : B) s t a b o1 o2 :
  stable_session s → stable_session t → small_sends sc_max s → small_sends sc_max t → paired o1 o2 →
  rtc link_step (link_start s t) (mk_Link (SRet a) (SRet b) [] []) →
  rtc link_step (link_start (secured errA o1.1 o1.2 [] s) (secured errB o2.1 o2.2 [] t)) (mk_Link (SRet a) (SRet b) [] []).
Proof.
  intros Hs Ht Hms Hmt [Hp1 Hp2] Hrun.
  destruct (link_secured_run errA errB (link_start s t) (mk_Link (SRet a) (SRet b) [] [])
    (link_start (secured errA o1.1 o1.2 [] s) (secured errB o2.1 o2.2 [] t))) as (m&Hm&Hsec); [done|done|done| |done|].
  - exists o1.1, o1.2, [], o2.1, o2.2, []. split_and!; [done|done|..]; [exists [], o1.2|exists [], o2.2]; (split_and!; [constructor|done|done]).
  - destruct m as [ml mr wl wr], Hsec as (txl&rxl&bufl&txr&rxr&bufr&Hl&Hr&(fl&rl&Hfl&Hel&_)&(fr&rr&Hfr&Her&_)). cbn in *.
    symmetry in Hel, Her. apply app_eq_nil in Hel as [_ Hel], Her as [_ Her].
    apply frames_empty in Hfl as [-> _]; [|done]. apply frames_empty in Hfr as [-> _]; [|done]. by subst.
Qed.

(** Two programs that end on a plain socket end with the same results on the two ends of a
    secure channel, in every order. *)
Theorem secured_transparent {A B} (errA : A) (errB : B) s t a b o1 o2
    (Hs : stable_session s) (Ht : stable_session t) (Hms : small_sends sc_max s) (Hmt : small_sends sc_max t)
    (Hpair : paired o1 o2) (Hplain : link_returns s t a b [] []) :
  link_returns (secured errA o1.1 o1.2 [] s) (secured errB o2.1 o2.2 [] t) a b [] [].
Proof.
  destruct Hplain as [_ Hrun]. apply link_returns_intro; [by apply stable_secured..|]. apply secured_run; try done. by apply Hrun.
Qed.
End secured_properties.

(** ** The upgrade of a transport *)

Section sizes.
Context `{VarintLaws} {T : Type} `{ToBytes T}.

(** The longest frame of multistream-select. *)
Definition NEGOTIATION_MAX : nat := Z.to_nat 16386.

Lemma send_message_small m w : send_message m = Ok w → length w ≤ NEGOTIATION_MAX.
Proof.
  unfold send_message, send_frame. rewrite MAX_FRAME_SIZE_eq. set (len := Z.of_nat (length (message_encode m))).
  destruct (Z.leb_spec len 16383) as [Hle|]; [|done]. cbn. intros [= <-]. rewrite length_app.
  destruct (uvi_encode_width 16 len) as (p&b&He&_&_&Hl); [by left|cbn; lia|]. rewrite He, length_app. cbn in *.
  unfold NEGOTIATION_MAX, len in *. lia.
Qed.

Lemma small_on_message {A} n (f : Message → Session (result (NegotiationError T) A)) :
  (∀ m, small_sends n (f m)) → small_sends n (on_message f).
Proof. intros Hf. split; [|done]. intros msg. by destruct (message_decode msg). Qed.

Lemma negotiate_recv_small (n : Negotiator T) st m : length (negotiate_recv n st m).2 ≤ NEGOTIATION_MAX.
Proof.
  assert (Hs : ∀ m' (next : LState T), length (l_send m' next).2 ≤ NEGOTIATION_MAX).
  { intros m' next. unfold l_send. destruct (send_message m') as [w|] eqn:Hw; [by apply send_message_small in Hw|cbn; lia]. }
  destruct st, m; cbn [negotiate_recv]; try apply Hs; try (cbn; lia). destruct (find_protocol n p); apply Hs.
Qed.

Lemma select_next_small (protocols : list (T * Protocol)) cause : length (select_next protocols cause).2 ≤ NEGOTIATION_MAX.
Proof.
  destruct protocols as [|q others]; [cbn; lia|]. cbn [select_next]. unfold d_send.
  destruct (send_message _) as [w|] eqn:Hw; [by apply send_message_small in Hw|cbn; lia].
Qed.

Lemma select_recv_small (n : Negotiator T) st m : length (select_recv n st m).2 ≤ NEGOTIATION_MAX.
Proof.
  destruct st as [|proto others cause|r]; cbn [select_recv]; [case_decide| |]; try apply select_next_small; try (cbn; lia).
  destruct m; try apply select_next_small; try (cbn; lia). case_decide; cbn; lia.
Qed.

Lemma small_negotiate rounds (n : Negotiator T) st : small_sends NEGOTIATION_MAX (negotiate_from rounds n st).
Proof.
  revert st. induction rounds as [|rounds IH]; intros [| |r]; try done; cbn [negotiate_from]; apply small_on_message; intros m;
    (split; [apply negotiate_recv_small|apply IH]).
Qed.

Lemma small_select fuel (n : Negotiator T) st : small_sends NEGOTIATION_MAX (select_from fuel n st).
Proof.
  revert st. induction fuel as [|fuel IH]; intros [|proto others cause|r]; try done; cbn [select_from]; apply small_on_message; intros m;
    (split; [apply select_recv_small|apply IH]).
Qed.

Lemma small_select_one (n : Negotiator T) : small_sends NEGOTIATION_MAX (select_one n).
Proof.
  split; [|apply small_select]. unfold select_start, d_send.
  destruct (send_message (Header V1)) as [w|] eqn:Hw; [by apply send_message_small in Hw|cbn; lia].
Qed.
End sizes.

Lemma small_sess_bind {A B} n (s : Session A) (f : A → Session B) :
  small_sends n s → (∀ a, small_sends n (f a)) → small_sends n (sess_bind s f).
Proof.
  intros Hs Hf. induction s as [a| |bs k IH|C r k IHk fail IHf]; cbn in *; [done|done| |].
  - destruct Hs as [? ?]. split; [done|]. by apply IH.
  - destruct Hs as [Hk Hfl]. split; [intros b; by apply IHk|intros e; by apply IHf].
Qed.

Lemma small_sess_try {E A B} n (s : Session (result E A)) (f : A → Session (result E B)) :
  small_sends n s → (∀ a, small_sends n (f a)) → small_sends n (sess_try s f).
Proof. intros Hs Hf. apply small_sess_bind; [done|]. by intros [a|e]. Qed.

Lemma small_sends_le {R} n n' (s : Session R) : n ≤ n' → small_sends n s → small_sends n' s.
Proof.
  intros Hn. induction s as [a| |bs k IH|C r k IHk fail IHf]; cbn; [done|done| |].
  - intros [? ?]. split; [lia|by apply IH].
  - intros [Hk Hf]. split; [intros b; by apply IHk|intros e; by apply IHf].
Qed.

Definition small_upgrader {I O} (n : nat) (u : Upgrader I O) : Prop :=
  ∀ i, small_sends n (upgrade_inbound u i) ∧ small_sends n (upgrade_outbound u i).

Section transport.
Context `{VarintLaws} {SD SL OD OL MD ML RD RL : Type} `{ToBytes SD, ToBytes SL, ToBytes MD, ToBytes ML}.
Context {Tx Rx : Type} `{SecureCodecLaws Tx Rx} (halvesd : OD → Tx * Rx) (halvesl : OL → Tx * Rx).
Context (secd : Upgrader SD OD) (secl : Upgrader SL OL) (muxd : Upgrader MD RD) (muxl : Upgrader ML RL).

(** What the names and the programs of the upgraders satisfy. *)
Record stack_ok : Prop := {
  st_secd : stable_upgrader secd;
  st_secl : stable_upgrader secl;
  st_muxd : stable_upgrader muxd;
  st_muxl : stable_upgrader muxl;
  st_small : small_upgrader sc_max muxd ∧ small_upgrader sc_max muxl ∧ NEGOTIATION_MAX ≤ sc_max;
  st_names : Forall (λ i, negotiable (to_bytes i)) (protocol_info secd) ∧ Forall (λ i, negotiable (to_bytes i)) (protocol_info muxd)
}.

(** A dialer and a listener with a common security protocol and, on the secured sockets,
    a common multiplexer complete the upgrade of a connection, in every order of the reads
    and writes, with the first common protocols of the dialer. *)
Theorem upgrade_completes i j oa ob x y a b rounds (Hok : stack_ok)
    (Hsec : first_common secd secl i j) (Hshake : handshakes secd secl i j oa ob) (Hpair : paired (halvesd oa) (halvesl ob))
    (Hmux : first_common muxd muxl x y) (Hmshake : handshakes muxd muxl x y a b)
    (Hrounds : S (length (protocol_info secd)) ≤ rounds ∧ S (length (protocol_info muxd)) ≤ rounds) :
  link_returns (upgrade_socket_out halvesd secd muxd) (upgrade_socket_in halvesl rounds secl muxl) (Ok a) (Ok b) [] [].
Proof.
  destruct Hok as [Hd Hl Hmd Hml (Hsd&Hsl&Hmax) [Hn1 Hn2]], Hrounds as [Hr1 Hr2].
  assert (Hsmall : ∀ {R} (s : Session R), small_sends NEGOTIATION_MAX s → small_sends sc_max s) by (intros R s; by apply small_sends_le).
  apply link_returns_intro.
  - apply stable_sess_try; [by apply stable_select_outbound|]. intros o. apply stable_secured. by apply stable_select_outbound.
  - apply stable_sess_try; [by apply stable_select_inbound|]. intros o. apply stable_secured. by apply stable_select_inbound.
  - eapply (link_try_ok _ _ _ _ oa ob [] []); [by eapply link_upgrade|]. apply (secured_run _ _ _ _ (Ok a) (Ok b) (halvesd oa) (halvesl ob)).
    + by apply stable_select_outbound.
    + by apply stable_select_inbound.
    + apply small_sess_try; [apply small_sess_bind; [by apply Hsmall, small_select_one|done]|]. intros m. apply Hsd.
    + apply small_sess_try; [apply small_sess_bind; [by apply Hsmall, small_negotiate|done]|]. intros m. apply Hsl.
    + done.
    + by eapply link_upgrade.
Qed.
End transport.

(** ** The upgrading listener *)

Section listener_properties.
Context {Socket Out : Type}.
Local Abbreviation LU := (ListenerUpgrade (Out := Out)).
Implicit Types s : LU.

(** A run of the listener: rounds of [accept], with what is ready, and upgrades that
    complete. *)
Inductive ListenerAction :=
  | ActRound (incoming : option (result TransportError (ListenerEvent Socket))) (upgraded : option nat)
  | ActComplete (j : nat) (r : result TransportError Out).

(** The listener, the numbers of the connections whose upgrade was returned, and the
    sockets that the inner listener returned. *)
Definition lu_act (act : ListenerAction) (x : LU * list nat * list Socket) : LU * list nat * list Socket :=
  let '(s, out, ins) := x in
  match act with
  | ActComplete j r => (complete j r s, out, ins)
  | ActRound incoming upgraded =>
      match accept_round s incoming upgraded with
      | RoundPending => (s, out, ins)
      | RoundAgain s' => (s', out, ins ++ match incoming with Some (Ok (Accepted so)) => [so] | _ => [] end)
      | RoundReturns s' r =>
          (s', out ++ match (if accepts_more s then incoming else None) with
                      | None => from_option (λ u, [u.1]) [] (j ← upgraded; lu_futures s !! j)
                      | Some _ => []
                      end, ins)
      end
  end.

Definition lu_inv (x : LU * list nat * list Socket) : Prop :=
  let '(s, out, ins) := x in
  lu_next s = length ins ∧ (lu_futures s).*1 ++ out ≡ₚ seq 0 (lu_next s) ∧
  match lu_limit s with Some l => length (lu_futures s) ≤ l | None => True end.

Lemma lu_inv_yield s out ins j u :
  lu_inv (s, out, ins) → lu_futures s !! j = Some u →
  lu_inv (mk_ListenerUpgrade (lu_limit s) (delete j (lu_futures s)) (lu_next s), out ++ [u.1], ins).
Proof.
  intros (Hn&Hp&Hl) Hj. split; [done|]. cbn. split.
  - rewrite <-Hp. rewrite (delete_perm j u (lu_futures s) Hj) at 2. cbn. rewrite (app_assoc _ out), (Permutation_app_comm _ [u.1]). done.
  - pose proof (Permutation_length (delete_perm j u (lu_futures s) Hj)) as Hlen. cbn in Hlen. revert Hl. destruct (lu_limit s); [lia|done].
Qed.

Lemma lu_inv_act act x : lu_inv x → lu_inv (lu_act act x).
Proof.
  destruct x as [[s out] ins]. intros Hinv. pose proof Hinv as (Hn&Hp&Hl). destruct act as [incoming upgraded|j r]; cbn [lu_act].
  - assert (Hyield : (if accepts_more s then incoming else None) = None →
      lu_inv (lu_act (ActRound incoming upgraded) (s, out, ins))).
    { intros Hnone. cbn [lu_act]. unfold accept_round. rewrite Hnone. destruct upgraded as [j|]; [|done]. cbn.
      destruct (lu_futures s !! j) as [[id [r|]]|] eqn:Hj; cbn; [|done|done]. by apply (lu_inv_yield s out ins j (id, Some r)). }
    cbn [lu_act] in Hyield. unfold accept_round in *. destruct (accepts_more s) eqn:Hm; [|by apply Hyield].
    destruct incoming as [[[a|a|so]|e]|]; [| | | |by apply Hyield]; try (rewrite app_nil_r; done).
    split; [cbn; rewrite length_app; cbn; lia|]. cbn. split.
    + rewrite fmap_app, <-app_assoc. cbn. rewrite <-Permutation_middle, Hp. rewrite <-(Permutation_app_comm (seq 0 (lu_next s)) [lu_next s]).
      change (lu_next s) with (0 + lu_next s) at 2. by rewrite <-(seq_S (lu_next s) 0).
    + unfold accepts_more in Hm. destruct (lu_limit s); [|done]. apply Nat.ltb_lt in Hm. rewrite length_app. cbn. lia.
  - split; [done|]. cbn. split.
    + assert (Hfst : (alter (λ u, (u.1, Some (default r u.2))) j (lu_futures s)).*1 = (lu_futures s).*1); [|by rewrite Hfst].
      apply list_eq. intros k. rewrite !list_lookup_fmap. destruct (decide (k = j)) as [->|Hne].
      * rewrite list_lookup_alter_eq. by destruct (lu_futures s !! j).
      * by rewrite list_lookup_alter_ne.
    + rewrite length_alter. done.
Qed.

(** Every connection that the inner listener returned is being upgraded or was returned,
    exactly once, and there are never more upgrades than the limit. *)
Theorem listener_conserves acts :
  let '(s, out, ins) := foldl (flip lu_act) (ListenerUpgrade_new, [], []) acts in
  (lu_futures s).*1 ++ out ≡ₚ seq 0 (length ins) ∧ length (lu_futures s) ≤ 10.
Proof.
  assert (Hlim : ∀ acts x, lu_limit (foldl (flip lu_act) x acts).1.1 = lu_limit x.1.1).
  { clear acts. intros acts. induction acts as [|act acts IH]; intros x; [done|]. cbn [foldl]. rewrite IH. destruct x as [[s out] ins], act; cbn; [|done].
    unfold accept_round. repeat case_match; by simplify_eq. }
  assert (Hinv : lu_inv (foldl (flip lu_act) (ListenerUpgrade_new, [], []) acts)).
  { assert (Hgo : ∀ acts x, lu_inv x → lu_inv (foldl (flip lu_act) x acts)); [|by apply Hgo; split_and!; [| |cbn; lia]].
    clear. induction acts as [|act acts IH]; intros x Hx; [done|]. by apply IH, lu_inv_act. }
  specialize (Hlim acts (ListenerUpgrade_new, [], [])). destruct (foldl _ _ acts) as [[s out] ins].
  destruct Hinv as (Hn&Hp&Hl). cbn in Hlim. rewrite Hlim in Hl. rewrite <-Hn. done.
Qed.

(** A round returns an upgrade that is ready when the inner listener has nothing or is not
    asked. *)
Lemma listener_yields s incoming j id r :
  lu_futures s !! j = Some (id, Some r) → (accepts_more s = false ∨ incoming = None) →
  accept_round (Socket := Socket) s incoming (Some j) =
    RoundReturns (mk_ListenerUpgrade (lu_limit s) (delete j (lu_futures s)) (lu_next s)) (let? o := r in Ok (Accepted o)).
Proof.
  intros Hj Hin. unfold accept_round. assert ((if accepts_more s then incoming else None) = None) as ->.
  { destruct Hin as [->| ->]; [done|]. by destruct (accepts_more s). }
  cbn. rewrite Hj. done.
Qed.

(** As long as the limit of upgrades has not completed, no connection is accepted. *)
Lemma listener_stalls s incoming upgraded :
  accepts_more s = false → Forall (λ u, u.2 = None) (lu_futures s) → accept_round (Socket := Socket) s incoming upgraded = RoundPending.
Proof.
  intros Hm Hall. unfold accept_round. rewrite Hm. destruct upgraded as [j|]; [|done]. cbn.
  destruct (lu_futures s !! j) as [u|] eqn:Hj; [|done]. cbn. by rewrite (Forall_lookup_1 _ _ _ _ Hall Hj).
Qed.
End listener_properties.

(** ** Concrete upgrades *)

#[local] Existing Instance leb128.
#[local] Instance name_to_bytes : ToBytes bytes := λ b, b.

(** A handshake in which both sides greet with a byte. *)
Definition greet (names : list bytes) (b : u8) : Upgrader bytes bytes := {|
  protocol_info := names;
  upgrade_inbound := λ i,
    await? x := sess_map_err IoErr (s_read (read_exact 1)) in
    await? _ := sess_map_err IoErr (s_write ([b], Ok ())) in SRet (Ok (i ++ x));
  upgrade_outbound := λ i,
    await? _ := sess_map_err IoErr (s_write ([b], Ok ())) in
    await? x := sess_map_err IoErr (s_read (read_exact 1)) in SRet (Ok (i ++ x))
|}.

Lemma greet_stable names b : stable_upgrader (greet names b).
Proof.
  intros i. split; cbn.
  - split; [apply stable_read_exact|]. split; intros; [|done]. cbn. done.
  - split; [apply stable_read_exact|]. split; intros; done.
Qed.

Lemma greet_handshakes names1 names2 b i : handshakes (greet names1 b) (greet names2 b) i i (i ++ [b]) (i ++ [b]).
Proof.
  apply link_returns_intro; [apply greet_stable|apply greet_stable|]. unfold link_start. cbn.
  apply link_send. apply link_swap. eapply link_recv; [reflexivity|]. cbn. apply link_send. apply link_swap. eapply link_recv; [reflexivity|]. done.
Qed.

(** The dialer knows [/a] and, as its second choice, [/b]; the listener [/b] and [/c]. *)
Definition dial_a : Upgrader bytes bytes := greet [b_str "/a"] Byte.x07.
Definition dial_b : Upgrader bytes bytes := greet [b_str "/b"] Byte.x07.
Definition dial_ab : Upgrader bytes bytes := greet [b_str "/a"; b_str "/b"] Byte.x07.
Definition listen_bc : Upgrader bytes bytes := greet [b_str "/b"; b_str "/c"] Byte.x07.

Lemma negotiable_a : negotiable (b_str "/a").
Proof. unfold negotiable. by_eval. Qed.
Lemma negotiable_b : negotiable (b_str "/b").
Proof. unfold negotiable. by_eval. Qed.

Lemma common_ab : first_common dial_ab listen_bc (b_str "/b") (b_str "/b").
Proof. exists [(b_str "/a", b_str "/a")], (b_str "/b"), []. split; [reflexivity|]. split; [by constructor|reflexivity]. Qed.
Lemma common_b : first_common dial_b listen_bc (b_str "/b") (b_str "/b").
Proof. exists [], (b_str "/b"), []. split; [reflexivity|]. split; [by constructor|reflexivity]. Qed.

Lemma select_completes_witness :
  link_returns (select_outbound dial_ab) (select_inbound 3 listen_bc) (Ok (b_str "/b" ++ [Byte.x07])) (Ok (b_str "/b" ++ [Byte.x07])) [] [].
Proof.
  apply (select_completes dial_ab listen_bc (greet_stable _ _) (greet_stable _ _)) with (i := b_str "/b") (j := b_str "/b").
  - constructor; [apply negotiable_a|]. constructor; [apply negotiable_b|constructor].
  - apply common_ab.
  - apply greet_handshakes.
  - cbn. lia.
Defined.

Lemma selector_completes_witness :
  link_returns (select_outbound (Selector dial_a dial_b)) (select_inbound 3 listen_bc)
    (Ok (EoB (b_str "/b" ++ [Byte.x07]))) (Ok (b_str "/b" ++ [Byte.x07])) [] [].
Proof.
  destruct (selector_completes dial_a dial_b listen_bc (b_str "/b") (b_str "/b" ++ [Byte.x07]) 3
    (greet_stable _ _) (greet_stable _ _) (greet_stable _ _)) as [_ Hsecond].
  - constructor; [apply negotiable_a|]. constructor; [apply negotiable_b|constructor].
  - cbn. lia.
  - apply (Hsecond (b_str "/b")); [by constructor|apply common_b|apply greet_handshakes].
Defined.

(** A codec with a length before each write. *)
#[local] Instance toy_codec : SecureCodec unit unit := {|
  sc_encode _ bs := Some (be_split 4 (Z.of_nat (length bs)) ++ bs, tt);
  sc_decode _ := rd_bind (read_one_fixed (λ _, 1) 65536) (λ f, rd_ret (Some (f, tt)))
|}.

Lemma toy_decode_consumes (rx : unit) eof inp f rx' rest :
  sc_decode rx eof inp = Done (Some (f, rx')) rest → length rest < length inp.
Proof.
  cbn. unfold rd_bind. destruct (read_one_fixed (λ _, 1) 65536 eof inp) as [x r|e| |] eqn:Hr; try done. intros [= <- <- <-].
  apply read_one_fixed_Done in Hr as [-> _]. rewrite !length_app, length_be_split. lia.
Qed.

#[local] Instance toy_codec_laws : SecureCodecLaws unit unit.
Proof.
  refine {| sc_max := Z.to_nat 65536; sc_pair _ _ := True |}.
  - intros tx rx bs _ Hne Hlen. eexists _, tt, [bs], tt. split; [reflexivity|]. split; [|cbn; by rewrite app_nil_r].
    rewrite <-(app_nil_r (be_split _ _ ++ bs)). apply (frames_cons rx tt tt); [done| |constructor].
    intros eof rest. destruct (written_read_one_fixed (λ _, 1) (λ _, 1) bs 65536 eof) as (ws&_&->&Hread&_); [lia..|].
    cbn. unfold rd_bind. by rewrite Hread.
  - intros rx. apply stable_bind; [apply stable_read_one_fixed|]. intros f. apply stable_ret.
  - apply toy_decode_consumes.
Defined.

Lemma greet_small names b : small_upgrader (Z.to_nat 65536) (greet names b).
Proof. intros i. split; cbn; [split; [|done]; intros x; cbn; split; [lia|done]|split; [lia|done]]. Qed.

Lemma secured_transparent_witness :
  link_returns (secured (Err Timeout) tt tt [] (select_outbound dial_ab)) (secured (Err Timeout) tt tt [] (select_inbound 3 listen_bc))
    (Ok (b_str "/b" ++ [Byte.x07])) (Ok (b_str "/b" ++ [Byte.x07])) [] [].
Proof.
  assert (Hle : NEGOTIATION_MAX ≤ Z.to_nat 65536) by (unfold NEGOTIATION_MAX; lia).
  apply (secured_transparent (Err Timeout) (Err Timeout) (select_outbound dial_ab) (select_inbound 3 listen_bc) _ _ (tt, tt) (tt, tt)).
  - apply stable_select_outbound, greet_stable.
  - apply stable_select_inbound, greet_stable.
  - apply small_sess_try; [apply small_sess_bind; [|done]|intros; apply greet_small]. eapply small_sends_le; [exact Hle|apply small_select_one].
  - apply small_sess_try; [apply small_sess_bind; [|done]|intros; apply greet_small]. eapply small_sends_le; [exact Hle|apply small_negotiate].
  - done.
  - apply link_returns_intro; [apply stable_select_outbound, greet_stable|apply stable_select_inbound, greet_stable|].
    apply (link_upgrade dial_ab listen_bc) with (i := b_str "/b") (j := b_str "/b");
      [|apply common_ab|apply greet_handshakes|cbn; lia]. constructor; [apply negotiable_a|]. constructor; [apply negotiable_b|constructor].
Defined.

Lemma upgrade_completes_witness :
  link_returns (upgrade_socket_out (λ _, (tt, tt)) dial_ab dial_b) (upgrade_socket_in (λ _, (tt, tt)) 3 listen_bc listen_bc)
    (Ok (b_str "/b" ++ [Byte.x07])) (Ok (b_str "/b" ++ [Byte.x07])) [] [].
Proof.
  apply (upgrade_completes (λ _, (tt, tt)) (λ _, (tt, tt)) dial_ab listen_bc dial_b listen_bc
    (b_str "/b") (b_str "/b") (b_str "/b" ++ [Byte.x07]) (b_str "/b" ++ [Byte.x07]) (b_str "/b") (b_str "/b")).
  - split; try apply greet_stable.
    + split_and!; [apply greet_small|apply greet_small|cbn; unfold NEGOTIATION_MAX; lia].
    + split; [constructor; [apply negotiable_a|]|]; (constructor; [apply negotiable_b|constructor]).
  - apply common_ab.
  - apply greet_handshakes.
  - done.
  - apply common_b.
  - apply greet_handshakes.
  - cbn. lia.
Defined.

(** Ten connections whose upgrade does not end keep the listener from accepting another. *)
Definition stalled : ListenerUpgrade (Out := unit) := mk_ListenerUpgrade (Some 10) ((λ i, (i, None)) <$> seq 0 10) 10.
Example listener_blocked : accept_round stalled (Some (Ok (Accepted "socket"%string))) None = RoundPending.
Proof. reflexivity. Qed.
