(* ===== verification/Transports.v ===== *)
(** * Transports: [transports/tcp], [transports/dns], [transports/websocket], [core/src/transport]

    What each transport does with an address, an event or a connection of the layer below:
    TCP with its interface watcher, the DNS resolution in front of it, WebSocket with its
    redirects and TLS, the in-memory hub, timeouts and the private-network protector.  The
    answers of the operating system, of the resolver, of TLS, of the WebSocket handshake
    and of the URL parser are arguments.

    The theorems show that no transport panics on a valid address except the DNS transport
    on the empty one, that TCP addresses and socket addresses round trip and a TCP listener
    announces the interfaces that are up, that exactly the first DNS component is replaced,
    that a WebSocket dial follows a bounded number of redirects and uses TLS exactly for
    [/wss], and that the memory hub delivers each connection once, in order, to the
    listener of its port. *)

From Stdlib Require Import ZArith Lia String.
From stdpp Require Import relations.
From S2P Require Import Prelude Varint StdText Multiaddr Framing Session Pnet Upgrade.

Local Open Scope nat_scope.

(** ** Socket addresses *)

Inductive IpAddr := V4 (a : Ipv4Addr) | V6 (a : Ipv6Addr).
#[global] Instance ipaddr_eq_decision : EqDecision IpAddr.
Proof. solve_decision. Defined.

Definition is_ipv4 (ip : IpAddr) : bool := match ip with V4 _ => true | V6 _ => false end.
Definition is_ipv6 (ip : IpAddr) : bool := match ip with V4 _ => false | V6 _ => true end.
Definition is_unspecified (ip : IpAddr) : bool :=
  match ip with
  | V4 a => bool_decide (a = Ipv4 Byte.x00 Byte.x00 Byte.x00 Byte.x00)
  | V6 a => bool_decide (a = Ipv6 (replicate 8 0%Z))
  end.

Definition proto_of_ip (ip : IpAddr) `{AddrCodecs} : Protocol := match ip with V4 a => Ip4 a | V6 a => Ip6 a end.

Record SocketAddr := mk_SocketAddr { sa_ip : IpAddr; sa_port : Z }.

(** ** TCP: [transports/tcp/src/lib.rs] *)

Record TcpConfig := mk_TcpConfig { tc_ttl : option Z; tc_nodelay : option bool }.
Definition TcpConfig_new : TcpConfig := mk_TcpConfig None None.
Definition ttl (value : Z) (c : TcpConfig) : TcpConfig := mk_TcpConfig (Some value) (tc_nodelay c).
Definition nodelay (value : bool) (c : TcpConfig) : TcpConfig := mk_TcpConfig (tc_ttl c) (Some value).

(** The answers of the operating system on a connected and on a listening socket. *)
Record TcpSocket := mk_TcpSocket {
  ts_set_ttl : Z → result IoErrorKind unit;
  ts_set_nodelay : bool → result IoErrorKind unit;
  ts_local_addr : result IoErrorKind SocketAddr
}.
Record ListenSocket := mk_ListenSocket {
  os_new : result IoErrorKind unit;
  os_set_only_v6 : result IoErrorKind unit;
  os_set_reuse_address : result IoErrorKind unit;
  os_bind : result IoErrorKind unit;
  os_listen : result IoErrorKind unit;
  os_into_listener : result IoErrorKind unit;
  os_local_addr : result IoErrorKind SocketAddr
}.

Record TcpTransStream := mk_TcpTransStream { tt_inner : TcpSocket; tt_la : Multiaddr; tt_ra : Multiaddr }.

Inductive IfEvent := Up (ip : IpAddr) | Down (ip : IpAddr).

Definition apply_config (c : TcpConfig) (s : TcpSocket) : result IoErrorKind unit :=
  let? _ := match tc_ttl c with Some v => ts_set_ttl s v | None => Ok tt end in
  match tc_nodelay c with Some v => ts_set_nodelay s v | None => Ok tt end.

Section tcp.
Context `{Varint} `{AddrCodecs}.

(** The third protocol is read and ignored. *)
Definition multiaddr_to_socketaddr (addr : Multiaddr) : option (result unit SocketAddr) :=
  first ← iter_next addr;
  match first with
  | None => Some (Err tt)
  | Some (proto1, it) =>
      second ← iter_next it;
      match second with
      | None => Some (Err tt)
      | Some (proto2, it) =>
          _ ← iter_next it;
          Some match proto1, proto2 with
               | Ip4 ip, Tcp port => Ok (mk_SocketAddr (V4 ip) port)
               | Ip6 ip, Tcp port => Ok (mk_SocketAddr (V6 ip) port)
               | _, _ => Err tt
               end
      end
  end.

(** [From<IpAddr> for Multiaddr]. *)
Definition maddr_from_ip (ip : IpAddr) : Multiaddr := write_bytes (proto_of_ip ip).
Definition ip_to_multiaddr (ip : IpAddr) (port : Z) : Multiaddr := push (maddr_from_ip ip) (Tcp port).
Definition sock_to_multiaddr (sock : SocketAddr) : Multiaddr := push (maddr_from_ip (sa_ip sock)) (Tcp (sa_port sock)).

Record TcpTransListener := mk_TcpTransListener {
  tl_port : Z;
  tl_first : bool;
  tl_watcher : bool;
  tl_listen_address : option Multiaddr;
  tl_config : TcpConfig
}.

Definition tcp_listen_on (c : TcpConfig) (os : SocketAddr → ListenSocket) (addr : Multiaddr) :
    option (result TransportError TcpTransListener) :=
  sa ← multiaddr_to_socketaddr addr;
  Some match sa with
  | Err _ => Err (MultiaddrNotSupported addr)
  | Ok socket_addr =>
      let s := os socket_addr in
      map_err from_io (
        let? _ := os_new s in
        let? _ := if is_ipv4 (sa_ip socket_addr) then Ok tt else os_set_only_v6 s in
        let? _ := os_set_reuse_address s in
        let? _ := os_bind s in
        let? _ := os_listen s in
        let? _ := map_err (λ _, OtherError) (os_into_listener s) in
        let? local_addr := os_local_addr s in
        let listen_address := if is_unspecified (sa_ip local_addr) then None else Some (sock_to_multiaddr local_addr) in
        Ok (mk_TcpTransListener (sa_port local_addr) true false listen_address c))
  end.

(** [ConnectionRefused] is one of the kinds that [OtherError] stands for. *)
Definition tcp_dial (c : TcpConfig) (connect : SocketAddr → result IoErrorKind TcpSocket) (addr : Multiaddr) :
    option (result TransportError TcpTransStream) :=
  sa ← multiaddr_to_socketaddr addr;
  Some match sa with
  | Err _ => Err (MultiaddrNotSupported addr)
  | Ok socket_addr =>
      if (sa_port socket_addr =? 0)%Z || is_unspecified (sa_ip socket_addr) then Err (IoErr OtherError)
      else map_err from_io (
        let? stream := connect socket_addr in
        let? _ := apply_config c stream in
        let? local_addr := ts_local_addr stream in
        Ok (mk_TcpTransStream stream (sock_to_multiaddr local_addr) addr))
  end.

Definition tcp_event (l : TcpTransListener) (evt : IfEvent) : ListenerEvent TcpTransStream :=
  match evt with
  | Up ip => AddressAdded (ip_to_multiaddr ip (tl_port l))
  | Down ip => AddressDeleted (ip_to_multiaddr ip (tl_port l))
  end.

(** The watcher is created in the first call. *)
Definition tcp_watch (if_watch : bool) (l : TcpTransListener) : option TcpTransListener :=
  if tl_first l then
    if bool_decide (tl_listen_address l = None) then
      if if_watch then Some (mk_TcpTransListener (tl_port l) false true (tl_listen_address l) (tl_config l)) else None
    else Some (mk_TcpTransListener (tl_port l) false (tl_watcher l) (tl_listen_address l) (tl_config l))
  else Some l.

(** [accept], given whether [IfWatcher::new] succeeds and what the watcher and the socket
    have ready; the watcher is polled first.  The inner [None] is a call that waits. *)
Definition tcp_accept (if_watch : bool) (l : TcpTransListener)
    (watch : option (result IoErrorKind IfEvent)) (conn : option (result IoErrorKind (TcpSocket * SocketAddr))) :
    option (TcpTransListener * option (result TransportError (ListenerEvent TcpTransStream))) :=
  l ← tcp_watch if_watch l;
  Some (l,
    match (if tl_watcher l then watch else None), conn with
    | Some evt, _ => Some (map_err from_io (let? evt := evt in Ok (tcp_event l evt)))
    | None, Some r => Some (map_err from_io (
        let? (stream, sock_addr) := r in
        let? _ := apply_config (tl_config l) stream in
        let? local_addr := ts_local_addr stream in
        Ok (Accepted (mk_TcpTransStream stream (sock_to_multiaddr local_addr) (sock_to_multiaddr sock_addr)))))
    | None, None => None
    end).

End tcp.

(** ** DNS: [transports/dns/src/lib.rs] *)

Section dns.
Context `{Varint} `{AddrCodecs} {O : Type}.

(** [find_map]: the name, the families asked for, and the protocols behind it. *)
Fixpoint dns_find (ps : list Protocol) : option (bytes * bool * bool) * list Protocol :=
  match ps with
  | [] => (None, [])
  | Dns name :: ps => (Some (name, true, true), ps)
  | Dns4 name :: ps => (Some (name, true, false), ps)
  | Dns6 name :: ps => (Some (name, false, true), ps)
  | _ :: ps => dns_find ps
  end.

Definition dns_outcome (dns4 dns6 : bool) (l : list SocketAddr) : option Protocol :=
  head (omap (λ s, let addr := sa_ip s in
    if (dns4 && is_ipv4 addr) || (dns6 && is_ipv6 addr) then Some (proto_of_ip addr) else None) l).

(** [dial]; the index is computed before the result of the search is looked at, and
    without a protocol its subtraction underflows. *)
Definition dns_dial (resolve_host : bytes → result IoErrorKind (list SocketAddr))
    (inner_dial : Multiaddr → option (result TransportError O)) (addr : Multiaddr) : option (result TransportError O) :=
  ps ← iter addr;
  let x := dns_find ps in
  if decide (length ps - length x.2 = 0) then None
  else
    let index := length ps - length x.2 - 1 in
    match x.1 with
    | None => inner_dial addr
    | Some (name, dns4, dns6) =>
        match resolve_host (name ++ b_str ":0") with
        | Err _ => Some (Err (ResolveFail name))
        | Ok l =>
            match dns_outcome dns4 dns6 l with
            | None => Some (Err (ResolveFail name))
            | Some outcome =>
                replaced ← replace addr index (λ _, Some outcome);
                match replaced with
                | Some addr => inner_dial addr
                | None => Some (Err (ResolveFail name))
                end
            end
        end
    end.

Definition dns_protocols (inner : list Z) : list Z := inner ++ [DNS].
End dns.

(** ** WebSocket: [transports/websocket/src/framed.rs] *)

Definition MAX_DATA_SIZE : Z := 256 * 1024 * 1024.

(** [tls::Config] always has a client side; of the server side only its presence matters. *)
Record InnerConfig := mk_InnerConfig {
  ic_max_data_size : Z;
  ic_tls_server : bool;
  ic_max_redirects : nat;
  ic_use_deflate : bool
}.
Definition InnerConfig_new : InnerConfig := mk_InnerConfig MAX_DATA_SIZE false 0 false.
Definition set_max_redirects (max : nat) (c : InnerConfig) : InnerConfig :=
  mk_InnerConfig (ic_max_data_size c) (ic_tls_server c) max (ic_use_deflate c).
Definition set_max_data_size (size : Z) (c : InnerConfig) : InnerConfig :=
  mk_InnerConfig size (ic_tls_server c) (ic_max_redirects c) (ic_use_deflate c).
Definition set_tls_config (server : bool) (c : InnerConfig) : InnerConfig :=
  mk_InnerConfig (ic_max_data_size c) server (ic_max_redirects c) (ic_use_deflate c).
Definition use_deflate (flag : bool) (c : InnerConfig) : InnerConfig :=
  mk_InnerConfig (ic_max_data_size c) (ic_tls_server c) (ic_max_redirects c) flag.

(** Errors behind a trait object are kept without their content. *)
Inductive WsError :=
  | WsTransport (e : TransportError)
  | WsTls
  | WsHandshake
  | WsTooManyRedirects
  | WsInvalidMultiaddr (addr : Multiaddr)
  | WsInvalidRedirectLocation.

Definition from_ws (e : WsError) : TransportError :=
  match e with WsInvalidMultiaddr a => MultiaddrNotSupported a | _ => WsErr end.

(** [TlsOrPlain], with the name that the certificate of the server was checked for. *)
Inductive TlsOrPlain := TlsClientStream (dns_name : bytes) | TlsServerStream | PlainStream.

(** A connection, with the frame size set on its builder and its extension. *)
Record WsConnection := mk_WsConnection {
  wc_stream : TlsOrPlain;
  wc_max_frame_size : option Z;
  wc_deflate : bool;
  wc_local_addr : Multiaddr;
  wc_remote_addr : Multiaddr
}.

(** What [url::Url] and [soketto] answer with. *)
Inductive UrlHost := HostDomain (h : bytes) | HostIpv4 (ip : Ipv4Addr) | HostIpv6 (ip : Ipv6Addr).
Record Url := mk_Url { url_host : option UrlHost; url_port : option Z; url_scheme : bytes; url_path : bytes }.
Inductive ServerResponse := SrRedirect (location : bytes) | SrRejected | SrAccepted.

Definition eq_ignore_ascii_case (a b : bytes) : bool := bool_decide (ascii_lower <$> a = ascii_lower <$> b).

(** [webpki] and [url]. *)
Class WsLibs := {
  dns_name_ref : bytes → option bytes;
  url_parse : bytes → option Url
}.

(** The answers during one dial: of the inner transport, of the TLS handshake and of the
    WebSocket handshake with its host and path. *)
Record WsAnswers := mk_WsAnswers {
  wa_dial : Multiaddr → option (result TransportError TcpTransStream);
  wa_tls : bytes → result unit unit;
  wa_handshake : TlsOrPlain → bytes → bytes → result unit ServerResponse
}.
(** The answers during one accept. *)
Record WsServerAnswers := mk_WsServerAnswers {
  wv_tls : result unit unit;
  wv_receive_request : result unit unit;
  wv_send_response : result unit unit
}.

Record WsTransListener := mk_WsTransListener { wl_config : InnerConfig; wl_use_tls : bool }.

Section websocket.
Context `{Varint} `{AddrCodecs} `{WsLibs}.

Definition host_port (host : bytes) (port : Z) : bytes := host ++ Byte.x3a :: fmt_dec port.
Definition named_host (h : bytes) (port : Z) : result WsError (bytes * option bytes) :=
  let? name := ok_or WsTls (dns_name_ref h) in Ok (host_port h port, Some name).

Definition host_and_dnsname (addr : Multiaddr) : option (result WsError (bytes * option bytes)) :=
  first ← iter_next addr;
  second ← match first with Some (_, it) => iter_next it | None => iter_next [] end;
  Some match fst <$> first, fst <$> second with
       | Some (Ip4 ip), Some (Tcp port) => Ok (host_port (ipv4_to_string ip) port, None)
       | Some (Ip6 ip), Some (Tcp port) => Ok (host_port (ipv6_to_string ip) port, None)
       | Some (Dns h), Some (Tcp port) | Some (Dns4 h), Some (Tcp port) | Some (Dns6 h), Some (Tcp port) => named_host h port
       | _, _ => Err (WsInvalidMultiaddr addr)
       end.

Definition location_to_multiaddr (location : bytes) : result WsError Multiaddr :=
  match url_parse location with
  | None => Err WsInvalidRedirectLocation
  | Some url =>
      let? a := match url_host url with
                | Some (HostDomain h) => Ok (push maddr_empty (Dns h))
                | Some (HostIpv4 ip) => Ok (push maddr_empty (Ip4 ip))
                | Some (HostIpv6 ip) => Ok (push maddr_empty (Ip6 ip))
                | None => Err WsInvalidRedirectLocation
                end in
      let a := match url_port url with Some p => push a (Tcp p) | None => a end in
      let s := url_scheme url in
      if eq_ignore_ascii_case s (b_str "https") || eq_ignore_ascii_case s (b_str "wss") then Ok (push a (Wss (url_path url)))
      else if eq_ignore_ascii_case s (b_str "http") || eq_ignore_ascii_case s (b_str "ws") then Ok (push a (Ws (url_path url)))
      else Err WsInvalidRedirectLocation
  end.

(** The protocol that [dial_once] pops decides on TLS and is the path of the request. *)
Definition ws_target (address : Multiaddr) (dns_name : option bytes) (proto : option Protocol) : result WsError (bool * bytes) :=
  match proto with
  | Some (Ws path) => Ok (false, path)
  | Some (Wss path) => match dns_name with Some _ => Ok (true, path) | None => Err (WsInvalidMultiaddr address) end
  | _ => Err (WsInvalidMultiaddr address)
  end.

(** The stream over the raw connection; [None] is the [expect] on the name. *)
Definition ws_stream (w : WsAnswers) (use_tls : bool) (dns_name : option bytes) : option (result WsError TlsOrPlain) :=
  if use_tls then
    name ← dns_name;
    Some (let? _ := map_err (λ _, WsTls) (wa_tls w name) in Ok (TlsClientStream name))
  else Some (Ok PlainStream).

Definition ws_handshake (c : InnerConfig) (w : WsAnswers) (stream : TlsOrPlain) (host path : bytes) (raw : TcpTransStream) :
    result WsError (bytes + WsConnection) :=
  let? response := map_err (λ _, WsHandshake) (wa_handshake w stream host path) in
  match response with
  | SrRedirect location => Ok (inl location)
  | SrRejected => Err WsHandshake
  | SrAccepted => Ok (inr (mk_WsConnection stream None (ic_use_deflate c) (tt_la raw) (tt_ra raw)))
  end.

Definition dial_once (c : InnerConfig) (w : WsAnswers) (address : Multiaddr) : option (result WsError (bytes + WsConnection)) :=
  host ← host_and_dnsname address;
  match host with
  | Err e => Some (Err e)
  | Ok (host, dns_name) =>
      popped ← pop address;
      match ws_target address dns_name popped.1 with
      | Err e => Some (Err e)
      | Ok (use_tls, path) =>
          dialed ← wa_dial w popped.2;
          match dialed with
          | Err e => Some (Err (WsTransport e))
          | Ok raw =>
              stream ← ws_stream w use_tls dns_name;
              match stream with
              | Err e => Some (Err e)
              | Ok stream => Some (ws_handshake c w stream host path raw)
              end
          end
      end
  end.

(** The loop of [dial]; the answers of its rounds and, beside the result, the addresses
    it dialed. *)
Fixpoint ws_dial_loop (c : InnerConfig) (answers : nat → WsAnswers) (round remaining_redirects : nat) (addr : Multiaddr) :
    option (result TransportError WsConnection * list Multiaddr) :=
  once ← dial_once c (answers round) addr;
  match once with
  | Ok (inl redirect) =>
      match remaining_redirects with
      | 0 => Some (Err (from_ws WsTooManyRedirects), [addr])
      | S remaining_redirects =>
          match location_to_multiaddr redirect with
          | Err e => Some (Err (from_ws e), [addr])
          | Ok addr' =>
              x ← ws_dial_loop c answers (S round) remaining_redirects addr';
              Some (x.1, addr :: x.2)
          end
      end
  | Ok (inr conn) => Some (Ok conn, [addr])
  | Err e => Some (Err (from_ws e), [addr])
  end.

Definition is_ws (p : Protocol) : bool := match p with Ws _ | Wss _ => true | _ => false end.

Definition ws_dial (c : InnerConfig) (answers : nat → WsAnswers) (addr : Multiaddr) :
    option (result TransportError WsConnection * list Multiaddr) :=
  ps ← iter addr;
  if match last ps with Some p => is_ws p | None => false end then ws_dial_loop c answers 0 (ic_max_redirects c) addr
  else Some (Err (MultiaddrNotSupported addr), []).

(** [listen_on] hands the whole address to the inner transport. *)
Definition ws_listen_on {L} (c : InnerConfig) (inner_listen : Multiaddr → option (result TransportError L)) (addr : Multiaddr) :
    option (result TransportError (L * WsTransListener)) :=
  popped ← pop addr;
  match (match popped.1 with
         | Some (Wss _) => if ic_tls_server c then Some true else None
         | Some (Ws _) => Some false
         | _ => None
         end) with
  | None => Some (Err (MultiaddrNotSupported addr))
  | Some use_tls =>
      inner ← inner_listen addr;
      Some (let? inner_listener := inner in Ok (inner_listener, mk_WsTransListener c use_tls))
  end.

(** [accept], after the event [e] of the inner listener. *)
Definition ws_accept (l : WsTransListener) (w : WsServerAnswers) (e : result TransportError (ListenerEvent TcpTransStream)) :
    option (result TransportError (ListenerEvent WsConnection)) :=
  match e with
  | Err e => Some (Err e)
  | Ok (AddressAdded a) => Some (Ok (AddressAdded a))
  | Ok (AddressDeleted a) => Some (Ok (AddressDeleted a))
  | Ok (Accepted raw) =>
      stream ← if wl_use_tls l then
                 if ic_tls_server (wl_config l) then Some (let? _ := map_err (λ _, WsTls) (wv_tls w) in Ok TlsServerStream)
                 else None
               else Some (Ok PlainStream);
      Some (map_err from_ws (
        let? stream := stream in
        let? _ := map_err (λ _, WsHandshake) (wv_receive_request w) in
        let? _ := map_err (λ _, WsHandshake) (wv_send_response w) in
        Ok (Accepted (mk_WsConnection stream (Some (ic_max_data_size (wl_config l))) (ic_use_deflate (wl_config l))
          (tt_la raw) (tt_ra raw)))))
  end.
End websocket.

(** ** Timeouts: [core/src/transport/timeout.rs] *)

Record TransportTimeout := mk_TransportTimeout { to_outgoing : Z; to_incoming : Z }.
Definition HUNDRED_YEARS : Z := 100 * 365 * 24 * 3600.
Definition TransportTimeout_new (timeout : Z) : TransportTimeout := mk_TransportTimeout timeout timeout.
Definition with_outgoing_timeout (timeout : Z) : TransportTimeout := mk_TransportTimeout timeout HUNDRED_YEARS.
Definition with_ingoing_timeout (timeout : Z) : TransportTimeout := mk_TransportTimeout HUNDRED_YEARS timeout.

(** [select] of a future, with the time its result is ready at, and a delay: the future
    is polled first.  With the result, the time at which [select] returns. *)
Definition select_delay {A} (fut : option (Z * result TransportError A)) (timeout : Z) : Z * result TransportError A :=
  match fut with
  | Some (at_, r) => if (at_ <=? timeout)%Z then (at_, r) else (timeout, Err Timeout)
  | None => (timeout, Err Timeout)
  end.
Definition timeout_dial {A} (t : TransportTimeout) (inner_dial : option (Z * result TransportError A)) : Z * result TransportError A :=
  select_delay inner_dial (to_outgoing t).
Definition timeout_accept {A} (t : TransportTimeout) (inner_accept : option (Z * result TransportError (ListenerEvent A))) :
    Z * result TransportError (ListenerEvent A) :=
  select_delay inner_accept (to_incoming t).

(** ** The private-network protector: [core/src/transport/protector.rs] *)

Section protector.
Context `{PnetCrypto}.

Record PnetStream := mk_PnetStream { ps_io : PnetOutput; ps_la : Multiaddr; ps_ra : Multiaddr }.

Definition protect (accepts : nat → nat) (c : PnetConfig) (nonce : bytes) (la ra : Multiaddr) :
    Session (result TransportError PnetStream) :=
  sess_bind (pnet_handshake accepts c nonce) (λ r,
    SRet (map_err (λ _, ProtectorErr) (let? io := r in Ok (mk_PnetStream io la ra)))).

(** [dial] and [accept], after the inner transport has connected. *)
Definition protector_dial (accepts : nat → nat) (c : PnetConfig) (nonce : bytes) (socket : result TransportError TcpTransStream) :
    Session (result TransportError PnetStream) :=
  match socket with
  | Err e => SRet (Err e)
  | Ok s => protect accepts c nonce (tt_la s) (tt_ra s)
  end.

Definition protector_accept (accepts : nat → nat) (c : PnetConfig) (nonce : bytes)
    (e : result TransportError (ListenerEvent TcpTransStream)) : Session (result TransportError (ListenerEvent PnetStream)) :=
  match e with
  | Err e => SRet (Err e)
  | Ok (Accepted o) => sess_bind (protect accepts c nonce (tt_la o) (tt_ra o)) (λ r, SRet (let? s := r in Ok (Accepted s)))
  | Ok (AddressAdded a) => SRet (Ok (AddressAdded a))
  | Ok (AddressDeleted a) => SRet (Ok (AddressDeleted a))
  end.
End protector.

(** ** The memory transport: [core/src/transport/memory.rs] *)

Section memory.
Context `{Varint} `{AddrCodecs}.

(** If the address is [/memory/n], the value of [n]. *)
Definition parse_memory_addr (a : Multiaddr) : option (result unit Z) :=
  first ← iter_next a;
  match first with
  | Some (Memory port, it) =>
      second ← iter_next it;
      Some (match second with Some _ => Err tt | None => Ok port end)
  | _ => Some (Err tt)
  end.

(** One end of a connection; [mc_id] tells the connections apart. *)
Record MemChannel := mk_MemChannel { mc_id : nat; mc_la : Multiaddr; mc_ra : Multiaddr }.

(** A listener with the connections in its channel. *)
Record MemListener := mk_MemListener { ml_port : Z; ml_addr : Multiaddr; ml_queue : list MemChannel }.

(** The hub maps a port to the channel of its listener.  [hub_dials] are the dials that
    have cloned a sender and released the lock, and have not sent yet. *)
Record Hub := mk_Hub {
  hub_ports : gmap Z nat;
  hub_listeners : gmap nat MemListener;
  hub_next : nat;
  hub_dials : list (nat * MemChannel);
  hub_conns : nat
}.
Definition Hub_new : Hub := mk_Hub ∅ ∅ 0 [] 0.

Inductive HubOp :=
  | HListen (addr : Multiaddr) (random : list Z)
  | HDial (addr : Multiaddr)
  | HSend (k : nat)
  | HAccept (id : nat)
  | HDrop (id : nat).

Inductive HubResult :=
  | RListening (id : nat) (addr : Multiaddr)
  | RSpins
  | RDialing
  | RConnected (id : nat) (c : MemChannel)
  | RAccepted (id : nat) (c : MemChannel)
  | RWaits
  | RDropped
  | RError (e : TransportError).

(** The loop that draws a free port; [None] while it has found none. *)
Definition random_port (hub : gmap Z nat) (random : list Z) : option Z :=
  List.find (λ p, negb (p =? 0)%Z && bool_decide (hub !! p = None)) random.

Definition listen_port (hub : gmap Z nat) (port : Z) (random : list Z) : option Z :=
  if (port =? 0)%Z then random_port hub random else Some port.

Definition mem_listen_on (h : Hub) (addr : Multiaddr) (random : list Z) : option (Hub * HubResult) :=
  parsed ← parse_memory_addr addr;
  Some match parsed with
  | Err _ => (h, RError (MultiaddrNotSupported addr))
  | Ok port =>
      match listen_port (hub_ports h) port random with
      | None => (h, RSpins)
      | Some port =>
          match hub_ports h !! port with
          | Some _ => (h, RError Unreachable)
          | None =>
              let id := hub_next h in
              let l := mk_MemListener port (write_bytes (Memory port)) [] in
              (mk_Hub (<[port := id]> (hub_ports h)) (<[id := l]> (hub_listeners h)) (S id) (hub_dials h) (hub_conns h),
               RListening id (ml_addr l))
          end
      end
  end.

(** [dial] up to the clone of the sender. *)
Definition mem_dial (h : Hub) (addr : Multiaddr) : option (Hub * HubResult) :=
  parsed ← parse_memory_addr addr;
  Some match parsed with
  | Err _ => (h, RError (MultiaddrNotSupported addr))
  | Ok port =>
      if (port =? 0)%Z then (h, RError Unreachable)
      else match hub_ports h !! port with
           | None => (h, RError Unreachable)
           | Some id =>
               let c := mk_MemChannel (hub_conns h) maddr_empty addr in
               (mk_Hub (hub_ports h) (hub_listeners h) (hub_next h) (hub_dials h ++ [(id, c)]) (S (hub_conns h)), RDialing)
           end
  end.

(** The send of a dial, which fails when the listener has gone. *)
Definition mem_send (h : Hub) (k : nat) : option (Hub * HubResult) :=
  Some match hub_dials h !! k with
  | None => (h, RWaits)
  | Some (id, c) =>
      let dials := take k (hub_dials h) ++ drop (S k) (hub_dials h) in
      match hub_listeners h !! id with
      | None => (mk_Hub (hub_ports h) (hub_listeners h) (hub_next h) dials (hub_conns h), RError Unreachable)
      | Some l =>
          let l := mk_MemListener (ml_port l) (ml_addr l) (ml_queue l ++ [c]) in
          (mk_Hub (hub_ports h) (<[id := l]> (hub_listeners h)) (hub_next h) dials (hub_conns h), RConnected id c)
      end
  end.

Definition mem_accept (h : Hub) (id : nat) : option (Hub * HubResult) :=
  Some match hub_listeners h !! id with
  | None => (h, RWaits)
  | Some l =>
      match ml_queue l with
      | [] => (h, RWaits)
      | c :: queue =>
          (mk_Hub (hub_ports h) (<[id := mk_MemListener (ml_port l) (ml_addr l) queue]> (hub_listeners h)) (hub_next h)
             (hub_dials h) (hub_conns h), RAccepted id c)
      end
  end.

(** [Drop for Listener], with its assertion, and the drop of its fields. *)
Definition mem_drop (h : Hub) (id : nat) : option (Hub * HubResult) :=
  match hub_listeners h !! id with
  | None => Some (h, RWaits)
  | Some l =>
      _ ← hub_ports h !! ml_port l;
      Some (mk_Hub (delete (ml_port l) (hub_ports h)) (delete id (hub_listeners h)) (hub_next h) (hub_dials h) (hub_conns h), RDropped)
  end.

Definition hub_step (h : Hub) (op : HubOp) : option (Hub * HubResult) :=
  match op with
  | HListen addr random => mem_listen_on h addr random
  | HDial addr => mem_dial h addr
  | HSend k => mem_send h k
  | HAccept id => mem_accept h id
  | HDrop id => mem_drop h id
  end.

Fixpoint hub_run (h : Hub) (ops : list HubOp) : option (Hub * list HubResult) :=
  match ops with
  | [] => Some (h, [])
  | op :: ops =>
      x ← hub_step h op;
      y ← hub_run x.1 ops;
      Some (y.1, x.2 :: y.2)
  end.

(** The connections a listener was sent and has handed out. *)
Definition sent (id : nat) (log : list HubResult) : list MemChannel :=
  omap (λ r, match r with RConnected i c => if decide (i = id) then Some c else None | _ => None end) log.
Definition handed_out (id : nat) (log : list HubResult) : list MemChannel :=
  omap (λ r, match r with RAccepted i c => if decide (i = id) then Some c else None | _ => None end) log.
Definition mem_queue (h : Hub) (id : nat) : list MemChannel := from_option ml_queue [] (hub_listeners h !! id).
Definition listening (h : Hub) (id : nat) : Prop := is_Some (hub_listeners h !! id).

(** The addresses of the operations are values of [Multiaddr]. *)
Definition op_valid (op : HubOp) : Prop :=
  match op with HListen addr _ | HDial addr => is_Some (iter addr) | _ => True end.
End memory.

(** ** Addresses that a transport reads *)

Section transport_theory.
Context `{HV : Varint} `{HVL : !VarintCodecLaws} `{HC : AddrCodecs} `{HCL : !AddrCodecsLaws}.
Implicit Types (ps : list Protocol) (addr m : Multiaddr).

Lemma iter_next_tail m ps :
  iter m = Some ps →
  match ps with
  | [] => iter_next m = Some None
  | p :: ps' => ∃ it, iter_next m = Some (Some (p, it)) ∧ iter it = Some ps'
  end.
Proof.
  intros Hm%denotes_iter. destruct Hm as [|m p rest ps Hf Hd]; [done|].
  exists rest. split; [|by apply denotes_iter]. unfold iter_next.
  destruct m; [by apply from_bytes_nonempty in Hf|]. by rewrite Hf.
Qed.

(** What [multiaddr_to_socketaddr] computes on the protocols of an address. *)
Definition socket_of (ps : list Protocol) : result unit SocketAddr :=
  match ps with
  | Ip4 ip :: Tcp port :: _ => Ok (mk_SocketAddr (V4 ip) port)
  | Ip6 ip :: Tcp port :: _ => Ok (mk_SocketAddr (V6 ip) port)
  | _ => Err tt
  end.

Lemma to_socketaddr_spec addr ps : iter addr = Some ps → multiaddr_to_socketaddr addr = Some (socket_of ps).
Proof.
  intros Hi%iter_next_tail. unfold multiaddr_to_socketaddr.
  destruct ps as [|p1 ps]; [by rewrite Hi|]. destruct Hi as (it&->&Hi%iter_next_tail). cbn [mbind option_bind].
  destruct ps as [|p2 ps]; [rewrite Hi; by destruct p1|]. destruct Hi as (it'&->&Hi%iter_next_tail). cbn [mbind option_bind].
  destruct ps as [|p3 ps]; [rewrite Hi|destruct Hi as (?&->&_)]; by destruct p1, p2.
Qed.

Definition socket_wf (s : SocketAddr) : Prop :=
  u16_ok (sa_port s) ∧ match sa_ip s with V4 _ => True | V6 a => ipv6_wf a end.

Lemma proto_of_ip_wf ip : match ip with V4 _ => True | V6 a => ipv6_wf a end → protocol_wf (proto_of_ip ip).
Proof. by destruct ip. Qed.

Lemma sock_to_multiaddr_iter s : socket_wf s → iter (sock_to_multiaddr s) = Some [proto_of_ip (sa_ip s); Tcp (sa_port s)].
Proof.
  intros [Hp Hip]. apply denotes_iter. unfold sock_to_multiaddr, maddr_from_ip.
  apply (denotes_push _ [_]); [|done]. by apply denotes_write, proto_of_ip_wf.
Qed.

Lemma socket_of_proto s ps : socket_of (proto_of_ip (sa_ip s) :: Tcp (sa_port s) :: ps) = Ok s.
Proof. by destruct s as [[] ?]. Qed.

Lemma sock_roundtrip s : socket_wf s → multiaddr_to_socketaddr (sock_to_multiaddr s) = Some (Ok s).
Proof. intros Hs. by rewrite (to_socketaddr_spec _ _ (sock_to_multiaddr_iter s Hs)), socket_of_proto. Qed.

Lemma ip_to_multiaddr_inj ip1 ip2 port :
  socket_wf (mk_SocketAddr ip1 port) → socket_wf (mk_SocketAddr ip2 port) →
  ip_to_multiaddr ip1 port = ip_to_multiaddr ip2 port → ip1 = ip2.
Proof.
  intros H1%sock_roundtrip H2%sock_roundtrip Heq. unfold sock_to_multiaddr in *. cbn [sa_ip sa_port] in *.
  unfold ip_to_multiaddr in Heq. rewrite Heq, H2 in H1. congruence.
Qed.

(** *** The interfaces that a listener announces *)

(** One call of [accept] with what the watcher and the socket have ready. *)
Definition AcceptInput : Type := option (result IoErrorKind IfEvent) * option (result IoErrorKind (TcpSocket * SocketAddr)).

Fixpoint tcp_accepts (l : TcpTransListener) (inputs : list AcceptInput) :
    option (list (result TransportError (ListenerEvent TcpTransStream))) :=
  match inputs with
  | [] => Some []
  | i :: inputs =>
      x ← tcp_accept true l i.1 i.2;
      rs ← tcp_accepts x.1 inputs;
      Some (match x.2 with Some r => r :: rs | None => rs end)
  end.

(** The addresses announced, and the interfaces that are up. *)
Definition announced {O} (events : list (result TransportError (ListenerEvent O))) (init : list Multiaddr) : list Multiaddr :=
  foldl (λ addrs e,
    match e with
    | Ok (AddressAdded a) => a :: addrs
    | Ok (AddressDeleted a) => filter (.≠ a) addrs
    | _ => addrs
    end) init events.
Definition interfaces (inputs : list AcceptInput) (init : list IpAddr) : list IpAddr :=
  foldl (λ ips i,
    match i.1 with
    | Some (Ok (Up ip)) => ip :: ips
    | Some (Ok (Down ip)) => filter (.≠ ip) ips
    | _ => ips
    end) init inputs.

Definition input_wf (port : Z) (i : AcceptInput) : Prop :=
  match i.1 with Some (Ok (Up ip)) | Some (Ok (Down ip)) => socket_wf (mk_SocketAddr ip port) | _ => True end.

Lemma announced_delete port ip ips :
  socket_wf (mk_SocketAddr ip port) → Forall (λ i, socket_wf (mk_SocketAddr i port)) ips →
  filter (.≠ ip_to_multiaddr ip port) ((λ i, ip_to_multiaddr i port) <$> ips) =
  (λ i, ip_to_multiaddr i port) <$> filter (.≠ ip) ips.
Proof.
  intros Hip. induction 1 as [|i ips Hi _ IH]; [done|]. rewrite fmap_cons, !filter_cons.
  destruct (decide (i = ip)) as [->|Hne].
  - rewrite !decide_False by (intros Hn; by apply Hn). done.
  - rewrite (decide_True (P := i ≠ ip)) by done. rewrite decide_True by (intros Heq%ip_to_multiaddr_inj; done).
    by rewrite fmap_cons, IH.
Qed.

Lemma announced_cons {O} (e : result TransportError (ListenerEvent O)) es init :
  announced (e :: es) init = announced es (announced [e] init).
Proof. done. Qed.
Lemma interfaces_cons i inputs init : interfaces (i :: inputs) init = interfaces inputs (interfaces [i] init).
Proof. done. Qed.

(** A listener that watches stays so and keeps its port. *)
Lemma tcp_accept_watching l i :
  tl_first l = false → tl_watcher l = true →
  ∃ r, tcp_accept true l i.1 i.2 = Some (l, r) ∧
    ∀ ips, input_wf (tl_port l) i → Forall (λ ip, socket_wf (mk_SocketAddr ip (tl_port l))) ips →
      announced (match r with Some e => [e] | None => [] end) ((λ ip, ip_to_multiaddr ip (tl_port l)) <$> ips) =
        (λ ip, ip_to_multiaddr ip (tl_port l)) <$> interfaces [i] ips ∧
      Forall (λ ip, socket_wf (mk_SocketAddr ip (tl_port l))) (interfaces [i] ips).
Proof.
  intros Hf Hw. unfold tcp_accept, tcp_watch. rewrite Hf. cbn [mbind option_bind]. rewrite Hw.
  eexists. split; [done|]. intros ips. destruct i as [[[[ip|ip]|e]|] conn]; cbn [input_wf fst snd]; intros Hwf Hips.
  - by split; [|constructor].
  - split; [by apply announced_delete|]. by apply Forall_filter.
  - done.
  - destruct conn as [[[s sa]|e]|]; [|done..]. cbn. destruct (apply_config _ _); [|done]. cbn. by destruct (ts_local_addr s).
Qed.

Lemma announced_app {O} (es1 es2 : list (result TransportError (ListenerEvent O))) init :
  announced (es1 ++ es2) init = announced es2 (announced es1 init).
Proof. apply foldl_app. Qed.

Lemma tcp_accepts_watching inputs : ∀ l ips,
  tl_first l = false → tl_watcher l = true → Forall (input_wf (tl_port l)) inputs →
  Forall (λ ip, socket_wf (mk_SocketAddr ip (tl_port l))) ips →
  ∃ events, tcp_accepts l inputs = Some events ∧
    announced events ((λ ip, ip_to_multiaddr ip (tl_port l)) <$> ips) =
    (λ ip, ip_to_multiaddr ip (tl_port l)) <$> interfaces inputs ips.
Proof.
  induction inputs as [|i inputs IH]; intros l ips Hf Hw Hin Hips; [by exists []|].
  apply Forall_cons in Hin as [Hi Hin]. destruct (tcp_accept_watching l i Hf Hw) as (r&Hr&Hspec).
  destruct (Hspec ips Hi Hips) as [Ha Hips']. destruct (IH l (interfaces [i] ips) Hf Hw Hin Hips') as (es&Hes&Hann).
  exists ((match r with Some e => [e] | None => [] end) ++ es). cbn [tcp_accepts]. rewrite Hr. cbn [mbind option_bind fst snd].
  rewrite Hes. split; [by destruct r|]. rewrite announced_app, Ha. etrans; [exact Hann|done].
Qed.

(** The first call creates the watcher. *)
Lemma tcp_accepts_first l inputs :
  tl_first l = true → tl_listen_address l = None → inputs ≠ [] →
  tcp_accepts l inputs = tcp_accepts (mk_TcpTransListener (tl_port l) false true None (tl_config l)) inputs.
Proof.
  intros Hf Hl Hne. destruct inputs as [|i inputs]; [done|]. cbn [tcp_accepts]. unfold tcp_accept, tcp_watch.
  by rewrite Hf, Hl.
Qed.
End transport_theory.

(** ** TCP and DNS *)

Section tcp_properties.
Context `{HV : Varint} `{HVL : !VarintCodecLaws} `{HC : AddrCodecs} `{HCL : !AddrCodecsLaws}.
Implicit Types (ps : list Protocol) (addr : Multiaddr).

(** The address written for a socket address is read back, whatever protocols follow it,
    and only addresses that start this way are read as this socket address. *)
Theorem tcp_address_roundtrip s ps (Hs : socket_wf s) (Hps : Forall protocol_wf ps) :
  multiaddr_to_socketaddr (sock_to_multiaddr s ++ from_iter ps) = Some (Ok s) ∧
  ∀ addr qs, iter addr = Some qs →
    multiaddr_to_socketaddr addr = Some (Ok s) ↔ ∃ tail, qs = proto_of_ip (sa_ip s) :: Tcp (sa_port s) :: tail.
Proof.
  split.
  - assert (Hi : iter (sock_to_multiaddr s ++ from_iter ps) = Some ([proto_of_ip (sa_ip s); Tcp (sa_port s)] ++ ps)).
    { apply denotes_iter, denotes_app; [|by apply denotes_from_iter]. by apply denotes_iter, sock_to_multiaddr_iter. }
    rewrite (to_socketaddr_spec _ _ Hi). cbn [app]. by rewrite socket_of_proto.
  - intros addr qs Hi. rewrite (to_socketaddr_spec _ _ Hi). split; [|intros [tail ->]; by rewrite socket_of_proto].
    intros [= Hq]. destruct qs as [|[] [|[] tail]]; try done; injection Hq as <-; by exists tail.
Qed.

Lemma tcp_dial_total c connect addr : is_Some (iter addr) → is_Some (tcp_dial c connect addr).
Proof. intros [ps Hi]. unfold tcp_dial. rewrite (to_socketaddr_spec _ _ Hi). eauto. Qed.

(** The inner part of [tcp_dial] on an address of a socket that can be dialed. *)
Lemma tcp_dial_socket c connect addr ps s :
  iter addr = Some ps → socket_of ps = Ok s → sa_port s ≠ 0%Z → is_unspecified (sa_ip s) = false →
  tcp_dial c connect addr = Some (map_err from_io (
    let? stream := connect s in
    let? _ := apply_config c stream in
    let? local_addr := ts_local_addr stream in
    Ok (mk_TcpTransStream stream (sock_to_multiaddr local_addr) addr))).
Proof.
  intros Hi Hs Hp Hu. unfold tcp_dial. rewrite (to_socketaddr_spec _ _ Hi). cbn [mbind option_bind]. rewrite Hs, Hu.
  by rewrite (proj2 (Z.eqb_neq _ _)).
Qed.

(** A listener on the unspecified address does not panic and, whatever connections come
    in between, has announced exactly the interfaces that are up, on its port. *)
Theorem tcp_listener_tracks c os addr l inputs (Hl : tcp_listen_on c os addr = Some (Ok l)) (Hany : tl_listen_address l = None)
    (Hin : Forall (input_wf (tl_port l)) inputs) :
  ∃ events, tcp_accepts l inputs = Some events ∧
    announced events [] = (λ ip, ip_to_multiaddr ip (tl_port l)) <$> interfaces inputs [].
Proof.
  assert (Hf : tl_first l = true).
  { revert Hl. unfold tcp_listen_on. destruct (multiaddr_to_socketaddr addr) as [[sa|]|]; [|done..]. cbn [mbind option_bind].
    set (s := os sa). destruct (os_new s); [|done]. cbn. destruct (if is_ipv4 _ then _ else _); [|done]. cbn.
    destruct (os_set_reuse_address s); [|done]. cbn. destruct (os_bind s); [|done]. cbn. destruct (os_listen s); [|done]. cbn.
    destruct (os_into_listener s); [|done]. cbn. destruct (os_local_addr s); [|done]. cbn. by intros [= <-]. }
  destruct inputs as [|i inputs]; [by exists []|]. rewrite tcp_accepts_first by done.
  apply (tcp_accepts_watching (i :: inputs) (mk_TcpTransListener (tl_port l) false true None (tl_config l)) []); done.
Qed.

(** *** DNS *)

Definition dns_name (p : Protocol) : option (bytes * bool * bool) :=
  match p with
  | Dns name => Some (name, true, true)
  | Dns4 name => Some (name, true, false)
  | Dns6 name => Some (name, false, true)
  | _ => None
  end.

Lemma dns_find_none ps : Forall (λ p, dns_name p = None) ps → dns_find ps = (None, []).
Proof. induction 1 as [|p ps Hp _ IH]; [done|]. by destruct p. Qed.
Lemma dns_find_some pre p post x : Forall (λ p, dns_name p = None) pre → dns_name p = Some x → dns_find (pre ++ p :: post) = (Some x, post).
Proof.
  intros Hpre Hp. induction Hpre as [|q pre Hq _ IH]; [|by destruct q].
  destruct p; try done; simpl in *; congruence.
Qed.

Lemma dns_outcome_wf dns4 dns6 l q : Forall socket_wf l → dns_outcome dns4 dns6 l = Some q → protocol_wf q.
Proof.
  intros Hl Hq%head_Some_elem_of. apply list_elem_of_omap in Hq as (s&Hs&Hsome). rewrite Forall_forall in Hl.
  destruct (Hl s Hs) as [_ Hip]. cbn zeta in Hsome. destruct (_ || _); [|done]. injection Hsome as <-. by apply proto_of_ip_wf.
Qed.

Lemma dns_dial_name {O} resolve (inner : Multiaddr → option (result TransportError O)) addr pre p post name dns4 dns6 :
  iter addr = Some (pre ++ p :: post) → (∀ name l, resolve name = Ok l → Forall socket_wf l) →
  Forall (λ p, dns_name p = None) pre → dns_name p = Some (name, dns4, dns6) →
  match (match resolve (name ++ b_str ":0") with Ok l => dns_outcome dns4 dns6 l | Err _ => None end) with
  | Some q => ∃ addr', iter addr' = Some (pre ++ q :: post) ∧ dns_dial resolve inner addr = inner addr'
  | None => dns_dial resolve inner addr = Some (Err (ResolveFail name))
  end.
Proof.
  intros Hi Hres Hpre Hp. unfold dns_dial. rewrite Hi. cbn [mbind option_bind].
  rewrite (dns_find_some _ _ _ _ Hpre Hp). cbn [fst snd]. rewrite length_app. cbn [length]. rewrite decide_False by lia.
  replace (length pre + S (length post) - length post - 1) with (length pre) by lia.
  destruct (resolve _) as [l|] eqn:Hl; [|done]. destruct (dns_outcome dns4 dns6 l) as [q|] eqn:Hq; [|done].
  assert (Hwf : protocol_wf q) by eauto using dns_outcome_wf.
  destruct (replace_refines addr _ (length pre) (λ _, Some q) Hi) as (r&Hr&Hspec); [by intros _ ? [= <-]|].
  rewrite Hr. cbn [mbind option_bind]. rewrite list_lookup_middle in Hspec by done. cbn [mbind option_bind] in Hspec.
  destruct r as [addr'|]; [|done]. exists addr'. split; [|done]. by rewrite Hspec, insert_app_r_alt, Nat.sub_diag by done.
Qed.

(** Of a valid address exactly the first DNS component is replaced, by the first answer of
    a family it asks for, and the result is dialed; an address without one is dialed
    unchanged; a name without an answer is an error; the empty address panics. *)
Theorem dns_dial_spec {O} resolve (inner : Multiaddr → option (result TransportError O)) addr ps
    (Hi : iter addr = Some ps) (Hres : ∀ name l, resolve name = Ok l → Forall socket_wf l) :
  (ps = [] → dns_dial resolve inner addr = None) ∧
  (ps ≠ [] → Forall (λ p, dns_name p = None) ps → dns_dial resolve inner addr = inner addr) ∧
  ∀ pre p post name dns4 dns6,
    ps = pre ++ p :: post → Forall (λ p, dns_name p = None) pre → dns_name p = Some (name, dns4, dns6) →
    match (match resolve (name ++ b_str ":0") with Ok l => dns_outcome dns4 dns6 l | Err _ => None end) with
    | Some q => ∃ addr', iter addr' = Some (pre ++ q :: post) ∧ dns_dial resolve inner addr = inner addr'
    | None => dns_dial resolve inner addr = Some (Err (ResolveFail name))
    end.
Proof.
  split_and!; [intros ->| |intros; subst; by eapply dns_dial_name]; unfold dns_dial; rewrite Hi; [done|].
  intros Hne Hf. cbn [mbind option_bind]. rewrite dns_find_none by done. cbn [fst snd length].
  rewrite decide_False; [done|]. by destruct ps.
Qed.

(** Through DNS over TCP a name with its port connects to the first answer of its family
    on that port. *)
Theorem dns_tcp_connects c connect resolve addr p name dns4 dns6 port post l ip
    (Hi : iter addr = Some (p :: Tcp port :: post)) (Hp : dns_name p = Some (name, dns4, dns6))
    (Hres : ∀ name l, resolve name = Ok l → Forall socket_wf l) (Hl : resolve (name ++ b_str ":0") = Ok l)
    (Hip : dns_outcome dns4 dns6 l = Some (proto_of_ip ip)) (Hport : port ≠ 0%Z) (Hspec : is_unspecified ip = false) :
  ∃ addr', iter addr' = Some (proto_of_ip ip :: Tcp port :: post) ∧
    dns_dial resolve (tcp_dial c connect) addr = Some (map_err from_io (
      let? stream := connect (mk_SocketAddr ip port) in
      let? _ := apply_config c stream in
      let? local_addr := ts_local_addr stream in
      Ok (mk_TcpTransStream stream (sock_to_multiaddr local_addr) addr'))).
Proof.
  pose proof (dns_dial_name resolve (tcp_dial c connect) addr [] p (Tcp port :: post) name dns4 dns6 Hi Hres
    (Forall_nil_2 _) Hp) as H. rewrite Hl, Hip in H. destruct H as (addr'&Hi'&Hd). exists addr'. split; [done|].
  rewrite Hd. apply (tcp_dial_socket _ _ _ _ (mk_SocketAddr ip port) Hi'); [apply (socket_of_proto (mk_SocketAddr ip port))|done..].
Qed.

End tcp_properties.

(** ** WebSocket *)

(** What [url] guarantees of its values: texts are [str], a port is a [u16]. *)
Definition url_wf `{AddrCodecs} (u : Url) : Prop :=
  match url_host u with
  | Some (HostDomain h) => str_ok h
  | Some (HostIpv6 ip) => ipv6_wf ip
  | _ => True
  end ∧ (∀ p, url_port u = Some p → u16_ok p) ∧ str_ok (url_path u).
Class UrlLaws `{AddrCodecs} (L : WsLibs) := url_parse_wf location u : url_parse location = Some u → url_wf u.

Section ws_properties.
Context `{HV : Varint} `{HVL : !VarintCodecLaws} `{HC : AddrCodecs} `{HCL : !AddrCodecsLaws}.
Context `{HL : WsLibs} `{HLL : !UrlLaws HL}.
Implicit Types (ps : list Protocol) (addr : Multiaddr) (c : InnerConfig) (w : WsAnswers).

(** What [host_and_dnsname] computes on the protocols of an address. *)
Definition host_of (addr : Multiaddr) (ps : list Protocol) : result WsError (bytes * option bytes) :=
  match ps with
  | Ip4 ip :: Tcp port :: _ => Ok (host_port (ipv4_to_string ip) port, None)
  | Ip6 ip :: Tcp port :: _ => Ok (host_port (ipv6_to_string ip) port, None)
  | Dns h :: Tcp port :: _ | Dns4 h :: Tcp port :: _ | Dns6 h :: Tcp port :: _ => named_host h port
  | _ => Err (WsInvalidMultiaddr addr)
  end.

Lemma host_and_dnsname_spec addr ps : iter addr = Some ps → host_and_dnsname addr = Some (host_of addr ps).
Proof.
  intros Hi%iter_next_tail. unfold host_and_dnsname. destruct ps as [|p1 ps]; [by rewrite Hi|].
  destruct Hi as (it&->&Hi%iter_next_tail). cbn [mbind option_bind]. destruct ps as [|p2 ps].
  - rewrite Hi. by destruct p1.
  - destruct Hi as (it'&->&_). cbn [mbind option_bind fmap option_fmap option_map fst]. by destruct p1, p2.
Qed.

(** The address of a redirect is valid and ends in [/ws] or [/wss]. *)
Definition ws_address addr : Prop := ∃ ps p, iter addr = Some (ps ++ [p]) ∧ is_ws p = true.

Definition location_protocols (u : Url) : option (list Protocol) :=
  host ← match url_host u with
         | Some (HostDomain h) => Some (Dns h)
         | Some (HostIpv4 ip) => Some (Ip4 ip)
         | Some (HostIpv6 ip) => Some (Ip6 ip)
         | None => None
         end;
  Some (host :: match url_port u with Some p => [Tcp p] | None => [] end).

Lemma location_spec location addr :
  location_to_multiaddr location = Ok addr →
  ∃ u ps p, url_parse location = Some u ∧ location_protocols u = Some ps ∧ is_ws p = true ∧ iter addr = Some (ps ++ [p]).
Proof.
  unfold location_to_multiaddr. destruct (url_parse location) as [u|] eqn:Hu; [|done].
  destruct (url_parse_wf location u Hu) as (Hh&Hp&Hpath). intros (a&Ha&H)%result_bind_ok.
  assert (∃ host, location_protocols u = Some (host :: match url_port u with Some p => [Tcp p] | None => [] end) ∧
    denotes a [host]) as (host&Hlp&Hd).
  { clear H. revert Hh Ha. unfold location_protocols. destruct (url_host u) as [[h|ip|ip]|]; intros Hh Ha; [| | |done];
      injection Ha as <-; eexists; (split; [done|]); apply (denotes_push _ []); first [apply denotes_nil|done]. }
  set (a' := match url_port u with Some p => _ | None => _ end) in H.
  assert (Hd' : denotes a' (host :: match url_port u with Some p => [Tcp p] | None => [] end)).
  { subst a'. destruct (url_port u) as [p|]; [|done]. apply (denotes_push _ [host]); [done|]. by apply Hp. }
  cbv zeta in H. exists u, (host :: match url_port u with Some p => [Tcp p] | None => [] end).
  destruct (_ || _) in H; [exists (Wss (url_path u))|destruct (_ || _) in H; [exists (Ws (url_path u))|done]];
    injection H as <-; (split_and!; [done..|]); by apply denotes_iter, denotes_push.
Qed.

Lemma location_ws location addr : location_to_multiaddr location = Ok addr → ws_address addr.
Proof. intros (u&ps&p&_&_&Hp&Hi)%location_spec. by exists ps, p. Qed.

(** The inner transport does not panic on a valid address. *)
Definition inner_total w : Prop := ∀ addr, is_Some (iter addr) → is_Some (wa_dial w addr).

(** The TLS name of an address: that of its DNS component, for [/wss]. *)
Definition tls_name (ps : list Protocol) : option bytes :=
  match ps, last ps with
  | (Dns h | Dns4 h | Dns6 h) :: _, Some (Wss _) => dns_name_ref h
  | _, _ => None
  end.
Definition stream_of (ps : list Protocol) (stream : TlsOrPlain) : Prop :=
  match last ps with
  | Some (Wss _) => ∃ name, tls_name ps = Some name ∧ stream = TlsClientStream name
  | Some (Ws _) => stream = PlainStream
  | _ => False
  end.

Lemma host_of_name addr ps host name : host_of addr ps = Ok (host, Some name) →
  ∃ h, (ps !! 0 = Some (Dns h) ∨ ps !! 0 = Some (Dns4 h) ∨ ps !! 0 = Some (Dns6 h)) ∧ dns_name_ref h = Some name.
Proof.
  intros H. destruct ps as [|p1 [|p2 ps]]; [done|by destruct p1|]. destruct p1, p2; try done; cbn [host_of] in H;
    unfold named_host in H; (destruct (dns_name_ref s) as [n|] eqn:Hn; [|done]); injection H as _ <-; exists s; eauto.
Qed.

(** One dial of a valid address does not panic; a connection uses TLS exactly for [/wss],
    with the name in the address. *)
Lemma dial_once_spec c w addr ps :
  iter addr = Some ps → inner_total w →
  ∃ r, dial_once c w addr = Some r ∧ ∀ conn, r = Ok (inr conn) → stream_of ps (wc_stream conn).
Proof.
  intros Hi Hw. unfold dial_once. rewrite (host_and_dnsname_spec _ _ Hi). cbn [mbind option_bind].
  destruct (host_of addr ps) as [[host dns]|] eqn:Hh; [|by eexists].
  destruct (pop_refines addr ps Hi) as (m'&->&Hi'). cbn [mbind option_bind fst snd].
  destruct (Hw m') as [dialed Hdial]; [by rewrite Hi'|]. rewrite Hdial.
  destruct (last ps) as [p|] eqn:Hlast; [|by eexists].
  destruct p; try by eexists.
  - cbn. destruct dialed as [raw|]; [|by eexists]. cbn. eexists. split; [done|]. intros conn. unfold ws_handshake, stream_of.
    rewrite Hlast. destruct (wa_handshake _ _ _ _) as [[]|]; try done. cbn. by intros [= <-].
  - cbn. destruct dns as [name|]; [|by eexists]. cbn. destruct dialed as [raw|]; [|by eexists]. cbn.
    destruct (wa_tls w name) as [[]|]; [|by eexists]. cbn. eexists. split; [done|]. intros conn. unfold ws_handshake, stream_of.
    rewrite Hlast. destruct (wa_handshake _ _ _ _) as [[]|]; try done. cbn. intros [= <-]. exists name. split; [|done].
    destruct (host_of_name _ _ _ _ Hh) as (h&Hps&Hn). unfold tls_name.
    destruct ps as [|p1 ps]; [by destruct Hps as [?|[?|?]]|]. by destruct Hps as [[= ->]|[[= ->]|[= ->]]]; rewrite Hlast.
Qed.

Lemma ws_dial_loop_spec c answers : (∀ n, inner_total (answers n)) → ∀ remaining round addr, ws_address addr →
  ∃ r addrs, ws_dial_loop c answers round remaining addr = Some (r, addrs) ∧
    1 ≤ length addrs ≤ S remaining ∧ Forall ws_address addrs ∧
    ∀ conn, r = Ok conn → ∃ a ps, last addrs = Some a ∧ iter a = Some ps ∧ stream_of ps (wc_stream conn).
Proof.
  intros Hw. induction remaining as [|n IH]; intros round addr Ha; pose proof Ha as (ps&p&Hi&Hp);
    destruct (dial_once_spec c (answers round) addr _ Hi (Hw round)) as (r&Hr&Hc); cbn [ws_dial_loop]; rewrite Hr;
    cbn [mbind option_bind]; (destruct r as [[redirect|conn]|e];
      [|exists (Ok conn), [addr]; split_and!; [done|simpl; lia..|by constructor|intros ? [= <-]; eauto 10]
       |eexists (Err _), [addr]; split_and!; [done|simpl; lia..|by constructor|done]]).
  - eexists (Err _), [addr]. split_and!; [done|simpl; lia..|by constructor|done].
  - destruct (location_to_multiaddr redirect) as [addr'|e] eqn:Hl;
      [|eexists (Err _), [addr]; split_and!; [done|simpl; lia..|by constructor|done]].
    destruct (IH (S round) addr') as (r&addrs&Hrun&Hlen&Hall&Hok); [by eapply location_ws|].
    rewrite Hrun. cbn [mbind option_bind fst snd]. exists r, (addr :: addrs). split_and!; [done|simpl; lia..|by constructor|].
    intros conn Hr'. destruct (Hok conn Hr') as (a&qs&Hlast&?&?). exists a, qs. split_and!; [|done..].
    by rewrite last_cons, Hlast.
Qed.

(** A dial of a valid address returns after at most [max_redirects + 1] connections, all
    to WebSocket addresses; the connection it returns is to the last of them and uses TLS
    exactly if that one is [/wss], for the DNS name in it. *)
Theorem ws_dial_bounded c answers addr ps (Hi : iter addr = Some ps) (Hw : ∀ n, inner_total (answers n)) :
  ∃ r addrs, ws_dial c answers addr = Some (r, addrs) ∧
    length addrs ≤ S (ic_max_redirects c) ∧ Forall ws_address addrs ∧
    (addrs = [] ↔ ¬ ws_address addr) ∧
    ∀ conn, r = Ok conn → ∃ a qs, last addrs = Some a ∧ iter a = Some qs ∧ stream_of qs (wc_stream conn).
Proof.
  assert (Hws : ws_address addr ↔ (match last ps with Some p => is_ws p | None => false end) = true).
  { split.
    - intros (qs&p&Hi'&Hp). rewrite Hi in Hi'. injection Hi' as ->. by rewrite last_snoc.
    - destruct ps as [|p qs _] using rev_ind; [done|]. rewrite last_snoc. intros Hp. by exists qs, p. }
  unfold ws_dial. rewrite Hi. cbn [mbind option_bind]. destruct (match last ps with Some p => is_ws p | None => false end).
  - destruct (ws_dial_loop_spec c answers Hw (ic_max_redirects c) 0 addr) as (r&addrs&Hr&Hlen&Hall&Hok); [by apply Hws|].
    exists r, addrs. split_and!; [done|lia|done| |done]. split; [intros ->; simpl in Hlen; lia|]. intros Hn. exfalso. by apply Hn, Hws.
  - exists (Err (MultiaddrNotSupported addr)), []. split_and!; [done|simpl; lia|done| |done]. split; [|done]. intros _ Ha%Hws. done.
Qed.

(** A redirect to a URL that names no port is never followed to a connection: the address
    built for it has no [/tcp] component and the next dial refuses it. *)
Lemma ws_redirect_default_port c w location u addr :
  url_parse location = Some u → url_port u = None → location_to_multiaddr location = Ok addr →
  dial_once c w addr = Some (Err (WsInvalidMultiaddr addr)).
Proof.
  intros Hu Hp (u'&ps&p&Hu'&Hps&Hws&Hi)%location_spec. rewrite Hu in Hu'. injection Hu' as <-.
  unfold dial_once. rewrite (host_and_dnsname_spec _ _ Hi). unfold location_protocols in Hps. rewrite Hp in Hps.
  assert (host_of addr (ps ++ [p]) = Err (WsInvalidMultiaddr addr)) as ->; [|done].
  destruct (url_host u) as [[]|]; simplify_eq/=; by destruct p.
Qed.

(** A listener never panics for want of a TLS server, and its connections use TLS exactly
    if its address is [/wss]. *)
Theorem ws_listener_tls {L} c (inner : Multiaddr → option (result TransportError L)) addr ps il l
    (Hi : iter addr = Some ps) (Hl : ws_listen_on c inner addr = Some (Ok (il, l))) :
  (∃ path, last ps = Some (if wl_use_tls l then Wss path else Ws path)) ∧
  ∀ answers e, ∃ r, ws_accept l answers e = Some r ∧
    ∀ conn, r = Ok (Accepted conn) →
      wc_stream conn = (if wl_use_tls l then TlsServerStream else PlainStream) ∧ wc_max_frame_size conn = Some (ic_max_data_size c).
Proof.
  revert Hl. unfold ws_listen_on. destruct (pop_refines addr ps Hi) as (m'&->&_). cbn [mbind option_bind fst snd].
  assert (Hacc : ∀ use_tls, (use_tls = true → ic_tls_server c = true) → ∀ answers e,
    ∃ r, ws_accept (mk_WsTransListener c use_tls) answers e = Some r ∧ ∀ conn, r = Ok (Accepted conn) →
      wc_stream conn = (if use_tls then TlsServerStream else PlainStream) ∧ wc_max_frame_size conn = Some (ic_max_data_size c)).
  { intros use_tls Hs answers e. unfold ws_accept. destruct e as [[a|a|raw]|e]; [by eexists..| |by eexists].
    cbn [wl_use_tls wl_config]. destruct use_tls; [rewrite Hs by done|]; cbn; [destruct (wv_tls answers); [|by eexists]; cbn|];
      destruct (wv_receive_request answers); cbn; try (by eexists); destruct (wv_send_response answers); cbn; try (by eexists);
      eexists; (split; [done|]); by intros conn [= <-]. }
  destruct (last ps) as [[]|]; try done.
  - cbn. destruct (inner addr) as [[x|]|]; cbn; try done. intros [= <- <-]. split; [by eexists|]. by apply (Hacc false).
  - destruct (ic_tls_server c) eqn:Hs; [|done]. destruct (inner addr) as [[x|]|]; cbn; try done.
    intros [= <- <-]. split; [by eexists|]. by apply (Hacc true).
Qed.
End ws_properties.

(** ** The memory hub *)

Section memory_properties.
Context `{HV : Varint} `{HVL : !VarintCodecLaws} `{HC : AddrCodecs} `{HCL : !AddrCodecsLaws}.
Implicit Types (h : Hub) (id : nat) (log : list HubResult).

Lemma parse_memory_total addr : is_Some (iter addr) → is_Some (parse_memory_addr addr).
Proof.
  intros [ps Hi%iter_next_tail]. unfold parse_memory_addr. destruct ps as [|p ps]; [by rewrite Hi|].
  destruct Hi as (it&->&Hi%iter_next_tail). cbn [mbind option_bind]. destruct p; try by eexists.
  destruct ps; [rewrite Hi|destruct Hi as (?&->&_)]; by eexists.
Qed.

(** The hub knows exactly the listeners that exist, and a connection is in the channel of
    the port it was dialed for. *)
Record hub_ok h : Prop := {
  hub_ports_ok port id : hub_ports h !! port = Some id ↔ ∃ l, hub_listeners h !! id = Some l ∧ ml_port l = port;
  hub_ids_ok id l : hub_listeners h !! id = Some l → id < hub_next h;
  hub_queues_ok id l c : hub_listeners h !! id = Some l → c ∈ ml_queue l → parse_memory_addr (mc_ra c) = Some (Ok (ml_port l));
  hub_dials_ok id c : (id, c) ∈ hub_dials h →
    id < hub_next h ∧ ∀ l, hub_listeners h !! id = Some l → parse_memory_addr (mc_ra c) = Some (Ok (ml_port l))
}.

Lemma hub_new_ok : hub_ok Hub_new.
Proof.
  split; cbn.
  - intros port id. rewrite lookup_empty. split; [done|]. intros (l&Hl&_). by rewrite lookup_empty in Hl.
  - intros id l. by rewrite lookup_empty.
  - intros id l c. by rewrite lookup_empty.
  - intros id c Hin. by apply not_elem_of_nil in Hin.
Qed.

(** A step, for each listener: what it was sent comes behind its queue, and what it hands
    out is taken from the front; a listener that has gone is sent nothing. *)
Record hub_moves h r h' : Prop := {
  moves_queue id : listening h' id → mem_queue h id ++ sent id [r] = handed_out id [r] ++ mem_queue h' id;
  moves_drop id : ¬ listening h' id → sent id [r] = [] ∧ handed_out id [r] = [];
  moves_new id : ¬ listening h id → listening h' id → id = hub_next h;
  moves_next : hub_next h ≤ hub_next h'
}.

Lemma hub_moves_refl h r :
  (∀ id, sent id [r] = []) → (∀ id, handed_out id [r] = []) → hub_moves h r h.
Proof.
  intros Hs Ha. split; [|by auto|done|done]. intros id _. by rewrite Hs, Ha, app_nil_r.
Qed.

(** A step that changes only the channel [id], of a listener that stays. *)
Lemma hub_update_ok h id l queue dials :
  hub_ok h → hub_listeners h !! id = Some l →
  (∀ c, c ∈ queue → parse_memory_addr (mc_ra c) = Some (Ok (ml_port l))) →
  (∀ x, x ∈ dials → x ∈ hub_dials h) →
  hub_ok (mk_Hub (hub_ports h) (<[id := mk_MemListener (ml_port l) (ml_addr l) queue]> (hub_listeners h)) (hub_next h)
    dials (hub_conns h)).
Proof.
  intros Hok Hl Hq Hd. assert (Hsame : ∀ i l', <[id := mk_MemListener (ml_port l) (ml_addr l) queue]> (hub_listeners h) !! i = Some l' →
    ∃ l0, hub_listeners h !! i = Some l0 ∧ ml_port l0 = ml_port l').
  { intros i l'. rewrite lookup_insert_Some. intros [[<- <-]|[_ ?]]; eauto. }
  split; cbn.
  - intros port i. rewrite (hub_ports_ok h Hok). split; [|intros (l'&(l0&Hl0&<-)%Hsame&<-); eauto].
    intros (l0&Hl0&<-). destruct (decide (i = id)) as [->|Hne].
    + rewrite Hl in Hl0. injection Hl0 as <-. rewrite lookup_insert_eq. eauto.
    + rewrite lookup_insert_ne by done. eauto.
  - intros i l' (l0&Hl0&_)%Hsame. by eapply hub_ids_ok.
  - intros i l' c. rewrite lookup_insert_Some. intros [[<- <-]|[_ Hl']]; [apply Hq|]. by eapply hub_queues_ok.
  - intros i c Hin%Hd. destruct (hub_dials_ok h Hok i c Hin) as [Hlt Hp]. split; [done|].
    intros l' (l0&Hl0&<-)%Hsame. by apply Hp.
Qed.

Lemma listening_update h id l : listening h id → ∀ i ports next dials conns,
  listening (mk_Hub ports (<[id := l]> (hub_listeners h)) next dials conns) i ↔ listening h i.
Proof.
  intros Hid i ports next dials conns. unfold listening. cbn. destruct (decide (i = id)) as [->|Hne].
  - rewrite lookup_insert_eq. naive_solver.
  - by rewrite lookup_insert_ne.
Qed.

Lemma mem_listen_on_moves h addr random :
  hub_ok h → is_Some (iter addr) → ∃ h' r, mem_listen_on h addr random = Some (h', r) ∧ hub_ok h' ∧ hub_moves h r h'.
Proof.
  intros Hok Ha. unfold mem_listen_on. destruct (parse_memory_total addr Ha) as [parsed ->]. cbn [mbind option_bind].
  destruct parsed as [port|]; [|do 2 eexists; split_and!; [done..|by apply hub_moves_refl]].
  destruct (listen_port _ _ _) as [p|]; [|do 2 eexists; split_and!; [done..|by apply hub_moves_refl]].
  destruct (hub_ports h !! p) as [i|] eqn:Hp; [do 2 eexists; split_and!; [done..|by apply hub_moves_refl]|].
  assert (Hfresh : hub_listeners h !! hub_next h = None).
  { apply eq_None_not_Some. intros [l Hl%(hub_ids_ok h Hok)]. lia. }
  do 2 eexists. split_and!; [done|split; cbn|split; cbn].
  - intros port' id. rewrite lookup_insert_Some, (hub_ports_ok h Hok). split.
    + intros [[<- <-]|[Hne (l&Hl&Hpl)]]; [rewrite lookup_insert_eq; eauto|]. exists l. split; [|done].
      rewrite lookup_insert_ne; [done|]. intros <-. congruence.
    + intros (l&[[<- <-]|[Hne Hl]]%lookup_insert_Some&<-); [by left|right]. split; [|by eauto].
      intros Heq. assert (hub_ports h !! ml_port l = Some id) by (apply (hub_ports_ok h Hok); eauto). congruence.
  - intros id l [[<- _]|[_ Hl]]%lookup_insert_Some; [lia|]. apply (hub_ids_ok h Hok) in Hl. lia.
  - intros id l c [[<- <-]|[_ Hl]]%lookup_insert_Some Hc; [by apply not_elem_of_nil in Hc|]. by eapply hub_queues_ok.
  - intros id c Hin. destruct (hub_dials_ok h Hok id c Hin) as [Hlt Hpar]. split; [lia|].
    intros l [[<- _]|[_ Hl]]%lookup_insert_Some; [lia|]. by apply Hpar.
  - intros id _. rewrite app_nil_r. unfold mem_queue. cbn. destruct (decide (id = hub_next h)) as [->|Hne].
    + by rewrite Hfresh, lookup_insert_eq.
    + by rewrite lookup_insert_ne.
  - done.
  - intros id Hn [l Hl]. cbn in Hl. apply lookup_insert_Some in Hl as [[<- _]|[_ Hl]]; [done|]. destruct Hn. by exists l.
  - lia.
Qed.

Lemma mem_dial_moves h addr :
  hub_ok h → is_Some (iter addr) → ∃ h' r, mem_dial h addr = Some (h', r) ∧ hub_ok h' ∧ hub_moves h r h'.
Proof.
  intros Hok Ha. unfold mem_dial. destruct (parse_memory_total addr Ha) as [parsed Hpar]. rewrite Hpar. cbn [mbind option_bind].
  destruct parsed as [port|]; [|do 2 eexists; split_and!; [done..|by apply hub_moves_refl]].
  destruct (port =? 0)%Z; [do 2 eexists; split_and!; [done..|by apply hub_moves_refl]|].
  destruct (hub_ports h !! port) as [i|] eqn:Hp; [|do 2 eexists; split_and!; [done..|by apply hub_moves_refl]].
  do 2 eexists. split_and!; [done| |split; cbn; [|done|done|done]].
  - split; cbn; [apply (hub_ports_ok h Hok)|apply (hub_ids_ok h Hok)|apply (hub_queues_ok h Hok)|].
    intros id c [Hin|[= -> ->]%list_elem_of_singleton]%elem_of_app; [by apply (hub_dials_ok h Hok)|].
    apply (hub_ports_ok h Hok) in Hp as (l&Hl&Hpl). split; [by eapply hub_ids_ok|]. cbn. intros l' Hl'. rewrite Hl in Hl'.
    injection Hl' as <-. by rewrite Hpar, Hpl.
  - intros id _. by rewrite app_nil_r.
Qed.

Lemma mem_send_moves h k : hub_ok h → ∃ h' r, mem_send h k = Some (h', r) ∧ hub_ok h' ∧ hub_moves h r h'.
Proof.
  intros Hok. unfold mem_send. destruct (hub_dials h !! k) as [[id c]|] eqn:Hk;
    [|do 2 eexists; split_and!; [done..|by apply hub_moves_refl]].
  assert (Hsub : ∀ x, x ∈ take k (hub_dials h) ++ drop (S k) (hub_dials h) → x ∈ hub_dials h).
  { intros x [(i&Hi&_)%elem_of_take|[i Hi]%list_elem_of_lookup]%elem_of_app; [|rewrite lookup_drop in Hi];
      by eapply list_elem_of_lookup_2. }
  destruct (hub_dials_ok h Hok id c) as [Hlt Hpar]; [by eapply list_elem_of_lookup_2|].
  destruct (hub_listeners h !! id) as [l|] eqn:Hl; do 2 eexists; (split_and!; [done|..]).
  - apply hub_update_ok; [done..| |done]. intros c' [Hc| ->%list_elem_of_singleton]%elem_of_app; [by eapply hub_queues_ok|auto].
  - assert (Hlis : listening h id) by by exists l.
    split; [..|done]; intros i; setoid_rewrite (listening_update h id _ Hlis); cbn.
    + intros _. unfold mem_queue. cbn. destruct (decide (id = i)) as [<-|Hne].
      * by rewrite Hl, lookup_insert_eq.
      * by rewrite lookup_insert_ne, app_nil_r by done.
    + intros Hn. by rewrite decide_False by (intros ->; done).
    + done.
  - split; cbn; [apply (hub_ports_ok h Hok)|apply (hub_ids_ok h Hok)|apply (hub_queues_ok h Hok)|].
    intros i c' Hin%Hsub. by apply (hub_dials_ok h Hok).
  - split; cbn; [|done|done|done]. intros i _. by rewrite app_nil_r.
Qed.

Lemma mem_accept_moves h id : hub_ok h → ∃ h' r, mem_accept h id = Some (h', r) ∧ hub_ok h' ∧ hub_moves h r h'.
Proof.
  intros Hok. unfold mem_accept. destruct (hub_listeners h !! id) as [l|] eqn:Hl;
    [|do 2 eexists; split_and!; [done..|by apply hub_moves_refl]].
  destruct (ml_queue l) as [|c queue] eqn:Hq; [do 2 eexists; split_and!; [done..|by apply hub_moves_refl]|].
  assert (Hlis : listening h id) by by exists l.
  do 2 eexists. split_and!; [done| |split; [..|done]; intros i; setoid_rewrite (listening_update h id _ Hlis); cbn].
  - apply hub_update_ok; [done..| |done]. intros c' Hc. eapply hub_queues_ok; [done..|]. rewrite Hq. by right.
  - intros _. unfold mem_queue. cbn. destruct (decide (id = i)) as [<-|Hne].
    + by rewrite Hl, lookup_insert_eq, app_nil_r; cbn; rewrite Hq.
    + by rewrite lookup_insert_ne, app_nil_r by done.
  - intros Hn. by rewrite decide_False by (intros ->; done).
  - done.
Qed.

Lemma mem_drop_moves h id : hub_ok h → ∃ h' r, mem_drop h id = Some (h', r) ∧ hub_ok h' ∧ hub_moves h r h'.
Proof.
  intros Hok. unfold mem_drop. destruct (hub_listeners h !! id) as [l|] eqn:Hl;
    [|do 2 eexists; split_and!; [done..|by apply hub_moves_refl]].
  assert (Hp : hub_ports h !! ml_port l = Some id) by (apply (hub_ports_ok h Hok); eauto).
  rewrite Hp. do 2 eexists. split_and!; [done|split; cbn|split; cbn].
  - intros port i. rewrite lookup_delete_Some, (hub_ports_ok h Hok). split.
    + intros (Hne&l'&Hl'&Hpl). exists l'. split; [|done]. apply lookup_delete_Some. split; [|done]. intros ->. congruence.
    + intros (l'&[Hne Hl']%lookup_delete_Some&<-). split; [|by eauto].
      intros Heq. assert (hub_ports h !! ml_port l' = Some i) by (apply (hub_ports_ok h Hok); eauto). congruence.
  - intros i l' [_ Hl']%lookup_delete_Some. by eapply hub_ids_ok.
  - intros i l' c [_ Hl']%lookup_delete_Some. by eapply hub_queues_ok.
  - intros i c Hin. destruct (hub_dials_ok h Hok i c Hin) as [Hlt Hpar]. split; [done|].
    intros l' [_ Hl']%lookup_delete_Some. by apply Hpar.
  - intros i [l' Hl']. cbn in Hl'. pose proof Hl' as [Hne _]%lookup_delete_Some.
    unfold mem_queue. cbn. by rewrite app_nil_r, lookup_delete_ne by done.
  - done.
  - intros i Hn [l' Hl']. cbn in Hl'. apply lookup_delete_Some in Hl' as [_ Hl']. destruct Hn. by exists l'.
  - lia.
Qed.

Lemma hub_step_moves h op : hub_ok h → op_valid op → ∃ h' r, hub_step h op = Some (h', r) ∧ hub_ok h' ∧ hub_moves h r h'.
Proof.
  intros Hok Hop. destruct op; cbn [hub_step op_valid] in *;
    eauto using mem_listen_on_moves, mem_dial_moves, mem_send_moves, mem_accept_moves, mem_drop_moves.
Qed.

Lemma sent_cons id r log : sent id (r :: log) = sent id [r] ++ sent id log.
Proof. unfold sent. rewrite <-omap_app. done. Qed.
Lemma handed_out_cons id r log : handed_out id (r :: log) = handed_out id [r] ++ handed_out id log.
Proof. unfold handed_out. rewrite <-omap_app. done. Qed.

Lemma hub_run_moves ops : ∀ h, hub_ok h → Forall op_valid ops →
  ∃ h' log, hub_run h ops = Some (h', log) ∧ hub_ok h' ∧
    ∀ id, (listening h' id → mem_queue h id ++ sent id log = handed_out id log ++ mem_queue h' id) ∧
      handed_out id log `prefix_of` mem_queue h id ++ sent id log ∧
      (¬ listening h id → id < hub_next h → ¬ listening h' id ∧ sent id log = [] ∧ handed_out id log = []).
Proof.
  induction ops as [|op ops IH]; intros h Hok Hops.
  { exists h, []. split_and!; [done..|]. intros id. split_and!; [intros _; by rewrite app_nil_r|apply prefix_nil|done]. }
  apply Forall_cons in Hops as [Hop Hops]. destruct (hub_step_moves h op Hok Hop) as (h1&r&Hr&Hok1&Hmv).
  destruct (IH h1 Hok1 Hops) as (h'&log&Hrun&Hok'&Hall). exists h', (r :: log).
  cbn [hub_run]. rewrite Hr. cbn [mbind option_bind fst snd]. rewrite Hrun. split_and!; [done..|]. intros id.
  rewrite sent_cons, handed_out_cons. destruct (Hall id) as (Hq&Hpre&Hgone).
  assert (Hdone : ¬ listening h1 id → id < hub_next h → ¬ listening h' id ∧ sent id log = [] ∧ handed_out id log = []).
  { intros Hn Hlt. apply Hgone; [done|]. pose proof (moves_next _ _ _ Hmv). lia. }
  assert (Hlis : listening h1 id ∨ ¬ listening h1 id) by (unfold listening; destruct (hub_listeners h1 !! id); [left; eauto|right; by intros [? ?]]).
  assert (Hfuture : ¬ listening h1 id → hub_next h ≤ id → mem_queue h id = [] ∧ sent id [r] = [] ∧ handed_out id [r] = []).
  { intros Hn Hle. destruct (moves_drop _ _ _ Hmv id Hn) as [-> ->]. split; [|done]. unfold mem_queue.
    destruct (hub_listeners h !! id) as [l|] eqn:Hl; [|done]. apply (hub_ids_ok h Hok) in Hl. lia. }
  split_and!.
  - intros Hl'. destruct Hlis as [Hl1|Hn].
    + rewrite app_assoc, (moves_queue _ _ _ Hmv id Hl1), <-!app_assoc. f_equal. by apply Hq.
    + destruct (decide (id < hub_next h)) as [Hlt|Hge]; [by destruct (Hdone Hn Hlt)|].
      destruct (Hfuture Hn ltac:(lia)) as (->&->&->). cbn. rewrite <-Hq by done. unfold mem_queue.
      by rewrite (proj2 (eq_None_not_Some (hub_listeners h1 !! id)) Hn).
  - destruct Hlis as [Hl1|Hn].
    + rewrite app_assoc, (moves_queue _ _ _ Hmv id Hl1), <-app_assoc. by apply prefix_app.
    + destruct (moves_drop _ _ _ Hmv id Hn) as [-> ->]. cbn.
      destruct (decide (id < hub_next h)) as [Hlt|Hge].
      * destruct (Hdone Hn Hlt) as (_&->&->). apply prefix_nil.
      * destruct (Hfuture Hn ltac:(lia)) as (->&_). cbn. revert Hpre. unfold mem_queue.
        by rewrite (proj2 (eq_None_not_Some (hub_listeners h1 !! id)) Hn).
  - intros Hn Hlt. assert (Hn1 : ¬ listening h1 id) by (intros Hl1; pose proof (moves_new _ _ _ Hmv id Hn Hl1); lia).
    destruct (moves_drop _ _ _ Hmv id Hn1) as [-> ->]. by apply Hdone.
Qed.

(** In every run of listens, dials, accepts and drops, in any order, nothing panics (the
    assertion in the drop of a listener holds), a live listener has handed out, in order
    and each once, all but the waiting ones of the connections that dials were told are
    made, also a dropped one has handed out no other, and the connections that wait at a
    listener were dialed for its port. *)
Theorem memory_delivery ops (Hops : Forall op_valid ops) :
  ∃ h log, hub_run Hub_new ops = Some (h, log) ∧ hub_ok h ∧
    ∀ id, (listening h id → sent id log = handed_out id log ++ mem_queue h id) ∧
      handed_out id log `prefix_of` sent id log.
Proof.
  destruct (hub_run_moves ops Hub_new hub_new_ok Hops) as (h&log&Hrun&Hok&Hall). exists h, log. split_and!; [done..|].
  intros id. destruct (Hall id) as (Hq&Hpre&_). by split.
Qed.

(** A dial to a port with a listener reaches that listener, and a port is taken until its
    listener is dropped. *)
Lemma memory_reaches h id l addr :
  hub_ok h → hub_listeners h !! id = Some l → parse_memory_addr addr = Some (Ok (ml_port l)) → ml_port l ≠ 0%Z →
  mem_listen_on h addr [] = Some (h, RError Unreachable) ∧
  ∃ h1 h2 c, mem_dial h addr = Some (h1, RDialing) ∧ mem_send h1 (length (hub_dials h)) = Some (h2, RConnected id c) ∧
    mem_queue h2 id = ml_queue l ++ [c] ∧ mc_ra c = addr.
Proof.
  intros Hok Hl Hpar Hne. assert (Hp : hub_ports h !! ml_port l = Some id) by (apply (hub_ports_ok h Hok); eauto).
  unfold mem_listen_on, mem_dial. rewrite Hpar. cbn [mbind option_bind]. unfold listen_port.
  rewrite (proj2 (Z.eqb_neq _ _) Hne), Hp. split; [done|]. do 3 eexists. split; [done|]. unfold mem_send. cbn.
  rewrite list_lookup_middle by done. rewrite Hl. split_and!; [done| |done]. unfold mem_queue. cbn. by rewrite lookup_insert_eq.
Qed.
End memory_properties.

(** ** The protector *)

Section protector_properties.
Context `{PnetCrypto}.

(** A dialer and a listener with the same key complete in every order of their reads and
    writes, on the addresses of their sockets, with ciphers that match. *)
Theorem protector_completes accepts1 accepts2 c na nb sa sb
    (Hacc1 : ∀ j, 0 < accepts1 j) (Hacc2 : ∀ j, 0 < accepts2 j) (Hna : length na = NONCE_SIZE) (Hnb : length nb = NONCE_SIZE) :
  let cipher n := XSalsa20_new (psk_bytes (pc_key c)) n in
  link_returns (protector_dial accepts1 c na (Ok sa)) (protector_accept accepts2 c nb (Ok (Accepted sb)))
    (Ok (mk_PnetStream (PnetOutput_new (cipher na) (cipher nb)) (tt_la sa) (tt_ra sa)))
    (Ok (Accepted (mk_PnetStream (PnetOutput_new (cipher nb) (cipher na)) (tt_la sb) (tt_ra sb)))) [] [].
Proof.
  intros cipher. destruct (pnet_completes accepts1 accepts2 c na c nb Hacc1 Hacc2 Hna Hnb) as [_ Hrun].
  apply link_returns_intro.
  - apply stable_sess_bind; [apply stable_pnet_handshake|done].
  - apply stable_sess_bind; [|done]. apply stable_sess_bind; [apply stable_pnet_handshake|done].
  - unfold protector_dial, protector_accept, protect.
    etrans; [apply link_bind_right, link_bind, (Hrun _ (rtc_refl _ _))|done].
Qed.
End protector_properties.

(** ** Witnesses *)

#[local] Existing Instance leb128.
#[local] Existing Instance sample_codecs.

Definition loopback : IpAddr := V4 (Ipv4 Byte.x7f Byte.x00 Byte.x00 Byte.x01).
Definition anywhere : IpAddr := V4 (Ipv4 Byte.x00 Byte.x00 Byte.x00 Byte.x00).
Definition local_sock : SocketAddr := mk_SocketAddr loopback 4001.
Definition sample_socket : TcpSocket := mk_TcpSocket (λ _, Ok tt) (λ _, Ok tt) (Ok (mk_SocketAddr loopback 50000)).

Lemma tcp_address_roundtrip_witness :
  multiaddr_to_socketaddr (sock_to_multiaddr local_sock ++ from_iter [Ws (b_str "/")]) = Some (Ok local_sock).
Proof.
  apply (tcp_address_roundtrip local_sock [Ws (b_str "/")]).
  - split; [|done]. unfold u16_ok. simpl. lia.
  - repeat (constructor; [done || by_eval|]). constructor.
Defined.

Definition any_os : SocketAddr → ListenSocket := λ s,
  mk_ListenSocket (Ok tt) (Ok tt) (Ok tt) (Ok tt) (Ok tt) (Ok tt) (Ok (mk_SocketAddr (sa_ip s) 4001)).
Definition any_listener : TcpTransListener := mk_TcpTransListener 4001 true false None TcpConfig_new.
Definition other_ip : IpAddr := V4 (Ipv4 Byte.x0a Byte.x00 Byte.x00 Byte.x02).
Definition if_inputs : list AcceptInput :=
  [(Some (Ok (Up loopback)), Some (Ok (sample_socket, local_sock))); (Some (Ok (Up other_ip)), None);
   (None, Some (Ok (sample_socket, local_sock))); (Some (Ok (Down loopback)), None)].

Lemma tcp_listener_tracks_witness :
  ∃ events, tcp_accepts any_listener if_inputs = Some events ∧ announced events [] = [ip_to_multiaddr other_ip 4001].
Proof.
  destruct (tcp_listener_tracks TcpConfig_new any_os (sock_to_multiaddr (mk_SocketAddr anywhere 0)) any_listener if_inputs)
    as (events&He&Ha).
  - vm_compute. reflexivity.
  - reflexivity.
  - repeat (constructor; [cbn; unfold socket_wf, u16_ok; cbn; try done; (split; [lia|done])|]). constructor.
  - exists events. split; [exact He|]. rewrite Ha. vm_compute. reflexivity.
Defined.

Definition sample_resolve (name : bytes) : result IoErrorKind (list SocketAddr) :=
  if decide (name = b_str "node.example:0") then Ok [mk_SocketAddr (V6 (Ipv6 (replicate 7 0%Z ++ [1%Z]))) 0; mk_SocketAddr other_ip 0]
  else Err OtherError.

Lemma sample_resolve_wf name l : sample_resolve name = Ok l → Forall socket_wf l.
Proof.
  unfold sample_resolve. case_decide; [|done]. intros [= <-].
  repeat (constructor; [split; [unfold u16_ok; simpl; lia|by_eval || done]|]). constructor.
Qed.

Definition dns_addr : Multiaddr := from_iter [Dns4 (b_str "node.example"); Tcp 4001].

Lemma dns_dial_spec_witness :
  ∃ addr', iter addr' = Some [proto_of_ip other_ip; Tcp 4001] ∧
    dns_dial sample_resolve (λ a, Some (Ok a)) dns_addr = Some (Ok addr').
Proof.
  destruct (dns_dial_spec sample_resolve (λ a, Some (Ok a)) dns_addr [Dns4 (b_str "node.example"); Tcp 4001]) as (_&_&H);
    [by_eval|exact sample_resolve_wf|].
  exact (H [] (Dns4 (b_str "node.example")) [Tcp 4001%Z] (b_str "node.example") true false eq_refl (Forall_nil_2 _) eq_refl).
Defined.

Lemma dns_tcp_connects_witness :
  ∃ addr', iter addr' = Some [proto_of_ip other_ip; Tcp 4001] ∧
    dns_dial sample_resolve (tcp_dial TcpConfig_new (λ _, Ok sample_socket)) dns_addr =
    Some (Ok (mk_TcpTransStream sample_socket (sock_to_multiaddr (mk_SocketAddr loopback 50000)) addr')).
Proof.
  refine (dns_tcp_connects TcpConfig_new (λ _, Ok sample_socket) sample_resolve dns_addr (Dns4 (b_str "node.example"))
    (b_str "node.example") true false 4001 []
    [mk_SocketAddr (V6 (Ipv6 (replicate 7 0%Z ++ [1%Z]))) 0; mk_SocketAddr other_ip 0] other_ip _ _ sample_resolve_wf _ _ _ _);
    [by_eval|reflexivity|reflexivity|reflexivity|lia|reflexivity].
Defined.

(** The empty address is dialed through DNS: the subtraction underflows. *)
Example dns_empty_panics : dns_dial (O := unit) sample_resolve (λ _, Some (Ok tt)) maddr_empty = None.
Proof. reflexivity. Qed.

(** A URL library that knows two locations. *)
#[local] Instance sample_ws_libs : WsLibs := {
  dns_name_ref := Some;
  url_parse s :=
    if decide (s = b_str "wss://b.example:8443/x") then
      Some (mk_Url (Some (HostDomain (b_str "b.example"))) (Some 8443%Z) (b_str "wss") (b_str "/x"))
    else if decide (s = b_str "wss://b.example/x") then
      Some (mk_Url (Some (HostDomain (b_str "b.example"))) None (b_str "wss") (b_str "/x"))
    else None
}.
#[local] Instance sample_url_laws : UrlLaws sample_ws_libs.
Proof.
  assert (Hok : str_ok (b_str "b.example") ∧ str_ok (b_str "/x")) by (split; split; by_eval).
  intros s u. cbn. case_decide; [|case_decide; [|done]]; intros [= <-]; (split_and!; [apply Hok| |apply Hok]); cbn.
  - intros p [= <-]. unfold u16_ok. lia.
  - done.
Qed.

(** The first server redirects to [location], the second one accepts. *)
Definition redirecting (location : bytes) (round : nat) : WsAnswers :=
  mk_WsAnswers (λ a, Some (Ok (mk_TcpTransStream sample_socket maddr_empty a))) (λ _, Ok tt)
    (λ _ _ _, Ok (match round with 0 => SrRedirect location | _ => SrAccepted end)).
Definition ws_addr : Multiaddr := from_iter [Dns4 (b_str "a.example"); Tcp 80; Ws (b_str "/")].

Lemma ws_dial_bounded_witness :
  ∃ r addrs, ws_dial (set_max_redirects 1 InnerConfig_new) (redirecting (b_str "wss://b.example:8443/x")) ws_addr = Some (r, addrs) ∧
    length addrs ≤ 2 ∧ match r with Ok conn => wc_stream conn = TlsClientStream (b_str "b.example") | Err _ => False end.
Proof.
  destruct (ws_dial_bounded (set_max_redirects 1 InnerConfig_new) (redirecting (b_str "wss://b.example:8443/x")) ws_addr
    [Dns4 (b_str "a.example"); Tcp 80; Ws (b_str "/")]) as (r&addrs&Hr&Hlen&_).
  - by_eval.
  - intros n a _. by eexists.
  - exists r, addrs. split; [exact Hr|]. split; [exact Hlen|].
    assert (H : ws_dial (set_max_redirects 1 InnerConfig_new) (redirecting (b_str "wss://b.example:8443/x")) ws_addr = Some (r, addrs))
      by exact Hr.
    vm_compute in H. injection H as <- _. vm_compute. reflexivity.
Defined.

(** The same redirect to the default port of its scheme is refused. *)
Example ws_default_port_refused :
  ∃ a addrs, ws_dial (set_max_redirects 1 InnerConfig_new) (redirecting (b_str "wss://b.example/x")) ws_addr =
    Some (Err (MultiaddrNotSupported a), addrs).
Proof. eexists _, _. vm_compute. reflexivity. Qed.

Definition wss_listen : Multiaddr := from_iter [Ip4 (Ipv4 Byte.x7f Byte.x00 Byte.x00 Byte.x01); Tcp 443; Wss (b_str "/")].

Lemma ws_listener_tls_witness :
  ∃ conn, ws_accept (mk_WsTransListener (set_tls_config true InnerConfig_new) true) (mk_WsServerAnswers (Ok tt) (Ok tt) (Ok tt))
      (Ok (Accepted (mk_TcpTransStream sample_socket maddr_empty maddr_empty))) = Some (Ok (Accepted conn)) ∧
    wc_stream conn = TlsServerStream.
Proof.
  destruct (ws_listener_tls (set_tls_config true InnerConfig_new) (λ _, Some (Ok tt)) wss_listen
    [Ip4 (Ipv4 Byte.x7f Byte.x00 Byte.x00 Byte.x01); Tcp 443; Wss (b_str "/")] tt
    (mk_WsTransListener (set_tls_config true InnerConfig_new) true)) as [_ H]; [by_eval|vm_compute; reflexivity|].
  destruct (H (mk_WsServerAnswers (Ok tt) (Ok tt) (Ok tt)) (Ok (Accepted (mk_TcpTransStream sample_socket maddr_empty maddr_empty))))
    as (r&Hr&Hc).
  eexists. split; [reflexivity|]. cbn in Hr. injection Hr as <-. exact (proj1 (Hc _ eq_refl)).
Defined.

(** Two listeners, three dials, of which one is too late. *)
Definition mem_addr (port : Z) : Multiaddr := from_iter [Memory port].
Definition mem_ops : list HubOp :=
  [HListen (mem_addr 7) []; HListen (mem_addr 0) [0; 7; 9]%Z; HDial (mem_addr 7); HDial (mem_addr 9); HSend 0; HSend 0;
   HAccept 0; HDial (mem_addr 7); HDrop 0; HSend 0; HAccept 1].

Lemma memory_delivery_witness :
  ∃ h log, hub_run Hub_new mem_ops = Some (h, log) ∧ sent 1 log = handed_out 1 log ++ mem_queue h 1.
Proof.
  destruct (memory_delivery mem_ops) as (h&log&Hrun&Hok&Hall).
  - repeat (constructor; [cbn; try exact I; by_eval|]). constructor.
  - exists h, log. split; [exact Hrun|]. apply Hall.
    assert (H : hub_run Hub_new mem_ops = Some (h, log)) by exact Hrun. vm_compute in H. injection H as <- _. by eexists.
Defined.

#[local] Existing Instance toy_pnet.
Lemma protector_completes_witness :
  ∃ a b, link_returns (protector_dial (λ _, 1) (PnetConfig_new toy_key) nonce_a (Ok (mk_TcpTransStream sample_socket maddr_empty maddr_empty)))
    (protector_accept (λ _, 7) (PnetConfig_new toy_key) nonce_b (Ok (Accepted (mk_TcpTransStream sample_socket maddr_empty maddr_empty))))
    (Ok a) (Ok (Accepted b)) [] [].
Proof.
  eexists _, _. apply (protector_completes (λ _, 1) (λ _, 7) (PnetConfig_new toy_key) nonce_a nonce_b
    (mk_TcpTransStream sample_socket maddr_empty maddr_empty) (mk_TcpTransStream sample_socket maddr_empty maddr_empty));
    [intros; lia|intros; lia|reflexivity|reflexivity].
Defined.

(** An idle listener with a timeout fails, although no connection attempt is in progress. *)
Example idle_accept_times_out : timeout_accept (A := unit) (TransportTimeout_new 20) None = (20%Z, Err Timeout).
Proof. reflexivity. Qed.
