(* ===== verification/Mdns.v ===== *)
(** * mDNS discovery: [protocols/mdns]

    The DNS packets that the service builds, what it reads out of the packets it receives,
    and the service with the listeners registered at it.  The parser of DNS packets
    ([dns_parser]), the base 32 of [data_encoding] and the sockets are parameters; what is
    assumed of the parser is that it reads the packets of RFC 1035.

    The theorems show that the packets built are packets of RFC 1035, that the name of a
    peer is cut into labels that it accepts, that a node which receives the answer to its
    query learns the peer and the addresses that were sent, and tells them to each listener,
    and when a query makes the service panic. *)

From Stdlib Require Import ZArith Lia String.
From stdpp Require Import gmap.
From S2P Require Import Prelude Varint StdText Multiaddr Transports.

Local Open Scope nat_scope.

(** ** Parameters *)

(** What the service reads of a packet that [dns_parser] has parsed; a name is the text
    that its [Display] prints. *)
Inductive RData := PTR (name : bytes) | TXT (entries : list bytes) | OtherData.
Record ResourceRecord := mk_ResourceRecord { rr_name : bytes; rr_ttl : Z; rr_data : RData }.
Record Packet := mk_Packet {
  pk_id : Z;
  pk_query : bool;
  pk_questions : list bytes;
  pk_answers : list ResourceRecord;
  pk_additional : list ResourceRecord
}.

Class MdnsLibs := {
  packet_parse : bytes → option Packet;
  dnscurve_encode : bytes → bytes;
  dnscurve_decode : bytes → option bytes
}.

(** Peer ids, as wrappers of multihashes: [TryFrom<Multihash>] and [From<PeerId>]. *)
Class MdnsPeerId (PeerId : Type) `{AddrCodecs} := {
  mp_eq_dec :: EqDecision PeerId;
  mp_multihash : PeerId → Multihash;
  mp_try_from : Multihash → option PeerId
}.

(** ** Building packets: [dns.rs] *)

Definition SERVICE_NAME : bytes := b_str "_p2p._udp.local".
Definition META_QUERY_SERVICE : bytes := b_str "_services._dns-sd._udp.local".
Definition MAX_LABEL_LENGTH : nat := 63.

Definition QUOTE : u8 := Byte.x22.
Definition BACKSLASH : u8 := Byte.x5c.
Definition SPACE : u8 := Byte.x20.
Definition DOT : u8 := Byte.x2e.

Inductive MdnsResponseError := TxtRecordTooLong | NonAsciiMultiaddr | ResponseTooLong.

Definition decode_character_string (from : bytes) : result unit bytes :=
  match from with
  | [] => Ok []
  | c :: rest =>
      if decide (c = QUOTE) then
        if decide (length from = 1 ∨ last from ≠ Some QUOTE) then Err tt
        else Ok (take (length from - 2) rest)
      else Ok from
  end.

(** A [Duration] in seconds and nanoseconds. *)
Record Duration := mk_Duration { d_secs : Z; d_nanos : Z }.
Definition duration_to_secs (d : Duration) : Z :=
  let secs := Z.min (d_secs d + (if (0 <? d_nanos d)%Z then 1 else 0)) (2 ^ 64 - 1) in
  Z.min secs (2 ^ 32 - 1).

Definition byte_at (value : Z) (shift : Z) : u8 := byte.of_Z (Z.land (Z.shiftr value shift) 0xff).
Definition append_u32 (out : bytes) (value : Z) : bytes := out ++ [byte_at value 24; byte_at value 16; byte_at value 8; byte_at value 0].
Definition append_u16 (out : bytes) (value : Z) : bytes := out ++ [byte_at value 8; byte_at value 0].

(** The text is ASCII, so that a character is a byte. *)
Definition segment_peer_id (peer_id : bytes) : bytes :=
  if decide (length peer_id ≤ MAX_LABEL_LENGTH) then peer_id
  else concat (imap (λ idx chr,
    if decide (0 < idx ∧ idx mod MAX_LABEL_LENGTH = 0) then [DOT; chr] else [chr]) peer_id).

(** [None] is a failed assertion. *)
Fixpoint append_labels (out : bytes) (elements : list bytes) : option bytes :=
  match elements with
  | [] => Some out
  | element :: elements =>
      if decide (length element < 64 ∧ length element ≠ 0) then
        append_labels (out ++ byte.of_Z (Z.of_nat (length element)) :: element) elements
      else None
  end.
Definition append_qname (out : bytes) (name : bytes) : option bytes :=
  if forallb is_ascii name then
    out ← append_labels out (split_char DOT name);
    Some (out ++ [Byte.x00])
  else None.

Definition escape (chr : u8) : bytes :=
  if decide (chr = BACKSLASH) then [BACKSLASH; BACKSLASH]
  else if decide (chr = QUOTE) then [BACKSLASH; QUOTE]
  else [chr].
Definition append_character_string (out : bytes) (ascii_str : bytes) : result MdnsResponseError bytes :=
  if negb (forallb is_ascii ascii_str) then Err NonAsciiMultiaddr
  else if negb (existsb (λ c, bool_decide (c = SPACE)) ascii_str) then Ok (out ++ ascii_str)
  else Ok (out ++ [QUOTE] ++ (ascii_str ≫= escape) ++ [QUOTE]).

Fixpoint txt_buffer (buffer : bytes) (entries : list bytes) : result MdnsResponseError bytes :=
  match entries with
  | [] => Ok buffer
  | entry :: entries =>
      if decide (255 < length entry) then Err TxtRecordTooLong
      else txt_buffer (buffer ++ byte.of_Z (Z.of_nat (length entry)) :: entry) entries
  end.
Definition append_txt_record (out name : bytes) (ttl_secs : Z) (entries : list bytes) : result MdnsResponseError bytes :=
  let out := out ++ name ++ [Byte.x00; Byte.x10; Byte.x80; Byte.x01] in
  let out := append_u32 out ttl_secs in
  let? buffer := txt_buffer [] entries in
  let buffer := match buffer with [] => [Byte.x00] | _ => buffer end in
  if (65535 <? Z.of_nat (length buffer))%Z then Err TxtRecordTooLong
  else Ok (append_u16 out (Z.of_nat (length buffer)) ++ buffer).

(** [build_query], with the random id of the query; the capacity asserted at its end. *)
Definition build_query (random : Z) : option bytes :=
  let out := append_u16 [] random in
  let out := append_u16 out 0x0 in
  let out := append_u16 out 0x1 in
  let out := append_u16 (append_u16 (append_u16 out 0x0) 0x0) 0x0 in
  out ← append_qname out SERVICE_NAME;
  let out := append_u16 (append_u16 out 0x0c) 0x01 in
  if decide (length out = 33) then Some out else None.

Definition build_service_discovery_response (id : Z) (ttl : Duration) : option bytes :=
  let ttl := duration_to_secs ttl in
  let out := append_u16 (append_u16 [] id) 0x8400 in
  let out := append_u16 (append_u16 (append_u16 (append_u16 out 0x0) 0x1) 0x0) 0x0 in
  out ← append_qname out META_QUERY_SERVICE;
  let out := append_u32 (append_u16 (append_u16 out 0x000c) 0x8001) ttl in
  name ← append_qname [] SERVICE_NAME;
  let out := append_u16 out (Z.of_nat (length name) mod 2 ^ 16) ++ name in
  if decide (length out = 69) then Some out else None.

Section mdns.
Context `{Varint} `{AddrCodecs} {PeerId : Type} `{!MdnsPeerId PeerId} `{MdnsLibs}.

Definition peer_to_bytes (p : PeerId) : bytes := mh_to_bytes (mp_multihash p).
Definition peer_to_base58 (p : PeerId) : bytes := bs58_encode (peer_to_bytes p).
Definition peer_from_bytes (bs : bytes) : option PeerId := mh_from_bytes bs ≫= mp_try_from.

Definition encode_peer_id (p : PeerId) : option bytes :=
  let raw_peer_id := dnscurve_encode (peer_to_bytes p) in
  let encoded_peer_id := segment_peer_id raw_peer_id in
  append_qname [] (encoded_peer_id ++ DOT :: SERVICE_NAME).

(** The loop over the addresses; [None] is an address that does not print. *)
Fixpoint append_addresses (out peer_id_bytes peer_base58 : bytes) (ttl : Z) (addresses : list Multiaddr) :
    option (result MdnsResponseError bytes) :=
  match addresses with
  | [] => Some (Ok out)
  | addr :: addresses =>
      text ← maddr_to_string addr;
      match (let? txt := append_character_string [] (b_str "dnsaddr=" ++ text ++ b_str "/p2p/" ++ peer_base58) in
             append_txt_record out peer_id_bytes ttl [txt]) with
      | Ok out => append_addresses out peer_id_bytes peer_base58 ttl addresses
      | Err e => Some (Err e)
      end
  end.

Definition build_query_response (id : Z) (peer_id : PeerId) (addresses : list Multiaddr) (ttl : Duration) :
    option (result MdnsResponseError bytes) :=
  let ttl := duration_to_secs ttl in
  let addresses := take (Z.to_nat 65535) addresses in
  let out := append_u16 (append_u16 [] id) 0x8400 in
  let out := append_u16 (append_u16 (append_u16 out 0x0) 0x1) 0x0 in
  let out := append_u16 out (Z.of_nat (length addresses) mod 2 ^ 16) in
  out ← append_qname out SERVICE_NAME;
  let out := append_u32 (append_u16 (append_u16 out 0x000c) 0x0001) ttl in
  peer_id_bytes ← encode_peer_id peer_id;
  if (Z.of_nat (length peer_id_bytes) <=? 0xffff)%Z then
    let out := append_u16 out (Z.of_nat (length peer_id_bytes) mod 2 ^ 16) ++ peer_id_bytes in
    out ← append_addresses out peer_id_bytes (peer_to_base58 peer_id) ttl addresses;
    Some (let? out := out in if (9000 <? Z.of_nat (length out))%Z then Err ResponseTooLong else Ok out)
  else None.

(** ** Reading packets: [service.rs] *)

Record MdnsPeer := mk_MdnsPeer { md_addrs : list Multiaddr; md_peer_id : PeerId; md_ttl : Z }.

Inductive MdnsPacket :=
  | Query (from : SocketAddr) (query_id : Z)
  | Response (peers : list MdnsPeer) (from : SocketAddr)
  | ServiceDiscovery (from : SocketAddr) (query_id : Z).

(** The address in a character string of a TXT record; [None] is a panic of [pop], the
    inner one an entry that is left out. *)
Definition txt_address (my_peer_id : PeerId) (txt : bytes) : option (option Multiaddr) :=
  match decode_character_string txt with
  | Err _ => Some None
  | Ok addr =>
      if decide (take 8 addr = b_str "dnsaddr=") then
        let addr := drop 8 addr in
        if utf8_valid addr then
          match from_str addr with
          | Err _ => Some None
          | Ok addr =>
              popped ← pop addr;
              Some match popped with
              | (Some (P2p h), addr) =>
                  match mp_try_from h with
                  | Some peer_id => if decide (peer_id = my_peer_id) then Some addr else None
                  | None => None
                  end
              | _ => None
              end
          end
        else Some None
      else Some None
  end.

Fixpoint txt_addresses (my_peer_id : PeerId) (txts : list bytes) : option (list Multiaddr) :=
  match txts with
  | [] => Some []
  | txt :: txts =>
      a ← txt_address my_peer_id txt;
      l ← txt_addresses my_peer_id txts;
      Some (match a with Some a => a :: l | None => l end)
  end.

Definition MdnsPeer_new (packet : Packet) (record_value : bytes) (my_peer_id : PeerId) (ttl : Z) : option MdnsPeer :=
  let txts := omap (λ r, if decide (rr_name r = record_value) then
    match rr_data r with TXT l => Some l | _ => None end else None) (pk_additional packet) in
  addrs ← txt_addresses my_peer_id (concat txts);
  Some (mk_MdnsPeer addrs my_peer_id ttl).

(** [rsplitn(n + 1, '.').last()]: what is left of the first of the last [n] dots. *)
Definition before_last_dot (s : bytes) : option bytes :=
  match list_find (λ c, c = DOT) (reverse s) with
  | Some (i, _) => Some (take (length s - S i) s)
  | None => None
  end.
Fixpoint rsplitn_last (n : nat) (s : bytes) : bytes :=
  match n with
  | 0 => s
  | S n => match before_last_dot s with Some s' => rsplitn_last n s' | None => s end
  end.

Definition answer_peer (packet : Packet) (r : ResourceRecord) : option (option MdnsPeer) :=
  if decide (rr_name r = SERVICE_NAME) then
    match rr_data r with
    | PTR record_value =>
        let peer_name := filter (.≠ DOT) (rsplitn_last 3 record_value) in
        match dnscurve_decode peer_name ≫= peer_from_bytes with
        | Some peer_id => Some <$> MdnsPeer_new packet record_value peer_id (rr_ttl r)
        | None => Some None
        end
    | _ => Some None
    end
  else Some None.

Fixpoint answer_peers (packet : Packet) (answers : list ResourceRecord) : option (list MdnsPeer) :=
  match answers with
  | [] => Some []
  | r :: answers =>
      p ← answer_peer packet r;
      l ← answer_peers packet answers;
      Some (match p with Some p => p :: l | None => l end)
  end.

Definition new_from_bytes (buf : bytes) (from : SocketAddr) : option (option MdnsPacket) :=
  match packet_parse buf with
  | None => Some None
  | Some packet =>
      if pk_query packet then
        Some (if decide (SERVICE_NAME ∈ pk_questions packet) then Some (Query from (pk_id packet))
              else if decide (META_QUERY_SERVICE ∈ pk_questions packet) then Some (ServiceDiscovery from (pk_id packet))
              else None)
      else
        peers ← answer_peers packet (pk_answers packet);
        Some (Some (Response peers from))
  end.

(** ** The service *)

Record MdnsConfig := mk_MdnsConfig { mc_local_peer : PeerId; mc_listened_addrs : list Multiaddr; mc_silent : bool }.
Record AddrInfo := mk_AddrInfo { ai_pid : PeerId; ai_addrs : list Multiaddr }.

(** The notifiees are named by numbers; the key is the [RegId]. *)
Record MdnsService := mk_MdnsService { ms_config : MdnsConfig; ms_notifees : gmap Z nat }.
Definition MdnsService_new (config : MdnsConfig) : MdnsService := mk_MdnsService config ∅.

Inductive MdnsCommand := RegisterNotifee (noti : nat) | UnregisterNotifee (id : Z).
Inductive MdnsEffect :=
  | SendTo (to : SocketAddr) (data : bytes)
  | PeerFound (noti : nat) (peer : AddrInfo)
  | Registered (id : Z).

Definition MDNS_RESPONSE_TTL : Duration := mk_Duration (5 * 60) 0.
Definition IPV4_MDNS_MULTICAST_ADDRESS : SocketAddr := mk_SocketAddr (V4 (Ipv4 Byte.xe0 Byte.x00 Byte.x00 Byte.xfb)) 5353.

(** The addresses of a peer, each behind its translation to the observed one. *)
Fixpoint translated (observed : Multiaddr) (addrs : list Multiaddr) : option (list Multiaddr) :=
  match addrs with
  | [] => Some []
  | addr :: addrs =>
      t ← address_translation addr observed;
      l ← translated observed addrs;
      Some (match t with Some new_addr => new_addr :: addr :: l | None => addr :: l end)
  end.

Fixpoint discovered (local_peer : PeerId) (observed : Multiaddr) (peers : list MdnsPeer) : option (list (PeerId * Multiaddr)) :=
  match peers with
  | [] => Some []
  | peer :: peers =>
      if decide (md_peer_id peer = local_peer) then discovered local_peer observed peers
      else
        addrs ← translated observed (md_addrs peer);
        l ← discovered local_peer observed peers;
        Some (((λ a, (md_peer_id peer, a)) <$> addrs) ++ l)
  end.

(** [handle_received_packet]; [None] is a panic, also of the [unwrap] of the response. *)
Definition handle_received_packet (s : MdnsService) (packet : option MdnsPacket) : option (list MdnsEffect) :=
  match packet with
  | None => Some []
  | Some (Query raddr query_id) =>
      built ← build_query_response query_id (mc_local_peer (ms_config s)) (mc_listened_addrs (ms_config s)) MDNS_RESPONSE_TTL;
      match built with
      | Ok resp => Some [SendTo raddr resp]
      | Err _ => None
      end
  | Some (Response peers raddr) =>
      let observed := from_iter [proto_of_ip (sa_ip raddr); Udp (sa_port raddr)] in
      found ← discovered (mc_local_peer (ms_config s)) observed peers;
      Some (found ≫= λ x, (λ n, PeerFound n (mk_AddrInfo x.1 [x.2])) <$> (map_to_list (ms_notifees s)).*2)
  | Some (ServiceDiscovery _ query_id) =>
      resp ← build_service_discovery_response query_id MDNS_RESPONSE_TTL;
      Some [SendTo IPV4_MDNS_MULTICAST_ADDRESS resp]
  end.

(** [on_control_command], with the random id of a registration. *)
Definition mdns_on_control_command (s : MdnsService) (cmd : option MdnsCommand) (random : Z) : MdnsService * list MdnsEffect :=
  match cmd with
  | Some (RegisterNotifee noti) => (mk_MdnsService (ms_config s) (<[random := noti]> (ms_notifees s)), [Registered random])
  | Some (UnregisterNotifee id) => (mk_MdnsService (ms_config s) (delete id (ms_notifees s)), [])
  | None => (s, [])
  end.

Inductive MdnsInput :=
  | MReceive (data : bytes) (from : SocketAddr)
  | MControl (cmd : option MdnsCommand) (random : Z)
  | MTimer (random : Z).

(** A round of the loop of [next]; the sends succeed. *)
Definition mdns_next (s : MdnsService) (i : MdnsInput) : option (MdnsService * list MdnsEffect) :=
  match i with
  | MReceive data from =>
      packet ← new_from_bytes data from;
      effects ← handle_received_packet s packet;
      Some (s, effects)
  | MControl cmd random => Some (mdns_on_control_command s cmd random)
  | MTimer random =>
      if mc_silent (ms_config s) then Some (s, [])
      else
        query ← build_query random;
        Some (s, [SendTo IPV4_MDNS_MULTICAST_ADDRESS query])
  end.
End mdns.

(** ** Packets of RFC 1035 *)

(** A name is the list of its labels. *)
Inductive DnsData := DPtr (name : list bytes) | DTxt (entries : list bytes).
Record DnsRecord := mk_DnsRecord { dn_name : list bytes; dn_class : Z; dn_ttl : Z; dn_data : DnsData }.
Record DnsMessage := mk_DnsMessage {
  dm_id : Z;
  dm_response : bool;
  dm_questions : list (list bytes);
  dm_answers : list DnsRecord;
  dm_additional : list DnsRecord
}.

Definition enc_string (s : bytes) : bytes := byte.of_Z (Z.of_nat (length s)) :: s.
Definition enc_name (ls : list bytes) : bytes := (ls ≫= enc_string) ++ [Byte.x00].
Definition enc_data (d : DnsData) : bytes := match d with DPtr n => enc_name n | DTxt es => es ≫= enc_string end.
Definition data_type (d : DnsData) : Z := match d with DPtr _ => 12 | DTxt _ => 16 end.
Definition enc_record (r : DnsRecord) : bytes :=
  enc_name (dn_name r) ++ be_split 2 (data_type (dn_data r)) ++ be_split 2 (dn_class r) ++ be_split 4 (dn_ttl r) ++
  be_split 2 (Z.of_nat (length (enc_data (dn_data r)))) ++ enc_data (dn_data r).
Definition enc_question (n : list bytes) : bytes := enc_name n ++ be_split 2 12 ++ be_split 2 1.
Definition enc_message (m : DnsMessage) : bytes :=
  be_split 2 (dm_id m) ++ be_split 2 (if dm_response m then 0x8400 else 0) ++
  be_split 2 (Z.of_nat (length (dm_questions m))) ++ be_split 2 (Z.of_nat (length (dm_answers m))) ++
  be_split 2 0 ++ be_split 2 (Z.of_nat (length (dm_additional m))) ++
  (dm_questions m ≫= enc_question) ++ (dm_answers m ≫= enc_record) ++ (dm_additional m ≫= enc_record).

Definition u32_ok (z : Z) : Prop := (0 ≤ z < 2 ^ 32)%Z.
Definition label_wf (l : bytes) : Prop := 0 < length l < 64 ∧ Forall (λ b, is_ascii b = true) l ∧ DOT ∉ l.
Definition name_wf (ls : list bytes) : Prop := Forall label_wf ls.
Definition data_wf (d : DnsData) : Prop :=
  match d with DPtr n => name_wf n | DTxt es => es ≠ [] ∧ Forall (λ e : bytes, length e ≤ 255) es end ∧
  u16_ok (Z.of_nat (length (enc_data d))).
Definition record_wf (r : DnsRecord) : Prop :=
  name_wf (dn_name r) ∧ dn_class r ∈ [0x0001; 0x8001]%Z ∧ u32_ok (dn_ttl r) ∧ data_wf (dn_data r).
Definition message_wf (m : DnsMessage) : Prop :=
  u16_ok (dm_id m) ∧ Forall name_wf (dm_questions m) ∧ Forall record_wf (dm_answers m) ∧ Forall record_wf (dm_additional m) ∧
  u16_ok (Z.of_nat (length (dm_questions m))) ∧ u16_ok (Z.of_nat (length (dm_answers m))) ∧
  u16_ok (Z.of_nat (length (dm_additional m))).

(** What the parser makes of it. *)
Definition name_text (ls : list bytes) : bytes := match ls with [] => [] | l :: ls => l ++ (ls ≫= λ x, DOT :: x) end.
Definition record_of (r : DnsRecord) : ResourceRecord :=
  mk_ResourceRecord (name_text (dn_name r)) (dn_ttl r)
    match dn_data r with DPtr n => PTR (name_text n) | DTxt es => TXT es end.
Definition packet_of (m : DnsMessage) : Packet :=
  mk_Packet (dm_id m) (negb (dm_response m)) (name_text <$> dm_questions m) (record_of <$> dm_answers m) (record_of <$> dm_additional m).

Class MdnsLibsLaws `{MdnsLibs} := {
  packet_parse_rfc m : message_wf m → packet_parse (enc_message m) = Some (packet_of m);
  packet_parse_txt buf p r entries e : packet_parse buf = Some p → r ∈ pk_additional p → rr_data r = TXT entries →
    e ∈ entries → length e ≤ 255;
  dnscurve_roundtrip bs : dnscurve_decode (dnscurve_encode bs) = Some bs;
  dnscurve_chars bs : Forall (λ b, alphanumeric b = true) (dnscurve_encode bs);
  dnscurve_nonempty bs : bs ≠ [] → dnscurve_encode bs ≠ []
}.

Class MdnsPeerIdLaws (PeerId : Type) `{MdnsPeerId PeerId} := {
  mp_try_from_multihash (p : PeerId) : mp_try_from (mp_multihash p) = Some p;
  mp_bytes_nonempty (p : PeerId) : mh_to_bytes (mp_multihash p) ≠ []
}.

(** *** Integers and names *)

Lemma byte_at_split n v : byte_at v (8 * n) = byte.of_Z (Z.shiftr v (8 * n)).
Proof.
  unfold byte_at. change 0xff%Z with (Z.ones 8). rewrite Z.land_ones by lia. apply byte.unsigned_inj.
  rewrite !byte.unsigned_of_Z. unfold byte.wrap. by rewrite Zmod_mod.
Qed.

Lemma append_u16_split out v : append_u16 out v = out ++ be_split 2 v.
Proof.
  unfold append_u16. f_equal. change 8%Z with (8 * 1)%Z. change 0%Z with (8 * 0)%Z. by rewrite !byte_at_split.
Qed.
Lemma append_u32_split out v : append_u32 out v = out ++ be_split 4 v.
Proof.
  unfold append_u32. f_equal. change 24%Z with (8 * 3)%Z. change 16%Z with (8 * 2)%Z. change 8%Z with (8 * 1)%Z.
  change 0%Z with (8 * 0)%Z. rewrite !byte_at_split. done.
Qed.

Lemma name_text_app ls l ls' : ls ≠ [] → name_text (ls ++ l :: ls') = name_text ls ++ DOT :: name_text (l :: ls').
Proof. destruct ls as [|x ls]; [done|]. intros _. cbn. by rewrite bind_app, bind_cons, <-!app_assoc. Qed.

Lemma split_name_text l ls : Forall (λ l, DOT ∉ l) (l :: ls) → split_char DOT (name_text (l :: ls)) = l :: ls.
Proof.
  revert l. induction ls as [|x ls IH]; intros l [Hl Hls]%Forall_cons; cbn.
  - rewrite app_nil_r. by apply split_char_single.
  - rewrite split_char_cons by done. f_equal. by apply (IH x).
Qed.

Lemma append_labels_enc out ls : Forall label_wf ls → append_labels out ls = Some (out ++ (ls ≫= enc_string)).
Proof.
  intros Hls. revert out. induction Hls as [|l ls (Hl&_) _ IH]; intros out; cbn [append_labels].
  - by rewrite app_nil_r.
  - rewrite decide_True by lia. rewrite IH, bind_cons, <-app_assoc. done.
Qed.

Lemma name_text_ascii ls : Forall label_wf ls → forallb is_ascii (name_text ls) = true.
Proof.
  intros Hls. apply forallb_forall. intros b Hb. apply list_elem_of_In in Hb.
  assert (Hin : b = DOT ∨ ∃ l, l ∈ ls ∧ b ∈ l).
  { destruct ls as [|l ls]; [by apply not_elem_of_nil in Hb|]. cbn in Hb. apply elem_of_app in Hb as [Hb|Hb].
    - right. exists l. split; [by left|done].
    - apply list_elem_of_bind in Hb as (x&[->|Hx]%elem_of_cons&Hl); [by left|]. right. exists x. split; [by right|done]. }
  destruct Hin as [->|(l&Hl&Hin)]; [done|]. rewrite Forall_forall in Hls. destruct (Hls l Hl) as (_&Ha&_).
  rewrite Forall_forall in Ha. by apply Ha.
Qed.

Lemma append_qname_enc out ls : ls ≠ [] → name_wf ls → append_qname out (name_text ls) = Some (out ++ enc_name ls).
Proof.
  intros Hne Hls. unfold append_qname. rewrite name_text_ascii by done.
  destruct ls as [|l ls]; [done|]. rewrite split_name_text.
  - rewrite append_labels_enc by done. cbn [mbind option_bind]. unfold enc_name. by rewrite <-app_assoc.
  - eapply Forall_impl; [exact Hls|]. by intros x (_&_&?).
Qed.

Definition service_labels : list bytes := b_str <$> ["_p2p"; "_udp"; "local"]%string.
Definition meta_labels : list bytes := b_str <$> ["_services"; "_dns-sd"; "_udp"; "local"]%string.

#[global] Instance label_wf_dec l : Decision (label_wf l).
Proof. unfold label_wf. apply _. Defined.

Lemma service_name_text : SERVICE_NAME = name_text service_labels ∧ name_wf service_labels.
Proof. split; [reflexivity|]. unfold name_wf. by_eval. Qed.
Lemma meta_name_text : META_QUERY_SERVICE = name_text meta_labels ∧ name_wf meta_labels.
Proof. split; [reflexivity|]. unfold name_wf. by_eval. Qed.

Lemma append_service out : append_qname out SERVICE_NAME = Some (out ++ enc_name service_labels).
Proof. destruct service_name_text as [-> Hwf]. by apply append_qname_enc. Qed.
Lemma append_meta out : append_qname out META_QUERY_SERVICE = Some (out ++ enc_name meta_labels).
Proof. destruct meta_name_text as [-> Hwf]. by apply append_qname_enc. Qed.

(** *** The labels of a peer *)

(** The text cut into pieces of at most 63 bytes. *)
Fixpoint pieces (fuel : nat) (s : bytes) : list bytes :=
  match fuel, s with
  | 0, _ | _, [] => []
  | S fuel, _ => take MAX_LABEL_LENGTH s :: pieces fuel (drop MAX_LABEL_LENGTH s)
  end.

Definition seg_chr (idx : nat) (chr : u8) : bytes := if decide (0 < idx ∧ idx mod MAX_LABEL_LENGTH = 0) then [DOT; chr] else [chr].

Lemma seg_inside k l : l ≠ [] → length l ≤ MAX_LABEL_LENGTH →
  concat (imap (λ i, seg_chr (MAX_LABEL_LENGTH * k + i)) l) = (if decide (k = 0) then [] else [DOT]) ++ l.
Proof.
  intros Hne Hlen. destruct l as [|c l]; [done|]. cbn [imap concat]. rewrite Nat.add_0_r.
  assert (Htail : ∀ n l, n ≠ 0 → n + length l ≤ MAX_LABEL_LENGTH →
    concat (imap (λ i, seg_chr (MAX_LABEL_LENGTH * k + (n + i))) l) = l).
  { clear. intros n l. revert n. induction l as [|c l IH]; intros n Hn Hlen; [done|]. cbn [imap concat length] in *.
    rewrite Nat.add_0_r. unfold seg_chr at 1. rewrite decide_False.
    - cbn. f_equal. etrans; [|apply (IH (S n)); lia]. f_equal. apply imap_ext. intros i x _. cbn. f_equal. lia.
    - intros [_ Hmod]. rewrite (Nat.mul_comm MAX_LABEL_LENGTH), Nat.add_comm, Nat.Div0.mod_add in Hmod.
      rewrite Nat.mod_small in Hmod; unfold MAX_LABEL_LENGTH in *; lia. }
  cbn [length] in Hlen.
  change (imap ((λ i, seg_chr (MAX_LABEL_LENGTH * k + i)) ∘ S) l) with (imap (λ i, seg_chr (MAX_LABEL_LENGTH * k + (1 + i))) l).
  rewrite Htail by lia. unfold seg_chr. case_decide as Hk; case_decide as H0; try done.
  - subst k. unfold MAX_LABEL_LENGTH in Hk. lia.
  - destruct Hk. split; [unfold MAX_LABEL_LENGTH; lia|]. by rewrite Nat.mul_comm, Nat.Div0.mod_mul.
Qed.

Lemma seg_pieces fuel k s : length s ≤ fuel →
  concat (imap (λ i, seg_chr (MAX_LABEL_LENGTH * k + i)) s) =
  (if decide (k = 0) then name_text (pieces fuel s) else pieces fuel s ≫= λ x, DOT :: x).
Proof.
  revert k s. induction fuel as [|fuel IH]; intros k s Hf.
  { destruct s; [|simpl in Hf; lia]. by destruct (decide (k = 0)). }
  destruct (decide (s = [])) as [->|Hne]; [by destruct (decide (k = 0))|].
  assert (Hp : pieces (S fuel) s = take MAX_LABEL_LENGTH s :: pieces fuel (drop MAX_LABEL_LENGTH s)) by by destruct s.
  rewrite Hp. rewrite <-(take_drop MAX_LABEL_LENGTH s) at 1. rewrite imap_app, concat_app, seg_inside.
  - destruct (decide (drop MAX_LABEL_LENGTH s = [])) as [Hd|Hd].
    { rewrite Hd. assert (pieces fuel [] = []) as -> by by destruct fuel. cbn [imap concat]. rewrite app_nil_r.
      destruct (decide (k = 0)); cbn; by rewrite app_nil_r. }
    assert (Htl : length (take MAX_LABEL_LENGTH s) = MAX_LABEL_LENGTH).
    { rewrite length_take. apply Nat.min_l. destruct (decide (MAX_LABEL_LENGTH ≤ length s)); [done|].
      destruct Hd. apply drop_ge. lia. }
    assert (Hnext : concat (imap (λ i, seg_chr (MAX_LABEL_LENGTH * S k + i)) (drop MAX_LABEL_LENGTH s)) =
      pieces fuel (drop MAX_LABEL_LENGTH s) ≫= λ x, DOT :: x).
    { rewrite IH; [by rewrite decide_False|]. rewrite length_drop. unfold MAX_LABEL_LENGTH. destruct s; [done|]. simpl in *. lia. }
    etrans; [|etrans; [apply (f_equal (λ x, ((if decide (k = 0) then [] else [DOT]) ++ take MAX_LABEL_LENGTH s) ++ x)), Hnext|]].
    + f_equal. f_equal. apply imap_ext. intros i x _. cbn [compose]. f_equal. rewrite Htl. lia.
    + destruct (decide (k = 0)); cbn; done.
  - destruct s; [done|]. unfold MAX_LABEL_LENGTH. done.
  - rewrite length_take. lia.
Qed.

Lemma pieces_concat fuel s : length s ≤ fuel → concat (pieces fuel s) = s.
Proof.
  revert s. induction fuel as [|fuel IH]; intros s Hf; [destruct s; [done|simpl in Hf; lia]|].
  destruct s as [|c s]; [done|]. cbn [pieces concat]. rewrite IH; [apply take_drop|].
  rewrite length_drop. unfold MAX_LABEL_LENGTH. simpl in *. lia.
Qed.

Lemma pieces_wf fuel s : Forall (λ b, alphanumeric b = true) s → name_wf (pieces fuel s).
Proof.
  revert s. induction fuel as [|fuel IH]; intros s Hs; [constructor|]. destruct s as [|c s]; [constructor|].
  assert (Hchar : ∀ b, alphanumeric b = true → is_ascii b = true ∧ b ≠ DOT).
  { intros b. unfold alphanumeric, is_ascii, in_range, DOT. destruct b; done. }
  constructor; [|apply IH; by apply Forall_drop]. split; [|split].
  - rewrite length_take. unfold MAX_LABEL_LENGTH. cbn [length]. lia.
  - apply Forall_take. eapply Forall_impl; [exact Hs|]. intros b Hb. by apply Hchar.
  - intros Hin. apply elem_of_take in Hin as (i&Hi&_). apply list_elem_of_lookup_2 in Hi.
    rewrite Forall_forall in Hs. by destruct (Hchar DOT (Hs _ Hi)).
Qed.

(** A text without dots is cut into labels that DNS accepts and that give it back. *)
Lemma segment_pieces s : s ≠ [] → segment_peer_id s = name_text (pieces (length s) s).
Proof.
  intros Hne. unfold segment_peer_id. case_decide as Hlen.
  - destruct s as [|c s]; [done|]. cbn [pieces length].
    rewrite take_ge by done. rewrite drop_ge by done. assert (pieces (length s) [] = []) as -> by by destruct (length s).
    cbn. by rewrite app_nil_r.
  - pose proof (seg_pieces (length s) 0 s (le_n _)) as H. rewrite Nat.mul_0_r in H. exact H.
Qed.

Lemma filter_dots ls : Forall (λ l, DOT ∉ l) ls → filter (.≠ DOT) (name_text ls) = concat ls.
Proof.
  assert (Hid : ∀ l : bytes, DOT ∉ l → filter (.≠ DOT) l = l).
  { intros l Hl. induction l as [|c l IH]; [done|]. apply not_elem_of_cons in Hl as [Hc Hl].
    rewrite filter_cons, decide_True by done. by rewrite IH. }
  destruct ls as [|l ls]; [done|]. intros [Hl Hls]%Forall_cons. cbn. rewrite filter_app, Hid by done. f_equal.
  induction Hls as [|x ls Hx _ IH]; [done|]. rewrite bind_cons. cbn [app concat].
  rewrite filter_cons, decide_False by (intros Hn; by apply Hn). by rewrite filter_app, Hid, IH.
Qed.

Lemma before_last_dot_app s l : DOT ∉ l → before_last_dot (s ++ DOT :: l) = Some s.
Proof.
  intros Hl. unfold before_last_dot.
  assert (Hf : list_find (λ c, c = DOT) (reverse (s ++ DOT :: l)) = Some (length l, DOT)).
  { apply list_find_Some. rewrite reverse_app, reverse_cons, <-app_assoc. split_and!; [|done|].
    - rewrite lookup_app_r, length_reverse, Nat.sub_diag by (rewrite length_reverse; lia). done.
    - intros j y Hj Hlt ->. rewrite lookup_app_l in Hj by (rewrite length_reverse; lia).
      apply list_elem_of_lookup_2 in Hj. by rewrite elem_of_reverse in Hj. }
  rewrite Hf, length_app. cbn [length]. f_equal. rewrite take_app_length'; [done|lia].
Qed.

Lemma rsplitn_service ls : ls ≠ [] → rsplitn_last 3 (name_text (ls ++ service_labels)) = name_text ls.
Proof.
  intros Hne. unfold service_labels. cbn [fmap list_fmap].
  assert (Hlast : ∀ ls l, ls ≠ [] → DOT ∉ l → before_last_dot (name_text (ls ++ [l])) = Some (name_text ls)).
  { intros ls' l Hne' Hl. rewrite name_text_app by done. cbn. rewrite app_nil_r. by apply before_last_dot_app. }
  replace (ls ++ [b_str "_p2p"; b_str "_udp"; b_str "local"]) with (((ls ++ [b_str "_p2p"]) ++ [b_str "_udp"]) ++ [b_str "local"])
    by by rewrite <-!app_assoc.
  cbn [rsplitn_last]. rewrite !Hlast; try done; try by_eval; by destruct ls.
Qed.

(** *** Texts of addresses *)

Lemma is_ascii_forall s : forallb is_ascii s = true ↔ Forall (λ b, is_ascii b = true) s.
Proof. rewrite forallb_forall, Forall_forall. by setoid_rewrite list_elem_of_In. Qed.

Lemma ascii_utf8 s : Forall (λ b, is_ascii b = true) s → utf8_valid s = true.
Proof. induction 1 as [|b s Hb _ IH]; [done|]. cbn [utf8_valid]. unfold is_ascii in Hb. by rewrite Hb. Qed.

(** The texts that survive quoting: the decoder does not remove backslashes. *)
Definition quotable (s : bytes) : Prop := SPACE ∈ s → (QUOTE ∉ s) ∧ (BACKSLASH ∉ s).

Lemma character_string_roundtrip s txt :
  head s ≠ Some QUOTE → quotable s → append_character_string [] s = Ok txt → decode_character_string txt = Ok s.
Proof.
  intros Hh Hq. unfold append_character_string. destruct (forallb is_ascii s); [|done]. cbn [negb].
  destruct (existsb (λ c, bool_decide (c = SPACE)) s) eqn:Hsp; cbn [negb]; intros [= <-].
  - apply existsb_exists in Hsp as (c&Hc&->%bool_decide_eq_true). apply list_elem_of_In in Hc. destruct (Hq Hc) as [Hnq Hnb].
    assert (Hesc : s ≫= escape = s).
    { clear Hh Hq Hc. induction s as [|c s IH]; [done|]. apply not_elem_of_cons in Hnq as [? ?], Hnb as [? ?].
      rewrite bind_cons. unfold escape at 1. rewrite !decide_False by congruence. cbn. by rewrite IH. }
    rewrite Hesc. cbn [app]. unfold decode_character_string. rewrite decide_True by done. rewrite decide_False.
    + cbn [length]. rewrite length_app. cbn [length]. f_equal. rewrite take_app_length'; [done|lia].
    + cbn [length]. rewrite length_app. cbn [length]. intros [Hl|Hl]; [lia|]. apply Hl. by rewrite last_cons, last_snoc.
  - cbn [app]. unfold decode_character_string. destruct s as [|c s]; [done|]. rewrite decide_False; [done|]. intros ->. done.
Qed.

Section mdns_theory.
Context `{HV : Varint} `{HVL : !VarintCodecLaws} `{HC : AddrCodecs} `{HCL : !AddrCodecsLaws}.
Context {PeerId : Type} `{HP : !MdnsPeerId PeerId} `{HPL : !MdnsPeerIdLaws PeerId} `{HM : MdnsLibs} `{HML : !MdnsLibsLaws}.
Implicit Types (p : PeerId) (s : MdnsService (PeerId := PeerId)).

Lemma maddr_text m ps : iter m = Some ps → maddr_to_string m = Some (ps ≫= protocol_to_string).
Proof. intros Hm. unfold maddr_to_string. by rewrite Hm. Qed.

Lemma text_parses ps : Forall protocol_wf ps → Forall printable ps → from_str (ps ≫= protocol_to_string) = Ok (from_iter ps).
Proof.
  intros Hwf Hpr. destruct (protocols_text ps Hwf Hpr) as (parts&->&Hns&Hl). unfold from_str.
  rewrite split_text_of by done. by rewrite Hl.
Qed.

(** The text sent for an address of a peer. *)
Definition dnsaddr_text (ps : list Protocol) p : bytes :=
  b_str "dnsaddr=" ++ (ps ≫= protocol_to_string) ++ b_str "/p2p/" ++ peer_to_base58 p.

Lemma peer_multihash_wf p : protocol_wf (P2p (mp_multihash p)).
Proof. done. Qed.

(** The text of an address of a peer is read back as that address. *)
Lemma txt_address_roundtrip p ps txt :
  Forall protocol_wf ps → Forall printable ps → quotable (dnsaddr_text ps p) →
  append_character_string [] (dnsaddr_text ps p) = Ok txt →
  ∃ a, txt_address p txt = Some (Some a) ∧ iter a = Some ps.
Proof.
  intros Hwf Hpr Hq Htxt. unfold txt_address. rewrite (character_string_roundtrip (dnsaddr_text ps p)) by done.
  assert (Htake : take 8 (dnsaddr_text ps p) = b_str "dnsaddr=") by done. rewrite Htake, decide_True by done.
  set (q := P2p (mp_multihash p)).
  assert (Hdrop : drop 8 (dnsaddr_text ps p) = (ps ++ [q]) ≫= protocol_to_string).
  { rewrite bind_app. unfold dnsaddr_text, q. cbn. by rewrite app_nil_r. }
  rewrite Hdrop. assert (Hu : utf8_valid ((ps ++ [q]) ≫= protocol_to_string) = true).
  { rewrite <-Hdrop. apply ascii_utf8, Forall_drop, is_ascii_forall. revert Htxt. unfold append_character_string.
    by destruct (forallb is_ascii (dnsaddr_text ps p)). }
  assert (Hwf' : Forall protocol_wf (ps ++ [q])) by (apply Forall_app; split; [done|by repeat constructor]).
  rewrite Hu, text_parses; [|done|apply Forall_app; split; [done|by repeat constructor]].
  assert (Hi : iter (from_iter (ps ++ [q])) = Some (ps ++ [q])) by by apply denotes_iter, denotes_from_iter.
  destruct (pop_refines _ _ Hi) as (m'&->&Hi'). cbn [mbind option_bind]. rewrite last_snoc. subst q. cbn.
  rewrite mp_try_from_multihash, decide_True by done. exists m'. split; [done|]. etrans; [exact Hi'|]. f_equal. rewrite length_app. cbn [length]. rewrite take_app_length'; [done|lia].
Qed.

(** *** The packets built *)

Definition query_message (id : Z) : DnsMessage := mk_DnsMessage id false [service_labels] [] [].
Definition discovery_message (id ttl : Z) : DnsMessage :=
  mk_DnsMessage id true [] [mk_DnsRecord meta_labels 0x8001 ttl (DPtr service_labels)] [].
Definition peer_pieces p : list bytes := let raw := dnscurve_encode (peer_to_bytes p) in pieces (length raw) raw.
Definition peer_labels p : list bytes := peer_pieces p ++ service_labels.
Definition txt_record p (ttl : Z) (txt : bytes) : DnsRecord := mk_DnsRecord (peer_labels p) 0x8001 ttl (DTxt [txt]).
Definition response_message (id : Z) p (ttl : Z) (txts : list bytes) : DnsMessage :=
  mk_DnsMessage id true [] [mk_DnsRecord service_labels 0x0001 ttl (DPtr (peer_labels p))] (txt_record p ttl <$> txts).

Lemma peer_raw_nonempty p : dnscurve_encode (peer_to_bytes p) ≠ [].
Proof. apply dnscurve_nonempty, mp_bytes_nonempty. Qed.
Lemma peer_pieces_nonempty p : peer_pieces p ≠ [].
Proof. unfold peer_pieces. pose proof (peer_raw_nonempty p). by destruct (dnscurve_encode _). Qed.
Lemma peer_pieces_wf p : name_wf (peer_pieces p).
Proof. apply pieces_wf, dnscurve_chars. Qed.
Lemma peer_labels_wf p : name_wf (peer_labels p).
Proof. apply Forall_app. split; [apply peer_pieces_wf|apply service_name_text]. Qed.

Lemma encode_peer_id_enc p : encode_peer_id p = Some (enc_name (peer_labels p)).
Proof.
  unfold encode_peer_id. rewrite segment_pieces by apply peer_raw_nonempty. fold (peer_pieces p).
  destruct service_name_text as [-> _].
  assert (Ht : name_text (peer_pieces p) ++ DOT :: name_text service_labels = name_text (peer_labels p)).
  { symmetry. apply (name_text_app _ (b_str "_p2p") [b_str "_udp"; b_str "local"]), peer_pieces_nonempty. }
  rewrite Ht, append_qname_enc; [done| |apply peer_labels_wf].
  unfold peer_labels. pose proof (peer_pieces_nonempty p). by destruct (peer_pieces p).
Qed.

(** The name of a peer is read back. *)
Lemma peer_name_roundtrip p :
  dnscurve_decode (filter (.≠ DOT) (rsplitn_last 3 (name_text (peer_labels p)))) ≫= peer_from_bytes = Some p.
Proof.
  unfold peer_labels. rewrite rsplitn_service by apply peer_pieces_nonempty. rewrite filter_dots.
  - unfold peer_pieces. rewrite pieces_concat by done. rewrite dnscurve_roundtrip. cbn. unfold peer_from_bytes, peer_to_bytes.
    rewrite mh_roundtrip. cbn. apply mp_try_from_multihash.
  - eapply Forall_impl; [apply peer_pieces_wf|]. by intros l (_&_&?).
Qed.

Lemma append_txt_record_enc out p ttl txt :
  append_txt_record out (enc_name (peer_labels p)) ttl [txt] =
  if decide (255 < length txt) then Err TxtRecordTooLong else Ok (out ++ enc_record (txt_record p ttl txt)).
Proof.
  unfold append_txt_record. cbn [txt_buffer]. case_decide; [done|]. cbn [result_bind app].
  rewrite (proj2 (Z.ltb_ge _ _)); [|cbn [length]; lia]. f_equal.
  rewrite append_u16_split, append_u32_split. unfold enc_record, txt_record. cbn [dn_name dn_class dn_ttl dn_data enc_data data_type].
  rewrite bind_cons. cbn [mbind list_bind]. rewrite app_nil_r. unfold enc_string at 1. rewrite <-!app_assoc.
  repeat f_equal.
Qed.

(** The records added for the addresses do not depend on what is before them. *)
Lemma append_addresses_enc p ttl addrs : ∀ out,
  Forall (λ a, is_Some (iter a)) addrs →
  (∃ e, append_addresses out (enc_name (peer_labels p)) (peer_to_base58 p) ttl addrs = Some (Err e)) ∨
  ∃ txts, append_addresses out (enc_name (peer_labels p)) (peer_to_base58 p) ttl addrs =
      Some (Ok (out ++ ((txt_record p ttl <$> txts) ≫= enc_record))) ∧
    Forall2 (λ a txt, ∃ ps, iter a = Some ps ∧ append_character_string [] (dnsaddr_text ps p) = Ok txt ∧ length txt ≤ 255) addrs txts.
Proof.
  induction addrs as [|a addrs IH]; intros out Hall; cbn [append_addresses].
  { right. exists []. cbn. by rewrite app_nil_r. }
  apply Forall_cons in Hall as [[ps Ha] Hall]. rewrite (maddr_text a ps Ha). cbn [mbind option_bind]. fold (dnsaddr_text ps p).
  destruct (append_character_string [] (dnsaddr_text ps p)) as [txt|e] eqn:Htxt; [|left; by exists e]. cbn [result_bind].
  rewrite append_txt_record_enc. case_decide as Hlen; [left; by eexists|].
  destruct (IH (out ++ enc_record (txt_record p ttl txt)) Hall) as [[e He]|(txts&Hr&Hf)]; [left; by exists e|].
  right. exists (txt :: txts). rewrite Hr. split; [by rewrite fmap_cons, bind_cons, app_assoc|].
  constructor; [|done]. exists ps. split_and!; [done..|lia].
Qed.

Lemma duration_to_secs_ok d : (0 ≤ d_secs d)%Z → u32_ok (duration_to_secs d).
Proof. unfold duration_to_secs, u32_ok. destruct (0 <? d_nanos d)%Z; lia. Qed.

(** The response that is built is a packet of RFC 1035. *)
Lemma build_query_response_enc id p addrs ttl :
  u16_ok id → (0 ≤ d_secs ttl)%Z → Forall (λ a, is_Some (iter a)) addrs →
  match build_query_response id p addrs ttl with
  | Some (Ok out) => ∃ txts, out = enc_message (response_message id p (duration_to_secs ttl) txts) ∧
      message_wf (response_message id p (duration_to_secs ttl) txts) ∧
      Forall2 (λ a txt, ∃ ps, iter a = Some ps ∧ append_character_string [] (dnsaddr_text ps p) = Ok txt ∧ length txt ≤ 255)
        (take (Z.to_nat 65535) addrs) txts
  | Some (Err _) => True
  | None => (0xffff < Z.of_nat (length (enc_name (peer_labels p))))%Z
  end.
Proof.
  intros Hid Httl Hall. unfold build_query_response. rewrite append_service. cbn [mbind option_bind].
  rewrite encode_peer_id_enc. cbn [mbind option_bind].
  destruct (Z.of_nat (length (enc_name (peer_labels p))) <=? 65535)%Z eqn:Hlen; [|by apply Z.leb_gt].
  apply Z.leb_le in Hlen. set (naddr := length (take (Z.to_nat 65535) addrs)).
  assert (Hn : naddr ≤ Z.to_nat 65535) by (unfold naddr; rewrite length_take; lia).
  rewrite (Z.mod_small (Z.of_nat naddr)) by lia. rewrite (Z.mod_small (Z.of_nat (length (enc_name _)))) by lia.
  destruct (append_addresses_enc p (duration_to_secs ttl) (take (Z.to_nat 65535) addrs)
    (append_u16 (append_u32 (append_u16 (append_u16 (append_u16 (append_u16 (append_u16 (append_u16 (append_u16 (append_u16 [] id)
      33792) 0) 1) 0) (Z.of_nat naddr) ++ enc_name service_labels) 12) 1) (duration_to_secs ttl))
      (Z.of_nat (length (enc_name (peer_labels p)))) ++ enc_name (peer_labels p))) as [[e He]|(txts&Hr&Hf)];
    [by apply Forall_take|by rewrite He|]. rewrite Hr. cbn [mbind option_bind result_bind].
  destruct (9000 <? _)%Z; [done|]. exists txts. pose proof (Forall2_length _ _ _ Hf) as Hlt. fold naddr in Hlt.
  split_and!; [| |done].
  - rewrite !append_u16_split, append_u32_split. unfold enc_message, response_message. cbn [dm_id dm_response dm_questions dm_answers dm_additional].
    rewrite length_fmap, <-Hlt. cbn [mbind list_bind length app]. unfold enc_record at 2. cbn [dn_name dn_class dn_ttl dn_data data_type enc_data].
    rewrite app_nil_r, <-!app_assoc. done.
  - unfold message_wf, response_message. cbn [dm_id dm_response dm_questions dm_answers dm_additional]. rewrite length_fmap, <-Hlt.
    pose proof (duration_to_secs_ok ttl Httl) as Ht.
    split_and!; [done|constructor| | |unfold u16_ok; simpl; lia|unfold u16_ok; simpl; lia|unfold u16_ok; lia].
    + constructor; [|constructor]. split_and!; [apply service_name_text|by left|done|]. split; [apply peer_labels_wf|]. unfold u16_ok. simpl enc_data. lia.
    + apply Forall_fmap. clear -Hf Ht HML HPL. induction Hf as [|a txt addrs' txts (ps&_&_&Hl) _ IH]; [constructor|]. constructor; [|done].
      split_and!; [apply peer_labels_wf|right; left|done|]. split; [split; [done|by apply Forall_singleton]|].
      unfold u16_ok. cbn [enc_data dn_data txt_record]. rewrite bind_cons. cbn [mbind list_bind]. rewrite app_nil_r. unfold enc_string. cbn [length]. lia.
Qed.

Lemma build_query_enc id : build_query id = Some (enc_message (query_message id)).
Proof.
  unfold build_query. rewrite append_service. cbn [mbind option_bind]. rewrite !append_u16_split.
  assert (Heq : (((((((([] ++ be_split 2 id) ++ be_split 2 0) ++ be_split 2 1) ++ be_split 2 0) ++ be_split 2 0) ++ be_split 2 0) ++
    enc_name service_labels) ++ be_split 2 12) ++ be_split 2 1 = enc_message (query_message id)).
  { unfold enc_message, query_message, enc_question. cbn [dm_id dm_response dm_questions dm_answers dm_additional mbind list_bind length].
    rewrite !app_nil_r. rewrite <-!app_assoc. done. }
  rewrite decide_True; [by rewrite Heq|]. by rewrite !length_app, !length_be_split.
Qed.

Lemma build_service_discovery_enc id ttl :
  build_service_discovery_response id ttl = Some (enc_message (discovery_message id (duration_to_secs ttl))).
Proof.
  unfold build_service_discovery_response. rewrite append_meta. cbn [mbind option_bind]. rewrite append_service. cbn [mbind option_bind].
  rewrite !append_u16_split, append_u32_split. cbn [app].
  change (Z.of_nat (length (enc_name service_labels)) mod 2 ^ 16)%Z with (Z.of_nat (length (enc_name service_labels))).
  rewrite decide_True.
  - reflexivity.
  - by rewrite !length_app, !length_be_split.
Qed.

Lemma query_message_wf id : u16_ok id → message_wf (query_message id).
Proof.
  intros Hid. unfold message_wf. cbn [query_message dm_id dm_response dm_questions dm_answers dm_additional].
  split_and!; [done|apply Forall_singleton, service_name_text|constructor|constructor|unfold u16_ok; simpl; lia..].
Qed.
Lemma discovery_message_wf id ttl : u16_ok id → u32_ok ttl → message_wf (discovery_message id ttl).
Proof.
  intros Hid Httl. unfold message_wf. cbn [discovery_message dm_id dm_response dm_questions dm_answers dm_additional].
  split_and!; [done|constructor| |constructor|unfold u16_ok; simpl; lia..]. apply Forall_singleton.
  split_and!; [apply meta_name_text|right; left|done|]. split; [apply service_name_text|]. unfold u16_ok. simpl. lia.
Qed.

(** The queries and the service discovery are recognised by who receives them. *)
Lemma query_read id from : u16_ok id → new_from_bytes (PeerId := PeerId) (enc_message (query_message id)) from = Some (Some (Query from id)).
Proof.
  intros Hid. unfold new_from_bytes. rewrite packet_parse_rfc by by apply query_message_wf.
  cbn [packet_of query_message pk_query pk_questions pk_id dm_response dm_questions dm_id negb fmap list_fmap].
  destruct service_name_text as [<- _]. rewrite decide_True by left. done.
Qed.

Lemma txts_of_records p ttl txts :
  concat (omap (λ r, if decide (rr_name r = name_text (peer_labels p)) then
    match rr_data r with TXT l => Some l | _ => None end else None) (record_of <$> (txt_record p ttl <$> txts))) = txts.
Proof.
  induction txts as [|txt txts IH]; [done|]. cbn [fmap list_fmap omap list_omap record_of txt_record rr_name dn_name rr_data dn_data].
  rewrite decide_True by done. cbn [concat app]. f_equal. apply IH.
Qed.

Lemma response_read id p ttl txts addrs from :
  message_wf (response_message id p ttl txts) → txt_addresses p txts = Some addrs →
  new_from_bytes (enc_message (response_message id p ttl txts)) from = Some (Some (Response [mk_MdnsPeer addrs p ttl] from)).
Proof.
  intros Hwf Htxts. unfold new_from_bytes. rewrite packet_parse_rfc by done.
  set (pk := packet_of (response_message id p ttl txts)).
  assert (Hq : pk_query pk = false) by done. rewrite Hq.
  change (pk_answers pk) with [mk_ResourceRecord (name_text service_labels) ttl (PTR (name_text (peer_labels p)))].
  cbn [answer_peers]. unfold answer_peer. cbn [rr_name rr_data rr_ttl]. destruct service_name_text as [<- _]. rewrite decide_True by done.
  rewrite peer_name_roundtrip. unfold MdnsPeer_new.
  change (pk_additional pk) with (record_of <$> (txt_record p ttl <$> txts)). rewrite txts_of_records, Htxts. done.
Qed.

(** The addresses that can be sent: they print to a text that is read back. *)
Definition sendable p (a : Multiaddr) : Prop :=
  ∃ ps, iter a = Some ps ∧ Forall printable ps ∧ quotable (dnsaddr_text ps p).

Lemma sendable_iter p addrs : Forall (sendable p) addrs → Forall (λ a, is_Some (iter a)) addrs.
Proof. intros Hall. eapply Forall_impl; [exact Hall|]. intros a (ps&?&_). by exists ps. Qed.

Lemma txt_addresses_roundtrip p addrs txts :
  Forall (sendable p) addrs →
  Forall2 (λ a txt, ∃ ps, iter a = Some ps ∧ append_character_string [] (dnsaddr_text ps p) = Ok txt ∧ length txt ≤ 255) addrs txts →
  ∃ addrs', txt_addresses p txts = Some addrs' ∧ Forall2 (λ a a', iter a' = iter a) addrs addrs'.
Proof.
  intros Hall Hf. induction Hf as [|a txt addrs txts (ps&Ha&Htxt&_) _ IH]; [by exists []|].
  apply Forall_cons in Hall as [(ps'&Ha'&Hpr&Hq) Hall]. rewrite Ha in Ha'. injection Ha' as <-.
  destruct (IH Hall) as (addrs'&Hr&Hf'). pose proof Ha as Hwf%denotes_iter%denotes_wf.
  destruct (txt_address_roundtrip p ps txt Hwf Hpr Hq Htxt) as (a'&Ht&Hi). exists (a' :: addrs').
  cbn [txt_addresses]. rewrite Ht. cbn [mbind option_bind]. rewrite Hr. split; [done|]. constructor; [|done]. by rewrite Hi, Ha.
Qed.

Lemma response_read_back id p addrs ttl out from :
  u16_ok id → (0 ≤ d_secs ttl)%Z → Forall (sendable p) addrs → build_query_response id p addrs ttl = Some (Ok out) →
  ∃ addrs', new_from_bytes out from = Some (Some (Response [mk_MdnsPeer addrs' p (duration_to_secs ttl)] from)) ∧
    Forall2 (λ a a', iter a' = iter a) (take (Z.to_nat 65535) addrs) addrs'.
Proof.
  intros Hid Httl Hall Hout. pose proof (build_query_response_enc id p addrs ttl Hid Httl (sendable_iter _ _ Hall)) as Henc.
  rewrite Hout in Henc. destruct Henc as (txts&->&Hwf&Hf).
  destruct (txt_addresses_roundtrip p _ txts (Forall_take _ _ _ Hall) Hf) as (addrs'&Hr&Hf').
  exists addrs'. split; [by apply response_read|done].
Qed.

(** The packets built are packets of RFC 1035: the parser gives back the id, the peer, its
    time to live and all its addresses, in order. *)
Theorem mdns_response_roundtrip id p addrs ttl out from (Hid : u16_ok id) (Httl : (0 ≤ d_secs ttl)%Z)
    (Haddrs : Forall (sendable p) addrs) (Hout : build_query_response id p addrs ttl = Some (Ok out)) :
  (Z.of_nat (length out) ≤ 9000)%Z ∧
  ∃ addrs', new_from_bytes out from = Some (Some (Response [mk_MdnsPeer addrs' p (duration_to_secs ttl)] from)) ∧
    Forall2 (λ a a', iter a' = iter a) (take (Z.to_nat 65535) addrs) addrs'.
Proof.
  split; [|by eapply response_read_back]. revert Hout. unfold build_query_response.
  destruct (append_qname _ _); [|done]. cbn [mbind option_bind]. destruct (encode_peer_id p); [|done]. cbn [mbind option_bind].
  destruct (_ <=? _)%Z; [|done]. destruct (append_addresses _ _ _ _ _) as [[o|]|]; [|done..]. cbn [mbind option_bind result_bind].
  destruct (9000 <? _)%Z eqn:Hlt; [done|]. intros [= <-]. by apply Z.ltb_ge.
Qed.

(** *** Discovery *)

(** The addresses told for one address: itself, behind it with the IP address seen. *)
Definition told (ip : IpAddr) (ps : list Protocol) : list (list Protocol) :=
  match ps with
  | q :: rest => if is_ip_or_dns q then [proto_of_ip ip :: rest; ps] else [ps]
  | [] => [ps]
  end.

Lemma is_ip_proto ip : is_ip_or_dns (proto_of_ip ip) = true.
Proof. by destruct ip. Qed.

Lemma translated_told from addrs pss :
  socket_wf from → Forall2 (λ a ps, iter a = Some ps) addrs pss →
  ∃ l, translated (from_iter [proto_of_ip (sa_ip from); Udp (sa_port from)]) addrs = Some l ∧
    Forall2 (λ a ps, iter a = Some ps) l (pss ≫= told (sa_ip from)).
Proof.
  intros [Hport Hip] Hf. set (observed := from_iter _).
  assert (Hobs : iter observed = Some [proto_of_ip (sa_ip from); Udp (sa_port from)]).
  { apply denotes_iter, denotes_from_iter. constructor; [by apply proto_of_ip_wf|]. by apply Forall_singleton. }
  induction Hf as [|a ps addrs pss Ha _ IH]; [by exists []|]. destruct IH as (l&Hl&Hfl). cbn [translated].
  destruct (translation_refines a ps observed _ Ha Hobs) as (r&->&Hr). cbn [mbind option_bind]. rewrite Hl. cbn [mbind option_bind].
  eexists. split; [done|]. rewrite bind_cons. destruct ps as [|q rest]; [subst r; by constructor|]. cbn [told].
  rewrite is_ip_proto, andb_true_r in Hr. destruct (is_ip_or_dns q).
  - destruct Hr as (m'&->&Hm'). by repeat constructor.
  - subst r. by constructor.
Qed.

Definition protocols_of (addrs : list Multiaddr) : list (list Protocol) := omap iter addrs.

Lemma sendable_protocols p addrs : Forall (sendable p) addrs → Forall2 (λ a ps, iter a = Some ps) addrs (protocols_of addrs).
Proof.
  induction 1 as [|a addrs (ps&Ha&_) _ IH]; [constructor|]. unfold protocols_of. cbn [omap list_omap]. rewrite Ha. by constructor.
Qed.

Lemma same_protocols addrs addrs' pss :
  Forall2 (λ a a', iter a' = iter a) addrs addrs' → Forall2 (λ a ps, iter a = Some ps) addrs pss →
  Forall2 (λ a ps, iter a = Some ps) addrs' pss.
Proof.
  intros Hf. revert pss. induction Hf as [|a a' addrs addrs' Ha _ IH]; intros pss Hp.
  - by inversion Hp.
  - apply Forall2_cons_inv_l in Hp as (ps&pss'&Hps&Hp&->). constructor; [by rewrite Ha|by apply IH].
Qed.

Lemma bind_fmap_list {A B C} (f : A → B) (g : B → list C) l : (f <$> l) ≫= g = l ≫= (g ∘ f).
Proof. induction l as [|x l IH]; [done|]. cbn [fmap list_fmap]. by rewrite !bind_cons, IH. Qed.

(** A node that answers the query of another one is found by it: the answer goes to the
    address that asked, and every listener there is told, in order, each address of the
    node and, if it starts with an IP address or a name, also with the address seen; of
    its own answers a node tells nothing. *)
Theorem mdns_discovery sa sb random query fa fb resp
    (Hid : u16_ok random) (Haddrs : Forall (sendable (mc_local_peer (ms_config sa))) (mc_listened_addrs (ms_config sa)))
    (Hfa : socket_wf fa) (Hquery : mdns_next sb (MTimer random) = Some (sb, [SendTo IPV4_MDNS_MULTICAST_ADDRESS query]))
    (Hresp : mdns_next sa (MReceive query fb) = Some (sa, [SendTo fb resp])) :
  ∃ addrs, Forall2 (λ a ps, iter a = Some ps) addrs
      (protocols_of (take (Z.to_nat 65535) (mc_listened_addrs (ms_config sa))) ≫= told (sa_ip fa)) ∧
    mdns_next sb (MReceive resp fa) = Some (sb,
      if decide (mc_local_peer (ms_config sa) = mc_local_peer (ms_config sb)) then []
      else addrs ≫= λ a, (λ n, PeerFound n (mk_AddrInfo (mc_local_peer (ms_config sa)) [a])) <$> (map_to_list (ms_notifees sb)).*2).
Proof.
  set (p := mc_local_peer (ms_config sa)) in *. unfold mdns_next in Hquery. rewrite build_query_enc in Hquery.
  destruct (mc_silent (ms_config sb)); [done|]. cbn [mbind option_bind] in Hquery. injection Hquery as <-.
  cbn [mdns_next] in Hresp. rewrite query_read in Hresp by done. cbn [mbind option_bind handle_received_packet] in Hresp. fold p in Hresp.
  destruct (build_query_response random p (mc_listened_addrs (ms_config sa)) MDNS_RESPONSE_TTL) as [[out|]|] eqn:Hb; [|done..].
  cbn [mbind option_bind] in Hresp. injection Hresp as <-.
  destruct (response_read_back random p _ MDNS_RESPONSE_TTL out fa Hid ltac:(done) Haddrs Hb) as (addrs'&Hread&Hsame).
  pose proof (same_protocols _ _ _ Hsame (sendable_protocols p _ (Forall_take _ _ _ Haddrs))) as Hpro.
  destruct (translated_told fa addrs' _ Hfa Hpro) as (addrs&Htr&Htold). exists addrs. split; [done|].
  cbn [mdns_next]. rewrite Hread. cbn [mbind option_bind handle_received_packet discovered md_peer_id md_addrs].
  case_decide as Heq; [done|]. rewrite Htr. cbn [mbind option_bind]. rewrite app_nil_r. do 2 f_equal. apply bind_fmap_list.
Qed.

(** *** Panics *)

Lemma append_txt_record_out out name ttl es :
  append_txt_record out name ttl es = let? o := append_txt_record [] name ttl es in Ok (out ++ o).
Proof.
  unfold append_txt_record. destruct (txt_buffer [] es) as [buf|]; [|done]. cbn [result_bind].
  destruct (65535 <? _)%Z; [done|]. cbn [result_bind]. f_equal. rewrite !append_u16_split, !append_u32_split. cbn [app].
  by rewrite <-!app_assoc.
Qed.

Lemma append_addresses_out name b58 ttl addrs : ∀ out,
  append_addresses out name b58 ttl addrs =
  match append_addresses [] name b58 ttl addrs with Some (Ok o) => Some (Ok (out ++ o)) | r => r end.
Proof.
  induction addrs as [|a addrs IH]; intros out; cbn [append_addresses]; [by rewrite app_nil_r|].
  destruct (maddr_to_string a) as [text|]; [|done]. cbn [mbind option_bind].
  destruct (append_character_string [] _) as [txt|]; [|done]. cbn [result_bind]. rewrite append_txt_record_out.
  destruct (append_txt_record [] name ttl [txt]) as [o|]; [|done]. cbn [result_bind]. rewrite IH, (IH o).
  destruct (append_addresses [] name b58 ttl addrs) as [[o'|]|]; [|done..]. by rewrite app_assoc.
Qed.

(** Whether a response can be built does not depend on the id of the query. *)
Lemma build_query_response_id id id' p addrs ttl out :
  build_query_response id p addrs ttl = Some (Ok out) → ∃ out', build_query_response id' p addrs ttl = Some (Ok out').
Proof.
  unfold build_query_response. rewrite !append_service. cbn [mbind option_bind]. rewrite encode_peer_id_enc. cbn [mbind option_bind].
  destruct (_ <=? _)%Z; [|done].
  rewrite append_addresses_out. rewrite (append_addresses_out _ _ _ _ (append_u16 _ _ ++ _)).
  destruct (append_addresses [] _ _ _ _) as [[o|]|]; [|done..]. cbn [mbind option_bind result_bind].
  rewrite !append_u16_split, !append_u32_split, !length_app, !length_be_split. destruct (9000 <? _)%Z; [done|]. eauto.
Qed.

Lemma from_str_valid a m : utf8_valid a = true → length a ≤ 255 → from_str a = Ok m → is_Some (iter m).
Proof.
  intros Hu Hlen Hm. destruct (from_str_ok a m) as (ps&Hps&->); [|done|].
  - split; [done|]. lia.
  - exists ps. by apply denotes_iter, denotes_from_iter.
Qed.

Lemma decode_shrinks txt t : decode_character_string txt = Ok t → length t ≤ length txt.
Proof.
  destruct txt as [|c txt]; cbn; [by intros [= <-]|]. case_decide; [|by intros [= <-]]. case_decide; [done|].
  intros [= <-]. rewrite length_take. lia.
Qed.

Lemma txt_address_total p txt : length txt ≤ 255 →
  ∃ r, txt_address p txt = Some r ∧ ∀ a, r = Some a → is_Some (iter a).
Proof.
  intros Hlen. unfold txt_address. destruct (decode_character_string txt) as [t|] eqn:Hd; [|by eexists].
  case_decide; [|by eexists]. destruct (utf8_valid (drop 8 t)) eqn:Hu; [|by eexists].
  destruct (from_str (drop 8 t)) as [m|] eqn:Hm; [|by eexists].
  destruct (from_str_valid (drop 8 t) m Hu) as [ps Hi]; [apply decode_shrinks in Hd; rewrite length_drop; lia|done|].
  destruct (pop_refines m ps Hi) as (m'&->&Hi'). cbn [mbind option_bind]. eexists. split; [done|].
  intros a. destruct (last ps) as [[]|]; try done. destruct (mp_try_from h); [|done]. case_decide; [|done]. intros [= <-]. by rewrite Hi'.
Qed.

Lemma txt_addresses_total p txts : Forall (λ t, length t ≤ 255) txts →
  ∃ l, txt_addresses p txts = Some l ∧ Forall (λ a, is_Some (iter a)) l.
Proof.
  induction 1 as [|t txts Ht _ IH]; [by exists []|]. destruct (txt_address_total p t Ht) as (r&Hr&Hv), IH as (l&Hl&Hall).
  cbn [txt_addresses]. rewrite Hr. cbn [mbind option_bind]. rewrite Hl. cbn [mbind option_bind]. eexists. split; [done|].
  destruct r as [a|]; [constructor; auto|done].
Qed.

Lemma answer_peers_total buf pk answers : packet_parse buf = Some pk →
  ∃ l, answer_peers (PeerId := PeerId) pk answers = Some l ∧ Forall (λ x, Forall (λ a, is_Some (iter a)) (md_addrs x)) l.
Proof.
  intros Hpk. induction answers as [|r answers (l&Hl&Hall)]; [by exists []|]. cbn [answer_peers].
  assert (Hp : ∃ x, answer_peer (PeerId := PeerId) pk r = Some x ∧ ∀ y, x = Some y → Forall (λ a, is_Some (iter a)) (md_addrs y)).
  { unfold answer_peer. case_decide; [|by eexists]. destruct (rr_data r) as [v| |]; [|by eexists..].
    destruct (_ ≫= peer_from_bytes) as [q|]; [|by eexists]. unfold MdnsPeer_new.
    destruct (txt_addresses_total q (concat (omap (λ r, if decide (rr_name r = v) then
      match rr_data r with TXT l => Some l | _ => None end else None) (pk_additional pk)))) as (la&->&Hla).
    - apply Forall_forall. intros t Ht. apply list_elem_of_In, in_concat in Ht as (ts&Hts&Ht).
      apply list_elem_of_In in Hts, Ht.
      apply list_elem_of_omap in Hts as (rec&Hrec&Hd). case_decide; [|done]. destruct (rr_data rec) as [|es|] eqn:He; [done| |done].
      injection Hd as <-. by eapply packet_parse_txt.
    - cbn. eexists. split; [done|]. by intros y [= <-]. }
  destruct Hp as (x&->&Hx). cbn [mbind option_bind]. rewrite Hl. cbn [mbind option_bind]. eexists. split; [done|].
  destruct x as [y|]; [constructor; auto|done].
Qed.

Lemma discovered_total (local : PeerId) from peers : socket_wf from →
  Forall (λ x, Forall (λ a, is_Some (iter a)) (md_addrs x)) peers →
  is_Some (discovered local (from_iter [proto_of_ip (sa_ip from); Udp (sa_port from)]) peers).
Proof.
  intros Hfrom. induction 1 as [|x peers Hx _ [l Hl]]; [by eexists|]. cbn [discovered]. case_decide; [by rewrite Hl|].
  destruct (translated_told from (md_addrs x) (protocols_of (md_addrs x)) Hfrom) as (t&->&_).
  { clear -Hx. induction Hx as [|a l [ps Ha] _ IH]; [constructor|]. unfold protocols_of. cbn [omap list_omap]. rewrite Ha. by constructor. }
  cbn [mbind option_bind]. rewrite Hl. by eexists.
Qed.

Definition mdns_input_ok (i : MdnsInput) : Prop := match i with MReceive _ from => socket_wf from | _ => True end.

(** Whatever packets arrive, the service does not panic, exactly if the answer to a query
    can be built: if it cannot, a single query ends the service. *)
Theorem mdns_panics_iff s :
  (∀ i, mdns_input_ok i → is_Some (mdns_next s i)) ↔
  ∃ out, build_query_response 0 (mc_local_peer (ms_config s)) (mc_listened_addrs (ms_config s)) MDNS_RESPONSE_TTL = Some (Ok out).
Proof.
  split.
  - intros Hall. destruct (Hall (MReceive (enc_message (query_message 0)) (mk_SocketAddr (V4 (Ipv4 Byte.x00 Byte.x00 Byte.x00 Byte.x00)) 0)))
      as [x Hx]; [split; [unfold u16_ok; cbn; lia|done]|].
    cbn [mdns_next] in Hx. rewrite query_read in Hx by (unfold u16_ok; lia). cbn [mbind option_bind handle_received_packet] in Hx.
    destruct (build_query_response 0 _ _ _) as [[out|]|]; [by eexists|done..].
  - intros [out Hout] i Hi. destruct i as [data from|cmd random|random]; cbn [mdns_next]; [|by eexists|].
    + unfold new_from_bytes. destruct (packet_parse data) as [pk|] eqn:Hpk; [|by eexists]. destruct (pk_query pk).
      * case_decide.
        -- cbn [mbind option_bind handle_received_packet].
           destruct (build_query_response_id _ (pk_id pk) _ _ _ _ Hout) as [out' ->]. by eexists.
        -- case_decide; [|by eexists]. cbn [mbind option_bind handle_received_packet]. rewrite build_service_discovery_enc. by eexists.
      * destruct (answer_peers_total data pk (pk_answers pk) Hpk) as (peers&->&Hpeers). cbn [mbind option_bind handle_received_packet].
        destruct (discovered_total (mc_local_peer (ms_config s)) from peers Hi Hpeers) as [l ->]. by eexists.
    + destruct (mc_silent _); [by eexists|]. rewrite build_query_enc. by eexists.
Qed.
End mdns_theory.

(** ** A parser of packets

    A parser without name compression, which has the behaviour assumed of [dns_parser]. *)

Definition get_u16 (bs : bytes) : option (Z * bytes) :=
  if decide (length bs < 2) then None else Some (be_combine (take 2 bs), drop 2 bs).
Definition get_u32 (bs : bytes) : option (Z * bytes) :=
  if decide (length bs < 4) then None else Some (be_combine (take 4 bs), drop 4 bs).
Definition get_string (bs : bytes) : option (bytes * bytes) :=
  match bs with
  | [] => None
  | c :: bs => let n := Z.to_nat (byte.unsigned c) in if decide (length bs < n) then None else Some (take n bs, drop n bs)
  end.
Fixpoint get_name (fuel : nat) (bs : bytes) : option (list bytes * bytes) :=
  match fuel with
  | 0 => None
  | S fuel =>
      '(l, bs) ← get_string bs;
      match l with
      | [] => Some ([], bs)
      | _ => '(ls, bs) ← get_name fuel bs; Some (l :: ls, bs)
      end
  end.
Fixpoint get_strings (fuel : nat) (bs : bytes) : option (list bytes) :=
  match fuel, bs with
  | _, [] => Some []
  | 0, _ => None
  | S fuel, _ => '(l, bs) ← get_string bs; ls ← get_strings fuel bs; Some (l :: ls)
  end.
Definition get_data (type : Z) (bs : bytes) : option RData :=
  if (type =? 12)%Z then '(n, _) ← get_name (length bs) bs; Some (PTR (name_text n))
  else if (type =? 16)%Z then es ← get_strings (length bs) bs; Some (TXT es)
  else Some OtherData.
Definition get_rr (bs : bytes) : option (ResourceRecord * bytes) :=
  '(name, bs) ← get_name (length bs) bs;
  '(type, bs) ← get_u16 bs;
  '(_, bs) ← get_u16 bs;
  '(ttl, bs) ← get_u32 bs;
  '(n, bs) ← get_u16 bs;
  if decide (length bs < Z.to_nat n) then None
  else
    data ← get_data type (take (Z.to_nat n) bs);
    Some (mk_ResourceRecord (name_text name) ttl data, drop (Z.to_nat n) bs).
Definition get_question (bs : bytes) : option (bytes * bytes) :=
  '(name, bs) ← get_name (length bs) bs;
  '(_, bs) ← get_u16 bs;
  '(_, bs) ← get_u16 bs;
  Some (name_text name, bs).
Fixpoint get_many {A} (n : nat) (get : bytes → option (A * bytes)) (bs : bytes) : option (list A * bytes) :=
  match n with
  | 0 => Some ([], bs)
  | S n => '(x, bs) ← get bs; '(l, bs) ← get_many n get bs; Some (x :: l, bs)
  end.
Definition get_packet (bs : bytes) : option Packet :=
  '(id, bs) ← get_u16 bs;
  '(flags, bs) ← get_u16 bs;
  '(qd, bs) ← get_u16 bs;
  '(an, bs) ← get_u16 bs;
  '(_, bs) ← get_u16 bs;
  '(ar, bs) ← get_u16 bs;
  '(questions, bs) ← get_many (Z.to_nat qd) get_question bs;
  '(answers, bs) ← get_many (Z.to_nat an) get_rr bs;
  '(additional, bs) ← get_many (Z.to_nat ar) get_rr bs;
  Some (mk_Packet id (flags <? 2 ^ 15)%Z questions answers additional).

Lemma get_u16_split z rest : u16_ok z → get_u16 (be_split 2 z ++ rest) = Some (z, rest).
Proof.
  intros Hz. unfold get_u16. rewrite decide_False by (rewrite length_app, length_be_split; lia).
  rewrite take_app_length', drop_app_length' by by rewrite length_be_split. by rewrite be_combine_split_small.
Qed.
Lemma get_u32_split z rest : u32_ok z → get_u32 (be_split 4 z ++ rest) = Some (z, rest).
Proof.
  intros Hz. unfold get_u32. rewrite decide_False by (rewrite length_app, length_be_split; lia).
  rewrite take_app_length', drop_app_length' by by rewrite length_be_split. by rewrite be_combine_split_small.
Qed.
Lemma get_string_enc s rest : length s ≤ 255 → get_string (enc_string s ++ rest) = Some (s, rest).
Proof.
  intros Hs. unfold enc_string. cbn [app get_string]. rewrite byte.unsigned_of_Z. unfold byte.wrap.
  rewrite Z.mod_small, Nat2Z.id by lia. rewrite decide_False by (rewrite length_app; lia).
  by rewrite take_app_length, drop_app_length.
Qed.

Lemma get_name_enc ls rest fuel : name_wf ls → length (enc_name ls) ≤ fuel → get_name fuel (enc_name ls ++ rest) = Some (ls, rest).
Proof.
  intros Hls. revert fuel. induction Hls as [|l ls (Hl&_) _ IH]; intros fuel Hf; (destruct fuel as [|fuel]; [simpl in Hf; lia|]).
  - change (get_name (S fuel) (enc_string [] ++ rest) = Some ([], rest)). cbn [get_name]. by rewrite get_string_enc by (simpl; lia).
  - assert (He : enc_name (l :: ls) = enc_string l ++ enc_name ls) by (unfold enc_name; by rewrite bind_cons, app_assoc).
    rewrite He, <-app_assoc. cbn [get_name]. rewrite get_string_enc by lia. cbn [mbind option_bind].
    destruct l as [|c l]; [simpl in Hl; lia|]. rewrite IH; [done|]. rewrite He, length_app in Hf. unfold enc_string in Hf. simpl in Hf. lia.
Qed.

Lemma get_strings_enc es fuel : Forall (λ e : bytes, length e ≤ 255) es → length (es ≫= enc_string) ≤ fuel →
  get_strings fuel (es ≫= enc_string) = Some es.
Proof.
  intros Hes. revert fuel. induction Hes as [|e es He _ IH]; intros fuel Hf; [by destruct fuel|].
  rewrite bind_cons in *. destruct fuel as [|fuel]; [simpl in Hf; lia|]. cbn [get_strings]. unfold enc_string at 1. cbn [app].
  change (byte.of_Z (Z.of_nat (length e)) :: e ++ (es ≫= enc_string)) with (enc_string e ++ (es ≫= enc_string)).
  rewrite get_string_enc by done. cbn [mbind option_bind]. rewrite length_app in Hf. unfold enc_string at 1 in Hf. simpl in Hf.
  rewrite IH by lia. done.
Qed.

Lemma get_data_enc d : data_wf d → get_data (data_type d) (enc_data d) = Some match d with DPtr n => PTR (name_text n) | DTxt es => TXT es end.
Proof.
  intros [Hd _]. destruct d as [n|es]; unfold get_data; cbn.
  - rewrite <-(app_nil_r (enc_name n)) at 2. by rewrite get_name_enc.
  - destruct Hd. by rewrite get_strings_enc.
Qed.

Lemma get_rr_enc r rest : record_wf r → get_rr (enc_record r ++ rest) = Some (record_of r, rest).
Proof.
  intros (Hn&Hc&Ht&Hd). unfold get_rr, enc_record. rewrite <-!app_assoc.
  rewrite get_name_enc; [|done|rewrite length_app; lia]. cbn [mbind option_bind].
  rewrite get_u16_split by (unfold u16_ok; destruct (dn_data r); cbn; lia). cbn [mbind option_bind].
  rewrite get_u16_split by (unfold u16_ok; repeat (apply elem_of_cons in Hc as [->|Hc]; [lia|]); by apply not_elem_of_nil in Hc).
  cbn [mbind option_bind]. rewrite get_u32_split by done. cbn [mbind option_bind]. rewrite get_u16_split by apply Hd.
  cbn [mbind option_bind]. rewrite Nat2Z.id. rewrite decide_False by (rewrite length_app; lia).
  rewrite take_app_length, drop_app_length, get_data_enc by done. done.
Qed.

Lemma get_question_enc n rest : name_wf n → get_question (enc_question n ++ rest) = Some (name_text n, rest).
Proof.
  intros Hn. unfold get_question, enc_question. rewrite <-!app_assoc. rewrite get_name_enc; [|done|rewrite length_app; lia].
  cbn [mbind option_bind]. rewrite get_u16_split by (unfold u16_ok; lia). cbn [mbind option_bind].
  rewrite get_u16_split by (unfold u16_ok; lia). done.
Qed.

Lemma get_many_enc {A B} (get : bytes → option (B * bytes)) (enc : A → bytes) (f : A → B) l rest :
  (∀ x rest, x ∈ l → get (enc x ++ rest) = Some (f x, rest)) →
  get_many (length l) get ((l ≫= enc) ++ rest) = Some (f <$> l, rest).
Proof.
  induction l as [|x l IH]; intros Hget; [done|]. rewrite bind_cons, <-app_assoc. cbn [length get_many].
  rewrite Hget by left. cbn [mbind option_bind]. rewrite IH; [done|]. intros y rest' Hy. apply Hget. by right.
Qed.

Lemma get_packet_enc m : message_wf m → get_packet (enc_message m) = Some (packet_of m).
Proof.
  intros (Hid&Hq&Ha&Hr&Hnq&Hna&Hnr). unfold get_packet, enc_message.
  do 6 (rewrite get_u16_split by (done || (unfold u16_ok; destruct (dm_response m); lia)); cbn [mbind option_bind]).
  rewrite !Nat2Z.id. rewrite Forall_forall in Hq. rewrite Forall_forall in Ha. rewrite Forall_forall in Hr.
  rewrite (get_many_enc get_question enc_question name_text) by (intros x rest Hx; by apply get_question_enc, Hq). cbn [mbind option_bind].
  rewrite (get_many_enc get_rr enc_record record_of) by (intros x rest Hx; by apply get_rr_enc, Ha). cbn [mbind option_bind].
  rewrite <-(app_nil_r (_ ≫= enc_record)).
  rewrite (get_many_enc get_rr enc_record record_of) by (intros x rest Hx; by apply get_rr_enc, Hr). cbn [mbind option_bind].
  unfold packet_of. by destruct (dm_response m).
Qed.

(** The strings it gives have at most 255 bytes. *)
Lemma get_strings_short fuel bs es e : get_strings fuel bs = Some es → e ∈ es → length e ≤ 255.
Proof.
  revert bs es. induction fuel as [|fuel IH]; intros bs es; cbn [get_strings].
  { destruct bs; [|done]. intros [= <-] He. by apply not_elem_of_nil in He. }
  destruct bs as [|c bs]; [intros [= <-] He; by apply not_elem_of_nil in He|]. cbn [get_string].
  case_decide; [done|]. cbn [mbind option_bind]. destruct (get_strings fuel _) as [ls|] eqn:Hls; [|done]. cbn [mbind option_bind].
  intros [= <-] [->|He]%elem_of_cons; [|by eapply IH]. rewrite length_take. pose proof (byte.unsigned_range c). lia.
Qed.

Lemma get_rr_short bs r rest es e : get_rr bs = Some (r, rest) → rr_data r = TXT es → e ∈ es → length e ≤ 255.
Proof.
  unfold get_rr. destruct (get_name _ _) as [[name bs1]|]; [|done]. cbn [mbind option_bind].
  destruct (get_u16 bs1) as [[type bs2]|]; [|done]. cbn [mbind option_bind]. destruct (get_u16 bs2) as [[? bs3]|]; [|done]. cbn [mbind option_bind].
  destruct (get_u32 bs3) as [[ttl bs4]|]; [|done]. cbn [mbind option_bind]. destruct (get_u16 bs4) as [[n bs5]|]; [|done]. cbn [mbind option_bind].
  case_decide; [done|]. unfold get_data. destruct (type =? 12)%Z.
  { destruct (get_name _ _) as [[? ?]|]; [|done]. cbn. intros [= <- _]. done. }
  destruct (type =? 16)%Z; [|cbn; intros [= <- _]; done].
  destruct (get_strings _ _) as [es'|] eqn:Hes; [|done]. cbn. intros [= <- _] [= ->]. by eapply get_strings_short.
Qed.

Lemma get_many_all {A} (P : A → Prop) n (get : bytes → option (A * bytes)) bs l rest :
  (∀ bs x rest, get bs = Some (x, rest) → P x) → get_many n get bs = Some (l, rest) → Forall P l.
Proof.
  intros HP. revert bs l. induction n as [|n IH]; intros bs l; cbn [get_many]; [by intros [= <- _]|].
  destruct (get bs) as [[x bs']|] eqn:Hx; [|done]. cbn [mbind option_bind]. destruct (get_many n get bs') as [[l' r']|] eqn:Hl; [|done].
  cbn [mbind option_bind]. intros [= <- ->]. constructor; eauto.
Qed.

Lemma get_packet_short buf pk r es e :
  get_packet buf = Some pk → r ∈ pk_additional pk → rr_data r = TXT es → e ∈ es → length e ≤ 255.
Proof.
  unfold get_packet. repeat (destruct (get_u16 _) as [[? ?]|]; [|done]; cbn [mbind option_bind]).
  destruct (get_many _ get_question _) as [[? ?]|]; [|done]. cbn [mbind option_bind].
  destruct (get_many _ get_rr _) as [[? b]|]; [|done]. cbn [mbind option_bind].
  destruct (get_many _ get_rr b) as [[adds ?]|] eqn:Hl; [|done]. cbn [mbind option_bind]. intros [= <-]. cbn. intros Hr Hd He.
  assert (Hall : Forall (λ r, ∀ es e, rr_data r = TXT es → e ∈ es → length e ≤ 255) adds).
  { eapply get_many_all; [|exact Hl]. intros bs x rest Hx es' e'. by eapply get_rr_short. }
  rewrite Forall_forall in Hall. by eapply Hall.
Qed.

(** ** Witnesses *)

#[local] Existing Instance leb128.
#[local] Existing Instance sample_codecs.

#[local] Instance sample_peer : MdnsPeerId u8 := { mp_multihash := λ b, b; mp_try_from := Some }.
#[local] Instance sample_peer_laws : MdnsPeerIdLaws u8.
Proof. split; done. Qed.

#[local] Instance sample_libs : MdnsLibs := {
  packet_parse := get_packet;
  dnscurve_encode := bs58_encode;
  dnscurve_decode := bs58_decode
}.
#[local] Instance sample_libs_laws : MdnsLibsLaws.
Proof.
  split.
  - apply get_packet_enc.
  - apply get_packet_short.
  - apply bs58_roundtrip.
  - apply bs58_chars.
  - intros bs Hbs Henc. destruct Hbs. cbn [dnscurve_encode sample_libs] in Henc. pose proof (bs58_roundtrip bs) as H1.
    rewrite Henc in H1. pose proof (bs58_roundtrip []) as H2. change (bs58_encode []) with ([] : bytes) in H2. congruence.
Qed.

Definition node_addr : Multiaddr := from_iter [Ip4 (Ipv4 Byte.x00 Byte.x00 Byte.x00 Byte.x00); Tcp 4001].
Definition node_a : MdnsService (PeerId := u8) := MdnsService_new (mk_MdnsConfig Byte.x0a [node_addr] false).
Definition node_b : MdnsService (PeerId := u8) := mk_MdnsService (mk_MdnsConfig Byte.x0b [] false) {[ 77%Z := 3 ]}.
Definition sock_a : SocketAddr := mk_SocketAddr other_ip 5353.
Definition sock_b : SocketAddr := mk_SocketAddr loopback 5353.

#[local] Instance quotable_dec s : Decision (quotable s).
Proof. unfold quotable. apply _. Defined.

Lemma node_addr_sendable : Forall (sendable (Byte.x0a : u8)) [node_addr].
Proof.
  constructor; [|constructor]. exists [Ip4 (Ipv4 Byte.x00 Byte.x00 Byte.x00 Byte.x00); Tcp 4001].
  split_and!; [by_eval|by repeat constructor|by_eval].
Qed.

Lemma mdns_response_roundtrip_witness :
  ∃ out, build_query_response 7 (Byte.x0a : u8) [node_addr] MDNS_RESPONSE_TTL = Some (Ok out) ∧ (Z.of_nat (length out) ≤ 9000)%Z.
Proof.
  destruct (build_query_response 7 (Byte.x0a : u8) [node_addr] MDNS_RESPONSE_TTL) as [[out|]|] eqn:Hout;
    [|vm_compute in Hout; discriminate..].
  exists out. split; [reflexivity|].
  refine (proj1 (mdns_response_roundtrip 7 (Byte.x0a : u8) [node_addr] MDNS_RESPONSE_TTL out sock_a _ _ node_addr_sendable Hout)).
  - unfold u16_ok. lia.
  - vm_compute. discriminate.
Defined.

Definition sample_query : bytes := default [] (build_query 9).
Definition sample_resp : bytes :=
  match build_query_response 9 (Byte.x0a : u8) [node_addr] MDNS_RESPONSE_TTL with Some (Ok o) => o | _ => [] end.

Lemma mdns_discovery_witness :
  ∃ addrs, Forall2 (λ a ps, iter a = Some ps) addrs
      [[proto_of_ip other_ip; Tcp 4001]; [Ip4 (Ipv4 Byte.x00 Byte.x00 Byte.x00 Byte.x00); Tcp 4001]] ∧
    mdns_next node_b (MReceive sample_resp sock_a) = Some (node_b, addrs ≫= λ a, [PeerFound 3 (mk_AddrInfo Byte.x0a [a])]).
Proof.
  destruct (mdns_discovery node_a node_b 9 sample_query sock_a sock_b sample_resp) as (addrs&Hf&Hn).
  - unfold u16_ok. lia.
  - exact node_addr_sendable.
  - split; [unfold u16_ok; simpl; lia|exact I].
  - vm_compute. reflexivity.
  - vm_compute. reflexivity.
  - exists addrs. split; [exact Hf|exact Hn].
Defined.

Lemma mdns_panics_iff_witness : is_Some (mdns_next node_a (MReceive sample_resp sock_b)).
Proof.
  apply (mdns_panics_iff node_a).
  - eexists. vm_compute. reflexivity.
  - split; [unfold u16_ok; simpl; lia|exact I].
Defined.

(** A name of 240 bytes does not fit a TXT record: the first query ends the service. *)
Definition node_long : MdnsService (PeerId := u8) :=
  MdnsService_new (mk_MdnsConfig Byte.x0a [from_iter [Dns4 (replicate 240 Byte.x61); Tcp 4001]] false).
Example long_name_panics : mdns_next node_long (MReceive sample_query sock_b) = None.
Proof. vm_compute. reflexivity. Qed.

(** A backslash in a text with a space comes back doubled. *)
Definition odd_addr : Multiaddr := from_iter [Unix (b_str "a \b")].
Example backslash_doubled :
  match build_query_response 9 (Byte.x0a : u8) [odd_addr] MDNS_RESPONSE_TTL with
  | Some (Ok out) => new_from_bytes (PeerId := u8) out sock_a = Some (Some (Response [mk_MdnsPeer [from_iter [Unix (b_str "a \\b")]] Byte.x0a 300] sock_a))
  | _ => False
  end.
Proof. vm_compute. reflexivity. Qed.
