(* ===== verification/Stack.v ===== *)
(** * Whole upgrades: secio under a multiplexer

    The streams of secio as a secure channel of [Upgrade.v], and the upgrade of a
    connection with them: the negotiation of secio, its handshake, and on the encrypted
    stream the negotiation and the handshake of a multiplexer. *)

From Stdlib Require Import ZArith Lia String.
From stdpp Require Import relations.
From S2P Require Import Prelude KadKey KadProto Varint Multiaddr Framing Multistream Identity Session Secio Upgrade.

Local Open Scope nat_scope.

Section secio_channel.
Context `{SecioCrypto} (accepts : nat → nat).

(** A write of the stream: one frame on the socket. *)
Definition secio_encode (e : Encrypter) (bs : bytes) : option (bytes * Encrypter) :=
  match encrypter_write e bs with
  | Some (Ok item, e) => match sink_send accepts item with (w, Ok _) => Some (w, e) | _ => None end
  | _ => None
  end.

(** The next frame and its content. *)
Definition secio_decode (d : Decrypter) : Reader (option (bytes * Decrypter)) :=
  rd_bind (next_frame (dc_max_len d)) (λ f,
    match f with
    | None => rd_ret None
    | Some frame =>
        match decode_frame d frame with
        | None => rd_panic
        | Some (Err _) => rd_fail InvalidData
        | Some (Ok d') => rd_ret (Some (dc_item d', mk_Decrypter [] (dc_ended d') (dc_max_len d') (dc_cipher d') (dc_hmac d')))
        end
    end).

#[local] Instance secio_channel : SecureCodec Encrypter Decrypter := {| sc_encode := secio_encode; sc_decode := secio_decode |}.
End secio_channel.

(** [poll_read] of the stream delivers from the frame that [secio_decode] reads. *)
Lemma decrypter_read_channel `{SecioCryptoLaws} (d : Decrypter) n eof inp :
  dc_item d = [] → dc_ended d = false →
  match secio_decode d eof inp with
  | Done (Some (b :: f, d')) rest => decrypter_read d n eof inp =
      Done (take n (b :: f), mk_Decrypter (drop n (b :: f)) (dc_ended d') (dc_max_len d') (dc_cipher d') (dc_hmac d')) rest
  | Done (Some ([], d')) rest => decrypter_read d n eof inp = decrypter_read d' n eof rest
  | Done None rest => ∃ d', decrypter_read d n eof inp = Done ([], d') rest
  | Failed e => decrypter_read d n eof inp = Failed e
  | Pending => decrypter_read d n eof inp = Pending
  | Panicked => decrypter_read d n eof inp = Panicked
  end.
Proof.
  intros Hi He. rewrite decrypter_read_eq, Hi, He. unfold secio_decode, rd_bind.
  destruct (next_frame (dc_max_len d) eof inp) as [[frame|] rest|e| |]; try done; [|by eexists].
  destruct (decode_frame d frame) as [[d'|e]|]; [|done..]. unfold rd_ret. destruct (dc_item d') as [|b f] eqn:Hd'.
  - rewrite (decrypter_read_eq d'), Hd'. by rewrite (decrypter_read_eq (mk_Decrypter _ _ _ _ _)).
  - rewrite (decrypter_read_eq d'), Hd'. done.
Qed.

Section secio_laws.
Context `{SecioCryptoLaws} (accepts : nat → nat) (Hacc : ∀ j, 0 < accepts j).

(** A mebibyte always fits into a frame. *)
Definition SECIO_CHUNK : nat := Z.to_nat (2 ^ 20).

Definition secio_pair (e : Encrypter) (d : Decrypter) : Prop :=
  stream_pair e d ∧ dc_item d = [] ∧ (Z.of_nat (SECIO_CHUNK + overhead e) ≤ dc_max_len d)%Z.

#[local] Instance secio_channel_laws : @SecureCodecLaws Encrypter Decrypter (secio_channel accepts).
Proof.
  refine {| sc_max := SECIO_CHUNK; sc_pair := secio_pair |}.
  - intros e d bs (Hp&Hi&Hmax) Hne Hlen.
    destruct (frame_pair e d bs Hp) as (item&e'&d'&Hw&Hd&Hbs&Hp'&Hm&Ho&Hil); [unfold fits; lia|].
    pose proof Hp as (_&_&_&Hlt).
    set (d2 := mk_Decrypter [] (dc_ended d') (dc_max_len d') (dc_cipher d') (dc_hmac d')).
    exists (frame_bytes item), e', [bs], d2. split_and!.
    + cbn. unfold secio_encode. rewrite Hw, sink_send_accepted by (done || lia). done.
    + rewrite <-(app_nil_r (frame_bytes item)). apply (frames_cons d d2 d2); [done| |constructor].
      intros eof rest. cbn. unfold secio_decode, rd_bind. rewrite next_frame_bytes by lia. rewrite Hd, Hbs. done.
    + cbn. apply app_nil_r.
    + split; [by destruct Hp' as (?&?&?&?)|]. split; [done|]. cbn. rewrite Ho, Hm. done.
  - intros d. cbn. unfold secio_decode. apply stable_bind; [apply stable_next_frame|]. intros [frame|]; [|apply stable_ret].
    destruct (decode_frame d frame) as [[d'|e]|]; [apply stable_ret|apply stable_fail|apply stable_panic].
  - intros d eof inp f d' rest. cbn. unfold secio_decode, rd_bind.
    destruct (next_frame (dc_max_len d) eof inp) as [[frame|] r|e| |] eqn:Hn; try done.
    destruct (decode_frame d frame) as [[d2|e]|]; [|done..]. intros [= _ _ <-]. by eapply next_frame_consumes.
Defined.
End secio_laws.

(** ** Secio as an upgrade *)

Definition SECIO_PROTOCOL : bytes := b_str "/secio/1.0.0".

Section secio_upgrade.
Context {PeerId : Type} `{NodeIdentity PeerId} `{SecioCrypto} `{SecioCodec}.
#[local] Instance secio_name : ToBytes bytes := λ b, b.

Definition secio_upgrader (chunks accepts : nat → nat) (c : SecioConfig (PeerId := PeerId)) (nonce : bytes) (rng : agr_rng) :
    Upgrader bytes (SecioOutput (PeerId := PeerId)) := {|
  protocol_info := [SECIO_PROTOCOL];
  upgrade_inbound _ := sess_map_err (λ _, SecurityErr) (secio_make_secure_output chunks accepts c nonce rng);
  upgrade_outbound _ := sess_map_err (λ _, SecurityErr) (secio_make_secure_output chunks accepts c nonce rng)
|}.

(** The two directions of the secured socket. *)
Definition secio_halves (o : SecioOutput (PeerId := PeerId)) : Encrypter * Decrypter :=
  (ss_encrypter (so_stream o), ss_decrypter (so_stream o)).
End secio_upgrade.

Section secio_stack.
Context {PeerId : Type} `{NodeIdentity PeerId} `{!NodeIdentityLaws PeerId} `{SecioCryptoLaws} `{SecioCodecLaws} `{HV : Varint} `{HL : !VarintLaws}.
Context (chunks accepts : nat → nat) (Hacc : ∀ j, 0 < accepts j).
#[local] Existing Instance secio_name.
#[local] Instance stack_channel : SecureCodec Encrypter Decrypter := secio_channel accepts.
#[local] Instance stack_laws : SecureCodecLaws Encrypter Decrypter := secio_channel_laws accepts Hacc.

Lemma stable_secio_upgrader c nonce rng : stable_upgrader (secio_upgrader chunks accepts c nonce rng).
Proof. intros i. split; apply stable_map_err, stable_secio. Qed.

(** The handshakes of two nodes end with sockets that belong together. *)
Lemma secio_handshakes ca na ra cb nb rb ke ci di :
  honest ca na ra cb nb rb ke ci di →
  (Z.of_nat (SECIO_CHUNK + 80) ≤ sc_max_frame_length ca)%Z → (Z.of_nat (SECIO_CHUNK + 80) ≤ sc_max_frame_length cb)%Z →
  ∃ oa ob, handshakes (secio_upgrader chunks accepts ca na ra) (secio_upgrader chunks accepts cb nb rb) SECIO_PROTOCOL SECIO_PROTOCOL oa ob ∧
    paired (secio_halves oa) (secio_halves ob).
Proof.
  intros Hh Hma Hmb. destruct (secio_links chunks chunks accepts accepts ca na ra cb nb rb ke ci di) as (sa&sb&[_ Hrun]&Hab&Hba&Ha&Hb&Hxa&Hxb); [done..|].
  exists (secio_output ca cb sa), (secio_output cb ca sb). split.
  - apply link_returns_intro; [apply stable_secio_upgrader; exact SECIO_PROTOCOL..|].
    apply (link_bind _ _ _ _ (λ r, SRet (map_err (λ _, SecurityErr) r)) (λ r, SRet (map_err (λ _, SecurityErr) r)) _ _ _ _ (Hrun _ (rtc_refl _ _))).
  - pose proof (overhead_bound (ss_encrypter sa)). pose proof (overhead_bound (ss_encrypter sb)).
    split; (split; [done|]; split; [done|]; cbn; lia).
Qed.

Lemma secio_negotiable : negotiable SECIO_PROTOCOL.
Proof. unfold negotiable. by_eval. Qed.

Lemma secio_common ca na ra cb nb rb :
  first_common (secio_upgrader chunks accepts ca na ra) (secio_upgrader chunks accepts cb nb rb) SECIO_PROTOCOL SECIO_PROTOCOL.
Proof. exists [], SECIO_PROTOCOL, []. split; [reflexivity|]. split; [constructor|reflexivity]. Qed.

(** Two nodes that secure a connection with secio and have a multiplexer in common
    complete the upgrade of the connection: the negotiation and the handshake of secio
    and, on the encrypted stream, those of the multiplexer, in every order of the reads
    and writes. *)
Theorem secio_upgrade_completes {MD ML RD RL} `{ToBytes MD, ToBytes ML} (muxd : Upgrader MD RD) (muxl : Upgrader ML RL)
    ca na ra cb nb rb ke ci di x y a b rounds (Hhonest : honest ca na ra cb nb rb ke ci di)
    (Hmax : (Z.of_nat (SECIO_CHUNK + 80) ≤ sc_max_frame_length ca ∧ Z.of_nat (SECIO_CHUNK + 80) ≤ sc_max_frame_length cb)%Z)
    (Hstable : stable_upgrader muxd ∧ stable_upgrader muxl) (Hsmall : small_upgrader SECIO_CHUNK muxd ∧ small_upgrader SECIO_CHUNK muxl)
    (Hnames : Forall (λ i, negotiable (to_bytes i)) (protocol_info muxd))
    (Hmux : first_common muxd muxl x y) (Hshake : handshakes muxd muxl x y a b) (Hrounds : S (length (protocol_info muxd)) ≤ rounds ∧ 2 ≤ rounds) :
  link_returns (upgrade_socket_out secio_halves (secio_upgrader chunks accepts ca na ra) muxd)
    (upgrade_socket_in secio_halves rounds (secio_upgrader chunks accepts cb nb rb) muxl) (Ok a) (Ok b) [] [].
Proof.
  destruct (secio_handshakes ca na ra cb nb rb ke ci di Hhonest (proj1 Hmax) (proj2 Hmax)) as (oa&ob&Hsec&Hpair).
  apply (upgrade_completes secio_halves secio_halves _ _ muxd muxl SECIO_PROTOCOL SECIO_PROTOCOL oa ob x y); try done; [|apply secio_common|cbn; lia].
  split; [apply stable_secio_upgrader..|apply Hstable|apply Hstable| |].
  - split_and!; [apply Hsmall|apply Hsmall|]. cbn. unfold NEGOTIATION_MAX, SECIO_CHUNK. lia.
  - split; [|done]. constructor; [apply secio_negotiable|constructor].
Qed.
End secio_stack.

(** ** A concrete upgrade *)

#[local] Existing Instance leb128.
#[local] Existing Instance toy_peer_id.
#[local] Existing Instance toy_node.
#[local] Existing Instance toy_node_laws.
#[local] Existing Instance toy_crypto.
#[local] Existing Instance toy_crypto_laws.
#[local] Existing Instance Secio.toy_codec.
#[local] Existing Instance Secio.toy_codec_laws.
#[local] Existing Instance name_to_bytes.

Lemma greet_small_chunk names b : small_upgrader SECIO_CHUNK (greet names b).
Proof.
  intros i. destruct (greet_small names b i) as [Hin Hout].
  assert (Hle : Z.to_nat 65536 ≤ SECIO_CHUNK) by (apply Z2Nat.inj_le; by vm_compute).
  split; by apply (small_sends_le _ _ _ Hle).
Qed.

Definition alice_stack := upgrade_socket_out (H2 := secio_channel (λ _, 5)) secio_halves (secio_upgrader (λ _, 3) (λ _, 5) alice alice_nonce alice_rng) dial_b.
Definition bob_stack := upgrade_socket_in (H2 := secio_channel (λ _, 5)) secio_halves 3 (secio_upgrader (λ _, 3) (λ _, 5) bob bob_nonce bob_rng) listen_bc.

Lemma secio_upgrade_completes_witness :
  link_returns alice_stack bob_stack (Ok (b_str "/b" ++ [Byte.x07])) (Ok (b_str "/b" ++ [Byte.x07])) [] [].
Proof.
  apply (secio_upgrade_completes (λ _, 3) (λ _, 5) ltac:(intros; cbn; lia) dial_b listen_bc alice alice_nonce alice_rng bob bob_nonce bob_rng
    EcdhP256 Aes128Gcm Sha256 (b_str "/b") (b_str "/b")).
  - apply alice_bob.
  - split; by vm_compute.
  - split; apply greet_stable.
  - split; apply greet_small_chunk.
  - constructor; [apply negotiable_b|constructor].
  - apply common_b.
  - apply greet_handshakes.
  - cbn. lia.
Defined.
